(* ===== verification/_CoqProject ===== *)
-Q . S2P
Prelude.v
Text.v
Protocol.v
Wire.v
Scheduler.v
Mpi.v
Placement.v
LocalDomain.v
Pmap.v
PmapRuns.v
Transport.v
Memory.v
Link.v
LinkRuns.v
Tcp.v
TcpRuns.v
Connect.v
Rendezvous.v
ConnectRuns.v
MpiTransport.v
MpiRuns.v
MpiStreams.v
MpiConnect.v
Error.v
RuntimeTypes.v
RuntimeWire.v
Dedup.v
Action.v
BatchWire.v
BatchPmap.v
Collectives.v
Pending.v
Domain.v
ObjectWire.v
ObjectRegistry.v
Objects.v
Migration.v
ObjectRuns.v
ObjectWorld.v
ObjectExpiry.v
MigrationFuture.v
MigrationRuns.v
RuntimeState.v
Driver.v
DriverRuns.v
DriverRequests.v
DriverCalls.v
DriverFaults.v
Builder.v
Client.v
Scope.v
ClientCalls.v
ScopeRuns.v
ClientLeases.v
ClientFaults.v
