(* ===== verification/Prelude.v ===== *)
(** * Hataori: a verification library

    Hataori (Rust) runs data-parallel maps serially, on Rayon threads, over MPI
    ranks and over a long-lived distributed runtime.  This library models the
    code of its four crates and proves what makes each part correct.  All file
    names below are under [src/]; [foundation] stands for
    [crates/hataori-runtime-foundation/src], [runtime] for
    [crates/hataori-runtime/src] and [algorithms] for
    [crates/hataori-algorithms/src].

    ** The parts

    The synchronous algorithms ([src/]):
    - [Text] ([src/map.rs], [cap] of [runtime/error.rs]): Rust strings as
      well-formed UTF-8, truncation of messages, and the serial [map], the
      reference against which every parallel map is compared.
    - [Wire] ([src/wire.rs]): frame headers, payload frames and the error keys
      whose order decides which error is reported.
    - [Scheduler] ([src/scheduler.rs]): the coordinator of the dynamic [pmap].
      Every method is a computation on the [Coordinator] record; [accepted]
      is the abstract specification they refine.
    - [Mpi]: programs of ranks and the message-passing semantics on which the
      next two run.  Nothing in it is code of the repository.
    - [Placement] ([src/placement.rs]): [broadcast], [scatter] and [gather].
    - [LocalDomain] ([src/domain.rs], [src/local.rs]): execution domains of a
      rank, worker pinning and the Rayon map [map_in].
    - [Pmap] ([src/pmap.rs]): the programs of the root and of the workers, and
      [PmapRuns]: their joint executions.

    The transport layer ([foundation]):
    - [Protocol] ([protocol.rs]): identities, limits, the hello handshake, the
      framing of parcels.
    - [Transport] ([transport.rs]): tickets, events and submission accounting.
    - [Memory] ([memory.rs]): the deterministic network with fault injection.
    - [Link] (what [tcp.rs] and [mpi.rs] share): the bounded channels between
      handles and driver, the admission of a parcel, events that wait, and
      [progress], [flush] and [shutdown] around the [drive] of a [Backend];
      [LinkRuns]: what is reserved is what is queued or on its way.
    - [Tcp] ([tcp.rs]): frames on a stream per peer and channel, over [Sockets];
      [TcpRuns]: what holds of it after any calls.
    - [Connect] ([connect] of [tcp.rs]) and [Rendezvous] ([tcp/rendezvous.rs]):
      how localities meet, over a [Network] that gives connections and the time;
      [ConnectRuns]: that they agree.
    - [MpiTransport] ([mpi.rs]): parcels in chunks over a [Communicator];
      [MpiRuns]: what chunks are put together to; [MpiStreams]: what holds of the
      driver after any calls.  [MpiConnect] ([connect] of [mpi.rs]): how the
      ranks of a world meet, over the two collective calls of MPI.

    The long-lived runtime ([runtime]):
    - [Error] ([error.rs]), [RuntimeTypes] (the plain data of [runtime.rs]) and
      [RuntimeWire] ([wire.rs]): messages inside parcels.
    - [Action] ([action.rs]): registered actions, type-erased handlers, codecs.
    - [Dedup] ([dedup.rs]): at-most-once execution of requests.
    - [Pending] ([pending.rs]): promises and the table of pending calls.
    - [Domain] ([domain.rs]): worker pools, jobs and completions.
    - [RuntimeState] and [Driver] ([runtime.rs], the leases of [object.rs]): the
      runtime of a locality, which composes all of these and the object service
      over a transport that is a parameter ([TransportDriver]).  [DriverRuns],
      [DriverRequests] and [DriverCalls] show what holds of a runtime after any
      calls; [DriverFaults] where it does not do what it means to.
    - [Builder] ([RuntimeBuilder] of [runtime.rs]): registrations, handshake,
      start.
    - [Client] ([runtime.rs], [object.rs]): the handles of objects, the futures of
      calls, placements, creations and transfers, the methods of
      [RuntimeClient] that make them and [block_on]; [ClientCalls] and
      [ClientLeases] show what they come to, [ClientFaults] where they do not do
      what the documents say.
    - [Scope] ([scope.rs]): structured remote work; [ScopeRuns].

    Remote objects ([runtime/object.rs], [runtime/object/migration.rs]):
    - [ObjectWire]: the messages about objects and their codecs.
    - [ObjectRegistry]: registered types and actions, and their fingerprint.
    - [Objects]: the service of a locality: its table of objects with leases,
      roots, mailboxes and locations, and every method of it.
    - [Migration]: the six steps of a migration on a service.
    - [ObjectRuns]: what any calls of the service preserve, against a ledger of
      the admissions that still run.
    - [ObjectWorld]: the service under any sequence of calls, with the mailbox
      calls accepted and handed out.
    - [ObjectExpiry]: leases and grace periods.
    - [MigrationFuture]: the state machine of the caller of a migration, against
      arbitrary answers; [MigrationRuns]: the same over the services of a run.

    The algorithms over the runtime ([algorithms]):
    - [BatchWire] ([options.rs], [error.rs], the codecs of [batch.rs]);
    - [BatchPmap] (the handler and the controller of [batch.rs]);
    - [Collectives] ([collectives.rs]).

    ** How the model reads

    Fallible code returns [result E A]; methods on [&mut self] are computations
    in the monad [M S E A], which keeps the state a failing method leaves behind
    and has panics as a separate outcome ([Panic]).  A function called [f] in the
    code is called [f] here, a method [m] of [T] is [T_m] or stands in the file
    of [T].  Integers are [Z] with the width of the code written out ([wrapping],
    checked and saturating operations); [usize] is 64 bits wide; indices and
    lengths that the code cannot make overflow are [nat].  [HashMap] and
    [BTreeMap] are [gmap]s; where the code iterates, the order is written out.
    Third-party code (bincode, Rayon, MPI, user callbacks) is a parameter.

    A method of the object service is one atomic computation (it runs under the
    service's mutex), and reads the clock once; the order in which it meets the
    objects of its table is an argument.  A method of the driver is one
    computation on the whole [Runtime]; the clients of a runtime and its workers
    act between such methods, not within one.  A poll that loops lets them act
    between its rounds ([others]).  [MigrationRuns] serves a request at once,
    by the handler it is addressed to, without the admission of the driver.

    Concurrency is interleaving: a step is what the code does under one lock, by
    one atomic operation or by one MPI call.  Shared objects ([Arc]s that two
    parts mutate) are addresses into stores.

    ** What the theorems show

    - The maps are the serial map: [Text.map_stops_at_first_error] says what
      that is; [Scheduler] shows that whatever order the workers ask, compute
      and answer in, the coordinator hands every input out once and assembles
      the outputs in order; [PmapRuns.pmap_is_serial_map] composes it with the
      programs of all ranks: every interleaving ends, with that answer or the
      same error on all ranks; [LocalDomain.map_in_exact] and the theorems of
      [BatchPmap] say the same of the other maps.
    - No deadlock: [PmapRuns], [Placement.placement_delivers],
      [Domain.accepted_jobs_drain], [Memory.network_delivers],
      [Scheduler.runs_terminate_and_can_finish].
    - Codecs: every decoder accepts exactly the encodings of well-formed values
      ([Protocol], [RuntimeWire], [BatchWire], [Wire], [Action]).
    - Accounting: counters are exact and within their limits on every reachable
      state and never wrap ([Transport], [Memory], [Dedup], [Domain],
      [Pending]).
    - Transports: on a TCP stream the bytes written are the frames of the parcels
      accepted for it, in order, however the system splits them, and what is
      delivered is what was taken ([TcpRuns.tcp_streams_exact]); over a
      connection every parcel arrives unchanged, in order and once
      ([TcpRuns.tcp_delivers_in_order]).  Localities that connect agree on their
      connections and capabilities ([ConnectRuns.connect_agrees]), those of a
      rendezvous on endpoints and identifiers ([ConnectRuns.rendezvous_agrees]).
      Over MPI the chunks that arrive on a channel are put together to exactly the
      parcels that were sent, and transfers never mix
      ([MpiRuns.mpi_chunks_exact]); a driver sends the chunks of what it
      accepted, in order, and delivers what it put together
      ([MpiStreams.mpi_streams_exact], [MpiStreams.mpi_delivers_in_order]); the
      ranks of a world agree on limits and capabilities, or all are refused
      ([MpiConnect.mpi_connect_agrees]).
    - Exactly once: [Dedup.begun_request_runs_once], [Domain.jobs_complete_once],
      [Pending.promise_delivers_once], [Pending.result_answers_its_call].
    - The driver: its queues, tables and tickets stay within their limits and the
      byte account is exact ([DriverRuns.driver_within_limits]); a request is in
      exactly one place until its answer is recorded
      ([DriverRequests.requests_conserved]); every call is answered, by its result,
      its deadline, a failure or the shutdown ([DriverCalls.driver_answers_calls]).
    - Clients: a runtime that is built starts, and what its handshake was made of
      does not change after it ([Builder.builder_starts], [Builder.hello_pins]);
      a poll of an object call follows redirects to newer epochs only, within
      their limit, and returns ([ClientCalls.object_call_follows_redirects]); a
      preferred placement is repeated at most once, where its fallback says
      ([ClientCalls.preferred_placement_falls_back_once]); the handles of an
      object share one lease, which is released with the last of them
      ([ClientLeases.handles_share_leases]); a scope leaves no call of its own
      pending ([ScopeRuns.scope_leaves_nothing]).
    - Objects: a service's counts of objects, mailbox entries and uses are those
      of its table after any calls ([ObjectWorld.objects_accounted]); mailbox
      calls are handed out in the order they came ([ObjectWorld.mailbox_fifo],
      [ObjectWorld.mailboxes_drain]); what is leased, rooted or in use survives
      every expiry and what nobody holds goes ([ObjectExpiry]).
    - Migration: whatever the localities answer, the caller's future settles
      exactly once and undoes what it began ([MigrationFuture]); if nothing
      stands in its way the object arrives under the next epoch
      ([MigrationRuns]).

    ** Fuel

    Loops whose recursion is not structural take a [nat] of fuel, one unit per
    iteration.  [PmapRuns.pmap_is_serial_map] holds for every fuel larger than
    three times the number of inputs plus twice the number of ranks plus three:
    an iteration of the root accepts a call of the coordinator or ends the loop.
    [Memory.network_delivers] and the theorems of [BatchPmap] state the fuel
    they need in the same way.  [MigrationRuns] takes the number of redirects the
    resolver allows plus eight: a migration has eight states and a redirect
    returns to the first of them.  [Client.call_poll] gives its loop one round
    more than the redirects that are left, and [ClientCalls] proves that the loop
    never runs out.  The two loops of [Tcp.service_read] get a round for every
    byte they may keep, and [TcpRuns] proves that they never run out.
  [MpiConnect.connect] cuts what was gathered with a round for every byte of it.
    [Driver.shutdown], [Client.block_on], [Link.flush], [Connect.connect] and
    [Rendezvous.join] return [None] when their fuel is spent: the rounds they need depend on the workers, on the peers
    and on the clock.

    ** Not modelled

    - [src/pmap.rs] built with Rayon: the hybrid loops poll MPI and a channel
      in turn and yield when both are empty; that they end needs fairness of the
      operating system's threads.
    - [runtime/runtime.rs]: the [Debug] implementations, the accessors of fields,
      and the methods of [Runtime] that only call the method of [RuntimeClient]
      of the same name.
    - The tests, smoke programs, examples, benchmarks and the tenferro adapter. *)
From Stdlib Require Export ZArith Lia.
From Stdlib Require Import Strings.Byte.
From stdpp Require Export base tactics numbers option list gmap strings.

#[global] Open Scope Z_scope.

(** ** Fallible code: Rust's [Result] *)

Inductive result (E A : Type) : Type :=
| Ok (a : A)
| Err (e : E).
Arguments Ok {E A} _.
Arguments Err {E A} _.

#[export] Instance result_ret E : MRet (result E) := fun A a => Ok a.
#[export] Instance result_bind E : MBind (result E) :=
  fun A B f r => match r with Ok a => f a | Err e => Err e end.
#[export] Instance result_fmap E : FMap (result E) :=
  fun A B f r => match r with Ok a => Ok (f a) | Err e => Err e end.

Definition is_ok {E A} (r : result E A) : bool :=
  match r with Ok _ => true | Err _ => false end.

(** [Result::map_err]. *)
Definition map_err {E F A} (f : E -> F) (r : result E A) : result F A :=
  match r with Ok a => Ok a | Err e => Err (f e) end.

(** [Option::ok_or]. *)
Definition ok_or {E A} (o : option A) (e : E) : result E A :=
  match o with Some a => Ok a | None => Err e end.

(** [if b { return Err(e) }]. *)
Definition fail_if {E} (b : bool) (e : E) : result E unit :=
  if b then Err e else Ok tt.

(** [Iterator::collect::<Result<Vec<_>, _>>] over [map]: the first error wins. *)
Fixpoint mapR {E A B} (f : A -> result E B) (l : list A) : result E (list B) :=
  match l with
  | [] => Ok []
  | x :: l' => y ← f x; ys ← mapR f l'; Ok (y :: ys)
  end.

(** ** Stateful fallible code: methods on [&mut self]

    A method runs on the state and returns its [Result] together with the state
    it leaves behind, whether it succeeded or not.  [Panic] is a Rust panic: a
    failed [expect] or [unwrap], an index out of bounds, an [unreachable!]. *)

Inductive exn (E : Type) : Type :=
| Raise (e : E)
| Panic.
Arguments Raise {E} _.
Arguments Panic {E}.

Definition M (S E A : Type) : Type := S -> result (exn E) A * S.

#[export] Instance M_ret S E : MRet (M S E) := fun A a s => (Ok a, s).
#[export] Instance M_bind S E : MBind (M S E) := fun A B f m s =>
  match m s with
  | (Ok a, s') => f a s'
  | (Err e, s') => (Err e, s')
  end.

Definition gets {S E A} (f : S -> A) : M S E A := fun s => (Ok (f s), s).
Definition modify {S E} (f : S -> S) : M S E unit := fun s => (Ok tt, f s).
Definition raise {S E A} (e : E) : M S E A := fun s => (Err (Raise e), s).
Definition panic {S E A} : M S E A := fun s => (Err Panic, s).
(** [?] on a pure [Result]. *)
Definition lift {S E A} (r : result E A) : M S E A :=
  fun s => match r with Ok a => (Ok a, s) | Err e => (Err (Raise e), s) end.
Definition lift_exn {S E A} (r : result (exn E) A) : M S E A := fun s => (r, s).
(** [if b { m }]. *)
Definition mwhen {S E} (b : bool) (m : M S E unit) : M S E unit :=
  if b then m else mret tt.
(** [for x in l { f(x)? }]. *)
Fixpoint for_each {A S E} (f : A -> M S E unit) (l : list A) : M S E unit :=
  match l with [] => mret tt | x :: l' => f x;; for_each f l' end.

(** ** Machine integers

    A [w]-bit unsigned integer is a [Z] in [[0, 2^w)].  The development fixes a
    64-bit target, so [usize] and [u64] have the same range. *)

Definition u8_max : Z := 2 ^ 8 - 1.
Definition u16_max : Z := 2 ^ 16 - 1.
Definition u32_max : Z := 2 ^ 32 - 1.
Definition u64_max : Z := 2 ^ 64 - 1.
Definition u128_max : Z := 2 ^ 128 - 1.
Definition usize_max : Z := u64_max.
Definition i32_max : Z := 2 ^ 31 - 1.
Definition i64_max : Z := 2 ^ 63 - 1.
Definition isize_max : Z := i64_max.

Definition in_u (w : Z) (z : Z) : Prop := 0 <= z < 2 ^ w.
#[export] Instance in_u_dec w z : Decision (in_u w z).
Proof. unfold in_u. apply _. Defined.

(** [checked_add] and [checked_mul] of an unsigned type with maximum [m]. *)
Definition checked_add (m a b : Z) : option Z := if a + b <=? m then Some (a + b) else None.
Definition checked_mul (m a b : Z) : option Z := if a * b <=? m then Some (a * b) else None.
Lemma checked_add_some m a b c : checked_add m a b = Some c -> c = a + b /\ a + b <= m.
Proof. unfold checked_add. destruct (Z.leb_spec (a + b) m); [|done]. by intros [= <-]. Qed.
Lemma checked_mul_some m a b c : checked_mul m a b = Some c -> c = a * b /\ a * b <= m.
Proof. unfold checked_mul. destruct (Z.leb_spec (a * b) m); [|done]. by intros [= <-]. Qed.
(** [saturating_add], [saturating_sub]. *)
Definition saturating_add (m a b : Z) : Z := Z.min m (a + b).
Definition saturating_sub (a b : Z) : Z := Z.max 0 (a - b).
(** [wrapping_add], [wrapping_sub] and [wrapping_mul] at width [w]. *)
Definition wrapping_add (w a b : Z) : Z := (a + b) mod 2 ^ w.
Definition wrapping_sub (w a b : Z) : Z := (a - b) mod 2 ^ w.
Definition wrapping_mul (w a b : Z) : Z := (a * b) mod 2 ^ w.

(** [Vec::len], as the [usize] the code sees. *)
Definition len {A} (l : list A) : Z := Z.of_nat (length l).

(** ** Bytes and little-endian integers *)

Abbreviation byte := Byte.byte.
#[export] Instance byte_eq_dec : EqDecision byte := Byte.byte_eq_dec.

Definition byte_val (b : byte) : Z := Z.of_N (Byte.to_N b).
(** [value as u8]: the low eight bits. *)
Definition byte_of (z : Z) : byte :=
  match Byte.of_N (Z.to_N (z mod 256)) with Some b => b | None => Byte.x00 end.

(** [uN::to_le_bytes] for [n = N / 8]. *)
Fixpoint to_le_bytes (n : nat) (z : Z) : list byte :=
  match n with
  | O => []
  | S n' => byte_of z :: to_le_bytes n' (z / 256)
  end.

(** [uN::from_le_bytes]. *)
Fixpoint from_le_bytes (l : list byte) : Z :=
  match l with
  | [] => 0
  | b :: l' => byte_val b + 256 * from_le_bytes l'
  end.

(** [&bytes[a..b]] for constant bounds inside a checked length. *)
Definition slice {A} (a b : nat) (l : list A) : list A := take (b - a) (drop a l).

(** ** Automation *)

Create HintDb hataori discriminated.
Create Rewrite HintDb lens.

(** Split a hypothesis [(x ← e; k) = Ok v] or [= Err e] into the outcome of [e]
    and the equation for the continuation. *)
Ltac bind_inv H :=
  match type of H with
  | mbind _ ?e = _ =>
      let E := fresh "E" in
      destruct e eqn:E; cbn [mbind result_bind] in H; [ | try discriminate H ]
  end.

(** Run the monads' operations one layer at a time. *)
Ltac rcbn := cbn [mbind result_bind option_bind ok_or fail_if andb orb negb mret result_ret].
Ltac rcbn_in H :=
  cbn [mbind result_bind option_bind ok_or fail_if andb orb negb mret result_ret] in H.

Create Rewrite HintDb monad.
Ltac mrun :=
  repeat (autorewrite with monad;
          cbn [mwhen negb andb orb mret M_ret lift raise panic gets modify
               lift_exn result_bind result_ret ok_or fail_if id]).
Ltac mrun_in H :=
  repeat (autorewrite with monad in H;
          cbn [mwhen negb andb orb mret M_ret lift raise panic gets modify
               lift_exn result_bind result_ret ok_or fail_if id] in H).

Ltac fail_if_inv H :=
  match type of H with
  | fail_if ?b _ = Ok _ =>
      unfold fail_if in H; destruct b eqn:?; [ discriminate H | clear H ]
  end.

(** Turn boolean integer tests in hypotheses into propositions. *)
Ltac zbool :=
  repeat match goal with
  | H : _ && _ = true |- _ => apply andb_true_iff in H as [? ?]
  | H : _ || _ = false |- _ => apply orb_false_iff in H as [? ?]
  | H : _ && _ = false |- _ => apply andb_false_iff in H
  | H : _ || _ = true |- _ => apply orb_true_iff in H
  | H : (_ <? _) = true |- _ => apply Z.ltb_lt in H
  | H : (_ <? _) = false |- _ => apply Z.ltb_ge in H
  | H : (_ <=? _) = true |- _ => apply Z.leb_le in H
  | H : (_ <=? _) = false |- _ => apply Z.leb_gt in H
  | H : (_ >=? _) = true |- _ => apply Z.geb_le in H
  | H : (_ =? _) = true |- _ => apply Z.eqb_eq in H
  | H : (_ =? _) = false |- _ => apply Z.eqb_neq in H
  | H : negb _ = true |- _ => apply negb_true_iff in H
  | H : negb _ = false |- _ => apply negb_false_iff in H
  | H : bool_decide _ = true |- _ => apply bool_decide_eq_true in H
  | H : bool_decide _ = false |- _ => apply bool_decide_eq_false in H
  end.

(** Decide the integer tests of the goal that [lia] can decide. *)
Ltac zunfold :=
  unfold usize_max, isize_max, u8_max, u16_max, u32_max, u64_max, u128_max,
    i32_max, i64_max, in_u in *.

Ltac zdec1 :=
  match goal with
  | |- context [?a <=? ?b] =>
      first [ rewrite (proj2 (Z.leb_le a b)) by (zunfold; lia)
            | rewrite (proj2 (Z.leb_gt a b)) by (zunfold; lia) ]
  | |- context [?a <? ?b] =>
      first [ rewrite (proj2 (Z.ltb_lt a b)) by (zunfold; lia)
            | rewrite (proj2 (Z.ltb_ge a b)) by (zunfold; lia) ]
  | |- context [?a =? ?b] =>
      first [ rewrite (proj2 (Z.eqb_eq a b)) by (zunfold; lia)
            | rewrite (proj2 (Z.eqb_neq a b)) by (zunfold; lia) ]
  end.
Ltac zdec := repeat (zdec1; rcbn).

(** ** Lemmas on the state monad *)

Section MonadLemmas.
Context {S E A B : Type}.
Implicit Types (k : A -> M S E B) (s : S).

Lemma M_bind_ret (a : A) k s : (mret a ≫= k) s = k a s.
Proof. done. Qed.
Lemma M_bind_gets (f : S -> A) k s : (gets f ≫= k) s = k (f s) s.
Proof. done. Qed.
Lemma M_bind_modify (f : S -> S) (k : unit -> M S E B) s : (modify f ≫= k) s = k tt (f s).
Proof. done. Qed.
Lemma M_bind_raise (e : E) k s : (raise e ≫= k) s = (Err (Raise e), s).
Proof. done. Qed.
Lemma M_bind_panic k s : (panic ≫= k) s = (Err Panic, s).
Proof. done. Qed.
Lemma M_bind_lift (r : result E A) k s :
  (lift r ≫= k) s = match r with Ok a => k a s | Err e => (Err (Raise e), s) end.
Proof. unfold mbind, M_bind, lift. by destruct r. Qed.
Lemma M_bind_lift_exn (r : result (exn E) A) k s :
  (lift_exn r ≫= k) s = match r with Ok a => k a s | Err e => (Err e, s) end.
Proof. unfold mbind, M_bind, lift_exn. by destruct r. Qed.

Lemma M_bind_step (m : M S E A) k s r s' :
  m s = (r, s') ->
  (m ≫= k) s = match r with Ok a => k a s' | Err e => (Err e, s') end.
Proof. intros H. unfold mbind, M_bind. by rewrite H. Qed.

Lemma M_bind_ok (m : M S E A) k s b s'' :
  (m ≫= k) s = (Ok b, s'') -> exists a s', m s = (Ok a, s') /\ k a s' = (Ok b, s'').
Proof.
  unfold mbind, M_bind. destruct (m s) as [[a|e] s']; [|done]. eauto.
Qed.
End MonadLemmas.

Lemma M_bind_assoc {S E A B C} (m : M S E A) (f : A -> M S E B) (g : B -> M S E C) s :
  ((m ≫= f) ≫= g) s = (m ≫= (fun a => f a ≫= g)) s.
Proof. unfold mbind, M_bind. by destruct (m s) as [[]]. Qed.

Lemma M_if {S E A B} (b : bool) (m m' : M S E A) (k : A -> M S E B) s :
  ((if b then m else m') ≫= k) s = if b then (m ≫= k) s else (m' ≫= k) s.
Proof. by destruct b. Qed.

#[export] Hint Rewrite @M_bind_ret @M_bind_gets @M_bind_modify @M_bind_raise @M_bind_panic
  @M_bind_lift @M_bind_lift_exn @M_bind_assoc : monad.

(** ** Program logic

    [wp m Q R s]: from [s], [m] does not panic; if it returns [a] then [Q a]
    holds of the state it leaves, and if it fails with [e] then [R e] does. *)

Definition wp {S E A} (m : M S E A) (Q : A -> S -> Prop) (R : E -> S -> Prop) (s : S) : Prop :=
  match m s with
  | (Ok a, s') => Q a s'
  | (Err (Raise e), s') => R e s'
  | (Err Panic, _) => False
  end.

Section Wp.
Context {S E : Type}.
Implicit Types (R : E -> S -> Prop) (s : S).

Lemma wp_ret {A} (a : A) Q R s : Q a s -> wp (mret a) Q R s.
Proof. done. Qed.
Lemma wp_gets {A} (f : S -> A) Q R s : Q (f s) s -> wp (gets f) Q R s.
Proof. done. Qed.
Lemma wp_modify (f : S -> S) (Q : unit -> S -> Prop) R s : Q tt (f s) -> wp (modify f) Q R s.
Proof. done. Qed.
Lemma wp_raise {A} (e : E) (Q : A -> S -> Prop) R s : R e s -> wp (raise e) Q R s.
Proof. done. Qed.
Lemma wp_lift {A} (r : result E A) Q R s :
  match r with Ok a => Q a s | Err e => R e s end -> wp (lift r) Q R s.
Proof. unfold wp, lift. by destruct r. Qed.
Lemma wp_bind {A B} (m : M S E A) (k : A -> M S E B) Q R s :
  wp m (fun a => wp (k a) Q R) R s -> wp (m ≫= k) Q R s.
Proof. unfold wp, mbind, M_bind. by destruct (m s) as [[a|[e|]] s']. Qed.
Lemma wp_mono {A} (m : M S E A) (Q Q' : A -> S -> Prop) R R' s :
  wp m Q R s -> (forall a s', Q a s' -> Q' a s') -> (forall e s', R e s' -> R' e s') ->
  wp m Q' R' s.
Proof. unfold wp. destruct (m s) as [[a|[e|]] s']; eauto. Qed.
Lemma wp_when (b : bool) (m : M S E unit) Q R s :
  (if b then wp m Q R s else Q tt s) -> wp (mwhen b m) Q R s.
Proof. by destruct b. Qed.
Lemma wp_eq {A} (m : M S E A) Q R s r s' :
  m s = (r, s') -> wp m Q R s ->
  match r with Ok a => Q a s' | Err (Raise e) => R e s' | Err Panic => False end.
Proof. unfold wp. by intros ->. Qed.
End Wp.

(** Step through a computation up to the first operation without a rule. *)
Ltac wp_step :=
  match goal with
  | |- wp (mbind _ _) _ _ _ => apply wp_bind
  | |- wp (mret _) _ _ _ => apply wp_ret
  | |- wp (gets _) _ _ _ => apply wp_gets
  | |- wp (modify _) _ _ _ => apply wp_modify
  | |- wp (raise _) _ _ _ => apply wp_raise
  | |- wp (lift _) _ _ _ => apply wp_lift
  | |- wp (mwhen _ _) _ _ _ => apply wp_when
  | |- wp (if ?b then _ else _) _ _ _ => destruct b eqn:?
  end.
Ltac wp_steps := repeat (cbv beta; wp_step).

(** ** Lemmas on bytes *)

Lemma byte_val_range b : 0 <= byte_val b < 256.
Proof. unfold byte_val. pose proof (Byte.to_N_bounded b). lia. Qed.

Lemma byte_val_of z : byte_val (byte_of z) = z mod 256.
Proof.
  unfold byte_of, byte_val.
  pose proof (Z.mod_pos_bound z 256 eq_refl) as Hb.
  destruct (Byte.of_N (Z.to_N (z mod 256))) as [b|] eqn:E.
  - apply Byte.to_of_N in E. rewrite E. lia.
  - apply Byte.of_N_None_iff in E. lia.
Qed.

Lemma byte_val_inj a b : byte_val a = byte_val b -> a = b.
Proof.
  unfold byte_val. intros H. apply N2Z.inj in H.
  pose proof (Byte.of_to_N a) as Ha. rewrite H, Byte.of_to_N in Ha. congruence.
Qed.

Lemma byte_of_val b : byte_of (byte_val b) = b.
Proof.
  apply byte_val_inj. rewrite byte_val_of. apply Z.mod_small, byte_val_range.
Qed.

Lemma byte_of_small z : 0 <= z < 256 -> byte_val (byte_of z) = z.
Proof. intros. rewrite byte_val_of. by apply Z.mod_small. Qed.

Lemma length_to_le_bytes n z : length (to_le_bytes n z) = n.
Proof. revert z. induction n; intros z; cbn; auto. Qed.

Lemma pow256_succ n : 256 ^ Z.of_nat (S n) = 256 * 256 ^ Z.of_nat n.
Proof. rewrite Nat2Z.inj_succ, Z.pow_succ_r; lia. Qed.

Lemma from_to_le_bytes n z :
  0 <= z < 256 ^ Z.of_nat n -> from_le_bytes (to_le_bytes n z) = z.
Proof.
  revert z. induction n as [|n IH]; intros z Hz; cbn [to_le_bytes from_le_bytes].
  - cbn in Hz. lia.
  - rewrite pow256_succ in Hz. rewrite byte_val_of, IH.
    + pose proof (Z.div_mod z 256). lia.
    + split; [apply Z.div_pos; lia | apply Z.div_lt_upper_bound; lia].
Qed.

Lemma from_le_bytes_range l : 0 <= from_le_bytes l < 256 ^ len l.
Proof.
  unfold len. induction l as [|b l IH]; cbn [from_le_bytes length].
  - cbn. lia.
  - rewrite pow256_succ. pose proof (byte_val_range b). lia.
Qed.

Lemma to_from_le_bytes l : to_le_bytes (length l) (from_le_bytes l) = l.
Proof.
  induction l as [|b l IH]; cbn [length to_le_bytes from_le_bytes]; [done|].
  pose proof (byte_val_range b) as Hb.
  replace (byte_val b + 256 * from_le_bytes l)
    with (from_le_bytes l * 256 + byte_val b) by lia.
  f_equal.
  - apply byte_val_inj. rewrite byte_val_of, Z.add_comm, Z_mod_plus_full.
    by apply Z.mod_small.
  - rewrite Z.div_add_l by lia. rewrite (Z.div_small (byte_val b)) by lia.
    by rewrite Z.add_0_r.
Qed.

Lemma to_from_le_bytes' n l : length l = n -> to_le_bytes n (from_le_bytes l) = l.
Proof. intros <-. apply to_from_le_bytes. Qed.

Lemma from_le_bytes_range' n l :
  length l = n -> 0 <= from_le_bytes l < 256 ^ Z.of_nat n.
Proof. intros <-. apply from_le_bytes_range. Qed.

Lemma to_le_bytes_1 b : to_le_bytes 1 (byte_val b) = [b].
Proof. cbn. by rewrite byte_of_val. Qed.

(** ** Lemmas on lengths and slices *)

Lemma len_nil {A} : len (@nil A) = 0.
Proof. done. Qed.
Lemma len_cons {A} (x : A) l : len (x :: l) = 1 + len l.
Proof. unfold len. cbn [length]. lia. Qed.
Lemma len_app {A} (l k : list A) : len (l ++ k) = len l + len k.
Proof. unfold len. rewrite length_app. lia. Qed.
Lemma len_nonneg {A} (l : list A) : 0 <= len l.
Proof. unfold len. lia. Qed.
Lemma len_to_le_bytes n z : len (to_le_bytes n z) = Z.of_nat n.
Proof. unfold len. by rewrite length_to_le_bytes. Qed.
Lemma len_zero {A} (l : list A) : len l = 0 -> l = [].
Proof. destruct l; rewrite ?len_cons; [done|]. pose proof (len_nonneg l). lia. Qed.

#[export] Hint Rewrite @length_app @length_cons @length_nil length_to_le_bytes
  @length_take @length_drop @length_fmap @length_replicate : lens.
#[export] Hint Rewrite @len_nil @len_cons @len_app len_to_le_bytes : lens.

Lemma slice_app_skip {A} a b (x y : list A) :
  (length x <= a)%nat -> slice a b (x ++ y) = slice (a - length x) (b - length x) y.
Proof.
  intros H. unfold slice. rewrite drop_app_ge by done. f_equal. lia.
Qed.

Lemma slice_app_hit {A} b (x y : list A) : length x = b -> slice 0 b (x ++ y) = x.
Proof.
  intros H. unfold slice. rewrite drop_0, Nat.sub_0_r. by apply take_app_length'.
Qed.

Lemma slice_all {A} b (x : list A) : length x = b -> slice 0 b x = x.
Proof. intros H. unfold slice. rewrite drop_0. apply take_ge. lia. Qed.

Lemma length_slice {A} a b (l : list A) :
  (a <= b <= length l)%nat -> length (slice a b l) = (b - a)%nat.
Proof. intros H. unfold slice. rewrite length_take, length_drop. lia. Qed.

Lemma slice_join {A} a b c (l : list A) :
  (a <= b <= c)%nat -> slice a b l ++ slice b c l = slice a c l.
Proof.
  intros H. unfold slice.
  replace (drop b l) with (drop (b - a) (drop a l)) by (rewrite drop_drop; f_equal; lia).
  rewrite <- (take_drop (b - a) (take (c - a) (drop a l))).
  rewrite take_take, Nat.min_l by lia.
  rewrite skipn_firstn_comm. do 2 f_equal. lia.
Qed.

(** Evaluate slices of a concatenation of pieces of known length. *)
Ltac slice_eval :=
  repeat first
    [ rewrite slice_app_skip by (autorewrite with lens; cbn; lia);
      autorewrite with lens; cbn [Nat.sub]
    | rewrite slice_app_hit by (autorewrite with lens; reflexivity)
    | rewrite slice_all by (autorewrite with lens; reflexivity) ].

(** A part of a duplicate-free concatenation is duplicate-free. *)
Lemma NoDup_bind_part {A B} (g : A -> list B) (l : list A) x :
  NoDup (l ≫= g) -> x ∈ l -> NoDup (g x).
Proof.
  intros Hnd (l1 & l2 & ->)%list_elem_of_split.
  rewrite bind_app in Hnd. apply NoDup_app in Hnd as (_ & _ & Hnd).
  cbn in Hnd. by apply NoDup_app in Hnd as (Hnd & _ & _).
Qed.

(** [mapR] succeeds exactly when every call does. *)
Lemma mapR_all {A B E} (g : A -> result E B) (k : list A) out :
  Forall2 (fun a b => g a = Ok b) k out -> mapR g k = Ok out.
Proof. induction 1 as [|a b k out Ha _ IH]; [done|]. cbn. by rewrite Ha, IH. Qed.

Lemma mapR_ok_iff {A B E'} (g : A -> result E' B) l :
  (exists out, mapR g l = Ok out) <-> Forall (fun x => is_ok (g x) = true) l.
Proof.
  induction l as [|x l IH]; cbn [mapR]; [split; eauto|]. rewrite Forall_cons, <- IH.
  destruct (g x) as [b|e]; rcbn; [|split; [by intros [??]|by intros [? _]]].
  destruct (mapR g l) as [bs|e]; rcbn; [split; eauto|]. split; [by intros [??]|by intros [_ [??]]].
Qed.
