(* ===== verification/Text.v ===== *)
(** * Text: UTF-8 strings, message truncation and the serial [map]

    A Rust [String] is the list of its bytes, well-formed UTF-8 as
    [str::from_utf8] checks it.  Models [truncate_message] and [map] of
    [src/map.rs] and [cap] of [crates/hataori-runtime/src/error.rs]. *)
From S2P Require Import Prelude.

(** ** UTF-8, as the standard library has it *)

Abbreviation text := (list byte) (only parsing).

Definition in_range (lo hi : Z) (b : byte) : bool := (lo <=? byte_val b) && (byte_val b <=? hi).
Definition continuation : byte -> bool := in_range 0x80 0xBF.

(** [str::from_utf8]: the well-formed byte sequences of the Unicode standard. *)
Fixpoint utf8_valid (l : text) : bool :=
  match l with
  | [] => true
  | b0 :: l1 =>
      if in_range 0 0x7F b0 then utf8_valid l1 else
      match l1 with
      | [] => false
      | b1 :: l2 =>
          if in_range 0xC2 0xDF b0 then continuation b1 && utf8_valid l2 else
          match l2 with
          | [] => false
          | b2 :: l3 =>
              if in_range 0xE0 0xEF b0 then
                (if byte_val b0 =? 0xE0 then in_range 0xA0 0xBF b1
                 else if byte_val b0 =? 0xED then in_range 0x80 0x9F b1
                 else continuation b1)
                && continuation b2 && utf8_valid l3
              else
              match l3 with
              | [] => false
              | b3 :: l4 =>
                  in_range 0xF0 0xF4 b0
                  && (if byte_val b0 =? 0xF0 then in_range 0x90 0xBF b1
                      else if byte_val b0 =? 0xF4 then in_range 0x80 0x8F b1
                      else continuation b1)
                  && continuation b2 && continuation b3 && utf8_valid l4
              end
          end
      end
  end.

(** [str::is_char_boundary]. *)
Definition is_char_boundary (m : text) (i : nat) : bool :=
  Nat.eqb i 0 || Nat.eqb i (length m)
  || match m !! i with Some b => negb (continuation b) | None => false end.

(** A string literal of the source. *)
Definition lit (s : string) : text := String.list_byte_of_string s.

(** [Display] of an integer: its decimal digits.  40 digits hold every integer of
    128 bits. *)
Fixpoint digits (fuel : nat) (n : Z) : text :=
  match fuel with
  | O => []
  | S fuel' => (if n <? 10 then [] else digits fuel' (n / 10)) ++ [byte_of (48 + n mod 10)]
  end.
Definition decimal (z : Z) : text := if z <? 0 then lit "-" ++ digits 40 (- z) else digits 40 z.

(** ** Truncation *)

Definition MAX_ERROR_MESSAGE_BYTES : nat := 4096.
Definition MAX_ERROR_BYTES : nat := 4096.

(** [while !message.is_char_boundary(end) { end -= 1 }]; [None] is the
    underflow of [end]. *)
Fixpoint boundary_at_most (m : text) (e : nat) : option nat :=
  if is_char_boundary m e then Some e
  else match e with O => None | S e' => boundary_at_most m e' end.

(** [String::truncate], after the loop. *)
Definition truncate_message (message : text) : option text :=
  if Nat.ltb MAX_ERROR_MESSAGE_BYTES (length message) then
    e ← boundary_at_most message MAX_ERROR_MESSAGE_BYTES; Some (take e message)
  else Some message.

(** [cap] of the runtime crate. *)
Definition cap (message : text) : option text :=
  if Nat.leb (length message) MAX_ERROR_BYTES then Some message
  else e ← boundary_at_most message MAX_ERROR_BYTES; Some (take e message).

(** ** The serial [map] *)

(** [truncate_message] returns on every [String] ([truncate_message_cut]); the
    fallback is never taken. *)
Definition bounded (message : text) : text := default [] (truncate_message message).

Record MapError : Type := mkMapError { error_index : nat; error_message : text }.

Section Map.
(** [f] is a [FnMut] callback over a state [S]; [display] renders its error. *)
Context {S T U E : Type} (display : E -> text) (f : T -> M S E U).

Definition MapError_new (index : nat) (error : E) : result (exn MapError) MapError :=
  match truncate_message (display error) with
  | Some message => Ok (mkMapError index message)
  | None => Err Panic
  end.

Fixpoint map_loop (index : nat) (output : list U) (items : list T) : M S MapError (list U) :=
  match items with
  | [] => mret output
  | item :: items' => fun s =>
      match f item s with
      | (Ok v, s') => map_loop (Datatypes.S index) (output ++ [v]) items' s'
      | (Err (Raise error), s') => (e ← lift_exn (MapError_new index error); raise e) s'
      | (Err Panic, s') => (Err Panic, s')
      end
  end.

Definition map_items (items : list T) : M S MapError (list U) := map_loop 0 [] items.

(** [f] called on each of [items] in turn, all successfully. *)
Inductive calls : list T -> S -> list U -> S -> Prop :=
| calls_nil s : calls [] s [] s
| calls_cons x items s v s1 vs s2 :
    f x s = (Ok v, s1) -> calls items s1 vs s2 -> calls (x :: items) s (v :: vs) s2.
End Map.

(** ** Characters *)

(** One character: a byte that is not a continuation byte, then at most three
    that are. *)
Definition char_shape (c : text) : Prop :=
  exists b rest, c = b :: rest /\ continuation b = false /\
    Forall (fun x => continuation x = true) rest /\ (length rest <= 3)%nat.

Definition char_valid (c : text) : Prop := c <> [] /\ char_shape c /\ forall l, utf8_valid (c ++ l) = utf8_valid l.

Lemma in_range_spec lo hi b : in_range lo hi b = true <-> lo <= byte_val b <= hi.
Proof. unfold in_range. rewrite andb_true_iff, !Z.leb_le. lia. Qed.

Lemma not_continuation lo hi b :
  in_range lo hi b = true -> hi < 0x80 \/ 0xBF < lo -> continuation b = false.
Proof.
  intros H%in_range_spec Hd. apply not_true_is_false. intros Hc%in_range_spec. lia.
Qed.

Lemma in_range_sub lo hi lo' hi' b :
  in_range lo hi b = true -> lo' <= lo -> hi <= hi' -> in_range lo' hi' b = true.
Proof. rewrite !in_range_spec. lia. Qed.

Lemma second_byte_continuation b0 b1 (x y : Z) lo hi lo' hi' :
  (if byte_val b0 =? x then in_range lo hi b1
   else if byte_val b0 =? y then in_range lo' hi' b1 else continuation b1) = true ->
  0x80 <= lo -> hi <= 0xBF -> 0x80 <= lo' -> hi' <= 0xBF -> continuation b1 = true.
Proof.
  intros H ? ? ? ?. destruct (_ =? x); [|destruct (_ =? y)];
    [eapply in_range_sub; eauto | eapply in_range_sub; eauto | done].
Qed.

(** A well-formed string starts with a character. *)
Lemma utf8_valid_uncons l :
  utf8_valid l = true -> l <> [] ->
  exists c rest, l = c ++ rest /\ char_valid c /\ utf8_valid rest = true.
Proof.
  destruct l as [|b0 l1]; [done|]. intros H _. cbn [utf8_valid] in H.
  destruct (in_range 0 0x7F b0) eqn:H0.
  { exists [b0], l1. split_and!; [done| |done]. split_and!; [done| |].
    - exists b0, []. split_and!; [done|eapply not_continuation; [done|lia]|by constructor|cbn; lia].
    - intros l. cbn [app utf8_valid]. by rewrite H0. }
  destruct l1 as [|b1 l2]; [done|].
  destruct (in_range 0xC2 0xDF b0) eqn:H1.
  { apply andb_true_iff in H as [Hc Hv].
    exists [b0; b1], l2. split_and!; [done| |done]. split_and!; [done| |].
    - exists b0, [b1]. split_and!; [done|eapply not_continuation; [done|lia]|by repeat constructor|cbn; lia].
    - intros l. cbn [app utf8_valid]. by rewrite H0, H1, Hc. }
  destruct l2 as [|b2 l3]; [done|].
  destruct (in_range 0xE0 0xEF b0) eqn:H2.
  { apply andb_true_iff in H as [[Hc Hc2]%andb_true_iff Hv].
    exists [b0; b1; b2], l3. split_and!; [done| |done]. split_and!; [done| |].
    - exists b0, [b1; b2]. split_and!; [done|eapply not_continuation; [done|lia]| |cbn; lia].
      repeat constructor; [|done]. eapply second_byte_continuation; [exact Hc|lia..].
    - intros l. cbn [app utf8_valid]. by rewrite H0, H1, H2, Hc, Hc2. }
  destruct l3 as [|b3 l4]; [done|].
  apply andb_true_iff in H as [[[[H3 Hc]%andb_true_iff Hc2]%andb_true_iff Hc3]%andb_true_iff Hv].
  exists [b0; b1; b2; b3], l4. split_and!; [done| |done]. split_and!; [done| |].
  - exists b0, [b1; b2; b3].
    split_and!; [done|eapply not_continuation; [done|lia]| |cbn; lia].
    repeat constructor; [|done|done]. eapply second_byte_continuation; [exact Hc|lia..].
  - intros l. cbn [app utf8_valid]. by rewrite H0, H1, H2, H3, Hc, Hc2, Hc3.
Qed.

(** Induction over the characters of a well-formed string. *)
Lemma utf8_ind (P : text -> Prop) :
  P [] ->
  (forall c rest, char_valid c -> utf8_valid rest = true -> P rest -> P (c ++ rest)) ->
  forall l, utf8_valid l = true -> P l.
Proof.
  intros Hnil Hcons l. remember (length l) as n eqn:Hn. revert l Hn.
  induction n as [n IH] using lt_wf_ind. intros l -> Hv.
  destruct (decide (l = [])) as [->|Hne]; [done|].
  destruct (utf8_valid_uncons l Hv Hne) as (c & rest & -> & Hc & Hr).
  apply Hcons; [done..|]. apply (IH (length rest)); [|done|done].
  rewrite length_app. destruct Hc as [Hc _]. destruct c; [done|cbn; lia].
Qed.

Lemma char_valid_app c rest :
  char_valid c -> utf8_valid rest = true -> utf8_valid (c ++ rest) = true.
Proof. intros (_ & _ & H) Hr. by rewrite H. Qed.

Lemma valid_head l b : utf8_valid l = true -> l !! 0%nat = Some b -> continuation b = false.
Proof.
  intros Hv Hb. destruct (utf8_valid_uncons l Hv) as (c & rest & -> & (_ & Hs & _) & _).
  { by destruct l. }
  destruct Hs as (b0 & tail & -> & Hb0 & _). cbn in Hb. by injection Hb as <-.
Qed.

Lemma boundary_shift c rest j :
  utf8_valid rest = true ->
  is_char_boundary (c ++ rest) (length c + j) = is_char_boundary rest j.
Proof.
  intros Hv. unfold is_char_boundary.
  rewrite lookup_app_r by lia. replace (length c + j - length c)%nat with j by lia.
  rewrite length_app. destruct j as [|j].
  - rewrite Nat.add_0_r. cbn [Nat.eqb orb]. destruct rest as [|b rest].
    + cbn. rewrite Nat.add_0_r, Nat.eqb_refl. by rewrite orb_true_r.
    + cbn [lookup list_lookup]. rewrite (valid_head (b :: rest) b Hv eq_refl).
      by rewrite !orb_true_r.
  - replace (Nat.eqb (length c + S j) 0) with false by (symmetry; apply Nat.eqb_neq; lia).
    replace (Nat.eqb (S j) 0) with false by done. f_equal. f_equal.
    apply eq_true_iff_eq. rewrite !Nat.eqb_eq. lia.
Qed.

Lemma boundary_zero l : is_char_boundary l 0 = true.
Proof. done. Qed.

Lemma boundary_in_char c rest i :
  char_valid c -> (0 < i < length c)%nat -> is_char_boundary (c ++ rest) i = false.
Proof.
  intros (_ & (b & tail & -> & _ & Ht & _) & _) Hi. unfold is_char_boundary.
  rewrite (proj2 (Nat.eqb_neq i 0)) by lia.
  rewrite (proj2 (Nat.eqb_neq i _)) by (rewrite length_app; lia).
  destruct i as [|i]; [lia|]. cbn [length] in Hi.
  destruct (lookup_lt_is_Some_2 tail i) as [x Hx]; [lia|].
  rewrite lookup_app_l by (cbn; lia). change ((b :: tail) !! S i) with (tail !! i). rewrite Hx.
  cbn [orb negb].
  by rewrite (proj1 (Forall_lookup _ _) Ht i x Hx).
Qed.

(** The boundaries of a well-formed string are where it can be cut. *)
Lemma boundary_iff_valid l :
  utf8_valid l = true -> forall i, (i <= length l)%nat ->
  is_char_boundary l i = true <-> utf8_valid (take i l) = true.
Proof.
  intros Hv i Hi. split.
  - revert l Hv i Hi. apply (utf8_ind (fun l => forall i, (i <= length l)%nat ->
      is_char_boundary l i = true -> utf8_valid (take i l) = true)).
    { intros i _ _. by rewrite take_nil. }
    intros c rest Hc Hr IH i Hi Hb. destruct (decide (i = 0%nat)) as [->|]; [by rewrite take_0|].
    destruct (decide (i < length c)%nat).
    { rewrite boundary_in_char in Hb by (done || lia). done. }
    rewrite length_app in Hi. replace i with (length c + (i - length c))%nat in * by lia.
    rewrite boundary_shift in Hb by done. rewrite take_app_add.
    apply char_valid_app; [done|]. apply IH; [lia|done].
  - remember (length l) as n eqn:Hn. revert l Hn Hv i Hi.
    induction n as [n IH] using lt_wf_ind. intros l -> Hv i Hi Ht.
    destruct (decide (i = 0%nat)) as [->|]; [done|].
    destruct (utf8_valid_uncons (take i l) Ht) as (c & rest & Hsplit & Hc & Hr).
    { destruct l; [cbn in Hi; lia|]. by destruct i. }
    assert (Hl : l = c ++ rest ++ drop i l) by (rewrite app_assoc, <- Hsplit; by rewrite take_drop).
    assert (Hlen : i = (length c + length rest)%nat).
    { apply (f_equal length) in Hsplit. rewrite length_take, length_app in Hsplit. lia. }
    assert (Hv2 : utf8_valid (rest ++ drop i l) = true).
    { destruct Hc as (_ & _ & Hc). by rewrite <- Hc, <- Hl. }
    rewrite Hl, Hlen, boundary_shift by (by rewrite <- Hlen). rewrite <- Hlen.
    apply (IH (length (rest ++ drop i l))); [|done|done| |].
    + rewrite Hl at 2. rewrite !length_app. destruct Hc as [Hc _]. destruct c; [done|cbn; lia].
    + rewrite length_app. lia.
    + by rewrite take_app_length.
Qed.

(** Every four consecutive positions of a well-formed string hold a boundary. *)
Lemma boundary_near l : utf8_valid l = true -> forall i, (i <= length l)%nat ->
  exists j, (i - 3 <= j <= i)%nat /\ is_char_boundary l j = true.
Proof.
  revert l. apply (utf8_ind (fun l => forall i, (i <= length l)%nat ->
    exists j, (i - 3 <= j <= i)%nat /\ is_char_boundary l j = true)).
  { intros i Hi. exists 0%nat. cbn in *. split; [lia|done]. }
  intros c rest Hc Hr IH i Hi. rewrite length_app in Hi.
  destruct (decide (i < length c)%nat).
  - exists 0%nat. destruct Hc as (_ & (b & t & -> & _ & _ & Hlen) & _). cbn in *. split; [lia|done].
  - destruct (IH (i - length c)%nat) as (j & Hj & Hb); [lia|].
    exists (length c + j)%nat. split; [lia|]. by rewrite boundary_shift.
Qed.

Lemma boundary_at_most_spec m e :
  exists k, boundary_at_most m e = Some k /\ (k <= e)%nat /\ is_char_boundary m k = true /\
    forall j, (k < j <= e)%nat -> is_char_boundary m j = false.
Proof.
  induction e as [|e IH]; cbn [boundary_at_most].
  - exists 0%nat. rewrite boundary_zero. split_and!; [done|lia|done|lia].
  - destruct (is_char_boundary m (S e)) eqn:E.
    + exists (S e). split_and!; [done|lia|done|lia].
    + destruct IH as (k & Hk & Hle & Hb & Hmax). exists k. split_and!; [done|lia|done|].
      intros j Hj. destruct (decide (j = S e)) as [->|]; [done|]. apply Hmax. lia.
Qed.

Lemma utf8_valid_app l k : utf8_valid l = true -> utf8_valid k = true -> utf8_valid (l ++ k) = true.
Proof.
  intros Hl Hk. revert l Hl. apply utf8_ind; [done|]. intros c l Hc _ IH.
  rewrite <- app_assoc. by apply char_valid_app.
Qed.

Lemma ascii_valid l : Forall (fun b => byte_val b < 128) l -> utf8_valid l = true.
Proof.
  induction 1 as [|b l Hb _ IH]; [done|]. cbn [utf8_valid].
  rewrite (proj2 (in_range_spec _ _ _)); [done|]. pose proof (byte_val_range b). lia.
Qed.

Lemma digits_valid fuel n : utf8_valid (digits fuel n) = true.
Proof.
  apply ascii_valid. revert n. induction fuel as [|fuel IH]; intros n; cbn [digits]; [constructor|].
  apply Forall_app. split; [destruct (n <? 10); [constructor|apply IH]|].
  apply Forall_singleton. pose proof (Z.mod_pos_bound n 10). rewrite byte_of_small; lia.
Qed.

Lemma decimal_valid z : utf8_valid (decimal z) = true.
Proof. unfold decimal. destruct (z <? 0); [apply utf8_valid_app; [done|]|]; apply digits_valid. Qed.

(** [t] is [m] cut to at most [n] bytes at the last possible place. *)
Definition longest_cut (n : nat) (m t : text) : Prop :=
  t = take (length t) m /\ utf8_valid t = true /\ (length t <= n)%nat /\
  (length m <= n -> t = m)%nat /\
  (n < length m -> n - 3 <= length t)%nat /\
  (forall t', t' = take (length t') m -> utf8_valid t' = true -> (length t' <= n)%nat ->
     (length t' <= length t)%nat).

Lemma cut_spec n m :
  utf8_valid m = true -> (n < length m)%nat ->
  exists e, boundary_at_most m n = Some e /\ longest_cut n m (take e m).
Proof.
  intros Hv Hn. destruct (boundary_at_most_spec m n) as (e & He & Hle & Hb & Hmax).
  exists e. split; [done|]. unfold longest_cut. rewrite length_take, Nat.min_l by lia.
  split_and!; [done| |lia|lia| |].
  - apply boundary_iff_valid; [done|lia|done].
  - intros _. destruct (boundary_near m Hv n) as (j & Hj & Hbj); [lia|].
    destruct (decide (e < j)%nat); [|lia]. rewrite Hmax in Hbj by lia. done.
  - intros t' Ht' Hvt Hlt. destruct (decide (e < length t')%nat) as [Hlong|]; [|lia].
    assert (is_char_boundary m (length t') = true) as Hbt.
    { apply boundary_iff_valid; [done|lia|]. by rewrite <- Ht'. }
    rewrite Hmax in Hbt by lia. done.
Qed.

Lemma longest_cut_self n m : utf8_valid m = true -> (length m <= n)%nat -> longest_cut n m m.
Proof.
  intros Hv Hn. unfold longest_cut. rewrite take_ge by lia. split_and!; try done; [lia|].
  intros t' -> _ _. rewrite length_take. lia.
Qed.

Lemma truncate_message_cut m :
  utf8_valid m = true -> exists t, truncate_message m = Some t /\ longest_cut 4096 m t.
Proof.
  intros Hv. unfold truncate_message, MAX_ERROR_MESSAGE_BYTES.
  destruct (Nat.ltb_spec 4096 (length m)) as [Hl|Hl].
  - destruct (cut_spec 4096 m Hv Hl) as (e & -> & He). eexists. split; [reflexivity|done].
  - eexists. split; [reflexivity|]. by apply longest_cut_self.
Qed.

Lemma cap_eq_truncate m : cap m = truncate_message m.
Proof.
  unfold cap, truncate_message, MAX_ERROR_BYTES, MAX_ERROR_MESSAGE_BYTES.
  destruct (Nat.ltb_spec 4096 (length m)).
  - by rewrite (proj2 (Nat.leb_gt _ _)).
  - by rewrite (proj2 (Nat.leb_le _ _)).
Qed.

(** [truncate_message] and [cap] always return (the loop ends before its
    index underflows), and what they return is the longest prefix of the message
    that is UTF-8 and fits in 4096 bytes: the whole message when it fits, at most
    three bytes short of 4096 otherwise. *)
Theorem truncation_longest_prefix (message : text) :
  utf8_valid message = true ->
  (exists t, truncate_message message = Some t /\ longest_cut 4096 message t) /\
  cap message = truncate_message message.
Proof.
  intros Hv. split; [by apply truncate_message_cut | apply cap_eq_truncate].
Qed.

(** ** The serial [map] *)

Lemma bounded_wf m : utf8_valid m = true -> utf8_valid (bounded m) = true /\ (length (bounded m) <= MAX_ERROR_MESSAGE_BYTES)%nat.
Proof.
  intros Hm. unfold bounded. destruct (truncate_message_cut m Hm) as (t & -> & Ht). cbn [default]. split; apply Ht.
Qed.
Lemma bounded_id m : (length m <= MAX_ERROR_MESSAGE_BYTES)%nat -> bounded m = m.
Proof. intros Hm. unfold bounded, truncate_message. by rewrite (proj2 (Nat.ltb_ge _ _)). Qed.

Section MapProofs.
Context {S T U E : Type} (display : E -> text) (f : T -> M S E U).

Lemma calls_det items s vs s1 vs' s1' :
  calls f items s vs s1 -> calls f items s vs' s1' -> vs' = vs /\ s1' = s1.
Proof.
  intros H. revert vs' s1'. induction H as [s|x items s v s1 vs s2 Hx _ IH]; intros vs' s1' H';
    inversion H'; subst; [done|].
  assert (v0 = v /\ s3 = s1) as [-> ->] by (split; congruence).
  by destruct (IH _ _ ltac:(eassumption)) as [-> ->].
Qed.

(** What the loop does from the inputs still to come. *)
Lemma map_loop_spec items : forall k output s,
  (exists vs s', calls f items s vs s' /\
     map_loop display f k output items s = (Ok (output ++ vs), s')) \/
  (exists pre x post vs s1 error s', items = pre ++ x :: post /\ calls f pre s vs s1 /\
     f x s1 = (Err error, s') /\
     map_loop display f k output items s =
       (match error with
        | Raise e => match truncate_message (display e) with
                     | Some m => Err (Raise (mkMapError (k + length pre) m))
                     | None => Err Panic
                     end
        | Panic => Err Panic
        end, s')).
Proof.
  induction items as [|x items IH]; intros k output s.
  { left. exists [], s. split; [constructor|]. cbn [map_loop]. by rewrite app_nil_r. }
  cbn [map_loop]. destruct (f x s) as [[v|error] s1] eqn:Hx.
  - destruct (IH (Datatypes.S k) (output ++ [v]) s1) as
      [(vs & s' & Hc & ->)|(pre & y & post & vs & s2 & error & s' & -> & Hc & Hy & ->)].
    + left. exists (v :: vs), s'. split; [by econstructor|]. by rewrite <- app_assoc.
    + right. exists (x :: pre), y, post, (v :: vs), s2, error, s'.
      split_and!; [done|by econstructor|done|]. cbn [length].
      by replace (k + Datatypes.S (length pre))%nat with (Datatypes.S k + length pre)%nat by lia.
  - right. exists [], x, items, [], s, error, s1. split_and!; [done|constructor|done|].
    cbn [length]. rewrite Nat.add_0_r. destruct error as [e|]; [|done].
    mrun. unfold MapError_new. by destruct (truncate_message (display e)).
Qed.

(** A list splits in one way into a successful prefix and a failing call. *)
Lemma failing_call_det pre x post vs s1 e s' pre' x' post' vs' s1' e' s'' s :
  pre ++ x :: post = pre' ++ x' :: post' ->
  calls f pre s vs s1 -> f x s1 = (Err e, s') ->
  calls f pre' s vs' s1' -> f x' s1' = (Err e', s'') ->
  pre' = pre /\ e' = e /\ s'' = s'.
Proof.
  intros Heq H. revert pre' vs' s1' Heq.
  induction H as [s|y pre s v s1 vs s2 Hy _ IH]; intros pre' vs' s1' Heq Hx H' Hx';
    inversion H'; subst; cbn in Heq; simplify_eq.
  - split_and!; congruence.
  - congruence.
  - congruence.
  - assert (s3 = s1) as -> by congruence.
    destruct (IH _ _ _ ltac:(eassumption) Hx ltac:(eassumption) Hx') as (-> & -> & ->). done.
Qed.

Lemma calls_no_failure pre x post s vs s1 e s' vs' s2 :
  calls f pre s vs s1 -> f x s1 = (Err e, s') -> calls f (pre ++ x :: post) s vs' s2 -> False.
Proof.
  intros H. revert vs'. induction H as [s|y pre s v s1 vs s3 Hy _ IH]; intros vs' Hx H';
    inversion H'; subst; [congruence|].
  assert (s4 = s1) as -> by congruence. eauto.
Qed.

(** [map] calls the callback on the inputs in order, threading its state,
    and stops at the first error.  It returns [Ok] with the outputs in order
    exactly when every call succeeds; it returns an error exactly when some
    call fails after the ones before it succeeded, and the error names that
    call's index and its (truncated) message; no later input is touched; and
    [map] itself never panics. *)
Theorem map_stops_at_first_error items s :
  (forall vs s', map_items display f items s = (Ok vs, s') <-> calls f items s vs s') /\
  (forall error s', map_items display f items s = (Err (Raise error), s') <->
     exists pre x post vs s1 e, items = pre ++ x :: post /\ calls f pre s vs s1 /\
       f x s1 = (Err (Raise e), s') /\ error_index error = length pre /\
       truncate_message (display e) = Some (error_message error)) /\
  ((forall e, utf8_valid (display e) = true) ->
   forall s', map_items display f items s = (Err Panic, s') <->
     exists pre x post vs s1, items = pre ++ x :: post /\ calls f pre s vs s1 /\
       f x s1 = (Err Panic, s')).
Proof.
  unfold map_items.
  destruct (map_loop_spec items 0 [] s) as
    [(vs & s' & Hc & ->)|(pre & x & post & vs & s1 & error & s' & -> & Hc & Hx & ->)].
  - split_and!.
    + intros vs' s2. split; [by intros [= <- <-]|]. intros Hc'.
      by destruct (calls_det _ _ _ _ _ _ Hc Hc') as [-> ->].
    + intros error s2. split; [done|]. intros (pre & x & post & vs' & s1 & e & -> & Hc' & Hx & _).
      by destruct (calls_no_failure _ _ _ _ _ _ _ _ _ _ Hc' Hx Hc).
    + intros _ s2. split; [done|]. intros (pre & x & post & vs' & s1 & -> & Hc' & Hx).
      by destruct (calls_no_failure _ _ _ _ _ _ _ _ _ _ Hc' Hx Hc).
  - split_and!.
    + intros vs' s2. split.
      * destruct error as [e|]; [|done]. by destruct (truncate_message (display e)).
      * intros Hc'. by destruct (calls_no_failure _ _ _ _ _ _ _ _ _ _ Hc Hx Hc').
    + intros err s2. split.
      * destruct error as [e|]; [|done]. destruct (truncate_message (display e)) as [m|] eqn:Hm; [|done].
        intros [= <- <-]. exists pre, x, post, vs, s1, e. done.
      * intros (pre' & x' & post' & vs' & s1' & e & Heq & Hc' & Hx' & Hi & Hm).
        destruct (failing_call_det _ _ _ _ _ _ _ _ _ _ _ _ _ _ _ Heq Hc Hx Hc' Hx') as (-> & <- & ->).
        rewrite Hm. cbn. rewrite <- Hi. by destruct err.
    + intros Hutf s2. split.
      * destruct error as [e|]; [|intros [= <-]; eauto 10].
        by destruct (truncate_message_cut (display e) (Hutf e)) as (t & -> & _).
      * intros (pre' & x' & post' & vs' & s1' & Heq & Hc' & Hx').
        destruct (failing_call_det _ _ _ _ _ _ _ _ _ _ _ _ _ _ _ Heq Hc Hx Hc' Hx') as (-> & <- & ->).
        done.
Qed.
End MapProofs.

(** ** Witness *)

Lemma truncation_longest_prefix_witness :
  exists t, truncate_message (lit "boom") = Some t /\ longest_cut 4096 (lit "boom") t.
Proof. destruct (truncation_longest_prefix (lit "boom") eq_refl) as [H _]. exact H. Defined.

(** ** Callbacks without state *)

Section Serial.
Context {T U E : Type} (display : E -> text) (g : T -> result E U).

(** The outcome of the serial [map] of [g]. *)
Definition serial (items : list T) : result (exn MapError) (list U) :=
  (map_items display (fun x => lift (g x)) items tt).1.

(** A callback may keep a state, but its outcome is that of [g]. *)
Definition computes {S} (f : T -> M S E U) : Prop :=
  forall x s, (f x s).1 = match g x with Ok v => Ok v | Err e => Err (Raise e) end.

Lemma map_loop_computes {S} (f : T -> M S E U) items : computes f -> forall k output s,
  (map_loop display f k output items s).1 = (map_loop display (fun x => lift (g x)) k output items tt).1.
Proof.
  intros Hf. induction items as [|x items IH]; intros k output s; [done|]. cbn [map_loop].
  pose proof (Hf x s) as Hx. destruct (f x s) as [r s']. cbn in Hx. subst r. unfold lift at 1.
  destruct (g x) as [v|e]; [apply IH|]. by destruct (MapError_new display k e).
Qed.
Lemma map_items_computes {S} (f : T -> M S E U) items s :
  computes f -> (map_items display f items s).1 = serial items.
Proof. intros Hf. by apply map_loop_computes. Qed.

Lemma serial_cases items : (forall e, utf8_valid (display e) = true) ->
  (exists vs, serial items = Ok vs /\ Forall2 (fun x v => g x = Ok v) items vs) \/
  (exists pre x post vs e, items = pre ++ x :: post /\ Forall2 (fun x v => g x = Ok v) pre vs /\ g x = Err e /\
     serial items = Err (Raise (mkMapError (length pre) (bounded (display e))))).
Proof.
  intros Hutf.
  assert (Hcalls : forall l s vs s', calls (S := unit) (fun x => lift (g x)) l s vs s' -> Forall2 (fun x v => g x = Ok v) l vs).
  { intros l s vs s'. induction 1 as [|x l s v s1 vs s2 Hx _ IH]; constructor; [|done].
    unfold lift in Hx. by destruct (g x); simplify_eq. }
  unfold serial, map_items.
  destruct (map_loop_spec display (fun x => lift (g x)) items 0 [] tt) as
    [(vs & s' & Hc & ->)|(pre & x & post & vs & s1 & error & s' & -> & Hc & Hx & ->)].
  - left. exists vs. eauto.
  - right. unfold lift in Hx. destruct (g x) as [v|e] eqn:Hg; [done|]. injection Hx as <- <-.
    exists pre, x, post, vs, e. split_and!; [done|eauto|done|]. cbn. unfold bounded.
    by destruct (truncate_message_cut (display e) (Hutf e)) as (t & -> & _).
Qed.
End Serial.
