(* ===== verification/Protocol.v ===== *)
(** * Protocol: identities, handshake records, parcels and framing

    Models [crates/hataori-runtime-foundation/src/protocol.rs].  Identifier
    newtypes are integers; their fallible constructors are the [_new]
    functions and their ranges the [_wf] predicates.  Frames are [list byte];
    the cursor [Reader] keeps the whole slice and an offset, as the code does. *)
From S2P Require Import Prelude.

(** ** Errors *)

Inductive ProtocolError : Type :=
| ProtocolError_InvalidMagic
| ProtocolError_InvalidVersion (actual : Z)
| ProtocolError_InvalidLength (expected actual : Z)
| ProtocolError_LengthOverflow
| ProtocolError_ZeroId (name : string)
| ProtocolError_InvalidChannel (value : Z)
| ProtocolError_InvalidKind (value : Z)
| ProtocolError_InvalidTraceFlag (value : Z)
| ProtocolError_InvalidLimits
| ProtocolError_RunMismatch
| ProtocolError_RuntimeVersionMismatch
| ProtocolError_ActionRegistryMismatch
| ProtocolError_ObjectRegistryMismatch
| ProtocolError_TooManySegments (actual limit : Z)
| ProtocolError_PayloadTooLarge (actual limit : Z)
| ProtocolError_FrameTooLarge (actual limit : Z)
| ProtocolError_PayloadLengthMismatch (declared actual : Z)
| ProtocolError_TrailingBytes (remaining : Z).

Definition PResult := result ProtocolError.

(** ** Constants *)

Definition HELLO_MAGIC : list byte := [Byte.x48; Byte.x54; Byte.x48; Byte.x4c].
Definition PARCEL_MAGIC : list byte := [Byte.x48; Byte.x54; Byte.x50; Byte.x52].
Definition PROTOCOL_VERSION : Z := 1.
Definition HELLO_BYTES : Z := 142.
Definition PARCEL_FIXED_BYTES : Z := 87.

(** ** Identities *)

Abbreviation RunId := Z (only parsing).
Abbreviation LocalityId := Z (only parsing).
Abbreviation DomainId := Z (only parsing).
Abbreviation MessageId := Z (only parsing).
Abbreviation ActionId := Z (only parsing).
Abbreviation ObjectTypeId := Z (only parsing).
Abbreviation TraceId := Z (only parsing).

Definition nonzero_u128_id (name : string) (value : Z) : PResult Z :=
  if negb (value =? 0) then Ok value else Err (ProtocolError_ZeroId name).

Definition RunId_new (value : Z) : PResult RunId := nonzero_u128_id "RunId" value.
Definition MessageId_new (value : Z) : PResult MessageId := nonzero_u128_id "MessageId" value.
Definition ActionId_new (value : Z) : PResult ActionId := nonzero_u128_id "ActionId" value.
Definition TraceId_new (value : Z) : PResult TraceId := nonzero_u128_id "TraceId" value.

(** A non-zero [u128], the range of the identifiers above. *)
Definition id128_wf (value : Z) : Prop := 0 < value < 2 ^ 128.
#[export] Instance id128_wf_dec z : Decision (id128_wf z).
Proof. unfold id128_wf. apply _. Defined.

Record ObjectId : Type := mkObjectId { ObjectId_run : RunId; ObjectId_unique : Z }.

#[export] Instance ObjectId_eq_dec : EqDecision ObjectId.
Proof. solve_decision. Defined.
#[export] Instance ObjectId_countable : Countable ObjectId.
Proof.
  refine (inj_countable' (fun o => (ObjectId_run o, ObjectId_unique o)) (fun p => mkObjectId p.1 p.2) _).
  by intros [].
Defined.

Definition ObjectId_new (run : RunId) (unique : Z) : PResult ObjectId :=
  if negb (unique =? 0) then Ok (mkObjectId run unique)
  else Err (ProtocolError_ZeroId "ObjectId.unique").

Record ObjectLocation : Type := mkObjectLocation {
  ObjectLocation_locality : LocalityId;
  ObjectLocation_domain : DomainId;
  ObjectLocation_slot : Z;
  ObjectLocation_generation : Z;
  ObjectLocation_epoch : Z;
}.

#[export] Instance ObjectLocation_eq_dec : EqDecision ObjectLocation.
Proof. solve_decision. Defined.

Definition ObjectLocation_new (locality domain slot generation epoch : Z) :
    PResult ObjectLocation :=
  fail_if (slot =? 0) (ProtocolError_ZeroId "ObjectLocation.slot");;
  fail_if (generation =? 0) (ProtocolError_ZeroId "ObjectLocation.generation");;
  fail_if (epoch =? 0) (ProtocolError_ZeroId "ObjectLocation.epoch");;
  Ok (mkObjectLocation locality domain slot generation epoch).

Record RequestId : Type := mkRequestId { RequestId_origin : LocalityId; RequestId_sequence : Z }.
#[export] Instance RequestId_eq_dec : EqDecision RequestId.
Proof. solve_decision. Defined.
#[export] Instance RequestId_countable : Countable RequestId.
Proof.
  refine (inj_countable' (fun r => (RequestId_origin r, RequestId_sequence r))
            (fun p => mkRequestId p.1 p.2) _).
  by intros [].
Defined.

Definition RequestId_new (origin : LocalityId) (sequence : Z) : PResult RequestId :=
  if negb (sequence =? 0) then Ok (mkRequestId origin sequence)
  else Err (ProtocolError_ZeroId "RequestId.sequence").

Record RuntimeVersion : Type := mkRuntimeVersion { major : Z; minor : Z; patch : Z }.
#[export] Instance RuntimeVersion_eq_dec : EqDecision RuntimeVersion.
Proof. solve_decision. Defined.

(** ** Channels and parcel kinds *)

Inductive Channel : Type := Channel_Control | Channel_Action | Channel_Bulk.
#[export] Instance Channel_eq_dec : EqDecision Channel.
Proof. solve_decision. Defined.

(** [channel as u8]. *)
Definition Channel_code (c : Channel) : Z :=
  match c with Channel_Control => 0 | Channel_Action => 1 | Channel_Bulk => 2 end.

Definition Channel_try_from (value : Z) : PResult Channel :=
  match value with
  | 0 => Ok Channel_Control
  | 1 => Ok Channel_Action
  | 2 => Ok Channel_Bulk
  | _ => Err (ProtocolError_InvalidChannel value)
  end.

Inductive ParcelKind : Type := ParcelKind_Control | ParcelKind_Data | ParcelKind_Shutdown.
#[export] Instance ParcelKind_eq_dec : EqDecision ParcelKind.
Proof. solve_decision. Defined.

(** [kind as u8]. *)
Definition ParcelKind_code (k : ParcelKind) : Z :=
  match k with ParcelKind_Control => 0 | ParcelKind_Data => 1 | ParcelKind_Shutdown => 2 end.

Definition ParcelKind_try_from (value : Z) : PResult ParcelKind :=
  match value with
  | 0 => Ok ParcelKind_Control
  | 1 => Ok ParcelKind_Data
  | 2 => Ok ParcelKind_Shutdown
  | _ => Err (ProtocolError_InvalidKind value)
  end.

(** ** Limits *)

Record ProtocolLimits : Type := mkProtocolLimits {
  max_frame_bytes : Z;
  max_payload_bytes : Z;
  max_segments : Z;
  max_queued_parcels_per_peer : Z;
  max_inflight_bytes_per_peer : Z;
  control_reserved_bytes_per_peer : Z;
}.

Definition ProtocolLimits_validate (l : ProtocolLimits) : PResult ProtocolLimits :=
  if (max_frame_bytes l <? PARCEL_FIXED_BYTES)
     || (max_payload_bytes l =? 0)
     || (max_segments l =? 0)
     || (max_queued_parcels_per_peer l =? 0)
     || (max_inflight_bytes_per_peer l =? 0)
     || (control_reserved_bytes_per_peer l =? 0)
     || (max_inflight_bytes_per_peer l <=? control_reserved_bytes_per_peer l)
  then Err ProtocolError_InvalidLimits
  else Ok l.

Definition ProtocolLimits_negotiate (self peer : ProtocolLimits) : PResult ProtocolLimits :=
  ProtocolLimits_validate self;;
  ProtocolLimits_validate peer;;
  ProtocolLimits_validate
    {| max_frame_bytes := Z.min (max_frame_bytes self) (max_frame_bytes peer);
       max_payload_bytes := Z.min (max_payload_bytes self) (max_payload_bytes peer);
       max_segments := Z.min (max_segments self) (max_segments peer);
       max_queued_parcels_per_peer :=
         Z.min (max_queued_parcels_per_peer self) (max_queued_parcels_per_peer peer);
       max_inflight_bytes_per_peer :=
         Z.min (max_inflight_bytes_per_peer self) (max_inflight_bytes_per_peer peer);
       control_reserved_bytes_per_peer :=
         Z.min (control_reserved_bytes_per_peer self) (control_reserved_bytes_per_peer peer) |}.

Definition ProtocolLimits_default : ProtocolLimits :=
  {| max_frame_bytes := 16 * 1024 * 1024;
     max_payload_bytes := 8 * 1024 * 1024;
     max_segments := 1024;
     max_queued_parcels_per_peer := 256;
     max_inflight_bytes_per_peer := 16 * 1024 * 1024;
     control_reserved_bytes_per_peer := 64 * 1024 |}.

(** ** Handshake *)

Record Hello : Type := mkHello {
  hello_run_id : RunId;
  runtime_version : RuntimeVersion;
  action_registry_hash : list byte;
  object_registry_hash : list byte;
  capabilities : Z;
  limits : ProtocolLimits;
}.

Record NegotiatedHello : Type := mkNegotiatedHello {
  negotiated_capabilities : Z;
  negotiated_limits : ProtocolLimits;
}.

Definition Hello_validate_peer (self peer : Hello) : PResult NegotiatedHello :=
  fail_if (negb (hello_run_id self =? hello_run_id peer)) ProtocolError_RunMismatch;;
  fail_if (bool_decide (runtime_version self <> runtime_version peer))
    ProtocolError_RuntimeVersionMismatch;;
  fail_if (bool_decide (action_registry_hash self <> action_registry_hash peer))
    ProtocolError_ActionRegistryMismatch;;
  fail_if (bool_decide (object_registry_hash self <> object_registry_hash peer))
    ProtocolError_ObjectRegistryMismatch;;
  negotiated ← ProtocolLimits_negotiate (limits self) (limits peer);
  Ok {| negotiated_capabilities := Z.land (capabilities self) (capabilities peer);
        negotiated_limits := negotiated |}.

(** ** Parcels *)

Record Parcel : Type := mkParcel {
  run_id : RunId;
  message_id : MessageId;
  channel : Channel;
  kind : ParcelKind;
  source : LocalityId;
  destination : LocalityId;
  trace_id : option TraceId;
  segments : list (list byte);
}.

(** [try_fold] of [checked_add] over the segment lengths. *)
Fixpoint sum_lengths (total : Z) (segs : list (list byte)) : PResult Z :=
  match segs with
  | [] => Ok total
  | seg :: segs' =>
      total ← ok_or (checked_add usize_max total (len seg)) ProtocolError_LengthOverflow;
      sum_lengths total segs'
  end.

Definition Parcel_payload_len (p : Parcel) : PResult Z := sum_lengths 0 (segments p).

Definition Parcel_encoded_len (p : Parcel) : PResult Z :=
  payload ← Parcel_payload_len p;
  table ← ok_or (checked_mul usize_max (len (segments p)) 8) ProtocolError_LengthOverflow;
  ok_or (value ← checked_add usize_max PARCEL_FIXED_BYTES table;
         checked_add usize_max value payload)
    ProtocolError_LengthOverflow.

Definition Parcel_validate (p : Parcel) (l : ProtocolLimits) : PResult unit :=
  ProtocolLimits_validate l;;
  fail_if (max_segments l <? len (segments p))
    (ProtocolError_TooManySegments (len (segments p)) (max_segments l));;
  payload ← Parcel_payload_len p;
  fail_if (max_payload_bytes l <? payload)
    (ProtocolError_PayloadTooLarge payload (max_payload_bytes l));;
  frame ← Parcel_encoded_len p;
  fail_if (max_frame_bytes l <? frame)
    (ProtocolError_FrameTooLarge frame (max_frame_bytes l));;
  Ok tt.

(** ** Writing *)

(** [TryFrom] between unsigned widths; [ProtocolError: From<TryFromIntError>]. *)
Definition try_into (m z : Z) : PResult Z :=
  if z <=? m then Ok z else Err ProtocolError_LengthOverflow.

Definition push_u16 (output : list byte) (value : Z) := output ++ to_le_bytes 2 value.
Definition push_u32 (output : list byte) (value : Z) := output ++ to_le_bytes 4 value.
Definition push_u64 (output : list byte) (value : Z) := output ++ to_le_bytes 8 value.
Definition push_u128 (output : list byte) (value : Z) := output ++ to_le_bytes 16 value.

Definition encode_hello (hello : Hello) : PResult (list byte) :=
  ProtocolLimits_validate (limits hello);;
  let output := HELLO_MAGIC in
  let output := push_u32 output PROTOCOL_VERSION in
  let output := push_u128 output (hello_run_id hello) in
  let output := push_u16 output (major (runtime_version hello)) in
  let output := push_u16 output (minor (runtime_version hello)) in
  let output := push_u16 output (patch (runtime_version hello)) in
  let output := output ++ action_registry_hash hello in
  let output := output ++ object_registry_hash hello in
  let output := push_u64 output (capabilities hello) in
  v ← try_into u64_max (max_frame_bytes (limits hello));
  let output := push_u64 output v in
  v ← try_into u64_max (max_payload_bytes (limits hello));
  let output := push_u64 output v in
  v ← try_into u32_max (max_segments (limits hello));
  let output := push_u32 output v in
  v ← try_into u32_max (max_queued_parcels_per_peer (limits hello));
  let output := push_u32 output v in
  v ← try_into u64_max (max_inflight_bytes_per_peer (limits hello));
  let output := push_u64 output v in
  v ← try_into u64_max (control_reserved_bytes_per_peer (limits hello));
  let output := push_u64 output v in
  Ok output.

(** The segment-length table of a parcel, one [u64] per segment. *)
Fixpoint push_lengths (output : list byte) (segs : list (list byte)) : PResult (list byte) :=
  match segs with
  | [] => Ok output
  | seg :: segs' =>
      v ← try_into u64_max (len seg);
      push_lengths (push_u64 output v) segs'
  end.

Definition encode_parcel (p : Parcel) (l : ProtocolLimits) : PResult (list byte) :=
  Parcel_validate p l;;
  payload_len ← Parcel_payload_len p;
  table_len ← ok_or (checked_mul usize_max (len (segments p)) 8) ProtocolError_LengthOverflow;
  capacity ← ok_or (value ← checked_add usize_max PARCEL_FIXED_BYTES table_len;
                    checked_add usize_max value payload_len)
               ProtocolError_LengthOverflow;
  let output := PARCEL_MAGIC in
  let output := push_u32 output PROTOCOL_VERSION in
  let output := push_u128 output (run_id p) in
  let output := push_u128 output (message_id p) in
  let output := output ++ [byte_of (Channel_code (channel p))] in
  let output := output ++ [byte_of (ParcelKind_code (kind p))] in
  let output := push_u64 output (source p) in
  let output := push_u64 output (destination p) in
  let output :=
    match trace_id p with
    | Some t => push_u128 (output ++ [Byte.x01]) t
    | None => push_u128 (output ++ [Byte.x00]) 0
    end in
  v ← try_into u64_max payload_len;
  let output := push_u64 output v in
  v ← try_into u32_max (len (segments p));
  let output := push_u32 output v in
  output ← push_lengths output (segments p);
  Ok (fold_left (fun output seg => output ++ seg) (segments p) output).

(** ** Reading *)

Record Reader : Type := mkReader { bytes : list byte; offset : Z }.

Definition Reader_new (bytes : list byte) : Reader := mkReader bytes 0.

Definition Reader_take (r : Reader) (length : Z) : PResult (list byte * Reader) :=
  fin ← ok_or (checked_add usize_max (offset r) length) ProtocolError_LengthOverflow;
  fail_if (len (bytes r) <? fin) (ProtocolError_InvalidLength fin (len (bytes r)));;
  Ok (slice (Z.to_nat (offset r)) (Z.to_nat fin) (bytes r), mkReader (bytes r) fin).

Definition Reader_u8 (r : Reader) : PResult (Z * Reader) :=
  '(b, r) ← Reader_take r 1; Ok (from_le_bytes b, r).
Definition Reader_u16 (r : Reader) : PResult (Z * Reader) :=
  '(b, r) ← Reader_take r 2; Ok (from_le_bytes b, r).
Definition Reader_u32 (r : Reader) : PResult (Z * Reader) :=
  '(b, r) ← Reader_take r 4; Ok (from_le_bytes b, r).
Definition Reader_u64 (r : Reader) : PResult (Z * Reader) :=
  '(b, r) ← Reader_take r 8; Ok (from_le_bytes b, r).
Definition Reader_u128 (r : Reader) : PResult (Z * Reader) :=
  '(b, r) ← Reader_take r 16; Ok (from_le_bytes b, r).
Definition Reader_array_32 (r : Reader) : PResult (list byte * Reader) := Reader_take r 32.

Definition Reader_finish (r : Reader) : PResult unit :=
  if offset r =? len (bytes r) then Ok tt
  else Err (ProtocolError_TrailingBytes (len (bytes r) - offset r)).

Definition decode_hello (bytes : list byte) : PResult Hello :=
  fail_if (negb (len bytes =? HELLO_BYTES))
    (ProtocolError_InvalidLength HELLO_BYTES (len bytes));;
  let input := Reader_new bytes in
  '(magic, input) ← Reader_take input 4;
  fail_if (bool_decide (magic <> HELLO_MAGIC)) ProtocolError_InvalidMagic;;
  '(version, input) ← Reader_u32 input;
  fail_if (negb (version =? PROTOCOL_VERSION)) (ProtocolError_InvalidVersion version);;
  '(run, input) ← Reader_u128 input;
  run ← RunId_new run;
  '(v_major, input) ← Reader_u16 input;
  '(v_minor, input) ← Reader_u16 input;
  '(v_patch, input) ← Reader_u16 input;
  '(action_hash, input) ← Reader_array_32 input;
  '(object_hash, input) ← Reader_array_32 input;
  '(caps, input) ← Reader_u64 input;
  '(frame, input) ← Reader_u64 input;
  frame ← try_into usize_max frame;
  '(payload, input) ← Reader_u64 input;
  payload ← try_into usize_max payload;
  '(segs, input) ← Reader_u32 input;
  segs ← try_into usize_max segs;
  '(queued, input) ← Reader_u32 input;
  queued ← try_into usize_max queued;
  '(inflight, input) ← Reader_u64 input;
  inflight ← try_into usize_max inflight;
  '(control, input) ← Reader_u64 input;
  control ← try_into usize_max control;
  lims ← ProtocolLimits_validate
           (mkProtocolLimits frame payload segs queued inflight control);
  Reader_finish input;;
  Ok {| hello_run_id := run;
        runtime_version := mkRuntimeVersion v_major v_minor v_patch;
        action_registry_hash := action_hash;
        object_registry_hash := object_hash;
        capabilities := caps;
        limits := lims |}.

(** The loop reading [count] segment lengths, with their running total. *)
Fixpoint read_lengths (l : ProtocolLimits) (count : nat) (total : Z) (input : Reader) :
    PResult (list Z * Z * Reader) :=
  match count with
  | O => Ok ([], total, input)
  | S count' =>
      '(length, input) ← Reader_u64 input;
      length ← try_into usize_max length;
      total ← ok_or (checked_add usize_max total length) ProtocolError_LengthOverflow;
      fail_if (max_payload_bytes l <? total)
        (ProtocolError_PayloadTooLarge total (max_payload_bytes l));;
      '(lengths, total, input) ← read_lengths l count' total input;
      Ok (length :: lengths, total, input)
  end.

(** The loop reading the segments themselves. *)
Fixpoint read_segments (lengths : list Z) (input : Reader) :
    PResult (list (list byte) * Reader) :=
  match lengths with
  | [] => Ok ([], input)
  | length :: lengths' =>
      '(seg, input) ← Reader_take input length;
      '(segs, input) ← read_segments lengths' input;
      Ok (seg :: segs, input)
  end.

Definition decode_parcel (bytes : list byte) (l : ProtocolLimits) : PResult Parcel :=
  ProtocolLimits_validate l;;
  fail_if (max_frame_bytes l <? len bytes)
    (ProtocolError_FrameTooLarge (len bytes) (max_frame_bytes l));;
  let input := Reader_new bytes in
  '(magic, input) ← Reader_take input 4;
  fail_if (bool_decide (magic <> PARCEL_MAGIC)) ProtocolError_InvalidMagic;;
  '(version, input) ← Reader_u32 input;
  fail_if (negb (version =? PROTOCOL_VERSION)) (ProtocolError_InvalidVersion version);;
  '(run, input) ← Reader_u128 input;
  run ← RunId_new run;
  '(message, input) ← Reader_u128 input;
  message ← MessageId_new message;
  '(chan, input) ← Reader_u8 input;
  chan ← Channel_try_from chan;
  '(knd, input) ← Reader_u8 input;
  knd ← ParcelKind_try_from knd;
  '(src, input) ← Reader_u64 input;
  '(dst, input) ← Reader_u64 input;
  '(trace_flag, input) ← Reader_u8 input;
  '(trace_value, input) ← Reader_u128 input;
  trace ← (if (trace_flag =? 0) && (trace_value =? 0) then Ok None
           else if trace_flag =? 1 then Some <$> TraceId_new trace_value
           else Err (ProtocolError_InvalidTraceFlag trace_flag));
  '(declared, input) ← Reader_u64 input;
  declared ← try_into usize_max declared;
  '(segment_count, input) ← Reader_u32 input;
  segment_count ← try_into usize_max segment_count;
  fail_if (max_segments l <? segment_count)
    (ProtocolError_TooManySegments segment_count (max_segments l));;
  fail_if (max_payload_bytes l <? declared)
    (ProtocolError_PayloadTooLarge declared (max_payload_bytes l));;
  '(lengths, total, input) ← read_lengths l (Z.to_nat segment_count) 0 input;
  fail_if (negb (total =? declared))
    (ProtocolError_PayloadLengthMismatch declared total);;
  '(segs, input) ← read_segments lengths input;
  Reader_finish input;;
  let parcel :=
    {| run_id := run; message_id := message; channel := chan; kind := knd;
       source := src; destination := dst; trace_id := trace; segments := segs |} in
  Parcel_validate parcel l;;
  Ok parcel.

(** ** Layouts

    The byte strings a well-formed value is laid out as, field by field; the
    encoders and decoders below are proved to implement them. *)

Definition opt_trace_layout (t : option TraceId) : list byte :=
  match t with
  | Some t => Byte.x01 :: to_le_bytes 16 t
  | None => Byte.x00 :: to_le_bytes 16 0
  end.

Definition payload_size (segs : list (list byte)) : Z := len (concat segs).

Definition parcel_layout (p : Parcel) : list byte :=
  PARCEL_MAGIC ++ to_le_bytes 4 PROTOCOL_VERSION ++ to_le_bytes 16 (run_id p) ++
  to_le_bytes 16 (message_id p) ++ to_le_bytes 1 (Channel_code (channel p)) ++
  to_le_bytes 1 (ParcelKind_code (kind p)) ++ to_le_bytes 8 (source p) ++
  to_le_bytes 8 (destination p) ++ opt_trace_layout (trace_id p) ++
  to_le_bytes 8 (payload_size (segments p)) ++ to_le_bytes 4 (len (segments p)) ++
  concat (map (fun seg => to_le_bytes 8 (len seg)) (segments p)) ++ concat (segments p).

Definition hello_layout (h : Hello) : list byte :=
  HELLO_MAGIC ++ to_le_bytes 4 PROTOCOL_VERSION ++ to_le_bytes 16 (hello_run_id h) ++
  to_le_bytes 2 (major (runtime_version h)) ++ to_le_bytes 2 (minor (runtime_version h)) ++
  to_le_bytes 2 (patch (runtime_version h)) ++ action_registry_hash h ++
  object_registry_hash h ++ to_le_bytes 8 (capabilities h) ++
  to_le_bytes 8 (max_frame_bytes (limits h)) ++ to_le_bytes 8 (max_payload_bytes (limits h)) ++
  to_le_bytes 4 (max_segments (limits h)) ++
  to_le_bytes 4 (max_queued_parcels_per_peer (limits h)) ++
  to_le_bytes 8 (max_inflight_bytes_per_peer (limits h)) ++
  to_le_bytes 8 (control_reserved_bytes_per_peer (limits h)).

(** The values the Rust types can hold. *)
Definition ProtocolLimits_wf (l : ProtocolLimits) : Prop :=
  in_u 64 (max_frame_bytes l) /\ in_u 64 (max_payload_bytes l) /\
  in_u 64 (max_segments l) /\ in_u 64 (max_queued_parcels_per_peer l) /\
  in_u 64 (max_inflight_bytes_per_peer l) /\ in_u 64 (control_reserved_bytes_per_peer l).
#[export] Instance ProtocolLimits_wf_dec l : Decision (ProtocolLimits_wf l).
Proof. unfold ProtocolLimits_wf. apply _. Defined.

Definition Hello_wf (h : Hello) : Prop :=
  id128_wf (hello_run_id h) /\ in_u 16 (major (runtime_version h)) /\
  in_u 16 (minor (runtime_version h)) /\ in_u 16 (patch (runtime_version h)) /\
  length (action_registry_hash h) = 32%nat /\ length (object_registry_hash h) = 32%nat /\
  in_u 64 (capabilities h) /\ ProtocolLimits_wf (limits h).
#[export] Instance Hello_wf_dec h : Decision (Hello_wf h).
Proof. unfold Hello_wf. apply _. Defined.

Definition opt_trace_wf (t : option TraceId) : Prop := from_option id128_wf True t.

Definition Parcel_wf (p : Parcel) : Prop :=
  id128_wf (run_id p) /\ id128_wf (message_id p) /\ in_u 64 (source p) /\
  in_u 64 (destination p) /\ opt_trace_wf (trace_id p).

(** ** The cursor *)

(** A cursor that has consumed [pre] and has [suf] left. *)
Definition rd (pre suf : list byte) : Reader := mkReader (pre ++ suf) (len pre).

Lemma Reader_new_rd bs : Reader_new bs = rd [] bs.
Proof. done. Qed.

Lemma Reader_take_rd n pre x suf :
  len x = n -> len (pre ++ x ++ suf) <= usize_max ->
  Reader_take (rd pre (x ++ suf)) n = Ok (x, rd (pre ++ x) suf).
Proof.
  intros Hn Hfit. autorewrite with lens in Hfit.
  pose proof (len_nonneg pre). pose proof (len_nonneg suf). pose proof (len_nonneg x).
  unfold Reader_take, rd, checked_add. cbn [offset bytes].
  rewrite (proj2 (Z.leb_le _ _)) by lia. cbn [ok_or mbind result_bind].
  unfold fail_if. rewrite (proj2 (Z.ltb_ge _ _)) by (autorewrite with lens; lia).
  cbn [mbind result_bind]. f_equal. f_equal.
  - unfold len in *. subst n.
    replace (Z.to_nat (Z.of_nat (length pre))) with (length pre) by lia.
    replace (Z.to_nat (Z.of_nat (length pre) + Z.of_nat (length x)))
      with (length pre + length x)%nat by lia.
    rewrite slice_app_skip by lia. rewrite Nat.sub_diag.
    apply slice_app_hit. lia.
  - f_equal; [by rewrite app_assoc | autorewrite with lens; lia].
Qed.

Lemma Reader_take_rd_inv n pre suf x r :
  0 <= n -> Reader_take (rd pre suf) n = Ok (x, r) ->
  exists rest, suf = x ++ rest /\ len x = n /\ r = rd (pre ++ x) rest /\
    len (pre ++ x) <= usize_max.
Proof.
  intros Hn H. unfold Reader_take, rd, checked_add in H. cbn [offset bytes] in H.
  destruct (len pre + n <=? usize_max) eqn:E1; [|discriminate].
  cbn [ok_or mbind result_bind] in H. unfold fail_if in H.
  destruct (len (pre ++ suf) <? len pre + n) eqn:E2; [discriminate|].
  cbn [mbind result_bind] in H. injection H as <- <-. zbool.
  autorewrite with lens in E2.
  assert (Hx : slice (Z.to_nat (len pre)) (Z.to_nat (len pre + n)) (pre ++ suf)
               = take (Z.to_nat n) suf).
  { rewrite slice_app_skip by (unfold len; lia). unfold slice, len.
    f_equal; [lia|]. rewrite Nat2Z.id, Nat.sub_diag. apply drop_0. }
  rewrite Hx. unfold len in *.
  assert (Hl : Z.of_nat (length (take (Z.to_nat n) suf)) = n)
    by (rewrite length_take; lia).
  exists (drop (Z.to_nat n) suf). rewrite take_drop. split; [done|]. split; [done|].
  split.
  - unfold rd, len. rewrite <- app_assoc, take_drop, length_app. f_equal. lia.
  - rewrite length_app. lia.
Qed.

(** Every fixed-width read is this one. *)
Definition Reader_le (k : nat) (r : Reader) : PResult (Z * Reader) :=
  '(b, r) ← Reader_take r (Z.of_nat k); Ok (from_le_bytes b, r).

Lemma Reader_le_rd k v pre suf :
  0 <= v < 256 ^ Z.of_nat k -> len (pre ++ to_le_bytes k v ++ suf) <= usize_max ->
  Reader_le k (rd pre (to_le_bytes k v ++ suf)) = Ok (v, rd (pre ++ to_le_bytes k v) suf).
Proof.
  intros Hv Hfit. unfold Reader_le.
  rewrite Reader_take_rd by (autorewrite with lens in *; lia).
  cbn [mbind result_bind]. by rewrite from_to_le_bytes.
Qed.

Lemma Reader_le_rd_inv k v pre suf r :
  Reader_le k (rd pre suf) = Ok (v, r) ->
  exists rest, suf = to_le_bytes k v ++ rest /\ 0 <= v < 256 ^ Z.of_nat k /\
    r = rd (pre ++ to_le_bytes k v) rest.
Proof.
  intros H. unfold Reader_le in H.
  destruct (Reader_take _ _) as [[b r']|] eqn:E; [|discriminate].
  cbn [mbind result_bind] in H. injection H as <- <-.
  apply Reader_take_rd_inv in E as (rest & -> & Hl & -> & _); [|lia].
  assert (length b = k) by (unfold len in Hl; lia).
  exists rest. rewrite to_from_le_bytes' by done. eauto using from_le_bytes_range'.
Qed.

Lemma Reader_finish_rd_inv pre suf :
  Reader_finish (rd pre suf) = Ok tt -> suf = [].
Proof.
  unfold Reader_finish, rd. cbn [offset bytes]. case_match; [|discriminate].
  intros _. zbool. autorewrite with lens in *. apply len_zero. lia.
Qed.

Lemma Reader_finish_rd pre : Reader_finish (rd pre []) = Ok tt.
Proof. unfold Reader_finish, rd. cbn. by rewrite app_nil_r, Z.eqb_refl. Qed.

(** ** Lengths *)

Lemma payload_size_cons seg segs : payload_size (seg :: segs) = len seg + payload_size segs.
Proof. unfold payload_size. cbn [concat]. by rewrite len_app. Qed.

Lemma payload_size_nonneg segs : 0 <= payload_size segs.
Proof. apply len_nonneg. Qed.

Lemma sum_lengths_spec t segs :
  t <= usize_max ->
  sum_lengths t segs =
    if t + payload_size segs <=? usize_max then Ok (t + payload_size segs)
    else Err ProtocolError_LengthOverflow.
Proof.
  revert t. induction segs as [|seg segs IH]; intros t Ht; cbn [sum_lengths].
  - unfold payload_size. cbn. rewrite Z.add_0_r. by rewrite (proj2 (Z.leb_le _ _)).
  - rewrite payload_size_cons. unfold checked_add.
    pose proof (payload_size_nonneg segs).
    destruct (t + len seg <=? usize_max) eqn:E; cbn [ok_or mbind result_bind]; zbool.
    + rewrite IH by done. by rewrite Z.add_assoc.
    + rewrite (proj2 (Z.leb_gt _ _)) by lia. done.
Qed.

Definition limits_ok (l : ProtocolLimits) : Prop := is_ok (ProtocolLimits_validate l) = true.

Lemma limits_ok_validate l : limits_ok l <-> ProtocolLimits_validate l = Ok l.
Proof. unfold limits_ok, ProtocolLimits_validate. case_match; naive_solver. Qed.

Lemma limits_validate_inv l x : ProtocolLimits_validate l = Ok x -> x = l /\ limits_ok l.
Proof. unfold limits_ok, ProtocolLimits_validate. case_match; naive_solver. Qed.

(** The arithmetic content of [Parcel::validate]. *)
Definition parcel_fits (p : Parcel) (l : ProtocolLimits) : Prop :=
  len (segments p) <= max_segments l /\
  payload_size (segments p) <= max_payload_bytes l /\
  PARCEL_FIXED_BYTES + 8 * len (segments p) + payload_size (segments p) <= max_frame_bytes l /\
  PARCEL_FIXED_BYTES + 8 * len (segments p) + payload_size (segments p) <= usize_max.

Lemma Parcel_payload_len_spec p :
  Parcel_payload_len p =
    if payload_size (segments p) <=? usize_max then Ok (payload_size (segments p))
    else Err ProtocolError_LengthOverflow.
Proof. unfold Parcel_payload_len. by rewrite sum_lengths_spec. Qed.

Lemma Parcel_encoded_len_ok p v :
  Parcel_encoded_len p = Ok v <->
  v = PARCEL_FIXED_BYTES + 8 * len (segments p) + payload_size (segments p) /\
  v <= usize_max.
Proof.
  unfold Parcel_encoded_len. rewrite Parcel_payload_len_spec.
  unfold checked_mul, checked_add, PARCEL_FIXED_BYTES.
  pose proof (payload_size_nonneg (segments p)). pose proof (len_nonneg (segments p)).
  repeat (case_match; cbn [mbind result_bind option_bind ok_or]; zbool);
    try (split; [discriminate | lia]).
  split; [intros [= <-]; lia | intros [-> ?]; f_equal; lia].
Qed.

Lemma Parcel_validate_ok p l :
  Parcel_validate p l = Ok tt <-> limits_ok l /\ parcel_fits p l.
Proof.
  unfold Parcel_validate, limits_ok, parcel_fits.
  destruct (ProtocolLimits_validate l); cbn [mbind result_bind is_ok]; [|naive_solver].
  rewrite Parcel_payload_len_spec. unfold fail_if.
  pose proof (len_nonneg (segments p)).
  destruct (Parcel_encoded_len p) eqn:E;
    [apply Parcel_encoded_len_ok in E as [-> ?]|];
    repeat (case_match; cbn [mbind result_bind]; zbool);
    try (split; [discriminate | unfold PARCEL_FIXED_BYTES in *; intros [_ ?]; lia]);
    try (split; [done || (intros _; split; [done|lia]) | done]).
  split; [discriminate|]. intros (_ & _ & _ & _ & Hfit).
  by rewrite (proj2 (Parcel_encoded_len_ok p _) (conj eq_refl Hfit)) in E.
Qed.

Lemma push_lengths_spec out segs :
  Forall (fun seg => len seg <= u64_max) segs ->
  push_lengths out segs = Ok (out ++ concat (map (fun seg => to_le_bytes 8 (len seg)) segs)).
Proof.
  intros H. revert out. induction H as [|seg segs Hs _ IH]; intros out;
    cbn [push_lengths map concat]; [by rewrite app_nil_r|].
  unfold try_into. rewrite (proj2 (Z.leb_le _ _)) by done. cbn [mbind result_bind].
  rewrite IH. unfold push_u64. by rewrite app_assoc.
Qed.

Lemma fold_left_app {A} (segs : list (list A)) out :
  fold_left (fun output seg => output ++ seg) segs out = out ++ concat segs.
Proof.
  revert out. induction segs as [|s segs IH]; intros out; cbn; [by rewrite app_nil_r|].
  by rewrite IH, app_assoc.
Qed.

Lemma seg_le_payload segs : Forall (fun seg => len seg <= payload_size segs) segs.
Proof.
  induction segs as [|s segs IH]; constructor; rewrite payload_size_cons.
  - pose proof (payload_size_nonneg segs). lia.
  - eapply Forall_impl; [exact IH|]. cbn. intros. pose proof (len_nonneg s). lia.
Qed.

Lemma len_opt_trace_layout t : len (opt_trace_layout t) = 17.
Proof. destruct t; cbn [opt_trace_layout]; autorewrite with lens; lia. Qed.
#[export] Hint Rewrite len_opt_trace_layout : lens.

Lemma len_table {A} (segs : list (list A)) :
  len (concat (map (fun seg => to_le_bytes 8 (len seg)) segs)) = 8 * len segs.
Proof. induction segs; cbn [map concat]; autorewrite with lens; lia. Qed.

Lemma len_parcel_layout p :
  len (parcel_layout p) =
    PARCEL_FIXED_BYTES + 8 * len (segments p) + payload_size (segments p).
Proof.
  unfold parcel_layout, PARCEL_MAGIC, PARCEL_FIXED_BYTES, payload_size.
  autorewrite with lens. rewrite len_table. lia.
Qed.

(** [encode_parcel] is: validate, check the segment count fits a [u32], lay out. *)
Lemma encode_parcel_ok p l out :
  encode_parcel p l = Ok out <->
  limits_ok l /\ parcel_fits p l /\ len (segments p) <= u32_max /\ out = parcel_layout p.
Proof.
  unfold encode_parcel. pose proof (Parcel_validate_ok p l) as Hv.
  destruct (Parcel_validate p l) as [[]|] eqn:E; cbn [mbind result_bind];
    [|split; [discriminate|]; intros (? & ? & _); destruct Hv as [_ Hv];
      discriminate Hv; done].
  destruct Hv as [Hv _]. specialize (Hv eq_refl) as [Hl Hf].
  pose proof Hf as (_ & _ & _ & Hfit). unfold PARCEL_FIXED_BYTES in Hfit.
  pose proof (payload_size_nonneg (segments p)). pose proof (len_nonneg (segments p)).
  rewrite Parcel_payload_len_spec. unfold checked_mul, checked_add, try_into, PARCEL_FIXED_BYTES.
  zdec.
  destruct (len (segments p) <=? u32_max) eqn:E32; cbn [mbind result_bind]; zbool;
    [|split; [discriminate|lia]].
  rewrite push_lengths_spec.
  2:{ eapply Forall_impl; [apply seg_le_payload|]. cbn. unfold usize_max in *. lia. }
  cbn [mbind result_bind]. rewrite fold_left_app.
  match goal with |- Ok ?x = _ <-> _ => assert (x = parcel_layout p) as -> end.
  { unfold parcel_layout, push_u32, push_u64, push_u128, opt_trace_layout.
    destruct (trace_id p); rewrite <- ?app_assoc; reflexivity. }
  naive_solver.
Qed.

(** ** Codes *)

Lemma Channel_try_from_code c : Channel_try_from (Channel_code c) = Ok c.
Proof. by destruct c. Qed.
Lemma Channel_try_from_inv v c : Channel_try_from v = Ok c -> v = Channel_code c.
Proof. unfold Channel_try_from. repeat (case_match; try discriminate); by intros [= <-]. Qed.
Lemma ParcelKind_try_from_code k : ParcelKind_try_from (ParcelKind_code k) = Ok k.
Proof. by destruct k. Qed.
Lemma ParcelKind_try_from_inv v k : ParcelKind_try_from v = Ok k -> v = ParcelKind_code k.
Proof. unfold ParcelKind_try_from. repeat (case_match; try discriminate); by intros [= <-]. Qed.
Lemma Channel_code_range c : 0 <= Channel_code c < 256.
Proof. destruct c; cbn; lia. Qed.
Lemma ParcelKind_code_range k : 0 <= ParcelKind_code k < 256.
Proof. destruct k; cbn; lia. Qed.
#[export] Hint Resolve Channel_code_range ParcelKind_code_range : hataori.

Lemma nonzero_id_inv name v x : nonzero_u128_id name v = Ok x -> x = v /\ v <> 0.
Proof. unfold nonzero_u128_id. destruct (v =? 0) eqn:E; cbn; [done|]. zbool. naive_solver. Qed.
Lemma nonzero_id_ok name v : v <> 0 -> nonzero_u128_id name v = Ok v.
Proof. intros. unfold nonzero_u128_id. by zdec. Qed.

(** ** Reading lengths and segments *)

Lemma read_lengths_rd l segs total pre suf :
  0 <= total -> total + payload_size segs <= max_payload_bytes l ->
  total + payload_size segs <= usize_max ->
  len (pre ++ concat (map (fun seg => to_le_bytes 8 (len seg)) segs) ++ suf) <= usize_max ->
  read_lengths l (length segs) total
    (rd pre (concat (map (fun seg => to_le_bytes 8 (len seg)) segs) ++ suf)) =
  Ok (map len segs, total + payload_size segs,
      rd (pre ++ concat (map (fun seg => to_le_bytes 8 (len seg)) segs)) suf).
Proof.
  revert total pre. induction segs as [|seg segs IH]; intros total pre Ht Hp Hu Hfit;
    cbn [length map concat read_lengths].
  - unfold payload_size. cbn. by rewrite Z.add_0_r, app_nil_r.
  - rewrite payload_size_cons in *. pose proof (payload_size_nonneg segs).
    pose proof (len_nonneg seg). cbn [map concat] in Hfit. rewrite <- !app_assoc in *.
    change (Reader_u64 ?r) with (Reader_le 8 r).
    rewrite Reader_le_rd by (zunfold; lia || done). cbn [mbind result_bind].
    unfold try_into, checked_add. zdec.
    rewrite IH; [| lia.. | by rewrite <- app_assoc].
    cbn [mbind result_bind]. by rewrite Z.add_assoc, <- app_assoc.
Qed.

Lemma read_lengths_rd_inv l n total pre suf lens total' r :
  read_lengths l n total (rd pre suf) = Ok (lens, total', r) ->
  exists rest, suf = concat (map (to_le_bytes 8) lens) ++ rest /\ length lens = n /\
    Forall (fun x => 0 <= x <= usize_max) lens /\
    r = rd (pre ++ concat (map (to_le_bytes 8) lens)) rest /\
    total' = total + foldr Z.add 0 lens.
Proof.
  revert total pre suf lens r. induction n as [|n IH];
    intros total pre suf lens r H; cbn [read_lengths] in H.
  - injection H as <- <- <-. exists suf. cbn. rewrite app_nil_r. split_and!; auto; lia.
  - bind_inv H. destruct a as [x r1].
    apply (Reader_le_rd_inv 8) in E as (rest & -> & Hx & ->).
    bind_inv H. unfold try_into in E. destruct (x <=? usize_max) eqn:Ex; [|discriminate].
    injection E as <-. bind_inv H. unfold checked_add in E.
    destruct (total + x <=? usize_max); [|discriminate]. injection E as <-.
    bind_inv H. bind_inv H. destruct a0 as [[lens1 total1] r2].
    injection H as <- <- <-. apply IH in E0 as (rest1 & -> & Hlen & Hf & -> & ->).
    exists rest1. zbool. cbn [map concat foldr length].
    rewrite <- !app_assoc. split_and!; auto; try lia. constructor; auto. lia.
Qed.

Lemma read_segments_rd segs pre suf :
  len (pre ++ concat segs ++ suf) <= usize_max ->
  read_segments (map len segs) (rd pre (concat segs ++ suf)) =
  Ok (segs, rd (pre ++ concat segs) suf).
Proof.
  revert pre. induction segs as [|seg segs IH]; intros pre Hfit;
    cbn [map concat read_segments].
  - by rewrite app_nil_r.
  - cbn [concat] in Hfit. rewrite <- !app_assoc in *.
    rewrite Reader_take_rd by done. cbn [mbind result_bind].
    rewrite IH by (by rewrite <- app_assoc). cbn [mbind result_bind].
    by rewrite <- app_assoc.
Qed.

Lemma read_segments_rd_inv lens pre suf segs r :
  Forall (fun x => 0 <= x <= usize_max) lens ->
  read_segments lens (rd pre suf) = Ok (segs, r) ->
  exists rest, suf = concat segs ++ rest /\ lens = map len segs /\
    r = rd (pre ++ concat segs) rest.
Proof.
  intros Hf. revert pre suf segs r. induction Hf as [|x lens Hx Hf IH];
    intros pre suf segs r H; cbn [read_segments] in H.
  - injection H as <- <-. exists suf. cbn. by rewrite app_nil_r.
  - bind_inv H. destruct a as [seg r1].
    apply Reader_take_rd_inv in E as (rest & -> & Hl & -> & _); [|lia].
    bind_inv H. destruct a as [segs1 r2]. injection H as <- <-.
    apply IH in E as (rest1 & -> & -> & ->).
    exists rest1. cbn [concat map]. rewrite <- !app_assoc, Hl. done.
Qed.

Lemma sum_map_len (segs : list (list byte)) :
  foldr Z.add 0 (map len segs) = payload_size segs.
Proof.
  induction segs as [|s segs IH]; cbn [map foldr]; [done|].
  by rewrite IH, payload_size_cons.
Qed.

(** One inversion step through a decoder run on [rd]. *)
Ltac read_inv k H :=
  match type of H with
  | mbind _ ?e = Ok _ =>
      let E := fresh "E" in let v := fresh "v" in let r := fresh "r" in
      let rest := fresh "rest" in let Hv := fresh "Hv" in
      destruct e as [[v r]|] eqn:E; cbn [mbind result_bind] in H; [|discriminate H];
      apply (Reader_le_rd_inv k) in E as (rest & -> & Hv & ->)
  end.

Ltac decode_step H :=
  match type of H with
  | mbind _ (fail_if ?b _) = Ok _ =>
      let B := fresh "B" in
      destruct b eqn:B; cbn [mbind result_bind fail_if] in H; [discriminate H|]
  | mbind _ (Reader_u8 _) = Ok _ => read_inv 1%nat H
  | mbind _ (Reader_u16 _) = Ok _ => read_inv 2%nat H
  | mbind _ (Reader_u32 _) = Ok _ => read_inv 4%nat H
  | mbind _ (Reader_u64 _) = Ok _ => read_inv 8%nat H
  | mbind _ (Reader_u128 _) = Ok _ => read_inv 16%nat H
  | mbind _ ?e = Ok _ =>
      let E := fresh "E" in let v := fresh "v" in let r := fresh "r" in
      let rest := fresh "rest" in let Hl := fresh "Hl" in let a := fresh "a" in
      destruct e as [a|] eqn:E; cbn [mbind result_bind] in H; [|discriminate H];
      lazymatch type of E with
      | Reader_take _ _ = Ok _ =>
          destruct a as [v r];
          apply Reader_take_rd_inv in E as (rest & -> & Hl & -> & _); [|lia]
      | Reader_array_32 _ = Ok _ =>
          destruct a as [v r];
          apply Reader_take_rd_inv in E as (rest & -> & Hl & -> & _); [|lia]
      | read_lengths _ _ _ _ = Ok _ =>
          let t := fresh "total" in
          destruct a as [[v t] r];
          apply read_lengths_rd_inv in E as (rest & -> & Hl & ? & -> & ->)
      | read_segments _ _ = Ok _ =>
          destruct a as [v r];
          apply read_segments_rd_inv in E as (rest & -> & -> & ->); [|assumption]
      | Reader_finish _ = Ok _ =>
          destruct a; apply Reader_finish_rd_inv in E as ->
      | ProtocolLimits_validate _ = Ok _ =>
          let Hok := fresh "Hlim" in apply limits_validate_inv in E as [-> Hok]
      | nonzero_u128_id _ _ = Ok _ =>
          apply nonzero_id_inv in E as [-> ?]
      | Channel_try_from _ = Ok _ => apply Channel_try_from_inv in E as ->
      | ParcelKind_try_from _ = Ok _ => apply ParcelKind_try_from_inv in E as ->
      | try_into _ _ = Ok _ =>
          unfold try_into in E; case_match; [injection E as <-|discriminate E]
      | _ => idtac
      end
  end.

Lemma trace_field_inv flag value t :
  0 <= flag < 256 ^ Z.of_nat 1 -> 0 <= value < 256 ^ Z.of_nat 16 ->
  (if (flag =? 0) && (value =? 0) then Ok None
   else if flag =? 1 then Some <$> TraceId_new value
   else Err (ProtocolError_InvalidTraceFlag flag)) = Ok t ->
  opt_trace_wf t /\
  forall rest, to_le_bytes 1 flag ++ to_le_bytes 16 value ++ rest = opt_trace_layout t ++ rest.
Proof.
  intros Hf Hv. destruct (flag =? 0) eqn:E0; cbn [andb].
  - destruct (value =? 0) eqn:Ev.
    + intros [= <-]. zbool. subst. split; [done|]. reflexivity.
    + zbool. subst. discriminate.
  - destruct (flag =? 1) eqn:E1; [|discriminate]. zbool. subst.
    unfold TraceId_new. destruct (nonzero_u128_id _ _) as [x|] eqn:E; [|discriminate].
    apply nonzero_id_inv in E as [-> ?]. intros [= <-]. split; [|reflexivity].
    cbn [opt_trace_wf from_option]. unfold id128_wf. change (2 ^ 128) with (256 ^ Z.of_nat 16). lia.
Qed.

Lemma limits_ok_fail_if l : limits_ok l -> ProtocolLimits_validate l = Ok l.
Proof. by rewrite limits_ok_validate. Qed.

Lemma magic_inv (v m : list byte) : bool_decide (v <> m) = false -> v = m.
Proof. intros H. apply bool_decide_eq_false in H. by apply dec_stable. Qed.

Lemma id128_wf_read v : v <> 0 -> 0 <= v < 256 ^ Z.of_nat 16 -> id128_wf v.
Proof. unfold id128_wf. change (2 ^ 128) with (256 ^ Z.of_nat 16). lia. Qed.

(** Whatever [decode_parcel] accepts is the layout of the parcel it returns. *)
Lemma decode_parcel_inv bs l p :
  decode_parcel bs l = Ok p ->
  Parcel_wf p /\ limits_ok l /\ parcel_fits p l /\ len (segments p) <= u32_max /\
  bs = parcel_layout p.
Proof.
  intros H. unfold decode_parcel, RunId_new, MessageId_new in H.
  rewrite Reader_new_rd in H. repeat decode_step H. injection H as <-.
  match goal with E : Parcel_validate _ _ = Ok ?u |- _ =>
    destruct u; apply Parcel_validate_ok in E as [Hok Hfit] end.
  match goal with B : bool_decide (_ <> PARCEL_MAGIC) = false |- _ =>
    apply magic_inv in B as -> end.
  match goal with E : (if _ then Ok None else _) = Ok _ |- _ =>
    apply trace_field_inv in E as [Htr Hlay]; [|done|done] end.
  zbool. rewrite Z.add_0_l, sum_map_len in *. subst. rewrite length_map in *.
  split_and!; try done.
  - unfold Parcel_wf. cbn. split_and!; try done; try (by apply id128_wf_read);
      unfold in_u; by change (2 ^ 64) with (256 ^ Z.of_nat 8).
  - cbn. unfold len, u32_max. change (2 ^ 32) with (256 ^ Z.of_nat 4). lia.
  - unfold parcel_layout. cbn [run_id message_id channel kind source destination
      trace_id segments]. rewrite <- Hlay, app_nil_r, map_map. unfold len at 2.
    do 13 f_equal. lia.
Qed.

(** One step of running a decoder on a layout. *)
Ltac read_fwd :=
  first
    [ rewrite (Reader_le_rd 16) by (first [done | zunfold; autorewrite with lens in *; lia])
    | rewrite (Reader_le_rd 8) by (first [done | zunfold; autorewrite with lens in *; lia])
    | rewrite (Reader_le_rd 4) by (first [done | zunfold; autorewrite with lens in *; lia])
    | rewrite (Reader_le_rd 2) by (first [done | zunfold; autorewrite with lens in *; lia])
    | rewrite (Reader_le_rd 1) by (first [done | zunfold; autorewrite with lens in *; lia]) ];
  rcbn.

Lemma bool_decide_neq_refl {A} `{EqDecision A} (x : A) : bool_decide (x <> x) = false.
Proof. apply bool_decide_eq_false_2. tauto. Qed.

Ltac decode_run :=
  first
    [ read_fwd
    | rewrite bool_decide_neq_refl; rcbn
    | rewrite nonzero_id_ok by lia; rcbn
    | rewrite Channel_try_from_code; rcbn
    | rewrite ParcelKind_try_from_code; rcbn
    | zdec1; rcbn ].

Ltac expose_reads :=
  change Reader_u8 with (Reader_le 1); change Reader_u16 with (Reader_le 2);
  change Reader_u32 with (Reader_le 4); change Reader_u64 with (Reader_le 8);
  change Reader_u128 with (Reader_le 16); change Reader_array_32 with (fun r => Reader_take r 32).

Lemma opt_trace_layout_split t rest :
  opt_trace_layout t ++ rest =
  to_le_bytes 1 (if t is Some _ then 1 else 0) ++ to_le_bytes 16 (default 0 t) ++ rest.
Proof. by destruct t. Qed.

Lemma trace_field_fwd t :
  opt_trace_wf t ->
  (if ((if t is Some _ then 1 else 0) =? 0) && (default 0 t =? 0) then Ok None
   else if (if t is Some _ then 1 else 0) =? 1 then Some <$> TraceId_new (default 0 t)
   else Err (ProtocolError_InvalidTraceFlag (if t is Some _ then 1 else 0))) = Ok t.
Proof.
  destruct t as [t|]; [|done]. unfold opt_trace_wf, id128_wf. cbn. intros H.
  unfold TraceId_new. by rewrite nonzero_id_ok by lia.
Qed.

Lemma Reader_finish_rd_trailing pre x :
  Reader_finish (rd pre x) =
    if len x =? 0 then Ok tt else Err (ProtocolError_TrailingBytes (len x)).
Proof.
  unfold Reader_finish, rd. cbn [offset bytes]. rewrite len_app.
  destruct (len x =? 0) eqn:E; zbool; zdec; [done|]. do 2 f_equal. lia.
Qed.

(** Running the decoder on a layout followed by trailing bytes. *)
Lemma decode_parcel_layout p l x :
  Parcel_wf p -> limits_ok l -> parcel_fits p l -> len (segments p) <= u32_max ->
  len (parcel_layout p ++ x) <= max_frame_bytes l ->
  len (parcel_layout p ++ x) <= usize_max ->
  decode_parcel (parcel_layout p ++ x) l =
    if len x =? 0 then Ok p else Err (ProtocolError_TrailingBytes (len x)).
Proof.
  intros (Hrun & Hmsg & Hsrc & Hdst & Htr) Hl Hfit H32 Hf Hux.
  pose proof Hfit as (Hs & Hp & _ & Hu).
  pose proof (payload_size_nonneg (segments p)). pose proof (len_nonneg (segments p)).
  assert (payload_size (segments p) <= usize_max) by (unfold PARCEL_FIXED_BYTES in Hu; lia).
  rewrite <- len_parcel_layout in Hu. unfold decode_parcel.
  rewrite (limits_ok_fail_if l Hl). rcbn. zdec.
  clear Hf. rewrite Reader_new_rd. unfold parcel_layout in *. cbn [segments] in *.
  rewrite <- !app_assoc in *. rewrite !opt_trace_layout_split in *. expose_reads.
  pose proof (Channel_code_range (channel p)). pose proof (ParcelKind_code_range (kind p)).
  assert (Htv : 0 <= default 0 (trace_id p) < 2 ^ 128)
    by (destruct (trace_id p); cbn in *; unfold id128_wf in *; lia).
  assert (Htf : 0 <= (if trace_id p is Some _ then 1 else 0) < 256) by (case_match; lia).
  unfold id128_wf, in_u, u32_max, RunId_new, MessageId_new, try_into in *.
  rewrite Reader_take_rd by done. rcbn.
  repeat decode_run.
  rewrite trace_field_fwd by done. rcbn. repeat decode_run.
  replace (Z.to_nat (len (segments p))) with (length (segments p)) by (unfold len; lia).
  rewrite read_lengths_rd by (autorewrite with lens in *; zunfold; lia). rcbn.
  rewrite Z.add_0_l, Z.eqb_refl. rcbn.
  rewrite read_segments_rd by (autorewrite with lens in *; lia). rcbn.
  rewrite Reader_finish_rd_trailing. destruct (len x =? 0); rcbn; [|done].
  destruct p. by rewrite (proj2 (Parcel_validate_ok _ _)).
Qed.

Lemma limits_nonneg_frame l : limits_ok l -> PARCEL_FIXED_BYTES <= max_frame_bytes l.
Proof.
  unfold limits_ok, ProtocolLimits_validate. case_match; [done|]. zbool. lia.
Qed.

(** ** Properties of the parcel codec *)

(** C2: the decoder is exactly the inverse of the encoder.  [decode_parcel]
    accepts a frame if and only if it is the encoding, within the limits, of a
    parcel the Rust types can hold, and then returns that parcel; so every
    encoded parcel is read back unchanged, no two frames decode to the same
    parcel and no accepted frame carries bytes the parcel does not determine. *)
Theorem decode_parcel_iff_encode p l bs :
  decode_parcel bs l = Ok p <-> Parcel_wf p /\ encode_parcel p l = Ok bs.
Proof.
  rewrite encode_parcel_ok. split.
  - intros H%decode_parcel_inv. tauto.
  - intros (Hwf & Hl & Hfit & H32 & ->). rewrite <- (app_nil_r (parcel_layout p)).
    pose proof Hfit as (_ & _ & Hf & Hu). rewrite <- len_parcel_layout in Hf, Hu.
    by rewrite decode_parcel_layout; rewrite ?app_nil_r.
Qed.

(** frames are self-delimiting.  Bytes after an accepted frame are refused
    with their exact count, and no strict prefix of an accepted frame is itself
    accepted. *)
Theorem decode_parcel_self_delimiting p l bs x :
  decode_parcel bs l = Ok p -> x <> [] ->
  len (bs ++ x) <= max_frame_bytes l -> len (bs ++ x) <= usize_max ->
  decode_parcel (bs ++ x) l = Err (ProtocolError_TrailingBytes (len x)) /\
  forall bs' y, bs = bs' ++ y -> y <> [] -> is_ok (decode_parcel bs' l) = false.
Proof.
  intros H Hx Hf Hu. apply decode_parcel_inv in H as (Hwf & Hl & Hfit & H32 & ->).
  assert (Hne : forall z : list byte, z <> [] -> (len z =? 0) = false)
    by (intros z Hz; apply Z.eqb_neq; intros ?%len_zero; done).
  split; [rewrite decode_parcel_layout by done; by rewrite Hne|].
  intros bs' y Heq Hy. destruct (decode_parcel bs' l) as [q|] eqn:E; [|done].
  apply decode_parcel_inv in E as (Hwf' & Hl' & Hfit' & H32' & ->).
  pose proof (decode_parcel_layout p l [] Hwf Hl Hfit H32) as Hp.
  pose proof (decode_parcel_layout q l y Hwf' Hl' Hfit' H32') as Hq.
  pose proof Hfit as (_ & _ & Hf1 & Hu1). rewrite <- len_parcel_layout in Hf1, Hu1.
  rewrite app_nil_r in Hp. rewrite <- Heq in Hq.
  specialize (Hp Hf1 Hu1). specialize (Hq Hf1 Hu1).
  rewrite (Hne y Hy), Hp in Hq. discriminate Hq.
Qed.

(** ** The handshake record *)

Lemma encode_hello_ok h out :
  Hello_wf h ->
  encode_hello h = Ok out <->
  limits_ok (limits h) /\ max_segments (limits h) <= u32_max /\
  max_queued_parcels_per_peer (limits h) <= u32_max /\ out = hello_layout h.
Proof.
  intros (_ & _ & _ & _ & _ & _ & _ & Hf & Hp & _ & _ & Hi & Hc).
  unfold encode_hello, limits_ok.
  destruct (ProtocolLimits_validate (limits h)); rcbn; [|naive_solver].
  unfold try_into. zdec.
  destruct (max_segments (limits h) <=? u32_max) eqn:E1; rcbn; zbool;
    [|split; [discriminate|lia]].
  destruct (max_queued_parcels_per_peer (limits h) <=? u32_max) eqn:E2; rcbn; zbool;
    [|split; [discriminate|lia]].
  zdec. unfold hello_layout, push_u16, push_u32, push_u64, push_u128.
  rewrite <- ?app_assoc. naive_solver.
Qed.

Lemma decode_hello_inv bs h :
  decode_hello bs = Ok h ->
  Hello_wf h /\ limits_ok (limits h) /\ max_segments (limits h) <= u32_max /\
  max_queued_parcels_per_peer (limits h) <= u32_max /\ bs = hello_layout h.
Proof.
  intros H. unfold decode_hello, RunId_new in H.
  rewrite Reader_new_rd in H. repeat decode_step H. injection H as <-.
  match goal with B : bool_decide (_ <> HELLO_MAGIC) = false |- _ =>
    apply magic_inv in B as -> end.
  zbool. subst. split_and!; cbn [limits max_segments max_queued_parcels_per_peer];
    try (unfold u32_max; change (2 ^ 32) with (256 ^ Z.of_nat 4); lia).
  - unfold Hello_wf, ProtocolLimits_wf. cbn. unfold len in *.
    split_and!; try (by apply id128_wf_read); try lia; unfold in_u;
      (by change (2 ^ 64) with (256 ^ Z.of_nat 8)) ||
      (by change (2 ^ 16) with (256 ^ Z.of_nat 2)) ||
      (change (2 ^ 64) with (256 ^ Z.of_nat 8); change (256 ^ Z.of_nat 8) with (256 ^ Z.of_nat 4 * 256 ^ 4); lia).
  - done.
  - unfold hello_layout. by rewrite app_nil_r.
Qed.

Lemma len_hello_layout h : Hello_wf h -> len (hello_layout h) = HELLO_BYTES.
Proof.
  intros (_ & _ & _ & _ & Ha & Ho & _). unfold hello_layout, HELLO_MAGIC, HELLO_BYTES.
  autorewrite with lens. unfold len. rewrite Ha, Ho. lia.
Qed.

Lemma decode_hello_layout h :
  Hello_wf h -> limits_ok (limits h) -> max_segments (limits h) <= u32_max ->
  max_queued_parcels_per_peer (limits h) <= u32_max ->
  decode_hello (hello_layout h) = Ok h.
Proof.
  intros Hwf Hl Hs Hq. pose proof (len_hello_layout h Hwf) as Hlen.
  assert (Hu : len (hello_layout h ++ []) <= usize_max)
    by (rewrite app_nil_r, Hlen; unfold HELLO_BYTES; zunfold; lia).
  destruct Hwf as (Hrun & H1 & H2 & H3 & Ha & Ho & Hc & Hf & Hp & Hs' & Hq' & Hi & Hk).
  unfold decode_hello. rewrite Hlen, Z.eqb_refl. rcbn. rewrite Reader_new_rd.
  rewrite <- (app_nil_r (hello_layout h)). unfold hello_layout in *.
  rewrite <- !app_assoc in *. expose_reads.
  assert (La : len (action_registry_hash h) = 32) by (unfold len; lia).
  assert (Lo : len (object_registry_hash h) = 32) by (unfold len; lia).
  unfold id128_wf, in_u, u32_max, RunId_new, try_into in *.
  rewrite Reader_take_rd by done. rcbn.
  repeat decode_run. rewrite Reader_take_rd by done. rcbn.
  rewrite Reader_take_rd by (first [done | zunfold; autorewrite with lens in *; lia]). rcbn.
  repeat decode_run.
  match goal with |- context [ProtocolLimits_validate ?x] =>
    replace x with (limits h) by (by destruct (limits h)) end.
  rewrite (limits_ok_fail_if _ Hl). rcbn. rewrite Reader_finish_rd. rcbn.
  by destruct h as [? [] ? ? ? ?].
Qed.

(** the handshake decoder is exactly the inverse of the encoder, on records
    the Rust types can hold, and an encoded record always has the fixed size
    [HELLO_BYTES]. *)
Theorem decode_hello_iff_encode h bs :
  (decode_hello bs = Ok h <-> Hello_wf h /\ encode_hello h = Ok bs) /\
  (decode_hello bs = Ok h -> len bs = HELLO_BYTES).
Proof.
  split.
  - split.
    + intros (Hwf & Hrest)%decode_hello_inv. split; [done|]. by apply encode_hello_ok.
    + intros [Hwf (Hl & Hs & Hq & ->)%encode_hello_ok]; [|done].
      by apply decode_hello_layout.
  - intros (Hwf & _ & _ & _ & ->)%decode_hello_inv. by apply len_hello_layout.
Qed.

(** ** Negotiation *)

(** The pointwise minimum of two limits. *)
Definition limits_min (a b : ProtocolLimits) : ProtocolLimits :=
  {| max_frame_bytes := Z.min (max_frame_bytes a) (max_frame_bytes b);
     max_payload_bytes := Z.min (max_payload_bytes a) (max_payload_bytes b);
     max_segments := Z.min (max_segments a) (max_segments b);
     max_queued_parcels_per_peer :=
       Z.min (max_queued_parcels_per_peer a) (max_queued_parcels_per_peer b);
     max_inflight_bytes_per_peer :=
       Z.min (max_inflight_bytes_per_peer a) (max_inflight_bytes_per_peer b);
     control_reserved_bytes_per_peer :=
       Z.min (control_reserved_bytes_per_peer a) (control_reserved_bytes_per_peer b) |}.

Lemma limits_ok_spec l :
  limits_ok l <->
  PARCEL_FIXED_BYTES <= max_frame_bytes l /\ max_payload_bytes l <> 0 /\
  max_segments l <> 0 /\ max_queued_parcels_per_peer l <> 0 /\
  max_inflight_bytes_per_peer l <> 0 /\ control_reserved_bytes_per_peer l <> 0 /\
  control_reserved_bytes_per_peer l < max_inflight_bytes_per_peer l.
Proof.
  unfold limits_ok, ProtocolLimits_validate. case_match; cbn [is_ok]; zbool.
  - split; [done|]. intros (? & ? & ? & ? & ? & ? & ?).
    repeat match goal with H : _ \/ _ |- _ => destruct H end; zbool; lia.
  - split; [|done]. lia.
Qed.

Lemma limits_min_ok a b : limits_ok a -> limits_ok b -> limits_ok (limits_min a b).
Proof.
  rewrite !limits_ok_spec. intros (? & ? & ? & ? & ? & ? & Ha) (? & ? & ? & ? & ? & ? & Hb).
  cbn. split_and!; try (by apply Z.min_case); try (by apply Z.min_glb).
  clear - Ha Hb. lia.
Qed.

Lemma ProtocolLimits_negotiate_ok a b n :
  ProtocolLimits_negotiate a b = Ok n <-> limits_ok a /\ limits_ok b /\ n = limits_min a b.
Proof.
  unfold ProtocolLimits_negotiate. fold (limits_min a b). split.
  - intros H. bind_inv H. bind_inv H.
    apply limits_validate_inv in E as [_ ?], E0 as [_ ?], H as [-> _]. done.
  - intros (Ha & Hb & ->). rewrite (limits_ok_fail_if a Ha), (limits_ok_fail_if b Hb). rcbn.
    by apply limits_ok_fail_if, limits_min_ok.
Qed.

Lemma limits_validate_err l e : ProtocolLimits_validate l = Err e -> e = ProtocolError_InvalidLimits.
Proof. unfold ProtocolLimits_validate. case_match; naive_solver. Qed.

Lemma ProtocolLimits_negotiate_err a b e :
  ProtocolLimits_negotiate a b = Err e -> e = ProtocolError_InvalidLimits.
Proof.
  unfold ProtocolLimits_negotiate. intros H.
  destruct (ProtocolLimits_validate a) eqn:Ea; cbn in H.
  - destruct (ProtocolLimits_validate b) eqn:Eb; cbn in H;
      [|injection H as <-]; eauto using limits_validate_err.
  - injection H as <-. eauto using limits_validate_err.
Qed.

(** Agreement of the identity fields of two handshake records. *)
Definition hello_agree (a b : Hello) : Prop :=
  hello_run_id a = hello_run_id b /\ runtime_version a = runtime_version b /\
  action_registry_hash a = action_registry_hash b /\
  object_registry_hash a = object_registry_hash b.

Lemma fail_if_sym_bind {E A} (b b' : bool) (e : E) (k k' : result E A) :
  b = b' -> k = k' -> (fail_if b e;; k) = (fail_if b' e;; k').
Proof. by intros -> ->. Qed.

Lemma negotiate_comm a b : ProtocolLimits_negotiate a b = ProtocolLimits_negotiate b a.
Proof.
  destruct (ProtocolLimits_negotiate a b) as [n|e] eqn:E.
  - apply ProtocolLimits_negotiate_ok in E as (? & ? & ->). symmetry.
    apply ProtocolLimits_negotiate_ok. split_and!; auto.
    unfold limits_min. f_equal; apply Z.min_comm.
  - destruct (ProtocolLimits_negotiate b a) as [n|e'] eqn:E'.
    + apply ProtocolLimits_negotiate_ok in E' as (Ha & Hb & _).
      rewrite (proj2 (ProtocolLimits_negotiate_ok a b _) (conj Hb (conj Ha eq_refl))) in E.
      discriminate.
    + apply ProtocolLimits_negotiate_err in E as ->, E' as ->. done.
Qed.

(** the handshake check is symmetric and complete.  Both sides of a
    connection reach the same verdict (the same error or the same negotiated
    record); it succeeds exactly when the identity fields agree and both limits
    are valid, and then the capabilities are the common ones and each limit is
    the smaller of the two, which is again a valid set of limits. *)
Theorem Hello_validate_peer_sym_complete a b :
  Hello_validate_peer a b = Hello_validate_peer b a /\
  (forall n, Hello_validate_peer a b = Ok n <->
     hello_agree a b /\ limits_ok (limits a) /\ limits_ok (limits b) /\
     n = mkNegotiatedHello (Z.land (capabilities a) (capabilities b))
           (limits_min (limits a) (limits b))) /\
  (limits_ok (limits a) -> limits_ok (limits b) ->
     limits_ok (limits_min (limits a) (limits b))).
Proof.
  split_and!; [| |apply limits_min_ok].
  - unfold Hello_validate_peer.
    apply fail_if_sym_bind; [by rewrite Z.eqb_sym|].
    do 3 (apply fail_if_sym_bind; [apply bool_decide_ext; split; congruence|]).
    by rewrite negotiate_comm, Z.land_comm.
  - intros n. unfold Hello_validate_peer, hello_agree. split.
    + intros H. do 4 (bind_inv H; fail_if_inv E). bind_inv H.
      apply ProtocolLimits_negotiate_ok in E as (? & ? & ->). injection H as <-.
      zbool. repeat match goal with H : ~ (_ <> _) |- _ => apply dec_stable in H end.
      done.
    + intros ((-> & -> & -> & ->) & Ha & Hb & ->).
      rewrite Z.eqb_refl, !bool_decide_neq_refl. rcbn.
      rewrite (proj2 (ProtocolLimits_negotiate_ok _ _ _) (conj Ha (conj Hb eq_refl))).
      by rewrite Z.land_comm || done.
Qed.

(** ** Concrete instances *)

Definition sample_parcel : Parcel :=
  {| run_id := 7; message_id := 2 ^ 127; channel := Channel_Bulk; kind := ParcelKind_Data;
     source := 0; destination := 3; trace_id := Some 5;
     segments := [[Byte.x01; Byte.x02]; []; [Byte.xff]] |}.

(** A three-segment parcel followed by one byte. *)
Lemma decode_parcel_self_delimiting_witness :
  decode_parcel (parcel_layout sample_parcel) ProtocolLimits_default = Ok sample_parcel /\
  decode_parcel (parcel_layout sample_parcel ++ [Byte.x00]) ProtocolLimits_default =
    Err (ProtocolError_TrailingBytes 1) /\
  forall bs' y, parcel_layout sample_parcel = bs' ++ y -> y <> [] ->
    is_ok (decode_parcel bs' ProtocolLimits_default) = false.
Proof.
  assert (H : decode_parcel (parcel_layout sample_parcel) ProtocolLimits_default
              = Ok sample_parcel) by (vm_compute; reflexivity).
  split; [exact H|].
  apply (decode_parcel_self_delimiting sample_parcel ProtocolLimits_default
           (parcel_layout sample_parcel) [Byte.x00] H).
  - discriminate.
  - vm_compute. discriminate.
  - vm_compute. discriminate.
Defined.

Definition sample_hello (run : RunId) (frame : Z) : Hello :=
  {| hello_run_id := run; runtime_version := mkRuntimeVersion 0 1 2;
     action_registry_hash := repeat Byte.x0a 32; object_registry_hash := repeat Byte.x0b 32;
     capabilities := 13;
     limits := mkProtocolLimits frame 4096 8 16 65536 1024 |}.

Example hello_frame_size :
  (len <$> encode_hello (sample_hello 9 8192)) = Ok HELLO_BYTES.
Proof. vm_compute. reflexivity. Qed.

Example hello_negotiated :
  (max_frame_bytes ∘ negotiated_limits <$>
     Hello_validate_peer (sample_hello 9 8192) (sample_hello 9 100)) = Ok 100 /\
  Hello_validate_peer (sample_hello 9 8192) (sample_hello 8 100) = Err ProtocolError_RunMismatch.
Proof. vm_compute. split; reflexivity. Qed.
