(* ===== verification/Wire.v ===== *)
(** * Wire: the frame header, payloads and error keys of the MPI algorithms

    Models [src/wire.rs].  A header is written into a 28-byte array and read
    back from slices; the payload codec is the third-party [bincode], a
    parameter. *)
From Stdlib Require Import Strings.Byte.
From S2P Require Import Prelude Text.

(** ** Constants and enumerations *)

Definition PROTOCOL_VERSION : Z := 1.
Definition MAX_WIRE_BYTES : Z := i32_max.
Definition HEADER_LEN : Z := 28.
Definition NO_ERROR_KEY : Z := i64_max.

Inductive MessageKind : Type :=
| Kind_Ready | Kind_Task | Kind_Result | Kind_Stop | Kind_Drain
| Kind_Broadcast | Kind_Scatter | Kind_Gather.
#[export] Instance MessageKind_eq_dec : EqDecision MessageKind.
Proof. solve_decision. Defined.

Inductive MessageStatus : Type := Status_None | Status_Ok | Status_Error.
#[export] Instance MessageStatus_eq_dec : EqDecision MessageStatus.
Proof. solve_decision. Defined.

Inductive WireError : Type :=
| InvalidHeaderSize (actual : Z)
| InvalidVersion (expected actual : Z)
| InvalidKind (value : Z)
| InvalidStatus (value : Z)
| StatusKindMismatch (kind : MessageKind) (status : MessageStatus)
| PayloadTooLarge (bytes : Z)
| CountOverflow (count : Z)
| UsizeOverflow (length : Z)
| Encode (detail : text)
| Decode (detail : text)
| TrailingBytes (used total : Z)
| InvalidWorldSize (world_size : Z)
| InvalidRank (rank world_size : Z)
| ErrorKeyOverflow.

Definition MessageKind_debug (k : MessageKind) : text :=
  lit match k with
  | Kind_Ready => "Ready" | Kind_Task => "Task" | Kind_Result => "Result" | Kind_Stop => "Stop"
  | Kind_Drain => "Drain" | Kind_Broadcast => "Broadcast" | Kind_Scatter => "Scatter" | Kind_Gather => "Gather"
  end.
Definition MessageStatus_debug (s : MessageStatus) : text :=
  lit match s with Status_None => "None" | Status_Ok => "Ok" | Status_Error => "Error" end.

(** [Display]; a detail that cannot be truncated is never met
    ([Text.truncate_message_cut]). *)
Definition WireError_display (e : WireError) : text :=
  match e with
  | InvalidHeaderSize actual => lit "invalid wire header size: " ++ decimal actual
  | InvalidVersion expected actual =>
      lit "invalid wire version: expected " ++ decimal expected ++ lit ", got " ++ decimal actual
  | InvalidKind value => lit "invalid wire message kind: " ++ decimal value
  | InvalidStatus value => lit "invalid wire message status: " ++ decimal value
  | StatusKindMismatch kind status =>
      lit "wire status is incompatible with message kind: " ++ MessageKind_debug kind ++ lit "/" ++ MessageStatus_debug status
  | PayloadTooLarge bytes => lit "wire payload is too large: " ++ decimal bytes ++ lit " bytes"
  | CountOverflow count => lit "MPI count overflows i32: " ++ decimal count
  | UsizeOverflow length => lit "wire length overflows usize: " ++ decimal length
  | Encode detail => lit "wire payload encoding failed: " ++ default [] (truncate_message detail)
  | Decode detail => lit "wire payload decoding failed: " ++ default [] (truncate_message detail)
  | TrailingBytes used total =>
      lit "wire payload has trailing bytes: used " ++ decimal used ++ lit " of " ++ decimal total
  | InvalidWorldSize world_size => lit "invalid MPI world size: " ++ decimal world_size
  | InvalidRank rank world_size =>
      lit "invalid MPI rank " ++ decimal rank ++ lit " for world size " ++ decimal world_size
  | ErrorKeyOverflow => lit "deterministic error key overflows i64"
  end.

Definition MessageKind_code (k : MessageKind) : Z :=
  match k with
  | Kind_Ready => 0 | Kind_Task => 1 | Kind_Result => 2 | Kind_Stop => 3
  | Kind_Drain => 4 | Kind_Broadcast => 5 | Kind_Scatter => 6 | Kind_Gather => 7
  end.

Definition MessageKind_try_from (value : Z) : result WireError MessageKind :=
  if value =? 0 then Ok Kind_Ready
  else if value =? 1 then Ok Kind_Task
  else if value =? 2 then Ok Kind_Result
  else if value =? 3 then Ok Kind_Stop
  else if value =? 4 then Ok Kind_Drain
  else if value =? 5 then Ok Kind_Broadcast
  else if value =? 6 then Ok Kind_Scatter
  else if value =? 7 then Ok Kind_Gather
  else Err (InvalidKind value).

Definition MessageStatus_code (s : MessageStatus) : Z :=
  match s with Status_None => 0 | Status_Ok => 1 | Status_Error => 2 end.

Definition MessageStatus_try_from (value : Z) : result WireError MessageStatus :=
  if value =? 0 then Ok Status_None
  else if value =? 1 then Ok Status_Ok
  else if value =? 2 then Ok Status_Error
  else Err (InvalidStatus value).

(** ** Headers *)

Record Header : Type := mkHeader {
  version : Z; kind : MessageKind; status : MessageStatus;
  batch_id : Z; item_count : Z; payload_len : Z;
}.

Definition validate_status (k : MessageKind) (s : MessageStatus) : result WireError unit :=
  let valid :=
    match k with
    | Kind_Ready | Kind_Task | Kind_Stop | Kind_Drain
    | Kind_Broadcast | Kind_Scatter | Kind_Gather => bool_decide (s = Status_None)
    | Kind_Result => match s with Status_Ok | Status_Error => true | Status_None => false end
    end in
  fail_if (negb valid) (StatusKindMismatch k s).

Definition validate_payload_len (n : Z) : result WireError unit :=
  fail_if (negb (n <=? MAX_WIRE_BYTES)) (PayloadTooLarge n).

Definition Header_new (k : MessageKind) (s : MessageStatus) (batch items payload : Z) :
    result WireError Header :=
  validate_status k s;;
  validate_payload_len payload;;
  Ok (mkHeader PROTOCOL_VERSION k s batch items payload).

(** [bytes[a..b].copy_from_slice(new)] with [b = a + new.len()]. *)
Definition copy_at (a : nat) (new bytes : list byte) : list byte :=
  take a bytes ++ new ++ drop (a + length new) bytes.

Definition Header_encode (h : Header) : list byte :=
  let bytes := replicate 28 Byte.x00 in
  let bytes := copy_at 0 (to_le_bytes 2 (version h)) bytes in
  let bytes := <[2%nat := byte_of (MessageKind_code (kind h))]> bytes in
  let bytes := <[3%nat := byte_of (MessageStatus_code (status h))]> bytes in
  let bytes := copy_at 4 (to_le_bytes 8 (batch_id h)) bytes in
  let bytes := copy_at 12 (to_le_bytes 8 (item_count h)) bytes in
  copy_at 20 (to_le_bytes 8 (payload_len h)) bytes.

(** The indices are in range, the length having been checked. *)
Definition Header_decode (bytes : list byte) : result WireError Header :=
  fail_if (negb (len bytes =? HEADER_LEN)) (InvalidHeaderSize (len bytes));;
  let v := from_le_bytes (slice 0 2 bytes) in
  fail_if (negb (v =? PROTOCOL_VERSION)) (InvalidVersion PROTOCOL_VERSION v);;
  k ← MessageKind_try_from (from_le_bytes (slice 2 3 bytes));
  s ← MessageStatus_try_from (from_le_bytes (slice 3 4 bytes));
  validate_status k s;;
  let batch := from_le_bytes (slice 4 12 bytes) in
  let items := from_le_bytes (slice 12 20 bytes) in
  let payload := from_le_bytes (slice 20 28 bytes) in
  validate_payload_len payload;;
  Ok (mkHeader v k s batch items payload).

(** ** Counts *)

Definition checked_mpi_count (value : Z) : result WireError Z :=
  fail_if (negb (value <=? i32_max)) (CountOverflow value);; Ok value.

Definition checked_usize_length (value : Z) : result WireError Z :=
  fail_if (negb (value <=? usize_max)) (UsizeOverflow value);; Ok value.

(** ** Payloads *)

Section Payload.
(** [bincode] with the fixed-width little-endian configuration: encoding to
    bytes, and decoding a value together with the bytes it used. *)
Context {A : Type}
  (encode_to_vec : A -> result text (list byte))
  (decode_from_slice : list byte -> result text (A * Z)).

(** [map_err] to an error that keeps the truncated rendering. *)
Definition detail_err {B} (wrap : text -> WireError) (r : result text B) :
    result (exn WireError) B :=
  match r with
  | Ok b => Ok b
  | Err e => match truncate_message e with Some d => Err (Raise (wrap d)) | None => Err Panic end
  end.

Definition encode_payload (value : A) : result (exn WireError) (list byte) :=
  bytes ← detail_err Encode (encode_to_vec value);
  map_err Raise (validate_payload_len (len bytes));;
  Ok bytes.

Definition decode_payload (bytes : list byte) : result (exn WireError) A :=
  map_err Raise (validate_payload_len (len bytes));;
  '(value, used) ← detail_err Decode (decode_from_slice bytes);
  fail_if (negb (used =? len bytes)) (Raise (TrailingBytes used (len bytes)));;
  Ok value.
End Payload.

(** ** Error keys *)

Inductive ErrorClass : Type := Class_WireProtocol | Class_Callback | Class_Drain.
Definition ErrorClass_COUNT : Z := 3.
Definition ErrorClass_code (c : ErrorClass) : Z :=
  match c with Class_WireProtocol => 0 | Class_Callback => 1 | Class_Drain => 2 end.

Definition validate_world_rank (rank world_size : Z) : result WireError unit :=
  fail_if (world_size <=? 0) (InvalidWorldSize world_size);;
  fail_if ((rank <? 0) || (world_size <=? rank)) (InvalidRank rank world_size);;
  Ok tt.

(** The arithmetic is on [u128]; [error_key_u128] shows that it does not wrap. *)
Definition ErrorKey_new (task_key : Z) (class : ErrorClass) (reporting_rank world_size : Z) :
    result WireError Z :=
  validate_world_rank reporting_rank world_size;;
  let value := (task_key * ErrorClass_COUNT + ErrorClass_code class) * world_size
               + reporting_rank in
  fail_if (NO_ERROR_KEY <=? value) ErrorKeyOverflow;;
  Ok value.

Definition preflight_candidate (failed : bool) (reporting_rank world_size : Z) :
    result WireError Z :=
  validate_world_rank reporting_rank world_size;;
  Ok (if failed then reporting_rank else world_size).

(** ** Header round trip *)

Definition header_layout (h : Header) : list byte :=
  to_le_bytes 2 (version h) ++ to_le_bytes 1 (MessageKind_code (kind h))
  ++ to_le_bytes 1 (MessageStatus_code (status h)) ++ to_le_bytes 8 (batch_id h)
  ++ to_le_bytes 8 (item_count h) ++ to_le_bytes 8 (payload_len h).

(** The headers [Header::new] makes from [u64] arguments. *)
Definition header_wf (h : Header) : Prop :=
  version h = PROTOCOL_VERSION /\ validate_status (kind h) (status h) = Ok tt /\
  in_u 64 (batch_id h) /\ in_u 64 (item_count h) /\ 0 <= payload_len h <= MAX_WIRE_BYTES.

Definition wire_error_wf (e : WireError) : Prop :=
  match e with Encode detail | Decode detail => utf8_valid detail = true | _ => True end.

Lemma wire_error_display_valid e : wire_error_wf e -> utf8_valid (WireError_display e) = true.
Proof.
  intros Hwf. destruct e; cbn [WireError_display wire_error_wf] in *;
    try (destruct (truncate_message_cut _ Hwf) as (t & -> & Ht)); cbn [default];
    repeat apply utf8_valid_app; try apply decimal_valid; try done;
    solve [apply Ht | by destruct kind0 | by destruct status0].
Qed.

Lemma header_encode_layout h : Header_encode h = header_layout h.
Proof. reflexivity. Qed.

Lemma length_header_layout h : length (header_layout h) = 28%nat.
Proof. reflexivity. Qed.

Lemma kind_code_range k : 0 <= MessageKind_code k < 256.
Proof. destruct k; cbn; lia. Qed.
Lemma status_code_range s : 0 <= MessageStatus_code s < 256.
Proof. destruct s; cbn; lia. Qed.

Lemma kind_try_from_code k : MessageKind_try_from (MessageKind_code k) = Ok k.
Proof. by destruct k. Qed.
Lemma status_try_from_code s : MessageStatus_try_from (MessageStatus_code s) = Ok s.
Proof. by destruct s. Qed.

Lemma kind_try_from_inv z k : MessageKind_try_from z = Ok k -> z = MessageKind_code k.
Proof.
  unfold MessageKind_try_from.
  repeat (case_match; zbool; [intros; simplify_eq; done|]). done.
Qed.
Lemma status_try_from_inv z s : MessageStatus_try_from z = Ok s -> z = MessageStatus_code s.
Proof.
  unfold MessageStatus_try_from.
  repeat (case_match; zbool; [intros; simplify_eq; done|]). done.
Qed.

Lemma Header_decode_layout h : header_wf h -> Header_decode (header_layout h) = Ok h.
Proof.
  intros (Hv & Hs & Hb & Hi & Hp). destruct h as [v k s b i p].
  cbn [version kind status batch_id item_count payload_len] in *. subst v.
  pose proof (kind_code_range k). pose proof (status_code_range s).
  set (h := mkHeader _ _ _ _ _ _).
  assert (Hl : len (header_layout h) = HEADER_LEN) by (unfold len; by rewrite length_header_layout).
  unfold Header_decode. rewrite Hl. rcbn. clear Hl.
  unfold header_layout, h. cbn [version kind status batch_id item_count payload_len].
  unfold in_u, MAX_WIRE_BYTES in *. zunfold.
  slice_eval. rewrite !from_to_le_bytes by (unfold PROTOCOL_VERSION; cbn; lia).
  rewrite !Z.eqb_refl. rcbn.
  rewrite kind_try_from_code. rcbn. rewrite status_try_from_code. rcbn. rewrite Hs. rcbn.
  unfold validate_payload_len, MAX_WIRE_BYTES. zdec. done.
Qed.

Lemma header_split (bytes : list byte) :
  length bytes = 28%nat ->
  bytes = slice 0 2 bytes ++ slice 2 3 bytes ++ slice 3 4 bytes ++ slice 4 12 bytes
          ++ slice 12 20 bytes ++ slice 20 28 bytes.
Proof.
  intros H. rewrite !slice_join by lia. symmetry. by apply slice_all.
Qed.

Lemma Header_decode_inv bytes h :
  Header_decode bytes = Ok h -> header_wf h /\ bytes = header_layout h.
Proof.
  unfold Header_decode. intros H. repeat (bind_inv H; try fail_if_inv E).
  all: repeat match goal with E : fail_if _ _ = Ok _ |- _ => fail_if_inv E end.
  injection H as <-. zbool.
  match goal with H : len bytes = HEADER_LEN |- _ =>
    assert (Hlen : length bytes = 28%nat) by (unfold len, HEADER_LEN in H; lia) end.
  repeat match goal with
  | E : MessageKind_try_from _ = Ok _ |- _ => apply kind_try_from_inv in E
  | E : MessageStatus_try_from _ = Ok _ |- _ => apply status_try_from_inv in E
  | E : validate_payload_len _ = Ok _ |- _ => unfold validate_payload_len in E; fail_if_inv E
  end. zbool.
  pose proof (from_le_bytes_range' 8 (slice 4 12 bytes) ltac:(apply length_slice; lia)).
  pose proof (from_le_bytes_range' 8 (slice 12 20 bytes) ltac:(apply length_slice; lia)).
  pose proof (from_le_bytes_range' 8 (slice 20 28 bytes) ltac:(apply length_slice; lia)).
  split.
  - unfold header_wf, in_u. cbn. split_and!; try done; try (cbn in *; lia).
    by repeat match goal with u : unit |- _ => destruct u end.
  - unfold header_layout. cbn [version kind status batch_id item_count payload_len].
    repeat match goal with E : _ = MessageKind_code _ |- _ => rewrite <- E; clear E
                         | E : _ = MessageStatus_code _ |- _ => rewrite <- E; clear E end.
    rewrite !to_from_le_bytes' by (rewrite length_slice; lia).
    by apply header_split.
Qed.

(** [Header::decode] accepts exactly the 28-byte encodings of the headers
    that [Header::new] can build, and returns the header that was encoded:
    decoding rejects every other byte string, in length, version, kind, status,
    their combination, or payload size. *)
Theorem header_decode_iff_encode bytes h :
  Header_decode bytes = Ok h <->
    (exists batch items payload,
       in_u 64 batch /\ in_u 64 items /\ in_u 64 payload /\
       Header_new (kind h) (status h) batch items payload = Ok h) /\
    bytes = Header_encode h.
Proof.
  rewrite header_encode_layout. split.
  - intros [(Hv & Hs & Hb & Hi & Hp) Hl]%Header_decode_inv. split; [|done].
    exists (batch_id h), (item_count h), (payload_len h). unfold in_u. zunfold.
    unfold MAX_WIRE_BYTES in *. zunfold. split_and!; try lia.
    unfold Header_new. rewrite Hs. rcbn. unfold validate_payload_len, MAX_WIRE_BYTES.
    zdec. destruct h; cbn in *. by subst.
  - intros [(batch & items & payload & Hb & Hi & Hp & Hn) ->]. apply Header_decode_layout.
    unfold Header_new in Hn. bind_inv Hn. bind_inv Hn.
    unfold validate_payload_len in E0. fail_if_inv E0. injection Hn as <-. zbool.
    unfold in_u in Hp. destruct a, a0.
    unfold header_wf. cbn. split_and!; try done; lia.
Qed.

(** ** Payloads *)

Section PayloadProofs.
Context {A : Type}
  (encode_to_vec : A -> result text (list byte))
  (decode_from_slice : list byte -> result text (A * Z))
  (** [bincode] decodes what it encoded, using exactly those bytes, whatever follows. *)
  (decode_encode : forall v bytes rest, encode_to_vec v = Ok bytes ->
     decode_from_slice (bytes ++ rest) = Ok (v, len bytes)).

(** given a codec that decodes what it encodes, a payload that
    [encode_payload] produces fits in the MPI count range and [decode_payload]
    returns the value; the same bytes with anything appended are refused as
    trailing, never decoded to a value. *)
Theorem payload_round_trip value bytes :
  encode_payload encode_to_vec value = Ok bytes ->
  len bytes <= MAX_WIRE_BYTES /\
  decode_payload decode_from_slice bytes = Ok value /\
  forall extra, extra <> [] ->
    decode_payload decode_from_slice (bytes ++ extra) =
      Err (Raise (if len (bytes ++ extra) <=? MAX_WIRE_BYTES
                  then TrailingBytes (len bytes) (len (bytes ++ extra))
                  else PayloadTooLarge (len (bytes ++ extra)))).
Proof.
  unfold encode_payload. intros H. bind_inv H. bind_inv H. injection H as <-.
  destruct (encode_to_vec value) as [b|e] eqn:Henc; cbn in E;
    [injection E as <-|by destruct (truncate_message e)].
  unfold validate_payload_len in E0. destruct (len b <=? MAX_WIRE_BYTES) eqn:Hl; [|done].
  zbool. split; [done|]. unfold decode_payload, validate_payload_len. split.
  - rewrite (proj2 (Z.leb_le _ _) Hl). rcbn. cbn [map_err]. rcbn.
    pose proof (decode_encode _ _ [] Henc) as Hd. rewrite app_nil_r in Hd. rewrite Hd.
    cbn [detail_err]. rcbn. by rewrite Z.eqb_refl.
  - intros extra Hne. destruct (len (b ++ extra) <=? MAX_WIRE_BYTES); [|done].
    rcbn. cbn [map_err]. rcbn. rewrite (decode_encode _ _ extra Henc). cbn [detail_err]. rcbn.
    rewrite len_app. destruct (Z.eqb_spec (len b) (len b + len extra)) as [He|]; [|done].
    destruct Hne. apply len_zero. lia.
Qed.
End PayloadProofs.

(** ** Error keys *)

Lemma class_code_range c : 0 <= ErrorClass_code c < ErrorClass_COUNT.
Proof. unfold ErrorClass_COUNT. destruct c; cbn; lia. Qed.
Lemma class_code_inj c c' : ErrorClass_code c = ErrorClass_code c' -> c = c'.
Proof. by destruct c, c'. Qed.

Lemma ErrorKey_new_inv task class rank world k :
  ErrorKey_new task class rank world = Ok k ->
  0 <= rank < world /\ k < NO_ERROR_KEY /\
  k = (task * ErrorClass_COUNT + ErrorClass_code class) * world + rank.
Proof.
  unfold ErrorKey_new, validate_world_rank. intros H. bind_inv H. bind_inv E. fail_if_inv E0.
  bind_inv E. fail_if_inv E0. bind_inv H. fail_if_inv E0. injection H as <-. zbool. lia.
Qed.

(** Mixed-radix numbers compare digit by digit. *)
Lemma radix_lt (n a b a' b' : Z) :
  0 <= b < n -> 0 <= b' < n -> a * n + b < a' * n + b' <-> a < a' \/ (a = a' /\ b < b').
Proof. intros. split; nia. Qed.

Lemma error_key_u128 task class rank world :
  in_u 64 task -> 0 <= rank < world -> world <= i32_max ->
  0 <= (task * ErrorClass_COUNT + ErrorClass_code class) * world + rank <= u128_max.
Proof.
  unfold ErrorClass_COUNT. intros. pose proof (class_code_range class). unfold ErrorClass_COUNT in *.
  zunfold. assert (0 <= task * 3 + ErrorClass_code class < 2 ^ 66) by lia.
  generalize dependent (task * 3 + ErrorClass_code class). intros x Hx. split; [nia|].
  apply Z.le_trans with (2 ^ 66 * world + rank); [|lia]. nia.
Qed.

(** error keys order failures by task, then class, then reporting rank:
    comparing two keys of one world is comparing those triples
    lexicographically, so a minimum over all ranks picks one deterministic
    failure.  A key never equals the "no error" sentinel, names its rank, and
    is refused only for an invalid rank or when it would reach the sentinel;
    the [u128] arithmetic never wraps. *)
Theorem error_keys_are_lexicographic world t1 c1 r1 t2 c2 r2 :
  in_u 64 t1 -> in_u 64 t2 -> world <= i32_max ->
  (forall k1 k2, ErrorKey_new t1 c1 r1 world = Ok k1 -> ErrorKey_new t2 c2 r2 world = Ok k2 ->
     0 <= k1 < NO_ERROR_KEY /\ k1 mod world = r1 /\
     (k1 = k2 <-> (t1, c1, r1) = (t2, c2, r2)) /\
     (k1 < k2 <-> t1 < t2 \/
        t1 = t2 /\ (ErrorClass_code c1 < ErrorClass_code c2 \/ c1 = c2 /\ r1 < r2))) /\
  (is_ok (ErrorKey_new t1 c1 r1 world) = true <->
     0 <= r1 < world /\
     (t1 * ErrorClass_COUNT + ErrorClass_code c1) * world + r1 < NO_ERROR_KEY <= u128_max).
Proof.
  intros Ht1 Ht2 Hw. pose proof (class_code_range c1). pose proof (class_code_range c2).
  split.
  - intros k1 k2 (Hr1 & Hk1 & Ek1)%ErrorKey_new_inv (Hr2 & _ & Ek2)%ErrorKey_new_inv.
    pose proof (error_key_u128 t1 c1 r1 world Ht1 Hr1 Hw) as Hu.
    assert (Hlt : forall a b, 0 <= a < world -> 0 <= b < world -> forall ta tb ca cb,
      (ta * ErrorClass_COUNT + ErrorClass_code ca) * world + a <
      (tb * ErrorClass_COUNT + ErrorClass_code cb) * world + b <->
      ta < tb \/ ta = tb /\ (ErrorClass_code ca < ErrorClass_code cb \/ ca = cb /\ a < b)).
    { intros a b Ha Hb ta tb ca cb. rewrite radix_lt by done.
      pose proof (class_code_range ca). pose proof (class_code_range cb). rewrite radix_lt by done.
      split.
      - intros [[?|[? ?]]|[E ?]]; [tauto|tauto|]. right.
        assert (ta = tb /\ ErrorClass_code ca = ErrorClass_code cb) as [-> ->%class_code_inj]
          by (unfold ErrorClass_COUNT in *; lia). auto.
      - intros [?|[-> [?|[-> ?]]]]; auto. }
    split_and!; [lia|lia| | |].
    + subst k1. rewrite Z.add_comm, Z_mod_plus_full. by apply Z.mod_small.
    + split; [|by intros [= -> -> ->]; congruence]. intros Heq.
      pose proof (Hlt r1 r2 Hr1 Hr2 t1 t2 c1 c2). pose proof (Hlt r2 r1 Hr2 Hr1 t2 t1 c2 c1).
      assert (t1 = t2) as -> by (destruct (Z.lt_total t1 t2) as [?|[?|?]]; [lia|done|lia]).
      assert (c1 = c2) as ->.
      { apply class_code_inj.
        destruct (Z.lt_total (ErrorClass_code c1) (ErrorClass_code c2)) as [?|[?|?]]; [lia|done|lia]. }
      assert (r1 = r2) as -> by (destruct (Z.lt_total r1 r2) as [?|[?|?]]; [lia|done|lia]). done.
    + subst k1 k2. by apply Hlt.
  - split.
    + destruct (ErrorKey_new t1 c1 r1 world) as [k|] eqn:E; [|done].
      apply ErrorKey_new_inv in E as (? & ? & ->). unfold NO_ERROR_KEY in *. zunfold. lia.
    + intros [Hr Hk]. unfold ErrorKey_new, validate_world_rank. by zdec.
Qed.

(** ** Witnesses *)

(** A codec for [u64] values: eight little-endian bytes. *)
Definition encode_u64 (v : Z) : result text (list byte) :=
  if decide (in_u 64 v) then Ok (to_le_bytes 8 v) else Err (lit "range").
Definition decode_u64 (bytes : list byte) : result text (Z * Z) :=
  if len bytes <? 8 then Err (lit "short") else Ok (from_le_bytes (slice 0 8 bytes), 8).

Lemma decode_encode_u64 v bytes rest :
  encode_u64 v = Ok bytes -> decode_u64 (bytes ++ rest) = Ok (v, len bytes).
Proof.
  unfold encode_u64, decode_u64. destruct (decide (in_u 64 v)) as [Hv|]; [|done].
  intros Heq. assert (bytes = to_le_bytes 8 v) as -> by congruence. clear Heq.
  rewrite len_app, len_to_le_bytes. pose proof (len_nonneg rest). zdec.
  rewrite slice_app_hit by apply length_to_le_bytes. by rewrite from_to_le_bytes.
Qed.

Lemma payload_round_trip_witness :
  decode_payload decode_u64 (to_le_bytes 8 1234) = Ok 1234 /\
  decode_payload decode_u64 (to_le_bytes 8 1234 ++ [Byte.x00]) = Err (Raise (TrailingBytes 8 9)).
Proof.
  destruct (payload_round_trip encode_u64 decode_u64 decode_encode_u64 1234 (to_le_bytes 8 1234)
              eq_refl) as (_ & H & Hx).
  split; [exact H|]. exact (Hx [Byte.x00] ltac:(discriminate)).
Defined.

Lemma error_keys_are_lexicographic_witness : 
  ErrorKey_new 7 Class_Callback 2 4 = Ok 90 /\ ErrorKey_new 7 Class_Drain 1 4 = Ok 93 /\
  90 < 93 /\ 90 mod 4 = 2.
Proof.
  split; [reflexivity|]. split; [reflexivity|].
  destruct (error_keys_are_lexicographic 4 7 Class_Callback 2 7 Class_Drain 1
              ltac:(vm_compute; split; discriminate || reflexivity)
              ltac:(vm_compute; split; discriminate || reflexivity)
              ltac:(vm_compute; discriminate)) as [H _].
  destruct (H 90 93 eq_refl eq_refl) as (_ & Hm & _ & Hlt).
  split; [|exact Hm]. apply Hlt. right. split; [reflexivity|]. left. reflexivity.
Defined.
