(* ===== verification/Scheduler.v ===== *)
(** * Scheduler: the coordinator of the dynamically scheduled [pmap]

    Models [src/scheduler.rs].  [Coordinator] is the Rust struct; each method is
    a computation in [M (Coordinator T U) SchedulerError], so it returns the
    state it leaves behind also when it fails.  Vector indices ([usize]) are
    [nat]; batch identifiers ([u64]) are [Z] with a checked increment; the
    remote lanes, a [BTreeMap], are a [gmap]. *)
From S2P Require Import Prelude Text.

(** ** Data *)

Abbreviation BatchId := Z (only parsing).
Definition BatchId_ZERO : BatchId := 0.

Record ScheduledItem (T : Type) : Type := mkScheduledItem { item_index : nat; item_value : T }.
Arguments mkScheduledItem {T} _ _.
Arguments item_index {T} _.
Arguments item_value {T} _.

Record Batch (T : Type) : Type := mkBatch { batch_id : BatchId; items : list (ScheduledItem T) }.
Arguments mkBatch {T} _ _.
Arguments batch_id {T} _.
Arguments items {T} _.

Record ItemResult (U : Type) : Type := mkItemResult { original_index : nat; value : U }.
Arguments mkItemResult {U} _ _.
Arguments original_index {U} _.
Arguments value {U} _.

Inductive Dispatch (T : Type) : Type :=
| Dispatch_Task (b : Batch T)
| Dispatch_Stop.
Arguments Dispatch_Task {T} _.
Arguments Dispatch_Stop {T}.

Inductive Lane : Type := Lane_Root | Lane_Remote (rank : Z).

Record CompletionMeta : Type := mkCompletionMeta { cm_lane : Lane; cm_batch_id : BatchId }.

Record RunningMeta : Type := mkRunningMeta { meta_id : BatchId; original_indices : list nat }.
#[export] Instance RunningMeta_eq_dec : EqDecision RunningMeta.
Proof. solve_decision. Defined.

Inductive LaneState : Type :=
| Idle
| Running (current : RunningMeta) (prefetched : option RunningMeta) (stopping : bool)
| Stopped
| Drained.
#[export] Instance LaneState_eq_dec : EqDecision LaneState.
Proof. solve_decision. Defined.

Inductive LaneStateKind : Type := KIdle | KRunning | KStopped | KDrained.
#[export] Instance LaneStateKind_eq_dec : EqDecision LaneStateKind.
Proof. solve_decision. Defined.

Definition LaneState_kind (s : LaneState) : LaneStateKind :=
  match s with
  | Idle => KIdle
  | Running _ _ _ => KRunning
  | Stopped => KStopped
  | Drained => KDrained
  end.

Definition kind_is (k : LaneStateKind) (s : LaneState) : bool :=
  bool_decide (LaneState_kind s = k).

Inductive SchedulerError : Type :=
| InvalidRoot | InvalidRemote | DuplicateRemote | RootInRemotes | UnknownRank
| WrongLaneState | BatchIdOverflow | BatchMismatch | ResultCount | IndexSequence
| IndexOutOfBounds | AlreadyFilled | DuplicateResultIndex | IndexOverflow
| NotFinished | Failed | MissingResult.

Definition SchedulerError_display (e : SchedulerError) : text :=
  lit match e with
  | InvalidRoot => "invalid root rank"
  | InvalidRemote => "invalid remote rank"
  | DuplicateRemote => "duplicate remote rank"
  | RootInRemotes => "root rank is listed as remote"
  | UnknownRank => "unknown scheduler rank"
  | WrongLaneState => "scheduler lane is in the wrong state"
  | BatchIdOverflow => "scheduler batch ID overflow"
  | BatchMismatch => "scheduler batch ID mismatch"
  | ResultCount => "scheduler result count mismatch"
  | IndexSequence => "scheduler result index sequence mismatch"
  | IndexOutOfBounds => "scheduler result index is out of bounds"
  | AlreadyFilled => "scheduler result slot is already filled"
  | DuplicateResultIndex => "scheduler result index is duplicated"
  | IndexOverflow => "scheduler input index overflow"
  | NotFinished => "scheduler is not finished"
  | Failed => "scheduler failed"
  | MissingResult => "scheduler result is missing"
  end.

Definition BatchId_checked_increment (id : BatchId) : result SchedulerError BatchId :=
  ok_or (checked_add u64_max id 1) BatchIdOverflow.

Record Coordinator (T U : Type) : Type := mkCoordinator {
  pending : list (ScheduledItem T);
  ordered : list (option U);
  batch_size : nat;
  next_batch_id : BatchId;
  root : LaneState;
  remotes : gmap Z LaneState;
  prefetch : bool;
  failed : bool;
}.
Arguments mkCoordinator {T U} _ _ _ _ _ _ _ _.
Arguments pending {T U} _.
Arguments ordered {T U} _.
Arguments batch_size {T U} _.
Arguments next_batch_id {T U} _.
Arguments root {T U} _.
Arguments remotes {T U} _.
Arguments prefetch {T U} _.
Arguments failed {T U} _.

Section Coordinator.
Context {T U : Type}.
Implicit Types (c : Coordinator T U) (rank id : Z) (results : list (ItemResult U)).
Local Abbreviation SM := (M (Coordinator T U) SchedulerError).

Definition set_root (s : LaneState) c : Coordinator T U :=
  mkCoordinator (pending c) (ordered c) (batch_size c) (next_batch_id c) s (remotes c)
    (prefetch c) (failed c).
Definition set_remote (rank : Z) (s : LaneState) c : Coordinator T U :=
  mkCoordinator (pending c) (ordered c) (batch_size c) (next_batch_id c) (root c)
    (<[rank := s]> (remotes c)) (prefetch c) (failed c).
Definition set_ordered (o : list (option U)) c : Coordinator T U :=
  mkCoordinator (pending c) o (batch_size c) (next_batch_id c) (root c) (remotes c)
    (prefetch c) (failed c).
Definition set_pending (p : list (ScheduledItem T)) (next : BatchId) c : Coordinator T U :=
  mkCoordinator p (ordered c) (batch_size c) next (root c) (remotes c) (prefetch c) (failed c).
(** [self.failed = true; self.pending.clear()]. *)
Definition set_failed c : Coordinator T U :=
  mkCoordinator [] (ordered c) (batch_size c) (next_batch_id c) (root c) (remotes c)
    (prefetch c) true.

(** ** Construction *)

(** The loop inserting the remote ranks. *)
Fixpoint insert_remotes (root_rank : Z) (ranks : list Z) (m : gmap Z LaneState) :
    result SchedulerError (gmap Z LaneState) :=
  match ranks with
  | [] => Ok m
  | rank :: ranks' =>
      fail_if (rank <? 0) InvalidRemote;;
      fail_if (rank =? root_rank) RootInRemotes;;
      fail_if (bool_decide (is_Some (m !! rank))) DuplicateRemote;;
      insert_remotes root_rank ranks' (<[rank := Idle]> m)
  end.

(** The loop queueing the inputs with their indices. *)
Fixpoint enqueue_items (index : nat) (l : list T) : result SchedulerError (list (ScheduledItem T)) :=
  match l with
  | [] => Ok []
  | v :: l' =>
      fail_if (u64_max <? Z.of_nat index) IndexOverflow;;
      rest ← enqueue_items (S index) l';
      Ok (mkScheduledItem index v :: rest)
  end.

Definition new_with_prefetch (root_rank : Z) (remote_ranks : list Z) (l : list T)
    (size : nat) (pre : bool) : result SchedulerError (Coordinator T U) :=
  fail_if (root_rank <? 0) InvalidRoot;;
  rem ← insert_remotes root_rank remote_ranks ∅;
  queue ← enqueue_items 0 l;
  Ok {| pending := queue; ordered := replicate (length queue) None; batch_size := size;
        next_batch_id := BatchId_ZERO; root := Idle; remotes := rem; prefetch := pre;
        failed := false |}.

(** ** Batches *)

Definition is_empty {A} (l : list A) : bool := match l with [] => true | _ => false end.

Definition make_batch : SM (option (Batch T)) :=
  c ← gets id;
  if failed c || is_empty (pending c) then mret None
  else
    let id := next_batch_id c in
    next_id ← lift (BatchId_checked_increment id);
    let count := Nat.min (batch_size c) (length (pending c)) in
    let its := take count (pending c) in
    modify (set_pending (drop count (pending c)) next_id);;
    mret (Some (mkBatch id its)).

Definition metadata (b : Batch T) : RunningMeta :=
  mkRunningMeta (batch_id b) (map item_index (items b)).

Definition expect {A} (o : option A) : SM A :=
  match o with Some a => mret a | None => panic end.

Definition remote_get_mut (rank : Z) : SM LaneState :=
  c ← gets id;
  match remotes c !! rank with Some s => mret s | None => raise UnknownRank end.

Definition on_remote_ready (rank : Z) : SM (Dispatch T) :=
  c ← gets id;
  prefetch_request ←
    match remotes c !! rank with
    | Some Idle => mret false
    | Some (Running _ None false) =>
        if prefetch c then mret true else raise WrongLaneState
    | Some _ => raise WrongLaneState
    | None => raise UnknownRank
    end;
  if failed c || is_empty (pending c) then
    (if (prefetch_request : bool) then
       state ← remote_get_mut rank;
       match state with
       | Running current pre _ => modify (set_remote rank (Running current pre true))
       | _ => panic
       end
     else modify (set_remote rank Stopped));;
    mret Dispatch_Stop
  else
    made ← make_batch;
    batch ← expect made;
    let meta := metadata batch in
    (if prefetch_request then
       state ← remote_get_mut rank;
       match state with
       | Running current _ stopping =>
           modify (set_remote rank (Running current (Some meta) stopping))
       | _ => panic
       end
     else modify (set_remote rank (Running meta None false)));;
    mret (Dispatch_Task batch).

Definition next_root_batch : SM (option (Batch T)) :=
  c ← gets id;
  if kind_is KRunning (root c) then raise WrongLaneState
  else if kind_is KStopped (root c) then mret None
  else if failed c || is_empty (pending c) then
    modify (set_root Stopped);; mret None
  else
    made ← make_batch;
    batch ← expect made;
    modify (set_root (Running (metadata batch) None false));;
    mret (Some batch).

(** ** Completions *)

(** The loop of [validate_completion] over the results from [position] on. *)
Fixpoint validate_results (indices : list nat) (slots : list (option U))
    (position : nat) (seen : gset nat) (results : list (ItemResult U)) :
    result (exn SchedulerError) unit :=
  match results with
  | [] => Ok tt
  | r :: results' =>
      let index := original_index r in
      match slots !! index with
      | None => Err (Raise IndexOutOfBounds)
      | Some slot =>
          fail_if (bool_decide (index ∈ seen)) (Raise DuplicateResultIndex);;
          expected ← ok_or (indices !! position) Panic;
          fail_if (negb (Nat.eqb expected index)) (Raise IndexSequence);;
          fail_if (bool_decide (is_Some slot)) (Raise AlreadyFilled);;
          validate_results indices slots (S position) ({[index]} ∪ seen) results'
      end
  end.

Definition validate_completion c (meta : RunningMeta) (id : BatchId) results :
    result (exn SchedulerError) unit :=
  fail_if (negb (meta_id meta =? id)) (Raise BatchMismatch);;
  fail_if (negb (Nat.eqb (length (original_indices meta)) (length results)))
    (Raise ResultCount);;
  validate_results (original_indices meta) (ordered c) 0 ∅ results.

(** [self.ordered[index] = Some(value)] for each result; indexing panics out of range. *)
Fixpoint store_results (results : list (ItemResult U)) : SM unit :=
  match results with
  | [] => mret tt
  | r :: results' =>
      c ← gets id;
      match ordered c !! original_index r with
      | None => panic
      | Some _ =>
          modify (set_ordered (<[original_index r := Some (value r)]> (ordered c)));;
          store_results results'
      end
  end.

(** The guard shared by the completions of the root lane. *)
Definition root_current : SM RunningMeta :=
  c ← gets id;
  match root c with
  | Running current None false => mret current
  | _ => raise WrongLaneState
  end.

Definition on_root_success (id : BatchId) results : SM CompletionMeta :=
  meta ← root_current;
  c ← gets Datatypes.id;
  lift_exn (validate_completion c meta id results);;
  modify (set_root Idle);;
  mwhen (negb (failed c)) (store_results results);;
  mret (mkCompletionMeta Lane_Root id).

Definition remote_current (rank : Z) : SM RunningMeta :=
  c ← gets id;
  match remotes c !! rank with
  | Some (Running current _ _) => mret current
  | Some _ => raise WrongLaneState
  | None => raise UnknownRank
  end.

Definition advance_remote (rank : Z) : SM unit :=
  c ← gets id;
  match remotes c !! rank with
  | None => raise UnknownRank
  | Some state =>
      match state with
      | Running _ (Some current) false =>
          modify (set_remote rank (Running current None false))
      | Running _ None true => modify (set_remote rank Stopped)
      | Running _ None false => modify (set_remote rank Idle)
      | _ => raise WrongLaneState
      end
  end.

Definition on_remote_success (rank : Z) (id : BatchId) results : SM CompletionMeta :=
  meta ← remote_current rank;
  c ← gets Datatypes.id;
  lift_exn (validate_completion c meta id results);;
  advance_remote rank;;
  mwhen (negb (failed c)) (store_results results);;
  mret (mkCompletionMeta (Lane_Remote rank) id).

Definition on_root_error (id : BatchId) : SM CompletionMeta :=
  meta ← root_current;
  if negb (meta_id meta =? id) then raise BatchMismatch
  else
    modify (set_root Idle);;
    modify set_failed;;
    mret (mkCompletionMeta Lane_Root id).

Definition on_remote_error (rank : Z) (id : BatchId) : SM CompletionMeta :=
  meta ← remote_current rank;
  if negb (meta_id meta =? id) then raise BatchMismatch
  else
    advance_remote rank;;
    modify set_failed;;
    mret (mkCompletionMeta (Lane_Remote rank) id).

Definition on_remote_protocol_error (rank : Z) : SM CompletionMeta :=
  meta ← remote_current rank;
  advance_remote rank;;
  modify set_failed;;
  mret (mkCompletionMeta (Lane_Remote rank) (meta_id meta)).

Definition on_remote_drain (rank : Z) : SM unit :=
  state ← remote_get_mut rank;
  if negb (kind_is KStopped state) then raise WrongLaneState
  else modify (set_remote rank Drained).

(** ** Termination of a run *)

Definition b2n (b : bool) : nat := if b then 1%nat else 0%nat.

Definition running_count c : nat :=
  (b2n (kind_is KRunning (root c)) +
   length (filter (fun p => kind_is KRunning p.2 = true) (map_to_list (remotes c))))%nat.

Definition is_quiescent c : bool :=
  is_empty (pending c) && Nat.eqb (running_count c) 0.

Definition is_finished c : bool :=
  kind_is KStopped (root c)
  && forallb (fun p => kind_is KDrained p.2) (map_to_list (remotes c))
  && Nat.eqb (running_count c) 0.

Definition into_results c : result SchedulerError (list U) :=
  fail_if (failed c) Failed;;
  fail_if (negb (is_finished c)) NotFinished;;
  mapR (fun slot => ok_or slot MissingResult) (ordered c).

End Coordinator.

(** ** The coordinator as a transition system

    One event per call the driver of the coordinator makes; [run_event] runs
    the corresponding method. *)

Inductive event (U : Type) : Type :=
| RemoteReady (rank : Z)
| NextRootBatch
| RootSuccess (id : Z) (results : list (ItemResult U))
| RemoteSuccess (rank id : Z) (results : list (ItemResult U))
| RootError (id : Z)
| RemoteError (rank id : Z)
| RemoteProtocolError (rank : Z)
| RemoteDrain (rank : Z).
Arguments RemoteReady {U} _.
Arguments NextRootBatch {U}.
Arguments RootSuccess {U} _ _.
Arguments RemoteSuccess {U} _ _ _.
Arguments RootError {U} _.
Arguments RemoteError {U} _ _.
Arguments RemoteProtocolError {U} _.
Arguments RemoteDrain {U} _.

(** What a call returns: the batch it hands out, if it hands one out. *)
Definition output (T : Type) : Type := option (Batch T).

Section Events.
Context {T U : Type}.
Implicit Types (c : Coordinator T U) (ev : event U).

Definition dispatched_batch (d : Dispatch T) : output T :=
  match d with Dispatch_Task b => Some b | Dispatch_Stop => None end.

Definition run_event ev : M (Coordinator T U) SchedulerError (output T) :=
  match ev with
  | RemoteReady rank => d ← on_remote_ready rank; mret (dispatched_batch d)
  | NextRootBatch => next_root_batch
  | RootSuccess id results => on_root_success id results;; mret None
  | RemoteSuccess rank id results => on_remote_success rank id results;; mret None
  | RootError id => on_root_error id;; mret None
  | RemoteError rank id => on_remote_error rank id;; mret None
  | RemoteProtocolError rank => on_remote_protocol_error rank;; mret None
  | RemoteDrain rank => on_remote_drain rank;; mret None
  end.

(** ** Completion checks *)

(** The results answer exactly the batch [meta] and every slot is still empty. *)
Definition answers (meta : RunningMeta) (slots : list (option U)) (results : list (ItemResult U)) :
    Prop :=
  map original_index results = original_indices meta /\
  NoDup (original_indices meta) /\
  Forall (fun i => slots !! i = Some None) (original_indices meta).

Lemma validate_results_ok indices (slots : list (option U)) position (seen : gset nat) results :
  length indices = (position + length results)%nat ->
  validate_results indices slots position seen results = Ok tt <->
  map original_index results = drop position indices /\
  NoDup (drop position indices) /\
  Forall (fun i => (i ∉ seen) /\ slots !! i = Some None) (drop position indices).
Proof.
  revert position seen. induction results as [|r results IH]; intros position seen Hlen;
    cbn [validate_results map length] in *.
  { rewrite drop_ge by lia. split; [|done]. by repeat constructor. }
  destruct (lookup_lt_is_Some_2 indices position) as [x Hx]; [lia|].
  rewrite (drop_S indices x position Hx), Hx, NoDup_cons, Forall_cons. rcbn.
  destruct (slots !! original_index r) as [slot|] eqn:Hs; cbn [fail_if].
  2:{ split; [discriminate|]. intros (Hm & _ & [_ Hsx] & _). congruence. }
  destruct (bool_decide (original_index r ∈ seen)) eqn:Hin; zbool; rcbn.
  { split; [discriminate|]. intros (Hm & _ & [Hn _] & _).
    assert (original_index r = x) as <- by congruence. done. }
  destruct (Nat.eqb_spec x (original_index r)) as [->|Hne]; rcbn.
  2:{ split; [discriminate|]. intros (Hm & _). congruence. }
  destruct (bool_decide (is_Some slot)) eqn:Hsl; zbool; rcbn.
  { split; [discriminate|]. intros (_ & _ & [_ Hsx] & _). destruct Hsl. congruence. }
  rewrite IH by lia. rewrite !Forall_forall. split.
  - intros (-> & Hnd & Hf). split_and!; try done.
    + intros Hi. apply Hf in Hi. set_solver.
    + destruct slot; [destruct Hsl; eauto|done].
    + intros i Hi. apply Hf in Hi. set_solver.
  - intros ([= Hm] & [Hni Hnd] & _ & Hf). split_and!; try done.
    intros i Hi. specialize (Hf i Hi). set_solver.
Qed.

Lemma validate_completion_ok c meta id results :
  validate_completion c meta id results = Ok tt <->
  meta_id meta = id /\ answers meta (ordered c) results.
Proof.
  unfold validate_completion, answers.
  destruct (meta_id meta =? id) eqn:E; zbool; rcbn; [|naive_solver].
  destruct (Nat.eqb_spec (length (original_indices meta)) (length results)) as [Hl|Hl]; rcbn.
  - rewrite validate_results_ok by done. rewrite drop_0. split.
    + intros (? & ? & Hf). split_and!; try done. eapply Forall_impl; [exact Hf|]. naive_solver.
    + intros (_ & ? & ? & Hf). split_and!; try done. eapply Forall_impl; [exact Hf|]. set_solver.
  - split; [discriminate|]. intros (_ & Hm & _). apply (f_equal length) in Hm.
    rewrite length_map in Hm. done.
Qed.

(** The checks never index out of bounds. *)
Lemma validate_results_no_panic indices (slots : list (option U)) position seen results :
  length indices = (position + length results)%nat ->
  validate_results indices slots position seen results <> Err Panic.
Proof.
  revert position seen. induction results as [|r results IH]; intros position seen Hlen;
    cbn [validate_results length] in *; [done|].
  destruct (lookup_lt_is_Some_2 indices position) as [x Hx]; [lia|]. rewrite Hx. rcbn.
  unfold fail_if. repeat (case_match; rcbn; try done). apply IH. lia.
Qed.

Lemma validate_completion_no_panic c meta id results :
  validate_completion c meta id results <> Err Panic.
Proof.
  unfold validate_completion. destruct (negb (meta_id meta =? id)); rcbn; [done|].
  destruct (Nat.eqb_spec (length (original_indices meta)) (length results)); rcbn; [|done].
  by apply validate_results_no_panic.
Qed.

(** ** Storing results *)

Definition store (results : list (ItemResult U)) (slots : list (option U)) : list (option U) :=
  foldl (fun o r => <[original_index r := Some (value r)]> o) slots results.

Lemma store_cons r rs slots :
  store (r :: rs) slots = store rs (<[original_index r := Some (value r)]> slots).
Proof. done. Qed.

Lemma length_store results slots : length (store results slots) = length slots.
Proof.
  revert slots. induction results as [|r rs IH]; intros slots; [done|].
  by rewrite store_cons, IH, length_insert.
Qed.

Lemma store_lookup_notin results slots i :
  i ∉ map original_index results -> store results slots !! i = slots !! i.
Proof.
  revert slots. induction results as [|r rs IH]; intros slots Hi; [done|].
  cbn [map] in Hi. rewrite store_cons, IH by set_solver.
  apply list_lookup_insert_ne. set_solver.
Qed.

Lemma store_lookup_in results slots r :
  r ∈ results -> NoDup (map original_index results) -> (original_index r < length slots)%nat ->
  store results slots !! original_index r = Some (Some (value r)).
Proof.
  revert slots. induction results as [|r' rs IH]; intros slots Hr Hnd Hi; [set_solver|].
  cbn [map] in Hnd. apply NoDup_cons in Hnd as [Hni Hnd]. rewrite store_cons.
  apply elem_of_cons in Hr as [->|Hr].
  - rewrite store_lookup_notin by done. by apply list_lookup_insert_eq.
  - apply IH; [done|done|]. by rewrite length_insert.
Qed.

Lemma store_results_spec results c :
  Forall (fun r => original_index r < length (ordered c))%nat results ->
  store_results results c = (Ok tt, set_ordered (store results (ordered c)) c).
Proof.
  revert c. induction results as [|r rs IH]; intros c Hf; cbn [store_results].
  - by destruct c.
  - inversion Hf as [|? ? Hr Hrs]; subst. mrun.
    destruct (lookup_lt_is_Some_2 _ _ Hr) as [o Ho]. rewrite Ho. mrun.
    rewrite IH; [done|]. cbn. by rewrite length_insert.
Qed.

Lemma answers_in_range meta slots results :
  answers meta slots results ->
  Forall (fun r => original_index r < length slots)%nat results.
Proof.
  intros (Hm & _ & Hf). rewrite <- Hm, Forall_map in Hf. eapply Forall_impl; [exact Hf|].
  cbn. intros r Hr. by eapply lookup_lt_Some.
Qed.

End Events.

(** ** Declarative rules

    The transitions the coordinator is meant to have, one rule per kind of
    lane change.  [Running cur None true] is a lane that was told to stop while
    its last batch runs. *)

Definition lane_done (s : LaneState) : option (RunningMeta * LaneState) :=
  match s with
  | Running cur (Some next) false => Some (cur, Running next None false)
  | Running cur None true => Some (cur, Stopped)
  | Running cur None false => Some (cur, Idle)
  | _ => None
  end.

Section Rules.
Context {T U : Type}.
Implicit Types (c : Coordinator T U) (ev : event U).

Definition has_work c : bool := negb (failed c || is_empty (pending c)).
Definition batch_count c : nat := Nat.min (batch_size c) (length (pending c)).
Definition batch_of c : Batch T := mkBatch (next_batch_id c) (take (batch_count c) (pending c)).
Definition after_batch c : Coordinator T U :=
  set_pending (drop (batch_count c) (pending c)) (next_batch_id c + 1) c.
Definition can_dispatch c : Prop := has_work c = true /\ next_batch_id c + 1 <= u64_max.
Definition record_results (results : list (ItemResult U)) c : Coordinator T U :=
  set_ordered (if failed c then ordered c else store results (ordered c)) c.

Inductive accepted : Coordinator T U -> event U -> output T -> Coordinator T U -> Prop :=
| acc_remote_task c rank :
    remotes c !! rank = Some Idle -> can_dispatch c ->
    accepted c (RemoteReady rank) (Some (batch_of c))
      (set_remote rank (Running (metadata (batch_of c)) None false) (after_batch c))
| acc_remote_prefetch c rank cur :
    remotes c !! rank = Some (Running cur None false) -> prefetch c = true -> can_dispatch c ->
    accepted c (RemoteReady rank) (Some (batch_of c))
      (set_remote rank (Running cur (Some (metadata (batch_of c))) false) (after_batch c))
| acc_remote_stop c rank :
    remotes c !! rank = Some Idle -> has_work c = false ->
    accepted c (RemoteReady rank) None (set_remote rank Stopped c)
| acc_remote_stopping c rank cur :
    remotes c !! rank = Some (Running cur None false) -> prefetch c = true ->
    has_work c = false ->
    accepted c (RemoteReady rank) None (set_remote rank (Running cur None true) c)
| acc_root_task c :
    root c = Idle \/ root c = Drained -> can_dispatch c ->
    accepted c NextRootBatch (Some (batch_of c))
      (set_root (Running (metadata (batch_of c)) None false) (after_batch c))
| acc_root_stop c :
    root c = Idle \/ root c = Drained -> has_work c = false ->
    accepted c NextRootBatch None (set_root Stopped c)
| acc_root_stopped c :
    root c = Stopped -> accepted c NextRootBatch None c
| acc_root_success c cur results :
    root c = Running cur None false -> answers cur (ordered c) results ->
    accepted c (RootSuccess (meta_id cur) results) None
      (record_results results (set_root Idle c))
| acc_remote_success c rank s cur s' results :
    remotes c !! rank = Some s -> lane_done s = Some (cur, s') ->
    answers cur (ordered c) results ->
    accepted c (RemoteSuccess rank (meta_id cur) results) None
      (record_results results (set_remote rank s' c))
| acc_root_error c cur :
    root c = Running cur None false ->
    accepted c (RootError (meta_id cur)) None (set_failed (set_root Idle c))
| acc_remote_error c rank s cur s' :
    remotes c !! rank = Some s -> lane_done s = Some (cur, s') ->
    accepted c (RemoteError rank (meta_id cur)) None (set_failed (set_remote rank s' c))
| acc_remote_protocol_error c rank s cur s' :
    remotes c !! rank = Some s -> lane_done s = Some (cur, s') ->
    accepted c (RemoteProtocolError rank) None (set_failed (set_remote rank s' c))
| acc_remote_drain c rank :
    remotes c !! rank = Some Stopped ->
    accepted c (RemoteDrain rank) None (set_remote rank Drained c).

Lemma lane_done_kind s p : lane_done s = Some p -> LaneState_kind s = KRunning.
Proof. by destruct s. Qed.

(** The rules are deterministic. *)
Lemma accepted_det c ev o1 c1 o2 c2 :
  accepted c ev o1 c1 -> accepted c ev o2 c2 -> o1 = o2 /\ c1 = c2.
Proof.
  unfold can_dispatch. intros H1 H2. inversion H1; subst; inversion H2; subst;
    unfold can_dispatch in *;
    repeat match goal with H : _ \/ _ |- _ => destruct H | H : _ /\ _ |- _ => destruct H end;
    simplify_eq/=; try done; try congruence.
Qed.

(** A call is accepted by the rules, or refused with an error and no effect. *)
Definition implements ev c : Prop :=
  (exists o c', accepted c ev o c' /\ run_event ev c = (Ok o, c')) \/
  (exists e, run_event ev c = (Err (Raise e), c) /\ forall o c', ~ accepted c ev o c').

Ltac accept rule :=
  left; do 2 eexists; split; [eapply rule; unfold can_dispatch; eauto | reflexivity].
Ltac refuse :=
  right; eexists; split;
  [ reflexivity
  | let Hacc := fresh "Hacc" in
    intros ? ? Hacc; inversion Hacc; subst; unfold can_dispatch in *;
    repeat match goal with
    | H : _ /\ _ |- _ => destruct H
    | H : _ \/ _ |- _ => destruct H
    | H : ?x = Some ?s, H' : ?x = Some ?s' |- _ =>
        let E := fresh in
        assert (E : s = s') by congruence; clear H'; 
        first [discriminate E | injection E as ?; subst | subst s' | subst s]
    end;
    cbn [lane_done] in *; first [congruence | lia] ].

Lemma make_batch_spec c :
  has_work c = true ->
  make_batch c =
    (if next_batch_id c + 1 <=? u64_max then Ok (Some (batch_of c))
     else Err (Raise BatchIdOverflow),
     if next_batch_id c + 1 <=? u64_max then after_batch c else c).
Proof.
  unfold has_work, make_batch. intros H. mrun. destruct (failed c || _); [done|].
  mrun. unfold BatchId_checked_increment, checked_add. by destruct (_ <=? _).
Qed.

Lemma has_work_if c :
  failed c || is_empty (pending c) = negb (has_work c).
Proof. unfold has_work. by rewrite negb_involutive. Qed.

Ltac dispatch rule c Hw :=
  let Hn := fresh "Hn" in
  rewrite (M_bind_step _ _ _ _ _ (make_batch_spec c Hw));
  destruct (next_batch_id c + 1 <=? u64_max) eqn:Hn; zbool; unfold expect; mrun;
  [accept rule | refuse].

Lemma remote_ready_implements c rank : implements (RemoteReady rank) c.
Proof.
  unfold implements. cbn [run_event]. unfold on_remote_ready, remote_get_mut. mrun.
  destruct (remotes c !! rank) as [[|cur [pre|] [|]| |]|] eqn:Hr; mrun; try refuse.
  - rewrite has_work_if. destruct (has_work c) eqn:Hw; mrun; [dispatch acc_remote_task c Hw | accept acc_remote_stop].
  - destruct (prefetch c) eqn:Hp; mrun; [|refuse].
    rewrite has_work_if. destruct (has_work c) eqn:Hw; mrun.
    + rewrite (M_bind_step _ _ _ _ _ (make_batch_spec c Hw)).
      destruct (next_batch_id c + 1 <=? u64_max) eqn:Hn; zbool; unfold expect; mrun; [|refuse].
      change (remotes (after_batch c)) with (remotes c). rewrite Hr. mrun.
      accept acc_remote_prefetch.
    + rewrite Hr. mrun. accept acc_remote_stopping.
Qed.

Lemma next_root_implements c : implements NextRootBatch c.
Proof.
  unfold implements. cbn [run_event]. unfold next_root_batch, kind_is. mrun.
  destruct (root c) as [|cur pre st| |] eqn:Hr;
    rewrite ?bool_decide_eq_true_2, ?bool_decide_eq_false_2 by done; mrun;
    try refuse; try accept acc_root_stopped; rewrite has_work_if;
    (destruct (has_work c) eqn:Hw; mrun; [dispatch acc_root_task c Hw | accept acc_root_stop]).
Qed.
(** Completions: the lane's current batch, the check of the results, the lane's
    next state. *)
Lemma store_results_answers c meta results :
  answers meta (ordered c) results ->
  mwhen (negb (failed c)) (store_results results) c = (Ok tt, record_results results c).
Proof.
  intros Ha. unfold record_results. destruct (failed c); cbn [mwhen negb].
  - by destruct c.
  - eapply store_results_spec, answers_in_range; eauto.
Qed.

Lemma record_results_lane_root results s c :
  record_results results (set_root s c) = set_root s (record_results results c).
Proof. done. Qed.

Lemma validate_cases c meta id results :
  (validate_completion c meta id results = Ok tt /\ meta_id meta = id /\
   answers meta (ordered c) results) \/
  (exists e, validate_completion c meta id results = Err (Raise e) /\
     ~ (meta_id meta = id /\ answers meta (ordered c) results)).
Proof.
  pose proof (validate_completion_ok c meta id results) as Hok.
  pose proof (validate_completion_no_panic c meta id results) as Hnp.
  destruct (validate_completion c meta id results) as [[]|[e|]]; [left; tauto| |done].
  right. exists e. split; [done|]. rewrite <- Hok. done.
Qed.

Lemma root_success_implements c id results : implements (RootSuccess id results) c.
Proof.
  unfold implements. cbn [run_event]. unfold on_root_success, root_current. mrun.
  destruct (root c) as [|cur [pre|] [|]| |] eqn:Hr; mrun; try refuse.
  destruct (validate_cases c cur id results) as [(-> & <- & Ha)|(e & -> & Hne)]; mrun.
  - rewrite (M_bind_step _ _ _ _ _ (store_results_answers (set_root Idle c) cur results Ha)).
    mrun. accept acc_root_success.
  - right. eexists. split; [reflexivity|]. intros ? ? Hacc. inversion Hacc; subst.
    apply Hne. split; congruence.
Qed.

Lemma advance_remote_spec c rank s :
  remotes c !! rank = Some s ->
  advance_remote rank c =
    (if lane_done s is Some _ then Ok tt else Err (Raise WrongLaneState),
     if lane_done s is Some (_, s') then set_remote rank s' c else c).
Proof.
  intros Hr. unfold advance_remote. mrun. rewrite Hr. by destruct s as [|? [?|] [|]| |].
Qed.

Lemma remote_success_implements c rank id results :
  implements (RemoteSuccess rank id results) c.
Proof.
  unfold implements. cbn [run_event]. unfold on_remote_success, remote_current. mrun.
  destruct (remotes c !! rank) as [s|] eqn:Hr; mrun; [|refuse].
  destruct s as [|cur pre st| |]; mrun; try refuse.
  destruct (validate_cases c cur id results) as [(-> & <- & Ha)|(e & -> & Hne)]; mrun.
  - destruct (lane_done (Running cur pre st)) as [[cur' s']|] eqn:Hd.
    + rewrite (M_bind_step _ _ _ _ _ (advance_remote_spec c rank _ Hr)), Hd. mrun.
      rewrite (M_bind_step _ _ _ _ _
                 (store_results_answers (set_remote rank s' c) cur results Ha)).
      mrun. assert (cur' = cur) as -> by (destruct pre, st; cbn in Hd; congruence).
      accept acc_remote_success.
    + rewrite (M_bind_step _ _ _ _ _ (advance_remote_spec c rank _ Hr)), Hd. mrun. refuse.
  - right. eexists. split; [reflexivity|]. intros ? ? Hacc. inversion Hacc; subst.
    apply Hne. assert (s = Running cur pre st) as -> by congruence.
    assert (cur0 = cur) as -> by (destruct pre, st; cbn in *; congruence). done.
Qed.

Lemma root_error_implements c id : implements (RootError id) c.
Proof.
  unfold implements. cbn [run_event]. unfold on_root_error, root_current. mrun.
  destruct (root c) as [|cur [pre|] [|]| |] eqn:Hr; mrun; try refuse.
  destruct (meta_id cur =? id) eqn:Hid; zbool; mrun; [subst; accept acc_root_error | refuse].
Qed.

Lemma remote_error_implements c rank id : implements (RemoteError rank id) c.
Proof.
  unfold implements. cbn [run_event]. unfold on_remote_error, remote_current. mrun.
  destruct (remotes c !! rank) as [s|] eqn:Hr; mrun; [|refuse].
  destruct s as [|cur pre st| |]; mrun; try refuse.
  destruct (meta_id cur =? id) eqn:Hid; zbool; mrun; subst.
  - destruct (lane_done (Running cur pre st)) as [[cur' s']|] eqn:Hd;
      rewrite (M_bind_step _ _ _ _ _ (advance_remote_spec c rank _ Hr)), Hd; mrun; [|refuse].
    assert (cur' = cur) as -> by (destruct pre, st; cbn in Hd; congruence).
    accept acc_remote_error.
  - right. eexists. split; [reflexivity|]. intros ? ? Hacc. inversion Hacc; subst.
    apply Hid. assert (s = Running cur pre st) as -> by congruence.
    destruct pre, st; cbn in *; congruence.
Qed.

Lemma remote_protocol_error_implements c rank : implements (RemoteProtocolError rank) c.
Proof.
  unfold implements. cbn [run_event]. unfold on_remote_protocol_error, remote_current. mrun.
  destruct (remotes c !! rank) as [s|] eqn:Hr; mrun; [|refuse].
  destruct s as [|cur pre st| |]; mrun; try refuse.
  destruct (lane_done (Running cur pre st)) as [[cur' s']|] eqn:Hd;
    rewrite (M_bind_step _ _ _ _ _ (advance_remote_spec c rank _ Hr)), Hd; mrun; [|refuse].
  accept acc_remote_protocol_error.
Qed.

Lemma remote_drain_implements c rank : implements (RemoteDrain rank) c.
Proof.
  unfold implements. cbn [run_event]. unfold on_remote_drain, remote_get_mut, kind_is. mrun.
  destruct (remotes c !! rank) as [[]|] eqn:Hr; mrun; try refuse;
    rewrite ?bool_decide_eq_true_2, ?bool_decide_eq_false_2 by done; mrun; try refuse.
  accept acc_remote_drain.
Qed.

Lemma run_event_implements c ev : implements ev c.
Proof.
  destruct ev; auto using remote_ready_implements, next_root_implements,
    root_success_implements, remote_success_implements, root_error_implements,
    remote_error_implements, remote_protocol_error_implements, remote_drain_implements.
Qed.

(** What the rules allow is what the method does. *)
Lemma accepted_run c ev o c' : accepted c ev o c' -> run_event ev c = (Ok o, c').
Proof.
  intros Ha. destruct (run_event_implements c ev) as [(o2 & c2 & Ha2 & He)|(e & _ & Hno)]; [|by apply Hno in Ha].
  destruct (accepted_det c ev _ _ _ _ Ha Ha2). congruence.
Qed.

(** C3: every method of the coordinator implements the declarative lane rules,
    from any state.  A call succeeds with output [o] and leaves [c'] exactly
    when a rule allows that step; otherwise it returns an error, never panics
    and leaves the coordinator unchanged. *)
Theorem run_event_refines c ev :
  (forall o c', run_event ev c = (Ok o, c') <-> accepted c ev o c') /\
  (forall x c', run_event ev c = (Err x, c') -> c' = c /\ x <> Panic).
Proof.
  destruct (run_event_implements c ev) as [(o & c1 & Ha & He)|(e & He & Hno)]; rewrite He.
  - split; [|done]. intros o' c'. split; [by intros [= <- <-]|].
    intros Ha'. destruct (run_event_implements c ev) as [(o2 & c2 & _ & He2)|(e & He2 & Hno)].
    + destruct (accepted_det c ev _ _ _ _ Ha Ha'); congruence.
    + by apply Hno in Ha.
  - split; [|by intros ? ? [= <- <-]]. intros o c'. split; [done|]. by intros ?%Hno.
Qed.
End Rules.

(** ** The bookkeeping invariant

    [core_inv] is the accounting of inputs, stated on the queue, the result
    slots, the next batch identifier and the batches in flight, whatever lane
    runs them; lanes are added below. *)

Section Core.
Context {T U : Type} (l : list T).
Implicit Types (pend : list (ScheduledItem T)) (slots : list (option U)) (ms : list RunningMeta).

(** The inputs with their indices, as [new_with_prefetch] queues them. *)
Definition indexed : list (ScheduledItem T) := imap mkScheduledItem l.

Definition in_flight ms : list nat := ms ≫= original_indices.

(** How many inputs have left the queue. *)
Definition dispatched pend : nat := (length l - length pend)%nat.

Record core_inv pend slots (next : Z) (fl : bool) ms : Prop := {
  ci_len : length slots = length l;
  ci_pending : pend = drop (dispatched pend) indexed;
  ci_failed : fl = true -> pend = [];
  ci_ids : NoDup (map meta_id ms);
  ci_below : Forall (fun m => 0 <= meta_id m < next) ms;
  ci_next : 0 <= next <= Z.of_nat (dispatched pend);
  ci_nodup : NoDup (in_flight ms);
  ci_running : forall i, i ∈ in_flight ms -> (i < dispatched pend)%nat /\ slots !! i = Some None;
  ci_fresh : forall i, (dispatched pend <= i < length l)%nat -> slots !! i = Some None;
  ci_cover : fl = false -> forall i, (i < dispatched pend)%nat ->
    i ∈ in_flight ms \/ exists u, slots !! i = Some (Some u);
}.

#[export] Instance core_inv_proper pend slots next fl :
  Proper ((≡ₚ) ==> iff) (core_inv pend slots next fl).
Proof.
  assert (Hdir : forall ms ms', ms ≡ₚ ms' -> core_inv pend slots next fl ms ->
                   core_inv pend slots next fl ms').
  { intros ms ms' Hp [].
    assert (Hf : in_flight ms ≡ₚ in_flight ms') by (unfold in_flight; by rewrite Hp).
    split; try done.
    - by rewrite <- Hp.
    - by rewrite <- Hp.
    - by rewrite <- Hf.
    - intros i. rewrite <- Hf. auto.
    - intros Hfl i Hi. rewrite <- Hf. auto. }
  intros ms ms' Hp. split; apply Hdir; [done | by symmetry].
Qed.

Lemma length_indexed : length indexed = length l.
Proof. unfold indexed. apply length_imap. Qed.

Lemma indexed_indices : map item_index indexed = seq 0 (length l).
Proof.
  apply list_eq. intros i. unfold indexed.
  change (map item_index) with (fmap (M := list) (@item_index T)).
  rewrite list_lookup_fmap, list_lookup_imap.
  destruct (l !! i) as [x|] eqn:E; cbn.
  - symmetry. apply lookup_seq. apply lookup_lt_Some in E. lia.
  - symmetry. apply lookup_ge_None. rewrite length_seq. by apply lookup_ge_None in E.
Qed.

Lemma pending_le pend : pend = drop (dispatched pend) indexed -> (length pend <= length l)%nat.
Proof.
  intros H. rewrite H at 1. rewrite length_drop, length_indexed. unfold dispatched. lia.
Qed.

Lemma pending_indices pend :
  pend = drop (dispatched pend) indexed ->
  map item_index pend = seq (dispatched pend) (length pend).
Proof.
  intros H. pose proof (pending_le pend H). rewrite H at 1.
  rewrite <- skipn_map, indexed_indices, drop_seq. unfold dispatched. f_equal; lia.
Qed.

Lemma core_init : core_inv indexed (replicate (length l) None) 0 false [].
Proof.
  assert (Hd : dispatched indexed = 0%nat) by (unfold dispatched; rewrite length_indexed; lia).
  split; rewrite ?Hd; try done; try lia; try constructor.
  - apply length_replicate.
  - set_solver.
  - set_solver.
  - intros i Hi. apply lookup_replicate. split; [done|lia].
Qed.

(** Handing out the next [q] inputs as a new batch. *)
Lemma core_dispatch pend slots next ms q :
  core_inv pend slots next false ms -> (0 < q <= length pend)%nat ->
  core_inv (drop q pend) slots (next + 1) false
    (mkRunningMeta next (map item_index (take q pend)) :: ms).
Proof.
  intros [] Hq. pose proof (pending_le pend ci_pending0) as Hle.
  set (k := dispatched pend) in *.
  assert (Hk : dispatched (drop q pend) = (k + q)%nat)
    by (unfold k, dispatched; rewrite length_drop; lia).
  assert (Hidx : map item_index (take q pend) = seq k q).
  { rewrite <- firstn_map, pending_indices by done. fold k. rewrite take_seq. f_equal. lia. }
  assert (Hin : forall i, i ∈ in_flight (mkRunningMeta next (seq k q) :: ms) <->
                  (k <= i < k + q)%nat \/ i ∈ in_flight ms).
  { intros i. unfold in_flight. cbn. rewrite elem_of_app, list_elem_of_In, in_seq. done. }
  rewrite Hidx. split; rewrite ?Hk; try done.
  - rewrite ci_pending0 at 1. by rewrite drop_drop.
  - cbn. constructor; [|done]. intros (m & Hm & Hin')%list_elem_of_In%in_map_iff.
    rewrite Forall_forall in ci_below0. apply list_elem_of_In, ci_below0 in Hin'. lia.
  - constructor; [cbn; lia|]. eapply Forall_impl; [done|]. cbn. lia.
  - lia.
  - unfold in_flight. cbn. apply NoDup_app. split_and!; [apply NoDup_seq| |done].
    intros i Hi Hi'. apply ci_running0 in Hi' as [? _].
    rewrite list_elem_of_In, in_seq in Hi. lia.
  - intros i [Hi|Hi]%Hin; [split; [lia|]; apply ci_fresh0; unfold k, dispatched in *; lia|].
    apply ci_running0 in Hi. split; [lia|tauto].
  - intros i Hi. apply ci_fresh0. lia.
  - intros _ i Hi. rewrite Hin. destruct (decide (i < k)%nat) as [Hi'|]; [|left; left; lia].
    destruct (ci_cover0 eq_refl i Hi'); auto.
Qed.

(** A batch of [m] is answered: it leaves the flight and fills its slots, unless
    the run has failed. *)
Lemma core_complete pend slots next fl m ms results :
  core_inv pend slots next fl (m :: ms) -> answers m slots results ->
  core_inv pend (if fl then slots else store results slots) next fl ms.
Proof.
  intros [] (Hm & Hnd & Hempty).
  unfold in_flight in *. cbn [mbind list_bind] in *. fold (in_flight ms) in *.
  apply NoDup_app in ci_nodup0 as (Hnd1 & Hdis & Hnd2).
  cbn in ci_ids0. apply NoDup_cons in ci_ids0 as [_ ?]. apply Forall_cons in ci_below0 as [_ ?].
  assert (Hout : forall i, i ∉ original_indices m ->
                   (if fl then slots else store results slots) !! i = slots !! i).
  { intros i Hi. destruct fl; [done|]. apply store_lookup_notin. by rewrite Hm. }
  split; try done.
  - destruct fl; [done|]. by rewrite length_store.
  - intros i Hi. rewrite Hout by (intros ?; by eapply Hdis). apply ci_running0.
    apply elem_of_app. by right.
  - intros i Hi. rewrite Hout; [by apply ci_fresh0|]. intros Hi'.
    destruct (ci_running0 i) as [? _]; [apply elem_of_app; by left|]. lia.
  - intros -> i Hi. destruct (decide (i ∈ original_indices m)) as [Hi'|Hi'].
    + right. rewrite <- Hm in Hi'. apply list_elem_of_In, in_map_iff in Hi' as (r & <- & Hr).
      exists (value r). apply store_lookup_in.
      * by apply list_elem_of_In.
      * by rewrite Hm.
      * apply list_elem_of_In in Hr. rewrite <- Hm, Forall_map, Forall_forall in Hempty.
        apply Hempty in Hr. by eapply lookup_lt_Some.
    + rewrite Hout by done.
      destruct (ci_cover0 eq_refl i Hi) as [[?|?]%elem_of_app|?]; tauto.
Qed.

(** A batch fails: the queue is dropped and nothing is handed out any more. *)
Lemma core_fail pend slots next fl m ms :
  core_inv pend slots next fl (m :: ms) -> core_inv [] slots next true ms.
Proof.
  intros []. pose proof (pending_le pend ci_pending0).
  unfold in_flight in *. cbn [mbind list_bind] in *. fold (in_flight ms) in *.
  apply NoDup_app in ci_nodup0 as (Hnd1 & Hdis & Hnd2).
  cbn in ci_ids0. apply NoDup_cons in ci_ids0 as [_ ?]. apply Forall_cons in ci_below0 as [_ ?].
  assert (dispatched [] = length l) as Hd by (unfold dispatched; cbn; lia).
  assert (dispatched pend <= length l)%nat by (unfold dispatched; lia).
  split; rewrite ?Hd; try done.
  - by rewrite drop_ge by (by rewrite length_indexed).
  - lia.
  - intros i Hi. destruct (ci_running0 i); [apply elem_of_app; by right|]. split; [lia|done].
  - lia.
Qed.

End Core.

(** ** Lanes *)

Definition lane_metas (s : LaneState) : list RunningMeta :=
  match s with Running cur pre _ => cur :: option_list pre | _ => [] end.

(** How far a lane is from being drained. *)
Definition lane_weight (s : LaneState) : nat :=
  match s with
  | Drained => 0
  | Stopped => 1
  | Idle => 2
  | Running _ None true => 3
  | Running _ None false => 4
  | Running _ (Some _) _ => 5
  end%nat.

Section Lanes.
Context {T U : Type}.
Implicit Types (c : Coordinator T U).

Definition lanes c : list LaneState := root c :: (map_to_list (remotes c)).*2.
Definition all_metas c : list RunningMeta := lanes c ≫= lane_metas.

(** The measure that every step decreases. *)
Definition remaining c : nat :=
  (3 * length (pending c) + sum_list_with lane_weight (lanes c))%nat.

(** Changing the lane of one rank. *)
Lemma lanes_remote c rank s :
  remotes c !! rank = Some s ->
  exists others, lanes c ≡ₚ s :: others /\
    forall c' s', remotes c' = <[rank := s']> (remotes c) -> root c' = root c ->
      lanes c' ≡ₚ s' :: others.
Proof.
  intros Hr. exists (root c :: (map_to_list (delete rank (remotes c))).*2).
  unfold lanes. split.
  - rewrite <- (insert_delete_id (remotes c) rank s Hr) at 1.
    rewrite map_to_list_insert by apply lookup_delete_eq. cbn. apply perm_swap.
  - intros c' s' -> ->. rewrite <- insert_delete_eq.
    rewrite map_to_list_insert by apply lookup_delete_eq. cbn. apply perm_swap.
Qed.

#[export] Instance sum_weights_proper : Proper ((≡ₚ) ==> eq) (sum_list_with lane_weight).
Proof. intros l k Hp. induction Hp; cbn; lia. Qed.

(** What lanes may look like beside the accounting: only remote lanes prefetch,
    and a lane is told to stop only when the queue is empty. *)
Definition root_ok (no_pending : Prop) (s : LaneState) : Prop :=
  match s with
  | Idle | Running _ None false => True
  | Stopped => no_pending
  | _ => False
  end.

Definition remote_ok (pre : bool) (no_pending : Prop) (s : LaneState) : Prop :=
  match s with
  | Idle | Running _ None false => True
  | Running _ (Some _) false => pre = true
  | Running _ None true => pre = true /\ no_pending
  | Running _ (Some _) true => False
  | Stopped | Drained => no_pending
  end.

Record inv (l : list T) c : Prop := {
  inv_core : core_inv l (pending c) (ordered c) (next_batch_id c) (failed c) (all_metas c);
  inv_root : root_ok (pending c = []) (root c);
  inv_remotes : map_Forall (fun _ => remote_ok (prefetch c) (pending c = [])) (remotes c);
  inv_size : (0 < batch_size c)%nat;
}.

Lemma remote_ok_mono pre (P Q : Prop) s : (P -> Q) -> remote_ok pre P s -> remote_ok pre Q s.
Proof. destruct s as [|? [?|] [|]| |]; cbn; tauto. Qed.

Lemma has_work_true c : has_work c = true -> failed c = false /\ pending c <> [].
Proof. unfold has_work. destruct (failed c), (pending c); done. Qed.

Lemma has_work_false l c : inv l c -> has_work c = false -> pending c = [].
Proof.
  intros [[] _ _ _]. unfold has_work. destruct (failed c) eqn:Hf; [auto|].
  destruct (pending c); done.
Qed.

Lemma root_ok_mono (P Q : Prop) s : (P -> Q) -> root_ok P s -> root_ok Q s.
Proof. destruct s as [|? [?|] [|]| |]; cbn; tauto. Qed.

(** The accounting of one lane changes from [s] to [s'], the rest is untouched. *)
Definition core_step l c c' (s s' : LaneState) : Prop :=
  forall rest,
    core_inv l (pending c) (ordered c) (next_batch_id c) (failed c) (lane_metas s ++ rest) ->
    core_inv l (pending c') (ordered c') (next_batch_id c') (failed c') (lane_metas s' ++ rest).

Lemma inv_remote_step l c c' rank s s' :
  inv l c -> remotes c !! rank = Some s ->
  remotes c' = <[rank := s']> (remotes c) -> root c' = root c ->
  prefetch c' = prefetch c -> batch_size c' = batch_size c ->
  (pending c = [] -> pending c' = []) ->
  (remote_ok (prefetch c) (pending c = []) s -> remote_ok (prefetch c) (pending c' = []) s') ->
  core_step l c c' s s' -> inv l c'.
Proof.
  intros [Hc Hroot Hrem Hs] Hr Hrem' Hroot' Hpre Hsz Hp Hok Hstep.
  destruct (lanes_remote c rank s Hr) as (others & Hl & Hl'). specialize (Hl' c' s' Hrem' Hroot').
  assert (Hok' : remote_ok (prefetch c) (pending c' = []) s')
    by (apply Hok, (map_Forall_lookup_1 _ _ _ _ Hrem Hr)).
  split; [| | |congruence].
  - unfold all_metas in *. rewrite Hl' . cbn. apply Hstep. by rewrite Hl in Hc.
  - rewrite Hroot'. eapply root_ok_mono; eauto.
  - rewrite Hrem', Hpre. apply map_Forall_insert_2; [done|].
    eapply map_Forall_impl; [exact Hrem|]. cbn. intros _ x. by apply remote_ok_mono.
Qed.

Lemma inv_root_step l c c' s' :
  inv l c -> remotes c' = remotes c -> root c' = s' ->
  prefetch c' = prefetch c -> batch_size c' = batch_size c ->
  (pending c = [] -> pending c' = []) -> root_ok (pending c' = []) s' ->
  core_step l c c' (root c) s' -> inv l c'.
Proof.
  intros [Hc Hroot Hrem Hs] Hrem' Hroot' Hpre Hsz Hp Hok Hstep. split; [| | |congruence].
  - unfold all_metas, lanes in *. rewrite Hrem', Hroot'. cbn in *. by apply Hstep.
  - by rewrite Hroot'.
  - rewrite Hrem', Hpre. eapply map_Forall_impl; [exact Hrem|].
    cbn. intros _ x. by apply remote_ok_mono.
Qed.

(** *** The three kinds of steps *)

Lemma core_step_dispatch l c c' s s' :
  inv l c -> has_work c = true ->
  pending c' = pending (after_batch c) -> ordered c' = ordered c ->
  next_batch_id c' = next_batch_id c + 1 -> failed c' = failed c ->
  lane_metas s' ≡ₚ metadata (batch_of c) :: lane_metas s -> core_step l c c' s s'.
Proof.
  intros [_ _ _ Hs] [Hf Hp]%has_work_true Hp' Ho Hn Hf' Hm rest Hc.
  rewrite Hp', Ho, Hn, Hf', Hm, Hf. rewrite Hf in Hc. apply core_dispatch; [done|].
  unfold batch_count. destruct (pending c); [done|]. cbn [length]. lia.
Qed.

Lemma core_step_same l c c' s s' :
  pending c' = pending c -> ordered c' = ordered c -> next_batch_id c' = next_batch_id c ->
  failed c' = failed c -> lane_metas s' = lane_metas s -> core_step l c c' s s'.
Proof. intros Hp Ho Hn Hf Hm rest. by rewrite Hp, Ho, Hn, Hf, Hm. Qed.

Lemma lane_done_metas s cur s' : lane_done s = Some (cur, s') -> lane_metas s = cur :: lane_metas s'.
Proof. destruct s as [|? [?|] [|]| |]; cbn; naive_solver. Qed.

Lemma lane_done_ok s cur s' pre (P : Prop) :
  lane_done s = Some (cur, s') -> remote_ok pre P s -> remote_ok pre P s'.
Proof. destruct s as [|? [?|] [|]| |]; cbn; naive_solver. Qed.

Lemma core_step_success l c c' s cur s' results :
  lane_metas s = cur :: lane_metas s' -> answers cur (ordered c) results ->
  pending c' = pending c ->
  ordered c' = (if failed c then ordered c else store results (ordered c)) ->
  next_batch_id c' = next_batch_id c -> failed c' = failed c -> core_step l c c' s s'.
Proof.
  intros Hm Ha Hp Ho Hn Hf rest. rewrite Hp, Ho, Hn, Hf, Hm. cbn.
  intros Hc. by eapply core_complete.
Qed.

Lemma core_step_error l c c' s cur s' :
  lane_metas s = cur :: lane_metas s' -> pending c' = [] -> ordered c' = ordered c ->
  next_batch_id c' = next_batch_id c -> failed c' = true -> core_step l c c' s s'.
Proof.
  intros Hm Hp Ho Hn Hf rest. rewrite Hp, Ho, Hn, Hf, Hm. cbn.
  intros Hc. by eapply core_fail.
Qed.

Lemma drop_nil_impl {A} n (k : list A) : k = [] -> drop n k = [].
Proof. intros ->. apply drop_nil. Qed.

Lemma inv_step l c ev o c' : accepted c ev o c' -> inv l c -> inv l c'.
Proof.
  intros Hacc Hinv. pose proof Hinv as [_ Hroot Hrem _].
  destruct Hacc as [c rank Hr [Hw _]|c rank cur Hr Hpre [Hw _]|c rank Hr Hw|c rank cur Hr Hpre Hw
    |c Hr [Hw _]|c Hr Hw|c Hr|c cur results Hr Ha|c rank s cur s' results Hr Hd Ha
    |c cur Hr|c rank s cur s' Hr Hd|c rank s cur s' Hr Hd|c rank Hr].
  - eapply inv_remote_step; eauto; cbn; [apply drop_nil_impl|].
    by eapply core_step_dispatch.
  - eapply inv_remote_step; eauto; cbn; [apply drop_nil_impl|].
    eapply core_step_dispatch; eauto. cbn. apply perm_swap.
  - eapply inv_remote_step; eauto; cbn; [eauto using has_work_false|by apply core_step_same].
  - eapply inv_remote_step; eauto; cbn; [eauto using has_work_false|by apply core_step_same].
  - eapply inv_root_step; eauto; cbn; [apply drop_nil_impl|done|].
    eapply core_step_dispatch; eauto. by destruct Hr as [-> | ->].
  - eapply inv_root_step; eauto; cbn; [eauto using has_work_false|].
    apply core_step_same; try done. by destruct Hr as [-> | ->].
  - done.
  - eapply inv_root_step; eauto; cbn; try done. eapply core_step_success; eauto.
    by rewrite Hr.
  - eapply inv_remote_step; eauto; cbn; [by eapply lane_done_ok|].
    eapply core_step_success; eauto using lane_done_metas.
  - eapply inv_root_step; eauto; cbn; try done. eapply core_step_error; eauto. by rewrite Hr.
  - eapply inv_remote_step; eauto; cbn.
    + intros Hok%(lane_done_ok _ _ _ _ _ Hd). eapply remote_ok_mono; [|exact Hok]. done.
    + eapply core_step_error; eauto using lane_done_metas.
  - eapply inv_remote_step; eauto; cbn.
    + intros Hok%(lane_done_ok _ _ _ _ _ Hd). eapply remote_ok_mono; [|exact Hok]. done.
    + eapply core_step_error; eauto using lane_done_metas.
  - eapply inv_remote_step; eauto. by apply core_step_same.
Qed.

End Lanes.

(** ** Runs *)

Section Runs.
Context {T U : Type}.
Implicit Types (c : Coordinator T U) (ev : event U) (l : list T).

(** Run a sequence of calls, refused ones included, and collect what they hand out. *)
Fixpoint run_all (evs : list (event U)) c : list (Batch T) * Coordinator T U :=
  match evs with
  | [] => ([], c)
  | ev :: evs' =>
      let '(r, c1) := run_event ev c in
      let '(bs, c2) := run_all evs' c1 in
      (match r with Ok (Some b) => b :: bs | _ => bs end, c2)
  end.

(** One call, accepted or refused. *)
Definition call c (o : output T) c' : Prop :=
  (exists ev, accepted c ev o c') \/ (o = None /\ c' = c).

Lemma run_event_call ev c r c' :
  run_event ev c = (r, c') -> call c (match r with Ok o => o | Err _ => None end) c'.
Proof.
  intros H. destruct (run_event_implements c ev) as [(o & c1 & Ha & He)|(e & He & _)];
    rewrite He in H; injection H as <- <-; [left; eauto | by right].
Qed.

Lemma run_all_ind (P : Coordinator T U -> list (Batch T) -> Coordinator T U -> Prop) :
  (forall c, P c [] c) ->
  (forall c o c1 bs c2, call c o c1 -> P c1 bs c2 ->
     P c (match o with Some b => b :: bs | None => bs end) c2) ->
  forall evs c bs c', run_all evs c = (bs, c') -> P c bs c'.
Proof.
  intros Hnil Hcons. induction evs as [|ev evs IH]; intros c bs c' H; cbn in H.
  - by injection H as <- <-.
  - destruct (run_event ev c) as [r c1] eqn:E. destruct (run_all evs c1) as [bs1 c2] eqn:E2.
    injection H as <- <-. apply run_event_call in E. specialize (Hcons _ _ _ _ _ E (IH _ _ _ E2)).
    destruct r as [[b|]|e]; exact Hcons.
Qed.

Lemma call_inv l c o c' : call c o c' -> inv l c -> inv l c'.
Proof. intros [[ev Ha]|[_ ->]]; eauto using inv_step. Qed.

Lemma run_all_inv l evs c : inv l c -> inv l (run_all evs c).2.
Proof.
  destruct (run_all evs c) as [bs c'] eqn:E. revert E.
  apply (run_all_ind (fun c _ c' => inv l c -> inv l c')); [done|].
  eauto using call_inv.
Qed.

(** *** Construction *)

Lemma insert_remotes_idle rr ranks m m' :
  insert_remotes rr ranks m = Ok m' -> map_Forall (fun _ s => s = Idle) m ->
  map_Forall (fun _ s => s = Idle) m'.
Proof.
  revert m. induction ranks as [|r ranks IH]; intros m H Hm; cbn in H.
  - by injection H as <-.
  - do 3 (bind_inv H; fail_if_inv E). eapply IH; [exact H|]. by apply map_Forall_insert_2.
Qed.

Lemma enqueue_items_ok l k q :
  enqueue_items k l = Ok q -> q = imap (fun i => mkScheduledItem (k + i)) l.
Proof.
  revert k q. induction l as [|x l IH]; intros k q H; cbn in H; [by injection H as <-|].
  bind_inv H. bind_inv H. injection H as <-. apply IH in E0 as ->. cbn. f_equal.
  - f_equal. lia.
  - apply imap_ext. intros i y _. cbn. f_equal. lia.
Qed.

Lemma idle_metas (m : gmap Z LaneState) :
  map_Forall (fun _ s => s = Idle) m -> (map_to_list m).*2 ≫= lane_metas = [].
Proof.
  intros Hm. assert (Forall (fun p => p.2 = Idle) (map_to_list m)) as Hf.
  { apply Forall_forall. intros [k s] Hin. apply elem_of_map_to_list in Hin. by eapply Hm. }
  induction Hf as [|[k s] rest Hs _ IH]; [done|]. cbn in *. by rewrite Hs.
Qed.

Lemma new_inv rr ranks l size pre c :
  new_with_prefetch rr ranks l size pre = Ok c -> (0 < size)%nat -> inv l c.
Proof.
  intros H Hs. unfold new_with_prefetch in H. bind_inv H. bind_inv H. bind_inv H.
  apply enqueue_items_ok in E1. injection H as <-.
  change (a1 = indexed l) in E1. subst a1.
  apply insert_remotes_idle in E0; [|apply map_Forall_empty].
  split; cbn; [| |  |done].
  - unfold all_metas, lanes. cbn. rewrite idle_metas by done. rewrite length_indexed.
    apply core_init.
  - done.
  - eapply map_Forall_impl; [exact E0|]. cbn. by intros _ ? ->.
Qed.

(** *** Handing out *)

(** The inputs handed out so far are a prefix of the inputs, in order; while the
    run has not failed the queue is exactly the rest. *)
Definition handed_from (l : list T) c (bs : list (Batch T)) c' : Prop :=
  inv l c -> exists q,
    concat (map items bs) = take q (pending c) /\ inv l c' /\
    (failed c' = false -> failed c = false /\ pending c' = drop q (pending c)).

Lemma accepted_failed c ev o c' :
  accepted c ev o c' -> failed c' = false -> failed c = false.
Proof. intros []; cbn; try done; congruence. Qed.

Lemma accepted_hands_out c ev o c' :
  accepted c ev o c' ->
  exists q, from_option items [] o = take q (pending c) /\
    (pending c' = drop q (pending c) \/ (failed c' = true /\ pending c' = [] /\ q = 0%nat)).
Proof.
  intros [c1|c1|c1|c1|c1|c1|c1|c1|c1|c1|c1|c1|c1]; cbn [from_option];
    solve [ exists (batch_count c1); split; [done|by left]
          | exists 0%nat; rewrite take_0; split; [done|]; auto ].
Qed.

Lemma run_hands_out l evs c : handed_from l c (run_all evs c).1 (run_all evs c).2.
Proof.
  destruct (run_all evs c) as [bs c'] eqn:E. revert E. cbn.
  apply (run_all_ind (handed_from l)); unfold handed_from.
  - intros c0 Hi. exists 0%nat. rewrite drop_0. done.
  - intros c0 o c1 bs0 c2 Hcall IH Hi. specialize (IH (call_inv _ _ _ _ Hcall Hi)).
    destruct IH as (q & Hbs & Hi2 & Hf2). destruct Hcall as [[ev Ha]|[-> ->]]; [|eauto].
    destruct (accepted_hands_out _ _ _ _ Ha) as (q1 & Ho & Hp).
    assert (Hcat : concat (map items (match o with Some b => b :: bs0 | None => bs0 end))
                   = from_option items [] o ++ concat (map items bs0)) by (by destruct o).
    rewrite Hcat, Ho, Hbs. destruct Hp as [Hp|(Hf1 & Hp & ->)]; rewrite Hp.
    + exists (q1 + q)%nat. split_and!; [|done|].
      * apply take_take_drop.
      * intros Hf. destruct (Hf2 Hf) as [Hf1 Hp2]. split; [by eapply accepted_failed|].
        by rewrite Hp2, Hp, drop_drop.
    + exists 0%nat. rewrite take_nil, app_nil_r. split_and!; [done|done|].
      intros Hf. destruct (Hf2 Hf) as [? _]. congruence.
Qed.

(** C15: for any sequence of calls, whatever results the workers send, the inputs
    are handed out in order, each at most once and each with its own index and
    value; and a run that is finished without failure has handed out every input
    exactly once. *)
Theorem every_input_handed_out_once rr ranks l size pre c0 evs :
  new_with_prefetch (U := U) rr ranks l size pre = Ok c0 -> (0 < size)%nat ->
  let '(bs, c) := run_all evs c0 in
  concat (map items bs) = take (length (concat (map items bs))) (imap mkScheduledItem l) /\
  (is_finished c = true -> failed c = false ->
     concat (map items bs) = imap mkScheduledItem l).
Proof.
  intros Hnew Hs. pose proof (new_inv _ _ _ _ _ _ Hnew Hs) as Hi.
  pose proof (run_hands_out l evs c0 Hi) as (q & Hbs & Hi' & Hf).
  assert (Hp0 : pending c0 = imap mkScheduledItem l).
  { unfold new_with_prefetch in Hnew. bind_inv Hnew. bind_inv Hnew. bind_inv Hnew.
    apply enqueue_items_ok in E1. injection Hnew as <-. exact E1. }
  destruct (run_all evs c0) as [bs c] eqn:E. cbn [fst snd] in *. rewrite Hp0 in *.
  split.
  - rewrite Hbs at 1 2. rewrite length_take.
    rewrite <- (firstn_all (imap mkScheduledItem l)) at 1. rewrite take_take. done.
  - intros Hfin Hnf. destruct (Hf Hnf) as [_ Hp].
    assert (Hnil : pending c = []).
    { destruct Hi' as [_ Hroot _ _]. unfold is_finished, kind_is in Hfin. zbool.
      destruct (root c); cbn in *; try done. }
    rewrite Hnil in Hp. rewrite Hbs. symmetry in Hp.
    rewrite <- (take_drop q (imap _ l)) at 2. by rewrite Hp, app_nil_r.
Qed.

(** *** Results *)

(** The results of a call stand in the relation [R] with their inputs. *)
Definition correct_by (R : T -> U -> Prop) l (results : list (ItemResult U)) : Prop :=
  Forall (fun r => forall x, l !! original_index r = Some x -> R x (value r)) results.

Definition honest_by (R : T -> U -> Prop) l ev : Prop :=
  match ev with
  | RootSuccess _ results | RemoteSuccess _ _ results => correct_by R l results
  | _ => True
  end.

(** Every filled slot stands in the relation [R] with its input. *)
Definition slots_by (R : T -> U -> Prop) l (slots : list (option U)) : Prop :=
  forall i x u, l !! i = Some x -> slots !! i = Some (Some u) -> R x u.

Lemma store_correct R l results slots :
  correct_by R l results -> slots_by R l slots -> slots_by R l (store results slots).
Proof.
  intros Hc. revert slots. induction Hc as [|r rs Hr _ IH]; intros slots Hs; [done|].
  rewrite store_cons. apply IH. intros i x u Hx Hu.
  destruct (decide (original_index r = i)) as [<-|Hne].
  - assert (original_index r < length slots)%nat
      by (apply lookup_lt_Some in Hu; by rewrite length_insert in Hu).
    rewrite list_lookup_insert_eq in Hu by done. injection Hu as <-. auto.
  - rewrite list_lookup_insert_ne in Hu by done. eauto.
Qed.

Lemma accepted_correct R l c ev o c' :
  accepted c ev o c' -> honest_by R l ev -> slots_by R l (ordered c) ->
  slots_by R l (ordered c').
Proof.
  intros [] Hh Hs; cbn in *; try done; destruct (failed c0); auto using store_correct.
Qed.

(** The results of a call are what the workers compute: [f] of the input. *)
Definition graph (f : T -> U) (x : T) (u : U) : Prop := u = f x.
Definition correct (f : T -> U) l (results : list (ItemResult U)) : Prop := correct_by (graph f) l results.
Definition honest (f : T -> U) l ev : Prop := honest_by (graph f) l ev.
Definition slots_correct (f : T -> U) l (slots : list (option U)) : Prop := slots_by (graph f) l slots.

Lemma run_all_correct f l evs c :
  Forall (honest f l) evs -> slots_correct f l (ordered c) ->
  slots_correct f l (ordered (run_all evs c).2).
Proof.
  intros Hh. revert c. induction Hh as [|ev evs Hev _ IH]; intros c Hs; [done|]. cbn.
  destruct (run_event_implements c ev) as [(o & c1 & Ha & ->)|(e & -> & _)].
  - specialize (IH c1). destruct (run_all evs c1). cbn in *. apply IH. by eapply accepted_correct.
  - specialize (IH c). destruct (run_all evs c). cbn in *. auto.
Qed.

Lemma finished_lanes c : is_finished c = true ->
  root c = Stopped /\ Forall (fun s => s = Drained) (map_to_list (remotes c)).*2.
Proof.
  unfold is_finished, kind_is. intros H. zbool. split.
  - destruct (root c); done.
  - rewrite Forall_fmap. apply Forall_forall. intros [k s] Hin.
    assert (Hall := proj1 (forallb_forall _ _) H1 (k, s)). cbn in *.
    rewrite <- list_elem_of_In in Hall. specialize (Hall Hin). zbool. by destruct s.
Qed.

Lemma finished_idle l c :
  inv l c -> is_finished c = true -> failed c = false ->
  forall i, (i < length l)%nat -> exists u, ordered c !! i = Some (Some u).
Proof.
  intros [[] Hroot _ _] [Hr Hd]%finished_lanes Hf i Hi. rewrite Hr in Hroot. cbn in Hroot.
  assert (Hm : all_metas c = []).
  { unfold all_metas, lanes. rewrite Hr. cbn. clear -Hd.
    induction Hd as [|s rest -> _ IH]; [done|]. by cbn. }
  destruct (ci_cover0 Hf i) as [Hin|?]; [|rewrite Hm in Hin; set_solver|done].
  unfold dispatched. rewrite Hroot. cbn. lia.
Qed.

Lemma into_results_by R l c :
  inv l c -> slots_by R l (ordered c) -> is_finished c = true -> failed c = false ->
  exists out, into_results c = Ok out /\ Forall2 R l out.
Proof.
  intros Hi Hs Hfin Hf. unfold into_results. rewrite Hf, Hfin. rcbn.
  assert (Hall : Forall2 (fun x slot => exists u, slot = Some u /\ R x u) l (ordered c)).
  { apply Forall2_same_length_lookup_2; [symmetry; apply (ci_len _ _ _ _ _ _ (inv_core _ _ Hi))|].
    intros i x o Hx Ho. destruct (finished_idle l c Hi Hfin Hf i) as [u Hu]; [by eapply lookup_lt_Some|].
    exists u. split; [congruence|eauto]. }
  clear -Hall. induction Hall as [|x o l' os (u & -> & Hu) _ (out & Hout & IH)].
  - by exists [].
  - exists (u :: out). cbn [mapR ok_or]. rcbn. rewrite Hout. split; [done|by constructor].
Qed.

Lemma into_results_inv f l c :
  inv l c -> slots_correct f l (ordered c) ->
  into_results c =
    if failed c then Err Failed
    else if is_finished c then Ok (map f l) else Err NotFinished.
Proof.
  intros Hi Hs. destruct (failed c) eqn:Hf; [by unfold into_results; rewrite Hf|].
  destruct (is_finished c) eqn:Hfin; [|by unfold into_results; rewrite Hf, Hfin].
  destruct (into_results_by _ _ _ Hi Hs Hfin Hf) as (out & -> & Hall). f_equal.
  clear -Hall. induction Hall as [|x u l' out -> _ ->]; done.
Qed.

Lemma new_slots_correct R l rr ranks size pre c :
  new_with_prefetch rr ranks l size pre = Ok c -> slots_by R l (ordered c).
Proof.
  unfold new_with_prefetch. intros H. bind_inv H. bind_inv H. bind_inv H. injection H as <-.
  intros i x u _ Hu. cbn in Hu. apply lookup_replicate in Hu as [? _]. done.
Qed.

(** The coordinator of a run: every input queued, every remote lane idle. *)
Lemma new_ok rr ranks l size pre :
  0 <= rr -> Forall (fun r => 0 <= r /\ r <> rr) ranks -> NoDup ranks -> Z.of_nat (length l) <= u64_max ->
  exists c, new_with_prefetch (U := U) rr ranks l size pre = Ok c /\
    pending c = indexed l /\ root c = Idle /\ prefetch c = pre /\ failed c = false /\ batch_size c = size /\
    forall z, remotes c !! z = if decide (z ∈ ranks) then Some Idle else None.
Proof.
  intros Hrr Hranks Hnd Hlen.
  assert (Hins : forall (m : gmap Z LaneState), (forall r, r ∈ ranks -> m !! r = None) ->
    exists m', insert_remotes rr ranks m = Ok m' /\ forall z, m' !! z = if decide (z ∈ ranks) then Some Idle else m !! z).
  { clear l Hlen. induction ranks as [|r ranks IH]; intros m Hm.
    - exists m. split; [done|]. intros z. by rewrite decide_False by apply not_elem_of_nil.
    - apply Forall_cons in Hranks as [[Hr Hne] Hranks]. apply NoDup_cons in Hnd as [Hnot Hnd].
      cbn [insert_remotes]. rewrite (proj2 (Z.ltb_ge r 0)), (proj2 (Z.eqb_neq r rr)) by lia. rewrite (Hm r) by left.
      rewrite bool_decide_false by (by intros [? ?]). cbn [fail_if]. rcbn.
      destruct (IH Hranks Hnd (<[r := Idle]> m)) as (m' & Hrun & Hl).
      { intros r' Hr'. rewrite lookup_insert_ne by (by intros ->). apply Hm. by right. }
      exists m'. split; [exact Hrun|]. intros z. rewrite Hl. destruct (decide (z ∈ ranks)) as [Hz|Hz].
      + by rewrite decide_True by (by right).
      + destruct (decide (z = r)) as [->|Hzr]; [by rewrite lookup_insert_eq, decide_True by left|].
        rewrite lookup_insert_ne by done. rewrite decide_False; [done|]. by intros [?|?]%elem_of_cons. }
  assert (Henq : forall k (q : list T), Z.of_nat (k + length q) <= u64_max ->
    enqueue_items k q = Ok (imap (fun i => mkScheduledItem (k + i)) q)).
  { clear. intros k q. revert k. induction q as [|x q IH]; intros k Hk; [done|]. cbn [enqueue_items length] in *.
    rewrite (proj2 (Z.ltb_ge u64_max (Z.of_nat k))) by lia. cbn [fail_if]. rcbn. rewrite (IH (Datatypes.S k)) by lia. rcbn.
    rewrite imap_cons. f_equal. f_equal; [f_equal; lia|]. apply imap_ext. intros i y _. cbn. f_equal. lia. }
  destruct (Hins ∅) as (m & Hm & Hl); [intros; apply lookup_empty|].
  unfold new_with_prefetch. rewrite (proj2 (Z.ltb_ge rr 0)) by lia. cbn [fail_if]. rcbn. rewrite Hm. rcbn.
  rewrite (Henq 0%nat l) by (cbn; lia). rcbn. eexists. split; [done|]. cbn. split_and!; try done.
Qed.

(** C4: the results come back in input order.  After any sequence of calls in
    which successful completions carry [f] of their inputs (with whatever
    errors, duplicates, refusals and interleavings of lanes besides),
    [into_results] is [map f] of the inputs once the run is finished, the
    [Failed] error when some batch failed, and [NotFinished] otherwise; a
    result is never missing. *)
Theorem into_results_in_order f rr ranks l size pre c0 evs :
  new_with_prefetch rr ranks l size pre = Ok c0 -> (0 < size)%nat ->
  Forall (honest f l) evs ->
  let c := (run_all evs c0).2 in
  into_results c =
    if failed c then Err Failed
    else if is_finished c then Ok (map f l) else Err NotFinished.
Proof.
  intros Hnew Hs Hh c. apply into_results_inv.
  - apply run_all_inv. by eapply new_inv.
  - apply run_all_correct; [done|]. by eapply new_slots_correct.
Qed.

(** *** Progress and termination *)

Lemma remaining_remote c c' rank s s' :
  remotes c !! rank = Some s -> remotes c' = <[rank := s']> (remotes c) -> root c' = root c ->
  (3 * length (pending c') + lane_weight s' < 3 * length (pending c) + lane_weight s)%nat ->
  (remaining c' < remaining c)%nat.
Proof.
  intros Hr Hrem Hroot Hlt. destruct (lanes_remote c rank s Hr) as (others & Hl & Hl').
  unfold remaining. rewrite (Hl' c' s' Hrem Hroot), Hl. cbn. lia.
Qed.

Lemma remaining_root c c' :
  remotes c' = remotes c ->
  (3 * length (pending c') + lane_weight (root c') <
   3 * length (pending c) + lane_weight (root c))%nat ->
  (remaining c' < remaining c)%nat.
Proof. intros Hrem Hlt. unfold remaining, lanes. rewrite Hrem. cbn. lia. Qed.

Lemma batch_shrinks l c : inv l c -> has_work c = true ->
  (length (pending (after_batch c)) < length (pending c))%nat.
Proof.
  intros [_ _ _ Hs] [_ Hp]%has_work_true. unfold after_batch, batch_count. cbn.
  rewrite length_drop. destruct (pending c); [done|]. cbn [length]. lia.
Qed.

Lemma lane_done_weight s cur s' :
  lane_done s = Some (cur, s') -> (lane_weight s' < lane_weight s)%nat.
Proof. destruct s as [|? [?|] [|]| |]; cbn; intros; simplify_eq/=; lia. Qed.

(** Every accepted call decreases [remaining], but for asking a stopped root again. *)
Lemma accepted_decreases l c ev o c' :
  accepted c ev o c' -> inv l c ->
  (remaining c' < remaining c)%nat \/ (ev = NextRootBatch /\ root c = Stopped /\ c' = c).
Proof.
  intros Hacc Hinv. pose proof (inv_root _ _ Hinv) as Hroot.
  destruct Hacc as [c rank Hr [Hw _]|c rank cur Hr Hpre [Hw _]|c rank Hr Hw|c rank cur Hr Hpre Hw
    |c Hr [Hw _]|c Hr Hw|c Hr|c cur results Hr Ha|c rank s cur s' results Hr Hd Ha
    |c cur Hr|c rank s cur s' Hr Hd|c rank s cur s' Hr Hd|c rank Hr];
    try (right; by auto); left;
    try pose proof (batch_shrinks _ _ Hinv Hw) as Hb;
    try pose proof (lane_done_weight _ _ _ Hd) as Hlt;
    first
      [ eapply remaining_remote; [exact Hr|reflexivity|reflexivity|]; cbn in *; lia
      | apply remaining_root; [reflexivity|]; cbn; rewrite Hr; cbn; lia
      | apply remaining_root; [reflexivity|]; destruct Hr as [Hr|Hr]; rewrite Hr in *;
        [cbn in *; rewrite ?Hr; cbn; lia | by destruct Hroot] ].
Qed.

(** A completion a correct worker sends for the batch [m]. *)
Definition answer (f : T -> U) l (m : RunningMeta) : list (ItemResult U) :=
  omap (fun i => (fun x => mkItemResult i (f x)) <$> l !! i) (original_indices m).

Lemma answer_indices (f : T -> U) l (k : list nat) :
  Forall (fun i => (i < length l)%nat) k ->
  map original_index (omap (fun i => (fun x => mkItemResult i (f x)) <$> l !! i) k) = k.
Proof.
  induction 1 as [|i k Hi _ IH]; [done|]. cbn.
  destruct (lookup_lt_is_Some_2 _ _ Hi) as [x Hx]. rewrite Hx. cbn. by rewrite IH.
Qed.

Lemma answer_correct f l m : correct f l (answer f l m).
Proof.
  apply Forall_forall. intros r (i & Hi & Hr)%list_elem_of_omap x Hx.
  destruct (l !! i) as [y|] eqn:Hy; [|done]. injection Hr as <-. cbn in *. congruence.
Qed.

Lemma inv_answers l c m results :
  inv l c -> m ∈ all_metas c -> map original_index results = original_indices m -> answers m (ordered c) results.
Proof.
  intros [[] _ _ _] Hm Hr.
  assert (Hin : forall i, i ∈ original_indices m -> i ∈ in_flight (all_metas c)).
  { intros i Hi. apply list_elem_of_bind. eauto. }
  split_and!; [done| |].
  - unfold in_flight in ci_nodup0. by eapply NoDup_bind_part.
  - apply Forall_forall. intros i Hi%Hin%ci_running0. tauto.
Qed.

Lemma meta_in_range l c m : inv l c -> m ∈ all_metas c -> Forall (fun i => (i < length l)%nat) (original_indices m).
Proof.
  intros [[] _ _ _] Hm. apply Forall_forall. intros i Hi.
  assert (i ∈ in_flight (all_metas c)) as [Hlt _]%ci_running0 by (apply list_elem_of_bind; eauto).
  unfold dispatched in Hlt. lia.
Qed.

Lemma answer_answers (f : T -> U) l c m :
  inv l c -> m ∈ all_metas c -> answers m (ordered c) (answer f l m).
Proof. intros Hi Hm. eapply inv_answers; [done..|]. apply answer_indices. by eapply meta_in_range. Qed.

(** A call that is not an error report. *)
Definition no_error ev : bool :=
  match ev with RootError _ | RemoteError _ _ | RemoteProtocolError _ => false | _ => true end.

Lemma no_error_failed c ev o c' :
  accepted c ev o c' -> no_error ev = true -> failed c' = failed c.
Proof. by intros []. Qed.

Lemma can_dispatch_inv l c :
  inv l c -> Z.of_nat (length l) <= u64_max -> has_work c = true -> can_dispatch c.
Proof.
  intros [[] _ _ _] Hl Hw. split; [done|]. apply has_work_true in Hw as [_ Hp].
  unfold dispatched in *. rewrite <- length_zero_iff_nil in Hp.
  pose proof (pending_le l (pending c) ci_pending0). lia.
Qed.

Lemma remote_meta c rank s m :
  remotes c !! rank = Some s -> m ∈ lane_metas s -> m ∈ all_metas c.
Proof.
  intros Hr Hm. destruct (lanes_remote c rank s Hr) as (others & Hl & _).
  unfold all_metas. rewrite Hl. cbn. set_solver.
Qed.

Lemma root_meta c m : m ∈ lane_metas (root c) -> m ∈ all_metas c.
Proof. intros Hm. unfold all_metas, lanes. cbn. set_solver. Qed.

Lemma some_lane_left c :
  is_finished c = false ->
  root c <> Stopped \/ exists rank s, remotes c !! rank = Some s /\ s <> Drained.
Proof.
  intros Hf. destruct (decide (root c = Stopped)) as [Hr|]; [right|by left].
  destruct (decide (map_Forall (fun _ s => s = Drained) (remotes c))) as [Hd|Hd].
  - exfalso. unfold is_finished, running_count, kind_is in Hf. rewrite Hr in Hf. cbn in Hf.
    assert (Hall : Forall (fun p => p.2 = Drained) (map_to_list (remotes c))).
    { apply Forall_forall. intros [k s] Hin%elem_of_map_to_list. by eapply Hd. }
    revert Hf. induction Hall as [|[k s] rest Hs _ IH]; [done|]. cbn in *. by rewrite Hs.
  - apply map_not_Forall in Hd as (rank & s & Hr' & Hs); [|apply _]. eauto.
Qed.

(** While the run is not finished, some lane can move without an error. *)
Lemma can_move f l c :
  inv l c -> Z.of_nat (length l) <= u64_max -> is_finished c = false ->
  exists ev o c', accepted c ev o c' /\ honest f l ev /\ no_error ev = true /\
    (remaining c' < remaining c)%nat.
Proof.
  intros Hinv Hlen Hf.
  assert (Hgo : forall ev o c', accepted c ev o c' -> honest f l ev -> no_error ev = true ->
                  (ev = NextRootBatch -> root c <> Stopped) ->
                  exists ev o c', accepted c ev o c' /\ honest f l ev /\ no_error ev = true /\
                    (remaining c' < remaining c)%nat).
  { intros ev o c' Ha Hh He Hst. exists ev, o, c'. split_and!; try done.
    destruct (accepted_decreases _ _ _ _ _ Ha Hinv) as [|(-> & ? & _)]; [done|].
    by destruct (Hst eq_refl). }
  pose proof (can_dispatch_inv _ _ Hinv Hlen) as Hcan.
  destruct (some_lane_left c Hf) as [Hroot|(rank & s & Hr & Hs)].
  - pose proof (inv_root _ _ Hinv) as Hok.
    destruct (root c) as [|cur [pre|] [|]| |] eqn:Hr; try done.
    + destruct (has_work c) eqn:Hw; eapply Hgo;
        [by apply acc_root_task; auto|done|done|done
        |by apply acc_root_stop; auto|done|done|done].
    + eapply Hgo; [eapply (acc_root_success c cur (answer f l cur)); [done|]
                  |by apply answer_correct|done|done].
      eapply answer_answers; [done|]. apply root_meta. rewrite Hr. set_solver.
  - pose proof (map_Forall_lookup_1 _ _ _ _ (inv_remotes _ _ Hinv) Hr) as Hok.
    destruct (lane_done s) as [[cur s']|] eqn:Hd.
    + eapply Hgo; [eapply (acc_remote_success c rank s cur s' (answer f l cur)); [done|done|]
                  |by apply answer_correct|done|done].
      eapply answer_answers; [done|]. eapply remote_meta; [done|].
      rewrite (lane_done_metas _ _ _ Hd). set_solver.
    + destruct s as [|cur [pre|] [|]| |]; try done.
      * destruct (has_work c) eqn:Hw; eapply Hgo;
          [by apply acc_remote_task; auto|done|done|done
          |by apply acc_remote_stop; auto|done|done|done].
      * eapply Hgo; [by apply acc_remote_drain|done|done|done].
Qed.

Lemma run_all_app evs1 evs2 c :
  (run_all (evs1 ++ evs2) c).2 = (run_all evs2 (run_all evs1 c).2).2.
Proof.
  revert c. induction evs1 as [|ev evs1 IH]; intros c; [done|]. cbn.
  destruct (run_event ev c) as [r c1]. specialize (IH c1).
  destruct (run_all (evs1 ++ evs2) c1), (run_all evs1 c1). done.
Qed.

Lemma can_finish f l c :
  inv l c -> Z.of_nat (length l) <= u64_max ->
  exists evs, Forall (honest f l) evs /\ (length evs <= remaining c)%nat /\
    failed (run_all evs c).2 = failed c /\ is_finished (run_all evs c).2 = true.
Proof.
  intros Hinv Hl. remember (remaining c) as n eqn:Hn. revert c Hinv Hn.
  induction n as [n IH] using lt_wf_ind. intros c Hinv ->.
  destruct (is_finished c) eqn:Hf; [exists []; split_and!; [done|cbn; lia|done|done]|].
  destruct (can_move f l c Hinv Hl Hf) as (ev & o & c' & Ha & Hh & He & Hlt).
  destruct (IH _ Hlt c' (inv_step _ _ _ _ _ Ha Hinv) eq_refl) as (evs & Hevs & Hle & Hfl & Hfin).
  exists (ev :: evs). cbn. apply run_event_refines in Ha as Hrun. rewrite Hrun.
  destruct (run_all evs c') as [bs c2] eqn:E. cbn in *. split_and!; try done; [by constructor|lia|].
  rewrite Hfl. by eapply no_error_failed.
Qed.

(** A run of [n] accepted calls, not counting the root asking again after it was
    told to stop. *)
Inductive progress : nat -> Coordinator T U -> Coordinator T U -> Prop :=
| progress_done c : progress 0 c c
| progress_step n c ev o c1 c2 :
    accepted c ev o c1 -> ~ (ev = NextRootBatch /\ root c = Stopped) ->
    progress n c1 c2 -> progress (S n) c c2.

Lemma progress_bound l n c c' : progress n c c' -> inv l c -> (n + remaining c' <= remaining c)%nat.
Proof.
  induction 1 as [c|n c ev o c1 c2 Ha Hne _ IH]; intros Hinv; [lia|].
  specialize (IH (inv_step _ _ _ _ _ Ha Hinv)).
  destruct (accepted_decreases _ _ _ _ _ Ha Hinv) as [|(-> & ? & _)]; [lia|]. by destruct Hne.
Qed.

Lemma insert_remotes_size rr ranks m m' :
  insert_remotes rr ranks m = Ok m' -> (size m' <= size m + length ranks)%nat.
Proof.
  revert m. induction ranks as [|r ranks IH]; intros m H; cbn in H.
  - injection H as <-. cbn. lia.
  - do 3 (bind_inv H; fail_if_inv E). apply IH in H.
    rewrite map_size_insert in H. destruct (m !! r); cbn in *; lia.
Qed.

Lemma idle_weights (m : gmap Z LaneState) :
  map_Forall (fun _ s => s = Idle) m ->
  sum_list_with lane_weight (map_to_list m).*2 = (2 * size m)%nat.
Proof.
  intros Hm. rewrite <- length_map_to_list.
  assert (Forall (fun p => p.2 = Idle) (map_to_list m)) as Hf.
  { apply Forall_forall. intros [k s] Hin%elem_of_map_to_list. by eapply Hm. }
  induction Hf as [|[k s] rest Hs _ IH]; [done|]. cbn in *. rewrite Hs, IH. cbn. lia.
Qed.

Lemma new_remaining rr ranks l size pre c :
  new_with_prefetch (U := U) rr ranks l size pre = Ok c ->
  (remaining c <= 3 * length l + 2 * S (length ranks))%nat /\ failed c = false.
Proof.
  unfold new_with_prefetch. intros H. bind_inv H. bind_inv H. bind_inv H.
  apply enqueue_items_ok in E1. injection H as <-. change (a1 = indexed l) in E1. subst a1.
  pose proof (insert_remotes_size _ _ _ _ E0) as Hsz. rewrite map_size_empty in Hsz.
  apply insert_remotes_idle in E0; [|apply map_Forall_empty].
  unfold remaining, lanes. cbn. rewrite length_indexed, idle_weights by done. lia.
Qed.

(** C6: a run terminates, and it terminates well.  No sequence of accepted calls
    is longer than [3 * |inputs| + 2 * |lanes|] (asking a stopped root again
    aside), and from any point a run without a failed batch has reached,
    whatever was refused before, calls that answer the outstanding batches
    with [f] of their inputs bring it to [into_results = Ok (map f inputs)]:
    the coordinator never gets stuck, not even on its batch counter. *)
Theorem runs_terminate_and_can_finish f rr ranks l size pre c0 :
  new_with_prefetch rr ranks l size pre = Ok c0 -> (0 < size)%nat ->
  Z.of_nat (length l) <= u64_max ->
  (forall n c, progress n c0 c -> n <= 3 * length l + 2 * S (length ranks))%nat /\
  (forall evs, Forall (honest f l) evs -> failed (run_all evs c0).2 = false ->
     exists evs', Forall (honest f l) evs' /\
       into_results (run_all (evs ++ evs') c0).2 = Ok (map f l)).
Proof.
  intros Hnew Hs Hl. pose proof (new_inv _ _ _ _ _ _ Hnew Hs) as Hinv. split.
  - intros n c Hp. pose proof (progress_bound _ _ _ _ Hp Hinv).
    pose proof (new_remaining _ _ _ _ _ _ Hnew). lia.
  - intros evs Hh Hf.
    pose proof (run_all_inv l evs c0 Hinv) as Hinv1.
    destruct (can_finish f l _ Hinv1 Hl) as (evs' & Hh' & _ & Hf' & Hfin).
    exists evs'. split; [done|]. rewrite run_all_app.
    rewrite (into_results_inv f l), Hf', Hf, Hfin; [done|by apply run_all_inv|].
    apply run_all_correct; [done|]. apply run_all_correct; [done|].
    by eapply new_slots_correct.
Qed.

End Runs.

(** ** Witnesses: a run of three inputs on the root and one remote rank *)

Definition sample : Coordinator nat nat :=
  {| remotes := {[1 := Idle]}; root := Idle; pending := imap mkScheduledItem [10; 20; 30]%nat;
     batch_size := 2; prefetch := true; next_batch_id := 0;
     ordered := replicate 3 None; failed := false |}.

Definition sample_run : list (event nat) :=
  [RemoteReady 1; NextRootBatch; RemoteReady 1;
   RootSuccess 1 [mkItemResult 2 31]%nat; RootSuccess 1 []; NextRootBatch;
   RemoteSuccess 1 0 [mkItemResult 0 11; mkItemResult 1 21]%nat; RemoteDrain 1].

Lemma sample_new : new_with_prefetch 0 [1] [10; 20; 30]%nat 2 true = Ok sample.
Proof. reflexivity. Defined.

Lemma sample_honest : Forall (honest S [10; 20; 30]%nat) sample_run.
Proof.
  repeat constructor; cbn; intros ? [= <-]; reflexivity.
Defined.

Lemma every_input_handed_out_once_witness :
  let '(bs, c) := run_all sample_run sample in
  concat (map items bs) = imap mkScheduledItem [10; 20; 30]%nat.
Proof.
  pose proof (every_input_handed_out_once 0 [1] [10; 20; 30]%nat 2 true sample sample_run
                sample_new ltac:(lia)) as H.
  destruct (run_all sample_run sample) as [bs c] eqn:E. destruct H as [_ H].
  apply H; vm_compute in E; injection E as <- <-; vm_compute; reflexivity.
Defined.

Lemma into_results_in_order_witness :
  into_results (run_all sample_run sample).2 = Ok [11; 21; 31]%nat.
Proof.
  pose proof (into_results_in_order S 0 [1] [10; 20; 30]%nat 2 true sample sample_run
                sample_new ltac:(lia) sample_honest) as H.
  cbn zeta in H. rewrite H. vm_compute. reflexivity.
Defined.

Lemma runs_terminate_and_can_finish_witness :
  (forall n c, progress n sample c -> n <= 13)%nat /\
  exists evs', into_results (run_all evs' sample).2 = Ok [11; 21; 31]%nat.
Proof.
  destruct (runs_terminate_and_can_finish S 0 [1] [10; 20; 30]%nat 2 true sample
              sample_new ltac:(lia) ltac:(vm_compute; discriminate)) as [Hb Hf].
  split.
  - intros n c Hp. specialize (Hb n c Hp). cbn in Hb. exact Hb.
  - destruct (Hf [] ltac:(constructor) eq_refl) as (evs' & _ & H). exists evs'. exact H.
Defined.
