(* ===== verification/Mpi.v ===== *)
(** * Mpi: programs of the ranks of an MPI communicator

    The parts of hataori that run over MPI are single programs run by every
    rank.  A rank's program is a tree of MPI operations ([Prog]); rank, size and
    the answer of [MPI_Is_thread_main] are arguments of the programs.  [Crash] is a
    Rust panic, [OutOfFuel] the end of the fuel of a modelled loop.  [step] is
    the message-passing semantics of the operations used:

    - a collective completes when every rank has called it, with the same root
      and, for a byte broadcast, buffers of the same length;
    - a standard-mode send may wait for its receiver, and here always does: a
      program that does not deadlock under this semantics does not rely on
      buffering;
    - [Probe] sees a message whose sender is waiting, but it may also miss it.

    Steps of different ranks interleave freely.  [Runs] says that every
    execution is finite and ends with all ranks having returned, with results
    that satisfy a postcondition: no deadlock, no abort, no livelock. *)
From Stdlib Require Import FunctionalExtensionality.
From stdpp Require Import functions.
From S2P Require Import Prelude.

(** ** Programs *)

Inductive ReduceOp : Type := Op_Min | Op_Max.

Inductive Prog (R : Type) : Type :=
| Ret (r : R)
| Abort (code : Z)
| Crash
| OutOfFuel
| Duplicate (k : Prog R)
| AllReduce (op : ReduceOp) (v : Z) (k : Z -> Prog R)
| BcastZ (root v : Z) (k : Z -> Prog R)
| BcastBytes (root : Z) (buf : list byte) (k : list byte -> Prog R)
| Send (dst tag : Z) (data : list byte) (k : Prog R)
| Recv (src tag : Z) (k : list byte -> Prog R)
| RecvAny (tag : Z) (k : Z -> list byte -> Prog R)
| Probe (tag : Z) (k : option Z -> Prog R).
Arguments Ret {R} _.
Arguments Abort {R} _.
Arguments Crash {R}.
Arguments OutOfFuel {R}.
Arguments Duplicate {R} _.
Arguments AllReduce {R} _ _ _.
Arguments BcastZ {R} _ _ _.
Arguments BcastBytes {R} _ _ _.
Arguments Send {R} _ _ _ _.
Arguments Recv {R} _ _ _.
Arguments RecvAny {R} _ _.
Arguments Probe {R} _ _.

Fixpoint prog_bind {A B} (f : A -> Prog B) (p : Prog A) : Prog B :=
  match p with
  | Ret r => f r
  | Abort code => Abort code
  | Crash => Crash
  | OutOfFuel => OutOfFuel
  | Duplicate k => Duplicate (prog_bind f k)
  | AllReduce op v k => AllReduce op v (fun x => prog_bind f (k x))
  | BcastZ root v k => BcastZ root v (fun x => prog_bind f (k x))
  | BcastBytes root buf k => BcastBytes root buf (fun x => prog_bind f (k x))
  | Send dst tag data k => Send dst tag data (prog_bind f k)
  | Recv src tag k => Recv src tag (fun x => prog_bind f (k x))
  | RecvAny tag k => RecvAny tag (fun s x => prog_bind f (k s x))
  | Probe tag k => Probe tag (fun x => prog_bind f (k x))
  end.

#[export] Instance Prog_ret : MRet Prog := @Ret.
#[export] Instance Prog_bind : MBind Prog := @prog_bind.

Lemma prog_bind_assoc {A B C} (p : Prog A) (f : A -> Prog B) (g : B -> Prog C) :
  ((p ≫= f) ≫= g) = (p ≫= fun x => f x ≫= g).
Proof.
  induction p as [r|code| | |k IH|op v k IH|root v k IH|root buf k IH|dst tag data k IH|src tag k IH|tag k IH|tag k IH];
    cbn [mbind Prog_bind prog_bind] in *; f_equal; try done;
    try (apply functional_extensionality; intros; try (apply functional_extensionality; intros)); apply IH.
Qed.

(** [?] on a program that returns a [Result]. *)
Definition try_bind {E A B} (p : Prog (result E A)) (k : A -> Prog (result E B)) : Prog (result E B) :=
  p ≫= fun r => match r with Ok a => k a | Err e => Ret (Err e) end.
Notation "x ←? p ; q" := (try_bind p (fun x => q)) (at level 20, p at level 100, q at level 200, right associativity) : stdpp_scope.

Definition reduce (op : ReduceOp) (vs : list Z) : Z :=
  match vs with
  | [] => 0
  | v :: rest => foldr (match op with Op_Min => Z.min | Op_Max => Z.max end) v rest
  end.

(** ** Single operations *)

Definition all_reduce (op : ReduceOp) (v : Z) : Prog Z := AllReduce op v Ret.
Definition broadcast_z (root v : Z) : Prog Z := BcastZ root v Ret.
Definition broadcast_bytes (root : Z) (buf : list byte) : Prog (list byte) := BcastBytes root buf Ret.

Definition is_some {A} (o : option A) : bool := match o with Some _ => true | None => false end.
(** [resize] of a buffer that is not longer, with zeros. *)
Definition resize (n : Z) (l : list byte) : list byte :=
  take (Z.to_nat n) (l ++ replicate (Z.to_nat n) Byte.x00).

(** A Rust panic in a pure computation is a crash of the rank. *)
Definition failing {E F A} (wrap : E -> F) (r : result (exn E) A) : Prog (result F A) :=
  match r with
  | Ok a => Ret (Ok a)
  | Err (Raise e) => Ret (Err (wrap e))
  | Err Panic => Crash
  end.

(** ** Executions *)

(** The programs of [n] ranks. *)
Definition spmd {R} (n : nat) (p : nat -> Prog R) : list (Prog R) := map p (seq 0 n).

Section Step.
Context {R : Type}.

Inductive step (W : list (Prog R)) : list (Prog R) -> Prop :=
| step_duplicate n k : (0 < n)%nat -> W = spmd n (fun r => Duplicate (k r)) -> step W (spmd n k)
| step_allreduce n op v k : (0 < n)%nat -> W = spmd n (fun r => AllReduce op (v r) (k r)) ->
    step W (spmd n (fun r => k r (reduce op (map v (seq 0 n)))))
| step_bcast n root v k : (root < n)%nat -> W = spmd n (fun r => BcastZ (Z.of_nat root) (v r) (k r)) ->
    step W (spmd n (fun r => k r (v root)))
| step_bcast_bytes n root b k : (root < n)%nat -> W = spmd n (fun r => BcastBytes (Z.of_nat root) (b r) (k r)) ->
    (forall r, (r < n)%nat -> length (b r) = length (b root)) -> step W (spmd n (fun r => k r (b root)))
| step_message i j tag data ki kj : i <> j ->
    W !! i = Some (Send (Z.of_nat j) tag data ki) -> W !! j = Some (Recv (Z.of_nat i) tag kj) ->
    step W (<[i := ki]> (<[j := kj data]> W))
| step_message_any i j tag data ki kj : i <> j ->
    W !! i = Some (Send (Z.of_nat j) tag data ki) -> W !! j = Some (RecvAny tag kj) ->
    step W (<[i := ki]> (<[j := kj (Z.of_nat i) data]> W))
| step_probe_miss j tag kj : W !! j = Some (Probe tag kj) -> step W (<[j := kj None]> W)
| step_probe_hit i j tag data ki kj : i <> j ->
    W !! i = Some (Send (Z.of_nat j) tag data ki) -> W !! j = Some (Probe tag kj) ->
    step W (<[j := kj (Some (Z.of_nat i))]> W).

(** On every execution a state that satisfies [Q] is reached. *)
Inductive eventually (Q : list (Prog R) -> Prop) (W : list (Prog R)) : Prop :=
| eventually_done : Q W -> eventually Q W
| eventually_step : (exists W', step W W') -> (forall W', step W W' -> eventually Q W') -> eventually Q W.
End Step.

Definition returned {R} (n : nat) (Q : (nat -> R) -> Prop) (W : list (Prog R)) : Prop :=
  exists x, W = spmd n (fun r => Ret (x r)) /\ Q x.

Definition Runs {R} (n : nat) (p : nat -> Prog R) (Q : (nat -> R) -> Prop) : Prop :=
  eventually (returned n Q) (spmd n p).

(** ** Lists of programs *)

Section Lists.
Context {R : Type}.
Implicit Types (p f : nat -> Prog R) (W : list (Prog R)).

Lemma length_spmd n p : length (spmd n p) = n.
Proof. unfold spmd. by rewrite length_map, length_seq. Qed.

Lemma lookup_spmd n p r : (r < n)%nat -> spmd n p !! r = Some (p r).
Proof. intros Hr. unfold spmd. by rewrite list_lookup_fmap, lookup_seq_lt. Qed.

Lemma lookup_spmd_Some n p r q : spmd n p !! r = Some q -> (r < n)%nat /\ q = p r.
Proof.
  intros Hq. pose proof (lookup_lt_Some _ _ _ Hq) as Hr. rewrite length_spmd in Hr.
  rewrite lookup_spmd in Hq by done. by injection Hq as <-.
Qed.

Lemma spmd_ext n p f : (forall r, (r < n)%nat -> p r = f r) -> spmd n p = spmd n f.
Proof.
  intros Hpf. apply map_ext_in. intros r Hr. apply in_seq in Hr. apply Hpf. lia.
Qed.

Lemma spmd_inj n p f r : spmd n p = spmd n f -> (r < n)%nat -> p r = f r.
Proof. intros Heq Hr. apply (f_equal (.!! r)) in Heq. rewrite !lookup_spmd in Heq by done. congruence. Qed.

Lemma insert_spmd n p r q : (r < n)%nat -> <[r := q]> (spmd n p) = spmd n (<[r := q]> p).
Proof.
  intros Hr. apply list_eq_same_length with n; [by rewrite ?length_insert, length_spmd..|].
  intros i x y Hi Hx Hy. apply lookup_spmd_Some in Hy as [_ ->].
  destruct (decide (r = i)) as [->|Hne].
  - rewrite list_lookup_insert_eq in Hx by (by rewrite length_spmd). rewrite fn_lookup_insert. congruence.
  - rewrite list_lookup_insert_ne in Hx by done. rewrite fn_lookup_insert_ne by done.
    by apply lookup_spmd_Some in Hx as [_ ->].
Qed.

Lemma map_spmd {X} (F : X -> Prog R) n (g : nat -> X) : map F (map g (seq 0 n)) = spmd n (fun r => F (g r)).
Proof. unfold spmd. by rewrite map_map. Qed.
End Lists.

(** ** Reductions *)

Section Reduce.
Context (n : nat) (Hn : (0 < n)%nat) (v : nat -> Z).

Lemma reduce_spec op : exists r, (r < n)%nat /\ reduce op (map v (seq 0 n)) = v r
  /\ forall r', (r' < n)%nat -> match op with Op_Min => v r <= v r' | Op_Max => v r' <= v r end.
Proof.
  destruct n as [|m]; [lia|]. cbn [seq map reduce].
  assert (Hl : forall l, (forall r, r ∈ l -> (0 < r < S m)%nat) -> exists r, (r < S m)%nat /\
    foldr (match op with Op_Min => Z.min | Op_Max => Z.max end) (v 0%nat) (map v l) = v r /\
    forall r', r' = 0%nat \/ r' ∈ l -> match op with Op_Min => v r <= v r' | Op_Max => v r' <= v r end).
  { clear Hn. induction l as [|a l IH]; intros Hl.
    - exists 0%nat. split; [lia|]. split; [done|]. intros r' [->|Hr']; [|by apply elem_of_nil in Hr']. destruct op; lia.
    - destruct IH as (r & Hr & Hf & Hall); [intros r Hr; apply Hl; by right|]. cbn [map foldr]. rewrite Hf.
      pose proof (Hl a ltac:(left)) as Ha.
      destruct op.
      + destruct (Z.min_spec (v a) (v r)) as [[Hlt ->]|[Hle ->]]; [exists a|exists r]; (split; [lia|]); (split; [done|]);
          intros r' [->|Hr']; try (pose proof (Hall 0%nat (or_introl eq_refl)); lia);
          apply elem_of_cons in Hr' as [->|Hr']; try lia; pose proof (Hall r' (or_intror Hr')); lia.
      + destruct (Z.max_spec (v a) (v r)) as [[Hlt ->]|[Hle ->]]; [exists r|exists a]; (split; [lia|]); (split; [done|]);
          intros r' [->|Hr']; try (pose proof (Hall 0%nat (or_introl eq_refl)); lia);
          apply elem_of_cons in Hr' as [->|Hr']; try lia; pose proof (Hall r' (or_intror Hr')); lia. }
  destruct (Hl (seq 1 m)) as (r & Hr & Hf & Hall); [intros r Hr; apply elem_of_seq in Hr; lia|].
  exists r. split; [done|]. split; [done|]. intros r' Hr'. apply Hall. rewrite elem_of_seq. lia.
Qed.

(** Minimum and maximum agree exactly when all ranks have the same value. *)
Lemma reduce_agree : reduce Op_Min (map v (seq 0 n)) = reduce Op_Max (map v (seq 0 n)) ->
  forall r, (r < n)%nat -> v r = reduce Op_Min (map v (seq 0 n)).
Proof.
  destruct (reduce_spec Op_Min) as (a & _ & -> & Ha). destruct (reduce_spec Op_Max) as (b & _ & -> & Hb).
  intros Heq r Hr. pose proof (Ha r Hr). pose proof (Hb r Hr). lia.
Qed.
Lemma reduce_const c op : (forall r, (r < n)%nat -> v r = c) -> reduce op (map v (seq 0 n)) = c.
Proof. intros Hc. destruct (reduce_spec op) as (r & Hr & -> & _). by apply Hc. Qed.
End Reduce.

(** ** Rules for collectives *)

Definition is_talking {R} (p : Prog R) : bool :=
  match p with Send _ _ _ _ | Recv _ _ _ | RecvAny _ _ | Probe _ _ => true | _ => false end.
Definition is_collective {R} (p : Prog R) : bool :=
  match p with Duplicate _ | AllReduce _ _ _ | BcastZ _ _ _ | BcastBytes _ _ _ => true | _ => false end.

Section Collectives.
Context {R : Type} (n : nat) (Hn : (0 < n)%nat).
Implicit Types (p : nat -> Prog R) (W : list (Prog R)) (Q : (nat -> R) -> Prop).

Lemma spmd_same m (p f : nat -> Prog R) : spmd n p = spmd m f -> m = n /\ forall r, (r < n)%nat -> p r = f r.
Proof.
  intros Heq. assert (m = n) as -> by (rewrite <- (length_spmd m f), <- Heq; apply length_spmd).
  split; [done|]. intros r. by apply spmd_inj.
Qed.

Lemma reduce_ext op (v w : nat -> Z) : (forall r, (r < n)%nat -> v r = w r) ->
  reduce op (map v (seq 0 n)) = reduce op (map w (seq 0 n)).
Proof. intros Hvw. f_equal. apply map_ext_in. intros r Hr. apply in_seq in Hr. apply Hvw. lia. Qed.

(** Ranks that are at a collective take no other step. *)
Lemma not_talking p i q : (forall r, is_talking (p r) = false) -> spmd n p !! i = Some q -> is_talking q = false.
Proof. intros Hp [_ ->]%lookup_spmd_Some. apply Hp. Qed.

Ltac coll_same Heq := apply spmd_same in Heq as [-> Heq]; pose proof (Heq 0%nat Hn); try discriminate.
Ltac coll_inv Hs Heads :=
  destruct Hs as [? ? ? Heads|? ? ? ? ? Heads|? ? ? ? ? Heads|? ? ? ? ? Heads ?|? ? ? ? ? ? ? Hi ?|? ? ? ? ? ? ? Hi ?
    |? ? ? Hi|? ? ? ? ? ? ? Hi ?];
  [coll_same Heads|coll_same Heads|coll_same Heads|coll_same Heads
  |apply not_talking in Hi; [discriminate Hi|done]..].

Lemma runs_duplicate k Q : Runs n k Q -> Runs n (fun r => Duplicate (k r)) Q.
Proof.
  intros Hk. apply eventually_step; [eexists; by constructor|]. intros W' Hs. coll_inv Hs Heads.
  erewrite spmd_ext; [exact Hk|]. intros r Hr. pose proof (Heads r Hr). congruence.
Qed.

Lemma runs_allreduce op v k Q :
  Runs n (fun r => k r (reduce op (map v (seq 0 n)))) Q -> Runs n (fun r => AllReduce op (v r) (k r)) Q.
Proof.
  intros Hk. apply eventually_step; [eexists; by constructor|]. intros W' Hs. coll_inv Hs Heads.
  erewrite spmd_ext; [exact Hk|]. cbv beta. intros r Hr.
  rewrite (reduce_ext _ v v0) by (intros r' Hr'; pose proof (Heads r' Hr'); congruence).
  pose proof (Heads r Hr). congruence.
Qed.

Lemma runs_bcast root v k Q : (root < n)%nat ->
  Runs n (fun r => k r (v root)) Q -> Runs n (fun r => BcastZ (Z.of_nat root) (v r) (k r)) Q.
Proof.
  intros Hr Hk. apply eventually_step; [eexists; by constructor|]. intros W' Hs. coll_inv Hs Heads.
  assert (root0 = root) as -> by (apply Nat2Z.inj; congruence).
  erewrite spmd_ext; [exact Hk|]. cbv beta. intros r Hr'.
  pose proof (Heads r Hr'). pose proof (Heads root Hr). congruence.
Qed.

Lemma runs_bcast_bytes root b k Q : (root < n)%nat -> (forall r, (r < n)%nat -> length (b r) = length (b root)) ->
  Runs n (fun r => k r (b root)) Q -> Runs n (fun r => BcastBytes (Z.of_nat root) (b r) (k r)) Q.
Proof.
  intros Hr Hb Hk. apply eventually_step; [eexists; by econstructor|]. intros W' Hs. coll_inv Hs Heads.
  assert (root0 = root) as -> by (apply Nat2Z.inj; congruence).
  erewrite spmd_ext; [exact Hk|]. cbv beta. intros r Hr'.
  pose proof (Heads r Hr'). pose proof (Heads root Hr). congruence.
Qed.

Lemma runs_ret x Q : Q x -> Runs n (fun r => Ret (x r)) Q.
Proof. intros Hx. apply eventually_done. by exists x. Qed.

Lemma runs_ext p f Q : (forall r, (r < n)%nat -> p r = f r) -> Runs n f Q -> Runs n p Q.
Proof. intros Hpf Hf. unfold Runs. by rewrite (spmd_ext n p f). Qed.

Lemma eventually_mono (P Q : list (Prog R) -> Prop) W : (forall W', P W' -> Q W') -> eventually P W -> eventually Q W.
Proof. intros HPQ. induction 1; [by apply eventually_done, HPQ|by apply eventually_step]. Qed.

Lemma runs_mono p P Q : Runs n p P -> (forall x, P x -> Q x) -> Runs n p Q.
Proof. intros Hp HPQ. eapply eventually_mono, Hp. intros W (x & -> & Hx). exists x. auto. Qed.

(** ** Phases of messages *)

(** As [eventually], and no rank is at a collective before the end. *)
Inductive talk (Q : list (Prog R) -> Prop) (W : list (Prog R)) : Prop :=
| talk_done : Q W -> talk Q W
| talk_step : (forall i q, W !! i = Some q -> is_collective q = false) ->
    (exists W', step W W') -> (forall W', step W W' -> talk Q W') -> talk Q W.

Lemma talk_mono (P Q : list (Prog R) -> Prop) W : (forall W', P W' -> Q W') -> talk P W -> talk Q W.
Proof. intros HPQ. induction 1; [by apply talk_done, HPQ|by apply talk_step]. Qed.
End Collectives.

(** A phase of messages may be followed by anything that starts with a
    collective (or does not communicate): ranks that are done wait for the others. *)
Section Bind.
Context {A B : Type} (K : nat -> A -> Prog B) (HK : forall r a, is_talking (K r a) = false).
Implicit Types W : list (Prog A).

Definition then_do W : list (Prog B) := imap (fun r p => p ≫= K r) W.

Lemma then_do_insert i p W : then_do (<[i := p]> W) = <[i := p ≫= K i]> (then_do W).
Proof.
  apply list_eq. intros j. unfold then_do. rewrite list_lookup_imap.
  destruct (decide (i = j)) as [<-|Hne].
  - destruct (decide (i < length W)%nat) as [Hlt|Hge].
    + rewrite !list_lookup_insert_eq by (rewrite ?length_imap; done). done.
    + rewrite !list_insert_ge by (rewrite ?length_imap; lia). by rewrite list_lookup_imap.
  - rewrite !list_lookup_insert_ne by done. by rewrite list_lookup_imap.
Qed.

Lemma lookup_then_do i W q : then_do W !! i = Some q -> exists p, W !! i = Some p /\ q = (p ≫= K i).
Proof.
  unfold then_do. rewrite list_lookup_imap. destruct (W !! i) as [p|]; [|done]. intros [= <-]. eauto.
Qed.

Lemma lookup_then_do_Some i W p : W !! i = Some p -> then_do W !! i = Some (p ≫= K i).
Proof. intros Hp. unfold then_do. by rewrite list_lookup_imap, Hp. Qed.

(** The heads of a program that has not returned are those of the composition. *)
Lemma bind_send r p dst tag data q : (p ≫= K r) = Send dst tag data q -> exists k, p = Send dst tag data k /\ q = (k ≫= K r).
Proof. destruct p; cbn; try done; [intros Ha; pose proof (HK r r0) as Ht; by rewrite Ha in Ht|]. intros [= -> -> -> <-]. eauto. Qed.
Lemma bind_recv r p src tag q : (p ≫= K r) = Recv src tag q -> exists k, p = Recv src tag k /\ q = fun x => k x ≫= K r.
Proof. destruct p; cbn; try done; [intros Ha; pose proof (HK r r0) as Ht; by rewrite Ha in Ht|]. intros [= -> -> <-]. eauto. Qed.
Lemma bind_recv_any r p tag q : (p ≫= K r) = RecvAny tag q -> exists k, p = RecvAny tag k /\ q = fun s x => k s x ≫= K r.
Proof. destruct p; cbn; try done; [intros Ha; pose proof (HK r r0) as Ht; by rewrite Ha in Ht|]. intros [= -> <-]. eauto. Qed.
Lemma bind_probe r p tag q : (p ≫= K r) = Probe tag q -> exists k, p = Probe tag k /\ q = fun x => k x ≫= K r.
Proof. destruct p; cbn; try done; [intros Ha; pose proof (HK r r0) as Ht; by rewrite Ha in Ht|]. intros [= -> <-]. eauto. Qed.

(** Without a rank at a collective, some rank that can step is talking. *)
Lemma step_talks W W' : (forall i q, W !! i = Some q -> is_collective q = false) -> step W W' ->
  exists i q, W !! i = Some q /\ is_talking q = true.
Proof.
  intros Hq Hs. assert (Hno : forall n (p : nat -> Prog A), (0 < n)%nat -> W = spmd n p -> (forall r, is_collective (p r) = true) -> False).
  { intros n p Hn -> Hp. pose proof (Hq 0%nat _ (lookup_spmd n p 0 Hn)). by rewrite Hp in *. }
  destruct Hs as [n k Hn Heq|n op v k Hn Heq|n root v k Hn Heq|n root b k Hn Heq|? ? ? ? ? ? ? Hi ?|? ? ? ? ? ? ? Hi ?|? ? ? Hi|? ? ? ? ? ? ? Hi ?].
  1-4: exfalso; eapply (Hno n); [lia|exact Heq|done].
  all: eauto.
Qed.

Lemma step_then_do W W' : (forall i q, W !! i = Some q -> is_collective q = false) ->
  step W W' -> step (then_do W) (then_do W').
Proof.
  intros Hq Hs. destruct (step_talks _ _ Hq Hs) as (i0 & q0 & H0 & Ht).
  assert (Hno : forall n (p : nat -> Prog A), W = spmd n p -> (forall r, is_talking (p r) = false) -> False).
  { intros n p -> Hp. apply lookup_spmd_Some in H0 as [_ ->]. by rewrite Hp in Ht. }
  destruct Hs as [n k Hn Heq|n op v k Hn Heq|n root v k Hn Heq|n root b k Hn Heq
    |i j tag data ki kj Hne Hi Hj|i j tag data ki kj Hne Hi Hj|j tag kj Hj|i j tag data ki kj Hne Hi Hj].
  1-4: exfalso; by eapply (Hno n); [exact Heq|].
  all: rewrite !then_do_insert; try apply lookup_then_do_Some in Hi; apply lookup_then_do_Some in Hj.
  - by eapply (step_message _ i j tag data _ (fun x => kj x ≫= K j)).
  - by eapply (step_message_any _ i j tag data _ (fun s x => kj s x ≫= K j)).
  - by eapply (step_probe_miss _ j tag (fun x => kj x ≫= K j)).
  - by eapply (step_probe_hit _ i j tag data _ (fun x => kj x ≫= K j)).
Qed.

Lemma then_do_step W V : (exists i q, W !! i = Some q /\ is_talking q = true) -> step (then_do W) V ->
  exists W', step W W' /\ V = then_do W'.
Proof.
  intros (i0 & q0 & H0 & Ht) Hs.
  assert (Hno : forall n (p : nat -> Prog B), then_do W = spmd n p -> (forall r, is_collective (p r) = true) -> False).
  { intros n p Heq Hp. apply lookup_then_do_Some in H0. rewrite Heq in H0. apply lookup_spmd_Some in H0 as [_ H0].
    pose proof (Hp i0) as Hc. rewrite <- H0 in Hc. by destruct q0. }
  destruct Hs as [n k Hn Heq|n op v k Hn Heq|n root v k Hn Heq|n root b k Hn Heq
    |i j tag data ki kj Hne Hi Hj|i j tag data ki kj Hne Hi Hj|j tag kj Hj|i j tag data ki kj Hne Hi Hj].
  1-4: exfalso; by eapply (Hno n); [exact Heq|].
  all: try (apply lookup_then_do in Hi as (pi & Hi & Hbi); symmetry in Hbi; apply bind_send in Hbi as (ki' & -> & ->)).
  all: apply lookup_then_do in Hj as (pj & Hj & Hbj); symmetry in Hbj.
  - apply bind_recv in Hbj as (kj' & -> & ->). eexists. split; [by eapply step_message|]. by rewrite !then_do_insert.
  - apply bind_recv_any in Hbj as (kj' & -> & ->). eexists. split; [by eapply step_message_any|]. by rewrite !then_do_insert.
  - apply bind_probe in Hbj as (kj' & -> & ->). eexists. split; [by eapply step_probe_miss|]. by rewrite !then_do_insert.
  - apply bind_probe in Hbj as (kj' & -> & ->). eexists. split; [by eapply step_probe_hit|]. by rewrite !then_do_insert.
Qed.

Lemma then_do_spmd n p : then_do (spmd n p) = spmd n (fun r => p r ≫= K r).
Proof.
  apply list_eq. intros i. unfold then_do. rewrite list_lookup_imap.
  destruct (decide (i < n)%nat) as [Hi|Hi]; [by rewrite !lookup_spmd by done|].
  rewrite !lookup_ge_None_2 by (rewrite length_spmd; lia). done.
Qed.

Lemma runs_bind n p (P : (nat -> A) -> Prop) (Q : (nat -> B) -> Prop) :
  talk (returned n P) (spmd n p) -> (forall x, P x -> Runs n (fun r => K r (x r)) Q) ->
  Runs n (fun r => p r ≫= K r) Q.
Proof.
  intros Hp HQ. unfold Runs. rewrite <- then_do_spmd. induction Hp as [W (x & -> & Hx)|W Hq (W1 & Hs) _ IH].
  - rewrite then_do_spmd. by apply HQ.
  - apply eventually_step; [eexists; by eapply step_then_do|]. intros V HV.
    destruct (then_do_step W V) as (W' & Hs' & ->); [by eapply step_talks|done|]. by apply IH.
Qed.
End Bind.

(** ** Phases in which all messages go to or come from one rank *)

Section Hub.
Context {R : Type} (n hub : nat) (Hhub : (hub < n)%nat).
Implicit Types (f : nat -> Prog R) (Q : list (Prog R) -> Prop).

(** The other ranks exchange messages with the hub only. *)
Definition spoke (p : Prog R) : Prop :=
  match p with
  | Ret _ => True
  | Send dst _ _ _ => dst = Z.of_nat hub
  | Recv src _ _ => src = Z.of_nat hub
  | _ => False
  end.
Definition star f : Prop := forall r, (r < n)%nat -> r <> hub -> spoke (f r).

(** The possible steps, by what the hub is doing. *)
Definition hub_step f (W' : list (Prog R)) : Prop :=
  match f hub with
  | Send dst tag data k => exists j kj, dst = Z.of_nat j /\ j <> hub /\ (j < n)%nat /\ f j = Recv (Z.of_nat hub) tag kj
      /\ W' = spmd n (<[hub := k]> (<[j := kj data]> f))
  | Recv src tag k => exists j data kj, src = Z.of_nat j /\ j <> hub /\ (j < n)%nat /\ f j = Send (Z.of_nat hub) tag data kj
      /\ W' = spmd n (<[hub := k data]> (<[j := kj]> f))
  | RecvAny tag k => exists j data kj, j <> hub /\ (j < n)%nat /\ f j = Send (Z.of_nat hub) tag data kj
      /\ W' = spmd n (<[hub := k (Z.of_nat j) data]> (<[j := kj]> f))
  | Probe tag k => W' = spmd n (<[hub := k None]> f)
      \/ exists j data kj, j <> hub /\ (j < n)%nat /\ f j = Send (Z.of_nat hub) tag data kj
           /\ W' = spmd n (<[hub := k (Some (Z.of_nat j))]> f)
  | _ => False
  end.

Lemma star_step_inv f W' : star f -> is_talking (f hub) = true -> step (spmd n f) W' -> hub_step f W'.
Proof.
  intros Hstar Ht Hs.
  assert (Hno : forall m (p : nat -> Prog R), spmd n f = spmd m p -> (forall r, is_collective (p r) = true) -> False).
  { intros m p Heq Hp. apply spmd_same in Heq as [-> Heq]. pose proof (Hp hub) as Hc.
    rewrite <- Heq in Hc by done. by destruct (f hub). }
  destruct Hs as [m k Hn Heq|m op v k Hn Heq|m root v k Hn Heq|m root b k Hn Heq
    |i j tag data ki kj Hne Hi Hj|i j tag data ki kj Hne Hi Hj|j tag kj Hj|i j tag data ki kj Hne Hi Hj].
  1-4: exfalso; by eapply (Hno m); [exact Heq|].
  all: apply lookup_spmd_Some in Hj as [Hj Hfj]; try apply lookup_spmd_Some in Hi as [Hi Hfi].
  - destruct (decide (i = hub)) as [->|Hih].
    + unfold hub_step. rewrite <- Hfi. exists j, kj. by rewrite !insert_spmd by done.
    + assert (j = hub) as -> by (pose proof (Hstar i Hi Hih) as Hsp; rewrite <- Hfi in Hsp; by apply Nat2Z.inj).
      unfold hub_step. rewrite <- Hfj. exists i, data, ki. rewrite list_insert_insert_ne by done. by rewrite !insert_spmd by done.
  - destruct (decide (j = hub)) as [->|Hjh]; [|by pose proof (Hstar j Hj Hjh) as Hsp; rewrite <- Hfj in Hsp].
    unfold hub_step. rewrite <- Hfj. exists i, data, ki. rewrite list_insert_insert_ne by done. by rewrite !insert_spmd by done.
  - destruct (decide (j = hub)) as [->|Hjh]; [|by pose proof (Hstar j Hj Hjh) as Hsp; rewrite <- Hfj in Hsp].
    unfold hub_step. rewrite <- Hfj. left. by rewrite insert_spmd.
  - destruct (decide (j = hub)) as [->|Hjh]; [|by pose proof (Hstar j Hj Hjh) as Hsp; rewrite <- Hfj in Hsp].
    unfold hub_step. rewrite <- Hfj. right. exists i, data, ki. by rewrite insert_spmd.
Qed.

Lemma star_quiet f : star f -> is_talking (f hub) = true ->
  forall i q, spmd n f !! i = Some q -> is_collective q = false.
Proof.
  intros Hs Ht i q [Hi ->]%lookup_spmd_Some. destruct (decide (i = hub)) as [->|Hne]; [by destruct (f hub)|].
  pose proof (Hs i Hi Hne). by destruct (f i).
Qed.

Lemma talk_send Q f j tag data k kj : star f -> j <> hub -> (j < n)%nat ->
  f hub = Send (Z.of_nat j) tag data k -> f j = Recv (Z.of_nat hub) tag kj ->
  talk Q (spmd n (<[hub := k]> (<[j := kj data]> f))) -> talk Q (spmd n f).
Proof.
  intros Hs Hne Hj Hh Hfj HQ. apply talk_step.
  - apply star_quiet; [done|by rewrite Hh].
  - eexists. eapply (step_message _ hub j tag data k kj); [done|..]; by rewrite lookup_spmd, ?Hh, ?Hfj.
  - intros W' HW. apply star_step_inv in HW; [|done|by rewrite Hh]. unfold hub_step in HW. rewrite Hh in HW.
    destruct HW as (j' & kj' & <-%Nat2Z.inj & _ & _ & Hj' & ->). rewrite Hfj in Hj'. by injection Hj' as <-.
Qed.

Lemma talk_recv Q f j tag data k kj : star f -> j <> hub -> (j < n)%nat ->
  f hub = Recv (Z.of_nat j) tag k -> f j = Send (Z.of_nat hub) tag data kj ->
  talk Q (spmd n (<[hub := k data]> (<[j := kj]> f))) -> talk Q (spmd n f).
Proof.
  intros Hs Hne Hj Hh Hfj HQ. apply talk_step.
  - apply star_quiet; [done|by rewrite Hh].
  - eexists. eapply (step_message _ j hub tag data kj k); [done|..]; by rewrite lookup_spmd, ?Hh, ?Hfj.
  - intros W' HW. apply star_step_inv in HW; [|done|by rewrite Hh]. unfold hub_step in HW. rewrite Hh in HW.
    destruct HW as (j' & data' & kj' & <-%Nat2Z.inj & _ & _ & Hj' & ->). rewrite Hfj in Hj'. by injection Hj' as <- <-.
Qed.

Lemma talk_recv_any Q f tag k : star f -> f hub = RecvAny tag k ->
  (exists j data kj, j <> hub /\ (j < n)%nat /\ f j = Send (Z.of_nat hub) tag data kj) ->
  (forall j data kj, j <> hub -> (j < n)%nat -> f j = Send (Z.of_nat hub) tag data kj ->
     talk Q (spmd n (<[hub := k (Z.of_nat j) data]> (<[j := kj]> f)))) -> talk Q (spmd n f).
Proof.
  intros Hs Hh (j & data & kj & Hne & Hj & Hfj) HQ. apply talk_step.
  - apply star_quiet; [done|by rewrite Hh].
  - eexists. eapply (step_message_any _ j hub tag data kj k); [done|..]; by rewrite lookup_spmd, ?Hh, ?Hfj.
  - intros W' HW. apply star_step_inv in HW; [|done|by rewrite Hh]. unfold hub_step in HW. rewrite Hh in HW.
    destruct HW as (j' & data' & kj' & Hne' & Hlt' & Hj' & ->). by apply HQ.
Qed.

Lemma talk_probe Q f tag k : star f -> f hub = Probe tag k ->
  talk Q (spmd n (<[hub := k None]> f)) ->
  (forall j data kj, j <> hub -> (j < n)%nat -> f j = Send (Z.of_nat hub) tag data kj ->
     talk Q (spmd n (<[hub := k (Some (Z.of_nat j))]> f))) -> talk Q (spmd n f).
Proof.
  intros Hs Hh HN HQ. apply talk_step.
  - apply star_quiet; [done|by rewrite Hh].
  - eexists. eapply (step_probe_miss _ hub tag k). by rewrite lookup_spmd, Hh.
  - intros W' HW. apply star_step_inv in HW; [|done|by rewrite Hh]. unfold hub_step in HW. rewrite Hh in HW.
    destruct HW as [->|(j' & data' & kj' & Hne' & Hlt' & Hj' & ->)]; [done|by eapply HQ].
Qed.
End Hub.
