(* ===== verification/Placement.v ===== *)
(** * Placement: broadcast, scatter and gather over MPI

    Models [src/placement.rs]: every rank runs the program below over a
    duplicated communicator ([Mpi]).  A preflight compares the arguments of all
    ranks; every phase that can fail on some rank ends with [converge], in which
    the failure of the lowest rank becomes the error of all.  [size] and [rank]
    are those of the communicator, [main] the answer of [is_thread_main]. *)
From Stdlib Require Import FunctionalExtensionality.
From stdpp Require Import functions.
From S2P Require Import Prelude Text Wire Mpi.

Definition HEADER_TAG : Z := 2.
Definition PAYLOAD_TAG : Z := 3.
Definition FRAME_ID : Z := 0.
Definition FRAME_ITEMS : Z := 1.

Inductive Operation : Type := Op_Broadcast | Op_Scatter | Op_Gather.

Definition Operation_code (o : Operation) : Z :=
  match o with Op_Broadcast => 0 | Op_Scatter => 1 | Op_Gather => 2 end.
Definition message_kind (o : Operation) : MessageKind :=
  match o with Op_Broadcast => Kind_Broadcast | Op_Scatter => Kind_Scatter | Op_Gather => Kind_Gather end.

Inductive PlacementErrorKind : Type := Preflight | Wire_ | Protocol_.

Definition PlacementErrorKind_code (k : PlacementErrorKind) : Z :=
  match k with Preflight => 0 | Wire_ => 1 | Protocol_ => 2 end.
Definition PlacementErrorKind_from_code (code : Z) : option PlacementErrorKind :=
  if code =? 0 then Some Preflight else if code =? 1 then Some Wire_ else if code =? 2 then Some Protocol_ else None.

Record PlacementError : Type := mkPlacementError {
  error_kind : PlacementErrorKind; error_rank : option Z; error_message : text;
}.
Record Failure : Type := mkFailure { failure_kind : PlacementErrorKind; failure_message : text }.

Definition PlacementError_new (kind : PlacementErrorKind) (rank : option Z) (message : text) : PlacementError :=
  mkPlacementError kind rank (bounded message).
Definition Failure_new (kind : PlacementErrorKind) (message : text) : Failure :=
  mkFailure kind (bounded message).

Definition record_failure (slot : option Failure) (failure : Failure) : option Failure :=
  match slot with None => Some failure | Some f => Some f end.

Section Rank.
Context (size rank : Z) (main : bool).

Definition converge (local : option Failure) : Prog (option PlacementError) :=
  let candidate := if is_some local then rank else size in
  winner ← all_reduce Op_Min candidate;
  if winner =? size then mret None
  else if (winner <? 0) || (size <=? winner) then Abort 74
  else
    let is_winner := rank =? winner in
    if is_winner && negb (is_some local) then Abort 74
    else
      let mine := if is_winner then local else None in
      let kind := match mine with Some f => PlacementErrorKind_code (failure_kind f) | None => PlacementErrorKind_code Protocol_ end in
      let bytes := match mine with Some f => failure_message f | None => [] end in
      if i32_max <? len bytes then Abort 74
      else
        kind ← broadcast_z winner kind;
        length ← broadcast_z winner (len bytes);
        if (length <? 0) || (Z.of_nat MAX_ERROR_MESSAGE_BYTES <? length) then Abort 74
        else
          bytes ← broadcast_bytes winner (if is_winner then bytes else resize length bytes);
          match PlacementErrorKind_from_code kind with
          | None => Abort 74
          | Some kind =>
              if utf8_valid bytes then mret (Some (PlacementError_new kind (Some winner) bytes)) else Abort 74
          end.

Definition preflight_failure (operation : Operation) (root : Z) (local_shape : bool)
    (min_operation max_operation min_root max_root : Z) : option Failure :=
  if negb (min_operation =? max_operation) then Some (Failure_new Preflight (lit "placement operation mismatch"))
  else if negb (min_root =? max_root) then Some (Failure_new Preflight (lit "placement root mismatch"))
  else if (root <? 0) || (size <=? root) then Some (Failure_new Preflight (lit "placement root is out of range"))
  else if negb local_shape then Some (Failure_new Preflight (lit "placement input shape is invalid"))
  else if negb main then Some (Failure_new Preflight (lit "placement helper must run on the MPI main thread"))
  else None.

Definition preflight (operation : Operation) (root : Z) (local_shape : bool) : Prog (result PlacementError unit) :=
  let local_operation := Operation_code operation in
  min_operation ← all_reduce Op_Min local_operation;
  max_operation ← all_reduce Op_Max local_operation;
  min_root ← all_reduce Op_Min root;
  max_root ← all_reduce Op_Max root;
  e ← converge (preflight_failure operation root local_shape min_operation max_operation min_root max_root);
  mret (match e with Some error => Err error | None => Ok tt end).

(** ** Frames *)

Definition wire_failure (e : WireError) : Failure := Failure_new Wire_ (WireError_display e).

Definition send_frame (destination : Z) (operation : Operation) (payload : list byte) : Prog unit :=
  match Header_new (message_kind operation) Status_None FRAME_ID FRAME_ITEMS (len payload) with
  | Err _ => Abort 74
  | Ok header => Send destination HEADER_TAG (Header_encode header) (Send destination PAYLOAD_TAG payload (Ret tt))
  end.

Definition receive_frame (source : Z) : Prog (list byte * list byte) :=
  Recv source HEADER_TAG (fun header => Recv source PAYLOAD_TAG (fun payload => Ret (header, payload))).

Section Values.
Context {T : Type}
  (encode_to_vec : T -> result text (list byte))
  (decode_from_slice : list byte -> result text (T * Z)).

Definition encode (value : T) : Prog (result Failure (list byte)) :=
  failing wire_failure (encode_payload encode_to_vec value).

Definition decode_received (header_bytes payload : list byte) (operation : Operation) : Prog (result Failure T) :=
  header ←? failing wire_failure (map_err Raise (Header_decode header_bytes));
  if bool_decide (kind header <> message_kind operation) || bool_decide (status header <> Status_None)
     || negb (batch_id header =? FRAME_ID) || negb (item_count header =? FRAME_ITEMS)
  then Ret (Err (Failure_new Protocol_ (lit "invalid placement frame schema")))
  else
    _ ←? failing wire_failure (map_err Raise (checked_mpi_count (payload_len header)));
    _ ←? failing wire_failure (map_err Raise (checked_usize_length (payload_len header)));
    if negb (len payload =? payload_len header)
    then Ret (Err (Failure_new Protocol_ (lit "placement payload length does not match its header")))
    else
      _ ←? failing wire_failure (map_err Raise (checked_mpi_count (len payload)));
      failing wire_failure (decode_payload decode_from_slice payload).

(** [option.unwrap_or_else(|| abort(74))]. *)
Definition or_abort {A} (o : option A) : Prog A := match o with Some a => Ret a | None => Abort 74 end.

(** ** Broadcast *)

Definition ranks : list Z := map Z.of_nat (seq 0 (Z.to_nat size)).

Fixpoint send_all (root : Z) (payload : list byte) (destinations : list Z) : Prog unit :=
  match destinations with
  | [] => mret tt
  | destination :: rest =>
      (if negb (destination =? root) then send_frame destination Op_Broadcast payload else mret tt)
      ≫= fun _ => send_all root payload rest
  end.

Definition broadcast_encode (root : Z) (root_value : option T) : Prog (option (list byte) * option Failure) :=
  if rank =? root then
    match root_value with
    | Some value =>
        r ← encode value;
        mret (match r with Ok bytes => (Some bytes, None) | Err e => (None, Some e) end)
    | None => mret (None, Some (Failure_new Protocol_ (lit "missing root broadcast value")))
    end
  else mret (None, None).

(** The value received and the failure to receive it. *)
Definition receive_value (root : Z) (operation : Operation) : Prog (option T * option Failure) :=
  '(header, payload) ← receive_frame root;
  r ← decode_received header payload operation;
  mret (match r with Ok value => (Some value, None) | Err e => (None, Some e) end).

Definition broadcast_exchange (root : Z) (encoded : option (list byte)) : Prog (option T * option Failure) :=
  if rank =? root then
    payload ← or_abort encoded;
    send_all root payload ranks ≫= fun _ => mret (None, None)
  else receive_value root Op_Broadcast.

(** What follows the preflight. *)
Definition broadcast_rest (root : Z) (root_value : option T) : Prog (result PlacementError T) :=
  if size =? 1 then v ← or_abort root_value; mret (Ok v)
  else
    '(encoded, encode_failure) ← broadcast_encode root root_value;
    e ← converge encode_failure;
    match e with
    | Some error => mret (Err error)
    | None =>
        '(received, local_failure) ← broadcast_exchange root encoded;
        e ← converge local_failure;
        match e with
        | Some error => mret (Err error)
        | None => v ← or_abort (if rank =? root then root_value else received); mret (Ok v)
        end
    end.

Definition broadcast (root : Z) (root_value : option T) : Prog (result PlacementError T) :=
  Duplicate (
  _ ←? preflight Op_Broadcast root (Bool.eqb (rank =? root) (is_some root_value));
  broadcast_rest root root_value).

(** ** Scatter *)

(** [l[i]], a panic out of range. *)
Definition at_index {A} (l : list A) (i : Z) : Prog A :=
  match l !! Z.to_nat i with Some x => Ret x | None => Crash end.

Fixpoint preencode_loop (root : Z) (shards : list (option T)) (destinations : list Z)
    (encoded : list (option (list byte))) (failure : option Failure)
    : Prog (list (option (list byte)) * option Failure) :=
  match destinations with
  | [] => mret (encoded, failure)
  | destination :: rest =>
      if destination =? root then preencode_loop root shards rest encoded failure
      else
        shard ← at_index shards destination;
        match shard with
        | Some value =>
            r ← encode value;
            match r with
            | Ok bytes => preencode_loop root shards rest (<[Z.to_nat destination := Some bytes]> encoded) failure
            | Err error => preencode_loop root shards rest encoded (record_failure failure error)
            end
        | None => preencode_loop root shards rest encoded
            (record_failure failure (Failure_new Protocol_ (lit "missing scatter shard")))
        end
  end.

Definition preencode_scatter (shards : list (option T)) (root : Z)
    : Prog (option T * list (option (list byte)) * option Failure) :=
  local ← at_index shards root;
  '(encoded, failure) ← preencode_loop root (<[Z.to_nat root := None]> shards) ranks
    (replicate (Z.to_nat size) None) None;
  mret (local, encoded, failure).

Fixpoint send_each (root : Z) (encoded : list (option (list byte))) (destinations : list Z) : Prog unit :=
  match destinations with
  | [] => mret tt
  | destination :: rest =>
      (if negb (destination =? root) then
         slot ← at_index encoded destination;
         payload ← or_abort slot;
         send_frame destination Op_Scatter payload
       else mret tt)
      ≫= fun _ => send_each root encoded rest
  end.

Definition scatter_exchange (root : Z) (encoded : list (option (list byte))) : Prog (option T * option Failure) :=
  if rank =? root then send_each root encoded ranks ≫= fun _ => mret (None, None)
  else receive_value root Op_Scatter.

Definition scatter_encode (root : Z) (shards : option (list (option T)))
    : Prog (option T * list (option (list byte)) * option Failure) :=
  if rank =? root then shards ← or_abort shards; preencode_scatter shards root
  else mret (None, [], None).

Definition scatter_rest (root : Z) (root_shards : option (list T)) : Prog (result PlacementError T) :=
  let shards := option_map (map Some) root_shards in
  if size =? 1 then
    match shards with
    | Some shards => slot ← at_index shards 0; v ← or_abort slot; mret (Ok v)
    | None => Abort 74
    end
  else
    '(local_value, encoded, encode_failure) ← scatter_encode root shards;
    e ← converge encode_failure;
    match e with
    | Some error => mret (Err error)
    | None =>
        '(received, local_failure) ← scatter_exchange root encoded;
        e ← converge local_failure;
        match e with
        | Some error => mret (Err error)
        | None => v ← or_abort (if rank =? root then local_value else received); mret (Ok v)
        end
    end.

Definition scatter_shape (root : Z) (root_shards : option (list T)) : bool :=
  Bool.eqb (rank =? root) (is_some root_shards)
  && (negb (rank =? root) || match root_shards with Some shards => len shards =? size | None => false end).

Definition scatter (root : Z) (root_shards : option (list T)) : Prog (result PlacementError T) :=
  Duplicate (
  _ ←? preflight Op_Scatter root (scatter_shape root root_shards);
  scatter_rest root root_shards).

(** ** Gather *)

Definition gather_encode (root : Z) (value : T) : Prog (option (list byte) * option Failure) :=
  if rank =? root then mret (None, None)
  else
    r ← encode value;
    mret (match r with Ok bytes => (Some bytes, None) | Err e => (None, Some e) end).

Fixpoint receive_all (root : Z) (sources : list Z) (gathered : list (option T)) (failure : option Failure)
    : Prog (list (option T) * option Failure) :=
  match sources with
  | [] => mret (gathered, failure)
  | source :: rest =>
      if source =? root then receive_all root rest gathered failure
      else
        '(header, payload) ← receive_frame source;
        r ← decode_received header payload Op_Gather;
        match r with
        | Ok value => receive_all root rest (<[Z.to_nat source := Some value]> gathered) failure
        | Err error => receive_all root rest gathered (record_failure failure error)
        end
  end.

Definition gather_exchange (root : Z) (value : T) (encoded : option (list byte))
    : Prog (option (list (option T)) * option Failure) :=
  if rank =? root then
    '(gathered, failure) ← receive_all root ranks
       (<[Z.to_nat root := Some value]> (replicate (Z.to_nat size) None)) None;
    mret (Some gathered, failure)
  else
    payload ← or_abort encoded;
    send_frame root Op_Gather payload ≫= fun _ => mret (None, None).

Fixpoint all_present (l : list (option T)) : Prog (list T) :=
  match l with
  | [] => mret []
  | value :: rest => v ← or_abort value; vs ← all_present rest; mret (v :: vs)
  end.

Definition gather_rest (root : Z) (value : T) : Prog (result PlacementError (option (list T))) :=
  if size =? 1 then mret (Ok (Some [value]))
  else
    '(encoded, encode_failure) ← gather_encode root value;
    e ← converge encode_failure;
    match e with
    | Some error => mret (Err error)
    | None =>
        '(gathered, local_failure) ← gather_exchange root value encoded;
        e ← converge local_failure;
        match e with
        | Some error => mret (Err error)
        | None =>
            if rank =? root then
              values ← or_abort gathered;
              output ← all_present values;
              mret (Ok (Some output))
            else mret (Ok None)
        end
    end.

Definition gather (root : Z) (value : T) : Prog (result PlacementError (option (list T))) :=
  Duplicate (
  _ ←? preflight Op_Gather root true;
  gather_rest root value).
End Values.
End Rank.

(** ** Convergence *)

Fixpoint first_failure (local : nat -> option Failure) (rs : list nat) : option (nat * Failure) :=
  match rs with
  | [] => None
  | r :: rest => match local r with Some f => Some (r, f) | None => first_failure local rest end
  end.

(** The error of all ranks: the failure of the lowest rank that has one. *)
Definition verdict (n : nat) (local : nat -> option Failure) : option PlacementError :=
  match first_failure local (seq 0 n) with
  | Some (r, f) => Some (mkPlacementError (failure_kind f) (Some (Z.of_nat r)) (failure_message f))
  | None => None
  end.

Definition failure_wf (f : Failure) : Prop :=
  utf8_valid (failure_message f) = true /\ (length (failure_message f) <= MAX_ERROR_MESSAGE_BYTES)%nat.

Lemma Failure_new_wf k m : utf8_valid m = true -> failure_wf (Failure_new k m).
Proof. apply bounded_wf. Qed.
Lemma wire_failure_wf e : wire_error_wf e -> failure_wf (wire_failure e).
Proof. intros He. by apply Failure_new_wf, wire_error_display_valid. Qed.

Lemma first_failure_spec local k m :
  match first_failure local (seq k m) with
  | Some (r, f) => (k <= r < k + m)%nat /\ local r = Some f /\ forall r', (k <= r' < r)%nat -> local r' = None
  | None => forall r, (k <= r < k + m)%nat -> local r = None
  end.
Proof.
  revert k. induction m as [|m IH]; intros k; cbn [seq first_failure]; [intros r Hr; lia|].
  destruct (local k) as [f|] eqn:Hk; [split; [lia|]; split; [done|]; intros; lia|].
  specialize (IH (S k)). destruct (first_failure local (seq (S k) m)) as [[r f]|].
  - destruct IH as (Hr & Hf & Hlow). split; [lia|]. split; [done|]. intros r' Hr'.
    destruct (decide (r' = k)) as [->|]; [done|]. apply Hlow. lia.
  - intros r Hr. destruct (decide (r = k)) as [->|]; [done|]. apply IH. lia.
Qed.

Lemma PlacementErrorKind_round k : PlacementErrorKind_from_code (PlacementErrorKind_code k) = Some k.
Proof. by destruct k. Qed.

Section Converge.
Context {R : Type} (n : nat) (Hn : (0 < n)%nat).

Lemma converge_runs local (K : nat -> option PlacementError -> Prog R) Q :
  (forall r f, (r < n)%nat -> local r = Some f -> failure_wf f) ->
  Runs n (fun r => K r (verdict n local)) Q ->
  Runs n (fun r => converge (Z.of_nat n) (Z.of_nat r) (local r) ≫= K r) Q.
Proof.
  intros Hwf HQ. unfold converge, all_reduce. cbv zeta. cbn [mbind Prog_bind prog_bind].
  apply (runs_allreduce n Hn). set (v := fun r => if is_some (local r) then Z.of_nat r else Z.of_nat n).
  unfold verdict in HQ. pose proof (first_failure_spec local 0 n) as Hfirst.
  destruct (first_failure local (seq 0 n)) as [[w f]|].
  - destruct Hfirst as (Hw & Hf & Hlow).
    assert (Hred : reduce Op_Min (map v (seq 0 n)) = Z.of_nat w).
    { destruct (reduce_spec n Hn v Op_Min) as (r & Hr & -> & Hmin). pose proof (Hmin w ltac:(lia)) as Hvw.
      unfold v in *. rewrite Hf in Hvw. cbn [is_some] in Hvw.
      destruct (decide (r < w)%nat) as [Hlt|Hge]; [rewrite Hlow by lia; cbn; rewrite Hlow in Hvw by lia; cbn in Hvw; lia|].
      destruct (is_some (local r)); lia. }
    rewrite Hred. destruct (Hwf w f ltac:(lia) Hf) as [Hv Hlen].
    assert (Hlf : len (failure_message f) <= 4096) by (unfold len, MAX_ERROR_MESSAGE_BYTES in *; lia).
    eapply runs_ext with (f := fun r => BcastZ (Z.of_nat w) (if decide (r = w) then PlacementErrorKind_code (failure_kind f) else 2)
      (fun kind => BcastZ (Z.of_nat w) (if decide (r = w) then len (failure_message f) else 0) (fun length =>
        (if (length <? 0) || (Z.of_nat MAX_ERROR_MESSAGE_BYTES <? length) then Abort 74
         else BcastBytes (Z.of_nat w) (if decide (r = w) then failure_message f else resize length [])
           (fun bytes => match PlacementErrorKind_from_code kind with
             | None => Abort 74
             | Some kind => if utf8_valid bytes then mret (Some (PlacementError_new kind (Some (Z.of_nat w)) bytes)) else Abort 74
             end)) ≫= K r))).
    { intros r Hr. rewrite (proj2 (Z.eqb_neq _ _)) by lia. rewrite (proj2 (Z.ltb_ge _ _)) by lia.
      rewrite (proj2 (Z.leb_gt _ _)) by lia. cbn [orb].
      destruct (decide (r = w)) as [->|Hne].
      - rewrite Z.eqb_refl, Hf. cbn [is_some negb andb]. rewrite (proj2 (Z.ltb_ge _ _)) by (unfold i32_max; lia). done.
      - rewrite (proj2 (Z.eqb_neq _ _)) by lia. cbn [andb]. done. }
    apply runs_bcast; [lia..|]. cbv beta. apply runs_bcast; [lia..|]. cbv beta.
    destruct (decide (w = w)) as [_|]; [|done].
    rewrite (proj2 (Z.ltb_ge _ _)) by apply len_nonneg. rewrite (proj2 (Z.ltb_ge _ _)) by done. cbn [orb].
    cbn [mbind Prog_bind prog_bind]. rewrite PlacementErrorKind_round. apply runs_bcast_bytes; [lia|lia| |].
    { intros r Hr. destruct (decide (w = w)) as [_|]; [|done]. destruct (decide (r = w)); [done|].
      unfold resize, len. cbn [app]. rewrite Nat2Z.id, length_take, length_replicate. lia. }
    destruct (decide (w = w)) as [_|]; [|done]. rewrite Hv. unfold PlacementError_new. by rewrite bounded_id.
  - assert (Hred : reduce Op_Min (map v (seq 0 n)) = Z.of_nat n).
    { apply reduce_const; [done|]. intros r Hr. unfold v. by rewrite Hfirst by lia. }
    rewrite Hred. eapply runs_ext; [|exact HQ]. intros r Hr. cbv beta. by rewrite Z.eqb_refl.
Qed.
End Converge.

(** ** Preflight *)

Section PreflightRuns.
Context (n : nat) (Hn : (0 < n)%nat).
Context (main : nat -> bool) (op : nat -> Operation) (root : nat -> Z) (shape : nat -> bool).

(** The failure each rank reports: disagreement of the ranks first, then its own. *)
Definition preflight_of (r : nat) : option Failure :=
  let codes := map (fun r => Operation_code (op r)) (seq 0 n) in
  let roots := map root (seq 0 n) in
  preflight_failure (Z.of_nat n) (main r) (op r) (root r) (shape r)
    (reduce Op_Min codes) (reduce Op_Max codes) (reduce Op_Min roots) (reduce Op_Max roots).

Lemma preflight_failure_wf size m o z b a1 a2 a3 a4 f :
  preflight_failure size m o z b a1 a2 a3 a4 = Some f -> failure_wf f /\ failure_kind f = Preflight.
Proof.
  unfold preflight_failure. intros Hf.
  repeat (destruct (negb _) in Hf || destruct (_ || _) in Hf);
    try discriminate Hf; injection Hf as <-; (split; [by apply Failure_new_wf|done]).
Qed.

Lemma preflight_runs {R} (K : nat -> result PlacementError unit -> Prog R) Q :
  Runs n (fun r => K r (match verdict n preflight_of with Some e => Err e | None => Ok tt end)) Q ->
  Runs n (fun r => preflight (Z.of_nat n) (Z.of_nat r) (main r) (op r) (root r) (shape r) ≫= K r) Q.
Proof.
  intros HQ. unfold preflight, all_reduce. cbn [mbind Prog_bind prog_bind].
  do 4 (apply (runs_allreduce n Hn)). cbv beta.
  eapply runs_ext; [|apply (converge_runs n Hn preflight_of
    (fun r e => K r (match e with Some error => Err error | None => Ok tt end))); [|exact HQ]].
  - intros r Hr. cbv beta. by rewrite prog_bind_assoc.
  - intros r f _ Hf. exact (proj1 (preflight_failure_wf _ _ _ _ _ _ _ _ _ _ Hf)).
Qed.

(** When the preflight passes, the ranks agree and every one's arguments are valid. *)
Lemma preflight_passed : verdict n preflight_of = None ->
  exists rho, (rho < n)%nat /\ forall r, (r < n)%nat ->
    op r = op 0%nat /\ root r = Z.of_nat rho /\ shape r = true /\ main r = true.
Proof.
  intros Hv. unfold verdict in Hv. pose proof (first_failure_spec preflight_of 0 n) as Hall.
  destruct (first_failure preflight_of (seq 0 n)) as [[w f]|]; [done|].
  assert (H0 : forall r, (r < n)%nat -> preflight_of r = None) by (intros r Hr; apply Hall; lia).
  assert (Hagree : forall r, (r < n)%nat ->
    reduce Op_Min (map (fun r => Operation_code (op r)) (seq 0 n)) = reduce Op_Max (map (fun r => Operation_code (op r)) (seq 0 n))
    /\ reduce Op_Min (map root (seq 0 n)) = reduce Op_Max (map root (seq 0 n))
    /\ 0 <= root r < Z.of_nat n /\ shape r = true /\ main r = true).
  { intros r Hr. specialize (H0 r Hr). unfold preflight_of, preflight_failure in H0.
    destruct (_ =? _) eqn:H1 in H0; [|discriminate H0]. destruct (_ =? _) eqn:H2 in H0; [|discriminate H0].
    destruct (_ || _) eqn:H3 in H0; [discriminate H0|]. destruct (shape r); [|discriminate H0].
    destruct (main r); [|discriminate H0]. zbool. lia. }
  destruct (Hagree 0%nat Hn) as (Hops & Hroots & Hrange & _).
  exists (Z.to_nat (root 0%nat)). split; [lia|]. intros r Hr. destruct (Hagree r Hr) as (_ & _ & _ & Hs & Hm).
  pose proof (reduce_agree n Hn _ Hops) as Ho. pose proof (reduce_agree n Hn _ Hroots) as Hro.
  split_and!; [|rewrite Z2Nat.id by lia; by rewrite (Hro r Hr), (Hro 0%nat Hn)|done|done].
  pose proof (Ho r Hr) as H1. rewrite <- (Ho 0%nat Hn) in H1. by destruct (op r), (op 0%nat).
Qed.
End PreflightRuns.

(** ** Frames *)

Section Frames.
Context {T : Type}
  (encode_to_vec : T -> result text (list byte))
  (decode_from_slice : list byte -> result text (T * Z)).
(** [bincode] decodes what it encoded, using all of it; its errors are strings. *)
Context (codec_round_trip : forall v bytes, encode_to_vec v = Ok bytes -> decode_from_slice bytes = Ok (v, len bytes)).
Context (codec_error_utf8 : forall v e, encode_to_vec v = Err e -> utf8_valid e = true).

Definition encoded_of (v : T) : result Failure (list byte) :=
  match encode_payload encode_to_vec v with
  | Ok bytes => Ok bytes
  | Err (Raise e) => Err (wire_failure e)
  | Err Panic => Err (mkFailure Wire_ [])
  end.

Lemma encode_eq v : encode encode_to_vec v = Ret (encoded_of v).
Proof.
  unfold encode, encoded_of, failing, encode_payload, detail_err. destruct (encode_to_vec v) as [bytes|e] eqn:He; rcbn.
  - unfold validate_payload_len, fail_if. by destruct (negb _).
  - destruct (truncate_message_cut e) as (t & -> & _); [by eapply codec_error_utf8|]. done.
Qed.

Lemma encoded_of_err v f : encoded_of v = Err f -> failure_wf f /\ failure_kind f = Wire_.
Proof.
  unfold encoded_of, encode_payload, detail_err. destruct (encode_to_vec v) as [bytes|e] eqn:He; rcbn.
  - unfold validate_payload_len, fail_if. destruct (negb _); [|done]. intros [= <-]. split; [by apply wire_failure_wf|done].
  - destruct (truncate_message_cut e) as (t & -> & Ht); [by eapply codec_error_utf8|]. intros [= <-].
    split; [|done]. apply wire_failure_wf. apply Ht.
Qed.

Lemma encoded_of_ok v bytes : encoded_of v = Ok bytes -> encode_to_vec v = Ok bytes /\ len bytes <= MAX_WIRE_BYTES.
Proof.
  unfold encoded_of, encode_payload, detail_err. destruct (encode_to_vec v) as [b|e] eqn:He; rcbn.
  - unfold validate_payload_len, fail_if. destruct (negb _) eqn:Hl; [done|]. intros [= <-]. by zbool.
  - by destruct (truncate_message e).
Qed.

(** The header of an encoded value is accepted, and its frame decodes to the value. *)
Lemma frame_decodes v bytes op : encoded_of v = Ok bytes -> exists h,
  Header_new (message_kind op) Status_None FRAME_ID FRAME_ITEMS (len bytes) = Ok h
  /\ decode_received decode_from_slice (Header_encode h) bytes op = Ret (Ok v).
Proof.
  intros [He Hl]%encoded_of_ok. pose proof (len_nonneg bytes).
  exists (mkHeader PROTOCOL_VERSION (message_kind op) Status_None FRAME_ID FRAME_ITEMS (len bytes)).
  assert (Hlen : (len bytes <=? MAX_WIRE_BYTES) = true) by (by apply Z.leb_le).
  split.
  { unfold Header_new, validate_payload_len. rewrite Hlen. by destruct op. }
  unfold decode_received. rewrite header_encode_layout, Header_decode_layout.
  2: { unfold header_wf, in_u. cbn. unfold MAX_WIRE_BYTES, i32_max in *. destruct op; split_and!; try done; lia. }
  cbn [map_err failing try_bind mbind Prog_bind prog_bind kind status batch_id item_count payload_len].
  rewrite !bool_decide_false by (intros []; done). cbn [orb]. unfold checked_mpi_count, checked_usize_length.
  change i32_max with MAX_WIRE_BYTES. rewrite Hlen.
  replace (len bytes <=? usize_max) with true by (symmetry; apply Z.leb_le; unfold MAX_WIRE_BYTES, i32_max, usize_max, u64_max in *; lia).
  cbn. rewrite Z.eqb_refl. cbn. unfold decode_payload, validate_payload_len. rewrite Hlen. cbn.
  rewrite (codec_round_trip _ _ He). cbn. rewrite Z.eqb_refl. done.
Qed.

(** ** Exchanges *)

Section Exchange.
Context (n hub : nat) (Hhub : (hub < n)%nat) (op : Operation) (val : nat -> T) (pay : nat -> list byte).
Context (encoded : forall j, (j < n)%nat -> j <> hub -> encoded_of (val j) = Ok (pay j)).

Abbreviation Received := (option T * option Failure)%type (only parsing).
Abbreviation receiving := (receive_value decode_from_slice (Z.of_nat hub) op) (only parsing).

(** The hub sends a frame to every rank of [ds] in turn; the others receive one each. *)
Lemma deliver_talk (P : list nat -> Prog Received) res :
  P [] = Ret res ->
  (forall d rest, (d < n)%nat -> P (d :: rest) =
     if decide (d = hub) then P rest
     else send_frame (Z.of_nat d) op (pay d) ≫= fun _ => P rest) ->
  forall ds f, NoDup ds -> Forall (fun d => (d < n)%nat) ds -> f hub = P ds ->
  (forall j, (j < n)%nat -> j <> hub -> f j = if decide (j ∈ ds) then receiving else Ret (Some (val j), None)) ->
  talk (returned n (fun x => x hub = res /\ forall j, (j < n)%nat -> j <> hub -> x j = (Some (val j), None))) (spmd n f).
Proof.
  intros HP0 HP ds. induction ds as [|d ds IH]; intros f Hnd Hlt Hh Hf.
  { apply talk_done. exists (fun r => if decide (r = hub) then res else (Some (val r), None)). split.
    - apply spmd_ext. intros r Hr. destruct (decide (r = hub)) as [->|Hne]; [by rewrite Hh|].
      rewrite Hf by done. by rewrite decide_False by set_solver.
    - split; [by rewrite decide_True by done|]. intros j _ Hj. by rewrite decide_False. }
  apply NoDup_cons in Hnd as [Hni Hnd]. apply Forall_cons in Hlt as [Hd Hlt]. rewrite (HP d ds Hd) in Hh.
  assert (Hstar : star n hub f).
  { intros r Hr Hne. rewrite Hf by done. by destruct (decide (r ∈ d :: ds)). }
  destruct (decide (d = hub)) as [->|Hne].
  { apply IH; [done|done|done|]. intros j Hj Hjh. rewrite Hf by done.
    destruct (decide (j ∈ ds)); [by rewrite decide_True by set_solver|by rewrite decide_False by set_solver]. }
  destruct (frame_decodes _ _ op (encoded d Hd Hne)) as (h & Hnew & Hdec).
  unfold send_frame in Hh. rewrite Hnew in Hh. cbn [mbind Prog_bind prog_bind] in Hh.
  pose proof (Hf d Hd Hne) as Hfd. rewrite decide_True in Hfd by set_solver. unfold receive_value, receive_frame in Hfd.
  cbn [mbind Prog_bind prog_bind] in Hfd.
  eapply (talk_send n hub Hhub _ f d); [done|done|done|exact Hh|exact Hfd|]. cbv beta.
  eapply (talk_send n hub Hhub _ _ d); [|done|done|by rewrite fn_lookup_insert|
    by rewrite fn_lookup_insert_ne, fn_lookup_insert by done|].
  { intros r Hr Hrh. rewrite fn_lookup_insert_ne by done.
    destruct (decide (r = d)) as [->|Hrd]; [by rewrite fn_lookup_insert|].
    rewrite fn_lookup_insert_ne by done. by apply Hstar. }
  cbv beta. rewrite Hdec. cbn [mret Prog_ret prog_bind mbind Prog_bind]. apply IH; [done|done|by rewrite fn_lookup_insert|].
  intros j Hj Hjh. rewrite fn_lookup_insert_ne by done. destruct (decide (j = d)) as [->|Hjd].
  - rewrite fn_lookup_insert. by rewrite decide_False.
  - rewrite !fn_lookup_insert_ne by done. rewrite Hf by done.
    destruct (decide (j ∈ ds)); [by rewrite decide_True by set_solver|by rewrite decide_False by set_solver].
Qed.

(** The hub receives a frame from every rank of [ds] in turn; the others send one each. *)
Lemma collect_talk {X} (fin : list (option T) -> X) (other : X) :
  forall ds g f, NoDup ds -> Forall (fun d => (d < n)%nat) ds -> op = Op_Gather ->
  f hub = (receive_all decode_from_slice (Z.of_nat hub) (map Z.of_nat ds) g None
    ≫= fun '(gathered, failure) => Ret (fin gathered, failure)) ->
  (forall j, (j < n)%nat -> j <> hub -> f j =
     if decide (j ∈ ds) then send_frame (Z.of_nat hub) op (pay j) ≫= fun _ => Ret (other, None)
     else Ret (other, None)) ->
  talk (returned n (fun x =>
    x hub = (fin (foldl (fun g d => if decide (d = hub) then g else <[d := Some (val d)]> g) g ds), @None Failure)
    /\ forall j, (j < n)%nat -> j <> hub -> x j = (other, None))) (spmd n f).
Proof.
  intros ds. induction ds as [|d ds IH]; intros g f Hnd Hlt Hop Hh Hf.
  { apply talk_done. exists (fun r => if decide (r = hub) then (fin g, None) else (other, None)). split.
    - apply spmd_ext. intros r Hr. destruct (decide (r = hub)) as [->|Hne]; [by rewrite Hh|].
      rewrite Hf by done. by rewrite decide_False by set_solver.
    - split; [by rewrite decide_True by done|]. intros j _ Hj. by rewrite decide_False. }
  apply NoDup_cons in Hnd as [Hni Hnd]. apply Forall_cons in Hlt as [Hd Hlt]. cbn [map receive_all foldl] in Hh |- *.
  assert (Hsend : forall j, (j < n)%nat -> j <> hub -> exists h,
    (send_frame (Z.of_nat hub) op (pay j) ≫= fun _ => Ret (other, @None Failure))
      = Send (Z.of_nat hub) HEADER_TAG (Header_encode h) (Send (Z.of_nat hub) PAYLOAD_TAG (pay j) (Ret (other, None)))
    /\ decode_received decode_from_slice (Header_encode h) (pay j) op = Ret (Ok (val j))).
  { intros j Hj Hjh. destruct (frame_decodes _ _ op (encoded j Hj Hjh)) as (h & Hnew & Hdec).
    exists h. split; [|done]. unfold send_frame. by rewrite Hnew. }
  assert (Hstar : star n hub f).
  { intros r Hr Hne. rewrite Hf by done. destruct (decide (r ∈ d :: ds)); [|done].
    by destruct (Hsend r Hr Hne) as (h & -> & _). }
  assert (Hothers : forall j, (j < n)%nat -> j <> hub -> j <> d -> f j =
    if decide (j ∈ ds) then send_frame (Z.of_nat hub) op (pay j) ≫= fun _ => Ret (other, None) else Ret (other, None)).
  { intros j Hj Hjh Hjd. rewrite Hf by done.
    destruct (decide (j ∈ ds)); [by rewrite decide_True by set_solver|by rewrite decide_False by set_solver]. }
  destruct (decide (d = hub)) as [->|Hne].
  { rewrite Z.eqb_refl in Hh. apply IH; [done|done|done|done|]. intros j Hj Hjh. by apply Hothers. }
  rewrite (proj2 (Z.eqb_neq _ _)) in Hh by lia.
  destruct (Hsend d Hd Hne) as (h & Hfr & Hdec). pose proof (Hf d Hd Hne) as Hfd.
  rewrite decide_True in Hfd by set_solver. rewrite Hfr in Hfd.
  unfold receive_frame in Hh. cbn [mbind Prog_bind prog_bind] in Hh.
  eapply (talk_recv n hub Hhub _ f d); [done|done|done|exact Hh|exact Hfd|]. cbv beta.
  eapply (talk_recv n hub Hhub _ _ d); [|done|done|by rewrite fn_lookup_insert|
    by rewrite fn_lookup_insert_ne, fn_lookup_insert by done|].
  { intros r Hr Hrh. rewrite fn_lookup_insert_ne by done.
    destruct (decide (r = d)) as [->|Hrd]; [by rewrite fn_lookup_insert|].
    rewrite fn_lookup_insert_ne by done. by apply Hstar. }
  cbv beta. rewrite Hop in Hdec. rewrite Hdec. cbn [prog_bind mbind Prog_bind]. rewrite Nat2Z.id.
  apply (IH (<[d := Some (val d)]> g)); [done|done|done|by rewrite fn_lookup_insert|].
  intros j Hj Hjh. rewrite fn_lookup_insert_ne by done. destruct (decide (j = d)) as [->|Hjd].
  - rewrite fn_lookup_insert. by rewrite decide_False.
  - rewrite !fn_lookup_insert_ne by done. by apply Hothers.
Qed.
End Exchange.
End Frames.

(** ** Phases that end with a convergence *)

Section Phases.
Context (n : nat) (Hn : (0 < n)%nat).

Lemma converge_or {B R} ef (rest : nat -> Prog (result PlacementError B)) (L : nat -> result PlacementError B -> Prog R) Q :
  (forall r f, (r < n)%nat -> ef r = Some f -> failure_wf f) ->
  match verdict n ef with
  | Some e => Runs n (fun r => L r (Err e)) Q
  | None => Runs n (fun r => rest r ≫= L r) Q
  end ->
  Runs n (fun r => (converge (Z.of_nat n) (Z.of_nat r) (ef r) ≫= fun e =>
    match e with Some error => mret (Err error) | None => rest r end) ≫= L r) Q.
Proof.
  intros Hwf HQ. eapply runs_ext.
  { intros r _. rewrite prog_bind_assoc. reflexivity. }
  apply (converge_runs n Hn ef (fun r e => match e with Some error => mret (Err error) | None => rest r end ≫= L r)); [done|].
  by destruct (verdict n ef).
Qed.

Lemma exchange_runs {X B R} (ex : nat -> Prog (X * option Failure)) (y : nat -> X)
    (fin : nat -> X -> Prog (result PlacementError B)) (L : nat -> result PlacementError B -> Prog R) Q :
  talk (returned n (fun x => forall r, (r < n)%nat -> x r = (y r, None))) (spmd n ex) ->
  Runs n (fun r => fin r (y r) ≫= L r) Q ->
  Runs n (fun r => (ex r ≫= fun '(received, local_failure) =>
    converge (Z.of_nat n) (Z.of_nat r) local_failure ≫= fun e =>
    match e with Some error => mret (Err error) | None => fin r received end) ≫= L r) Q.
Proof.
  intros Hex HQ. eapply runs_ext.
  { intros r _. rewrite prog_bind_assoc. reflexivity. }
  eapply (runs_bind (fun r (a : X * option Failure) => (let '(received, local_failure) := a in
    converge (Z.of_nat n) (Z.of_nat r) local_failure ≫= fun e =>
    match e with Some error => mret (Err error) | None => fin r received end) ≫= L r)); [by intros r []|exact Hex|].
  cbv beta. intros x Hx. eapply (runs_ext n _ (fun r => (converge (Z.of_nat n) (Z.of_nat r) None ≫= fun e =>
    match e with Some error => mret (Err error) | None => fin r (y r) end) ≫= L r)).
  { intros r Hr. by rewrite Hx. }
  apply (converge_or (fun _ => None) (fun r => fin r (y r))); [done|].
  unfold verdict. pose proof (first_failure_spec (fun _ => None) 0 n) as Hno.
  destruct (first_failure (fun _ => None) (seq 0 n)) as [[w f]|]; [|done]. by destruct Hno as (_ & Hf & _).
Qed.
End Phases.

(** ** The three collectives after their preflight *)

Lemma of_nat_eqb (a b : nat) : (Z.of_nat a =? Z.of_nat b) = bool_decide (a = b).
Proof. case_bool_decide; [subst; apply Z.eqb_refl|apply Z.eqb_neq; lia]. Qed.

Section Rest.
Context {T : Type}
  (encode_to_vec : T -> result text (list byte))
  (decode_from_slice : list byte -> result text (T * Z)).
Context (codec_round_trip : forall v bytes, encode_to_vec v = Ok bytes -> decode_from_slice bytes = Ok (v, len bytes)).
Context (codec_error_utf8 : forall v e, encode_to_vec v = Err e -> utf8_valid e = true).
Context (n : nat) (Hn : (1 < n)%nat) (rho : nat) (Hrho : (rho < n)%nat).

Abbreviation size := (Z.of_nat n) (only parsing).
Abbreviation root := (Z.of_nat rho) (only parsing).
Abbreviation encoded_of := (encoded_of encode_to_vec).

Definition failure_of (v : T) : option Failure := match encoded_of v with Ok _ => None | Err f => Some f end.
Definition bytes_of (v : T) : list byte := match encoded_of v with Ok bytes => bytes | Err _ => [] end.

Lemma failure_of_wf v f : failure_of v = Some f -> failure_wf f.
Proof.
  unfold failure_of. destruct (encoded_of v) eqn:He; [done|]. intros [= <-].
  by apply (encoded_of_err encode_to_vec codec_error_utf8) in He as [? _].
Qed.
Lemma failure_of_none v : failure_of v = None -> encoded_of v = Ok (bytes_of v).
Proof. unfold failure_of, bytes_of. by destruct (encoded_of v). Qed.

Lemma ranks_eq : ranks size = map Z.of_nat (seq 0 n).
Proof. unfold ranks. by rewrite Nat2Z.id. Qed.

Lemma seq_all : NoDup (seq 0 n) /\ Forall (fun d => (d < n)%nat) (seq 0 n).
Proof. split; [apply NoDup_seq|]. apply Forall_forall. intros d Hd. apply elem_of_seq in Hd. lia. Qed.

Lemma none_fails (ef : nat -> option Failure) : verdict n ef = None -> forall r, (r < n)%nat -> ef r = None.
Proof.
  unfold verdict. intros Hv r Hr. pose proof (first_failure_spec ef 0 n) as Hno.
  destruct (first_failure ef (seq 0 n)) as [[w f]|]; [done|]. apply Hno. lia.
Qed.

(** *** Broadcast *)

Lemma broadcast_rest_runs {R} value v (L : nat -> result PlacementError T -> Prog R) Q :
  value rho = Some v -> (forall r, (r < n)%nat -> r <> rho -> value r = None) ->
  match verdict n (fun r => if decide (r = rho) then failure_of v else None) with
  | Some e => Runs n (fun r => L r (Err e)) Q
  | None => Runs n (fun r => L r (Ok v)) Q
  end ->
  Runs n (fun r => broadcast_rest size (Z.of_nat r) encode_to_vec decode_from_slice root (value r) ≫= L r) Q.
Proof.
  intros Hv Hnone HQ. set (ef := fun r => if decide (r = rho) then failure_of v else None) in *.
  set (enc := fun r : nat => if decide (r = rho) then Some (bytes_of v) else None).
  eapply (runs_ext n _ (fun r => (converge size (Z.of_nat r) (ef r) ≫= fun e =>
    match e with Some error => mret (Err error) | None =>
      broadcast_exchange size (Z.of_nat r) decode_from_slice root (match failure_of v with Some _ => None | None => enc r end)
      ≫= fun '(received, local_failure) => converge size (Z.of_nat r) local_failure ≫= fun e =>
        match e with Some error => mret (Err error)
        | None => or_abort (if Z.of_nat r =? root then value r else received) ≫= fun v => mret (Ok v) end end) ≫= L r)).
  { intros r Hr. unfold broadcast_rest, broadcast_encode. rewrite (proj2 (Z.eqb_neq _ 1)) by lia.
    rewrite of_nat_eqb. unfold ef, enc. case_bool_decide as Heq; [subst r|].
    - rewrite Hv, (encode_eq _ codec_error_utf8), decide_True by done. cbn [mbind Prog_bind prog_bind mret Prog_ret].
      unfold failure_of, bytes_of. rewrite decide_True by done. by destruct (encoded_of v).
    - rewrite !decide_False by done. cbn [mbind Prog_bind prog_bind mret Prog_ret]. by destruct (failure_of v). }
  apply (converge_or n ltac:(lia) ef (fun r => _)).
  { intros r f _ Hf. unfold ef in Hf. destruct (decide (r = rho)); [by eapply failure_of_wf|done]. }
  destruct (verdict n ef) as [e|] eqn:Hverd; [exact HQ|].
  pose proof (none_fails ef Hverd rho Hrho) as Hok. unfold ef in Hok. rewrite decide_True in Hok by done.
  rewrite Hok. pose proof (failure_of_none v Hok) as Henc.
  apply (exchange_runs n ltac:(lia) (fun r => broadcast_exchange size (Z.of_nat r) decode_from_slice root (enc r))
    (fun r => if decide (r = rho) then None else Some v)
    (fun r received => or_abort (if Z.of_nat r =? root then value r else received) ≫= fun v => mret (Ok v))).
  - destruct seq_all as [Hnd Hall]. eapply talk_mono; [|eapply (deliver_talk encode_to_vec decode_from_slice codec_round_trip codec_error_utf8
      n rho Hrho Op_Broadcast (fun _ => v) (fun _ => bytes_of v) (fun _ _ _ => Henc)
      (fun ds => send_all root (bytes_of v) (map Z.of_nat ds) ≫= fun _ => mret (None, None)) (None, None))];
      [|done| |exact Hnd|exact Hall| |].
    + intros W (x & -> & Hx1 & Hx2). exists x. split; [done|]. intros r Hr.
      destruct (decide (r = rho)) as [->|Hne]; [by rewrite Hx1|by apply Hx2].
    + intros d rest Hd. cbn [map send_all]. rewrite of_nat_eqb. case_bool_decide as Hdr.
      * by rewrite decide_True by done.
      * rewrite decide_False by done. cbn [negb]. by rewrite prog_bind_assoc.
    + unfold broadcast_exchange. rewrite Z.eqb_refl. unfold enc. rewrite decide_True by done. by rewrite ranks_eq.
    + intros j Hj Hjr. unfold broadcast_exchange. rewrite of_nat_eqb, bool_decide_false by done.
      rewrite decide_True; [done|]. rewrite elem_of_seq. lia.
  - eapply runs_ext; [|exact HQ]. intros r Hr. cbv beta. rewrite of_nat_eqb. case_bool_decide as Heq.
    + subst r. by rewrite Hv.
    + by rewrite decide_False.
Qed.

(** *** Scatter *)

Section Shards.
Context (vs : list T) (Hvs : length vs = n) (v0 : T) (Hv0 : vs !! rho = Some v0).

Definition shard_failure (acc : option Failure) (d : nat) : option Failure :=
  if decide (d = rho) then acc
  else match vs !! d with
       | Some v => match failure_of v with Some f => record_failure acc f | None => acc end
       | None => acc
       end.
Definition shard_bytes (e : list (option (list byte))) (d : nat) : list (option (list byte)) :=
  if decide (d = rho) then e
  else match vs !! d with
       | Some v => match failure_of v with Some _ => e | None => <[d := Some (bytes_of v)]> e end
       | None => e
       end.
(** The first shard, other than the root's own, that cannot be encoded. *)
Definition shards_failure : option Failure := foldl shard_failure None (seq 0 n).

Lemma preencode_loop_eq ds e acc : Forall (fun d => (d < n)%nat) ds ->
  preencode_loop encode_to_vec root (<[rho := None]> (map Some vs)) (map Z.of_nat ds) e acc
  = Ret (foldl shard_bytes e ds, foldl shard_failure acc ds).
Proof.
  intros Hds. revert e acc. induction Hds as [|d ds Hd _ IH]; intros e acc; [done|].
  cbn [map preencode_loop foldl]. rewrite of_nat_eqb. unfold shard_bytes at 2, shard_failure at 2.
  case_bool_decide as Hdr; [by rewrite !decide_True by done|]. rewrite !decide_False by done.
  unfold at_index. rewrite Nat2Z.id, list_lookup_insert_ne, list_lookup_fmap by done.
  destruct (lookup_lt_is_Some_2 vs d) as [v Hv]; [lia|]. rewrite Hv. cbn [fmap option_fmap option_map mbind Prog_bind prog_bind].
  rewrite (encode_eq _ codec_error_utf8). cbn [mbind Prog_bind prog_bind].
  unfold failure_of, bytes_of. destruct (encoded_of v); apply IH.
Qed.

Lemma shard_failure_some acc ds : is_Some acc -> foldl shard_failure acc ds = acc.
Proof.
  intros [f ->]. induction ds as [|d ds IH]; [done|]. cbn [foldl]. unfold shard_failure at 2.
  destruct (decide (d = rho)); [done|]. destruct (vs !! d); [|done]. by destruct (failure_of t).
Qed.

Lemma shards_encoded ds e : foldl shard_failure None ds = None -> Forall (fun d => (d < n)%nat) ds -> length e = n ->
  forall d v, d <> rho -> vs !! d = Some v -> d ∈ ds \/ e !! d = Some (Some (bytes_of v)) ->
  (d ∈ ds -> failure_of v = None) /\ foldl shard_bytes e ds !! d = Some (Some (bytes_of v)).
Proof.
  revert e. induction ds as [|a ds IH]; intros e Hf Hlt He d v Hd Hv Hin.
  { destruct Hin as [Hin|Hin]; [by apply elem_of_nil in Hin|]. split; [by intros Ha%elem_of_nil|done]. }
  apply Forall_cons in Hlt as [Ha Hlt]. cbn [foldl] in Hf |- *.
  assert (Hstep : forall w, a <> rho -> vs !! a = Some w -> failure_of w = None).
  { intros w Har Hw. unfold shard_failure at 2 in Hf. rewrite decide_False, Hw in Hf by done.
    destruct (failure_of w) as [f|]; [|done]. rewrite shard_failure_some in Hf by done. done. }
  assert (Hf' : foldl shard_failure None ds = None).
  { unfold shard_failure at 2 in Hf. destruct (decide (a = rho)) as [|Har]; [done|].
    destruct (vs !! a) as [w|] eqn:Hw; [|done]. by rewrite (Hstep w) in Hf. }
  destruct (decide (d = a)) as [->|Hda].
  - pose proof (Hstep v Hd Hv) as Hnone. split; [done|]. apply IH; [done|done| |done|done|right].
    + unfold shard_bytes. rewrite decide_False, Hv, Hnone by done. by rewrite length_insert.
    + unfold shard_bytes. rewrite decide_False, Hv, Hnone by done. apply list_lookup_insert_eq. lia.
  - destruct (IH (shard_bytes e a) Hf' Hlt) with (d := d) (v := v) as [H1 H2]; [|done|done| |split; [|exact H2]].
    + unfold shard_bytes. destruct (decide (a = rho)); [done|]. destruct (vs !! a); [|done].
      destruct (failure_of t); [done|]. by rewrite length_insert.
    + destruct Hin as [[?|Hin]%elem_of_cons|Hin]; [done|by left|right].
      unfold shard_bytes. destruct (decide (a = rho)); [done|]. destruct (vs !! a); [|done].
      destruct (failure_of t); [done|]. by rewrite list_lookup_insert_ne.
    + intros [?|Hin']%elem_of_cons; [done|by apply H1].
Qed.

Lemma shards_failure_wf f : shards_failure = Some f -> failure_wf f.
Proof.
  assert (Hgen : forall ds acc, (forall g, acc = Some g -> failure_wf g) ->
    foldl shard_failure acc ds = Some f -> failure_wf f); [|by apply Hgen].
  intros ds. induction ds as [|d ds IH]; intros acc Hacc; [apply Hacc|]. cbn [foldl]. apply IH.
  intros g. unfold shard_failure. destruct (decide (d = rho)); [apply Hacc|]. destruct (vs !! d) as [v|]; [|apply Hacc].
  destruct (failure_of v) as [h|] eqn:Hh; [|apply Hacc]. destruct acc; cbn; [apply Hacc|].
  intros [= <-]. by eapply failure_of_wf.
Qed.

Lemma scatter_rest_runs {R} value (L : nat -> result PlacementError T -> Prog R) Q :
  value rho = Some vs -> (forall r, (r < n)%nat -> r <> rho -> value r = None) ->
  match verdict n (fun r => if decide (r = rho) then shards_failure else None) with
  | Some e => Runs n (fun r => L r (Err e)) Q
  | None => Runs n (fun r => L r (Ok (default v0 (vs !! r)))) Q
  end ->
  Runs n (fun r => scatter_rest size (Z.of_nat r) encode_to_vec decode_from_slice root (value r) ≫= L r) Q.
Proof.
  intros Hv Hnone HQ. set (ef := fun r => if decide (r = rho) then shards_failure else None) in *.
  destruct seq_all as [Hnd Hall].
  set (encs := foldl shard_bytes (replicate n None) (seq 0 n)).
  set (local := fun r : nat => if decide (r = rho) then Some v0 else None).
  eapply (runs_ext n _ (fun r => (converge size (Z.of_nat r) (ef r) ≫= fun e =>
    match e with Some error => mret (Err error) | None =>
      scatter_exchange size (Z.of_nat r) decode_from_slice root (if decide (r = rho) then encs else [])
      ≫= fun '(received, local_failure) => converge size (Z.of_nat r) local_failure ≫= fun e =>
        match e with Some error => mret (Err error)
        | None => or_abort (if Z.of_nat r =? root then local r else received) ≫= fun v => mret (Ok v) end end) ≫= L r)).
  { intros r Hr. unfold scatter_rest, scatter_encode. rewrite (proj2 (Z.eqb_neq _ 1)) by lia.
    rewrite of_nat_eqb. unfold ef, local. case_bool_decide as Heq; [subst r|].
    - rewrite Hv. rewrite !decide_True by done. cbn [option_map or_abort mbind Prog_bind prog_bind].
      unfold preencode_scatter, at_index. rewrite Nat2Z.id, list_lookup_fmap, Hv0.
      cbn [fmap option_fmap option_map mbind Prog_bind prog_bind]. rewrite ranks_eq, Nat2Z.id.
      rewrite preencode_loop_eq by done. done.
    - rewrite !decide_False by done. done. }
  apply (converge_or n ltac:(lia) ef (fun r => _)).
  { intros r f _ Hf. unfold ef in Hf. destruct (decide (r = rho)); [by apply shards_failure_wf|done]. }
  destruct (verdict n ef) as [e|] eqn:Hverd; [exact HQ|].
  pose proof (none_fails ef Hverd rho Hrho) as Hok. unfold ef in Hok. rewrite decide_True in Hok by done.
  assert (Henc : forall d, (d < n)%nat -> d <> rho -> encoded_of (default v0 (vs !! d)) = Ok (bytes_of (default v0 (vs !! d)))
    /\ encs !! d = Some (Some (bytes_of (default v0 (vs !! d))))).
  { intros d Hd Hdr. destruct (lookup_lt_is_Some_2 vs d) as [v Hvd]; [lia|]. rewrite Hvd. cbn [default].
    destruct (shards_encoded (seq 0 n) (replicate n None) Hok Hall (length_replicate _ _) d v Hdr Hvd) as [H1 H2].
    { left. rewrite elem_of_seq. lia. }
    split; [|done]. apply failure_of_none, H1. rewrite elem_of_seq. lia. }
  apply (exchange_runs n ltac:(lia)
    (fun r => scatter_exchange size (Z.of_nat r) decode_from_slice root (if decide (r = rho) then encs else []))
    (fun r => if decide (r = rho) then None else Some (default v0 (vs !! r)))
    (fun r received => or_abort (if Z.of_nat r =? root then local r else received) ≫= fun v => mret (Ok v))).
  - eapply talk_mono; [|eapply (deliver_talk encode_to_vec decode_from_slice codec_round_trip codec_error_utf8
      n rho Hrho Op_Scatter (fun d => default v0 (vs !! d)) (fun d => bytes_of (default v0 (vs !! d)))
      (fun d Hd Hdr => proj1 (Henc d Hd Hdr))
      (fun ds => send_each root encs (map Z.of_nat ds) ≫= fun _ => mret (None, None)) (None, None))];
      [|done| |exact Hnd|exact Hall| |].
    + intros W (x & -> & Hx1 & Hx2). exists x. split; [done|]. intros r Hr.
      destruct (decide (r = rho)) as [->|Hne]; [by rewrite Hx1|by apply Hx2].
    + intros d rest Hd. cbn [map send_each]. rewrite of_nat_eqb. case_bool_decide as Hdr.
      * by rewrite decide_True by done.
      * rewrite decide_False by done. cbn [negb]. unfold at_index. rewrite Nat2Z.id.
        destruct (Henc d Hd Hdr) as [_ ->]. cbn [or_abort mbind Prog_bind prog_bind].
        change (prog_bind (fun _ => ?k) ?p) with (p ≫= fun _ => k). by rewrite prog_bind_assoc.
    + unfold scatter_exchange. rewrite Z.eqb_refl, decide_True by done. by rewrite ranks_eq.
    + intros j Hj Hjr. unfold scatter_exchange. rewrite of_nat_eqb, bool_decide_false by done.
      rewrite decide_True; [done|]. rewrite elem_of_seq. lia.
  - eapply runs_ext; [|exact HQ]. intros r Hr. cbv beta. rewrite of_nat_eqb. unfold local. case_bool_decide as Heq.
    + subst r. by rewrite decide_True, Hv0.
    + by rewrite decide_False.
Qed.
End Shards.

(** *** Gather *)

Lemma all_present_some (vs : list T) : all_present (map Some vs) = Ret vs.
Proof. induction vs as [|v vs IH]; [done|]. cbn [map all_present or_abort]. rewrite IH. done. Qed.

Lemma gathered_all (value : nat -> T) :
  foldl (fun g d => if decide (d = rho) then g else <[d := Some (value d)]> g)
    (<[rho := Some (value rho)]> (replicate n None)) (seq 0 n) = map Some (map value (seq 0 n)).
Proof.
  assert (Hgen : forall ds g, length g = n ->
    (forall j, (j < n)%nat -> j ∈ ds \/ g !! j = Some (Some (value j))) -> g !! rho = Some (Some (value rho)) ->
    foldl (fun g d => if decide (d = rho) then g else <[d := Some (value d)]> g) g ds = map Some (map value (seq 0 n))).
  { induction ds as [|d ds IH]; intros g Hg Hin Hr.
    - apply list_eq_same_length with n; [by rewrite !length_map, length_seq|done|].
      intros j x y Hj Hx Hy. rewrite !list_lookup_fmap, lookup_seq_lt in Hy by done. injection Hy as <-.
      destruct (Hin j Hj) as [Hno|Hj']; [by apply elem_of_nil in Hno|]. cbn [foldl] in Hx. congruence.
    - cbn [foldl]. apply IH.
      + destruct (decide (d = rho)); [done|]. by rewrite length_insert.
      + intros j Hj. destruct (decide (j = d)) as [->|Hne].
        * right. destruct (decide (d = rho)) as [->|]; [done|]. by rewrite list_lookup_insert_eq by lia.
        * destruct (Hin j Hj) as [[?|?]%elem_of_cons|Hj']; [done|by left|right].
          destruct (decide (d = rho)); [done|]. by rewrite list_lookup_insert_ne.
      + destruct (decide (d = rho)); [done|]. by rewrite list_lookup_insert_ne by done. }
  apply Hgen; [by rewrite length_insert, length_replicate|intros j Hj; left; rewrite elem_of_seq; lia|].
  apply list_lookup_insert_eq. by rewrite length_replicate.
Qed.

Lemma gather_rest_runs {R} value (L : nat -> result PlacementError (option (list T)) -> Prog R) Q :
  match verdict n (fun r => if decide (r = rho) then None else failure_of (value r)) with
  | Some e => Runs n (fun r => L r (Err e)) Q
  | None => Runs n (fun r => L r (Ok (if decide (r = rho) then Some (map value (seq 0 n)) else None))) Q
  end ->
  Runs n (fun r => gather_rest size (Z.of_nat r) encode_to_vec decode_from_slice root (value r) ≫= L r) Q.
Proof.
  intros HQ. set (ef := fun r => if decide (r = rho) then None else failure_of (value r)) in *.
  destruct seq_all as [Hnd Hall].
  set (encs := fun r => if decide (r = rho) then None else match failure_of (value r) with Some _ => None | None => Some (bytes_of (value r)) end).
  set (fin := fun (r : nat) (gathered : option (list (option T))) => if Z.of_nat r =? root return Prog (result PlacementError (option (list T))) then
    or_abort gathered ≫= fun values => all_present values ≫= fun output => mret (Ok (Some output)) else mret (Ok None)).
  eapply (runs_ext n _ (fun r => (converge size (Z.of_nat r) (ef r) ≫= fun e =>
    match e with Some error => mret (Err error) | None =>
      gather_exchange size (Z.of_nat r) decode_from_slice root (value r) (encs r)
      ≫= fun '(gathered, local_failure) => converge size (Z.of_nat r) local_failure ≫= fun e =>
        match e with Some error => mret (Err error) | None => fin r gathered end end) ≫= L r)).
  { intros r Hr. unfold gather_rest, gather_encode. rewrite (proj2 (Z.eqb_neq _ 1)) by lia.
    rewrite of_nat_eqb. unfold ef, encs, fin. rewrite of_nat_eqb. case_bool_decide as Heq; [subst r; by rewrite !decide_True by done|].
    rewrite !decide_False by done. rewrite (encode_eq _ codec_error_utf8). cbn [mbind Prog_bind prog_bind mret Prog_ret].
    unfold failure_of, bytes_of. by destruct (encoded_of (value r)). }
  apply (converge_or n ltac:(lia) ef (fun r => _)).
  { intros r f _ Hf. unfold ef in Hf. destruct (decide (r = rho)); [done|by eapply failure_of_wf]. }
  destruct (verdict n ef) as [e|] eqn:Hverd; [exact HQ|].
  assert (Henc : forall d, (d < n)%nat -> d <> rho -> failure_of (value d) = None).
  { intros d Hd Hdr. pose proof (none_fails ef Hverd d Hd) as Hok. unfold ef in Hok. by rewrite decide_False in Hok. }
  apply (exchange_runs n ltac:(lia)
    (fun r => gather_exchange size (Z.of_nat r) decode_from_slice root (value r) (encs r))
    (fun r => if decide (r = rho) then Some (map Some (map value (seq 0 n))) else None) fin).
  - eapply talk_mono; [|eapply (collect_talk encode_to_vec decode_from_slice codec_round_trip codec_error_utf8
      n rho Hrho Op_Gather value (fun d => bytes_of (value d)) (fun d Hd Hdr => failure_of_none _ (Henc d Hd Hdr))
      Some None (seq 0 n) (<[rho := Some (value rho)]> (replicate n None)))]; [|exact Hnd|exact Hall|done| |].
    + intros W (x & -> & Hx1 & Hx2). exists x. split; [done|]. intros r Hr. rewrite gathered_all in Hx1.
      destruct (decide (r = rho)) as [->|Hne]; [by rewrite Hx1|by apply Hx2].
    + unfold gather_exchange. rewrite Z.eqb_refl, ranks_eq, !Nat2Z.id. done.
    + intros j Hj Hjr. unfold gather_exchange, encs. rewrite of_nat_eqb, bool_decide_false by done.
      rewrite (decide_True (P := j ∈ seq 0 n)) by (rewrite elem_of_seq; lia). rewrite decide_False, (Henc j Hj Hjr) by done. done.
  - eapply runs_ext; [|exact HQ]. intros r Hr. cbv beta. unfold fin. rewrite of_nat_eqb. case_bool_decide as Heq.
    + subst r. rewrite !decide_True by done. cbn [or_abort mbind Prog_bind prog_bind]. by rewrite all_present_some.
    + by rewrite !decide_False by done.
Qed.
End Rest.

(** ** Calls *)

(** What one rank calls, and what the call returns: ranks may call different
    functions, or the same one with different arguments. *)
Inductive Call (T : Type) : Type :=
| Call_Broadcast (root_value : option T)
| Call_Scatter (root_shards : option (list T))
| Call_Gather (value : T).
Arguments Call_Broadcast {T} _.
Arguments Call_Scatter {T} _.
Arguments Call_Gather {T} _.

Inductive Placed (T : Type) : Type := Placed_Value (v : T) | Placed_All (vs : option (list T)).
Arguments Placed_Value {T} _.
Arguments Placed_All {T} _.

Definition call_op {T} (c : Call T) : Operation :=
  match c with Call_Broadcast _ => Op_Broadcast | Call_Scatter _ => Op_Scatter | Call_Gather _ => Op_Gather end.

Section Calls.
Context {T : Type}
  (encode_to_vec : T -> result text (list byte))
  (decode_from_slice : list byte -> result text (T * Z)).

Definition run_call (size rank : Z) (main : bool) (root : Z) (c : Call T) : Prog (result PlacementError (Placed T)) :=
  match c with
  | Call_Broadcast v => broadcast size rank main encode_to_vec decode_from_slice root v
      ≫= fun r => mret (v ← r; Ok (Placed_Value v))
  | Call_Scatter shards => scatter size rank main encode_to_vec decode_from_slice root shards
      ≫= fun r => mret (v ← r; Ok (Placed_Value v))
  | Call_Gather v => gather size rank main encode_to_vec decode_from_slice root v
      ≫= fun r => mret (vs ← r; Ok (Placed_All vs))
  end.

(** *** Specification *)

(** The input has the right shape: exactly the root supplies it, a shard per rank. *)
Definition call_shape (size rank root : Z) (c : Call T) : bool :=
  match c with
  | Call_Broadcast v => Bool.eqb (rank =? root) (is_some v)
  | Call_Scatter shards => scatter_shape size rank root shards
  | Call_Gather _ => true
  end.

Section Spec.
Context (n : nat) (main : nat -> bool) (root : nat -> Z) (call : nat -> Call T).

Definition arguments_verdict : option PlacementError :=
  verdict n (preflight_of n main (fun r => call_op (call r)) root
    (fun r => call_shape (Z.of_nat n) (Z.of_nat r) (root r) (call r))).

(** The failure of rank [r] to encode what it sends to other ranks. *)
Definition encode_failure (rho r : nat) : option Failure :=
  if decide (n = 1%nat) then None
  else match call r with
       | Call_Broadcast (Some v) => failure_of encode_to_vec v
       | Call_Scatter (Some vs) => shards_failure encode_to_vec n rho vs
       | Call_Gather v => if decide (r = rho) then None else failure_of encode_to_vec v
       | _ => None
       end.

(** What rank [r] gets. *)
Definition delivered (rho r : nat) (out : Placed T) : Prop :=
  match call r, out with
  | Call_Broadcast _, Placed_Value v => call rho = Call_Broadcast (Some v)
  | Call_Scatter _, Placed_Value v => exists vs, call rho = Call_Scatter (Some vs) /\ vs !! r = Some v
  | Call_Gather _, Placed_All vs =>
      vs = if decide (r = rho)
           then Some (seq 0 n ≫= fun i => match call i with Call_Gather v => [v] | _ => [] end)
           else None
  | _, _ => False
  end.

Definition placed (x : nat -> result PlacementError (Placed T)) : Prop :=
  match arguments_verdict with
  | Some e => forall r, (r < n)%nat -> x r = Err e
  | None => exists rho, (rho < n)%nat /\ (forall r, (r < n)%nat -> root r = Z.of_nat rho) /\
      match verdict n (encode_failure rho) with
      | Some e => forall r, (r < n)%nat -> x r = Err e
      | None => forall r, (r < n)%nat -> exists out, x r = Ok out /\ delivered rho r out
      end
  end.
End Spec.

(** *** Proof *)

Definition call_rest (size rank root : Z) (c : Call T) : Prog (result PlacementError (Placed T)) :=
  match c with
  | Call_Broadcast v => broadcast_rest size rank encode_to_vec decode_from_slice root v
      ≫= fun r => mret (v ← r; Ok (Placed_Value v))
  | Call_Scatter shards => scatter_rest size rank encode_to_vec decode_from_slice root shards
      ≫= fun r => mret (v ← r; Ok (Placed_Value v))
  | Call_Gather v => gather_rest size rank encode_to_vec decode_from_slice root v
      ≫= fun r => mret (vs ← r; Ok (Placed_All vs))
  end.

Lemma run_call_eq size rank main root c :
  run_call size rank main root c = Duplicate (
    preflight size rank main (call_op c) root (call_shape size rank root c) ≫= fun res =>
    match res with Ok _ => call_rest size rank root c | Err e => Ret (Err e) end).
Proof.
  destruct c; unfold run_call, broadcast, scatter, gather, try_bind; cbn [mbind Prog_bind prog_bind]; f_equal;
    change (@prog_bind ?A ?B) with (@mbind Prog _ A B); rewrite prog_bind_assoc; f_equal;
    apply functional_extensionality; by intros [].
Qed.

Lemma verdict_ext n (ef ef' : nat -> option Failure) : (forall r, (r < n)%nat -> ef r = ef' r) -> verdict n ef = verdict n ef'.
Proof.
  intros Heq. unfold verdict. f_equal. assert (Hgen : forall rs, Forall (fun r => (r < n)%nat) rs ->
    first_failure ef rs = first_failure ef' rs).
  { induction 1 as [|r rs Hr _ IH]; [done|]. cbn. by rewrite Heq, IH. }
  rewrite (Hgen (seq 0 n)); [done|]. apply Forall_forall. intros r Hr. apply elem_of_seq in Hr. lia.
Qed.

Section Correct.
Context (codec_round_trip : forall v bytes, encode_to_vec v = Ok bytes -> decode_from_slice bytes = Ok (v, len bytes)).
Context (codec_error_utf8 : forall v e, encode_to_vec v = Err e -> utf8_valid e = true).
Context (n : nat) (Hn : (0 < n)%nat) (rho : nat) (Hrho : (rho < n)%nat) (call : nat -> Call T).

(** What remains to be shown of a call once the arguments are known to agree. *)
Definition rest_placed (x : nat -> result PlacementError (Placed T)) : Prop :=
  match verdict n (encode_failure n call rho) with
  | Some e => forall r, (r < n)%nat -> x r = Err e
  | None => forall r, (r < n)%nat -> exists out, x r = Ok out /\ delivered n call rho r out
  end.

Lemma none_verdict : n = 1%nat -> verdict n (encode_failure n call rho) = None.
Proof. intros H1. unfold verdict, encode_failure. by rewrite H1. Qed.

Lemma shape_root r : (r < n)%nat -> call_shape (Z.of_nat n) (Z.of_nat r) (Z.of_nat rho) (call r) = true ->
  match call r with
  | Call_Broadcast v => is_some v = bool_decide (r = rho)
  | Call_Scatter shards => is_some shards = bool_decide (r = rho)
      /\ (r = rho -> exists vs, shards = Some vs /\ length vs = n)
  | Call_Gather _ => True
  end.
Proof.
  intros Hr. unfold call_shape, scatter_shape. destruct (call r) as [v|shards|v]; rewrite ?of_nat_eqb; [| |done].
  - by intros <-%Bool.eqb_prop.
  - intros [<-%Bool.eqb_prop Hs]%andb_true_iff. split; [done|]. intros ->. rewrite bool_decide_true in Hs by done.
    destruct shards as [vs|]; [|done]. exists vs. split; [done|]. cbn in Hs. zbool. unfold len in Hs. lia.
Qed.

Lemma broadcast_placed : (forall r, (r < n)%nat -> call_op (call r) = Op_Broadcast) ->
  (forall r, (r < n)%nat -> call_shape (Z.of_nat n) (Z.of_nat r) (Z.of_nat rho) (call r) = true) ->
  Runs n (fun r => call_rest (Z.of_nat n) (Z.of_nat r) (Z.of_nat rho) (call r)) rest_placed.
Proof.
  intros Hop Hshape. set (value := fun r => match call r with Call_Broadcast v => v | _ => None end).
  assert (Hcall : forall r, (r < n)%nat -> call r = Call_Broadcast (value r)).
  { intros r Hr. unfold value. pose proof (Hop r Hr). by destruct (call r). }
  assert (Hval : forall r, (r < n)%nat -> is_some (value r) = bool_decide (r = rho)).
  { intros r Hr. pose proof (shape_root r Hr (Hshape r Hr)) as Hs. by rewrite (Hcall r Hr) in Hs. }
  destruct (value rho) as [v|] eqn:Hv; [|pose proof (Hval rho Hrho) as Ha; by rewrite Hv, bool_decide_true in Ha].
  assert (Hnone : forall r, (r < n)%nat -> r <> rho -> value r = None).
  { intros r Hr Hne. pose proof (Hval r Hr) as Ha. rewrite bool_decide_false in Ha by done. by destruct (value r). }
  assert (Hok : verdict n (encode_failure n call rho) = None -> rest_placed (fun _ => Ok (Placed_Value v))).
  { intros Hverd. unfold rest_placed. rewrite Hverd. intros r Hr. exists (Placed_Value v). split; [done|].
    unfold delivered. by rewrite (Hcall r Hr), (Hcall rho Hrho), Hv. }
  eapply (runs_ext n _ (fun r => broadcast_rest (Z.of_nat n) (Z.of_nat r) encode_to_vec decode_from_slice (Z.of_nat rho) (value r)
    ≫= fun res => mret (v ← res; Ok (Placed_Value v)))); [intros r Hr; by rewrite (Hcall r Hr)|].
  destruct (decide (n = 1%nat)) as [H1|H1].
  { pose proof (Hok (none_verdict H1)) as Hres. eapply runs_ext; [|exact (runs_ret n _ _ Hres)].
    intros r Hr. assert (r = rho) as -> by lia. unfold broadcast_rest. rewrite H1, Hv. done. }
  apply (broadcast_rest_runs encode_to_vec decode_from_slice codec_round_trip codec_error_utf8 n ltac:(lia) rho Hrho value v
    (fun r res => mret (v ← res; Ok (Placed_Value v)))); [done|done|].
  rewrite (verdict_ext n _ (encode_failure n call rho)).
  2: { intros r Hr. unfold encode_failure. rewrite (decide_False (P := n = 1%nat)) by done. rewrite (Hcall r Hr).
       destruct (decide (r = rho)) as [->|Hne]; [by rewrite Hv|by rewrite Hnone]. }
  destruct (verdict n (encode_failure n call rho)) as [e|] eqn:Hverd.
  - apply (runs_ret n (fun _ => Err e)). unfold rest_placed. by rewrite Hverd.
  - apply (runs_ret n (fun _ => Ok (Placed_Value v))). by apply Hok.
Qed.

Lemma scatter_placed : (forall r, (r < n)%nat -> call_op (call r) = Op_Scatter) ->
  (forall r, (r < n)%nat -> call_shape (Z.of_nat n) (Z.of_nat r) (Z.of_nat rho) (call r) = true) ->
  Runs n (fun r => call_rest (Z.of_nat n) (Z.of_nat r) (Z.of_nat rho) (call r)) rest_placed.
Proof.
  intros Hop Hshape. set (value := fun r => match call r with Call_Scatter v => v | _ => None end).
  assert (Hcall : forall r, (r < n)%nat -> call r = Call_Scatter (value r)).
  { intros r Hr. unfold value. pose proof (Hop r Hr). by destruct (call r). }
  assert (Hval : forall r, (r < n)%nat -> is_some (value r) = bool_decide (r = rho) /\
    (r = rho -> exists vs, value r = Some vs /\ length vs = n)).
  { intros r Hr. pose proof (shape_root r Hr (Hshape r Hr)) as Hs. by rewrite (Hcall r Hr) in Hs. }
  destruct (proj2 (Hval rho Hrho) eq_refl) as (vs & Hv & Hlen).
  destruct (lookup_lt_is_Some_2 vs rho) as [v0 Hv0]; [lia|].
  assert (Hnone : forall r, (r < n)%nat -> r <> rho -> value r = None).
  { intros r Hr Hne. destruct (Hval r Hr) as [Ha _]. rewrite bool_decide_false in Ha by done. by destruct (value r). }
  assert (Hok : verdict n (encode_failure n call rho) = None -> rest_placed (fun r => Ok (Placed_Value (default v0 (vs !! r))))).
  { intros Hverd. unfold rest_placed. rewrite Hverd. intros r Hr. eexists. split; [done|].
    unfold delivered. rewrite (Hcall r Hr), (Hcall rho Hrho), Hv. exists vs. split; [done|].
    destruct (lookup_lt_is_Some_2 vs r) as [w Hw]; [lia|]. by rewrite Hw. }
  eapply (runs_ext n _ (fun r => scatter_rest (Z.of_nat n) (Z.of_nat r) encode_to_vec decode_from_slice (Z.of_nat rho) (value r)
    ≫= fun res => mret (v ← res; Ok (Placed_Value v)))); [intros r Hr; by rewrite (Hcall r Hr)|].
  destruct (decide (n = 1%nat)) as [H1|H1].
  { pose proof (Hok (none_verdict H1)) as Hres. eapply runs_ext; [|exact (runs_ret n _ _ Hres)].
    intros r Hr. assert (r = 0%nat) as -> by lia. assert (rho = 0%nat) as Hrho0 by lia. rewrite Hrho0 in Hv, Hv0.
    unfold scatter_rest, at_index. rewrite H1, Hv. cbn. change (Z.to_nat 0) with 0%nat. rewrite list_lookup_fmap, Hv0. done. }
  apply (scatter_rest_runs encode_to_vec decode_from_slice codec_round_trip codec_error_utf8 n ltac:(lia) rho Hrho vs Hlen v0 Hv0 value
    (fun r res => mret (v ← res; Ok (Placed_Value v)))); [done|done|].
  rewrite (verdict_ext n _ (encode_failure n call rho)).
  2: { intros r Hr. unfold encode_failure. rewrite (decide_False (P := n = 1%nat)) by done. rewrite (Hcall r Hr).
       destruct (decide (r = rho)) as [->|Hne]; [by rewrite Hv|by rewrite Hnone]. }
  destruct (verdict n (encode_failure n call rho)) as [e|] eqn:Hverd.
  - apply (runs_ret n (fun _ => Err e)). unfold rest_placed. by rewrite Hverd.
  - apply (runs_ret n (fun r => Ok (Placed_Value (default v0 (vs !! r))))). by apply Hok.
Qed.

Lemma gather_placed : (forall r, (r < n)%nat -> call_op (call r) = Op_Gather) ->
  Runs n (fun r => call_rest (Z.of_nat n) (Z.of_nat r) (Z.of_nat rho) (call r)) rest_placed.
Proof.
  intros Hop.
  assert (Hex : exists v, call 0%nat = Call_Gather v) by (pose proof (Hop 0%nat Hn); destruct (call 0%nat); eauto; done).
  destruct Hex as [v0 _]. set (value := fun r => match call r with Call_Gather v => v | _ => v0 end).
  assert (Hcall : forall r, (r < n)%nat -> call r = Call_Gather (value r)).
  { intros r Hr. unfold value. pose proof (Hop r Hr). by destruct (call r). }
  assert (Hvalues : map value (seq 0 n) = seq 0 n ≫= fun i => match call i with Call_Gather v => [v] | _ => [] end).
  { assert (Hgen : forall l, Forall (fun r => (r < n)%nat) l ->
      map value l = l ≫= fun i => match call i with Call_Gather v => [v] | _ => [] end).
    { induction 1 as [|r l Hr _ IH]; [done|]. cbn. rewrite (Hcall r Hr) at 1. cbn. by rewrite IH. }
    apply Hgen. apply Forall_forall. intros r Hr. apply elem_of_seq in Hr. lia. }
  set (res := fun r => if decide (r = rho) then Some (map value (seq 0 n)) else None).
  assert (Hok : verdict n (encode_failure n call rho) = None -> rest_placed (fun r => Ok (Placed_All (res r)))).
  { intros Hverd. unfold rest_placed. rewrite Hverd. intros r Hr. eexists. split; [done|].
    unfold delivered, res. rewrite (Hcall r Hr). by rewrite Hvalues. }
  eapply (runs_ext n _ (fun r => gather_rest (Z.of_nat n) (Z.of_nat r) encode_to_vec decode_from_slice (Z.of_nat rho) (value r)
    ≫= fun res => mret (vs ← res; Ok (Placed_All vs)))); [intros r Hr; by rewrite (Hcall r Hr)|].
  destruct (decide (n = 1%nat)) as [H1|H1].
  { pose proof (Hok (none_verdict H1)) as Hres. eapply runs_ext; [|exact (runs_ret n _ _ Hres)].
    intros r Hr. assert (r = rho) as -> by lia. assert (rho = 0%nat) as -> by lia.
    unfold gather_rest, res. rewrite H1. done. }
  apply (gather_rest_runs encode_to_vec decode_from_slice codec_round_trip codec_error_utf8 n ltac:(lia) rho Hrho value
    (fun r res => mret (vs ← res; Ok (Placed_All vs)))).
  rewrite (verdict_ext n _ (encode_failure n call rho)).
  2: { intros r Hr. unfold encode_failure. rewrite (decide_False (P := n = 1%nat)) by done. by rewrite (Hcall r Hr). }
  destruct (verdict n (encode_failure n call rho)) as [e|] eqn:Hverd.
  - apply (runs_ret n (fun _ => Err e)). unfold rest_placed. by rewrite Hverd.
  - apply (runs_ret n (fun r => Ok (Placed_All (res r)))). by apply Hok.
Qed.
End Correct.
End Calls.

(** ** Properties *)

(** C5: Whatever every rank calls, on every interleaving all ranks return, with
    no deadlock, abort or panic.  If the calls disagree or some rank's arguments
    are invalid, all get the same preflight error, of the lowest such rank; else
    if a value cannot be encoded, all get the wire error of the lowest rank that
    could not; else every rank gets its value: the root's, its own shard, or on
    the root the values of all ranks in rank order. *)
Theorem placement_delivers {T} encode_to_vec decode_from_slice n main root (call : nat -> Call T) :
  (0 < n)%nat ->
  (forall v bytes, encode_to_vec v = Ok bytes -> decode_from_slice bytes = Ok (v, len bytes)) ->
  (forall v e, encode_to_vec v = Err e -> utf8_valid e = true) ->
  Runs n (fun r => run_call encode_to_vec decode_from_slice (Z.of_nat n) (Z.of_nat r) (main r) (root r) (call r))
    (placed encode_to_vec n main root call).
Proof.
  intros Hn Hround Herr. eapply runs_ext; [intros r _; apply run_call_eq|]. apply (runs_duplicate n Hn).
  apply (preflight_runs n Hn main (fun r => call_op (call r)) root
    (fun r => call_shape (Z.of_nat n) (Z.of_nat r) (root r) (call r))
    (fun r res => match res with
       | Ok _ => call_rest encode_to_vec decode_from_slice (Z.of_nat n) (Z.of_nat r) (root r) (call r)
       | Err e => Ret (Err e) end)).
  unfold placed, arguments_verdict. destruct (verdict n _) as [e|] eqn:Hverd.
  { by apply (runs_ret n (fun _ => Err e)). }
  destruct (preflight_passed n Hn _ _ _ _ Hverd) as (rho & Hrho & Hall).
  assert (Hrest : Runs n (fun r => call_rest encode_to_vec decode_from_slice (Z.of_nat n) (Z.of_nat r) (Z.of_nat rho) (call r))
    (rest_placed encode_to_vec n rho call)).
  { assert (Hshape : forall r, (r < n)%nat -> call_shape (Z.of_nat n) (Z.of_nat r) (Z.of_nat rho) (call r) = true).
    { intros r Hr. destruct (Hall r Hr) as (_ & Hroot & Hs & _). by rewrite Hroot in Hs. }
    destruct (call_op (call 0%nat)) eqn:Hop;
      [apply broadcast_placed|apply scatter_placed|apply gather_placed]; try done;
      intros r Hr; by destruct (Hall r Hr) as (-> & _). }
  eapply runs_ext; [|eapply runs_mono; [exact Hrest|]].
  - intros r Hr. cbv beta. by destruct (Hall r Hr) as (_ & -> & _).
  - intros x Hx. exists rho. split; [done|]. split; [|exact Hx]. intros r Hr. by destruct (Hall r Hr) as (_ & -> & _).
Qed.

(** ** Witness *)

(** Three ranks scatter from rank 1; then rank 2 gathers instead. *)
Definition ex_scatter (r : nat) : Call Z := Call_Scatter (if decide (r = 1%nat) then Some [10; 11; 12] else None).
Definition ex_mixed (r : nat) : Call Z := if decide (r = 2%nat) then Call_Gather 5 else ex_scatter r.

Lemma ex_round_trip v bytes : encode_u64 v = Ok bytes -> decode_u64 bytes = Ok (v, len bytes).
Proof. intros Hv. rewrite <- (app_nil_r bytes) at 1. by apply decode_encode_u64. Qed.
Lemma ex_utf8 v e : encode_u64 v = Err e -> utf8_valid e = true.
Proof. unfold encode_u64. destruct (decide _); [done|]. by intros [= <-]. Qed.

Lemma placement_delivers_witness :
  Runs 3 (fun r => run_call encode_u64 decode_u64 3 (Z.of_nat r) true 1 (ex_scatter r))
    (fun x => x 0%nat = Ok (Placed_Value 10) /\ x 1%nat = Ok (Placed_Value 11) /\ x 2%nat = Ok (Placed_Value 12))
  /\ Runs 3 (fun r => run_call encode_u64 decode_u64 3 (Z.of_nat r) true 1 (ex_mixed r))
    (fun x => forall r, (r < 3)%nat ->
       x r = Err (mkPlacementError Preflight (Some 0) (lit "placement operation mismatch"))).
Proof.
  split.
  - eapply runs_mono; [exact (placement_delivers encode_u64 decode_u64 3 (fun _ => true) (fun _ => 1) ex_scatter
      ltac:(lia) ex_round_trip ex_utf8)|].
    intros x Hx. unfold placed in Hx.
    replace (arguments_verdict 3 (fun _ => true) (fun _ => 1) ex_scatter) with (@None PlacementError) in Hx by (vm_compute; reflexivity).
    destruct Hx as (rho & Hrho & Hroot & Hx). assert (rho = 1%nat) as -> by (pose proof (Hroot 0%nat ltac:(lia)); lia).
    replace (verdict 3 (encode_failure encode_u64 3 ex_scatter 1)) with (@None PlacementError) in Hx by (vm_compute; reflexivity).
    split_and!; [destruct (Hx 0%nat ltac:(lia)) as ([v|v] & -> & Hd)|destruct (Hx 1%nat ltac:(lia)) as ([v|v] & -> & Hd)
      |destruct (Hx 2%nat ltac:(lia)) as ([v|v] & -> & Hd)]; try done;
      destruct Hd as (vs & [= <-] & Hv); by injection Hv as <-.
  - eapply runs_mono; [exact (placement_delivers encode_u64 decode_u64 3 (fun _ => true) (fun _ => 1) ex_mixed
      ltac:(lia) ex_round_trip ex_utf8)|].
    intros x Hx. unfold placed in Hx.
    replace (arguments_verdict 3 (fun _ => true) (fun _ => 1) ex_mixed) with
      (Some (mkPlacementError Preflight (Some 0) (lit "placement operation mismatch"))) in Hx by (vm_compute; reflexivity).
    exact Hx.
Defined.
