(* ===== verification/LocalDomain.v ===== *)
(** * LocalDomain: execution domains of one rank and the parallel map

    Models [src/domain.rs] and [src/local.rs].  A Rayon pool is third-party: the
    pools are a type [P] whose values are compared by identity, with the number
    of threads each was built with.  The admission flag of a domain is an atomic
    that is only swapped, so one state is enough for it; the kernel's affinity
    calls, the construction of a pool and the order in which Rayon runs the
    callbacks of a parallel map are arguments. *)
From S2P Require Import Prelude Text.

(** ** Identifiers *)

Record UnsupportedDomainId : Type := mkUnsupportedDomainId { requested_id : Z }.
Definition DomainId_ZERO : Z := 0.
Definition DomainId_try_from (requested : Z) : result UnsupportedDomainId Z :=
  if requested =? 0 then Ok DomainId_ZERO else Err (mkUnsupportedDomainId requested).
Definition UnsupportedDomainId_display (e : UnsupportedDomainId) : text :=
  lit "unsupported domain ID: " ++ decimal (requested_id e).

Record Place : Type := mkPlace { place_rank : Z; place_domain : Z }.
Record NegativeRank : Type := mkNegativeRank { requested_rank : Z }.
Definition Place_new (rank domain_id : Z) : result NegativeRank Place :=
  if rank <? 0 then Err (mkNegativeRank rank) else Ok (mkPlace rank domain_id).
Definition NegativeRank_display (e : NegativeRank) : text :=
  lit "rank must be non-negative: " ++ decimal (requested_rank e).

Inductive LocalMode : Type := Sequential | Outer | Inner.
#[export] Instance LocalMode_eq_dec : EqDecision LocalMode.
Proof. solve_decision. Defined.
Inductive PoolOwnership : Type := Managed | External.
Inductive PlacementStatus : Type := Verified | CallerDeclared.

Inductive DomainBuildError : Type :=
| EmptyCpuSet
| DuplicateCpu (cpu : Z)
| ZeroWorkers
| TooManyWorkers (worker_count cpu_count : Z)
| CpuOutOfRange (cpu cpu_set_size : Z)
| CpuNotAllowed (cpu : Z)
| AffinityQuery (errno : Z)
| PoolBuild (message : text)
| PinFailed (worker_index cpu : Z) (message : text)
| StartTimeout (expected received : Z)
| InvalidReport (worker_index cpu : Z)
| PoolSizeMismatch (expected actual : Z).

Definition DomainBuildError_display (e : DomainBuildError) : text :=
  match e with
  | EmptyCpuSet => lit "CPU set must not be empty"
  | DuplicateCpu cpu => lit "CPU set contains duplicate CPU " ++ decimal cpu
  | ZeroWorkers => lit "worker count must be greater than zero"
  | TooManyWorkers worker_count cpu_count =>
      lit "worker count " ++ decimal worker_count ++ lit " exceeds CPU set size " ++ decimal cpu_count
  | CpuOutOfRange cpu cpu_set_size =>
      lit "CPU " ++ decimal cpu ++ lit " is outside CPU set size " ++ decimal cpu_set_size
  | CpuNotAllowed cpu => lit "CPU " ++ decimal cpu ++ lit " is not process-allowed"
  | AffinityQuery errno => lit "could not query process affinity (errno " ++ decimal errno ++ lit ")"
  | PoolBuild message => lit "could not build Rayon pool: " ++ message
  | PinFailed worker_index cpu message =>
      lit "worker " ++ decimal worker_index ++ lit " could not be placed on CPU " ++ decimal cpu ++ lit ": " ++ message
  | StartTimeout expected received =>
      lit "timed out waiting for Rayon worker startup reports (" ++ decimal received ++ lit "/" ++ decimal expected ++ lit ")"
  | InvalidReport worker_index cpu =>
      lit "invalid Rayon worker startup report for worker " ++ decimal worker_index ++ lit " on CPU " ++ decimal cpu
  | PoolSizeMismatch expected actual =>
      lit "external Rayon pool has " ++ decimal actual ++ lit " workers, expected " ++ decimal expected
  end.

(** ** Domains *)

Record Domain (P : Type) : Type := mkDomain {
  id : Z; worker_count : Z; running : bool; pool : option P;
  cpu_set : option (list Z); ownership : option PoolOwnership; placement : option PlacementStatus;
}.
Arguments mkDomain {P} _ _ _ _ _ _ _.
Arguments id {P} _.
Arguments worker_count {P} _.
Arguments running {P} _.
Arguments pool {P} _.
Arguments cpu_set {P} _.
Arguments ownership {P} _.
Arguments placement {P} _.

Inductive DomainBusy : Type := mkDomainBusy.
Definition DomainBusy_display (e : DomainBusy) : text := lit "domain is busy".

(** The loop of [validate_cpu_set] that looks for a duplicate. *)
Fixpoint first_duplicate (seen : gset Z) (cpus : list Z) : result DomainBuildError unit :=
  match cpus with
  | [] => Ok tt
  | cpu :: rest => if decide (cpu ∈ seen) then Err (DuplicateCpu cpu) else first_duplicate ({[cpu]} ∪ seen) rest
  end.

Definition validate_cpu_set (cpus : list Z) (workers : Z) : result DomainBuildError unit :=
  fail_if (match cpus with [] => true | _ => false end) EmptyCpuSet;;
  first_duplicate ∅ cpus;;
  fail_if (workers =? 0) ZeroWorkers;;
  fail_if (len cpus <? workers) (TooManyWorkers workers (len cpus)).

Fixpoint validate_linux_cpu_range (cpu_set_size : Z) (cpus : list Z) : result DomainBuildError unit :=
  match cpus with
  | [] => Ok tt
  | cpu :: rest =>
      if cpu_set_size <=? cpu then Err (CpuOutOfRange cpu cpu_set_size) else validate_linux_cpu_range cpu_set_size rest
  end.

(** The loop of [managed] over the CPUs the process may use. *)
Fixpoint validate_allowed (allowed : gset Z) (cpus : list Z) : result DomainBuildError unit :=
  match cpus with
  | [] => Ok tt
  | cpu :: rest => if decide (cpu ∈ allowed) then validate_allowed allowed rest else Err (CpuNotAllowed cpu)
  end.

Record WorkerReport : Type := mkWorkerReport { report_index : Z; report_cpu : Z; report_result : result text unit }.

(** The start handler of worker [index]; a panic of the pinner is caught. *)
Definition start_handler (pin_and_verify : Z -> result (exn text) unit) (cpus : list Z) (index : Z) : WorkerReport :=
  let cpu := default usize_max (cpus !! Z.to_nat index) in
  let res :=
    if cpu =? usize_max then Err (lit "worker index is outside the declared CPU set")
    else match pin_and_verify cpu with
         | Ok tt => Ok tt
         | Err (Raise message) => Err message
         | Err Panic => Err (lit "worker pinner panicked")
         end in
  mkWorkerReport index cpu res.

(** The loop of [build_managed]: [receives] are the outcomes of its calls of
    [recv_timeout], [None] for a timeout.  [seen[report.index]] may panic. *)
Fixpoint await_reports (workers : Z) (cpus : list Z) (seen : list bool) (received : Z)
    (receives : list (option WorkerReport)) : result (exn DomainBuildError) unit :=
  if received <? workers then
    match receives with
    | Some report :: rest =>
        invalid ←
          (if workers <=? report_index report then Ok true
           else match seen !! Z.to_nat (report_index report) with
                | None => Err Panic
                | Some b => Ok (b || negb (bool_decide (cpus !! Z.to_nat (report_index report) = Some (report_cpu report))))
                end);
        if (invalid : bool) then Err (Raise (InvalidReport (report_index report) (report_cpu report)))
        else match report_result report with
             | Err message => Err (Raise (PinFailed (report_index report) (report_cpu report) message))
             | Ok _ => await_reports workers cpus (<[Z.to_nat (report_index report) := true]> seen) (received + 1) rest
             end
    | _ => Err (Raise (StartTimeout workers received))
    end
  else Ok tt.

Section Pools.
Context {P : Type} `{EqDecision P} (current_num_threads : P -> Z).

Definition sequential : Domain P := mkDomain DomainId_ZERO 1 false None None None None.

(** [compare_exchange]: the new state, and an admission or a refusal. *)
Definition try_admit (d : Domain P) : result DomainBusy unit * Domain P :=
  if running d then (Err mkDomainBusy, d)
  else (Ok tt, mkDomain (id d) (worker_count d) true (pool d) (cpu_set d) (ownership d) (placement d)).

(** Dropping the admission. *)
Definition release (d : Domain P) : Domain P :=
  mkDomain (id d) (worker_count d) false (pool d) (cpu_set d) (ownership d) (placement d).

Definition external (p : P) (cpu_set_size : Z) (declared : list Z) (workers : Z) : result DomainBuildError (Domain P) :=
  validate_cpu_set declared workers;;
  validate_linux_cpu_range cpu_set_size declared;;
  let actual := current_num_threads p in
  fail_if (negb (actual =? workers)) (PoolSizeMismatch workers actual);;
  Ok (mkDomain DomainId_ZERO workers false (Some p) (Some declared) (Some External) (Some CallerDeclared)).

Definition build_managed (built : result text P) (receives : list (option WorkerReport)) (cpus : list Z) (workers : Z) :
    result (exn DomainBuildError) (Domain P) :=
  p ← map_err (fun e => Raise (PoolBuild e)) built;
  await_reports workers cpus (replicate (Z.to_nat workers) false) 0 receives;;
  Ok (mkDomain DomainId_ZERO workers false (Some p) (Some cpus) (Some Managed) (Some Verified)).

Definition managed (cpu_set_size : Z) (allowed : result Z (gset Z)) (built : result text P)
    (receives : list (option WorkerReport)) (cpus : list Z) (workers : Z) : result (exn DomainBuildError) (Domain P) :=
  map_err Raise (validate_cpu_set cpus workers);;
  map_err Raise (validate_linux_cpu_range cpu_set_size cpus);;
  cpus_allowed ← map_err (fun errno => Raise (AffinityQuery errno)) allowed;
  map_err Raise (validate_allowed cpus_allowed cpus);;
  build_managed built receives cpus workers.
End Pools.

(** ** The parallel map *)

Inductive MapInError : Type :=
| MissingPool
| ForeignPool
| Busy (e : DomainBusy)
| Callback (e : MapError).

Definition MapError_display (e : MapError) : text :=
  lit "map failed at index " ++ decimal (Z.of_nat (error_index e)) ++ lit ": " ++ error_message e.
Definition MapInError_display (e : MapInError) : text :=
  match e with
  | MissingPool => lit "domain has no Rayon pool"
  | ForeignPool => lit "map_in called from a foreign Rayon pool"
  | Busy error => DomainBusy_display error
  | Callback error => MapError_display error
  end.
Definition MapInError_source (e : MapInError) : option text :=
  match e with
  | Busy error => Some (DomainBusy_display error)
  | Callback error => Some (MapError_display error)
  | MissingPool | ForeignPool => None
  end.

Section MapIn.
Context {P : Type} `{EqDecision P} {S T U E : Type} (display : E -> text) (f : T -> M S E U).

(** [into_par_iter().map(f)]: Rayon calls [f] once per item, in an order of its
    own, and keeps the results by position; a panic of a call is one of the map. *)
Fixpoint par_calls (order : list nat) (items : list T) (slots : list (option (result E U))) :
    M S MapError (list (option (result E U))) :=
  match order with
  | [] => mret slots
  | i :: rest => fun s =>
      match items !! i with
      | None => (Err Panic, s)
      | Some item =>
          match f item s with
          | (Ok v, s') => par_calls rest items (<[i := Some (Ok v)]> slots) s'
          | (Err (Raise e), s') => par_calls rest items (<[i := Some (Err e)]> slots) s'
          | (Err Panic, s') => (Err Panic, s')
          end
      end
  end.

Definition run_in_current_pool (order : list nat) (mode : LocalMode) (items : list T) : M S MapError (list U) :=
  match mode with
  | Sequential | Inner => map_items display f items
  | Outer =>
      slots ← par_calls order items (replicate (length items) None);
      results ← lift_exn (mapR (fun slot => ok_or slot Panic) slots);
      map_items display lift results
  end.

(** [pool.install]: the closure runs in the pool, and the caller waits. *)
Definition run_in_pool (p : P) (order : list nat) (mode : LocalMode) (items : list T) : M S MapError (list U) :=
  run_in_current_pool order mode items.

(** [thread_pool] is the pool the calling thread is a worker of, if it is one. *)
Definition in_rayon_worker_context (thread_pool : option P) : bool :=
  match thread_pool with Some _ => true | None => false end.
Definition current_thread_index_is_none (thread_pool : option P) (p : P) : bool :=
  negb (bool_decide (thread_pool = Some p)).

Definition map_in (thread_pool : option P) (order : list nat) (mode : LocalMode) (items : list T) :
    M (Domain P * S) MapInError (list U) := fun '(domain, s) =>
  match pool domain with
  | None => (Err (Raise MissingPool), (domain, s))
  | Some p =>
      if in_rayon_worker_context thread_pool && current_thread_index_is_none thread_pool p
      then (Err (Raise ForeignPool), (domain, s))
      else match try_admit domain with
           | (Err busy, domain) => (Err (Raise (Busy busy)), (domain, s))
           | (Ok _, domain) =>
               let '(r, s) := run_in_pool p order mode items s in
               (match r with
                | Ok v => Ok v
                | Err (Raise e) => Err (Raise (Callback e))
                | Err Panic => Err Panic
                end, (release domain, s))
           end
  end.
End MapIn.

(** ** Validated CPU sets *)

Lemma first_duplicate_spec cpus : forall seen,
  match first_duplicate seen cpus with
  | Ok _ => NoDup cpus /\ forall cpu, cpu ∈ cpus -> cpu ∉ seen
  | Err e => exists pre cpu post, e = DuplicateCpu cpu /\ cpus = pre ++ cpu :: post /\ (cpu ∈ seen \/ cpu ∈ pre)
  end.
Proof.
  induction cpus as [|cpu cpus IH]; intros seen; cbn [first_duplicate]; [split; [constructor|set_solver]|].
  destruct (decide (cpu ∈ seen)) as [Hin|Hin]; [exists [], cpu, cpus; auto|]. specialize (IH ({[cpu]} ∪ seen)).
  destruct (first_duplicate _ cpus) as [[]|e].
  - destruct IH as [Hnd Hnot]. split; [|set_solver]. constructor; [|done]. intros Hc. specialize (Hnot cpu Hc). set_solver.
  - destruct IH as (pre & c & post & -> & -> & Hc). exists (cpu :: pre), c, post. set_solver.
Qed.

(** A CPU set a domain may use: distinct CPUs, at least one per worker. *)
Definition cpus_ok (cpus : list Z) (workers : Z) : Prop := NoDup cpus /\ 0 < workers <= len cpus.

Lemma validate_cpu_set_ok cpus workers : 0 <= workers ->
  validate_cpu_set cpus workers = Ok tt <-> cpus_ok cpus workers.
Proof.
  intros Hw. unfold validate_cpu_set, cpus_ok. pose proof (first_duplicate_spec cpus ∅) as Hd.
  destruct cpus as [|c cpus]; [rcbn; split; [done|unfold len; cbn; lia]|]. cbn [fail_if]. rcbn.
  destruct (first_duplicate ∅ (c :: cpus)) as [[]|e].
  - rcbn. destruct (Z.eqb_spec workers 0), (Z.ltb_spec (len (c :: cpus)) workers); rcbn; split; try done; try lia.
    intros _. split; [apply Hd|lia].
  - rcbn. split; [done|]. intros [Hnd _]. destruct Hd as (pre & cpu & post & -> & Heq & [Hc|Hc]); [set_solver|].
    rewrite Heq in Hnd. apply NoDup_app in Hnd as (_ & Hno & _). exfalso. apply (Hno cpu Hc). by left.
Qed.

Lemma validate_linux_cpu_range_ok n cpus :
  validate_linux_cpu_range n cpus = Ok tt <-> Forall (fun cpu => cpu < n) cpus.
Proof.
  induction cpus as [|cpu cpus IH]; cbn [validate_linux_cpu_range]; [by split|]. rewrite Forall_cons.
  destruct (Z.leb_spec n cpu) as [Hle|Hlt]; [|tauto]. split; [done|]. intros [? _]. lia.
Qed.

Lemma validate_allowed_ok allowed cpus :
  validate_allowed allowed cpus = Ok tt <-> Forall (fun cpu => cpu ∈ allowed) cpus.
Proof.
  induction cpus as [|cpu cpus IH]; cbn [validate_allowed]; [by split|]. rewrite Forall_cons.
  destruct (decide (cpu ∈ allowed)) as [|Hno]; [tauto|]. split; [done|]. by intros [? _].
Qed.

(** ** Worker start-up *)

Section Startup.
Context (pin_and_verify : Z -> result (exn text) unit) (cpus : list Z) (workers : Z).
Local Abbreviation report := (start_handler pin_and_verify cpus).

Lemma report_on_cpu i cpu : cpus !! Z.to_nat i = Some cpu -> cpu < usize_max ->
  report i = mkWorkerReport i cpu (match pin_and_verify cpu with
    | Ok _ => Ok tt | Err (Raise message) => Err message | Err Panic => Err (lit "worker pinner panicked") end).
Proof.
  intros Hc Hlt. unfold start_handler. rewrite Hc. cbv zeta. change (default usize_max (Some cpu)) with cpu.
  rewrite (proj2 (Z.eqb_neq cpu usize_max)) by lia.
  by destruct (pin_and_verify cpu) as [[]|[]].
Qed.

(** Every worker reports once, in some order: the outcome is the first failure to
    pin in that order. *)
Lemma await_reports_spec idx : forall seen received,
  length seen = Z.to_nat workers -> received + len idx = workers -> NoDup idx ->
  Forall (fun i => 0 <= i < workers /\ seen !! Z.to_nat i = Some false /\
    exists cpu, cpus !! Z.to_nat i = Some cpu /\ cpu < usize_max) idx ->
  await_reports workers cpus seen received (map (fun i => Some (report i)) idx) =
    match mapR (fun i => map_err (PinFailed i (report_cpu (report i))) (report_result (report i))) idx with
    | Ok _ => Ok tt | Err e => Err (Raise e) end.
Proof.
  induction idx as [|i idx IH]; intros seen received Hlen Hrec Hnd Hall.
  { rewrite len_nil in Hrec.
    cbn [map mapR await_reports]. by rewrite (proj2 (Z.ltb_ge received workers)) by lia. }
  rewrite len_cons in Hrec. pose proof (len_nonneg idx). apply Forall_cons in Hall as [(Hi & Hs & cpu & Hc & Hlt) Hall].
  apply NoDup_cons in Hnd as [Hnot Hnd]. cbn [map await_reports mapR]. rewrite (proj2 (Z.ltb_lt received workers)) by lia.
  rewrite (report_on_cpu i cpu Hc Hlt). cbn [report_index report_cpu report_result].
  rewrite (proj2 (Z.leb_gt workers i)) by lia. rewrite Hs. rcbn. rewrite bool_decide_true by done. rcbn.
  destruct (match pin_and_verify cpu with Ok _ => _ | Err _ => _ end) as [[]|m]; cbn [map_err]; rcbn; [|done].
  rewrite IH; [by destruct (mapR _ idx)|by rewrite length_insert|lia|done|].
  apply Forall_forall. intros j Hj. rewrite Forall_forall in Hall. destruct (Hall j Hj) as (Hjr & Hjs & Hjc).
  split; [done|]. split; [|done]. rewrite list_lookup_insert_ne; [done|]. intros Heq. apply Hnot.
  assert (i = j) as -> by lia. done.
Qed.
End Startup.

(** ** The parallel map runs every call once *)

Section Parallel.
Context {S T U E : Type} (display : E -> text) (g : T -> result E U) (f : T -> M S E U) (Hf : computes g f).

(** The state after the calls of [f] on the items at [order]. *)
Definition after_calls (items : list T) (order : list nat) (s : S) : S :=
  foldl (fun s i => match items !! i with Some x => (f x s).2 | None => s end) s order.

Lemma par_calls_spec items order : forall slots s,
  Forall (fun i => (i < length items)%nat) order -> length slots = length items ->
  exists slots', par_calls f order items slots s = (Ok slots', after_calls items order s) /\
    length slots' = length items /\
    forall i, slots' !! i = if decide (i ∈ order) then Some <$> (g <$> items !! i) else slots !! i.
Proof.
  induction order as [|i order IH]; intros slots s Hall Hlen.
  { exists slots. split_and!; [done|done|]. intros i. by rewrite decide_False by apply not_elem_of_nil. }
  apply Forall_cons in Hall as [Hi Hall]. destruct (lookup_lt_is_Some_2 _ _ Hi) as [x Hx].
  cbn [par_calls after_calls foldl]. rewrite Hx. pose proof (Hf x s) as Hg. destruct (f x s) as [r s'] eqn:Hfx.
  cbn [fst] in Hg. assert (Hr : match r with Ok v => Ok v | Err (Raise e) => Err e | Err Panic => g x end = g x)
    by (subst r; by destruct (g x)).
  destruct (IH (<[i := Some (g x)]> slots) s' Hall ltac:(by rewrite length_insert)) as (slots' & Hrun & Hlen' & Hl).
  exists slots'. split.
  - destruct r as [v|[e|]]; [| |by destruct (g x)]; rewrite Hr; cbn [snd]; exact Hrun.
  - split; [done|]. intros j. rewrite Hl. destruct (decide (j ∈ order)) as [Hj|Hj].
    + by rewrite decide_True by (by right).
    + destruct (decide (i = j)) as [<-|Hne].
      * rewrite list_lookup_insert_eq by lia. rewrite decide_True by left. by rewrite Hx.
      * rewrite list_lookup_insert_ne by done. rewrite decide_False; [done|]. by intros [->|?]%elem_of_cons.
Qed.

Lemma map_loop_results (rs : list (result E U)) : forall k output (s : S),
  map_loop display lift k output rs s = ((map_loop display lift k output rs tt).1, s).
Proof.
  induction rs as [|[v|e] rs IH]; intros k output s; cbn [map_loop lift]; [done|apply IH|].
  by destruct (MapError_new display k e).
Qed.

Lemma map_loop_map items : forall k output,
  map_loop display (@lift unit E U) k output (map g items) tt = map_loop display (fun x => lift (g x)) k output items tt.
Proof.
  induction items as [|x items IH]; intros k output; cbn [map map_loop]; [done|].
  unfold lift at 1 3. destruct (g x) as [v|e]; [apply IH|done].
Qed.

(** Whatever the order of the calls, the result is that of the serial map. *)
Lemma outer_spec items order s : order ≡ₚ seq 0 (length items) ->
  run_in_current_pool display f order Outer items s = (serial display g items, after_calls items order s).
Proof.
  intros Hord. cbn [run_in_current_pool].
  destruct (par_calls_spec items order (replicate (length items) None) s) as (slots & Hrun & Hlen & Hl).
  { rewrite Hord. apply Forall_forall. intros i Hi%elem_of_seq. lia. }
  { apply length_replicate. }
  assert (slots = map (Some ∘ g) items) as ->.
  { apply list_eq. intros i. rewrite Hl, list_lookup_fmap. destruct (decide (i ∈ order)) as [Hi|Hi].
    - by destruct (items !! i).
    - assert (length items <= i)%nat by (rewrite Hord, elem_of_seq in Hi; lia).
      rewrite !lookup_ge_None_2 by (rewrite ?length_replicate; lia). done. }
  rewrite (M_bind_step _ _ _ _ _ Hrun). cbv beta. rewrite M_bind_lift_exn.
  rewrite (mapR_all _ _ (map g items)).
  - unfold map_items, serial. rewrite map_loop_results. by rewrite map_loop_map.
  - clear. induction items as [|x items IH]; constructor; [done|exact IH].
Qed.

Lemma run_in_pool_spec {P} (p : P) order mode items s : order ≡ₚ seq 0 (length items) ->
  run_in_pool display f p order mode items s =
    (serial display g items,
     match mode with Outer => after_calls items order s | _ => (map_items display f items s).2 end).
Proof.
  intros Hord. unfold run_in_pool. destruct mode; [|by apply outer_spec|]; cbn [run_in_current_pool];
    rewrite <- (map_items_computes display g f items s Hf); by destruct (map_items display f items s).
Qed.
End Parallel.

(** ** Properties *)

Section Properties.
Context {P : Type} `{EqDecision P}.

(** C38: Building a managed domain.  Whatever order Rayon starts the workers in,
    [managed] returns a domain exactly when the CPU set has distinct CPUs, at
    least one per worker, all in range and allowed to the process, the pool was
    built and every worker pinned itself to the CPU of its own index; the domain
    is then idle and records that CPU set as verified.  It never panics. *)
Theorem managed_domain_exact (pin : Z -> result (exn text) unit) cpu_set_size allowed (built : result text P)
    idx cpus workers d :
  0 <= workers -> cpu_set_size <= usize_max -> idx ≡ₚ map Z.of_nat (seq 0 (Z.to_nat workers)) ->
  let r := managed cpu_set_size allowed built (map (fun i => Some (start_handler pin cpus i)) idx) cpus workers in
  (r = Ok d <->
     cpus_ok cpus workers /\ Forall (fun cpu => cpu < cpu_set_size) cpus /\
     (exists set, allowed = Ok set /\ Forall (fun cpu => cpu ∈ set) cpus) /\
     Forall (fun cpu => pin cpu = Ok tt) (take (Z.to_nat workers) cpus) /\
     exists p, built = Ok p /\ d = mkDomain 0 workers false (Some p) (Some cpus) (Some Managed) (Some Verified)) /\
  r <> Err Panic.
Proof.
  intros Hw Hsize Hidx r. unfold r, managed.
  destruct (validate_cpu_set cpus workers) as [[]|e] eqn:Hv; [|split; [|by destruct e]].
  2: { rcbn. split; [done|]. intros (Hok & _). apply validate_cpu_set_ok in Hok; [congruence|done]. }
  apply validate_cpu_set_ok in Hv as Hcpus; [|done].
  destruct (validate_linux_cpu_range cpu_set_size cpus) as [[]|e] eqn:Hr; [|split; [|by destruct e]].
  2: { rcbn. split; [done|]. intros (_ & Hok & _). apply validate_linux_cpu_range_ok in Hok; congruence. }
  apply validate_linux_cpu_range_ok in Hr as Hrange.
  destruct allowed as [set|errno]; cbn [map_err]; rcbn; [|split; [|done]; split; [done|by intros (_ & _ & (? & ? & _) & _)]].
  destruct (validate_allowed set cpus) as [[]|e] eqn:Ha; [|split; [|by destruct e]].
  2: { rcbn. split; [done|]. intros (_ & _ & (set' & [= <-] & Hok) & _). apply validate_allowed_ok in Hok; congruence. }
  apply validate_allowed_ok in Ha as Hallowed. rcbn. unfold build_managed.
  destruct built as [p|m]; cbn [map_err]; rcbn; [|split; [|done]; split; [done|by intros (_ & _ & _ & _ & ? & ? & _)]].
  assert (Hlen : len idx = workers) by (unfold len; rewrite Hidx, length_map, length_seq; lia).
  assert (Hon : forall i, i ∈ idx -> exists cpu, cpus !! Z.to_nat i = Some cpu /\ cpu < usize_max /\ 0 <= i < workers
    /\ (Z.to_nat i < Z.to_nat workers)%nat).
  { intros i Hi. rewrite Hidx in Hi. apply list_elem_of_fmap in Hi as (j & -> & Hj%elem_of_seq).
    destruct Hcpus as [_ Hc]. unfold len in Hc. destruct (lookup_lt_is_Some_2 cpus j) as [cpu Hcpu]; [lia|].
    rewrite Nat2Z.id. exists cpu. split; [done|]. rewrite Forall_lookup in Hrange. specialize (Hrange j cpu Hcpu). lia. }
  rewrite (await_reports_spec pin cpus workers).
  - pose proof (mapR_ok_iff (fun i => map_err (PinFailed i (report_cpu (start_handler pin cpus i)))
      (report_result (start_handler pin cpus i))) idx) as Hiff.
    assert (Hpins : Forall (fun i => is_ok (map_err (PinFailed i (report_cpu (start_handler pin cpus i)))
        (report_result (start_handler pin cpus i))) = true) idx
      <-> Forall (fun cpu => pin cpu = Ok tt) (take (Z.to_nat workers) cpus)).
    { rewrite Forall_forall, Forall_lookup. split.
      - intros Hall j cpu [Hj Hjw]%lookup_take_Some.
        assert (Hi : Z.of_nat j ∈ idx) by (rewrite Hidx; apply list_elem_of_fmap_2, elem_of_seq; lia).
        specialize (Hall _ Hi). destruct (Hon _ Hi) as (cpu' & Hc' & Hlt & _). rewrite Nat2Z.id in Hc'.
        assert (cpu' = cpu) as -> by congruence.
        rewrite (report_on_cpu pin cpus (Z.of_nat j) cpu) in Hall by (by rewrite ?Nat2Z.id).
        cbn in Hall. by destruct (pin cpu) as [[]|[]].
      - intros Hall i Hi. destruct (Hon i Hi) as (cpu & Hc & Hlt & _ & Hiw). rewrite (report_on_cpu pin cpus i cpu Hc Hlt).
        cbn. by rewrite (Hall (Z.to_nat i) cpu) by (by apply lookup_take_Some). }
    rewrite <- Hpins, <- Hiff. destruct (mapR _ idx) as [out|e]; rcbn.
    + split; [|done]. split; [intros [= <-]|intros (_ & _ & _ & _ & q & [= <-] & ->)]; eauto 10.
    + split; [|done]. split; [done|]. by intros (_ & _ & _ & (? & ?) & _).
  - apply length_replicate.
  - lia.
  - rewrite Hidx. apply NoDup_fmap_2; [apply _|apply NoDup_seq].
  - apply Forall_forall. intros i Hi. destruct (Hon i Hi) as (cpu & Hc & Hlt & Hir & Hiw).
    split; [done|]. split; [by apply lookup_replicate_2|eauto].
Qed.

(** [map_in] checks its preconditions in order, before any callback runs and
    without changing the domain: a pool, a caller that is not a worker of
    another pool, a free admission slot.  When they hold it returns, in every
    mode and whatever order Rayon runs the callbacks in, exactly what the serial
    map returns (the results in input order, or the error of the lowest failing
    index); in [Outer] mode every input is evaluated exactly once; and the
    admission slot is free again. *)
Theorem map_in_exact {S T U E} (display : E -> text) (g : T -> result E U) (f : T -> M S E U)
    (thread_pool : option P) order mode items (d : Domain P) s :
  computes g f -> order ≡ₚ seq 0 (length items) ->
  map_in display f thread_pool order mode items (d, s) =
    match pool d with
    | None => (Err (Raise MissingPool), (d, s))
    | Some p =>
        if bool_decide (thread_pool = None \/ thread_pool = Some p) then
          if running d then (Err (Raise (Busy mkDomainBusy)), (d, s))
          else (match serial display g items with
                | Ok vs => Ok vs
                | Err (Raise e) => Err (Raise (Callback e))
                | Err Panic => Err Panic
                end,
                (d, match mode with
                    | Outer => after_calls f items order s
                    | _ => (map_items display f items s).2
                    end))
        else (Err (Raise ForeignPool), (d, s))
    end.
Proof.
  intros Hf Hord. unfold map_in. destruct (pool d) as [p|] eqn:Hp; [|done].
  unfold current_thread_index_is_none.
  replace (in_rayon_worker_context thread_pool && negb (bool_decide (thread_pool = Some p)))
    with (negb (bool_decide (thread_pool = None \/ thread_pool = Some p))).
  2: { unfold in_rayon_worker_context. destruct thread_pool as [q|]; cbn [andb];
         [|by rewrite bool_decide_true by auto]. f_equal. apply bool_decide_ext. naive_solver. }
  destruct (bool_decide (thread_pool = None \/ _)); cbn [negb]; [|done].
  unfold try_admit. destruct (running d) eqn:Hrun; [done|].
  rewrite (run_in_pool_spec display g f Hf) by done. f_equal. f_equal.
  destruct d. cbn in *. by subst.
Qed.
End Properties.

(** ** Witnesses *)

(** A callback that counts its calls and refuses the number 7. *)
Definition ex_pure (x : Z) : result text Z := if x =? 7 then Err (lit "seven") else Ok (2 * x).
Definition ex_callback (x : Z) : M nat text Z := fun s => (if x =? 7 then Err (Raise (lit "seven")) else Ok (2 * x), S s).
Lemma ex_computes : computes ex_pure ex_callback.
Proof. intros x s. unfold ex_pure, ex_callback. by destruct (x =? 7). Qed.
Definition ex_domain : Domain nat := mkDomain 0 2 false (Some 5%nat) (Some [0; 1]) (Some External) (Some CallerDeclared).

Lemma map_in_exact_witness :
  map_in (fun e => e) ex_callback (Some 5%nat) [2; 0; 3; 1]%nat Outer [1; 7; 3; 7] (ex_domain, 0%nat)
    = (Err (Raise (Callback (mkMapError 1 (lit "seven")))), (ex_domain, 4%nat)) /\
  map_in (fun e => e) ex_callback (Some 6%nat) [1; 0]%nat Inner [1; 2] (ex_domain, 0%nat)
    = (Err (Raise ForeignPool), (ex_domain, 0%nat)).
Proof.
  split.
  - rewrite (map_in_exact (fun e => e) ex_pure ex_callback); [reflexivity|exact ex_computes|].
    apply NoDup_Permutation; [by apply (bool_decide_unpack _); vm_compute|apply NoDup_seq|].
    intros x. cbn. rewrite !elem_of_cons. naive_solver.
  - rewrite (map_in_exact (fun e => e) ex_pure ex_callback); [reflexivity|exact ex_computes|].
    apply NoDup_Permutation; [by apply (bool_decide_unpack _); vm_compute|apply NoDup_seq|].
    intros x. cbn. rewrite !elem_of_cons. naive_solver.
Defined.

(** Two workers on CPUs 4 and 5; the second one starts first. *)
Definition ex_pin (cpu : Z) : result (exn text) unit := if cpu =? 9 then Err Panic else Ok tt.
Lemma managed_domain_exact_witness :
  managed (P := nat) 1024 (Ok {[4; 5; 9]}) (Ok 5%nat) (map (fun i => Some (start_handler ex_pin [4; 5] i)) [1; 0]) [4; 5] 2
    = Ok (mkDomain 0 2 false (Some 5%nat) (Some [4; 5]) (Some Managed) (Some Verified)) /\
  managed (P := nat) 1024 (Ok {[4; 5; 9]}) (Ok 5%nat) (map (fun i => Some (start_handler ex_pin [4; 9] i)) [1; 0]) [4; 9] 2
    <> Err Panic.
Proof.
  split.
  - apply (managed_domain_exact ex_pin 1024 (Ok {[4; 5; 9]}) (Ok 5%nat) [1; 0] [4; 5] 2); [lia|by vm_compute|apply perm_swap|].
    unfold cpus_ok. split_and!; [by apply (bool_decide_unpack _); vm_compute|done|by vm_compute| | |by repeat constructor|eauto].
    + by repeat constructor.
    + eexists. split; [done|]. repeat constructor; set_solver.
  - by apply (managed_domain_exact ex_pin 1024 (Ok {[4; 5; 9]}) (Ok 5%nat) [1; 0] [4; 9] 2
      (mkDomain 0 2 false None None None None)); [lia|vm_compute|apply perm_swap].
Defined.
