(* ===== verification/Pmap.v ===== *)
(** * Pmap: the dynamically scheduled map over MPI ranks

    Models [src/pmap.rs] as built without Rayon: every rank runs [pmap] below
    over a duplicated communicator ([Mpi]); the root drives the coordinator
    ([Scheduler]) and also computes batches itself, the other ranks ask for
    batches until they are told to stop.  An iteration of a [loop] of the code
    uses one unit of [fuel].  The codec of tasks and results is a parameter, as
    in [Wire]; the callback of a rank keeps a state [S].  The thread-local
    [ACTIVE] flag and the domain are the state of the calling rank. *)
From Stdlib Require Import FunctionalExtensionality.
From stdpp Require Import functions.
From S2P Require Import Prelude Text Wire Scheduler Mpi LocalDomain.

Definition HEADER_TAG : Z := 0.
Definition PAYLOAD_TAG : Z := 1.

(** ** Options and errors *)

Record PmapOptions : Type := mkPmapOptions {
  opt_root : Z; opt_batch_size : Z; opt_local_mode : LocalMode; opt_prefetch : bool;
}.
Definition PmapOptions_default : PmapOptions := mkPmapOptions 0 1 Sequential false.

Inductive PmapErrorKind : Type := Reentrant | Preflight | User | Wire_ | Protocol_.

Definition PmapErrorKind_code (k : PmapErrorKind) : Z :=
  match k with Reentrant => 0 | Preflight => 1 | User => 2 | Wire_ => 3 | Protocol_ => 4 end.
Definition PmapErrorKind_from_code (code : Z) : option PmapErrorKind :=
  if code =? 0 then Some Reentrant else if code =? 1 then Some Preflight else if code =? 2 then Some User
  else if code =? 3 then Some Wire_ else if code =? 4 then Some Protocol_ else None.

Record PmapError : Type := mkPmapError { error_kind : PmapErrorKind; error_key_of : option Z; error_message : text }.
Definition PmapError_new (kind : PmapErrorKind) (message : text) : PmapError := mkPmapError kind None (bounded message).
Definition PmapError_keyed (kind : PmapErrorKind) (key : Z) (message : text) : PmapError :=
  mkPmapError kind (Some key) (bounded message).

Definition LocalError : Type := PmapErrorKind * text.

Definition wire_error (e : WireError) : PmapError := PmapError_new Wire_ (WireError_display e).
Definition protocol_error (message : text) : PmapError := PmapError_new Protocol_ message.
Definition scheduler_error (e : SchedulerError) : PmapError := protocol_error (SchedulerError_display e).

(** [String::from_utf8(bytes).map_err(protocol_error)]; the text of the error,
    which the caller drops, is not modelled. *)
Definition from_utf8 (bytes : list byte) : result PmapError text :=
  if utf8_valid bytes then Ok bytes else Err (protocol_error (lit "invalid utf-8 sequence")).

(** ** Frames *)

Definition header (kind : MessageKind) (status : MessageStatus) (batch_id item_count payload_len : Z) :
    result PmapError Header :=
  map_err wire_error (Header_new kind status batch_id item_count payload_len).

Definition send_header {R} (rank : Z) (value : Header) (k : Prog R) : Prog R :=
  Send rank HEADER_TAG (Header_encode value) k.

Definition receive_header (rank : Z) : Prog (result PmapError Header) :=
  Recv rank HEADER_TAG (fun bytes => Ret (map_err wire_error (Header_decode bytes))).

Definition receive_any_header : Prog (result PmapError (Z * Header)) :=
  RecvAny HEADER_TAG (fun source bytes => Ret (map_err wire_error (value ← Header_decode bytes; Ok (source, value)))).

Definition receive_payload {A} (decode : list byte -> result text (A * Z)) (rank : Z) (value : Header) :
    Prog (result PmapError A) :=
  count ←? Ret (map_err wire_error (checked_mpi_count (payload_len value)));
  _ ←? Ret (map_err wire_error (checked_usize_length (payload_len value)));
  Recv rank PAYLOAD_TAG (fun bytes =>
    if negb (len bytes =? count) then Ret (Err (protocol_error (lit "payload length does not match its header")))
    else failing wire_error (decode_payload decode bytes)).

Definition send_frame {A} (encode : A -> result text (list byte)) (rank : Z) (kind : MessageKind) (status : MessageStatus)
    (batch_id item_count : Z) (payload : A) : Prog (result PmapError unit) :=
  bytes ←? failing wire_error (encode_payload encode payload);
  value ←? Ret (header kind status batch_id item_count (len bytes));
  send_header rank value (Send rank PAYLOAD_TAG bytes (Ret (Ok tt))).

Definition send_empty (rank : Z) (kind : MessageKind) (batch_id : Z) : Prog (result PmapError unit) :=
  value ←? Ret (header kind Status_None batch_id 0 0);
  send_header rank value (Ret (Ok tt)).

Record CallbackFailure : Type := mkCallbackFailure { failure_index : Z; failure_kind : Z; failure_message : text }.
#[export] Instance CallbackFailure_eq_dec : EqDecision CallbackFailure.
Proof. solve_decision. Defined.

Inductive ResultPayload (U : Type) : Type :=
| Values (values : list (nat * U))
| Error (failure : CallbackFailure).
Arguments Values {U} _.
Arguments Error {U} _.

Definition error_key (task_key : Z) (class : ErrorClass) (rank world_size : Z) : result PmapError Z :=
  map_err wire_error (ErrorKey_new task_key class rank world_size).

(** ** Collectives *)

Definition convergence (local_key : Z) : Prog Z := all_reduce Op_Min local_key.

(** [option.ok_or_else(..)?] and [result?] in a program. *)
Definition ok_else {A} (o : option A) (e : PmapError) : Prog (result PmapError A) := Ret (ok_or o e).

Definition broadcast_error (size rank : Z) (selected local_key : Z) (local : option LocalError) :
    Prog (result PmapError (option LocalError)) :=
  if selected =? NO_ERROR_KEY then Ret (Ok None)
  else if (selected <? 0) || (size <=? 0) then Ret (Err (protocol_error (lit "invalid selected error key")))
  else
    let winner := selected mod size in
    let is_winner := rank =? winner in
    if is_winner && negb (local_key =? selected)
    then Ret (Err (protocol_error (lit "winner does not own selected error")))
    else
      let winner_local := if is_winner then local else None in
      let kind := match winner_local with Some (kind, _) => PmapErrorKind_code kind | None => PmapErrorKind_code Protocol_ end in
      kind ← broadcast_z winner kind;
      key ← broadcast_z winner selected;
      if negb (key =? selected) then Ret (Err (protocol_error (lit "broadcast error key mismatch")))
      else
        let message := match winner_local with Some (_, message) => message | None => [] end in
        if i32_max <? len message then Ret (Err (protocol_error (lit "error message length overflow")))
        else
          length ← broadcast_z winner (len message);
          if (length <? 0) || (Z.of_nat MAX_ERROR_MESSAGE_BYTES <? length)
          then Ret (Err (protocol_error (lit "invalid broadcast error message length")))
          else
            message ← broadcast_bytes winner (if is_winner then message else resize length message);
            kind ←? ok_else (PmapErrorKind_from_code kind) (protocol_error (lit "invalid error kind"));
            message ←? Ret (from_utf8 message);
            Ret (Ok (Some (kind, message))).

Definition mode_code (m : LocalMode) : Z := match m with Sequential => 0 | Outer => 1 | Inner => 2 end.
Definition bool_code (b : bool) : Z := if b then 1 else 0.

Definition preflight (size rank : Z) (thread_main : bool) (options : PmapOptions) (has_items execution_valid : bool) :
    Prog (result PmapError unit) :=
  let local_batch := opt_batch_size options in
  let local_mode := mode_code (opt_local_mode options) in
  let local_prefetch := bool_code (opt_prefetch options) in
  min_root ← all_reduce Op_Min (opt_root options);
  max_root ← all_reduce Op_Max (opt_root options);
  min_batch ← all_reduce Op_Min local_batch;
  max_batch ← all_reduce Op_Max local_batch;
  min_mode ← all_reduce Op_Min local_mode;
  max_mode ← all_reduce Op_Max local_mode;
  min_prefetch ← all_reduce Op_Min local_prefetch;
  max_prefetch ← all_reduce Op_Max local_prefetch;
  let local_valid :=
    thread_main
    && (0 <=? opt_root options)
    && (opt_root options <? size)
    && Bool.eqb (rank =? opt_root options) has_items
    && execution_valid
    && (min_root =? max_root)
    && (min_batch =? max_batch)
    && (min_mode =? max_mode)
    && (min_prefetch =? max_prefetch) in
  candidate ←? Ret (map_err wire_error (preflight_candidate (negb local_valid) rank size));
  failing_rank ← all_reduce Op_Min candidate;
  if negb (failing_rank =? size)
  then Ret (Err (PmapError_new Preflight (lit "pmap preflight failed on rank " ++ decimal failing_rank)))
  else Ret (Ok tt).

(** ** Loops of the ranks *)

Record RootState (T U St : Type) : Type := mkRootState {
  scheduler : Coordinator T U; local_key : Z; local_error : option LocalError; callback : St;
}.
Arguments mkRootState {T U St} _ _ _ _.
Arguments scheduler {T U St} _.
Arguments local_key {T U St} _.
Arguments local_error {T U St} _.
Arguments callback {T U St} _.

(** What [pmap] touches of the process: the thread's [ACTIVE] flag and the domain. *)
Record Local (P : Type) : Type := mkLocal { active : bool; domain : Domain P }.
Arguments mkLocal {P} _ _.
Arguments active {P} _.
Arguments domain {P} _.

Section Rank.
Context {St T U E : Type} (display : E -> text) (f : T -> M St E U)
  (encode_items : list (nat * T) -> result text (list byte))
  (decode_items : list byte -> result text (list (nat * T) * Z))
  (encode_result : ResultPayload U -> result text (list byte))
  (decode_result : list byte -> result text (ResultPayload U * Z))
  (size rank : Z).

(** The loop over the items of a batch, up to the first failure; [None] when a
    callback panics. *)
Fixpoint call_items {R} (mk : nat -> U -> R) (its : list (nat * T)) (results : list R) (s : St) :
    option (list R * option (nat * text) * St) :=
  match its with
  | [] => Some (results, None, s)
  | (index, item) :: rest =>
      match f item s with
      | (Ok v, s) => call_items mk rest (results ++ [mk index v]) s
      | (Err (Raise error), s) => Some (results, Some (index, bounded (display error)), s)
      | (Err Panic, _) => None
      end
  end.

Fixpoint worker_loop (fuel : nat) (root : Z) (local_key : Z) (local_error : option LocalError) (s : St) :
    Prog (result PmapError (Z * option LocalError)) :=
  match fuel with
  | O => OutOfFuel
  | S fuel =>
      _ ←? send_empty root Kind_Ready 0;
      value ←? receive_header root;
      match kind value with
      | Kind_Task =>
          r ← receive_payload decode_items root value;
          match r with
          | Err error =>
              let index := item_count value in
              key ←? Ret (error_key index Class_WireProtocol rank size);
              _ ←? send_frame encode_result root Kind_Result Status_Error (Wire.batch_id value) 1
                     (Error (mkCallbackFailure index (PmapErrorKind_code Wire_) (error_message error)));
              worker_loop fuel root (Z.min local_key key) (Some (Wire_, error_message error)) s
          | Ok its =>
              match call_items pair its [] s with
              | None => Abort 71
              | Some (results, Some (index, message), s) =>
                  let failure := mkCallbackFailure (Z.of_nat index) (PmapErrorKind_code User) message in
                  key ←? Ret (error_key (failure_index failure) Class_Callback rank size);
                  _ ←? send_frame encode_result root Kind_Result Status_Error (Wire.batch_id value) (item_count value)
                         (Error failure);
                  worker_loop fuel root (Z.min local_key key) (Some (User, failure_message failure)) s
              | Some (results, None, s) =>
                  _ ←? send_frame encode_result root Kind_Result Status_Ok (Wire.batch_id value) (len results)
                         (Values results);
                  worker_loop fuel root local_key local_error s
              end
          end
      | Kind_Stop => _ ←? send_empty root Kind_Drain 0; Ret (Ok (local_key, local_error))
      | _ => Ret (Err (protocol_error (lit "worker received an unexpected message")))
      end
  end.

(** A call of a method of the coordinator, [map_err(scheduler_error)?]. *)
Definition schedule {A} (m : M (Coordinator T U) SchedulerError A) (st : RootState T U St) :
    Prog (result PmapError (A * RootState T U St)) :=
  match m (scheduler st) with
  | (Ok a, c) => Ret (Ok (a, mkRootState c (local_key st) (local_error st) (callback st)))
  | (Err (Raise e), _) => Ret (Err (scheduler_error e))
  | (Err Panic, _) => Crash
  end.

(** The key becomes the smaller of the two, the error the new one. *)
Definition record_error (key : Z) (error : LocalError) (st : RootState T U St) : RootState T U St :=
  mkRootState (scheduler st) (Z.min (local_key st) key) (Some error) (callback st).

Definition batch_pairs (b : Batch T) : list (nat * T) := map (fun item => (item_index item, item_value item)) (items b).

Definition execute_root_batch (st : RootState T U St) : Prog (result PmapError (bool * RootState T U St)) :=
  r ←? schedule next_root_batch st;
  let '(batch, st) := r in
  match batch with
  | None => Ret (Ok (false, st))
  | Some batch =>
      let id := Scheduler.batch_id batch in
      match call_items mkItemResult (batch_pairs batch) [] (callback st) with
      | None => Abort 70
      | Some (results, failure, s) =>
          let st := mkRootState (scheduler st) (local_key st) (local_error st) s in
          match failure with
          | Some (index, message) =>
              key ←? Ret (error_key (Z.of_nat index) Class_Callback rank size);
              r ←? schedule (on_root_error id) (record_error key (User, message) st);
              Ret (Ok (true, r.2))
          | None =>
              r ←? schedule (on_root_success id results) st;
              Ret (Ok (true, r.2))
          end
      end
  end.

Definition process_remote_header (call_task_key : Z) (source : Z) (value : Header) (st : RootState T U St) :
    Prog (result PmapError (RootState T U St)) :=
  match kind value with
  | Kind_Ready =>
      r ←? schedule (on_remote_ready source) st;
      let '(dispatch, st) := r in
      match dispatch with
      | Dispatch_Task batch =>
          let its := batch_pairs batch in
          _ ←? send_frame encode_items source Kind_Task Status_None (Scheduler.batch_id batch) (len its) its;
          Ret (Ok st)
      | Dispatch_Stop => _ ←? send_empty source Kind_Stop 0; Ret (Ok st)
      end
  | Kind_Result =>
      r ← receive_payload decode_result source value;
      match r with
      | Err error =>
          key ←? Ret (error_key call_task_key Class_WireProtocol rank size);
          r ←? schedule (on_remote_protocol_error source) (record_error key (error_kind error, error_message error) st);
          Ret (Ok r.2)
      | Ok payload =>
          match status value, payload with
          | Status_Ok, Values values =>
              r ←? schedule (on_remote_success source (Wire.batch_id value)
                     (map (fun '(index, result) => mkItemResult index result) values)) st;
              Ret (Ok r.2)
          | Status_Error, Error _ =>
              r ←? schedule (on_remote_error source (Wire.batch_id value)) st;
              Ret (Ok r.2)
          | _, _ =>
              key ←? Ret (error_key call_task_key Class_WireProtocol rank size);
              r ←? schedule (on_remote_protocol_error source)
                     (record_error key (Protocol_, lit "invalid result status") st);
              Ret (Ok r.2)
          end
      end
  | Kind_Drain => r ←? schedule (on_remote_drain source) st; Ret (Ok r.2)
  | _ =>
      key ←? Ret (error_key call_task_key Class_WireProtocol rank size);
      r ←? schedule (on_remote_protocol_error source)
             (record_error key (Protocol_, lit "unexpected message from worker") st);
      Ret (Ok r.2)
  end.

(** The loop serving every message that is already pending. *)
Fixpoint serve (call_task_key : Z) (fuel served : nat) (st : RootState T U St) :
    Prog (result PmapError (nat * RootState T U St)) :=
  match fuel with
  | O => OutOfFuel
  | S fuel =>
      Probe HEADER_TAG (fun found =>
        if is_some found then
          r ←? receive_any_header;
          st ←? process_remote_header call_task_key r.1 r.2 st;
          serve call_task_key fuel (S served) st
        else Ret (Ok (served, st)))
  end.

Fixpoint root_iterations (call_task_key : Z) (fuel : nat) (st : RootState T U St) :
    Prog (result PmapError (RootState T U St)) :=
  match fuel with
  | O => OutOfFuel
  | S fuel =>
      if size =? 1 then
        r ←? execute_root_batch st;
        if r.1 then root_iterations call_task_key fuel r.2 else Ret (Ok r.2)
      else if is_finished (scheduler st) && is_quiescent (scheduler st) then Ret (Ok st)
      else
        r ←? serve call_task_key fuel 0 st;
        let '(served, st) := r in
        if is_finished (scheduler st) then root_iterations call_task_key fuel st
        else if Nat.eqb served 0 then
          r ←? execute_root_batch st;
          let st := r.2 in
          if is_finished (scheduler st) then root_iterations call_task_key fuel st
          else
            r ←? receive_any_header;
            st ←? process_remote_header call_task_key r.1 r.2 st;
            root_iterations call_task_key fuel st
        else root_iterations call_task_key fuel st
  end.

Definition root_loop (fuel : nat) (options : PmapOptions) (root_items : list T) (s : St) :
    Prog (result PmapError (list U * Z * option LocalError)) :=
  let remotes := filter (fun candidate => candidate <> opt_root options) (map Z.of_nat (seq 0 (Z.to_nat size))) in
  let call_task_key := len root_items in
  scheduler ←? Ret (map_err scheduler_error (new_with_prefetch (opt_root options) remotes root_items
                      (Z.to_nat (opt_batch_size options)) (opt_prefetch options)));
  st ←? root_iterations call_task_key fuel (mkRootState scheduler NO_ERROR_KEY None s);
  results ←? (if failed (Pmap.scheduler st) then Ret (Ok [])
              else Ret (map_err scheduler_error (into_results (Pmap.scheduler st))));
  Ret (Ok (results, local_key st, local_error st)).

(** ** The collective *)

Definition run_rank (fuel : nat) (options : PmapOptions) (root_items : option (list T)) (s : St) :
    Prog (result PmapError (list U * Z * option LocalError)) :=
  if rank =? opt_root options then
    match root_items with Some root_items => root_loop fuel options root_items s | None => Crash end
  else
    r ←? worker_loop fuel (opt_root options) NO_ERROR_KEY None s;
    Ret (Ok ([], r.1, r.2)).

(** From the outcome of the loops to the result of the call. *)
Definition conclude (options : PmapOptions) (outcome : result PmapError (list U * Z * option LocalError)) :
    Prog (result PmapError (option (list U))) :=
  match outcome with
  | Err _ => Abort 72
  | Ok (results, key, error) =>
      selected ← convergence key;
      e ← broadcast_error size rank selected key error;
      match e with
      | Err _ => Abort 73
      | Ok (Some (kind, message)) => Ret (Err (PmapError_keyed kind selected message))
      | Ok None => Ret (Ok (if rank =? opt_root options then Some results else None))
      end
  end.

Definition pmap {P} (fuel : nat) (thread_main : bool) (local : Local P) (options : PmapOptions)
    (root_items : option (list T)) (s : St) : Prog (Local P * result PmapError (option (list U))) :=
  if active local
  then Ret (local, Err (PmapError_new Reentrant (lit "pmap is already active on this thread")))
  else
    let '(admission, admitted) := try_admit (domain local) in
    let dropped := mkLocal false (match admission with Ok _ => release admitted | Err _ => admitted end) in
    Duplicate (
    r ← preflight size rank thread_main options (is_some root_items)
          (is_ok admission && (LocalDomain.id admitted =? 0) && (worker_count admitted =? 1)
           && bool_decide (opt_local_mode options = Sequential) && negb (opt_prefetch options));
    match r with
    | Err e => Ret (dropped, Err e)
    | Ok _ =>
        match admission with
        | Err _ => Crash
        | Ok _ => outcome ← run_rank fuel options root_items s; res ← conclude options outcome; Ret (dropped, res)
        end
    end).
End Rank.
