(* ===== verification/PmapRuns.v ===== *)
(** * PmapRuns: the collective map is the serial map

    The executions of [Pmap] on all ranks.  The proof follows the coordinator:
    between two messages the program of every worker is determined by its lane
    ([at_lane]), every accepted call of the coordinator decreases [remaining],
    and a ledger keeps the failures that were or will be reported for the inputs
    handed out so far. *)
From Stdlib Require Import FunctionalExtensionality.
From stdpp Require Import functions.
From S2P Require Import Prelude Text Wire Scheduler Mpi LocalDomain Pmap.

(** ** Calls of the coordinator *)

Section Schedule.
Context {St T U : Type}.
Implicit Types (st : RootState T U St) (c : Coordinator T U).

Definition with_scheduler c st : RootState T U St := mkRootState c (local_key st) (local_error st) (callback st).

Lemma schedule_event {A} (m : M (Coordinator T U) SchedulerError A) (view : A -> output T) ev st o c :
  (forall c', run_event ev c' = (a ← m; mret (view a)) c') -> accepted (scheduler st) ev o c ->
  exists a, view a = o /\ schedule m st = Ret (Ok (a, with_scheduler c st)).
Proof.
  intros Hev Ha. apply accepted_run in Ha. rewrite Hev in Ha. apply M_bind_ok in Ha as (a & c' & Hm & [= Hview ->]).
  exists a. split; [done|]. unfold schedule. by rewrite Hm.
Qed.

Lemma schedule_ready st rank o c : accepted (scheduler st) (RemoteReady rank) o c ->
  schedule (on_remote_ready rank) st =
    Ret (Ok (match o with Some b => Dispatch_Task b | None => Dispatch_Stop end, with_scheduler c st)).
Proof.
  intros Ha. destruct (schedule_event (on_remote_ready rank) dispatched_batch (RemoteReady rank) _ _ _ (fun _ => eq_refl) Ha) as (d & <- & ->). by destruct d.
Qed.

Lemma schedule_root st o c : accepted (scheduler st) NextRootBatch o c ->
  schedule next_root_batch st = Ret (Ok (o, with_scheduler c st)).
Proof.
  intros Ha. apply accepted_run in Ha. unfold schedule. cbn [run_event] in Ha. by rewrite Ha.
Qed.

(** The calls that hand out nothing. *)
Lemma schedule_done {A} (m : M (Coordinator T U) SchedulerError A) ev st o c :
  (forall c', run_event ev c' = (m;; mret None) c') -> accepted (scheduler st) ev o c ->
  exists a, schedule m st = Ret (Ok (a, with_scheduler c st)).
Proof. intros Hev Ha. destruct (schedule_event m (fun _ => None) _ _ _ _ Hev Ha) as (a & _ & ->). eauto. Qed.

Lemma accepted_same c ev o c' : accepted c ev o c' -> prefetch c' = prefetch c.
Proof. by intros []. Qed.

Lemma finished_quiescent (l : list T) c : inv l c -> is_finished c = true -> is_quiescent c = true.
Proof.
  intros Hinv Hf. pose proof (inv_root _ _ Hinv) as Hroot. unfold is_finished, kind_is, is_quiescent in *. zbool.
  destruct (root c); cbn in *; try done. rewrite Hroot. cbn. done.
Qed.
End Schedule.

(** ** Callbacks on a batch *)

Section Batches.
Context {St T U E : Type} (display : E -> text) (g : T -> result E U) (f : T -> M St E U) (Hf : computes g f).

Definition computed : nat * T -> nat * U -> Prop := fun '(i, x) '(j, u) => i = j /\ g x = Ok u.

Lemma call_items_spec {R} (mk : nat -> U -> R) its : forall results s, exists s',
  (exists vals, Forall2 computed its vals /\
     call_items display f mk its results s = Some (results ++ map (fun '(i, u) => mk i u) vals, None, s')) \/
  (exists pre i x post vals e rs, its = pre ++ (i, x) :: post /\ Forall2 computed pre vals /\ g x = Err e /\
     call_items display f mk its results s = Some (rs, Some (i, bounded (display e)), s')).
Proof.
  induction its as [|[i x] its IH]; intros results s.
  - exists s. left. exists []. split; [constructor|]. cbn. by rewrite app_nil_r.
  - cbn [call_items]. pose proof (Hf x s) as Hx. destruct (f x s) as [r s1]. cbn in Hx. subst r.
    destruct (g x) as [u|e] eqn:Hg.
    + destruct (IH (results ++ [mk i u]) s1) as (s' & [(vals & Hv & Hrun)|(pre & j & y & post & vals & e & rs & -> & Hv & He & Hrun)]).
      * exists s'. left. exists ((i, u) :: vals). split; [by constructor|]. rewrite Hrun. cbn. by rewrite <- app_assoc.
      * exists s'. right. exists ((i, x) :: pre), j, y, post, ((i, u) :: vals), e, rs. split_and!; [done|by constructor|done|done].
    + exists s1. right. exists [], i, x, its, [], e, results. split_and!; [done|constructor|done|done].
Qed.
End Batches.

(** ** The programs of the workers *)

Definition fits {A} (encode : A -> result text (list byte)) (v : A) : Prop :=
  exists bytes, encode v = Ok bytes /\ len bytes <= MAX_WIRE_BYTES.

(** The inputs with their indices. *)
Definition numbered {T} (xs : list T) : list (nat * T) := imap pair xs.

(** What the codec, a third-party library, does on the tasks and results of a run. *)
Record codec_ok {T U E} (display : E -> text) (g : T -> result E U) (xs : list T)
    (encode_items : list (nat * T) -> result text (list byte))
    (decode_items : list byte -> result text (list (nat * T) * Z))
    (encode_result : ResultPayload U -> result text (list byte))
    (decode_result : list byte -> result text (ResultPayload U * Z)) : Prop := {
  round_items : forall v bytes, encode_items v = Ok bytes -> decode_items bytes = Ok (v, len bytes);
  round_result : forall v bytes, encode_result v = Ok bytes -> decode_result bytes = Ok (v, len bytes);
  fits_items : forall j k, fits encode_items (take k (drop j (numbered xs)));
  fits_values : forall j k vals, Forall2 (computed g) (take k (drop j (numbered xs))) vals -> fits encode_result (Values vals);
  fits_error : forall i x e, xs !! i = Some x -> g x = Err e ->
    fits encode_result (Error (mkCallbackFailure (Z.of_nat i) (PmapErrorKind_code User) (bounded (display e))));
}.

Definition plain_header (k : MessageKind) : Header := mkHeader PROTOCOL_VERSION k Status_None 0 0 0.
Definition full_header (k : MessageKind) (s : MessageStatus) (id count size : Z) : Header :=
  mkHeader PROTOCOL_VERSION k s id count size.

Lemma try_bind_assoc {E A B C} (p : Prog (result E A)) (k1 : A -> Prog (result E B)) (k2 : B -> Prog (result E C)) :
  try_bind (try_bind p k1) k2 = try_bind p (fun x => try_bind (k1 x) k2).
Proof.
  unfold try_bind. rewrite prog_bind_assoc. f_equal. apply functional_extensionality. by intros [a|e].
Qed.

Lemma decode_encoded h : header_wf h -> Header_decode (Header_encode h) = Ok h.
Proof. intros Hh. rewrite header_encode_layout. by apply Header_decode_layout. Qed.

Lemma plain_header_wf k : validate_status k Status_None = Ok tt -> header_wf (plain_header k).
Proof. intros Hk. unfold header_wf, plain_header, in_u, MAX_WIRE_BYTES. cbn. split_and!; try done; zunfold; lia. Qed.

Lemma full_header_wf k s id count size : validate_status k s = Ok tt -> in_u 64 id -> in_u 64 count ->
  0 <= size <= MAX_WIRE_BYTES -> header_wf (full_header k s id count size).
Proof. intros Hk Hid Hc Hs. unfold header_wf, full_header. cbn. split_and!; done || apply Hid || apply Hc || apply Hs. Qed.

Lemma send_frame_eq {A X} (encode : A -> result text (list byte)) rank k s id count (v : A) bytes
    (B : unit -> Prog (result PmapError X)) :
  encode v = Ok bytes -> len bytes <= MAX_WIRE_BYTES -> validate_status k s = Ok tt ->
  try_bind (send_frame encode rank k s id count v) B =
    Send rank HEADER_TAG (Header_encode (full_header k s id count (len bytes))) (Send rank PAYLOAD_TAG bytes (B tt)).
Proof.
  intros He Hl Hs. unfold send_frame, encode_payload, detail_err. rewrite He.
  unfold validate_payload_len. rcbn. cbn [map_err]. rewrite (proj2 (Z.leb_le _ _) Hl). cbn [negb fail_if map_err]. rcbn.
  cbn [failing]. unfold header, Header_new. rewrite Hs. rcbn. unfold validate_payload_len.
  unfold try_bind. cbn [mbind Prog_bind prog_bind]. rewrite (proj2 (Z.leb_le _ _) Hl). done.
Qed.

Lemma send_empty_eq {X} rank k id (B : unit -> Prog (result PmapError X)) :
  validate_status k Status_None = Ok tt ->
  try_bind (send_empty rank k id) B = Send rank HEADER_TAG (Header_encode (full_header k Status_None id 0 0)) (B tt).
Proof.
  intros Hs. unfold send_empty, header, Header_new. rewrite Hs. rcbn. done.
Qed.

Lemma receive_header_eq {X} rank (B : Header -> Prog (result PmapError X)) :
  try_bind (receive_header rank) B =
    Recv rank HEADER_TAG (fun bytes => match Header_decode bytes with Ok h => B h | Err e => Ret (Err (wire_error e)) end).
Proof.
  unfold try_bind, receive_header. cbn. f_equal. apply functional_extensionality. intros bytes. by destruct (Header_decode bytes).
Qed.

Lemma receive_any_header_eq {X} (B : Z * Header -> Prog (result PmapError X)) :
  try_bind receive_any_header B =
    RecvAny HEADER_TAG (fun source bytes =>
      match Header_decode bytes with Ok h => B (source, h) | Err e => Ret (Err (wire_error e)) end).
Proof.
  unfold try_bind, receive_any_header. cbn. f_equal. apply functional_extensionality. intros source.
  apply functional_extensionality. intros bytes. by destruct (Header_decode bytes).
Qed.

(** Receiving a payload that arrives as announced. *)
Lemma receive_payload_eq {A X} (decode : list byte -> result text (A * Z)) rank value (K : result PmapError A -> Prog X) v bytes :
  payload_len value = len bytes -> len bytes <= MAX_WIRE_BYTES -> decode bytes = Ok (v, len bytes) ->
  exists k, (receive_payload decode rank value ≫= K) = Recv rank PAYLOAD_TAG k /\ k bytes = K (Ok v).
Proof.
  intros Hp Hl Hd. unfold receive_payload, checked_mpi_count, checked_usize_length. rewrite Hp.
  unfold MAX_WIRE_BYTES in *.
  rewrite (proj2 (Z.leb_le (len bytes) i32_max)) by lia.
  rewrite (proj2 (Z.leb_le (len bytes) usize_max)) by (zunfold; lia).
  cbn. eexists. split; [done|]. cbv beta. rewrite Z.eqb_refl. cbn [negb].
  unfold decode_payload, validate_payload_len, MAX_WIRE_BYTES. rewrite (proj2 (Z.leb_le (len bytes) i32_max)) by lia.
  cbn [negb fail_if map_err]. rcbn. rewrite Hd. cbn [detail_err]. rcbn. rewrite Z.eqb_refl. done.
Qed.

Section World.
Context {St T U E : Type} (display : E -> text) (g : T -> result E U) (f : nat -> T -> M St E U)
  (encode_items : list (nat * T) -> result text (list byte))
  (decode_items : list byte -> result text (list (nat * T) * Z))
  (encode_result : ResultPayload U -> result text (list byte))
  (decode_result : list byte -> result text (ResultPayload U * Z))
  (n hub : nat) (xs : list T)
  (Hf : forall r, computes g (f r)) (Hutf : forall e, utf8_valid (display e) = true)
  (Hcodec : codec_ok display g xs encode_items decode_items encode_result decode_result)
  (Hhub : (hub < n)%nat) (Hkeys : (len xs * 3 + 3) * Z.of_nat n <= NO_ERROR_KEY).

Local Abbreviation Outcome := (result PmapError (list U * Z * option LocalError)).
Local Abbreviation State := (RootState T U St).
Local Abbreviation size := (Z.of_nat n).
Local Abbreviation loop w := (worker_loop display (f w) decode_items encode_result size (Z.of_nat w)).
Local Abbreviation root := (Z.of_nat hub).
Implicit Types (c : Coordinator T U) (st : State) (k : Z * option LocalError).

(** The key of a failure of item [i] on rank [r]. *)
Definition keyof (i r : nat) : Z := (Z.of_nat i * 3 + 1) * size + Z.of_nat r.

Lemma keyof_bound i r : (i < length xs)%nat -> (r < n)%nat -> 0 <= keyof i r < NO_ERROR_KEY.
Proof. intros Hi Hr. unfold keyof, len in *. nia. Qed.

Lemma error_key_ok i r : (i < length xs)%nat -> (r < n)%nat ->
  error_key (Z.of_nat i) Class_Callback (Z.of_nat r) size = Ok (keyof i r).
Proof.
  intros Hi Hr. pose proof (keyof_bound i r Hi Hr) as [_ Hk]. unfold error_key, ErrorKey_new, validate_world_rank.
  rewrite (proj2 (Z.leb_gt size 0)), (proj2 (Z.ltb_ge (Z.of_nat r) 0)), (proj2 (Z.leb_gt size (Z.of_nat r))) by lia.
  unfold fail_if. rcbn. unfold keyof, ErrorClass_COUNT in *. cbn [ErrorClass_code].
  by rewrite (proj2 (Z.leb_gt NO_ERROR_KEY _)) by exact Hk.
Qed.

(** The key and error a worker or the root ends a batch with. *)
Definition failure_report (i r : nat) (e : E) : Z * option LocalError := (keyof i r, Some (User, bounded (display e))).

(** A worker's result for the loop of the collective. *)
Definition worker_result (r : Z * option LocalError) : Prog Outcome := Ret (Ok ([], r.1, r.2)).
Definition wrapped (p : Prog (result PmapError (Z * option LocalError))) : Prog Outcome := try_bind p worker_result.

(** A worker that has results to send for the batch [id]. *)
Definition sends_values (w : nat) (id : Z) (idxs : list nat) (p : Prog Outcome) (fw : nat) k s : Prop :=
  exists vals bytes, encode_result (Values vals) = Ok bytes /\ len bytes <= MAX_WIRE_BYTES /\ in_u 64 (len vals) /\
    map fst vals = idxs /\ Forall (fun '(i, u) => forall x, xs !! i = Some x -> g x = Ok u) vals /\
    p = Send root HEADER_TAG (Header_encode (full_header Kind_Result Status_Ok id (len vals) (len bytes)))
          (Send root PAYLOAD_TAG bytes (wrapped (loop w fw root k.1 k.2 s))).
Definition sends_error (w : nat) (id : Z) (p : Prog Outcome) (fw : nat) k s : Prop :=
  exists failure count bytes, encode_result (Error failure) = Ok bytes /\ len bytes <= MAX_WIRE_BYTES /\ in_u 64 count /\
    p = Send root HEADER_TAG (Header_encode (full_header Kind_Result Status_Error id count (len bytes)))
          (Send root PAYLOAD_TAG bytes (wrapped (loop w fw root k.1 k.2 s))).

Definition ready_header : list byte := Header_encode (plain_header Kind_Ready).
Definition stop_header : list byte := Header_encode (plain_header Kind_Stop).
Definition drain_header : list byte := Header_encode (plain_header Kind_Drain).

(** The part of the inputs that is not handed out, and its first items. *)
Definition batch_at (h q : nat) : list (nat * T) := take q (drop h (numbered xs)).

Lemma numbered_lookup i y : numbered xs !! i = Some y <-> exists x, y = (i, x) /\ xs !! i = Some x.
Proof.
  unfold numbered. rewrite list_lookup_imap. destruct (xs !! i) as [x|]; cbn; [|by split; [|intros (? & _ & ?)]].
  split; [intros [= <-]; eauto|]. by intros (x' & -> & [= <-]).
Qed.

Lemma batch_lookup h q j y : batch_at h q !! j = Some y <-> (j < q)%nat /\ exists x, y = ((h + j)%nat, x) /\ xs !! (h + j)%nat = Some x.
Proof. unfold batch_at. rewrite lookup_take_Some, lookup_drop, numbered_lookup. tauto. Qed.

(** The first failure of a batch: every item before it succeeds. *)
Definition first_failing (h q i : nat) (e : E) : Prop :=
  (h <= i < h + q)%nat /\ (exists x, xs !! i = Some x /\ g x = Err e) /\
  forall j x, (h <= j < i)%nat -> xs !! j = Some x -> exists u, g x = Ok u.
Definition all_computed (h q : nat) : Prop := forall j x, (h <= j < h + q)%nat -> xs !! j = Some x -> exists u, g x = Ok u.

Lemma batch_outcome {R} (mk : nat -> U -> R) w h q s : exists s',
  (exists vals, Forall2 (computed g) (batch_at h q) vals /\ all_computed h q /\
     call_items display (f w) mk (batch_at h q) [] s = Some (map (fun '(i, u) => mk i u) vals, None, s')) \/
  (exists i e rs, first_failing h q i e /\ call_items display (f w) mk (batch_at h q) [] s = Some (rs, Some (i, bounded (display e)), s')).
Proof.
  destruct (call_items_spec display g (f w) (Hf w) mk (batch_at h q) [] s)
    as (s' & [(vals & Hv & Hrun)|(pre & i & x & post & vals & e & rs & Heq & Hv & He & Hrun)]); exists s'.
  - left. exists vals. split; [done|]. split; [|exact Hrun]. intros j x Hj Hx.
    destruct (Forall2_lookup_l _ _ _ (j - h)%nat (j, x) Hv) as ([j' u] & _ & _ & Hu); [|eauto].
    apply batch_lookup. split; [lia|]. exists x. by replace (h + (j - h))%nat with j by lia.
  - right. exists i, e, rs. split; [|exact Hrun].
    assert (Hpre : batch_at h q !! length pre = Some (i, x)) by (rewrite Heq; apply list_lookup_middle; done).
    apply batch_lookup in Hpre as (Hlt & x' & [= -> <-] & Hx). split; [lia|]. split; [eauto|].
    intros j y Hj Hy. assert (Hbj : batch_at h q !! (j - h)%nat = Some (j, y)).
    { apply batch_lookup. split; [lia|]. exists y. by replace (h + (j - h))%nat with j by lia. }
    rewrite Heq, lookup_app_l in Hbj by lia.
    destruct (Forall2_lookup_l _ _ _ _ _ Hv Hbj) as ([j' u] & _ & _ & Hu). eauto.
Qed.
Lemma inputs_u64 : len xs <= u64_max /\ Z.of_nat (length xs) < NO_ERROR_KEY.
Proof. unfold NO_ERROR_KEY, len in *. zunfold. nia. Qed.

Lemma length_batch h q : (length (batch_at h q) <= length xs)%nat.
Proof. unfold batch_at, numbered. rewrite length_take, length_drop, length_imap. lia. Qed.

Lemma batch_u64 h q : in_u 64 (len (batch_at h q)).
Proof. pose proof inputs_u64 as [Hx _]. pose proof (length_batch h q). unfold in_u, len in *. zunfold. lia. Qed.

Lemma first_failing_in h q i e : first_failing h q i e -> exists x, xs !! i = Some x /\ g x = Err e /\ (i < length xs)%nat.
Proof. intros (_ & (x & Hx & He) & _). exists x. split_and!; try done. by eapply lookup_lt_Some. Qed.

(** A worker at the start of its loop: it asks for work, and then stops or runs
    the batch it is sent. *)
Lemma worker_asks w fw k s : (w < n)%nat -> exists kj,
  wrapped (loop w (S fw) root k.1 k.2 s) = Send root HEADER_TAG ready_header (Recv root HEADER_TAG kj) /\
  kj stop_header = Send root HEADER_TAG drain_header (Ret (Ok ([], k.1, k.2))) /\
  forall h q id bytes, k.1 = NO_ERROR_KEY -> in_u 64 id -> encode_items (batch_at h q) = Ok bytes -> len bytes <= MAX_WIRE_BYTES ->
    exists kp s', kj (Header_encode (full_header Kind_Task Status_None id (len (batch_at h q)) (len bytes))) = Recv root PAYLOAD_TAG kp /\
      ((all_computed h q /\ sends_values w id (map fst (batch_at h q)) (kp bytes) fw k s') \/
       (exists i e, first_failing h q i e /\ sends_error w id (kp bytes) fw (failure_report i w e) s')).
Proof.
  intros Hw. unfold wrapped. cbn [worker_loop]. rewrite try_bind_assoc, send_empty_eq by done.
  rewrite try_bind_assoc, receive_header_eq. eexists. split; [reflexivity|]. split.
  { unfold stop_header. rewrite decode_encoded by by apply plain_header_wf. cbn [kind plain_header].
    by rewrite try_bind_assoc, send_empty_eq. }
  intros h q id bytes Hk Hid Henc Hl. pose proof (batch_u64 h q) as Hcnt.
  rewrite decode_encoded by (apply full_header_wf; try done; pose proof (len_nonneg bytes); lia).
  cbn [kind full_header]. unfold try_bind at 1. rewrite prog_bind_assoc.
  match goal with |- context [receive_payload _ _ ?v ≫= ?K] =>
    destruct (receive_payload_eq decode_items root v K (batch_at h q) bytes eq_refl Hl
      (round_items _ _ _ _ _ _ _ Hcodec _ _ Henc)) as (kp & -> & Hbytes) end.
  destruct (batch_outcome pair w h q s) as (s' & [(vals & Hv & Hall & Hrun)|(i & e & rs & Hi & Hrun)]); exists kp, s'; (split; [done|]).
  - left. split; [done|]. rewrite Hbytes. cbv beta iota. rewrite Hrun.
    destruct (fits_values _ _ _ _ _ _ _ Hcodec h q vals Hv) as (rb & Hrb & Hrl).
    assert (Hvals : map (fun '(i, u) => (i, u)) vals = vals) by (rewrite <- (map_id vals) at 2; apply map_ext; by intros []).
    rewrite Hvals. exists vals, rb. split_and!; try done.
    + pose proof (Forall2_length _ _ _ Hv) as Hlv. unfold len in *. by rewrite <- Hlv.
    + clear -Hv. revert Hv. generalize (batch_at h q). intros b Hv. induction Hv as [|[i x] [j u] l1 l2 [-> _] _ IH]; [done|]. cbn. by rewrite IH.
    + apply Forall_lookup. intros j [i u] Hj x Hx. destruct (Forall2_lookup_r _ _ _ _ _ Hv Hj) as ([i' x'] & Hb & <- & Hu).
      apply batch_lookup in Hb as (_ & y & [= -> ->] & Hy). congruence.
    + unfold wrapped. match goal with |- _ = ?R => change (try_bind (try_bind (send_frame encode_result root Kind_Result Status_Ok id (len vals) (Values vals))
        (fun _ => loop w fw root k.1 k.2 s')) worker_result = R) end.
      rewrite try_bind_assoc. by rewrite (send_frame_eq _ _ _ _ _ _ _ rb).
  - right. exists i, e. split; [done|]. rewrite Hbytes. cbv beta iota. rewrite Hrun.
    destruct (first_failing_in _ _ _ _ Hi) as (x & Hx & He & Hlt).
    destruct (fits_error _ _ _ _ _ _ _ Hcodec i x e Hx He) as (rb & Hrb & Hrl).
    exists (mkCallbackFailure (Z.of_nat i) (PmapErrorKind_code User) (bounded (display e))), (len (batch_at h q)), rb.
    split_and!; try done. cbn [failure_index failure_message]. rewrite error_key_ok by done. rewrite Hk.
    pose proof (keyof_bound i w Hlt Hw) as [_ Hkb]. unfold failure_report. cbn [fst snd].
    assert (Hmin : Z.min NO_ERROR_KEY (keyof i w) = keyof i w) by lia. unfold wrapped.
    match goal with |- _ = ?R => change (try_bind (try_bind (send_frame encode_result root Kind_Result Status_Error id (len (batch_at h q))
        (Error (mkCallbackFailure (Z.of_nat i) (PmapErrorKind_code User) (bounded (display e)))))
        (fun _ => loop w fw root (Z.min NO_ERROR_KEY (keyof i w)) (Some (User, bounded (display e))) s')) worker_result = R) end.
    rewrite Hmin, try_bind_assoc. by rewrite (send_frame_eq _ _ _ _ _ _ _ rb).
Qed.
(** *** What the root does with a message *)

Local Abbreviation process := (process_remote_header encode_items decode_result size root (len xs)).
Implicit Types (B : State -> Prog Outcome).

Lemma process_ready_task j st b c B bytes :
  accepted (scheduler st) (RemoteReady j) (Some b) c -> encode_items (batch_pairs b) = Ok bytes -> len bytes <= MAX_WIRE_BYTES ->
  try_bind (process j (plain_header Kind_Ready) st) B =
    Send j HEADER_TAG (Header_encode (full_header Kind_Task Status_None (Scheduler.batch_id b) (len (batch_pairs b)) (len bytes)))
      (Send j PAYLOAD_TAG bytes (B (with_scheduler c st))).
Proof.
  intros Ha He Hl. unfold process_remote_header. cbn [kind plain_header]. rewrite (schedule_ready _ _ _ _ Ha).
  match goal with |- _ = ?R => change (try_bind (try_bind
    (send_frame encode_items j Kind_Task Status_None (Scheduler.batch_id b) (len (batch_pairs b)) (batch_pairs b))
    (fun _ => Ret (Ok (with_scheduler c st)))) B = R) end.
  rewrite try_bind_assoc. by rewrite (send_frame_eq _ _ _ _ _ _ _ bytes).
Qed.

Lemma process_ready_stop j st c B :
  accepted (scheduler st) (RemoteReady j) None c ->
  try_bind (process j (plain_header Kind_Ready) st) B = Send j HEADER_TAG stop_header (B (with_scheduler c st)).
Proof.
  intros Ha. unfold process_remote_header. cbn [kind plain_header]. rewrite (schedule_ready _ _ _ _ Ha).
  match goal with |- _ = ?R => change (try_bind (try_bind (send_empty j Kind_Stop 0)
    (fun _ => Ret (Ok (with_scheduler c st)))) B = R) end.
  by rewrite try_bind_assoc, send_empty_eq.
Qed.

Lemma process_drain j st c B :
  accepted (scheduler st) (RemoteDrain j) None c ->
  try_bind (process j (plain_header Kind_Drain) st) B = B (with_scheduler c st).
Proof.
  intros Ha. unfold process_remote_header. cbn [kind plain_header].
  by destruct (schedule_done (on_remote_drain j) (RemoteDrain j) st _ _ (fun _ => eq_refl) Ha) as (a & ->).
Qed.

Lemma process_values j st c B id count vals bytes :
  encode_result (Values vals) = Ok bytes -> len bytes <= MAX_WIRE_BYTES ->
  accepted (scheduler st) (RemoteSuccess j id (map (fun '(index, result) => mkItemResult index result) vals)) None c ->
  exists kp, try_bind (process j (full_header Kind_Result Status_Ok id count (len bytes)) st) B = Recv j PAYLOAD_TAG kp /\
    kp bytes = B (with_scheduler c st).
Proof.
  intros He Hl Ha. unfold process_remote_header. cbn [kind status full_header]. unfold try_bind at 1. rewrite prog_bind_assoc.
  match goal with |- context [receive_payload _ _ ?v ≫= ?K] =>
    destruct (receive_payload_eq decode_result j v K (Values vals) bytes eq_refl Hl
      (round_result _ _ _ _ _ _ _ Hcodec _ _ He)) as (kp & -> & Hbytes) end.
  exists kp. split; [done|]. rewrite Hbytes. cbn [Wire.batch_id status full_header].
  by destruct (schedule_done (on_remote_success j id _) (RemoteSuccess j id _) st _ _ (fun _ => eq_refl) Ha) as (a & ->).
Qed.

Lemma process_error j st c B id count failure bytes :
  encode_result (Error failure) = Ok bytes -> len bytes <= MAX_WIRE_BYTES ->
  accepted (scheduler st) (RemoteError j id) None c ->
  exists kp, try_bind (process j (full_header Kind_Result Status_Error id count (len bytes)) st) B = Recv j PAYLOAD_TAG kp /\
    kp bytes = B (with_scheduler c st).
Proof.
  intros He Hl Ha. unfold process_remote_header. cbn [kind status full_header]. unfold try_bind at 1. rewrite prog_bind_assoc.
  match goal with |- context [receive_payload _ _ ?v ≫= ?K] =>
    destruct (receive_payload_eq decode_result j v K (Error failure) bytes eq_refl Hl
      (round_result _ _ _ _ _ _ _ Hcodec _ _ He)) as (kp & -> & Hbytes) end.
  exists kp. split; [done|]. rewrite Hbytes. cbn [Wire.batch_id status full_header].
  by destruct (schedule_done (on_remote_error j id) (RemoteError j id) st _ _ (fun _ => eq_refl) Ha) as (a & ->).
Qed.
(** *** The ledger of failures *)

(** What a rank reports: nothing, or a failure of an input. *)
Definition report_ok (r : nat) k : Prop :=
  k = (NO_ERROR_KEY, None) \/ exists i x e, xs !! i = Some x /\ g x = Err e /\ k = failure_report i r e.

(** [h] inputs have been handed out; every failure among them is covered by the
    report of a failure that is not later. *)
Record ledger (pend : list (ScheduledItem T)) (fl : bool) (ks : nat -> Z * option LocalError) (h : nat) : Prop := {
  led_reports : forall r, (r < n)%nat -> report_ok r (ks r);
  led_failed : fl = true -> exists r, (r < n)%nat /\ (ks r).1 <> NO_ERROR_KEY;
  led_le : (h <= length xs)%nat;
  led_handed : fl = false -> h = dispatched xs pend;
  led_below : forall r, (r < n)%nat -> (ks r).1 <> NO_ERROR_KEY -> exists i, (i < h)%nat /\ (ks r).1 = keyof i r;
  led_cover : forall i x e, (i < h)%nat -> xs !! i = Some x -> g x = Err e ->
    exists r j, (r < n)%nat /\ (j <= i)%nat /\ (ks r).1 = keyof j r;
}.

Lemma report_key r i e : (r < n)%nat -> (i < length xs)%nat -> (failure_report i r e).1 <> NO_ERROR_KEY.
Proof. intros Hr Hi. pose proof (keyof_bound i r Hi Hr). cbn. lia. Qed.

Lemma ledger_start : ledger (indexed xs) false (fun _ => (NO_ERROR_KEY, None)) 0.
Proof.
  split; [by left|done|lia| |done|lia].
  intros _. unfold dispatched. rewrite length_indexed. lia.
Qed.

(** A batch of which every item succeeds, and one with a first failure, reported by [r]. *)
Lemma ledger_computed pend ks h q :
  ledger pend false ks h -> all_computed h q -> (h + q <= length xs)%nat -> length pend = (length xs - h)%nat ->
  ledger (drop q pend) false ks (h + q).
Proof.
  intros [Hrep Hfl Hle Hh Hbel Hcov] Hall Hq Hpend. split; [done|done|done| | |].
  - intros _. unfold dispatched. rewrite length_drop. lia.
  - intros r Hr Hk. destruct (Hbel r Hr Hk) as (i & Hi & ?). exists i. split; [lia|done].
  - intros i x e Hi Hx He. destruct (decide (i < h)%nat) as [Hlt|Hge]; [eauto|].
    destruct (Hall i x ltac:(lia) Hx) as [u Hu]. congruence.
Qed.

Lemma ledger_failing pend ks h q i e r :
  ledger pend false ks h -> first_failing h q i e -> (r < n)%nat -> (ks r).1 = NO_ERROR_KEY ->
  (h + q <= length xs)%nat -> length pend = (length xs - h)%nat ->
  ledger (drop q pend) false (<[r := failure_report i r e]> ks) (h + q).
Proof.
  intros [Hrep Hfl Hle Hh Hbel Hcov] (Hi & (x & Hx & He) & Hbefore) Hr Hno Hq Hpend.
  assert (Hlook : forall r', (<[r := failure_report i r e]> ks) r' = if decide (r' = r) then failure_report i r e else ks r').
  { intros r'. destruct (decide (r' = r)) as [->|]; [apply fn_lookup_insert|by apply fn_lookup_insert_ne]. }
  split; [|done|done| | |].
  - intros r' Hr'. rewrite Hlook. destruct (decide (r' = r)) as [->|]; [right; eauto 10|auto].
  - intros _. unfold dispatched. rewrite length_drop. lia.
  - intros r' Hr'. rewrite Hlook. destruct (decide (r' = r)) as [->|]; [exists i; split; [lia|done]|].
    intros Hk. destruct (Hbel r' Hr' Hk) as (i' & Hi' & ?). exists i'. split; [lia|done].
  - intros j y e' Hj Hy He'. destruct (decide (j < h)%nat) as [Hlt|Hge].
    + destruct (Hcov j y e' Hlt Hy He') as (r' & j' & Hr' & Hle' & Hk). exists r', j'. split_and!; try done.
      rewrite Hlook. destruct (decide (r' = r)) as [->|]; [|done].
      pose proof (keyof_bound j' r ltac:(lia) Hr). rewrite Hno in Hk. lia.
    + exists r, i. rewrite Hlook, decide_True by done. split; [done|]. split; [|done].
      destruct (decide (i <= j)%nat); [done|]. destruct (Hbefore j y ltac:(lia) Hy) as [u Hu]. congruence.
Qed.

(** The root learns of a failure: the rest of the queue is dropped. *)
Lemma ledger_drop pend fl ks h r :
  ledger pend fl ks h -> (r < n)%nat -> (ks r).1 <> NO_ERROR_KEY -> ledger [] true ks h.
Proof. intros [Hrep Hfl Hle Hh Hbel Hcov] Hr Hk. split; eauto. done. Qed.
(** *** The state between two messages *)

Definition at_lane (fl : bool) (bound : nat) (s : LaneState) (w : nat) k (p : Prog Outcome) : Prop :=
  match s with
  | Idle => (k.1 <> NO_ERROR_KEY -> fl = true) /\ exists fw s, (bound < fw)%nat /\ p = wrapped (loop w fw root k.1 k.2 s)
  | Running cur None false => exists fw s, (bound < fw)%nat /\
      ((k.1 <> NO_ERROR_KEY -> fl = true) /\ sends_values w (meta_id cur) (original_indices cur) p fw k s \/
       k.1 <> NO_ERROR_KEY /\ sends_error w (meta_id cur) p fw k s)
  | Stopped => (k.1 <> NO_ERROR_KEY -> fl = true) /\ p = Send root HEADER_TAG drain_header (Ret (Ok ([], k.1, k.2)))
  | Drained => (k.1 <> NO_ERROR_KEY -> fl = true) /\ p = Ret (Ok ([], k.1, k.2))
  | _ => False
  end.

Lemma at_lane_mono fl fl' bound bound' s w k p :
  (fl = true -> fl' = true) -> (bound' <= bound)%nat -> at_lane fl bound s w k p -> at_lane fl' bound' s w k p.
Proof.
  intros Hfl Hb. destruct s as [|cur [|] [|]| |]; cbn; try done.
  - intros (Hk & fw & s & Hlt & Hp). split; [auto|]. exists fw, s. split; [lia|done].
  - intros (fw & s & Hlt & [[Hk Hp]|[Hk Hp]]); exists fw, s; (split; [lia|]); [left|right]; auto.
  - intros [Hk Hp]. auto.
  - intros [Hk Hp]. auto.
Qed.

Lemma at_lane_spoke fl bound s w k p : (w < n)%nat -> at_lane fl bound s w k p -> spoke hub p.
Proof.
  intros Hw. destruct s as [|cur [|] [|]| |]; cbn; try done.
  - intros (_ & [|fw] & s & Hlt & ->); [lia|]. by destruct (worker_asks w fw k s Hw) as (kj & -> & _).
  - intros (fw & s & _ & [[_ (vals & bytes & _ & _ & _ & _ & _ & ->)]|[_ (fl' & cnt & bytes & _ & _ & _ & ->)]]); done.
  - by intros [_ ->].
  - by intros [_ ->].
Qed.

Record world (st : State) (F : nat -> Prog Outcome) (ks : nat -> Z * option LocalError) (h : nat) : Prop := {
  w_inv : inv xs (scheduler st);
  w_prefetch : prefetch (scheduler st) = false;
  w_slots : slots_by (fun x u => g x = Ok u) xs (ordered (scheduler st));
  w_ledger : ledger (pending (scheduler st)) (failed (scheduler st)) ks h;
  w_root : Scheduler.root (scheduler st) = Idle \/ Scheduler.root (scheduler st) = Stopped;
  w_hub : ks hub = (local_key st, local_error st) /\ (local_key st <> NO_ERROR_KEY -> failed (scheduler st) = true);
  w_ranks : forall z s, remotes (scheduler st) !! z = Some s -> exists w, z = Z.of_nat w /\ (w < n)%nat /\ w <> hub;
  w_lanes : forall w, (w < n)%nat -> w <> hub -> exists s, remotes (scheduler st) !! Z.of_nat w = Some s /\
    at_lane (failed (scheduler st)) (remaining (scheduler st)) s w (ks w) (F w);
}.

Lemma world_star st F ks h : world st F ks h -> star n hub F.
Proof.
  intros Hw r Hr Hne. destruct (w_lanes _ _ _ _ Hw r Hr Hne) as (s & _ & Hs). by eapply at_lane_spoke.
Qed.

Lemma star_insert (F : nat -> Prog Outcome) r p : star n hub F -> spoke hub p -> star n hub (<[r := p]> F).
Proof.
  intros Hs Hp r' Hr' Hne. destruct (decide (r' = r)) as [->|Hrr]; [by rewrite fn_lookup_insert|].
  rewrite fn_lookup_insert_ne by done. by apply Hs.
Qed.
Lemma star_insert_hub (F : nat -> Prog Outcome) p : star n hub F -> star n hub (<[hub := p]> F).
Proof. intros Hs r Hr Hne. rewrite fn_lookup_insert_ne by done. by apply Hs. Qed.

(** A step of worker [j] with the root. *)
Lemma world_worker st F ks h ev o c j s' F' ks' h' :
  world st F ks h -> (j < n)%nat -> j <> hub ->
  accepted (scheduler st) ev o c -> honest_by (fun x u => g x = Ok u) xs ev ->
  remotes c = <[Z.of_nat j := s']> (remotes (scheduler st)) ->
  Scheduler.root c = Scheduler.root (scheduler st) ->
  (failed (scheduler st) = true -> failed c = true) -> ev <> NextRootBatch ->
  ledger (pending c) (failed c) ks' h' -> (forall r, r <> j -> ks' r = ks r) ->
  (forall r, r <> hub -> r <> j -> F' r = F r) -> at_lane (failed c) (remaining c) s' j (ks' j) (F' j) ->
  world (with_scheduler c st) F' ks' h' /\ (remaining c < remaining (scheduler st))%nat.
Proof.
  intros [Hinv Hpre Hslots Hled Hroot [Hk Hkf] Hranks Hlanes] Hj Hjh Hacc Hhon Hrem Hrt Hfl Hev Hled' Hks HF Hlane.
  destruct (accepted_decreases _ _ _ _ _ Hacc Hinv) as [Hdec|(? & _)]; [|done]. split; [|done].
  split; cbn [with_scheduler scheduler local_key local_error].
  - by eapply inv_step.
  - by rewrite (accepted_same _ _ _ _ Hacc).
  - by eapply accepted_correct.
  - done.
  - by rewrite Hrt.
  - rewrite Hks by done. split; [done|]. intros Hne. auto.
  - intros z s. rewrite Hrem, lookup_insert_Some. intros [[<- _]|[_ Hz]]; eauto.
  - intros w Hw Hwh. destruct (decide (w = j)) as [->|Hne]; [exists s'; by rewrite Hrem, lookup_insert_eq|].
    destruct (Hlanes w Hw Hwh) as (s & Hs & Hat). exists s. rewrite Hrem, lookup_insert_ne by lia. split; [done|].
    rewrite HF, Hks by done. eapply at_lane_mono; [| |exact Hat]; [done|lia].
Qed.
Lemma batch_facts c : inv xs c -> 
  batch_pairs (batch_of c) = batch_at (dispatched xs (pending c)) (batch_count c) /\
  (dispatched xs (pending c) + batch_count c <= length xs)%nat /\
  length (pending c) = (length xs - dispatched xs (pending c))%nat /\
  original_indices (metadata (batch_of c)) = map fst (batch_at (dispatched xs (pending c)) (batch_count c)).
Proof.
  intros Hinv. pose proof (ci_pending _ _ _ _ _ _ (inv_core _ _ Hinv)) as Hp.
  pose proof (pending_le xs _ Hp) as Hle.
  assert (Hpairs : batch_pairs (batch_of c) = batch_at (dispatched xs (pending c)) (batch_count c)).
  { unfold batch_pairs, batch_of, batch_at. cbn [items]. rewrite <- firstn_map. f_equal. rewrite Hp at 1.
    rewrite <- skipn_map. f_equal. unfold indexed, numbered.
    apply list_eq. intros i. rewrite list_lookup_fmap, !list_lookup_imap. by destruct (xs !! i). }
  split; [done|]. split_and!.
  - unfold dispatched, batch_count. lia.
  - unfold dispatched. lia.
  - rewrite <- Hpairs. unfold batch_pairs, metadata. cbn [original_indices]. rewrite map_map. by apply map_ext.
Qed.

(** Handing out a batch leaves the accounts of the ranks in order. *)
Lemma handed_out st F ks h : world st F ks h -> has_work (scheduler st) = true ->
  failed (scheduler st) = false /\ h = dispatched xs (pending (scheduler st)) /\ can_dispatch (scheduler st) /\
  in_u 64 (next_batch_id (scheduler st)).
Proof.
  intros Hw Hwork. destruct (has_work_true _ Hwork) as [Hnf _].
  assert (Hcan : can_dispatch (scheduler st)).
  { eapply can_dispatch_inv; [apply Hw|pose proof inputs_u64 as [Hx _]; exact Hx|done]. }
  split; [done|]. split; [by apply (led_handed _ _ _ _ (w_ledger _ _ _ _ Hw))|]. split; [done|].
  destruct Hcan as [_ Hnext]. pose proof (ci_next _ _ _ _ _ _ (inv_core _ _ (w_inv _ _ _ _ Hw))).
  unfold in_u. zunfold. lia.
Qed.

Lemma worker_idle st F ks h w : world st F ks h -> (w < n)%nat -> w <> hub ->
  remotes (scheduler st) !! Z.of_nat w = Some Idle ->
  exists (fw : nat) (kj : list byte -> Prog Outcome), (remaining (scheduler st) <= fw)%nat /\ F w = Send root HEADER_TAG ready_header (Recv root HEADER_TAG kj) /\
    (ks w = (NO_ERROR_KEY, None) \/ failed (scheduler st) = true) /\
    kj stop_header = Send root HEADER_TAG drain_header (Ret (Ok ([], (ks w).1, (ks w).2))) /\
    forall h q id bytes, (ks w).1 = NO_ERROR_KEY -> in_u 64 id -> encode_items (batch_at h q) = Ok bytes -> len bytes <= MAX_WIRE_BYTES ->
    exists kp s', kj (Header_encode (full_header Kind_Task Status_None id (len (batch_at h q)) (len bytes))) = Recv root PAYLOAD_TAG kp /\
      ((all_computed h q /\ sends_values w id (map fst (batch_at h q)) (kp bytes) fw (ks w) s') \/
       (exists i e, first_failing h q i e /\ sends_error w id (kp bytes) fw (failure_report i w e) s')).
Proof.
  intros Hw Hwn Hwh Hidle. destruct (w_lanes _ _ _ _ Hw w Hwn Hwh) as (s & Hs & Hat).
  assert (s = Idle) as -> by congruence. destruct Hat as (Hk & [|fw] & s & Hlt & Hp); [lia|].
  destruct (worker_asks w fw (ks w) s Hwn) as (kj & Hloop & Hstop & Htask).
  exists fw, kj. split; [lia|]. split; [by rewrite Hp|]. split; [|done].
  destruct (led_reports _ _ _ _ (w_ledger _ _ _ _ Hw) w Hwn) as [|(i & x & e & Hx & _ & Hki)]; [by left|right].
  apply Hk. rewrite Hki. apply report_key; [done|by eapply lookup_lt_Some].
Qed.
(** *** The root serves one message *)

Section Serve.
Context (Q : list (Prog Outcome) -> Prop) (st : State) (F : nat -> Prog Outcome) (ks : nat -> Z * option LocalError) (h : nat) (B : State -> Prog Outcome).
Context (Hw : world st F ks h).
Context (Hgo : forall st' F' ks' h', world st' F' ks' h' -> (remaining (scheduler st') < remaining (scheduler st))%nat ->
  F' hub = B st' -> talk Q (spmd n F')).

Lemma go_worker ev o c j s' ks' h' F' :
  accepted (scheduler st) ev o c -> (j < n)%nat -> j <> hub ->
  honest_by (fun x u => g x = Ok u) xs ev -> ev <> NextRootBatch ->
  remotes c = <[Z.of_nat j := s']> (remotes (scheduler st)) ->
  Scheduler.root c = Scheduler.root (scheduler st) ->
  (failed (scheduler st) = true -> failed c = true) ->
  ledger (pending c) (failed c) ks' h' -> (forall r, r <> j -> ks' r = ks r) ->
  (forall r, r <> hub -> r <> j -> F' r = F r) -> F' hub = B (with_scheduler c st) ->
  ((remaining c < remaining (scheduler st))%nat -> at_lane (failed c) (remaining c) s' j (ks' j) (F' j)) ->
  talk Q (spmd n F').
Proof.
  intros Hacc Hj Hjh Hhon Hev Hrem Hrt Hfl Hled Hks HF HB Hlane.
  destruct (accepted_decreases _ _ _ _ _ Hacc (w_inv _ _ _ _ Hw)) as [Hlt|(? & _)]; [|done].
  destruct (world_worker st F ks h ev o c j s' F' ks' h') as [Hw' _]; try done; [by apply Hlane|].
  by eapply Hgo.
Qed.

Ltac fn_look := repeat first [rewrite fn_lookup_insert|rewrite fn_lookup_insert_ne by done].

Lemma serve_ready j kj : (j < n)%nat -> j <> hub -> remotes (scheduler st) !! Z.of_nat j = Some Idle ->
  F j = Send root HEADER_TAG ready_header kj ->
  talk Q (spmd n (<[hub := try_bind (process (Z.of_nat j) (plain_header Kind_Ready) st) B]> (<[j := kj]> F))).
Proof.
  intros Hj Hjh Hidle HF. destruct (worker_idle _ _ _ _ j Hw Hj Hjh Hidle) as (fw & kj' & Hfw & HF' & Hk & Hstop & Htask).
  rewrite HF in HF'. injection HF' as ->.
  destruct (has_work (scheduler st)) eqn:Hwork.
  - destruct (handed_out _ _ _ _ Hw Hwork) as (Hnf & Hh & Hcan & Hid).
    destruct (batch_facts _ (w_inv _ _ _ _ Hw)) as (Hpairs & Hle & Hlen & Hidx). rewrite <- Hh in *.
    destruct Hk as [Hk|]; [|congruence].
    pose proof (acc_remote_task (scheduler st) (Z.of_nat j) Hidle Hcan) as Hacc.
    set (q := batch_count (scheduler st)) in *.
    destruct (fits_items _ _ _ _ _ _ _ Hcodec h q) as (bytes & Henc & Hbl).
    change (take q (drop h (numbered xs))) with (batch_at h q) in Henc.
    rewrite (process_ready_task _ _ _ _ _ bytes Hacc) by (rewrite ?Hpairs; done). rewrite Hpairs.
    destruct (Htask h q (next_batch_id (scheduler st)) bytes) as (kp & s' & Hkp & Hout); [by rewrite Hk|done|done|done|].
    eapply (talk_send n hub Hhub _ _ j); [apply star_insert_hub, star_insert; [by eapply world_star|done]
      |done|done|by rewrite fn_lookup_insert|by rewrite fn_lookup_insert_ne, fn_lookup_insert|].
    cbn [Scheduler.batch_id batch_of]. rewrite Hkp.
    eapply (talk_send n hub Hhub _ _ j); [apply star_insert_hub, star_insert; [apply star_insert_hub, star_insert;
      [by eapply world_star|done]|done]|done|done|by rewrite fn_lookup_insert
      |by rewrite fn_lookup_insert_ne, fn_lookup_insert|].
    set (c := set_remote _ _ _) in Hacc |- *.
    assert (Hled : forall ks', ledger (drop q (pending (scheduler st))) false ks' (h + q) ->
      ledger (pending c) (failed c) ks' (h + q)).
    { intros ks' Hl. unfold c. cbn [pending failed set_remote after_batch set_pending]. by rewrite Hnf. }
    pose proof (w_ledger _ _ _ _ Hw) as Hl. rewrite Hnf in Hl.
    destruct Hout as [[Hall Hsends]|(i & e & Hi & Hsends)].
    + eapply (go_worker _ _ c j (Running (metadata (batch_of (scheduler st))) None false) ks (h + q) _ Hacc Hj Hjh);
        try done; [apply Hled; by apply ledger_computed|intros r Hr1 Hr2; by fn_look|by fn_look|].
      intros Hlt. cbn [at_lane]. fn_look. exists fw, s'. split; [lia|]. left.
      split; [by rewrite Hk|]. rewrite Hidx. exact Hsends.
    + eapply (go_worker _ _ c j (Running (metadata (batch_of (scheduler st))) None false) (<[j := failure_report i j e]> ks) (h + q) _ Hacc Hj Hjh);
        try done; [apply Hled; apply ledger_failing; try done; by rewrite Hk|intros r Hr; by fn_look|intros r Hr1 Hr2; by fn_look|by fn_look|].
      intros Hlt. cbn [at_lane]. fn_look. exists fw, s'. split; [lia|]. right.
      split; [|exact Hsends]. destruct (first_failing_in _ _ _ _ Hi) as (x & _ & _ & Hlx). by apply report_key.
  - pose proof (acc_remote_stop (scheduler st) (Z.of_nat j) Hidle Hwork) as Hacc.
    rewrite (process_ready_stop _ _ _ _ Hacc).
    eapply (talk_send n hub Hhub _ _ j); [apply star_insert_hub, star_insert; [by eapply world_star|done]
      |done|done|by fn_look|by fn_look|].
    rewrite Hstop.
    eapply (go_worker _ _ _ j Stopped ks h _ Hacc Hj Hjh); try done; [apply Hw|intros r Hr1 Hr2; by fn_look|by fn_look|].
    intros Hlt. cbn [at_lane]. fn_look. split; [|done].
    intros Hne. destruct Hk as [Hk|]; [by rewrite Hk in Hne|done].
Qed.

Lemma lane_meta_u64 j cur : remotes (scheduler st) !! Z.of_nat j = Some (Running cur None false) ->
  in_u 64 (meta_id cur) /\ cur ∈ all_metas (scheduler st).
Proof.
  intros Hr. assert (Hm : cur ∈ all_metas (scheduler st)) by (eapply remote_meta; [exact Hr|left]). split; [|done].
  pose proof (inv_core _ _ (w_inv _ _ _ _ Hw)) as Hc. pose proof (ci_below _ _ _ _ _ _ Hc) as Hb.
  rewrite Forall_forall in Hb. specialize (Hb cur Hm). pose proof (ci_next _ _ _ _ _ _ Hc) as Hn.
  pose proof inputs_u64 as [Hx _]. unfold in_u, dispatched, len in *. zunfold. lia.
Qed.

Lemma serve_values j fw k s cur : (j < n)%nat -> j <> hub -> ks j = k ->
  remotes (scheduler st) !! Z.of_nat j = Some (Running cur None false) ->
  (k.1 <> NO_ERROR_KEY -> failed (scheduler st) = true) -> (remaining (scheduler st) < fw)%nat ->
  sends_values j (meta_id cur) (original_indices cur) (F j) fw k s ->
  exists hdr kj, F j = Send root HEADER_TAG (Header_encode hdr) kj /\ header_wf hdr /\
    talk Q (spmd n (<[hub := try_bind (process (Z.of_nat j) hdr st) B]> (<[j := kj]> F))).
Proof.
  intros Hj Hjh Hk Hr Hfail Hfw (vals & bytes & Henc & Hl & Hcnt & Hidx & Hvals & HF).
  destruct (lane_meta_u64 j cur Hr) as [Hid Hmeta].
  do 2 eexists. split; [exact HF|]. split; [apply full_header_wf; try done; pose proof (len_nonneg bytes); lia|].
  set (results := map (fun '(index, result) => mkItemResult index result) vals).
  assert (Hacc : accepted (scheduler st) (RemoteSuccess (Z.of_nat j) (meta_id cur) results) None
            (record_results results (set_remote (Z.of_nat j) Idle (scheduler st)))).
  { eapply acc_remote_success; [exact Hr|done|]. eapply inv_answers; [by apply Hw|done|].
    rewrite <- Hidx. unfold results. rewrite map_map. apply map_ext. by intros []. }
  destruct (process_values _ _ _ B _ (len vals) vals bytes Henc Hl Hacc) as (kp & -> & Hkp).
  eapply (talk_recv n hub Hhub _ _ j); [apply star_insert_hub, star_insert; [by eapply world_star|done]
    |done|done|by fn_look|by fn_look|].
  rewrite Hkp. eapply (go_worker _ _ _ j Idle ks h _ Hacc Hj Hjh);
    try done; [|apply Hw|intros r Hr1 Hr2; by fn_look|by fn_look|].
  - cbn [honest_by]. unfold correct_by, results. apply Forall_fmap. eapply Forall_impl; [exact Hvals|]. by intros [].
  - intros Hlt. cbn [at_lane]. fn_look. rewrite Hk. split; [done|]. exists fw, s. split; [lia|done].
Qed.

Lemma serve_error j fw k s cur : (j < n)%nat -> j <> hub -> ks j = k ->
  remotes (scheduler st) !! Z.of_nat j = Some (Running cur None false) ->
  k.1 <> NO_ERROR_KEY -> (remaining (scheduler st) < fw)%nat ->
  sends_error j (meta_id cur) (F j) fw k s ->
  exists hdr kj, F j = Send root HEADER_TAG (Header_encode hdr) kj /\ header_wf hdr /\
    talk Q (spmd n (<[hub := try_bind (process (Z.of_nat j) hdr st) B]> (<[j := kj]> F))).
Proof.
  intros Hj Hjh Hk Hr Hfail Hfw (failure & count & bytes & Henc & Hl & Hcnt & HF).
  destruct (lane_meta_u64 j cur Hr) as [Hid Hmeta].
  do 2 eexists. split; [exact HF|]. split; [apply full_header_wf; try done; pose proof (len_nonneg bytes); lia|].
  pose proof (acc_remote_error (scheduler st) (Z.of_nat j) _ cur Idle Hr eq_refl) as Hacc.
  destruct (process_error _ _ _ B _ count failure bytes Henc Hl Hacc) as (kp & -> & Hkp).
  eapply (talk_recv n hub Hhub _ _ j); [apply star_insert_hub, star_insert; [by eapply world_star|done]
    |done|done|by fn_look|by fn_look|].
  rewrite Hkp. eapply (go_worker _ _ _ j Idle ks h _ Hacc Hj Hjh);
    try done; [|intros r Hr1 Hr2; by fn_look|by fn_look|].
  - eapply ledger_drop; [apply Hw|exact Hj|by rewrite Hk].
  - intros Hlt. cbn [at_lane]. fn_look. rewrite Hk. split; [done|]. exists fw, s. split; [lia|done].
Qed.

Lemma serve_drain j kj : (j < n)%nat -> j <> hub -> remotes (scheduler st) !! Z.of_nat j = Some Stopped ->
  F j = Send root HEADER_TAG drain_header kj ->
  talk Q (spmd n (<[hub := try_bind (process (Z.of_nat j) (plain_header Kind_Drain) st) B]> (<[j := kj]> F))).
Proof.
  intros Hj Hjh Hr HF. pose proof (acc_remote_drain (scheduler st) (Z.of_nat j) Hr) as Hacc.
  destruct (w_lanes _ _ _ _ Hw j Hj Hjh) as (s & Hs & Hat). assert (s = Stopped) as -> by congruence.
  destruct Hat as [Hk HF']. rewrite HF in HF'. injection HF' as ->.
  rewrite (process_drain _ _ _ _ Hacc).
  eapply (go_worker _ _ _ j Drained ks h _ Hacc Hj Hjh); try done; [apply Hw|intros r Hr1 Hr2; by fn_look|by fn_look|].
  intros Hlt. cbn [at_lane]. by fn_look.
Qed.

(** Whichever worker the message comes from, it is served. *)
Lemma serve_sender j data kj : (j < n)%nat -> j <> hub -> F j = Send root HEADER_TAG data kj ->
  exists hdr, data = Header_encode hdr /\ header_wf hdr /\
    talk Q (spmd n (<[hub := try_bind (process (Z.of_nat j) hdr st) B]> (<[j := kj]> F))).
Proof.
  intros Hj Hjh HF. destruct (w_lanes _ _ _ _ Hw j Hj Hjh) as (s & Hs & Hat).
  destruct s as [|cur [|] [|]| |]; cbn [at_lane] in Hat; try done.
  - destruct (worker_idle _ _ _ _ j Hw Hj Hjh Hs) as (fw & kj' & _ & HF' & _). rewrite HF in HF'. injection HF' as -> ->.
    exists (plain_header Kind_Ready). split; [done|]. split; [by apply plain_header_wf|]. by apply serve_ready.
  - destruct Hat as (fw & s & Hfw & [[Hk Hv]|[Hk He]]).
    + destruct (serve_values j fw (ks j) s cur Hj Hjh eq_refl Hs Hk Hfw Hv) as (hdr & kj' & HF' & Hwf & Ht).
      rewrite HF in HF'. injection HF' as -> ->. eauto.
    + destruct (serve_error j fw (ks j) s cur Hj Hjh eq_refl Hs Hk Hfw He) as (hdr & kj' & HF' & Hwf & Ht).
      rewrite HF in HF'. injection HF' as -> ->. eauto.
  - destruct Hat as [Hk HF']. rewrite HF in HF'. injection HF' as -> ->.
    exists (plain_header Kind_Drain). split; [done|]. split; [by apply plain_header_wf|]. by apply serve_drain.
  - destruct Hat as [_ HF']. by rewrite HF in HF'.
Qed.

Definition waiting : Prop := exists w s, (w < n)%nat /\ w <> hub /\ remotes (scheduler st) !! Z.of_nat w = Some s /\ s <> Drained.

Lemma waiting_sends : waiting -> exists j data kj, j <> hub /\ (j < n)%nat /\ F j = Send root HEADER_TAG data kj.
Proof.
  intros (w & s & Hwn & Hwh & Hs & Hne). destruct (w_lanes _ _ _ _ Hw w Hwn Hwh) as (s' & Hs' & Hat).
  assert (s' = s) as -> by congruence. exists w.
  destruct s as [|cur [|] [|]| |]; cbn [at_lane] in Hat; try done.
  - destruct (worker_idle _ _ _ _ w Hw Hwn Hwh Hs) as (fw & kj' & _ & HF & _). eauto 10.
  - destruct Hat as (fw & s & Hfw & [[Hk (vals & bytes & _ & _ & _ & _ & _ & HF)]|[Hk (fl & cnt & bytes & _ & _ & _ & HF)]]); eauto 10.
  - destruct Hat as [Hk HF]. eauto 10.
Qed.

Lemma serve_one : waiting ->
  F hub = try_bind receive_any_header (fun r => try_bind (process r.1 r.2 st) B) -> talk Q (spmd n F).
Proof.
  intros Hwait HF. rewrite receive_any_header_eq in HF.
  eapply (talk_recv_any n hub Hhub); [by eapply world_star|exact HF|by apply waiting_sends|].
  intros j data kj Hjh Hj Hfj. destruct (serve_sender j data kj Hj Hjh Hfj) as (hdr & -> & Hwf & Ht).
  by rewrite decode_encoded.
Qed.
End Serve.
(** *** The root runs a batch itself *)

Lemma world_root st st' F ks ks' h h' :
  world st F ks h -> inv xs (scheduler st') -> prefetch (scheduler st') = false ->
  slots_by (fun x u => g x = Ok u) xs (ordered (scheduler st')) ->
  ledger (pending (scheduler st')) (failed (scheduler st')) ks' h' ->
  Scheduler.root (scheduler st') = Idle \/ Scheduler.root (scheduler st') = Stopped ->
  ks' hub = (local_key st', local_error st') -> (local_key st' <> NO_ERROR_KEY -> failed (scheduler st') = true) ->
  (forall r, r <> hub -> ks' r = ks r) ->
  remotes (scheduler st') = remotes (scheduler st) -> (failed (scheduler st) = true -> failed (scheduler st') = true) ->
  (remaining (scheduler st') <= remaining (scheduler st))%nat ->
  world st' F ks' h'.
Proof.
  intros [_ _ _ _ _ _ Hranks Hlanes] Hinv Hpre Hslots Hled Hroot Hk Hkf Hks Hrem Hfl Hle. split; try done.
  - intros z s. rewrite Hrem. apply Hranks.
  - intros w Hw Hwh. destruct (Hlanes w Hw Hwh) as (s & Hs & Hat). exists s. rewrite Hrem, Hks by done. split; [done|].
    by eapply at_lane_mono.
Qed.

Local Abbreviation root_batch := (execute_root_batch display (f hub) size root).

Section RootBatch.
Context (st : State) (F : nat -> Prog Outcome) (ks : nat -> Z * option LocalError) (h : nat) (Hw : world st F ks h).
Local Abbreviation q := (batch_count (scheduler st)).
Local Abbreviation running := (set_root (Running (metadata (batch_of (scheduler st))) None false) (after_batch (scheduler st))).

(** The batch handed out to the root. *)
Lemma root_task : has_work (scheduler st) = true ->
  accepted (scheduler st) NextRootBatch (Some (batch_of (scheduler st))) running /\
  inv xs running /\ (remaining running < remaining (scheduler st))%nat /\ local_key st = NO_ERROR_KEY.
Proof.
  intros Hwork. pose proof (w_inv _ _ _ _ Hw) as Hinv.
  destruct (handed_out _ _ _ _ Hw Hwork) as (Hnf & _ & Hcan & _).
  assert (Hidle : Scheduler.root (scheduler st) = Idle).
  { destruct (w_root _ _ _ _ Hw) as [|Hst]; [done|]. pose proof (inv_root _ _ Hinv) as Hok. rewrite Hst in Hok. cbn in Hok.
    destruct (has_work_true _ Hwork) as [_ Hne]. done. }
  pose proof (acc_root_task (scheduler st) (or_introl Hidle) Hcan) as Hacc.
  split; [done|]. split; [by eapply inv_step|]. split.
  - destruct (accepted_decreases _ _ _ _ _ Hacc Hinv) as [|(_ & ? & _)]; [done|congruence].
  - destruct (w_hub _ _ _ _ Hw) as [_ Hkf]. destruct (decide (local_key st = NO_ERROR_KEY)) as [|Hne]; [done|].
    rewrite Hkf in Hnf by done. done.
Qed.

(** What the root knows after it completes the batch with [ev]. *)
Lemma root_completes ev c st' ks' : has_work (scheduler st) = true ->
  accepted running ev None c -> ev <> NextRootBatch -> honest_by (fun x u => g x = Ok u) xs ev ->
  Scheduler.root c = Idle -> remotes c = remotes (scheduler st) -> scheduler st' = c ->
  ledger (pending c) (failed c) ks' (h + q) -> ks' hub = (local_key st', local_error st') ->
  (local_key st' <> NO_ERROR_KEY -> failed c = true) -> (forall r, r <> hub -> ks' r = ks r) ->
  world st' F ks' (h + q) /\ (remaining c < remaining (scheduler st))%nat.
Proof.
  intros Hwork Hacc2 Hev Hhon Hroot Hrem Hst Hled Hk Hkf Hks.
  destruct (root_task Hwork) as (Hacc & Hinv1 & Hlt & _).
  destruct (accepted_decreases _ _ _ _ _ Hacc2 Hinv1) as [Hlt2|(? & _)]; [|done].
  split; [|lia]. eapply world_root; [exact Hw|rewrite Hst; by eapply inv_step| | | | |done| |done|by rewrite Hst| |rewrite Hst; lia].
  - rewrite Hst, (accepted_same _ _ _ _ Hacc2). apply Hw.
  - rewrite Hst. eapply accepted_correct; [exact Hacc2|done|apply Hw].
  - by rewrite Hst.
  - rewrite Hst. by left.
  - by rewrite Hst.
  - rewrite (proj1 (handed_out _ _ _ _ Hw Hwork)). done.
Qed.

Lemma root_computed vals s : has_work (scheduler st) = true ->
  Forall2 (computed g) (batch_at h q) vals -> all_computed h q ->
  call_items display (f hub) mkItemResult (batch_at h q) [] (callback st) = Some (map (fun '(i, u) => mkItemResult i u) vals, None, s) ->
  exists st' ks', root_batch st = Ret (Ok (true, st')) /\ world st' F ks' (h + q) /\
    (remaining (scheduler st') < remaining (scheduler st))%nat /\ remotes (scheduler st') = remotes (scheduler st).
Proof.
  intros Hwork Hv Hall Hrun. destruct (root_task Hwork) as (Hacc & Hinv1 & Hlt & Hno).
  destruct (handed_out _ _ _ _ Hw Hwork) as (Hnf & Hh & _ & _).
  destruct (batch_facts _ (w_inv _ _ _ _ Hw)) as (Hpairs & Hle & Hlen & Hidx). rewrite <- Hh in *.
  set (results := map (fun '(i, u) => mkItemResult i u) vals) in *. set (id := next_batch_id (scheduler st)).
  assert (Hacc2 : accepted running (RootSuccess id results) None (record_results results (set_root Idle running))).
  { eapply (acc_root_success running (metadata (batch_of (scheduler st)))); [done|].
    eapply inv_answers; [exact Hinv1|apply root_meta; left|]. rewrite Hidx. unfold results. rewrite map_map.
    clear -Hv. revert Hv. generalize (batch_at h q). intros b Hv.
    induction Hv as [|[a x] [j u] l1 l2 [-> _] _ IH]; [done|]. cbn. by rewrite IH. }
  destruct (schedule_done (on_root_success id results) (RootSuccess id results)
    (mkRootState running (local_key st) (local_error st) s) None _ (fun _ => eq_refl) Hacc2) as (a & Hsched).
  destruct (root_completes _ _ (with_scheduler (record_results results (set_root Idle running))
      (mkRootState running (local_key st) (local_error st) s)) ks Hwork Hacc2) as [Hw' Hlt']; try done.
  - cbn [honest_by]. unfold correct_by, results. apply Forall_fmap, Forall_lookup.
    intros j [i u] Hj x Hx. destruct (Forall2_lookup_r _ _ _ _ _ Hv Hj) as ([i' x'] & Hb & <- & Hu).
    apply batch_lookup in Hb as (_ & y & [= -> ->] & Hy). cbn in Hx |- *. congruence.
  - cbn [pending failed record_results set_ordered set_root after_batch set_pending]. rewrite Hnf.
    apply ledger_computed; [|done..]. rewrite <- Hnf at 1. apply Hw.
  - apply Hw.
  - do 2 eexists. split; [|split; [exact Hw'|split; [exact Hlt'|done]]].
    unfold execute_root_batch. rewrite (schedule_root _ _ _ Hacc). unfold try_bind at 1. cbn [mbind Prog_bind prog_bind callback with_scheduler scheduler].
    rewrite Hpairs, Hrun. cbn [local_key local_error with_scheduler Scheduler.batch_id batch_of]. fold id. rewrite Hsched. reflexivity.
Qed.

Lemma root_failed i e rs s : has_work (scheduler st) = true -> first_failing h q i e ->
  call_items display (f hub) mkItemResult (batch_at h q) [] (callback st) = Some (rs, Some (i, bounded (display e)), s) ->
  exists st' ks', root_batch st = Ret (Ok (true, st')) /\ world st' F ks' (h + q) /\
    (remaining (scheduler st') < remaining (scheduler st))%nat /\ remotes (scheduler st') = remotes (scheduler st).
Proof.
  intros Hwork Hi Hrun. destruct (root_task Hwork) as (Hacc & Hinv1 & Hlt & Hno).
  destruct (handed_out _ _ _ _ Hw Hwork) as (Hnf & Hh & _ & _).
  destruct (batch_facts _ (w_inv _ _ _ _ Hw)) as (Hpairs & Hle & Hlen & _). rewrite <- Hh in *.
  destruct (first_failing_in _ _ _ _ Hi) as (x & Hx & He & Hlx). pose proof (keyof_bound i hub Hlx Hhub) as Hkb.
  set (id := next_batch_id (scheduler st)).
  pose proof (acc_root_error running (metadata (batch_of (scheduler st))) eq_refl) as Hacc2.
  set (st1 := record_error (keyof i hub) (User, bounded (display e)) (mkRootState running (local_key st) (local_error st) s)).
  destruct (schedule_done (on_root_error id) (RootError id) st1 None _ (fun _ => eq_refl) Hacc2) as (a & Hsched).
  destruct (root_completes _ _ (with_scheduler (set_failed (set_root Idle running)) st1) (<[hub := failure_report i hub e]> ks) Hwork Hacc2)
    as [Hw' Hlt']; try done.
  - cbn [pending failed set_failed]. eapply (ledger_drop (drop q (pending (scheduler st))) false _ _ hub).
    + apply ledger_failing; try done; [rewrite <- Hnf at 1; apply Hw|]. by rewrite (proj1 (w_hub _ _ _ _ Hw)).
    + done.
    + rewrite fn_lookup_insert. by apply report_key.
  - rewrite fn_lookup_insert. cbn. by rewrite Hno, Z.min_r by lia.
  - intros r Hr. by rewrite fn_lookup_insert_ne.
  - do 2 eexists. split; [|split; [exact Hw'|split; [exact Hlt'|done]]].
    unfold execute_root_batch. rewrite (schedule_root _ _ _ Hacc). unfold try_bind at 1. cbn [mbind Prog_bind prog_bind callback with_scheduler scheduler].
    rewrite Hpairs, Hrun, error_key_ok by done. unfold try_bind at 1. cbn [mbind Prog_bind prog_bind Scheduler.batch_id batch_of].
    fold id. change (record_error _ _ _) with st1. rewrite Hsched. reflexivity.
Qed.

Lemma root_batch_runs : exists b st' ks' h',
  root_batch st = Ret (Ok (b, st')) /\ world st' F ks' h' /\ remotes (scheduler st') = remotes (scheduler st) /\
  if (b : bool) then (remaining (scheduler st') < remaining (scheduler st))%nat /\ has_work (scheduler st) = true
  else Scheduler.root (scheduler st') = Stopped /\
    ((remaining (scheduler st') < remaining (scheduler st))%nat \/ st' = st).
Proof.
  destruct (has_work (scheduler st)) eqn:Hwork.
  - exists true. destruct (batch_outcome mkItemResult hub h q (callback st)) as (s & [(vals & Hv & Hall & Hrun)|(i & e & rs & Hi & Hrun)]).
    + destruct (root_computed vals s Hwork Hv Hall Hrun) as (st' & ks' & Heq & Hw' & Hlt & Hrem). exists st', ks', (h + q)%nat. done.
    + destruct (root_failed i e rs s Hwork Hi Hrun) as (st' & ks' & Heq & Hw' & Hlt & Hrem). exists st', ks', (h + q)%nat. done.
  - exists false. pose proof (w_inv _ _ _ _ Hw) as Hinv. unfold execute_root_batch. destruct (w_root _ _ _ _ Hw) as [Hidle|Hst].
    + pose proof (acc_root_stop (scheduler st) (or_introl Hidle) Hwork) as Hacc. rewrite (schedule_root _ _ _ Hacc).
      destruct (accepted_decreases _ _ _ _ _ Hacc Hinv) as [Hlt1|(_ & ? & _)]; [|congruence].
      eexists _, ks, h. split; [reflexivity|]. split; [|split; [done|split; [done|by left]]].
      eapply world_root; [exact Hw|by eapply inv_step|by apply Hw|by apply Hw|by apply Hw|by right|by apply Hw|by apply Hw|done|done|done|].
      cbn [scheduler with_scheduler]. lia.
    + pose proof (acc_root_stopped (scheduler st) Hst) as Hacc. rewrite (schedule_root _ _ _ Hacc).
      exists st, ks, h. split; [by destruct st|]. split; [done|]. split; [done|]. split; [done|by right].
Qed.
End RootBatch.
(** *** The loops of the root *)

Lemma world_hub st F F' ks h : world st F ks h -> (forall r, r <> hub -> F' r = F r) -> world st F' ks h.
Proof.
  intros [? ? ? ? ? ? ? Hlanes] HF. split; try done. intros w Hw Hwh. rewrite HF by done. by apply Hlanes.
Qed.

Lemma sends_waiting st F ks h j tag data kj : world st F ks h -> j <> hub -> (j < n)%nat -> F j = Send root tag data kj -> waiting st.
Proof.
  intros Hw Hjh Hj HF. destruct (w_lanes _ _ _ _ Hw j Hj Hjh) as (s & Hs & Hat). exists j, s. split_and!; try done.
  intros ->. destruct Hat as [_ HF']. congruence.
Qed.

Lemma serve_loop Q fuel : forall served st F ks h (B : nat * State -> Prog Outcome),
  world st F ks h -> (remaining (scheduler st) < fuel)%nat ->
  F hub = try_bind (serve encode_items decode_result size root (len xs) fuel served st) B ->
  (forall served' st' F' ks' h', world st' F' ks' h' ->
     served' = served /\ st' = st \/ (served < served')%nat /\ (remaining (scheduler st') < remaining (scheduler st))%nat ->
     F' hub = B (served', st') -> talk Q (spmd n F')) ->
  talk Q (spmd n F).
Proof.
  induction fuel as [|fuel IH]; intros served st F ks h B Hw Hfuel HF HQ; [lia|]. cbn [serve] in HF.
  eapply (talk_probe n hub Hhub); [by eapply world_star|exact HF| |]; cbv beta.
  - eapply (HQ served st); [eapply world_hub; [exact Hw|intros; by rewrite fn_lookup_insert_ne]|by left|].
    by rewrite fn_lookup_insert.
  - intros j data kj Hjh Hj Hfj. cbn [is_some].
    eapply (serve_one Q st _ ks h (fun st => try_bind (serve encode_items decode_result size root (len xs) fuel (S served) st) B)).
    + eapply world_hub; [exact Hw|intros; by rewrite fn_lookup_insert_ne].
    + intros st' F' ks' h' Hw' Hlt HF'. eapply (IH (S served) st' F' ks' h' B); [exact Hw'|lia|exact HF'|].
      intros served' st2 F2 ks2 h2 Hw2 Hs2 HF2. eapply HQ; [exact Hw2| |exact HF2].
      right. destruct Hs2 as [[-> ->]|[? ?]]; split; lia.
    + by eapply sends_waiting.
    + rewrite fn_lookup_insert.
      match goal with |- ?L = _ => change L with
        (try_bind (try_bind receive_any_header (fun r => try_bind (process r.1 r.2 st)
           (fun st => serve encode_items decode_result size root (len xs) fuel (S served) st))) B) end.
      rewrite try_bind_assoc. f_equal. apply functional_extensionality. intros r. by rewrite try_bind_assoc.
Qed.
Lemma has_worker : (1 < n)%nat -> exists w, (w < n)%nat /\ w <> hub.
Proof. intros Hn. destruct (decide (hub = 0%nat)) as [->|]; [exists 1%nat|exists 0%nat]; lia. Qed.

(** Unless the run is finished, after the root has looked for a batch some
    worker still has a message to send. *)
Lemma not_finished_waiting st st' F F' ks ks' h h' (b : bool) : (1 < n)%nat -> world st F ks h -> world st' F' ks' h' ->
  remotes (scheduler st') = remotes (scheduler st) -> is_finished (scheduler st') = false ->
  (if b then has_work (scheduler st) = true else Scheduler.root (scheduler st') = Stopped) -> waiting st'.
Proof.
  intros Hn Hw Hw' Hrem Hfin Hb. destruct b.
  - destruct (has_worker Hn) as (w & Hwn & Hwh). destruct (w_lanes _ _ _ _ Hw' w Hwn Hwh) as (s & Hs & _).
    exists w, s. split_and!; try done. intros ->. rewrite Hrem in Hs.
    pose proof (map_Forall_lookup_1 _ _ _ _ (inv_remotes _ _ (w_inv _ _ _ _ Hw)) Hs) as Hok. cbn in Hok.
    by destruct (has_work_true _ Hb) as [_ Hne].
  - destruct (some_lane_left _ Hfin) as [|(z & s & Hz & Hs)]; [done|].
    destruct (w_ranks _ _ _ _ Hw' z s Hz) as (w & -> & Hwn & Hwh). exists w, s. done.
Qed.

Local Abbreviation iterate := (root_iterations display (f hub) encode_items decode_result size root (len xs)).

Lemma iterations Q fuel : (1 < n)%nat -> forall st F ks h B,
  world st F ks h -> (remaining (scheduler st) + 1 < fuel)%nat -> F hub = try_bind (iterate fuel st) B ->
  (forall st' F' ks' h', world st' F' ks' h' -> is_finished (scheduler st') = true -> F' hub = B st' -> talk Q (spmd n F')) ->
  talk Q (spmd n F).
Proof.
  intros Hn. induction fuel as [|fuel IH]; intros st F ks h B Hw Hfuel HF HQ; [lia|]. cbn [root_iterations] in HF.
  rewrite (proj2 (Z.eqb_neq size 1)) in HF by lia.
  destruct (is_finished (scheduler st)) eqn:Hfin.
  { rewrite (finished_quiescent xs) in HF by (done || apply Hw). eapply HQ; [exact Hw|done|exact HF]. }
  cbn [andb] in HF. rewrite try_bind_assoc in HF.
  eapply serve_loop; [exact Hw| |exact HF|]; [lia|].
  intros served st1 F1 ks1 h1 Hw1 Hserved HF1. cbv beta iota in HF1.
  assert (Hle1 : (remaining (scheduler st1) <= remaining (scheduler st))%nat) by (destruct Hserved as [[_ ->]|[_ ?]]; lia).
  destruct (is_finished (scheduler st1)) eqn:Hfin1.
  { destruct Hserved as [[_ ->]|[_ Hlt]]; [congruence|]. eapply (IH st1); [exact Hw1|lia|exact HF1|exact HQ]. }
  destruct (Nat.eqb_spec served 0) as [->|Hne]; [|destruct Hserved as [[-> _]|[_ Hlt]]; [done|];
    eapply (IH st1); [exact Hw1|lia|exact HF1|exact HQ]].
  destruct Hserved as [[_ ->]|[? _]]; [|lia].
  destruct (root_batch_runs st F1 ks1 h1 Hw1) as (b & st2 & ks2 & h2 & Hbatch & Hw2 & Hrem & Hb).
  rewrite Hbatch in HF1. unfold try_bind at 2 in HF1. cbn [mbind Prog_bind prog_bind snd] in HF1.
  assert (Hle2 : (remaining (scheduler st2) <= remaining (scheduler st))%nat).
  { destruct b; [lia|]. destruct Hb as [_ [?| ->]]; lia. }
  destruct (is_finished (scheduler st2)) eqn:Hfin2.
  { eapply (IH st2); [exact Hw2| |exact HF1|exact HQ]. destruct b; [lia|]. destruct Hb as [_ [?| ->]]; [lia|congruence]. }
  rewrite try_bind_assoc in HF1.
  eapply (serve_one Q st2 F1 ks2 h2 (fun st => try_bind (iterate fuel st) B) Hw2).
  - intros st3 F3 ks3 h3 Hw3 Hlt3 HF3. eapply (IH st3); [exact Hw3|lia|exact HF3|exact HQ].
  - eapply (not_finished_waiting st st2 F1 F1 ks1 ks2 h1 h2 b Hn Hw1 Hw2 Hrem Hfin2). destruct b; apply Hb.
  - rewrite HF1. f_equal. apply functional_extensionality. intros r. by rewrite try_bind_assoc.
Qed.

(** Alone, the root computes every batch. *)
Lemma iterations_alone fuel : n = 1%nat -> forall st F ks h, world st F ks h -> (remaining (scheduler st) < fuel)%nat ->
  exists st' ks' h', iterate fuel st = Ret (Ok st') /\ world st' F ks' h' /\ is_finished (scheduler st') = true.
Proof.
  intros Hn. induction fuel as [|fuel IH]; intros st F ks h Hw Hfuel; [lia|]. cbn [root_iterations].
  rewrite (proj2 (Z.eqb_eq size 1)) by lia.
  destruct (root_batch_runs st F ks h Hw) as (b & st2 & ks2 & h2 & Hbatch & Hw2 & Hrem & Hb).
  rewrite Hbatch. unfold try_bind. cbn [mbind Prog_bind prog_bind fst snd]. destruct b.
  - eapply IH; [exact Hw2|lia].
  - exists st2, ks2, h2. split; [done|]. split; [done|]. destruct (is_finished (scheduler st2)) eqn:Hfin; [done|].
    destruct (some_lane_left _ Hfin) as [Hr|(z & s & Hz & _)]; [by destruct Hb|].
    destruct (w_ranks _ _ _ _ Hw2 z s Hz) as (w & _ & Hwn & Hwh). lia.
Qed.
(** *** The end of the loops *)

(** The first input that fails: what the serial map reports. *)
Definition fails_first (i : nat) (e : E) : Prop :=
  (exists x, xs !! i = Some x /\ g x = Err e) /\ forall j x, (j < i)%nat -> xs !! j = Some x -> exists u, g x = Ok u.

Definition outcome_ok (ks : nat -> Z * option LocalError) (results : list U) : Prop :=
  (forall r, (r < n)%nat -> ks r = (NO_ERROR_KEY, None)) /\ Forall2 (fun x u => g x = Ok u) xs results \/
  exists i e, fails_first i e /\ (forall r, (r < n)%nat -> report_ok r (ks r)) /\
    exists r, (r < n)%nat /\ ks r = failure_report i r e.

Lemma all_or_first : (forall i x e, xs !! i = Some x -> g x <> Err e) \/ exists i e, fails_first i e.
Proof.
  destruct (serial_cases display g xs Hutf) as [(vs & _ & Hall)|(pre & x & post & vs & e & Heq & Hpre & He & _)].
  - left. intros i x e Hx. destruct (Forall2_lookup_l _ _ _ _ _ Hall Hx) as (v & _ & Hv). congruence.
  - right. exists (length pre), e. split.
    + exists x. split; [|done]. rewrite Heq. by apply list_lookup_middle.
    + intros j y Hj Hy. rewrite Heq, lookup_app_l in Hy by done.
      destruct (Forall2_lookup_l _ _ _ _ _ Hpre Hy) as (v & _ & Hv). eauto.
Qed.

Lemma serial_all results : Forall2 (fun x u => g x = Ok u) xs results -> serial display g xs = Ok results.
Proof.
  intros Hall. destruct (serial_cases display g xs Hutf) as [(vs & -> & Hvs)|(pre & x0 & post & vs & e & Heq & _ & He & _)].
  - f_equal. clear -Hvs Hall. revert vs Hvs. induction Hall as [|y u l us Hu _ IH]; intros vs Hvs; inversion Hvs; [done|].
    subst. f_equal; [congruence|by apply IH].
  - destruct (Forall2_lookup_l _ _ _ (length pre) x0 Hall) as (u & _ & Hu); [rewrite Heq; by apply list_lookup_middle|congruence].
Qed.

Lemma serial_first i e : fails_first i e -> serial display g xs = Err (Raise (mkMapError i (bounded (display e)))).
Proof.
  intros [(x1 & Hx1 & He1) Hbefore].
  destruct (serial_cases display g xs Hutf) as [(vs & _ & Hvs)|(pre & x0 & post & vs & e0 & Heq & Hpre & He0 & ->)].
  - destruct (Forall2_lookup_l _ _ _ _ _ Hvs Hx1) as (u & _ & Hu). congruence.
  - assert (Hx0 : xs !! length pre = Some x0) by (rewrite Heq; by apply list_lookup_middle).
    assert (i = length pre) as ->; [|by assert (e0 = e) as -> by congruence].
    destruct (lt_eq_lt_dec i (length pre)) as [[Hlt| ->]|Hgt]; [|done|].
    + assert (Hp : pre !! i = Some x1) by (rewrite Heq, lookup_app_l in Hx1 by done; exact Hx1).
      destruct (Forall2_lookup_l _ _ _ _ _ Hpre Hp) as (u & _ & Hu). congruence.
    + destruct (Hbefore _ x0 Hgt Hx0) as [u Hu]. congruence.
Qed.

Lemma keyof_inj i j r : keyof i r = keyof j r -> i = j.
Proof. unfold keyof. intros H. nia. Qed.

Lemma report_failure r k : (r < n)%nat -> report_ok r k -> k.1 <> NO_ERROR_KEY ->
  exists i x e, xs !! i = Some x /\ g x = Err e /\ k = failure_report i r e.
Proof. intros Hr [->|Hk] Hne; [done|done]. Qed.

Lemma finished_drained st F ks h w : world st F ks h -> is_finished (scheduler st) = true -> (w < n)%nat -> w <> hub ->
  F w = Ret (Ok ([], (ks w).1, (ks w).2)) /\ ((ks w).1 <> NO_ERROR_KEY -> failed (scheduler st) = true).
Proof.
  intros Hw Hfin Hwn Hwh. destruct (w_lanes _ _ _ _ Hw w Hwn Hwh) as (s & Hs & Hat).
  destruct (finished_lanes _ Hfin) as [_ Hd]. rewrite Forall_fmap, Forall_forall in Hd.
  apply elem_of_map_to_list in Hs. specialize (Hd _ Hs). cbn in Hd. subst s. destruct Hat. done.
Qed.

Lemma finished_outcome st F ks h : world st F ks h -> is_finished (scheduler st) = true ->
  exists results, (if failed (scheduler st) then Ok [] else into_results (scheduler st)) = Ok results /\ outcome_ok ks results.
Proof.
  intros Hw Hfin. pose proof (w_ledger _ _ _ _ Hw) as Hled.
  assert (Hknown : forall r, (r < n)%nat -> (ks r).1 <> NO_ERROR_KEY -> failed (scheduler st) = true).
  { intros r Hr. destruct (decide (r = hub)) as [->|Hne].
    - destruct (w_hub _ _ _ _ Hw) as [Hk Hkf]. rewrite Hk. exact Hkf.
    - by eapply finished_drained. }
  destruct (failed (scheduler st)) eqn:Hfl.
  - exists []. split; [done|]. right. destruct (led_failed _ _ _ _ Hled eq_refl) as (r0 & Hr0 & Hk0).
    destruct (report_failure r0 _ Hr0 (led_reports _ _ _ _ Hled r0 Hr0) Hk0) as (i0 & x0 & e0 & Hx0 & He0 & Hrep0).
    destruct (led_below _ _ _ _ Hled r0 Hr0 Hk0) as (i1 & Hi1 & Hk1). rewrite Hrep0 in Hk1. apply keyof_inj in Hk1 as <-.
    destruct all_or_first as [Hall|(i & e & Hfirst)]; [by destruct (Hall _ _ _ Hx0 He0)|].
    exists i, e. split; [done|]. split; [apply Hled|]. destruct Hfirst as [(x & Hx & He) Hbefore].
    assert (Hle : (i <= i0)%nat).
    { destruct (decide (i <= i0)%nat); [done|]. destruct (Hbefore i0 x0 ltac:(lia) Hx0) as [u Hu]. congruence. }
    destruct (led_cover _ _ _ _ Hled i x e ltac:(lia) Hx He) as (r & j & Hr & Hj & Hkj).
    pose proof (keyof_bound j r ltac:(pose proof (lookup_lt_Some _ _ _ Hx); lia) Hr) as Hb.
    destruct (report_failure r _ Hr (led_reports _ _ _ _ Hled r Hr) ltac:(lia)) as (i2 & x2 & e2 & Hx2 & He2 & Hrep2).
    exists r. split; [done|]. rewrite Hrep2 in Hkj |- *. apply keyof_inj in Hkj as ->.
    assert (j = i) as ->.
    { destruct (decide (j < i)%nat); [|lia]. destruct (Hbefore j x2 ltac:(lia) Hx2) as [u Hu]. congruence. }
    congruence.
  - destruct (into_results_by _ _ _ (w_inv _ _ _ _ Hw) (w_slots _ _ _ _ Hw) Hfin Hfl) as (results & Hres & Hall).
    exists results. split; [done|]. left. split; [|done]. intros r Hr.
    destruct (led_reports _ _ _ _ Hled r Hr) as [|(i & x & e & Hx & _ & Hk)]; [done|].
    assert ((ks r).1 <> NO_ERROR_KEY) as Hne by (rewrite Hk; apply report_key; [done|by eapply lookup_lt_Some]).
    by apply Hknown in Hne.
Qed.
Section Phase.
Context (fuel : nat) (options : PmapOptions) (root_items : nat -> option (list T)) (s : nat -> St)
  (Hroot : opt_root options = root) (Hbatch : 0 < opt_batch_size options) (Hprefetch : opt_prefetch options = false)
  (Hitems : root_items hub = Some xs) (Hfuel : (3 * length xs + 2 * n + 3 < fuel)%nat).

Definition rank_program (r : nat) : Prog Outcome :=
  run_rank display (f r) encode_items decode_items encode_result decode_result size (Z.of_nat r) fuel options (root_items r) (s r).

(** What the ranks have when the loops end. *)
Definition phase_ends (x : nat -> Outcome) : Prop := exists ks results,
  (forall r, (r < n)%nat -> x r = Ok (if decide (r = hub) then results else [], (ks r).1, (ks r).2)) /\ outcome_ok ks results.

Definition root_end (st : State) : Prog Outcome :=
  results ←? (if failed (scheduler st) then Ret (Ok []) else Ret (map_err scheduler_error (into_results (scheduler st))));
  Ret (Ok (results, local_key st, local_error st)).

Lemma phase_done st F ks h : world st F ks h -> is_finished (scheduler st) = true -> F hub = root_end st ->
  talk (returned n phase_ends) (spmd n F).
Proof.
  intros Hw Hfin HF. destruct (finished_outcome _ _ _ _ Hw Hfin) as (results & Hres & Hok).
  apply talk_done. exists (fun r => Ok (if decide (r = hub) then results else [], (ks r).1, (ks r).2)). split.
  - apply spmd_ext. intros r Hr. destruct (decide (r = hub)) as [->|Hne]; [|by eapply finished_drained].
    rewrite HF, (proj1 (w_hub _ _ _ _ Hw)). unfold root_end. destruct (failed (scheduler st)); [by injection Hres as <-|].
    by rewrite Hres.
  - by exists ks, results.
Qed.

Lemma root_starts : exists c, world (mkRootState c NO_ERROR_KEY None (s hub)) (fun r => rank_program r) (fun _ => (NO_ERROR_KEY, None)) 0 /\
  (remaining c + 1 < fuel)%nat /\
  rank_program hub = try_bind (iterate fuel (mkRootState c NO_ERROR_KEY None (s hub))) root_end.
Proof.
  set (remote_ranks := filter (fun candidate => candidate <> root) (map Z.of_nat (seq 0 n))).
  assert (Hin : forall z, z ∈ remote_ranks <-> exists w, z = Z.of_nat w /\ (w < n)%nat /\ w <> hub).
  { intros z. unfold remote_ranks. rewrite list_elem_of_filter, list_elem_of_fmap. split.
    - intros (Hne & w & -> & Hw%elem_of_seq). exists w. split; [done|]. split; [lia|congruence].
    - intros (w & -> & Hw & Hne). split; [lia|]. exists w. split; [done|]. apply elem_of_seq. lia. }
  destruct (new_ok (U := U) root remote_ranks xs (Z.to_nat (opt_batch_size options)) false) as (c & Hnew & Hp & Hr & Hpre & Hfl & _ & Hrem).
  { lia. }
  { apply Forall_forall. intros z (w & -> & Hw & Hne)%Hin. lia. }
  { unfold remote_ranks. apply NoDup_filter, NoDup_fmap_2; [apply _|apply NoDup_seq]. }
  { pose proof inputs_u64 as [Hx _]. exact Hx. }
  assert (Hinv : inv xs c) by (eapply new_inv; [exact Hnew|lia]).
  assert (Hbound : (remaining c + 1 < fuel)%nat).
  { pose proof (new_remaining _ _ _ _ _ _ Hnew) as [Hle _].
    assert (length remote_ranks <= n)%nat; [|lia].
    unfold remote_ranks. etransitivity; [apply length_filter|]. by rewrite length_fmap, length_seq. }
  exists c. split; [|split; [done|]].
  - split; cbn [scheduler local_key local_error]; try done.
    + by eapply new_slots_correct.
    + rewrite Hp, Hfl. apply ledger_start.
    + by left.
    + intros z s'. rewrite Hrem. destruct (decide (z ∈ remote_ranks)) as [Hz|]; [|done]. intros _. by apply Hin.
    + intros w Hw Hne. exists Idle. rewrite Hrem, decide_True by (apply Hin; eauto). split; [done|]. split; [done|].
      exists fuel, (s w). split; [lia|]. unfold rank_program, run_rank. rewrite Hroot.
      by rewrite (proj2 (Z.eqb_neq (Z.of_nat w) root)) by lia.
  - unfold rank_program, run_rank. rewrite Hroot, Z.eqb_refl, Hitems. unfold root_loop.
    rewrite Hroot, Nat2Z.id, Hprefetch. fold remote_ranks. rewrite Hnew. reflexivity.
Qed.

(** The loops of all ranks end. *)
Lemma phase_runs : talk (returned n phase_ends) (spmd n rank_program).
Proof.
  destruct root_starts as (c & Hw & Hfuel' & HF). destruct (decide (n = 1%nat)) as [Hn|Hn].
  - destruct (iterations_alone fuel Hn _ _ _ _ Hw) as (st' & ks' & h' & Heq & Hw' & Hfin); [cbn [scheduler]; lia|].
    eapply phase_done; [exact Hw'|exact Hfin|]. rewrite HF, Heq. done.
  - eapply iterations; [lia|exact Hw|exact Hfuel'|exact HF|]. intros st' F' ks' h' Hw' Hfin HF'. by eapply phase_done.
Qed.
End Phase.
(** *** The end of the call *)

Lemma selected_failure ks i e : fails_first i e -> (forall r, (r < n)%nat -> report_ok r (ks r)) ->
  (exists r, (r < n)%nat /\ ks r = failure_report i r e) ->
  exists w, (w < n)%nat /\ ks w = failure_report i w e /\ reduce Op_Min (map (fun r => (ks r).1) (seq 0 n)) = keyof i w.
Proof.
  intros [(x & Hx & He) Hbefore] Hrep (r & Hr & Hk). pose proof (lookup_lt_Some _ _ _ Hx) as Hi.
  destruct (reduce_spec n ltac:(lia) (fun r => (ks r).1) Op_Min) as (w & Hw & Hred & Hmin).
  exists w. split; [done|]. pose proof (Hmin r Hr) as Hle. cbv beta in Hle. rewrite Hk in Hle. cbn [failure_report fst] in Hle.
  pose proof (keyof_bound i r Hi Hr) as Hb.
  destruct (report_failure w (ks w) Hw (Hrep w Hw)) as (j & y & e' & Hy & He' & Hkw); [lia|].
  rewrite Hred. cbv beta. rewrite Hkw in Hle |- *. cbn [failure_report fst] in *.
  assert (j = i) as ->; [|split; [congruence|done]].
  destruct (lt_eq_lt_dec j i) as [[Hlt| ->]|Hgt]; [|done|].
  - destruct (Hbefore j y Hlt Hy) as [u Hu]. congruence.
  - unfold keyof in Hle. nia.
Qed.

Lemma kind_round kind : PmapErrorKind_from_code (PmapErrorKind_code kind) = Some kind.
Proof. by destruct kind. Qed.

(** The winner's error reaches every rank. *)
Lemma broadcast_error_runs {X} ks w selected kind m (K : nat -> result PmapError (option LocalError) -> Prog X) Q :
  (w < n)%nat -> ks w = (selected, Some (kind, m)) -> 0 <= selected < NO_ERROR_KEY -> selected mod size = Z.of_nat w ->
  utf8_valid m = true -> len m <= Z.of_nat MAX_ERROR_MESSAGE_BYTES ->
  Runs n (fun r => K r (Ok (Some (kind, m)))) Q ->
  Runs n (fun r => broadcast_error size (Z.of_nat r) selected (ks r).1 (ks r).2 ≫= K r) Q.
Proof.
  intros Hw Hk Hs Hmod Hval Hlen HQ. change (Z.of_nat MAX_ERROR_MESSAGE_BYTES) with 4096 in Hlen.
  eapply runs_ext with (f := fun r => BcastZ (Z.of_nat w) (if decide (r = w) then PmapErrorKind_code kind else 4) (fun kind =>
    BcastZ (Z.of_nat w) selected (fun key =>
      (if negb (key =? selected) then Ret (Err (protocol_error (lit "broadcast error key mismatch")))
       else BcastZ (Z.of_nat w) (len (if decide (r = w) then m else [])) (fun length =>
        if (length <? 0) || (Z.of_nat MAX_ERROR_MESSAGE_BYTES <? length)
        then Ret (Err (protocol_error (lit "invalid broadcast error message length")))
        else BcastBytes (Z.of_nat w) (if decide (r = w) then m else resize length []) (fun message =>
          kind ←? ok_else (PmapErrorKind_from_code kind) (protocol_error (lit "invalid error kind"));
          message ←? Ret (from_utf8 message);
          Ret (Ok (Some (kind, message)))))) ≫= K r))).
  - intros r Hr. unfold broadcast_error. rewrite (proj2 (Z.eqb_neq selected NO_ERROR_KEY)) by lia.
    rewrite (proj2 (Z.ltb_ge selected 0)), (proj2 (Z.leb_gt size 0)) by lia. cbn [orb]. rewrite Hmod. cbv zeta.
    destruct (decide (r = w)) as [->|Hne].
    + rewrite Z.eqb_refl, Hk. cbn [fst snd]. rewrite Z.eqb_refl. cbn [negb andb].
      rewrite (proj2 (Z.ltb_ge i32_max (len m))) by (unfold i32_max; lia). done.
    + rewrite (proj2 (Z.eqb_neq (Z.of_nat r) (Z.of_nat w))) by lia. cbn [andb]. done.
  - apply runs_bcast; [lia..|]. apply runs_bcast; [lia..|]. destruct (decide (w = w)) as [_|]; [|done].
    rewrite Z.eqb_refl. cbn [negb mbind Prog_bind prog_bind].
    apply runs_bcast; [lia..|]. destruct (decide (w = w)) as [_|]; [|done].
    rewrite (proj2 (Z.ltb_ge (len m) 0)) by apply len_nonneg.
    rewrite (proj2 (Z.ltb_ge (Z.of_nat MAX_ERROR_MESSAGE_BYTES) (len m))) by exact Hlen. cbn [orb].
    apply runs_bcast_bytes; [lia|lia| |].
    { intros r Hr. destruct (decide (w = w)) as [_|]; [|done]. destruct (decide (r = w)); [done|].
      unfold resize, len. cbn [app]. rewrite Nat2Z.id, length_take, length_replicate. lia. }
    destruct (decide (w = w)) as [_|]; [|done]. unfold from_utf8. rewrite Hval, kind_round.
    exact HQ.
Qed.

Lemma conclude_fails {X} options results ks (K : nat -> result PmapError (option (list U)) -> Prog X) Q i e :
  fails_first i e -> (forall r, (r < n)%nat -> report_ok r (ks r)) -> (exists r, (r < n)%nat /\ ks r = failure_report i r e) ->
  (forall w, (w < n)%nat -> Runs n (fun r => K r (Err (mkPmapError User (Some (keyof i w)) (bounded (display e))))) Q) ->
  Runs n (fun r => conclude size (Z.of_nat r) (options r) (Ok (results r, (ks r).1, (ks r).2)) ≫= K r) Q.
Proof.
  intros Hfirst Hrep Hex HQ. destruct (selected_failure ks i e Hfirst Hrep Hex) as (w & Hw & Hk & Hsel).
  assert (Hi : (i < length xs)%nat) by (destruct Hfirst as [(x & Hx & _) _]; by eapply lookup_lt_Some).
  pose proof (keyof_bound i w Hi Hw) as Hb. destruct (bounded_wf _ (Hutf e)) as [Hval Hlen].
  unfold conclude, convergence, all_reduce. eapply runs_ext; [intros r _; by rewrite prog_bind_assoc|].
  cbn [mbind Prog_bind prog_bind]. apply (runs_allreduce n ltac:(lia)). rewrite Hsel. cbv beta.
  eapply runs_ext; [intros r _; by rewrite (prog_bind_assoc _ _ (K r))|].
  apply (broadcast_error_runs ks w (keyof i w) User (bounded (display e))); [done|done|done| |done|unfold len; lia|].
  - unfold keyof. rewrite Z.add_comm, Z_mod_plus_full. apply Z.mod_small. lia.
  - eapply runs_ext; [|exact (HQ w Hw)]. intros r Hr. cbn. unfold PmapError_keyed. by rewrite bounded_id.
Qed.

Lemma conclude_succeeds {X} options results ks (K : nat -> result PmapError (option (list U)) -> Prog X) Q :
  (forall r, (r < n)%nat -> ks r = (NO_ERROR_KEY, None)) ->
  Runs n (fun r => K r (Ok (if Z.of_nat r =? opt_root (options r) then Some (results r) else None))) Q ->
  Runs n (fun r => conclude size (Z.of_nat r) (options r) (Ok (results r, (ks r).1, (ks r).2)) ≫= K r) Q.
Proof.
  intros Hk HQ. unfold conclude, convergence, all_reduce. eapply runs_ext; [intros r _; by rewrite prog_bind_assoc|].
  cbn [mbind Prog_bind prog_bind]. apply (runs_allreduce n ltac:(lia)).
  rewrite (reduce_const n ltac:(lia) _ NO_ERROR_KEY) by (intros r Hr; by rewrite Hk).
  eapply runs_ext; [|exact HQ]. intros r Hr. unfold broadcast_error. by rewrite Z.eqb_refl.
Qed.
End World.

(** ** Preflight *)

Fixpoint first_invalid (valid : nat -> bool) (rs : list nat) : option nat :=
  match rs with [] => None | r :: rest => if valid r then first_invalid valid rest else Some r end.

Lemma first_invalid_spec valid k m :
  match first_invalid valid (seq k m) with
  | Some r => (k <= r < k + m)%nat /\ valid r = false /\ forall r', (k <= r' < r)%nat -> valid r' = true
  | None => forall r, (k <= r < k + m)%nat -> valid r = true
  end.
Proof.
  revert k. induction m as [|m IH]; intros k; cbn [seq first_invalid]; [intros r Hr; lia|].
  destruct (valid k) eqn:Hk; [|split; [lia|split; [done|intros; lia]]].
  specialize (IH (S k)). destruct (first_invalid valid (seq (S k) m)) as [r|].
  - destruct IH as (Hr & Hv & Hlow). split; [lia|]. split; [done|]. intros r' Hr'.
    destruct (decide (r' = k)) as [->|]; [done|]. apply Hlow. lia.
  - intros r Hr. destruct (decide (r = k)) as [->|]; [done|]. apply IH. lia.
Qed.

(** All ranks pass the same value. *)
Definition agreed (n : nat) (v : nat -> Z) : bool := forallb (fun r => v r =? v 0%nat) (seq 0 n).

Lemma agreed_spec n v : agreed n v = true <-> forall r, (r < n)%nat -> v r = v 0%nat.
Proof.
  unfold agreed. rewrite forallb_forall. split.
  - intros H r Hr. apply Z.eqb_eq, H, in_seq. lia.
  - intros H r Hr%in_seq. apply Z.eqb_eq, H. lia.
Qed.

Lemma agreed_reduce n v : (0 < n)%nat ->
  (reduce Op_Min (map v (seq 0 n)) =? reduce Op_Max (map v (seq 0 n))) = agreed n v.
Proof.
  intros Hn. destruct (agreed n v) eqn:Ha.
  - rewrite agreed_spec in Ha. apply Z.eqb_eq. by rewrite !(reduce_const n Hn v (v 0%nat)).
  - apply Z.eqb_neq. intros Heq. apply not_true_iff_false in Ha. apply Ha, agreed_spec. intros r Hr.
    rewrite (reduce_agree n Hn v Heq r Hr). symmetry. by apply (reduce_agree n Hn v Heq).
Qed.

Section Arguments.
Context {P T : Type} (n : nat) (Hn : (0 < n)%nat) (thread_main : nat -> bool) (options : nat -> PmapOptions) (has_items execution_valid : nat -> bool).

(** What every rank checks of its own arguments and of their agreement. *)
Definition arguments_valid (r : nat) : bool :=
  thread_main r
  && (0 <=? opt_root (options r)) && (opt_root (options r) <? Z.of_nat n)
  && Bool.eqb (Z.of_nat r =? opt_root (options r)) (has_items r)
  && execution_valid r
  && agreed n (fun r => opt_root (options r)) && agreed n (fun r => opt_batch_size (options r))
  && agreed n (fun r => mode_code (opt_local_mode (options r))) && agreed n (fun r => bool_code (opt_prefetch (options r))).

Definition preflight_error (k : nat) : PmapError :=
  PmapError_new Preflight (lit "pmap preflight failed on rank " ++ decimal (Z.of_nat k)).

Lemma pmap_preflight_runs {X} (K : nat -> result PmapError unit -> Prog X) Q :
  Runs n (fun r => K r (match first_invalid arguments_valid (seq 0 n) with Some k => Err (preflight_error k) | None => Ok tt end)) Q ->
  Runs n (fun r => preflight (Z.of_nat n) (Z.of_nat r) (thread_main r) (options r) (has_items r) (execution_valid r) ≫= K r) Q.
Proof.
  intros HQ. unfold preflight, all_reduce. cbn [mbind Prog_bind prog_bind]. do 8 (apply (runs_allreduce n Hn)). cbv beta zeta.
  set (candidate := fun r => if arguments_valid r then Z.of_nat n else Z.of_nat r).
  eapply runs_ext with (f := fun r => AllReduce Op_Min (candidate r) (fun failing_rank =>
    (if negb (failing_rank =? Z.of_nat n)
     then Ret (Err (PmapError_new Preflight (lit "pmap preflight failed on rank " ++ decimal failing_rank)))
     else Ret (Ok tt)) ≫= K r)).
  - intros r Hr. rewrite !(agreed_reduce n _ Hn). fold (arguments_valid r). unfold preflight_candidate, validate_world_rank.
    rewrite (proj2 (Z.leb_gt (Z.of_nat n) 0)), (proj2 (Z.ltb_ge (Z.of_nat r) 0)), (proj2 (Z.leb_gt (Z.of_nat n) (Z.of_nat r))) by lia.
    unfold fail_if. cbn [orb]. rcbn. cbn [map_err]. unfold candidate. destruct (arguments_valid r); done.
  - apply (runs_allreduce n Hn). pose proof (first_invalid_spec arguments_valid 0 n) as Hfirst.
    destruct (first_invalid arguments_valid (seq 0 n)) as [k|].
    + destruct Hfirst as (Hk & Hv & Hlow). assert (Hred : reduce Op_Min (map candidate (seq 0 n)) = Z.of_nat k).
      { destruct (reduce_spec n Hn candidate Op_Min) as (r & Hr & -> & Hmin). pose proof (Hmin k ltac:(lia)) as Hle.
        unfold candidate in *. rewrite Hv in Hle. destruct (decide (r < k)%nat) as [Hlt|Hge];
          [rewrite Hlow in * by lia; lia|]. destruct (arguments_valid r); lia. }
      rewrite Hred, (proj2 (Z.eqb_neq (Z.of_nat k) (Z.of_nat n))) by lia. exact HQ.
    + rewrite (reduce_const n Hn candidate (Z.of_nat n)) by (intros r Hr; unfold candidate; by rewrite Hfirst by lia).
      rewrite Z.eqb_refl. exact HQ.
Qed.
End Arguments.

(** ** The collective *)

Section Collective.
Context {P St T U E : Type} (display : E -> text) (g : T -> result E U) (f : nat -> T -> M St E U)
  (encode_items : list (nat * T) -> result text (list byte))
  (decode_items : list byte -> result text (list (nat * T) * Z))
  (encode_result : ResultPayload U -> result text (list byte))
  (decode_result : list byte -> result text (ResultPayload U * Z)).
Context (n fuel : nat) (thread_main : nat -> bool) (local : nat -> Local P) (options : nat -> PmapOptions)
  (root_items : nat -> option (list T)) (s : nat -> St).

(** The program of rank [r]. *)
Definition pmap_rank (r : nat) : Prog (Local P * result PmapError (option (list U))) :=
  pmap display (f r) encode_items decode_items encode_result decode_result (Z.of_nat n) (Z.of_nat r)
    fuel (thread_main r) (local r) (options r) (root_items r) (s r).

(** The domain and the options allow the MPI-only map. *)
Definition execution_ok (r : nat) : bool :=
  negb (running (domain (local r))) && (LocalDomain.id (domain (local r)) =? 0) && (worker_count (domain (local r)) =? 1)
  && bool_decide (opt_local_mode (options r) = Sequential) && negb (opt_prefetch (options r)).

Definition all_valid (r : nat) : bool :=
  arguments_valid n thread_main options (fun r => is_some (root_items r)) execution_ok r.

(** What the ranks return, with the process state of each as it was before. *)
Definition mapped (x : nat -> Local P * result PmapError (option (list U))) : Prop :=
  match first_invalid all_valid (seq 0 n) with
  | Some k => forall r, (r < n)%nat -> x r = (local r, Err (preflight_error k))
  | None => exists rho xs, (rho < n)%nat /\ root_items rho = Some xs /\
      (forall r, (r < n)%nat -> opt_root (options r) = Z.of_nat rho) /\
      match serial display g xs with
      | Ok ys => forall r, (r < n)%nat -> x r = (local r, Ok (if decide (r = rho) then Some ys else None))
      | Err (Raise e) => exists w, (w < n)%nat /\ forall r, (r < n)%nat ->
          x r = (local r, Err (mkPmapError User (Some ((Z.of_nat (error_index e) * 3 + 1) * Z.of_nat n + Z.of_nat w))
                                 (Text.error_message e)))
      | Err Panic => False
      end
  end.

(** After a successful preflight all ranks have the same options, and the root has the items. *)
Lemma all_valid_options : (0 < n)%nat -> (forall r, (r < n)%nat -> all_valid r = true) ->
  exists rho xs, (rho < n)%nat /\ root_items rho = Some xs /\ (forall r, (r < n)%nat -> options r = options rho) /\
    opt_root (options rho) = Z.of_nat rho /\ opt_prefetch (options rho) = false /\
    forall r, (r < n)%nat -> execution_ok r = true.
Proof.
  intros Hn Hall. pose proof (Hall 0%nat Hn) as H0. unfold all_valid, arguments_valid in H0. zbool.
  set (rho := Z.to_nat (opt_root (options 0%nat))).
  repeat match goal with H : agreed n _ = true |- _ => rewrite agreed_spec in H end.
  assert (Hrho : (rho < n)%nat) by (unfold rho; lia).
  assert (Hexec : forall r, (r < n)%nat -> execution_ok r = true /\ Bool.eqb (Z.of_nat r =? opt_root (options r)) (is_some (root_items r)) = true).
  { intros r Hr. pose proof (Hall r Hr) as Hv. unfold all_valid, arguments_valid in Hv. zbool. done. }
  assert (Hopt : forall r, (r < n)%nat -> options r = mkPmapOptions (Z.of_nat rho) (opt_batch_size (options 0%nat)) Sequential false).
  { intros r Hr. destruct (Hexec r Hr) as [He _]. unfold execution_ok in He. zbool.
    destruct (options r) as [o b m p] eqn:Ho. cbn in *. subst m p.
    repeat match goal with H : forall r, (r < n)%nat -> _ |- _ => specialize (H r Hr) end. rewrite Ho in *. cbn in *.
    f_equal; [unfold rho; lia|done]. }
  destruct (Hexec rho Hrho) as [_ Hitems]. rewrite (Hopt rho Hrho) in Hitems. cbn in Hitems. rewrite Z.eqb_refl in Hitems.
  destruct (root_items rho) as [xs|] eqn:Hxs; [|done].
  exists rho, xs. rewrite (Hopt rho Hrho). split_and!; try done. intros r Hr. by apply Hexec.
Qed.

(** The guards of the thread and of the domain leave both as they were. *)
Lemma pmap_rank_eq r : active (local r) = false ->
  pmap_rank r = Duplicate (
    preflight (Z.of_nat n) (Z.of_nat r) (thread_main r) (options r) (is_some (root_items r)) (execution_ok r) ≫= fun checked =>
    match checked with
    | Err e => Ret (local r, Err e)
    | Ok _ =>
        if running (domain (local r)) then Crash
        else run_rank display (f r) encode_items decode_items encode_result decode_result (Z.of_nat n) (Z.of_nat r) fuel
               (options r) (root_items r) (s r) ≫= fun outcome =>
             conclude (Z.of_nat n) (Z.of_nat r) (options r) outcome ≫= fun res => Ret (local r, res)
    end).
Proof.
  intros Ha. unfold pmap_rank, pmap, execution_ok. rewrite Ha. destruct (local r) as [a d]. cbn [active domain] in *. subst a.
  unfold try_admit. destruct (running d) eqn:Hr; cbn [is_ok negb andb].
  - done.
  - replace (release _) with d by (destruct d; cbn in *; by subst). done.
Qed.

(** C1: The MPI map is the serial map.  Whatever the interleaving of the ranks
    and however the scheduler spreads the batches, every rank returns, with no
    deadlock, livelock, abort or panic.  If some rank's arguments are invalid or
    the ranks disagree, all return the preflight error that names the lowest
    such rank.  Otherwise the root gets exactly the results of the serial map,
    in input order, and the others nothing; or, when a callback fails, every
    rank gets the same error: the message of the first failing input, with the
    key of that input.  The thread and the domain of every rank are free again. *)
Theorem pmap_is_serial_map :
  (0 < n)%nat -> (forall r, computes g (f r)) -> (forall e, utf8_valid (display e) = true) ->
  (forall r, (r < n)%nat -> active (local r) = false /\ 0 < opt_batch_size (options r)) ->
  (forall r xs, root_items r = Some xs ->
     codec_ok display g xs encode_items decode_items encode_result decode_result /\
     (len xs * 3 + 3) * Z.of_nat n <= NO_ERROR_KEY /\ (3 * length xs + 2 * n + 3 < fuel)%nat) ->
  Runs n pmap_rank mapped.
Proof.
  intros Hn Hf Hutf Hlocal Hitems.
  eapply runs_ext; [intros r Hr; apply pmap_rank_eq; by apply Hlocal|]. apply (runs_duplicate n Hn).
  apply (pmap_preflight_runs n Hn thread_main options (fun r => is_some (root_items r)) execution_ok).
  change (arguments_valid n thread_main options (fun r => is_some (root_items r)) execution_ok) with all_valid.
  unfold mapped. pose proof (first_invalid_spec all_valid 0 n) as Hfirst.
  destruct (first_invalid all_valid (seq 0 n)) as [k|]; [by apply (runs_ret n (fun r => (local r, Err (preflight_error k))))|].
  destruct (all_valid_options Hn) as (rho & xs & Hrho & Hxs & Hopt & Hroot & Hpre & Hexec); [intros r Hr; apply Hfirst; lia|].
  destruct (Hitems rho xs Hxs) as (Hcodec & Hkeys & Hfuel).
  eapply runs_ext with (f := fun r => rank_program display f encode_items decode_items encode_result decode_result n fuel
      (options rho) root_items s r ≫= fun outcome =>
      conclude (Z.of_nat n) (Z.of_nat r) (options rho) outcome ≫= fun res => Ret (local r, res)).
  { intros r Hr. rewrite (Hopt r Hr). pose proof (Hexec r Hr) as He. unfold execution_ok in He. zbool.
    by destruct (running (domain (local r))). }
  apply (runs_bind (fun r outcome => conclude (Z.of_nat n) (Z.of_nat r) (options rho) outcome ≫= fun res => Ret (local r, res)))
    with (P := phase_ends display g n rho xs).
  { by intros r [[[? ?] ?]|e]. }
  { apply phase_runs; try done. by apply Hlocal. }
  intros x (ks & results & Hx & Hok). eapply runs_ext; [intros r Hr; by rewrite (Hx r Hr)|].
  destruct Hok as [[Hk Hall]|(i & e & Hfirst' & Hrep & Hex)].
  - apply (conclude_succeeds n rho Hrho (fun _ => options rho) (fun r => if decide (r = rho) then results else []) ks); [done|].
    apply (runs_ret n (fun r => (local r, _))). exists rho, xs. split_and!; try done; [intros r Hr; by rewrite Hopt|].
    rewrite (serial_all display g xs Hutf results Hall). intros r Hr. rewrite Hroot.
    destruct (decide (r = rho)) as [->|Hne]; [by rewrite Z.eqb_refl|]. by rewrite (proj2 (Z.eqb_neq _ _)) by lia.
  - eapply (conclude_fails display g n rho xs Hutf Hrho Hkeys (fun _ => options rho) (fun r => if decide (r = rho) then results else []) ks);
      [exact Hfirst'|exact Hrep|exact Hex|].
    intros w Hw. apply (runs_ret n (fun r => (local r, Err _))). exists rho, xs. split_and!; try done; [intros r Hr; by rewrite Hopt|].
    rewrite (serial_first display g xs Hutf i e Hfirst'). exists w. split; [done|]. done.
Qed.
End Collective.

(** ** Witness *)

(** A codec for numbered integers: sixteen bytes per item, one byte for the kind
    of a result. *)
Definition pairs_ok (l : list (nat * Z)) : Prop := Forall (fun p => in_u 64 (Z.of_nat p.1) /\ in_u 64 p.2) l.
Definition put_pairs (l : list (nat * Z)) : list byte :=
  l ≫= fun p => to_le_bytes 8 (Z.of_nat p.1) ++ to_le_bytes 8 p.2.
Fixpoint get_pairs (fuel : nat) (bytes : list byte) : list (nat * Z) :=
  match fuel, bytes with
  | S fuel, _ :: _ =>
      (Z.to_nat (from_le_bytes (take 8 bytes)), from_le_bytes (take 8 (drop 8 bytes))) :: get_pairs fuel (drop 16 bytes)
  | _, _ => []
  end.
Definition put_items (l : list (nat * Z)) : result text (list byte) :=
  if bool_decide (pairs_ok l) then Ok (put_pairs l) else Err (lit "range").
Definition get_items (bytes : list byte) : result text (list (nat * Z) * Z) := Ok (get_pairs (length bytes) bytes, len bytes).

Definition put_result (p : ResultPayload Z) : result text (list byte) :=
  match p with
  | Values l => bytes ← put_items l; Ok (Byte.x00 :: bytes)
  | Error e =>
      if bool_decide (in_u 64 (failure_index e) /\ in_u 32 (failure_kind e))
      then Ok (Byte.x01 :: to_le_bytes 8 (failure_index e) ++ to_le_bytes 4 (failure_kind e) ++ failure_message e)
      else Err (lit "range")
  end.
Definition get_result (bytes : list byte) : result text (ResultPayload Z * Z) :=
  match bytes with
  | Byte.x00 :: rest => Ok (Values (get_pairs (length rest) rest), len bytes)
  | Byte.x01 :: rest =>
      Ok (Error (mkCallbackFailure (from_le_bytes (take 8 rest)) (from_le_bytes (take 4 (drop 8 rest))) (drop 12 rest)), len bytes)
  | _ => Err (lit "kind")
  end.

Lemma get_put_pairs l : forall fuel, pairs_ok l -> (length l <= fuel)%nat -> get_pairs fuel (put_pairs l) = l.
Proof.
  induction l as [|[i v] l IH]; intros fuel Hok Hfuel; [by destruct fuel|]. destruct fuel as [|fuel]; [cbn in Hfuel; lia|].
  apply Forall_cons in Hok as [[Hi Hv] Hok]. cbn [fst snd] in *. unfold in_u in *.
  change (put_pairs ((i, v) :: l)) with ((to_le_bytes 8 (Z.of_nat i) ++ to_le_bytes 8 v) ++ put_pairs l).
  assert (Hlook : forall rest, get_pairs (S fuel) ((to_le_bytes 8 (Z.of_nat i) ++ to_le_bytes 8 v) ++ rest) = (i, v) :: get_pairs fuel rest).
  { intros rest. cbn [get_pairs to_le_bytes app]. f_equal. f_equal.
    - change (Z.to_nat (from_le_bytes (to_le_bytes 8 (Z.of_nat i))) = i). rewrite from_to_le_bytes by (cbn; lia). lia.
    - change (from_le_bytes (to_le_bytes 8 v) = v). by rewrite from_to_le_bytes by (cbn; lia). }
  rewrite Hlook. f_equal. apply IH; [done|cbn in Hfuel; lia].
Qed.

Lemma length_put_pairs l : length (put_pairs l) = (16 * length l)%nat.
Proof. induction l as [|p l IH]; [done|]. unfold put_pairs in *. cbn [mbind list_bind length]. rewrite length_app, IH, length_app, !length_to_le_bytes. lia. Qed.

Lemma round_put_items v bytes : put_items v = Ok bytes -> get_items bytes = Ok (v, len bytes).
Proof.
  unfold put_items, get_items. destruct (bool_decide (pairs_ok v)) eqn:Hok; [|done]. zbool. intros [= <-].
  rewrite get_put_pairs; [done|done|rewrite length_put_pairs; lia].
Qed.

Lemma round_put_result v bytes : put_result v = Ok bytes -> get_result bytes = Ok (v, len bytes).
Proof.
  destruct v as [l|[i k m]]; cbn [put_result failure_index failure_kind failure_message].
  - unfold put_items. destruct (bool_decide (pairs_ok l)) eqn:Hok; [|done]. zbool. rcbn. intros [= <-]. cbn [get_result].
    rewrite get_put_pairs; [done|done|rewrite length_put_pairs; lia].
  - destruct (bool_decide _) eqn:Hok; [|done]. zbool. destruct Hok as [Hi Hk]. unfold in_u in *. intros Heq.
    assert (bytes = Byte.x01 :: to_le_bytes 8 i ++ to_le_bytes 4 k ++ m) as -> by congruence. clear Heq. cbn [get_result].
    rewrite !take_app_length', !drop_app_length', take_app_length' by (by rewrite length_to_le_bytes).
    rewrite app_assoc, drop_app_length' by (by rewrite length_app, !length_to_le_bytes).
    by rewrite !from_to_le_bytes by (cbn; lia).
Qed.

(** Four inputs, of which the third may fail. *)
Definition ex_inputs : list Z := [10; 20; 30; 40].
Definition ex_map (bad : Z) (x : Z) : result unit Z := if x =? bad then Err tt else Ok (Z.modulo (x + 1) 256).
Definition ex_display (e : unit) : text := lit "bad".
Definition ex_call (bad : Z) (r : nat) (x : Z) : M nat unit Z := fun calls => (map_err Raise (ex_map bad x), S calls).

Lemma ex_codec bad : codec_ok ex_display (ex_map bad) ex_inputs put_items get_items put_result get_result.
Proof.
  assert (Hslice : forall j k, Forall (fun p : nat * Z => (p.1 < 4)%nat /\ 0 <= p.2 < 256) (take k (drop j (numbered ex_inputs)))
    /\ (length (take k (drop j (numbered ex_inputs))) <= 4)%nat).
  { intros j k. split; [|rewrite length_take, length_drop; cbn; lia]. apply Forall_take, Forall_drop. unfold numbered, ex_inputs. cbn.
    repeat (constructor; [cbn; lia|]). constructor. }
  assert (Hput : forall l : list (nat * Z), Forall (fun p => (p.1 < 4)%nat /\ 0 <= p.2 < 256) l -> (length l <= 4)%nat ->
    exists bytes, put_items l = Ok bytes /\ len bytes <= 64).
  { intros l Hl Hlen. exists (put_pairs l). unfold put_items. rewrite bool_decide_true; [split; [done|unfold len; rewrite length_put_pairs; lia]|].
    eapply Forall_impl; [exact Hl|]. intros [i v]. unfold in_u. cbn. lia. }
  split.
  - exact round_put_items.
  - exact round_put_result.
  - intros j k. destruct (Hslice j k) as [Hs Hl]. destruct (Hput _ Hs Hl) as (bytes & Hb & Hlen).
    exists bytes. split; [done|]. unfold MAX_WIRE_BYTES, i32_max. lia.
  - intros j k vals Hv. destruct (Hslice j k) as [Hs Hl]. rewrite (Forall2_length _ _ _ Hv) in Hl.
    destruct (Hput vals) as (bytes & Hb & Hlen); [|done|].
    + clear -Hs Hv. revert Hs Hv. generalize (take k (drop j (numbered ex_inputs))). intros items Hs Hv.
      revert Hs. induction Hv as [|[i x] [j' u] l1 l2 [-> Hu] _ IH]; [done|]. intros [Hi Hl1]%Forall_cons. constructor; [|by apply IH].
      unfold ex_map in Hu. destruct (x =? bad); [done|]. injection Hu as <-. cbn in *. split; [lia|]. by apply Z.mod_pos_bound.
    + exists (Byte.x00 :: bytes). cbn [put_result]. rewrite Hb. split; [done|]. rewrite len_cons. unfold MAX_WIRE_BYTES, i32_max. lia.
  - intros i x e Hx He. pose proof (lookup_lt_Some _ _ _ Hx) as Hi. cbn in Hi. unfold ex_map in He. destruct (x =? bad); [|done]. injection He as <-.
    eexists. cbn [put_result failure_index failure_kind]. rewrite bool_decide_true by (unfold in_u; cbn; lia). split; [reflexivity|].
    rewrite len_cons, !len_app, !len_to_le_bytes. vm_compute. discriminate.
Qed.

Definition ex_local (r : nat) : Local nat := mkLocal false (mkDomain 0 1 false None None None None).
Definition ex_options (r : nat) : PmapOptions := mkPmapOptions 1 1 Sequential false.
Definition ex_root_items (r : nat) : option (list Z) := if decide (r = 1%nat) then Some ex_inputs else None.
(** Rank 2 of the second call asks for batches of another size. *)
Definition ex_mixed (r : nat) : PmapOptions := mkPmapOptions 1 (if decide (r = 2%nat) then 5 else 1) Sequential false.

Lemma ex_hypotheses r xs : ex_root_items r = Some xs ->
  codec_ok ex_display (ex_map 30) xs put_items get_items put_result get_result /\
  (len xs * 3 + 3) * Z.of_nat 3 <= NO_ERROR_KEY /\ (3 * length xs + 2 * 3 + 3 < 30)%nat.
Proof.
  unfold ex_root_items. destruct (decide (r = 1%nat)); [|done]. intros [= <-]. split; [apply ex_codec|].
  split; [vm_compute; discriminate|cbn; lia].
Qed.

Lemma pmap_is_serial_map_witness :
  Runs 3 (pmap_rank ex_display (ex_call 30) put_items get_items put_result get_result 3 30 (fun _ => true) ex_local
            ex_options ex_root_items (fun _ => 0%nat))
    (fun x => exists w, (w < 3)%nat /\ forall r, (r < 3)%nat ->
       x r = (ex_local r, Err (mkPmapError User (Some (21 + Z.of_nat w)) (lit "bad")))) /\
  Runs 3 (pmap_rank ex_display (ex_call 30) put_items get_items put_result get_result 3 30 (fun _ => true) ex_local
            ex_mixed ex_root_items (fun _ => 0%nat))
    (fun x => forall r, (r < 3)%nat ->
       x r = (ex_local r, Err (mkPmapError Preflight None (lit "pmap preflight failed on rank 0")))).
Proof.
  split.
  - eapply runs_mono; [apply (pmap_is_serial_map ex_display (ex_map 30) (ex_call 30)); [lia| |done|done|exact ex_hypotheses]|].
    { intros r x s. cbn. by destruct (ex_map 30 x). }
    intros x Hx. unfold mapped in Hx.
    replace (first_invalid _ _) with (@None nat) in Hx by (vm_compute; reflexivity).
    destruct Hx as (rho & xs & Hrho & Hxs & Hroot & Hx).
    assert (rho = 1%nat) as -> by (pose proof (Hroot 0%nat ltac:(lia)) as H1; cbn in H1; lia).
    injection Hxs as <-.
    replace (serial ex_display (ex_map 30) ex_inputs) with (@Err (exn MapError) (list Z) (Raise (mkMapError 2 (lit "bad")))) in Hx
      by (vm_compute; reflexivity).
    destruct Hx as (w & Hw & Hx). exists w. split; [exact Hw|]. intros r Hr. rewrite (Hx r Hr).
    cbn [error_index Text.error_message]. reflexivity.
  - eapply runs_mono; [apply (pmap_is_serial_map ex_display (ex_map 30) (ex_call 30)); [lia| |done| |exact ex_hypotheses]|].
    { intros r x s. cbn. by destruct (ex_map 30 x). }
    { intros r Hr. split; [done|]. unfold ex_mixed. cbn. by destruct (decide (r = 2%nat)). }
    intros x Hx. unfold mapped in Hx.
    replace (first_invalid _ _) with (Some 0%nat) in Hx by (vm_compute; reflexivity).
    intros r Hr. rewrite (Hx r Hr). vm_compute. reflexivity.
Defined.
