(* ===== verification/Transport.v ===== *)
(** * Transport: the bounded transport contract and its submission accounting

    Models [crates/hataori-runtime-foundation/src/transport.rs]: events, errors
    and statistics, and [SubmissionState], which admits parcels per peer and
    channel.  [reserve] runs under the [gate] mutex, so its reads and updates
    are one step here; [release] only decreases the counters.  Atomic counters
    are [Z] with the wrap-around of [fetch_add] and [fetch_sub] written out. *)
From S2P Require Import Prelude Protocol.

(** ** Events, errors, statistics *)

Abbreviation SendTicket := Z (only parsing).

Inductive TransportError : Type :=
| TransportError_Protocol (e : ProtocolError)
| TransportError_InvalidDestination (l : LocalityId)
| TransportError_QueueFull (channel : Channel) (limit : Z)
| TransportError_ByteLimit (actual limit : Z)
| TransportError_Disconnected (l : LocalityId)
| TransportError_Peer (message : string)
| TransportError_Io (message : string)
| TransportError_Timeout (what : string)
| TransportError_Shutdown
| TransportError_WrongThread.

Inductive TransportEvent : Type :=
| LocalSendComplete (ticket : SendTicket)
| Incoming (parcel : Parcel)
| SendFailed (ticket : SendTicket) (error : TransportError)
| PeerFailed (peer : LocalityId) (error : TransportError)
| ShutdownComplete.

Record Progress : Type := mkProgress { events : Z; made_progress : bool }.

Record TransportStats : Type := mkTransportStats {
  submitted_parcels : Z; submitted_bytes : Z;
  received_parcels : Z; received_bytes : Z;
  queued_control : Z; queued_action : Z; queued_bulk : Z; queued_bytes : Z;
  retained_read_bytes : Z; retained_write_bytes : Z; retained_reassembly_bytes : Z;
  peer_failures : Z; pending_events : Z; pending_event_bytes : Z;
}.

Definition TransportStats_default : TransportStats :=
  mkTransportStats 0 0 0 0 0 0 0 0 0 0 0 0 0 0.

Definition queued_for (s : TransportStats) (c : Channel) : Z :=
  match c with
  | Channel_Control => queued_control s
  | Channel_Action => queued_action s
  | Channel_Bulk => queued_bulk s
  end.

Definition retained_bytes (s : TransportStats) : Z :=
  let total := queued_bytes s in
  let total := saturating_add usize_max total (retained_read_bytes s) in
  let total := saturating_add usize_max total (retained_write_bytes s) in
  let total := saturating_add usize_max total (retained_reassembly_bytes s) in
  saturating_add usize_max total (pending_event_bytes s).

Definition add_pending_event_stats (s : TransportStats) (evs : list TransportEvent) :
    TransportStats :=
  let bytes := foldl (fun total ev => saturating_add usize_max total
    (match ev with
     | Incoming p => match Parcel_payload_len p with Ok n => n | Err _ => usize_max end
     | _ => 0
     end)) 0 evs in
  mkTransportStats (submitted_parcels s) (submitted_bytes s) (received_parcels s)
    (received_bytes s) (queued_control s) (queued_action s) (queued_bulk s) (queued_bytes s)
    (retained_read_bytes s) (retained_write_bytes s) (retained_reassembly_bytes s)
    (peer_failures s) (len evs) bytes.

(** ** Submission state *)

Record SubmissionState : Type := mkSubmissionState {
  limits : ProtocolLimits;
  next_ticket : Z;
  closed : bool;
  counts : list Z;
  bytes : list Z;
  s_submitted_parcels : Z; s_submitted_bytes : Z;
  s_received_parcels : Z; s_received_bytes : Z;
  s_peer_failures : Z;
}.

Definition SubmissionState_new (members : nat) (l : ProtocolLimits) : SubmissionState :=
  mkSubmissionState l 1 false (replicate (members * 3) 0) (replicate members 0) 0 0 0 0 0.

Abbreviation SM := (M SubmissionState TransportError).

Definition with_counts (c : list Z) (s : SubmissionState) : SubmissionState :=
  mkSubmissionState (limits s) (next_ticket s) (closed s) c (bytes s) (s_submitted_parcels s)
    (s_submitted_bytes s) (s_received_parcels s) (s_received_bytes s) (s_peer_failures s).
Definition with_bytes (b : list Z) (s : SubmissionState) : SubmissionState :=
  mkSubmissionState (limits s) (next_ticket s) (closed s) (counts s) b (s_submitted_parcels s)
    (s_submitted_bytes s) (s_received_parcels s) (s_received_bytes s) (s_peer_failures s).
Definition with_ticket (t : Z) (s : SubmissionState) : SubmissionState :=
  mkSubmissionState (limits s) t (closed s) (counts s) (bytes s) (s_submitted_parcels s)
    (s_submitted_bytes s) (s_received_parcels s) (s_received_bytes s) (s_peer_failures s).

(** [channel as usize]. *)
Definition channel_index (c : Channel) : nat := Z.to_nat (Channel_code c).
Definition slot (peer : nat) (c : Channel) : nat := (peer * 3 + channel_index c)%nat.

(** [self.counts[slot].fetch_add(d)] for [d] possibly negative, and the same on
    [self.bytes]; an index out of range panics. *)
Definition fetch_add_count (i : nat) (d : Z) : SM Z :=
  c ← gets counts;
  match c !! i with
  | None => panic
  | Some v => modify (with_counts (<[i := wrapping_add 64 v d]> c));; mret v
  end.
Definition fetch_add_bytes (i : nat) (d : Z) : SM Z :=
  b ← gets bytes;
  match b !! i with
  | None => panic
  | Some v => modify (with_bytes (<[i := wrapping_add 64 v d]> b));; mret v
  end.

(** [a + b] on [usize]; overflow panics. *)
Definition usize_add (a b : Z) : SM Z := if a + b <=? usize_max then mret (a + b) else panic.

Definition release (peer : nat) (c : Channel) (n : Z) : SM unit :=
  fetch_add_bytes peer (- n);;
  fetch_add_count (slot peer c) (-1);;
  mret tt.

Record SendPermit : Type := mkSendPermit {
  permit_peer : nat; permit_channel : Channel; permit_bytes : Z; permit_ticket : SendTicket;
}.

Definition byte_limit (l : ProtocolLimits) (c : Channel) : Z :=
  if bool_decide (c = Channel_Control) then max_inflight_bytes_per_peer l
  else max_inflight_bytes_per_peer l - control_reserved_bytes_per_peer l.

Definition reserve (peer : nat) (c : Channel) (n : Z) : SM SendPermit :=
  s ← gets id;
  if closed s then raise TransportError_Shutdown else
  old ← fetch_add_count (slot peer c) 1;
  count ← usize_add old 1;
  if max_queued_parcels_per_peer (limits s) <? count then
    fetch_add_count (slot peer c) (-1);;
    raise (TransportError_QueueFull c (max_queued_parcels_per_peer (limits s)))
  else
  old ← fetch_add_bytes peer n;
  total ← usize_add old n;
  if byte_limit (limits s) c <? total then
    fetch_add_bytes peer (- n);;
    fetch_add_count (slot peer c) (-1);;
    raise (TransportError_ByteLimit total (byte_limit (limits s) c))
  else
  raw ← gets next_ticket;
  if (raw =? 0) || (raw =? u64_max) then
    release peer c n;;
    raise (TransportError_Peer "send ticket overflow")
  else
  modify (with_ticket (raw + 1));;
  mret (mkSendPermit peer c n raw).

(** [SendPermit::commit]: the permit is consumed without a release. *)
Definition permit_commit (p : SendPermit) : SM unit :=
  modify (fun s =>
    mkSubmissionState (limits s) (next_ticket s) (closed s) (counts s) (bytes s)
      (wrapping_add 64 (s_submitted_parcels s) 1)
      (wrapping_add 64 (s_submitted_bytes s) (permit_bytes p))
      (s_received_parcels s) (s_received_bytes s) (s_peer_failures s)).

(** [Drop for SendPermit] when it was not committed. *)
Definition permit_drop (p : SendPermit) : SM unit :=
  release (permit_peer p) (permit_channel p) (permit_bytes p).

Definition close : SM unit :=
  modify (fun s =>
    mkSubmissionState (limits s) (next_ticket s) true (counts s) (bytes s)
      (s_submitted_parcels s) (s_submitted_bytes s)
      (s_received_parcels s) (s_received_bytes s) (s_peer_failures s)).

Definition record_received (n : Z) : SM unit :=
  modify (fun s =>
    mkSubmissionState (limits s) (next_ticket s) (closed s) (counts s) (bytes s)
      (s_submitted_parcels s) (s_submitted_bytes s)
      (wrapping_add 64 (s_received_parcels s) 1)
      (wrapping_add 64 (s_received_bytes s) n) (s_peer_failures s)).

Definition record_peer_failure : SM unit :=
  modify (fun s =>
    mkSubmissionState (limits s) (next_ticket s) (closed s) (counts s) (bytes s)
      (s_submitted_parcels s) (s_submitted_bytes s)
      (s_received_parcels s) (s_received_bytes s) (wrapping_add 64 (s_peer_failures s) 1)).

Definition sum_Z (l : list Z) : Z := foldr Z.add 0 l.

Definition outstanding_count (s : SubmissionState) : Z := sum_Z (counts s).

(** The per-peer loop of [stats]; [None] is an index out of range. *)
Definition stats_peer (s : SubmissionState) (st : TransportStats) (peer : nat) :
    option TransportStats :=
  c ← counts s !! slot peer Channel_Control;
  a ← counts s !! slot peer Channel_Action;
  b ← counts s !! slot peer Channel_Bulk;
  n ← bytes s !! peer;
  Some (mkTransportStats (submitted_parcels st) (submitted_bytes st) (received_parcels st)
    (received_bytes st) (queued_control st + c) (queued_action st + a) (queued_bulk st + b)
    (queued_bytes st + n) (retained_read_bytes st) (retained_write_bytes st)
    (retained_reassembly_bytes st) (peer_failures st) (pending_events st)
    (pending_event_bytes st)).

Definition stats (s : SubmissionState) : option TransportStats :=
  foldl (fun acc peer => acc ≫= (fun st => stats_peer s st peer))
    (Some (mkTransportStats (s_submitted_parcels s) (s_submitted_bytes s)
             (s_received_parcels s) (s_received_bytes s) 0 0 0 0 0 0 0 (s_peer_failures s) 0 0))
    (seq 0 (length (counts s) / 3)).

(** ** The ledger: what is reserved and not yet released *)

Definition weight (f : SendPermit -> Z) (L : list SendPermit) : Z := sum_Z (map f L).

Definition at_slot (peer : nat) (c : Channel) (p : SendPermit) : Z :=
  if decide (permit_peer p = peer /\ permit_channel p = c) then 1 else 0.
Definition at_peer (peer : nat) (p : SendPermit) : Z :=
  if decide (permit_peer p = peer) then permit_bytes p else 0.
(** Bytes reserved outside the control channel. *)
Definition data_at_peer (peer : nat) (p : SendPermit) : Z :=
  if decide (permit_peer p = peer /\ permit_channel p <> Channel_Control)
  then permit_bytes p else 0.

(** What the ledger says about admitting a parcel. *)
Definition admission (l : ProtocolLimits) (L : list SendPermit) (peer : nat) (c : Channel) (n : Z) :
    option TransportError :=
  if max_queued_parcels_per_peer l <? weight (at_slot peer c) L + 1 then
    Some (TransportError_QueueFull c (max_queued_parcels_per_peer l))
  else if byte_limit l c <? weight (at_peer peer) L + n then
    Some (TransportError_ByteLimit (weight (at_peer peer) L + n) (byte_limit l c))
  else None.

Record ledger_inv (members : nat) (l : ProtocolLimits) (s : SubmissionState)
    (L : list SendPermit) : Prop := {
  li_limits : limits s = l;
  li_counts_len : length (counts s) = (members * 3)%nat;
  li_bytes_len : length (bytes s) = members;
  li_counts : forall p c, (p < members)%nat -> counts s !! slot p c = Some (weight (at_slot p c) L);
  li_bytes : forall p, (p < members)%nat -> bytes s !! p = Some (weight (at_peer p) L);
  li_count_bound : forall p c, weight (at_slot p c) L <= max_queued_parcels_per_peer l;
  li_byte_bound : forall p, weight (at_peer p) L <= max_inflight_bytes_per_peer l;
  li_data_bound : forall p, weight (data_at_peer p) L
                    <= max_inflight_bytes_per_peer l - control_reserved_bytes_per_peer l;
  li_entries : Forall (fun p => (permit_peer p < members)%nat /\ 0 <= permit_bytes p) L;
  li_tickets : NoDup (map permit_ticket L);
  li_below : Forall (fun p => 1 <= permit_ticket p < next_ticket s) L;
  li_next : 1 <= next_ticket s <= u64_max;
}.

(** Limits that fit the machine: an overrun by one parcel is still a [usize]. *)
Definition limits_fit (l : ProtocolLimits) : Prop :=
  ProtocolLimits_validate l = Ok l /\ max_queued_parcels_per_peer l < usize_max /\
  0 <= max_queued_parcels_per_peer l /\ 0 <= control_reserved_bytes_per_peer l /\
  max_inflight_bytes_per_peer l <= usize_max.
Definition fits (l : ProtocolLimits) (n : Z) : Prop :=
  0 <= n /\ max_inflight_bytes_per_peer l + n <= usize_max.

Lemma limits_fit_reserved l :
  limits_fit l -> control_reserved_bytes_per_peer l < max_inflight_bytes_per_peer l.
Proof.
  intros [H _]. unfold ProtocolLimits_validate in H.
  match type of H with (if ?b then _ else _) = _ => destruct b eqn:E; [done|] end. zbool. lia.
Qed.

Lemma weight_cons f p L : weight f (p :: L) = f p + weight f L.
Proof. done. Qed.

#[export] Instance weight_proper f : Proper ((≡ₚ) ==> eq) (weight f).
Proof. intros L L' H. unfold weight, sum_Z. induction H; cbn in *; lia. Qed.

Lemma weight_nonneg f L : Forall (fun p => 0 <= f p) L -> 0 <= weight f L.
Proof. induction 1 as [|p L Hp _ IH]; [done|]. rewrite weight_cons. lia. Qed.

Lemma at_slot_nonneg peer c p : 0 <= at_slot peer c p.
Proof. unfold at_slot. case_decide; lia. Qed.

Lemma entries_nonneg members L :
  Forall (fun p => (permit_peer p < members)%nat /\ 0 <= permit_bytes p) L ->
  (forall p c, 0 <= weight (at_slot p c) L) /\ (forall p, 0 <= weight (at_peer p) L) /\
  (forall p, weight (data_at_peer p) L <= weight (at_peer p) L).
Proof.
  intros HL. split_and!; intros.
  - apply weight_nonneg. apply Forall_forall. intros. apply at_slot_nonneg.
  - apply weight_nonneg. eapply Forall_impl; [exact HL|]. intros q [_ ?].
    unfold at_peer. case_decide; lia.
  - induction HL as [|q L [_ Hq] _ IH]; [done|]. rewrite !weight_cons.
    unfold data_at_peer at 1, at_peer at 1. repeat case_decide; naive_solver lia.
Qed.

Lemma slot_inj p c p' c' : slot p c = slot p' c' -> p = p' /\ c = c'.
Proof. unfold slot, channel_index. destruct c, c'; cbn; intros; (split; [lia|]); (done || lia). Qed.

Lemma slot_lt p c members : (p < members)%nat -> (slot p c < members * 3)%nat.
Proof. unfold slot, channel_index. destruct c; cbn; lia. Qed.

Lemma wrapping_add_small a b : in_u 64 (a + b) -> wrapping_add 64 a b = a + b.
Proof. apply Z.mod_small. Qed.

Lemma fetch_add_count_eq i d v s :
  counts s !! i = Some v -> in_u 64 (v + d) ->
  fetch_add_count i d s = (Ok v, with_counts (<[i := v + d]> (counts s)) s).
Proof.
  intros Hv Hd. unfold fetch_add_count. mrun. rewrite Hv. mrun. by rewrite wrapping_add_small.
Qed.
Lemma fetch_add_bytes_eq i d v s :
  bytes s !! i = Some v -> in_u 64 (v + d) ->
  fetch_add_bytes i d s = (Ok v, with_bytes (<[i := v + d]> (bytes s)) s).
Proof.
  intros Hv Hd. unfold fetch_add_bytes. mrun. rewrite Hv. mrun. by rewrite wrapping_add_small.
Qed.

Lemma with_counts_undo i v v' s :
  counts s !! i = Some v ->
  with_counts (<[i := v]> (<[i := v']> (counts s))) s = s.
Proof. intros Hv. rewrite list_insert_insert_eq, list_insert_id by done. by destruct s. Qed.
Lemma with_bytes_undo i v v' s :
  bytes s !! i = Some v ->
  with_bytes (<[i := v]> (<[i := v']> (bytes s))) s = s.
Proof. intros Hv. rewrite list_insert_insert_eq, list_insert_id by done. by destruct s. Qed.

Lemma release_eq peer c n k b s :
  counts s !! slot peer c = Some k -> bytes s !! peer = Some b ->
  in_u 64 (b - n) -> in_u 64 (k - 1) ->
  release peer c n s =
    (Ok tt, with_counts (<[slot peer c := k - 1]> (counts s))
              (with_bytes (<[peer := b - n]> (bytes s)) s)).
Proof.
  intros Hk Hb Hub Huk. unfold release.
  rewrite (M_bind_step _ _ _ _ _ (fetch_add_bytes_eq peer (- n) b s Hb Hub)).
  by rewrite (M_bind_step _ _ _ _ _ (fetch_add_count_eq (slot peer c) (-1) k
                (with_bytes _ s) Hk Huk)).
Qed.

(** The state while [reserve] holds its reservation. *)
Definition reserved (peer : nat) (c : Channel) (k b : Z) (s : SubmissionState) : SubmissionState :=
  with_bytes (<[peer := b]> (bytes s)) (with_counts (<[slot peer c := k]> (counts s)) s).

(** Releasing what a reservation took restores the counters. *)
Lemma release_undo peer c n k b s :
  counts s !! slot peer c = Some k -> bytes s !! peer = Some b ->
  in_u 64 k -> in_u 64 b ->
  release peer c n (reserved peer c (k + 1) (b + n) s) = (Ok tt, s).
Proof.
  intros Hk Hb Huk Hub. unfold reserved.
  assert (Hlt := lookup_lt_Some _ _ _ Hk). assert (Hlt' := lookup_lt_Some _ _ _ Hb).
  rewrite (release_eq _ _ _ (k + 1) (b + n)).
  - unfold with_counts, with_bytes. cbn. replace (b + n - n) with b by lia.
    replace (k + 1 - 1) with k by lia.
    rewrite !list_insert_insert_eq, !list_insert_id by done. by destruct s.
  - cbn. by apply list_lookup_insert_eq.
  - cbn. by apply list_lookup_insert_eq.
  - by replace (b + n - n) with b by lia.
  - by replace (k + 1 - 1) with k by lia.
Qed.

(** [reserve] spells [release] out on one of its paths. *)
Lemma release_raise {A} peer c n e s :
  (fetch_add_bytes peer (- n);; fetch_add_count (slot peer c) (-1);; raise (A := A) e) s
  = (release peer c n;; raise e) s.
Proof.
  unfold release, mbind, M_bind. destruct (fetch_add_bytes peer (- n) s) as [[?|?] s1]; [|done].
  by destruct (fetch_add_count (slot peer c) (-1) s1) as [[?|?] ?].
Qed.

(** What [reserve] answers, from the ledger. *)
Definition reserve_outcome (s : SubmissionState) (L : list SendPermit) (peer : nat) (c : Channel)
    (n : Z) : result TransportError SendPermit :=
  if closed s then Err TransportError_Shutdown
  else match admission (limits s) L peer c n with
       | Some e => Err e
       | None => if next_ticket s =? u64_max then Err (TransportError_Peer "send ticket overflow")
                 else Ok (mkSendPermit peer c n (next_ticket s))
       end.

Lemma byte_limit_le l c : limits_fit l -> byte_limit l c <= max_inflight_bytes_per_peer l.
Proof. intros (_ & _ & _ & H & _). unfold byte_limit. case_bool_decide; lia. Qed.

Lemma reserve_spec members l s L peer c n :
  ledger_inv members l s L -> limits_fit l -> (peer < members)%nat -> fits l n ->
  reserve peer c n s =
    match reserve_outcome s L peer c n with
    | Err e => (Err (Raise e), s)
    | Ok p => (Ok p, with_ticket (next_ticket s + 1)
                (reserved peer c (weight (at_slot peer c) L + 1) (weight (at_peer peer) L + n) s))
    end.
Proof.
  intros [] Hfit Hp [Hn0 Hn]. unfold reserve_outcome, reserve.
  destruct (entries_nonneg _ _ li_entries0) as (Hnn & Hnb & _).
  specialize (Hnn peer c). specialize (Hnb peer).
  pose proof (li_count_bound0 peer c) as Hcb. pose proof (li_byte_bound0 peer) as Hbb.
  pose proof (li_counts0 peer c Hp) as Hk. pose proof (li_bytes0 peer Hp) as Hb.
  pose proof (byte_limit_le l c Hfit) as Hlim. destruct Hfit as (_ & Hq & _).
  set (k := weight (at_slot peer c) L) in *. set (b := weight (at_peer peer) L) in *.
  unfold admission. rewrite li_limits0. fold k b.
  mrun. destruct (closed s) eqn:Hcl; [done|]. mrun.
  assert (Huk : in_u 64 k /\ in_u 64 (k + 1)) by (zunfold; lia).
  assert (Hub : in_u 64 b /\ in_u 64 (b + n)) by (zunfold; lia).
  rewrite (M_bind_step _ _ _ _ _ (fetch_add_count_eq (slot peer c) 1 k s Hk ltac:(tauto))).
  unfold usize_add. rewrite li_limits0. zdec. mrun.
  set (s1 := with_counts _ s).
  assert (Hk1 : counts s1 !! slot peer c = Some (k + 1))
    by (apply list_lookup_insert_eq; by eapply lookup_lt_Some).
  destruct (max_queued_parcels_per_peer l <? k + 1) eqn:Ec.
  { mrun. rewrite (M_bind_step _ _ _ _ _ (fetch_add_count_eq (slot peer c) (-1) (k + 1) s1 Hk1
             ltac:(replace (k + 1 + -1) with k by lia; tauto))).
    mrun. replace (k + 1 + -1) with k by lia. unfold raise. f_equal. exact (with_counts_undo (slot peer c) k (k + 1) s Hk). }
  mrun. rewrite (M_bind_step _ _ _ _ _ (fetch_add_bytes_eq peer n b s1 Hb ltac:(tauto))).
  zdec. mrun. set (s2 := with_bytes _ s1).
  assert (Hb2 : bytes s2 !! peer = Some (b + n))
    by (apply list_lookup_insert_eq; by eapply lookup_lt_Some).
  change s2 with (reserved peer c (k + 1) (b + n) s) in *. clear s2.
  destruct (byte_limit l c <? b + n) eqn:Eb.
  { rewrite release_raise.
    by rewrite (M_bind_step _ _ _ _ _ (release_undo peer c n k b s Hk Hb ltac:(tauto) ltac:(tauto))). }
  mrun. cbn [reserved next_ticket with_bytes with_counts].
  rewrite (proj2 (Z.eqb_neq (next_ticket s) 0)) by lia. cbn [orb].
  destruct (next_ticket s =? u64_max) eqn:Et; [|done].
  mrun. change (with_bytes _ _) with (reserved peer c (k + 1) (b + n) s).
  rewrite (M_bind_step _ _ _ _ _ (release_undo peer c n k b s Hk Hb ltac:(tauto) ltac:(tauto))).
  done.
Qed.

Lemma lookup_insert_slot (cs : list Z) peer c v p' c' w :
  cs !! slot p' c' = Some w -> (slot peer c < length cs)%nat ->
  <[slot peer c := v]> cs !! slot p' c' = Some (if decide (peer = p' /\ c = c') then v else w).
Proof.
  intros Hw Hlt. case_decide as Hd.
  - destruct Hd as [-> ->]. by apply list_lookup_insert_eq.
  - rewrite list_lookup_insert_ne; [done|]. intros Heq%slot_inj. by destruct Hd.
Qed.

Lemma reserve_inv members l s L peer c n p :
  ledger_inv members l s L -> limits_fit l -> (peer < members)%nat -> fits l n ->
  reserve_outcome s L peer c n = Ok p ->
  ledger_inv members l (with_ticket (next_ticket s + 1)
    (reserved peer c (weight (at_slot peer c) L + 1) (weight (at_peer peer) L + n) s)) (p :: L).
Proof.
  intros [] Hfit Hp [Hn0 Hn] Hout. unfold reserve_outcome in Hout.
  destruct (closed s); [done|]. unfold admission in Hout. rewrite li_limits0 in Hout.
  destruct (max_queued_parcels_per_peer l <? _) eqn:Ec; [done|].
  destruct (byte_limit l c <? _) eqn:Eb; [done|].
  destruct (next_ticket s =? u64_max) eqn:Et; [done|]. injection Hout as <-. zbool.
  destruct (entries_nonneg _ _ li_entries0) as (_ & _ & Hdata).
  pose proof (limits_fit_reserved l Hfit) as Hres. pose proof (byte_limit_le l c Hfit) as Hlim.
  assert (Hlts : (slot peer c < length (counts s))%nat)
    by (rewrite li_counts_len0; by apply slot_lt).
  split; cbn [limits counts bytes next_ticket with_ticket reserved with_bytes with_counts map].
  - done.
  - by rewrite length_insert.
  - by rewrite length_insert.
  - intros p c' Hpm. rewrite (lookup_insert_slot _ _ _ _ _ _ _ (li_counts0 p c' Hpm)) by done.
    rewrite weight_cons. unfold at_slot at 3. cbn. f_equal.
    case_decide as Hd; [destruct Hd as [-> ->]|]; lia.
  - intros p Hpm. rewrite weight_cons. unfold at_peer at 2. cbn.
    destruct (decide (peer = p)) as [->|Hne].
    + rewrite list_lookup_insert_eq by (by rewrite li_bytes_len0). f_equal. lia.
    + rewrite list_lookup_insert_ne, li_bytes0 by done. done.
  - intros p c'. rewrite weight_cons. unfold at_slot at 1. cbn.
    case_decide as Hd; [destruct Hd as [-> ->]; lia|]. pose proof (li_count_bound0 p c'). lia.
  - intros p. rewrite weight_cons. unfold at_peer at 1. cbn.
    pose proof (li_byte_bound0 p). case_decide as Hd; [subst p|]; lia.
  - intros p. rewrite weight_cons. unfold data_at_peer at 1. cbn.
    pose proof (li_data_bound0 p). specialize (Hdata p).
    case_decide as Hd; [destruct Hd as [-> Hc]|lia].
    unfold byte_limit in Eb. rewrite bool_decide_eq_false_2 in Eb by done. lia.
  - constructor; [by cbn|done].
  - constructor; [|done]. intros Hin. apply list_elem_of_fmap in Hin as (q & Heq & Hq).
    rewrite Forall_forall in li_below0. specialize (li_below0 q Hq). cbn in *. lia.
  - constructor; [cbn; lia|]. eapply Forall_impl; [exact li_below0|]. cbn. lia.
  - zunfold. lia.
Qed.

(** Every entry's share of the totals. *)
Lemma weight_remove f p L L' : L ≡ₚ p :: L' -> weight f L' = weight f L - f p.
Proof. intros ->. rewrite weight_cons. lia. Qed.

Lemma release_live members l s L L' p :
  ledger_inv members l s L -> limits_fit l -> L ≡ₚ p :: L' ->
  exists s', release (permit_peer p) (permit_channel p) (permit_bytes p) s = (Ok tt, s') /\
    ledger_inv members l s' L' /\ closed s' = closed s /\ next_ticket s' = next_ticket s.
Proof.
  intros [] (_ & Hq & _ & _ & Hmax) HL. destruct p as [peer c n t].
  cbn [permit_peer permit_channel permit_bytes].
  pose proof (fun f => weight_remove f _ _ _ HL) as Hw.
  rewrite HL in li_entries0, li_tickets0, li_below0.
  apply Forall_cons in li_entries0 as [[Hp Hn] Hent]. cbn in Hp, Hn, li_tickets0.
  apply NoDup_cons in li_tickets0 as [_ Hnd]. apply Forall_cons in li_below0 as [_ Hbel].
  destruct (entries_nonneg _ _ Hent) as (Hnn & Hnb & _).
  assert (Hlts : (slot peer c < length (counts s))%nat)
    by (rewrite li_counts_len0; by apply slot_lt).
  assert (Hs : weight (at_slot peer c) L - 1 = weight (at_slot peer c) L')
    by (rewrite Hw; unfold at_slot at 3; cbn; by rewrite decide_True).
  assert (Hb : weight (at_peer peer) L - n = weight (at_peer peer) L')
    by (rewrite Hw; unfold at_peer at 3; by rewrite decide_True).
  pose proof (li_count_bound0 peer c). pose proof (li_byte_bound0 peer).
  specialize (Hnn peer c) as Hnn1. specialize (Hnb peer) as Hnb1.
  eexists. split_and!.
  { apply (release_eq _ _ _ (weight (at_slot peer c) L) (weight (at_peer peer) L));
      [by apply li_counts0|by apply li_bytes0|rewrite Hb; zunfold; lia|rewrite Hs; zunfold; lia]. }
  2,3: done.
  split; cbn [limits counts bytes next_ticket with_bytes with_counts]; try done.
  - by rewrite length_insert.
  - by rewrite length_insert.
  - intros p c' Hpm. rewrite (lookup_insert_slot _ _ _ _ _ _ _ (li_counts0 p c' Hpm)) by done.
    case_decide as Hd; [destruct Hd as [-> ->]; by rewrite Hs|].
    rewrite Hw. unfold at_slot at 3. rewrite decide_False by done. f_equal. lia.
  - intros p Hpm. destruct (decide (peer = p)) as [->|Hne].
    + rewrite list_lookup_insert_eq by (by rewrite li_bytes_len0). by rewrite Hb.
    + rewrite list_lookup_insert_ne, li_bytes0 by done. rewrite Hw.
      unfold at_peer at 3. rewrite decide_False by done. f_equal. lia.
  - intros p c'. pose proof (li_count_bound0 p c'). rewrite Hw. unfold at_slot at 2.
    case_decide; lia.
  - intros p. pose proof (li_byte_bound0 p). rewrite Hw. unfold at_peer at 2. cbn.
    case_decide; lia.
  - intros p. pose proof (li_data_bound0 p). rewrite Hw. unfold data_at_peer at 2. cbn.
    case_decide; lia.
Qed.

Lemma new_ledger_inv members l : limits_fit l -> ledger_inv members l (SubmissionState_new members l) [].
Proof.
  intros Hfit. pose proof (limits_fit_reserved l Hfit). destruct Hfit as (_ & _ & ? & ? & ?).
  split; cbn; try done; try lia; try constructor.
  - by rewrite length_replicate.
  - by rewrite length_replicate.
  - intros p c Hp. apply lookup_replicate. split; [done|]. by apply slot_lt.
  - intros p Hp. by apply lookup_replicate.
Qed.

(** ** Runs of the transport *)

(** One call on the shared state, with the ledger of live reservations.  A
    permit is committed or dropped by its holder; a committed reservation is
    released once by the driver. *)
Inductive transport_step (members : nat) :
    SubmissionState * list SendPermit -> SubmissionState * list SendPermit -> Prop :=
| step_reserved s L peer c n p s' :
    (peer < members)%nat -> fits (limits s) n -> reserve peer c n s = (Ok p, s') ->
    transport_step members (s, L) (s', p :: L)
| step_refused s L peer c n e s' :
    (peer < members)%nat -> fits (limits s) n -> reserve peer c n s = (Err e, s') ->
    transport_step members (s, L) (s', L)
| step_commit s L p s' :
    p ∈ L -> permit_commit p s = (Ok tt, s') -> transport_step members (s, L) (s', L)
| step_drop s L L' p r s' :
    L ≡ₚ p :: L' -> permit_drop p s = (r, s') -> transport_step members (s, L) (s', L')
| step_release s L L' p r s' :
    L ≡ₚ p :: L' ->
    release (permit_peer p) (permit_channel p) (permit_bytes p) s = (r, s') ->
    transport_step members (s, L) (s', L')
| step_close s L s' : close s = (Ok tt, s') -> transport_step members (s, L) (s', L)
| step_received s L n s' :
    record_received n s = (Ok tt, s') -> transport_step members (s, L) (s', L)
| step_peer_failure s L s' :
    record_peer_failure s = (Ok tt, s') -> transport_step members (s, L) (s', L).

Lemma ledger_inv_same members l s s' L :
  ledger_inv members l s L -> limits s' = limits s -> counts s' = counts s ->
  bytes s' = bytes s -> next_ticket s' = next_ticket s -> ledger_inv members l s' L.
Proof. intros [] Hl Hc Hb Hn. split; rewrite ?Hl, ?Hc, ?Hb, ?Hn; done. Qed.

Lemma transport_step_inv members l s L s' L' :
  transport_step members (s, L) (s', L') -> limits_fit l ->
  ledger_inv members l s L -> ledger_inv members l s' L'.
Proof.
  intros Hstep Hfit Hinv. pose proof (li_limits _ _ _ _ Hinv) as Hl.
  inversion Hstep as [? ? peer c n p ? Hp Hn Hr|? ? peer c n e ? Hp Hn Hr|? ? p ? _ Hr
    |? ? ? p r ? HL Hr|? ? ? p r ? HL Hr|? ? ? Hr|? ? ? ? Hr|? ? ? Hr]; subst;
    try (injection Hr as <-; by eapply ledger_inv_same).
  - rewrite (reserve_spec members _ _ _ _ _ _ Hinv Hfit Hp Hn) in Hr.
    destruct (reserve_outcome s L peer c n) as [q|e] eqn:Ho; [|done]. injection Hr as <- <-.
    by apply (reserve_inv members _ _ _ _ _ _ _ Hinv Hfit Hp Hn Ho).
  - rewrite (reserve_spec members _ _ _ _ _ _ Hinv Hfit Hp Hn) in Hr.
    destruct (reserve_outcome s L' peer c n) as [q|e'] eqn:Ho; [done|]. by injection Hr as _ <-.
  - destruct (release_live _ _ _ _ _ _ Hinv Hfit HL) as (s1 & Hrel & Hi & _).
    unfold permit_drop in Hr. rewrite Hrel in Hr. by injection Hr as _ <-.
  - destruct (release_live _ _ _ _ _ _ Hinv Hfit HL) as (s1 & Hrel & Hi & _).
    rewrite Hrel in Hr. by injection Hr as _ <-.
Qed.

Lemma reachable_inv members l s L :
  limits_fit l -> rtc (transport_step members) (SubmissionState_new members l, []) (s, L) ->
  ledger_inv members l s L.
Proof.
  intros Hfit Hr. remember (SubmissionState_new members l, []) as x eqn:Hx.
  remember (s, L) as y eqn:Hy. assert (Hinv : ledger_inv members l x.1 x.2)
    by (subst; by apply new_ledger_inv).
  clear Hx. revert s L Hy. induction Hr as [x|x [s1 L1] z Hstep _ IH]; intros s L ->; [done|].
  apply IH; [|done]. destruct x as [s0 L0]. by eapply transport_step_inv.
Qed.

(** ** Statistics *)

Lemma sum_Z_replicate n : sum_Z (replicate n 0) = 0.
Proof.
  induction n as [|n IH]; [done|]. change (0 + sum_Z (replicate n 0) = 0). by rewrite IH.
Qed.

(** The counters when nothing is reserved. *)
Lemma empty_ledger members l s :
  ledger_inv members l s [] ->
  counts s = replicate (members * 3) 0 /\ bytes s = replicate members 0.
Proof.
  intros []. split; apply list_eq; intros i.
  - destruct (decide (i < members * 3)%nat) as [Hi|Hi].
    + rewrite lookup_replicate_2 by done.
      assert (exists c, i = slot (i / 3) c) as [c Hc].
      { pose proof (Nat.div_mod_eq i 3) as Hdm. pose proof (Nat.mod_upper_bound i 3 ltac:(lia)) as Hm.
        destruct (i mod 3)%nat as [|[|[|]]] eqn:Em; [exists Channel_Control|exists Channel_Action|
          exists Channel_Bulk|lia]; unfold slot, channel_index, Channel_code; lia. }
      rewrite Hc at 1. rewrite li_counts0; [done|]. apply Nat.Div0.div_lt_upper_bound. lia.
    + rewrite !lookup_ge_None_2; rewrite ?length_replicate; [done|lia|lia].
  - destruct (decide (i < members)%nat) as [Hi|Hi].
    + by rewrite lookup_replicate_2, li_bytes0.
    + rewrite !lookup_ge_None_2; rewrite ?length_replicate; [done|lia|lia].
Qed.

(** admission control is exact.  On any state reached from
    [SubmissionState::new] through reservations, commits, drops, releases and
    a close, [reserve] never panics and answers from what is reserved at that
    moment: [Shutdown] when closed, [QueueFull] when the peer's channel holds
    its maximum, [ByteLimit] when the peer's bytes would exceed the channel's
    share (the whole budget for control, the budget less the control reserve
    otherwise), and a fresh ticket in every other case; a refusal leaves every
    counter as it was. *)
Theorem reserve_admission_exact members l s L peer c n :
  rtc (transport_step members) (SubmissionState_new members l, []) (s, L) ->
  limits_fit l -> (peer < members)%nat -> fits l n ->
  match reserve_outcome s L peer c n with
  | Err e => reserve peer c n s = (Err (Raise e), s)
  | Ok p => (exists s', reserve peer c n s = (Ok p, s')) /\
            (permit_ticket p ∉ map permit_ticket L) /\
            Forall (fun q => permit_ticket q < permit_ticket p) L
  end.
Proof.
  intros Hr Hfit Hp Hn. pose proof (reachable_inv _ _ _ _ Hfit Hr) as Hinv.
  rewrite (reserve_spec members l s L peer c n Hinv Hfit Hp Hn).
  destruct (reserve_outcome s L peer c n) as [p|e] eqn:Ho; [|done].
  assert (permit_ticket p = next_ticket s) as ->.
  { unfold reserve_outcome in Ho. repeat (case_match; try done). by simplify_eq. }
  pose proof (li_below _ _ _ _ Hinv) as Hb. split_and!; [eauto| |].
  - intros (q & Heq & Hq)%list_elem_of_fmap. rewrite Forall_forall in Hb.
    specialize (Hb q Hq). lia.
  - eapply Forall_impl; [exact Hb|]. cbn. lia.
Qed.

(** the accounting is safe on every reachable state: a peer's channel never
    holds more than its maximum of parcels, a peer never more bytes than its
    budget, and traffic outside the control channel never eats into the bytes
    reserved for control; live tickets are distinct; and once everything
    reserved has been released every counter is back at zero. *)
Theorem submission_accounting_safe members l s L :
  rtc (transport_step members) (SubmissionState_new members l, []) (s, L) -> limits_fit l ->
  (forall p c, (p < members)%nat -> exists k, counts s !! slot p c = Some k /\
     k = weight (at_slot p c) L /\ 0 <= k <= max_queued_parcels_per_peer l) /\
  (forall p, (p < members)%nat -> exists b, bytes s !! p = Some b /\
     b = weight (at_peer p) L /\ 0 <= b <= max_inflight_bytes_per_peer l /\
     weight (data_at_peer p) L
       <= max_inflight_bytes_per_peer l - control_reserved_bytes_per_peer l) /\
  NoDup (map permit_ticket L) /\
  (L = [] -> outstanding_count s = 0 /\ forall p b, bytes s !! p = Some b -> b = 0).
Proof.
  intros Hr Hfit. pose proof (reachable_inv _ _ _ _ Hfit Hr) as Hinv. pose proof Hinv as [].
  destruct (entries_nonneg _ _ li_entries0) as (Hnn & Hnb & _). split_and!; [| |done|].
  - intros p c Hp. eexists. split; [by apply li_counts0|]. split; [done|].
    pose proof (Hnn p c). pose proof (li_count_bound0 p c). lia.
  - intros p Hp. eexists. split; [by apply li_bytes0|]. split; [done|].
    pose proof (Hnb p). pose proof (li_byte_bound0 p). pose proof (li_data_bound0 p). lia.
  - intros ->. destruct (empty_ledger _ _ _ Hinv) as [Hc Hb]. unfold outstanding_count.
    rewrite Hc, sum_Z_replicate. split; [done|]. intros p b Hpb. rewrite Hb in Hpb.
    by apply lookup_replicate in Hpb as [-> _].
Qed.

(** ** Witnesses *)

Definition sample_limits : ProtocolLimits := mkProtocolLimits 200 100 4 2 64 16.

Lemma sample_limits_fit : limits_fit sample_limits.
Proof. unfold limits_fit. vm_compute. split; [reflexivity|]. repeat split; congruence. Defined.

Definition sample_state : SubmissionState := (reserve 1 Channel_Action 40 (SubmissionState_new 2 sample_limits)).2.
Definition sample_permit : SendPermit := mkSendPermit 1 Channel_Action 40 1.

Lemma sample_reachable :
  rtc (transport_step 2) (SubmissionState_new 2 sample_limits, []) (sample_state, [sample_permit]).
Proof.
  eapply rtc_l; [|apply rtc_refl].
  apply (step_reserved 2 _ [] 1 Channel_Action 40); [lia| |reflexivity].
  unfold fits. vm_compute. split; congruence.
Defined.

Lemma reserve_admission_exact_witness :
  reserve 1 Channel_Bulk 9 sample_state
    = (Err (Raise (TransportError_ByteLimit 49 48)), sample_state) /\
  exists s', reserve 1 Channel_Control 9 sample_state = (Ok (mkSendPermit 1 Channel_Control 9 2), s').
Proof.
  split.
  - exact (reserve_admission_exact 2 sample_limits sample_state [sample_permit] 1 Channel_Bulk 9
             sample_reachable sample_limits_fit ltac:(lia) ltac:(vm_compute; split; congruence)).
  - exact (proj1 (reserve_admission_exact 2 sample_limits sample_state [sample_permit] 1
             Channel_Control 9 sample_reachable sample_limits_fit ltac:(lia)
             ltac:(vm_compute; split; congruence))).
Defined.

Lemma submission_accounting_safe_witness : NoDup [1].
Proof.
  destruct (submission_accounting_safe 2 sample_limits sample_state [sample_permit]
              sample_reachable sample_limits_fit) as (_ & _ & H & _).
  exact H.
Defined.
