(* ===== verification/Memory.v ===== *)
(** * Memory: the deterministic in-memory transport with fault injection

    Models [crates/hataori-runtime-foundation/src/memory.rs].  All handles and
    drivers share one [State] behind a mutex; each method locks it once (but
    for [flush], which locks it once per iteration), so each is a computation
    in [M State TransportError].  [VecDeque]s are lists, front first; arrays
    indexed by channel are [per_channel] records; arithmetic that would
    overflow or underflow panics. *)
From Stdlib Require Import Strings.Byte.
From S2P Require Import Prelude Protocol Transport.

(** ** Data *)

Record per_channel (A : Type) : Type := mkPerChannel { pc_control : A; pc_action : A; pc_bulk : A }.
Arguments mkPerChannel {A} _ _ _.
Arguments pc_control {A} _.
Arguments pc_action {A} _.
Arguments pc_bulk {A} _.

(** [array[channel as usize]]. *)
Definition pc_get {A} (a : per_channel A) (c : Channel) : A :=
  match c with
  | Channel_Control => pc_control a
  | Channel_Action => pc_action a
  | Channel_Bulk => pc_bulk a
  end.
Definition pc_set {A} (a : per_channel A) (c : Channel) (x : A) : per_channel A :=
  match c with
  | Channel_Control => mkPerChannel x (pc_action a) (pc_bulk a)
  | Channel_Action => mkPerChannel (pc_control a) x (pc_bulk a)
  | Channel_Bulk => mkPerChannel (pc_control a) (pc_action a) x
  end.

Inductive MemoryFault : Type :=
| Fault_Pass
| Fault_Delay (progress_ticks : Z)
| Fault_Duplicate
| Fault_Loss
| Fault_Reorder
| Fault_Saturate
| Fault_Disconnect.

Record Delayed : Type := mkDelayed {
  release_at : Z; d_destination : LocalityId; d_parcel : Parcel; d_bytes : Z;
}.

(** The counters [Node.stats] keeps; the queue sizes are computed by [Node_stats]. *)
Record Node : Type := mkNode {
  active : bool;
  system : list TransportEvent;
  incoming : per_channel (list TransportEvent);
  delayed_counts : per_channel Z;
  queued_bytes : Z;
  stats : TransportStats;
}.

Definition Node_default : Node :=
  mkNode true [] (mkPerChannel [] [] []) (mkPerChannel 0 0 0) 0 TransportStats_default.

Record State : Type := mkState {
  run_id : RunId;
  limits : ProtocolLimits;
  tick : Z;
  next_ticket : Z;
  faults : list MemoryFault;
  delayed : list Delayed;
  nodes : list Node;
}.

Abbreviation SM := (M State TransportError).

(** Field updates. *)
Definition set_system (x : list TransportEvent) (n : Node) : Node :=
  mkNode (active n) x (incoming n) (delayed_counts n) (queued_bytes n) (stats n).
Definition set_incoming (x : per_channel (list TransportEvent)) (n : Node) : Node :=
  mkNode (active n) (system n) x (delayed_counts n) (queued_bytes n) (stats n).
Definition set_delayed_counts (x : per_channel Z) (n : Node) : Node :=
  mkNode (active n) (system n) (incoming n) x (queued_bytes n) (stats n).
Definition set_queued_bytes (x : Z) (n : Node) : Node :=
  mkNode (active n) (system n) (incoming n) (delayed_counts n) x (stats n).
Definition set_stats (x : TransportStats) (n : Node) : Node :=
  mkNode (active n) (system n) (incoming n) (delayed_counts n) (queued_bytes n) x.
Definition set_active (x : bool) (n : Node) : Node :=
  mkNode x (system n) (incoming n) (delayed_counts n) (queued_bytes n) (stats n).

Definition set_tick (x : Z) (s : State) : State :=
  mkState (run_id s) (limits s) x (next_ticket s) (faults s) (delayed s) (nodes s).
Definition set_next_ticket (x : Z) (s : State) : State :=
  mkState (run_id s) (limits s) (tick s) x (faults s) (delayed s) (nodes s).
Definition set_faults (x : list MemoryFault) (s : State) : State :=
  mkState (run_id s) (limits s) (tick s) (next_ticket s) x (delayed s) (nodes s).
Definition set_delayed (x : list Delayed) (s : State) : State :=
  mkState (run_id s) (limits s) (tick s) (next_ticket s) (faults s) x (nodes s).
Definition set_nodes (x : list Node) (s : State) : State :=
  mkState (run_id s) (limits s) (tick s) (next_ticket s) (faults s) (delayed s) x.

Definition bump_submitted (n : Z) (st : TransportStats) : TransportStats :=
  mkTransportStats (submitted_parcels st + 1) (submitted_bytes st + n) (received_parcels st)
    (received_bytes st) (queued_control st) (queued_action st) (queued_bulk st)
    (Transport.queued_bytes st) (retained_read_bytes st) (retained_write_bytes st)
    (retained_reassembly_bytes st) (peer_failures st) (pending_events st) (pending_event_bytes st).
Definition bump_received (n : Z) (st : TransportStats) : TransportStats :=
  mkTransportStats (submitted_parcels st) (submitted_bytes st) (received_parcels st + 1)
    (received_bytes st + n) (queued_control st) (queued_action st) (queued_bulk st)
    (Transport.queued_bytes st) (retained_read_bytes st) (retained_write_bytes st)
    (retained_reassembly_bytes st) (peer_failures st) (pending_events st) (pending_event_bytes st).
Definition bump_peer_failures (st : TransportStats) : TransportStats :=
  mkTransportStats (submitted_parcels st) (submitted_bytes st) (received_parcels st)
    (received_bytes st) (queued_control st) (queued_action st) (queued_bulk st)
    (Transport.queued_bytes st) (retained_read_bytes st) (retained_write_bytes st)
    (retained_reassembly_bytes st) (peer_failures st + 1) (pending_events st)
    (pending_event_bytes st).
Definition with_queues (c a b n p : Z) (st : TransportStats) : TransportStats :=
  mkTransportStats (submitted_parcels st) (submitted_bytes st) (received_parcels st)
    (received_bytes st) c a b n (retained_read_bytes st) (retained_write_bytes st)
    (retained_reassembly_bytes st) (peer_failures st) p (pending_event_bytes st).

(** ** Nodes *)

(** [LocalityId] is a [u64], which always converts to a 64-bit [usize]. *)
Definition index (s : State) (l : LocalityId) : result TransportError nat :=
  if (l <=? usize_max) && (l <? len (nodes s)) then Ok (Z.to_nat l)
  else Err (TransportError_InvalidDestination l).

Definition node (l : LocalityId) : SM Node :=
  s ← gets id;
  i ← lift (index s l);
  match nodes s !! i with Some n => mret n | None => panic end.

(** [*self.node_mut(l)? = f(node)]. *)
Definition update_node (l : LocalityId) (f : Node -> Node) : SM unit :=
  s ← gets id;
  i ← lift (index s l);
  match nodes s !! i with
  | Some n => modify (set_nodes (<[i := f n]> (nodes s)))
  | None => panic
  end.

Definition usize_sub (a b : Z) : SM Z := if b <=? a then mret (a - b) else panic.

(** [Node::release]. *)
Definition Node_release (bytes : Z) (n : Node) : SM Node :=
  q ← usize_sub (queued_bytes n) bytes;
  mret (set_stats (with_queues (queued_control (stats n)) (queued_action (stats n))
                     (queued_bulk (stats n)) q (pending_events (stats n)) (stats n))
          (set_queued_bytes q n)).

Definition Node_stats (n : Node) : TransportStats :=
  with_queues
    (len (pc_control (incoming n)) + pc_control (delayed_counts n))
    (len (pc_action (incoming n)) + pc_action (delayed_counts n))
    (len (pc_bulk (incoming n)) + pc_bulk (delayed_counts n))
    (queued_bytes n) (len (system n)) (stats n).

Definition Node_clear (n : Node) : Node :=
  mkNode (active n) [] (mkPerChannel [] [] []) (mkPerChannel 0 0 0) 0
    (with_queues 0 0 0 0 (pending_events (stats n)) (stats n)).

(** ** Admission and queues *)

Definition inflight_limit (s : State) (c : Channel) : Z :=
  if bool_decide (c = Channel_Control) then max_inflight_bytes_per_peer (limits s)
  else max_inflight_bytes_per_peer (limits s) - control_reserved_bytes_per_peer (limits s).

Definition reserve (p : Parcel) (bytes copies : Z) : SM unit :=
  n ← node (destination p);
  s ← gets id;
  let byte_limit_error actual :=
    TransportError_ByteLimit actual (max_inflight_bytes_per_peer (limits s)) in
  if negb (active n) then raise (TransportError_Disconnected (destination p)) else
  count ← lift (ok_or
    (k ← checked_add usize_max (len (pc_get (incoming n) (channel p)))
           (pc_get (delayed_counts n) (channel p));
     checked_add usize_max k copies)
    (TransportError_ByteLimit usize_max (max_queued_parcels_per_peer (limits s))));
  if max_queued_parcels_per_peer (limits s) <? count then
    raise (TransportError_QueueFull (channel p) (max_queued_parcels_per_peer (limits s))) else
  added ← lift (ok_or (checked_mul usize_max bytes copies) (byte_limit_error usize_max));
  total ← lift (ok_or (checked_add usize_max (queued_bytes n) added) (byte_limit_error usize_max));
  if inflight_limit s (channel p) <? total then
    raise (TransportError_ByteLimit total (inflight_limit s (channel p)))
  else mret tt.

Definition push (front : bool) (ev : TransportEvent) (q : list TransportEvent) :
    list TransportEvent := if front then ev :: q else q ++ [ev].

Definition enqueue (p : Parcel) (bytes : Z) (front : bool) : SM unit :=
  update_node (destination p) (fun n =>
    set_incoming (pc_set (incoming n) (channel p)
                    (push front (Incoming p) (pc_get (incoming n) (channel p))))
      (set_queued_bytes (queued_bytes n + bytes) n)).

Definition pop_fault : SM MemoryFault :=
  s ← gets id;
  match faults s with
  | [] => mret Fault_Pass
  | f :: fs => modify (set_faults fs);; mret f
  end.

Definition push_system (ev : TransportEvent) (n : Node) : Node :=
  set_system (system n ++ [ev]) n.

(** The effect of the next fault on an admitted send. *)
Definition apply_fault (local_id : LocalityId) (p : Parcel) (bytes : Z) (fault : MemoryFault) :
    SM unit :=
  s ← gets id;
  match fault with
  | Fault_Saturate =>
      raise (TransportError_QueueFull (channel p) (max_queued_parcels_per_peer (limits s)))
  | Fault_Disconnect =>
      update_node local_id
        (push_system (PeerFailed (destination p) (TransportError_Disconnected (destination p))));;
      update_node local_id (fun n => set_stats (bump_peer_failures (stats n)) n)
  | Fault_Loss => mret tt
  | Fault_Delay ticks =>
      reserve p bytes 1;;
      update_node (destination p) (fun n =>
        set_queued_bytes (queued_bytes n + bytes)
          (set_delayed_counts
             (pc_set (delayed_counts n) (channel p) (pc_get (delayed_counts n) (channel p) + 1)) n));;
      modify (fun s => set_delayed
        (delayed s ++ [mkDelayed (saturating_add u64_max (tick s) (Z.max ticks 1))
                         (destination p) p bytes]) s)
  | Fault_Duplicate =>
      reserve p bytes 2;;
      enqueue p bytes false;;
      enqueue p bytes false
  | Fault_Reorder => reserve p bytes 1;; enqueue p bytes true
  | Fault_Pass => reserve p bytes 1;; enqueue p bytes false
  end.

(** [MemoryHandle::try_send]; [lift_p] is [?] through [From<ProtocolError>]. *)
Definition lift_p {A} (r : PResult A) : SM A := lift (map_err TransportError_Protocol r).

Definition try_send (local_id : LocalityId) (p : Parcel) : SM SendTicket :=
  self ← node local_id;
  s ← gets id;
  if negb (active self) then raise TransportError_Shutdown else
  if negb (Protocol.run_id p =? run_id s) then
    raise (TransportError_Protocol ProtocolError_RunMismatch) else
  if negb (source p =? local_id) then
    raise (TransportError_Peer "parcel source does not match handle") else
  lift_p (Parcel_validate p (limits s));;
  node (destination p);;
  self ← node local_id;
  if max_queued_parcels_per_peer (limits s) <=? len (system self) then
    raise (TransportError_QueueFull Channel_Control (max_queued_parcels_per_peer (limits s))) else
  bytes ← lift_p (Parcel_payload_len p);
  let ticket := next_ticket s in
  next ← lift (ok_or (checked_add u64_max ticket 1) (TransportError_Peer "send ticket overflow"));
  modify (set_next_ticket next);;
  fault ← pop_fault;
  apply_fault local_id p bytes fault;;
  update_node local_id (fun n =>
    push_system (LocalSendComplete ticket) (set_stats (bump_submitted bytes (stats n)) n));;
  mret ticket.

(** ** Progress *)

Definition dec_delayed (c : Channel) (n : Node) : SM Node :=
  k ← usize_sub (pc_get (delayed_counts n) c) 1;
  mret (set_delayed_counts (pc_set (delayed_counts n) c k) n).

(** [*self.node_mut(l)? = f(node)] for an update that can panic. *)
Definition update_node_m (l : LocalityId) (f : Node -> SM Node) : SM unit :=
  n ← node l;
  n ← f n;
  update_node l (fun _ => n).

(** The loops of [release_delayed] and [cancel_locality]: pop every delayed
    parcel, keeping in [retained] those that stay. *)
Fixpoint release_loop (items retained : list Delayed) : SM (list Delayed) :=
  match items with
  | [] => mret retained
  | item :: items' =>
      modify (set_delayed items');;
      t ← gets tick;
      if release_at item <=? t then
        let c := channel (d_parcel item) in
        update_node_m (d_destination item) (dec_delayed c);;
        update_node (d_destination item) (fun n =>
          set_incoming (pc_set (incoming n) c
                          (pc_get (incoming n) c ++ [Incoming (d_parcel item)])) n);;
        release_loop items' retained
      else release_loop items' (retained ++ [item])
  end.

Definition release_delayed : SM unit :=
  items ← gets delayed;
  retained ← release_loop items [];
  modify (set_delayed retained).

Definition cancel_delayed (item : Delayed) (n : Node) : SM Node :=
  n ← dec_delayed (channel (d_parcel item)) n;
  q ← usize_sub (queued_bytes n) (d_bytes item);
  mret (set_queued_bytes q n).

Fixpoint cancel_loop (locality : LocalityId) (items retained : list Delayed) : SM (list Delayed) :=
  match items with
  | [] => mret retained
  | item :: items' =>
      modify (set_delayed items');;
      if (source (d_parcel item) =? locality) || (d_destination item =? locality) then
        mwhen (negb (d_destination item =? locality))
          (update_node_m (d_destination item) (cancel_delayed item));;
        cancel_loop locality items' retained
      else cancel_loop locality items' (retained ++ [item])
  end.

Definition cancel_locality (locality : LocalityId) : SM unit :=
  items ← gets delayed;
  retained ← cancel_loop locality items [];
  modify (set_delayed retained).

(** The next event of a node: system events, then the channels by priority. *)
Definition pop_event (n : Node) : option (TransportEvent * Node) :=
  match system n with
  | ev :: q => Some (ev, set_system q n)
  | [] =>
      let inc := incoming n in
      match pc_control inc with
      | ev :: q => Some (ev, set_incoming (pc_set inc Channel_Control q) n)
      | [] =>
          match pc_action inc with
          | ev :: q => Some (ev, set_incoming (pc_set inc Channel_Action q) n)
          | [] =>
              match pc_bulk inc with
              | ev :: q => Some (ev, set_incoming (pc_set inc Channel_Bulk q) n)
              | [] => None
              end
          end
      end
  end.

(** Accounting for a delivered event. *)
Definition deliver (ev : TransportEvent) (n : Node) : SM Node :=
  match ev with
  | Incoming p =>
      bytes ← lift_p (Parcel_payload_len p);
      n ← Node_release bytes n;
      mret (set_stats (bump_received bytes (stats n)) n)
  | _ => mret n
  end.

(** The loop of [progress]: up to [max_events] events of one node. *)
Fixpoint progress_loop (l : LocalityId) (max_events : nat) (events : list TransportEvent) :
    SM (list TransportEvent) :=
  match max_events with
  | O => mret events
  | S max_events' =>
      n ← node l;
      match pop_event n with
      | None => mret events
      | Some (ev, n') =>
          update_node l (fun _ => n');;
          n ← deliver ev n';
          update_node l (fun _ => n);;
          progress_loop l max_events' (events ++ [ev])
      end
  end.

Record MemoryDriver : Type := mkMemoryDriver { local_id : LocalityId; shutdown_done : bool }.

Definition advance_tick : SM unit := modify (fun s => set_tick (saturating_add u64_max (tick s) 1) s).

(** The events [progress] appends, and its [Progress]. *)
Definition progress (d : MemoryDriver) (max_events : nat) : SM (list TransportEvent * Progress) :=
  if shutdown_done d then raise TransportError_Shutdown else
  advance_tick;;
  release_delayed;;
  node (local_id d);;
  events ← progress_loop (local_id d) max_events [];
  mret (events, mkProgress (len events) (0 <? len events)).

(** One iteration of the loop of [flush]: whether nothing sent here is delayed. *)
Definition flush_step (l : LocalityId) : SM bool :=
  advance_tick;;
  release_delayed;;
  items ← gets delayed;
  mret (negb (existsb (fun item => source (d_parcel item) =? l) items)).

(** [flush] when the clock passes the deadline after [fuel] more iterations. *)
Fixpoint flush (l : LocalityId) (fuel : nat) : SM unit :=
  done ← flush_step l;
  if done : bool then mret tt
  else match fuel with
       | O => raise (TransportError_Timeout "memory flush")
       | S fuel' => flush l fuel'
       end.

(** The events [shutdown] appends, and the driver it leaves when it succeeds. *)
Definition shutdown (d : MemoryDriver) (fuel : nat) : SM (list TransportEvent * MemoryDriver) :=
  update_node (local_id d) (set_active false);;
  flush (local_id d) fuel;;
  cancel_locality (local_id d);;
  node (local_id d);;
  update_node (local_id d) (fun n => Node_clear (set_active false n));;
  mret ([ShutdownComplete], mkMemoryDriver (local_id d) true).

(** ** Construction *)

Definition build (count : nat) (run : RunId) (l : ProtocolLimits) (fs : list MemoryFault) :
    result TransportError (State * list MemoryDriver) :=
  map_err TransportError_Protocol (ProtocolLimits_validate l);;
  fail_if (Nat.eqb count 0) (TransportError_Peer "membership is empty");;
  Ok (mkState run l 0 1 fs [] (replicate count Node_default),
      map (fun i => mkMemoryDriver (Z.of_nat i) false) (seq 0 count)).

(** ** What is in the network *)

Definition event_parcels (ev : TransportEvent) : list Parcel :=
  match ev with Incoming p => [p] | _ => [] end.

Definition queue (n : Node) (c : Channel) : list Parcel := pc_get (incoming n) c ≫= event_parcels.
Definition queues (n : Node) : list Parcel :=
  queue n Channel_Control ++ queue n Channel_Action ++ queue n Channel_Bulk.

(** Delayed parcels on their way to locality [i]. *)
Definition delayed_to (D : list Delayed) (i : nat) : list Parcel :=
  omap (fun d => if d_destination d =? Z.of_nat i then Some (d_parcel d) else None) D.

(** The parcels on their way to locality [i]. *)
Definition in_net (D : list Delayed) (n : Node) (i : nat) : list Parcel :=
  queues n ++ delayed_to D i.

Definition plen (p : Parcel) : Z :=
  match Parcel_payload_len p with Ok n => n | Err _ => 0 end.
Definition total_bytes (ps : list Parcel) : Z := foldr (fun p acc => plen p + acc) 0 ps.
Definition on_channel (c : Channel) (ps : list Parcel) : Z :=
  len (filter (fun p => channel p = c) ps).
Definition data_bytes (ps : list Parcel) : Z :=
  total_bytes (filter (fun p => channel p <> Channel_Control) ps).

(** Every parcel in the network has passed [Parcel::validate]. *)
Definition sized (p : Parcel) : Prop := exists n, Parcel_payload_len p = Ok n.

(** The accounting of one locality. *)
Record node_ok (l : ProtocolLimits) (D : list Delayed) (i : nat) (n : Node) : Prop := {
  no_queue : forall c, Forall (fun ev => exists p, ev = Incoming p /\ channel p = c)
                              (pc_get (incoming n) c);
  no_system : Forall (fun ev => event_parcels ev = []) (system n);
  no_sized : Forall sized (in_net D n i);
  no_delayed : forall c, pc_get (delayed_counts n) c = on_channel c (delayed_to D i);
  no_bytes : queued_bytes n = total_bytes (in_net D n i);
  no_count_bound : forall c, on_channel c (in_net D n i) <= max_queued_parcels_per_peer l;
  no_byte_bound : queued_bytes n <= max_inflight_bytes_per_peer l;
  no_data_bound : data_bytes (in_net D n i)
                  <= max_inflight_bytes_per_peer l - control_reserved_bytes_per_peer l;
}.

(** [D] stands for [delayed s], which the loops take apart. *)
Record mem_inv (D : list Delayed) (s : State) : Prop := {
  mi_nodes : forall i n, nodes s !! i = Some n -> node_ok (limits s) D i n;
  mi_delayed : Forall (fun d => 0 <= d_destination d < len (nodes s) /\
                                d_bytes d = plen (d_parcel d)) D;
  mi_count : len (nodes s) <= usize_max;
  mi_reserved : 0 <= control_reserved_bytes_per_peer (limits s);
}.

(** *** Sums over parcels *)

Lemma total_bytes_cons p a : total_bytes (p :: a) = plen p + total_bytes a.
Proof. done. Qed.

Lemma total_bytes_app a b : total_bytes (a ++ b) = total_bytes a + total_bytes b.
Proof.
  induction a as [|p a IH]; [done|]. rewrite <- app_comm_cons, !total_bytes_cons. lia.
Qed.

Lemma on_channel_app c a b : on_channel c (a ++ b) = on_channel c a + on_channel c b.
Proof. unfold on_channel. by rewrite filter_app, len_app. Qed.

Lemma data_bytes_app a b : data_bytes (a ++ b) = data_bytes a + data_bytes b.
Proof. unfold data_bytes. by rewrite filter_app, total_bytes_app. Qed.

#[export] Instance total_bytes_proper : Proper ((≡ₚ) ==> eq) total_bytes.
Proof. intros a b H. induction H; rewrite ?total_bytes_cons; lia. Qed.
#[export] Instance on_channel_proper c : Proper ((≡ₚ) ==> eq) (on_channel c).
Proof. intros a b H. unfold on_channel, len. by rewrite H. Qed.
#[export] Instance data_bytes_proper : Proper ((≡ₚ) ==> eq) data_bytes.
Proof. intros a b H. unfold data_bytes. by rewrite H. Qed.

Lemma plen_nonneg p : 0 <= plen p.
Proof.
  unfold plen, Parcel_payload_len.
  assert (H : forall segs t, 0 <= t -> match sum_lengths t segs with Ok n => 0 <= n | Err _ => True end).
  { induction segs as [|seg segs IH]; intros t Ht; [done|]. cbn.
    unfold checked_add. pose proof (len_nonneg seg). destruct (_ <=? _); [|done]. cbn. apply IH. lia. }
  specialize (H (segments p) 0 ltac:(lia)). by destruct (sum_lengths 0 (segments p)).
Qed.

Lemma total_bytes_nonneg ps : 0 <= total_bytes ps.
Proof.
  induction ps as [|p ps IH]; [done|]. rewrite total_bytes_cons. pose proof (plen_nonneg p). lia.
Qed.

Lemma on_channel_nonneg c ps : 0 <= on_channel c ps.
Proof. apply len_nonneg. Qed.

Lemma data_bytes_le ps : data_bytes ps <= total_bytes ps.
Proof.
  unfold data_bytes. induction ps as [|p ps IH]; [done|]. rewrite filter_cons.
  pose proof (plen_nonneg p). case_decide; rewrite ?total_bytes_cons; lia.
Qed.

Lemma on_channel_one c p : on_channel c [p] = if decide (channel p = c) then 1 else 0.
Proof. unfold on_channel. rewrite filter_cons. by case_decide. Qed.

Lemma total_bytes_one p : total_bytes [p] = plen p.
Proof. rewrite total_bytes_cons. cbn. lia. Qed.

Lemma data_bytes_one p :
  data_bytes [p] = if decide (channel p <> Channel_Control) then plen p else 0.
Proof. unfold data_bytes. rewrite filter_cons. case_decide; rewrite ?total_bytes_one; done. Qed.

(** *** Queues *)

Lemma pc_get_set_eq {A} (a : per_channel A) c x : pc_get (pc_set a c x) c = x.
Proof. by destruct c. Qed.
Lemma pc_get_set_ne {A} (a : per_channel A) c c' x :
  c <> c' -> pc_get (pc_set a c x) c' = pc_get a c'.
Proof. by destruct c, c'. Qed.

Lemma pc_get_set {A} (a : per_channel A) c c' x :
  pc_get (pc_set a c x) c' = if decide (c = c') then x else pc_get a c'.
Proof. case_decide; subst; [apply pc_get_set_eq | by apply pc_get_set_ne]. Qed.

(** Replacing one queue. *)
Lemma queues_set n c q :
  queues (set_incoming (pc_set (incoming n) c q) n) ++ queue n c
  ≡ₚ (q ≫= event_parcels) ++ queues n.
Proof. destruct c; unfold queues, queue; cbn; solve_Permutation. Qed.

Lemma queues_add n c front p :
  queues (set_incoming (pc_set (incoming n) c (push front (Incoming p) (pc_get (incoming n) c))) n)
  ≡ₚ p :: queues n.
Proof.
  apply (Permutation_app_inv_r (queue n c)). rewrite queues_set.
  assert (Hq : (push front (Incoming p) (pc_get (incoming n) c)) ≫= event_parcels
               ≡ₚ p :: queue n c).
  { destruct front; cbn [push]; [done|]. rewrite bind_app. unfold queue. cbn.
    symmetry. apply Permutation_cons_append. }
  rewrite Hq. cbn. solve_Permutation.
Qed.

Lemma queue_channel l D i n c :
  node_ok l D i n -> Forall (fun p => channel p = c) (queue n c) /\
  len (pc_get (incoming n) c) = len (queue n c).
Proof.
  intros H. pose proof (no_queue _ _ _ _ H c) as Hq. unfold queue.
  induction Hq as [|ev q (p & -> & Hp) _ [IH1 IH2]]; [done|]. cbn.
  rewrite !len_cons. split; [by constructor|]. by rewrite IH2.
Qed.

Lemma filter_all {A} (P : A -> Prop) `{!forall x, Decision (P x)} (l : list A) :
  Forall P l -> filter P l = l.
Proof. induction 1; [done|]. rewrite filter_cons, decide_True by done. congruence. Qed.
Lemma filter_none {A} (P : A -> Prop) `{!forall x, Decision (P x)} (l : list A) :
  Forall (fun x => ~ P x) l -> filter P l = [].
Proof. induction 1; [done|]. rewrite filter_cons, decide_False by done. done. Qed.

Lemma on_channel_queue l D i n c c' :
  node_ok l D i n -> on_channel c (queue n c') = if decide (c' = c) then len (queue n c) else 0.
Proof.
  intros H. destruct (queue_channel _ _ _ _ c' H) as [Hq _]. unfold on_channel.
  case_decide as Hd.
  - subst. by rewrite filter_all.
  - rewrite filter_none; [done|]. eapply Forall_impl; [exact Hq|]. cbn. congruence.
Qed.

(** What [reserve] counts is what is in the network. *)
Lemma on_channel_in_net l D i n c :
  node_ok l D i n ->
  len (pc_get (incoming n) c) + pc_get (delayed_counts n) c = on_channel c (in_net D n i).
Proof.
  intros H. rewrite (no_delayed _ _ _ _ H). destruct (queue_channel _ _ _ _ c H) as [_ ->].
  unfold in_net, queues. rewrite !on_channel_app, !(on_channel_queue _ _ _ _ c _ H).
  destruct c; repeat case_decide; try done; lia.
Qed.

(** *** Frames of the invariant *)

Definition net (D : list Delayed) (s : State) (i : nat) : list Parcel :=
  match nodes s !! i with Some n => in_net D n i | None => [] end.

Definition at_dest (p : Parcel) : nat := Z.to_nat (destination p).

Lemma mem_inv_ext D s s' :
  mem_inv D s -> nodes s' = nodes s -> limits s' = limits s -> mem_inv D s'.
Proof. intros [] Hn Hl. split; rewrite ?Hn, ?Hl; done. Qed.

Lemma net_ext D s s' i : nodes s' = nodes s -> net D s' i = net D s i.
Proof. unfold net. by intros ->. Qed.

(** Two nodes with the same queues and counters. *)
Definition same_queues (n n' : Node) : Prop :=
  incoming n' = incoming n /\ delayed_counts n' = delayed_counts n /\
  queued_bytes n' = queued_bytes n.

Lemma in_net_same D n n' i : same_queues n n' -> in_net D n' i = in_net D n i.
Proof. intros (Hi & _ & _). unfold in_net, queues, queue. by rewrite Hi. Qed.

Lemma node_ok_same l D i n n' :
  node_ok l D i n -> same_queues n n' -> Forall (fun ev => event_parcels ev = []) (system n') ->
  node_ok l D i n'.
Proof.
  intros [] Hs Hsys. pose proof (in_net_same D n n' i Hs) as Hin. destruct Hs as (Hi & Hd & Hb).
  split; rewrite ?Hin, ?Hi, ?Hd, ?Hb; done.
Qed.

Lemma node_ok_delayed l D D' i n :
  node_ok l D i n -> delayed_to D' i ≡ₚ delayed_to D i -> node_ok l D' i n.
Proof.
  intros [] Hd. assert (Hin : in_net D' n i ≡ₚ in_net D n i) by (unfold in_net; by rewrite Hd).
  split; try setoid_rewrite Hin; try setoid_rewrite Hd; done.
Qed.

Lemma mem_inv_update D D' s i n n' :
  mem_inv D s -> nodes s !! i = Some n -> node_ok (limits s) D' i n' ->
  (forall j, j <> i -> delayed_to D' j ≡ₚ delayed_to D j) ->
  Forall (fun d => 0 <= d_destination d < len (nodes s) /\ d_bytes d = plen (d_parcel d)) D' ->
  mem_inv D' (set_nodes (<[i := n']> (nodes s)) s).
Proof.
  intros [] Hn Hok Hother HD. pose proof (lookup_lt_Some _ _ _ Hn) as Hlt. split; cbn.
  - intros j m Hj. destruct (decide (i = j)) as [<-|Hne].
    + rewrite list_lookup_insert_eq in Hj by done. by injection Hj as <-.
    + rewrite list_lookup_insert_ne in Hj by done. eapply node_ok_delayed; eauto.
  - unfold len in *. by rewrite length_insert.
  - unfold len in *. by rewrite length_insert.
  - done.
Qed.

Lemma net_update D s i n' j :
  (i < length (nodes s))%nat ->
  net D (set_nodes (<[i := n']> (nodes s)) s) j = if decide (i = j) then in_net D n' j else net D s j.
Proof.
  intros Hi. unfold net. cbn. case_decide as Hd.
  - subst. by rewrite list_lookup_insert_eq.
  - by rewrite list_lookup_insert_ne.
Qed.

(** *** Nodes *)

Lemma node_in l s n :
  nodes s !! Z.to_nat l = Some n -> 0 <= l -> len (nodes s) <= usize_max ->
  index s l = Ok (Z.to_nat l).
Proof.
  intros Hn Hl Hlen. apply lookup_lt_Some in Hn. unfold index, len in *. by zdec.
Qed.

Lemma node_eq l s n :
  nodes s !! Z.to_nat l = Some n -> 0 <= l -> len (nodes s) <= usize_max ->
  node l s = (Ok n, s).
Proof. intros Hn Hl Hlen. unfold node. mrun. rewrite (node_in l s n) by done. by rewrite Hn. Qed.

Lemma update_node_eq l f s n :
  nodes s !! Z.to_nat l = Some n -> 0 <= l -> len (nodes s) <= usize_max ->
  update_node l f s = (Ok tt, set_nodes (<[Z.to_nat l := f n]> (nodes s)) s).
Proof.
  intros Hn Hl Hlen. unfold update_node. mrun. rewrite (node_in l s n) by done. by rewrite Hn.
Qed.

Lemma wp_node l Q R s :
  0 <= l -> (forall n, nodes s !! Z.to_nat l = Some n -> Q n s) -> (forall e, R e s) ->
  wp (node l) Q R s.
Proof.
  intros Hl HQ HR. unfold node, index. wp_steps. unfold id.
  destruct ((l <=? usize_max) && (l <? len (nodes s))) eqn:E; [|apply HR]. zbool.
  destruct (lookup_lt_is_Some_2 (nodes s) (Z.to_nat l)) as [n Hn]; [unfold len in *; lia|].
  rewrite Hn. by apply HQ.
Qed.

Lemma wp_update_node l f Q R s n :
  nodes s !! Z.to_nat l = Some n -> 0 <= l -> len (nodes s) <= usize_max ->
  Q tt (set_nodes (<[Z.to_nat l := f n]> (nodes s)) s) -> wp (update_node l f) Q R s.
Proof. intros Hn Hl Hlen HQ. unfold wp. by rewrite (update_node_eq l f s n). Qed.

Lemma wp_node_in l Q R s n :
  nodes s !! Z.to_nat l = Some n -> 0 <= l -> len (nodes s) <= usize_max ->
  Q n s -> wp (node l) Q R s.
Proof. intros Hn Hl Hlen HQ. unfold wp. by rewrite (node_eq l s n). Qed.

(** Changing what is not accounted for: system events, statistics, [active]. *)
Lemma mem_inv_same D s i n n' :
  mem_inv D s -> nodes s !! i = Some n -> same_queues n n' ->
  Forall (fun ev => event_parcels ev = []) (system n') ->
  mem_inv D (set_nodes (<[i := n']> (nodes s)) s) /\
  forall j, net D (set_nodes (<[i := n']> (nodes s)) s) j = net D s j.
Proof.
  intros Hinv Hn Hs Hsys. pose proof (lookup_lt_Some _ _ _ Hn) as Hlt. split.
  - eapply mem_inv_update; eauto.
    + eapply node_ok_same; [|done|done]. by apply (mi_nodes _ _ Hinv).
    + apply (mi_delayed _ _ Hinv).
  - intros j. rewrite net_update by done. case_decide as Hd; [|done]. subst j.
    unfold net. rewrite Hn. by apply in_net_same.
Qed.

(** *** Admission *)

(** Room for [k] copies of [p] at its destination. *)
Definition room (s : State) (p : Parcel) (k : Z) : Prop :=
  exists n, nodes s !! at_dest p = Some n /\
    on_channel (channel p) (in_net (delayed s) n (at_dest p)) + k
      <= max_queued_parcels_per_peer (limits s) /\
    queued_bytes n + k * plen p <= inflight_limit s (channel p).

Lemma wp_reserve p k Q R s :
  mem_inv (delayed s) s -> 0 <= destination p -> 0 <= k -> sized p ->
  (room s p k -> Q tt s) -> (forall e, R e s) -> wp (reserve p (plen p) k) Q R s.
Proof.
  intros Hinv Hd Hk Hsz HQ HR. unfold reserve. apply wp_bind, wp_node; [done| |done].
  intros n Hn. wp_steps; try apply HR.
  pose proof (mi_nodes _ _ Hinv _ _ Hn) as Hok.
  pose proof (on_channel_in_net _ _ _ _ (channel p) Hok) as Hc.
  destruct (checked_add usize_max (len _) _) as [x|] eqn:E1; [|apply HR]. rcbn.
  destruct (checked_add usize_max x k) as [y|] eqn:E2; [|apply HR]. rcbn.
  wp_steps; try apply HR. destruct (checked_mul _ _ _) as [z|] eqn:E3; [|apply HR]. rcbn.
  wp_steps. destruct (checked_add _ _ z) as [t|] eqn:E4; [|apply HR]. rcbn.
  wp_steps; [apply HR|]. apply HQ. zbool. unfold id in *. exists n. split; [done|].
  apply checked_add_some in E1 as [-> _], E2 as [-> _], E4 as [-> _].
  apply checked_mul_some in E3 as [-> _]. unfold at_dest. rewrite <- Hc. lia.
Qed.

(** *** Parcels entering the network *)

Lemma node_ok_grow s D D' i n n' p :
  node_ok (limits s) D i n -> 0 <= control_reserved_bytes_per_peer (limits s) ->
  system n' = system n ->
  (forall c, Forall (fun ev => exists q, ev = Incoming q /\ channel q = c) (pc_get (incoming n') c)) ->
  (forall c, pc_get (delayed_counts n') c = on_channel c (delayed_to D' i)) ->
  in_net D' n' i ≡ₚ p :: in_net D n i -> sized p ->
  queued_bytes n' = queued_bytes n + plen p ->
  on_channel (channel p) (in_net D n i) + 1 <= max_queued_parcels_per_peer (limits s) ->
  queued_bytes n + plen p <= inflight_limit s (channel p) ->
  node_ok (limits s) D' i n'.
Proof.
  intros [] Hres Hsys Hq Hd Hin Hsz Hb Hc Hl. unfold inflight_limit in Hl.
  pose proof (data_bytes_le (in_net D n i)) as Hdl.
  change (p :: in_net D n i) with ([p] ++ in_net D n i) in Hin.
  split; try done; try setoid_rewrite Hin.
  - by rewrite Hsys.
  - by constructor.
  - rewrite Hb, no_bytes0, total_bytes_app, total_bytes_one. lia.
  - intros c. rewrite on_channel_app, on_channel_one. pose proof (no_count_bound0 c).
    destruct (decide (channel p = c)); subst; lia.
  - rewrite Hb. case_bool_decide; lia.
  - rewrite data_bytes_app, data_bytes_one.
    destruct (decide (channel p <> Channel_Control)) as [Hch|]; [|lia].
    rewrite bool_decide_eq_false_2 in Hl by done. lia.
Qed.

Lemma queue_wf_push n c front p :
  (forall c', Forall (fun ev => exists q, ev = Incoming q /\ channel q = c') (pc_get (incoming n) c')) ->
  channel p = c -> forall c', Forall (fun ev => exists q, ev = Incoming q /\ channel q = c')
    (pc_get (pc_set (incoming n) c (push front (Incoming p) (pc_get (incoming n) c))) c').
Proof.
  intros Hq Hp c'. rewrite pc_get_set. case_decide as Hd; [subst c'|done].
  destruct front; cbn [push]; [|apply Forall_app; split; [done|]];
    repeat (constructor; eauto).
Qed.

(** What is left unchanged of the state outside the nodes and the clock. *)
Definition same_frame (s s' : State) : Prop :=
  limits s' = limits s /\ run_id s' = run_id s /\ length (nodes s') = length (nodes s).

(** [k] copies of [p] have entered. *)
Definition entered (s : State) (p : Parcel) (k : nat) (s' : State) : Prop :=
  mem_inv (delayed s') s' /\ same_frame s s' /\
  forall i, net (delayed s') s' i ≡ₚ
    (if decide (i = at_dest p) then replicate k p else []) ++ net (delayed s) s i.

Lemma entered_0 s p s' :
  mem_inv (delayed s') s' -> same_frame s s' ->
  (forall i, net (delayed s') s' i = net (delayed s) s i) -> entered s p 0 s'.
Proof.
  intros Hi Hf Hn. split_and!; [done|done|]. intros i. rewrite Hn. by case_decide.
Qed.

Lemma entered_trans s1 s2 s3 p k m :
  entered s1 p k s2 -> entered s2 p m s3 -> entered s1 p (m + k) s3.
Proof.
  intros (_ & (Hl1 & Hr1 & Hn1) & H1) (Hi & (Hl2 & Hr2 & Hn2) & H2).
  split_and!; [done| |].
  - unfold same_frame. rewrite Hl2, Hr2, Hn2. done.
  - intros i. rewrite H2, H1. case_decide; [|done].
    by rewrite replicate_add, <- app_assoc.
Qed.

Lemma enqueue_eq s p front n :
  nodes s !! at_dest p = Some n -> 0 <= destination p -> len (nodes s) <= usize_max ->
  exists n', system n' = system n /\ incoming n' = pc_set (incoming n) (channel p)
               (push front (Incoming p) (pc_get (incoming n) (channel p))) /\
    delayed_counts n' = delayed_counts n /\ queued_bytes n' = queued_bytes n + plen p /\
    enqueue p (plen p) front s = (Ok tt, set_nodes (<[at_dest p := n']> (nodes s)) s).
Proof.
  intros Hn Hd Hc. eexists. split_and!; [| | | |unfold enqueue; by apply update_node_eq]; done.
Qed.

Lemma enqueue_enters s p front k :
  mem_inv (delayed s) s -> 0 <= destination p -> sized p -> 1 <= k -> room s p k ->
  exists s', enqueue p (plen p) front s = (Ok tt, s') /\ entered s p 1 s' /\ room s' p (k - 1) /\
    delayed s' = delayed s.
Proof.
  intros Hinv Hd Hsz Hk (n & Hn & Hc & Hb). pose proof (plen_nonneg p).
  destruct (enqueue_eq s p front n Hn Hd (mi_count _ _ Hinv)) as (n' & Hsys & Hi & Hdc & Hqb & ->).
  eexists. split; [done|]. pose proof (mi_nodes _ _ Hinv _ _ Hn) as Hok.
  pose proof (lookup_lt_Some _ _ _ Hn) as Hlt.
  assert (Hin : in_net (delayed s) n' (at_dest p) ≡ₚ p :: in_net (delayed s) n (at_dest p)).
  { unfold in_net. assert (queues n' ≡ₚ p :: queues n) as ->; [|done].
    rewrite <- (queues_add n (channel p) front p). unfold queues, queue. by rewrite Hi. }
  assert (Hok' : node_ok (limits s) (delayed s) (at_dest p) n').
  { eapply node_ok_grow; eauto.
    - apply (mi_reserved _ _ Hinv).
    - rewrite Hi. apply queue_wf_push; [|done]. apply (no_queue _ _ _ _ Hok).
    - rewrite Hdc. apply (no_delayed _ _ _ _ Hok).
    - lia.
    - nia. }
  split_and!; [split_and!| |done]; cbn.
  - eapply mem_inv_update; eauto. apply (mi_delayed _ _ Hinv).
  - unfold same_frame. cbn. by rewrite length_insert.
  - intros i. rewrite net_update by done. unfold net at 2.
    destruct (decide (i = at_dest p)) as [->|Hne].
    + rewrite decide_True by done. rewrite Hin, Hn. done.
    + by rewrite decide_False by done.
  - exists n'. cbn. rewrite list_lookup_insert_eq by done. split_and!; [done| |].
    + rewrite Hin. change (p :: in_net (delayed s) n (at_dest p)) with ([p] ++ in_net (delayed s) n (at_dest p)).
      rewrite on_channel_app, on_channel_one, decide_True by done. lia.
    + rewrite Hqb. unfold inflight_limit in *. cbn in *. lia.
Qed.

Lemma delayed_to_app D D' i : delayed_to (D ++ D') i = delayed_to D i ++ delayed_to D' i.
Proof. unfold delayed_to. apply omap_app. Qed.

Lemma delayed_to_cons d D i :
  delayed_to (d :: D) i =
    (if decide (d_destination d = Z.of_nat i) then [d_parcel d] else []) ++ delayed_to D i.
Proof.
  unfold delayed_to. cbn. case_decide as Hd.
  - by rewrite (proj2 (Z.eqb_eq _ _) Hd).
  - by rewrite (proj2 (Z.eqb_neq _ _) Hd).
Qed.

(** Parcels leaving a node. *)
Lemma node_ok_shrink l D D' i n n' ps :
  node_ok l D i n -> Forall (fun ev => event_parcels ev = []) (system n') ->
  (forall c, Forall (fun ev => exists q, ev = Incoming q /\ channel q = c) (pc_get (incoming n') c)) ->
  (forall c, pc_get (delayed_counts n') c = on_channel c (delayed_to D' i)) ->
  in_net D n i ≡ₚ ps ++ in_net D' n' i ->
  queued_bytes n' = queued_bytes n - total_bytes ps ->
  node_ok l D' i n'.
Proof.
  intros [] Hsys Hq Hd Hin Hb. pose proof (total_bytes_nonneg ps).
  assert (Hdata : 0 <= data_bytes ps) by (unfold data_bytes; apply total_bytes_nonneg).
  rewrite Hin in no_sized0, no_bytes0, no_data_bound0.
  rewrite total_bytes_app in no_bytes0. rewrite data_bytes_app in no_data_bound0.
  split; try done; [|lia| |lia|lia].
  - by apply Forall_app in no_sized0 as [_ ?].
  - intros c. pose proof (no_count_bound0 c) as Hc. rewrite Hin, on_channel_app in Hc.
    pose proof (on_channel_nonneg c ps). lia.
Qed.

(** Delaying a parcel at its destination. *)
Lemma delay_enters s p at_tick n n' :
  mem_inv (delayed s) s -> 0 <= destination p -> sized p -> room s p 1 ->
  nodes s !! at_dest p = Some n -> system n' = system n ->
  incoming n' = incoming n ->
  delayed_counts n' = pc_set (delayed_counts n) (channel p) (pc_get (delayed_counts n) (channel p) + 1) ->
  queued_bytes n' = queued_bytes n + plen p ->
  entered s p 1 (set_delayed (delayed s ++ [mkDelayed at_tick (destination p) p (plen p)])
                   (set_nodes (<[at_dest p := n']> (nodes s)) s)).
Proof.
  intros Hinv Hd Hsz (n0 & Hn & Hc & Hb) Hn0 Hsys Hi Hdc Hqb. assert (n0 = n) as -> by congruence.
  pose proof (mi_nodes _ _ Hinv _ _ Hn) as Hok. pose proof (lookup_lt_Some _ _ _ Hn) as Hlt.
  set (item := mkDelayed _ _ _ _).
  assert (Hto : forall i, delayed_to (delayed s ++ [item]) i =
    delayed_to (delayed s) i ++ (if decide (i = at_dest p) then [p] else [])).
  { intros i. rewrite delayed_to_app, delayed_to_cons, app_nil_r. cbn. f_equal.
    unfold at_dest. repeat case_decide; try done; lia. }
  assert (Hin : in_net (delayed s ++ [item]) n' (at_dest p)
                ≡ₚ p :: in_net (delayed s) n (at_dest p)).
  { unfold in_net, queues, queue. rewrite Hi, Hto, decide_True by done. solve_Permutation. }
  assert (Hok' : node_ok (limits s) (delayed s ++ [item]) (at_dest p) n').
  { eapply node_ok_grow; eauto.
    - apply (mi_reserved _ _ Hinv).
    - rewrite Hi. apply (no_queue _ _ _ _ Hok).
    - intros c. rewrite Hdc, Hto, decide_True, on_channel_app, on_channel_one, pc_get_set by done.
      rewrite !(no_delayed _ _ _ _ Hok). destruct (decide (channel p = c)); subst; lia.
    - lia. }
  split_and!; cbn.
  - apply mem_inv_ext with (set_nodes (<[at_dest p := n']> (nodes s)) s); [|done|done].
    eapply mem_inv_update; eauto.
    + intros j Hj. by rewrite Hto, decide_False, app_nil_r.
    + apply Forall_app. split; [apply (mi_delayed _ _ Hinv)|]. constructor; [|done]. cbn.
      unfold at_dest, len in *. split; [lia|done].
  - unfold same_frame. cbn. by rewrite length_insert.
  - intros i. change (net ?D (set_delayed ?x ?s) i) with (net D s i).
    rewrite net_update by done. unfold net.
    destruct (decide (at_dest p = i)) as [<-|Hne].
    + by rewrite decide_True, Hin, Hn.
    + rewrite decide_False by congruence. destruct (nodes s !! i); [|done].
      unfold in_net. by rewrite Hto, decide_False, app_nil_r by congruence.
Qed.

(** *** Delayed parcels becoming due *)

Definition still_delayed (t : Z) (d : Delayed) : bool := t <? release_at d.

Lemma wp_update_node_m l f Q R s n n' :
  nodes s !! Z.to_nat l = Some n -> 0 <= l -> len (nodes s) <= usize_max ->
  f n s = (Ok n', s) -> Q tt (set_nodes (<[Z.to_nat l := n']> (nodes s)) s) ->
  wp (update_node_m l f) Q R s.
Proof.
  intros Hn Hl Hlen Hf HQ. unfold update_node_m. apply wp_bind. eapply wp_node_in; eauto.
  apply wp_bind. unfold wp at 1. rewrite Hf. eapply wp_update_node; eauto.
Qed.

Lemma set_nodes_twice i n n' s :
  set_nodes (<[i := n']> (nodes (set_nodes (<[i := n]> (nodes s)) s)))
    (set_nodes (<[i := n]> (nodes s)) s) = set_nodes (<[i := n']> (nodes s)) s.
Proof. unfold set_nodes. cbn. by rewrite list_insert_insert_eq. Qed.

(** One due parcel moves from the delayed list to its queue. *)
Lemma release_item D1 item D2 s n n' :
  mem_inv (D1 ++ item :: D2) s ->
  let i := Z.to_nat (d_destination item) in let c := channel (d_parcel item) in
  nodes s !! i = Some n -> system n' = system n ->
  incoming n' = pc_set (incoming n) c (pc_get (incoming n) c ++ [Incoming (d_parcel item)]) ->
  delayed_counts n' = pc_set (delayed_counts n) c (pc_get (delayed_counts n) c - 1) ->
  queued_bytes n' = queued_bytes n ->
  let s' := set_nodes (<[i := n']> (nodes s)) s in
  mem_inv (D1 ++ D2) s' /\ (forall j, net (D1 ++ D2) s' j ≡ₚ net (D1 ++ item :: D2) s j).
Proof.
  intros Hinv i c Hn Hsys Hi Hdc Hqb s'.
  pose proof (mi_nodes _ _ Hinv _ _ Hn) as Hok. pose proof (lookup_lt_Some _ _ _ Hn) as Hlt.
  pose proof (mi_delayed _ _ Hinv) as HD. apply Forall_app in HD as [HD1 [Hitem HD2]%Forall_cons].
  assert (Hto : forall j, delayed_to (D1 ++ item :: D2) j
    ≡ₚ (if decide (j = i) then [d_parcel item] else []) ++ delayed_to (D1 ++ D2) j).
  { intros j. rewrite !delayed_to_app, delayed_to_cons.
    assert (Hiff : d_destination item = Z.of_nat j <-> j = i) by (unfold i; lia).
    rewrite (decide_ext _ _ _ _ Hiff). case_decide; solve_Permutation. }
  assert (Hq : queues n' ≡ₚ d_parcel item :: queues n).
  { rewrite <- (queues_add n c false (d_parcel item)). unfold queues, queue. by rewrite Hi. }
  assert (Hin : in_net (D1 ++ D2) n' i ≡ₚ in_net (D1 ++ item :: D2) n i).
  { unfold in_net. rewrite Hq, Hto, decide_True by done. solve_Permutation. }
  split.
  - eapply mem_inv_update; eauto.
    + eapply (node_ok_shrink _ _ _ _ _ _ []); eauto.
      * rewrite Hsys. apply (no_system _ _ _ _ Hok).
      * rewrite Hi. apply (queue_wf_push n c false); [|done]. apply (no_queue _ _ _ _ Hok).
      * intros c'. rewrite Hdc, pc_get_set, !(no_delayed _ _ _ _ Hok).
        destruct (decide (c = c')) as [<-|Hne];
          rewrite Hto, decide_True, on_channel_app, on_channel_one by done; fold c;
          [rewrite decide_True by done | rewrite decide_False by done]; lia.
      * by rewrite Hin.
      * cbn. lia.
    + intros j Hj. by rewrite Hto, decide_False.
    + by apply Forall_app.
  - intros j. unfold s'. rewrite net_update by done. unfold net. case_decide as Hd.
    + subst j. by rewrite Hn, Hin.
    + destruct (nodes s !! j); [|done]. unfold in_net. by rewrite Hto, decide_False by congruence.
Qed.

(** Neither the system events nor the [active] flags change. *)
Definition same_system (s s' : State) : Prop :=
  forall i, (fun n => (system n, active n)) <$> nodes s' !! i
            = (fun n => (system n, active n)) <$> nodes s !! i.

Lemma same_system_update s i n n' :
  nodes s !! i = Some n -> system n' = system n -> active n' = active n ->
  same_system s (set_nodes (<[i := n']> (nodes s)) s).
Proof.
  intros Hn Hs Ha j. cbn. destruct (decide (i = j)) as [<-|Hne].
  - rewrite list_lookup_insert_eq by (by eapply lookup_lt_Some). rewrite Hn. cbn. by rewrite Hs, Ha.
  - by rewrite list_lookup_insert_ne.
Qed.

(** [s'] is [s] after moving parcels inside the network, [D] to [D']. *)
Definition moved (D : list Delayed) (s : State) (D' : list Delayed) (s' : State) : Prop :=
  mem_inv D' s' /\ same_frame s s' /\ tick s' = tick s /\ next_ticket s' = next_ticket s /\
  faults s' = faults s /\ same_system s s' /\ (forall i, net D' s' i ≡ₚ net D s i).

Lemma moved_trans D1 s1 D2 s2 D3 s3 : moved D1 s1 D2 s2 -> moved D2 s2 D3 s3 -> moved D1 s1 D3 s3.
Proof.
  intros (_ & (Hl & Hr & Hn) & Ht & Hk & Hf & Hs & H1) (Hi & (Hl' & Hr' & Hn') & Ht' & Hk' & Hf' & Hs' & H2).
  split_and!; try done; try congruence.
  - unfold same_frame. by rewrite Hl', Hr', Hn'.
  - intros i. by rewrite H2, H1.
Qed.

Lemma moved_refl D s s' :
  mem_inv D s -> nodes s' = nodes s -> limits s' = limits s -> run_id s' = run_id s ->
  tick s' = tick s -> next_ticket s' = next_ticket s -> faults s' = faults s -> moved D s D s'.
Proof.
  intros Hi Hn Hl Hr Ht Hk Hf. split_and!; try done.
  - by eapply mem_inv_ext.
  - unfold same_frame. by rewrite Hn.
  - intros i. by rewrite Hn.
  - intros i. unfold net. by rewrite Hn.
Qed.

(** An item's node exists. *)
Lemma item_node D1 item D2 s :
  mem_inv (D1 ++ item :: D2) s ->
  exists n, nodes s !! Z.to_nat (d_destination item) = Some n /\ 0 <= d_destination item /\
    1 <= pc_get (delayed_counts n) (channel (d_parcel item)) /\
    d_bytes item = plen (d_parcel item) /\ plen (d_parcel item) <= queued_bytes n.
Proof.
  intros Hinv. pose proof (mi_delayed _ _ Hinv) as HD.
  apply Forall_app in HD as [_ [[Hd Hb] _]%Forall_cons].
  destruct (lookup_lt_is_Some_2 (nodes s) (Z.to_nat (d_destination item))) as [n Hn].
  { unfold len in *. lia. }
  pose proof (mi_nodes _ _ Hinv _ _ Hn) as Hok. exists n. split_and!; try done; try lia.
  - rewrite (no_delayed _ _ _ _ Hok), delayed_to_app, delayed_to_cons, decide_True by lia.
    rewrite !on_channel_app, on_channel_one, decide_True by done.
    pose proof (on_channel_nonneg (channel (d_parcel item)) (delayed_to D1 (Z.to_nat (d_destination item)))).
    pose proof (on_channel_nonneg (channel (d_parcel item)) (delayed_to D2 (Z.to_nat (d_destination item)))).
    lia.
  - rewrite (no_bytes _ _ _ _ Hok). unfold in_net.
    rewrite delayed_to_app, delayed_to_cons, decide_True by lia.
    rewrite !total_bytes_app, total_bytes_one.
    pose proof (total_bytes_nonneg (queues n)).
    pose proof (total_bytes_nonneg (delayed_to D1 (Z.to_nat (d_destination item)))).
    pose proof (total_bytes_nonneg (delayed_to D2 (Z.to_nat (d_destination item)))). lia.
Qed.

Lemma dec_delayed_eq c n (s : State) :
  1 <= pc_get (delayed_counts n) c ->
  dec_delayed c n s =
    (Ok (set_delayed_counts (pc_set (delayed_counts n) c (pc_get (delayed_counts n) c - 1)) n), s).
Proof. intros H. unfold dec_delayed, usize_sub. rewrite (proj2 (Z.leb_le _ _)) by done. by mrun. Qed.

Lemma wp_release_loop items : forall retained s Q R,
  mem_inv (retained ++ items) s ->
  (forall s', let kept := retained ++ filter (fun d => still_delayed (tick s) d = true) items in
     moved (retained ++ items) s kept s' -> Q kept s') ->
  wp (release_loop items retained) Q R s.
Proof.
  induction items as [|item items IH]; intros retained s Q R Hinv HQ; cbn [release_loop].
  { apply wp_ret. rewrite app_nil_r in *. cbn in HQ. rewrite app_nil_r in HQ.
    apply HQ. by apply moved_refl. }
  apply wp_bind, wp_modify, wp_bind, wp_gets.
  set (s1 := set_delayed items s). change (tick s1) with (tick s).
  assert (Hinv1 : mem_inv (retained ++ item :: items) s1) by (by eapply mem_inv_ext).
  assert (Hmv1 : moved (retained ++ item :: items) s (retained ++ item :: items) s1)
    by (by apply moved_refl).
  rewrite filter_cons in HQ.
  destruct (release_at item <=? tick s) eqn:E; zbool.
  - assert (Hnot : ~ still_delayed (tick s) item = true)
      by (unfold still_delayed; rewrite (proj2 (Z.ltb_ge _ _)) by done; done).
    rewrite decide_False in HQ by done.
    destruct (item_node _ _ _ _ Hinv1) as (n & Hn & Hd & Hcnt & _).
    pose proof (mi_count _ _ Hinv1) as Hlen. pose proof (lookup_lt_Some _ _ _ Hn) as Hlt.
    apply wp_bind. eapply wp_update_node_m; [done..|by apply dec_delayed_eq|].
    apply wp_bind. eapply wp_update_node;
      [cbn; by apply list_lookup_insert_eq|done|cbn; unfold len in *; by rewrite length_insert|].
    rewrite set_nodes_twice.
    edestruct (release_item retained item items s1 n) as [Hinv2 Hnet2];
      [exact Hinv1|exact Hn|..]; cycle 4.
    + apply IH; [exact Hinv2|]. intros s' kept Hmv. apply HQ. eapply moved_trans; [exact Hmv1|].
      eapply moved_trans; [|exact Hmv]. split_and!; try done.
      * unfold same_frame. cbn. by rewrite length_insert.
      * by eapply same_system_update.
    + done.
    + done.
    + done.
    + done.
  - assert (Hyes : still_delayed (tick s) item = true) by (by apply Z.ltb_lt).
    rewrite decide_True in HQ by done.
    apply IH; [by rewrite <- app_assoc|]. intros s' kept Hmv. subst kept.
    assert (Heq : forall k, (retained ++ [item]) ++ k = retained ++ item :: k)
      by (intros k; by rewrite <- app_assoc).
    rewrite (Heq items), (Heq (filter _ _)) in Hmv. rewrite (Heq (filter _ _)). apply HQ.
    exact (moved_trans _ _ _ _ _ _ Hmv1 Hmv).
Qed.

(** *** Methods *)

Lemma wp_release_delayed Q (R : TransportError -> State -> Prop) s :
  mem_inv (delayed s) s ->
  (forall s', moved (delayed s) s (delayed s') s' ->
     delayed s' = filter (fun d => still_delayed (tick s) d = true) (delayed s) -> Q tt s') ->
  wp release_delayed Q R s.
Proof.
  intros Hinv HQ. unfold release_delayed. apply wp_bind, wp_gets, wp_bind.
  apply wp_release_loop; [done|]. intros s' kept Hmv. apply wp_modify, HQ; [|done].
  eapply moved_trans; [exact Hmv|]. apply moved_refl; [apply Hmv|done..].
Qed.

(** The clock advances; nothing else is accounted for. *)
Definition ticked (s : State) : State := set_tick (saturating_add u64_max (tick s) 1) s.

Lemma mem_inv_ticked D s : mem_inv D s -> mem_inv D (ticked s).
Proof. intros H. by eapply mem_inv_ext. Qed.

(** [advance_tick] and [release_delayed], as [progress] and [flush] start. *)
Lemma wp_tick_release {A} (m : SM A) Q R s :
  mem_inv (delayed s) s ->
  (forall s', moved (delayed s) (ticked s) (delayed s') s' ->
     delayed s' = filter (fun d => still_delayed (tick (ticked s)) d = true) (delayed s) ->
     wp m Q R s') ->
  wp (advance_tick;; release_delayed;; m) Q R s.
Proof.
  intros Hinv HQ. unfold advance_tick. apply wp_bind, wp_modify, wp_bind.
  fold (ticked s). by apply wp_release_delayed; [apply mem_inv_ticked|].
Qed.

(** Parcels of a list of events. *)
Definition parcels (evs : list TransportEvent) : list Parcel := evs ≫= event_parcels.

Lemma pop_event_cases n ev n' :
  pop_event n = Some (ev, n') ->
  (system n = ev :: system n' /\ same_queues n n' /\ active n' = active n) \/
  (system n = [] /\ system n' = [] /\ exists c q, pc_get (incoming n) c = ev :: q /\
     n' = set_incoming (pc_set (incoming n) c q) n).
Proof.
  unfold pop_event. destruct (system n) as [|e es] eqn:Es.
  - destruct (pc_control (incoming n)) as [|e q] eqn:E1.
    + destruct (pc_action (incoming n)) as [|e q] eqn:E2.
      * destruct (pc_bulk (incoming n)) as [|e q] eqn:E3; [done|]. intros [= <- <-].
        right. split_and!; [done|done|]. by exists Channel_Bulk, q.
      * intros [= <- <-]. right. split_and!; [done|done|]. by exists Channel_Action, q.
    + intros [= <- <-]. right. split_and!; [done|done|]. by exists Channel_Control, q.
  - intros [= <- <-]. left. done.
Qed.

Lemma queues_pop n c ev q :
  pc_get (incoming n) c = ev :: q ->
  queues n ≡ₚ event_parcels ev ++ queues (set_incoming (pc_set (incoming n) c q) n).
Proof.
  intros Hq. apply (Permutation_app_inv_l (q ≫= event_parcels)).
  rewrite <- queues_set. unfold queue. rewrite Hq. cbn. solve_Permutation.
Qed.

Lemma total_bytes_in p ps : p ∈ ps -> plen p <= total_bytes ps.
Proof.
  intros (a & b & ->)%list_elem_of_split. rewrite total_bytes_app, total_bytes_cons.
  pose proof (total_bytes_nonneg a). pose proof (total_bytes_nonneg b). lia.
Qed.

(** How many events [progress] has left to hand out. *)
Definition backlog (n : Node) : nat := (length (system n) + length (queues n))%nat.

(** A popped event, once accounted for, leaves a node that is in order. *)
Lemma pop_deliver l D i n ev n' (s : State) :
  node_ok l D i n -> pop_event n = Some (ev, n') ->
  exists n'', deliver ev n' s = (Ok n'', s) /\ node_ok l D i n'' /\
    in_net D n i ≡ₚ event_parcels ev ++ in_net D n'' i /\
    S (backlog n'') = backlog n.
Proof.
  intros Hok [(Hsys & Hsame & Hact)|(Hsys & _ & c & q & Hq & ->)]%pop_event_cases.
  - pose proof (no_system _ _ _ _ Hok) as Hs. rewrite Hsys in Hs.
    apply Forall_cons in Hs as [Hev Hs]. exists n'. split_and!.
    + by destruct ev.
    + by eapply node_ok_same.
    + rewrite Hev. cbn [app]. by rewrite (in_net_same D n n').
    + unfold backlog. rewrite Hsys. destruct Hsame as (Hi & _ & _). unfold queues, queue.
      by rewrite Hi.
  - pose proof (no_queue _ _ _ _ Hok c) as Hqc. rewrite Hq in Hqc.
    apply Forall_cons in Hqc as [(p & -> & Hp) Hqc].
    assert (Hin : in_net D n i ≡ₚ p :: in_net D (set_incoming (pc_set (incoming n) c q) n) i).
    { unfold in_net. by rewrite (queues_pop _ _ _ _ Hq). }
    assert (Hpin : p ∈ in_net D n i) by (rewrite Hin; by left).
    pose proof (no_sized _ _ _ _ Hok) as Hsz. rewrite Forall_forall in Hsz.
    destruct (Hsz p Hpin) as [b Hb]. assert (Hpl : plen p = b) by (unfold plen; by rewrite Hb).
    pose proof (total_bytes_in _ _ Hpin) as Hle. rewrite <- (no_bytes _ _ _ _ Hok), Hpl in Hle.
    eexists. split_and!.
    + unfold deliver, lift_p. rewrite Hb. cbn [map_err]. mrun. unfold Node_release, usize_sub.
      cbn [queued_bytes set_incoming]. rewrite (proj2 (Z.leb_le _ _)) by done. mrun. reflexivity.
    + eapply (node_ok_shrink _ _ _ _ _ _ [p]); [exact Hok| | | | |]; cbn.
      * apply (no_system _ _ _ _ Hok).
      * intros c'. rewrite pc_get_set. case_decide; [by subst c'|]. apply (no_queue _ _ _ _ Hok).
      * apply (no_delayed _ _ _ _ Hok).
      * exact Hin.
      * lia.
    + exact Hin.
    + unfold backlog. rewrite (queues_pop _ _ _ _ Hq). cbn. lia.
Qed.

Lemma pop_event_none n : pop_event n = None -> system n = [] /\ queues n = [].
Proof.
  unfold pop_event, queues, queue.
  destruct (system n); [|done]. destruct (pc_control (incoming n)) eqn:E1; [|done].
  destruct (pc_action (incoming n)) eqn:E2; [|done].
  destruct (pc_bulk (incoming n)) eqn:E3; [|done]. intros _. split; [done|].
  cbn. by rewrite E1, E2, E3.
Qed.

(** A loop of [progress] has taken [evs] from locality [i]. *)
Definition polled (i : nat) (s : State) (evs : list TransportEvent) (s' : State) : Prop :=
  mem_inv (delayed s') s' /\ same_frame s s' /\ delayed s' = delayed s /\ tick s' = tick s /\
  (forall n, nodes s !! i = Some n -> exists n', nodes s' !! i = Some n' /\
     (length evs + backlog n' = backlog n)%nat) /\
  (forall j, net (delayed s) s j ≡ₚ (if decide (j = i) then parcels evs else []) ++
             net (delayed s') s' j).

Lemma polled_nil i s : mem_inv (delayed s) s -> polled i s [] s.
Proof. intros Hinv. split_and!; try done; [eauto|]. intros j. by destruct (decide (j = i)). Qed.

(** Nothing can be polled at [i] any more. *)
Definition exhausted (i : nat) (s : State) : Prop :=
  exists n, nodes s !! i = Some n /\ system n = [] /\ queues n = [].

Lemma wp_progress_loop i k : forall evs s (Q : list TransportEvent -> State -> Prop) R,
  mem_inv (delayed s) s -> (i < length (nodes s))%nat ->
  (forall evs' s', polled i s evs' s' -> (length evs' <= k)%nat ->
     (length evs' = k \/ exhausted i s') -> Q (evs ++ evs') s') ->
  wp (progress_loop (Z.of_nat i) k evs) Q R s.
Proof.
  induction k as [|k IH]; intros evs s Q R Hinv Hi HQ; cbn [progress_loop].
  { apply wp_ret. rewrite <- (app_nil_r evs). apply HQ; [|done|by left].
    by apply polled_nil. }
  destruct (lookup_lt_is_Some_2 _ _ Hi) as [n Hn].
  pose proof (mi_count _ _ Hinv) as Hlen. pose proof (mi_nodes _ _ Hinv _ _ Hn) as Hok.
  assert (Hz : Z.to_nat (Z.of_nat i) = i) by lia.
  apply wp_bind. eapply wp_node_in; [by rewrite Hz|lia|done|].
  destruct (pop_event n) as [[ev n']|] eqn:Ep.
  2:{ apply wp_ret. rewrite <- (app_nil_r evs). apply HQ; [|cbn; lia|right].
      - by apply polled_nil.
      - exists n. split; [done|]. by apply pop_event_none. }
  set (s1 := set_nodes (<[i := n']> (nodes s)) s).
  destruct (pop_deliver _ _ _ _ _ _ s1 Hok Ep) as (n'' & Hdel & Hok'' & Hin & Hback).
  apply wp_bind. eapply wp_update_node; [by rewrite Hz|lia|done|]. rewrite Hz. fold s1.
  apply wp_bind. unfold wp at 1. rewrite Hdel.
  apply wp_bind. eapply wp_update_node; [rewrite Hz; cbn; by apply list_lookup_insert_eq|lia
    |cbn; unfold len in *; by rewrite length_insert|].
  rewrite Hz. unfold s1. rewrite set_nodes_twice. set (s2 := set_nodes _ s).
  apply IH.
  - change (delayed s2) with (delayed s). eapply mem_inv_update; eauto. apply (mi_delayed _ _ Hinv).
  - cbn. by rewrite length_insert.
  - intros evs' s' (Hinv' & (Hl & Hr & Hnn) & Hd & Ht & Hbk & Hnet) Hk Hend.
    rewrite <- app_assoc. cbn [app].
    apply HQ; [|cbn; lia|destruct Hend; [left; cbn; lia|by right]].
    split_and!; try done.
    + unfold same_frame. rewrite Hl, Hr, Hnn. cbn. by rewrite length_insert.
    + intros m Hm. assert (m = n) as -> by congruence.
      destruct (Hbk n'') as (n3 & Hn3 & Hb3); [cbn; by apply list_lookup_insert_eq|].
      exists n3. split; [done|]. cbn [length]. lia.
    + intros j. specialize (Hnet j). change (delayed s2) with (delayed s) in Hnet.
      unfold s2 in Hnet. rewrite net_update in Hnet by done.
      destruct (decide (j = i)) as [->|Hj].
      * rewrite decide_True in Hnet by done. unfold net at 1. rewrite Hn, Hin, Hnet.
        unfold parcels. cbn [mbind list_bind]. by rewrite app_assoc.
      * by rewrite decide_False in Hnet by congruence.
Qed.

(** How many copies of a sent parcel a fault lets into the network. *)
Definition copies (f : MemoryFault) : nat :=
  match f with
  | Fault_Pass | Fault_Delay _ | Fault_Reorder => 1
  | Fault_Duplicate => 2
  | Fault_Loss | Fault_Disconnect | Fault_Saturate => 0
  end.
Definition next_fault (s : State) : MemoryFault := hd Fault_Pass (faults s).

(** [k] copies of [p] have entered, and the clocks stand still. *)
Definition sent (s : State) (p : Parcel) (k : nat) (s' : State) : Prop :=
  entered s p k s' /\ next_ticket s' = next_ticket s /\ tick s' = tick s.

Lemma sent_trans s1 s2 s3 p k m : sent s1 p k s2 -> sent s2 p m s3 -> sent s1 p (m + k) s3.
Proof.
  intros (H1 & Ht1 & Hk1) (H2 & Ht2 & Hk2).
  split_and!; [by eapply entered_trans|congruence|congruence].
Qed.

(** An update of what is not accounted for. *)
Lemma wp_touch l f p Q R s :
  (forall n, same_queues n (f n) /\
     (Forall (fun ev => event_parcels ev = []) (system n) ->
      Forall (fun ev => event_parcels ev = []) (system (f n)))) ->
  mem_inv (delayed s) s -> 0 <= l -> (Z.to_nat l < length (nodes s))%nat ->
  (forall s', sent s p 0 s' -> Q tt s') -> wp (update_node l f) Q R s.
Proof.
  intros Hf Hinv Hl Hlt HQ. destruct (lookup_lt_is_Some_2 _ _ Hlt) as [n Hn].
  destruct (Hf n) as [Hsame Hsys].
  pose proof (no_system _ _ _ _ (mi_nodes _ _ Hinv _ _ Hn)) as Hns.
  destruct (mem_inv_same (delayed s) s _ n (f n) Hinv Hn Hsame (Hsys Hns)) as [Hi Hnet].
  eapply wp_update_node; [done|done|apply (mi_count _ _ Hinv)|]. apply HQ.
  split_and!; [|done|done]. apply entered_0; [done| |done].
  unfold same_frame. cbn. by rewrite length_insert.
Qed.

Lemma wp_enqueue p front k Q R s :
  mem_inv (delayed s) s -> 0 <= destination p -> sized p -> 1 <= k -> room s p k ->
  (forall s', sent s p 1 s' -> room s' p (k - 1) -> Q tt s') ->
  wp (enqueue p (plen p) front) Q R s.
Proof.
  intros Hinv Hd Hsz Hk Hroom HQ.
  assert (Hclock : forall s', enqueue p (plen p) front s = (Ok tt, s') ->
            next_ticket s' = next_ticket s /\ tick s' = tick s).
  { destruct Hroom as (n & Hn & _).
    destruct (enqueue_eq s p front n Hn Hd (mi_count _ _ Hinv)) as (n' & _ & _ & _ & _ & ->).
    by intros s' [= <-]. }
  destruct (enqueue_enters s p front k) as (s' & Hs' & He & Hr & _); [done..|].
  unfold wp. rewrite Hs'. destruct (Hclock _ Hs'). by apply HQ.
Qed.

Lemma push_system_ok ev n :
  event_parcels ev = [] ->
  same_queues n (push_system ev n) /\
  (Forall (fun ev => event_parcels ev = []) (system n) ->
   Forall (fun ev => event_parcels ev = []) (system (push_system ev n))).
Proof. intros Hev. split; [done|]. intros H. cbn. apply Forall_app. by repeat constructor. Qed.

Lemma wp_apply_fault l p fault Q R s :
  mem_inv (delayed s) s -> 0 <= l -> (Z.to_nat l < length (nodes s))%nat ->
  0 <= destination p -> sized p ->
  (forall s', sent s p (copies fault) s' -> Q tt s') ->
  (forall e s', sent s p 0 s' -> R e s') ->
  wp (apply_fault l p (plen p) fault) Q R s.
Proof.
  intros Hinv Hl Hlt Hd Hsz HQ HR.
  assert (HR0 : forall e, R e s).
  { intros e. apply HR. split_and!; [|done|done]. by apply entered_0. }
  unfold apply_fault. apply wp_bind, wp_gets. destruct fault as [|ticks| | | | |]; cbn [copies] in HQ.
  - apply wp_bind, wp_reserve; [done|done|lia|done| |done]. intros Hroom.
    apply (wp_enqueue p _ 1); [done|done|done|lia|done|]. intros s' Hs _. by apply HQ.
  - apply wp_bind, wp_reserve; [done|done|lia|done| |done]. intros Hroom. pose proof Hroom as (n & Hn & _).
    apply wp_bind. eapply wp_update_node; [exact Hn|done|apply (mi_count _ _ Hinv)|].
    apply wp_modify. apply HQ. split_and!; [|done|done].
    by apply (delay_enters s p _ n).
  - apply wp_bind, wp_reserve; [done|done|lia|done| |done]. intros Hroom.
    apply wp_bind. apply (wp_enqueue p false 2); [done|done|done|lia|done|]. intros s1 Hs1 Hroom1.
    apply (wp_enqueue p false (2 - 1)); [apply Hs1|done|done|lia|done|]. intros s' Hs' _.
    apply HQ. exact (sent_trans _ _ _ _ _ _ Hs1 Hs').
  - apply wp_ret, HQ. split_and!; [|done|done]. by apply entered_0.
  - apply wp_bind, wp_reserve; [done|done|lia|done| |done]. intros Hroom.
    apply (wp_enqueue p _ 1); [done|done|done|lia|done|]. intros s' Hs _. by apply HQ.
  - apply wp_raise, HR0.
  - apply wp_bind. apply (wp_touch l _ p); try done; [intros n; by apply push_system_ok|].
    intros s1 Hs1. pose proof Hs1 as ((Hi1 & (_ & _ & Hlen) & _) & _).
    apply (wp_touch l _ p); try done; [by rewrite Hlen|]. intros s' Hs'.
    apply HQ. exact (sent_trans _ _ _ _ _ _ Hs1 Hs').
Qed.

(** What [try_send] does to the network: on success the next fault's number of
    copies enters, on failure nothing does. *)
Lemma try_send_spec l p s :
  mem_inv (delayed s) s -> 0 <= l -> 0 <= destination p ->
  wp (try_send l p)
    (fun t s' => entered s p (copies (next_fault s)) s' /\
       t = next_ticket s /\ next_ticket s' = next_ticket s + 1 /\
       exists n, nodes s' !! Z.to_nat l = Some n /\ last (system n) = Some (LocalSendComplete t))
    (fun e s' => entered s p 0 s') s.
Proof.
  intros Hinv Hl Hd.
  assert (H0 : entered s p 0 s) by (by apply entered_0).
  unfold try_send. apply wp_bind, wp_node; [done| |done]. intros n Hn.
  wp_steps; try done. unfold lift_p. wp_steps. unfold id in *.
  destruct (Parcel_validate p (limits s)); cbn [map_err]; [|done].
  apply wp_bind, wp_node; [done| |done]. intros nd Hnd.
  apply wp_bind, wp_node; [done| |done]. intros n0 _. wp_steps; [done|].
  destruct (Parcel_payload_len p) as [b|] eqn:Hb; cbn [map_err]; [|done].
  assert (Hpl : b = plen p) by (unfold plen; by rewrite Hb). subst b.
  assert (Hsz : sized p) by (eexists; exact Hb).
  wp_steps. destruct (checked_add u64_max (next_ticket s) 1) as [t'|] eqn:Ht; cbn [ok_or]; [|done].
  apply checked_add_some in Ht as [-> _]. wp_steps. set (s1 := set_next_ticket _ s).
  unfold pop_fault. wp_steps. unfold id. set (s2 := set_faults (tail (faults s)) s1).
  assert (Hgo : forall fault, wp (apply_fault l p (plen p) fault;;
      update_node l (fun n => push_system (LocalSendComplete (next_ticket s))
                        (set_stats (bump_submitted (plen p) (stats n)) n));;
      mret (next_ticket s))
    (fun t s' => entered s p (copies fault) s' /\
       t = next_ticket s /\ next_ticket s' = next_ticket s + 1 /\
       exists n, nodes s' !! Z.to_nat l = Some n /\ last (system n) = Some (LocalSendComplete t))
    (fun e s' => entered s p 0 s') s2).
  { intros fault. apply wp_bind, wp_apply_fault; [|done| |done|done| |].
    - by apply mem_inv_ext with s.
    - cbn. by eapply lookup_lt_Some.
    - intros s3 ((Hi3 & Hf3 & Hn3) & Ht3 & _).
      assert (Hlt3 : (Z.to_nat l < length (nodes s3))%nat).
      { destruct Hf3 as (_ & _ & ->). cbn. by eapply lookup_lt_Some. }
      destruct (lookup_lt_is_Some_2 _ _ Hlt3) as [n3 Hn3'].
      apply wp_bind. eapply wp_update_node; [done|done|apply (mi_count _ _ Hi3)|]. apply wp_ret.
      set (n4 := push_system _ _).
      destruct (mem_inv_same (delayed s3) s3 _ n3 n4 Hi3 Hn3') as [Hi4 Hnet4]; [done| |].
      { cbn. apply Forall_app. split; [|by repeat constructor].
        apply (no_system _ _ _ _ (mi_nodes _ _ Hi3 _ _ Hn3')). }
      split_and!; [|done|exact Ht3|].
      + change (copies fault) with (0 + copies fault)%nat.
        eapply entered_trans; [exact (conj Hi3 (conj Hf3 Hn3))|]. apply entered_0; [done| |done].
        unfold same_frame. cbn. by rewrite length_insert.
      + exists n4. cbn. split; [by apply list_lookup_insert_eq|]. by rewrite last_snoc.
    - intros e s3 Hs3. apply Hs3. }
  unfold next_fault. change (faults s1) with (faults s). destruct (faults s) as [|f fs] eqn:Hfs.
  - apply wp_ret. specialize (Hgo Fault_Pass).
    assert (Heq : s2 = s1) by (unfold s2, s1, set_faults, set_next_ticket; cbn; by rewrite Hfs).
    rewrite Heq in Hgo. exact Hgo.
  - apply wp_bind, wp_modify, wp_ret. exact (Hgo f).
Qed.

(** The network is the same, up to the clock and to parcels becoming due. *)
Definition settled (s s' : State) : Prop :=
  mem_inv (delayed s') s' /\ same_frame s s' /\ same_system s s' /\
  (forall i, net (delayed s') s' i ≡ₚ net (delayed s) s i).

Lemma settled_moved s s' : moved (delayed s) (ticked s) (delayed s') s' -> settled s s'.
Proof. intros (Hi & Hf & _ & _ & _ & Hs & Hn). done. Qed.

Lemma settled_refl s : mem_inv (delayed s) s -> settled s s.
Proof. done. Qed.

Lemma settled_trans s1 s2 s3 : settled s1 s2 -> settled s2 s3 -> settled s1 s3.
Proof.
  intros (_ & (Hl1 & Hr1 & Hn1) & Hs1 & H1) (Hi & (Hl2 & Hr2 & Hn2) & Hs2 & H2).
  split_and!; [done| | |].
  - unfold same_frame. by rewrite Hl2, Hr2, Hn2.
  - intros i. by rewrite (Hs2 i), (Hs1 i).
  - intros i. by rewrite H2, H1.
Qed.

Lemma wp_flush_step l Q (R : TransportError -> State -> Prop) s :
  mem_inv (delayed s) s ->
  (forall s', settled s s' -> tick s' = tick (ticked s) ->
     delayed s' = filter (fun d => still_delayed (tick (ticked s)) d = true) (delayed s) ->
     Q (negb (existsb (fun item => source (d_parcel item) =? l) (delayed s'))) s') ->
  wp (flush_step l) Q R s.
Proof.
  intros Hinv HQ. unfold flush_step. apply wp_tick_release; [done|].
  intros s' Hmv Hd. apply wp_bind, wp_gets, wp_ret. apply HQ; [by apply settled_moved| |done].
  by destruct Hmv as (_ & _ & ? & _).
Qed.

(** Nothing sent by [l] is still delayed. *)
Definition flushed (l : LocalityId) (s : State) : Prop :=
  Forall (fun d => source (d_parcel d) <> l) (delayed s).

Lemma flushed_test l D :
  negb (existsb (fun item => source (d_parcel item) =? l) D) = true <->
  Forall (fun d => source (d_parcel d) <> l) D.
Proof.
  rewrite negb_true_iff. induction D as [|d D IH]; [by split|].
  cbn [existsb]. rewrite orb_false_iff, Forall_cons, IH, Z.eqb_neq. done.
Qed.

(** [flush] moves only due parcels; when it returns, nothing from [l] is delayed. *)
Lemma wp_flush l fuel : forall s Q (R : TransportError -> State -> Prop),
  mem_inv (delayed s) s ->
  (forall s', settled s s' -> flushed l s' -> Q tt s') ->
  (forall s', settled s s' -> R (TransportError_Timeout "memory flush") s') ->
  wp (flush l fuel) Q R s.
Proof.
  induction fuel as [|fuel IH]; intros s Q R Hinv HQ HR; cbn [flush];
    apply wp_bind, wp_flush_step; try done; intros s1 Hs1 _ _;
    destruct (negb _) eqn:E; try (apply wp_ret, HQ; [done|by apply flushed_test]).
  - apply wp_raise. by apply HR.
  - apply IH; [apply Hs1| |]; intros s2 Hs2; [intros|]; (apply HQ || apply HR);
      try done; by eapply settled_trans.
Qed.

(** Enough iterations make everything from [l] due. *)
Lemma flush_returns l fuel : forall s,
  mem_inv (delayed s) s -> 0 <= tick s <= u64_max ->
  Forall (fun d => source (d_parcel d) = l ->
                   release_at d <= Z.min u64_max (tick s + 1 + Z.of_nat fuel)) (delayed s) ->
  exists s', flush l fuel s = (Ok tt, s').
Proof.
  induction fuel as [|fuel IH]; intros s Hinv Ht Hdue; cbn [flush];
    (destruct (flush_step l s) as [r s1] eqn:E;
     pose proof (wp_flush_step l
       (fun b s' => mem_inv (delayed s') s' /\ tick s' = tick (ticked s) /\
          delayed s' = filter (fun d => still_delayed (tick (ticked s)) d = true) (delayed s) /\
          b = negb (existsb (fun item => source (d_parcel item) =? l) (delayed s')))
       (fun _ _ => False) s Hinv
       ltac:(intros s' (Hi & _) Ht' Hd'; split_and!; done)) as Hw;
     unfold wp in Hw; rewrite E in Hw; destruct r as [b|[?|]]; try done;
     destruct Hw as (Hi & Ht1 & Hd1 & Hb); unfold ticked, saturating_add in *; cbn in Ht1, Hd1;
     rewrite (M_bind_step _ _ _ _ _ E)).
  - assert (b = true) as ->; [|by eexists].
    rewrite Hb. apply flushed_test. rewrite Hd1, Forall_forall. intros d Hd Hsrc.
    apply list_elem_of_filter in Hd as [Hlate Hd]. rewrite Forall_forall in Hdue.
    specialize (Hdue d Hd Hsrc). unfold still_delayed in Hlate. zbool. lia.
  - destruct b; [by eexists|]. apply IH; [done|lia|]. rewrite Hd1, Ht1, Forall_forall.
    intros d [_ Hd]%list_elem_of_filter Hsrc. rewrite Forall_forall in Hdue.
    specialize (Hdue d Hd Hsrc). lia.
Qed.

Lemma progress_spec d k i s :
  mem_inv (delayed s) s -> local_id d = Z.of_nat i -> (i < length (nodes s))%nat ->
  wp (progress d k)
    (fun '(evs, pr) s' => mem_inv (delayed s') s' /\ same_frame s s' /\
       pr = mkProgress (len evs) (0 <? len evs) /\ (length evs <= k)%nat /\
       (forall j, net (delayed s) s j ≡ₚ (if decide (j = i) then parcels evs else []) ++
                  net (delayed s') s' j) /\
       (length evs = k \/ exhausted i s') /\
       (exists n n', nodes s !! i = Some n /\ nodes s' !! i = Some n' /\
          (length evs + backlog n' <= length (system n) + length (net (delayed s) s i))%nat) /\
       delayed s' = filter (fun d => still_delayed (tick (ticked s)) d = true) (delayed s))
    (fun e s' => shutdown_done d = true /\ e = TransportError_Shutdown /\ s' = s) s.
Proof.
  intros Hinv Hid Hi. unfold progress. destruct (shutdown_done d); [done|]. rewrite Hid.
  apply wp_tick_release; [done|]. intros s1 Hmv Hd.
  pose proof Hmv as (Hinv1 & (Hl1 & Hr1 & Hn1) & Ht1 & _ & _ & Hs1 & Hnet1).
  destruct (lookup_lt_is_Some_2 (nodes s1) i) as [n Hn]; [by rewrite Hn1|].
  apply wp_bind. eapply wp_node_in; [by rewrite Nat2Z.id|lia|apply (mi_count _ _ Hinv1)|].
  apply wp_bind, wp_progress_loop; [done|by rewrite Hn1|].
  intros evs s2 (Hinv2 & (Hl2 & Hr2 & Hn2) & Hd2 & _ & Hbk & Hnet2) Hk Hend. apply wp_ret. cbn.
  split_and!; try done; try congruence.
  - unfold same_frame. by rewrite Hl2, Hr2, Hn2.
  - intros j. rewrite <- Hnet2. symmetry. apply Hnet1.
  - destruct (lookup_lt_is_Some_2 _ _ Hi) as [n0 Hn0]. destruct (Hbk n Hn) as (n' & Hn' & Hb).
    exists n0, n'. split_and!; [done|done|]. specialize (Hs1 i). cbn in Hs1.
    rewrite Hn, Hn0 in Hs1. injection Hs1 as Hsys _.
    pose proof (Permutation_length (Hnet1 i)) as Hlen.
    change (net (delayed s) (ticked s) i) with (net (delayed s) s i) in Hlen.
    rewrite Hb, <- Hlen, <- Hsys. unfold backlog, net, in_net. rewrite Hn, length_app. lia.
  - by rewrite Hd2.
Qed.

(** *** Shutdown *)

Lemma cancel_loop_eq l items : forall retained s,
  Forall (fun d => source (d_parcel d) <> l) items -> delayed s = items ->
  cancel_loop l items retained s =
    (Ok (retained ++ filter (fun d => d_destination d <> l) items), set_delayed [] s).
Proof.
  induction items as [|d items IH]; intros retained s Hall Hs; cbn [cancel_loop].
  - rewrite app_nil_r. mrun. f_equal. destruct s; cbn in *; by subst.
  - apply Forall_cons in Hall as [Hd Hall]. mrun.
    rewrite (proj2 (Z.eqb_neq _ _) Hd), filter_cons. cbn [orb].
    destruct (Z.eqb_spec (d_destination d) l) as [He|He].
    + rewrite decide_False by (intros H; by apply H). cbn [negb]. mrun.
      by rewrite (IH retained (set_delayed items s)).
    + rewrite decide_True by done. rewrite (IH _ (set_delayed items s)) by done.
      by rewrite <- app_assoc.
Qed.

Lemma delayed_to_filter D i j :
  delayed_to (filter (fun d => d_destination d <> Z.of_nat i) D) j =
    if decide (j = i) then [] else delayed_to D j.
Proof.
  induction D as [|d D IH]; [by case_decide|]. rewrite filter_cons, delayed_to_cons.
  destruct (decide (d_destination d = Z.of_nat i)) as [He|He].
  - rewrite decide_False by (intros H; by apply H). rewrite IH.
    destruct (decide (j = i)) as [->|Hj]; [done|]. rewrite decide_False by lia. done.
  - rewrite decide_True by done. rewrite delayed_to_cons, IH.
    destruct (decide (j = i)) as [->|Hj]; [|done]. by rewrite decide_False by done.
Qed.

Lemma cleared_ok l D i n :
  0 <= max_queued_parcels_per_peer l -> 0 <= max_inflight_bytes_per_peer l ->
  control_reserved_bytes_per_peer l <= max_inflight_bytes_per_peer l ->
  delayed_to D i = [] -> node_ok l D i (Node_clear n) /\ in_net D (Node_clear n) i = [].
Proof.
  intros Hq Hb Hr Hd. assert (Hin : in_net D (Node_clear n) i = []).
  { unfold in_net. by rewrite Hd. }
  split; [|done]. split; rewrite ?Hin, ?Hd; try done; try (by constructor).
  - intros c. by destruct c.
  - intros c. rewrite ?Hd. by destruct c.
  - cbn. lia.
Qed.

(** Limits as [ProtocolLimits::validate] accepts them, in machine integers. *)
Definition limits_ok (l : ProtocolLimits) : Prop :=
  0 <= max_queued_parcels_per_peer l /\ 0 <= control_reserved_bytes_per_peer l /\
  control_reserved_bytes_per_peer l <= max_inflight_bytes_per_peer l.

Definition inactive (s : State) (i : nat) : Prop :=
  exists n, nodes s !! i = Some n /\ active n = false.

Lemma settled_inactive s s' i : settled s s' -> inactive s i -> inactive s' i.
Proof.
  intros (_ & _ & Hs & _) (n & Hn & Ha). specialize (Hs i). rewrite Hn in Hs. cbn in Hs.
  destruct (nodes s' !! i) as [n'|] eqn:Hn'; [|done]. exists n'. split; [done|].
  injection Hs as _ ->. done.
Qed.

(** Marking a node inactive. *)
Lemma deactivate_settled s i n :
  mem_inv (delayed s) s -> nodes s !! i = Some n ->
  let s' := set_nodes (<[i := set_active false n]> (nodes s)) s in
  mem_inv (delayed s') s' /\ same_frame s s' /\
  (forall j, net (delayed s') s' j = net (delayed s) s j) /\ inactive s' i.
Proof.
  intros Hinv Hn s'. pose proof (mi_nodes _ _ Hinv _ _ Hn) as Hok.
  destruct (mem_inv_same _ _ _ _ (set_active false n) Hinv Hn) as [Hi Hnet];
    [done|apply (no_system _ _ _ _ Hok)|].
  split_and!; try done.
  - unfold same_frame, s'. cbn. by rewrite length_insert.
  - exists (set_active false n). unfold s'. cbn.
    split; [by apply list_lookup_insert_eq, (lookup_lt_Some _ _ _ Hn)|done].
Qed.

(** The last steps of [shutdown], once flushed. *)
Lemma shutdown_clears s i :
  mem_inv (delayed s) s -> limits_ok (limits s) -> inactive s i ->
  flushed (Z.of_nat i) s ->
  exists s', (cancel_locality (Z.of_nat i);; node (Z.of_nat i);;
              update_node (Z.of_nat i) (fun n => Node_clear (set_active false n))) s = (Ok tt, s') /\
    mem_inv (delayed s') s' /\ same_frame s s' /\ inactive s' i /\ net (delayed s') s' i = [] /\
    (forall j, j <> i -> net (delayed s') s' j = net (delayed s) s j).
Proof.
  intros Hinv (Hq & Hr & Hb) (n & Hn & _) Hfl. unfold cancel_locality.
  pose proof (lookup_lt_Some _ _ _ Hn) as Hlt. pose proof (mi_count _ _ Hinv) as Hlen.
  set (D' := filter (fun d => d_destination d <> Z.of_nat i) (delayed s)).
  set (s1 := set_delayed D' s).
  assert (Hz : Z.to_nat (Z.of_nat i) = i) by lia.
  mrun. rewrite (M_bind_step _ _ _ _ _ (cancel_loop_eq (Z.of_nat i) _ [] s Hfl eq_refl)).
  cbn [app]. fold D'. mrun. change (set_delayed D' (set_delayed [] s)) with s1.
  rewrite (M_bind_step _ _ _ _ _ (node_eq (Z.of_nat i) s1 n ltac:(by rewrite Hz) ltac:(lia) Hlen)).
  rewrite (update_node_eq _ _ s1 n) by (rewrite ?Hz; done || lia). rewrite Hz.
  eexists. split; [reflexivity|]. set (n' := Node_clear _).
  assert (Hto : forall j, delayed_to D' j = if decide (j = i) then [] else delayed_to (delayed s) j)
    by (intros j; apply delayed_to_filter).
  destruct (cleared_ok (limits s) D' i (set_active false n)) as [Hok Hnet]; [done|lia|done| |].
  { by rewrite Hto, decide_True. }
  split_and!; cbn.
  - apply mem_inv_ext with (set_nodes (<[i := n']> (nodes s)) s); [|done|done].
    eapply mem_inv_update; eauto.
    + intros j Hj. by rewrite Hto, decide_False.
    + eapply (incl_Forall (l1 := delayed s)); [|apply (mi_delayed _ _ Hinv)].
      intros d Hd. apply list_elem_of_In. apply list_elem_of_In in Hd. unfold D' in Hd.
      by apply list_elem_of_filter in Hd as [_ ?].
  - unfold same_frame. cbn. by rewrite length_insert.
  - exists n'. cbn. split; [by apply list_lookup_insert_eq|done].
  - unfold net. cbn. rewrite list_lookup_insert_eq by done. exact Hnet.
  - intros j Hj. unfold net. cbn. rewrite list_lookup_insert_ne by done.
    destruct (nodes s !! j); [|done]. unfold in_net. by rewrite Hto, decide_False.
Qed.

Lemma shutdown_spec d i fuel s :
  mem_inv (delayed s) s -> limits_ok (limits s) -> local_id d = Z.of_nat i ->
  (i < length (nodes s))%nat ->
  wp (shutdown d fuel)
    (fun '(evs, d') s' => mem_inv (delayed s') s' /\ same_frame s s' /\ inactive s' i /\
       evs = [ShutdownComplete] /\ d' = mkMemoryDriver (local_id d) true /\
       net (delayed s') s' i = [] /\
       (forall j, j <> i -> net (delayed s') s' j ≡ₚ net (delayed s) s j))
    (fun e s' => mem_inv (delayed s') s' /\ same_frame s s' /\ inactive s' i /\
       e = TransportError_Timeout "memory flush" /\
       (forall j, net (delayed s') s' j ≡ₚ net (delayed s) s j)) s.
Proof.
  intros Hinv Hlim Hid Hi. unfold shutdown. rewrite Hid.
  destruct (lookup_lt_is_Some_2 _ _ Hi) as [n Hn].
  assert (Hz : Z.to_nat (Z.of_nat i) = i) by lia.
  apply wp_bind. eapply wp_update_node; [by rewrite Hz|lia|apply (mi_count _ _ Hinv)|]. rewrite Hz.
  destruct (deactivate_settled s i n Hinv Hn) as (Hinv1 & Hf1 & Hnet1 & Hin1).
  set (s1 := set_nodes _ s) in *. apply wp_bind, wp_flush; [done| |].
  - intros s2 Hs2 Hfl. pose proof Hs2 as (Hinv2 & (Hl2 & Hr2 & Hn2) & _ & Hnet2).
    destruct (shutdown_clears s2 i) as (s3 & E & Hinv3 & (Hl3 & Hr3 & Hn3) & Hin3 & Hnil & Hnet3);
      [done|by rewrite Hl2|by eapply settled_inactive|done|].
    unfold wp. mrun_in E. rewrite <- !M_bind_assoc in E. unfold mbind, M_bind in E |- *.
    destruct (cancel_locality (Z.of_nat i) s2) as [[?|?] s4]; [|done].
    destruct (node (Z.of_nat i) s4) as [[?|?] s5]; [|done]. rewrite E. cbn.
    split_and!; try done.
    + unfold same_frame. destruct Hf1 as (Hl1 & Hr1 & Hn1).
      rewrite Hl3, Hr3, Hn3, Hl2, Hr2, Hn2. done.
    + intros j Hj. rewrite Hnet3, Hnet2, Hnet1; done.
  - intros s2 Hs2. pose proof Hs2 as (Hinv2 & (Hl2 & Hr2 & Hn2) & _ & Hnet2).
    destruct Hf1 as (Hl1 & Hr1 & Hn1). split_and!; try done.
    + unfold same_frame. by rewrite Hl2, Hr2, Hn2.
    + by eapply settled_inactive.
    + intros j. by rewrite Hnet2, Hnet1.
Qed.

(** ** Runs of the network *)

(** What has happened so far: copies of parcels let in, parcels handed out by
    [progress] (with the locality that polled them), parcels dropped by the
    shutdown of a locality. *)
Record log : Type := mkLog {
  log_sent : list Parcel; log_got : list (nat * Parcel); log_dropped : list (nat * Parcel);
}.

Definition sent_to (i : nat) (ps : list Parcel) : list Parcel := filter (fun p => at_dest p = i) ps.
Definition located (i : nat) (ps : list (nat * Parcel)) : list Parcel :=
  map snd (filter (fun x => x.1 = i) ps).

(** One call of a method, whatever it returns. *)
Inductive mem_step : State * log -> State * log -> Prop :=
| step_send s g l p t s' :
    0 <= l -> 0 <= destination p -> try_send l p s = (Ok t, s') ->
    mem_step (s, g) (s', mkLog (replicate (copies (next_fault s)) p ++ log_sent g)
                           (log_got g) (log_dropped g))
| step_send_err s g l p e s' :
    0 <= l -> 0 <= destination p -> try_send l p s = (Err e, s') -> mem_step (s, g) (s', g)
| step_progress s g d i k evs pr s' :
    local_id d = Z.of_nat i -> (i < length (nodes s))%nat ->
    progress d k s = (Ok (evs, pr), s') ->
    mem_step (s, g) (s', mkLog (log_sent g) (map (pair i) (parcels evs) ++ log_got g) (log_dropped g))
| step_progress_err s g d i k e s' :
    local_id d = Z.of_nat i -> (i < length (nodes s))%nat ->
    progress d k s = (Err e, s') -> mem_step (s, g) (s', g)
| step_flush s g l fuel r s' : flush l fuel s = (r, s') -> mem_step (s, g) (s', g)
| step_shutdown s g d i fuel evs d' s' :
    local_id d = Z.of_nat i -> (i < length (nodes s))%nat ->
    shutdown d fuel s = (Ok (evs, d'), s') ->
    mem_step (s, g) (s', mkLog (log_sent g) (log_got g)
                           (map (pair i) (net (delayed s) s i) ++ log_dropped g))
| step_shutdown_err s g d i fuel e s' :
    local_id d = Z.of_nat i -> (i < length (nodes s))%nat ->
    shutdown d fuel s = (Err e, s') -> mem_step (s, g) (s', g).

(** Everything sent to [i] is somewhere. *)
Definition conserved (x : State * log) : Prop :=
  let '(s, g) := x in
  forall i, sent_to i (log_sent g) ≡ₚ
    located i (log_got g) ++ located i (log_dropped g) ++ net (delayed s) s i.

Lemma sent_to_replicate i k p : sent_to i (replicate k p) = if decide (i = at_dest p) then replicate k p else [].
Proof.
  unfold sent_to. destruct (decide (i = at_dest p)) as [->|Hne].
  - apply filter_all, Forall_replicate. done.
  - apply filter_none, Forall_replicate. congruence.
Qed.

Lemma located_pair i j ps : located i (map (pair j) ps) = if decide (i = j) then ps else [].
Proof.
  unfold located. induction ps as [|p ps IH]; [by case_decide|]. cbn [map]. rewrite filter_cons. cbn.
  destruct (decide (j = i)) as [->|Hne]; cbn; rewrite IH.
  - by rewrite !decide_True.
  - by rewrite !decide_False by congruence.
Qed.

Lemma sent_to_app i a b : sent_to i (a ++ b) = sent_to i a ++ sent_to i b.
Proof. apply filter_app. Qed.
Lemma located_app i a b : located i (a ++ b) = located i a ++ located i b.
Proof. unfold located. by rewrite filter_app, map_app. Qed.

(** The invariant of runs. *)
Definition run_inv (l : ProtocolLimits) (members : nat) (x : State * log) : Prop :=
  mem_inv (delayed x.1) x.1 /\ limits x.1 = l /\ length (nodes x.1) = members /\ conserved x.

Lemma run_inv_same l members s g s' :
  run_inv l members (s, g) -> mem_inv (delayed s') s' -> same_frame s s' ->
  (forall i, net (delayed s') s' i ≡ₚ net (delayed s) s i) -> run_inv l members (s', g).
Proof.
  intros (_ & Hl & Hn & Hc) Hi (Hl' & _ & Hn') Hnet. split_and!; cbn in *; [done|congruence|congruence|].
  intros i. by rewrite (Hnet i).
Qed.

Lemma mem_step_inv l members x y :
  limits_ok l -> mem_step x y -> run_inv l members x -> run_inv l members y.
Proof.
  intros Hlim Hstep Hinv. pose proof Hinv as (Hi & Hl & Hn & Hc).
  destruct Hstep as [s g la p t s' Hla Hd E|s g la p e s' Hla Hd E|s g d i k evs pr s' Hid Hlt E
    |s g d i k e s' Hid Hlt E|s g la fuel r s' E|s g d i fuel evs d' s' Hid Hlt E
    |s g d i fuel e s' Hid Hlt E]; cbn in Hi, Hl, Hn.
  - pose proof (wp_eq _ _ _ _ _ _ E (try_send_spec la p s Hi Hla Hd)) as ((Hi' & (Hl' & _ & Hn') & Hnet) & _).
    split_and!; [exact Hi'|exact (eq_trans Hl' Hl)|exact (eq_trans Hn' Hn)|].
    intros j. cbn [log_sent log_got log_dropped].
    rewrite sent_to_app, sent_to_replicate, (Hnet j). specialize (Hc j).
    destruct (decide (j = at_dest p)); rewrite Hc; solve_Permutation.
  - pose proof (wp_eq _ _ _ _ _ _ E (try_send_spec la p s Hi Hla Hd)) as He.
    destruct e as [e|]; [|done]. destruct He as (Hi' & Hf & Hnet).
    eapply run_inv_same; eauto. intros j. rewrite (Hnet j). by destruct (decide _).
  - pose proof (wp_eq _ _ _ _ _ _ E (progress_spec d k i s Hi Hid Hlt))
      as (Hi' & (Hl' & _ & Hn') & _ & _ & Hnet & _ & _).
    split_and!; [exact Hi'|exact (eq_trans Hl' Hl)|exact (eq_trans Hn' Hn)|].
    intros j. cbn [log_sent log_got log_dropped].
    rewrite located_app, located_pair. specialize (Hc j). rewrite (Hnet j) in Hc.
    rewrite Hc. destruct (decide (j = i)); solve_Permutation.
  - pose proof (wp_eq _ _ _ _ _ _ E (progress_spec d k i s Hi Hid Hlt)) as He.
    destruct e as [e|]; [|done]. by destruct He as (_ & _ & ->).
  - pose proof (wp_eq _ _ _ _ _ _ E (wp_flush la fuel s (fun _ => settled s) (fun _ => settled s) Hi
      ltac:(done) ltac:(done))) as He.
    destruct r as [?|[?|]]; try done; destruct He as (Hi' & Hf & _ & Hnet);
      by eapply run_inv_same.
  - rewrite <- Hl in Hlim.
    pose proof (wp_eq _ _ _ _ _ _ E (shutdown_spec d i fuel s Hi Hlim Hid Hlt))
      as (Hi' & (Hl' & _ & Hn') & _ & _ & _ & Hnil & Hnet).
    split_and!; [exact Hi'|exact (eq_trans Hl' Hl)|exact (eq_trans Hn' Hn)|].
    intros j. cbn [log_sent log_got log_dropped].
    rewrite located_app, located_pair. specialize (Hc j). rewrite Hc.
    destruct (decide (j = i)) as [->|Hne]; [rewrite Hnil|rewrite (Hnet j Hne)]; solve_Permutation.
  - rewrite <- Hl in Hlim.
    pose proof (wp_eq _ _ _ _ _ _ E (shutdown_spec d i fuel s Hi Hlim Hid Hlt)) as He.
    destruct e as [e|]; [|done]. destruct He as (Hi' & Hf & _ & _ & Hnet). by eapply run_inv_same.
Qed.

Lemma build_inv count run l fs s ds :
  build count run l fs = Ok (s, ds) -> Z.of_nat count <= usize_max -> limits_ok l ->
  run_inv l count (s, mkLog [] [] []).
Proof.
  unfold build. intros H Hc (Hq & Hr & Hb). bind_inv H. bind_inv H. injection H as <- _.
  assert (Hok : forall i, node_ok l [] i Node_default).
  { intros i. split; cbn; try done; try lia; try (intros []; constructor); constructor. }
  split_and!; cbn; [split; cbn| |by rewrite length_replicate|].
  - intros i n [-> _]%lookup_replicate. apply Hok.
  - done.
  - unfold len. by rewrite length_replicate.
  - done.
  - done.
  - intros i. unfold net. cbn. destruct (replicate count Node_default !! i) as [n|] eqn:Ei; [|done].
    by apply lookup_replicate in Ei as [-> _].
Qed.

Lemma run_inv_reachable l count run fs s0 ds x :
  build count run l fs = Ok (s0, ds) -> Z.of_nat count <= usize_max -> limits_ok l ->
  rtc mem_step (s0, mkLog [] [] []) x -> run_inv l count x.
Proof.
  intros Hb Hc Hlim Hr. pose proof (build_inv _ _ _ _ _ _ Hb Hc Hlim) as H0.
  induction Hr as [|x y z Hxy _ IH]; [done|]. apply IH. by eapply mem_step_inv.
Qed.

(** C35: the network loses and invents nothing.  After any sequence of sends
    (under any faults), polls, flushes and shutdowns, what was let in for a
    locality - one copy per send, two under [Duplicate], none under [Loss],
    [Disconnect] or a refused send - is exactly, as a multiset, what that
    locality polled, what its shutdown dropped, and what is still queued or
    delayed for it. *)
Theorem network_conserves_parcels count run l fs s0 ds s g i :
  build count run l fs = Ok (s0, ds) -> Z.of_nat count <= usize_max -> limits_ok l ->
  rtc mem_step (s0, mkLog [] [] []) (s, g) ->
  sent_to i (log_sent g) ≡ₚ
    located i (log_got g) ++ located i (log_dropped g) ++ net (delayed s) s i.
Proof. intros Hb Hc Hlim Hr. by apply (run_inv_reachable _ _ _ _ _ _ _ Hb Hc Hlim Hr). Qed.

(** the in-memory transport stays within its limits and never panics.  In
    every reachable state each node's byte counter is the size of what is on
    its way to it and within the budget, data traffic leaves the control
    reserve alone, no channel holds more parcels than allowed, and no call of
    any method can panic. *)
Theorem network_bounded_and_panic_free count run l fs s0 ds s g :
  build count run l fs = Ok (s0, ds) -> Z.of_nat count <= usize_max -> limits_ok l ->
  rtc mem_step (s0, mkLog [] [] []) (s, g) ->
  (forall i n, nodes s !! i = Some n ->
     queued_bytes n = total_bytes (net (delayed s) s i) /\
     queued_bytes n <= max_inflight_bytes_per_peer l /\
     data_bytes (net (delayed s) s i)
       <= max_inflight_bytes_per_peer l - control_reserved_bytes_per_peer l /\
     forall c, len (pc_get (incoming n) c) + pc_get (delayed_counts n) c
       <= max_queued_parcels_per_peer l) /\
  (forall la p, 0 <= la -> 0 <= destination p -> (try_send la p s).1 <> Err Panic) /\
  (forall d i k, local_id d = Z.of_nat i -> (i < length (nodes s))%nat ->
     (progress d k s).1 <> Err Panic /\ (shutdown d k s).1 <> Err Panic) /\
  (forall la k, (flush la k s).1 <> Err Panic).
Proof.
  intros Hb Hc Hlim Hr.
  destruct (run_inv_reachable _ _ _ _ _ _ _ Hb Hc Hlim Hr) as (Hi & Hl & Hn & _). cbn in Hi, Hl, Hn.
  assert (Hnp : forall A (m : SM A) Q R, wp m Q R s -> (m s).1 <> Err Panic).
  { intros A m Q R. unfold wp. by destruct (m s) as [[|[]] ?]. }
  split_and!.
  - intros i n Hni. pose proof (mi_nodes _ _ Hi _ _ Hni) as Hok. rewrite Hl in Hok.
    unfold net. rewrite Hni. pose proof Hok as []. split_and!; [done|done|done|].
    intros c. by rewrite (on_channel_in_net _ _ _ _ c Hok).
  - intros la p Hla Hd. eapply Hnp, try_send_spec; done.
  - intros d i k Hid Hlt. split; [by eapply Hnp, progress_spec|].
    eapply Hnp, shutdown_spec; try done. by rewrite Hl.
  - intros la k. by eapply Hnp, (wp_flush la k s (fun _ _ => True) (fun _ _ => True)).
Qed.

Lemma delayed_to_due t D i :
  Forall (fun d => d_destination d = Z.of_nat i -> release_at d <= t) D ->
  delayed_to (filter (fun d => still_delayed t d = true) D) i = [].
Proof.
  induction 1 as [|d D Hd _ IH]; [done|]. rewrite filter_cons. case_decide as Hs; [|done].
  rewrite delayed_to_cons, IH. rewrite decide_False; [done|]. intros He. specialize (Hd He).
  unfold still_delayed in Hs. zbool. lia.
Qed.

(** nothing stays in the network for ever.  In any reachable state, a
    [flush] that may iterate until the last delayed parcel of its locality is
    due returns, and one [progress] of a running driver whose delayed parcels
    are due at the next tick, with room for everything pending, hands out
    exactly the parcels on their way to it and leaves none behind. *)
Theorem network_delivers count run l fs s0 ds s g d i k :
  build count run l fs = Ok (s0, ds) -> Z.of_nat count <= usize_max -> limits_ok l ->
  rtc mem_step (s0, mkLog [] [] []) (s, g) ->
  in_u 64 (tick s) -> shutdown_done d = false -> local_id d = Z.of_nat i ->
  (i < length (nodes s))%nat ->
  (Forall (fun x => d_destination x = Z.of_nat i -> release_at x <= tick (ticked s)) (delayed s) ->
   (forall n, nodes s !! i = Some n ->
      (length (system n) + length (net (delayed s) s i) <= k)%nat) ->
   exists evs pr s', progress d k s = (Ok (evs, pr), s') /\
     parcels evs ≡ₚ net (delayed s) s i /\ net (delayed s') s' i = []) /\
  (Forall (fun x => source (d_parcel x) = Z.of_nat i ->
                    release_at x <= Z.min u64_max (tick s + 1 + Z.of_nat k)) (delayed s) ->
   exists s', flush (local_id d) k s = (Ok tt, s')).
Proof.
  intros Hb Hc Hlim Hr Ht Hdone Hid Hlt.
  destruct (run_inv_reachable _ _ _ _ _ _ _ Hb Hc Hlim Hr) as (Hi & Hl & Hn & _).
  cbn [fst] in Hi, Hl, Hn. split.
  - intros Hdue Hk. destruct (progress d k s) as [r s'] eqn:E.
    pose proof (wp_eq _ _ _ _ _ _ E (progress_spec d k i s Hi Hid Hlt)) as Hw.
    destruct r as [[evs pr]|[e|]]; [|destruct Hw as [? _]; congruence|done].
    destruct Hw as (_ & _ & _ & _ & Hnet & Hend & (n & n' & Hn0 & Hn' & Hbk) & Hd).
    exists evs, pr, s'. specialize (Hk n Hn0).
    assert (Hnil : net (delayed s') s' i = []).
    { unfold net. rewrite Hn', Hd. unfold in_net. rewrite delayed_to_due by done.
      assert (Hq : queues n' = []); [|by rewrite Hq].
      destruct Hend as [Hlen|(m & Hm & _ & Hq)]; [|congruence].
      apply length_zero_iff_nil. unfold backlog in Hbk. lia. }
    split_and!; [done| |done]. specialize (Hnet i). rewrite decide_True, Hnil, app_nil_r in Hnet by done.
    by symmetry.
  - intros Hdue. rewrite Hid. apply flush_returns; [done| |done]. unfold in_u in Ht. zunfold. lia.
Qed.

(** ** Witnesses: a duplicated send from locality 0, polled by locality 1 *)

Definition sample_net : State := mkState 7 sample_limits 0 1 [Fault_Duplicate] []
  [Node_default; Node_default].
Definition sample_driver : MemoryDriver := mkMemoryDriver 1 false.
Definition sample_msg : Parcel :=
  mkParcel 7 1 Channel_Action ParcelKind_Data 0 1 None [replicate 5 Byte.x2a].
Definition sample_sent : State := (try_send 0 sample_msg sample_net).2.
Definition sample_polled : State := (progress sample_driver 1 sample_sent).2.

Lemma sample_build :
  build 2 7 sample_limits [Fault_Duplicate] =
    Ok (sample_net, [mkMemoryDriver 0 false; mkMemoryDriver 1 false]).
Proof. reflexivity. Defined.

Lemma sample_limits_ok : limits_ok sample_limits.
Proof. vm_compute. repeat split; discriminate. Defined.

Lemma sample_log_sent :
  rtc mem_step (sample_net, mkLog [] [] [])
    (sample_sent, mkLog [sample_msg; sample_msg] [] []).
Proof.
  eapply rtc_l; [|apply rtc_refl].
  apply (step_send sample_net (mkLog [] [] []) 0 sample_msg 1); [lia|discriminate|reflexivity].
Defined.

Lemma sample_log_polled :
  rtc mem_step (sample_net, mkLog [] [] [])
    (sample_polled, mkLog [sample_msg; sample_msg] [(1%nat, sample_msg)] []).
Proof.
  etransitivity; [exact sample_log_sent|]. eapply rtc_l; [|apply rtc_refl].
  apply (step_progress sample_sent (mkLog [sample_msg; sample_msg] [] []) sample_driver 1 1 [Incoming sample_msg] (mkProgress 1 true));
    [reflexivity|apply Nat.ltb_lt; reflexivity|reflexivity].
Defined.

Lemma network_conserves_parcels_witness :
  [sample_msg; sample_msg] ≡ₚ [sample_msg] ++ net (delayed sample_polled) sample_polled 1.
Proof.
  exact (network_conserves_parcels 2 7 sample_limits [Fault_Duplicate] sample_net _ sample_polled _ 1
           sample_build ltac:(vm_compute; discriminate) sample_limits_ok sample_log_polled).
Defined.

Lemma network_bounded_and_panic_free_witness :
  exists n, nodes sample_sent !! 1%nat = Some n /\ queued_bytes n = 10 /\
    queued_bytes n = total_bytes (net (delayed sample_sent) sample_sent 1).
Proof.
  destruct (network_bounded_and_panic_free 2 7 sample_limits [Fault_Duplicate] sample_net _
              sample_sent _ sample_build ltac:(vm_compute; discriminate) sample_limits_ok
              sample_log_sent) as [H _].
  eexists. split; [reflexivity|]. split; [reflexivity|]. exact (proj1 (H 1%nat _ eq_refl)).
Defined.

Lemma network_delivers_witness :
  exists evs pr s', progress sample_driver 3 sample_sent = (Ok (evs, pr), s') /\
    parcels evs ≡ₚ [sample_msg; sample_msg] /\ net (delayed s') s' 1 = [].
Proof.
  destruct (network_delivers 2 7 sample_limits [Fault_Duplicate] sample_net _ sample_sent _
              sample_driver 1 3 sample_build ltac:(vm_compute; discriminate) sample_limits_ok
              sample_log_sent ltac:(vm_compute; split; discriminate || reflexivity) eq_refl eq_refl
              ltac:(apply Nat.ltb_lt; reflexivity)) as [H _].
  apply H; [constructor|]. intros n [= <-]. apply Nat.leb_le. reflexivity.
Defined.
