(* ===== verification/Link.v ===== *)
(** * Link: what the TCP and the MPI transport share

    Models what [crates/hataori-runtime-foundation/src/tcp.rs] and [mpi.rs] have
    in common: the queues between the handles and the driver, the admission of a
    parcel, the events that wait, and the loops of [progress], [flush] and
    [shutdown] around [drive].  The handles and the driver of a transport are
    one [Driver] record; what differs is its [link], a [Backend].  A call of a
    handle is one step (its permit holds the gate). *)
From S2P Require Import Prelude Protocol Transport.

Record Submission : Type := mkSubmission { sub_ticket : SendTicket; sub_parcel : Parcel; sub_reserved : Z }.

(** [queues]: the bounded channels, by [slot]; [attached] until the driver, which
    has their receivers, is dropped; [out]: the vector of the caller. *)
Record Driver (L : Type) : Type := mkDriver {
  d_local : LocalityId; d_run : RunId; members : list LocalityId; d_capabilities : Z; d_limits : ProtocolLimits;
  queues : list (list Submission); attached : bool; waiting : list TransportEvent; shared : SubmissionState;
  failed : option TransportError; shut : bool; out : list TransportEvent; link : L;
}.
Arguments mkDriver {L} _ _ _ _ _ _ _ _ _ _ _ _ _.
Arguments d_local {L} _. Arguments d_run {L} _. Arguments members {L} _. Arguments d_capabilities {L} _.
Arguments d_limits {L} _. Arguments queues {L} _. Arguments attached {L} _. Arguments waiting {L} _.
Arguments shared {L} _. Arguments failed {L} _. Arguments shut {L} _. Arguments out {L} _. Arguments link {L} _.

Section Fields.
Context {L : Type}.
Definition set_queues (x : list (list Submission)) (d : Driver L) : Driver L :=
  mkDriver (d_local d) (d_run d) (members d) (d_capabilities d) (d_limits d) x (attached d) (waiting d) (shared d)
    (failed d) (shut d) (out d) (link d).
Definition set_attached (x : bool) (d : Driver L) : Driver L :=
  mkDriver (d_local d) (d_run d) (members d) (d_capabilities d) (d_limits d) (queues d) x (waiting d) (shared d)
    (failed d) (shut d) (out d) (link d).
Definition set_waiting (x : list TransportEvent) (d : Driver L) : Driver L :=
  mkDriver (d_local d) (d_run d) (members d) (d_capabilities d) (d_limits d) (queues d) (attached d) x (shared d)
    (failed d) (shut d) (out d) (link d).
Definition set_shared (x : SubmissionState) (d : Driver L) : Driver L :=
  mkDriver (d_local d) (d_run d) (members d) (d_capabilities d) (d_limits d) (queues d) (attached d) (waiting d) x
    (failed d) (shut d) (out d) (link d).
Definition set_failed (x : option TransportError) (d : Driver L) : Driver L :=
  mkDriver (d_local d) (d_run d) (members d) (d_capabilities d) (d_limits d) (queues d) (attached d) (waiting d)
    (shared d) x (shut d) (out d) (link d).
Definition set_shut (x : bool) (d : Driver L) : Driver L :=
  mkDriver (d_local d) (d_run d) (members d) (d_capabilities d) (d_limits d) (queues d) (attached d) (waiting d)
    (shared d) (failed d) x (out d) (link d).
Definition set_out (x : list TransportEvent) (d : Driver L) : Driver L :=
  mkDriver (d_local d) (d_run d) (members d) (d_capabilities d) (d_limits d) (queues d) (attached d) (waiting d)
    (shared d) (failed d) (shut d) x (link d).
Definition set_link (x : L) (d : Driver L) : Driver L :=
  mkDriver (d_local d) (d_run d) (members d) (d_capabilities d) (d_limits d) (queues d) (attached d) (waiting d)
    (shared d) (failed d) (shut d) (out d) x.

Abbreviation DM := (M (Driver L) TransportError).

Definition on_shared {A} (m : M SubmissionState TransportError A) : DM A := fun d =>
  let '(r, s) := m (shared d) in (r, set_shared s d).
(** [?] through [From<ProtocolError>]. *)
Definition lift_p {A} (r : PResult A) : DM A := lift (map_err TransportError_Protocol r).

(** [LocalityId] is a [u64], which converts to a 64-bit [usize]. *)
Definition member_index (l : LocalityId) (count : Z) : result TransportError nat :=
  if l <? count then Ok (Z.to_nat l) else Err (TransportError_InvalidDestination l).

(** ** The handle *)

(** What [try_send] checks before it looks at the size: the peer. *)
Definition addressed (p : Parcel) : DM nat :=
  d ← gets id;
  if negb (run_id p =? d_run d) then raise (TransportError_Protocol ProtocolError_RunMismatch) else
  if negb (source p =? d_local d) then raise (TransportError_Peer "parcel source does not match handle") else
  peer ← lift (member_index (destination p) (len (members d)));
  if destination p =? d_local d then raise (TransportError_InvalidDestination (destination p)) else
  lift_p (Parcel_validate p (d_limits d));;
  mret peer.

(** The permit is dropped when the channel refuses the submission. *)
Definition submit (peer : nat) (p : Parcel) (reserved : Z) : DM SendTicket :=
  permit ← on_shared (reserve peer (channel p) reserved);
  d ← gets id;
  let i := slot peer (channel p) in
  match queues d !! i with
  | None => panic
  | Some q =>
      if negb (attached d) then
        on_shared (permit_drop permit);; raise (TransportError_Disconnected (Z.of_nat peer))
      else if len q <? max_queued_parcels_per_peer (d_limits d) then
        modify (set_queues (<[i := q ++ [mkSubmission (permit_ticket permit) p reserved]]> (queues d)));;
        on_shared (permit_commit permit);;
        mret (permit_ticket permit)
      else
        on_shared (permit_drop permit);;
        raise (TransportError_QueueFull (channel p) (max_queued_parcels_per_peer (d_limits d)))
  end.

(** [Receiver::try_recv]. *)
Definition try_recv (i : nat) : DM (option Submission) :=
  d ← gets id;
  match queues d !! i with
  | None => panic
  | Some [] => mret None
  | Some (x :: q) => modify (set_queues (<[i := q]> (queues d)));; mret (Some x)
  end.

(** ** Events *)

Definition push_event (e : TransportEvent) : DM unit := modify (fun d => set_out (out d ++ [e]) d).
(** In the vector while it has room for [max] events since [start], else they
    wait. *)
Definition report (start max : Z) (e : TransportEvent) : DM unit :=
  n ← gets (fun d => len (out d) - start);
  if n <? max then push_event e else modify (fun d => set_waiting (waiting d ++ [e]) d).

(** The loop over [pending_events] at the start of [progress]. *)
Fixpoint hand_out (room : nat) : DM unit :=
  match room with
  | O => mret tt
  | S room =>
      d ← gets id;
      match waiting d with
      | [] => mret tt
      | e :: es => modify (set_waiting es);; push_event e;; hand_out room
      end
  end.

Definition all_channels : list Channel := [Channel_Control; Channel_Action; Channel_Bulk].
Definition peer_indices (d : Driver L) : list nat := seq 0 (length (members d)).
End Fields.
Abbreviation DM L := (M (Driver L) TransportError).

(** What a transport has of its own.  [now] reads the clock, [others] is what
    handles and the network do while the driver waits. *)
Class Backend (L : Type) := mkBackend {
  drive : Z -> DM L bool;
  (** what [fail] does to a stream or a transfer *)
  drain_slot : nat -> Channel -> DM L unit;
  link_empty : Driver L -> bool;
  (** the end of the connections: was there an incomplete frame? *)
  close_link : DM L bool;
  now : DM L Z;
  others : Driver L -> Driver L;
  instant_max : Z;
  flush_name : string;
  partial_frame : string;
}.

Section Loops.
Context {L : Type} `{!Backend L}.
Abbreviation DM := (M (Driver L) TransportError).

Fixpoint drain_queue (peer : nat) (c : Channel) (q : list Submission) : DM unit :=
  match q with
  | [] => mret tt
  | x :: q =>
      d ← gets id;
      modify (set_queues (<[slot peer c := q]> (queues d)));;
      on_shared (release peer c (sub_reserved x));;
      drain_queue peer c q
  end.

Definition fail (error : TransportError) : DM unit :=
  peers ← gets peer_indices;
  for_each (fun peer => for_each (fun c =>
    d ← gets id;
    match queues d !! slot peer c with
    | None => panic
    | Some q => drain_queue peer c q
    end;;
    drain_slot peer c) all_channels) peers;;
  on_shared record_peer_failure;;
  on_shared close;;
  modify (set_failed (Some error)).

(** [if let Err(error) = m { self.fail(error.clone()); return Err(error) }]. *)
Definition or_fail {A} (m : DM A) : DM A := fun d =>
  match m d with
  | (Err (Raise e), d) => (fail e;; raise e) d
  | x => x
  end.

Definition pending_capacity (d : Driver L) : Z :=
  let by_peers := Z.min usize_max (max_queued_parcels_per_peer (d_limits d) * saturating_sub (len (members d)) 1) in
  Z.min usize_max (Z.min usize_max (by_peers * 3) * 2).

Definition outbound_empty (d : Driver L) : bool :=
  link_empty d && (outstanding_count (shared d) =? 0).

Definition progress (max : Z) : DM Progress :=
  d ← gets id;
  if shut d then raise TransportError_Shutdown else
  match failed d with
  | Some error => raise error
  | None =>
      let start := len (out d) in
      hand_out (Z.to_nat max);;
      count ← gets (fun d => len (out d) - start);
      moved ← (if count <? max then or_fail (drive (max - count)) else mret false);
      count ← gets (fun d => len (out d) - start);
      mret (mkProgress count (moved || (0 <? count)))
  end.

(** What [m] adds to the vector of events goes to one of its own. *)
Definition generating {A} (m : DM A) : DM (A * list TransportEvent) := fun d =>
  match m (set_out [] d) with
  | (Ok a, d') => (Ok (a, out d'), set_out (out d) d')
  | (Err e, d') => (Err e, set_out (out d) d')
  end.

(** [None] when the fuel is spent. *)
Fixpoint flush_loop (fuel : nat) (deadline : Z) : DM (option unit) :=
  match fuel with
  | O => mret None
  | S fuel =>
      d ← gets id;
      if outbound_empty d then mret (Some tt) else
      '(_, generated) ← generating (or_fail (drive (pending_capacity d)));
      d ← gets id;
      if pending_capacity d <? len (waiting d) + len generated
      then raise (TransportError_QueueFull Channel_Control (pending_capacity d)) else
      modify (set_waiting (waiting d ++ generated));;
      t ← now;
      if deadline <=? t then raise (TransportError_Timeout flush_name) else
      modify others;;
      flush_loop fuel deadline
  end.

Definition flush (fuel : nat) (timeout : Z) : DM (option unit) :=
  d ← gets id;
  match failed d with
  | Some error => raise error
  | None =>
      t ← now;
      if instant_max <? t + timeout then panic else flush_loop fuel (t + timeout)
  end.

(** The end of [shutdown], once the connections are closed. *)
Definition shut_down (partial : bool) : DM (option unit) :=
  mwhen partial (modify (set_failed (Some (TransportError_Peer partial_frame))));;
  modify (fun d => set_out (out d ++ waiting d) (set_waiting [] d));;
  if partial then
    modify (set_shut true);;
    raise (TransportError_Peer partial_frame)
  else
    push_event ShutdownComplete;;
    on_shared close;;
    modify (set_shut true);;
    mret (Some tt).

Definition shutdown (fuel : nat) (timeout : Z) : DM (option unit) :=
  on_shared close;;
  d ← gets id;
  flushed ← (match failed d with None => flush fuel timeout | Some _ => mret (Some tt) end);
  match flushed with
  | None => mret None
  | Some _ => partial ← close_link; shut_down partial
  end.
End Loops.
