(* ===== verification/LinkRuns.v ===== *)
(** * LinkRuns: the accounts of a transport

    What is reserved at [SubmissionState] is exactly what waits in the channels
    and what the link has taken out of them and not finished. *)
From S2P Require Import Prelude Protocol Transport Link.

Lemma wp_step_ok {S E A} (m : M S E A) Q R s a s' : m s = (Ok a, s') -> Q a s' -> wp m Q R s.
Proof. unfold wp. by intros ->. Qed.

(** ** The ledger by peer and channel *)

Definition at_place (p : nat) (c : Channel) (x : SendPermit) : Prop := permit_peer x = p /\ permit_channel x = c.
#[export] Instance at_place_dec p c x : Decision (at_place p c x).
Proof. unfold at_place. apply _. Defined.

(** The reservations of [s] are those [f] has for every peer and channel. *)
Definition books (n : nat) (l : ProtocolLimits) (s : SubmissionState) (f : nat -> Channel -> list SendPermit) : Prop :=
  exists Led, ledger_inv n l s Led /\ forall p c, (p < n)%nat -> filter (at_place p c) Led ≡ₚ f p c.

Lemma books_same n l s s' f :
  books n l s f -> limits s' = limits s -> counts s' = counts s -> bytes s' = bytes s -> next_ticket s' = next_ticket s ->
  books n l s' f.
Proof. intros (Led & Hled & Hf) Hl Hc Hb Hn. exists Led. split; [|done]. by apply (ledger_inv_same n l s). Qed.
Lemma books_ext n l s f g :
  books n l s f -> (forall p c, (p < n)%nat -> f p c ≡ₚ g p c) -> books n l s g.
Proof. intros (Led & Hled & Hf) Hg. exists Led. split; [done|]. intros p c Hp. by rewrite Hf, Hg. Qed.

Lemma books_new n l : limits_fit l -> books n l (SubmissionState_new n l) (fun _ _ => []).
Proof. intros Hl. exists []. split; [by apply new_ledger_inv|done]. Qed.

Lemma weight_at_slot p c Led : weight (at_slot p c) Led = len (filter (at_place p c) Led).
Proof.
  induction Led as [|x Led IH]; [done|]. rewrite weight_cons, filter_cons, IH. unfold at_slot.
  destruct (decide (at_place p c x)) as [Hx|Hx]; [rewrite decide_True by done; by rewrite len_cons|by rewrite decide_False].
Qed.

Lemma books_count n l s f p c : books n l s f -> (p < n)%nat -> counts s !! slot p c = Some (len (f p c)).
Proof.
  intros (Led & Hled & Hf) Hp. rewrite (li_counts _ _ _ _ Hled p c Hp), weight_at_slot. unfold len. by rewrite Hf.
Qed.
Lemma books_bound n l s f p c : books n l s f -> (p < n)%nat -> len (f p c) <= max_queued_parcels_per_peer l.
Proof.
  intros (Led & Hled & Hf) Hp. pose proof (li_count_bound _ _ _ _ Hled p c) as Hb.
  rewrite weight_at_slot in Hb. unfold len in *. by rewrite Hf in Hb.
Qed.

Lemma sum_Z_zero k : Forall (fun x => 0 <= x) k -> sum_Z k = 0 -> Forall (fun x => x = 0) k.
Proof.
  induction 1 as [|x k Hx Hk IH]; intros Hs; [done|]. change (x + sum_Z k = 0) in Hs.
  assert (0 <= sum_Z k) by (clear IH Hs; induction Hk; [done|]; change (0 <= x0 + sum_Z l); lia).
  constructor; [lia|]. apply IH. lia.
Qed.
(** Nothing is outstanding: nothing is in hand anywhere. *)
Lemma books_empty n l s f p c : books n l s f -> outstanding_count s = 0 -> (p < n)%nat -> f p c = [].
Proof.
  intros Hb Hz Hp. unfold outstanding_count in Hz. apply sum_Z_zero in Hz.
  - pose proof (books_count n l s f p c Hb Hp) as Hc. rewrite Forall_lookup in Hz. apply Hz in Hc. by apply len_zero.
  - apply Forall_lookup. intros i x Hi. destruct Hb as (Led & Hled & Hf).
    assert (Hlt : (i < n * 3)%nat) by (rewrite <-(li_counts_len _ _ _ _ Hled); by eapply lookup_lt_Some).
    assert (exists c, i = slot (i / 3) c) as [c' Hc'].
    { pose proof (Nat.div_mod_eq i 3) as Hdm. pose proof (Nat.mod_upper_bound i 3 ltac:(lia)) as Hm.
      destruct (i mod 3)%nat as [|[|[|]]] eqn:Em; [exists Channel_Control|exists Channel_Action|exists Channel_Bulk|lia];
        unfold slot, channel_index, Channel_code; lia. }
    assert (Hd : (i / 3 < n)%nat) by (apply Nat.Div0.div_lt_upper_bound; lia).
    rewrite Hc' in Hi. rewrite (books_count n l s f (i / 3) c' (ex_intro _ Led (conj Hled Hf)) Hd) in Hi. injection Hi as <-. apply len_nonneg.
Qed.

Lemma books_elem n l s f p c x :
  books n l s f -> (p < n)%nat -> x ∈ f p c -> permit_peer x = p /\ permit_channel x = c /\ 0 <= permit_bytes x.
Proof.
  intros (Led & Hled & Hf) Hp Hx. rewrite <-Hf in Hx by done. apply list_elem_of_filter in Hx as [[Hpeer Hc] Hx].
  split_and!; [done..|]. pose proof (li_entries _ _ _ _ Hled) as He. rewrite Forall_forall in He. by apply He.
Qed.

(** What is reserved goes up by one entry, or down. *)
Definition plus (x : SendPermit) (f : nat -> Channel -> list SendPermit) (p : nat) (c : Channel) : list SendPermit :=
  if decide (at_place p c x) then x :: f p c else f p c.

Lemma books_reserve n l s f p c k :
  books n l s f -> limits_fit l -> (p < n)%nat -> fits l k ->
  wp (reserve p c k)
    (fun x s' => x = mkSendPermit p c k (next_ticket s) /\ books n l s' (plus x f) /\ closed s' = closed s /\
                 next_ticket s' = next_ticket s + 1 /\ len (f p c) < max_queued_parcels_per_peer l)
    (fun _ s' => s' = s) s.
Proof.
  intros (Led & Hled & Hf) Hl Hp Hk. unfold wp. rewrite (reserve_spec n l s Led p c k Hled Hl Hp Hk).
  destruct (reserve_outcome s Led p c k) as [x|e] eqn:Hout; [|done].
  pose proof (reserve_inv n l s Led p c k x Hled Hl Hp Hk Hout) as Hled'.
  assert (Hx : x = mkSendPermit p c k (next_ticket s)).
  { unfold reserve_outcome in Hout. repeat (case_match; try done). by injection Hout as <-. }
  split_and!; [done| |done|done|].
  - exists (x :: Led). split; [done|]. intros p' c' Hp'. rewrite filter_cons. unfold plus.
    case_decide; [by rewrite Hf|by apply Hf].
  - pose proof (li_count_bound _ _ _ _ Hled' p c) as Hb. rewrite weight_at_slot, filter_cons in Hb.
    rewrite decide_True in Hb by by rewrite Hx. rewrite len_cons in Hb. unfold len in *. rewrite Hf in Hb by done. lia.
Qed.

Lemma books_release n l s f x p c k :
  books n l s (plus x f) -> limits_fit l -> x = mkSendPermit p c k (permit_ticket x) -> (p < n)%nat ->
  wp (release p c k)
    (fun _ s' => books n l s' f /\ closed s' = closed s /\ next_ticket s' = next_ticket s) (fun _ _ => False) s.
Proof.
  intros (Led & Hled & Hf) Hl Hx Hp. assert (Hat : at_place p c x) by by rewrite Hx.
  assert (Hin : x ∈ Led).
  { assert (Hin : x ∈ filter (at_place p c) Led); [|by apply list_elem_of_filter in Hin as []].
    rewrite Hf by done. unfold plus. rewrite decide_True by done. left. }
  apply elem_of_Permutation in Hin as [Led' HL].
  destruct (release_live n l s Led Led' x Hled Hl HL) as (s' & Hrel & Hled' & Hc & Hn).
  rewrite Hx in Hrel. cbn [permit_peer permit_channel permit_bytes] in Hrel. unfold wp. rewrite Hrel. split_and!; [|done..].
  exists Led'. split; [done|]. intros p' c' Hp'. specialize (Hf p' c' Hp'). rewrite HL, filter_cons in Hf. unfold plus in Hf.
  case_decide; [|done]. by apply Permutation_cons_inv in Hf.
Qed.

(** ** Layouts determine parcels *)

Definition sendable (l : ProtocolLimits) (p : Parcel) : Prop := parcel_fits p l /\ Parcel_wf p.
Definition wide_limits : ProtocolLimits := mkProtocolLimits usize_max usize_max usize_max usize_max usize_max 1.

(** A parcel a Rust program can hold and send. *)
Definition encodable (p : Parcel) : Prop :=
  Parcel_wf p /\ len (segments p) <= u32_max /\ len (parcel_layout p) <= usize_max.

Lemma encodable_decodes p : encodable p -> decode_parcel (parcel_layout p) wide_limits = Ok p.
Proof.
  intros (Hwf & H32 & Hlen). pose proof (len_parcel_layout p) as Hl. unfold PARCEL_FIXED_BYTES in Hl.
  assert (0 <= payload_size (segments p)) by apply len_nonneg.
  rewrite <-(app_nil_r (parcel_layout p)). rewrite decode_parcel_layout; rewrite ?app_nil_r; try done.
  unfold parcel_fits, PARCEL_FIXED_BYTES. cbn [wide_limits max_segments max_payload_bytes max_frame_bytes].
  pose proof (len_nonneg (segments p)). zunfold. lia.
Qed.
Lemma parcel_layout_inj p q : encodable p -> encodable q -> parcel_layout p = parcel_layout q -> p = q.
Proof.
  intros Hp%encodable_decodes Hq%encodable_decodes Heq. rewrite Heq, Hq in Hp. by injection Hp as <-.
Qed.

Lemma payload_len_encodable p : encodable p -> exists n, Parcel_payload_len p = Ok n.
Proof.
  intros (_ & _ & Hlen). rewrite Parcel_payload_len_spec. rewrite len_parcel_layout in Hlen. unfold PARCEL_FIXED_BYTES in Hlen.
  pose proof (len_nonneg (segments p)). rewrite (proj2 (Z.leb_le _ _)) by lia. by eexists.
Qed.

(** ** The accounts of a driver *)

(** Limits that fit the machine, with a frame and its length. *)
Definition limits_small (l : ProtocolLimits) : Prop :=
  limits_fit l /\ max_inflight_bytes_per_peer l + max_frame_bytes l + 8 <= usize_max /\ max_segments l <= u32_max.

Definition permit_of (p : nat) (c : Channel) (x : Submission) : SendPermit := mkSendPermit p c (sub_reserved x) (sub_ticket x).

(** The parcels among some events. *)
Definition arrivals (es : list TransportEvent) : list Parcel := omap (fun e => match e with Incoming p => Some p | _ => None end) es.
Lemma arrivals_app a b : arrivals (a ++ b) = arrivals a ++ arrivals b.
Proof. apply omap_app. Qed.

Section Accounts.
Context {L : Type} (held : L -> nat -> Channel -> list SendPermit).
Implicit Types (d : Driver L).
Abbreviation DM := (M (Driver L) TransportError).

Definition queue_at (i : nat) d : list Submission := default [] (queues d !! i).
Definition in_hand d (p : nat) (c : Channel) : list SendPermit :=
  (permit_of p c <$> queue_at (slot p c) d) ++ held (link d) p c.

Record accounts d : Prop := {
  ac_small : limits_small (d_limits d);
  ac_local : 0 <= d_local d < len (members d);
  ac_members : members d = Z.of_nat <$> seq 0 (length (members d));
  ac_queues : length (queues d) = (length (members d) * 3)%nat;
  ac_valid : forall i q, queues d !! i = Some q ->
    Forall (fun x => sendable (d_limits d) (sub_parcel x)) q;
  ac_books : books (length (members d)) (d_limits d) (shared d) (in_hand d);
}.

Lemma queue_lookup d p c : accounts d -> (p < length (members d))%nat -> queues d !! slot p c = Some (queue_at (slot p c) d).
Proof.
  intros Ha Hp. unfold queue_at. destruct (queues d !! slot p c) eqn:E; [done|].
  apply lookup_ge_None in E. rewrite (ac_queues _ Ha) in E. pose proof (slot_lt p c _ Hp). lia.
Qed.

Lemma queue_at_insert d i j q : (i < length (queues d))%nat ->
  queue_at j (set_queues (<[i := q]> (queues d)) d) = if decide (i = j) then q else queue_at j d.
Proof.
  intros Hi. unfold queue_at. cbn [queues set_queues]. case_decide as Hij.
  - subst. by rewrite list_lookup_insert_eq.
  - by rewrite list_lookup_insert_ne.
Qed.

(** What a step keeps that does not touch what is reserved. *)
Lemma accounts_same d d' :
  accounts d -> d_limits d' = d_limits d -> d_local d' = d_local d -> members d' = members d -> queues d' = queues d ->
  (forall p c, (p < length (members d))%nat -> held (link d') p c = held (link d) p c) ->
  books (length (members d)) (d_limits d) (shared d') (in_hand d) ->
  accounts d'.
Proof.
  intros [] El Eo Em Eq Eh Hb. split; rewrite ?El, ?Eo, ?Em, ?Eq; try done.
  eapply books_ext; [exact Hb|]. intros p c Hp. unfold in_hand, queue_at. by rewrite Eq, Eh.
Qed.

Lemma accounts_shared d s :
  accounts d -> limits s = limits (shared d) -> counts s = counts (shared d) -> bytes s = bytes (shared d) ->
  next_ticket s = next_ticket (shared d) -> accounts (set_shared s d).
Proof.
  intros Ha ????. apply (accounts_same d); try done. eapply books_same; [by apply ac_books|done..].
Qed.
Lemma accounts_out d x : accounts d -> accounts (set_out x d).
Proof. intros []. by split. Qed.
Lemma accounts_waiting d x : accounts d -> accounts (set_waiting x d).
Proof. intros []. by split. Qed.
Lemma accounts_failed d x : accounts d -> accounts (set_failed x d).
Proof. intros []. by split. Qed.
Lemma accounts_shut d x : accounts d -> accounts (set_shut x d).
Proof. intros []. by split. Qed.

Lemma wp_on_shared {A} (m : M SubmissionState TransportError A) (Q : A -> Driver L -> Prop) (R : TransportError -> Driver L -> Prop) d :
  wp m (fun a s => Q a (set_shared s d)) (fun e s => R e (set_shared s d)) (shared d) -> wp (on_shared m) Q R d.
Proof. unfold wp, on_shared. destruct (m (shared d)) as [[a|[e|]] s]; done. Qed.

Lemma set_shared_id d : set_shared (shared d) d = d.
Proof. by destruct d. Qed.

(** The queue of [p] and [c] becomes [q], and what the link has of theirs [h]. *)
Definition in_place d p c (h : list SendPermit) (p' : nat) (c' : Channel) : list SendPermit :=
  if decide (p' = p /\ c' = c) then h else in_hand d p' c'.
Lemma accounts_move d d' p c q :
  accounts d -> (p < length (members d))%nat ->
  d_limits d' = d_limits d -> d_local d' = d_local d -> members d' = members d ->
  queues d' = <[slot p c := q]> (queues d) ->
  (forall p' c', ~ (p' = p /\ c' = c) -> held (link d') p' c' = held (link d) p' c') ->
  Forall (fun x => sendable (d_limits d) (sub_parcel x)) q ->
  books (length (members d)) (d_limits d) (shared d') (in_place d p c ((permit_of p c <$> q) ++ held (link d') p c)) ->
  accounts d'.
Proof.
  intros Ha Hp El Eo Em Eq Eh Hq Hb. pose proof (ac_queues _ Ha) as Hlen. pose proof (slot_lt p c _ Hp) as Hlt.
  split; rewrite ?El, ?Eo, ?Em, ?Eq; try apply Ha.
  - by rewrite length_insert.
  - intros i q' Hi. destruct (decide (slot p c = i)) as [<-|Hne].
    + rewrite list_lookup_insert_eq in Hi by lia. by injection Hi as <-.
    + rewrite list_lookup_insert_ne in Hi by done. by apply (ac_valid _ Ha i).
  - eapply books_ext; [exact Hb|]. intros p' c' Hp'. unfold in_place, in_hand, queue_at. rewrite Eq. case_decide as Hd.
    + destruct Hd as [-> ->]. by rewrite list_lookup_insert_eq by lia.
    + rewrite Eh by done. rewrite list_lookup_insert_ne; [done|]. intros [-> ->]%slot_inj. by apply Hd.
Qed.

(** A submission is queued with its reservation, or nothing is reserved. *)
Lemma submit_wp peer p k d :
  accounts d -> (peer < length (members d))%nat -> 0 <= k -> max_inflight_bytes_per_peer (d_limits d) + k <= usize_max ->
  parcel_fits p (d_limits d) -> Parcel_wf p ->
  wp (submit peer p k)
    (fun t d' => exists s, d' = set_shared s (set_queues (<[slot peer (channel p) :=
       queue_at (slot peer (channel p)) d ++ [mkSubmission t p k]]> (queues d)) d) /\
       accounts d' /\ t = next_ticket (shared d))
    (fun _ d' => exists s, d' = set_shared s d /\ accounts d') d.
Proof.
  intros Ha Hp Hk Hkm Hfit Hwf. pose proof (ac_small _ Ha) as (Hl & _). unfold submit.
  set (c := channel p). set (i := slot peer c).
  assert (Hi : (i < length (queues d))%nat) by (rewrite (ac_queues _ Ha); by apply slot_lt).
  apply wp_bind, wp_on_shared. eapply wp_mono; [apply books_reserve; [by apply ac_books|done..]| |].
  2: { intros e s ->. exists (shared d). split; [by rewrite set_shared_id|]. by rewrite set_shared_id. }
  intros x s (Hx & Hb & _ & _ & Hlt). apply wp_bind, wp_gets. cbn [id]. fold i.
  change (queues (set_shared s d)) with (queues d). pose proof (queue_lookup d peer c Ha Hp) as Hq. fold i in Hq. rewrite Hq.
  change (attached (set_shared s d)) with (attached d). change (d_limits (set_shared s d)) with (d_limits d).
  assert (Hdrop : forall e, wp (on_shared (permit_drop x);; raise e : DM SendTicket)
     (fun t d' => exists s, d' = set_shared s (set_queues (<[i := queue_at i d ++ [mkSubmission t p k]]> (queues d)) d) /\
       accounts d' /\ t = next_ticket (shared d))
     (fun _ d' => exists s, d' = set_shared s d /\ accounts d') (set_shared s d)).
  { intros e. apply wp_bind, wp_on_shared. unfold permit_drop. rewrite Hx. cbn [permit_peer permit_channel permit_bytes].
    eapply wp_mono; [apply (books_release (length (members d)) (d_limits d) s (in_hand d) x); [done|done| |done]| |done].
    - by rewrite Hx.
    - intros _ s' (Hb' & _). exists s'. split; [done|]. by apply (accounts_same d). }
  destruct (negb (attached d)); [apply Hdrop|]. destruct (len (queue_at i d) <? _) eqn:Hroom; [|apply Hdrop].
  apply wp_bind, wp_modify, wp_bind, wp_on_shared. apply wp_modify. cbn [mret M_ret].
  eexists. rewrite Hx. cbn [permit_ticket permit_bytes]. split; [reflexivity|]. split; [|done].
  apply (accounts_move d _ peer c (queue_at i d ++ [mkSubmission (next_ticket (shared d)) p k])); try done.
  - apply Forall_app. split; [by apply (ac_valid _ Ha i)|by constructor].
  - eapply books_ext; [by eapply books_same|]. intros p' c' Hp'. unfold plus, in_place.
    rewrite Hx. destruct (decide (p' = peer /\ c' = c)) as [[-> ->]|Hne].
    + rewrite decide_True by done. rewrite fmap_app. unfold in_hand. fold i. cbn [fmap list_fmap].
      rewrite <-app_assoc. apply Permutation_middle.
    + rewrite decide_False; [done|]. intros [Hp1 Hc1]. by apply Hne.
Qed.

Lemma books_in_place d p c x q h :
  accounts d -> (p < length (members d))%nat -> in_hand d p c ≡ₚ permit_of p c x :: (permit_of p c <$> q) ++ h ->
  wp (release p c (sub_reserved x))
    (fun _ s' => books (length (members d)) (d_limits d) s' (in_place d p c ((permit_of p c <$> q) ++ h)) /\
                 closed s' = closed (shared d)) (fun _ _ => False) (shared d).
Proof.
  intros Ha Hp Hin. eapply wp_mono; [apply (books_release (length (members d)) (d_limits d) (shared d) (in_place d p c ((permit_of p c <$> q) ++ h)) (permit_of p c x))| |done].
  - eapply books_ext; [by apply ac_books|]. intros p' c' _. unfold plus, in_place, at_place. cbn [permit_of permit_peer permit_channel].
    destruct (decide (p = p' /\ c = c')) as [[<- <-]|Hne]; [by rewrite decide_True|].
    rewrite decide_False; [done|]. intros [-> ->]. by apply Hne.
  - apply (ac_small _ Ha).
  - done.
  - done.
  - intros _ s' (Hb & Hc & _). by split.
Qed.

(** [fail] releases what waits in a channel. *)
Lemma drain_queue_wp p c q d :
  accounts d -> (p < length (members d))%nat -> queue_at (slot p c) d = q ->
  wp (drain_queue p c q)
    (fun _ d' => exists s, d' = set_shared s (set_queues (<[slot p c := []]> (queues d)) d) /\ accounts d') (fun _ _ => False) d.
Proof.
  revert d. induction q as [|x q IH]; intros d Ha Hp Hq; cbn [drain_queue].
  - cbn [mret M_ret]. exists (shared d). split; [|done]. rewrite list_insert_id; [by destruct d|]. by rewrite <-Hq, <-queue_lookup.
  - apply wp_bind, wp_gets. cbn [id]. apply wp_bind, wp_modify, wp_bind, wp_on_shared.
    assert (Hin : in_hand d p c ≡ₚ permit_of p c x :: (permit_of p c <$> q) ++ held (link d) p c)
      by (unfold in_hand; by rewrite Hq).
    eapply wp_mono; [apply (books_in_place d p c x q (held (link d) p c) Ha Hp Hin)| |done].
    intros _ s (Hb & _). set (d1 := set_shared s (set_queues (<[slot p c := q]> (queues d)) d)).
    assert (Hvalid : Forall (fun x => sendable (d_limits d) (sub_parcel x)) q).
    { pose proof (ac_valid _ Ha (slot p c) _ (queue_lookup d p c Ha Hp)) as Hv. rewrite Hq in Hv. by apply Forall_cons in Hv as [_ ?]. }
    assert (Ha1 : accounts d1) by by apply (accounts_move d d1 p c q).
    assert (Hlt : (slot p c < length (queues d))%nat) by (rewrite (ac_queues _ Ha); by apply slot_lt).
    assert (Hq1 : queue_at (slot p c) d1 = q) by (unfold queue_at, d1; cbn [queues set_shared set_queues]; by rewrite list_lookup_insert_eq).
    eapply wp_mono; [by apply (IH d1 Ha1)| |done]. intros _ d' (s' & -> & Ha'). exists s'. split; [|done].
    unfold d1. cbn [queues set_shared set_queues]. rewrite list_insert_insert_eq. done.
Qed.

(** A parcel that may be sent: the peer, and the limits it keeps. *)
Lemma addressed_wp p d :
  accounts d -> Parcel_wf p ->
  wp (addressed p)
    (fun peer d' => d' = d /\ (peer < length (members d))%nat /\ Z.of_nat peer <> d_local d /\ destination p = Z.of_nat peer /\
       run_id p = d_run d /\ source p = d_local d /\ parcel_fits p (d_limits d) /\ limits_ok (d_limits d))
    (fun _ d' => d' = d) d.
Proof.
  intros Ha Hwf. unfold addressed. apply wp_bind, wp_gets. cbn [id].
  destruct (run_id p =? d_run d) eqn:E1; cbn [negb]; [|done]. destruct (source p =? d_local d) eqn:E2; cbn [negb]; [|done].
  zbool. apply wp_bind, wp_lift. unfold member_index. destruct (destination p <? len (members d)) eqn:E3; [|done].
  destruct (destination p =? d_local d) eqn:E4; [done|]. zbool.
  apply wp_bind, wp_lift. pose proof (Parcel_validate_ok p (d_limits d)) as Hv.
  destruct (Parcel_validate p (d_limits d)) as [[]|]; [|done]. cbn [map_err mret M_ret].
  destruct Hv as [Hv _]. destruct (Hv eq_refl) as [Hok Hfit]. unfold len in *.
  assert (0 <= destination p) by (unfold Parcel_wf, in_u in Hwf; lia).
  split_and!; try done; lia.
Qed.
End Accounts.

Lemma sendable_encodable l p : limits_small l -> sendable l p -> encodable p.
Proof.
  intros (_ & _ & Hs) ((Hseg & _ & _ & Hlen) & Hwf). unfold encodable. rewrite len_parcel_layout. split_and!; [done|lia|done].
Qed.
Lemma sendable_encodes l p : limits_small l -> sendable l p -> encode_parcel p l = Ok (parcel_layout p).
Proof.
  intros ((Hok & _) & _ & Hs) (Hfit & Hwf). apply encode_parcel_ok. split_and!; [|done| |done].
  - unfold limits_ok. by rewrite Hok.
  - destruct Hfit as (Hseg & _). lia.
Qed.

(** ** A failure *)

Lemma wp_for_all {A S E} (J : S -> Prop) (f : A -> M S E unit) (l : list A) s :
  (forall x s, x ∈ l -> J s -> wp (f x) (fun _ => J) (fun _ _ => False) s) -> J s ->
  wp (for_each f l) (fun _ => J) (fun _ _ => False) s.
Proof.
  revert s. induction l as [|x l IH]; intros s Hf Hs; [done|]. cbn [for_each]. apply wp_bind.
  eapply wp_mono; [apply Hf; [left|done]| |done]. intros ? s' Hs'. apply IH; [|done]. intros y s0 Hy. apply Hf. by right.
Qed.

Section Fail.
Context {L : Type} `{!Backend L} (held : L -> nat -> Channel -> list SendPermit) (n : nat) (J : Driver L -> Prop).
Hypothesis J_accounts : forall d, J d -> accounts held d /\ length (members d) = n.
Hypothesis J_queue : forall i s d, J d -> accounts held (set_shared s (set_queues (<[i := []]> (queues d)) d)) ->
  J (set_shared s (set_queues (<[i := []]> (queues d)) d)).
Hypothesis J_slot : forall p c d, J d -> (p < n)%nat -> wp (drain_slot p c) (fun _ => J) (fun _ _ => False) d.
Hypothesis J_same : forall d s x, J d -> accounts held (set_failed x (set_shared s d)) -> J (set_failed x (set_shared s d)).

Lemma fail_wp e d :
  J d -> wp (fail e) (fun _ d' => J d' /\ failed d' = Some e /\ closed (shared d') = true) (fun _ _ => False) d.
Proof.
  intros Hd. unfold fail. apply wp_bind, wp_gets. apply wp_bind. eapply wp_mono; [apply (wp_for_all J); [|done]| |done].
  - intros p d1 Hp H1. destruct (J_accounts d Hd) as [_ Hn]. unfold peer_indices in Hp.
    apply list_elem_of_In, in_seq in Hp. apply wp_for_all; [|done].
    intros c d2 _ H2. destruct (J_accounts d2 H2) as [Ha2 Hn2].
    apply wp_bind, wp_gets. cbn [id]. rewrite (queue_lookup held d2 p c Ha2) by lia.
    apply wp_bind. eapply wp_mono; [apply (drain_queue_wp held); [done|lia|done]| |done].
    intros _ d3 (s & -> & Ha3). apply J_slot; [by apply J_queue|lia].
  - intros ? d1 H1. destruct (J_accounts d1 H1) as [Ha1 _].
    apply wp_bind, wp_on_shared, wp_modify, wp_bind, wp_on_shared, wp_modify, wp_modify. split_and!; [|done..].
    match goal with |- J (set_failed ?x (set_shared ?s (set_shared ?s' d1))) =>
      change (J (set_failed x (set_shared s d1))) end.
    apply J_same; [done|]. by apply accounts_failed, accounts_shared.
Qed.
End Fail.
