(* ===== verification/Tcp.v ===== *)
(** * Tcp: one stream per peer and channel

    Models the handle and the driver of
    [crates/hataori-runtime-foundation/src/tcp.rs]: framing, writing and
    reading.  The sockets of the operating system are a
    parameter, [Sockets]; a stream is found by the [slot] of its peer and
    channel.  [Connect] models how the streams come about. *)
From Stdlib Require Import Strings.Byte.
From S2P Require Import Prelude Protocol Transport Link.

Definition LENGTH_BYTES : Z := 8.
Definition BOOTSTRAP_HEADER_BYTES : Z := 13.
Definition IO_CHUNK_BYTES : Z := 64 * 1024.

(** ** The sockets *)

Inductive IoError : Type := WouldBlock | OtherError (message : string).

(** [write] and [read] of the non-blocking stream of a slot; [read n] fills a
    buffer of [n] bytes. *)
Class Sockets (Env : Type) := mkSockets {
  sock_write : nat -> list byte -> Env -> result IoError Z * Env;
  sock_read : nat -> Z -> Env -> result IoError (list byte) * Env;
  sock_shutdown : nat -> Env -> Env;
  sock_now : Env -> Z * Env;
  (** what the network does, and what the handles send, while the driver waits *)
  sock_others : Env -> Env;
  sock_parcels : Env -> list Parcel;
  sock_instant_max : Z;
}.

Record WriteFrame : Type := mkWriteFrame {
  frame_bytes : list byte; frame_offset : Z; frame_ticket : SendTicket; frame_reserved : Z;
}.
Record StreamIo : Type := mkStreamIo { writes : list WriteFrame; read : list byte }.
Record TcpLink (Env : Type) : Type := mkTcpLink { streams : list (option StreamIo); sockets : Env }.
Arguments mkTcpLink {Env} _ _. Arguments streams {Env} _. Arguments sockets {Env} _.

(** ** Framing *)

Definition encode_submission (x : Submission) (l : ProtocolLimits) : result (SendTicket * Z * TransportError) WriteFrame :=
  encoded ← map_err (fun e => (sub_ticket x, sub_reserved x, TransportError_Protocol e)) (encode_parcel (sub_parcel x) l);
  length ← (if len encoded <=? u64_max then Ok (len encoded)
            else Err (sub_ticket x, sub_reserved x, TransportError_ByteLimit usize_max (max_frame_bytes l)));
  Ok (mkWriteFrame (to_le_bytes 8 length ++ encoded) 0 (sub_ticket x) (sub_reserved x)).

(** An iteration of the second loop of [service_read]: the frame at the start of
    the buffer and what follows it, [None] while it is incomplete. *)
Definition next_frame (l : ProtocolLimits) (buffer : list byte) : result TransportError (option (Parcel * list byte)) :=
  if len buffer <? LENGTH_BYTES then Ok None else
  let frame_len := from_le_bytes (take 8 buffer) in
  if max_frame_bytes l <? frame_len then Err (TransportError_ByteLimit frame_len (max_frame_bytes l)) else
  total ← ok_or (checked_add usize_max LENGTH_BYTES frame_len) (TransportError_ByteLimit usize_max (max_frame_bytes l));
  if len buffer <? total then Ok None else
  parcel ← map_err TransportError_Protocol (decode_parcel (slice 8 (Z.to_nat total) buffer) l);
  Ok (Some (parcel, drop (Z.to_nat total) buffer)).

Section Tcp.
Context {Env : Type} `{!Sockets Env}.
Abbreviation TcpDriver := (Driver (TcpLink Env)).
Abbreviation DM := (M TcpDriver TransportError).

Definition set_sockets (e : Env) (d : TcpDriver) : TcpDriver := set_link (mkTcpLink (streams (link d)) e) d.
Definition set_stream (i : nat) (x : StreamIo) (d : TcpDriver) : TcpDriver :=
  set_link (mkTcpLink (<[i := Some x]> (streams (link d))) (sockets (link d))) d.
Definition on_sockets {A} (f : Env -> A * Env) : DM A := fun d =>
  let '(a, e) := f (sockets (link d)) in (Ok a, set_sockets e d).

(** The stream of a peer that is not the locality itself. *)
Definition stream_at (i : nat) : DM StreamIo :=
  found ← gets (fun d : TcpDriver => streams (link d) !! i);
  match found with
  | Some (Some x) => mret x
  | Some None => raise (TransportError_Peer "missing TCP channel")
  | None => panic
  end.
Definition set_writes (w : list WriteFrame) (i : nat) : DM unit :=
  x ← stream_at i; modify (set_stream i (mkStreamIo w (read x))).
Definition set_read (r : list byte) (i : nat) : DM unit :=
  x ← stream_at i; modify (set_stream i (mkStreamIo (writes x) r)).

(** ** The handle *)

Definition try_send (p : Parcel) : DM SendTicket :=
  peer ← addressed p;
  limits ← gets d_limits;
  encoded ← lift_p (Parcel_encoded_len p);
  reserved ← lift (ok_or (checked_add usize_max encoded LENGTH_BYTES)
                     (TransportError_ByteLimit usize_max (max_inflight_bytes_per_peer limits)));
  submit peer p reserved.

(** ** Writing *)

Definition service_write (peer : nat) (c : Channel) : DM bool :=
  let i := slot peer c in
  x ← stream_at i;
  match writes x with
  | [] => mret false
  | frame :: rest =>
      written ← on_sockets (sock_write i (drop (Z.to_nat (frame_offset frame)) (frame_bytes frame)));
      match written with
      | Ok n =>
          if n =? 0 then raise (TransportError_Disconnected (Z.of_nat peer)) else
          let frame := mkWriteFrame (frame_bytes frame) (frame_offset frame + n) (frame_ticket frame) (frame_reserved frame) in
          if frame_offset frame =? len (frame_bytes frame) then
            set_writes rest i;;
            on_shared (release peer c (frame_reserved frame));;
            push_event (LocalSendComplete (frame_ticket frame));;
            mret true
          else set_writes (frame :: rest) i;; mret true
      | Err WouldBlock => mret false
      | Err (OtherError message) => raise (TransportError_Io message)
      end
  end.

(** ** Reading *)

Record ConnectionIdentity : Type := mkConnectionIdentity { id_local : LocalityId; id_peer : LocalityId; id_run : RunId }.

Definition max_retained (l : ProtocolLimits) : result TransportError Z :=
  ok_or (checked_add usize_max (max_frame_bytes l) LENGTH_BYTES)
    (TransportError_ByteLimit usize_max (max_frame_bytes l)).

(** The first loop: read until nothing is there.  Every round adds to a buffer
    that is bounded, so that it ends. *)
Fixpoint read_loop (fuel : nat) (i : nat) (peer : LocalityId) (retained : Z) (moved : bool) : DM bool :=
  match fuel with
  | O => panic
  | S fuel =>
      r ← on_sockets (sock_read i IO_CHUNK_BYTES);
      match r with
      | Ok [] => raise (TransportError_Disconnected peer)
      | Ok chunk =>
          x ← stream_at i;
          if retained <? len (read x) + len chunk
          then raise (TransportError_ByteLimit (len (read x) + len chunk) retained) else
          set_read (read x ++ chunk) i;;
          read_loop fuel i peer retained true
      | Err WouldBlock => mret moved
      | Err (OtherError message) => raise (TransportError_Io message)
      end
  end.

(** The second loop: take complete frames off the buffer while the vector has
    room.  Every round takes at least the length off the buffer. *)
Fixpoint frame_loop (fuel : nat) (i : nat) (identity : ConnectionIdentity) (l : ProtocolLimits) (max_events : Z) : DM unit :=
  match fuel with
  | O => panic
  | S fuel =>
      n ← gets (fun d : TcpDriver => len (out d));
      if max_events <=? n then mret tt else
      x ← stream_at i;
      found ← lift (next_frame l (read x));
      match found with
      | None => mret tt
      | Some (parcel, rest) =>
          set_read rest i;;
          if negb (run_id parcel =? id_run identity)
          then raise (TransportError_Protocol ProtocolError_RunMismatch) else
          if negb (source parcel =? id_peer identity) || negb (destination parcel =? id_local identity)
          then raise (TransportError_Peer "TCP parcel source/destination does not match connection") else
          n ← lift_p (Parcel_payload_len parcel);
          on_shared (record_received n);;
          push_event (Incoming parcel);;
          frame_loop fuel i identity l max_events
      end
  end.

Definition service_read (i : nat) (identity : ConnectionIdentity) (l : ProtocolLimits) (max_events : Z) : DM bool :=
  retained ← lift (max_retained l);
  x ← stream_at i;
  moved ← read_loop (S (Z.to_nat retained)) i (id_peer identity) retained false;
  x ← stream_at i;
  frame_loop (S (length (read x))) i identity l max_events;;
  mret moved.

(** ** The driver *)

(** A submission of the channel becomes a frame. *)
Definition take_submission (peer : nat) (c : Channel) (start max : Z) : DM bool :=
  let i := slot peer c in
  x ← stream_at i;
  l ← gets d_limits;
  if negb (len (writes x) <? max_queued_parcels_per_peer l) then mret false else
  next ← try_recv i;
  match next with
  | None => mret false
  | Some submission =>
      match encode_submission submission l with
      | Ok frame => set_writes (writes x ++ [frame]) i;; mret true
      | Err (ticket, reserved, error) =>
          on_shared (release peer c reserved);;
          report start max (SendFailed ticket error);;
          mret false
      end
  end.

(** The body of the loops of [drive]. *)
Definition visit (peer : nat) (c : Channel) (start max : Z) : DM bool :=
  let i := slot peer c in
  taken ← take_submission peer c start max;
  n ← gets (fun d : TcpDriver => len (out d) - start);
  wrote ← (if n <? max then service_write peer c else mret false);
  d ← gets id;
  let n := len (out d) - start in
  got ← (if n <? max then
           match members d !! peer with
           | None => panic
           | Some id => service_read i (mkConnectionIdentity (d_local d) id (d_run d)) (d_limits d) (len (out d) + (max - n))
           end
         else mret false);
  mret (taken || wrote || got).

(** [moved |= ..] over the streams, by channel and then by peer. *)
Fixpoint visits (l : list (nat * Channel)) (start max : Z) : DM bool :=
  match l with
  | [] => mret false
  | (peer, c) :: l =>
      moved ← visit peer c start max;
      rest ← visits l start max;
      mret (moved || rest)
  end.
Definition others_of (local : nat) (d : TcpDriver) : list (nat * Channel) :=
  all_channels ≫= fun c => (fun peer => (peer, c)) <$> filter (fun peer => peer <> local) (peer_indices d).

Definition tcp_drive (max : Z) : DM bool :=
  d ← gets id;
  local ← lift (member_index (d_local d) (len (members d)));
  visits (others_of local d) (len (out d)) max.

(** What [fail] does to a stream. *)
Fixpoint drain_writes (peer : nat) (c : Channel) (w : list WriteFrame) : DM unit :=
  match w with
  | [] => mret tt
  | frame :: w =>
      set_writes w (slot peer c);;
      on_shared (release peer c (frame_reserved frame));;
      drain_writes peer c w
  end.
Definition tcp_drain_slot (peer : nat) (c : Channel) : DM unit :=
  found ← gets (fun d : TcpDriver => streams (link d) !! slot peer c);
  match found with
  | None => panic
  | Some None => mret tt
  | Some (Some x) => drain_writes peer c (writes x);; set_read [] (slot peer c)
  end.

Definition tcp_link_empty (d : TcpDriver) : bool :=
  let local := Z.to_nat (d_local d) in
  forallb (fun i => (i / 3 =? local)%nat
                    || match streams (link d) !! i with Some (Some x) => bool_decide (writes x = []) | _ => true end)
    (seq 0 (length (streams (link d)))).

(** Was a frame incomplete?  The connections are shut down and the buffers
    emptied. *)
Definition partial_read (d : TcpDriver) : bool :=
  existsb (fun x => match x with Some x => negb (bool_decide (read x = [])) | None => false end) (streams (link d)).
Definition tcp_close_link : DM bool :=
  partial ← gets partial_read;
  modify (fun d => set_link (mkTcpLink (option_map (fun _ => mkStreamIo [] []) <$> streams (link d))
    (foldl (fun e i => match streams (link d) !! i with Some (Some _) => sock_shutdown i e | _ => e end)
       (sockets (link d)) (seq 0 (length (streams (link d)))))) d);;
  mret partial.

Definition tcp_others (d : TcpDriver) : TcpDriver :=
  foldl (fun d p => (try_send p d).2) (set_sockets (sock_others (sockets (link d))) d) (sock_parcels (sockets (link d))).

#[export] Instance tcp_backend : Backend (TcpLink Env) := {|
  drive := tcp_drive; drain_slot := tcp_drain_slot; link_empty := tcp_link_empty; close_link := tcp_close_link;
  now := on_sockets sock_now; others := tcp_others;
  instant_max := sock_instant_max; flush_name := "TCP flush"; partial_frame := "TCP shutdown found a partial frame";
|}.

(** [stats]: the counters of the handles with what is buffered. *)
Definition retained_read (d : TcpDriver) : Z :=
  foldr (fun x n => match x with Some x => len (read x) + n | None => n end) 0 (streams (link d)).
Definition tcp_stats (d : TcpDriver) : option TransportStats :=
  s ← stats (shared d);
  Some (add_pending_event_stats
    (mkTransportStats (submitted_parcels s) (submitted_bytes s) (received_parcels s) (received_bytes s) (queued_control s)
       (queued_action s) (queued_bulk s) (queued_bytes s) (retained_read_bytes s + retained_read d) (retained_write_bytes s)
       (retained_reassembly_bytes s) (peer_failures s) (pending_events s) (pending_event_bytes s)) (waiting d)).

(** The driver [connect] returns, once every channel of every other member is
    connected. *)
Definition tcp_driver (local : nat) (count : nat) (run : RunId) (caps : Z) (l : ProtocolLimits) (e : Env) : TcpDriver :=
  mkDriver (Z.of_nat local) run (Z.of_nat <$> seq 0 count) caps l (replicate (count * 3) []) true []
    (SubmissionState_new count l) None false []
    (mkTcpLink ((fun i => if (i / 3 =? local)%nat then None else Some (mkStreamIo [] [])) <$> seq 0 (count * 3)) e).
End Tcp.
