(* ===== verification/TcpRuns.v ===== *)
(** * TcpRuns: a stream delivers what was sent, in order

    What holds of a TCP transport whatever its handles send and however the
    operating system splits the bytes. *)
From Stdlib Require Import Strings.Byte.
From S2P Require Import Prelude Protocol Transport Link LinkRuns Tcp.

(** What the model relies on of the sockets: [written] is what was put into the
    stream of a slot, [taken] what was got out of it; [write] takes a prefix,
    [read] fills at most its buffer. *)
Class SocketLaws (Env : Type) `{!Sockets Env} := mkSocketLaws {
  written : Env -> nat -> list byte;
  taken : Env -> nat -> list byte;
  sock_write_ok : forall i b e n e', sock_write i b e = (Ok n, e') ->
    0 <= n <= len b /\ taken e' = taken e /\
    forall j, written e' j = if decide (j = i) then written e j ++ take (Z.to_nat n) b else written e j;
  sock_write_err : forall i b e x e', sock_write i b e = (Err x, e') -> written e' = written e /\ taken e' = taken e;
  sock_read_ok : forall i n e b e', sock_read i n e = (Ok b, e') ->
    len b <= n /\ written e' = written e /\
    forall j, taken e' j = if decide (j = i) then taken e j ++ b else taken e j;
  sock_read_err : forall i n e x e', sock_read i n e = (Err x, e') -> written e' = written e /\ taken e' = taken e;
  sock_now_same : forall e, written (sock_now e).2 = written e /\ taken (sock_now e).2 = taken e;
  sock_others_same : forall e, written (sock_others e) = written e /\ taken (sock_others e) = taken e;
  sock_parcels_wf : forall e, Forall Parcel_wf (sock_parcels e);
}.

(** ** Frames *)

Definition frame (p : Parcel) : list byte := to_le_bytes 8 (len (parcel_layout p)) ++ parcel_layout p.
Definition frames (ps : list Parcel) : list byte := ps ≫= frame.

Lemma frames_app a b : frames (a ++ b) = frames a ++ frames b.
Proof. apply bind_app. Qed.
Lemma len_frame p : len (frame p) = 8 + len (parcel_layout p).
Proof. unfold frame. by rewrite len_app, len_to_le_bytes. Qed.

(** A complete frame at the start of the buffer is taken off it. *)
Lemma next_frame_frame l p rest :
  limits_small l -> sendable l p -> next_frame l (frame p ++ rest) = Ok (Some (p, rest)).
Proof.
  intros Hl Hp. pose proof (sendable_encodable l p Hl Hp) as (_ & _ & Hlen). destruct Hp as (Hfit & Hwf).
  pose proof (len_parcel_layout p) as Hlay. pose proof (len_nonneg (parcel_layout p)).
  assert (H8 : length (to_le_bytes 8 (len (parcel_layout p))) = 8%nat) by apply length_to_le_bytes.
  unfold next_frame, frame. rewrite <-!app_assoc. rewrite !len_app, len_to_le_bytes. change (Z.of_nat 8) with 8.
  unfold LENGTH_BYTES. pose proof (len_nonneg rest). rewrite (proj2 (Z.ltb_ge _ _)) by lia.
  rewrite take_app_length' by done. rewrite from_to_le_bytes by (change (256 ^ Z.of_nat 8) with (2 ^ 64); zunfold; lia).
  pose proof Hfit as (_ & _ & Hframe & _). rewrite <-Hlay in Hframe.
  rewrite (proj2 (Z.ltb_ge _ _)) by lia. unfold checked_add. destruct Hl as (Hl & Hbig & Hseg).
  assert (0 <= max_inflight_bytes_per_peer l) by (pose proof (limits_fit_reserved l Hl); destruct Hl as (_ & _ & _ & ? & _); lia).
  rewrite (proj2 (Z.leb_le _ _)) by (zunfold; lia). cbn [ok_or mbind result_bind].
  rewrite (proj2 (Z.ltb_ge _ _)) by lia.
  replace (Z.to_nat (8 + len (parcel_layout p))) with (8 + length (parcel_layout p))%nat by (unfold len; lia).
  replace (slice 8 (8 + length (parcel_layout p)) _) with (parcel_layout p).
  2: { unfold slice. rewrite drop_app_length' by done. replace (8 + length (parcel_layout p) - 8)%nat with (length (parcel_layout p)) by lia.
       by rewrite take_app_length. }
  replace (drop _ _) with rest.
  2: { rewrite app_assoc. rewrite drop_app_length'; [done|]. rewrite length_app, H8. lia. }
  rewrite <-(app_nil_r (parcel_layout p)) at 1. destruct Hl as (Hok & _).
  rewrite decode_parcel_layout; rewrite ?app_nil_r; try done.
  - unfold limits_ok. by rewrite Hok.
  - destruct Hfit as (Hs1 & _). lia.
Qed.

(** What [next_frame] takes off the buffer is a frame. *)
Lemma next_frame_some l buffer p rest :
  next_frame l buffer = Ok (Some (p, rest)) ->
  buffer = frame p ++ rest /\ encodable p /\ parcel_fits p l.
Proof.
  unfold next_frame, LENGTH_BYTES. destruct (len buffer <? 8) eqn:E8; [done|]. zbool.
  set (n := from_le_bytes (take 8 buffer)). destruct (max_frame_bytes l <? n) eqn:En; [done|]. zbool.
  assert (Hlen8 : length (take 8 buffer) = 8%nat) by (rewrite length_take; unfold len in E8; lia).
  pose proof (from_le_bytes_range (take 8 buffer)) as Hn. fold n in Hn. unfold checked_add.
  destruct (8 + n <=? usize_max) eqn:Eu; [|done]. cbn [ok_or mbind result_bind].
  destruct (len buffer <? 8 + n) eqn:Et; [done|]. zbool.
  destruct (decode_parcel _ l) as [q|] eqn:Ed; [|done]. cbn [map_err mbind result_bind]. intros [= -> <-].
  apply decode_parcel_inv in Ed as (Hwf & Hok & Hfit & H32 & Hlay).
  assert (Hsl : length (parcel_layout p) = Z.to_nat n).
  { rewrite <-Hlay. unfold slice. rewrite length_take, length_drop. unfold len in Et. lia. }
  split_and!; [| |done].
  - unfold frame. unfold len. rewrite Hsl, Z2Nat.id by lia. fold n.
    rewrite <-(take_drop 8 buffer) at 1. rewrite <-app_assoc. f_equal.
    + symmetry. by apply to_from_le_bytes'.
    + rewrite <-Hlay. unfold slice. replace (Z.to_nat (8 + n) - 8)%nat with (Z.to_nat n) by lia.
      rewrite <-(take_drop (Z.to_nat n) (drop 8 buffer)) at 1. f_equal. rewrite drop_drop. f_equal. lia.
  - split_and!; [done..|]. destruct Hfit as (_ & _ & _ & Hu). by rewrite len_parcel_layout.
Qed.

(** Streams of frames are read back one way. *)
Lemma frame_prefix p q a b : encodable p -> encodable q -> frame p ++ a = frame q ++ b -> p = q /\ a = b.
Proof.
  intros Hp Hq Heq. unfold frame in Heq. rewrite <-!app_assoc in Heq.
  apply app_inj_1 in Heq as [Hlen Heq]; [|by rewrite !length_to_le_bytes].
  assert (Hl : len (parcel_layout p) = len (parcel_layout q)).
  { destruct Hp as (_ & _ & Hp), Hq as (_ & _ & Hq). pose proof (len_nonneg (parcel_layout p)). pose proof (len_nonneg (parcel_layout q)).
    rewrite <-(from_to_le_bytes 8 (len (parcel_layout p))), <-(from_to_le_bytes 8 (len (parcel_layout q))); [by rewrite Hlen|..];
      change (256 ^ Z.of_nat 8) with (2 ^ 64); zunfold; lia. }
  apply app_inj_1 in Heq as [Hlay ->]; [|unfold len in Hl; lia]. split; [by apply parcel_layout_inj|done].
Qed.
Lemma frames_prefix ps qs a b :
  Forall encodable ps -> Forall encodable qs -> frames ps ++ a = frames qs ++ b ->
  ps `prefix_of` qs \/ qs `prefix_of` ps.
Proof.
  revert qs. induction ps as [|p ps IH]; intros [|q qs] Hps Hqs Heq; [left; apply prefix_nil..|right; apply prefix_nil|].
  apply Forall_cons in Hps as [Hp Hps]. apply Forall_cons in Hqs as [Hq Hqs].
  unfold frames in Heq. cbn [mbind list_bind] in Heq. rewrite <-!app_assoc in Heq.
  apply frame_prefix in Heq as [-> Heq]; [|done..]. destruct (IH qs Hps Hqs Heq) as [Hpre|Hpre]; [left|right]; by apply prefix_cons.
Qed.

Section Runs.
Context {Env : Type} `{!Sockets Env} `{!SocketLaws Env}.
Abbreviation TcpDriver := (Driver (TcpLink Env)).
Abbreviation DM := (M TcpDriver TransportError).
Implicit Types (d : TcpDriver) (H R : nat -> list Parcel).

(** ** What holds of a stream *)

Definition writes_at (i : nat) (k : TcpLink Env) : list WriteFrame :=
  match streams k !! i with Some (Some x) => writes x | _ => [] end.
Definition frame_permit (p : nat) (c : Channel) (f : WriteFrame) : SendPermit :=
  mkSendPermit p c (frame_reserved f) (frame_ticket f).
Definition tcp_held (k : TcpLink Env) (p : nat) (c : Channel) : list SendPermit :=
  frame_permit p c <$> writes_at (slot p c) k.
Abbreviation Accounts := (accounts tcp_held).

(** The first frame may be written in part. *)
Definition begun (w : list WriteFrame) : list byte :=
  match w with [] => [] | f :: _ => take (Z.to_nat (frame_offset f)) (frame_bytes f) end.
Definition writes_ok (w : list WriteFrame) : Prop :=
  match w with
  | [] => True
  | f :: w => 0 <= frame_offset f < len (frame_bytes f) /\ Forall (fun f => frame_offset f = 0) w
  end.

(** [h]: the parcels accepted for the stream; [r]: those it delivered; [q]: those
    still in the channel; [w] and [t]: the bytes written and taken. *)
Record stream_ok (l : ProtocolLimits) (h r : list Parcel) (q : list Submission) (w t : list byte) (x : StreamIo) : Prop := {
  so_sendable : Forall (sendable l) h;
  so_sent : exists done pending, h = done ++ pending ++ (sub_parcel <$> q) /\
    frame_bytes <$> writes x = frame <$> pending /\ w = frames done ++ begun (writes x);
  so_writes : writes_ok (writes x);
  so_encodable : Forall encodable r;
  so_read : t = frames r ++ read x;
  so_retained : len (read x) <= max_frame_bytes l + 8;
}.

Record tcp_inv H R d : Prop := {
  ti_accounts : Accounts d;
  ti_streams : length (streams (link d)) = (length (members d) * 3)%nat;
  ti_local : forall p c, (p < length (members d))%nat -> Z.of_nat p = d_local d -> streams (link d) !! slot p c = Some None;
  ti_stream : forall p c, (p < length (members d))%nat -> Z.of_nat p <> d_local d ->
    exists x, streams (link d) !! slot p c = Some (Some x) /\
      stream_ok (d_limits d) (H (slot p c)) (R (slot p c)) (queue_at (slot p c) d)
        (written (sockets (link d)) (slot p c)) (taken (sockets (link d)) (slot p c)) x;
}.

(** After a failure: what got out is still a prefix of what went in. *)
Record tcp_broken H R d : Prop := {
  tb_accounts : Accounts d;
  tb_streams : length (streams (link d)) = (length (members d) * 3)%nat;
  tb_local : forall p c, (p < length (members d))%nat -> Z.of_nat p = d_local d -> streams (link d) !! slot p c = Some None;
  tb_stream : forall p c, (p < length (members d))%nat -> Z.of_nat p <> d_local d ->
    (exists x, streams (link d) !! slot p c = Some (Some x)) /\
    Forall (sendable (d_limits d)) (H (slot p c)) /\ Forall encodable (R (slot p c)) /\
    written (sockets (link d)) (slot p c) `prefix_of` frames (H (slot p c)) /\
    frames (R (slot p c)) `prefix_of` taken (sockets (link d)) (slot p c);
}.

Lemma begun_prefix w : begun w `prefix_of` concat (frame_bytes <$> w).
Proof. destruct w as [|f w]; [done|]. cbn. apply prefix_app_r. exists (drop (Z.to_nat (frame_offset f)) (frame_bytes f)). by rewrite take_drop. Qed.
Lemma frames_concat ps : frames ps = concat (frame <$> ps).
Proof. induction ps as [|p ps IH]; [done|]. unfold frames in *. cbn. by rewrite IH. Qed.

Lemma stream_ok_prefix l h r q w t x :
  stream_ok l h r q w t x ->
  Forall (sendable l) h /\ Forall encodable r /\ w `prefix_of` frames h /\ frames r `prefix_of` t.
Proof.
  intros [Hs (done & pending & -> & Hf & ->) _ He -> _]. split_and!; [done|done| |by eexists].
  rewrite frames_app. apply prefix_app. rewrite frames_app. apply prefix_app_r.
  rewrite frames_concat, <-Hf. apply begun_prefix.
Qed.
Lemma inv_broken H R d : tcp_inv H R d -> tcp_broken H R d.
Proof.
  intros [Ha Hlen Hl Hs]. split; try done. intros p c Hp Hne. destruct (Hs p c Hp Hne) as (x & Hx & Hok).
  split; [by exists x|]. exact (stream_ok_prefix _ _ _ _ _ _ _ Hok).
Qed.

(** A step that changes the stream of [p] and [c] only. *)
Lemma inv_move H R H' R' d d' p c x :
  tcp_inv H R d -> (p < length (members d))%nat -> Z.of_nat p <> d_local d ->
  Accounts d' -> members d' = members d -> d_local d' = d_local d -> d_limits d' = d_limits d ->
  streams (link d') = <[slot p c := Some x]> (streams (link d)) ->
  (forall i, i <> slot p c -> queue_at i d' = queue_at i d /\ H' i = H i /\ R' i = R i /\
     written (sockets (link d')) i = written (sockets (link d)) i /\ taken (sockets (link d')) i = taken (sockets (link d)) i) ->
  stream_ok (d_limits d) (H' (slot p c)) (R' (slot p c)) (queue_at (slot p c) d')
    (written (sockets (link d')) (slot p c)) (taken (sockets (link d')) (slot p c)) x ->
  tcp_inv H' R' d'.
Proof.
  intros [Ha Hlen Hl Hs] Hp Hne Ha' Em El Elim Es Hi Hx. pose proof (slot_lt p c _ Hp) as Hlt.
  split; rewrite ?Em, ?El, ?Elim, ?Es; [done|by rewrite length_insert| |].
  - intros p' c' Hp' Hl'. rewrite list_lookup_insert_ne; [by apply Hl|]. intros [-> ->]%slot_inj. done.
  - intros p' c' Hp' Hne'. destruct (decide (slot p c = slot p' c')) as [<-|Hd].
    + exists x. split; [apply list_lookup_insert_eq; by rewrite Hlen|done].
    + rewrite list_lookup_insert_ne by done. destruct (Hi (slot p' c')) as (-> & -> & -> & -> & ->); [done|]. by apply Hs.
Qed.

(** A step that changes nothing of the streams. *)
Lemma inv_same H R d d' :
  tcp_inv H R d -> Accounts d' -> members d' = members d -> d_local d' = d_local d -> d_limits d' = d_limits d ->
  streams (link d') = streams (link d) -> queues d' = queues d ->
  (forall i, written (sockets (link d')) i = written (sockets (link d)) i) ->
  (forall i, taken (sockets (link d')) i = taken (sockets (link d)) i) ->
  tcp_inv H R d'.
Proof.
  intros [Ha Hlen Hl Hs] Ha' Em El Elim Es Eq Ew Et. split; rewrite ?Em, ?El, ?Elim, ?Es; try done.
  intros p c Hp Hne. unfold queue_at. rewrite Eq, Ew, Et. by apply Hs.
Qed.
Lemma broken_same H R d d' :
  tcp_broken H R d -> Accounts d' -> members d' = members d -> d_local d' = d_local d -> d_limits d' = d_limits d ->
  streams (link d') = streams (link d) ->
  (forall i, written (sockets (link d')) i = written (sockets (link d)) i) ->
  (forall i, taken (sockets (link d')) i = taken (sockets (link d)) i) ->
  tcp_broken H R d'.
Proof.
  intros [Ha Hlen Hl Hs] Ha' Em El Elim Es Ew Et. split; rewrite ?Em, ?El, ?Elim, ?Es; try done.
  intros p c Hp Hne. rewrite Ew, Et. by apply Hs.
Qed.

(** ** Running the operations on a stream *)

Lemma wp_on_sockets {A} (f : Env -> A * Env) (Q : A -> TcpDriver -> Prop) (R : TransportError -> TcpDriver -> Prop) d :
  (forall a e, f (sockets (link d)) = (a, e) -> Q a (set_sockets e d)) -> wp (on_sockets f) Q R d.
Proof. unfold wp, on_sockets. destruct (f (sockets (link d))) as [a e]. intros Hf. by apply Hf. Qed.
Lemma stream_at_eq i x d : streams (link d) !! i = Some (Some x) -> stream_at i d = (Ok x, d).
Proof. intros Hx. unfold stream_at, mbind, M_bind, gets. by rewrite Hx. Qed.
Lemma set_writes_eq i x w d :
  streams (link d) !! i = Some (Some x) -> set_writes w i d = (Ok tt, set_stream i (mkStreamIo w (read x)) d).
Proof. intros Hx. unfold set_writes, mbind, M_bind. by rewrite (stream_at_eq i x). Qed.
Lemma set_read_eq i x r d :
  streams (link d) !! i = Some (Some x) -> set_read r i d = (Ok tt, set_stream i (mkStreamIo (writes x) r) d).
Proof. intros Hx. unfold set_read, mbind, M_bind. by rewrite (stream_at_eq i x). Qed.

(** What a step of a stream leaves alone. *)
Definition fixed d d' : Prop :=
  d_limits d' = d_limits d /\ members d' = members d /\ d_local d' = d_local d /\ d_run d' = d_run d /\
  failed d' = failed d /\ shut d' = shut d /\ waiting d' = waiting d.

Lemma accounts_stream d d' p c x :
  Accounts d -> length (streams (link d)) = (length (members d) * 3)%nat -> (p < length (members d))%nat -> fixed d d' ->
  queues d' = queues d -> streams (link d') = <[slot p c := Some x]> (streams (link d)) ->
  books (length (members d)) (d_limits d) (shared d')
    (in_place tcp_held d p c ((permit_of p c <$> queue_at (slot p c) d) ++ (frame_permit p c <$> writes x))) ->
  Accounts d'.
Proof.
  intros Ha Hlen Hp (El & Em & Eo & _) Eq Es Hb. pose proof (slot_lt p c _ Hp) as Hlt.
  apply (accounts_move tcp_held d d' p c (queue_at (slot p c) d)); try done.
  - rewrite Eq, list_insert_id; [done|]. by apply (queue_lookup tcp_held).
  - intros p' c' Hne. unfold tcp_held, writes_at. rewrite Es, list_lookup_insert_ne; [done|]. intros [-> ->]%slot_inj. by apply Hne.
  - apply (ac_valid _ _ Ha (slot p c)). by apply (queue_lookup tcp_held).
  - unfold tcp_held at 2, writes_at. rewrite Es, list_lookup_insert_eq by lia. done.
Qed.

Lemma accounts_sockets d e : Accounts d -> Accounts (set_sockets e d).
Proof. intros Ha. apply (accounts_same tcp_held d); try done. exact (ac_books _ _ Ha). Qed.

Lemma in_place_same d p c h p' c' :
  in_hand tcp_held d p c ≡ₚ h -> in_hand tcp_held d p' c' ≡ₚ in_place tcp_held d p c h p' c'.
Proof. intros Hh. unfold in_place. case_decide as E; [by destruct E as [-> ->]|done]. Qed.
Lemma in_hand_stream d p c x :
  streams (link d) !! slot p c = Some (Some x) ->
  in_hand tcp_held d p c = (permit_of p c <$> queue_at (slot p c) d) ++ (frame_permit p c <$> writes x).
Proof. intros Hx. unfold in_hand, tcp_held, writes_at. by rewrite Hx. Qed.

Lemma service_write_wp H R p c d :
  tcp_inv H R d -> (p < length (members d))%nat -> Z.of_nat p <> d_local d ->
  let post d' := tcp_inv H R d' /\ fixed d d' /\ exists new, out d' = out d ++ new /\ Forall (fun e => ~ exists q, e = Incoming q) new in
  wp (service_write p c) (fun _ => post) (fun _ => post) d.
Proof.
  intros Hinv Hp Hne post. destruct (ti_stream _ _ _ Hinv p c Hp Hne) as (x & Hx & Hok).
  assert (Hsame : post d) by (split_and!; [done|done|]; exists []; by rewrite app_nil_r).
  assert (Hsock : forall e, (forall i, written e i = written (sockets (link d)) i) -> (forall i, taken e i = taken (sockets (link d)) i) ->
    post (set_sockets e d)).
  { intros e Hw Ht. split_and!; [|done|exists []; by rewrite app_nil_r].
    apply (inv_same H R d); try done. by apply accounts_sockets, Hinv. }
  unfold service_write. apply wp_bind. eapply wp_step_ok; [by apply stream_at_eq|].
  destruct (writes x) as [|f rest] eqn:Hw; [exact Hsame|]. apply wp_bind, wp_on_sockets. intros w e He.
  destruct w as [n|[|message]].
  2,3: apply sock_write_err in He as [Hw' Ht']; apply Hsock; intros i; by rewrite ?Hw', ?Ht'.
  apply sock_write_ok in He as (Hn & Ht & Hwr). pose proof (so_writes _ _ _ _ _ _ _ Hok) as Hwok. rewrite Hw in Hwok.
  destruct Hwok as [Hoff Hrest]. destruct (so_sent _ _ _ _ _ _ _ Hok) as (done & pending & Hh & Hf & Hwritten).
  rewrite Hw in Hf, Hwritten. destruct pending as [|q pending]; [done|]. cbn [fmap list_fmap] in Hf. injection Hf as Hfq Hf.
  cbn [begun] in Hwritten. destruct (n =? 0) eqn:En.
  { zbool. subst n. apply Hsock; intros i; [|by rewrite Ht]. rewrite Hwr. case_decide; [|done]. by rewrite take_0, app_nil_r. }
  zbool. cbn [frame_offset frame_bytes frame_ticket frame_reserved].
  assert (Hbytes : forall k, written e (slot p c) ++ k = frames done ++ take (Z.to_nat (frame_offset f + n)) (frame_bytes f) ++ k).
  { intros k. rewrite Hwr, decide_True by done. rewrite Hwritten, <-!app_assoc. f_equal. rewrite app_assoc. f_equal.
    rewrite Z2Nat.inj_add by lia. by rewrite take_take_drop. }
  assert (Hlen : len (drop (Z.to_nat (frame_offset f)) (frame_bytes f)) = len (frame_bytes f) - frame_offset f)
    by (unfold len; rewrite length_drop; unfold len in Hoff; lia). rewrite Hlen in Hn.
  destruct (frame_offset f + n =? len (frame_bytes f)) eqn:Efull; zbool.
  - apply wp_bind. eapply wp_step_ok; [by apply set_writes_eq|].
    set (d1 := set_stream (slot p c) (mkStreamIo rest (read x)) (set_sockets e d)).
    apply wp_bind, wp_on_shared.
    eapply wp_mono; [apply (books_release (length (members d)) (d_limits d) (shared d)
      (in_place tcp_held d p c ((permit_of p c <$> queue_at (slot p c) d) ++ (frame_permit p c <$> rest))) (frame_permit p c f))| |done].
    + eapply books_ext; [apply ac_books, Hinv|]. intros p' c' _. unfold plus, in_place, at_place.
      cbn [frame_permit permit_peer permit_channel]. destruct (decide (p = p' /\ c = c')) as [[<- <-]|Hd].
      * rewrite decide_True by done. rewrite (in_hand_stream d p c x Hx), Hw. symmetry. apply Permutation_middle.
      * rewrite decide_False; [done|]. intros [-> ->]. by apply Hd.
    + apply (ac_small _ _ (ti_accounts _ _ _ Hinv)).
    + done.
    + done.
    + intros _ s (Hb & _). apply wp_bind, wp_modify. cbn [mret M_ret].
      set (d2 := set_out (out d ++ [LocalSendComplete (frame_ticket f)]) (set_shared s d1)).
      change (post d2). assert (Hfix : fixed d d2) by done.
      assert (Ha : Accounts d2) by by apply (accounts_stream d d2 p c (mkStreamIo rest (read x))); [apply Hinv|apply Hinv|..].
      split_and!; [|done|exists [LocalSendComplete (frame_ticket f)]; split; [done|]; constructor; [by intros []|done]].
      apply (inv_move H R H R d d2 p c (mkStreamIo rest (read x))); try done.
      * intros i Hi. split_and!; try done; cbn [d2 link set_out set_shared d1 set_stream set_link set_sockets sockets]; [|by rewrite Ht].
        rewrite Hwr, decide_False by done. done.
      * destruct Hok as [Hs _ _ Henc Hread Hret]. split; cbn [writes read]; try done.
        -- exists (done ++ [q]), pending. rewrite Hh, <-app_assoc. split_and!; [done|done|].
           cbn [d2 link set_out set_shared d1 set_stream set_link set_sockets sockets]. rewrite <-(app_nil_r (written e _)), Hbytes.
           rewrite Efull, take_ge by (unfold len; lia). rewrite app_nil_r, frames_app, <-app_assoc. f_equal.
           rewrite Hfq. unfold frames. cbn [mbind list_bind]. rewrite app_nil_r. destruct rest as [|f' rest]; [by rewrite app_nil_r|].
           apply Forall_cons in Hrest as [Hz _]. cbn [begun]. by rewrite Hz, take_0, app_nil_r.
        -- destruct rest as [|f' rest]; [done|]. apply Forall_cons in Hrest as [Hz Hrest]. split; [|done]. rewrite Hz. split; [done|].
           destruct pending as [|q' pending]; [done|]. cbn [fmap list_fmap] in Hf. injection Hf as Hf2 _.
           rewrite Hf2, len_frame. pose proof (len_nonneg (parcel_layout q')). lia.
        -- cbn [d2 link set_out set_shared d1 set_stream set_link set_sockets sockets]. by rewrite Ht.
  - set (f' := mkWriteFrame (frame_bytes f) (frame_offset f + n) (frame_ticket f) (frame_reserved f)).
    apply wp_bind. eapply wp_step_ok; [by apply set_writes_eq|]. cbn [mret M_ret].
    set (d1 := set_stream (slot p c) (mkStreamIo (f' :: rest) (read x)) (set_sockets e d)). change (post d1).
    assert (Ha : Accounts d1).
    { apply (accounts_stream d d1 p c (mkStreamIo (f' :: rest) (read x))); try done; [apply Hinv|apply Hinv|].
      eapply books_ext; [exact (ac_books _ _ (ti_accounts _ _ _ Hinv))|]. intros p' c' _. apply in_place_same.
      rewrite (in_hand_stream d p c x Hx), Hw. done. }
    split_and!; [|done|exists []; by rewrite app_nil_r].
    apply (inv_move H R H R d d1 p c (mkStreamIo (f' :: rest) (read x))); try done.
    + intros i Hi. split_and!; try done; cbn [link d1 set_stream set_link set_sockets sockets]; [|by rewrite Ht].
      rewrite Hwr, decide_False by done. done.
    + destruct Hok as [Hs _ _ Henc Hread Hret]. split; cbn [writes read]; try done.
      * exists done, (q :: pending). split_and!; [done|cbn [fmap list_fmap]; change (frame_bytes f') with (frame_bytes f); by rewrite Hfq, Hf|].
        cbn [link d1 set_stream set_link set_sockets sockets begun]. rewrite <-(app_nil_r (written e _)), Hbytes. by rewrite app_nil_r.
      * split; [cbn [f' frame_offset frame_bytes]; lia|done].
      * cbn [link d1 set_stream set_link set_sockets sockets]. by rewrite Ht.
Qed.

Lemma encode_submission_eq l x :
  limits_small l -> sendable l (sub_parcel x) ->
  encode_submission x l = Ok (mkWriteFrame (frame (sub_parcel x)) 0 (sub_ticket x) (sub_reserved x)).
Proof.
  intros Hl Hx. unfold encode_submission. rewrite (sendable_encodes l) by done. cbn [map_err mbind result_bind].
  destruct (sendable_encodable l _ Hl Hx) as (_ & _ & Hlen). by rewrite (proj2 (Z.leb_le _ _)) by (zunfold; lia).
Qed.
Lemma begun_snoc w f : frame_offset f = 0 -> begun (w ++ [f]) = begun w.
Proof. intros Hf. destruct w as [|g w]; [|done]. cbn. by rewrite Hf, take_0. Qed.
Lemma writes_ok_snoc w f : writes_ok w -> frame_offset f = 0 -> 0 < len (frame_bytes f) -> writes_ok (w ++ [f]).
Proof.
  intros Hw Hf Hlen. destruct w as [|g w]; cbn; [rewrite Hf; split; [lia|done]|]. destruct Hw as [Hg Hw]. split; [done|].
  apply Forall_app. split; [done|by constructor].
Qed.

Lemma take_submission_wp H R p c start max d :
  tcp_inv H R d -> (p < length (members d))%nat -> Z.of_nat p <> d_local d ->
  wp (take_submission p c start max) (fun _ d' => tcp_inv H R d' /\ fixed d d' /\ out d' = out d) (fun _ _ => False) d.
Proof.
  intros Hinv Hp Hne. destruct (ti_stream _ _ _ Hinv p c Hp Hne) as (x & Hx & Hok). pose proof (ti_accounts _ _ _ Hinv) as Ha.
  unfold take_submission. apply wp_bind. eapply wp_step_ok; [by apply stream_at_eq|]. apply wp_bind, wp_gets.
  destruct (negb _); [done|]. apply wp_bind. unfold try_recv. apply wp_bind, wp_gets. cbn [id].
  rewrite (queue_lookup tcp_held d p c Ha Hp). destruct (queue_at (slot p c) d) as [|y q] eqn:Hq; [done|].
  apply wp_bind, wp_modify, wp_ret. set (d0 := set_queues (<[slot p c := q]> (queues d)) d).
  assert (Hvalid : Forall (fun x => sendable (d_limits d) (sub_parcel x)) (y :: q)).
  { rewrite <-Hq. apply (ac_valid _ _ Ha (slot p c)). by apply (queue_lookup tcp_held). }
  apply Forall_cons in Hvalid as [Hy Hvalid]. pose proof (ac_small _ _ Ha) as Hsmall.
  rewrite (encode_submission_eq (d_limits d)) by done.
  set (f := mkWriteFrame (frame (sub_parcel y)) 0 (sub_ticket y) (sub_reserved y)).
  apply wp_bind. eapply wp_step_ok; [by apply (set_writes_eq _ x)|]. cbn [mret M_ret].
  set (d1 := set_stream (slot p c) (mkStreamIo (writes x ++ [f]) (read x)) d0).
  pose proof (slot_lt p c _ Hp) as Hlt.
  assert (Ha1 : Accounts d1).
  { apply (accounts_move tcp_held d d1 p c q); try done.
    - intros p' c' Hd. unfold tcp_held, writes_at. cbn [d1 link set_stream set_link streams d0 set_queues].
      rewrite list_lookup_insert_ne; [done|]. intros [-> ->]%slot_inj. by apply Hd.
    - eapply books_ext; [exact (ac_books _ _ Ha)|]. intros p' c' _. apply in_place_same. rewrite (in_hand_stream d p c x Hx), Hq.
      unfold tcp_held, writes_at. cbn [d1 link set_stream set_link streams d0 set_queues].
      rewrite list_lookup_insert_eq by (rewrite (ti_streams _ _ _ Hinv); lia). cbn [writes]. rewrite fmap_app. cbn [fmap list_fmap].
      rewrite app_assoc. apply Permutation_cons_append. }
  split_and!; [|done|done].
  apply (inv_move H R H R d d1 p c (mkStreamIo (writes x ++ [f]) (read x))); try done.
  - intros i Hi. split_and!; try done. unfold queue_at. cbn [d1 queues set_stream set_link d0 set_queues]. by rewrite list_lookup_insert_ne.
  - assert (Hqd : queue_at (slot p c) d1 = q).
    { unfold queue_at. cbn [d1 queues set_stream set_link d0 set_queues]. rewrite list_lookup_insert_eq; [done|]. rewrite (ac_queues _ _ Ha). lia. }
    rewrite Hqd. destruct Hok as [Hs (done & pending & Hh & Hf & Hwr) Hw Henc Hread Hret].
    split; cbn [writes read]; try done.
    + exists done, (pending ++ [sub_parcel y]). rewrite <-app_assoc. split_and!; [done|by rewrite !fmap_app, Hf|].
      by rewrite begun_snoc.
    + apply writes_ok_snoc; [done|done|]. cbn [f frame_bytes]. rewrite len_frame. pose proof (len_nonneg (parcel_layout (sub_parcel y))). lia.
Qed.

(** ** Reading *)

Definition extend R (i : nat) (ps : list Parcel) : nat -> list Parcel := fun j => if decide (j = i) then R j ++ ps else R j.
Lemma inv_ext H R R' d : (forall i, R' i = R i) -> tcp_inv H R d -> tcp_inv H R' d.
Proof. intros Hr [Ha Hlen Hl Hs]. split; try done. intros p c Hp Hne. rewrite Hr. by apply Hs. Qed.
Lemma broken_ext H R R' d : (forall i, R' i = R i) -> tcp_broken H R d -> tcp_broken H R' d.
Proof. intros Hr [Ha Hlen Hl Hs]. split; try done. intros p c Hp Hne. rewrite Hr. by apply Hs. Qed.
Lemma extend_extend R i a b j : extend R i (a ++ b) j = extend (extend R i a) i b j.
Proof. unfold extend. case_decide; [by rewrite app_assoc|done]. Qed.
Lemma extend_nil R i j : extend R i [] j = R j.
Proof. unfold extend. case_decide; [by rewrite app_nil_r|done]. Qed.

(** Bytes that were taken and are in no buffer any more. *)
Lemma broken_taken H R d e :
  tcp_inv H R d -> written e = written (sockets (link d)) ->
  (forall i, taken (sockets (link d)) i `prefix_of` taken e i) -> tcp_broken H R (set_sockets e d).
Proof.
  intros Hinv Hw Ht. pose proof (inv_broken _ _ _ Hinv) as [Ha Hlen Hl Hs]. split; [by apply accounts_sockets|done|done|].
  intros p c Hp Hne. destruct (Hs p c Hp Hne) as (Hx & Hh & Hr & Hpre & Hpre'). cbn [link set_sockets set_link sockets]. rewrite Hw.
  split_and!; [done..|]. etrans; [exact Hpre'|apply Ht].
Qed.

Lemma read_loop_wp H R p c peer retained fuel moved x d :
  tcp_inv H R d -> (p < length (members d))%nat -> Z.of_nat p <> d_local d -> retained = max_frame_bytes (d_limits d) + 8 ->
  streams (link d) !! slot p c = Some (Some x) -> retained - len (read x) < Z.of_nat fuel ->
  wp (read_loop fuel (slot p c) peer retained moved)
    (fun _ d' => tcp_inv H R d' /\ fixed d d' /\ out d' = out d)
    (fun _ d' => tcp_broken H R d' /\ fixed d d' /\ out d' = out d) d.
Proof.
  revert moved x d. induction fuel as [|fuel IH]; intros moved x d Hinv Hp Hne Hret Hx Hfuel.
  { exfalso. destruct (ti_stream _ _ _ Hinv p c Hp Hne) as (x' & Hx' & Hok). rewrite Hx in Hx'. injection Hx' as <-.
    pose proof (so_retained _ _ _ _ _ _ _ Hok). lia. }
  cbn [read_loop]. apply wp_bind, wp_on_sockets. intros r e He. destruct r as [chunk|[|message]].
  2,3: apply sock_read_err in He as [Hw Ht]; split_and!; try done.
  2: { apply (inv_same H R d); try done; [by apply accounts_sockets, Hinv|..]; intros i; cbn [link set_sockets set_link sockets]; by rewrite ?Hw, ?Ht. }
  2: { apply broken_taken; [done|done|]. intros i. by rewrite Ht. }
  apply sock_read_ok in He as (Hchunk & Hw & Ht).
  assert (Hpre : forall i, taken (sockets (link d)) i `prefix_of` taken e i).
  { intros i. rewrite Ht. case_decide; [by apply prefix_app_r|done]. }
  destruct chunk as [|b chunk]; [split_and!; try done; by apply broken_taken|]. set (ch := b :: chunk) in *.
  apply wp_bind. eapply wp_step_ok; [by apply stream_at_eq|].
  destruct (retained <? len (read x) + len ch) eqn:Elim; [split_and!; try done; by apply broken_taken|]. zbool.
  apply wp_bind. eapply wp_step_ok; [by apply (set_read_eq _ x)|].
  set (d1 := set_stream (slot p c) (mkStreamIo (writes x) (read x ++ ch)) (set_sockets e d)).
  destruct (ti_stream _ _ _ Hinv p c Hp Hne) as (x' & Hx' & Hok). rewrite Hx in Hx'. injection Hx' as <-.
  assert (Hinv1 : tcp_inv H R d1).
  { apply (inv_move H R H R d d1 p c (mkStreamIo (writes x) (read x ++ ch))); try done.
    - apply (accounts_stream d d1 p c (mkStreamIo (writes x) (read x ++ ch))); try done; [apply Hinv|apply Hinv|].
      eapply books_ext; [exact (ac_books _ _ (ti_accounts _ _ _ Hinv))|]. intros p' c' _. apply in_place_same.
      by rewrite (in_hand_stream d p c x Hx).
    - intros i Hi. split_and!; try done; cbn [link d1 set_stream set_link set_sockets sockets]; [by rewrite Hw|].
      by rewrite Ht, decide_False.
    - destruct Hok as [Hs Hsent Hwr Henc Hread Hlen]. split; cbn [writes read link d1 set_stream set_link set_sockets sockets]; try done.
      + by rewrite Hw.
      + by rewrite Ht, decide_True, Hread, <-app_assoc by done.
      + rewrite len_app. lia. }
  assert (Hx1 : streams (link d1) !! slot p c = Some (Some (mkStreamIo (writes x) (read x ++ ch)))).
  { cbn [link d1 set_stream set_link set_sockets streams]. apply list_lookup_insert_eq. by eapply lookup_lt_Some. }
  eapply wp_mono; [apply (IH true (mkStreamIo (writes x) (read x ++ ch)) d1 Hinv1); try done| |].
  - cbn [read]. rewrite len_app. unfold ch. rewrite len_cons. pose proof (len_nonneg chunk). lia.
  - intros _ d' (? & Hf & Ho). by split_and!.
  - intros _ d' (? & Hf & Ho). by split_and!.
Qed.


(** A step of the stream [i] that may deliver: what is new among the events is
    what the stream has delivered. *)
Definition delivers (I : (nat -> list Parcel) -> (nat -> list Parcel) -> TcpDriver -> Prop) H R (i : nat) d d' : Prop :=
  fixed d d' /\ exists new, out d' = out d ++ new /\ I H (extend R i (arrivals new)) d'.

Lemma broken_shrink H R i ps d : tcp_broken H (extend R i ps) d -> tcp_broken H R d.
Proof.
  intros [Ha Hlen Hl Hs]. split; try done. intros p c Hp Hne. destruct (Hs p c Hp Hne) as (Hx & Hh & Hr & Hw & Ht).
  unfold extend in Hr, Ht. case_decide; [|done]. apply Forall_app in Hr as [Hr _]. split_and!; try done.
  rewrite frames_app in Ht. etrans; [|exact Ht]. by apply prefix_app_r.
Qed.

Lemma frame_loop_wp H R p c identity max_events fuel x d :
  tcp_inv H R d -> (p < length (members d))%nat -> Z.of_nat p <> d_local d ->
  streams (link d) !! slot p c = Some (Some x) -> (length (read x) < fuel)%nat ->
  wp (frame_loop fuel (slot p c) identity (d_limits d) max_events)
    (fun _ d' => delivers tcp_inv H R (slot p c) d d')
    (fun _ d' => delivers tcp_broken H R (slot p c) d d') d.
Proof.
  revert R x d. induction fuel as [|fuel IH]; intros R x d Hinv Hp Hne Hx Hfuel; [lia|].
  assert (Hstay : delivers tcp_inv H R (slot p c) d d).
  { split; [done|]. exists []. rewrite app_nil_r. split; [done|]. apply (inv_ext H R); [|done]. intros i. by rewrite extend_nil. }
  cbn [frame_loop]. apply wp_bind, wp_gets. destruct (max_events <=? len (out d)); [done|].
  apply wp_bind. eapply wp_step_ok; [by apply stream_at_eq|]. apply wp_bind, wp_lift.
  destruct (next_frame (d_limits d) (read x)) as [[[q rest]|]|e] eqn:Enext; [|done|].
  2: { split; [done|]. exists []. rewrite app_nil_r. split; [done|]. apply (broken_ext H R); [intros i; by rewrite extend_nil|].
       by apply inv_broken. }
  apply next_frame_some in Enext as (Hread & Henc & Hfit).
  apply wp_bind. eapply wp_step_ok; [by apply (set_read_eq _ x)|].
  set (d1 := set_stream (slot p c) (mkStreamIo (writes x) rest) d).
  destruct (ti_stream _ _ _ Hinv p c Hp Hne) as (x' & Hx' & Hok). rewrite Hx in Hx'. injection Hx' as <-.
  assert (Ha1 : Accounts d1).
  { apply (accounts_stream d d1 p c (mkStreamIo (writes x) rest)); try done; [apply Hinv|apply Hinv|].
    eapply books_ext; [exact (ac_books _ _ (ti_accounts _ _ _ Hinv))|]. intros p' c' _. apply in_place_same.
    by rewrite (in_hand_stream d p c x Hx). }
  assert (Hinv1 : tcp_inv H (extend R (slot p c) [q]) d1).
  { apply (inv_move H R _ _ d d1 p c (mkStreamIo (writes x) rest)); try done.
    - intros i Hi. split_and!; try done. unfold extend. by rewrite decide_False.
    - destruct Hok as [Hs Hsent Hwr Hencs Htaken Hlen]. split; cbn [writes read]; try done.
      + unfold extend. rewrite decide_True by done. apply Forall_app. split; [done|by constructor].
      + unfold extend. rewrite decide_True by done. cbn [link d1 set_stream set_link sockets].
        rewrite Htaken, Hread, frames_app, <-!app_assoc. f_equal. unfold frames. cbn [mbind list_bind]. by rewrite app_nil_r.
      + rewrite Hread, len_app in Hlen. pose proof (len_nonneg (frame q)). lia. }
  assert (Hdrop : delivers tcp_broken H R (slot p c) d d1).
  { split; [done|]. exists []. rewrite app_nil_r. split; [done|]. apply (broken_ext H R); [intros i; by rewrite extend_nil|].
    apply (broken_shrink H R (slot p c) [q]). by apply inv_broken. }
  destruct (negb (run_id q =? id_run identity)); [exact Hdrop|]. destruct (negb _ || negb _); [exact Hdrop|].
  destruct (payload_len_encodable q Henc) as [n Hn]. apply wp_bind, wp_lift. rewrite Hn. cbn [map_err].
  apply wp_bind, wp_on_shared, wp_modify, wp_bind, wp_modify.
  match goal with |- wp _ _ _ ?s => set (d2 := s) end.
  assert (Hinv2 : tcp_inv H (extend R (slot p c) [q]) d2).
  { apply (inv_same H _ d1); try done. apply accounts_out. by apply accounts_shared. }
  assert (Hx2 : streams (link d2) !! slot p c = Some (Some (mkStreamIo (writes x) rest))).
  { cbn. apply list_lookup_insert_eq. by eapply lookup_lt_Some. }
  assert (Hlt : (length rest < fuel)%nat).
  { rewrite Hread in Hfuel. rewrite length_app in Hfuel. pose proof (len_frame q) as Hl. pose proof (len_nonneg (parcel_layout q)).
    unfold len in *. lia. }
  assert (Hout : forall (I : (nat -> list Parcel) -> (nat -> list Parcel) -> TcpDriver -> Prop) d',
    (forall R R' d, (forall i, R' i = R i) -> I H R d -> I H R' d) ->
    delivers I H (extend R (slot p c) [q]) (slot p c) d2 d' -> delivers I H R (slot p c) d d').
  { intros I d' Hext (Hfix & new & Hnew & HI). split; [done|]. exists (Incoming q :: new). split.
    - rewrite Hnew. cbn [d2 out set_out]. by rewrite <-app_assoc.
    - eapply Hext; [|exact HI]. intros j. change (arrivals (Incoming q :: new)) with ([q] ++ arrivals new). apply extend_extend. }
  change (d_limits d) with (d_limits d2).
  eapply wp_mono; [apply (IH (extend R (slot p c) [q]) (mkStreamIo (writes x) rest) d2 Hinv2 Hp Hne Hx2 Hlt)| |].
  - intros ? d' Hd. apply (Hout tcp_inv); [|done]. intros R1 R2 d3 HR HI. by apply (inv_ext H R1).
  - intros ? d' Hd. apply (Hout tcp_broken); [|done]. intros R1 R2 d3 HR HI. by apply (broken_ext H R1).
Qed.

Lemma fixed_trans d d' d'' : fixed d d' -> fixed d' d'' -> fixed d d''.
Proof. unfold fixed. intros (-> & -> & -> & -> & -> & -> & ->). done. Qed.
Lemma arrivals_none es : Forall (fun e => ~ exists q, e = Incoming q) es -> arrivals es = [].
Proof. induction 1 as [|e es He _ IH]; [done|]. destruct e; try done. exfalso. by eauto. Qed.

(** Events before [d] deliver nothing. *)
Lemma delivers_after (I : (nat -> list Parcel) -> (nat -> list Parcel) -> TcpDriver -> Prop) H R i d d1 d' new :
  (forall R R' d, (forall i, R' i = R i) -> I H R d -> I H R' d) ->
  fixed d d1 -> out d1 = out d ++ new -> arrivals new = [] -> delivers I H R i d1 d' -> delivers I H R i d d'.
Proof.
  intros Hext Hf Ho Hn (Hf' & new' & Ho' & HI). split; [by eapply fixed_trans|]. exists (new ++ new').
  split; [by rewrite Ho', Ho, app_assoc|]. eapply Hext; [|exact HI]. intros j. by rewrite arrivals_app, Hn.
Qed.

Lemma service_read_wp H R p c identity max_events d :
  tcp_inv H R d -> (p < length (members d))%nat -> Z.of_nat p <> d_local d ->
  wp (service_read (slot p c) identity (d_limits d) max_events)
    (fun _ d' => delivers tcp_inv H R (slot p c) d d')
    (fun _ d' => delivers tcp_broken H R (slot p c) d d') d.
Proof.
  intros Hinv Hp Hne. destruct (ti_stream _ _ _ Hinv p c Hp Hne) as (x & Hx & Hok).
  unfold service_read. apply wp_bind, wp_lift. unfold max_retained, checked_add, LENGTH_BYTES.
  destruct (ac_small _ _ (ti_accounts _ _ _ Hinv)) as (Hl & Hbig & _).
  assert (0 <= max_inflight_bytes_per_peer (d_limits d))
    by (pose proof (limits_fit_reserved _ Hl); destruct Hl as (_ & _ & _ & ? & _); lia).
  assert (Hframe : PARCEL_FIXED_BYTES <= max_frame_bytes (d_limits d)).
  { apply limits_nonneg_frame. unfold limits_ok. destruct Hl as (Hv & _). by rewrite Hv. }
  unfold PARCEL_FIXED_BYTES in Hframe.
  rewrite (proj2 (Z.leb_le _ _)) by lia. cbn [ok_or].
  apply wp_bind. eapply wp_step_ok; [by apply stream_at_eq|]. apply wp_bind.
  eapply wp_mono; [apply (read_loop_wp H R p c _ _ _ _ x d); try done| |].
  - pose proof (len_nonneg (read x)). lia.
  - intros moved d1 (Hinv1 & Hf1 & Ho1). destruct Hf1 as (El & Em & Eo & Hf1).
    destruct (ti_stream _ _ _ Hinv1 p c) as (x1 & Hx1 & _); [by rewrite Em|by rewrite Eo|].
    apply wp_bind. eapply wp_step_ok; [by apply stream_at_eq|]. apply wp_bind. rewrite <-El.
    eapply wp_mono; [apply (frame_loop_wp H R p c identity max_events _ x1 d1); try done; [by rewrite Em|by rewrite Eo|lia]| |].
    + intros ? d' Hd. apply wp_ret. apply (delivers_after tcp_inv H R _ d d1 d' []); try done; [|by rewrite app_nil_r].
      intros R1 R2 d3 HR HI. by apply (inv_ext H R1).
    + intros ? d' Hd. apply (delivers_after tcp_broken H R _ d d1 d' []); try done; [|by rewrite app_nil_r].
      intros R1 R2 d3 HR HI. by apply (broken_ext H R1).
  - intros ? d1 (Hb & Hf & Ho). split; [done|]. exists []. split; [by rewrite app_nil_r|].
    apply (broken_ext H R); [intros i; by rewrite extend_nil|done].
Qed.

Lemma visit_wp H R p c start max d :
  tcp_inv H R d -> (p < length (members d))%nat -> Z.of_nat p <> d_local d ->
  wp (visit p c start max)
    (fun _ d' => delivers tcp_inv H R (slot p c) d d')
    (fun _ d' => delivers tcp_broken H R (slot p c) d d') d.
Proof.
  intros Hinv Hp Hne. unfold visit. apply wp_bind. eapply wp_mono; [by apply (take_submission_wp H R)| |done].
  intros taken d1 (Hinv1 & Hf1 & Ho1). apply wp_bind, wp_gets, wp_bind. pose proof Hf1 as (El1 & Em1 & Eo1 & _).
  assert (Hw : wp (if len (out d1) - start <? max then service_write p c else mret false)
    (fun _ d2 => tcp_inv H R d2 /\ fixed d d2 /\ exists new, out d2 = out d ++ new /\ arrivals new = [])
    (fun _ d2 => tcp_inv H R d2 /\ fixed d d2 /\ exists new, out d2 = out d ++ new /\ arrivals new = []) d1).
  { destruct (len (out d1) - start <? max).
    - eapply wp_mono; [apply (service_write_wp H R p c d1 Hinv1); [by rewrite Em1|by rewrite Eo1]| |];
        intros ? d2 (Hinv2 & Hf2 & new & Ho2 & Hn2); (split_and!; [done|by eapply fixed_trans|exists new]; rewrite Ho2, Ho1; split; [done|by apply arrivals_none]).
    - apply wp_ret. split_and!; [done|done|]. exists []. by rewrite Ho1, app_nil_r. }
  eapply wp_mono; [exact Hw| |].
  - intros wrote d2 (Hinv2 & Hf2 & new & Ho2 & Hn2). pose proof Hf2 as (El2 & Em2 & Eo2 & _).
    apply wp_bind, wp_gets. cbn [id]. apply wp_bind.
    assert (Hext1 : forall R1 R2 d3, (forall i, R2 i = R1 i) -> tcp_inv H R1 d3 -> tcp_inv H R2 d3)
      by (intros R1 R2 d3 HR; by apply inv_ext).
    assert (Hext2 : forall R1 R2 d3, (forall i, R2 i = R1 i) -> tcp_broken H R1 d3 -> tcp_broken H R2 d3)
      by (intros R1 R2 d3 HR; by apply broken_ext).
    destruct (len (out d2) - start <? max).
    + destruct (members d2 !! p) as [peer|] eqn:Epeer.
      2: { apply lookup_ge_None in Epeer. rewrite Em2 in Epeer. lia. }
      eapply wp_mono; [apply (service_read_wp H R p c _ _ d2 Hinv2); [by rewrite Em2|by rewrite Eo2]| |].
      * intros got d3 Hd. apply wp_ret. by apply (delivers_after tcp_inv H R _ d d2 d3 new).
      * intros e d3 Hd. by apply (delivers_after tcp_broken H R _ d d2 d3 new).
    + apply wp_ret, wp_ret. apply (delivers_after tcp_inv H R _ d d2 d2 new); try done.
      split; [done|]. exists []. split; [by rewrite app_nil_r|]. apply (inv_ext H R); [intros i; by rewrite extend_nil|done].
  - intros e d2 (Hinv2 & Hf2 & new & Ho2 & Hn2). split; [done|]. exists new. split; [done|]. rewrite Hn2.
    apply (broken_ext H R); [intros i; by rewrite extend_nil|]. by apply inv_broken.
Qed.

(** ** A failure *)

(** A broken stream is replaced by another one. *)
Lemma broken_stream H R d d' p c x :
  tcp_broken H R d -> (p < length (members d))%nat -> Z.of_nat p <> d_local d ->
  Accounts d' -> members d' = members d -> d_local d' = d_local d -> d_limits d' = d_limits d ->
  streams (link d') = <[slot p c := Some x]> (streams (link d)) -> sockets (link d') = sockets (link d) ->
  tcp_broken H R d'.
Proof.
  intros [Ha Hlen Hl Hs] Hp Hne Ha' Em El Elim Es Esock. pose proof (slot_lt p c _ Hp) as Hlt.
  split; rewrite ?Em, ?El, ?Elim, ?Es, ?Esock; [done|by rewrite length_insert| |].
  - intros p' c' Hp' Hl'. rewrite list_lookup_insert_ne; [by apply Hl|]. intros [-> ->]%slot_inj. done.
  - intros p' c' Hp' Hne'. destruct (Hs p' c' Hp' Hne') as (Hx & Hrest). split; [|done].
    destruct (decide (slot p c = slot p' c')) as [<-|Hd]; [|by rewrite list_lookup_insert_ne].
    exists x. apply list_lookup_insert_eq. lia.
Qed.

Lemma drain_writes_wp H R p c x d :
  tcp_broken H R d -> (p < length (members d))%nat -> Z.of_nat p <> d_local d -> streams (link d) !! slot p c = Some (Some x) ->
  wp (drain_writes p c (writes x))
    (fun _ d' => tcp_broken H R d' /\ fixed d d' /\ exists x', streams (link d') !! slot p c = Some (Some x') /\ writes x' = [])
    (fun _ _ => False) d.
Proof.
  remember (writes x) as w eqn:Hw. revert x d Hw. induction w as [|f w IH]; intros x d Hw Hb Hp Hne Hx; cbn [drain_writes].
  { apply wp_ret. split_and!; [done|done|]. by exists x. }
  pose proof (slot_lt p c _ Hp) as Hlt. pose proof (tb_accounts _ _ _ Hb) as Ha.
  apply wp_bind. eapply wp_step_ok; [by apply (set_writes_eq _ x)|].
  set (d1 := set_stream (slot p c) (mkStreamIo w (read x)) d). apply wp_bind, wp_on_shared.
  eapply wp_mono; [apply (books_release (length (members d)) (d_limits d) (shared d)
    (in_place tcp_held d p c ((permit_of p c <$> queue_at (slot p c) d) ++ (frame_permit p c <$> w))) (frame_permit p c f))| |done].
  - eapply books_ext; [exact (ac_books _ _ Ha)|]. intros p' c' _. unfold plus, in_place, at_place.
    cbn [frame_permit permit_peer permit_channel]. destruct (decide (p = p' /\ c = c')) as [[<- <-]|Hd].
    + rewrite decide_True by done. rewrite (in_hand_stream d p c x Hx), <-Hw. symmetry. apply Permutation_middle.
    + rewrite decide_False; [done|]. intros [-> ->]. by apply Hd.
  - apply (ac_small _ _ Ha).
  - done.
  - done.
  - intros _ s (Hbooks & _). set (d2 := set_shared s d1).
    assert (Ha2 : Accounts d2) by (apply (accounts_stream d d2 p c (mkStreamIo w (read x))); try done; apply Hb).
    assert (Hb2 : tcp_broken H R d2) by by apply (broken_stream H R d d2 p c (mkStreamIo w (read x))).
    assert (Hx2 : streams (link d2) !! slot p c = Some (Some (mkStreamIo w (read x)))).
    { cbn. apply list_lookup_insert_eq. by eapply lookup_lt_Some. }
    eapply wp_mono; [by apply (IH (mkStreamIo w (read x)) d2)| |done].
    intros _ d' (Hb' & Hf & Hx'). by split_and!.
Qed.

Lemma drain_slot_wp H R n p c d :
  tcp_broken H R d /\ length (members d) = n -> (p < n)%nat ->
  wp (drain_slot p c) (fun _ d' => tcp_broken H R d' /\ length (members d') = n) (fun _ _ => False) d.
Proof.
  intros [Hb <-] Hp. cbn [drain_slot tcp_backend]. unfold tcp_drain_slot. apply wp_bind, wp_gets.
  destruct (decide (Z.of_nat p = d_local d)) as [Hl|Hne]; [by rewrite (tb_local _ _ _ Hb p c Hp Hl)|].
  destruct (tb_stream _ _ _ Hb p c Hp Hne) as ((x & Hx) & _). rewrite Hx. apply wp_bind.
  eapply wp_mono; [by apply (drain_writes_wp H R p c x d)| |done]. intros _ d1 (Hb1 & Hf1 & x1 & Hx1 & Hw1).
  pose proof Hf1 as (El & Em & Eo & _).
  eapply wp_step_ok; [by apply (set_read_eq _ x1)|]. split; [|by rewrite <-Em].
  assert (Hp1 : (p < length (members d1))%nat) by by rewrite Em.
  apply (broken_stream H R d1 _ p c (mkStreamIo (writes x1) [])); try done; [by rewrite Eo|].
  apply (accounts_stream d1 _ p c (mkStreamIo (writes x1) [])); try done; [apply Hb1|apply Hb1|].
  eapply books_ext; [exact (ac_books _ _ (tb_accounts _ _ _ Hb1))|]. intros p' c' _. apply in_place_same.
  by rewrite (in_hand_stream d1 p c x1 Hx1).
Qed.

Lemma tcp_fail_wp H R e d :
  tcp_broken H R d ->
  wp (fail e) (fun _ d' => tcp_broken H R d' /\ failed d' = Some e) (fun _ _ => False) d.
Proof.
  intros Hb. eapply wp_mono; [apply (fail_wp tcp_held (length (members d))
    (fun d' => tcp_broken H R d' /\ length (members d') = length (members d))); [..|by split]| |done].
  - intros d1 [H1 Hn]. split; [apply H1|done].
  - intros i s d1 [H1 Hn] Ha. split; [|done]. by apply (broken_same H R d1).
  - intros p c d1. apply drain_slot_wp.
  - intros d1 s x [H1 Hn] Ha. split; [|done]. by apply (broken_same H R d1).
  - intros _ d' ((H1 & _) & Hf & _). by split.
Qed.

(** ** Sending *)

Lemma try_send_accounts p d :
  Accounts d -> Parcel_wf p ->
  wp (try_send p)
    (fun t d' => exists peer s k, destination p = Z.of_nat peer /\ (peer < length (members d))%nat /\ Z.of_nat peer <> d_local d /\
       sendable (d_limits d) p /\ Accounts d' /\
       d' = set_shared s (set_queues (<[slot peer (channel p) := queue_at (slot peer (channel p)) d ++ [mkSubmission t p k]]> (queues d)) d))
    (fun _ d' => exists s, d' = set_shared s d /\ Accounts d') d.
Proof.
  intros Ha Hwf. assert (Hsame : exists s, d = set_shared s d /\ Accounts d) by (exists (shared d); by rewrite set_shared_id).
  unfold try_send. apply wp_bind. eapply wp_mono; [by apply (addressed_wp tcp_held)| |by intros ? ? ->].
  intros peer d0 (-> & Hp & Hne & Hdest & _ & _ & Hfit & Hok). apply wp_bind, wp_gets, wp_bind, wp_lift.
  destruct (Parcel_encoded_len p) as [n|] eqn:En; [|done]. cbn [map_err]. apply Parcel_encoded_len_ok in En as [En Hn].
  apply wp_bind, wp_lift. unfold checked_add, LENGTH_BYTES. destruct (n + 8 <=? usize_max) eqn:Eu; [|done]. cbn [ok_or]. zbool.
  pose proof (ac_small _ _ Ha) as (_ & Hbig & _). pose proof Hfit as (_ & _ & Hframe & _). rewrite <-En in Hframe.
  assert (0 <= n) by (rewrite En; pose proof (len_nonneg (segments p)); pose proof (len_nonneg (concat (segments p))); unfold PARCEL_FIXED_BYTES, payload_size; lia).
  eapply wp_mono; [apply (submit_wp tcp_held peer p (n + 8) d); try done; lia| |done].
  intros t d' (s & Hd' & Ha' & _). exists peer, s, (n + 8). by split_and!.
Qed.

Definition run_inv (b : bool) H R d : Prop := if b then tcp_inv H R d /\ failed d = None else tcp_broken H R d /\ exists e, failed d = Some e.

(** A parcel is accepted for the stream of its destination and channel. *)
Definition sent_to (p : Parcel) : nat := slot (Z.to_nat (destination p)) (channel p).

Lemma try_send_run b H R p d :
  run_inv b H R d -> Parcel_wf p ->
  wp (try_send p)
    (fun _ d' => run_inv b (extend H (sent_to p) [p]) R d' /\ fixed d d' /\ link d' = link d)
    (fun _ d' => run_inv b H R d' /\ fixed d d' /\ link d' = link d) d.
Proof.
  intros Hinv Hwf. assert (Ha : Accounts d) by (destruct b; apply Hinv).
  eapply wp_mono; [by apply try_send_accounts| |].
  - intros t d' (peer & s & k & Hdest & Hp & Hne & Hsend & Ha' & Hd'). assert (Hi : sent_to p = slot peer (channel p))
      by (unfold sent_to; by rewrite Hdest, Nat2Z.id).
    rewrite Hi. split_and!; [|by rewrite Hd'|by rewrite Hd']. set (i := slot peer (channel p)) in *.
    assert (Hlt : (i < length (queues d))%nat) by (rewrite (ac_queues _ _ Ha); by apply slot_lt).
    destruct b; cbn [run_inv] in *.
    + destruct Hinv as [Hinv Hf]. split; [|by rewrite Hd']. destruct (ti_stream _ _ _ Hinv peer (channel p) Hp Hne) as (x & Hx & Hok).
      assert (Hq : forall j, queue_at j d' = if decide (i = j) then queue_at i d ++ [mkSubmission t p k] else queue_at j d).
      { intros j. rewrite Hd'. unfold queue_at. cbn [queues set_shared set_queues]. case_decide as E; [by rewrite <-E, list_lookup_insert_eq|].
        by rewrite list_lookup_insert_ne. }
      apply (inv_move H R _ R d d' peer (channel p) x); try done; try by rewrite Hd'.
      * rewrite Hd'. cbn [link set_shared set_queues]. symmetry. by apply list_insert_id.
      * intros j Hj. rewrite Hq. fold i in Hj. rewrite decide_False by done. unfold extend. rewrite decide_False by done.
        rewrite Hd'. by split_and!.
      * fold i. rewrite Hq, decide_True by done. unfold extend. rewrite decide_True by done. rewrite Hd'. cbn [link set_shared set_queues].
        destruct Hok as [Hs (done & pending & Hh & Hfr & Hwr) Hw Henc Hread Hret]. split; try done.
        -- apply Forall_app. split; [done|by constructor].
        -- exists done, pending. fold i in Hh. rewrite Hh, fmap_app, <-!app_assoc. by split_and!.
    + destruct Hinv as [[Hb1 Hlen Hl Hs] Hf]. split; [|by rewrite Hd']. split; try (by rewrite Hd'); try done.
      intros p' c' Hp' Hne'. rewrite Hd' in *. cbn [link set_shared set_queues members d_local d_limits] in *.
      destruct (Hs p' c' Hp' Hne') as (Hx & Hh & Hr & Hw & Ht). unfold extend. case_decide as E; [|by split_and!].
      split_and!; [done| |done| |done]; [apply Forall_app; split; [done|by constructor]|].
      rewrite frames_app. by apply prefix_app_r.
  - intros ? d' (s & -> & Ha'). split_and!; [|done|done]. destruct b; cbn [run_inv] in *.
    + destruct Hinv as [Hinv Hf]. split; [|done]. by apply (inv_same H R d).
    + destruct Hinv as [Hb Hf]. split; [|done]. by apply (broken_same H R d).
Qed.

(** ** Runs

    [H]: the parcels accepted for every stream, [R]: those it delivered; [b]: the
    transport has not failed.  Handles send, the driver visits its streams, a
    visit that fails makes the driver fail, and the caller takes events, in any
    order; [progress_run] and [flush_run] show that the methods of the driver are
    made of such steps. *)
Inductive tcp_run : bool -> (nat -> list Parcel) -> (nat -> list Parcel) -> TcpDriver -> Prop :=
| Run_new local count run caps l e :
    limits_small l -> (local < count)%nat -> (forall i, written e i = [] /\ taken e i = []) ->
    tcp_run true (fun _ => []) (fun _ => []) (tcp_driver local count run caps l e)
| Run_send b H R d p t d' :
    tcp_run b H R d -> Parcel_wf p -> try_send p d = (Ok t, d') -> tcp_run b (extend H (sent_to p) [p]) R d'
| Run_refused b H R d p e d' :
    tcp_run b H R d -> Parcel_wf p -> try_send p d = (Err (Raise e), d') -> tcp_run b H R d'
| Run_visit H R d p c start max x d' new :
    tcp_run true H R d -> (p < length (members d))%nat -> Z.of_nat p <> d_local d ->
    visit p c start max d = (Ok x, d') -> out d' = out d ++ new -> tcp_run true H (extend R (slot p c) (arrivals new)) d'
| Run_failure H R d p c start max e d1 new x d' :
    tcp_run true H R d -> (p < length (members d))%nat -> Z.of_nat p <> d_local d ->
    visit p c start max d = (Err (Raise e), d1) -> out d1 = out d ++ new -> fail e d1 = (x, d') ->
    tcp_run false H (extend R (slot p c) (arrivals new)) d'
| Run_events b H R d x y : tcp_run b H R d -> tcp_run b H R (set_out x (set_waiting y d))
| Run_others b H R d e :
    tcp_run b H R d -> written e = written (sockets (link d)) -> taken e = taken (sockets (link d)) ->
    tcp_run b H R (set_sockets e d).

Lemma tcp_driver_inv local count run caps l e :
  limits_small l -> (local < count)%nat -> (forall i, written e i = [] /\ taken e i = []) ->
  run_inv true (fun _ => []) (fun _ => []) (tcp_driver local count run caps l e).
Proof.
  intros Hl Hlt Hio. set (d := tcp_driver local count run caps l e). split; [|done].
  assert (Hn : length (members d) = count) by (cbn; by rewrite length_fmap, length_seq).
  assert (Hstream : forall p c, (p < count)%nat -> streams (link d) !! slot p c =
    Some (if (p =? local)%nat then None else Some (mkStreamIo [] []))).
  { intros p c Hp. cbn [d tcp_driver link streams]. rewrite list_lookup_fmap, lookup_seq_lt by by apply slot_lt. cbn [fmap option_fmap option_map].
    rewrite Nat.add_0_l. replace (slot p c / 3)%nat with p; [done|]. unfold slot, channel_index. apply (Nat.div_unique _ 3 _ (Z.to_nat (Channel_code c))); destruct c; cbn; lia. }
  assert (Hqueue : forall i, queue_at i d = []).
  { intros i. unfold queue_at. cbn [d tcp_driver queues]. destruct (replicate (count * 3) [] !! i) eqn:E; [|done].
    by apply lookup_replicate in E as [-> _]. }
  split; rewrite ?Hn.
  - split; rewrite ?Hn; try done.
    + cbn [d tcp_driver d_local members]. unfold len. rewrite length_fmap, length_seq. lia.
    + cbn [d tcp_driver queues]. by rewrite length_replicate.
    + intros i q Hi. assert (q = []) as -> by (specialize (Hqueue i); unfold queue_at in Hqueue; by rewrite Hi in Hqueue). done.
    + destruct Hl as (Hfit & _). eapply books_ext; [by apply books_new|]. intros p c Hp. unfold in_hand, tcp_held, writes_at.
      rewrite Hqueue, Hstream by done. by destruct (p =? local)%nat.
  - cbn [d tcp_driver link streams]. by rewrite length_fmap, length_seq.
  - intros p c Hp Hloc. rewrite Hstream by done. cbn in Hloc. rewrite (proj2 (Nat.eqb_eq p local)) by lia. done.
  - intros p c Hp Hne. rewrite Hstream by done. cbn in Hne. rewrite (proj2 (Nat.eqb_neq p local)) by lia.
    eexists. split; [done|]. destruct (Hio (slot p c)) as [Hw Ht]. cbn [d tcp_driver link sockets]. rewrite Hw, Ht.
    split; try done.
    + exists [], []. by rewrite Hqueue.
    + destruct Hl as (Hfit & _). cbn [read]. assert (Hframe : PARCEL_FIXED_BYTES <= max_frame_bytes l).
      { apply limits_nonneg_frame. unfold limits_ok. destruct Hfit as (Hv & _). by rewrite Hv. }
      unfold PARCEL_FIXED_BYTES in Hframe. cbn [d tcp_driver d_limits]. unfold len. cbn [length]. lia.
Qed.

Lemma run_invariant b H R d : tcp_run b H R d -> run_inv b H R d.
Proof.
  induction 1 as [local count run caps l e Hl Hlt Hio|b H R d p t d' _ IH Hwf Hs|b H R d p e d' _ IH Hwf Hs
    |H R d p c start max x d' new _ IH Hp Hne Hv Ho|H R d p c start max e d1 new x d' _ IH Hp Hne Hv Ho Hf|b H R d x y _ IH
    |b H R d e _ IH Hw Ht].
  - by apply tcp_driver_inv.
  - pose proof (try_send_run b H R p d IH Hwf) as Hr. unfold wp in Hr. rewrite Hs in Hr. apply Hr.
  - pose proof (try_send_run b H R p d IH Hwf) as Hr. unfold wp in Hr. rewrite Hs in Hr. apply Hr.
  - destruct IH as [IH Hnf]. pose proof (visit_wp H R p c start max d IH Hp Hne) as Hr. unfold wp in Hr. rewrite Hv in Hr.
    destruct Hr as (Hfix & new' & Ho' & Hi). rewrite Ho in Ho'. apply app_inv_head in Ho' as ->.
    split; [done|]. destruct Hfix as (_ & _ & _ & _ & -> & _). done.
  - destruct IH as [IH Hnf]. pose proof (visit_wp H R p c start max d IH Hp Hne) as Hr. unfold wp in Hr. rewrite Hv in Hr.
    destruct Hr as (Hfix & new' & Ho' & Hi). rewrite Ho in Ho'. apply app_inv_head in Ho' as <-.
    pose proof (tcp_fail_wp _ _ e d1 Hi) as Hfw. unfold wp in Hfw. rewrite Hf in Hfw. destruct x as [|[]]; [|done..]. destruct Hfw as [Hb Hfe]. split; [done|by eexists].
  - destruct b; cbn [run_inv] in *.
    + destruct IH as [IH Hnf]. split; [|done]. apply (inv_same H R d); try done. apply accounts_out, accounts_waiting, IH.
    + destruct IH as [IH Hf]. split; [|done]. apply (broken_same H R d); try done. apply accounts_out, accounts_waiting, IH.
  - destruct b; cbn [run_inv] in *.
    + destruct IH as [IH Hnf]. split; [|done]. apply (inv_same H R d); try done; [apply accounts_sockets, IH|..];
        intros i; cbn [link set_sockets set_link sockets]; by rewrite ?Hw, ?Ht.
    + destruct IH as [IH Hf]. split; [|done]. apply (broken_same H R d); try done; [apply accounts_sockets, IH|..];
        intros i; cbn [link set_sockets set_link sockets]; by rewrite ?Hw, ?Ht.
Qed.

(** ** The methods of the driver are runs *)

Lemma run_out b H R d x : tcp_run b H R d -> tcp_run b H R (set_out x d).
Proof. intros Hr. assert (set_out x d = set_out x (set_waiting (waiting d) d)) as -> by by destruct d. by apply Run_events. Qed.
Lemma run_waiting b H R d y : tcp_run b H R d -> tcp_run b H R (set_waiting y d).
Proof. intros Hr. assert (set_waiting y d = set_out (out d) (set_waiting y d)) as -> by by destruct d. by apply Run_events. Qed.

(** The driver is about to fail. *)
Definition failing H (e : TransportError) d : Prop :=
  exists R, tcp_broken H R d /\ forall x d', fail e d = (x, d') -> tcp_run false H R d'.

Lemma visits_run H R l start max d :
  tcp_run true H R d -> Forall (fun pc => (pc.1 < length (members d))%nat /\ Z.of_nat pc.1 <> d_local d) l ->
  wp (visits l start max) (fun _ d' => (exists R', tcp_run true H R' d') /\ fixed d d') (failing H) d.
Proof.
  revert R d. induction l as [|[p c] l IH]; intros R d Hrun Hl; cbn [visits]; [apply wp_ret; split; [by exists R|done]|].
  apply Forall_cons in Hl as [[Hp Hne] Hl]. cbn [fst] in Hp, Hne. apply wp_bind.
  destruct (run_invariant _ _ _ _ Hrun) as [Hinv Hnf]. pose proof (visit_wp H R p c start max d Hinv Hp Hne) as Hv.
  unfold wp at 1. unfold wp in Hv. destruct (visit p c start max d) as [[moved|[e|]] d1] eqn:Evisit; [| |done].
  - destruct Hv as (Hfix & new & Ho & _). apply wp_bind. pose proof Hfix as (El & Em & Eo & _).
    eapply wp_mono; [apply (IH (extend R (slot p c) (arrivals new)) d1)| |].
    + by apply (Run_visit H R d p c start max moved).
    + by rewrite Em, Eo.
    + intros rest d2 (Hr & Hf2). apply wp_ret. split; [done|by eapply fixed_trans].
    + by intros e d2 Hf.
  - destruct Hv as (Hfix & new & Ho & Hb). exists (extend R (slot p c) (arrivals new)). split; [done|].
    intros x d' Hfail. by apply (Run_failure H R d p c start max e d1 new x d').
Qed.

Lemma others_of_valid d :
  Accounts d -> Forall (fun pc => (pc.1 < length (members d))%nat /\ Z.of_nat pc.1 <> d_local d) (others_of (Z.to_nat (d_local d)) d).
Proof.
  intros Ha. pose proof (ac_local _ _ Ha). apply Forall_forall. intros [p c] Hin. unfold others_of in Hin.
  apply list_elem_of_bind in Hin as (c' & Hin & _). apply list_elem_of_fmap in Hin as (p' & [= -> ->] & Hin).
  apply list_elem_of_filter in Hin as [Hne Hin]. unfold peer_indices in Hin. apply list_elem_of_In, in_seq in Hin. cbn [fst]. lia.
Qed.

Lemma drive_run H R max d :
  tcp_run true H R d ->
  wp (or_fail (drive max)) (fun _ d' => exists R', tcp_run true H R' d') (fun _ d' => exists R', tcp_run false H R' d') d.
Proof.
  intros Hrun. destruct (run_invariant _ _ _ _ Hrun) as [Hinv _]. pose proof (ti_accounts _ _ _ Hinv) as Ha.
  assert (Hd : wp (drive max) (fun _ d' => exists R', tcp_run true H R' d') (failing H) d).
  { cbn [drive tcp_backend]. unfold tcp_drive. apply wp_bind, wp_gets. cbn [id]. apply wp_bind, wp_lift.
    unfold member_index. pose proof (ac_local _ _ Ha). rewrite (proj2 (Z.ltb_lt (d_local d) (len (members d)))) by lia.
    eapply wp_mono; [apply (visits_run H R); [done|by apply others_of_valid]| |done]. intros ? d' [Hr _]. exact Hr. }
  unfold wp, or_fail in *. destruct (drive max d) as [[m|[e|]] d1]; [done| |done]. destruct Hd as (R' & Hb & Hf).
  pose proof (tcp_fail_wp H R' e d1 Hb) as Hfw. unfold wp in Hfw. unfold mbind, M_bind.
  destruct (fail e d1) as [[[]|[]] d2] eqn:Efail; [|done..]. exists R'. by apply (Hf (Ok tt)).
Qed.

Lemma hand_out_run b H R k d :
  tcp_run b H R d -> wp (hand_out k) (fun _ d' => tcp_run b H R d' /\ failed d' = failed d) (fun _ _ => False) d.
Proof.
  revert d. induction k as [|k IH]; intros d Hrun; cbn [hand_out]; [by apply wp_ret|].
  apply wp_bind, wp_gets. cbn [id]. destruct (waiting d) as [|e es]; [by apply wp_ret|].
  apply wp_bind, wp_modify, wp_bind, wp_modify. eapply wp_mono; [apply IH; by apply run_out, run_waiting| |done].
  by intros ? d'.
Qed.

Lemma progress_run b H R max d :
  tcp_run b H R d ->
  wp (progress max) (fun _ d' => exists b' R', tcp_run b' H R' d') (fun _ d' => exists b' R', tcp_run b' H R' d') d.
Proof.
  intros Hrun. unfold progress. apply wp_bind, wp_gets. cbn [id]. destruct (shut d); [by exists b, R|].
  destruct (failed d) as [error|] eqn:Ef; [by exists b, R|].
  assert (b = true) as -> by (pose proof (run_invariant _ _ _ _ Hrun) as Hi; destruct b; [done|]; destruct Hi as (_ & e & He); congruence).
  apply wp_bind. eapply wp_mono; [by apply (hand_out_run true H R)| |done]. intros _ d1 [Hrun1 _].
  apply wp_bind, wp_gets, wp_bind.
  assert (Hm : forall n, wp (if n <? max then or_fail (drive (max - n)) else mret false)
     (fun _ d' => exists R', tcp_run true H R' d') (fun _ d' => exists R', tcp_run false H R' d') d1).
  { intros n. destruct (n <? max); [by eapply drive_run|]. apply wp_ret. by exists R. }
  eapply wp_mono; [apply Hm| |].
  - intros moved d2 (R2 & Hrun2). apply wp_bind, wp_gets, wp_ret. by exists true, R2.
  - intros e d2 (R2 & Hrun2). by exists false, R2.
Qed.

Lemma others_run b H R d : tcp_run b H R d -> exists H', tcp_run b H' R (tcp_others d).
Proof.
  intros Hrun. unfold tcp_others. pose proof (sock_parcels_wf (sockets (link d))) as Hwf.
  assert (Hrun1 : tcp_run b H R (set_sockets (sock_others (sockets (link d))) d))
    by (apply Run_others; [done|apply sock_others_same..]).
  revert Hrun1 Hwf. generalize (set_sockets (sock_others (sockets (link d))) d) (sock_parcels (sockets (link d))).
  clear. intros d ps. revert H d. induction ps as [|p ps IH]; intros H d Hrun Hwf; cbn [foldl]; [by exists H|].
  apply Forall_cons in Hwf as [Hp Hwf]. pose proof (try_send_run b H R p d (run_invariant _ _ _ _ Hrun) Hp) as Hs. unfold wp in Hs.
  destruct (try_send p d) as [[t|[e|]] d1] eqn:Et; [| |done].
  - apply (IH (extend H (sent_to p) [p])); [by apply (Run_send b H R d p t)|done].
  - apply (IH H); [by apply (Run_refused b H R d p e)|done].
Qed.

Lemma wp_generating {A} (m : DM A) (Q : A * list TransportEvent -> TcpDriver -> Prop) (R : TransportError -> TcpDriver -> Prop) d :
  wp m (fun a d' => Q (a, out d') (set_out (out d) d')) (fun e d' => R e (set_out (out d) d')) (set_out [] d) ->
  wp (generating m) Q R d.
Proof. unfold wp, generating. by destruct (m (set_out [] d)) as [[a|[e|]] d']. Qed.

Lemma flush_loop_run H R fuel deadline d :
  tcp_run true H R d ->
  wp (flush_loop fuel deadline)
    (fun r d' => exists H' R', tcp_run true H' R' d' /\ (r = Some tt -> outbound_empty d' = true))
    (fun _ d' => exists b H' R', tcp_run b H' R' d') d.
Proof.
  revert H R d. induction fuel as [|fuel IH]; intros H R d Hrun; cbn [flush_loop]; [apply wp_ret; by exists H, R|].
  apply wp_bind, wp_gets. cbn [id]. destruct (outbound_empty d) eqn:Eempty; [apply wp_ret; by exists H, R|].
  apply wp_bind, wp_generating. eapply wp_mono; [apply (drive_run H R); by apply run_out| |].
  - intros moved d1 (R1 & Hrun1). apply wp_bind, wp_gets. cbn [id].
    destruct (pending_capacity _ <? _); [exists true, H, R1; by apply run_out|].
    apply wp_bind, wp_modify, wp_bind. cbn [now tcp_backend]. apply wp_on_sockets. intros t e He.
    match goal with |- context [set_sockets e ?d2] => assert (Hrun2 : tcp_run true H R1 (set_sockets e d2)) end.
    { pose proof (sock_now_same (sockets (link d1))) as [Hw Ht]. cbn [link set_waiting set_out] in He. rewrite He in Hw, Ht.
      apply Run_others; [by apply run_waiting, run_out|done|done]. }
    destruct (deadline <=? t); [by exists true, H, R1|]. apply wp_bind, wp_modify.
    destruct (others_run _ _ _ _ Hrun2) as [H3 Hrun3]. eapply wp_mono; [apply (IH H3 R1); exact Hrun3|done|done].
  - intros e d1 (R1 & Hrun1). exists false, H, R1. by apply run_out.
Qed.

Lemma flush_run b H R fuel timeout d :
  tcp_run b H R d -> (forall e, (sock_now e).1 + timeout <= sock_instant_max) ->
  wp (flush fuel timeout)
    (fun r d' => exists H' R', tcp_run true H' R' d' /\ (r = Some tt -> outbound_empty d' = true))
    (fun _ d' => exists b' H' R', tcp_run b' H' R' d') d.
Proof.
  intros Hrun Htime. unfold flush. apply wp_bind, wp_gets. cbn [id]. destruct (failed d) as [error|] eqn:Ef; [by exists b, H, R|].
  assert (b = true) as -> by (pose proof (run_invariant _ _ _ _ Hrun) as Hi; destruct b; [done|]; destruct Hi as (_ & e & He); congruence).
  apply wp_bind. cbn [now tcp_backend]. apply wp_on_sockets. intros t e He. cbn [instant_max tcp_backend].
  specialize (Htime (sockets (link d))). rewrite He in Htime. cbn [fst] in Htime. rewrite (proj2 (Z.ltb_ge _ _)) by lia.
  eapply wp_mono; [apply (flush_loop_run H R)|done|done].
  pose proof (sock_now_same (sockets (link d))) as [Hw Ht]. rewrite He in Hw, Ht. by apply Run_others.
Qed.

(** ** What holds of every run *)

(** Nothing is in a channel, and everything is written. *)
Lemma empty_written H R d p c :
  tcp_inv H R d -> outbound_empty d = true -> (p < length (members d))%nat -> Z.of_nat p <> d_local d ->
  written (sockets (link d)) (slot p c) = frames (H (slot p c)).
Proof.
  intros Hinv [_ Hz]%andb_true_iff Hp Hne. zbool.
  pose proof (books_empty _ _ _ _ p c (ac_books _ _ (ti_accounts _ _ _ Hinv)) Hz Hp) as Hhand.
  destruct (ti_stream _ _ _ Hinv p c Hp Hne) as (x & Hx & Hok). rewrite (in_hand_stream d p c x Hx) in Hhand.
  apply app_eq_nil in Hhand as [Hq Hw]. apply fmap_nil_inv in Hq, Hw.
  destruct (so_sent _ _ _ _ _ _ _ Hok) as (done & pending & Hh & Hf & ->). rewrite Hw in Hf |- *. rewrite Hh, Hq.
  symmetry in Hf. apply fmap_nil_inv in Hf as ->. cbn [begun fmap list_fmap app]. by rewrite !app_nil_r.
Qed.


(** Frames that were all taken and leave no complete frame are all delivered. *)
Lemma drained_delivered l r h buffer :
  limits_small l -> Forall (sendable l) h -> frames r ++ buffer = frames h -> r `prefix_of` h ->
  next_frame l buffer = Ok None -> r = h.
Proof.
  intros Hl Hh Heq [k ->] Hn. rewrite frames_app in Heq. apply app_inv_head in Heq as ->.
  apply Forall_app in Hh as [_ Hk]. destruct k as [|p k]; [by rewrite app_nil_r|]. apply Forall_cons in Hk as [Hp _].
  unfold frames in Hn. cbn [mbind list_bind] in Hn. by rewrite (next_frame_frame l p) in Hn.
Qed.

End Runs.

(** ** Examples

    Sockets that take what is written, and give what they were given: [None] is a
    pause. *)
Record ExSockets : Type := mkExSockets {
  ex_input : nat -> list (option (list byte)); ex_written : nat -> list byte; ex_taken : nat -> list byte; ex_time : Z;
}.
Definition at_slot {A} (i : nat) (x : A) (f : nat -> A) : nat -> A := fun j => if decide (j = i) then x else f j.
#[export] Instance ex_sockets : Sockets ExSockets := {|
  sock_write i b e := (Ok (len b), mkExSockets (ex_input e) (at_slot i (ex_written e i ++ b) (ex_written e)) (ex_taken e) (ex_time e));
  sock_read i n e :=
    match ex_input e i with
    | [] => (Err WouldBlock, e)
    | None :: rest => (Err WouldBlock, mkExSockets (at_slot i rest (ex_input e)) (ex_written e) (ex_taken e) (ex_time e))
    | Some b :: rest =>
        if len b <=? n then
          (Ok b, mkExSockets (at_slot i rest (ex_input e)) (ex_written e) (at_slot i (ex_taken e i ++ b) (ex_taken e)) (ex_time e))
        else (Err (OtherError "too much"), e)
    end;
  sock_shutdown _ e := e;
  sock_now e := (ex_time e, mkExSockets (ex_input e) (ex_written e) (ex_taken e) (ex_time e + 1));
  sock_others e := e;
  sock_parcels _ := [];
  sock_instant_max := u64_max;
|}.
#[export] Instance ex_socket_laws : SocketLaws ExSockets.
Proof.
  refine {| written := ex_written; taken := ex_taken |}; try done.
  - intros i b e n e' [= <- <-]. split_and!; [apply len_nonneg|done|done|]. intros j. cbn [ex_written]. unfold at_slot.
    case_decide as E; [|done]. rewrite E, take_ge; [done|]. unfold len. lia.
  - intros i n e b e'. unfold sock_read, ex_sockets. destruct (ex_input e i) as [|[c|] rest]; [done| |done].
    destruct (len c <=? n) eqn:El; [|done]. intros [= <- <-]. zbool. split_and!; [done|done|]. intros j. cbn [ex_taken]. unfold at_slot.
    case_decide as E; [by rewrite E|done].
  - intros i n e x e'. unfold sock_read, ex_sockets. destruct (ex_input e i) as [|[c|] rest]; [by intros [= <- <-]| |by intros [= <- <-]].
    destruct (len c <=? n); [done|by intros [= <- <-]].
Defined.

(** Two localities, frames of at most 120 bytes. *)
Definition ex_tcp_limits : ProtocolLimits := mkProtocolLimits 120 20 4 4 1000 16.
Definition ex_hello (n : Z) : Parcel := mkParcel 1 n Channel_Action ParcelKind_Data 0 1 None [to_le_bytes 8 n].
Definition ex_silent : ExSockets := mkExSockets (fun _ => []) (fun _ => []) (fun _ => []) 0.
Definition ex_stream : nat := slot 0 Channel_Action.
Definition ex_hears (chunks : list (option (list byte))) : ExSockets :=
  mkExSockets (at_slot ex_stream chunks (fun _ => [])) (fun _ => []) (fun _ => []) 0.
Definition ex_sender : Driver (TcpLink ExSockets) := (try_send (ex_hello 5) (tcp_driver 0 2 1 0 ex_tcp_limits ex_silent)).2.
Definition ex_wrote : Driver (TcpLink ExSockets) := (visit 1 Channel_Action 0 8 ex_sender).2.
Definition ex_receiver (chunks : list (option (list byte))) : Driver (TcpLink ExSockets) :=
  tcp_driver 1 2 1 0 ex_tcp_limits (ex_hears chunks).

Example ex_written_frame : written (sockets (link ex_wrote)) (slot 1 Channel_Action) = frame (ex_hello 5).
Proof. vm_compute. reflexivity. Qed.

(** A frame that arrives in two parts is delivered. *)
Definition ex_parts : list (option (list byte)) := [Some (take 50 (frame (ex_hello 5))); None; Some (drop 50 (frame (ex_hello 5)))].
Definition ex_half : Driver (TcpLink ExSockets) := (visit 0 Channel_Action 0 8 (ex_receiver ex_parts)).2.
Definition ex_whole : Driver (TcpLink ExSockets) := (visit 0 Channel_Action 0 8 ex_half).2.
Example ex_delivered : out ex_half = [] /\ out ex_whole = [Incoming (ex_hello 5)].
Proof. vm_compute. by split. Qed.

(** Two frames that are within the limits, and arrive together, are more than
    [service_read] keeps: the driver fails. *)
Definition ex_together : list (option (list byte)) := [Some (frame (ex_hello 5) ++ frame (ex_hello 6))].
Lemma coalesced_frames_fail :
  parcel_fits (ex_hello 5) ex_tcp_limits /\ parcel_fits (ex_hello 6) ex_tcp_limits /\
  (progress 8 (ex_receiver ex_together)).1 = Err (Raise (TransportError_ByteLimit 222 128)) /\
  failed (progress 8 (ex_receiver ex_together)).2 = Some (TransportError_ByteLimit 222 128).
Proof. unfold parcel_fits. vm_compute. repeat split; congruence. Qed.

Lemma ex_tcp_small : limits_small ex_tcp_limits.
Proof. unfold limits_small, limits_fit. vm_compute. repeat split; congruence. Qed.
Lemma ex_hello_wf : Parcel_wf (ex_hello 5).
Proof. unfold Parcel_wf, id128_wf, in_u. vm_compute. repeat split; congruence. Qed.

Definition ok_of {S E A} (x : result (exn E) A * S) : bool := is_ok x.1.
Lemma ok_of_some {S E A} (x : result (exn E) A * S) : ok_of x = true -> exists a, x = (Ok a, x.2).
Proof. destruct x as [[a|] s]; [by exists a|done]. Qed.

Definition ex_accepted : nat -> list Parcel := extend (fun _ => []) (sent_to (ex_hello 5)) [ex_hello 5].
Lemma ex_sender_run : tcp_run true ex_accepted (fun _ => []) ex_sender.
Proof.
  assert (Hok : ok_of (try_send (ex_hello 5) (tcp_driver 0 2 1 0 ex_tcp_limits ex_silent)) = true) by (vm_compute; reflexivity).
  apply ok_of_some in Hok as [t Ht]. eapply Run_send; [|apply ex_hello_wf|exact Ht].
  apply Run_new; [apply ex_tcp_small|lia|by split].
Qed.

(** What a visit of an example that succeeds has delivered. *)
Lemma visit_run H R p c start max (d : Driver (TcpLink ExSockets)) new :
  tcp_run true H R d -> (p < length (members d))%nat -> Z.of_nat p <> d_local d ->
  ok_of (visit p c start max d) = true -> out (visit p c start max d).2 = out d ++ new ->
  tcp_run true H (extend R (slot p c) (arrivals new)) (visit p c start max d).2.
Proof. intros Hrun Hp Hne [b Hb]%ok_of_some Ho. by apply (Run_visit H R d p c start max b). Qed.

Lemma ex_wrote_run : tcp_run true ex_accepted (extend (fun _ => []) (slot 1 Channel_Action) []) ex_wrote.
Proof.
  apply (visit_run ex_accepted (fun _ => []) 1 Channel_Action 0 8 ex_sender [LocalSendComplete 1]);
    [exact ex_sender_run|vm_compute; lia|vm_compute; congruence|vm_compute; reflexivity|vm_compute; reflexivity].
Qed.
Lemma ex_whole_run : exists R, tcp_run true (fun _ => []) R ex_whole /\ R ex_stream = [ex_hello 5].
Proof.
  assert (H0 : tcp_run true (fun _ => []) (fun _ => []) (ex_receiver ex_parts)) by (apply Run_new; [apply ex_tcp_small|lia|by split]).
  pose proof (visit_run _ _ 0 Channel_Action 0 8 _ [] H0 ltac:(vm_compute; lia) ltac:(vm_compute; congruence)
    ltac:(vm_compute; reflexivity) ltac:(vm_compute; reflexivity)) as H1.
  pose proof (visit_run _ _ 0 Channel_Action 0 8 _ [Incoming (ex_hello 5)] H1 ltac:(vm_compute; lia) ltac:(vm_compute; congruence)
    ltac:(vm_compute; reflexivity) ltac:(vm_compute; reflexivity)) as H2.
  eexists. split; [exact H2|]. vm_compute. reflexivity.
Qed.


