(* ===== verification/Connect.v ===== *)
(** * Connect: how the localities of a TCP run meet

    Models [connect] of [crates/hataori-runtime-foundation/src/tcp.rs] with the
    frames of its handshake, and [tcp/rendezvous.rs], by which localities learn
    each other's endpoints.  The network is a parameter, [Network]: it gives
    connections and the time.  Durations are nanoseconds. *)
From Stdlib Require Import Strings.Byte.
From S2P Require Import Prelude Text Protocol Transport Link Tcp.

(** ** A connection

    [arriving] is what the peer will have sent before a read times out, [arrived]
    what was read of it, [sent] what was written. *)
Record Conn : Type := mkConn {
  arriving : list byte; arrived : list byte; sent : list byte; read_error : string; write_error : option string;
}.
Abbreviation IO := (M Conn TransportError).

(** [Read::read_exact] and [Write::write_all], with [io_error]. *)
Definition read_exact (n : nat) : IO (list byte) :=
  c ← gets id;
  let got := take n (arriving c) in
  modify (fun c => mkConn (drop n (arriving c)) (arrived c ++ got) (sent c) (read_error c) (write_error c));;
  if bool_decide (length got = n) then mret got else raise (TransportError_Io (read_error c)).
Definition write_all (b : list byte) : IO unit :=
  c ← gets id;
  match write_error c with
  | Some message => raise (TransportError_Io message)
  | None => modify (fun c => mkConn (arriving c) (arrived c) (sent c ++ b) (read_error c) (write_error c))
  end.
(** [set_read_timeout] and [set_write_timeout] refuse a duration of zero. *)
Definition set_timeouts (timeout : Z) : IO unit :=
  mwhen (timeout =? 0) (raise (TransportError_Io "cannot set a 0 duration timeout")).
Definition io_protocol {A} (r : PResult A) : IO A := lift (map_err TransportError_Protocol r).

(** ** The handshake *)

Definition write_bootstrap (local : LocalityId) (c : Channel) (hello : Hello) : IO unit :=
  encoded ← io_protocol (encode_hello hello);
  length ← lift (if len encoded <=? u32_max then Ok (len encoded) else Err (TransportError_Peer "hello is too large"));
  write_all (to_le_bytes 8 local ++ [byte_of (Channel_code c)] ++ to_le_bytes 4 length ++ encoded).

Definition read_bootstrap : IO (LocalityId * Channel * Hello) :=
  header ← read_exact (Z.to_nat BOOTSTRAP_HEADER_BYTES);
  let peer := from_le_bytes (take 8 header) in
  c ← io_protocol (Channel_try_from (from_le_bytes (slice 8 9 header)));
  let length := from_le_bytes (slice 9 13 header) in
  if 4096 <? length then raise (TransportError_ByteLimit length 4096) else
  encoded ← read_exact (Z.to_nat length);
  hello ← io_protocol (decode_hello encoded);
  mret (peer, c, hello).

Definition bootstrap_exchange (local peer : LocalityId) (c : Channel) (hello : Hello) (timeout : Z) (initiator : bool) : IO Z :=
  set_timeouts timeout;;
  if initiator then
    write_bootstrap local c hello;;
    '(actual_peer, actual_channel, peer_hello) ← read_bootstrap;
    if negb (actual_peer =? peer) || negb (bool_decide (actual_channel = c))
    then raise (TransportError_Peer "TCP handshake identity mismatch") else
    negotiated ← io_protocol (Hello_validate_peer hello peer_hello);
    mret (negotiated_capabilities negotiated)
  else mret (capabilities hello).

Definition bootstrap_exchange_accept (local : LocalityId) (hello : Hello) (timeout : Z) : IO (LocalityId * Channel * Z) :=
  set_timeouts timeout;;
  '(peer, c, peer_hello) ← read_bootstrap;
  negotiated ← io_protocol (Hello_validate_peer hello peer_hello);
  write_bootstrap local c hello;;
  mret (peer, c, negotiated_capabilities negotiated).

(** ** The network *)

(** [ConnectionRefused], [TimedOut] and [AddrNotAvailable], or another error. *)
Inductive ConnectError : Type := TryAgain | ConnectFailed (message : string).

(** [net_bind] is [bind] and [set_nonblocking] of the listener; [stream_new] what
    [StreamIo::new] asks of the system. *)
Class Network (Addr Env : Type) := mkNetwork {
  net_now : Env -> Z * Env;
  net_bind : Addr -> Env -> result string unit * Env;
  net_accept : Env -> result IoError Conn * Env;
  net_connect : Addr -> Z -> Env -> result ConnectError Conn * Env;
  stream_new : Conn -> result string unit;
  net_instant_max : Z;
}.

(** [SocketAddr]: its equality, [to_string], [from_str], and the texts of the
    errors of [from_str] and [from_utf8]. *)
Class Addresses (Addr : Type) := mkAddresses {
  #[global] addr_eq :: EqDecision Addr;
  addr_to_string : Addr -> list byte;
  addr_from_str : list byte -> result string Addr;
  utf8_error : list byte -> string;
}.

Record TcpConfig (Addr : Type) : Type := mkTcpConfig {
  local_id : LocalityId; endpoints : list Addr; hello : Hello; bootstrap_timeout : Z; io_timeout : Z;
}.
Arguments mkTcpConfig {Addr} _ _ _ _ _. Arguments local_id {Addr} _. Arguments endpoints {Addr} _.
Arguments hello {Addr} _. Arguments bootstrap_timeout {Addr} _. Arguments io_timeout {Addr} _.

(** What [connect] has when every connection is there. *)
Record Connected : Type := mkConnected {
  cn_index : nat; cn_capabilities : Z; cn_limits : ProtocolLimits; cn_streams : list (option Conn);
}.

Section Connect.
Context {Addr Env : Type} `{!Addresses Addr} `{!Network Addr Env}.
Abbreviation NM := (M Env TransportError).
Implicit Types (cfg : TcpConfig Addr).

Definition on_net {A} (f : Env -> A * Env) : NM A := fun e => let '(a, e) := f e in (Ok a, e).
(** An operation on a connection, which is dropped when it fails. *)
Definition on_conn {A} (m : IO A) (c : Conn) : NM (A * Conn) := fun e =>
  match m c with
  | (Ok a, c) => (Ok (a, c), e)
  | (Err x, _) => (Err x, e)
  end.
Definition lift_io {A} (r : result string A) : NM A := lift (map_err TransportError_Io r).
Definition lift_protocol {A} (r : PResult A) : NM A := lift (map_err TransportError_Protocol r).

(** [Instant::now() + timeout]. *)
Definition deadline_after (timeout : Z) : NM Z :=
  t ← on_net net_now;
  if net_instant_max <? t + timeout then panic else mret (t + timeout).

(** Here and below: [None] when the fuel is spent. *)
Fixpoint connect_until (fuel : nat) (endpoint : Addr) (deadline : Z) : NM (option Conn) :=
  match fuel with
  | O => mret None
  | S fuel =>
      t ← on_net net_now;
      let remaining := saturating_sub deadline t in
      if remaining =? 0 then raise (TransportError_Timeout "TCP bootstrap connect") else
      found ← on_net (net_connect endpoint (Z.min remaining (100 * 1000 * 1000)));
      match found with
      | Ok c => mret (Some c)
      | Err TryAgain => connect_until fuel endpoint deadline
      | Err (ConnectFailed message) => raise (TransportError_Io message)
      end
  end.

(** The connections to the localities before this one. *)
Fixpoint dial (fuel : nat) (cfg : TcpConfig Addr) (deadline : Z) (l : list (nat * Channel)) (caps : Z) (streams : list (option Conn)) :
    NM (option (Z * list (option Conn))) :=
  match l with
  | [] => mret (Some (caps, streams))
  | (peer, c) :: l =>
      match endpoints cfg !! peer with
      | None => panic
      | Some endpoint =>
          found ← connect_until fuel endpoint deadline;
          match found with
          | None => mret None
          | Some conn =>
              '(peer_caps, conn) ← on_conn (bootstrap_exchange (local_id cfg) (Z.of_nat peer) c (hello cfg) (io_timeout cfg) true) conn;
              lift_io (stream_new conn);;
              dial fuel cfg deadline l (Z.land caps peer_caps) (<[slot peer c := Some conn]> streams)
          end
      end
  end.

(** Those from the localities after it. *)
Fixpoint accept_peers (fuel : nat) (cfg : TcpConfig Addr) (deadline : Z) (local : nat) (expected accepted : nat) (caps : Z)
    (streams : list (option Conn)) : NM (option (Z * list (option Conn))) :=
  match fuel with
  | O => mret None
  | S fuel =>
      if bool_decide (expected <= accepted)%nat then mret (Some (caps, streams)) else
      t ← on_net net_now;
      if deadline <=? t then raise (TransportError_Timeout "TCP bootstrap accept") else
      found ← on_net net_accept;
      match found with
      | Ok conn =>
          '(x, conn) ← on_conn (bootstrap_exchange_accept (local_id cfg) (hello cfg) (io_timeout cfg)) conn;
          let '(peer, c, peer_caps) := x in
          index ← lift (member_index peer (len (endpoints cfg)));
          match streams !! slot index c with
          | None => panic
          | Some present =>
              if bool_decide (index <= local)%nat || bool_decide (is_Some present)
              then raise (TransportError_Peer "unexpected or duplicate TCP bootstrap peer") else
              lift_io (stream_new conn);;
              accept_peers fuel cfg deadline local expected (S accepted) (Z.land caps peer_caps) (<[slot index c := Some conn]> streams)
          end
      | Err WouldBlock => accept_peers fuel cfg deadline local expected accepted caps streams
      | Err (OtherError message) => raise (TransportError_Io message)
      end
  end.

(** Is a channel of another locality missing? *)
Definition channel_missing (local : nat) (streams : list (option Conn)) : bool :=
  existsb (fun i => negb (i / 3 =? local)%nat && match streams !! i with Some (Some _) => false | _ => true end)
    (seq 0 (length streams)).

Definition connect (fuel : nat) (cfg : TcpConfig Addr) : NM (option Connected) :=
  limits ← lift_protocol (ProtocolLimits_validate (Protocol.limits (hello cfg)));
  local ← lift (member_index (local_id cfg) (len (endpoints cfg)));
  if len (endpoints cfg) =? 0 then raise (TransportError_Peer "TCP membership is empty") else
  if negb (bool_decide (NoDup (endpoints cfg))) then raise (TransportError_Peer "TCP endpoints must be unique") else
  match endpoints cfg !! local with
  | None => panic
  | Some endpoint =>
      bound ← on_net (net_bind endpoint);
      lift_io bound;;
      deadline ← deadline_after (bootstrap_timeout cfg);
      let count := length (endpoints cfg) in
      dialed ← dial fuel cfg deadline (seq 0 local ≫= fun peer => (fun c => (peer, c)) <$> all_channels)
                 (capabilities (hello cfg)) (replicate (count * 3) None);
      match dialed with
      | None => mret None
      | Some (caps, streams) =>
          accepted ← accept_peers fuel cfg deadline local ((count - local - 1) * 3) 0 caps streams;
          match accepted with
          | None => mret None
          | Some (caps, streams) =>
              if channel_missing local streams
              then raise (TransportError_Peer "TCP bootstrap did not establish every channel")
              else mret (Some (mkConnected local caps limits streams))
          end
      end
  end.
End Connect.

(** The driver over what the connections have become in [e]. *)
Definition connected_driver {Addr E} (cfg : TcpConfig Addr) (c : Connected) (e : list (option Conn) -> E) : Driver (TcpLink E) :=
  tcp_driver (cn_index c) (length (endpoints cfg)) (hello_run_id (hello cfg)) (cn_capabilities c) (cn_limits c) (e (cn_streams c)).
