(* ===== verification/Rendezvous.v ===== *)
(** * Rendezvous: how localities learn their endpoints

    Models [crates/hataori-runtime-foundation/src/tcp/rendezvous.rs]: the frames
    that join a run and give its membership, the coordinator and the others. *)
From Stdlib Require Import Strings.Byte.
From S2P Require Import Prelude Text Protocol Transport Link Tcp Connect.

Definition JOIN_MAGIC : list byte := [Byte.x48; Byte.x54; Byte.x52; Byte.x4a].
Definition MEMBERSHIP_MAGIC : list byte := [Byte.x48; Byte.x54; Byte.x52; Byte.x4d].
Definition MAX_ENDPOINT_BYTES : Z := 128.
Definition MAX_LOCALITIES : Z := 1024.

Section Rendezvous.
Context {Addr : Type} `{!Addresses Addr}.

Record TcpRendezvousConfig : Type := mkTcpRendezvousConfig {
  rv_run_id : RunId; rendezvous_endpoint : Addr; local_endpoint : Addr; expected_localities : Z; coordinator : bool; rv_timeout : Z;
}.
Record TcpMembership : Type := mkTcpMembership { m_local_id : LocalityId; m_endpoints : list Addr }.

(** ** Frames *)

(** The length of an endpoint and its text, as both frames have it. *)
Definition endpoint_frame (a : Addr) : result TransportError (list byte) :=
  let endpoint := addr_to_string a in
  if MAX_ENDPOINT_BYTES <? len endpoint then Err (TransportError_ByteLimit (len endpoint) MAX_ENDPOINT_BYTES) else
  length ← (if len endpoint <=? u16_max then Ok (len endpoint) else Err (TransportError_Peer "endpoint length overflow"));
  Ok (to_le_bytes 2 length ++ endpoint).

Definition read_endpoint (length : Z) : IO Addr :=
  if (length =? 0) || (MAX_ENDPOINT_BYTES <? length) then raise (TransportError_ByteLimit length MAX_ENDPOINT_BYTES) else
  endpoint ← read_exact (Z.to_nat length);
  if negb (utf8_valid endpoint) then raise (TransportError_Peer (utf8_error endpoint)) else
  lift (map_err TransportError_Peer (addr_from_str endpoint)).

Definition write_join (run : RunId) (a : Addr) : IO unit :=
  endpoint ← lift (endpoint_frame a);
  write_all (JOIN_MAGIC ++ to_le_bytes 16 run ++ endpoint).

Definition read_join : IO (RunId * Addr) :=
  header ← read_exact 22;
  if negb (bool_decide (take 4 header = JOIN_MAGIC)) then raise (TransportError_Peer "TCP rendezvous join magic mismatch") else
  run ← io_protocol (RunId_new (from_le_bytes (slice 4 20 header)));
  endpoint ← read_endpoint (from_le_bytes (slice 20 22 header));
  mret (run, endpoint).

Definition write_membership (run : RunId) (local : LocalityId) (l : list Addr) : IO unit :=
  count ← lift (if len l <=? u32_max then Ok (len l) else Err (TransportError_Peer "membership count overflow"));
  frames ← lift (mapR endpoint_frame l);
  write_all (MEMBERSHIP_MAGIC ++ to_le_bytes 16 run ++ to_le_bytes 8 local ++ to_le_bytes 4 count ++ concat frames).

Fixpoint read_endpoints (count : nat) : IO (list Addr) :=
  match count with
  | O => mret []
  | S count =>
      length ← read_exact 2;
      endpoint ← read_endpoint (from_le_bytes length);
      rest ← read_endpoints count;
      mret (endpoint :: rest)
  end.

Definition read_membership (expected_run : RunId) : IO TcpMembership :=
  header ← read_exact 32;
  if negb (bool_decide (take 4 header = MEMBERSHIP_MAGIC))
  then raise (TransportError_Peer "TCP rendezvous membership magic mismatch") else
  run ← io_protocol (RunId_new (from_le_bytes (slice 4 20 header)));
  if negb (run =? expected_run) then raise (TransportError_Protocol ProtocolError_RunMismatch) else
  let local := from_le_bytes (slice 20 28 header) in
  let count := from_le_bytes (slice 28 32 header) in
  if (count =? 0) || (MAX_LOCALITIES <? count) || (count <=? local)
  then raise (TransportError_Peer "TCP rendezvous membership metadata is invalid") else
  l ← read_endpoints (Z.to_nat count);
  if negb (bool_decide (NoDup l)) then raise (TransportError_Peer "TCP rendezvous membership contains duplicate endpoints") else
  mret (mkTcpMembership local l).

(** ** The two sides *)

Context {Env : Type} `{!Network Addr Env}.
Abbreviation NM := (M Env TransportError).

Definition validate_config (cfg : TcpRendezvousConfig) : result TransportError unit :=
  if (expected_localities cfg =? 0) || (MAX_LOCALITIES <? expected_localities cfg)
  then Err (TransportError_Peer "TCP rendezvous locality count is out of bounds") else
  if rv_timeout cfg =? 0 then Err (TransportError_Timeout "TCP rendezvous configuration") else Ok tt.

(** The loop that accepts the others, in the order they come. *)
Fixpoint gather_joins (fuel : nat) (cfg : TcpRendezvousConfig) (deadline : Z) (l : list Addr) (clients : list Conn) :
    NM (option (list Addr * list Conn)) :=
  match fuel with
  | O => mret None
  | S fuel =>
      if expected_localities cfg <=? len l then mret (Some (l, clients)) else
      t ← on_net net_now;
      if deadline <=? t then raise (TransportError_Timeout "TCP rendezvous accept") else
      found ← on_net net_accept;
      match found with
      | Ok conn =>
          '(x, conn) ← on_conn (set_timeouts (rv_timeout cfg);; read_join) conn;
          let '(run, endpoint) := x in
          if negb (run =? rv_run_id cfg) then raise (TransportError_Protocol ProtocolError_RunMismatch) else
          if bool_decide (endpoint ∈ l) then raise (TransportError_Peer "TCP rendezvous endpoint is duplicated") else
          gather_joins fuel cfg deadline (l ++ [endpoint]) (clients ++ [conn])
      | Err WouldBlock => gather_joins fuel cfg deadline l clients
      | Err (OtherError message) => raise (TransportError_Io message)
      end
  end.

Fixpoint announce (cfg : TcpRendezvousConfig) (l : list Addr) (offset : nat) (clients : list Conn) : NM (list Conn) :=
  match clients with
  | [] => mret []
  | conn :: clients =>
      '(_, conn) ← on_conn (write_membership (rv_run_id cfg) (Z.of_nat offset + 1) l) conn;
      rest ← announce cfg l (S offset) clients;
      mret (conn :: rest)
  end.

(** The membership, and what was said to the others. *)
Definition coordinate (fuel : nat) (cfg : TcpRendezvousConfig) : NM (option (TcpMembership * list Conn)) :=
  bound ← on_net (net_bind (rendezvous_endpoint cfg));
  lift_io bound;;
  deadline ← deadline_after (rv_timeout cfg);
  found ← gather_joins fuel cfg deadline [local_endpoint cfg] [];
  match found with
  | None => mret None
  | Some (l, clients) =>
      clients ← announce cfg l 0 clients;
      mret (Some (mkTcpMembership 0 l, clients))
  end.

(** What a locality that is not the coordinator says and is told. *)
Definition join_exchange (cfg : TcpRendezvousConfig) : IO TcpMembership :=
  set_timeouts (rv_timeout cfg);;
  write_join (rv_run_id cfg) (local_endpoint cfg);;
  membership ← read_membership (rv_run_id cfg);
  if negb (len (m_endpoints membership) =? expected_localities cfg)
  then raise (TransportError_Peer "TCP rendezvous membership size mismatch") else
  if negb (bool_decide (m_endpoints membership !! Z.to_nat (m_local_id membership) = Some (local_endpoint cfg)))
  then raise (TransportError_Peer "TCP rendezvous assigned endpoint mismatch") else
  mret membership.

Definition join_coordinator (fuel : nat) (cfg : TcpRendezvousConfig) : NM (option (TcpMembership * list Conn)) :=
  deadline ← deadline_after (rv_timeout cfg);
  found ← connect_until fuel (rendezvous_endpoint cfg) deadline;
  match found with
  | None => mret None
  | Some conn =>
      '(membership, conn) ← on_conn (join_exchange cfg) conn;
      mret (Some (membership, [conn]))
  end.

Definition join (fuel : nat) (cfg : TcpRendezvousConfig) : NM (option (TcpMembership * list Conn)) :=
  lift (validate_config cfg);;
  if coordinator cfg then coordinate fuel cfg else join_coordinator fuel cfg.
End Rendezvous.
