(* ===== verification/ConnectRuns.v ===== *)
(** * ConnectRuns: localities that connect agree

    What the handshake and the rendezvous give to both ends of a connection,
    whatever the network does. *)
From Stdlib Require Import Strings.Byte.
From S2P Require Import Prelude Text Protocol Transport Link Tcp Connect Rendezvous.

(** ** Reading and writing *)

(** [b] was read. *)
Definition consumed (b : list byte) (c c' : Conn) : Prop :=
  arriving c = b ++ arriving c' /\ arrived c' = arrived c ++ b /\ sent c' = sent c /\ write_error c' = write_error c.
Definition wrote (b : list byte) (c c' : Conn) : Prop :=
  arriving c' = arriving c /\ arrived c' = arrived c /\ sent c' = sent c ++ b /\ write_error c' = write_error c.

Lemma consumed_app a b c c1 c2 : consumed a c c1 -> consumed b c1 c2 -> consumed (a ++ b) c c2.
Proof. intros (H1 & H2 & H3 & H4) (K1 & K2 & K3 & K4). split_and!; [by rewrite H1, K1, app_assoc|by rewrite K2, H2, app_assoc|congruence..]. Qed.
Lemma consumed_nil c : consumed [] c c.
Proof. split_and!; try done. by rewrite app_nil_r. Qed.

Lemma read_exact_wp n c : wp (read_exact n) (fun b c' => length b = n /\ consumed b c c') (fun _ _ => True) c.
Proof.
  unfold read_exact. wp_steps; [|done]. zbool. split; [done|]. cbn [id] in *.
  split_and!; cbn [arriving arrived sent write_error]; try done. by rewrite take_drop.
Qed.
(** What has arrived is read. *)
Lemma read_exact_ready n b rest c (Q : list byte -> Conn -> Prop) R :
  arriving c = b ++ rest -> length b = n -> (forall c', arriving c' = rest -> consumed b c c' -> Q b c') -> wp (read_exact n) Q R c.
Proof.
  intros Hc <- HQ. unfold read_exact. apply wp_bind, wp_gets. cbn [id]. rewrite Hc, take_app_length.
  apply wp_bind, wp_modify. rewrite bool_decide_eq_true_2 by done. apply wp_ret, HQ; cbn [arriving]; [by rewrite Hc, drop_app_length|].
  split_and!; cbn [arriving arrived sent write_error]; rewrite ?Hc, ?take_app_length, ?drop_app_length; done.
Qed.
Lemma write_all_wp b c : wp (write_all b) (fun _ => wrote b c) (fun _ _ => True) c.
Proof. unfold write_all. apply wp_bind, wp_gets. cbn [id]. destruct (write_error c) eqn:E; [done|]. apply wp_modify. by split_and!. Qed.
Lemma write_all_ready b c (Q : unit -> Conn -> Prop) R :
  write_error c = None -> (forall c', wrote b c c' -> Q tt c') -> wp (write_all b) Q R c.
Proof. intros Hw HQ. unfold write_all. apply wp_bind, wp_gets. cbn [id]. rewrite Hw. apply wp_modify, HQ. by split_and!. Qed.

Lemma NoDup_pairs {A B} (l : list A) (k : list B) : NoDup l -> NoDup k -> NoDup (l ≫= fun a => (fun b => (a, b)) <$> k).
Proof.
  intros Hl Hk. induction Hl as [|a l Ha Hl IH]; [constructor|]. cbn [mbind list_bind]. apply NoDup_app. split_and!; [|set_solver|done].
  apply NoDup_fmap_2; [|done]. by intros ? ? [=].
Qed.

(** ** The handshake *)

Definition hello_valid (h : Hello) : Prop :=
  Hello_wf h /\ limits_ok (Protocol.limits h) /\ max_segments (Protocol.limits h) <= u32_max /\
  max_queued_parcels_per_peer (Protocol.limits h) <= u32_max.
Definition bootstrap_layout (l : LocalityId) (c : Channel) (h : Hello) : list byte :=
  to_le_bytes 8 l ++ [byte_of (Channel_code c)] ++ to_le_bytes 4 (len (hello_layout h)) ++ hello_layout h.

Lemma hello_layout_inj h h' : hello_valid h -> hello_valid h' -> hello_layout h = hello_layout h' -> h = h'.
Proof.
  intros (H1 & H2 & H3 & H4) (K1 & K2 & K3 & K4) Heq.
  assert (E : Ok (E := ProtocolError) h = Ok h') by (rewrite <-(decode_hello_layout h), <-(decode_hello_layout h') by done; by rewrite Heq).
  by injection E.
Qed.
Lemma bootstrap_layout_inj l l' c c' h h' :
  in_u 64 l -> in_u 64 l' -> hello_valid h -> hello_valid h' -> bootstrap_layout l c h = bootstrap_layout l' c' h' -> l = l' /\ c = c' /\ h = h'.
Proof.
  intros Hl Hl' Hh Hh' Heq. unfold bootstrap_layout in Heq.
  apply app_inj_1 in Heq as [E1 Heq]; [|by rewrite !length_to_le_bytes]. apply app_inj_1 in Heq as [E2 Heq]; [|done].
  apply app_inj_1 in Heq as [_ E3]; [|by rewrite !length_to_le_bytes]. split_and!; [| |by apply hello_layout_inj].
  - rewrite <-(from_to_le_bytes 8 l), <-(from_to_le_bytes 8 l'); [by rewrite E1|done..].
  - destruct c, c'; first [done|discriminate E2].
Qed.

Lemma write_bootstrap_wp l ch h c :
  Hello_wf h -> wp (write_bootstrap l ch h) (fun _ c' => hello_valid h /\ wrote (bootstrap_layout l ch h) c c') (fun _ _ => True) c.
Proof.
  intros Hwf. unfold write_bootstrap, io_protocol. apply wp_bind, wp_lift. destruct (encode_hello h) as [out|] eqn:E; [|done]. cbn [map_err].
  apply (encode_hello_ok h out Hwf) in E as (Hl & Hs & Hq & ->). apply wp_bind, wp_lift. destruct (len (hello_layout h) <=? u32_max); [|done].
  eapply wp_mono; [apply write_all_wp| |done]. intros ? c' Hc. by split.
Qed.

Lemma Channel_try_from_byte v c : Channel_try_from v = Ok c -> byte_of v = byte_of (Channel_code c).
Proof. by intros ->%Channel_try_from_inv. Qed.

Lemma read_bootstrap_wp c :
  wp read_bootstrap (fun '(p, ch, h) c' => in_u 64 p /\ hello_valid h /\ consumed (bootstrap_layout p ch h) c c') (fun _ _ => True) c.
Proof.
  unfold read_bootstrap, io_protocol. apply wp_bind. eapply wp_mono; [apply read_exact_wp| |done]. intros header c1 [Hlen Hc1].
  change (Z.to_nat BOOTSTRAP_HEADER_BYTES) with 13%nat in Hlen.
  apply wp_bind, wp_lift. destruct (Channel_try_from _) as [ch|] eqn:Ech; [|done]. cbn [map_err].
  destruct (4096 <? _) eqn:E4; [done|]. apply wp_bind. eapply wp_mono; [apply read_exact_wp| |done]. intros encoded c2 [Hlen2 Hc2].
  apply wp_bind, wp_lift. destruct (decode_hello encoded) as [h|] eqn:Eh; [|done]. cbn [map_err]. apply wp_ret.
  apply decode_hello_inv in Eh as (Hwf & Hl & Hs & Hq & ->).
  assert (H8 : length (take 8 header) = 8%nat) by (rewrite length_take; lia).
  assert (H1 : length (slice 8 9 header) = 1%nat) by (rewrite length_slice; lia).
  assert (H4 : length (slice 9 13 header) = 4%nat) by (rewrite length_slice; lia).
  split_and!; [|by split_and!|].
  - pose proof (from_le_bytes_range (take 8 header)) as Hr. unfold len in Hr. by rewrite H8 in Hr.
  - pose proof (consumed_app _ _ _ _ _ Hc1 Hc2) as Hc. unfold bootstrap_layout.
    enough (to_le_bytes 8 (from_le_bytes (take 8 header)) ++ [byte_of (Channel_code ch)] ++ to_le_bytes 4 (len (hello_layout h)) = header) as Hh
      by (rewrite <-Hh, <-!app_assoc in Hc; exact Hc).
    rewrite (to_from_le_bytes' 8) by done. apply Channel_try_from_byte in Ech. rewrite <-Ech.
    assert (Hb : [byte_of (from_le_bytes (slice 8 9 header))] = slice 8 9 header).
    { destruct (slice 8 9 header) as [|b [|]]; try done. cbn [from_le_bytes]. by rewrite Z.mul_0_r, Z.add_0_r, byte_of_val. }
    rewrite Hb. unfold len. rewrite Hlen2. pose proof (from_le_bytes_range (slice 9 13 header)) as Hr.
    rewrite Z2Nat.id by lia. rewrite (to_from_le_bytes' 4) by done.
    rewrite (slice_join 8 9 13) by lia. unfold slice. rewrite (take_ge (drop 8 header)) by (rewrite length_drop; lia). apply take_drop.
Qed.

Section Connect.
Context {Addr Env : Type} `{!Addresses Addr} `{!Network Addr Env}.
Implicit Types (cfg : TcpConfig Addr) (streams : list (option Conn)) (e : Env).

(** A connection of the network is new, and the clock fits [Instant]. *)
Class NetworkLaws := {
  net_accept_new : forall e c e', net_accept e = (Ok c, e') -> arrived c = [] /\ sent c = [];
  net_connect_new : forall a t e c e', net_connect a t e = (Ok c, e') -> arrived c = [] /\ sent c = [];
}.
Context `{!NetworkLaws}.

Lemma wp_on_net {A} (f : Env -> A * Env) (Q : A -> Env -> Prop) (R : TransportError -> Env -> Prop) e :
  (forall a e', f e = (a, e') -> Q a e') -> wp (on_net f) Q R e.
Proof. unfold wp, on_net. destruct (f e) as [a e']. intros Hf. by apply Hf. Qed.
Lemma wp_on_conn {A} (m : IO A) c (Q : A * Conn -> Env -> Prop) e :
  wp m (fun a c' => Q (a, c') e) (fun _ _ => True) c -> wp (on_conn m c) Q (fun _ _ => True) e.
Proof. unfold wp, on_conn. by destruct (m c) as [[a|[]] c']. Qed.
Lemma wp_lift_io {A} (r : result string A) (Q : A -> Env -> Prop) e :
  (forall a, Q a e) -> wp (lift_io r) Q (fun _ _ => True) e.
Proof. intros HQ. unfold lift_io. apply wp_lift. destruct r; [apply HQ|done]. Qed.

(** Both ends of a connection of [cfg] to [p] have said who they are. *)
Record introduced cfg (p : nat) (ch : Channel) (conn : Conn) (h : Hello) : Prop := {
  in_arrived : arrived conn = bootstrap_layout (Z.of_nat p) ch h;
  in_sent : sent conn = bootstrap_layout (local_id cfg) ch (hello cfg);
  in_valid : hello_valid h;
  in_valid_own : hello_valid (hello cfg);
  in_agree : hello_agree (hello cfg) h;
}.

Lemma validate_peer_ok a b n : Hello_validate_peer a b = Ok n -> hello_agree a b /\ negotiated_capabilities n = Z.land (capabilities a) (capabilities b).
Proof. intros Hn. destruct (Hello_validate_peer_sym_complete a b) as (_ & Hv & _). by apply Hv in Hn as (Ha & _ & _ & ->). Qed.

Lemma bootstrap_exchange_wp cfg p ch c :
  in_u 64 (Z.of_nat p) -> Hello_wf (hello cfg) -> arrived c = [] -> sent c = [] ->
  wp (bootstrap_exchange (local_id cfg) (Z.of_nat p) ch (hello cfg) (io_timeout cfg) true)
    (fun caps c' => exists h, introduced cfg p ch c' h /\ caps = Z.land (capabilities (hello cfg)) (capabilities h)) (fun _ _ => True) c.
Proof.
  intros Hp Hwf Ha Hs. unfold bootstrap_exchange, set_timeouts, io_protocol. apply wp_bind, wp_when.
  destruct (io_timeout cfg =? 0); [done|]. apply wp_bind. eapply wp_mono; [by apply write_bootstrap_wp| |done].
  intros [] c1 (Hv & _ & Ha1 & Hs1 & _). apply wp_bind. eapply wp_mono; [apply read_bootstrap_wp| |done].
  intros [[peer c'] h] c2 (Hr & Hh & _ & Ha2 & Hs2 & _). destruct (peer =? Z.of_nat p) eqn:Ep; [|done]. zbool. subst peer.
  cbn [negb orb]. destruct (bool_decide (c' = ch)) eqn:Ec; [|done]. zbool. subst c'. cbn [negb].
  apply wp_bind, wp_lift. destruct (Hello_validate_peer (hello cfg) h) as [n|] eqn:En; [|done]. cbn [map_err]. apply wp_ret.
  apply validate_peer_ok in En as [Hag ->]. exists h. split; [|done]. split; try done.
  - by rewrite Ha2, Ha1, Ha.
  - by rewrite Hs2, Hs1, Hs.
Qed.
Lemma bootstrap_exchange_accept_wp cfg c :
  Hello_wf (hello cfg) -> arrived c = [] -> sent c = [] ->
  wp (bootstrap_exchange_accept (local_id cfg) (hello cfg) (io_timeout cfg))
    (fun '(peer, ch, caps) c' => 0 <= peer /\ exists h, introduced cfg (Z.to_nat peer) ch c' h /\ caps = Z.land (capabilities (hello cfg)) (capabilities h))
    (fun _ _ => True) c.
Proof.
  intros Hwf Ha Hs. unfold bootstrap_exchange_accept, set_timeouts, io_protocol. apply wp_bind, wp_when.
  destruct (io_timeout cfg =? 0); [done|]. apply wp_bind. eapply wp_mono; [apply read_bootstrap_wp| |done].
  intros [[peer ch] h] c1 (Hr & Hh & _ & Ha1 & Hs1 & _).
  apply wp_bind, wp_lift. destruct (Hello_validate_peer (hello cfg) h) as [n|] eqn:En; [|done]. cbn [map_err].
  apply wp_bind. eapply wp_mono; [by apply write_bootstrap_wp| |done]. intros [] c2 (Hv & _ & Ha2 & Hs2 & _). apply wp_ret.
  apply validate_peer_ok in En as [Hag ->]. unfold in_u in Hr. split; [lia|]. exists h. split; [|done]. split; try done.
  - rewrite Z2Nat.id by lia. by rewrite Ha2, Ha1, Ha.
  - by rewrite Hs2, Hs1, Hs.
Qed.

(** The connections made so far, and the capabilities all their ends have. *)
Record met cfg (local : nat) (H : nat -> Hello) streams (caps : Z) : Prop := {
  met_length : length streams = (length (endpoints cfg) * 3)%nat;
  met_streams : forall i conn, streams !! i = Some (Some conn) ->
    exists p ch, i = slot p ch /\ (p < length (endpoints cfg))%nat /\ p <> local /\ introduced cfg p ch conn (H i);
  met_caps : forall b, 0 <= b -> Z.testbit caps b = true <->
    Z.testbit (capabilities (hello cfg)) b = true /\
    forall i conn, streams !! i = Some (Some conn) -> Z.testbit (capabilities (H i)) b = true;
}.

Lemma met_start cfg local K : met cfg local K (replicate (length (endpoints cfg) * 3) None) (capabilities (hello cfg)).
Proof.
  split; [by rewrite length_replicate|by intros i conn [? _]%lookup_replicate|].
  intros b _. split; [|by intros []]. intros Hb. split; [done|]. by intros i conn [? _]%lookup_replicate.
Qed.
Lemma met_insert cfg local K streams caps p ch conn h :
  met cfg local K streams caps -> (p < length (endpoints cfg))%nat -> p <> local -> streams !! slot p ch = Some None ->
  introduced cfg p ch conn h ->
  met cfg local (fun i => if decide (i = slot p ch) then h else K i) (<[slot p ch := Some conn]> streams)
    (Z.land caps (Z.land (capabilities (hello cfg)) (capabilities h))).
Proof.
  intros [Hlen Hs Hc] Hp Hne Hnone Hi. pose proof (lookup_lt_Some _ _ _ Hnone) as Hlt.
  assert (Hat : forall i c, <[slot p ch := Some conn]> streams !! i = Some (Some c) <->
     (i = slot p ch /\ c = conn) \/ (i <> slot p ch /\ streams !! i = Some (Some c))).
  { intros i c. destruct (decide (i = slot p ch)) as [->|Hd].
    - rewrite list_lookup_insert_eq by done. naive_solver.
    - rewrite list_lookup_insert_ne by done. naive_solver. }
  split.
  - by rewrite length_insert.
  - intros i c [[-> ->]|[Hd Hi']]%Hat; [exists p, ch; by rewrite decide_True|]. rewrite decide_False by done. by apply Hs.
  - intros b Hb. rewrite !Z.land_spec, !andb_true_iff, (Hc b Hb). split.
    + intros [[Ho Hall] [_ Hh]]. split; [done|]. intros i c [[-> ->]|[Hd Hi']]%Hat; [by rewrite decide_True|].
      rewrite decide_False by done. by apply (Hall i c).
    + intros [Ho Hall]. split_and!; try done.
      * intros i c Hi'. destruct (decide (i = slot p ch)) as [->|Hd]; [congruence|].
        specialize (Hall i c). rewrite decide_False in Hall by done. apply Hall, Hat. by right.
      * specialize (Hall (slot p ch) conn). rewrite decide_True in Hall by done. apply Hall, Hat. by left.
Qed.

Lemma connect_until_wp fuel endpoint deadline e :
  wp (connect_until fuel endpoint deadline)
    (fun found _ => forall c, found = Some c -> arrived c = [] /\ sent c = []) (fun _ _ => True) e.
Proof.
  revert e. induction fuel as [|fuel IH]; intros e; [by apply wp_ret|]. cbn [connect_until].
  apply wp_bind, wp_on_net. intros t e1 _. destruct (_ =? 0); [done|]. apply wp_bind, wp_on_net.
  intros [c|[|message]] e2 Hc; [|apply IH|done]. apply wp_ret. intros ? [= <-]. by eapply net_connect_new.
Qed.

Lemma dial_wp fuel cfg deadline local l K caps streams e :
  Hello_wf (hello cfg) -> len (endpoints cfg) <= u64_max -> NoDup l ->
  (forall p ch, (p, ch) ∈ l -> (p < length (endpoints cfg))%nat /\ p <> local /\ streams !! slot p ch = Some None) ->
  met cfg local K streams caps ->
  wp (dial fuel cfg deadline l caps streams)
    (fun r _ => forall caps' streams', r = Some (caps', streams') -> exists K', met cfg local K' streams' caps') (fun _ _ => True) e.
Proof.
  intros Hwf Hu. revert K caps streams e. induction l as [|[p ch] l IH]; intros K caps streams e Hnd Hl Hmet; cbn [dial].
  - apply wp_ret. intros ? ? [= <- <-]. by exists K.
  - apply NoDup_cons in Hnd as [Hnew Hnd]. destruct (Hl p ch) as (Hp & Hne & Hnone); [left|].
    destruct (lookup_lt_is_Some_2 _ _ Hp) as [a Ha]. rewrite Ha. apply wp_bind.
    eapply wp_mono; [apply connect_until_wp| |done]. intros [c|] e1 Hc; [|by apply wp_ret].
    destruct (Hc c eq_refl) as [Hc1 Hc2]. apply wp_bind, wp_on_conn.
    eapply wp_mono; [apply bootstrap_exchange_wp; try done; unfold in_u, len in *; zunfold; lia| |done].
    intros peer_caps conn (h & Hint & ->). apply wp_bind, wp_lift_io. intros [].
    eapply (IH _ _ _ _ Hnd); [|by apply met_insert]. intros p' ch' Hin. destruct (Hl p' ch') as (Hp' & Hne' & Hnone'); [by right|].
    split_and!; [done..|]. rewrite list_lookup_insert_ne; [done|]. intros [-> ->]%slot_inj. done.
Qed.

Lemma accept_peers_wp fuel cfg deadline local expected accepted K caps streams e :
  Hello_wf (hello cfg) -> met cfg local K streams caps ->
  wp (accept_peers fuel cfg deadline local expected accepted caps streams)
    (fun r _ => forall caps' streams', r = Some (caps', streams') -> exists K', met cfg local K' streams' caps') (fun _ _ => True) e.
Proof.
  intros Hwf. revert accepted K caps streams e. induction fuel as [|fuel IH]; intros accepted K caps streams e Hmet; [by apply wp_ret|].
  cbn [accept_peers]. destruct (bool_decide _); [apply wp_ret; intros ? ? [= <- <-]; by exists K|].
  apply wp_bind, wp_on_net. intros t e1 _. destruct (deadline <=? t); [done|]. apply wp_bind, wp_on_net.
  intros [c|[|message]] e2 Hc; [|by eapply IH|done]. apply net_accept_new in Hc as [Hc1 Hc2]. apply wp_bind, wp_on_conn.
  eapply wp_mono; [by apply bootstrap_exchange_accept_wp| |done]. intros [[peer ch] peer_caps] conn (Hpeer & h & Hint & ->).
  apply wp_bind, wp_lift. unfold member_index. destruct (peer <? len (endpoints cfg)) eqn:Ep; [|done]. zbool. unfold len in Ep.
  assert (Hp : (Z.to_nat peer < length (endpoints cfg))%nat) by lia.
  pose proof (slot_lt (Z.to_nat peer) ch _ Hp) as Hlt. rewrite <-(met_length _ _ _ _ _ Hmet) in Hlt.
  destruct (lookup_lt_is_Some_2 _ _ Hlt) as [present Hpresent]. rewrite Hpresent.
  destruct (bool_decide (Z.to_nat peer <= local)%nat) eqn:El; [done|]. zbool.
  destruct (bool_decide (is_Some present)) eqn:Es; [done|]. zbool. apply eq_None_not_Some in Es as ->.
  apply wp_bind, wp_lift_io. intros []. eapply IH. apply met_insert; try done; lia.
Qed.

(** What a locality has when it is connected. *)
Record established cfg (c : Connected) (K : nat -> Channel -> Hello) : Prop := {
  es_index : Z.of_nat (cn_index c) = local_id cfg;
  es_member : (cn_index c < length (endpoints cfg))%nat;
  es_limits : cn_limits c = Protocol.limits (hello cfg);
  es_length : length (cn_streams c) = (length (endpoints cfg) * 3)%nat;
  es_self : forall ch, cn_streams c !! slot (cn_index c) ch = Some None;
  es_peers : forall p ch, (p < length (endpoints cfg))%nat -> p <> cn_index c ->
    exists conn, cn_streams c !! slot p ch = Some (Some conn) /\ introduced cfg p ch conn (K p ch);
  es_caps : forall b, 0 <= b -> Z.testbit (cn_capabilities c) b = true <->
    Z.testbit (capabilities (hello cfg)) b = true /\
    forall p ch, (p < length (endpoints cfg))%nat -> p <> cn_index c -> Z.testbit (capabilities (K p ch)) b = true;
}.

Lemma slot_div p ch : (slot p ch / 3)%nat = p.
Proof.
  unfold slot, channel_index. destruct ch; cbn [Channel_code]; symmetry;
    [apply (Nat.div_unique _ _ _ 0)|apply (Nat.div_unique _ _ _ 1)|apply (Nat.div_unique _ _ _ 2)]; lia.
Qed.

Lemma met_established cfg K streams caps local :
  met cfg local K streams caps -> channel_missing local streams = false -> (local < length (endpoints cfg))%nat ->
  Z.of_nat local = local_id cfg ->
  established cfg (mkConnected local caps (Protocol.limits (hello cfg)) streams) (fun p ch => K (slot p ch)).
Proof.
  intros [Hlen Hs Hc] Hmiss Hlt Hid. unfold channel_missing in Hmiss.
  assert (Hall : forall p ch, (p < length (endpoints cfg))%nat -> p <> local -> exists conn, streams !! slot p ch = Some (Some conn)).
  { intros p ch Hp Hne. pose proof (slot_lt p ch _ Hp) as Hsl. rewrite <-Hlen in Hsl.
    destruct (lookup_lt_is_Some_2 _ _ Hsl) as [[conn|] Hx]; [by exists conn|].
    rewrite <-not_true_iff_false in Hmiss. contradict Hmiss. apply existsb_exists. exists (slot p ch).
    split; [apply in_seq; lia|]. rewrite Hx, slot_div. by rewrite (proj2 (Nat.eqb_neq _ _)). }
  split; cbn [cn_index cn_limits cn_streams cn_capabilities]; try done.
  - intros ch. pose proof (slot_lt local ch _ Hlt) as Hsl. rewrite <-Hlen in Hsl.
    destruct (lookup_lt_is_Some_2 _ _ Hsl) as [[conn|] Hx]; [|done]. destruct (Hs _ _ Hx) as (p & ch' & [-> ->]%slot_inj & _ & Hne & _). done.
  - intros p ch Hp Hne. destruct (Hall p ch Hp Hne) as [conn Hx]. exists conn. split; [done|].
    by destruct (Hs _ _ Hx) as (p' & ch' & [-> ->]%slot_inj & _ & _ & Hi).
  - intros b Hb. rewrite (Hc b Hb). split; intros [Ho Hk]; (split; [done|]).
    + intros p ch Hp Hne. destruct (Hall p ch Hp Hne) as [conn Hx]. by apply (Hk _ conn).
    + intros i conn Hx. destruct (Hs _ _ Hx) as (p & ch & -> & Hp & Hne & _). by apply Hk.
Qed.

Lemma connect_wp fuel cfg e :
  Hello_wf (hello cfg) -> 0 <= local_id cfg -> len (endpoints cfg) <= u64_max ->
  (forall e, (net_now e).1 + bootstrap_timeout cfg <= net_instant_max) ->
  wp (connect fuel cfg) (fun r _ => forall c, r = Some c -> exists K, established cfg c K) (fun _ _ => True) e.
Proof.
  intros Hwf Hl Hu Htime. unfold connect, lift_protocol. apply wp_bind, wp_lift.
  destruct (ProtocolLimits_validate _) as [l|] eqn:El; [|done]. apply limits_validate_inv in El as [-> _]. cbn [map_err].
  apply wp_bind, wp_lift. unfold member_index. destruct (local_id cfg <? _) eqn:Ei; [|done]. zbool.
  set (local := Z.to_nat (local_id cfg)). unfold len in Ei. assert (Hlt : (local < length (endpoints cfg))%nat) by lia.
  destruct (len (endpoints cfg) =? 0); [done|]. destruct (negb _); [done|].
  destruct (lookup_lt_is_Some_2 _ _ Hlt) as [a Ha]. rewrite Ha.
  apply wp_bind, wp_on_net. intros bound e1 _. apply wp_bind, wp_lift_io. intros _.
  apply wp_bind. unfold deadline_after. apply wp_bind, wp_on_net. intros t e2 Ht. specialize (Htime e1). rewrite Ht in Htime. cbn [fst] in Htime.
  rewrite (proj2 (Z.ltb_ge _ _)) by done. apply wp_ret. apply wp_bind.
  eapply wp_mono; [apply (dial_wp _ cfg _ local _ (fun _ => hello cfg)); [done|done| | |apply met_start]| |done].
  - apply NoDup_pairs; [apply NoDup_ListNoDup, seq_NoDup|]. by apply (bool_decide_unpack (NoDup all_channels)).
  - intros p ch. rewrite list_elem_of_bind. intros (q & Hq & Hp). apply list_elem_of_fmap in Hq as (? & [= -> ->] & _).
    apply list_elem_of_In, in_seq in Hp. split_and!; [lia|lia|]. apply lookup_replicate. split; [done|]. apply slot_lt. lia.
  - intros [[caps streams]|] e3 Hd; [|by apply wp_ret]. destruct (Hd _ _ eq_refl) as [K Hmet]. apply wp_bind.
    eapply wp_mono; [by apply (accept_peers_wp _ _ _ _ _ _ K)| |done]. intros [[caps' streams']|] e4 Hd'; [|by apply wp_ret].
    destruct (Hd' _ _ eq_refl) as [K' Hmet']. destruct (channel_missing local streams') eqn:Em; [done|].
    apply wp_ret. intros c [= <-]. eexists. apply met_established; [done|done|done|lia].
Qed.

(** Every connection has another end, at which arrives what is sent. *)
Definition paired (n : nat) (res : nat -> Connected) : Prop :=
  forall i p ch conn, (i < n)%nat -> cn_streams (res i) !! slot p ch = Some (Some conn) ->
    exists j q ch' conn', (j < n)%nat /\ cn_streams (res j) !! slot q ch' = Some (Some conn') /\
      arrived conn = sent conn' /\ arrived conn' = sent conn.

(** What a connection of [i] has at its other end. *)
Lemma paired_end cfg cfg' c c' K K' i p ch conn j q ch' conn' :
  established cfg c K -> established cfg' c' K' -> local_id cfg = Z.of_nat i -> local_id cfg' = Z.of_nat j ->
  (i < length (endpoints cfg))%nat -> len (endpoints cfg) <= u64_max ->
  length (endpoints cfg') = length (endpoints cfg) -> (p < length (endpoints cfg))%nat -> (j < length (endpoints cfg))%nat ->
  cn_streams c !! slot p ch = Some (Some conn) -> cn_streams c' !! slot q ch' = Some (Some conn') ->
  arrived conn = sent conn' -> arrived conn' = sent conn ->
  p = j /\ q = i /\ ch' = ch /\ K p ch = hello cfg' /\ hello_agree (hello cfg) (hello cfg').
Proof.
  intros He He' Hi Hj Hin Hu Hlen Hp Hjn Hx Hx' H1 H2. unfold len in Hu.
  assert (Hci : cn_index c = i) by (pose proof (es_index _ _ _ He); lia).
  assert (Hcj : cn_index c' = j) by (pose proof (es_index _ _ _ He'); lia).
  assert (Hpi : p <> cn_index c) by (intros ->; by rewrite (es_self _ _ _ He) in Hx).
  destruct (es_peers _ _ _ He p ch Hp Hpi) as (conn1 & Hx1 & Hint). rewrite Hx in Hx1. injection Hx1 as <-.
  assert (Hq : (q < length (endpoints cfg'))%nat).
  { apply lookup_lt_Some in Hx'. rewrite (es_length _ _ _ He') in Hx'. unfold slot in Hx'. pose proof (slot_div q ch') as Hd.
    rewrite <-Hd. apply Nat.Div0.div_lt_upper_bound. unfold slot. lia. }
  assert (Hqj : q <> cn_index c') by (intros ->; by rewrite (es_self _ _ _ He') in Hx').
  destruct (es_peers _ _ _ He' q ch' Hq Hqj) as (conn2 & Hx2 & Hint'). rewrite Hx' in Hx2. injection Hx2 as <-.
  rewrite (in_arrived _ _ _ _ _ Hint), (in_sent _ _ _ _ _ Hint'), Hj in H1.
  rewrite (in_arrived _ _ _ _ _ Hint'), (in_sent _ _ _ _ _ Hint), Hi in H2.
  apply bootstrap_layout_inj in H1 as (E1 & E2 & E3); [|unfold in_u; zunfold; lia|unfold in_u; zunfold; lia|apply Hint|apply Hint'].
  apply bootstrap_layout_inj in H2 as (F1 & F2 & F3); [|unfold in_u; zunfold; lia|unfold in_u; zunfold; lia|apply Hint'|apply Hint].
  split_and!; [lia|lia|done|done|]. rewrite <-E3. apply Hint.
Qed.

(** C29: localities that connect agree.  However the network behaves, [connect]
    does not panic; and when every locality of a run has connected, over
    connections that have two ends, the connection of [i] to [p] for a channel
    is that of [p] to [i] for the same channel, both runs, versions and
    registries are the same, and every locality has the same capabilities: those
    that all of them have. *)
Theorem connect_agrees (n : nat) (cfg : nat -> TcpConfig Addr) (res : nat -> Connected) :
  Z.of_nat n <= u64_max ->
  (forall i, (i < n)%nat -> length (endpoints (cfg i)) = n /\ local_id (cfg i) = Z.of_nat i /\ Hello_wf (hello (cfg i))) ->
  (forall i e, (net_now e).1 + bootstrap_timeout (cfg i) <= net_instant_max) ->
  (forall i fuel e, (i < n)%nat -> (connect fuel (cfg i) e).1 <> Err Panic) /\
  ((forall i, (i < n)%nat -> exists fuel e e', connect fuel (cfg i) e = (Ok (Some (res i)), e')) -> paired n res ->
   (forall i p ch, (i < n)%nat -> (p < n)%nat -> i <> p ->
      exists conn conn', cn_streams (res i) !! slot p ch = Some (Some conn) /\ cn_streams (res p) !! slot i ch = Some (Some conn') /\
        arrived conn = sent conn' /\ arrived conn' = sent conn /\ hello_agree (hello (cfg i)) (hello (cfg p))) /\
   (forall i b, (i < n)%nat -> 0 <= b -> Z.testbit (cn_capabilities (res i)) b = true <->
      forall p, (p < n)%nat -> Z.testbit (capabilities (hello (cfg p))) b = true) /\
   (forall i j, (i < n)%nat -> (j < n)%nat -> cn_capabilities (res i) = cn_capabilities (res j))).
Proof.
  intros Hn Hcfg Htime.
  assert (Hwp : forall i fuel e, (i < n)%nat ->
    wp (connect fuel (cfg i)) (fun r _ => forall c, r = Some c -> exists K, established (cfg i) c K) (fun _ _ => True) e).
  { intros i fuel e Hi. destruct (Hcfg i Hi) as (Hlen & Hid & Hwf). apply connect_wp; [done|lia|unfold len; lia|apply Htime]. }
  split.
  { intros i fuel e Hi Hp. specialize (Hwp i fuel e Hi). unfold wp in Hwp. by destruct (connect fuel (cfg i) e) as [[|[]] ?]. }
  intros Hres Hpair.
  assert (He : forall i, (i < n)%nat -> exists K, established (cfg i) (res i) K).
  { intros i Hi. destruct (Hres i Hi) as (fuel & e & e' & Heq). specialize (Hwp i fuel e Hi). unfold wp in Hwp. rewrite Heq in Hwp. by apply Hwp. }
  assert (Hidx : forall i K, (i < n)%nat -> established (cfg i) (res i) K -> cn_index (res i) = i).
  { intros i K Hi HK. destruct (Hcfg i Hi) as (_ & Hid & _). pose proof (es_index _ _ _ HK). lia. }
  assert (Hmeet : forall i K p ch, (i < n)%nat -> established (cfg i) (res i) K -> (p < n)%nat -> i <> p ->
    exists conn conn', cn_streams (res i) !! slot p ch = Some (Some conn) /\ cn_streams (res p) !! slot i ch = Some (Some conn') /\
        arrived conn = sent conn' /\ arrived conn' = sent conn /\ K p ch = hello (cfg p) /\ hello_agree (hello (cfg i)) (hello (cfg p))).
  { intros i K p ch Hi HK Hp Hne. destruct (Hcfg i Hi) as (Hlen & Hid & _).
    destruct (es_peers _ _ _ HK p ch) as (conn & Hx & _); [lia|rewrite (Hidx i K Hi HK); lia|].
    destruct (Hpair i p ch conn Hi Hx) as (j & q & ch' & conn' & Hj & Hx' & H1 & H2). destruct (He j Hj) as [K' HK'].
    destruct (Hcfg j Hj) as (Hlenj & Hidj & _).
    destruct (paired_end (cfg i) (cfg j) (res i) (res j) K K' i p ch conn j q ch' conn') as (<- & -> & -> & HKp & Hag); try done; try (unfold len; lia).
    exists conn, conn'. by split_and!. }
  assert (Hcaps : forall i b, (i < n)%nat -> 0 <= b -> Z.testbit (cn_capabilities (res i)) b = true <->
      forall p, (p < n)%nat -> Z.testbit (capabilities (hello (cfg p))) b = true).
  { intros i b Hi Hb. destruct (He i Hi) as [K HK]. destruct (Hcfg i Hi) as (Hlen & _ & _). rewrite (es_caps _ _ _ HK b Hb), Hlen, (Hidx i K Hi HK). split.
    - intros [Ho Hall] p Hp. destruct (decide (p = i)) as [->|Hne]; [done|]. specialize (Hall p Channel_Control Hp Hne).
      by destruct (Hmeet i K p Channel_Control Hi HK Hp) as (_ & _ & _ & _ & _ & _ & <- & _).
    - intros Hall. split; [by apply Hall|]. intros p ch Hp Hne. destruct (Hmeet i K p ch Hi HK Hp) as (_ & _ & _ & _ & _ & _ & -> & _); [done|]. by apply Hall. }
  split_and!.
  - intros i p ch Hi Hp Hne. destruct (He i Hi) as [K HK]. destruct (Hmeet i K p ch Hi HK Hp Hne) as (conn & conn' & H1 & H2 & H3 & H4 & _ & H5).
    by exists conn, conn'.
  - exact Hcaps.
  - intros i j Hi Hj. apply Z.bits_inj'. intros b Hb. apply eq_iff_eq_true. by rewrite (Hcaps i b Hi Hb), (Hcaps j b Hj Hb).
Qed.
End Connect.
Arguments NetworkLaws Addr Env {_}.

(** ** The rendezvous *)

Section Rendezvous.
Context {Addr : Type} `{!Addresses Addr}.
Implicit Types (l : list Addr).
Abbreviation TcpMembership := (@TcpMembership Addr).

(** The text of an address is UTF-8, within the limit, and parsed back.  (It is
    for every [SocketAddr] but one with an IPv6 flow label.) *)
Definition addr_ok (a : Addr) : Prop :=
  utf8_valid (addr_to_string a) = true /\ 0 < len (addr_to_string a) <= MAX_ENDPOINT_BYTES /\ addr_from_str (addr_to_string a) = Ok a.
Definition text_layout (s : list byte) : list byte := to_le_bytes 2 (len s) ++ s.
Definition join_layout (run : RunId) (s : list byte) : list byte := JOIN_MAGIC ++ to_le_bytes 16 run ++ text_layout s.
Definition membership_layout (run : RunId) (local : LocalityId) l : list byte :=
  MEMBERSHIP_MAGIC ++ to_le_bytes 16 run ++ to_le_bytes 8 local ++ to_le_bytes 4 (len l) ++
  concat (text_layout <$> (addr_to_string <$> l)).

Lemma endpoint_frame_ok a f : endpoint_frame a = Ok f -> f = text_layout (addr_to_string a).
Proof. unfold endpoint_frame. destruct (_ <? _); [done|]. destruct (_ <=? _); [|done]. by intros [= <-]. Qed.
Lemma endpoint_frame_addr a : addr_ok a -> endpoint_frame a = Ok (text_layout (addr_to_string a)).
Proof.
  intros (_ & Hlen & _). unfold endpoint_frame. unfold MAX_ENDPOINT_BYTES in *. by zdec.
Qed.
Lemma endpoint_frames_ok l fs : mapR endpoint_frame l = Ok fs -> fs = text_layout <$> (addr_to_string <$> l).
Proof.
  revert fs. induction l as [|a l IH]; intros fs Hm; cbn [mapR] in Hm; [by injection Hm as <-|].
  destruct (endpoint_frame a) as [f|] eqn:Ef; [|done]. destruct (mapR endpoint_frame l) as [gs|] eqn:Eg; [|done].
  cbn in Hm. injection Hm as <-. apply endpoint_frame_ok in Ef as ->. by rewrite (IH gs).
Qed.

Lemma read_endpoint_wp n c :
  0 <= n ->
  wp (read_endpoint n) (fun a c' => exists s, n = len s /\ consumed s c c' /\ addr_from_str s = Ok a) (fun _ _ => True) c.
Proof.
  intros Hn. unfold read_endpoint. destruct (_ || _); [done|]. apply wp_bind. eapply wp_mono; [apply read_exact_wp| |done].
  intros s c' [Hlen Hc]. destruct (negb _); [done|]. apply wp_lift. destruct (addr_from_str s) as [a|] eqn:Ea; [|done].
  exists s. split_and!; [unfold len; lia|done|done].
Qed.
Lemma read_endpoint_ready a rest c (Q : Addr -> Conn -> Prop) R :
  addr_ok a -> arriving c = addr_to_string a ++ rest ->
  (forall c', arriving c' = rest -> consumed (addr_to_string a) c c' -> Q a c') -> wp (read_endpoint (len (addr_to_string a))) Q R c.
Proof.
  intros (Hutf & Hlen & Hparse) Hc HQ. unfold read_endpoint. rewrite (proj2 (Z.eqb_neq _ _)) by lia. rewrite (proj2 (Z.ltb_ge _ _)) by lia.
  cbn [orb]. apply wp_bind. eapply (read_exact_ready _ _ _ _ _ _ Hc); [unfold len; lia|]. intros c' Hc1 Hc2. rewrite Hutf. cbn [negb].
  apply wp_lift. rewrite Hparse. by apply HQ.
Qed.

Lemma read_endpoints_ready l rest c (Q : list Addr -> Conn -> Prop) R :
  Forall addr_ok l -> arriving c = concat (text_layout <$> (addr_to_string <$> l)) ++ rest ->
  (forall c', arriving c' = rest -> consumed (concat (text_layout <$> (addr_to_string <$> l))) c c' -> Q l c') ->
  wp (read_endpoints (length l)) Q R c.
Proof.
  intros Hl. revert c Q. induction Hl as [|a l Ha Hl IH]; intros c Q Hc HQ.
  - apply wp_ret, HQ; [done|apply consumed_nil].
  - cbn [read_endpoints length]. cbn [fmap list_fmap concat] in Hc. unfold text_layout in Hc at 1. rewrite <-!app_assoc in Hc.
    apply wp_bind. eapply (read_exact_ready _ _ _ _ _ _ Hc); [apply length_to_le_bytes|]. intros c1 Hc1 Hr1.
    pose proof Ha as (_ & Hlen & _). unfold MAX_ENDPOINT_BYTES in Hlen.
    rewrite from_to_le_bytes by (change (256 ^ Z.of_nat 2) with 65536; lia).
    apply wp_bind, (read_endpoint_ready a _ _ _ _ Ha Hc1). intros c2 Hc2 Hr2. apply wp_bind, (IH c2 _ Hc2). intros c3 Hc3 Hr3.
    apply wp_ret, HQ; [done|]. cbn [fmap list_fmap concat]. unfold text_layout at 1. rewrite <-app_assoc.
    by eapply consumed_app; [|eapply consumed_app].
Qed.

Lemma read_membership_ready run local l rest c (Q : TcpMembership -> Conn -> Prop) R :
  id128_wf run -> 0 <= local < len l -> len l <= MAX_LOCALITIES -> NoDup l -> Forall addr_ok l ->
  arriving c = membership_layout run local l ++ rest ->
  (forall c', arriving c' = rest -> consumed (membership_layout run local l) c c' -> Q (mkTcpMembership local l) c') ->
  wp (read_membership run) Q R c.
Proof.
  intros Hrun Hlocal Hmax Hnd Hl Hc HQ. unfold read_membership, membership_layout, io_protocol in *. unfold MAX_LOCALITIES, id128_wf in *.
  set (header := MEMBERSHIP_MAGIC ++ to_le_bytes 16 run ++ to_le_bytes 8 local ++ to_le_bytes 4 (len l)).
  assert (Hc0 : arriving c = header ++ concat (text_layout <$> (addr_to_string <$> l)) ++ rest) by (rewrite Hc; unfold header; by rewrite <-!app_assoc).
  apply wp_bind. eapply (read_exact_ready 32 header _ _ _ _ Hc0); [unfold header; by rewrite !length_app, !length_to_le_bytes|]. intros c1 Hc1 Hr1.
  assert (S1 : take 4 header = MEMBERSHIP_MAGIC) by done.
  assert (S2 : slice 4 20 header = to_le_bytes 16 run) by done.
  assert (S3 : slice 20 28 header = to_le_bytes 8 local) by done.
  assert (S4 : slice 28 32 header = to_le_bytes 4 (len l)) by done.
  rewrite S1, S2, S3, S4, bool_decide_eq_true_2 by done. cbn [negb].
  rewrite !from_to_le_bytes by (first [change (256 ^ Z.of_nat 16) with (2 ^ 128)|change (256 ^ Z.of_nat 8) with (2 ^ 64)|change (256 ^ Z.of_nat 4) with (2 ^ 32)]; lia).
  apply wp_bind, wp_lift. unfold RunId_new. rewrite nonzero_id_ok by lia. cbn [map_err]. rewrite Z.eqb_refl. cbn [negb].
  unfold MAX_LOCALITIES. rewrite (proj2 (Z.eqb_neq _ _)), (proj2 (Z.ltb_ge _ _)), (proj2 (Z.leb_gt _ _)) by lia. cbn [orb].
  replace (Z.to_nat (len l)) with (length l) by (unfold len; lia).
  apply wp_bind, (read_endpoints_ready l rest c1 _ _ Hl Hc1). intros c2 Hc2 Hr2. rewrite bool_decide_eq_true_2 by done. cbn [negb].
  apply wp_ret, HQ; [done|].
  replace (_ ++ _) with (header ++ concat (text_layout <$> (addr_to_string <$> l))) by (unfold header; by rewrite <-!app_assoc).
  by eapply consumed_app.
Qed.

(** A locality that is told the membership accepts it. *)
Lemma join_exchange_ready (cfg : TcpRendezvousConfig) local l c :
  rv_timeout cfg <> 0 -> id128_wf (rv_run_id cfg) -> addr_ok (local_endpoint cfg) -> expected_localities cfg = len l -> len l <= MAX_LOCALITIES ->
  NoDup l -> Forall addr_ok l -> l !! Z.to_nat local = Some (local_endpoint cfg) -> 0 <= local -> write_error c = None ->
  arriving c = membership_layout (rv_run_id cfg) local l ->
  exists c', join_exchange cfg c = (Ok (mkTcpMembership local l), c') /\
    sent c' = sent c ++ join_layout (rv_run_id cfg) (addr_to_string (local_endpoint cfg)).
Proof.
  intros Ht Hrun Ha Hexp Hmax Hnd Hl Hat Hpos Hw Hc. pose proof (lookup_lt_Some _ _ _ Hat) as Hlt.
  enough (Hwp : wp (join_exchange cfg) (fun m c' => m = mkTcpMembership local l /\
     sent c' = sent c ++ join_layout (rv_run_id cfg) (addr_to_string (local_endpoint cfg))) (fun _ _ => False) c).
  { unfold wp in Hwp. destruct (join_exchange cfg c) as [[m|[]] c']; [|done..]. destruct Hwp as [-> Hs]. by exists c'. }
  unfold join_exchange, set_timeouts, write_join. apply wp_bind, wp_when. rewrite (proj2 (Z.eqb_neq _ _)) by done.
  apply wp_bind, wp_bind, wp_lift. rewrite endpoint_frame_addr by done. apply write_all_ready; [done|].
  intros c1 (Hc1 & _ & Hs1 & _). apply wp_bind.
  eapply (read_membership_ready _ local l []); try done; [unfold len; lia|by rewrite Hc1, Hc, app_nil_r|].
  intros c2 _ (_ & _ & Hs2 & _). cbn [m_endpoints m_local_id]. rewrite Hexp, Z.eqb_refl. cbn [negb].
  rewrite bool_decide_eq_true_2 by done. apply wp_ret. split; [done|]. by rewrite Hs2.
Qed.

(** What a locality accepts, whatever it is told. *)
Lemma read_endpoints_wp n c : wp (@read_endpoints Addr _ n) (fun _ _ => True) (fun _ _ => True) c.
Proof.
  revert c. induction n as [|n IH]; intros c; [done|]. cbn [read_endpoints]. apply wp_bind. eapply wp_mono; [apply read_exact_wp| |done].
  intros b c1 _. apply wp_bind. eapply wp_mono; [apply read_endpoint_wp, from_le_bytes_range| |done]. intros a c2 _.
  apply wp_bind. eapply wp_mono; [apply IH| |done]. by intros.
Qed.
Lemma join_exchange_safe (cfg : TcpRendezvousConfig) c :
  wp (join_exchange cfg)
    (fun m _ => NoDup (m_endpoints m) /\ len (m_endpoints m) = expected_localities cfg /\
       m_endpoints m !! Z.to_nat (m_local_id m) = Some (local_endpoint cfg)) (fun _ _ => True) c.
Proof.
  unfold join_exchange, set_timeouts, write_join. apply wp_bind, wp_when. destruct (_ =? 0); [done|].
  apply wp_bind, wp_bind, wp_lift. destruct (endpoint_frame _); [|done]. eapply wp_mono; [apply write_all_wp| |done].
  intros [] c1 _. apply wp_bind. eapply (wp_mono _ (fun m _ => NoDup (m_endpoints m))); [| |done].
  - unfold read_membership, io_protocol. apply wp_bind. eapply wp_mono; [apply read_exact_wp| |done]. intros header c2 _.
    destruct (negb _); [done|]. apply wp_bind, wp_lift. destruct (RunId_new _); [|done]. cbn [map_err]. destruct (negb _); [done|].
    destruct (_ || _); [done|]. apply wp_bind. eapply wp_mono; [apply read_endpoints_wp| |done]. intros l c3 _.
    destruct (bool_decide (NoDup l)) eqn:Ed; [|done]. zbool. by apply wp_ret.
  - intros m c2 Hm. destruct (_ =? _) eqn:El; [|done]. zbool. cbn [negb]. destruct (bool_decide _) eqn:Ea; [|done]. zbool. by apply wp_ret.
Qed.

(** ** The coordinator *)

Context {Env : Type} `{!Network Addr Env} `{!NetworkLaws Addr Env}.
Implicit Types (cfg : @TcpRendezvousConfig Addr) (clients : list Conn) (e : Env).

(** The locality at the other end of [conn] asked to join as [a]. *)
Definition joined_as (run : RunId) (a : Addr) (conn : Conn) : Prop :=
  exists s, addr_from_str s = Ok a /\ arrived conn = join_layout run s.

Lemma read_join_wp c :
  arrived c = [] ->
  wp read_join (fun '(run, a) c' => id128_wf run /\ joined_as run a c' /\ sent c' = sent c) (fun _ _ => True) c.
Proof.
  intros Harr. unfold read_join, io_protocol. apply wp_bind. eapply wp_mono; [apply read_exact_wp| |done]. intros header c1 [Hlen (_ & Ha1 & Hs1 & _)].
  destruct (bool_decide (take 4 header = JOIN_MAGIC)) eqn:Em; [|done]. zbool. cbn [negb].
  assert (H16 : length (slice 4 20 header) = 16%nat) by (rewrite length_slice; lia).
  assert (H2 : length (slice 20 22 header) = 2%nat) by (rewrite length_slice; lia).
  apply wp_bind, wp_lift. unfold RunId_new. destruct (nonzero_u128_id _ _) as [run|] eqn:Er; [|done]. apply nonzero_id_inv in Er as [-> Hne]. cbn [map_err].
  pose proof (from_le_bytes_range (slice 4 20 header)) as Hr. unfold len in Hr. rewrite H16 in Hr.
  apply wp_bind. eapply wp_mono; [apply read_endpoint_wp, from_le_bytes_range| |done]. intros a c2 (s & Hs & (_ & Ha2 & Hs2 & _) & Hparse).
  apply wp_ret. split_and!; [unfold id128_wf; change (256 ^ Z.of_nat 16) with (2 ^ 128) in Hr; lia| |congruence].
  exists s. split; [done|]. rewrite Ha2, Ha1, Harr. cbn [app]. unfold join_layout, text_layout. rewrite <-Hs.
  rewrite (to_from_le_bytes' 16) by done. rewrite (to_from_le_bytes' 2) by done. rewrite !app_assoc. f_equal.
  rewrite <-Em. change (take 4 header) with (slice 0 4 header). rewrite (slice_join 0 4 20), (slice_join 0 20 22) by lia.
  unfold slice. rewrite drop_0, take_ge; [done|lia].
Qed.

(** The localities that have joined [l], in the order of their identifiers. *)
Definition gathered cfg l clients : Prop :=
  NoDup l /\ exists joined, l = local_endpoint cfg :: joined /\
    Forall2 (fun a conn => joined_as (rv_run_id cfg) a conn /\ sent conn = []) joined clients.

Lemma gather_joins_wp fuel cfg deadline l clients e :
  gathered cfg l clients -> len l <= expected_localities cfg ->
  wp (gather_joins fuel cfg deadline l clients)
    (fun r _ => forall l' clients', r = Some (l', clients') -> gathered cfg l' clients' /\ len l' = expected_localities cfg) (fun _ _ => True) e.
Proof.
  revert l clients e. induction fuel as [|fuel IH]; intros l clients e Hg Hle; [by apply wp_ret|]. cbn [gather_joins].
  destruct (_ <=? _) eqn:El; zbool; [apply wp_ret; intros ? ? [= <- <-]; split; [done|lia]|].
  apply wp_bind, wp_on_net. intros t e1 _. destruct (deadline <=? t); [done|]. apply wp_bind, wp_on_net.
  intros [c|[|message]] e2 Hc; [|by apply IH|done]. apply net_accept_new in Hc as [Hc1 Hc2]. apply wp_bind, wp_on_conn.
  apply wp_bind. unfold set_timeouts. apply wp_when. destruct (_ =? 0); [done|].
  eapply wp_mono; [by apply read_join_wp| |done]. intros [run a] conn (Hrun & Hj & Hs).
  destruct (run =? rv_run_id cfg) eqn:Er; [|done]. zbool. subst run. cbn [negb].
  destruct (bool_decide (a ∈ l)) eqn:Ea; [done|]. zbool. destruct Hg as (Hnd & joined & -> & Hall). apply IH.
  - split.
    + apply NoDup_app. split_and!; [done| |apply NoDup_singleton]. intros x Hx ->%list_elem_of_singleton. done.
    + exists (joined ++ [a]). split; [done|]. apply Forall2_app; [done|]. constructor; [|done]. split; [done|congruence].
  - rewrite len_app. change (len [a]) with 1. lia.
Qed.

Lemma announce_wp cfg l offset clients e :
  wp (announce cfg l offset clients)
    (fun clients' _ => length clients' = length clients /\ forall k conn', clients' !! k = Some conn' ->
       exists conn, clients !! k = Some conn /\ arrived conn' = arrived conn /\
         sent conn' = sent conn ++ membership_layout (rv_run_id cfg) (Z.of_nat (offset + k) + 1) l) (fun _ _ => True) e.
Proof.
  revert offset e. induction clients as [|conn clients IH]; intros offset e; cbn [announce]; [by apply wp_ret|].
  apply wp_bind, wp_on_conn. unfold write_membership. apply wp_bind, wp_lift. destruct (_ <=? _); [|done].
  apply wp_bind, wp_lift. destruct (mapR endpoint_frame l) as [fs|] eqn:Ef; [|done]. apply endpoint_frames_ok in Ef as ->.
  eapply wp_mono; [apply write_all_wp| |done]. intros [] conn' (_ & Ha & Hs & _). apply wp_bind. eapply wp_mono; [apply IH| |done].
  intros rest e' [Hlen Hrest]. apply wp_ret. split; [cbn [length]; by rewrite Hlen|]. intros [|k] x Hx.
  - injection Hx as <-. exists conn. rewrite Nat.add_0_r. by split_and!.
  - destruct (Hrest k x Hx) as (y & Hy & Hxa & Hxs). exists y. split_and!; [done|done|]. rewrite Hxs. do 3 f_equal. lia.
Qed.

Lemma coordinate_wp fuel cfg e :
  1 <= expected_localities cfg -> (forall e, (net_now e).1 + rv_timeout cfg <= net_instant_max) ->
  wp (coordinate fuel cfg)
    (fun r _ => forall m clients, r = Some (m, clients) ->
       m_local_id m = 0 /\ NoDup (m_endpoints m) /\ len (m_endpoints m) = expected_localities cfg /\
       m_endpoints m !! 0%nat = Some (local_endpoint cfg) /\ len (m_endpoints m) = len clients + 1 /\
       forall k conn, clients !! k = Some conn -> exists a, m_endpoints m !! S k = Some a /\ joined_as (rv_run_id cfg) a conn /\
         sent conn = membership_layout (rv_run_id cfg) (Z.of_nat k + 1) (m_endpoints m)) (fun _ _ => True) e.
Proof.
  intros Hexp Htime. unfold coordinate. apply wp_bind, wp_on_net. intros bound e1 _. apply wp_bind, wp_lift_io. intros _.
  apply wp_bind. unfold deadline_after. apply wp_bind, wp_on_net. intros t e2 Ht. specialize (Htime e1). rewrite Ht in Htime. cbn [fst] in Htime.
  rewrite (proj2 (Z.ltb_ge _ _)) by done. apply wp_ret, wp_bind.
  eapply wp_mono; [apply gather_joins_wp| |done]; [split; [apply NoDup_singleton|by exists []]|done|].
  intros [[l clients]|] e3 Hg; [|by apply wp_ret]. destruct (Hg _ _ eq_refl) as [(Hnd & joined & -> & Hall) Hlen].
  apply wp_bind. eapply wp_mono; [apply announce_wp| |done]. intros clients' e4 [Hlen' Hsaid]. apply wp_ret. intros m ? [= <- <-].
  cbn [m_local_id m_endpoints]. pose proof (Forall2_length _ _ _ Hall) as Hl2. split_and!; try done.
  - rewrite len_cons. unfold len. lia.
  - intros k conn' Hk. destruct (Hsaid k conn' Hk) as (conn & Hc & Ha & Hs).
    destruct (Forall2_lookup_r _ _ _ _ _ Hall Hc) as (a & Hat & (s & Hparse & Harr) & Hsent). exists a. split_and!; [done| |].
    + exists s. split; [done|congruence].
    + by rewrite Hs, Hsent.
Qed.

Lemma join_coordinator_wp fuel cfg e :
  (forall e, (net_now e).1 + rv_timeout cfg <= net_instant_max) ->
  wp (join_coordinator fuel cfg)
    (fun r _ => forall m clients, r = Some (m, clients) ->
       NoDup (m_endpoints m) /\ len (m_endpoints m) = expected_localities cfg /\
       m_endpoints m !! Z.to_nat (m_local_id m) = Some (local_endpoint cfg)) (fun _ _ => True) e.
Proof.
  intros Htime. unfold join_coordinator. apply wp_bind. unfold deadline_after. apply wp_bind, wp_on_net. intros t e2 Ht.
  specialize (Htime e). rewrite Ht in Htime. cbn [fst] in Htime. rewrite (proj2 (Z.ltb_ge _ _)) by done. apply wp_ret, wp_bind.
  eapply wp_mono; [apply connect_until_wp| |done]. intros [c|] e3 _; [|by apply wp_ret]. apply wp_bind, wp_on_conn.
  eapply wp_mono; [apply join_exchange_safe| |done]. intros m c' Hm. apply wp_ret. by intros ? ? [= <- _].
Qed.

(** The text of an address determines it. *)
Lemma joined_as_own run a b conn :
  addr_ok b -> joined_as run a conn -> arrived conn = join_layout run (addr_to_string b) -> a = b.
Proof.
  intros (_ & _ & Hb) (s & Hs & Harr) Heq. rewrite Harr in Heq. unfold join_layout, text_layout in Heq.
  do 2 apply app_inv_head in Heq. apply app_inj_1 in Heq as [_ ->]; [|by rewrite !length_to_le_bytes]. rewrite Hb in Hs. by injection Hs.
Qed.

(** C30: the localities of a rendezvous agree.  Whoever joins and whatever the
    network does, neither side panics; a membership, once it is returned, has the
    expected number of distinct endpoints, that of the coordinator first and those
    that joined in the order of their identifiers; a locality only accepts one
    that has its own endpoint at its own place; and when a locality reads what the
    coordinator wrote to it, it accepts exactly that membership, under the
    identifier of its place. *)
Theorem rendezvous_agrees cfg fuel e :
  0 <= expected_localities cfg -> (forall e, (net_now e).1 + rv_timeout cfg <= net_instant_max) ->
  (join fuel cfg e).1 <> Err Panic /\
  (forall m clients e', join fuel cfg e = (Ok (Some (m, clients)), e') ->
     NoDup (m_endpoints m) /\ len (m_endpoints m) = expected_localities cfg /\
     m_endpoints m !! Z.to_nat (m_local_id m) = Some (local_endpoint cfg) /\
     (coordinator cfg = true -> m_local_id m = 0 /\ len (m_endpoints m) = len clients + 1 /\
        forall k conn (other : TcpRendezvousConfig) c, clients !! k = Some conn ->
          id128_wf (rv_run_id cfg) -> Forall addr_ok (m_endpoints m) -> addr_ok (local_endpoint other) ->
          rv_run_id other = rv_run_id cfg -> expected_localities other = expected_localities cfg -> rv_timeout other <> 0 ->
          arrived conn = join_layout (rv_run_id other) (addr_to_string (local_endpoint other)) ->
          write_error c = None -> sent c = [] -> arriving c = sent conn ->
          exists c', join_exchange other c = (Ok (mkTcpMembership (Z.of_nat k + 1) (m_endpoints m)), c') /\ sent c' = arrived conn)).
Proof.
  intros Hpos Htime. unfold join, validate_config.
  destruct (expected_localities cfg =? 0) eqn:E0; [by split|]. destruct (MAX_LOCALITIES <? expected_localities cfg) eqn:Em; [by split|].
  cbn [orb]. destruct (rv_timeout cfg =? 0) eqn:Et; [by split|]. zbool. unfold lift, mbind, M_bind. cbv beta iota.
  destruct (coordinator cfg) eqn:Ec.
  - pose proof (coordinate_wp fuel cfg e ltac:(lia) Htime) as Hwp. unfold wp in Hwp.
    split; [by destruct (coordinate fuel cfg e) as [[|[]] ?]|]. intros m clients e' Heq. rewrite Heq in Hwp.
    destruct (Hwp m clients eq_refl) as (H0 & Hnd & Hlen & Hat & Hc & Hsaid). split_and!; try done; [by rewrite H0|].
    intros _. split_and!; [done|done|]. intros k conn other c Hk Hrun Hok Ha Er Ex Ht Harr Hw Hs Hc'.
    destruct (Hsaid k conn Hk) as (a & Hka & Hj & Hsent).
    assert (Hown : m_endpoints m !! S k = Some (local_endpoint other)).
    { rewrite Hka. f_equal. by eapply joined_as_own; [|rewrite <-Er in Hj|]. }
    destruct (join_exchange_ready other (Z.of_nat k + 1) (m_endpoints m) c) as (c' & Hx & Hsc); try done; try (rewrite ?Er; done); try lia.
    + by replace (Z.to_nat (Z.of_nat k + 1)) with (S k) by lia.
    + by rewrite Hc', Er.
    + exists c'. by rewrite Hx, Hsc, Hs, Harr.
  - pose proof (join_coordinator_wp fuel cfg e Htime) as Hwp. unfold wp in Hwp.
    split; [by destruct (join_coordinator fuel cfg e) as [[|[]] ?]|]. intros m clients e' Heq. rewrite Heq in Hwp.
    destruct (Hwp m clients eq_refl) as (Hnd & Hlen & Hat). by split_and!.
Qed.
End Rendezvous.

(** ** Examples

    A network that gives the connections it was told to, and a clock that
    stands still. *)
Record ExNet : Type := mkExNet { ex_accepts : list (list byte); ex_connects : list (list byte) }.
Definition ex_conn (b : list byte) : Conn := mkConn b [] [] "timed out" None.
#[export] Instance ex_network : Network Z ExNet := {|
  net_now e := (0, e);
  net_bind _ e := (Ok tt, e);
  net_accept e :=
    match ex_accepts e with
    | [] => (Err WouldBlock, e)
    | b :: rest => (Ok (ex_conn b), mkExNet rest (ex_connects e))
    end;
  net_connect _ _ e :=
    match ex_connects e with
    | [] => (Err TryAgain, e)
    | b :: rest => (Ok (ex_conn b), mkExNet (ex_accepts e) rest)
    end;
  stream_new _ := Ok tt;
  net_instant_max := u64_max;
|}.
#[export] Instance ex_network_laws : NetworkLaws Z ExNet.
Proof.
  split.
  - intros e c e'. unfold net_accept, ex_network. destruct (ex_accepts e); [done|]. by intros [= <- _].
  - intros a t e c e'. unfold net_connect, ex_network. destruct (ex_connects e); [done|]. by intros [= <- _].
Qed.
(** Addresses of one digit. *)
#[export] Instance ex_addresses : Addresses Z := {|
  addr_to_string a := [byte_of (48 + a)];
  addr_from_str s := match s with [b] => Ok (byte_val b - 48) | _ => Err "invalid socket address syntax" end;
  utf8_error _ := "invalid utf-8";
|}.

(** Two localities with limits of their own. *)
Definition ex_greeting (caps frame : Z) : Hello :=
  mkHello 9 (mkRuntimeVersion 0 1 2) (repeat Byte.x0a 32) (repeat Byte.x0b 32) caps (mkProtocolLimits frame 4096 8 16 65536 1024).
Definition ex_tcp_config (i : nat) : TcpConfig Z :=
  mkTcpConfig (Z.of_nat i) [4; 5] (match i with O => ex_greeting 13 8192 | _ => ex_greeting 7 100 end) 1000 1000.
Definition ex_net (i : nat) : ExNet :=
  match i with
  | O => mkExNet ((fun c => bootstrap_layout 1 c (hello (ex_tcp_config 1))) <$> all_channels) []
  | _ => mkExNet [] ((fun c => bootstrap_layout 0 c (hello (ex_tcp_config 0))) <$> all_channels)
  end.
Definition ex_connected (i : nat) : Connected :=
  match (connect 8 (ex_tcp_config i) (ex_net i)).1 with
  | Ok (Some c) => c
  | _ => mkConnected 0 0 (Protocol.limits (hello (ex_tcp_config i))) []
  end.

Lemma ex_connects_ok i : (i < 2)%nat -> exists fuel e e', connect fuel (ex_tcp_config i) e = (Ok (Some (ex_connected i)), e').
Proof.
  intros Hi. exists 8%nat, (ex_net i), (connect 8 (ex_tcp_config i) (ex_net i)).2.
  destruct i as [|[|]]; [vm_compute; reflexivity..|lia].
Qed.
Lemma ex_paired : paired 2 ex_connected.
Proof.
  intros i p ch conn Hi Hx.
  assert (Hp : (p < 2)%nat).
  { apply lookup_lt_Some in Hx. assert (Hlen : length (cn_streams (ex_connected i)) = 6%nat) by (destruct i as [|[|]]; [vm_compute; reflexivity..|lia]).
    rewrite Hlen in Hx. rewrite <-(slot_div p ch). apply Nat.Div0.div_lt_upper_bound. lia. }
  exists p, i, ch.
  destruct i as [|[|]]; [| |lia]; (destruct p as [|[|]]; [| |lia]); destruct ch; vm_compute in Hx; try discriminate Hx;
    injection Hx as <-; eexists; (split; [lia|]); (split; [vm_compute; reflexivity|split; reflexivity]).
Qed.

Lemma connect_agrees_witness : cn_capabilities (ex_connected 0) = cn_capabilities (ex_connected 1) /\ cn_capabilities (ex_connected 0) = 5.
Proof.
  destruct (connect_agrees 2 ex_tcp_config ex_connected) as (_ & Hall).
  - vm_compute; congruence.
  - intros i Hi. split; [reflexivity|]. split; [reflexivity|]. apply (bool_decide_unpack _). destruct i as [|i]; vm_compute; exact I.
  - intros i e. vm_compute; congruence.
  - destruct (Hall ex_connects_ok ex_paired) as (_ & _ & Hcaps). split; [apply Hcaps; lia|vm_compute; reflexivity].
Defined.

(** The limits are those of each side: what the one may send the other refuses. *)
Definition ex_large : Parcel := mkParcel 9 1 Channel_Action ParcelKind_Data 0 1 None [repeat Byte.x00 40].
Lemma limits_not_negotiated :
  max_frame_bytes (cn_limits (ex_connected 0)) = 8192 /\ max_frame_bytes (cn_limits (ex_connected 1)) = 100 /\
  Parcel_validate ex_large (cn_limits (ex_connected 0)) = Ok tt /\
  next_frame (cn_limits (ex_connected 1)) (to_le_bytes 8 (len (parcel_layout ex_large)) ++ parcel_layout ex_large) =
    Err (TransportError_ByteLimit (len (parcel_layout ex_large)) 100).
Proof. vm_compute. by repeat split. Qed.

Definition ex_rendezvous (coordinator : bool) (endpoint : Z) : TcpRendezvousConfig :=
  mkTcpRendezvousConfig 9 3 endpoint 2 coordinator 1000.
Definition ex_joining : ExNet := mkExNet [join_layout 9 (addr_to_string 5)] [].
Definition ex_client : Conn :=
  match (join 4 (ex_rendezvous true 4) ex_joining).1 with Ok (Some (_, [conn])) => conn | _ => ex_conn [] end.

Lemma rendezvous_agrees_witness :
  exists c', join_exchange (ex_rendezvous false 5) (ex_conn (sent ex_client)) = (Ok (mkTcpMembership 1 [4; 5]), c') /\
    sent c' = join_layout 9 (addr_to_string 5).
Proof.
  assert (Hok : forall a, a ∈ [4; 5] -> addr_ok a).
  { intros a Ha. apply list_elem_of_In in Ha. unfold addr_ok. destruct Ha as [<-|[<-|[]]]; vm_compute; repeat split; congruence. }
  destruct (rendezvous_agrees (ex_rendezvous true 4) 4 ex_joining) as (_ & Hjoin).
  - vm_compute; congruence.
  - intros e. vm_compute; congruence.
  - destruct (Hjoin (mkTcpMembership 0 [4; 5]) [ex_client] (mkExNet [] [])) as (_ & _ & _ & Hother); [vm_compute; reflexivity|].
    destruct (Hother eq_refl) as (_ & _ & Htold).
    destruct (Htold 0%nat ex_client (ex_rendezvous false 5) (ex_conn (sent ex_client))) as (c' & Hc & Hs);
      [reflexivity|vm_compute; split; congruence|by apply Forall_forall|apply Hok; set_solver|reflexivity|reflexivity|vm_compute; congruence
      |vm_compute; reflexivity|reflexivity|reflexivity|reflexivity|].
    exists c'. split; [exact Hc|]. rewrite Hs. vm_compute. reflexivity.
Defined.
