(* ===== verification/MpiTransport.v ===== *)
(** * MpiTransport: parcels in chunks over a communicator

    Models the handle and the driver of
    [crates/hataori-runtime-foundation/src/mpi.rs]: the chunks of a parcel, their
    reassembly, and the driver.  The communicator is a parameter,
    [Communicator]; what is sent to a peer or comes from it is found by the
    [slot] of the peer and the channel.  [connect] is in [MpiConnect]. *)
From Stdlib Require Import Strings.Byte.
From S2P Require Import Prelude Protocol Transport Link.

Definition CHUNK_MAGIC : list byte := [Byte.x48; Byte.x4d; Byte.x50; Byte.x43].
Definition CHUNK_VERSION : byte := Byte.x01.
Definition CHUNK_HEADER_BYTES : Z := 29.
Definition CHUNK_PAYLOAD_BYTES : Z := 4 * 1024.

(** ** The communicator *)

(** [mpi_receive c]: an [immediate_probe_with_tag] for the tag of [c] and, when
    it finds a message, its receipt; [mpi_rounds]: how many messages there are at
    most before a probe finds none. *)
Class Communicator (Env : Type) := mkCommunicator {
  mpi_main_thread : Env -> bool;
  mpi_receive : Channel -> Env -> option (Z * list byte) * Env;
  mpi_rounds : Env -> nat;
  mpi_send : nat -> Channel -> list byte -> Env -> Env;
  mpi_barrier : Env -> Env;
  mpi_now : Env -> Z * Env;
  mpi_others : Env -> Env;
  mpi_parcels : Env -> list Parcel;
  mpi_instant_max : Z;
}.

Record Outbound : Type := mkOutbound {
  ob_ticket : SendTicket; ob_bytes : list byte; ob_offset : Z; chunk_index : Z; chunk_count : Z; ob_reserved : Z;
}.
Record Reassembly : Type := mkReassembly {
  transfer : Z; total : Z; next_chunk : Z; re_count : Z; re_bytes : list byte;
}.
Record MpiLink (Env : Type) : Type := mkMpiLink {
  outbound : list (option Outbound); reassembly : list (option Reassembly); communicator : Env;
}.
Arguments mkMpiLink {Env} _ _ _. Arguments outbound {Env} _. Arguments reassembly {Env} _. Arguments communicator {Env} _.

(** ** Chunks *)

(** [usize::div_ceil]. *)
Definition div_ceil (a b : Z) : Z := (a + b - 1) / b.

Definition Outbound_new (x : Submission) (l : ProtocolLimits) : result (SendTicket * Z * TransportError) Outbound :=
  bytes ← map_err (fun e => (sub_ticket x, sub_reserved x, TransportError_Protocol e)) (encode_parcel (sub_parcel x) l);
  let count := div_ceil (len bytes) CHUNK_PAYLOAD_BYTES in
  count ← (if count <=? u32_max then Ok count else Err (sub_ticket x, sub_reserved x, TransportError_ByteLimit count u32_max));
  Ok (mkOutbound (sub_ticket x) bytes 0 0 count (sub_reserved x)).

(** The next chunk, and what is left. *)
Definition Outbound_next_chunk (o : Outbound) : result TransportError (list byte * Outbound) :=
  finish ← ok_or (checked_add usize_max (ob_offset o) CHUNK_PAYLOAD_BYTES) (TransportError_ByteLimit usize_max (len (ob_bytes o)));
  let finish := Z.min finish (len (ob_bytes o)) in
  total ← (if len (ob_bytes o) <=? u64_max then Ok (len (ob_bytes o)) else Err (TransportError_ByteLimit (len (ob_bytes o)) u64_max));
  Ok (CHUNK_MAGIC ++ [CHUNK_VERSION] ++ to_le_bytes 8 (ob_ticket o) ++ to_le_bytes 8 total
        ++ to_le_bytes 4 (chunk_index o) ++ to_le_bytes 4 (chunk_count o)
        ++ slice (Z.to_nat (ob_offset o)) (Z.to_nat finish) (ob_bytes o),
      mkOutbound (ob_ticket o) (ob_bytes o) finish (chunk_index o + 1) (chunk_count o) (ob_reserved o)).
Definition Outbound_complete (o : Outbound) : bool := ob_offset o =? len (ob_bytes o).

Abbreviation SlotM := (M (option Reassembly) TransportError).

(** The last chunk of a transfer. *)
Definition reassembled (l : ProtocolLimits) (state : Reassembly) : SlotM (option Parcel) :=
  modify (fun _ => None);;
  if negb (len (re_bytes state) =? total state) then raise (TransportError_Peer "MPI reassembly length mismatch") else
  parcel ← lift (map_err TransportError_Protocol (decode_parcel (re_bytes state) l));
  mret (Some parcel).

Definition accept_chunk (chunk : list byte) (l : ProtocolLimits) : SlotM (option Parcel) :=
  if len chunk <? CHUNK_HEADER_BYTES then raise (TransportError_Peer "MPI chunk header is truncated") else
  if negb (bool_decide (take 4 chunk = CHUNK_MAGIC)) || negb (bool_decide (slice 4 5 chunk = [CHUNK_VERSION]))
  then raise (TransportError_Peer "MPI chunk magic/version mismatch") else
  let transfer' := from_le_bytes (slice 5 13 chunk) in
  let total' := from_le_bytes (slice 13 21 chunk) in
  let index := from_le_bytes (slice 21 25 chunk) in
  let count := from_le_bytes (slice 25 29 chunk) in
  let expected := div_ceil total' CHUNK_PAYLOAD_BYTES in
  if negb (expected <=? u32_max) then raise (TransportError_ByteLimit expected u32_max) else
  if (transfer' =? 0) || (count =? 0) || negb (count =? expected) || (count <=? index) || (max_frame_bytes l <? total')
  then raise (TransportError_Peer "MPI chunk metadata is invalid") else
  let expected := if index + 1 =? count then total' - index * CHUNK_PAYLOAD_BYTES else CHUNK_PAYLOAD_BYTES in
  let actual := len chunk - CHUNK_HEADER_BYTES in
  if negb (actual =? expected) then raise (TransportError_ByteLimit actual expected) else
  slot ← gets id;
  (match slot with
   | Some _ => mret tt
   | None =>
       if negb (index =? 0) then raise (TransportError_Peer "MPI chunk sequence does not start at zero")
       else modify (fun _ => Some (mkReassembly transfer' total' 0 count []))
   end);;
  slot ← gets id;
  match slot with
  | None => panic
  | Some state =>
      if negb (transfer state =? transfer') || negb (total state =? total') || negb (re_count state =? count)
         || negb (next_chunk state =? index)
      then raise (TransportError_Peer "MPI chunk sequence mismatch") else
      let bytes := re_bytes state ++ drop 29 chunk in
      let state := mkReassembly (transfer state) (total state) (next_chunk state) (re_count state) bytes in
      modify (fun _ => Some state);;
      if total state <? len bytes then raise (TransportError_ByteLimit (len bytes) (total state)) else
      let state := mkReassembly (transfer state) (total state) (next_chunk state + 1) (re_count state) bytes in
      modify (fun _ => Some state);;
      if next_chunk state =? re_count state then reassembled l state else mret None
  end.

Section Mpi.
Context {Env : Type} `{!Communicator Env}.
Abbreviation MpiDriver := (Driver (MpiLink Env)).
Abbreviation DM := (M MpiDriver TransportError).

Definition set_communicator (e : Env) (d : MpiDriver) : MpiDriver :=
  set_link (mkMpiLink (outbound (link d)) (reassembly (link d)) e) d.
Definition set_outbound (i : nat) (x : option Outbound) (d : MpiDriver) : MpiDriver :=
  set_link (mkMpiLink (<[i := x]> (outbound (link d))) (reassembly (link d)) (communicator (link d))) d.
Definition set_reassembly (i : nat) (x : option Reassembly) (d : MpiDriver) : MpiDriver :=
  set_link (mkMpiLink (outbound (link d)) (<[i := x]> (reassembly (link d))) (communicator (link d))) d.
Definition on_communicator {A} (f : Env -> A * Env) : DM A := fun d =>
  let '(a, e) := f (communicator (link d)) in (Ok a, set_communicator e d).

Definition require_main_thread : DM unit :=
  main ← gets (fun d : MpiDriver => mpi_main_thread (communicator (link d)));
  mwhen (negb main) (raise TransportError_WrongThread).

(** ** The handle *)

Definition mpi_try_send (p : Parcel) : DM SendTicket :=
  peer ← addressed p;
  reserved ← lift_p (Parcel_encoded_len p);
  submit peer p reserved.

(** ** The driver *)

Definition outbound_at (i : nat) : DM (option Outbound) :=
  d ← gets id;
  match outbound (link d) !! i with Some x => mret x | None => panic end.
(** A chunk for the slot [i]. *)
Definition on_slot (i : nat) (chunk : list byte) : DM (option Parcel) := fun d =>
  match reassembly (link d) !! i with
  | None => (Err Panic, d)
  | Some x => let '(r, x) := accept_chunk chunk (d_limits d) x in (r, set_reassembly i x d)
  end.

(** A message from [rank]. *)
Definition receive_one (c : Channel) (rank : Z) (chunk : list byte) : DM unit :=
  if rank <? 0 then raise (TransportError_Peer "invalid MPI source rank") else
  let source := Z.to_nat rank in
  found ← on_slot (slot source c) chunk;
  match found with
  | None => mret tt
  | Some parcel =>
      d ← gets id;
      if negb (run_id parcel =? d_run d) then raise (TransportError_Protocol ProtocolError_RunMismatch) else
      match members d !! source with
      | None => panic
      | Some peer =>
          if negb (Protocol.source parcel =? peer) || negb (destination parcel =? d_local d)
          then raise (TransportError_Peer "MPI parcel identity does not match rank mapping") else
          n ← lift_p (Parcel_payload_len parcel);
          on_shared (record_received n);;
          push_event (Incoming parcel)
      end
  end.

(** The messages of a channel, while there is room for events. *)
Fixpoint receive_loop (fuel : nat) (c : Channel) (start max : Z) (moved : bool) : DM bool :=
  match fuel with
  | O => panic
  | S fuel =>
      n ← gets (fun d : MpiDriver => len (out d) - start);
      if max <=? n then mret moved else
      found ← on_communicator (mpi_receive c);
      match found with
      | None => mret moved
      | Some (rank, chunk) => receive_one c rank chunk;; receive_loop fuel c start max true
      end
  end.

(** A submission of the channel becomes the transfer of the slot. *)
Definition start_transfer (peer : nat) (c : Channel) (start max : Z) : DM unit :=
  let i := slot peer c in
  current ← outbound_at i;
  match current with
  | Some _ => mret tt
  | None =>
      next ← try_recv i;
      match next with
      | None => mret tt
      | Some submission =>
          d ← gets id;
          match Outbound_new submission (d_limits d) with
          | Ok o => modify (set_outbound i (Some o))
          | Err (ticket, reserved, error) =>
              on_shared (release peer c reserved);;
              report start max (SendFailed ticket error)
          end
      end
  end.

(** A chunk of the transfer is sent. *)
Definition send_chunk (peer : nat) (c : Channel) (start max : Z) : DM bool :=
  let i := slot peer c in
  current ← outbound_at i;
  match current with
  | None => mret false
  | Some o =>
      '(chunk, o) ← lift (Outbound_next_chunk o);
      modify (set_outbound i (Some o));;
      on_communicator (fun e => (tt, mpi_send peer c chunk e));;
      (if Outbound_complete o then
         modify (set_outbound i None);;
         on_shared (release peer c (ob_reserved o));;
         report start max (LocalSendComplete (ob_ticket o))
       else mret tt);;
      mret true
  end.

Fixpoint send_visits (l : list nat) (c : Channel) (start max : Z) : DM bool :=
  match l with
  | [] => mret false
  | peer :: l =>
      start_transfer peer c start max;;
      moved ← send_chunk peer c start max;
      rest ← send_visits l c start max;
      mret (moved || rest)
  end.

Fixpoint channel_visits (cs : list Channel) (start max : Z) : DM bool :=
  match cs with
  | [] => mret false
  | c :: cs =>
      rounds ← gets (fun d : MpiDriver => mpi_rounds (communicator (link d)));
      received ← receive_loop (S rounds) c start max false;
      d ← gets id;
      sent ← send_visits (filter (fun peer => peer <> Z.to_nat (d_local d)) (peer_indices d)) c start max;
      rest ← channel_visits cs start max;
      mret (received || sent || rest)
  end.

Definition mpi_drive (max : Z) : DM bool :=
  require_main_thread;;
  start ← gets (fun d : MpiDriver => len (out d));
  channel_visits all_channels start max.

(** What [fail] does to a transfer. *)
Definition mpi_drain_slot (peer : nat) (c : Channel) : DM unit :=
  current ← outbound_at (slot peer c);
  match current with
  | None => mret tt
  | Some o => modify (set_outbound (slot peer c) None);; on_shared (release peer c (ob_reserved o))
  end;;
  d ← gets id;
  match reassembly (link d) !! slot peer c with
  | None => panic
  | Some _ => modify (set_reassembly (slot peer c) None)
  end.

Definition mpi_link_empty (d : MpiDriver) : bool :=
  forallb (fun x => match x with None => true | Some _ => false end) (outbound (link d)).

(** Was a transfer incomplete? *)
Definition partial_reassembly (d : MpiDriver) : bool :=
  existsb (fun x => match x with None => false | Some _ => true end) (reassembly (link d)).
Definition mpi_close_link : DM bool :=
  modify (fun d => set_communicator (mpi_barrier (communicator (link d))) d);;
  partial ← gets partial_reassembly;
  modify (fun d => set_link (mkMpiLink (outbound (link d)) ((fun _ => None) <$> reassembly (link d)) (communicator (link d))) d);;
  mret partial.

Definition mpi_others_step (d : MpiDriver) : MpiDriver :=
  foldl (fun d p => (mpi_try_send p d).2) (set_communicator (mpi_others (communicator (link d))) d)
    (mpi_parcels (communicator (link d))).

#[export] Instance mpi_backend : Backend (MpiLink Env) := {|
  drive := mpi_drive; drain_slot := mpi_drain_slot; link_empty := mpi_link_empty; close_link := mpi_close_link;
  now := on_communicator mpi_now; others := mpi_others_step; instant_max := mpi_instant_max;
  flush_name := "MPI flush"; partial_frame := "MPI shutdown found partial reassembly";
|}.

(** [shutdown] is only for the main thread. *)
Definition mpi_shutdown (fuel : nat) (timeout : Z) : DM (option unit) :=
  require_main_thread;; shutdown fuel timeout.

Definition mpi_stats (d : MpiDriver) : option TransportStats :=
  s ← stats (shared d);
  Some (add_pending_event_stats
    (mkTransportStats (submitted_parcels s) (submitted_bytes s) (received_parcels s) (received_bytes s) (queued_control s)
       (queued_action s) (queued_bulk s) (queued_bytes s) (retained_read_bytes s) (retained_write_bytes s)
       (foldr (fun x n => match x with Some x => len (re_bytes x) + n | None => n end) 0 (reassembly (link d)))
       (peer_failures s) (pending_events s) (pending_event_bytes s)) (waiting d)).

(** The driver [connect] returns: the locality is the rank, and the limits are
    those all ranks agreed on. *)
Definition mpi_driver (rank size : nat) (run : RunId) (caps : Z) (l : ProtocolLimits) (e : Env) : MpiDriver :=
  mkDriver (Z.of_nat rank) run (Z.of_nat <$> seq 0 size) caps l (replicate (size * 3) []) true []
    (SubmissionState_new size l) None false []
    (mkMpiLink (replicate (size * 3) None) (replicate (size * 3) None) e).
End Mpi.
