(* ===== verification/MpiRuns.v ===== *)
(** * MpiRuns: chunks are put together again as they were cut

    What the two ends of an MPI transport make of a parcel: the chunks that are
    sent, and what comes of chunks that arrive. *)
From Stdlib Require Import Strings.Byte.
From S2P Require Import Prelude Protocol Transport Link LinkRuns MpiTransport.

(** ** Chunks *)

Definition CHUNK : nat := 4096.
Definition mkchunk (t total index count : Z) (payload : list byte) : list byte :=
  CHUNK_MAGIC ++ [CHUNK_VERSION] ++ to_le_bytes 8 t ++ to_le_bytes 8 total ++ to_le_bytes 4 index ++ to_le_bytes 4 count ++ payload.
Definition piece (b : list byte) (k : nat) : list byte := slice (k * CHUNK) (S k * CHUNK) b.
Definition chunk_at (t : Z) (b : list byte) (total count : Z) (k : nat) : list byte := mkchunk t total (Z.of_nat k) count (piece b k).
Definition pieces (b : list byte) : nat := Z.to_nat (div_ceil (len b) CHUNK_PAYLOAD_BYTES).
(** All chunks of a transfer, and the first [k] of them. *)
Definition first_chunks (t : Z) (b : list byte) (total count : Z) (k : nat) : list (list byte) := chunk_at t b total count <$> seq 0 k.
Definition chunks (t : Z) (b : list byte) : list (list byte) := first_chunks t b (len b) (Z.of_nat (pieces b)) (pieces b).

Lemma first_chunks_S t b total count k : first_chunks t b total count (S k) = first_chunks t b total count k ++ [chunk_at t b total count k].
Proof. unfold first_chunks. by rewrite seq_S, fmap_app. Qed.

Lemma pieces_spec b : b <> [] -> (0 < pieces b)%nat /\ (pieces b * CHUNK < length b + CHUNK)%nat /\ (length b <= pieces b * CHUNK)%nat.
Proof.
  intros Hb. unfold pieces, div_ceil, CHUNK_PAYLOAD_BYTES, CHUNK, len. change (4 * 1024) with 4096.
  assert (0 < length b)%nat by (destruct b; [done|cbn; lia]).
  pose proof (Z.div_mod (Z.of_nat (length b) + 4096 - 1) 4096 ltac:(lia)) as Hd.
  pose proof (Z.mod_pos_bound (Z.of_nat (length b) + 4096 - 1) 4096 ltac:(lia)) as Hm.
  set (q := (Z.of_nat (length b) + 4096 - 1) / 4096) in *. lia.
Qed.
Lemma div_ceil_pieces b : div_ceil (len b) CHUNK_PAYLOAD_BYTES = Z.of_nat (pieces b).
Proof.
  unfold pieces. rewrite Z2Nat.id; [done|]. unfold div_ceil, CHUNK_PAYLOAD_BYTES. pose proof (len_nonneg b). apply Z.div_pos; lia.
Qed.

Lemma take_piece b k : take (k * CHUNK) b ++ piece b k = take (S k * CHUNK) b.
Proof.
  unfold piece. pose proof (slice_join 0 (k * CHUNK) (S k * CHUNK) b ltac:(lia)) as Hj.
  unfold slice in *. by rewrite !drop_0, !Nat.sub_0_r in Hj.
Qed.
Lemma length_piece b k : length (piece b k) = (length b `min` (S k * CHUNK) - length b `min` (k * CHUNK))%nat.
Proof. unfold piece, slice. rewrite length_take, length_drop. lia. Qed.

(** ** What [accept_chunk] accepts *)

(** The state a chunk of a transfer is for. *)
Definition begins (t total count : Z) (s : option Reassembly) : Reassembly := default (mkReassembly t total 0 count []) s.

Record taken (l : ProtocolLimits) (s : option Reassembly) (t total index count : Z) (payload : list byte)
    (r : option Parcel) (s' : option Reassembly) : Prop := {
  tk_ticket : 0 < t < 2 ^ 64;
  tk_total : 0 <= total <= max_frame_bytes l;
  tk_word : total < 2 ^ 64;
  tk_index : 0 <= index < count;
  tk_count : count = div_ceil total CHUNK_PAYLOAD_BYTES;
  tk_small : count <= u32_max;
  tk_payload : len payload = if index + 1 =? count then total - index * CHUNK_PAYLOAD_BYTES else CHUNK_PAYLOAD_BYTES;
  tk_state : begins t total count s = mkReassembly t total index count (re_bytes (begins t total count s));
  tk_room : len (re_bytes (begins t total count s) ++ payload) <= total;
  tk_result :
    if index + 1 =? count then
      len (re_bytes (begins t total count s) ++ payload) = total /\ s' = None /\
      exists p, r = Some p /\ decode_parcel (re_bytes (begins t total count s) ++ payload) l = Ok p
    else r = None /\ s' = Some (mkReassembly t total (index + 1) count (re_bytes (begins t total count s) ++ payload));
}.

Lemma len_mkchunk t total index count payload : len (mkchunk t total index count payload) = 29 + len payload.
Proof. unfold mkchunk. rewrite !len_app, !len_to_le_bytes. change (len CHUNK_MAGIC) with 4. change (len [CHUNK_VERSION]) with 1. lia. Qed.
Lemma mkchunk_fields t total index count payload :
  take 4 (mkchunk t total index count payload) = CHUNK_MAGIC /\ slice 4 5 (mkchunk t total index count payload) = [CHUNK_VERSION] /\
  slice 5 13 (mkchunk t total index count payload) = to_le_bytes 8 t /\ slice 13 21 (mkchunk t total index count payload) = to_le_bytes 8 total /\
  slice 21 25 (mkchunk t total index count payload) = to_le_bytes 4 index /\ slice 25 29 (mkchunk t total index count payload) = to_le_bytes 4 count /\
  drop 29 (mkchunk t total index count payload) = payload.
Proof. by split_and!. Qed.
Lemma mkchunk_parse c :
  CHUNK_HEADER_BYTES <= len c -> take 4 c = CHUNK_MAGIC -> slice 4 5 c = [CHUNK_VERSION] ->
  c = mkchunk (from_le_bytes (slice 5 13 c)) (from_le_bytes (slice 13 21 c)) (from_le_bytes (slice 21 25 c)) (from_le_bytes (slice 25 29 c)) (drop 29 c).
Proof.
  intros Hlen Hm Hv. unfold CHUNK_HEADER_BYTES, len in Hlen. unfold mkchunk.
  rewrite (to_from_le_bytes' 8 (slice 5 13 c)), (to_from_le_bytes' 8 (slice 13 21 c)), (to_from_le_bytes' 4 (slice 21 25 c)), (to_from_le_bytes' 4 (slice 25 29 c))
    by (rewrite length_slice; lia).
  rewrite <-Hm, <-Hv. change (take 4 c) with (slice 0 4 c). rewrite !app_assoc.
  rewrite (slice_join 0 4 5), (slice_join 0 5 13), (slice_join 0 13 21), (slice_join 0 21 25), (slice_join 0 25 29) by lia.
  unfold slice. rewrite drop_0. by rewrite take_drop.
Qed.

Lemma accept_chunk_inv c l s r s' :
  accept_chunk c l s = (Ok r, s') ->
  exists t total index count payload, c = mkchunk t total index count payload /\ taken l s t total index count payload r s'.
Proof.
  unfold accept_chunk. destruct (len c <? CHUNK_HEADER_BYTES) eqn:E1; [done|]. zbool.
  destruct (bool_decide (take 4 c = CHUNK_MAGIC)) eqn:E2; [|done]. destruct (bool_decide (slice 4 5 c = _)) eqn:E3; [|done]. cbn [negb orb]. zbool.
  pose proof (mkchunk_parse c E1 E2 E3) as Hc.
  assert (Hr : forall a b n, (a <= b <= length c)%nat -> (b - a)%nat = n -> 0 <= from_le_bytes (slice a b c) < 256 ^ Z.of_nat n).
  { intros a b n Hab <-. pose proof (from_le_bytes_range (slice a b c)) as Hr. unfold len in Hr. by rewrite length_slice in Hr. }
  unfold CHUNK_HEADER_BYTES in *. unfold len in E1.
  pose proof (Hr 5%nat 13%nat 8%nat ltac:(lia) eq_refl) as R1. pose proof (Hr 13%nat 21%nat 8%nat ltac:(lia) eq_refl) as R2.
  pose proof (Hr 21%nat 25%nat 4%nat ltac:(lia) eq_refl) as R3. pose proof (Hr 25%nat 29%nat 4%nat ltac:(lia) eq_refl) as R4.
  change (256 ^ Z.of_nat 8) with (2 ^ 64) in *. change (256 ^ Z.of_nat 4) with (2 ^ 32) in *.
  set (t := from_le_bytes (slice 5 13 c)) in *. set (total := from_le_bytes (slice 13 21 c)) in *.
  set (index := from_le_bytes (slice 21 25 c)) in *. set (count := from_le_bytes (slice 25 29 c)) in *. set (payload := drop 29 c) in *.
  destruct (div_ceil total CHUNK_PAYLOAD_BYTES <=? u32_max) eqn:E4; [|done]. cbn [negb].
  destruct (t =? 0) eqn:E5; [done|]. destruct (count =? 0) eqn:E6; [done|]. destruct (count =? div_ceil _ _) eqn:E7; [|done].
  destruct (count <=? index) eqn:E8; [done|]. destruct (max_frame_bytes l <? total) eqn:E9; [done|]. cbn [negb orb].
  assert (Hpay : len c - 29 = len payload).
  { unfold payload, len. rewrite length_drop. lia. }
  rewrite Hpay. destruct (len payload =? _) eqn:E10; [|done]. cbn [negb]. zbool.
  rewrite M_bind_gets. cbn [id]. intros Hrun.
  assert (Hbegin : (s = None -> index = 0) /\
    (let state := begins t total count s in
      if negb (transfer state =? t) || negb (MpiTransport.total state =? total) || negb (re_count state =? count) || negb (next_chunk state =? index)
      then raise (TransportError_Peer "MPI chunk sequence mismatch") else
      let bytes := re_bytes state ++ payload in
      let state := mkReassembly (transfer state) (MpiTransport.total state) (next_chunk state) (re_count state) bytes in
      modify (fun _ => Some state);;
      if MpiTransport.total state <? len bytes then raise (TransportError_ByteLimit (len bytes) (MpiTransport.total state)) else
      let state := mkReassembly (transfer state) (MpiTransport.total state) (next_chunk state + 1) (re_count state) bytes in
      modify (fun _ => Some state);;
      if next_chunk state =? re_count state then reassembled l state else mret None) (Some (begins t total count s)) = (Ok r, s')).
  { destruct s as [st|]; [by split|]. destruct (index =? 0) eqn:E0; [|done]. zbool. split; [done|]. exact Hrun. }
  clear Hrun. destruct Hbegin as [Hzero Hrun]. cbv zeta in Hrun. set (st := begins t total count s) in *.
  destruct (transfer st =? t) eqn:F1; [|done]. destruct (MpiTransport.total st =? total) eqn:F2; [|done].
  destruct (re_count st =? count) eqn:F3; [|done]. destruct (next_chunk st =? index) eqn:F4; [|done]. cbn [negb orb] in Hrun. zbool.
  rewrite M_bind_modify in Hrun. cbn [MpiTransport.total next_chunk re_count transfer] in Hrun.
  destruct (_ <? len _) eqn:F5; [done|]. rewrite M_bind_modify in Hrun. cbn [next_chunk re_count] in Hrun. zbool.
  assert (Hst : st = mkReassembly t total index count (re_bytes st)) by (destruct st; cbn in *; congruence).
  exists t, total, index, count, payload. split; [done|]. split; fold st; try done; try lia.
  rewrite F4, F3 in Hrun. destruct (index + 1 =? count) eqn:F6.
  - unfold reassembled in Hrun. rewrite M_bind_modify in Hrun. cbn [re_bytes MpiTransport.total] in Hrun. rewrite F2 in Hrun.
    destruct (len (re_bytes st ++ payload) =? total) eqn:F7; [|done]. zbool. cbn [negb] in Hrun.
    rewrite M_bind_lift in Hrun. destruct (decode_parcel _ l) as [p|] eqn:F8; [|done]. cbn [map_err] in Hrun. injection Hrun as <- <-.
    split_and!; [done|done|by exists p].
  - rewrite F1, F2 in Hrun. by injection Hrun as <- <-.
Qed.

Lemma accept_chunk_taken l s t total index count payload r s' :
  taken l s t total index count payload r s' -> (s = None -> index = 0) ->
  accept_chunk (mkchunk t total index count payload) l s = (Ok r, s').
Proof.
  intros [H1 H2 H3 H4 H5 H6 H7 H8 H9 H10] Hzero. unfold accept_chunk.
  destruct (mkchunk_fields t total index count payload) as (-> & -> & -> & -> & -> & -> & ->). rewrite len_mkchunk.
  pose proof (len_nonneg payload). unfold CHUNK_HEADER_BYTES. zunfold.
  rewrite !from_to_le_bytes by (first [change (256 ^ Z.of_nat 8) with (2 ^ 64)|change (256 ^ Z.of_nat 4) with (2 ^ 32)]; lia).
  rewrite !bool_decide_eq_true_2 by done. cbn [negb orb]. rewrite <-H5. unfold u32_max.
  rewrite (proj2 (Z.ltb_ge (29 + _) _)), (proj2 (Z.leb_le count _)), (proj2 (Z.eqb_neq t 0)), (proj2 (Z.eqb_neq count 0)), Z.eqb_refl,
    (proj2 (Z.leb_gt count index)), (proj2 (Z.ltb_ge (max_frame_bytes l) _)) by lia.
  replace (29 + len payload - 29) with (len payload) by lia. rewrite (proj2 (Z.eqb_eq _ _) H7). cbn [negb orb].
  rewrite M_bind_gets. cbn [id].
  assert (Hgo : forall k : SlotM (option Parcel), ((match s with Some _ => mret tt | None => if negb (index =? 0)
       then raise (TransportError_Peer "MPI chunk sequence does not start at zero")
       else modify (fun _ => Some (mkReassembly t total 0 count [])) end : SlotM unit) ≫= (fun _ => k)) s = k (Some (begins t total count s))).
  { intros k. destruct s as [st|]; [done|]. rewrite (Hzero eq_refl). done. }
  etransitivity; [apply Hgo|]. rewrite M_bind_gets. cbn [id].
  set (st := begins t total count s) in *. rewrite H8. cbn [transfer MpiTransport.total re_count next_chunk re_bytes].
  rewrite !Z.eqb_refl. cbn [negb orb]. rewrite M_bind_modify. rewrite (proj2 (Z.ltb_ge _ _)) by done. rewrite M_bind_modify.
  destruct (index + 1 =? count).
  - destruct H10 as (Hl & -> & p & -> & Hd). unfold reassembled. rewrite M_bind_modify. cbn [re_bytes MpiTransport.total]. rewrite Hl, Z.eqb_refl. cbn [negb].
    rewrite M_bind_lift, Hd. done.
  - destruct H10 as [-> ->]. done.
Qed.

(** ** Sending *)

(** What fits in 32-bit chunk numbers. *)
Definition cuttable (l : ProtocolLimits) (p : Parcel) : Prop := sendable l p /\ len (parcel_layout p) <= u32_max * CHUNK_PAYLOAD_BYTES.

(** A transfer of which [k] chunks are sent. *)
Definition sending (t : SendTicket) (b : list byte) (r : Z) (k : nat) : Outbound :=
  mkOutbound t b (Z.of_nat (length b `min` (k * CHUNK))) (Z.of_nat k) (Z.of_nat (pieces b)) r.

Lemma slice_min {A} a b (x : list A) : slice a (length x `min` b) x = slice a b x.
Proof. unfold slice. destruct (decide (b <= length x)%nat); [by rewrite Nat.min_r|]. rewrite Nat.min_l by lia. rewrite !take_ge; [done|rewrite length_drop; lia..]. Qed.

Lemma next_chunk_sending t b r k :
  (k < pieces b)%nat -> b <> [] -> len b <= u32_max * CHUNK_PAYLOAD_BYTES ->
  Outbound_next_chunk (sending t b r k) = Ok (chunk_at t b (len b) (Z.of_nat (pieces b)) k, sending t b r (S k)).
Proof.
  intros Hk Hb Hlen. destruct (pieces_spec b Hb) as (H1 & H2 & H3).
  unfold Outbound_next_chunk, sending, checked_add, CHUNK_PAYLOAD_BYTES in *. cbn [ob_offset ob_bytes ob_ticket chunk_index chunk_count ob_reserved].
  unfold len in *. unfold CHUNK in *. zunfold.
  rewrite (Nat.min_r (length b) (k * 4096)) by lia.
  rewrite !(proj2 (Z.leb_le _ _)) by lia. cbn [ok_or mbind result_bind].
  do 2 f_equal.
  - unfold chunk_at, mkchunk, piece, CHUNK, len. rewrite Nat2Z.id.
    match goal with |- context [slice _ (Z.to_nat ?f) b] => replace (Z.to_nat f) with (length b `min` (S k * 4096))%nat by lia end.
    by rewrite slice_min.
  - f_equal; lia.
Qed.
Lemma sending_complete t b r k : b <> [] -> Outbound_complete (sending t b r k) = bool_decide (pieces b <= k)%nat.
Proof.
  intros Hb. destruct (pieces_spec b Hb) as (H1 & H2 & H3). unfold Outbound_complete, sending, len. cbn [ob_offset ob_bytes].
  case_bool_decide; [apply Z.eqb_eq|apply Z.eqb_neq]; unfold CHUNK in *; nia.
Qed.

Lemma layout_nonempty p : parcel_layout p <> [].
Proof. intros Heq. pose proof (len_parcel_layout p) as Hl. rewrite Heq in Hl. assert (0 <= payload_size (segments p)) by apply payload_size_nonneg. unfold PARCEL_FIXED_BYTES, len in Hl. cbn in Hl. lia. Qed.

Lemma Outbound_new_sending l x :
  limits_small l -> cuttable l (sub_parcel x) ->
  Outbound_new x l = Ok (sending (sub_ticket x) (parcel_layout (sub_parcel x)) (sub_reserved x) 0).
Proof.
  intros Hl [Hs Hlen]. unfold Outbound_new. rewrite (sendable_encodes l _ Hl Hs). cbn [map_err mbind result_bind]. rewrite div_ceil_pieces.
  destruct (pieces_spec _ (layout_nonempty (sub_parcel x))) as (H1 & H2 & H3). unfold len, CHUNK_PAYLOAD_BYTES, CHUNK in *. zunfold.
  rewrite (proj2 (Z.leb_le _ _)) by lia. cbn [mbind result_bind]. unfold sending. by rewrite Nat.mul_0_l, Nat.min_0_r.
Qed.

(** The chunks [drive] sends for a transfer, one at a time. *)
Fixpoint cut (fuel : nat) (o : Outbound) : result TransportError (list (list byte)) :=
  match fuel with
  | O => Ok []
  | S fuel =>
      '(chunk, o) ← Outbound_next_chunk o;
      rest ← (if Outbound_complete o then Ok [] else cut fuel o);
      Ok (chunk :: rest)
  end.
Definition transfer_chunks (l : ProtocolLimits) (x : Submission) : result TransportError (list (list byte)) :=
  o ← map_err (fun e => e.2) (Outbound_new x l);
  cut (length (ob_bytes o)) o.

Lemma cut_sending fuel t b r k :
  b <> [] -> len b <= u32_max * CHUNK_PAYLOAD_BYTES -> (k < pieces b)%nat -> (pieces b - k <= fuel)%nat ->
  cut fuel (sending t b r k) = Ok (chunk_at t b (len b) (Z.of_nat (pieces b)) <$> seq k (pieces b - k)).
Proof.
  intros Hb Hlen. revert k. induction fuel as [|fuel IH]; intros k Hk Hf; [lia|]. cbn [cut].
  rewrite next_chunk_sending by done. cbn [mbind result_bind]. rewrite sending_complete by done.
  replace (pieces b - k)%nat with (S (pieces b - S k)) by lia. cbn [seq fmap list_fmap].
  case_bool_decide; [by replace (pieces b - S k)%nat with 0%nat by lia|]. rewrite IH by lia. done.
Qed.
Lemma transfer_chunks_ok l x :
  limits_small l -> cuttable l (sub_parcel x) -> transfer_chunks l x = Ok (chunks (sub_ticket x) (parcel_layout (sub_parcel x))).
Proof.
  intros Hl Hx. unfold transfer_chunks. rewrite (Outbound_new_sending l x Hl Hx). cbn [map_err mbind result_bind].
  pose proof (layout_nonempty (sub_parcel x)) as Hb. destruct (pieces_spec _ Hb) as (H1 & H2 & H3). destruct Hx as [_ Hlen].
  rewrite cut_sending; [|done|done|done|cbn [ob_bytes sending]; unfold CHUNK in *; lia]. unfold chunks, first_chunks. by rewrite Nat.sub_0_r.
Qed.

(** ** Receiving *)

Fixpoint feed (l : ProtocolLimits) (cs : list (list byte)) : SlotM (list Parcel) :=
  match cs with
  | [] => mret []
  | c :: cs => found ← accept_chunk c l; rest ← feed l cs; mret (option_list found ++ rest)
  end.

Lemma feed_app l a b s out s' :
  feed l (a ++ b) s = (Ok out, s') <-> exists o1 s1 o2, feed l a s = (Ok o1, s1) /\ feed l b s1 = (Ok o2, s') /\ out = o1 ++ o2.
Proof.
  revert s out. induction a as [|c a IH]; intros s out; cbn [app feed].
  - split; [intros H; by exists [], s, out|]. intros (? & ? & ? & [= <- <-] & H & ->). exact H.
  - split.
    + intros H. apply M_bind_ok in H as (x & s1 & Hx & H). apply M_bind_ok in H as (rest & s2 & Hr & H). injection H as <- <-.
      apply IH in Hr as (o1 & s3 & o2 & H1 & H2 & ->). exists (option_list x ++ o1), s3, o2. split_and!; [|done|by rewrite app_assoc].
      unfold mbind, M_bind. by rewrite Hx, H1.
    + intros (o1 & s1 & o2 & H1 & H2 & ->). apply M_bind_ok in H1 as (x & s2 & Hx & H1). apply M_bind_ok in H1 as (o3 & s3 & H1 & H3).
      injection H3 as <- ->. assert (Hr : feed l (a ++ b) s2 = (Ok (o3 ++ o2), s')) by (apply IH; by exists o3, s1, o2).
      unfold mbind, M_bind. rewrite Hx, Hr. cbn [mret M_ret]. by rewrite app_assoc.
Qed.
Lemma feed_one l c s r s' : accept_chunk c l s = (Ok r, s') -> feed l [c] s = (Ok (option_list r), s').
Proof. intros H. unfold feed, mbind, M_bind. rewrite H. cbn [mret M_ret]. by rewrite app_nil_r. Qed.
Lemma feed_one_inv l c s o s' : feed l [c] s = (Ok o, s') -> exists r, accept_chunk c l s = (Ok r, s') /\ o = option_list r.
Proof. intros H. cbn [feed] in H. apply M_bind_ok in H as (r & s1 & Hr & H). cbn in H. injection H as <- <-. exists r. split; [done|by rewrite app_nil_r]. Qed.

(** A slot that has the first [k] chunks of a transfer. *)
Definition receiving (t : Z) (b : list byte) (total count : Z) (k : nat) : option Reassembly :=
  match k with O => None | _ => Some (mkReassembly t total (Z.of_nat k) count (take (k * CHUNK) b)) end.

Lemma begins_receiving t b total count k :
  begins t total count (receiving t b total count k) = mkReassembly t total (Z.of_nat k) count (take (k * CHUNK) b).
Proof. by destruct k. Qed.

Lemma feed_chunks l t p k :
  limits_small l -> cuttable l p -> 0 < t < 2 ^ 64 -> (k <= pieces (parcel_layout p))%nat ->
  let b := parcel_layout p in
  feed l (first_chunks t b (len b) (Z.of_nat (pieces b)) k) None =
    if decide (k = pieces b) then (Ok [p], None) else (Ok [], receiving t b (len b) (Z.of_nat (pieces b)) k).
Proof.
  intros Hl [Hs Hlen] Ht Hk b. pose proof (layout_nonempty p) as Hb. fold b in Hb, Hk, Hlen. destruct (pieces_spec b Hb) as (H1 & H2 & H3).
  pose proof (sendable_encodable l p Hl Hs) as (_ & _ & Husize). fold b in Husize.
  assert (Hframe : len b <= max_frame_bytes l).
  { destruct Hs as ((_ & _ & Hf & _) & _). unfold b. by rewrite len_parcel_layout. }
  induction k as [|k IH]; [by rewrite decide_False by lia|]. specialize (IH ltac:(lia)). rewrite decide_False in IH by lia.
  rewrite first_chunks_S.
  set (final := decide (S k = pieces b)).
  assert (Htk : taken l (receiving t b (len b) (Z.of_nat (pieces b)) k) t (len b) (Z.of_nat k) (Z.of_nat (pieces b)) (piece b k)
     (if final then Some p else None) (if final then None else receiving t b (len b) (Z.of_nat (pieces b)) (S k))).
  { pose proof (length_piece b k) as Hp. unfold CHUNK_PAYLOAD_BYTES, CHUNK, len in *. zunfold.
    split; rewrite ?begins_receiving; cbn [re_bytes]; unfold CHUNK_PAYLOAD_BYTES, CHUNK, len; try lia.
    - rewrite <-div_ceil_pieces. done.
    - unfold u32_max. lia.
    - destruct (_ =? _) eqn:E; zbool; lia.
    - done.
    - fold CHUNK. rewrite take_piece. rewrite length_take. lia.
    - fold CHUNK. rewrite take_piece. destruct (_ =? _) eqn:E; zbool; unfold final.
      + rewrite !decide_True by lia. rewrite take_ge by (unfold CHUNK; lia). split_and!; [done|done|]. exists p. split; [done|].
        unfold b. rewrite <-(app_nil_r (parcel_layout p)). destruct Hs as (Hfit & Hwf). destruct Hl as ((Hok & _) & _ & Hseg).
        rewrite decode_parcel_layout; rewrite ?app_nil_r; try done.
        * unfold limits_ok. by rewrite Hok.
        * destruct Hfit as (Hs1 & _). lia.
      + rewrite !decide_False by lia. split; [done|]. cbn [receiving]. do 2 f_equal. lia. }
  assert (Hone : feed l [chunk_at t b (len b) (Z.of_nat (pieces b)) k] (receiving t b (len b) (Z.of_nat (pieces b)) k) =
     (Ok (option_list (if final then Some p else None)), if final then None else receiving t b (len b) (Z.of_nat (pieces b)) (S k))).
  { apply feed_one. apply accept_chunk_taken; [exact Htk|]. by destruct k. }
  assert (Happ : feed l (first_chunks t b (len b) (Z.of_nat (pieces b)) k ++ [chunk_at t b (len b) (Z.of_nat (pieces b)) k]) None =
     (Ok ([] ++ option_list (if final then Some p else None)), if final then None else receiving t b (len b) (Z.of_nat (pieces b)) (S k)))
    by (apply feed_app; eexists _, _, _; split_and!; [exact IH|exact Hone|done]).
  rewrite Happ. by destruct final.
Qed.

(** What a slot holds: the first chunks of one transfer. *)
Definition holding (l : ProtocolLimits) (s : option Reassembly) (partial : list (list byte)) : Prop :=
  match s with
  | None => partial = []
  | Some st =>
      exists k, (0 < k)%nat /\ next_chunk st = Z.of_nat k /\ next_chunk st < re_count st /\ re_count st = div_ceil (total st) CHUNK_PAYLOAD_BYTES /\
        length (re_bytes st) = (k * CHUNK)%nat /\ len (re_bytes st) <= total st <= max_frame_bytes l /\ 0 < transfer st < 2 ^ 64 /\
        partial = first_chunks (transfer st) (re_bytes st) (total st) (re_count st) k
  end.

Lemma mpi_piece_app b x j : (S j * CHUNK <= length b)%nat -> piece (b ++ x) j = piece b j.
Proof.
  intros Hj. unfold piece, slice. rewrite drop_app_le by lia. rewrite take_app_le by (rewrite length_drop; lia). done.
Qed.
Lemma first_chunks_app t b x total count k : (k * CHUNK <= length b)%nat -> first_chunks t (b ++ x) total count k = first_chunks t b total count k.
Proof.
  intros Hk. unfold first_chunks. apply list_fmap_ext. intros i j Hj. apply lookup_seq in Hj as [-> Hj]. unfold chunk_at.
  rewrite mpi_piece_app; [done|]. cbn [Nat.add] in *. unfold CHUNK in *. nia.
Qed.

Lemma accept_chunk_holding l c s r s' partial :
  holding l s partial -> accept_chunk c l s = (Ok r, s') ->
  match r with
  | None => holding l s' (partial ++ [c])
  | Some p => s' = None /\ exists t, 0 < t < 2 ^ 64 /\ encodable p /\ parcel_fits p l /\ partial ++ [c] = chunks t (parcel_layout p)
  end.
Proof.
  intros Hs (t & total & index & count & payload & -> & Htk)%accept_chunk_inv. destruct Htk as [H1 H2 H3 H4 H5 H6 H7 H8 H9 H10].
  set (st := begins t total count s) in *.
  assert (Hk : exists k, index = Z.of_nat k /\ length (re_bytes st) = (k * CHUNK)%nat /\
     partial = first_chunks t (re_bytes st) total count k /\ mkchunk t total index count payload = chunk_at t (re_bytes st ++ payload) total count k).
  { assert (Hpart : forall k, length (re_bytes st) = (k * CHUNK)%nat -> index = Z.of_nat k ->
      mkchunk t total index count payload = chunk_at t (re_bytes st ++ payload) total count k).
    { intros k Hlen ->. unfold chunk_at. f_equal. unfold piece, slice. rewrite <-Hlen, drop_app_length. rewrite take_ge; [done|].
      rewrite Hlen. unfold len in H7. destruct (Z.of_nat k + 1 =? count) eqn:Ek; zbool; unfold CHUNK_PAYLOAD_BYTES, CHUNK in *; [|lia].
      assert (total <= count * 4096); [|lia]. rewrite H5. unfold div_ceil. pose proof (Z.div_mod (total + 4096 - 1) 4096 ltac:(lia)).
      pose proof (Z.mod_pos_bound (total + 4096 - 1) 4096 ltac:(lia)). change (4 * 1024) with 4096. lia. }
    destruct s as [st'|]; cbn in Hs.
    - destruct Hs as (k & Hk0 & Hn & _ & _ & Hlen & _ & _ & ->). cbn in st. subst st. rewrite H8 in Hn. cbn [next_chunk] in Hn.
      exists k. split_and!; [done|done| |by apply Hpart]. rewrite H8. by cbn [transfer MpiTransport.total re_count re_bytes].
    - subst partial. cbn in st. subst st. injection H8 as H8. exists 0%nat. split_and!; [lia|done|done|]. by apply Hpart. }
  destruct Hk as (k & -> & Hlen & -> & Hc). rewrite Hc. clearbody st.
  assert (Hsnoc : first_chunks t (re_bytes st) total count k ++ [chunk_at t (re_bytes st ++ payload) total count k] =
     first_chunks t (re_bytes st ++ payload) total count (S k)).
  { rewrite <-(first_chunks_app t (re_bytes st) payload) by lia. by rewrite first_chunks_S. }
  rewrite Hsnoc. destruct (Z.of_nat k + 1 =? count) eqn:E; zbool.
  - destruct H10 as (Hfull & -> & p & -> & Hd). split; [done|]. exists t.
    apply decode_parcel_inv in Hd as (Hwf & Hok & Hfit & H32 & Hlay). split; [done|]. split; [|split; [done|]].
    + split_and!; [done..|]. destruct Hfit as (_ & _ & _ & Hu). by rewrite len_parcel_layout.
    + rewrite <-Hlay in *. unfold chunks. rewrite Hfull. replace (Z.of_nat (pieces _)) with count.
      2: { rewrite <-div_ceil_pieces, Hfull. done. }
      f_equal. apply (f_equal Z.to_nat) in E. rewrite <-Hfull, div_ceil_pieces in H5. lia.
  - destruct H10 as [-> ->]. unfold holding. exists (S k). cbn [next_chunk re_count MpiTransport.total re_bytes transfer].
    rewrite length_app. unfold len in *. rewrite length_app in *. unfold CHUNK_PAYLOAD_BYTES, CHUNK in *. split_and!; try done; lia.
Qed.

Lemma feed_holding l cs out s :
  feed l cs None = (Ok out, s) ->
  exists (done : list (SendTicket * Parcel)) partial,
    cs = (done ≫= fun x => chunks x.1 (parcel_layout x.2)) ++ partial /\ out = done.*2 /\ holding l s partial /\
    Forall (fun x => 0 < x.1 < 2 ^ 64 /\ encodable x.2 /\ parcel_fits x.2 l) done.
Proof.
  revert out s. induction cs as [|c cs IH] using rev_ind; intros out s Hf.
  - injection Hf as <- <-. by exists [], [].
  - apply feed_app in Hf as (o1 & s1 & o2 & H1 & H2 & ->). apply feed_one_inv in H2 as (r & Hr & ->).
    destruct (IH _ _ H1) as (done & partial & -> & -> & Hh & Hd). pose proof (accept_chunk_holding l c s1 r s partial Hh Hr) as Hstep.
    rewrite <-app_assoc. destruct r as [p|].
    + destruct Hstep as (-> & t & Ht & He & Hp & ->). exists (done ++ [(t, p)]), []. rewrite bind_app, fmap_app, !app_nil_r. cbn [mbind list_bind].
      rewrite !app_nil_r. split_and!; [done|done|done|]. apply Forall_app. split; [done|]. by constructor.
    + exists done, (partial ++ [c]). rewrite app_nil_r. by split_and!.
Qed.

(** ** Chunks determine parcels *)

Lemma chunk_payloads t b total count k : concat (drop 29 <$> first_chunks t b total count k) = take (k * CHUNK) b.
Proof.
  induction k as [|k IH]; [done|]. rewrite first_chunks_S, fmap_app, concat_app, IH. cbn [fmap list_fmap concat].
  rewrite app_nil_r. unfold chunk_at. destruct (mkchunk_fields t total (Z.of_nat k) count (piece b k)) as (_ & _ & _ & _ & _ & _ & ->).
  apply take_piece.
Qed.
Lemma first_chunks_cons t b total count k : (0 < k)%nat -> exists rest, first_chunks t b total count k = chunk_at t b total count 0 :: rest.
Proof. intros Hk. destruct k as [|k]; [lia|]. by eexists. Qed.
Lemma length_first_chunks t b total count k : length (first_chunks t b total count k) = k.
Proof. unfold first_chunks. by rewrite length_fmap, length_seq. Qed.
Lemma first_chunks_total t b total count k t' b' total' count' k' x y :
  (0 < k)%nat -> (0 < k')%nat -> 0 <= total <= u64_max -> 0 <= total' <= u64_max ->
  first_chunks t b total count k ++ x = first_chunks t' b' total' count' k' ++ y -> total = total'.
Proof.
  intros Hk Hk' Ht Ht' Heq. destruct (first_chunks_cons t b total count k Hk) as [r Hr]. destruct (first_chunks_cons t' b' total' count' k' Hk') as [r' Hr'].
  rewrite Hr, Hr' in Heq. apply (f_equal (fun cs => slice 13 21 (hd [] cs))) in Heq as Hhead. cbn [app hd] in Hhead. unfold chunk_at in Hhead.
  destruct (mkchunk_fields t total (Z.of_nat 0) count (piece b 0)) as (_ & _ & _ & Ef & _). destruct (mkchunk_fields t' total' (Z.of_nat 0) count' (piece b' 0)) as (_ & _ & _ & Ef' & _).
  rewrite Ef, Ef' in Hhead. rewrite <-(from_to_le_bytes 8 total), <-(from_to_le_bytes 8 total'); [by rewrite Hhead|..];
    change (256 ^ Z.of_nat 8) with (2 ^ 64); zunfold; lia.
Qed.
Lemma encodable_length p : encodable p -> 0 <= len (parcel_layout p) <= u64_max.
Proof. intros (_ & _ & Hp). pose proof (len_nonneg (parcel_layout p)). by split. Qed.
Lemma chunks_inj t p t' p' x y :
  encodable p -> encodable p' -> chunks t (parcel_layout p) ++ x = chunks t' (parcel_layout p') ++ y -> p = p' /\ x = y.
Proof.
  intros Hp Hp' Heq. unfold chunks in Heq. destruct (pieces_spec _ (layout_nonempty p)) as (H1 & _ & H3). destruct (pieces_spec _ (layout_nonempty p')) as (K1 & _ & K3).
  pose proof (encodable_length p Hp) as Hl. pose proof (encodable_length p' Hp') as Hl'.
  pose proof (first_chunks_total _ _ _ _ _ _ _ _ _ _ x y H1 K1 Hl Hl' Heq) as Htotal.
  assert (Hn : pieces (parcel_layout p) = pieces (parcel_layout p')) by (unfold pieces; by rewrite Htotal).
  apply app_inj_1 in Heq as [Hc ->]; [|by rewrite !length_first_chunks]. split; [|done]. apply parcel_layout_inj; [done..|].
  apply (f_equal (fun cs => concat (drop 29 <$> cs))) in Hc. rewrite !chunk_payloads in Hc. by rewrite !take_ge in Hc by lia.
Qed.
Lemma chunks_not_partial l s t p partial x :
  encodable p -> max_frame_bytes l <= u64_max -> holding l s partial -> partial <> chunks t (parcel_layout p) ++ x.
Proof.
  intros Hp Hl Hh Heq. destruct (pieces_spec _ (layout_nonempty p)) as (H1 & _ & _). unfold chunks in Heq.
  destruct s as [st|]; cbn in Hh.
  - destruct Hh as (k & Hk & Hn & Hlt & Hcount & _ & Hlen & _ & ->).
    pose proof (first_chunks_total (transfer st) (re_bytes st) (total st) (re_count st) k t (parcel_layout p) (len (parcel_layout p))
      (Z.of_nat (pieces (parcel_layout p))) (pieces (parcel_layout p)) [] x Hk H1) as Htotal. rewrite app_nil_r in Htotal.
    rewrite Htotal in Hcount; [|pose proof (len_nonneg (re_bytes st)); lia|by apply encodable_length|exact Heq].
    rewrite div_ceil_pieces in Hcount. apply (f_equal length) in Heq. rewrite length_app, !length_first_chunks in Heq. lia.
  - subst partial. symmetry in Heq. apply app_eq_nil in Heq as [Heq _]. apply (f_equal length) in Heq. rewrite length_first_chunks in Heq. cbn [length] in Heq. lia.
Qed.

(** C31: what an MPI transport sends is what it receives.  The chunks [drive]
    sends for parcels, received one by one, give exactly these parcels, in order;
    when only some have arrived, a prefix of them, and no chunk is refused.
    Whatever else arrives on a channel, as long as nothing is refused, is the
    chunks of whole parcels followed by the first chunks of one: transfers never
    mix, and no more than a frame is retained. *)
Theorem mpi_chunks_exact l :
  limits_small l ->
  (forall xs, Forall (fun x => 0 < sub_ticket x < 2 ^ 64 /\ cuttable l (sub_parcel x)) xs ->
     exists css, mapR (transfer_chunks l) xs = Ok css /\
       feed l (concat css) None = (Ok (sub_parcel <$> xs), None) /\
       forall some rest, concat css = some ++ rest ->
         exists out s, feed l some None = (Ok out, s) /\ out `prefix_of` (sub_parcel <$> xs)) /\
  (forall cs out s, feed l cs None = (Ok out, s) ->
     exists (done : list (SendTicket * Parcel)) partial,
       cs = (done ≫= fun x => chunks x.1 (parcel_layout x.2)) ++ partial /\ out = done.*2 /\
       Forall (fun x => 0 < x.1 < 2 ^ 64 /\ encodable x.2 /\ parcel_fits x.2 l) done /\
       match s with
       | None => partial = []
       | Some st => len (re_bytes st) <= total st <= max_frame_bytes l /\
           exists k, (0 < k)%nat /\ Z.of_nat k < re_count st /\ partial = first_chunks (transfer st) (re_bytes st) (total st) (re_count st) k
       end).
Proof.
  intros Hl. split.
  - intros xs Hxs.
    assert (Hall : exists css, mapR (transfer_chunks l) xs = Ok css /\ feed l (concat css) None = (Ok (sub_parcel <$> xs), None)).
    { induction Hxs as [|x xs [Ht Hx] _ (css & Hm & Hf)]; [by exists []|]. cbn [mapR].
      rewrite (transfer_chunks_ok l x Hl Hx), Hm. cbn [mbind result_bind]. eexists. split; [done|]. cbn [concat fmap list_fmap].
      apply feed_app. exists [sub_parcel x], None, (sub_parcel <$> xs). split_and!; [|done|done].
      pose proof (feed_chunks l (sub_ticket x) (sub_parcel x) _ Hl Hx Ht (le_n _)) as Hc. cbv zeta in Hc. by rewrite decide_True in Hc by done. }
    destruct Hall as (css & Hm & Hf). exists css. split_and!; [done|done|]. intros some rest Hcat. rewrite Hcat in Hf.
    apply feed_app in Hf as (o1 & s1 & o2 & H1 & _ & ->). exists o1, s1. split; [done|by apply prefix_app_r].
  - intros cs out s (done & partial & -> & -> & Hh & Hd)%feed_holding. exists done, partial. split_and!; [done..|].
    destruct s as [st|]; [|done]. destruct Hh as (k & Hk0 & Hn & Hnc & _ & _ & Hlen & _ & ->). split; [done|]. exists k. split_and!; [done|lia|done].
Qed.

(** ** Examples *)
Definition ex_mpi_limits : ProtocolLimits := mkProtocolLimits 10000 9000 4 4 100000 16.
Definition ex_parcel (n : Z) (size : nat) : Parcel := mkParcel 1 n Channel_Bulk ParcelKind_Data 0 1 None [replicate size Byte.x07].
Definition ex_submissions : list Submission := [mkSubmission 1 (ex_parcel 5 5000) 5097; mkSubmission 2 (ex_parcel 6 3) 100].

Lemma ex_mpi_small : limits_small ex_mpi_limits.
Proof. unfold limits_small, limits_fit. vm_compute. repeat split; congruence. Qed.
Lemma ex_cuttable : Forall (fun x => 0 < sub_ticket x < 2 ^ 64 /\ cuttable ex_mpi_limits (sub_parcel x)) ex_submissions.
Proof.
  repeat constructor; unfold cuttable, sendable, parcel_fits, Parcel_wf, id128_wf, in_u; vm_compute; repeat split; congruence.
Qed.

Lemma mpi_chunks_exact_witness :
  exists css, mapR (transfer_chunks ex_mpi_limits) ex_submissions = Ok css /\ length (concat css) = 3%nat /\
    feed ex_mpi_limits (concat css) None = (Ok [ex_parcel 5 5000; ex_parcel 6 3], None).
Proof.
  destruct (mpi_chunks_exact ex_mpi_limits ex_mpi_small) as (Hsend & _). destruct (Hsend ex_submissions ex_cuttable) as (css & Hm & Hf & _).
  exists css. split; [exact Hm|]. split; [|exact Hf].
  assert (Hlen : (fun css => length (concat css)) <$> mapR (transfer_chunks ex_mpi_limits) ex_submissions = Ok 3%nat) by (vm_compute; reflexivity).
  rewrite Hm in Hlen. by injection Hlen.
Defined.
