(* ===== verification/MpiStreams.v ===== *)
(** * MpiStreams: an MPI transport delivers what was sent, in order

    What holds of an MPI transport whatever its handles send and whatever
    arrives, by the chunks of [MpiRuns] and the accounts of [LinkRuns]. *)
From S2P Require Import Prelude Protocol Transport Link LinkRuns MpiTransport MpiRuns.

(** What the model relies on of the communicator: [chunks_sent] is what was sent
    to a slot, [chunks_got] what was received from it. *)
Class CommunicatorLaws (Env : Type) `{!Communicator Env} := mkCommunicatorLaws {
  comm_size : Env -> nat;
  chunks_sent : Env -> nat -> list (list byte);
  chunks_got : Env -> nat -> list (list byte);
  mpi_receive_some : forall c e rank b e', mpi_receive c e = (Some (rank, b), e') ->
    0 <= rank < Z.of_nat (comm_size e) /\ comm_size e' = comm_size e /\ (mpi_rounds e' < mpi_rounds e)%nat /\ chunks_sent e' = chunks_sent e /\
    forall j, chunks_got e' j = if decide (j = slot (Z.to_nat rank) c) then chunks_got e j ++ [b] else chunks_got e j;
  mpi_receive_none : forall c e e', mpi_receive c e = (None, e') ->
    comm_size e' = comm_size e /\ chunks_sent e' = chunks_sent e /\ chunks_got e' = chunks_got e;
  mpi_send_ok : forall p c b e,
    comm_size (mpi_send p c b e) = comm_size e /\ chunks_got (mpi_send p c b e) = chunks_got e /\
    forall j, chunks_sent (mpi_send p c b e) j = if decide (j = slot p c) then chunks_sent e j ++ [b] else chunks_sent e j;
}.

Definition sub_chunks (x : Submission) : list (list byte) := chunks (sub_ticket x) (parcel_layout (sub_parcel x)).

(** Limits whose frames fit in 32-bit chunk numbers (16 TiB). *)
Definition limits_chunked (l : ProtocolLimits) : Prop := limits_small l /\ max_frame_bytes l <= u32_max * CHUNK_PAYLOAD_BYTES.
Lemma sendable_cuttable l p : limits_chunked l -> sendable l p -> cuttable l p.
Proof. intros [_ Hl] Hp. split; [done|]. destruct Hp as ((_ & _ & Hf & _) & _). rewrite len_parcel_layout. lia. Qed.

Section Runs.
Context {Env : Type} `{!Communicator Env} `{!CommunicatorLaws Env}.
Abbreviation MpiDriver := (Driver (MpiLink Env)).
Abbreviation DM := (M MpiDriver TransportError).
Implicit Types (d : MpiDriver) (H : nat -> list Submission) (E : list Parcel) (log : list (nat * Parcel)).

(** ** What holds of a slot *)

Definition transfer_permit (p : nat) (c : Channel) (o : Outbound) : SendPermit := mkSendPermit p c (ob_reserved o) (ob_ticket o).
Definition held_of (p : nat) (c : Channel) (o : option Outbound) : list SendPermit :=
  match o with Some o => [transfer_permit p c o] | None => [] end.
Definition mpi_held (k : MpiLink Env) (p : nat) (c : Channel) : list SendPermit := held_of p c (default None (outbound k !! slot p c)).
Abbreviation Accounts := (accounts mpi_held).

(** [h]: the submissions accepted for the slot; [q]: those still in the channel;
    [s]: the chunks sent. *)
Definition slot_sends (l : ProtocolLimits) (h q : list Submission) (s : list (list byte)) (o : option Outbound) : Prop :=
  Forall (fun x => sendable l (sub_parcel x)) h /\
  exists done, match o with
  | None => h = done ++ q /\ s = done ≫= sub_chunks
  | Some o => exists x k, h = done ++ x :: q /\ o = sending (sub_ticket x) (parcel_layout (sub_parcel x)) (sub_reserved x) k /\
      (k < pieces (parcel_layout (sub_parcel x)))%nat /\
      s = (done ≫= sub_chunks) ++ first_chunks (sub_ticket x) (parcel_layout (sub_parcel x)) (len (parcel_layout (sub_parcel x)))
            (Z.of_nat (pieces (parcel_layout (sub_parcel x)))) k
  end.

(** The parcels of a log that came from a slot. *)
Definition from_slot (i : nat) log : list Parcel := (filter (fun x => x.1 = i) log).*2.

Definition slots_of (n : nat) log : Prop := Forall (fun x => (x.1 < n * 3)%nat) log.

Definition sends_ok H d : Prop :=
  forall p c, (p < length (members d))%nat ->
    if decide (Z.of_nat p = d_local d) then outbound (link d) !! slot p c = Some None
    else exists o, outbound (link d) !! slot p c = Some o /\
      slot_sends (d_limits d) (H (slot p c)) (queue_at (slot p c) d) (chunks_sent (communicator (link d)) (slot p c)) o.
(** [E]: the parcels handed to the caller. *)
Definition gets_ok E d : Prop :=
  exists log, log.*2 = E /\ slots_of (length (members d)) log /\ forall p c, (p < length (members d))%nat -> exists x, reassembly (link d) !! slot p c = Some x /\
    feed (d_limits d) (chunks_got (communicator (link d)) (slot p c)) None = (Ok (from_slot (slot p c) log), x).

Record shape d : Prop := {
  sh_accounts : Accounts d;
  sh_limits : limits_chunked (d_limits d);
  sh_outbound : length (outbound (link d)) = (length (members d) * 3)%nat;
  sh_reassembly : length (reassembly (link d)) = (length (members d) * 3)%nat;
  sh_size : comm_size (communicator (link d)) = length (members d);
  sh_waiting : arrivals (waiting d) = [];
}.
Record mpi_inv H E d : Prop := { mi_shape : shape d; mi_sends : sends_ok H d; mi_gets : gets_ok E d }.

(** After a failure: what got out is still a prefix of what went in. *)
Record mpi_broken H E d : Prop := {
  mb_shape : shape d;
  mb_sends : forall p c, (p < length (members d))%nat -> Z.of_nat p <> d_local d ->
    Forall (fun x => sendable (d_limits d) (sub_parcel x)) (H (slot p c)) /\
    chunks_sent (communicator (link d)) (slot p c) `prefix_of` H (slot p c) ≫= sub_chunks;
  mb_gets : exists log, log.*2 = E /\ slots_of (length (members d)) log /\ forall p c, (p < length (members d))%nat -> exists part x,
    part `prefix_of` chunks_got (communicator (link d)) (slot p c) /\ feed (d_limits d) part None = (Ok (from_slot (slot p c) log), x);
}.

Lemma first_chunks_prefix t b total count k n : (k <= n)%nat -> first_chunks t b total count k `prefix_of` first_chunks t b total count n.
Proof.
  intros Hk. unfold first_chunks. replace n with (k + (n - k))%nat by lia. rewrite seq_app, fmap_app. by apply prefix_app_r.
Qed.
Lemma slot_sends_prefix l h q s o : slot_sends l h q s o -> Forall (fun x => sendable l (sub_parcel x)) h /\ s `prefix_of` h ≫= sub_chunks.
Proof.
  intros (Hs & done & Ho). split; [done|]. destruct o as [o|].
  - destruct Ho as (x & k & -> & _ & Hk & ->). rewrite bind_app. apply prefix_app. cbn [mbind list_bind]. apply prefix_app_r.
    unfold sub_chunks at 1, chunks. apply first_chunks_prefix. lia.
  - destruct Ho as [-> ->]. rewrite bind_app. by apply prefix_app_r.
Qed.
Lemma gets_parts E d : gets_ok E d -> exists log, log.*2 = E /\ slots_of (length (members d)) log /\ forall p c, (p < length (members d))%nat -> exists part x,
    part `prefix_of` chunks_got (communicator (link d)) (slot p c) /\ feed (d_limits d) part None = (Ok (from_slot (slot p c) log), x).
Proof. intros (log & Hlog & Hsl & Hg). exists log. split_and!; [done..|]. intros p c Hp. destruct (Hg p c Hp) as (x & _ & Hf). eexists _, x. split; [reflexivity|exact Hf]. Qed.
Lemma mpi_inv_broken H E d : mpi_inv H E d -> mpi_broken H E d.
Proof.
  intros [Hsh Hs Hg]. split; [done| |by apply gets_parts]. intros p c Hp Hne. specialize (Hs p c Hp). rewrite decide_False in Hs by done.
  destruct Hs as (o & _ & Ho). by eapply slot_sends_prefix.
Qed.

(** What a step does not touch. *)
Definition fixed d d' : Prop :=
  d_limits d' = d_limits d /\ members d' = members d /\ d_local d' = d_local d /\ d_run d' = d_run d /\ failed d' = failed d /\ shut d' = shut d.
Lemma mpi_fixed_trans d d' d'' : fixed d d' -> fixed d' d'' -> fixed d d''.
Proof. unfold fixed. intros (-> & -> & -> & -> & -> & ->). done. Qed.

Lemma sends_same H d d' :
  sends_ok H d -> fixed d d' -> outbound (link d') = outbound (link d) -> queues d' = queues d ->
  (forall i, chunks_sent (communicator (link d')) i = chunks_sent (communicator (link d)) i) -> sends_ok H d'.
Proof.
  intros Hs (El & Em & Eo & _) Eout Eq Es p c Hp. unfold queue_at. rewrite El, Eo, Eout, Eq, Es. rewrite Em in Hp. by apply Hs.
Qed.
Lemma gets_same E d d' :
  gets_ok E d -> fixed d d' -> reassembly (link d') = reassembly (link d) ->
  (forall i, chunks_got (communicator (link d')) i = chunks_got (communicator (link d)) i) -> gets_ok E d'.
Proof.
  intros (log & Hlog & Hsl & Hg) (El & Em & _) Er Eg. exists log. rewrite Em. split_and!; [done..|]. intros p c Hp. rewrite El, Er, Eg. by apply Hg.
Qed.
Lemma shape_same d d' :
  shape d -> fixed d d' -> Accounts d' -> outbound (link d') = outbound (link d) -> reassembly (link d') = reassembly (link d) ->
  comm_size (communicator (link d')) = comm_size (communicator (link d)) -> arrivals (waiting d') = [] -> shape d'.
Proof. intros [] (El & Em & _) Ha Eo Er Es Hw. by split; rewrite ?El, ?Em, ?Eo, ?Er, ?Es. Qed.
Lemma mpi_inv_same H E d d' :
  mpi_inv H E d -> fixed d d' -> Accounts d' -> link d' = link d -> queues d' = queues d -> arrivals (waiting d') = [] -> mpi_inv H E d'.
Proof.
  intros [Hsh Hs Hg] Hf Ha El Eq Hw. split; [by apply (shape_same d); rewrite ?El|by apply (sends_same H d); rewrite ?El|by apply (gets_same E d); rewrite ?El].
Qed.
Lemma mpi_broken_same H E d d' :
  mpi_broken H E d -> shape d' -> d_limits d' = d_limits d -> members d' = members d -> d_local d' = d_local d ->
  (forall i, chunks_sent (communicator (link d')) i = chunks_sent (communicator (link d)) i) ->
  (forall i, chunks_got (communicator (link d)) i `prefix_of` chunks_got (communicator (link d')) i) -> mpi_broken H E d'.
Proof.
  intros [Hsh Hs (log & Hlog & Hsl & Hg)] Hsh' El Em Eo Es Eg. split; [done| |].
  - intros p c Hp Hne. rewrite El, Es. rewrite Em in Hp. rewrite Eo in Hne. by apply Hs.
  - exists log. rewrite Em. split_and!; [done..|]. intros p c Hp. destruct (Hg p c Hp) as (part & x & Hpart & Hf). exists part, x.
    rewrite El. split; [|done]. etrans; [exact Hpart|apply Eg].
Qed.

(** A step that may deliver: what is new among the events is what came. *)
Definition grows (I : list Parcel -> MpiDriver -> Prop) E d d' : Prop :=
  fixed d d' /\ exists new, out d' = out d ++ new /\ I (E ++ arrivals new) d'.
Lemma grows_refl (I : list Parcel -> MpiDriver -> Prop) E d d' : fixed d d' -> out d' = out d -> I E d' -> grows I E d d'.
Proof. intros Hf Ho HI. split; [done|]. exists []. by rewrite !app_nil_r. Qed.
(** Steps one after the other. *)
Lemma wp_grows_bind {A B} H E (m : DM A) (k : A -> DM B) d :
  wp m (fun _ => grows (mpi_inv H) E d) (fun _ => grows (mpi_broken H) E d) d ->
  (forall a E1 d1, mpi_inv H E1 d1 -> fixed d d1 -> wp (k a) (fun _ => grows (mpi_inv H) E1 d1) (fun _ => grows (mpi_broken H) E1 d1) d1) ->
  wp (m ≫= k) (fun _ => grows (mpi_inv H) E d) (fun _ => grows (mpi_broken H) E d) d.
Proof.
  intros Hm Hk. apply wp_bind. eapply wp_mono; [exact Hm| |done]. intros a d1 Hd1. pose proof Hd1 as (Hf & new & Ho & HI).
  eapply wp_mono; [by apply (Hk a _ d1 HI)| |].
  - intros b d2 (Hf2 & new2 & Ho2 & HI2). split; [by eapply mpi_fixed_trans|]. exists (new ++ new2). by rewrite Ho2, Ho, arrivals_app, !app_assoc.
  - intros e d2 (Hf2 & new2 & Ho2 & HI2). split; [by eapply mpi_fixed_trans|]. exists (new ++ new2). by rewrite Ho2, Ho, arrivals_app, !app_assoc.
Qed.
Lemma wp_on_communicator {A} (f : Env -> A * Env) (Q : A -> MpiDriver -> Prop) (R : TransportError -> MpiDriver -> Prop) d :
  (forall a e, f (communicator (link d)) = (a, e) -> Q a (set_communicator e d)) -> wp (on_communicator f) Q R d.
Proof. unfold wp, on_communicator. destruct (f (communicator (link d))) as [a e]. intros Hf. by apply Hf. Qed.

(** ** Receiving *)

Lemma accept_chunk_returns c l s : wp (accept_chunk c l) (fun _ _ => True) (fun _ _ => True) s.
Proof.
  unfold accept_chunk. repeat (destruct (_ : bool); [done|]).
  apply wp_bind, wp_gets. apply wp_bind. apply (wp_mono _ (fun _ s' => is_Some s') _ (fun _ _ => True)); [| |done].
  - destruct s as [st|]; cbn [id]; [by apply wp_ret|]. destruct (negb _); [done|]. by apply wp_modify.
  - intros _ s' [st ->]. apply wp_bind, wp_gets. cbn [id]. destruct (_ || _); [done|]. apply wp_bind, wp_modify.
    destruct (_ <? _); [done|]. apply wp_bind, wp_modify. destruct (_ =? _); [|by apply wp_ret].
    unfold reassembled. apply wp_bind, wp_modify. destruct (negb _); [done|]. apply wp_bind, wp_lift. by destruct (decode_parcel _ l).
Qed.

Lemma from_slot_app i log log' : from_slot i (log ++ log') = from_slot i log ++ from_slot i log'.
Proof. unfold from_slot. by rewrite filter_app, fmap_app. Qed.
Lemma from_slot_one i j r : from_slot i ((fun q => (j, q)) <$> option_list r) = if decide (i = j) then option_list r else [].
Proof. destruct r as [q|]; [|by case_decide]. unfold from_slot. cbn. case_decide as E; cbn; [by rewrite decide_True|by rewrite decide_False by congruence]. Qed.

Lemma gets_take E d d' p c b x r x' :
  gets_ok E d -> fixed d d' -> (p < length (members d))%nat -> length (reassembly (link d)) = (length (members d) * 3)%nat ->
  reassembly (link d) !! slot p c = Some x -> accept_chunk b (d_limits d) x = (Ok r, x') ->
  reassembly (link d') = <[slot p c := x']> (reassembly (link d)) ->
  (forall j, chunks_got (communicator (link d')) j =
     if decide (j = slot p c) then chunks_got (communicator (link d)) j ++ [b] else chunks_got (communicator (link d)) j) ->
  gets_ok (E ++ option_list r) d'.
Proof.
  intros (log & Hlog & Hsl & Hg) (El & Em & _) Hp Hlen Hx Hacc Er Eg.
  exists (log ++ ((fun q => (slot p c, q)) <$> option_list r)). rewrite Em. split_and!.
  { rewrite fmap_app, Hlog. f_equal. by destruct r. }
  { apply Forall_app. split; [done|]. destruct r; [|constructor]. constructor; [by apply slot_lt|constructor]. }
  intros p' c' Hp'. destruct (Hg p' c' Hp') as (y & Hy & Hf). rewrite El, Er, Eg, from_slot_app, from_slot_one.
  destruct (decide (slot p' c' = slot p c)) as [E'|Hne].
  - rewrite E' in *. rewrite Hx in Hy. injection Hy as <-. exists x'. rewrite list_lookup_insert_eq by (rewrite Hlen; by apply slot_lt). split; [done|].
    apply feed_app. eexists _, x, _. split_and!; [exact Hf|by apply feed_one|done].
  - exists y. rewrite list_lookup_insert_ne by done. rewrite app_nil_r. by split.
Qed.
Lemma accounts_link d k : Accounts d -> (forall p c, (p < length (members d))%nat -> mpi_held k p c = mpi_held (link d) p c) -> Accounts (set_link k d).
Proof. intros Ha Hk. apply (accounts_same mpi_held d); try done. exact (ac_books _ _ Ha). Qed.

Lemma receive_one_wp H E c rank b d e :
  mpi_inv H E d -> mpi_receive c (communicator (link d)) = (Some (rank, b), e) ->
  wp (receive_one c rank b)
    (fun _ d' => grows (mpi_inv H) E (set_communicator e d) d' /\ communicator (link d') = e)
    (fun _ => grows (mpi_broken H) E (set_communicator e d)) (set_communicator e d).
Proof.
  intros Hinv Hrec. pose proof (mpi_receive_some c _ rank b e Hrec) as (Hrank & Hsize & _ & Hsent & Hgot).
  pose proof Hinv as [Hsh Hs Hg]. rewrite (sh_size _ Hsh) in Hrank.
  set (d1 := set_communicator e d). unfold receive_one. rewrite (proj2 (Z.ltb_ge rank 0)) by lia. set (p := Z.to_nat rank) in *.
  assert (Hp : (p < length (members d))%nat) by lia. pose proof (slot_lt p c _ Hp) as Hlt. rewrite <-(sh_reassembly _ Hsh) in Hlt.
  destruct (lookup_lt_is_Some_2 _ _ Hlt) as [x Hx].
  assert (Hsh2 : forall y, shape (set_reassembly (slot p c) y d1)).
  { intros y. destruct Hsh as [Ha ? ? ? ? ?]. split; try done; cbn; [|by rewrite length_insert|congruence].
    apply (accounts_same mpi_held d); try done. exact (ac_books _ _ Ha). }
  assert (Hdrop : forall y, grows (mpi_broken H) E d1 (set_reassembly (slot p c) y d1)).
  { intros y. apply grows_refl; [done|done|]. apply (mpi_broken_same H E d); try done; [by apply mpi_inv_broken|intros i; cbn; by rewrite Hsent|].
    intros i. cbn. rewrite Hgot. case_decide; [by apply prefix_app_r|done]. }
  apply wp_bind. unfold on_slot. unfold wp at 1. cbn [d1 set_communicator set_link link reassembly d_limits]. rewrite Hx.
  pose proof (accept_chunk_returns b (d_limits d) x) as Hret. unfold wp in Hret.
  destruct (accept_chunk b (d_limits d) x) as [[r|[err|]] x'] eqn:Hacc; [|exact (Hdrop x')|done]. clear Hret.
  change (set_link _ d) with d1. set (d2 := set_reassembly (slot p c) x' d1).
  assert (Hg2 : gets_ok (E ++ option_list r) d2) by (apply (gets_take E d d2 p c b x r x'); try done; apply (sh_reassembly _ Hsh)).
  assert (Hs2 : sends_ok H d2) by (apply (sends_same H d); [done|done|done|done|]; intros i; cbn; by rewrite Hsent).
  destruct r as [q|]; cbn [option_list] in Hg2.
  2: { apply wp_ret. split; [|done]. apply grows_refl; [done|done|]. rewrite app_nil_r in Hg2. split; [apply Hsh2|done|done]. }
  assert (Henc : encodable q).
  { destruct Hg as (log & _ & _ & Hg). destruct (Hg p c Hp) as (y & Hy & Hf). rewrite Hx in Hy. injection Hy as <-.
    apply feed_holding in Hf as (done & partial & _ & _ & Hh & _). by apply (accept_chunk_holding _ _ _ _ _ _ Hh) in Hacc as (_ & t & _ & ? & _). }
  apply wp_bind, wp_gets. cbn [id]. destruct (negb _); [exact (Hdrop x')|].
  destruct (lookup_lt_is_Some_2 (members d) p Hp) as [peer Hpeer]. change (members d2) with (members d). rewrite Hpeer.
  destruct (negb _ || negb _); [exact (Hdrop x')|]. destruct (payload_len_encodable q Henc) as [n Hn].
  apply wp_bind, wp_lift. rewrite Hn. cbn [map_err]. apply wp_bind, wp_on_shared, wp_modify, wp_modify. split; [|done].
  split; [done|]. exists [Incoming q]. split; [done|].
  match goal with |- mpi_inv _ _ ?s => set (d3 := s) end.
  assert (Ha3 : Accounts d3) by (apply accounts_out, accounts_shared; [apply (sh_accounts _ (Hsh2 x'))|done..]).
  destruct (Hsh2 x') as [_ ? ? ? ? ?]. split; [by split|by apply (sends_same H d2)|by apply (gets_same _ d2)].
Qed.

Lemma receive_loop_wp H E fuel c start max moved d :
  mpi_inv H E d -> (mpi_rounds (communicator (link d)) < fuel)%nat ->
  wp (receive_loop fuel c start max moved) (fun _ => grows (mpi_inv H) E d) (fun _ => grows (mpi_broken H) E d) d.
Proof.
  revert E moved d. induction fuel as [|fuel IH]; intros E moved d Hinv Hf; [lia|]. cbn [receive_loop]. apply wp_bind, wp_gets.
  destruct (max <=? _); [apply wp_ret; by apply grows_refl|]. apply wp_bind, wp_on_communicator. intros [[rank b]|] e He.
  - pose proof (mpi_receive_some c _ rank b e He) as (_ & _ & Hr & _). apply wp_bind.
    eapply wp_mono; [by apply (receive_one_wp H E c rank b d e)| |].
    + intros [] d1 [Hg Hc]. eapply wp_mono; [|intros a d2 Hd2; exact Hd2|intros a d2 Hd2; exact Hd2].
      destruct Hg as (Hfix & new & Ho & HI). eapply wp_mono; [apply (IH _ true d1 HI); rewrite Hc; lia| |].
      * intros _ d2 (Hf2 & new2 & Ho2 & HI2). split; [by eapply mpi_fixed_trans|]. exists (new ++ new2). rewrite Ho2, Ho, arrivals_app, !app_assoc. done.
      * intros _ d2 (Hf2 & new2 & Ho2 & HI2). split; [by eapply mpi_fixed_trans|]. exists (new ++ new2). rewrite Ho2, Ho, arrivals_app, !app_assoc. done.
    + intros err d2 Hd2. exact Hd2.
  - apply mpi_receive_none in He as (Hsize & Hsent & Hgot). apply wp_ret, grows_refl; [done|done|].
    destruct Hinv as [Hsh Hs Hg]. split.
    + apply (shape_same d); try done; [|apply Hsh]. apply accounts_link; [apply Hsh|done].
    + apply (sends_same H d); try done. intros i. cbn. by rewrite Hsent.
    + apply (gets_same E d); try done. intros i. cbn. by rewrite Hgot.
Qed.

(** ** Sending *)

(** A step that changes what the slot of [p] and [c] sends, and no other. *)
Lemma sends_move H H' d d' p c o :
  sends_ok H d -> d_limits d' = d_limits d -> members d' = members d -> d_local d' = d_local d ->
  (p < length (members d))%nat -> Z.of_nat p <> d_local d -> length (outbound (link d)) = (length (members d) * 3)%nat ->
  outbound (link d') = <[slot p c := o]> (outbound (link d)) ->
  (forall i, i <> slot p c -> queue_at i d' = queue_at i d /\ H' i = H i /\
     chunks_sent (communicator (link d')) i = chunks_sent (communicator (link d)) i) ->
  slot_sends (d_limits d) (H' (slot p c)) (queue_at (slot p c) d') (chunks_sent (communicator (link d')) (slot p c)) o -> sends_ok H' d'.
Proof.
  intros Hs El Em Eo Hp Hne Hlen Eout Hi Hnew p' c' Hp'. rewrite Em in Hp'. specialize (Hs p' c' Hp'). rewrite Eo, Eout, El.
  destruct (decide (slot p' c' = slot p c)) as [E'|Hd].
  - apply slot_inj in E' as [-> ->]. rewrite decide_False by done. exists o. split; [|done]. apply list_lookup_insert_eq. rewrite Hlen. by apply slot_lt.
  - rewrite list_lookup_insert_ne by done. destruct (Hi (slot p' c')) as (-> & -> & ->); done.
Qed.
Lemma sends_at H d p c :
  sends_ok H d -> (p < length (members d))%nat -> Z.of_nat p <> d_local d ->
  exists o, outbound (link d) !! slot p c = Some o /\
    slot_sends (d_limits d) (H (slot p c)) (queue_at (slot p c) d) (chunks_sent (communicator (link d)) (slot p c)) o.
Proof. intros Hs Hp Hne. specialize (Hs p c Hp). by rewrite decide_False in Hs. Qed.
Lemma outbound_at_eq i o d : outbound (link d) !! i = Some o -> outbound_at i d = (Ok o, d).
Proof. intros Ho. unfold outbound_at. rewrite M_bind_gets. cbn [id]. by rewrite Ho. Qed.
Lemma in_hand_slot d p c o :
  outbound (link d) !! slot p c = Some o -> in_hand mpi_held d p c = (permit_of p c <$> queue_at (slot p c) d) ++ held_of p c o.
Proof. intros Ho. unfold in_hand, mpi_held. by rewrite Ho. Qed.
Lemma mpi_in_place_same d p c h p' c' : in_hand mpi_held d p c ≡ₚ h -> in_hand mpi_held d p' c' ≡ₚ in_place mpi_held d p c h p' c'.
Proof. intros Hh. unfold in_place. case_decide as E'; [by destruct E' as [-> ->]|done]. Qed.

(** The transfer of a slot is replaced by another. *)
Lemma accounts_slot d d' p c q o :
  Accounts d -> length (outbound (link d)) = (length (members d) * 3)%nat -> (p < length (members d))%nat ->
  d_limits d' = d_limits d -> d_local d' = d_local d -> members d' = members d -> queues d' = <[slot p c := q]> (queues d) ->
  outbound (link d') = <[slot p c := o]> (outbound (link d)) -> Forall (fun x => sendable (d_limits d) (sub_parcel x)) q ->
  books (length (members d)) (d_limits d) (shared d') (in_place mpi_held d p c ((permit_of p c <$> q) ++ held_of p c o)) -> Accounts d'.
Proof.
  intros Ha Hlen Hp El Eo Em Eq Eout Hq Hb. pose proof (slot_lt p c _ Hp) as Hlt. apply (accounts_move mpi_held d d' p c q); try done.
  - intros p' c' Hne. unfold mpi_held. rewrite Eout, list_lookup_insert_ne; [done|]. intros [-> ->]%slot_inj. by apply Hne.
  - unfold mpi_held at 2. rewrite Eout, list_lookup_insert_eq by lia. done.
Qed.
Lemma queue_valid d p c : Accounts d -> (p < length (members d))%nat -> Forall (fun x => sendable (d_limits d) (sub_parcel x)) (queue_at (slot p c) d).
Proof. intros Ha Hp. apply (ac_valid _ _ Ha (slot p c)). by apply (queue_lookup mpi_held). Qed.

Lemma report_wp H E start max e d :
  mpi_inv H E d -> arrivals [e] = [] -> wp (report start max e) (fun _ => grows (mpi_inv H) E d) (fun _ _ => False) d.
Proof.
  intros Hinv He. unfold report. apply wp_bind, wp_gets. destruct (_ <? max); apply wp_modify.
  - split; [done|]. exists [e]. split; [done|]. rewrite He, app_nil_r. apply (mpi_inv_same H E d); try done; [apply accounts_out|]; apply Hinv.
  - apply grows_refl; [done|done|]. apply (mpi_inv_same H E d); try done; [apply accounts_waiting; apply Hinv|].
    cbn [waiting set_waiting]. rewrite arrivals_app, He, (sh_waiting _ (mi_shape _ _ _ Hinv)). done.
Qed.

Lemma start_transfer_wp H E p c start max d :
  mpi_inv H E d -> (p < length (members d))%nat -> Z.of_nat p <> d_local d ->
  wp (start_transfer p c start max) (fun _ => grows (mpi_inv H) E d) (fun _ _ => False) d.
Proof.
  intros Hinv Hp Hne. pose proof Hinv as [Hsh Hs Hg]. pose proof (sh_accounts _ Hsh) as Ha. unfold start_transfer.
  destruct (sends_at H d p c Hs Hp Hne) as (o & Ho & Hsend). apply wp_bind. eapply wp_step_ok; [by apply outbound_at_eq|].
  destruct o as [o|]; [apply wp_ret; by apply grows_refl|]. apply wp_bind. unfold try_recv. apply wp_bind, wp_gets. cbn [id].
  rewrite (queue_lookup mpi_held d p c Ha Hp). destruct (queue_at (slot p c) d) as [|y q] eqn:Hq; [apply wp_ret; by apply grows_refl|].
  apply wp_bind, wp_modify, wp_ret, wp_bind, wp_gets. cbn [id d_limits set_queues].
  pose proof (queue_valid d p c Ha Hp) as Hvalid. rewrite Hq in Hvalid. apply Forall_cons in Hvalid as [Hy Hvalid].
  rewrite Outbound_new_sending; [|apply Ha|apply sendable_cuttable; [apply Hsh|done]].
  set (o := sending (sub_ticket y) (parcel_layout (sub_parcel y)) (sub_reserved y) 0).
  apply wp_modify. set (d1 := set_outbound (slot p c) (Some o) (set_queues (<[slot p c := q]> (queues d)) d)).
  assert (Ha1 : Accounts d1).
  { apply (accounts_slot d d1 p c q (Some o)); try done; [apply Hsh|]. eapply books_ext; [exact (ac_books _ _ Ha)|]. intros p' c' _.
    apply mpi_in_place_same. rewrite (in_hand_slot d p c None Ho), Hq, app_nil_r. cbn [fmap list_fmap held_of]. apply Permutation_cons_append. }
  assert (Hq1 : queue_at (slot p c) d1 = q).
  { unfold queue_at. cbn [d1 queues set_outbound set_link set_queues]. rewrite list_lookup_insert_eq; [done|]. rewrite (ac_queues _ _ Ha). by apply slot_lt. }
  apply grows_refl; [done|done|]. split.
  - destruct Hsh. split; try done. cbn. by rewrite length_insert.
  - apply (sends_move H H d d1 p c (Some o)); try done; [apply Hsh| |].
    + intros i Hi. split_and!; try done. unfold queue_at. cbn [d1 queues set_outbound set_link set_queues]. by rewrite list_lookup_insert_ne.
    + rewrite Hq1. destruct Hsend as (Hall & done & Hh & Hsent). split; [done|]. exists done, y, 0%nat.
      destruct (pieces_spec _ (layout_nonempty (sub_parcel y))) as (H1 & _). split_and!; [done|done|done|]. cbn [d1 link set_outbound set_link set_queues communicator].
      rewrite Hsent. unfold first_chunks. cbn. by rewrite app_nil_r.
  - by apply (gets_same E d).
Qed.

Lemma send_chunk_wp H E p c start max d :
  mpi_inv H E d -> (p < length (members d))%nat -> Z.of_nat p <> d_local d ->
  wp (send_chunk p c start max) (fun _ => grows (mpi_inv H) E d) (fun _ _ => False) d.
Proof.
  intros Hinv Hp Hne. pose proof Hinv as [Hsh Hs Hg]. pose proof (sh_accounts _ Hsh) as Ha. unfold send_chunk.
  destruct (sends_at H d p c Hs Hp Hne) as (o & Ho & Hall & done & Hsend). apply wp_bind. eapply wp_step_ok; [by apply outbound_at_eq|].
  destruct o as [o|]; [|apply wp_ret; by apply grows_refl]. destruct Hsend as (x & k & Hh & -> & Hk & Hsent).
  set (b := parcel_layout (sub_parcel x)) in *. pose proof (layout_nonempty (sub_parcel x)) as Hb. fold b in Hb.
  assert (Hcut : len b <= u32_max * CHUNK_PAYLOAD_BYTES).
  { rewrite Hh in Hall. apply Forall_app in Hall as [_ Hall]. apply Forall_cons in Hall as [Hx _].
    apply (sendable_cuttable _ _ (sh_limits _ Hsh)) in Hx as [_ Hx]. exact Hx. }
  apply wp_bind, wp_lift. rewrite next_chunk_sending by done. set (chunk := chunk_at (sub_ticket x) b (len b) (Z.of_nat (pieces b)) k).
  set (o' := sending (sub_ticket x) b (sub_reserved x) (S k)).
  apply wp_bind, wp_modify, wp_bind, wp_on_communicator. intros [] e [= <-].
  destruct (mpi_send_ok p c chunk (communicator (link d))) as (Hsize & Hgot & Hsent').
  match goal with |- wp _ _ _ ?s => set (d1 := s) end.
  assert (Hs1 : chunks_sent (communicator (link d1)) (slot p c) = (done ≫= sub_chunks) ++ first_chunks (sub_ticket x) b (len b) (Z.of_nat (pieces b)) (S k)).
  { change (communicator (link d1)) with (mpi_send p c chunk (communicator (link d))). by rewrite Hsent', decide_True, Hsent, <-app_assoc, first_chunks_S by done. }
  assert (Hother : forall i, i <> slot p c -> chunks_sent (communicator (link d1)) i = chunks_sent (communicator (link d)) i)
    by (intros i Hi; cbn; by rewrite Hsent', decide_False).
  assert (Hg1 : forall d2, fixed d d2 -> link d2 = link d1 \/ reassembly (link d2) = reassembly (link d1) /\ communicator (link d2) = communicator (link d1) -> gets_ok E d2).
  { intros d2 Hf Hl. apply (gets_same E d); [done|done|by destruct Hl as [->|[-> _]]|]. intros i. assert (Hc : communicator (link d2) = mpi_send p c chunk (communicator (link d))) by (destruct Hl as [->|[_ ->]]; done). by rewrite Hc, Hgot. }
  pose proof (slot_lt p c _ Hp) as Hlt. assert (Hcomp : Outbound_complete o' = bool_decide (pieces b <= S k)%nat) by by apply sending_complete.
  rewrite Hcomp. apply wp_bind. case_bool_decide as Hlast.
  - apply wp_bind, wp_modify, wp_bind, wp_on_shared. set (d2 := set_outbound (slot p c) None d1).
    eapply wp_mono; [apply (books_release (length (members d)) (d_limits d) (shared d)
      (in_place mpi_held d p c (permit_of p c <$> queue_at (slot p c) d)) (transfer_permit p c o'))| |done].
    + eapply books_ext; [exact (ac_books _ _ Ha)|]. intros p' c' _. unfold plus, in_place, at_place. cbn [transfer_permit permit_peer permit_channel].
      destruct (decide (p = p' /\ c = c')) as [[<- <-]|Hd].
      * rewrite decide_True by done. rewrite (in_hand_slot d p c _ Ho). cbn [held_of]. symmetry. apply Permutation_cons_append.
      * rewrite decide_False; [done|]. intros [-> ->]. by apply Hd.
    + apply (ac_small _ _ Ha).
    + done.
    + done.
    + intros _ s (Hbooks & _). set (d3 := set_shared s d2).
      assert (Ha3 : Accounts d3).
      { apply (accounts_slot d d3 p c (queue_at (slot p c) d) None); try done; [apply Hsh| | |by apply queue_valid|].
        - cbn. symmetry. apply list_insert_id. by apply (queue_lookup mpi_held).
        - cbn. by rewrite list_insert_insert_eq.
        - cbn [held_of]. by rewrite app_nil_r. }
      assert (Hinv3 : mpi_inv H E d3).
      { split.
        - destruct Hsh. split; try done; cbn; [by rewrite !length_insert|etransitivity; [exact Hsize|done]].
        - apply (sends_move H H d d3 p c None); try done; [apply Hsh|cbn; by rewrite list_insert_insert_eq|intros i Hi; split_and!; [done|done|by apply Hother]|].
          split; [done|]. exists (done ++ [x]). rewrite Hh, <-app_assoc, bind_app. split; [done|]. change (communicator (link d3)) with (communicator (link d1)).
          rewrite Hs1. cbn [mbind list_bind]. rewrite app_nil_r. f_equal. unfold sub_chunks, chunks. fold b. f_equal. lia.
        - apply Hg1; [done|by right]. }
      eapply wp_mono; [by apply (report_wp H E)| |done]. intros ? d4 (Hf4 & new & Ho4 & HI4). apply wp_ret. split; [done|]. by exists new.
  - apply wp_ret, wp_ret, grows_refl; [done|done|]. split.
    + destruct Hsh. split; try done; cbn; [|by rewrite length_insert|etransitivity; [exact Hsize|done]].
      apply (accounts_slot d d1 p c (queue_at (slot p c) d) (Some o')); try done; [|by apply queue_valid|].
      * cbn. symmetry. apply list_insert_id. by apply (queue_lookup mpi_held).
      * eapply books_ext; [exact (ac_books _ _ Ha)|]. intros p' c' _. apply mpi_in_place_same. by rewrite (in_hand_slot d p c _ Ho).
    + apply (sends_move H H d d1 p c (Some o')); try done; [apply Hsh|intros i Hi; split_and!; [done|done|by apply Hother]|]. split; [done|]. exists done, x, (S k). split_and!; [done|done|fold b; lia|exact Hs1].
    + apply Hg1; [done|by left].
Qed.

(** ** The driver *)

Lemma send_visits_wp H E l c start max d :
  mpi_inv H E d -> Forall (fun p => (p < length (members d))%nat /\ Z.of_nat p <> d_local d) l ->
  wp (send_visits l c start max) (fun _ => grows (mpi_inv H) E d) (fun _ => grows (mpi_broken H) E d) d.
Proof.
  revert E d. induction l as [|p l IH]; intros E d Hinv Hl; cbn [send_visits]; [apply wp_ret; by apply grows_refl|].
  apply Forall_cons in Hl as [[Hp Hne] Hl].
  apply wp_grows_bind; [eapply wp_mono; [by apply start_transfer_wp|done|done]|]. intros _ E1 d1 H1 (El & Em & Eo & _).
  apply wp_grows_bind; [eapply wp_mono; [apply send_chunk_wp; [done|by rewrite Em|by rewrite Eo]|done|done]|].
  intros moved E2 d2 H2 (El2 & Em2 & Eo2 & _). apply wp_grows_bind; [apply IH; [done|by rewrite Em2, Em, Eo2, Eo]|].
  intros rest E3 d3 H3 _. apply wp_ret. by apply grows_refl.
Qed.

Lemma others_valid d : 0 <= d_local d -> Forall (fun p => (p < length (members d))%nat /\ Z.of_nat p <> d_local d)
  (filter (fun p => p <> Z.to_nat (d_local d)) (peer_indices d)).
Proof.
  intros Hl. apply Forall_forall. intros p Hp. apply list_elem_of_filter in Hp as [Hne Hp]. unfold peer_indices in Hp.
  apply list_elem_of_In, in_seq in Hp. lia.
Qed.

Lemma channel_visits_wp H E cs start max d :
  mpi_inv H E d -> wp (channel_visits cs start max) (fun _ => grows (mpi_inv H) E d) (fun _ => grows (mpi_broken H) E d) d.
Proof.
  revert E d. induction cs as [|c cs IH]; intros E d Hinv; cbn [channel_visits]; [apply wp_ret; by apply grows_refl|].
  apply wp_bind, wp_gets. apply wp_grows_bind; [apply receive_loop_wp; [done|lia]|]. intros received E1 d1 H1 _. apply wp_bind, wp_gets. cbn [id].
  apply wp_grows_bind; [apply send_visits_wp; [done|]|].
  { apply others_valid. pose proof (ac_local _ _ (sh_accounts _ (mi_shape _ _ _ H1))). lia. }
  intros sent E2 d2 H2 _. apply wp_grows_bind; [by apply IH|]. intros rest E3 d3 H3 _. apply wp_ret. by apply grows_refl.
Qed.

Lemma mpi_drive_wp H E max d :
  mpi_inv H E d -> wp (drive max) (fun _ => grows (mpi_inv H) E d) (fun _ => grows (mpi_broken H) E d) d.
Proof.
  intros Hinv. cbn [drive mpi_backend]. unfold mpi_drive, require_main_thread. apply wp_bind, wp_bind, wp_gets, wp_when.
  destruct (negb _).
  - apply wp_raise. apply grows_refl; [done|done|]. by apply mpi_inv_broken.
  - apply wp_bind, wp_gets. by apply channel_visits_wp.
Qed.

(** ** A failure *)

Lemma shape_accounts d d' :
  shape d -> Accounts d' -> d_limits d' = d_limits d -> members d' = members d -> link d' = link d -> waiting d' = waiting d -> shape d'.
Proof. intros [] Ha El Em Ek Ew. by split; rewrite ?El, ?Em, ?Ek, ?Ew. Qed.

Lemma mpi_drain_slot_wp H E n es p c d :
  mpi_broken H E d /\ length (members d) = n /\ out d = es -> (p < n)%nat ->
  wp (drain_slot p c) (fun _ d' => mpi_broken H E d' /\ length (members d') = n /\ out d' = es) (fun _ _ => False) d.
Proof.
  intros (Hb & <- & <-) Hp. pose proof (mb_shape _ _ _ Hb) as Hsh. pose proof (sh_accounts _ Hsh) as Ha. pose proof (slot_lt p c _ Hp) as Hlt.
  cbn [drain_slot mpi_backend]. unfold mpi_drain_slot.
  assert (Hlt1 : (slot p c < length (outbound (link d)))%nat) by (rewrite (sh_outbound _ Hsh); lia).
  destruct (lookup_lt_is_Some_2 _ _ Hlt1) as [o Ho]. apply wp_bind. eapply wp_step_ok; [by apply outbound_at_eq|]. apply wp_bind.
  assert (Hre : forall d1, mpi_broken H E d1 -> members d1 = members d -> out d1 = out d ->
    wp (gets id ≫= (fun d2 : MpiDriver => match reassembly (link d2) !! slot p c with None => panic | Some _ => modify (set_reassembly (slot p c) None) end : DM unit))
      (fun _ d' => mpi_broken H E d' /\ length (members d') = length (members d) /\ out d' = out d) (fun _ _ => False) d1).
  { intros d1 Hb1 Em Eo. pose proof (mb_shape _ _ _ Hb1) as Hsh1. apply wp_bind, wp_gets. cbn [id].
    assert (Hlt2 : (slot p c < length (reassembly (link d1)))%nat) by (rewrite (sh_reassembly _ Hsh1), Em; lia).
    destruct (lookup_lt_is_Some_2 _ _ Hlt2) as [x ->]. apply wp_modify. split; [|split; [by cbn; rewrite Em|done]].
    apply (mpi_broken_same H E d1); try done. destruct Hsh1. split; try done; [|cbn; by rewrite length_insert]. by apply accounts_link. }
  destruct o as [o|]; [|apply wp_ret; by apply Hre].
  apply wp_bind, wp_modify, wp_on_shared. set (d1 := set_outbound (slot p c) None d).
  eapply wp_mono; [apply (books_release (length (members d)) (d_limits d) (shared d)
      (in_place mpi_held d p c (permit_of p c <$> queue_at (slot p c) d)) (transfer_permit p c o))| |done].
  - eapply books_ext; [exact (ac_books _ _ Ha)|]. intros p' c' _. unfold plus, in_place, at_place. cbn [transfer_permit permit_peer permit_channel].
    destruct (decide (p = p' /\ c = c')) as [[<- <-]|Hd].
    + rewrite decide_True by done. rewrite (in_hand_slot d p c _ Ho). cbn [held_of]. symmetry. apply Permutation_cons_append.
    + rewrite decide_False; [done|]. intros [-> ->]. by apply Hd.
  - apply (ac_small _ _ Ha).
  - done.
  - done.
  - intros _ s (Hbooks & _). apply Hre; [|done|done]. set (d2 := set_shared s d1).
    apply (mpi_broken_same H E d); try done. pose proof (sh_outbound _ Hsh) as Hlen. destruct Hsh. split; try done; [|cbn; by rewrite length_insert].
    apply (accounts_slot d d2 p c (queue_at (slot p c) d) None); try done; [|by apply queue_valid|cbn [held_of]; by rewrite app_nil_r].
    cbn. symmetry. apply list_insert_id. by apply (queue_lookup mpi_held).
Qed.

Lemma mpi_fail_wp H E e d :
  mpi_broken H E d -> wp (fail e) (fun _ d' => mpi_broken H E d' /\ failed d' = Some e /\ out d' = out d) (fun _ _ => False) d.
Proof.
  intros Hb. eapply wp_mono; [apply (fail_wp mpi_held (length (members d))
    (fun d' => mpi_broken H E d' /\ length (members d') = length (members d) /\ out d' = out d)); [..|by split]| |done].
  - intros d1 (H1 & Hn & _). split; [apply (mb_shape _ _ _ H1)|done].
  - intros i s d1 (H1 & Hn & Ho) Ha. split; [|done]. apply (mpi_broken_same H E d1); try done. by apply (shape_accounts d1); [apply (mb_shape _ _ _ H1)|..].
  - intros p c d1. apply mpi_drain_slot_wp.
  - intros d1 s x (H1 & Hn & Ho) Ha. split; [|done]. apply (mpi_broken_same H E d1); try done. by apply (shape_accounts d1); [apply (mb_shape _ _ _ H1)|..].
  - intros _ d' ((H1 & _ & Ho) & Hf & _). by split_and!.
Qed.

(** ** Handles *)

Definition run_inv (b : bool) H E d : Prop :=
  if b then mpi_inv H E d /\ failed d = None else mpi_broken H E d /\ exists e, failed d = Some e.
Lemma run_shape b H E d : run_inv b H E d -> shape d.
Proof. destruct b; intros [Hi _]; apply Hi. Qed.

(** A submission is accepted for the slot of its parcel. *)
Definition sent_to (p : Parcel) : nat := slot (Z.to_nat (destination p)) (channel p).
Definition accepted H (x : Submission) : nat -> list Submission := fun i => if decide (i = sent_to (sub_parcel x)) then H i ++ [x] else H i.

Lemma mpi_try_send_accounts p d :
  Accounts d -> Parcel_wf p ->
  wp (mpi_try_send p)
    (fun t d' => exists peer s, destination p = Z.of_nat peer /\ (peer < length (members d))%nat /\ Z.of_nat peer <> d_local d /\
       sendable (d_limits d) p /\ Accounts d' /\
       d' = set_shared s (set_queues (<[slot peer (channel p) :=
         queue_at (slot peer (channel p)) d ++ [mkSubmission t p (len (parcel_layout p))]]> (queues d)) d))
    (fun _ d' => exists s, d' = set_shared s d /\ Accounts d') d.
Proof.
  intros Ha Hwf. assert (Hsame : exists s, d = set_shared s d /\ Accounts d) by (exists (shared d); by rewrite set_shared_id).
  unfold mpi_try_send. apply wp_bind. eapply wp_mono; [by apply (addressed_wp mpi_held)| |by intros ? ? ->].
  intros peer d0 (-> & Hp & Hne & Hdest & _ & _ & Hfit & Hok). apply wp_bind, wp_lift.
  destruct (Parcel_encoded_len p) as [n|] eqn:En; [|done]. cbn [map_err]. apply Parcel_encoded_len_ok in En as [En Hn].
  pose proof (ac_small _ _ Ha) as (_ & Hbig & _). pose proof Hfit as (_ & _ & Hframe & _). rewrite <-En in Hframe.
  assert (Hlen : n = len (parcel_layout p)) by (rewrite len_parcel_layout; done). pose proof (len_nonneg (parcel_layout p)).
  eapply wp_mono; [apply (submit_wp mpi_held peer p n d); try done; lia| |done].
  intros t d' (s & Hd' & Ha' & _). exists peer, s. rewrite Hlen in Hd'. by split_and!.
Qed.

Lemma mpi_try_send_run b H E p d :
  run_inv b H E d -> Parcel_wf p ->
  wp (mpi_try_send p)
    (fun t d' => run_inv b (accepted H (mkSubmission t p (len (parcel_layout p)))) E d' /\ fixed d d')
    (fun _ d' => run_inv b H E d' /\ fixed d d') d.
Proof.
  intros Hinv Hwf. pose proof (run_shape _ _ _ _ Hinv) as Hsh. pose proof (sh_accounts _ Hsh) as Ha.
  eapply wp_mono; [by apply mpi_try_send_accounts| |].
  - intros t d' (peer & s & Hdest & Hp & Hne & Hsend & Ha' & Hd'). set (x := mkSubmission t p (len (parcel_layout p))) in *.
    assert (Hi : sent_to (sub_parcel x) = slot peer (channel p)) by (unfold sent_to; cbn [sub_parcel x]; by rewrite Hdest, Nat2Z.id).
    split; [|by rewrite Hd']. assert (Hlt : (slot peer (channel p) < length (queues d))%nat) by (rewrite (ac_queues _ _ Ha); by apply slot_lt).
    assert (Hsh' : shape d') by (apply (shape_accounts d); [done|done|by rewrite Hd'..]).
    assert (Hq : forall j, queue_at j d' = if decide (slot peer (channel p) = j) then queue_at j d ++ [x] else queue_at j d).
    { intros j. rewrite Hd'. unfold queue_at. cbn [queues set_shared set_queues]. case_decide as E'; [by rewrite <-E', list_lookup_insert_eq|].
      by rewrite list_lookup_insert_ne. }
    destruct b; cbn [run_inv] in *.
    + destruct Hinv as [[_ Hs Hg] Hf]. split; [|by rewrite Hd']. split; [done| |by apply (gets_same E d); rewrite ?Hd'].
      destruct (sends_at H d peer (channel p) Hs Hp Hne) as (o & Ho & Hall & done & Hsl).
      apply (sends_move H _ d d' peer (channel p) o); try done; try (by rewrite Hd').
      * apply Hsh.
      * rewrite Hd'. cbn [link set_shared set_queues]. symmetry. by apply list_insert_id.
      * intros j Hj. rewrite Hq, decide_False by done. unfold accepted. rewrite Hi, decide_False by done. by rewrite Hd'.
      * rewrite Hq, decide_True by done. unfold accepted. rewrite Hi, decide_True by done. rewrite Hd'. cbn [link set_shared set_queues].
        split; [apply Forall_app; split; [done|by constructor]|]. exists done. destruct o as [o|].
        -- destruct Hsl as (y & k & -> & Hsl). exists y, k. split; [by rewrite <-app_assoc|done].
        -- destruct Hsl as [-> Hsl]. split; [by rewrite <-app_assoc|done].
    + destruct Hinv as [[_ Hs Hg] Hf]. split; [|by rewrite Hd']. split; [done| |by rewrite Hd'].
      intros p' c' Hp' Hne'. rewrite Hd' in *. cbn [link set_shared set_queues members d_local d_limits] in *.
      destruct (Hs p' c' Hp' Hne') as (Hall & Hpre). unfold accepted. rewrite Hi. case_decide as E'; [|by split].
      split; [apply Forall_app; split; [done|by constructor]|]. rewrite bind_app. by apply prefix_app_r.
  - intros ? d' (s & -> & Ha'). split; [|done]. destruct b; cbn [run_inv] in *.
    + destruct Hinv as [Hinv Hf]. split; [|done]. apply (mpi_inv_same H E d); try done. apply (sh_waiting _ Hsh).
    + destruct Hinv as [Hb Hf]. split; [|done]. apply (mpi_broken_same H E d); try done. by apply (shape_accounts d).
Qed.

(** ** Runs *)

Definition unfailed d : bool := match failed d with None => true | Some _ => false end.
Lemma run_unfailed b H E d : run_inv b H E d -> unfailed d = b.
Proof. unfold unfailed. destruct b; [by intros [_ ->]|by intros [_ [e ->]]]. Qed.

Lemma hand_out_wp H E k d : mpi_inv H E d -> wp (hand_out k) (fun _ => grows (mpi_inv H) E d) (fun _ _ => False) d.
Proof.
  revert E d. induction k as [|k IH]; intros E d Hinv; cbn [hand_out]; [apply wp_ret; by apply grows_refl|].
  apply wp_bind, wp_gets. cbn [id]. destruct (waiting d) as [|e es] eqn:Hw; [apply wp_ret; by apply grows_refl|].
  apply wp_bind, wp_modify, wp_bind, wp_modify. pose proof (sh_waiting _ (mi_shape _ _ _ Hinv)) as Hnone. rewrite Hw in Hnone.
  assert (He : arrivals [e] = [] /\ arrivals es = []) by (change (e :: es) with ([e] ++ es) in Hnone; rewrite arrivals_app in Hnone; by apply app_eq_nil).
  destruct He as [He Hes]. match goal with |- wp _ _ _ ?s => set (d1 := s) end.
  assert (Hinv1 : mpi_inv H E d1) by (apply (mpi_inv_same H E d); try done; apply accounts_out, accounts_waiting, (sh_accounts _ (mi_shape _ _ _ Hinv))).
  eapply wp_mono; [apply (IH E d1 Hinv1)| |done]. intros _ d2 (Hf & new & Ho & HI). split; [done|]. exists (e :: new).
  change (e :: new) with ([e] ++ new). rewrite arrivals_app, He. split; [by rewrite Ho, app_assoc|exact HI].
Qed.

(** What is new among the events has come. *)
Definition advances H E d d' : Prop := exists new, out d' = out d ++ new /\ run_inv (unfailed d') H (E ++ arrivals new) d'.
Lemma advances_refl b H E d : run_inv b H E d -> advances H E d d.
Proof. intros Hi. exists []. rewrite !app_nil_r. split; [done|]. by rewrite (run_unfailed _ _ _ _ Hi). Qed.

Lemma progress_wp b H E max d : run_inv b H E d -> wp (progress max) (fun _ => advances H E d) (fun _ => advances H E d) d.
Proof.
  intros Hinv. unfold progress. apply wp_bind, wp_gets. cbn [id]. destruct (shut d); [by eapply advances_refl|].
  destruct (failed d) as [error|] eqn:Ef; [by eapply advances_refl|].
  pose proof (run_unfailed _ _ _ _ Hinv) as Hb. unfold unfailed in Hb. rewrite Ef in Hb. subst b. destruct Hinv as [Hinv _].
  apply wp_bind. eapply wp_mono; [by apply (hand_out_wp H E)| |done]. intros _ d1 (Hf1 & new1 & Ho1 & H1).
  pose proof Hf1 as (_ & _ & _ & _ & Efail & _). rewrite Ef in Efail. apply wp_bind, wp_gets, wp_bind.
  assert (Hstay : forall d2 new2, fixed d1 d2 -> out d2 = out d1 ++ new2 -> mpi_inv H ((E ++ arrivals new1) ++ arrivals new2) d2 -> advances H E d d2).
  { intros d2 new2 (_ & _ & _ & _ & Ef2 & _) Ho2 HI. exists (new1 ++ new2). rewrite Ho2, Ho1, arrivals_app, !app_assoc. split; [done|].
    unfold unfailed. rewrite Ef2, Efail. split; [done|congruence]. }
  destruct (_ <? max).
  - unfold or_fail. pose proof (mpi_drive_wp H _ (max - (len (out d1) - len (out d))) d1 H1) as Hd. unfold wp at 1. unfold wp in Hd.
    destruct (drive _ d1) as [[moved|[e|]] d2]; [| |done].
    + destruct Hd as (Hf2 & new2 & Ho2 & HI). apply wp_bind, wp_gets, wp_ret. by apply (Hstay d2 new2).
    + destruct Hd as (Hf2 & new2 & Ho2 & HI). pose proof (mpi_fail_wp H _ e d2 HI) as Hfail. unfold wp in Hfail. unfold mbind, M_bind.
      destruct (fail e d2) as [[[]|[]] d3]; [|done..]. destruct Hfail as (Hb3 & Hf3 & Ho3). cbn [raise].
      exists (new1 ++ new2). rewrite Ho3, Ho2, Ho1, arrivals_app, !app_assoc. split; [done|]. unfold unfailed. rewrite Hf3. split; [done|by eexists].
  - apply wp_ret, wp_bind, wp_gets, wp_ret. apply (Hstay d1 []); [done|by rewrite app_nil_r|by rewrite app_nil_r].
Qed.

(** [H]: the submissions accepted for every slot; [E]: the parcels handed to the
    caller; [b]: the transport has not failed.  Handles send, the driver makes
    progress, the caller takes the events, others use the communicator. *)
Inductive mpi_run : bool -> (nat -> list Submission) -> list Parcel -> MpiDriver -> Prop :=
| Run_new rank size run caps l e :
    limits_chunked l -> (rank < size)%nat -> comm_size e = size -> (forall i, chunks_sent e i = [] /\ chunks_got e i = []) ->
    mpi_run true (fun _ => []) [] (mpi_driver rank size run caps l e)
| Run_send b H E d p t d' :
    mpi_run b H E d -> Parcel_wf p -> mpi_try_send p d = (Ok t, d') -> mpi_run b (accepted H (mkSubmission t p (len (parcel_layout p)))) E d'
| Run_refused b H E d p e d' :
    mpi_run b H E d -> Parcel_wf p -> mpi_try_send p d = (Err (Raise e), d') -> mpi_run b H E d'
| Run_progress b H E d max x d' new :
    mpi_run b H E d -> progress max d = (x, d') -> out d' = out d ++ new -> mpi_run (unfailed d') H (E ++ arrivals new) d'
| Run_events b H E d x : mpi_run b H E d -> mpi_run b H E (set_out x d)
| Run_others b H E d e :
    mpi_run b H E d -> comm_size e = comm_size (communicator (link d)) -> chunks_sent e = chunks_sent (communicator (link d)) ->
    chunks_got e = chunks_got (communicator (link d)) -> mpi_run b H E (set_communicator e d).

Lemma mpi_driver_inv rank size run caps l e :
  limits_chunked l -> (rank < size)%nat -> comm_size e = size -> (forall i, chunks_sent e i = [] /\ chunks_got e i = []) ->
  run_inv true (fun _ => []) [] (mpi_driver rank size run caps l e).
Proof.
  intros Hl Hlt Hsize Hio. set (d := mpi_driver rank size run caps l e). split; [|done].
  assert (Hn : length (members d) = size) by (cbn; by rewrite length_fmap, length_seq).
  assert (Hqueue : forall i, queue_at i d = []).
  { intros i. unfold queue_at. cbn [d mpi_driver queues]. destruct (replicate (size * 3) [] !! i) eqn:E'; [|done].
    by apply lookup_replicate in E' as [-> _]. }
  assert (Hout : forall p c, (p < size)%nat -> outbound (link d) !! slot p c = Some None)
    by (intros p c Hp; cbn; apply lookup_replicate; split; [done|by apply slot_lt]).
  split; [split|..]; rewrite ?Hn; try done.
  - split; rewrite ?Hn; try done.
    + apply Hl.
    + cbn [d mpi_driver d_local members]. unfold len. rewrite length_fmap, length_seq. lia.
    + cbn [d mpi_driver queues]. by rewrite length_replicate.
    + intros i q Hi. assert (q = []) as -> by (specialize (Hqueue i); unfold queue_at in Hqueue; by rewrite Hi in Hqueue). done.
    + destruct Hl as ((Hfit & _) & _). eapply books_ext; [by apply books_new|]. intros p c Hp. unfold in_hand, mpi_held. by rewrite Hqueue, Hout.
  - cbn. by rewrite length_replicate.
  - cbn. by rewrite length_replicate.
  - intros p c Hp. rewrite Hn in Hp. rewrite Hqueue, Hout by done. case_decide; [done|]. exists None. split; [done|]. split; [done|]. exists [].
    split; [done|]. cbn. by destruct (Hio (slot p c)) as [-> _].
  - exists []. split_and!; [done|constructor|]. intros p c Hp. rewrite Hn in Hp. exists None. cbn. destruct (Hio (slot p c)) as [_ ->]. split; [|done].
    apply lookup_replicate. split; [done|by apply slot_lt].
Qed.

Lemma mpi_run_invariant b H E d : mpi_run b H E d -> run_inv b H E d.
Proof.
  induction 1 as [rank size run caps l e Hl Hlt Hs Hio|b H E d p t d' _ IH Hwf Hs|b H E d p e d' _ IH Hwf Hs
    |b H E d max x d' new _ IH Hp Ho|b H E d x _ IH|b H E d e _ IH Hsize Hsent Hgot].
  - by apply mpi_driver_inv.
  - pose proof (mpi_try_send_run b H E p d IH Hwf) as Hr. unfold wp in Hr. rewrite Hs in Hr. apply Hr.
  - pose proof (mpi_try_send_run b H E p d IH Hwf) as Hr. unfold wp in Hr. rewrite Hs in Hr. apply Hr.
  - pose proof (progress_wp b H E max d IH) as Hr. unfold wp in Hr. rewrite Hp in Hr.
    assert (Hadv : advances H E d d') by (by destruct x as [|[]]). destruct Hadv as (new' & Ho' & Hi). rewrite Ho in Ho'. by apply app_inv_head in Ho' as ->.
  - pose proof (run_shape _ _ _ _ IH) as Hsh. destruct b; cbn [run_inv] in *.
    + destruct IH as [IH Hnf]. split; [|done]. apply (mpi_inv_same H E d); try done; [apply accounts_out|]; apply Hsh.
    + destruct IH as [IH Hf]. split; [|done]. apply (mpi_broken_same H E d); try done. apply (shape_accounts d); try done. apply accounts_out, Hsh.
  - pose proof (run_shape _ _ _ _ IH) as Hsh.
    assert (Hsh' : shape (set_communicator e d)) by (apply (shape_same d); try done; [apply accounts_link; [apply Hsh|done]|apply Hsh]).
    destruct b; cbn [run_inv] in *.
    + destruct IH as [[_ Hs Hg] Hnf]. split; [|done]. split; [done|apply (sends_same H d)|apply (gets_same E d)]; try done; intros i; cbn; congruence.
    + destruct IH as [IH Hf]. split; [|done]. apply (mpi_broken_same H E d); try done; intros i; cbn; by rewrite ?Hsent, ?Hgot.
Qed.

(** ** What holds of every run *)

Lemma queued_count d p c (o : option Outbound) :
  Accounts d -> (p < length (members d))%nat -> outbound (link d) !! slot p c = Some o ->
  counts (shared d) !! slot p c = Some (len (queue_at (slot p c) d) + (if o then 1 else 0)) /\
  len (queue_at (slot p c) d) + (if o then 1 else 0) <= max_queued_parcels_per_peer (d_limits d).
Proof.
  intros Ha Hp Ho. pose proof (books_count _ _ _ _ p c (ac_books _ _ Ha) Hp) as Hc. pose proof (books_bound _ _ _ _ p c (ac_books _ _ Ha) Hp) as Hb.
  rewrite (in_hand_slot d p c o Ho), len_app in Hc, Hb. unfold len in Hc, Hb. rewrite length_fmap in Hc, Hb. by destruct o.
Qed.
(** Nothing is in a channel, and every transfer is complete. *)
Lemma empty_sent H E d p c :
  mpi_inv H E d -> outbound_empty d = true -> (p < length (members d))%nat -> Z.of_nat p <> d_local d ->
  chunks_sent (communicator (link d)) (slot p c) = H (slot p c) ≫= sub_chunks.
Proof.
  intros [Hsh Hs _] [_ Hz]%andb_true_iff Hp Hne. zbool. destruct (sends_at H d p c Hs Hp Hne) as (o & Ho & _ & done & Hsend).
  pose proof (books_empty _ _ _ _ p c (ac_books _ _ (sh_accounts _ Hsh)) Hz Hp) as Hhand. rewrite (in_hand_slot d p c o Ho) in Hhand.
  apply app_eq_nil in Hhand as [Hq Hh]. apply fmap_nil_inv in Hq. destruct o as [o|]; [done|]. destruct Hsend as [-> ->]. by rewrite Hq, app_nil_r.
Qed.


(** Chunks that are a prefix of those of [h] are of a prefix of [h]. *)
Lemma chunks_prefix (done : list (SendTicket * Parcel)) h rest l s partial :
  Forall (fun x => encodable x.2) done -> Forall (fun x => encodable (sub_parcel x)) h -> max_frame_bytes l <= u64_max -> holding l s partial ->
  h ≫= sub_chunks = (done ≫= fun x => chunks x.1 (parcel_layout x.2)) ++ partial ++ rest ->
  done.*2 `prefix_of` (sub_parcel <$> h) /\ (rest = [] -> done.*2 = sub_parcel <$> h).
Proof.
  intros Hd Hh Hl Hs. revert h Hh. induction Hd as [|[t q] done Hq Hd IH]; intros h Hh Heq; cbn [mbind list_bind app fmap list_fmap] in *.
  - split; [apply prefix_nil|]. intros ->. rewrite app_nil_r in Heq. destruct h as [|x h]; [done|]. exfalso.
    apply Forall_cons in Hh as [Hx _]. cbn [mbind list_bind] in Heq. by apply (chunks_not_partial l s (sub_ticket x) (sub_parcel x) partial (h ≫= sub_chunks) Hx Hl Hs).
  - rewrite <-app_assoc in Heq. destruct h as [|x h].
    + cbn [mbind list_bind] in Heq. symmetry in Heq. apply app_eq_nil in Heq as [Heq _]. exfalso.
      destruct (pieces_spec _ (layout_nonempty q)) as (H1 & _). apply (f_equal length) in Heq. unfold chunks in Heq. rewrite length_first_chunks in Heq. cbn [length snd] in Heq. lia.
    + apply Forall_cons in Hh as [Hx Hh]. cbn [mbind list_bind] in Heq. unfold sub_chunks in Heq at 1. apply chunks_inj in Heq as [E' Heq]; [|done..].
      cbn [snd] in E'. destruct (IH h Hh Heq) as [Hpre Hall]. cbn [fmap list_fmap]. rewrite E'. split; [by apply prefix_cons|]. intros Hr. by rewrite Hall.
Qed.

End Runs.

(** ** Examples

    A communicator with the messages that will come. *)
Record ExComm : Type := mkExComm {
  ex_size : nat; ex_inbox : list (Channel * nat * list byte); ex_sent : nat -> list (list byte); ex_got : nat -> list (list byte);
}.
Definition at_slot (i : nat) (b : list byte) (f : nat -> list (list byte)) : nat -> list (list byte) := fun j => if decide (j = i) then f j ++ [b] else f j.
#[export] Instance ex_communicator : Communicator ExComm := {|
  mpi_main_thread _ := true;
  mpi_receive c e :=
    match ex_inbox e with
    | (c', rank, b) :: rest =>
        if decide (c' = c /\ (rank < ex_size e)%nat) then
          (Some (Z.of_nat rank, b), mkExComm (ex_size e) rest (ex_sent e) (at_slot (slot rank c) b (ex_got e)))
        else (None, e)
    | [] => (None, e)
    end;
  mpi_rounds e := length (ex_inbox e);
  mpi_send p c b e := mkExComm (ex_size e) (ex_inbox e) (at_slot (slot p c) b (ex_sent e)) (ex_got e);
  mpi_barrier e := e;
  mpi_now e := (0, e);
  mpi_others e := e;
  mpi_parcels _ := [];
  mpi_instant_max := u64_max;
|}.
#[export] Instance ex_communicator_laws : CommunicatorLaws ExComm.
Proof.
  refine {| comm_size := ex_size; chunks_sent := ex_sent; chunks_got := ex_got |}; try done.
  - intros c e rank b e'. unfold mpi_receive, ex_communicator. destruct (ex_inbox e) as [|[[c' r] b'] rest] eqn:Ei; [done|].
    case_decide as Hd; [|done]. destruct Hd as [-> Hr]. intros [= <- <- <-]. rewrite Nat2Z.id. split_and!; try done; [lia|lia|].
    unfold mpi_rounds. rewrite Ei. cbn. lia.
  - intros c e e'. unfold mpi_receive, ex_communicator. destruct (ex_inbox e) as [|[[c' r] b'] rest]; [by intros [= <-]|].
    case_decide; [done|by intros [= <-]].
Defined.

Definition ex_comm (inbox : list (Channel * nat * list byte)) : ExComm := mkExComm 2 inbox (fun _ => []) (fun _ => []).
(** A parcel of two chunks. *)
Definition ex_large : Parcel := ex_parcel 5 5000.
Definition ex_accepted : Driver (MpiLink ExComm) := (mpi_try_send ex_large (mpi_driver 0 2 1 0 ex_mpi_limits (ex_comm []))).2.
Definition ex_first : Driver (MpiLink ExComm) := (progress 8 ex_accepted).2.
Definition ex_second : Driver (MpiLink ExComm) := (progress 8 ex_first).2.
Definition ex_arriving : list (Channel * nat * list byte) := (fun b => (Channel_Bulk, 0%nat, b)) <$> chunks 1 (parcel_layout ex_large).
Definition ex_receiver : Driver (MpiLink ExComm) := (progress 8 (mpi_driver 1 2 1 0 ex_mpi_limits (ex_comm ex_arriving))).2.

Lemma ex_mpi_chunked : limits_chunked ex_mpi_limits.
Proof. split; [apply ex_mpi_small|]. vm_compute. congruence. Qed.
Lemma ex_large_wf : Parcel_wf ex_large.
Proof. unfold Parcel_wf, id128_wf, in_u. vm_compute. repeat split; congruence. Qed.
Lemma ex_progress_run H E max (d : Driver (MpiLink ExComm)) new :
  mpi_run true H E d -> unfailed (progress max d).2 = true -> out (progress max d).2 = out d ++ new ->
  mpi_run true H (E ++ arrivals new) (progress max d).2.
Proof. intros Hrun Hu Ho. rewrite <-Hu. destruct (progress max d) as [x d'] eqn:Ep. by apply (Run_progress true H E d max x d' new). Qed.

Definition ex_submission : Submission := mkSubmission 1 ex_large (len (parcel_layout ex_large)).
Lemma ex_accepted_run : mpi_run true (accepted (fun _ => []) ex_submission) [] ex_accepted.
Proof.
  assert (Hok : (mpi_try_send ex_large (mpi_driver 0 2 1 0 ex_mpi_limits (ex_comm []))).1 = Ok 1) by (vm_compute; reflexivity).
  eapply Run_send; [|apply ex_large_wf|].
  - apply (Run_new 0 2 1 0 ex_mpi_limits (ex_comm [])); [apply ex_mpi_chunked|lia|done|by split].
  - unfold ex_accepted. destruct (mpi_try_send ex_large _) as [r d]. cbn [fst] in Hok. by rewrite Hok.
Qed.
Lemma ex_second_run : mpi_run true (accepted (fun _ => []) ex_submission) [] ex_second.
Proof.
  assert (H1 : mpi_run true (accepted (fun _ => []) ex_submission) ([] ++ arrivals []) ex_first)
    by (apply ex_progress_run; [apply ex_accepted_run|vm_compute; reflexivity|vm_compute; reflexivity]).
  apply (ex_progress_run _ _ 8 _ [LocalSendComplete 1] H1); vm_compute; reflexivity.
Qed.
Lemma ex_receiver_run : mpi_run true (fun _ => []) [ex_large] ex_receiver.
Proof.
  apply (ex_progress_run _ [] 8 _ [Incoming ex_large]); [|vm_compute; reflexivity|vm_compute; reflexivity].
  apply (Run_new 1 2 1 0 ex_mpi_limits (ex_comm ex_arriving)); [apply ex_mpi_chunked|lia|done|by split].
Qed.


