(* ===== verification/MpiConnect.v ===== *)
(** * MpiConnect: how the ranks of an MPI world meet

    Models [connect] of [crates/hataori-runtime-foundation/src/mpi.rs].  The two
    collective calls are parameters: a collective call returns on a rank when
    every rank makes it, and never ([None]) when one does not. *)
From Stdlib Require Import Strings.Byte.
From S2P Require Import Prelude Protocol Transport Link LinkRuns MpiTransport MpiRuns MpiStreams.

Class Collective (Env : Type) := mkCollective {
  mpi_duplicate : Env -> option Env;
  mpi_size : Env -> Z;
  mpi_rank : Env -> Z;
  mpi_all_gather : list byte -> Env -> option (list byte * Env);
}.

(** [<[u8]>::chunks_exact]; a rest shorter than [k] is left out. *)
Fixpoint chunks_exact (fuel k : nat) (bytes : list byte) : list (list byte) :=
  match fuel with
  | O => []
  | S fuel => if (k <=? length bytes)%nat then take k bytes :: chunks_exact fuel k (drop k bytes) else []
  end.

(** The loop over what was gathered. *)
Fixpoint negotiate_all (hello : Hello) (gathered : list (list byte)) (limits' : ProtocolLimits) (capabilities' : Z) :
    result TransportError (ProtocolLimits * Z) :=
  match gathered with
  | [] => Ok (limits', capabilities')
  | bytes :: gathered =>
      peer ← map_err TransportError_Protocol (decode_hello bytes);
      negotiated ← map_err TransportError_Protocol (Hello_validate_peer
        (mkHello (hello_run_id hello) (runtime_version hello) (action_registry_hash hello) (object_registry_hash hello)
           (capabilities hello) limits') peer);
      negotiate_all hello gathered (negotiated_limits negotiated) (Z.land capabilities' (negotiated_capabilities negotiated))
  end.

Section Connect.
Context {Env : Type} `{!Communicator Env} `{!Collective Env}.
Abbreviation MpiDriver := (Driver (MpiLink Env)).

(** What comes before the first collective call. *)
Definition prepare (world : Env) (hello : Hello) : result TransportError ProtocolLimits :=
  (if mpi_main_thread world then Ok tt else Err TransportError_WrongThread);;
  map_err TransportError_Protocol (ProtocolLimits_validate (Protocol.limits hello)).

(** The rank and the size of the world. *)
Definition membership (communicator : Env) : result TransportError (nat * nat) :=
  (if mpi_size communicator <? 0 then Err (TransportError_Peer "invalid MPI world size") else Ok tt);;
  (if mpi_rank communicator <? 0 then Err (TransportError_Peer "invalid MPI rank") else Ok tt);;
  (if (mpi_size communicator =? 0) || (mpi_size communicator <=? mpi_rank communicator)
   then Err (TransportError_Peer "invalid MPI membership") else Ok tt);;
  Ok (Z.to_nat (mpi_rank communicator), Z.to_nat (mpi_size communicator)).

(** [Ok None]: a collective call does not return. *)
Definition connect (world : Env) (hello : Hello) : result TransportError (option MpiDriver) :=
  local_limits ← prepare world hello;
  match mpi_duplicate world with
  | None => Ok None
  | Some communicator =>
      '(rank, size) ← membership communicator;
      encoded ← map_err TransportError_Protocol (encode_hello hello);
      match mpi_all_gather encoded communicator with
      | None => Ok None
      | Some (gathered, communicator) =>
          '(limits, capabilities) ← negotiate_all hello (chunks_exact (length gathered) (length encoded) gathered)
                                      local_limits (capabilities hello);
          Ok (Some (mpi_driver rank size (hello_run_id hello) capabilities limits communicator))
      end
  end.
End Connect.

(** ** Semilattices

    The limits and the capabilities of a world are folds of an operation that
    does not mind the order nor that a rank meets itself. *)
Section Semilattice.
Context {A : Type} (op : A -> A -> A) `{!Assoc (=) op, !Comm (=) op, !IdemP (=) op}.

Lemma foldl_op a b l : foldl op (op a b) l = op a (foldl op b l).
Proof. revert b. induction l as [|x l IH]; intros b; [done|]. cbn [foldl]. by rewrite <-(assoc op), IH. Qed.
Lemma foldl_absorb a b l : a ∈ l -> op a (foldl op b l) = foldl op b l.
Proof.
  revert b. induction l as [|x l IH]; intros b Ha; [by apply not_elem_of_nil in Ha|]. cbn [foldl].
  apply elem_of_cons in Ha as [->|Ha]; [|by apply IH].
  rewrite (comm op b x), foldl_op, (assoc op). by rewrite (idemp op).
Qed.
(** Where the fold starts does not matter, as long as it is an element. *)
Lemma foldl_start a b l : a ∈ l -> b ∈ l -> foldl op a l = foldl op b l.
Proof.
  intros Ha Hb. rewrite <-(foldl_absorb b a l Hb), <-(foldl_op b a), (comm op b a), foldl_op. by apply foldl_absorb.
Qed.
Lemma foldl_own a b l : op b a = b -> foldl (fun x y => op x (op a y)) b l = foldl op b l.
Proof.
  revert b. induction l as [|x l IH]; intros b Hb; [done|]. cbn [foldl].
  rewrite (assoc op), Hb. apply IH. by rewrite <-(assoc op), (comm op x a), (assoc op), Hb.
Qed.
End Semilattice.

#[export] Instance limits_min_assoc : Assoc (=) limits_min.
Proof. intros a b c. unfold limits_min. cbn. by rewrite !Z.min_assoc. Qed.
#[export] Instance limits_min_comm : Comm (=) limits_min.
Proof. intros a b. unfold limits_min. f_equal; apply Z.min_comm. Qed.
#[export] Instance limits_min_idemp : IdemP (=) limits_min.
Proof. intros []. unfold limits_min. cbn. by rewrite !Z.min_id. Qed.
#[export] Instance land_assoc : Assoc (=) Z.land.
Proof. intros a b c. apply Z.land_assoc. Qed.
#[export] Instance land_comm : Comm (=) Z.land.
Proof. intros a b. apply Z.land_comm. Qed.
#[export] Instance land_idemp : IdemP (=) Z.land.
Proof. intros a. apply Z.land_diag. Qed.

(** ** The loop *)

Lemma chunks_exact_concat fuel k ls :
  (0 < k)%nat -> Forall (fun l => length l = k) ls -> (length ls <= fuel)%nat -> chunks_exact fuel k (concat ls) = ls.
Proof.
  intros Hk Hls. revert fuel. induction Hls as [|l ls Hl _ IH]; intros fuel Hf.
  - destruct fuel; [done|]. cbn. by case_match eqn:E; [apply Nat.leb_le in E; lia|].
  - destruct fuel as [|fuel]; [cbn in Hf; lia|]. cbn [concat chunks_exact]. rewrite length_app, <-Hl.
    rewrite (proj2 (Nat.leb_le _ _)) by lia. rewrite take_app_length, drop_app_length, Hl, IH; [done|]. cbn in Hf. lia.
Qed.
Lemma concat_length_ge k (ls : list (list byte)) : (0 < k)%nat -> Forall (fun l => length l = k) ls -> (length ls <= length (concat ls))%nat.
Proof. intros Hk. induction 1 as [|l ls Hl _ IH]; [done|]. cbn. rewrite length_app. lia. Qed.

Definition encodes (h : Hello) : Prop := Hello_wf h /\ encode_hello h = Ok (hello_layout h).
Lemma encodes_intro h bs : Hello_wf h -> encode_hello h = Ok bs -> bs = hello_layout h /\ encodes h.
Proof. intros Hwf He. pose proof He as (_ & _ & _ & ->)%encode_hello_ok; [|done]. by split. Qed.
Lemma encodes_limits h : encodes h -> limits_ok (Protocol.limits h).
Proof. intros [Hwf (Hl & _)%encode_hello_ok]; done. Qed.
Lemma encodes_decode h : encodes h -> decode_hello (hello_layout h) = Ok h.
Proof. intros [Hwf (Hl & Hs & Hq & _)%encode_hello_ok]; [|done]. by apply decode_hello_layout. Qed.

Lemma validate_peer_iff a b n :
  Hello_validate_peer a b = Ok n <-> hello_agree a b /\ limits_ok (Protocol.limits a) /\ limits_ok (Protocol.limits b) /\
    n = mkNegotiatedHello (Z.land (capabilities a) (capabilities b)) (limits_min (Protocol.limits a) (Protocol.limits b)).
Proof. apply Hello_validate_peer_sym_complete. Qed.

Lemma negotiate_all_iff hello hs l c r :
  Forall encodes hs -> limits_ok l ->
  negotiate_all hello (hello_layout <$> hs) l c = Ok r <->
  Forall (hello_agree hello) hs /\
  r = (foldl limits_min l (Protocol.limits <$> hs), foldl (fun x y => Z.land x (Z.land (capabilities hello) y)) c (capabilities <$> hs)).
Proof.
  intros Hhs. revert l c. induction Hhs as [|h hs Hh _ IH]; intros l c Hl; [cbn; naive_solver|].
  cbn [fmap list_fmap negotiate_all foldl]. rewrite (encodes_decode h Hh). cbn [map_err mbind result_bind].
  rewrite Forall_cons. split.
  - destruct (Hello_validate_peer _ h) as [n|] eqn:En; [|done]. cbn [map_err mbind result_bind].
    apply validate_peer_iff in En as (Ha & _ & Hlh & ->). cbn [negotiated_limits negotiated_capabilities].
    intros (Hall & ->)%IH; [done|by apply limits_min_ok].
  - intros [[Ha Hall] ->]. match goal with |- context [Hello_validate_peer ?a h] =>
      rewrite (proj2 (validate_peer_iff a h (mkNegotiatedHello (Z.land (capabilities a) (capabilities h)) (limits_min (Protocol.limits a) (Protocol.limits h))))) end;
      [|split_and!; [exact Ha|exact Hl|by apply encodes_limits|reflexivity]].
    cbn [map_err mbind result_bind]. apply IH; [apply limits_min_ok; [done|by apply encodes_limits]|]. by split.
Qed.

(** ** A world of ranks *)

Section World.
Context {Env : Type} `{!Communicator Env} `{!CommunicatorLaws Env} `{!Collective Env}.
Context (n : nat) (world : nat -> Env) (hello : nat -> Hello).

Definition prepared (r : nat) : Prop := is_ok (prepare (world r) (hello r)) = true.
Definition ready (r : nat) : Prop := prepared r /\ is_ok (encode_hello (hello r)) = true.
#[export] Instance ready_dec r : Decision (ready r).
Proof. unfold ready, prepared. apply _. Defined.

(** What MPI promises of the two collective calls of [n] ranks. *)
Record meets : Prop := mkMeets {
  meet_duplicate : (forall p, (p < n)%nat -> prepared p) -> forall r, (r < n)%nat ->
    exists e, mpi_duplicate (world r) = Some e /\ mpi_size e = Z.of_nat n /\ mpi_rank e = Z.of_nat r;
  meet_no_duplicate : forall p r, (p < n)%nat -> (r < n)%nat -> prepared r -> ~ prepared p -> mpi_duplicate (world r) = None;
  meet_gather : forall enc, (forall p, (p < n)%nat -> prepared p /\ encode_hello (hello p) = Ok (enc p)) ->
    forall r e, (r < n)%nat -> mpi_duplicate (world r) = Some e ->
    exists e', mpi_all_gather (enc r) e = Some (concat (enc <$> seq 0 n), e') /\
      comm_size e' = n /\ forall i, chunks_sent e' i = [] /\ chunks_got e' i = [];
  meet_no_gather : forall p r e enc, (p < n)%nat -> (r < n)%nat -> mpi_duplicate (world r) = Some e ->
    encode_hello (hello r) = Ok enc -> ~ ready p -> mpi_all_gather enc e = None;
}.

(** What the world agrees on. *)
Definition common_limits : ProtocolLimits := foldl limits_min (Protocol.limits (hello 0)) (Protocol.limits <$> (hello <$> seq 0 n)).
Definition common_capabilities : Z := foldl Z.land (capabilities (hello 0)) (capabilities <$> (hello <$> seq 0 n)).
Definition all_agree : Prop := forall p q, (p < n)%nat -> (q < n)%nat -> hello_agree (hello p) (hello q).

Lemma prepare_limits r : prepared r -> prepare (world r) (hello r) = Ok (Protocol.limits (hello r)) /\ limits_ok (Protocol.limits (hello r)).
Proof.
  unfold prepared, prepare. destruct (mpi_main_thread (world r)); [|done]. cbn [mbind result_bind].
  destruct (ProtocolLimits_validate (Protocol.limits (hello r))) as [l|] eqn:El; [|done]. intros _.
  apply limits_validate_inv in El as [-> Hl]. done.
Qed.
Lemma membership_ok (e : Env) r :
  mpi_size e = Z.of_nat n -> mpi_rank e = Z.of_nat r -> (r < n)%nat -> membership e = Ok (r, n).
Proof.
  intros Hs Hr Hlt. unfold membership. rewrite Hs, Hr. zdec. by rewrite !Nat2Z.id.
Qed.

(** A rank waits for ever for one that is not ready. *)
Lemma connect_waits (M : meets) p r :
  (p < n)%nat -> (r < n)%nat -> ready r -> ~ ready p -> connect (world r) (hello r) = Ok None.
Proof.
  intros Hp Hr [Hpr Her] Hnot. unfold connect. destruct (prepare_limits r Hpr) as [-> _]. cbn [mbind result_bind].
  destruct (mpi_duplicate (world r)) as [e|] eqn:Ed; [|done].
  assert (Hall : forall q, (q < n)%nat -> prepared q).
  { intros q Hq. destruct (decide (prepared q)) as [|Hn]; [done|]. by rewrite (meet_no_duplicate M q r) in Ed. }
  destruct (meet_duplicate M Hall r Hr) as (e0 & E0 & Hs & Hk). rewrite Ed in E0. injection E0 as <-.
  rewrite (membership_ok e r) by done. cbn [mbind result_bind].
  destruct (encode_hello (hello r)) as [enc|] eqn:Ee; [|done]. cbn [map_err mbind result_bind].
  by rewrite (meet_no_gather M p r e enc).
Qed.

Lemma elem_hello {A} (f : Hello -> A) r : (r < n)%nat -> f (hello r) ∈ f <$> (hello <$> seq 0 n).
Proof. intros Hr. apply list_elem_of_fmap_2, list_elem_of_fmap_2, elem_of_seq. lia. Qed.

(** When all are ready a rank is connected exactly when all agree with it. *)
Lemma connect_ready (M : meets) r :
  (forall p, (p < n)%nat -> Hello_wf (hello p)) -> (forall p, (p < n)%nat -> ready p) -> (r < n)%nat ->
  exists e, comm_size e = n /\ (forall i, chunks_sent e i = [] /\ chunks_got e i = []) /\
  forall x, connect (world r) (hello r) = Ok x <->
    (forall p, (p < n)%nat -> hello_agree (hello r) (hello p)) /\
    x = Some (mpi_driver r n (hello_run_id (hello r)) common_capabilities common_limits e).
Proof.
  intros Hwf Hready Hr. set (enc p := hello_layout (hello p)).
  assert (Henc : forall p, (p < n)%nat -> encode_hello (hello p) = Ok (enc p)).
  { intros p Hp. destruct (Hready p Hp) as [_ Ho]. destruct (encode_hello (hello p)) eqn:Ee; [|done].
    by destruct (encodes_intro (hello p) _ (Hwf p Hp) Ee) as [-> _]. }
  destruct (meet_duplicate M (fun p Hp => proj1 (Hready p Hp)) r Hr) as (e & He & Hs & Hk).
  destruct (meet_gather M enc (fun p Hp => conj (proj1 (Hready p Hp)) (Henc p Hp)) r e Hr He) as (e' & Hg & Hsize & Hfresh).
  exists e'. split_and!; [done..|]. intros x. unfold connect. destruct (prepare_limits r (proj1 (Hready r Hr))) as [-> Hl].
  cbn [mbind result_bind]. rewrite He, (membership_ok e r) by done. cbn [mbind result_bind].
  rewrite (Henc r Hr). cbn [map_err mbind result_bind]. rewrite Hg.
  assert (Hlen : forall p, (p < n)%nat -> length (enc p) = Z.to_nat HELLO_BYTES).
  { intros p Hp. pose proof (len_hello_layout (hello p) (Hwf p Hp)) as Hh. unfold len in Hh. unfold enc. lia. }
  assert (Hls : Forall (fun l => length l = Z.to_nat HELLO_BYTES) (enc <$> seq 0 n)).
  { apply Forall_fmap, Forall_forall. intros p Hp%elem_of_seq. apply Hlen. lia. }
  rewrite chunks_exact_concat; [|rewrite Hlen by done; unfold HELLO_BYTES; lia|by rewrite Hlen|
    apply (concat_length_ge (Z.to_nat HELLO_BYTES)); [unfold HELLO_BYTES; lia|done]].
  replace (enc <$> seq 0 n) with (hello_layout <$> (hello <$> seq 0 n)) by (by rewrite <-list_fmap_compose).
  assert (Hagree : Forall (hello_agree (hello r)) (hello <$> seq 0 n) <-> forall p, (p < n)%nat -> hello_agree (hello r) (hello p)).
  { rewrite Forall_fmap, Forall_forall. split; intros H p Hp; apply H; [apply elem_of_seq; lia|apply elem_of_seq in Hp; lia]. }
  assert (Hfold : (foldl limits_min (Protocol.limits (hello r)) (Protocol.limits <$> (hello <$> seq 0 n)),
    foldl (fun x y => Z.land x (Z.land (capabilities (hello r)) y)) (capabilities (hello r)) (capabilities <$> (hello <$> seq 0 n)))
    = (common_limits, common_capabilities)).
  { f_equal; [|rewrite (foldl_own Z.land) by apply Z.land_diag]; apply foldl_start; try apply _;
      (apply (elem_hello Protocol.limits) || apply (elem_hello capabilities)); lia. }
  assert (Hall : Forall encodes (hello <$> seq 0 n)).
  { apply Forall_fmap, Forall_forall. intros p [_ Hp]%elem_of_seq. split; [by apply Hwf|by apply Henc]. }
  destruct (negotiate_all (hello r) _ (Protocol.limits (hello r)) (capabilities (hello r))) as [[l c]|err] eqn:En; cbn [mbind result_bind].
  - apply negotiate_all_iff in En as [Ha [= -> ->]]; [|done..]. rewrite <-Hagree.
    apply pair_equal_spec in Hfold as [-> ->]. split; [by intros [= <-]|by intros [_ ->]].
  - split; [done|]. intros [Ha%Hagree _].
    rewrite (proj2 (negotiate_all_iff (hello r) (hello <$> seq 0 n) (Protocol.limits (hello r)) (capabilities (hello r)) _ Hall Hl) (conj Ha eq_refl)) in En. done.
Qed.

Lemma common_limits_ok : (0 < n)%nat -> (forall p, (p < n)%nat -> limits_ok (Protocol.limits (hello p))) -> limits_ok common_limits.
Proof.
  intros Hn Hl. unfold common_limits.
  assert (Hall : Forall limits_ok (Protocol.limits <$> (hello <$> seq 0 n))).
  { rewrite !Forall_fmap. apply Forall_forall. intros p Hp%elem_of_seq. apply Hl. lia. }
  pose proof (Hl 0%nat Hn) as H0. revert H0. generalize (Protocol.limits (hello 0)).
  induction Hall as [|l ls Hx _ IH]; intros l0 H0; [done|]. cbn [foldl]. by apply IH, limits_min_ok.
Qed.

(** C34: the ranks of an MPI world that connect agree.  If every rank can start,
    either the hellos of all agree and every rank is connected: with the same
    run, members, capabilities (those all have) and limits (the smallest of
    each, which are valid), as a driver from which every run of the transport
    begins; or every rank that disagrees with another is given an error, and
    none is connected.  A rank that could start while another could not waits
    for ever in a collective call. *)
Theorem mpi_connect_agrees :
  meets -> (0 < n)%nat -> (forall p, (p < n)%nat -> Hello_wf (hello p)) ->
  (forall p r, (p < n)%nat -> (r < n)%nat -> ready r -> ~ ready p -> connect (world r) (hello r) = Ok None) /\
  ((forall p, (p < n)%nat -> ready p) ->
    (all_agree -> limits_ok common_limits /\
       forall r, (r < n)%nat -> exists e, let d := mpi_driver r n (hello_run_id (hello 0)) common_capabilities common_limits e in
         connect (world r) (hello r) = Ok (Some d) /\ (limits_chunked common_limits -> mpi_run true (fun _ => []) [] d)) /\
    (~ all_agree -> forall r, (r < n)%nat -> exists err, connect (world r) (hello r) = Err err)).
Proof.
  intros M Hn Hwf. split; [intros p r; by apply connect_waits|]. intros Hready. split.
  - intros Ha. split; [apply common_limits_ok; [done|]; intros p Hp; by apply prepare_limits, Hready|].
    intros r Hr. destruct (connect_ready M r Hwf Hready Hr) as (e & Hsize & Hfresh & Hc). exists e. cbn zeta.
    assert (hello_run_id (hello 0) = hello_run_id (hello r)) as -> by (apply Ha; lia). split.
    + apply Hc. split; [|done]. intros p Hp. by apply Ha.
    + intros Hl. by apply Run_new.
  - intros Hnot r Hr. destruct (connect_ready M r Hwf Hready Hr) as (e & _ & _ & Hc).
    destruct (connect (world r) (hello r)) as [x|err]; [|by exists err]. destruct Hnot.
    destruct (proj1 (Hc x) eq_refl) as [Ha _]. intros p q Hp Hq.
    destruct (Ha p Hp) as (? & ? & ? & ?), (Ha q Hq) as (? & ? & ? & ?). unfold hello_agree. split_and!; congruence.
Qed.
End World.

(** ** Example: a world of two ranks

    A rank with what it will gather. *)
Record ExRank : Type := mkExRank { ex_rank : nat; ex_gathered : option (list byte); ex_own : ExComm }.
Definition ex_set_own (e : ExRank) (c : ExComm) : ExRank := mkExRank (ex_rank e) (ex_gathered e) c.
#[export] Instance ex_rank_communicator : Communicator ExRank := {|
  mpi_main_thread _ := true;
  mpi_receive c e := let '(x, o) := mpi_receive c (ex_own e) in (x, ex_set_own e o);
  mpi_rounds e := mpi_rounds (ex_own e);
  mpi_send p c b e := ex_set_own e (mpi_send p c b (ex_own e));
  mpi_barrier e := e;
  mpi_now e := (0, e);
  mpi_others e := e;
  mpi_parcels _ := [];
  mpi_instant_max := u64_max;
|}.
#[export] Instance ex_rank_laws : CommunicatorLaws ExRank.
Proof.
  refine {| comm_size e := comm_size (ex_own e); chunks_sent e := chunks_sent (ex_own e); chunks_got e := chunks_got (ex_own e) |}.
  - intros c e rank b e'. unfold mpi_receive at 1, ex_rank_communicator. destruct (mpi_receive c (ex_own e)) as [x o] eqn:E.
    intros [= -> <-]. by apply (mpi_receive_some (Env := ExComm)) in E.
  - intros c e e'. unfold mpi_receive at 1, ex_rank_communicator. destruct (mpi_receive c (ex_own e)) as [x o] eqn:E.
    intros [= -> <-]. by apply (mpi_receive_none (Env := ExComm)) in E.
  - intros p c b e. apply (mpi_send_ok (Env := ExComm)).
Defined.
#[export] Instance ex_collective : Collective ExRank := {|
  mpi_duplicate e := Some e;
  mpi_size e := Z.of_nat (ex_size (ex_own e));
  mpi_rank e := Z.of_nat (ex_rank e);
  mpi_all_gather _ e := (fun b => (b, e)) <$> ex_gathered e;
|}.

Definition ex_hello (caps frame : Z) : Hello :=
  mkHello 9 (mkRuntimeVersion 0 1 2) (repeat Byte.x0a 32) (repeat Byte.x0b 32) caps (mkProtocolLimits frame 4096 8 16 65536 1024).
Definition ex_hellos (r : nat) : Hello := match r with O => ex_hello 13 8192 | _ => ex_hello 7 100 end.
Definition ex_world (r : nat) : ExRank :=
  mkExRank r (Some (hello_layout (ex_hellos 0) ++ hello_layout (ex_hellos 1))) (ex_comm []).

Lemma ex_all_ready p : (p < 2)%nat -> ready ex_world ex_hellos p.
Proof. intros Hp. destruct p as [|[|]]; [split; vm_compute; reflexivity..|lia]. Qed.
Lemma ex_meets : meets 2 ex_world ex_hellos.
Proof.
  split.
  - intros _ r _. by exists (ex_world r).
  - intros p r Hp _ _ Hn. destruct Hn. by apply ex_all_ready.
  - intros enc Henc r e _ [= <-]. exists (ex_world r). split; [|by split].
    destruct (Henc 0%nat ltac:(lia)) as [_ H0], (Henc 1%nat ltac:(lia)) as [_ H1].
    assert (E0 : encode_hello (ex_hellos 0) = Ok (hello_layout (ex_hellos 0))) by (vm_compute; reflexivity).
    assert (E1 : encode_hello (ex_hellos 1) = Ok (hello_layout (ex_hellos 1))) by (vm_compute; reflexivity).
    rewrite E0 in H0. rewrite E1 in H1. injection H0 as H0. injection H1 as H1.
    unfold mpi_all_gather, ex_collective. cbn [ex_world ex_gathered fmap option_fmap option_map seq list_fmap concat].
    by rewrite <-H0, <-H1, app_nil_r.
  - intros p r e enc Hp _ _ _ Hn. destruct Hn. by apply ex_all_ready.
Qed.
Lemma ex_hellos_wf p : (p < 2)%nat -> Hello_wf (ex_hellos p).
Proof. intros Hp. destruct p as [|[|]]; [by apply (bool_decide_eq_true_1 _); vm_compute..|lia]. Qed.

Lemma mpi_connect_agrees_witness :
  common_limits 2 ex_hellos = mkProtocolLimits 100 4096 8 16 65536 1024 /\ common_capabilities 2 ex_hellos = 5 /\
  exists e, connect (ex_world 1) (ex_hellos 1) = Ok (Some (mpi_driver 1 2 9 5 (mkProtocolLimits 100 4096 8 16 65536 1024) e)).
Proof.
  destruct (mpi_connect_agrees 2 ex_world ex_hellos ex_meets ltac:(lia) ex_hellos_wf) as (_ & Hready).
  destruct (Hready ex_all_ready) as (Hagree & _).
  destruct (Hagree ltac:(intros p q Hp Hq; destruct p as [|[|]], q as [|[|]]; (by split_and!) || lia)) as (_ & Hall).
  destruct (Hall 1%nat ltac:(lia)) as (e & Hc & _).
  split; [vm_compute; reflexivity|]. split; [vm_compute; reflexivity|]. exists e. exact Hc.
Defined.

