(* ===== verification/Error.v ===== *)
(** * Error: the error types of the runtime crate

    Models [crates/hataori-runtime/src/error.rs].  Messages are UTF-8 texts;
    [Duration]s are nanoseconds. *)
From S2P Require Import Prelude Text Protocol Transport.

Inductive RuntimeState : Type :=
| Created | Bootstrapping | Running | Draining | Stopped | Failed.
#[export] Instance RuntimeState_eq_dec : EqDecision RuntimeState.
Proof. solve_decision. Defined.

Inductive ResourceKind : Type :=
| PendingCalls | ActionQueue | DedupEntries | DedupBytes | SendTickets | Objects
| ObjectMailbox | ResolverEntries | LocalityLeases | ObjectRoots | PlacementTickets
| LeaseTransfers | Migrations | PreparedMigrations | Forwarders | SnapshotBytes
| SnapshotSegments.

Inductive ActionError : Type :=
| ActionError_Codec (message : text)
| ActionError_User (message : text)
| ActionError_Panic.

(** [cap] returns on every [String] ([Text.truncate_message_cut]); the fallback
    is never taken. *)
Definition capped (message : text) : text := default [] (cap message).

Definition ActionError_codec (message : text) : ActionError := ActionError_Codec (capped message).
Definition ActionError_user (message : text) : ActionError := ActionError_User (capped message).

Definition ActionError_message (e : ActionError) : text :=
  match e with
  | ActionError_Codec message | ActionError_User message => message
  | ActionError_Panic => lit "action handler panicked"
  end.

(** [Display]: the derived [Debug] form.  [debug_str] is the standard library's
    [Debug] of a string, which quotes it and escapes by Unicode tables. *)
Definition ActionError_to_string (debug_str : text -> text) (e : ActionError) : text :=
  lit "action error: " ++
  match e with
  | ActionError_Codec m => lit "Codec(" ++ debug_str m ++ lit ")"
  | ActionError_User m => lit "User(" ++ debug_str m ++ lit ")"
  | ActionError_Panic => lit "Panic"
  end.

Inductive RuntimeError : Type :=
| RuntimeError_InvalidLimits (message : string)
| RuntimeError_BuilderSealed
| RuntimeError_HandshakeNotPrepared
| RuntimeError_InvalidState (expected actual : RuntimeState)
| RuntimeError_DuplicateAction (id : ActionId)
| RuntimeError_UnknownAction (id : ActionId)
| RuntimeError_UnknownDomain (id : DomainId)
| RuntimeError_DuplicateObjectType (id : Z)
| RuntimeError_UnknownObjectType (id : Z)
| RuntimeError_UnknownObject (id : ObjectId)
| RuntimeError_ObjectCollected (id : ObjectId)
| RuntimeError_StaleObjectLocation (id : ObjectId)
| RuntimeError_ObjectAction (message : text)
| RuntimeError_InvalidObjectTypeId
| RuntimeError_InvalidObjectConcurrency
| RuntimeError_PinnedObjectType (id : Z)
| RuntimeError_MigrationInProgress (id : ObjectId)
| RuntimeError_MigrationConflict (id : ObjectId)
| RuntimeError_Migration (request : RequestId) (message : text)
| RuntimeError_MigrationRolledBack (id : ObjectId)
| RuntimeError_MigrationCommittedFailure (object : ObjectId) (message : text)
| RuntimeError_SnapshotTooLarge (bytes limit : Z)
| RuntimeError_Moved (object : ObjectId) (location : ObjectLocation)
| RuntimeError_RedirectLimit (id : ObjectId)
| RuntimeError_InvalidActionId
| RuntimeError_InvalidSchema
| RuntimeError_InvalidDeadline
| RuntimeError_InvalidMembership (id : LocalityId)
| RuntimeError_ResourceExhausted (resource : ResourceKind) (limit : Z)
| RuntimeError_DeadlineExceeded (request : RequestId) (deadline : Z)
| RuntimeError_Cancelled (request : RequestId)
| RuntimeError_RemoteAction (request : RequestId) (message : text)
| RuntimeError_RemoteObject (request : RequestId) (message : text)
| RuntimeError_Placement (request : RequestId) (message : text)
| RuntimeError_Lease (request : RequestId) (message : text)
| RuntimeError_LeaseTransferExpired (id : ObjectId)
| RuntimeError_DuplicateResultUnavailable (request : RequestId)
| RuntimeError_Protocol (message : text)
| RuntimeError_Transport (e : TransportError)
| RuntimeError_PeerFailed (id : LocalityId)
| RuntimeError_Shutdown
| RuntimeError_ShutdownTimeout
| RuntimeError_RetainedResources.
