(* ===== verification/RuntimeTypes.v ===== *)
(** * RuntimeTypes: places, spawn options and limits of the runtime

    The plain data of [crates/hataori-runtime/src/runtime.rs].  Durations are
    nanoseconds. *)
From S2P Require Import Prelude Protocol Error.

Record Place : Type := Place_new { locality : LocalityId; domain : DomainId }.
#[export] Instance Place_eq_dec : EqDecision Place.
Proof. solve_decision. Defined.

Record SpawnOptions : Type := mkSpawnOptions { spawn_deadline : Z; trace_id : option TraceId }.

Record RuntimeLimits : Type := mkRuntimeLimits {
  max_pending_calls : Z;
  max_domains : Z;
  max_workers_per_domain : Z;
  max_action_queue_per_domain : Z;
  max_dedup_entries : Z;
  max_dedup_bytes : Z;
  max_progress_events : Z;
  default_deadline : Z;
  dedup_ttl : Z;
  shutdown_timeout : Z;
}.

Definition second : Z := 1000000000.

Definition RuntimeLimits_default : RuntimeLimits :=
  mkRuntimeLimits 1024 16 64 256 1024 (16 * 1024 * 1024) 256 (30 * second) (60 * second) (10 * second).

Definition RuntimeLimits_validate (l : RuntimeLimits) : result RuntimeError RuntimeLimits :=
  fail_if ((max_pending_calls l =? 0) || (max_domains l =? 0) || (max_workers_per_domain l =? 0)
      || (max_action_queue_per_domain l =? 0) || (max_dedup_entries l =? 0) || (max_dedup_bytes l =? 0)
      || (max_progress_events l =? 0) || (default_deadline l =? 0) || (dedup_ttl l =? 0)
      || (shutdown_timeout l =? 0))
    (RuntimeError_InvalidLimits "runtime limits and durations must be nonzero");;
  Ok l.
