(* ===== verification/RuntimeWire.v ===== *)
(** * RuntimeWire: the messages of the runtime inside parcels

    Models [crates/hataori-runtime/src/wire.rs]: a message is a 52-byte header
    segment followed by its payload segments, and its kind fixes the channel,
    the parcel kind, the identities and the shape of its payload. *)
From Stdlib Require Import Strings.Byte.
From S2P Require Import Prelude Text Protocol.

Abbreviation Segments := (list (list byte)) (only parsing).

(** [b"HRTA"]. *)
Definition MAGIC : list byte := String.list_byte_of_string "HRTA".
Definition VERSION : Z := 1.
Definition HEADER_BYTES : Z := 52.

Inductive RuntimeMessageKind : Type :=
| Msg_Request | Msg_Success | Msg_Failure | Msg_Cancel | Msg_Cancelled
| Msg_DuplicateResultUnavailable | Msg_Moved.
#[export] Instance RuntimeMessageKind_eq_dec : EqDecision RuntimeMessageKind.
Proof. solve_decision. Defined.

Inductive WireError : Type :=
| WireError_HeaderLength (actual : Z)
| WireError_Magic
| WireError_Version (v : Z)
| WireError_InvalidKind (k : Z)
| WireError_Reserved
| WireError_ZeroRequest
| WireError_ZeroAction
| WireError_Channel
| WireError_Identity
| WireError_UnexpectedDeadline
| WireError_UnexpectedPayload
| WireError_ErrorPayload.

(** [kind as u8]. *)
Definition kind_code (k : RuntimeMessageKind) : Z :=
  match k with
  | Msg_Request => 1 | Msg_Success => 2 | Msg_Failure => 3 | Msg_Cancel => 4
  | Msg_Cancelled => 5 | Msg_DuplicateResultUnavailable => 6 | Msg_Moved => 7
  end.

Definition kind_try_from (value : Z) : result WireError RuntimeMessageKind :=
  if value =? 1 then Ok Msg_Request
  else if value =? 2 then Ok Msg_Success
  else if value =? 3 then Ok Msg_Failure
  else if value =? 4 then Ok Msg_Cancel
  else if value =? 5 then Ok Msg_Cancelled
  else if value =? 6 then Ok Msg_DuplicateResultUnavailable
  else if value =? 7 then Ok Msg_Moved
  else Err (WireError_InvalidKind value).

Record RuntimeMessage : Type := mkRuntimeMessage {
  msg_kind : RuntimeMessageKind;
  request : RequestId;
  action : ActionId;
  domain : DomainId;
  deadline_ms : Z;
  payload : Segments;
}.

Definition encode_header (m : RuntimeMessage) : list byte :=
  let header := MAGIC in
  let header := header ++ [byte_of VERSION] in
  let header := header ++ [byte_of (kind_code (msg_kind m))] in
  let header := header ++ replicate 2 Byte.x00 in
  let header := header ++ to_le_bytes 8 (RequestId_origin (request m)) in
  let header := header ++ to_le_bytes 8 (RequestId_sequence (request m)) in
  let header := header ++ to_le_bytes 16 (action m) in
  let header := header ++ to_le_bytes 4 (domain m) in
  header ++ to_le_bytes 8 (deadline_ms m).

Definition encode (m : RuntimeMessage) : Segments := encode_header m :: payload m.

Record ParcelShape : Type := mkParcelShape {
  shape_channel : Channel; shape_kind : ParcelKind;
  shape_source : LocalityId; shape_destination : LocalityId;
}.

Definition is_nil {A} (l : list A) : bool := match l with [] => true | _ => false end.

(** The payload [Moved] and [Failure] messages may carry. *)
Definition moved_payload (p : Segments) : bool :=
  match p with [a; b] => (len a =? 32) && (len b =? 32) | _ => false end.
Definition failure_payload (p : Segments) : bool :=
  match p with
  | [a] => (len a <=? Z.of_nat MAX_ERROR_BYTES) && utf8_valid a
  | _ => false
  end.

Definition validate_shape (k : RuntimeMessageKind) (shape : ParcelShape) (r : RequestId)
    (deadline : Z) (p : Segments) : result WireError unit :=
  let '(expected_channel, expected_kind) :=
    match k with
    | Msg_Cancel => (Channel_Control, ParcelKind_Control)
    | _ => (Channel_Action, ParcelKind_Data)
    end in
  fail_if (bool_decide (shape_channel shape <> expected_channel)
           || bool_decide (shape_kind shape <> expected_kind)) WireError_Channel;;
  match k with
  | Msg_Request | Msg_Cancel =>
      fail_if (negb (shape_source shape =? RequestId_origin r)) WireError_Identity
  | _ => fail_if (negb (shape_destination shape =? RequestId_origin r)) WireError_Identity
  end;;
  (if bool_decide (k = Msg_Request)
   then fail_if (deadline =? 0) WireError_UnexpectedDeadline
   else fail_if (negb (deadline =? 0)) WireError_UnexpectedDeadline);;
  match k with
  | Msg_Cancel | Msg_Cancelled | Msg_DuplicateResultUnavailable =>
      fail_if (negb (is_nil p)) WireError_UnexpectedPayload
  | Msg_Moved => fail_if (negb (moved_payload p)) WireError_ErrorPayload
  | Msg_Failure => fail_if (negb (failure_payload p)) WireError_ErrorPayload
  | _ => Ok tt
  end.

(** The slices are in range, the header's length having been checked. *)
Definition decode (p : Parcel) : result WireError RuntimeMessage :=
  let shape := mkParcelShape (channel p) (kind p) (source p) (destination p) in
  match segments p with
  | [] => Err (WireError_HeaderLength 0)
  | header :: pl =>
      fail_if (negb (len header =? HEADER_BYTES)) (WireError_HeaderLength (len header));;
      fail_if (bool_decide (slice 0 4 header <> MAGIC)) WireError_Magic;;
      let v := from_le_bytes (slice 4 5 header) in
      fail_if (negb (v =? VERSION)) (WireError_Version v);;
      k ← kind_try_from (from_le_bytes (slice 5 6 header));
      fail_if (bool_decide (slice 6 8 header <> replicate 2 Byte.x00)) WireError_Reserved;;
      let origin := from_le_bytes (slice 8 16 header) in
      let sequence := from_le_bytes (slice 16 24 header) in
      fail_if (sequence =? 0) WireError_ZeroRequest;;
      act ← map_err (fun _ => WireError_ZeroAction)
              (ActionId_new (from_le_bytes (slice 24 40 header)));
      let dom := from_le_bytes (slice 40 44 header) in
      let deadline := from_le_bytes (slice 44 52 header) in
      let r := mkRequestId origin sequence in
      validate_shape k shape r deadline pl;;
      Ok (mkRuntimeMessage k r act dom deadline pl)
  end.

(** ** What a decoded message is *)

(** Field widths of a message. *)
Definition message_wf (m : RuntimeMessage) : Prop :=
  in_u 64 (RequestId_origin (request m)) /\ 0 < RequestId_sequence (request m) < 2 ^ 64 /\
  id128_wf (action m) /\ in_u 32 (domain m) /\ in_u 64 (deadline_ms m).

(** Requests and cancellations travel from the requester, answers to it; only
    cancellations use the control channel. *)
Definition routed (m : RuntimeMessage) (p : Parcel) : Prop :=
  match msg_kind m with
  | Msg_Cancel => channel p = Channel_Control /\ kind p = ParcelKind_Control
  | _ => channel p = Channel_Action /\ kind p = ParcelKind_Data
  end /\
  match msg_kind m with
  | Msg_Request | Msg_Cancel => source p = RequestId_origin (request m)
  | _ => destination p = RequestId_origin (request m)
  end.

(** Only requests have a deadline, and they all do; the payload fits the kind. *)
Definition kind_wf (m : RuntimeMessage) : Prop :=
  (msg_kind m = Msg_Request <-> deadline_ms m <> 0) /\
  match msg_kind m with
  | Msg_Cancel | Msg_Cancelled | Msg_DuplicateResultUnavailable => payload m = []
  | Msg_Moved => exists a b, payload m = [a; b] /\ len a = 32 /\ len b = 32
  | Msg_Failure => exists a, payload m = [a] /\ len a <= 4096 /\ utf8_valid a = true
  | Msg_Request | Msg_Success => True
  end.

Definition header_layout (m : RuntimeMessage) : list byte :=
  MAGIC ++ to_le_bytes 1 VERSION ++ to_le_bytes 1 (kind_code (msg_kind m)) ++ to_le_bytes 2 0
  ++ to_le_bytes 8 (RequestId_origin (request m)) ++ to_le_bytes 8 (RequestId_sequence (request m))
  ++ to_le_bytes 16 (action m) ++ to_le_bytes 4 (domain m) ++ to_le_bytes 8 (deadline_ms m).

Lemma encode_header_layout m : encode_header m = header_layout m.
Proof. unfold encode_header, header_layout. by rewrite <- !app_assoc. Qed.

Lemma runtime_length_header_layout m : length (header_layout m) = 52%nat.
Proof. unfold header_layout. autorewrite with lens. reflexivity. Qed.

Lemma runtime_kind_code_range k : 0 <= kind_code k < 256.
Proof. destruct k; cbn; lia. Qed.
Lemma runtime_kind_try_from_code k : kind_try_from (kind_code k) = Ok k.
Proof. by destruct k. Qed.
Lemma runtime_kind_try_from_inv z k : kind_try_from z = Ok k -> z = kind_code k.
Proof.
  unfold kind_try_from.
  repeat (case_match; zbool; [intros; simplify_eq; done|]). done.
Qed.

Lemma fail_if_ok {E} (b : bool) (e : E) : fail_if b e = Ok tt <-> b = false.
Proof. by destruct b. Qed.

Lemma moved_payload_iff p :
  moved_payload p = true <-> exists a b, p = [a; b] /\ len a = 32 /\ len b = 32.
Proof.
  unfold moved_payload. destruct p as [|a [|b [|]]]; try (split; [done|naive_solver]).
  rewrite andb_true_iff, !Z.eqb_eq. naive_solver.
Qed.

Lemma failure_payload_iff p :
  failure_payload p = true <-> exists a, p = [a] /\ len a <= 4096 /\ utf8_valid a = true.
Proof.
  unfold failure_payload, MAX_ERROR_BYTES.
  destruct p as [|a [|]]; try (split; [done|naive_solver]).
  rewrite andb_true_iff, Z.leb_le. naive_solver.
Qed.

Lemma seq_ok {E} (a b : result E unit) : (a;; b) = Ok tt <-> a = Ok tt /\ b = Ok tt.
Proof. destruct a as [[]|]; rcbn; [tauto|]. split; [done|]. by intros []. Qed.

Lemma bool_decide_ne_false {A} `{EqDecision A} (x y : A) : bool_decide (x <> y) = false <-> x = y.
Proof. rewrite bool_decide_eq_false. split; [apply dec_stable|tauto]. Qed.

Lemma validate_shape_ok m p :
  validate_shape (msg_kind m) (mkParcelShape (channel p) (kind p) (source p) (destination p))
    (request m) (deadline_ms m) (payload m) = Ok tt <-> routed m p /\ kind_wf m.
Proof.
  unfold validate_shape, routed, kind_wf.
  pose proof (moved_payload_iff (payload m)) as Hm. pose proof (failure_payload_iff (payload m)) as Hf.
  assert (Hn : is_nil (payload m) = true <-> payload m = []) by (by destruct (payload m)).
  destruct (msg_kind m); cbn [shape_channel shape_kind shape_source shape_destination];
    rewrite !seq_ok, ?fail_if_ok, orb_false_iff, !bool_decide_ne_false;
    first [rewrite bool_decide_eq_true_2 by done | rewrite bool_decide_eq_false_2 by done];
    rewrite ?fail_if_ok, ?negb_false_iff, ?Z.eqb_eq, ?Z.eqb_neq, ?Hm, ?Hf, ?Hn;
    (destruct (decide (deadline_ms m = 0)); [|]); intuition congruence.
Qed.

Lemma decode_layout m p :
  message_wf m -> routed m p -> kind_wf m -> segments p = header_layout m :: payload m ->
  decode p = Ok m.
Proof.
  intros (Ho & Hs & Ha & Hd & Hdl) Hr Hk Hseg. pose proof (runtime_kind_code_range (msg_kind m)).
  pose proof (proj2 (validate_shape_ok m p) (conj Hr Hk)) as Hshape.
  unfold decode. rewrite Hseg.
  assert (Hl : len (header_layout m) = HEADER_BYTES) by (unfold len; by rewrite runtime_length_header_layout).
  rewrite Hl. clear Hl. rcbn. unfold header_layout, in_u, id128_wf in *. slice_eval.
  rewrite !from_to_le_bytes by (unfold VERSION; cbn; lia).
  rewrite bool_decide_eq_false_2 by (intros Hn; by apply Hn). rcbn.
  rewrite runtime_kind_try_from_code. rcbn.
  rewrite (proj2 (Z.eqb_neq (RequestId_sequence (request m)) 0)) by lia. rcbn.
  unfold ActionId_new, nonzero_u128_id.
  rewrite (proj2 (Z.eqb_neq (action m) 0)) by lia. rcbn. cbn [map_err]. rcbn.
  replace (mkRequestId _ _) with (request m) by (by destruct (request m)).
  rewrite Hshape. rcbn. by destruct m.
Qed.

Lemma runtime_header_split (h : list byte) :
  length h = 52%nat ->
  h = slice 0 4 h ++ slice 4 5 h ++ slice 5 6 h ++ slice 6 8 h ++ slice 8 16 h ++ slice 16 24 h
      ++ slice 24 40 h ++ slice 40 44 h ++ slice 44 52 h.
Proof. intros H. rewrite !slice_join by lia. symmetry. by apply slice_all. Qed.

(** A header that passes the field checks is the layout of its fields. *)
Lemma header_fields h m :
  length h = 52%nat -> slice 0 4 h = MAGIC -> from_le_bytes (slice 4 5 h) = VERSION ->
  from_le_bytes (slice 5 6 h) = kind_code (msg_kind m) -> slice 6 8 h = replicate 2 Byte.x00 ->
  RequestId_origin (request m) = from_le_bytes (slice 8 16 h) ->
  RequestId_sequence (request m) = from_le_bytes (slice 16 24 h) ->
  action m = from_le_bytes (slice 24 40 h) -> domain m = from_le_bytes (slice 40 44 h) ->
  deadline_ms m = from_le_bytes (slice 44 52 h) -> h = header_layout m.
Proof.
  intros Hl Hmagic Hv Hk Hres Ho Hs Ha Hd Hdl. rewrite (runtime_header_split h Hl) at 1.
  unfold header_layout. rewrite <- Hk, <- Hv, Hmagic, Hres, Ho, Hs, Ha, Hd, Hdl.
  rewrite !to_from_le_bytes' by (rewrite length_slice; lia). reflexivity.
Qed.

Lemma decode_inv m p :
  decode p = Ok m ->
  message_wf m /\ routed m p /\ kind_wf m /\ segments p = header_layout m :: payload m.
Proof.
  unfold decode. destruct (segments p) as [|h pl]; [done|]. intros H.
  bind_inv H. fail_if_inv E. bind_inv H. fail_if_inv E. bind_inv H. fail_if_inv E.
  bind_inv H. bind_inv H. fail_if_inv E0. bind_inv H. fail_if_inv E0. bind_inv H. bind_inv H.
  injection H as <-. zbool. apply dec_stable in Heqb0, Heqb2.
  assert (Hl : length h = 52%nat) by (unfold len, HEADER_BYTES in *; lia).
  apply runtime_kind_try_from_inv in E. unfold ActionId_new in E0.
  destruct (nonzero_u128_id _ _) as [x|] eqn:Ex; [|done]. injection E0 as <-.
  apply nonzero_id_inv in Ex as [-> Hne]. destruct a6.
  match type of E1 with validate_shape ?k _ ?r ?d _ = _ =>
    set (m := mkRuntimeMessage k r (from_le_bytes (slice 24 40 h)) (from_le_bytes (slice 40 44 h)) d pl) end.
  assert (Hshape : routed m p /\ kind_wf m) by (apply validate_shape_ok; exact E1).
  pose proof (from_le_bytes_range' 8 (slice 8 16 h) ltac:(apply length_slice; lia)).
  pose proof (from_le_bytes_range' 8 (slice 16 24 h) ltac:(apply length_slice; lia)).
  pose proof (from_le_bytes_range' 16 (slice 24 40 h) ltac:(apply length_slice; lia)).
  pose proof (from_le_bytes_range' 4 (slice 40 44 h) ltac:(apply length_slice; lia)).
  pose proof (from_le_bytes_range' 8 (slice 44 52 h) ltac:(apply length_slice; lia)).
  split_and!; [|apply Hshape|apply Hshape|].
  - unfold message_wf, in_u, id128_wf, m. cbn [request action domain deadline_ms
      RequestId_origin RequestId_sequence]. cbn in *. lia.
  - f_equal. by apply header_fields.
Qed.

(** C39: the runtime's message codec is exact.  [decode] accepts a parcel exactly
    when its segments are the encoding of a message with in-range fields, the
    parcel is routed as the message's kind demands (channel, parcel kind,
    requester as source or destination), only requests carry a deadline, and
    the payload has the shape of the kind; it then returns that message. *)
Theorem decode_iff_encode p m :
  decode p = Ok m <->
    message_wf m /\ routed m p /\ kind_wf m /\ segments p = encode m.
Proof.
  unfold encode. rewrite encode_header_layout. split.
  - apply decode_inv.
  - intros (Hw & Hr & Hk & Hs). by apply decode_layout.
Qed.
