(* ===== verification/Dedup.v ===== *)
(** * Dedup: the table that runs each request at most once

    Models [crates/hataori-runtime/src/dedup.rs].  The table is a [gmap] from
    request ids; instants and durations are integers on one clock.  The
    cancellation flag of a running action is an [Arc<AtomicBool>] shared with
    the job that executes it: the flags are a store ([tokens]) beside the
    table, and entries and dispositions hold their addresses. *)
From S2P Require Import Prelude Text Protocol Error RuntimeWire.

(** ** Data *)

Abbreviation Token := Z (only parsing).
Abbreviation Instant := Z (only parsing).

Inductive DedupDisposition : Type :=
| Disp_New (cancelled : Token)
| Disp_Running
| Disp_Replay (m : RuntimeMessage)
| Disp_Unavailable (m : RuntimeMessage)
| Disp_Cancelled (m : RuntimeMessage).

Inductive DedupState : Type :=
| Dedup_Running (action : ActionId) (domain : DomainId) (cancelled : Token)
| Dedup_Completed (action : ActionId) (domain : DomainId)
    (response : option (RuntimeMessageKind * Segments)) (retained : Z) (expires_at : Instant)
| Dedup_Cancelled (action : ActionId) (domain : DomainId) (expires_at : Instant).

Record DedupTable : Type := mkDedupTable {
  entries : gmap RequestId DedupState;
  max_entries : Z;
  max_bytes : Z;
  retained_bytes : Z;
  ttl : Z;
  tokens : gmap Z bool;
  next_token : Z;
}.

Definition DedupTable_new (max_entries max_bytes ttl : Z) : DedupTable :=
  mkDedupTable ∅ max_entries max_bytes 0 ttl ∅ 0.

Abbreviation SM := (M DedupTable RuntimeError).

Definition set_entries (e : gmap RequestId DedupState) (s : DedupTable) : DedupTable :=
  mkDedupTable e (max_entries s) (max_bytes s) (retained_bytes s) (ttl s) (tokens s) (next_token s).
Definition set_retained (n : Z) (s : DedupTable) : DedupTable :=
  mkDedupTable (entries s) (max_entries s) (max_bytes s) n (ttl s) (tokens s) (next_token s).
Definition set_token (t : Token) (b : bool) (s : DedupTable) : DedupTable :=
  mkDedupTable (entries s) (max_entries s) (max_bytes s) (retained_bytes s) (ttl s)
    (<[t := b]> (tokens s)) (next_token s).

(** [Arc::new(AtomicBool::new(false))]. *)
Definition new_token : SM Token :=
  t ← gets next_token;
  modify (fun s => mkDedupTable (entries s) (max_entries s) (max_bytes s) (retained_bytes s)
                     (ttl s) (<[t := false]> (tokens s)) (t + 1));;
  mret t.

Definition table_len (s : DedupTable) : Z := Z.of_nat (size (entries s)).

(** ** Operations *)

(** The action and domain stored in an entry. *)
Definition stored (st : DedupState) : ActionId * DomainId :=
  match st with
  | Dedup_Running a d _ | Dedup_Completed a d _ _ _ | Dedup_Cancelled a d _ => (a, d)
  end.

Definition is_expired (now : Instant) (st : DedupState) : bool :=
  match st with
  | Dedup_Completed _ _ _ _ expires_at | Dedup_Cancelled _ _ expires_at => expires_at <=? now
  | Dedup_Running _ _ _ => false
  end.

(** The body of the second loop of [expire]. *)
Definition expire_one (s : DedupTable) (r : RequestId) : DedupTable :=
  let s' := set_entries (delete r (entries s)) s in
  match entries s !! r with
  | Some (Dedup_Completed _ _ _ retained _) =>
      set_retained (saturating_sub (retained_bytes s) retained) s'
  | _ => s'
  end.

Definition expire (now : Instant) : SM unit :=
  modify (fun s =>
    foldl expire_one s
      (map fst (filter (fun x => is_expired now x.2 = true) (map_to_list (entries s))))).

(** The answer to a duplicate of a stored request. *)
Definition disposition (r : RequestId) (st : DedupState) : DedupDisposition :=
  match st with
  | Dedup_Running _ _ _ => Disp_Running
  | Dedup_Completed _ _ (Some (Msg_Moved, _)) _ _ => Disp_Running
  | Dedup_Completed a d (Some (k, payload)) _ _ =>
      Disp_Replay (mkRuntimeMessage k r a d 0 payload)
  | Dedup_Completed a d None _ _ =>
      Disp_Unavailable (mkRuntimeMessage Msg_DuplicateResultUnavailable r a d 0 [])
  | Dedup_Cancelled a d _ => Disp_Cancelled (mkRuntimeMessage Msg_Cancelled r a d 0 [])
  end.

Definition same_target (st : DedupState) (a : ActionId) (d : DomainId) : bool :=
  ((stored st).1 =? a) && ((stored st).2 =? d).

Definition begin (r : RequestId) (a : ActionId) (d : DomainId) (now : Instant) :
    SM DedupDisposition :=
  expire now;;
  s ← gets id;
  match entries s !! r with
  | Some st =>
      if negb (same_target st a d)
      then raise (RuntimeError_Protocol (lit "duplicate request changed action or domain"))
      else mret (disposition r st)
  | None =>
      if max_entries s <=? table_len s
      then raise (RuntimeError_ResourceExhausted DedupEntries (max_entries s))
      else
        t ← new_token;
        modify (fun s => set_entries (<[r := Dedup_Running a d t]> (entries s)) s);;
        mret (Disp_New t)
  end.

Definition release_redirect (r : RequestId) (a : ActionId) (d : DomainId) : SM unit :=
  s ← gets id;
  match entries s !! r with
  | Some (Dedup_Completed sa sd (Some (Msg_Moved, _)) _ _) =>
      if (sa =? a) && (sd =? d)
      then modify (fun s => set_entries (delete r (entries s)) s)
      else mret tt
  | Some (Dedup_Running _ _ _) => mret tt
  | Some _ => raise (RuntimeError_Protocol (lit "redirect changed request action or domain"))
  | None => mret tt
  end.

Definition cancel (r : RequestId) (a : ActionId) (d : DomainId) (now : Instant) : SM unit :=
  expire now;;
  s ← gets id;
  match entries s !! r with
  | Some st =>
      if negb (same_target st a d)
      then raise (RuntimeError_Protocol (lit "cancellation changed request action or domain"))
      else match st with
           | Dedup_Running _ _ t => modify (set_token t true)
           | _ => mret tt
           end
  | None =>
      mwhen (table_len s <? max_entries s)
        (modify (set_entries (<[r := Dedup_Cancelled a d (now + ttl s)]> (entries s))))
  end.

(** [try_fold] of [checked_add] over the payload. *)
Fixpoint payload_bytes (total : Z) (p : Segments) : option Z :=
  match p with
  | [] => Some total
  | seg :: p' => total ← checked_add usize_max total (len seg); payload_bytes total p'
  end.

Definition complete (m : RuntimeMessage) (now : Instant) : SM unit :=
  s ← gets id;
  st ← lift (ok_or (entries s !! request m)
               (RuntimeError_Protocol (lit "action completed without a dedup entry")));
  target ← lift (match st with
                 | Dedup_Running a d _ | Dedup_Cancelled a d _ => Ok (a, d)
                 | Dedup_Completed _ _ _ _ _ =>
                     Err (RuntimeError_Protocol (lit "action completed more than once"))
                 end);
  if negb ((fst target =? action m) && (snd target =? domain m))
  then raise (RuntimeError_Protocol (lit "action completion changed request metadata"))
  else
  n ← lift (ok_or (payload_bytes 0 (payload m))
              (RuntimeError_ResourceExhausted DedupBytes (max_bytes s)));
  let fits := match checked_add usize_max (retained_bytes s) n with
              | Some bytes => bytes <=? max_bytes s
              | None => false
              end in
  mwhen fits (modify (fun s => set_retained (retained_bytes s + n) s));;
  let response := if fits then Some (msg_kind m, payload m) else None in
  let retained := if fits then n else 0 in
  s ← gets id;
  modify (set_entries (<[request m :=
    Dedup_Completed (action m) (domain m) response retained (now + ttl s)]> (entries s)));;
  match entries s !! request m with
  | Some (Dedup_Completed _ _ _ retained _) =>
      modify (fun s => set_retained (saturating_sub (retained_bytes s) retained) s)
  | _ => mret tt
  end.

Definition clear : SM unit := modify (fun s => set_retained 0 (set_entries ∅ s)).

(** ** Runs *)

Inductive op : Type :=
| Op_begin (r : RequestId) (a : ActionId) (d : DomainId) (now : Instant)
| Op_release_redirect (r : RequestId) (a : ActionId) (d : DomainId)
| Op_cancel (r : RequestId) (a : ActionId) (d : DomainId) (now : Instant)
| Op_complete (m : RuntimeMessage) (now : Instant)
| Op_expire (now : Instant)
| Op_clear.

(** The state an operation leaves, whether it succeeds or not. *)
Definition step (s : DedupTable) (o : op) : DedupTable :=
  match o with
  | Op_begin r a d now => (begin r a d now s).2
  | Op_release_redirect r a d => (release_redirect r a d s).2
  | Op_cancel r a d now => (cancel r a d now s).2
  | Op_complete m now => (complete m now s).2
  | Op_expire now => (expire now s).2
  | Op_clear => (clear s).2
  end.

Definition run (ops : list op) (s : DedupTable) : DedupTable := foldl step s ops.

(** ** Retained bytes *)

Definition retained_of (st : DedupState) : Z :=
  match st with Dedup_Completed _ _ _ retained _ => retained | _ => 0 end.

(** What the entries really hold. *)
Definition held (e : gmap RequestId DedupState) : Z :=
  foldr (fun x acc => retained_of x.2 + acc) 0 (map_to_list e).

Definition slack (s : DedupTable) : Z := retained_bytes s - held (entries s).

(** Stored byte counts are those of the stored payloads. *)
Definition entry_ok (st : DedupState) : Prop :=
  match st with
  | Dedup_Completed _ _ (Some (_, p)) retained _ => payload_bytes 0 p = Some retained
  | Dedup_Completed _ _ None retained _ => retained = 0
  | _ => True
  end.

Record dedup_inv (s : DedupTable) : Prop := {
  di_size : table_len s <= Z.max 0 (max_entries s);
  di_slack : 0 <= slack s;
  di_bound : retained_bytes s <= max_bytes s;
  di_entries : map_Forall (fun _ => entry_ok) (entries s);
}.

Lemma held_insert e r st :
  e !! r = None -> held (<[r := st]> e) = retained_of st + held e.
Proof.
  intros H. unfold held.
  assert (Hp : forall l k, l ≡ₚ k -> foldr (fun (x : RequestId * DedupState) acc => retained_of x.2 + acc) 0 l
                          = foldr (fun x acc => retained_of x.2 + acc) 0 k).
  { intros l k Hlk. induction Hlk; cbn; lia. }
  by rewrite (Hp _ _ (map_to_list_insert e r st H)).
Qed.

Lemma held_empty : held ∅ = 0.
Proof. unfold held. by rewrite map_to_list_empty. Qed.

Lemma held_delete e r st : e !! r = Some st -> held (delete r e) = held e - retained_of st.
Proof.
  intros H. rewrite <- (insert_delete_id e r st H) at 2. rewrite held_insert; [lia|].
  apply lookup_delete_eq.
Qed.

Lemma held_overwrite e r st st' :
  e !! r = Some st -> held (<[r := st']> e) = held e - retained_of st + retained_of st'.
Proof.
  intros H. rewrite <- insert_delete_eq, held_insert by apply lookup_delete_eq.
  rewrite (held_delete e r st H). lia.
Qed.

Lemma payload_bytes_nonneg p n t : 0 <= t -> payload_bytes t p = Some n -> 0 <= n.
Proof.
  revert t. induction p as [|seg p IH]; intros t Ht H; cbn in H; [by simplify_eq|].
  destruct (checked_add _ _ _) as [t'|] eqn:E; [|done]. apply checked_add_some in E as [-> _].
  apply (IH _) in H; [done|]. pose proof (len_nonneg seg). lia.
Qed.

Lemma retained_nonneg st : entry_ok st -> 0 <= retained_of st.
Proof.
  destruct st as [| ? ? [[k p]|] n ?|]; cbn; intros H; try lia.
  by eapply payload_bytes_nonneg.
Qed.

Lemma held_nonneg e : map_Forall (fun _ => entry_ok) e -> 0 <= held e.
Proof.
  induction e as [|r st e Hr IH] using map_ind; [done|]. intros Hall.
  apply map_Forall_insert in Hall as [Hst Hall]; [|done]. rewrite held_insert by done.
  pose proof (retained_nonneg st Hst). specialize (IH Hall). lia.
Qed.

(** ** Expiry *)

(** Everything but the entries and the byte count. *)
Definition same_config (s s' : DedupTable) : Prop :=
  max_entries s' = max_entries s /\ max_bytes s' = max_bytes s /\ ttl s' = ttl s /\
  tokens s' = tokens s /\ next_token s' = next_token s.

Lemma held_ge e r st :
  map_Forall (fun _ => entry_ok) e -> e !! r = Some st -> retained_of st <= held e.
Proof.
  intros Hall Hr. pose proof (held_delete e r st Hr) as Hd.
  pose proof (held_nonneg (delete r e)) as Hn. specialize (Hn (map_Forall_delete _ _ _ Hall)). lia.
Qed.

Lemma expire_one_ok s r :
  dedup_inv s ->
  let s' := expire_one s r in
  dedup_inv s' /\ slack s' = slack s /\ same_config s s' /\
  entries s' = delete r (entries s).
Proof.
  intros [] s'. assert (Hent : entries s' = delete r (entries s)).
  { unfold s', expire_one. by destruct (entries s !! r) as [[]|]. }
  assert (Hret : retained_bytes s' = retained_bytes s - (held (entries s) - held (entries s'))).
  { rewrite Hent. unfold s', expire_one.
    destruct (entries s !! r) as [st|] eqn:Hr.
    - rewrite (held_delete _ _ _ Hr). pose proof (held_ge _ _ _ di_entries0 Hr).
      unfold slack in di_slack0. pose proof (held_nonneg _ di_entries0).
      destruct st; cbn [retained_of retained_bytes set_retained set_entries] in *;
        unfold saturating_sub; lia.
    - rewrite delete_id by done. cbn [retained_bytes set_entries]. lia. }
  assert (Hslack : slack s' = slack s) by (unfold slack; lia).
  assert (Hcfg : same_config s s') by (unfold s', expire_one; by destruct (entries s !! r) as [[]|]).
  split_and!; try done. destruct Hcfg as (He & Hb & _).
  assert (Hall' : map_Forall (fun _ => entry_ok) (entries s')) by (rewrite Hent; by apply map_Forall_delete).
  split; rewrite ?He, ?Hb.
  - unfold table_len in *. rewrite Hent, map_size_delete.
    destruct (entries s !! r); unfold id; lia.
  - lia.
  - assert (held (entries s') <= held (entries s)); [|lia]. rewrite Hent.
    destruct (entries s !! r) as [st|] eqn:Hr; [|by rewrite delete_id].
    rewrite (held_delete _ _ _ Hr). pose proof (retained_nonneg _ (di_entries0 _ _ Hr)). lia.
  - done.
Qed.

Lemma expire_fold ks : forall s, dedup_inv s ->
  let s' := foldl expire_one s ks in
  dedup_inv s' /\ slack s' = slack s /\ same_config s s' /\
  forall r, entries s' !! r = if decide (r ∈ ks) then None else entries s !! r.
Proof.
  induction ks as [|k ks IH]; intros s Hinv; cbn [foldl].
  { split_and!; try done. }
  destruct (expire_one_ok s k Hinv) as (Hinv1 & Hs1 & (H1 & H2 & H3 & H4 & H5) & Hent).
  destruct (IH _ Hinv1) as (Hinv2 & Hs2 & (H1' & H2' & H3' & H4' & H5') & Hl).
  split_and!; [done|congruence|split_and!; congruence|]. intros r. rewrite Hl, Hent.
  destruct (decide (r ∈ ks)).
  - rewrite decide_True by (by right). done.
  - destruct (decide (r = k)) as [->|Hne].
    + rewrite decide_True by (by left). apply lookup_delete_eq.
    + rewrite decide_False by (by intros [?|?]%elem_of_cons). by rewrite lookup_delete_ne.
Qed.

(** The table without its expired entries. *)
Definition live (now : Instant) (st : option DedupState) : option DedupState :=
  match st with Some st => if is_expired now st then None else Some st | None => None end.

Lemma expire_spec now s :
  dedup_inv s -> exists s', expire now s = (Ok tt, s') /\ dedup_inv s' /\ slack s' = slack s /\
    same_config s s' /\ forall r, entries s' !! r = live now (entries s !! r).
Proof.
  intros Hinv. unfold expire, modify. eexists. split; [reflexivity|].
  edestruct expire_fold as (H1 & H2 & H3 & H4); [exact Hinv|]. split_and!; [exact H1|exact H2|exact H3|].
  intros r. rewrite H4. unfold live.
  destruct (decide (r ∈ _)) as [Hin|Hin].
  - apply list_elem_of_fmap in Hin as ([r' st] & -> & Hin). cbn.
    apply list_elem_of_filter in Hin as [Hexp Hin]. apply elem_of_map_to_list in Hin.
    rewrite Hin. cbn in Hexp. by rewrite Hexp.
  - destruct (entries s !! r) as [st|] eqn:Hr; [|done].
    destruct (is_expired now st) eqn:He; [|done]. destruct Hin. apply list_elem_of_fmap.
    exists (r, st). split; [done|]. apply list_elem_of_filter. split; [done|].
    by apply elem_of_map_to_list.
Qed.

(** ** What each operation does to an entry *)

(** Flags belong to one running entry each. *)
Record token_inv (s : DedupTable) : Prop := {
  ti_below : forall r a d t, entries s !! r = Some (Dedup_Running a d t) -> t < next_token s;
  ti_inj : forall r r' a a' d d' t, entries s !! r = Some (Dedup_Running a d t) ->
    entries s !! r' = Some (Dedup_Running a' d' t) -> r = r';
}.

Definition table_inv (s : DedupTable) : Prop := dedup_inv s /\ token_inv s.

Lemma live_running now st a d t : live now st = Some (Dedup_Running a d t) <-> st = Some (Dedup_Running a d t).
Proof. unfold live. destruct st as [[]|]; cbn; try destruct (_ <=? _); split; congruence. Qed.

Lemma expire_table now s :
  table_inv s -> exists s', expire now s = (Ok tt, s') /\ table_inv s' /\ slack s' = slack s /\
    same_config s s' /\ forall r, entries s' !! r = live now (entries s !! r).
Proof.
  intros [Hd [Hb Hi]]. destruct (expire_spec now s Hd) as (s' & E & Hd' & Hs & Hc & Hl).
  exists s'. split_and!; try done. destruct Hc as (_ & _ & _ & _ & Hn).
  split; [done|]. split.
  - intros r a d t. rewrite Hl, live_running, Hn. apply Hb.
  - intros r r' a a' d d' t. rewrite !Hl, !live_running. apply Hi.
Qed.

Lemma table_size_insert s r st :
  table_len (set_entries (<[r := st]> (entries s)) s) =
    table_len s + (if bool_decide (is_Some (entries s !! r)) then 0 else 1).
Proof.
  unfold table_len. cbn. rewrite map_size_insert.
  destruct (entries s !! r); [rewrite bool_decide_eq_true_2 by eauto|
    rewrite bool_decide_eq_false_2 by (intros []; done)]; unfold id; lia.
Qed.

(** Adding an entry that holds no bytes. *)
Lemma dedup_insert_new s r st :
  dedup_inv s -> entries s !! r = None -> table_len s < max_entries s ->
  entry_ok st -> retained_of st = 0 ->
  let s' := set_entries (<[r := st]> (entries s)) s in dedup_inv s' /\ slack s' = slack s.
Proof.
  intros [] Hr Hlen Hok Hret s'.
  assert (Hs : slack s' = slack s).
  { unfold slack, s'. cbn [entries retained_bytes set_entries]. rewrite held_insert by done. lia. }
  split; [|done]. split.
  - unfold s'. rewrite table_size_insert, bool_decide_eq_false_2 by (rewrite Hr; by intros []). cbn. lia.
  - lia.
  - done.
  - by apply map_Forall_insert_2.
Qed.

(** The outcome of [begin] on the table without its expired entries. *)
Lemma begin_spec r a d now s :
  table_inv s -> exists s1, expire now s = (Ok tt, s1) /\
  match live now (entries s !! r) with
  | Some st =>
      if same_target st a d then begin r a d now s = (Ok (disposition r st), s1)
      else begin r a d now s =
        (Err (Raise (RuntimeError_Protocol (lit "duplicate request changed action or domain"))), s1)
  | None =>
      if max_entries s <=? table_len s1
      then begin r a d now s =
        (Err (Raise (RuntimeError_ResourceExhausted DedupEntries (max_entries s))), s1)
      else exists s2, begin r a d now s = (Ok (Disp_New (next_token s)), s2) /\
        table_inv s2 /\ slack s2 = slack s /\
        entries s2 = <[r := Dedup_Running a d (next_token s)]> (entries s1) /\
        tokens s2 = <[next_token s := false]> (tokens s) /\ next_token s2 = next_token s + 1 /\
        max_entries s2 = max_entries s /\ max_bytes s2 = max_bytes s /\ ttl s2 = ttl s
  end.
Proof.
  intros Hinv. destruct (expire_table now s Hinv) as (s1 & E & [Hd1 Ht1] & Hs1 & (C1 & C2 & C3 & C4 & C5) & Hl).
  exists s1. split; [done|]. rewrite <- Hl. unfold begin.
  rewrite (M_bind_step _ _ _ _ _ E). mrun.
  destruct (entries s1 !! r) as [st|] eqn:Hr.
  - destruct (same_target st a d); mrun; done.
  - rewrite C1. destruct (max_entries s <=? table_len s1) eqn:Hfull; [done|]. zbool.
    unfold new_token. mrun. unfold set_entries. cbn. rewrite C4, C5.
    eexists. split; [reflexivity|]. cbn. split_and!; try done.
    + set (s1' := set_entries (<[r := Dedup_Running a d (next_token s)]> (entries s1)) s1).
      destruct (dedup_insert_new s1 r (Dedup_Running a d (next_token s)) Hd1 Hr) as [[] Hsl]; [lia|done|done|].
      split; [by split|]. split; cbn.
      * intros r' a' d' t [[-> [= -> -> ->]]|[Hne Hr']]%lookup_insert_Some; [lia|].
        pose proof (ti_below _ Ht1 _ _ _ _ Hr'). lia.
      * intros r1 r2 a1 a2 d1 d2 t H1 H2.
        apply lookup_insert_Some in H1 as [[<- [= <- <- <-]]|[Hne1 H1]];
          apply lookup_insert_Some in H2 as [[<- H2]|[Hne2 H2]]; try done.
        -- pose proof (ti_below _ Ht1 _ _ _ _ H2). lia.
        -- injection H2 as <- <- <-. pose proof (ti_below _ Ht1 _ _ _ _ H1). lia.
        -- by eapply ti_inj.
    + unfold slack in *. cbn. rewrite held_insert by done. cbn [retained_of]. lia.
Qed.

(** Whether a response of [n] bytes is retained. *)
Definition fits (s : DedupTable) (n : Z) : bool :=
  match checked_add usize_max (retained_bytes s) n with
  | Some bytes => bytes <=? max_bytes s
  | None => false
  end.

(** The entry [complete] leaves. *)
Definition completed_entry (s : DedupTable) (m : RuntimeMessage) (n : Z) (now : Instant) : DedupState :=
  Dedup_Completed (action m) (domain m)
    (if fits s n then Some (msg_kind m, payload m) else None)
    (if fits s n then n else 0) (now + ttl s).

Definition finishable (st : DedupState) : bool :=
  match st with Dedup_Completed _ _ _ _ _ => false | _ => true end.

Lemma token_inv_overwrite s s' r st :
  token_inv s -> entries s' = <[r := st]> (entries s) -> next_token s' = next_token s ->
  (forall a d t, st <> Dedup_Running a d t) -> token_inv s'.
Proof.
  intros [Hb Hi] He Hn Hst. split.
  - intros r' a d t Hr. rewrite He in Hr. rewrite Hn.
    apply lookup_insert_Some in Hr as [[_ Heq]|[_ Hr]]; [by apply Hst in Heq|eauto].
  - intros r1 r2 a1 a2 d1 d2 t H1 H2. rewrite He in H1, H2.
    apply lookup_insert_Some in H1 as [[_ Heq]|[_ H1]]; [by apply Hst in Heq|].
    apply lookup_insert_Some in H2 as [[_ Heq]|[_ H2]]; [by apply Hst in Heq|]. eauto.
Qed.

Lemma complete_spec m now s :
  table_inv s ->
  match entries s !! request m with
  | None => exists e, complete m now s = (Err (Raise e), s)
  | Some st =>
      if finishable st && same_target st (action m) (domain m) then
        match payload_bytes 0 (payload m) with
        | None => exists e, complete m now s = (Err (Raise e), s)
        | Some n => exists s', complete m now s = (Ok tt, s') /\ table_inv s' /\
            slack s' = slack s /\ max_entries s' = max_entries s /\ max_bytes s' = max_bytes s /\
            ttl s' = ttl s /\ tokens s' = tokens s /\
            retained_bytes s' = retained_bytes s + (if fits s n then n else 0) /\
            entries s' = <[request m := completed_entry s m n now]> (entries s)
        end
      else exists e, complete m now s = (Err (Raise e), s)
  end.
Proof.
  intros [Hd Ht]. unfold complete. mrun. unfold id.
  destruct (entries s !! request m) as [st|] eqn:Hr; [|mrun; eauto].
  mrun. destruct (finishable st) eqn:Hf; [|destruct st; try done; mrun; eauto].
  assert (Hgo : (match st with
                 | Dedup_Running a d _ | Dedup_Cancelled a d _ => Ok (a, d)
                 | Dedup_Completed _ _ _ _ _ =>
                     Err (RuntimeError_Protocol (lit "action completed more than once"))
                 end : result RuntimeError (Z * Z)) = Ok (stored st)) by (by destruct st).
  rewrite Hgo. cbn [andb]. unfold same_target.
  destruct ((stored st).1 =? action m) eqn:E1; [|mrun; eauto].
  destruct ((stored st).2 =? domain m) eqn:E2; [|mrun; eauto]. mrun. cbn [ok_or].
  destruct (payload_bytes 0 (payload m)) as [n|] eqn:En; [|mrun; eauto]. mrun. fold (fits s n).
  assert (Hst : retained_of st = 0) by (by destruct st).
  assert (Hnn : 0 <= n) by (by apply (payload_bytes_nonneg _ _ 0) in En).
  set (s1 := if fits s n then set_retained (retained_bytes s + n) s else s).
  set (s' := set_entries (<[request m := completed_entry s m n now]> (entries s)) s1).
  match goal with |- exists _, ?c _ = _ /\ _ => assert (Hc : c s = (Ok tt, s')) end.
  { unfold s', s1, completed_entry. destruct (fits s n) eqn:Hfit; mrun; cbn [mwhen];
      unfold set_retained; cbn [entries]; rewrite Hr; destruct st; try done; mrun; done. }
  exists s'. assert (Hent : entries s' = <[request m := completed_entry s m n now]> (entries s)) by done.
  assert (Hret : retained_bytes s' = retained_bytes s + (if fits s n then n else 0)).
  { unfold s', s1. destruct (fits s n); cbn; lia. }
  assert (Hheld : held (entries s') = held (entries s) + (if fits s n then n else 0)).
  { rewrite Hent, (held_overwrite _ _ st) by done. unfold completed_entry. cbn. lia. }
  assert (Hcfg : max_entries s' = max_entries s /\ max_bytes s' = max_bytes s /\ ttl s' = ttl s /\
                 tokens s' = tokens s /\ next_token s' = next_token s)
    by (unfold s', s1; by destruct (fits s n)).
  destruct Hcfg as (C1 & C2 & C3 & C4 & C5). destruct Hd.
  split_and!; try done; [split|unfold slack; lia].
  - split; rewrite ?C1, ?C2.
    + unfold table_len in *. rewrite Hent, map_size_insert_Some; [done|by rewrite Hr].
    + unfold slack in *. lia.
    + rewrite Hret. unfold fits. destruct (checked_add _ _ _) as [b|] eqn:Eb; [|lia].
      apply checked_add_some in Eb as [-> _]. destruct (_ <=? _) eqn:El; zbool; lia.
    + rewrite Hent. apply map_Forall_insert_2; [|done]. unfold completed_entry.
      destruct (fits s n); cbn; congruence.
  - apply (token_inv_overwrite s s' (request m) (completed_entry s m n now)); done.
Qed.

Lemma release_redirect_spec r a d s :
  table_inv s ->
  (exists x, release_redirect r a d s = (x, s)) \/
  (exists ret ex p, entries s !! r = Some (Dedup_Completed a d (Some (Msg_Moved, p)) ret ex) /\
     release_redirect r a d s = (Ok tt, set_entries (delete r (entries s)) s) /\
     table_inv (set_entries (delete r (entries s)) s) /\
     slack (set_entries (delete r (entries s)) s) = slack s + ret).
Proof.
  intros [Hd Ht]. unfold release_redirect. mrun. unfold id.
  destruct (entries s !! r) as [[|sa sd [[[] p]|] ret ex|]|] eqn:Hr; mrun; try (left; eauto; fail).
  destruct ((sa =? a) && (sd =? d)) eqn:E; [|left; mrun; eauto]. right. zbool. subst sa sd.
  exists ret, ex, p.
  assert (Hheld : held (delete r (entries s)) = held (entries s) - ret)
    by (by rewrite (held_delete _ _ _ Hr)).
  pose proof (retained_nonneg _ (di_entries _ Hd _ _ Hr)) as Hnn. cbn [retained_of] in Hnn.
  split_and!; [done|done| |unfold slack; cbn [entries set_entries retained_bytes]; lia].
  destruct Hd, Ht as [Hb Hi]. split; split.
  - unfold table_len in *. cbn. rewrite map_size_delete, Hr. lia.
  - unfold slack in *. cbn [entries set_entries retained_bytes]. lia.
  - done.
  - by apply map_Forall_delete.
  - cbn. intros r' a' d' t [_ Hr']%lookup_delete_Some. eauto.
  - cbn. intros r1 r2 a1 a2 d1 d2 t [_ H1]%lookup_delete_Some [_ H2]%lookup_delete_Some. eauto.
Qed.

Lemma cancel_spec r a d now s :
  table_inv s -> exists s1, expire now s = (Ok tt, s1) /\ table_inv s1 /\
  match live now (entries s !! r) with
  | Some st =>
      if same_target st a d then
        match st with
        | Dedup_Running _ _ t => cancel r a d now s = (Ok tt, set_token t true s1)
        | _ => cancel r a d now s = (Ok tt, s1)
        end
      else exists e, cancel r a d now s = (Err (Raise e), s1)
  | None =>
      if table_len s1 <? max_entries s then
        let s2 := set_entries (<[r := Dedup_Cancelled a d (now + ttl s)]> (entries s1)) s1 in
        cancel r a d now s = (Ok tt, s2) /\ table_inv s2 /\ slack s2 = slack s1
      else cancel r a d now s = (Ok tt, s1)
  end.
Proof.
  intros Hinv. destruct (expire_table now s Hinv) as (s1 & E & Hinv1 & Hs1 & (C1 & C2 & C3 & C4 & C5) & Hl).
  exists s1. split; [done|]. split; [done|]. rewrite <- Hl. unfold cancel.
  rewrite (M_bind_step _ _ _ _ _ E). mrun. unfold id.
  destruct (entries s1 !! r) as [st|] eqn:Hr.
  - destruct (same_target st a d); mrun; [by destruct st | eauto].
  - rewrite C1. destruct (table_len s1 <? max_entries s) eqn:Hlt; mrun; [|done]. zbool.
    destruct Hinv1 as [Hd1 Ht1]. rewrite C3.
    destruct (dedup_insert_new s1 r (Dedup_Cancelled a d (now + ttl s)) Hd1 Hr) as [Hd2 Hsl];
      [lia|done|done|].
    split_and!; [done| |done]. split; [done|].
    by apply (token_inv_overwrite s1 _ r (Dedup_Cancelled a d (now + ttl s))).
Qed.

(** ** Invariants of runs *)

(** What a step may change of the configuration: nothing. *)
Definition same_limits (s s' : DedupTable) : Prop :=
  max_entries s' = max_entries s /\ max_bytes s' = max_bytes s /\ ttl s' = ttl s.

Definition releases (o : op) : bool :=
  match o with Op_release_redirect _ _ _ => true | _ => false end.

Lemma step_inv s o :
  table_inv s -> 0 <= max_bytes s ->
  table_inv (step s o) /\ same_limits s (step s o) /\
  (releases o = false -> slack (step s o) <= slack s).
Proof.
  intros Hinv Hmax. destruct o as [r a d now|r a d|r a d now|m now|now|]; cbn [step releases].
  - destruct (begin_spec r a d now s Hinv) as (s1 & E & Hb).
    destruct (expire_table now s Hinv) as (s1' & E' & Hi1 & Hs1 & (C1 & C2 & C3 & _) & _).
    assert (s1' = s1) as -> by congruence.
    assert (Hdone : table_inv s1 /\ same_limits s s1 /\ (false = false -> slack s1 <= slack s))
      by (split_and!; [done|done|lia]).
    destruct (live now (entries s !! r)) as [st|].
    + destruct (same_target st a d); by rewrite Hb.
    + destruct (max_entries s <=? table_len s1); [by rewrite Hb|].
      destruct Hb as (s2 & -> & Hi2 & Hs2 & _ & _ & _ & D1 & D2 & D3). split_and!; [done|done|cbn; lia].
  - destruct (release_redirect_spec r a d s Hinv) as [[x ->]|(ret & ex & p & _ & -> & Hi & _)]; done.
  - destruct (cancel_spec r a d now s Hinv) as (s1 & E & Hi1 & Hc).
    destruct (expire_table now s Hinv) as (s1' & E' & _ & Hs1 & (C1 & C2 & C3 & _) & _).
    assert (s1' = s1) as -> by congruence.
    assert (Hdone : table_inv s1 /\ same_limits s s1 /\ (false = false -> slack s1 <= slack s))
      by (split_and!; [done|done|lia]).
    destruct (live now (entries s !! r)) as [st|].
    + destruct (same_target st a d); [|by destruct Hc as [e ->]].
      destruct st; rewrite Hc; try done.
      destruct Hdone as ([[] []] & Hlim & Hsl). split_and!; done.
    + destruct (table_len s1 <? max_entries s); [|by rewrite Hc].
      destruct Hc as (-> & Hi2 & Hs2). split_and!; [done|done|]. cbn [snd]. intros _. lia.
  - pose proof (complete_spec m now s Hinv) as Hc.
    assert (Hdone : table_inv s /\ same_limits s s /\ (false = false -> slack s <= slack s)) by done.
    destruct (entries s !! request m) as [st|]; [|by destruct Hc as [e ->]].
    destruct (finishable st && same_target st (action m) (domain m)); [|by destruct Hc as [e ->]].
    destruct (payload_bytes 0 (payload m)); [|by destruct Hc as [e ->]].
    destruct Hc as (s' & -> & Hi & Hs & D1 & D2 & D3 & _). split_and!; [done|done|cbn; lia].
  - destruct (expire_table now s Hinv) as (s1 & -> & Hi1 & Hs1 & (C1 & C2 & C3 & _) & _).
    split_and!; [done|done|cbn; lia].
  - destruct Hinv as [[] []]. split_and!; cbn.
    + split; split; cbn; try done; try lia.
      unfold table_len. cbn [entries set_retained set_entries]. rewrite map_size_empty. lia.
    + done.
    + intros _. change (0 - held ∅ <= slack s). rewrite held_empty. lia.
Qed.

Lemma run_inv ops s :
  table_inv s -> 0 <= max_bytes s ->
  table_inv (run ops s) /\ same_limits s (run ops s) /\
  (forallb (fun o => negb (releases o)) ops = true -> slack (run ops s) <= slack s).
Proof.
  revert s. induction ops as [|o ops IH]; intros s Hinv Hmax; [split_and!; [done|done|cbn; lia]|].
  cbn [run foldl forallb]. destruct (step_inv s o Hinv Hmax) as (H1 & (L1 & L2 & L3) & H3).
  destruct (IH (step s o) H1) as (H4 & (L4 & L5 & L6) & H6); [by rewrite L2|].
  split_and!; [done|unfold same_limits; unfold run in L4, L5, L6; rewrite L4, L5, L6; done|]. intros [Ho Hops]%andb_true_iff.
  apply negb_true_iff in Ho. specialize (H3 Ho). specialize (H6 Hops). unfold run in H6. lia.
Qed.

Lemma table_new_inv e b t : 0 <= b -> table_inv (DedupTable_new e b t).
Proof.
  intros Hb. split; split; cbn; try done.
  unfold table_len. cbn. rewrite map_size_empty. lia.
Qed.

(** ** What keeps an entry *)

Definition is_moved (st : DedupState) : bool :=
  match st with Dedup_Completed _ _ (Some (Msg_Moved, _)) _ _ => true | _ => false end.

(** The operations that leave the entry [st] of request [r] in place. *)
Definition keeps (r : RequestId) (st : DedupState) (o : op) : bool :=
  match o with
  | Op_begin _ _ _ now | Op_cancel _ _ _ now | Op_expire now => negb (is_expired now st)
  | Op_release_redirect r' _ _ => negb (bool_decide (r = r') && is_moved st)
  | Op_complete m _ => negb (bool_decide (r = request m) && finishable st)
  | Op_clear => false
  end.

(** The cancellations of a running request. *)
Definition cancels (r : RequestId) (a : ActionId) (d : DomainId) (o : op) : bool :=
  match o with
  | Op_cancel r' a' d' _ => bool_decide (r = r') && (a =? a') && (d =? d')
  | _ => false
  end.

Lemma live_kept now st : is_expired now st = false -> live now (Some st) = Some st.
Proof. cbn. by intros ->. Qed.

Lemma step_keeps s o r st :
  table_inv s -> entries s !! r = Some st -> keeps r st o = true -> entries (step s o) !! r = Some st.
Proof.
  intros Hinv Hr Hk. destruct o as [r' a d now|r' a d|r' a d now|m now|now|]; cbn [step keeps] in *;
    try (apply negb_true_iff in Hk; pose proof (live_kept now st) as Hlive); try done.
  - specialize (Hlive Hk). destruct (begin_spec r' a d now s Hinv) as (s1 & E & Hb).
    destruct (expire_table now s Hinv) as (s1' & E' & _ & _ & _ & Hl).
    assert (s1' = s1) as -> by congruence. assert (Hr1 : entries s1 !! r = Some st) by (by rewrite Hl, Hr).
    destruct (decide (r' = r)) as [->|Hne].
    + rewrite Hr, Hlive in Hb. destruct (same_target st a d); by rewrite Hb.
    + destruct (live now (entries s !! r')) as [st'|]; [destruct (same_target st' a d); by rewrite Hb|].
      destruct (max_entries s <=? table_len s1); [by rewrite Hb|].
      destruct Hb as (s2 & -> & _ & _ & He & _). cbn. by rewrite He, lookup_insert_ne.
  - destruct (release_redirect_spec r' a d s Hinv) as [[x ->]|(ret & ex & p & Hp & -> & _)]; [done|].
    cbn. destruct (decide (r = r')) as [<-|Hne]; [|by rewrite lookup_delete_ne].
    rewrite Hr in Hp. injection Hp as ->. by rewrite bool_decide_eq_true_2 in Hk.
  - specialize (Hlive Hk). destruct (cancel_spec r' a d now s Hinv) as (s1 & E & _ & Hc).
    destruct (expire_table now s Hinv) as (s1' & E' & _ & _ & _ & Hl).
    assert (s1' = s1) as -> by congruence. assert (Hr1 : entries s1 !! r = Some st) by (by rewrite Hl, Hr).
    destruct (live now (entries s !! r')) as [st'|] eqn:Hst'.
    + destruct (same_target st' a d); [destruct st'; by rewrite Hc|by destruct Hc as [e ->]].
    + destruct (table_len s1 <? max_entries s); [|by rewrite Hc]. destruct Hc as (-> & _).
      destruct (decide (r' = r)) as [->|Hne]; [|cbn; by rewrite lookup_insert_ne].
      rewrite Hr in Hst'. congruence.
  - pose proof (complete_spec m now s Hinv) as Hc.
    destruct (entries s !! request m) as [st'|] eqn:Hm; [|by destruct Hc as [e ->]].
    destruct (finishable st' && _) eqn:Hf; [|by destruct Hc as [e ->]].
    destruct (payload_bytes 0 (payload m)); [|by destruct Hc as [e ->]].
    destruct Hc as (s' & -> & _ & _ & _ & _ & _ & _ & _ & He). cbn. rewrite He.
    destruct (decide (r = request m)) as [->|Hne]; [|by rewrite lookup_insert_ne].
    rewrite Hm in Hr. injection Hr as ->. rewrite bool_decide_eq_true_2 in Hk by done.
    apply andb_true_iff in Hf as [Hf _]. by rewrite Hf in Hk.
  - specialize (Hlive Hk). destruct (expire_table now s Hinv) as (s1 & -> & _ & _ & _ & Hl).
    cbn. by rewrite Hl, Hr.
Qed.

Lemma run_keeps ops s r st :
  table_inv s -> 0 <= max_bytes s -> entries s !! r = Some st ->
  forallb (keeps r st) ops = true -> entries (run ops s) !! r = Some st.
Proof.
  revert s. induction ops as [|o ops IH]; intros s Hinv Hmax Hr Hk; [done|].
  cbn [forallb] in Hk. apply andb_true_iff in Hk as [Ho Hops].
  destruct (step_inv s o Hinv Hmax) as (H1 & (_ & L2 & _) & _).
  apply IH; [done|by rewrite L2|by apply step_keeps|done].
Qed.

Lemma same_target_running a d t a' d' :
  same_target (Dedup_Running a d t) a' d' = (a =? a') && (d =? d').
Proof. done. Qed.

(** The cancellation flag of a running request is set by the cancellations of
    that request and by nothing else. *)
Lemma step_token s o r a d t b :
  table_inv s -> entries s !! r = Some (Dedup_Running a d t) -> tokens s !! t = Some b ->
  keeps r (Dedup_Running a d t) o = true ->
  tokens (step s o) !! t = Some (b || cancels r a d o).
Proof.
  intros Hinv Hr Ht Hk.
  assert (Hlt : t < next_token s) by (destruct Hinv as [_ [Hb _]]; eauto).
  assert (Hsame : tokens s !! t = Some (b || false)) by (by rewrite orb_false_r).
  destruct o as [r' a' d' now|r' a' d'|r' a' d' now|m now|now|]; cbn [step cancels]; try done.
  - destruct (begin_spec r' a' d' now s Hinv) as (s1 & E & Hb).
    destruct (expire_table now s Hinv) as (s1' & E' & _ & _ & (_ & _ & _ & C4 & _) & _).
    assert (s1' = s1) as -> by congruence.
    destruct (live now (entries s !! r')) as [st'|];
      [destruct (same_target st' a' d'); rewrite Hb; cbn; by rewrite C4|].
    destruct (max_entries s <=? table_len s1); [rewrite Hb; cbn; by rewrite C4|].
    destruct Hb as (s2 & -> & _ & _ & _ & Htok & _). cbn. rewrite Htok, lookup_insert_ne by lia. done.
  - by destruct (release_redirect_spec r' a' d' s Hinv) as [[x ->]|(ret & ex & p & _ & -> & _)].
  - destruct (cancel_spec r' a' d' now s Hinv) as (s1 & E & _ & Hc).
    destruct (expire_table now s Hinv) as (s1' & E' & _ & _ & (_ & _ & _ & C4 & _) & _).
    assert (s1' = s1) as -> by congruence.
    destruct (decide (r = r')) as [<-|Hne].
    + rewrite bool_decide_eq_true_2 by done. rewrite Hr in Hc. cbn [live is_expired] in Hc.
      rewrite same_target_running in Hc. cbn [andb].
      destruct ((a =? a') && (d =? d')); [|destruct Hc as [e ->]; cbn; by rewrite C4].
      rewrite Hc. cbn. by rewrite lookup_insert_eq, orb_true_r.
    + rewrite bool_decide_eq_false_2 by done. cbn [andb].
      destruct (live now (entries s !! r')) as [st'|] eqn:Hst'.
      * destruct (same_target st' a' d'); [|destruct Hc as [e ->]; cbn; by rewrite C4].
        destruct st' as [a2 d2 t'| |]; rewrite Hc; cbn; rewrite ?C4; try done.
        rewrite lookup_insert_ne; [done|]. intros ->. apply live_running in Hst'.
        destruct Hinv as [_ [_ Hi]]. eauto.
      * destruct (table_len s1 <? max_entries s);
          [destruct Hc as (-> & _)|rewrite Hc]; cbn; by rewrite C4.
  - pose proof (complete_spec m now s Hinv) as Hc.
    destruct (entries s !! request m) as [st'|]; [|by destruct Hc as [e ->]].
    destruct (finishable st' && _); [|by destruct Hc as [e ->]].
    destruct (payload_bytes 0 (payload m)); [|by destruct Hc as [e ->]].
    destruct Hc as (s' & -> & _ & _ & _ & _ & _ & Htok & _). cbn. by rewrite Htok.
  - destruct (expire_table now s Hinv) as (s1 & -> & _ & _ & (_ & _ & _ & C4 & _) & _).
    cbn. by rewrite C4.
Qed.

Lemma run_token ops s r a d t b :
  table_inv s -> 0 <= max_bytes s -> entries s !! r = Some (Dedup_Running a d t) ->
  tokens s !! t = Some b -> forallb (keeps r (Dedup_Running a d t)) ops = true ->
  tokens (run ops s) !! t = Some (b || existsb (cancels r a d) ops).
Proof.
  revert s b. induction ops as [|o ops IH]; intros s b Hinv Hmax Hr Ht Hk.
  { cbn. by rewrite orb_false_r. }
  cbn [forallb existsb] in *. apply andb_true_iff in Hk as [Ho Hops].
  destruct (step_inv s o Hinv Hmax) as (H1 & (_ & L2 & _) & _).
  rewrite orb_assoc. apply (IH (step s o)); [done|by rewrite L2|by apply step_keeps|by apply step_token|done].
Qed.

(** What a later [begin] answers about a kept entry. *)
Lemma begin_kept s r a d now st :
  table_inv s -> entries s !! r = Some st -> is_expired now st = false ->
  same_target st a d = true -> (begin r a d now s).1 = Ok (disposition r st).
Proof.
  intros Hinv Hr Hexp Htar. destruct (begin_spec r a d now s Hinv) as (s1 & E & Hb).
  rewrite Hr, (live_kept _ _ Hexp), Htar in Hb. by rewrite Hb.
Qed.

Lemma begin_new_state r a d now s t s1 :
  table_inv s -> begin r a d now s = (Ok (Disp_New t), s1) ->
  table_inv s1 /\ entries s1 !! r = Some (Dedup_Running a d t) /\ tokens s1 !! t = Some false /\
  max_bytes s1 = max_bytes s.
Proof.
  intros Hinv H. destruct (begin_spec r a d now s Hinv) as (s0 & E & Hb).
  destruct (live now (entries s !! r)) as [st|].
  - destruct (same_target st a d); rewrite Hb in H; [|done].
    injection H as H _. by destruct st as [| ? ? [[[] ?]|] ? ?|].
  - destruct (max_entries s <=? table_len s0); [by rewrite Hb in H|].
    destruct Hb as (s2 & Hb & Hi & _ & He & Ht & _ & _ & Hm & _). rewrite Hb in H.
    injection H as <- <-. rewrite He, Ht, !lookup_insert_eq. done.
Qed.

(** ** Properties *)

(** C17: The table stays within its limits.  From a new table, any sequence of
    operations, failed ones included, leaves at most [max_entries] entries and
    accounts at most [max_bytes] bytes, which cover every payload stored; as
    long as no redirect is released the account is exactly what is stored. *)
Theorem table_bounded e b t ops :
  0 <= e -> 0 <= b ->
  let s := run ops (DedupTable_new e b t) in
  table_len s <= e /\ 0 <= held (entries s) <= retained_bytes s /\ retained_bytes s <= b /\
  (forallb (fun o => negb (releases o)) ops = true -> retained_bytes s = held (entries s)).
Proof.
  intros He Hb s. pose proof (table_new_inv e b t Hb) as Hinv.
  destruct (run_inv ops _ Hinv Hb) as ([[Hsz Hsl Hbd Hent] _] & (L1 & L2 & _) & Hs). fold s in Hsz, Hsl, Hbd, Hent, L1, L2, Hs.
  rewrite L1 in Hsz. rewrite L2 in Hbd. cbn in Hsz, Hbd.
  pose proof (held_nonneg _ Hent). unfold slack in *.
  split_and!; try lia. intros Hr. specialize (Hs Hr).
  change (retained_bytes s - held (entries s) <= 0 - held ∅) in Hs. rewrite held_empty in Hs. lia.
Qed.

(** A request of the examples: it is completed with two bytes. *)
Definition ex_request : RequestId := mkRequestId 1 1.
Definition ex_message (k : RuntimeMessageKind) (p : Segments) : RuntimeMessage :=
  mkRuntimeMessage k ex_request 2 3 0 p.
Definition ex_ops : list op :=
  [Op_begin ex_request 2 3 0; Op_complete (ex_message Msg_Success [[Byte.x01; Byte.x02]]) 0].

Lemma table_bounded_witness :
  let s := run ex_ops (DedupTable_new 4 10 5) in
  retained_bytes s = 2 /\ retained_bytes s = held (entries s).
Proof. split; [reflexivity|]. apply (table_bounded 4 10 5 ex_ops); [lia|lia|reflexivity]. Defined.



(** The time an operation is given. *)
Definition before (limit : Instant) (o : op) : bool :=
  match o with
  | Op_begin _ _ _ now | Op_cancel _ _ _ now | Op_expire now => now <? limit
  | Op_clear => false
  | _ => true
  end.

(** The answer owed to the duplicates of a completed request. *)
Definition replay_of (s : DedupTable) (m : RuntimeMessage) (n : Z) : DedupDisposition :=
  if fits s n
  then Disp_Replay (mkRuntimeMessage (msg_kind m) (request m) (action m) (domain m) 0 (payload m))
  else Disp_Unavailable
         (mkRuntimeMessage Msg_DuplicateResultUnavailable (request m) (action m) (domain m) 0 []).

(** A completed request is never executed again within its time to live.
    Once a request has been completed with anything but a redirect, a
    repetition is answered with exactly the response it was completed with, or
    with the marker that it was not retained when it did not fit in the byte
    limit, whatever other calls (clearing apart) are made in between. *)
Theorem completed_request_replayed e b ttl' ops0 m now s1 ops now' n :
  0 <= b -> msg_kind m <> Msg_Moved ->
  let s := run ops0 (DedupTable_new e b ttl') in
  complete m now s = (Ok tt, s1) -> payload_bytes 0 (payload m) = Some n ->
  forallb (before (now + ttl')) ops = true -> now' < now + ttl' ->
  (begin (request m) (action m) (domain m) now' (run ops s1)).1 = Ok (replay_of s m n).
Proof.
  intros Hb Hkind s Hc Hn Hops Hnow'.
  destruct (run_inv ops0 _ (table_new_inv e b ttl' Hb) Hb) as (Hinv & (_ & Lb & Lt) & _).
  fold s in Hinv, Lb, Lt. pose proof (complete_spec m now s Hinv) as Hs.
  destruct (entries s !! request m) as [st|]; [|destruct Hs as [? Hs]; congruence].
  destruct (finishable st && _); [|destruct Hs as [? Hs]; congruence].
  rewrite Hn in Hs. destruct Hs as (s' & Hs & Hinv1 & _ & _ & Hm & _ & _ & _ & He).
  assert (s' = s1) as -> by congruence.
  set (entry := completed_entry s m n now) in *.
  assert (Hr : entries s1 !! request m = Some entry) by (by rewrite He, lookup_insert_eq).
  assert (Hexp : forall u, u < now + ttl' -> is_expired u entry = false)
    by (intros u Hu; cbn; rewrite Lt; apply Z.leb_gt, Hu).
  assert (Hmv : is_moved entry = false)
    by (unfold entry, completed_entry; destruct (fits s n); [by destruct (msg_kind m)|done]).
  assert (Hk : forallb (keeps (request m) entry) ops = true).
  { apply forallb_forall. intros o Ho. rewrite forallb_forall in Hops. specialize (Hops o Ho).
    destruct o; cbn [keeps before] in *; zbool; rewrite ?Hmv, ?Hexp by done; cbn;
      rewrite ?andb_false_r; done. }
  assert (Hmax : 0 <= max_bytes s1) by (rewrite Hm, Lb; done).
  destruct (run_inv ops s1 Hinv1 Hmax) as (Hinv2 & _).
  rewrite (begin_kept _ _ _ _ _ entry); [|done|by apply run_keeps|by apply Hexp|].
  - unfold entry, completed_entry, replay_of. destruct (fits s n); [|done]. cbn.
    by destruct (msg_kind m).
  - unfold same_target. cbn. by rewrite !Z.eqb_refl.
Qed.

Lemma completed_request_replayed_witness :
  let s1 := run ex_ops (DedupTable_new 4 10 5) in
  (begin ex_request 2 3 4 (run [Op_cancel ex_request 2 3 1; Op_expire 2] s1)).1
    = Ok (Disp_Replay (ex_message Msg_Success [[Byte.x01; Byte.x02]])).
Proof.
  apply (completed_request_replayed 4 10 5 [Op_begin ex_request 2 3 0]
           (ex_message Msg_Success [[Byte.x01; Byte.x02]]) 0 (run ex_ops (DedupTable_new 4 10 5))
           [Op_cancel ex_request 2 3 1; Op_expire 2] 4 2); try done; lia.
Defined.

(** ** Released redirects *)

(** A request that is executed, answered by a redirect, and released. *)
Definition redirect_cycle (r : RequestId) (a : ActionId) (d : DomainId) (p : Segments) : list op :=
  [Op_begin r a d 0; Op_complete (mkRuntimeMessage Msg_Moved r a d 0 p) 0; Op_release_redirect r a d].

(** A table with no entry, as one cycle finds and leaves it. *)
Definition idle_table (e b t n : Z) (s : DedupTable) : Prop :=
  entries s = ∅ /\ max_entries s = e /\ max_bytes s = b /\ ttl s = t /\ retained_bytes s = n /\ table_inv s.

Lemma redirect_cycle_step e b t k r a d p n s :
  0 < e -> b <= usize_max -> payload_bytes 0 p = Some n -> k + n <= b ->
  idle_table e b t k s -> idle_table e b t (k + n) (run (redirect_cycle r a d p) s).
Proof.
  intros He Hb Hn Hk (Hent & Hme & Hmb & Ht & Hret & Hinv). unfold redirect_cycle. cbn [run foldl step].
  destruct (begin_spec r a d 0 s Hinv) as (s0 & E & Hbeg).
  destruct (expire_table 0 s Hinv) as (s0' & E' & Hi0 & Hs0 & (C1 & C2 & C3 & _) & Hl).
  assert (s0' = s0) as -> by congruence.
  assert (He0 : entries s0 = ∅) by (apply map_eq; intros i; by rewrite Hl, Hent, lookup_empty).
  assert (Hlen0 : table_len s0 = 0) by (unfold table_len; by rewrite He0, map_size_empty).
  rewrite Hent, lookup_empty in Hbeg. cbn [live] in Hbeg.
  rewrite Hlen0, Hme, (proj2 (Z.leb_gt _ _) He) in Hbeg.
  destruct Hbeg as (s1 & -> & Hi1 & Hs1 & Hent1 & _ & _ & D1 & D2 & D3). cbn [snd].
  set (m := mkRuntimeMessage Msg_Moved r a d 0 p).
  assert (Hr1 : retained_bytes s1 = k).
  { unfold slack in Hs1. rewrite Hent1, held_insert, He0, Hent, held_empty in Hs1
      by (by rewrite He0). cbn [retained_of] in Hs1. lia. }
  pose proof (complete_spec m 0 s1 Hi1) as Hc.
  cbn [request m] in Hc. rewrite Hent1, lookup_insert_eq in Hc. cbn [finishable andb] in Hc.
  rewrite same_target_running in Hc. cbn [action domain m payload] in Hc.
  rewrite !Z.eqb_refl, Hn in Hc. cbn [andb] in Hc.
  destruct Hc as (s2 & -> & Hi2 & _ & G1 & G2 & G3 & _ & G4 & Hent2). cbn [snd].
  assert (Hfit : fits s1 n = true).
  { unfold fits, checked_add. rewrite Hr1, (proj2 (Z.leb_le _ _)) by lia.
    apply Z.leb_le. lia. }
  unfold completed_entry in Hent2. rewrite Hfit in G4, Hent2. cbn [msg_kind payload action domain m] in Hent2.
  rewrite He0 in Hent2.
  destruct (release_redirect_spec r a d s2 Hi2) as [[x Hrel]|(ret & ex & q & _ & -> & Hi3 & _)].
  - exfalso. unfold release_redirect in Hrel. mrun_in Hrel. unfold id in Hrel.
    rewrite Hent2, lookup_insert_eq, !Z.eqb_refl in Hrel. cbn in Hrel.
    injection Hrel as _ Hrel. apply (f_equal entries) in Hrel. cbn in Hrel.
    apply (f_equal (lookup r)) in Hrel. rewrite Hent2, lookup_delete_eq, lookup_insert_eq in Hrel. done.
  - unfold idle_table. cbn [snd set_entries entries max_entries max_bytes ttl retained_bytes].
    split_and!; try congruence; try done; try lia.
    rewrite Hent2, delete_insert_eq, delete_insert_eq. apply delete_empty.
Qed.

(** Releasing a redirect does not give its bytes back.  The [k]-th
    repetition of a request that is answered by a redirect of [n] bytes and
    released leaves a table without entries whose account stands at [k * n],
    so that a limit of [b] bytes is used up after [b / n] redirects although
    nothing is stored. *)
Theorem released_redirects_leak e b t r a d p n k :
  0 < e -> 0 <= b <= usize_max -> payload_bytes 0 p = Some n -> Z.of_nat k * n <= b ->
  let s := run (concat (replicate k (redirect_cycle r a d p))) (DedupTable_new e b t) in
  entries s = ∅ /\ held (entries s) = 0 /\ retained_bytes s = Z.of_nat k * n.
Proof.
  intros He Hb Hn Hk s. assert (Hnn : 0 <= n) by (by apply (payload_bytes_nonneg _ _ 0) in Hn).
  assert (Hgo : forall k j s0, j + Z.of_nat k * n <= b -> idle_table e b t j s0 ->
      idle_table e b t (j + Z.of_nat k * n) (run (concat (replicate k (redirect_cycle r a d p))) s0)).
  { intros k'. induction k' as [|k' IH]; intros j s0 Hj Hs0.
    - cbn [replicate concat run foldl]. by rewrite Z.mul_0_l, Z.add_0_r.
    - cbn [replicate concat]. unfold run. rewrite foldl_app. fold (run (redirect_cycle r a d p) s0).
      replace (j + Z.of_nat (S k') * n) with ((j + n) + Z.of_nat k' * n) in * by lia.
      apply IH; [done|]. apply redirect_cycle_step; try done; lia. }
  destruct (Hgo k 0 (DedupTable_new e b t)) as (Hent & _ & _ & _ & Hret & _); [lia| |].
  - split_and!; try done. apply table_new_inv. lia.
  - fold s in Hent, Hret. rewrite Hent, held_empty. split_and!; [done|done|lia].
Qed.

Lemma released_redirects_leak_witness :
  let p := [replicate 32 Byte.x00; replicate 32 Byte.x00] in
  let s := run (concat (replicate 3 (redirect_cycle ex_request 2 3 p))) (DedupTable_new 4 200 5) in
  entries s = ∅ /\ held (entries s) = 0 /\ retained_bytes s = 192.
Proof.
  apply (released_redirects_leak 4 200 5 ex_request 2 3
           [replicate 32 Byte.x00; replicate 32 Byte.x00] 64 3); try done; zunfold; lia.
Defined.
