(* ===== verification/Action.v ===== *)
(** * Action: registered actions and the values they exchange

    Models [crates/hataori-runtime/src/action.rs]: the [WireValue] codecs, the
    type-erased handlers with their panic barrier, the registry and its
    fingerprint.  User code (handlers and the codecs of user types) returns a
    [result (exn ActionError)]: a value, an [ActionError] or a panic.

    [Box<dyn Any + Send>] is a value packed with the code of its type; the
    codes and the types they stand for are the [AnyTypes] of the program. *)
From Stdlib Require Import Strings.Byte Eqdep_dec.
From stdpp Require Import sorting.
From S2P Require Import Prelude Text Protocol Error RuntimeWire.

(** ** Values *)

Abbreviation Handled := (result (exn ActionError)) (only parsing).

(** The trait [WireValue]. *)
Class WireValue (T : Type) : Type := {
  SCHEMA_ID : Z;
  wire_encode : T -> Handled Segments;
  wire_decode : Segments -> Handled T;
}.

(** What the runtime relies on: a value survives its encoding. *)
Class WireRoundTrip (T : Type) `{WireValue T} : Type := {
  wire_wf : T -> Prop;
  wire_round_trip : forall v s, wire_wf v -> wire_encode v = Ok s -> wire_decode s = Ok v;
}.

Definition codec_error {A} (message : string) : Handled A :=
  Err (Raise (ActionError_codec (lit message))).

Definition one_segment (segments : Segments) (name : string) : Handled (list byte) :=
  if negb (len segments =? 1)
  then Err (Raise (ActionError_codec (lit name ++ lit " requires exactly one segment")))
  else match last segments with Some s => Ok s | None => Err Panic end.

(** The integers, byte vectors and strings of the source, told apart by their types. *)
Inductive u64 : Type := U64 (z : Z).
Inductive bytes_value : Type := Bytes (l : list byte).
Inductive string_value : Type := Str (t : text).

#[export] Instance wire_unit : WireValue unit := {|
  SCHEMA_ID := 1;
  wire_encode := fun _ => Ok [];
  wire_decode := fun segments =>
    match segments with [] => Ok tt | _ => codec_error "unit value has payload" end;
|}.

#[export] Instance wire_u64 : WireValue u64 := {|
  SCHEMA_ID := 2;
  wire_encode := fun '(U64 z) => Ok [to_le_bytes 8 z];
  wire_decode := fun segments =>
    b ← one_segment segments "u64";
    if len b =? 8 then Ok (U64 (from_le_bytes b))
    else codec_error "u64 payload must contain 8 bytes";
|}.

#[export] Instance wire_bytes : WireValue bytes_value := {|
  SCHEMA_ID := 3;
  wire_encode := fun '(Bytes l) => Ok [l];
  wire_decode := fun segments => b ← one_segment segments "byte vector"; Ok (Bytes b);
|}.

#[export] Instance wire_string : WireValue string_value := {|
  SCHEMA_ID := 4;
  wire_encode := fun '(Str t) => Ok [t];
  wire_decode := fun segments =>
    b ← one_segment segments "string";
    if utf8_valid b then Ok (Str b) else codec_error "string payload is not UTF-8";
|}.

(** ** Dynamic values *)

Class AnyTypes : Type := {
  ty : Type;
  ty_eq_dec :: EqDecision ty;
  sort_of : ty -> Type;
}.

(** [Box<dyn Any + Send>]. *)
Inductive any `{AnyTypes} : Type := Any (t : ty) (v : sort_of t).

(** [downcast::<T>]. *)
Definition downcast `{AnyTypes} (t : ty) (x : any) : option (sort_of t) :=
  match x with
  | Any t' v => match decide (t' = t) with left e => Some (eq_rect t' sort_of v t e) | right _ => None end
  end.

Lemma downcast_same `{AnyTypes} t v : downcast t (Any t v) = Some v.
Proof.
  unfold downcast. destruct (decide (t = t)) as [e|]; [|done].
  by rewrite (UIP_dec ty_eq_dec e eq_refl).
Qed.

Lemma downcast_other `{AnyTypes} t t' v : t' <> t -> downcast t (Any t' v) = None.
Proof. intros Hne. unfold downcast. by destruct (decide (t' = t)). Qed.

(** ** Actions and handlers *)

(** The trait [Action]: the type, its identifier and its output. *)
Record Action `{AnyTypes} : Type := mkAction {
  ID : Z;
  action_ty : ty;
  Output : ty;
  action_wire : WireValue (sort_of action_ty);
  output_wire : WireValue (sort_of Output);
}.
Arguments mkAction {_} _ _ _ _ _.
#[export] Existing Instances action_wire output_wire.

Inductive ActionValue `{AnyTypes} : Type :=
| Encoded (segments : Segments)
| Typed (value : any).

Record RegisteredAction `{AnyTypes} : Type := mkRegisteredAction {
  handler : Segments -> Handled Segments;
  local_handler : option (any -> Handled any);
}.
Arguments mkRegisteredAction {_} _ _.

Section Handlers.
Context `{AnyTypes}.

Definition RegisteredAction_new (handler : Segments -> Handled Segments) : RegisteredAction :=
  mkRegisteredAction handler None.

(** [catch_unwind]. *)
Definition catch_panic {A} (r : Handled A) : result ActionError A :=
  match r with
  | Ok a => Ok a
  | Err (Raise e) => Err e
  | Err Panic => Err ActionError_Panic
  end.

Definition execute (h : RegisteredAction) (input : ActionValue) : result ActionError ActionValue :=
  catch_panic
    (match input with
     | Encoded segments => Encoded <$> handler h segments
     | Typed value =>
         f ← ok_or (local_handler h)
               (Raise (ActionError_codec (lit "action has no typed local handler")));
         Typed <$> f value
     end).

Definition execute_encoded (h : RegisteredAction) (input : Segments) : result ActionError Segments :=
  output ← execute h (Encoded input);
  match output with
  | Encoded output => Ok output
  | Typed _ => Err (ActionError_codec (lit "encoded action returned typed output"))
  end.

(** The two closures [register] builds around a typed handler. *)
Definition remote_handler (A : Action)
    (f : sort_of (action_ty A) -> Handled (sort_of (Output A))) : Segments -> Handled Segments :=
  fun segments => input ← wire_decode segments; output ← f input; wire_encode output.

Definition typed_handler (A : Action)
    (f : sort_of (action_ty A) -> Handled (sort_of (Output A))) : any -> Handled any :=
  fun value =>
    input ← ok_or (downcast (action_ty A) value)
              (Raise (ActionError_codec (lit "typed action input mismatch")));
    output ← f input;
    Ok (Any (Output A) output).

(** ** The registry *)

Record ActionRegistry : Type := mkActionRegistry {
  entries : gmap ActionId RegisteredAction;
  schemas : gmap ActionId (Z * Z);
}.

Definition ActionRegistry_default : ActionRegistry := mkActionRegistry ∅ ∅.

Definition add_entry (id : ActionId) (h : RegisteredAction) (input output : Z) (r : ActionRegistry) :
    ActionRegistry :=
  mkActionRegistry (<[id := h]> (entries r)) (<[id := (input, output)]> (schemas r)).

Definition register (A : Action) (f : sort_of (action_ty A) -> Handled (sort_of (Output A))) :
    M ActionRegistry RuntimeError unit :=
  id ← lift (map_err (fun _ => RuntimeError_InvalidActionId) (ActionId_new (ID A)));
  let input := @SCHEMA_ID _ (action_wire A) in
  let output := @SCHEMA_ID _ (output_wire A) in
  if (input =? 0) || (output =? 0) then raise RuntimeError_InvalidSchema
  else
  known ← gets (fun r => bool_decide (is_Some (entries r !! id)));
  if known : bool then raise (RuntimeError_DuplicateAction id)
  else modify (add_entry id (mkRegisteredAction (remote_handler A f) (Some (typed_handler A f)))
                 input output).

Definition insert_erased (id : ActionId) (input output : Z) (h : RegisteredAction) :
    M ActionRegistry RuntimeError unit :=
  if (input =? 0) || (output =? 0) then raise RuntimeError_InvalidSchema
  else
  known ← gets (fun r => bool_decide (is_Some (entries r !! id)));
  if known : bool then raise (RuntimeError_DuplicateAction id)
  else modify (add_entry id h input output).

Definition get (r : ActionRegistry) (id : ActionId) : option RegisteredAction := entries r !! id.

(** ** The fingerprint *)

Definition SEEDS : list Z :=
  [0xcbf29ce484222325; 0x84222325cbf29ce4; 0x9e3779b97f4a7c15; 0xd6e8feb86659fd93].

Definition hash_byte (hashes : list Z) (b : byte) : list Z :=
  imap (fun index hash =>
          wrapping_mul 64 (Z.lxor hash (wrapping_add 64 (byte_val b) (Z.of_nat index))) 0x100000001b3)
    hashes.

Definition schema_bytes (id : ActionId) (schema : Z * Z) : list byte :=
  to_le_bytes 16 id ++ to_le_bytes 8 schema.1 ++ to_le_bytes 8 schema.2.

(** The iteration order of a [BTreeMap]: ascending keys. *)
Definition btree_keys {A} (m : gmap Z A) : list Z := merge_sort Z.le (elements (dom m)).

Definition schema_stream (m : gmap ActionId (Z * Z)) : list byte :=
  btree_keys m ≫= fun id => match m !! id with Some s => schema_bytes id s | None => [] end.

Definition fingerprint (r : ActionRegistry) : list byte :=
  foldl hash_byte SEEDS (schema_stream (schemas r)) ≫= to_le_bytes 8.
End Handlers.

(** ** Codecs *)

Lemma one_segment_ok segments name b : one_segment segments name = Ok b <-> segments = [b].
Proof.
  unfold one_segment. destruct segments as [|x [|y l]]; cbn.
  - split; done.
  - split; [by intros [= ->]|by intros [= ->]].
  - rewrite (proj2 (Z.eqb_neq _ _)) by (rewrite !len_cons; pose proof (len_nonneg l); lia).
    cbn. split; done.
Qed.

Lemma unit_codec s (v : unit) : wire_decode s = Ok v <-> wire_encode v = Ok s.
Proof. destruct v. destruct s as [|? ?]; cbn; split; done. Qed.

Lemma u64_codec s z : wire_decode s = Ok (U64 z) <-> in_u 64 z /\ wire_encode (U64 z) = Ok s.
Proof.
  cbn [wire_decode wire_encode wire_u64]. split.
  - intros H. bind_inv H. apply one_segment_ok in E as ->.
    destruct (len a =? 8) eqn:El; [|done]. zbool. injection H as <-.
    assert (Hl : length a = 8%nat) by (unfold len in El; lia).
    rewrite to_from_le_bytes' by done. split; [|done].
    pose proof (from_le_bytes_range' 8 a Hl). unfold in_u. cbn in *. lia.
  - intros [Hz Hs]. assert (s = [to_le_bytes 8 z]) as -> by congruence.
    rewrite (proj2 (one_segment_ok _ _ _) eq_refl). cbn [mbind result_bind].
    rewrite len_to_le_bytes. cbn [Z.eqb Pos.eqb Z.of_nat Pos.of_succ_nat Pos.succ].
    by rewrite from_to_le_bytes by apply Hz.
Qed.

Lemma bytes_codec s l : wire_decode s = Ok (Bytes l) <-> wire_encode (Bytes l) = Ok s.
Proof.
  cbn. split.
  - intros H. bind_inv H. apply one_segment_ok in E as ->. by injection H as ->.
  - intros [= <-]. by rewrite (proj2 (one_segment_ok _ _ _) eq_refl).
Qed.

Lemma string_codec s t :
  wire_decode s = Ok (Str t) <-> utf8_valid t = true /\ wire_encode (Str t) = Ok s.
Proof.
  cbn. split.
  - intros H. bind_inv H. apply one_segment_ok in E as ->.
    destruct (utf8_valid a) eqn:Hu; [|done]. by injection H as ->.
  - intros [Hu [= <-]]. rewrite (proj2 (one_segment_ok _ _ _) eq_refl). rcbn. by rewrite Hu.
Qed.

#[export, refine] Instance unit_round_trip : WireRoundTrip unit := {| wire_wf := fun _ => True |}.
Proof. intros v s _. apply unit_codec. Defined.
#[export, refine] Instance u64_round_trip : WireRoundTrip u64 := {| wire_wf := fun '(U64 z) => in_u 64 z |}.
Proof. intros [z] s Hz E. by apply u64_codec. Defined.
#[export, refine] Instance bytes_round_trip : WireRoundTrip bytes_value := {| wire_wf := fun _ => True |}.
Proof. intros [l] s _. apply bytes_codec. Defined.
#[export, refine] Instance string_round_trip : WireRoundTrip string_value :=
  {| wire_wf := fun '(Str t) => utf8_valid t = true |}.
Proof. intros [t] s Ht E. by apply string_codec. Defined.

(** The built-in codecs are exact: [decode] accepts precisely the segments
    [encode] produces, and returns the encoded value; integers are those of 64
    bits, strings those that are UTF-8. *)
Theorem builtin_codecs_exact s :
  (forall v, wire_decode (WireValue := wire_unit) s = Ok v <-> wire_encode (WireValue := wire_unit) v = Ok s) /\
  (forall z, wire_decode (WireValue := wire_u64) s = Ok (U64 z) <->
     in_u 64 z /\ wire_encode (WireValue := wire_u64) (U64 z) = Ok s) /\
  (forall l, wire_decode (WireValue := wire_bytes) s = Ok (Bytes l) <->
     wire_encode (WireValue := wire_bytes) (Bytes l) = Ok s) /\
  (forall t, wire_decode (WireValue := wire_string) s = Ok (Str t) <->
     utf8_valid t = true /\ wire_encode (WireValue := wire_string) (Str t) = Ok s).
Proof.
  split_and!; intros; [apply unit_codec|apply u64_codec|apply bytes_codec|apply string_codec].
Qed.

(** ** Dispatch *)

Section Dispatch.
Context `{AnyTypes}.

(** A call of [register] or of [insert_erased]. *)
Inductive registration : Type :=
| Reg_action (A : Action) (f : sort_of (action_ty A) -> Handled (sort_of (Output A)))
| Reg_erased (id : ActionId) (input output : Z) (h : RegisteredAction).

Definition do_register (g : registration) : M ActionRegistry RuntimeError unit :=
  match g with
  | Reg_action A f => register A f
  | Reg_erased id input output h => insert_erased id input output h
  end.

Definition reg_id (g : registration) : ActionId :=
  match g with Reg_action A _ => ID A | Reg_erased id _ _ _ => id end.
Definition reg_schema (g : registration) : Z * Z :=
  match g with
  | Reg_action A _ => (@SCHEMA_ID _ (action_wire A), @SCHEMA_ID _ (output_wire A))
  | Reg_erased _ input output _ => (input, output)
  end.
Definition reg_handler (g : registration) : RegisteredAction :=
  match g with
  | Reg_action A f => mkRegisteredAction (remote_handler A f) (Some (typed_handler A f))
  | Reg_erased _ _ _ h => h
  end.

(** The outcome of a registration: it adds its entry under a free identifier,
    or changes nothing. *)
Lemma do_register_spec g r :
  (exists e, do_register g r = (Err (Raise e), r)) \/
  (entries r !! reg_id g = None /\
   do_register g r = (Ok tt, add_entry (reg_id g) (reg_handler g) (reg_schema g).1 (reg_schema g).2 r)).
Proof.
  destruct g as [A f|id i o h]; cbn [do_register reg_id reg_schema reg_handler fst snd].
  - unfold register. rewrite M_bind_lift. unfold ActionId_new, nonzero_u128_id.
    destruct (ID A =? 0); [left; eauto|]. cbn [negb map_err].
    destruct (_ || _); [left; eauto|]. rewrite !M_bind_gets.
    destruct (entries r !! ID A) eqn:E; cbn; [left; eauto|right; split_and!; reflexivity].
  - unfold insert_erased. destruct (_ || _); [left; eauto|]. mrun.
    destruct (entries r !! id) eqn:E; cbn; [left; eauto|right; split_and!; reflexivity].
Qed.

Definition register_step (r : ActionRegistry) (g : registration) : ActionRegistry := (do_register g r).2.

Lemma registered_stays gs r id h :
  entries r !! id = Some h -> entries (foldl register_step r gs) !! id = Some h.
Proof.
  revert r. induction gs as [|g gs IH]; intros r Hr; [done|]. cbn [foldl]. apply IH.
  unfold register_step. destruct (do_register_spec g r) as [[e ->]|[Hfree ->]]; [done|].
  cbn. rewrite lookup_insert_ne; [done|]. intros <-. congruence.
Qed.

Lemma execute_typed A f a :
  execute (mkRegisteredAction (remote_handler A f) (Some (typed_handler A f)))
    (Typed (Any (action_ty A) a)) = (fun o => Typed (Any (Output A) o)) <$> catch_panic (f a).
Proof.
  unfold execute, typed_handler. cbn [local_handler ok_or mbind result_bind].
  rewrite downcast_same. cbn. by destruct (f a) as [|[]].
Qed.

Lemma execute_remote A f s a l :
  wire_decode s = Ok a ->
  execute_encoded (mkRegisteredAction (remote_handler A f) l) s =
    o ← catch_panic (f a); catch_panic (wire_encode o).
Proof.
  intros Hd. unfold execute_encoded, execute, remote_handler. cbn [handler]. rewrite Hd. cbn.
  destruct (f a) as [o|[]]; [|done|done]. cbn. by destruct (wire_encode o) as [|[]].
Qed.

(** C36: A registered action answers local and remote calls alike.  Once
    [register] has accepted a handler, no later registration replaces it; a
    typed call returns what the handler returns, an error or
    [ActionError::Panic] when the handler panics; and for codecs that round
    trip, the call that goes through the wire returns the encoding of the same
    outcome, which decodes to the value the typed call returns. *)
Theorem dispatch_transparent A f r r' gs a s
    {LA : WireRoundTrip (sort_of (action_ty A))} {LO : WireRoundTrip (sort_of (Output A))} :
  register A f r = (Ok tt, r') -> wire_wf a -> wire_encode a = Ok s ->
  exists h, get (foldl register_step r' gs) (ID A) = Some h /\
    execute h (Typed (Any (action_ty A) a)) = (fun o => Typed (Any (Output A) o)) <$> catch_panic (f a) /\
    execute_encoded h s = (o ← catch_panic (f a); catch_panic (wire_encode o)) /\
    forall o out, f a = Ok o -> wire_wf o -> execute_encoded h s = Ok out -> wire_decode out = Ok o.
Proof.
  intros Hreg Hwf Henc. destruct (do_register_spec (Reg_action A f) r) as [[e He]|[_ Hok]];
    cbn [do_register reg_id reg_handler reg_schema] in *; [congruence|].
  rewrite Hreg in Hok. injection Hok as ->.
  pose proof (wire_round_trip a s Hwf Henc) as Hdec.
  eexists. split_and!.
  - apply registered_stays. cbn. apply lookup_insert_eq.
  - apply execute_typed.
  - by apply execute_remote.
  - intros o out Hf Ho. rewrite (execute_remote _ _ _ a), Hf by done. cbn.
    destruct (wire_encode o) as [s'|[]] eqn:Eo; [|done|done]. intros [= <-].
    by eapply wire_round_trip.
Qed.
End Dispatch.

(** ** The fingerprint *)

(** One lane of the hash. *)
Definition lane_step (index : nat) (hash : Z) (b : byte) : Z :=
  wrapping_mul 64 (Z.lxor hash (wrapping_add 64 (byte_val b) (Z.of_nat index))) 0x100000001b3.

Lemma imap_compose {A B C} (g : nat -> B -> C) (f : nat -> A -> B) l :
  imap g (imap f l) = imap (fun i x => g i (f i x)) l.
Proof. apply list_eq. intros i. rewrite !list_lookup_imap. by destruct (l !! i). Qed.

Lemma hash_lanes bs hs :
  foldl hash_byte hs bs = imap (fun i h => foldl (lane_step i) h bs) hs.
Proof.
  revert hs. induction bs as [|b bs IH]; intros hs; cbn [foldl].
  - apply list_eq. intros i. rewrite list_lookup_imap. by destruct (hs !! i).
  - rewrite IH. unfold hash_byte. by rewrite imap_compose.
Qed.

Lemma lxor_range a b : in_u 64 a -> in_u 64 b -> in_u 64 (Z.lxor a b).
Proof.
  unfold in_u. intros Ha Hb. split; [apply Z.lxor_nonneg; lia|].
  destruct (decide (Z.lxor a b = 0)) as [->|Hne]; [lia|]. apply Z.log2_lt_cancel.
  rewrite Z.log2_pow2 by lia.
  eapply Z.le_lt_trans; [apply Z.log2_lxor; lia|].
  apply Z.max_lub_lt; (destruct (decide (a = 0)); destruct (decide (b = 0)); subst; cbn;
    try lia; apply Z.log2_lt_pow2; lia).
Qed.

Lemma lane_step_range i h b : in_u 64 (lane_step i h b).
Proof. unfold lane_step, wrapping_mul, in_u. apply Z.mod_pos_bound. lia. Qed.

Lemma lxor_cancel_l a b c : Z.lxor a c = Z.lxor b c -> a = b.
Proof.
  intros H. apply (f_equal (fun z => Z.lxor z c)) in H.
  by rewrite !Z.lxor_assoc, Z.lxor_nilpotent, !Z.lxor_0_r in H.
Qed.

(** Multiplication by the odd prime loses nothing. *)
Lemma mul_prime_inj x y :
  in_u 64 x -> in_u 64 y ->
  wrapping_mul 64 x 0x100000001b3 = wrapping_mul 64 y 0x100000001b3 -> x = y.
Proof.
  unfold wrapping_mul, in_u. intros Hx Hy H.
  apply (f_equal (fun z => (z * 0xce965057aff6957b) mod 2 ^ 64)) in H.
  rewrite !Zmult_mod_idemp_l, <- !Z.mul_assoc in H.
  assert (Hone : (0x100000001b3 * 0xce965057aff6957b) mod 2 ^ 64 = 1) by reflexivity.
  rewrite (Z.mul_mod x), (Z.mul_mod y), Hone, !Z.mul_1_r, !Z.mod_mod, !Z.mod_small in H by lia.
  done.
Qed.

Lemma wrapped_range a b : in_u 64 (wrapping_add 64 a b).
Proof. unfold wrapping_add, in_u. apply Z.mod_pos_bound. lia. Qed.

Lemma lane_step_inj_hash i h h' b :
  in_u 64 h -> in_u 64 h' -> lane_step i h b = lane_step i h' b -> h = h'.
Proof.
  unfold lane_step. intros Hh Hh' H.
  apply mul_prime_inj in H; [|apply lxor_range; [done|apply wrapped_range]..].
  by apply lxor_cancel_l in H.
Qed.

Lemma lane_step_inj_byte i h b b' :
  (i < 4)%nat -> in_u 64 h -> lane_step i h b = lane_step i h b' -> b = b'.
Proof.
  unfold lane_step. intros Hi Hh H.
  apply mul_prime_inj in H; [|apply lxor_range; [done|apply wrapped_range]..].
  rewrite !(Z.lxor_comm h) in H. apply lxor_cancel_l in H.
  pose proof (byte_val_range b). pose proof (byte_val_range b').
  unfold wrapping_add in H. rewrite !Z.mod_small in H by lia. apply byte_val_inj. lia.
Qed.

Lemma lane_fold_inj i bs h h' :
  in_u 64 h -> in_u 64 h' -> foldl (lane_step i) h bs = foldl (lane_step i) h' bs -> h = h'.
Proof.
  revert h h'. induction bs as [|b bs IH]; intros h h' Hh Hh' H; [done|]. cbn [foldl] in H.
  apply IH in H; [|apply lane_step_range..]. by apply lane_step_inj_hash in H.
Qed.

Lemma lane_fold_range i bs h : in_u 64 h -> in_u 64 (foldl (lane_step i) h bs).
Proof.
  revert h. induction bs as [|b bs IH]; intros h Hh; [done|]. apply IH, lane_step_range.
Qed.

(** Streams that differ in one byte hash differently in every lane. *)
Lemma lane_detects i h pre b b' post :
  (i < 4)%nat -> in_u 64 h -> b <> b' ->
  foldl (lane_step i) h (pre ++ b :: post) <> foldl (lane_step i) h (pre ++ b' :: post).
Proof.
  intros Hi Hh Hne H. rewrite !foldl_app in H. cbn [foldl] in H.
  apply lane_fold_inj in H; [|apply lane_step_range..].
  apply lane_step_inj_byte in H; [done..|by apply lane_fold_range].
Qed.

Definition digest (stream : list byte) : list byte := foldl hash_byte SEEDS stream ≫= to_le_bytes 8.

Lemma digest_lanes stream :
  digest stream = imap (fun i h => foldl (lane_step i) h stream) SEEDS ≫= to_le_bytes 8.
Proof. unfold digest. by rewrite hash_lanes. Qed.

Lemma length_digest stream : length (digest stream) = 32%nat.
Proof. rewrite digest_lanes. cbn [imap SEEDS mbind list_bind]. by rewrite !length_app, !length_to_le_bytes. Qed.

Lemma digest_detects pre b b' post :
  b <> b' -> digest (pre ++ b :: post) <> digest (pre ++ b' :: post).
Proof.
  intros Hne H. rewrite !digest_lanes in H. apply (f_equal (take 8)) in H.
  cbn [imap SEEDS mbind list_bind] in H.
  rewrite !take_app_length' in H by (by rewrite length_to_le_bytes).
  apply (f_equal from_le_bytes) in H.
  rewrite !from_to_le_bytes in H by (apply lane_fold_range; done).
  by apply lane_detects in H; [|lia|..].
Qed.

Section Fingerprint.
Context `{AnyTypes}.

Fixpoint register_all (gs : list registration) : M ActionRegistry RuntimeError unit :=
  match gs with
  | [] => mret tt
  | g :: gs' => do_register g;; register_all gs'
  end.

Definition reg_pair (g : registration) : ActionId * (Z * Z) := (reg_id g, reg_schema g).

(** An accepted list of registrations has distinct identifiers, and leaves
    their schemas. *)
Lemma register_all_schemas gs : forall r r',
  dom (entries r) = dom (schemas r) -> register_all gs r = (Ok tt, r') ->
  NoDup (map reg_pair gs).*1 /\ dom (entries r') = dom (schemas r') /\
  (forall id, id ∈ (map reg_pair gs).*1 -> schemas r !! id = None) /\
  schemas r' = list_to_map (map reg_pair gs) ∪ schemas r.
Proof.
  induction gs as [|g gs IH]; intros r r' Hdom Hr; cbn [register_all] in Hr.
  - injection Hr as <-. split_and!; [apply NoDup_nil_2|done|cbn; set_solver|cbn; by rewrite (left_id_L ∅ (∪))].
  - apply M_bind_ok in Hr as ([] & r1 & Hg & Hr).
    destruct (do_register_spec g r) as [[e He]|[Hfree Hok]]; [congruence|].
    rewrite Hg in Hok. injection Hok as ->.
    assert (Hs : schemas r !! reg_id g = None)
      by (apply not_elem_of_dom; rewrite <- Hdom; by apply not_elem_of_dom).
    assert (Hdom1 : dom (<[reg_id g := reg_handler g]> (entries r)) = dom (<[reg_id g := reg_schema g]> (schemas r)))
      by (by rewrite !dom_insert_L, Hdom).
    rewrite (surjective_pairing (reg_schema g)) in Hdom1.
    destruct (IH (add_entry _ _ _ _ r) r' Hdom1 Hr) as (Hnd & Hdom' & Hnew & Hsch).
    cbn [schemas add_entry] in Hnew, Hsch.
    assert (Hnotin : reg_id g ∉ (map reg_pair gs).*1)
      by (intros Hin; apply Hnew in Hin; by rewrite lookup_insert_eq in Hin).
    split_and!.
    + cbn. by constructor.
    + done.
    + intros id [->|Hin]%elem_of_cons; [done|]. apply Hnew in Hin.
      by apply lookup_insert_None in Hin as [? _].
    + rewrite Hsch. cbn [map list_to_map]. unfold reg_pair at 2. destruct (reg_schema g) as [i o].
      cbn. rewrite <- insert_union_r, insert_union_l; [done|].
      apply not_elem_of_list_to_map_1. done.
Qed.

Lemma default_dom : dom (entries ActionRegistry_default) = dom (schemas ActionRegistry_default).
Proof. cbn. by rewrite !dom_empty_L. Qed.

(** The fingerprint identifies the set of registered schemas.  It is 32
    bytes long and does not depend on the order of the registrations nor on
    the handlers: two programs that register the same identifiers with the same
    schemas agree on it. *)
Theorem fingerprint_order_independent gs gs' r r' :
  register_all gs ActionRegistry_default = (Ok tt, r) ->
  register_all gs' ActionRegistry_default = (Ok tt, r') ->
  map reg_pair gs ≡ₚ map reg_pair gs' ->
  fingerprint r = fingerprint r' /\ length (fingerprint r) = 32%nat.
Proof.
  intros Hr Hr' Hp.
  destruct (register_all_schemas gs ActionRegistry_default _ default_dom Hr) as (Hnd & _ & _ & Hs).
  destruct (register_all_schemas gs' ActionRegistry_default _ default_dom Hr') as (_ & _ & _ & Hs').
  split; [|apply length_digest].
  unfold fingerprint. by rewrite Hs, Hs', (list_to_map_proper _ _ Hnd Hp).
Qed.

Lemma schema_stream_split m id s :
  m !! id = Some s -> exists pre post, forall s',
    schema_stream (<[id := s']> m) = pre ++ schema_bytes id s' ++ post.
Proof.
  intros Hid. assert (Hin : id ∈ btree_keys m).
  { unfold btree_keys. rewrite merge_sort_Permutation. apply elem_of_elements, elem_of_dom. eauto. }
  assert (Hnd : NoDup (btree_keys m)).
  { unfold btree_keys. rewrite merge_sort_Permutation. apply NoDup_elements. }
  apply list_elem_of_split in Hin as (k1 & k2 & Hk). rewrite Hk in Hnd.
  apply NoDup_app in Hnd as (_ & Hnd1 & Hnd2). apply NoDup_cons in Hnd2 as [Hnd2 _].
  set (bytes_of := fun i => match m !! i with Some x => schema_bytes i x | None => [] end).
  exists (k1 ≫= bytes_of), (k2 ≫= bytes_of). intros s'. unfold schema_stream.
  assert (Hkeys : btree_keys (<[id := s']> m) = btree_keys m).
  { unfold btree_keys. f_equal. f_equal. rewrite dom_insert_L. apply subseteq_union_1_L.
    apply singleton_subseteq_l, elem_of_dom. eauto. }
  assert (Hsame : forall l, id ∉ l -> (l ≫= fun i => match <[id := s']> m !! i with
      Some x => schema_bytes i x | None => [] end) = l ≫= bytes_of).
  { intros l Hl. induction l as [|i l IH]; [done|]. cbn.
    rewrite lookup_insert_ne by set_solver. f_equal. apply IH. set_solver. }
  rewrite Hkeys, Hk, bind_app. cbn [mbind list_bind]. rewrite lookup_insert_eq.
  rewrite Hsame by (intros Hin; apply (Hnd1 id); [done|by left]). by rewrite <- (Hsame k2).
Qed.

(** The fingerprint detects a changed schema: two registries that agree on
    everything but one byte of one registered schema number have different
    fingerprints. *)
Theorem fingerprint_detects_schema_change r r' id s s' pre b b' post :
  schemas r !! id = Some s -> schemas r' = <[id := s']> (schemas r) ->
  to_le_bytes 8 s.1 ++ to_le_bytes 8 s.2 = pre ++ b :: post ->
  to_le_bytes 8 s'.1 ++ to_le_bytes 8 s'.2 = pre ++ b' :: post -> b <> b' ->
  fingerprint r <> fingerprint r'.
Proof.
  intros Hid Hr' Hs Hs' Hne.
  destruct (schema_stream_split _ _ _ Hid) as (p & q & Hst).
  assert (Hr : schemas r = <[id := s]> (schemas r)) by (by rewrite insert_id).
  change (digest (schema_stream (schemas r)) <> digest (schema_stream (schemas r'))).
  rewrite Hr'. rewrite Hr at 1. rewrite !Hst. unfold schema_bytes. rewrite Hs, Hs', <- !app_assoc. cbn [app].
  rewrite !(app_assoc p), !(app_assoc _ pre). by apply digest_detects.
Qed.
End Fingerprint.

(** ** Examples *)

(** A program with one action, of type [u64] to strings. *)
Definition ex_sort (b : bool) : Type := if b then u64 else string_value.
#[export] Instance ex_types : AnyTypes := {| ty := bool; sort_of := ex_sort |}.

Definition ex_action : Action :=
  mkAction 41 true false wire_u64 wire_string.
Definition ex_handler : sort_of (action_ty ex_action) -> Handled (sort_of (Output ex_action)) :=
  fun '(U64 z) => if z =? 0 then Err Panic else Ok (Str [Byte.x61]).
Definition ex_erased : registration := Reg_erased 42 7 8 (RegisteredAction_new (fun s => Ok s)).
Definition ex_registry : ActionRegistry :=
  (register_all [Reg_action ex_action ex_handler; ex_erased] ActionRegistry_default).2.

Lemma ex_registered :
  register ex_action ex_handler ActionRegistry_default =
    (Ok tt, (register ex_action ex_handler ActionRegistry_default).2).
Proof. reflexivity. Qed.

Lemma dispatch_transparent_witness :
  exists h, get ex_registry 41 = Some h /\
    execute h (Typed (Any true (U64 5))) = Ok (Typed (Any false (Str [Byte.x61]))) /\
    execute_encoded h [to_le_bytes 8 5] = Ok [[Byte.x61]] /\
    (forall o out, ex_handler (U64 5) = Ok o -> @wire_wf string_value _ _ o ->
       execute_encoded h [to_le_bytes 8 5] = Ok out -> @wire_decode string_value _ out = Ok o).
Proof.
  apply (dispatch_transparent ex_action ex_handler ActionRegistry_default
           (register ex_action ex_handler ActionRegistry_default).2 [ex_erased] (U64 5) [to_le_bytes 8 5]
           (LA := u64_round_trip) (LO := string_round_trip)).
  - apply ex_registered.
  - cbn. unfold in_u. lia.
  - reflexivity.
Defined.

Lemma fingerprint_order_independent_witness :
  fingerprint ex_registry =
    fingerprint (register_all [ex_erased; Reg_action ex_action ex_handler] ActionRegistry_default).2 /\
  length (fingerprint ex_registry) = 32%nat.
Proof.
  apply (fingerprint_order_independent [Reg_action ex_action ex_handler; ex_erased]
           [ex_erased; Reg_action ex_action ex_handler]); [reflexivity|reflexivity|].
  apply perm_swap.
Defined.

Lemma fingerprint_detects_schema_change_witness :
  fingerprint ex_registry <>
  fingerprint (mkActionRegistry (entries ex_registry) (<[42 := (7, 9)]> (schemas ex_registry))).
Proof.
  apply (fingerprint_detects_schema_change ex_registry _ 42 (7, 8) (7, 9)
           (to_le_bytes 8 7) (byte_of 8) (byte_of 9) (replicate 7 (byte_of 0)));
    [reflexivity|reflexivity|reflexivity|reflexivity|done].
Defined.
