(* ===== verification/BatchWire.v ===== *)
(** * BatchWire: the messages of the bounded [pmap]

    Models the codecs of [crates/hataori-algorithms/src/batch.rs]: a batch of
    actions and a batch of replies travel as one header segment, which lists
    the number and the lengths of every item's segments, followed by those
    segments.  [options.rs] and [error.rs] of the same crate are here too. *)
From Stdlib Require Import Strings.Byte.
From S2P Require Import Prelude Text Protocol Error RuntimeWire Action.

(** ** Options and errors *)

Inductive LocalMode : Type := Sequential | Outer | Inner.
#[export] Instance LocalMode_eq_dec : EqDecision LocalMode.
Proof. solve_decision. Defined.

(** [mode as u8]. *)
Definition mode_code (m : LocalMode) : Z := match m with Sequential => 0 | Outer => 1 | Inner => 2 end.

Inductive AlgorithmError : Type :=
| AlgorithmError_InvalidOptions (message : string)
| AlgorithmError_InputShape (message : string)
| AlgorithmError_Protocol (message : string)
| AlgorithmError_Callback (index : Z) (message : text)
| AlgorithmError_Runtime (e : RuntimeError).

Record PmapOptions : Type := mkPmapOptions {
  batch_size : Z;
  local_mode : LocalMode;
  prefetch : bool;
  deadline : Z;
  options_domain : DomainId;
  inflight_limit : Z;
}.

(** Durations are nanoseconds. *)
Definition PmapOptions_default : PmapOptions := mkPmapOptions 1 Sequential false 30000000000 0 1.

Definition validate (o : PmapOptions) : result AlgorithmError unit :=
  fail_if ((batch_size o =? 0) || (1048576 <? batch_size o))
    (AlgorithmError_InvalidOptions "batch_size must be between 1 and 1048576");;
  fail_if (deadline o =? 0) (AlgorithmError_InvalidOptions "deadline must be nonzero");;
  Ok tt.

Definition with_batch_size (n : Z) (o : PmapOptions) : result AlgorithmError PmapOptions :=
  let o := mkPmapOptions n (local_mode o) (prefetch o) (deadline o) (options_domain o) (inflight_limit o) in
  validate o;; Ok o.
Definition with_local_mode (m : LocalMode) (o : PmapOptions) : PmapOptions :=
  mkPmapOptions (batch_size o) m (prefetch o) (deadline o) (options_domain o) (inflight_limit o).
Definition with_prefetch (enabled : bool) (o : PmapOptions) : PmapOptions :=
  mkPmapOptions (batch_size o) (local_mode o) enabled (deadline o) (options_domain o) (inflight_limit o).
Definition with_domain (d : DomainId) (o : PmapOptions) : PmapOptions :=
  mkPmapOptions (batch_size o) (local_mode o) (prefetch o) (deadline o) d (inflight_limit o).
Definition with_deadline (d : Z) (o : PmapOptions) : result AlgorithmError PmapOptions :=
  let o := mkPmapOptions (batch_size o) (local_mode o) (prefetch o) d (options_domain o) (inflight_limit o) in
  validate o;; Ok o.

Definition with_targets (targets : Z) (o : PmapOptions) : result AlgorithmError PmapOptions :=
  fail_if (targets =? 0) (AlgorithmError_InputShape "membership must be nonzero");;
  limit ← ok_or (checked_mul usize_max targets (1 + if prefetch o then 1 else 0))
            (AlgorithmError_InvalidOptions "in-flight batch limit overflow");
  Ok (mkPmapOptions (batch_size o) (local_mode o) (prefetch o) (deadline o) (options_domain o) limit).

(** ** Batches *)

Definition ACTION_MASK : Z := 0xe5000000000000000000000000000001.
Definition MAX_BATCH_ITEMS : Z := 1048576.

Record BatchAction (A : Type) : Type := mkBatchAction {
  action_start : Z; action_mode : LocalMode; action_items : list A;
}.
Arguments mkBatchAction {A} _ _ _.
Arguments action_start {A} _.
Arguments action_mode {A} _.
Arguments action_items {A} _.

Inductive ItemReply (T : Type) : Type := Item_Ok (v : T) | Item_Err (message : text).
Arguments Item_Ok {T} _.
Arguments Item_Err {T} _.

Record BatchReply (T : Type) : Type := mkBatchReply { reply_start : Z; reply_items : list (ItemReply T) }.
Arguments mkBatchReply {T} _ _.
Arguments reply_start {T} _.
Arguments reply_items {T} _.

(** A [usize] has 64 bits, so that the conversion to [u64] is total. *)
Definition put (value : Z) (out : list byte) : list byte := out ++ to_le_bytes 8 value.

Definition take_usize (bytes : list byte) (at_ : Z) : Handled (Z * Z) :=
  match checked_add usize_max at_ 8 with
  | None => codec_error "batch header overflow"
  | Some end_ =>
      if end_ <=? len bytes
      then Ok (from_le_bytes (slice (Z.to_nat at_) (Z.to_nat end_) bytes), end_)
      else codec_error "truncated batch header"
  end.

(** [Vec::with_capacity]: more than [isize::MAX] bytes is a panic. *)
Definition with_capacity (n size : Z) : Handled unit :=
  if n * size <=? isize_max then Ok tt else Err Panic.

Section Nested.
Context {T : Type} `{WireValue T}.

(** The loop of [encode_nested]: the header so far and the segments so far. *)
Fixpoint encode_values (values : list T) (header : list byte) (out : Segments) : Handled Segments :=
  match values with
  | [] => Ok (header :: out)
  | value :: rest =>
      segments ← wire_encode value;
      let header := foldl (fun h segment => put (len segment) h) (put (len segments) header) segments in
      encode_values rest header (out ++ segments)
  end.

Definition encode_nested (values : list T) (prefix : list byte) : Handled Segments :=
  if MAX_BATCH_ITEMS <? len values then codec_error "batch item limit exceeded"
  else encode_values values (put (len values) prefix) [].

(** [for _ in 0..n { item.push(take(..)?) }]. *)
Fixpoint take_lengths (n : nat) (header : list byte) (at_ : Z) : Handled (list Z * Z) :=
  match n with
  | O => Ok ([], at_)
  | S n' =>
      '(v, at1) ← take_usize header at_;
      '(vs, at2) ← take_lengths n' header at1;
      Ok (v :: vs, at2)
  end.

Fixpoint take_items (count : nat) (header : list byte) (at_ : Z) : Handled (list (list Z) * Z) :=
  match count with
  | O => Ok ([], at_)
  | S count' =>
      '(n, at1) ← take_usize header at_;
      with_capacity n 8;;
      '(item, at2) ← take_lengths (Z.to_nat n) header at1;
      '(items, at3) ← take_items count' header at2;
      Ok (item :: items, at3)
  end.

Fixpoint sum_checked (total : Z) (counts : list Z) : option Z :=
  match counts with
  | [] => Some total
  | n :: rest => total ← checked_add usize_max total n; sum_checked total rest
  end.

(** The segments of one item, off the front of the source. *)
Fixpoint take_segments (lengths : list Z) (source : Segments) : Handled (Segments * Segments) :=
  match lengths with
  | [] => Ok ([], source)
  | length :: rest =>
      match source with
      | [] => Err Panic
      | bytes :: source =>
          if len bytes =? length then
            '(encoded, source) ← take_segments rest source;
            Ok (bytes :: encoded, source)
          else codec_error "batch segment length mismatch"
      end
  end.

Fixpoint decode_values (lengths : list (list Z)) (source : Segments) : Handled (list T) :=
  match lengths with
  | [] => Ok []
  | item :: rest =>
      '(encoded, source) ← take_segments item source;
      value ← wire_decode encoded;
      values ← decode_values rest source;
      Ok (value :: values)
  end.

Definition decode_nested (segments : Segments) (prefix : Z) : Handled (list byte * list T) :=
  match segments with
  | [] => codec_error "missing batch header"
  | header :: segments =>
      '(count, at_) ← take_usize header prefix;
      if MAX_BATCH_ITEMS <? count then codec_error "batch item limit exceeded"
      else
      '(lengths, at_) ← take_items (Z.to_nat count) header at_;
      if negb (at_ =? len header) then codec_error "trailing batch header bytes"
      else
      expected ← ok_or (sum_checked 0 (map len lengths)) (Raise (ActionError_codec (lit "segment count overflow")));
      if negb (len segments =? expected) then codec_error "batch segment count mismatch"
      else
      values ← decode_values lengths segments;
      Ok (header, values)
  end.
End Nested.

(** ** The wire values *)

#[export] Instance wire_batch {A} `{WireValue A} : WireValue (BatchAction A) := {|
  SCHEMA_ID := Z.lxor (@SCHEMA_ID A _) 0xe501000000000001;
  wire_encode := fun b =>
    let h := put (action_start b) [] in
    let h := h ++ [byte_of (mode_code (action_mode b))] in
    encode_nested (action_items b) h;
  wire_decode := fun segments =>
    match segments with
    | [] => codec_error "missing batch header"
    | header :: _ =>
        '(start, at_) ← take_usize header 0;
        match header !! Z.to_nat at_ with
        | None => codec_error "missing local mode"
        | Some b =>
            mode ← (if byte_val b =? 0 then Ok Sequential
                    else if byte_val b =? 1 then Ok Outer
                    else if byte_val b =? 2 then Ok Inner
                    else codec_error "invalid local mode");
            '(_, items) ← decode_nested segments (at_ + 1);
            Ok (mkBatchAction start mode items)
        end
    end;
|}.

Inductive ReplyWire (T : Type) : Type := Reply_Ok (v : T) | Reply_Err (message : text).
Arguments Reply_Ok {T} _.
Arguments Reply_Err {T} _.

#[export] Instance wire_reply_item {T} `{WireValue T} : WireValue (ReplyWire T) := {|
  SCHEMA_ID := Z.lxor (@SCHEMA_ID T _) 0xe503000000000001;
  wire_encode := fun r =>
    match r with
    | Reply_Ok v => s ← wire_encode v; Ok ([byte_of 0] :: s)
    | Reply_Err e => Ok [[byte_of 1]; e]
    end;
  wire_decode := fun segments =>
    match segments with
    | [] => codec_error "missing reply tag"
    | tag :: s =>
        if bool_decide (tag = [byte_of 0]) then v ← wire_decode s; Ok (Reply_Ok v)
        else if bool_decide (tag = [byte_of 1]) then
          match s with
          | [e] =>
              if Z.of_nat MAX_ERROR_BYTES <? len e then codec_error "invalid callback error"
              else if utf8_valid e then Ok (Reply_Err e)
              else codec_error "callback error is not UTF-8"
          | _ => codec_error "invalid callback error"
          end
        else codec_error "invalid reply tag"
    end;
|}.

(** [String::pop]: the text without its last character. *)
Definition pop (t : text) : text :=
  match length t with
  | O => t
  | S n => match boundary_at_most t n with Some e => take e t | None => t end
  end.

(** [while message.len() > MAX_ERROR_BYTES { message.pop(); }]. *)
Fixpoint pop_loop (fuel : nat) (t : text) : option text :=
  if Nat.leb (length t) MAX_ERROR_BYTES then Some t
  else match fuel with O => None | S fuel => pop_loop fuel (pop t) end.

Definition reply_wire {T} (item : ItemReply T) : Handled (ReplyWire T) :=
  match item with
  | Item_Ok v => Ok (Reply_Ok v)
  | Item_Err message =>
      match pop_loop (length message) message with
      | Some message => Ok (Reply_Err message)
      | None => Err Panic
      end
  end.

Definition item_reply {T} (r : ReplyWire T) : ItemReply T :=
  match r with Reply_Ok v => Item_Ok v | Reply_Err e => Item_Err e end.

#[export] Instance wire_reply {T} `{WireValue T} : WireValue (BatchReply T) := {|
  SCHEMA_ID := Z.lxor (@SCHEMA_ID T _) 0xe502000000000001;
  wire_encode := fun r =>
    let h := put (reply_start r) [] in
    values ← mapR reply_wire (reply_items r);
    encode_nested values h;
  wire_decode := fun segments =>
    match segments with
    | [] => codec_error "missing reply header"
    | header :: _ =>
        '(start, at_) ← take_usize header 0;
        '(_, values) ← decode_nested (T := ReplyWire T) segments at_;
        Ok (mkBatchReply start (map item_reply values))
    end;
|}.

(** ** Exact codecs *)

(** Segments that a program can hold: a vector of vectors occupies 24 bytes per
    element, and no allocation exceeds [isize::MAX]. *)
Definition held (s : Segments) : Prop :=
  len s * 24 <= isize_max /\ Forall (fun x => len x <= isize_max) s.

(** A codec that accepts exactly what it produces. *)
Class WireExact (T : Type) `{WireValue T} : Type := {
  exact_wf : T -> Prop;
  exact_codec : forall s v, held s -> wire_decode s = Ok v <-> exact_wf v /\ wire_encode v = Ok s;
}.

#[export, refine] Instance unit_exact : WireExact unit := {| exact_wf := fun _ => True |}.
Proof. intros s v _. rewrite unit_codec. tauto. Defined.
#[export, refine] Instance u64_exact : WireExact u64 := {| exact_wf := fun '(U64 z) => in_u 64 z |}.
Proof. intros s [z] _. apply u64_codec. Defined.
#[export, refine] Instance bytes_exact : WireExact bytes_value := {| exact_wf := fun _ => True |}.
Proof. intros s [l] _. rewrite bytes_codec. tauto. Defined.
#[export, refine] Instance string_exact : WireExact string_value :=
  {| exact_wf := fun '(Str t) => utf8_valid t = true |}.
Proof. intros s [t] _. apply string_codec. Defined.

Lemma held_concat ss segss : held (concat segss) -> ss ∈ segss -> held ss.
Proof.
  intros [Hn Hl] (l1 & l2 & ->)%list_elem_of_split.
  rewrite concat_app in *. cbn [concat] in *. rewrite !len_app in Hn. rewrite !Forall_app in Hl.
  pose proof (len_nonneg (concat l1)). pose proof (len_nonneg (concat l2)).
  split; [lia|naive_solver].
Qed.

(** ** The header *)

Definition le8 (z : Z) : list byte := to_le_bytes 8 z.
Definition lengths_layout (l : list Z) : list byte := le8 (len l) ++ (l ≫= le8).
Definition items_layout (ls : list (list Z)) : list byte := ls ≫= lengths_layout.
Definition header_body (ls : list (list Z)) : list byte := le8 (len ls) ++ items_layout ls.

Definition length_list_ok (l : list Z) : Prop :=
  Forall (in_u 64) l /\ in_u 64 (len l) /\ len l * 8 <= isize_max.

Lemma length_le8 z : length (le8 z) = 8%nat.
Proof. apply length_to_le_bytes. Qed.
Lemma len_bind_le8 l : len (l ≫= le8) = 8 * len l.
Proof.
  induction l as [|z l IH]; [done|]. change ((z :: l) ≫= le8) with (le8 z ++ (l ≫= le8)).
  rewrite len_app, IH, len_cons. unfold le8. rewrite len_to_le_bytes. lia.
Qed.
Lemma len_lengths_layout l : len (lengths_layout l) = 8 + 8 * len l.
Proof. unfold lengths_layout, le8 at 1. rewrite len_app, len_to_le_bytes, len_bind_le8. lia. Qed.

Section Cursor.
Context (header : list byte) (Hfits : len header <= isize_max).

(** What is left of the header at a position. *)
Definition from (at_ : Z) : list byte := drop (Z.to_nat at_) header.

Lemma len_from at_ : 0 <= at_ <= len header -> len (from at_) = len header - at_.
Proof. intros Hp. unfold from, len in *. rewrite length_drop. lia. Qed.

Lemma from_app at_ l rest : 0 <= at_ -> from at_ = l ++ rest -> from (at_ + len l) = rest.
Proof.
  intros Hp Heq. unfold from in *. rewrite Z2Nat.inj_add by (try done; apply len_nonneg).
  rewrite <- drop_drop, Heq. unfold len. rewrite Nat2Z.id. apply drop_app_length.
Qed.

(** A piece of the header that fits there. *)
Definition piece (at_ : Z) (l : list byte) (at' : Z) : Prop :=
  at' = at_ + len l /\ at' <= len header /\ from at_ = l ++ from at'.

Lemma piece_nil at_ : 0 <= at_ <= len header -> piece at_ [] at_.
Proof. intros Hp. unfold piece. rewrite len_nil. split_and!; [lia|lia|done]. Qed.

Lemma piece_app at_ l1 l2 at' :
  0 <= at_ -> piece at_ (l1 ++ l2) at' <-> piece at_ l1 (at_ + len l1) /\ piece (at_ + len l1) l2 at'.
Proof.
  intros Hp. unfold piece. rewrite len_app. pose proof (len_nonneg l1). pose proof (len_nonneg l2). split.
  - intros (-> & Hle & Heq). rewrite <- app_assoc in Heq. pose proof (from_app _ _ _ Hp Heq) as Hf.
    split_and!; try lia; [by rewrite Hf|]. rewrite Hf. by rewrite Z.add_assoc.
  - intros ((_ & _ & H1) & -> & Hle & H2). split_and!; [lia|lia|]. rewrite <- app_assoc, <- H2. exact H1.
Qed.

Lemma take_usize_iff at_ v at' :
  0 <= at_ <= len header ->
  take_usize header at_ = Ok (v, at') <-> in_u 64 v /\ piece at_ (le8 v) at'.
Proof.
  intros Hp. unfold take_usize, piece, le8. rewrite len_to_le_bytes.
  destruct (checked_add usize_max at_ 8) as [e|] eqn:He.
  2: { unfold checked_add in He. destruct (Z.leb_spec (at_ + 8) usize_max); [done|]. zunfold. lia. }
  apply checked_add_some in He as [-> _].
  destruct (Z.leb_spec (at_ + 8) (len header)) as [Hle|Hgt].
  - assert (Hs : slice (Z.to_nat at_) (Z.to_nat (at_ + 8)) header = take 8 (from at_))
      by (unfold slice, from; f_equal; lia).
    assert (Hl : length (take 8 (from at_)) = 8%nat).
    { rewrite length_take. pose proof (len_from at_ Hp). unfold len in *. lia. }
    assert (Hd : drop 8 (from at_) = from (at_ + 8))
      by (unfold from; rewrite drop_drop; f_equal; lia).
    rewrite Hs. split.
    + intros [= <- <-]. rewrite to_from_le_bytes' by done. split_and!; [|done|done|].
      * pose proof (from_le_bytes_range' 8 _ Hl). unfold in_u. cbn in *. lia.
      * rewrite <- Hd. by rewrite take_drop.
    + intros (Hv & -> & _ & Heq). rewrite Heq, take_app_length' by (by rewrite length_to_le_bytes).
      by rewrite from_to_le_bytes by apply Hv.
  - split; [done|]. intros (_ & -> & Hle & _). cbn in Hle. lia.
Qed.

Lemma piece_le at_ l at' : 0 <= at_ -> piece at_ l at' -> 0 <= at' <= len header.
Proof. intros Hp (-> & Hle & _). pose proof (len_nonneg l). lia. Qed.

Lemma take_lengths_iff n : forall at_ vs at',
  0 <= at_ <= len header ->
  take_lengths n header at_ = Ok (vs, at') <->
    length vs = n /\ Forall (in_u 64) vs /\ piece at_ (vs ≫= le8) at'.
Proof.
  induction n as [|n IH]; intros at_ vs at' Hp; cbn [take_lengths].
  - split.
    + intros [= <- <-]. split_and!; [done|done|by apply piece_nil].
    + intros (Hl & _ & Hpc). apply nil_length_inv in Hl as ->. destruct Hpc as (-> & _). cbn. by rewrite Z.add_0_r.
  - split.
    + intros H. bind_inv H. destruct a as [v at1]. apply take_usize_iff in E as [Hv Hpc]; [|done].
      pose proof (piece_le _ _ _ (proj1 Hp) Hpc) as Hp1. bind_inv H. destruct a as [vs' at2].
      injection H as <- <-. apply IH in E as (Hl & Hall & Hpc2); [|done].
      split_and!; [cbn; by rewrite Hl|by constructor|].
      change ((v :: vs') ≫= le8) with (le8 v ++ (vs' ≫= le8)).
      apply piece_app; [lia|]. destruct Hpc as (-> & Hpc). done.
    + intros (Hl & Hall & Hpc). destruct vs as [|v vs]; [done|]. injection Hl as Hl.
      apply Forall_cons in Hall as [Hv Hall]. change ((v :: vs) ≫= le8) with (le8 v ++ (vs ≫= le8)) in Hpc.
      apply piece_app in Hpc as [Hpc1 Hpc2]; [|lia].
      pose proof (piece_le _ _ _ (proj1 Hp) Hpc1) as Hp1.
      rewrite (proj2 (take_usize_iff at_ v _ Hp) (conj Hv Hpc1)). cbn [mbind result_bind].
      rewrite (proj2 (IH _ vs at' Hp1)) by done. done.
Qed.

Lemma take_items_iff n : forall at_ ls at',
  0 <= at_ <= len header ->
  take_items n header at_ = Ok (ls, at') <->
    length ls = n /\ Forall length_list_ok ls /\ piece at_ (items_layout ls) at'.
Proof.
  induction n as [|n IH]; intros at_ ls at' Hp; cbn [take_items].
  - split.
    + intros [= <- <-]. split_and!; [done|done|by apply piece_nil].
    + intros (Hl & _ & Hpc). apply nil_length_inv in Hl as ->. destruct Hpc as (-> & _). cbn. by rewrite Z.add_0_r.
  - split.
    + intros H. bind_inv H. destruct a as [v at1]. apply take_usize_iff in E as [Hv Hpc]; [|done].
      pose proof (piece_le _ _ _ (proj1 Hp) Hpc) as Hp1.
      bind_inv H. unfold with_capacity in E. destruct (Z.leb_spec (v * 8) isize_max) as [Hcap|]; [|done].
      clear E. bind_inv H. destruct a0 as [item at2]. apply take_lengths_iff in E as (Hl & Hall & Hpc2); [|done].
      pose proof (piece_le _ _ _ (proj1 Hp1) Hpc2) as Hp2.
      bind_inv H. destruct a0 as [items at3]. injection H as <- <-. apply IH in E as (Hl3 & Hok & Hpc3); [|done].
      assert (Hlen : len item = v) by (unfold len; rewrite Hl; unfold in_u in Hv; lia).
      split_and!; [cbn; by rewrite Hl3| |].
      * constructor; [|done]. unfold length_list_ok. rewrite Hlen. done.
      * change (items_layout (item :: items)) with (lengths_layout item ++ items_layout items).
        unfold lengths_layout. rewrite Hlen. apply piece_app; [lia|]. destruct Hpc as (Hat1 & Hpc).
        destruct Hpc2 as (Hat2 & Hpc2). rewrite len_app, Z.add_assoc, <- Hat1, <- Hat2.
        split; [|done]. apply piece_app; [lia|]. rewrite <- Hat1. done.
    + intros (Hl & Hall & Hpc). destruct ls as [|l ls]; [done|]. injection Hl as Hl.
      apply Forall_cons in Hall as [(Hin & Hlen & Hcap) Hall].
      change (items_layout (l :: ls)) with (lengths_layout l ++ items_layout ls) in Hpc.
      apply piece_app in Hpc as [Hpc1 Hpc2]; [|lia]. unfold lengths_layout in Hpc1 at 1.
      apply piece_app in Hpc1 as [Hpc0 Hpc1]; [|lia].
      pose proof (piece_le _ _ _ (proj1 Hp) Hpc0) as Hp0. pose proof (piece_le _ _ _ (proj1 Hp0) Hpc1) as Hp1.
      rewrite (proj2 (take_usize_iff at_ (len l) _ Hp) (conj Hlen Hpc0)). cbn [mbind result_bind].
      unfold with_capacity. rewrite (proj2 (Z.leb_le _ _) Hcap). cbn [mbind result_bind].
      rewrite (proj2 (take_lengths_iff (Z.to_nat (len l)) _ l _ Hp0)) by
        (split_and!; [unfold len; lia|done|exact Hpc1]).
      cbn [mbind result_bind]. by rewrite (proj2 (IH _ ls at' Hp1)).
Qed.
End Cursor.

(** ** Nested values *)

Definition shape (segss : list Segments) : list (list Z) := map (map len) segss.

Lemma put_all segments h : foldl (fun h segment => put (len segment) h) h segments = h ++ (map (@len byte) segments ≫= le8).
Proof.
  revert h. induction segments as [|s l IH]; intros h; cbn [foldl map]; [by rewrite app_nil_r|].
  rewrite IH. unfold put. change ((len s :: map len l) ≫= le8) with (le8 (len s) ++ (map len l ≫= le8)).
  by rewrite <- app_assoc.
Qed.

Lemma len_map {A B} (f : A -> B) l : len (map f l) = len l.
Proof. unfold len. by rewrite length_map. Qed.

Lemma take_segments_iff lengths : forall source enc rest,
  take_segments lengths source = Ok (enc, rest) <-> source = enc ++ rest /\ map len enc = lengths.
Proof.
  induction lengths as [|n ls IH]; intros source enc rest; cbn [take_segments].
  - split; [by intros [= <- <-]|]. intros [-> Hm]. by destruct enc.
  - destruct source as [|b source].
    { split; [done|]. intros [Hs Hm]. by destruct enc. }
    destruct (len b =? n) eqn:E; zbool.
    + split.
      * intros H. bind_inv H. destruct a as [enc' rest']. injection H as <- <-.
        apply IH in E0 as [-> Hm]. split; [done|]. cbn. by rewrite E, Hm.
      * intros [Hs Hm]. destruct enc as [|b' enc]; [done|]. injection Hs as <- ->. injection Hm as _ Hm.
        by rewrite (proj2 (IH _ enc rest)).
    + split; [done|]. intros [Hs Hm]. destruct enc as [|b' enc]; [done|]. injection Hs as <- _.
      injection Hm as Hm _. congruence.
Qed.

Section NestedExact.
Context {T : Type} `{WireValue T}.

Definition encoded (v : T) (ss : Segments) : Prop := wire_encode v = Ok ss.
Definition decoded (v : T) (ss : Segments) : Prop := wire_decode ss = Ok v.

Lemma encode_values_iff values : forall h out s,
  encode_values values h out = Ok s <->
  exists segss, Forall2 encoded values segss /\ s = (h ++ items_layout (shape segss)) :: out ++ concat segss.
Proof.
  induction values as [|v values IH]; intros h out s; cbn [encode_values].
  - split.
    + intros [= <-]. exists []. split; [constructor|]. cbn. by rewrite !app_nil_r.
    + intros (segss & Hf & ->). apply Forall2_nil_inv_l in Hf as ->. cbn. by rewrite !app_nil_r.
  - split.
    + intros Henc. bind_inv Henc. apply IH in Henc as (segss & Hf & ->). exists (a :: segss).
      split; [by constructor|]. rewrite put_all. unfold put. cbn [shape map concat].
      change (items_layout (map len a :: map (map len) segss))
        with (lengths_layout (map len a) ++ items_layout (shape segss)).
      unfold lengths_layout. rewrite len_map, <- !app_assoc. done.
    + intros (segss & Hf & ->). apply Forall2_cons_inv_l in Hf as (ss & segss' & Hv & Hf & ->).
      unfold encoded in Hv. rewrite Hv. cbn [mbind result_bind]. apply IH. exists segss'. split; [done|].
      rewrite put_all. unfold put. cbn [shape map concat].
      change (items_layout (map len ss :: map (map len) segss'))
        with (lengths_layout (map len ss) ++ items_layout (shape segss')).
      unfold lengths_layout. rewrite len_map, <- !app_assoc. done.
Qed.

Lemma decode_values_iff lengths : forall source values,
  decode_values lengths source = Ok values <->
  exists segss rest, source = concat segss ++ rest /\ shape segss = lengths /\ Forall2 decoded values segss.
Proof.
  induction lengths as [|l ls IH]; intros source values; cbn [decode_values].
  - split.
    + intros [= <-]. exists [], source. split_and!; [done|done|constructor].
    + intros (segss & rest & _ & Hs & Hf). destruct segss; [|done]. by apply Forall2_nil_inv_r in Hf as ->.
  - split.
    + intros Hd. bind_inv Hd. destruct a as [enc src]. bind_inv Hd. bind_inv Hd. injection Hd as <-.
      apply take_segments_iff in E as [-> Hm]. apply IH in E1 as (segss & rest & -> & Hs & Hf).
      exists (enc :: segss), rest. split_and!; [cbn [concat]; by rewrite <- app_assoc|by rewrite <- Hm, <- Hs|by constructor].
    + intros (segss & rest & -> & Hs & Hf). destruct segss as [|ss segss]; [done|]. injection Hs as Hm Hs.
      apply Forall2_cons_inv_r in Hf as (v & values' & Hv & Hf & ->). cbn [concat]. rewrite <- app_assoc.
      rewrite (proj2 (take_segments_iff l _ ss (concat segss ++ rest))) by done.
      cbn [mbind result_bind]. unfold decoded in Hv. rewrite Hv. cbn [mbind result_bind].
      rewrite (proj2 (IH (concat segss ++ rest) values')) by eauto. done.
Qed.

Lemma encode_nested_iff values prefix s :
  encode_nested values prefix = Ok s <->
  len values <= MAX_BATCH_ITEMS /\ exists segss, Forall2 encoded values segss /\
    s = (prefix ++ header_body (shape segss)) :: concat segss.
Proof.
  unfold encode_nested. destruct (Z.ltb_spec MAX_BATCH_ITEMS (len values)) as [Hgt|Hle].
  - split; [done|]. intros [? _]. lia.
  - rewrite encode_values_iff.
    assert (Hl : forall segss, Forall2 encoded values segss ->
        put (len values) prefix ++ items_layout (shape segss) = prefix ++ header_body (shape segss)).
    { intros segss Hf. unfold put, header_body, le8, shape. rewrite len_map, <- app_assoc.
      unfold len. by rewrite (Forall2_length _ _ _ Hf). }
    split.
    + intros (segss & Hf & ->). split; [done|]. exists segss. split; [done|]. by rewrite Hl.
    + intros (_ & segss & Hf & ->). exists segss. split; [done|]. by rewrite Hl.
Qed.

Definition sum (l : list Z) : Z := foldr Z.add 0 l.

Lemma sum_cons n l : sum (n :: l) = n + sum l.
Proof. done. Qed.
Lemma sum_nonneg l : Forall (fun n => 0 <= n) l -> 0 <= sum l.
Proof. induction 1; [done|]. rewrite sum_cons. lia. Qed.

Lemma sum_checked_ok l : forall t, Forall (fun n => 0 <= n) l -> t + sum l <= usize_max ->
  sum_checked t l = Some (t + sum l).
Proof.
  induction l as [|n l IH]; intros t Hall Hle; cbn [sum_checked]; [cbn; by rewrite Z.add_0_r|].
  rewrite sum_cons in *. apply Forall_cons in Hall as [Hn Hall]. pose proof (sum_nonneg _ Hall).
  unfold checked_add. rewrite (proj2 (Z.leb_le _ _)) by lia. cbn [mbind option_bind].
  rewrite IH; [f_equal; lia|done|lia].
Qed.

Lemma sum_shape segss : sum (map len (shape segss)) = len (concat segss).
Proof.
  induction segss as [|ss segss IH]; [done|]. cbn [shape map concat].
  rewrite sum_cons, len_app, <- IH, len_map. done.
Qed.

Lemma sum_counts ls : 8 * sum (map len ls) <= len (items_layout ls).
Proof.
  induction ls as [|l ls IH]; [done|]. change (items_layout (l :: ls)) with (lengths_layout l ++ items_layout ls).
  rewrite len_app, len_lengths_layout. cbn [map]. rewrite sum_cons. lia.
Qed.

Lemma counts_nonneg (ls : list (list Z)) : Forall (fun n => 0 <= n) (map len ls).
Proof. apply Forall_map, Forall_true. intros l. apply len_nonneg. Qed.

Lemma lookup_shape_ok segss : held (concat segss) -> Forall length_list_ok (shape segss).
Proof.
  intros Hh. unfold shape. apply Forall_map, Forall_forall. intros ss Hss.
  destruct (held_concat _ _ Hh Hss) as [Hn Hl]. unfold length_list_ok. rewrite len_map.
  pose proof (len_nonneg ss). split_and!.
  - apply Forall_map. eapply Forall_impl; [exact Hl|]. intros x Hx. pose proof (len_nonneg x).
    unfold compose, in_u. zunfold. lia.
  - unfold in_u. zunfold. lia.
  - lia.
Qed.

(** The header of a decoded batch, from its parsed lengths. *)
Lemma decode_nested_iff header segs at_ h values :
  held (header :: segs) -> 0 <= at_ <= len header ->
  decode_nested (header :: segs) at_ = Ok (h, values) <->
  h = header /\ len values <= MAX_BATCH_ITEMS /\
  exists segss, header = take (Z.to_nat at_) header ++ header_body (shape segss) /\
    segs = concat segss /\ Forall2 decoded values segss.
Proof.
  intros [Hn Hl] Hp. apply Forall_cons in Hl as [Hhdr Hl]. rewrite len_cons in Hn.
  assert (Hfrom : forall body, from header at_ = body <-> header = take (Z.to_nat at_) header ++ body).
  { intros body. unfold from. split; [intros <-; by rewrite take_drop|]. intros Heq. rewrite Heq at 1.
    rewrite drop_app_ge by (rewrite length_take; lia). rewrite length_take.
    unfold len in Hp. replace (Z.to_nat at_ - _)%nat with 0%nat by lia. done. }
  assert (Hpiece : forall body, piece header at_ body (len header) <-> header = take (Z.to_nat at_) header ++ body).
  { intros body. unfold piece. rewrite <- Hfrom.
    assert (Hend : from header (len header) = []) by (unfold from, len; rewrite Nat2Z.id; apply drop_all).
    rewrite Hend, app_nil_r. split; [by intros (_ & _ & Heq)|]. intros Heq. split_and!; [|lia|done].
    rewrite <- Heq, len_from by done. lia. }
  cbn [decode_nested]. split.
  - intros Hd. bind_inv Hd. destruct a as [count at1]. apply take_usize_iff in E as [Hc Hpc]; [|done..].
    pose proof (piece_le _ _ _ _ (proj1 Hp) Hpc) as Hp1.
    destruct (Z.ltb_spec MAX_BATCH_ITEMS count) as [|Hmax]; [done|]. bind_inv Hd. destruct a as [ls at2].
    apply take_items_iff in E as (Hlen & Hok & Hpc2); [|done..].
    destruct (at2 =? len header) eqn:Eat; [|done]. cbn [negb] in Hd. zbool. subst at2.
    bind_inv Hd. destruct (len segs =? a) eqn:Eseg; [|done]. cbn [negb] in Hd. zbool.
    bind_inv Hd. injection Hd as <- <-. apply decode_values_iff in E0 as (segss & rest & Hsrc & Hs & Hf).
    assert (Hcount : count = len ls) by (unfold len; rewrite Hlen; unfold in_u in Hc; lia).
    assert (Ha : a = len (concat segss)).
    { rewrite sum_checked_ok in E; [|apply counts_nonneg|].
      - cbn in E. injection E as <-. by rewrite <- Hs, sum_shape.
      - destruct Hpc2 as (Hend & _). pose proof (sum_counts ls). zunfold. lia. }
    assert (rest = []) as ->.
    { apply len_zero. rewrite Hsrc, len_app in Eseg. lia. }
    rewrite app_nil_r in Hsrc. split_and!; [done| |].
    + assert (len a0 = len ls); [|lia]. unfold len. f_equal. rewrite (Forall2_length _ _ _ Hf), <- Hs.
      unfold shape. by rewrite length_map.
    + exists segss. split_and!; [|done|done]. rewrite Hs. apply Hpiece. unfold header_body. rewrite <- Hcount.
      apply piece_app; [lia|]. destruct Hpc as (Hat1 & Hpc). rewrite <- Hat1. done.
  - intros (-> & Hmax & segss & Hhd & Hsegs & Hf). apply Hpiece in Hhd.
    assert (Hvl : len (shape segss) = len values).
    { unfold shape. rewrite len_map. unfold len. by rewrite (Forall2_length _ _ _ Hf). }
    unfold header_body in Hhd. apply piece_app in Hhd as [Hpc Hpc2]; [|lia].
    pose proof (piece_le _ _ _ _ (proj1 Hp) Hpc) as Hp1. pose proof (len_nonneg values).
    assert (Hcnt : in_u 64 (len (shape segss))) by (unfold in_u, MAX_BATCH_ITEMS in *; lia).
    rewrite (proj2 (take_usize_iff header Hhdr at_ _ _ Hp) (conj Hcnt Hpc)). cbn [mbind result_bind].
    rewrite (proj2 (Z.ltb_ge _ _)) by lia.
    assert (Hheld : held (concat segss)) by (rewrite <- Hsegs; split; [lia|done]).
    rewrite (proj2 (take_items_iff header Hhdr (Z.to_nat (len (shape segss))) _ (shape segss) _ Hp1)) by
      (split_and!; [unfold len; lia|by apply lookup_shape_ok|exact Hpc2]).
    cbn [mbind result_bind]. rewrite Z.eqb_refl. cbn [negb].
    rewrite sum_checked_ok; [|apply counts_nonneg|].
    2: { rewrite sum_shape, <- Hsegs. zunfold. lia. }
    cbn [ok_or mbind result_bind]. rewrite Z.add_0_l, sum_shape, <- Hsegs, Z.eqb_refl. cbn [negb].
    rewrite (proj2 (decode_values_iff (shape segss) segs values)); [done|].
    exists segss, []. by rewrite app_nil_r.
Qed.
End NestedExact.

(** ** Batches of exact values are exact *)

Section Exact.
Context {T : Type} `{WireExact T}.

Lemma nested_exact values segss :
  held (concat segss) ->
  Forall2 decoded values segss <-> Forall exact_wf values /\ Forall2 encoded values segss.
Proof.
  intros Hh. assert (Hall : Forall held segss)
    by (apply Forall_forall; intros ss Hss; by eapply held_concat).
  clear Hh. revert segss Hall. induction values as [|v values IH]; intros segss Hall.
  - split; [intros ->%Forall2_nil_inv_l; split; constructor|]. by intros [_ ->%Forall2_nil_inv_l].
  - split.
    + intros (ss & segss' & Hv & Hf & ->)%Forall2_cons_inv_l. apply Forall_cons in Hall as [Hss Hall].
      apply IH in Hf as [Hw Hf]; [|done]. unfold decoded in Hv. apply exact_codec in Hv as [Hv He]; [|done].
      split; by constructor.
    + intros [[Hv Hw]%Forall_cons (ss & segss' & He & Hf & ->)%Forall2_cons_inv_l].
      apply Forall_cons in Hall as [Hss Hall]. constructor; [|by apply IH].
      unfold decoded. by apply exact_codec.
Qed.

Definition values_wf (values : list T) : Prop := len values <= MAX_BATCH_ITEMS /\ Forall exact_wf values.

(** Decoding nested values after a prefix of [p] bytes is the inverse of encoding
    them after that prefix. *)
Lemma nested_codec header segs prefix h values :
  held (header :: segs) -> take (length prefix) header = prefix -> len prefix <= len header ->
  decode_nested (header :: segs) (len prefix) = Ok (h, values) <->
  h = header /\ values_wf values /\ encode_nested values prefix = Ok (header :: segs).
Proof.
  intros Hh Hpre Hle. pose proof (len_nonneg prefix).
  rewrite decode_nested_iff by (done || lia). rewrite encode_nested_iff.
  unfold len at 2. rewrite Nat2Z.id, Hpre. unfold values_wf.
  assert (Hsub : forall segss, segs = concat segss -> held (concat segss)).
  { intros segss <-. destruct Hh as [Hn Hl]. rewrite len_cons in Hn. apply Forall_cons in Hl as [_ Hl].
    split; [lia|done]. }
  split.
  - intros (-> & Hmax & segss & Hhd & Hsegs & Hf). apply nested_exact in Hf as [Hw Hf]; [|auto].
    split_and!; try done. exists segss. split; [done|]. by rewrite <- Hhd, <- Hsegs.
  - intros (-> & [Hmax Hw] & _ & segss & Hf & Heq). injection Heq as Hhd Hsegs. split_and!; try done.
    exists segss. split_and!; [done|done|]. apply nested_exact; auto.
Qed.

Lemma take_first header v at_ :
  len header <= isize_max ->
  take_usize header 0 = Ok (v, at_) <-> in_u 64 v /\ at_ = 8 /\ take 8 header = le8 v.
Proof.
  intros Hl. rewrite take_usize_iff by (try done; pose proof (len_nonneg header); lia).
  unfold piece, le8, from. rewrite len_to_le_bytes. change (Z.to_nat 0) with 0%nat. rewrite drop_0. split.
  - intros (Hv & -> & Hle & Heq). split_and!; [done|done|]. rewrite Heq. apply take_app_length'.
    by rewrite length_to_le_bytes.
  - intros (Hv & -> & Heq). split_and!; [done|done| |].
    + apply (f_equal length) in Heq. rewrite length_take, length_to_le_bytes in Heq. unfold len. lia.
    + change (Z.to_nat (0 + Z.of_nat 8)) with 8%nat. change (Z.to_nat 8) with 8%nat. rewrite <- Heq.
      by rewrite take_drop.
Qed.

Definition mode_of (b : byte) : Handled LocalMode :=
  if byte_val b =? 0 then Ok Sequential
  else if byte_val b =? 1 then Ok Outer
  else if byte_val b =? 2 then Ok Inner
  else codec_error "invalid local mode".

Lemma mode_of_iff b m : mode_of b = Ok m <-> b = byte_of (mode_code m).
Proof.
  unfold mode_of. split.
  - intros Hm. apply byte_val_inj. rewrite byte_of_small by (destruct m; cbn; lia).
    destruct (byte_val b =? 0) eqn:E0; zbool; [injection Hm as <-; done|].
    destruct (byte_val b =? 1) eqn:E1; zbool; [injection Hm as <-; done|].
    destruct (byte_val b =? 2) eqn:E2; zbool; [injection Hm as <-; done|done].
  - intros ->. rewrite byte_of_small by (destruct m; cbn; lia). by destruct m.
Qed.

Definition batch_prefix (b : BatchAction T) : list byte :=
  le8 (action_start b) ++ [byte_of (mode_code (action_mode b))].

Lemma batch_codec s (b : BatchAction T) :
  held s ->
  wire_decode s = Ok b <->
  (in_u 64 (action_start b) /\ values_wf (action_items b)) /\ wire_encode b = Ok s.
Proof.
  intros Hh. destruct b as [start mode items].
  change (wire_encode (mkBatchAction start mode items))
    with (encode_nested items (batch_prefix (mkBatchAction start mode items))).
  cbn [action_start action_items].
  destruct s as [|header segs].
  { split; [done|]. intros [_ Henc]. apply encode_nested_iff in Henc as (_ & segss & _ & [=]). }
  assert (Hhd : len header <= isize_max) by (destruct Hh as [_ Hl]; by apply Forall_cons in Hl as [? _]).
  cbn [wire_decode wire_batch]. split.
  - intros Hd. bind_inv Hd. destruct a as [v at_]. apply take_first in E as (Hv & -> & H8); [|done].
    change (Z.to_nat 8) with 8%nat in Hd. destruct (header !! 8%nat) as [m|] eqn:Hm; [|done].
    fold (mode_of m) in Hd. bind_inv Hd. apply mode_of_iff in E.
    bind_inv Hd. destruct a0 as [h vs]. injection Hd as <- <- <-.
    assert (H9 : take 9 header = batch_prefix (mkBatchAction v a vs))
      by (unfold batch_prefix; cbn [action_start action_mode]; rewrite <- E, <- H8; by apply take_S_r).
    assert (Hl9 : length (batch_prefix (mkBatchAction v a vs)) = 9%nat)
      by (unfold batch_prefix, le8; by rewrite length_app, length_to_le_bytes).
    change (8 + 1) with (Z.of_nat 9) in E0. rewrite <- Hl9 in E0. fold (len (batch_prefix (mkBatchAction v a vs))) in E0.
    apply nested_codec in E0 as (_ & Hw & Henc); [|done|by rewrite Hl9|].
    + unfold batch_prefix in *. done.
    + unfold len. rewrite Hl9. apply lookup_lt_Some in Hm. lia.
  - intros [[Hv Hw] Henc]. set (b := mkBatchAction start mode items) in *.
    assert (Hl9 : length (batch_prefix b) = 9%nat) by (unfold batch_prefix, le8; by rewrite length_app, length_to_le_bytes).
    assert (Hex : exists body, header = batch_prefix b ++ body).
    { apply encode_nested_iff in Henc as (_ & segss & _ & Heq). injection Heq as -> _. eauto. }
    destruct Hex as [body Hbody].
    rewrite (proj2 (take_first header start 8 Hhd)).
    2: { split_and!; [done|done|]. rewrite Hbody. unfold batch_prefix. rewrite <- app_assoc.
         apply take_app_length'. by rewrite length_le8. }
    cbn [mbind result_bind]. change (Z.to_nat 8) with 8%nat.
    assert (Hm : header !! 8%nat = Some (byte_of (mode_code mode))).
    { rewrite Hbody. unfold batch_prefix. cbn [action_start action_mode b]. rewrite <- app_assoc.
      rewrite lookup_app_r by (rewrite length_le8; lia). by rewrite length_le8. }
    rewrite Hm. fold (mode_of (byte_of (mode_code mode))). rewrite (proj2 (mode_of_iff _ mode) eq_refl).
    cbn [mbind result_bind]. change (8 + 1) with (Z.of_nat 9). rewrite <- Hl9. fold (len (batch_prefix b)).
    rewrite (proj2 (nested_codec header segs (batch_prefix b) header items Hh
      ltac:(rewrite Hbody; by apply take_app_length') ltac:(rewrite Hbody, len_app; pose proof (len_nonneg body); lia)))
      by (split_and!; done).
    done.
Qed.

Lemma held_drop_tag tag s : held (tag :: s) -> held s.
Proof. intros [Hn Hl]. rewrite len_cons in Hn. apply Forall_cons in Hl as [_ Hl]. split; [lia|done]. Qed.

Definition reply_item_wf (r : ReplyWire T) : Prop :=
  match r with
  | Reply_Ok v => exact_wf v
  | Reply_Err e => utf8_valid e = true /\ len e <= Z.of_nat MAX_ERROR_BYTES
  end.

Lemma reply_item_codec s (r : ReplyWire T) :
  held s -> wire_decode s = Ok r <-> reply_item_wf r /\ wire_encode r = Ok s.
Proof.
  intros Hh. cbn [wire_decode wire_encode wire_reply_item]. destruct s as [|tag s].
  { split; [done|]. intros [_ Henc]. destruct r; [bind_inv Henc|]; done. }
  pose proof (held_drop_tag _ _ Hh) as Hs. split.
  - case_bool_decide as Htag.
    + intros Hd. bind_inv Hd. injection Hd as <-. apply exact_codec in E as [Hw He]; [|done].
      split; [done|]. rewrite He. cbn. by rewrite Htag.
    + case_bool_decide as Htag1; [|done]. destruct s as [|e [|? ?]]; [done| |done].
      destruct (Z.ltb_spec (Z.of_nat MAX_ERROR_BYTES) (len e)); [done|].
      destruct (utf8_valid e) eqn:Hu; [|done]. intros [= <-]. split; [done|]. by rewrite Htag1.
  - intros [Hw Henc]. destruct r as [v|e].
    + bind_inv Henc. injection Henc as <- <-. rewrite bool_decide_eq_true_2 by done.
      by rewrite (proj2 (exact_codec a v Hs) (conj Hw E)).
    + injection Henc as <- <-. destruct Hw as [Hu Hl].
      rewrite bool_decide_eq_false_2 by done. rewrite bool_decide_eq_true_2 by done.
      by rewrite (proj2 (Z.ltb_ge _ _) Hl), Hu.
Qed.
End Exact.

#[export, refine] Instance batch_exact {T} `{WireExact T} : WireExact (BatchAction T) :=
  {| exact_wf := fun b => in_u 64 (action_start b) /\ values_wf (action_items b) |}.
Proof. intros s b Hh. by apply batch_codec. Defined.

#[export, refine] Instance reply_item_exact {T} `{WireExact T} : WireExact (ReplyWire T) :=
  {| exact_wf := reply_item_wf |}.
Proof. intros s r Hh. by apply reply_item_codec. Defined.

(** ** Messages are cut to whole characters *)

Lemma longest_cut_shorter n m e t :
  utf8_valid m = true -> (n < length m)%nat -> boundary_at_most m (length m - 1) = Some e ->
  longest_cut n (take e m) t -> longest_cut n m t.
Proof.
  intros Hv Hn He (Ht & Htv & Hle & Hshort & Hlong & Hmax).
  destruct (boundary_at_most_spec m (length m - 1)) as (e' & He' & Hle' & Hb & Hnone).
  assert (e' = e) as -> by congruence.
  assert (Hte : (length t <= e)%nat).
  { apply (f_equal length) in Ht. rewrite !length_take in Ht. lia. }
  assert (Hcut : forall t', t' = take (length t') m -> utf8_valid t' = true -> (length t' <= n)%nat ->
      (length t' <= length t)%nat).
  { intros t' Ht' Hvt' Hlt'. apply Hmax; try done. rewrite take_take, Nat.min_l; [done|].
    destruct (decide (e < length t')%nat) as [Hgt|]; [|lia].
    assert (Hbt : is_char_boundary m (length t') = true).
    { apply boundary_iff_valid; [done|lia|]. by rewrite <- Ht'. }
    rewrite Hnone in Hbt by lia. done. }
  split_and!; try done.
  - rewrite Ht at 1. rewrite take_take. by rewrite Nat.min_l.
  - lia.
  - intros _. destruct (boundary_near m Hv n) as (j & Hj & Hbj); [lia|].
    assert (Hvj : utf8_valid (take j m) = true) by (apply boundary_iff_valid; [done|lia|done]).
    assert (Hlj : length (take j m) = j) by (rewrite length_take; lia).
    specialize (Hcut (take j m)). rewrite Hlj in Hcut. specialize (Hcut eq_refl Hvj ltac:(lia)). lia.
Qed.

Lemma pop_shorter t : utf8_valid t = true -> t <> [] ->
  exists e, boundary_at_most t (length t - 1) = Some e /\ pop t = take e t /\ (length (pop t) < length t)%nat /\
    utf8_valid (pop t) = true.
Proof.
  intros Hv Ht. unfold pop. destruct (length t) as [|n] eqn:Hl; [by destruct t|].
  replace (S n - 1)%nat with n by lia.
  destruct (boundary_at_most_spec t n) as (e & He & Hle & Hb & _). rewrite He. exists e.
  split_and!; [done|done|rewrite length_take; lia|]. apply boundary_iff_valid; [done|lia|done].
Qed.

Lemma pop_loop_cut fuel : forall t, utf8_valid t = true -> (length t <= fuel)%nat ->
  exists t', pop_loop fuel t = Some t' /\ longest_cut 4096 t t'.
Proof.
  induction fuel as [|fuel IH]; intros t Hv Hf; cbn [pop_loop]; unfold MAX_ERROR_BYTES;
    destruct (Nat.leb_spec (length t) 4096) as [Hl|Hl];
    try (exists t; split; [done|by apply longest_cut_self]); [lia|].
  destruct (pop_shorter t Hv) as (e & He & Hp & Hlt & Hvp); [intros ->; cbn in Hl; lia|].
  destruct (IH (pop t) Hvp ltac:(lia)) as (t' & Ht' & Hcut). exists t'. split; [done|].
  rewrite Hp in Hcut. by apply (longest_cut_shorter 4096 t e).
Qed.

Section ReplyExact.
Context {T : Type} `{WireExact T}.

(** What arrives for an item of a reply. *)
Definition delivered (sent received : ItemReply T) : Prop :=
  match sent, received with
  | Item_Ok v, Item_Ok v' => v' = v
  | Item_Err m, Item_Err m' => longest_cut 4096 m m'
  | _, _ => False
  end.

(** An item as it can be produced, and one as it can be received. *)
Definition item_sendable (i : ItemReply T) : Prop :=
  match i with Item_Ok v => exact_wf v | Item_Err m => utf8_valid m = true end.
Definition item_wf (i : ItemReply T) : Prop :=
  match i with
  | Item_Ok v => exact_wf v
  | Item_Err m => utf8_valid m = true /\ len m <= Z.of_nat MAX_ERROR_BYTES
  end.
Definition reply_wf (r : BatchReply T) : Prop :=
  in_u 64 (reply_start r) /\ len (reply_items r) <= MAX_BATCH_ITEMS /\ Forall item_wf (reply_items r).

Lemma reply_wire_delivered i :
  item_sendable i -> exists w, reply_wire i = Ok w /\ reply_item_wf w /\ delivered i (item_reply w).
Proof.
  intros Hi. destruct i as [v|m]; cbn [reply_wire]; [by exists (Reply_Ok v)|].
  destruct (pop_loop_cut (length m) m Hi (Nat.le_refl _)) as (m' & -> & Hcut). exists (Reply_Err m').
  split_and!; [done| |done]. destruct Hcut as (_ & Hv & Hl & _). split; [done|]. unfold len, MAX_ERROR_BYTES. lia.
Qed.

Lemma reply_items_delivered items :
  Forall item_sendable items -> exists ws, mapR reply_wire items = Ok ws /\ Forall reply_item_wf ws /\
    Forall2 delivered items (map item_reply ws).
Proof.
  induction 1 as [|i items Hi _ (ws & Hws & Hwf & Hdel)]; [by exists []|].
  destruct (reply_wire_delivered i Hi) as (w & Hw & Hwfw & Hd). exists (w :: ws). cbn [mapR].
  rewrite Hw, Hws. split_and!; [done|by constructor|by constructor].
Qed.

Lemma delivered_wf i j : item_wf i -> delivered i j -> j = i.
Proof.
  destruct i as [v|m], j as [v'|m']; cbn; try done; [by intros _ ->|].
  intros [_ Hl] (_ & _ & _ & Hshort & _). f_equal. apply Hshort. unfold len, MAX_ERROR_BYTES in Hl. lia.
Qed.

Lemma delivered_all items items' : Forall item_wf items -> Forall2 delivered items items' -> items' = items.
Proof.
  intros Hall Hd. revert Hall. induction Hd as [|i j items items' Hij _ IH]; intros Hall; [done|].
  apply Forall_cons in Hall as [Hi Hall]. f_equal; [by apply delivered_wf|by apply IH].
Qed.

(** Decoding a reply gives well-formed items whose encoding it is. *)
Lemma decode_reply_iff s start ws :
  held s ->
  (exists header segs at_ h, s = header :: segs /\ take_usize header 0 = Ok (start, at_) /\
     decode_nested (T := ReplyWire T) s at_ = Ok (h, ws)) <->
  in_u 64 start /\ values_wf ws /\ encode_nested ws (le8 start) = Ok s.
Proof.
  intros Hh. split.
  - intros (header & segs & at_ & h & -> & Hst & Hd).
    assert (Hhd : len header <= isize_max) by (destruct Hh as [_ Hl]; by apply Forall_cons in Hl as [? _]).
    apply take_first in Hst as (Hv & -> & H8); [|done]. split; [done|].
    change 8 with (Z.of_nat 8) in Hd. rewrite <- (length_le8 start) in Hd. fold (len (le8 start)) in Hd.
    assert (Hlen : length (take 8 header) = 8%nat) by (by rewrite H8, length_le8).
    apply nested_codec in Hd as (_ & Hw & Henc); [done|done|by rewrite length_le8|].
    unfold len. rewrite length_le8. rewrite length_take in Hlen. lia.
  - intros (Hv & Hw & Henc).
    pose proof Henc as (_ & segss & _ & Heq)%encode_nested_iff. destruct s as [|header segs]; [done|].
    assert (Hhd : header = le8 start ++ header_body (shape segss)) by congruence.
    exists header, segs, 8, header.
    assert (Hl : len header <= isize_max) by (destruct Hh as [_ Hl]; by apply Forall_cons in Hl as [? _]).
    assert (H8 : take 8 header = le8 start) by (rewrite Hhd; apply take_app_length'; by rewrite length_le8).
    split_and!; [done|by apply take_first|].
    change 8 with (Z.of_nat 8). rewrite <- (length_le8 start). fold (len (le8 start)).
    apply nested_codec; [done|by rewrite length_le8| |done].
    rewrite Hhd, len_app. pose proof (len_nonneg (header_body (shape segss))). lia.
Qed.

Lemma reply_decodes s (r : BatchReply T) :
  wire_decode s = Ok r <->
  exists ws header segs at_ h, reply_items r = map item_reply ws /\ s = header :: segs /\
    take_usize header 0 = Ok (reply_start r, at_) /\ decode_nested (T := ReplyWire T) s at_ = Ok (h, ws).
Proof.
  destruct r as [start items]. cbn [reply_items reply_start wire_decode wire_reply]. split.
  - intros Hd. destruct s as [|header segs]; [done|]. bind_inv Hd. destruct a as [st at_].
    bind_inv Hd. destruct a as [h ws]. injection Hd as <- <-. by exists ws, header, segs, at_, h.
  - intros (ws & header & segs & at_ & h & -> & -> & Hst & Hd). rewrite Hst. cbn [mbind result_bind].
    by rewrite Hd.
Qed.

Lemma item_reply_inj ws ws' : map (@item_reply T) ws = map item_reply ws' -> ws = ws'.
Proof.
  revert ws'. induction ws as [|w ws IH]; intros [|w' ws'] Heq; try done.
  injection Heq as Hw Hws. f_equal; [|by apply IH]. destruct w, w'; cbn in Hw; congruence.
Qed.

Lemma item_wf_sendable i : item_wf i -> item_sendable i.
Proof. destruct i; cbn; naive_solver. Qed.

Lemma reply_codec s (r : BatchReply T) :
  held s -> wire_decode s = Ok r <-> reply_wf r /\ wire_encode r = Ok s.
Proof.
  intros Hh. rewrite reply_decodes. destruct r as [start items]. unfold reply_wf.
  cbn [reply_items reply_start wire_encode wire_reply]. split.
  - intros (ws & header & segs & at_ & h & -> & Hs & Hst & Hd).
    destruct (proj1 (decode_reply_iff s start ws Hh)) as (Hv & [Hmax Hw] & Henc); [by eauto 10|].
    assert (Hitems : Forall item_wf (map item_reply ws))
      by (apply Forall_map; eapply Forall_impl; [exact Hw|]; intros []; done).
    split; [split_and!; [done|by rewrite len_map|done]|].
    destruct (reply_items_delivered (map item_reply ws)) as (ws' & Hws & _ & Hdel);
      [eapply Forall_impl; [exact Hitems|apply item_wf_sendable]|].
    apply delivered_all in Hdel; [|done]. apply item_reply_inj in Hdel as ->. rewrite Hws. done.
  - intros ((Hv & Hmax & Hitems) & Henc).
    destruct (reply_items_delivered items) as (ws & Hws & Hwf & Hdel);
      [eapply Forall_impl; [exact Hitems|apply item_wf_sendable]|].
    apply delivered_all in Hdel; [|done]. rewrite Hws in Henc. cbn [mbind result_bind] in Henc.
    destruct (proj2 (decode_reply_iff s start ws Hh)) as (header & segs & at_ & h & Hs & Hst & Hd).
    { split_and!; [done| |done]. split; [|done]. rewrite <- Hdel, len_map in Hmax. done. }
    by exists ws, header, segs, at_, h.
Qed.
End ReplyExact.

#[export, refine] Instance reply_exact {T} `{WireExact T} : WireExact (BatchReply T) :=
  {| exact_wf := reply_wf |}.
Proof. intros s r Hh. by apply reply_codec. Defined.

(** ** Properties *)

(** The batch codecs are exact.  For item codecs that accept precisely what
    they produce, a batch or a reply is decoded from precisely the segments it
    is encoded to: nothing else is accepted, no trailing bytes, no spare or
    missing segment, no other length, no unknown mode or tag, no message longer
    than 4096 bytes, and no batch of more than 1048576 items. *)
Theorem batch_codecs_exact {A U} `{WireExact A} `{WireExact U} s (b : BatchAction A) (r : BatchReply U) :
  held s ->
  (wire_decode s = Ok b <->
     (in_u 64 (action_start b) /\ len (action_items b) <= MAX_BATCH_ITEMS /\ Forall exact_wf (action_items b)) /\
     wire_encode b = Ok s) /\
  (wire_decode s = Ok r <->
     (in_u 64 (reply_start r) /\ len (reply_items r) <= MAX_BATCH_ITEMS /\ Forall item_wf (reply_items r)) /\
     wire_encode r = Ok s).
Proof. intros Hh. split; [by apply batch_codec|by apply reply_codec]. Qed.

(** Replies arrive whole but for long messages.  The encoding of a reply
    decodes to the same values in the same places, and every error message
    arrives as the longest prefix of whole characters of at most 4096 bytes. *)
Theorem reply_messages_cut {T} `{WireExact T} s (r : BatchReply T) :
  held s -> in_u 64 (reply_start r) -> Forall item_sendable (reply_items r) -> wire_encode r = Ok s ->
  exists items, wire_decode s = Ok (mkBatchReply (reply_start r) items) /\ Forall2 delivered (reply_items r) items.
Proof.
  intros Hh Hv Hitems Henc. destruct (reply_items_delivered _ Hitems) as (ws & Hws & Hwf & Hdel).
  cbn [wire_encode wire_reply] in Henc. rewrite Hws in Henc. cbn [mbind result_bind] in Henc.
  pose proof Henc as (Hmax & _)%encode_nested_iff.
  exists (map item_reply ws). split; [|done]. apply reply_decodes.
  destruct (proj2 (decode_reply_iff s (reply_start r) ws Hh)) as (header & segs & at_ & h & Hs & Hst & Hd);
    [by split_and!|].
  by exists ws, header, segs, at_, h.
Qed.

(** A reply of one 24-byte header makes its receiver panic.  The number of
    segments of an item is read from the header and a vector of that capacity is
    allocated before anything is checked: a count whose vector would exceed
    [isize::MAX] bytes panics, in the caller's [poll] for a reply, although no
    segment follows. *)
Theorem huge_count_panics {T} `{WireValue T} start n :
  in_u 64 start -> in_u 64 n -> isize_max < n * 8 ->
  wire_decode (T := BatchReply T) [le8 start ++ le8 1 ++ le8 n] = Err Panic.
Proof.
  intros Hs Hn Hbig. set (header := le8 start ++ le8 1 ++ le8 n).
  assert (Hl : len header = 24) by (unfold header; rewrite !len_app; unfold len; by rewrite !length_le8).
  assert (Hfits : len header <= isize_max) by (rewrite Hl; zunfold; lia).
  assert (Hall : piece header 0 header 24).
  { unfold piece, from. change (Z.to_nat 0) with 0%nat. rewrite drop_0, Hl. split_and!; try lia.
    rewrite drop_ge by (unfold len in Hl; lia). by rewrite app_nil_r. }
  unfold header in Hall at 2. apply piece_app in Hall as [H0p Hall]; [|lia].
  apply piece_app in Hall as [H1p H2p]; [|unfold len; rewrite length_le8; lia].
  assert (L : forall z, len (le8 z) = 8) by (intros z; unfold len; by rewrite length_le8).
  rewrite !L in H0p, H1p, H2p.
  assert (Hp : 0 <= 0 <= len header /\ 0 <= 8 <= len header /\ 0 <= 16 <= len header) by (rewrite Hl; lia).
  destruct Hp as (Hp0 & Hp8 & Hp16). assert (Hone : in_u 64 1) by (unfold in_u; lia).
  cbn [wire_decode wire_reply].
  rewrite (proj2 (take_usize_iff header Hfits 0 start 8 Hp0) (conj Hs H0p)). cbn [mbind result_bind decode_nested].
  rewrite (proj2 (take_usize_iff header Hfits 8 1 16 Hp8) (conj Hone H1p)).
  cbn [mbind result_bind]. change (MAX_BATCH_ITEMS <? 1) with false. change (Z.to_nat 1) with 1%nat.
  cbn [take_items]. rewrite (proj2 (take_usize_iff header Hfits 16 n 24 Hp16) (conj Hn H2p)).
  cbn [mbind result_bind]. unfold with_capacity. by rewrite (proj2 (Z.leb_gt _ _)).
Qed.

(** ** Examples *)

Definition ex_batch : BatchAction u64 := mkBatchAction 2 Outer [U64 7; U64 8].
Definition ex_batch_segments : Segments :=
  match wire_encode ex_batch with Ok s => s | Err _ => [] end.
Definition ex_reply : BatchReply string_value := mkBatchReply 2 [Item_Ok (Str (lit "a")); Item_Err (lit "boom")].
Definition ex_reply_segments : Segments :=
  match wire_encode ex_reply with Ok s => s | Err _ => [] end.

Lemma batch_codecs_exact_witness :
  wire_decode ex_batch_segments = Ok ex_batch /\
  (wire_decode (T := BatchReply string_value) ex_batch_segments = Ok ex_reply -> wire_encode ex_reply = Ok ex_batch_segments).
Proof.
  assert (Hh : held ex_batch_segments).
  { split; [vm_compute; discriminate|]. repeat constructor; vm_compute; discriminate. }
  destruct (batch_codecs_exact ex_batch_segments ex_batch ex_reply Hh) as [Hb Hr]. split.
  - apply Hb. split; [|vm_compute; reflexivity].
    split; [unfold in_u; cbn; lia|]. split; [vm_compute; discriminate|].
    repeat constructor; cbn; unfold in_u; lia.
  - intros Hd. apply Hr in Hd as [_ Hd]. exact Hd.
Defined.

Lemma reply_messages_cut_witness :
  exists items, wire_decode ex_reply_segments = Ok (mkBatchReply 2 items) /\
    Forall2 delivered (reply_items ex_reply) items.
Proof.
  apply (reply_messages_cut ex_reply_segments ex_reply).
  - split; [vm_compute; discriminate|]. repeat constructor; vm_compute; discriminate.
  - unfold in_u. cbn. lia.
  - repeat constructor.
  - vm_compute. reflexivity.
Defined.

Lemma huge_count_panics_witness :
  wire_decode (T := BatchReply u64) [le8 0 ++ le8 1 ++ le8 (2 ^ 60)] = Err Panic.
Proof. apply (huge_count_panics 0 (2 ^ 60)); unfold in_u; zunfold; lia. Defined.
