(* ===== verification/BatchPmap.v ===== *)
(** * BatchPmap: the initiator-side [pmap]

    Models the controller of [crates/hataori-algorithms/src/batch.rs]
    ([PmapFuture], [build], the [pmap] entry points and the batch handler).
    The futures of submitted batches belong to the runtime:
    the controller sees an interface ([submit], [poll_batch]) over an environment
    [E] and what a runtime promises about it ([HonestService]).  [poll] answers
    [None] for [Poll::Pending] and raises the error of [Poll::Ready(Err(_))].
    A [usize] addition that overflows is a panic, as in a debug build. *)
From S2P Require Import Prelude Text Protocol Error RuntimeTypes RuntimeWire Action BatchWire.

(** ** The batch handler *)

Section Handler.
Context {A U : Type}.
(** [Debug] of a string, and [into_par_iter().map(f).collect()] of rayon, which
    may run the calls in any order on any threads, and collects the results in
    the order of the items. *)
Context (debug_str : text -> text).
Context (par_collect : (A -> Handled (ItemReply U)) -> list A -> Handled (list (ItemReply U))).

Definition apply_item (handler : A -> Handled U) (item : A) : Handled (ItemReply U) :=
  match handler item with
  | Ok v => Ok (Item_Ok v)
  | Err (Raise e) => Ok (Item_Err (ActionError_to_string debug_str e))
  | Err Panic => Err Panic
  end.

Definition batch_handler (handler : A -> Handled U) (batch : BatchAction A) : Handled (BatchReply U) :=
  items ← match action_mode batch with
          | Outer => par_collect (apply_item handler) (action_items batch)
          | _ => mapR (apply_item handler) (action_items batch)
          end;
  Ok (mkBatchReply (action_start batch) items).
End Handler.

(** ** The controller *)

Record ControllerStats : Type := mkControllerStats {
  item_count : Z; batch_count : Z; peak_in_flight : Z; placement_submissions : Z;
}.

Section Controller.
(** [F] is the type of a submitted batch's future. *)
Context {A U F E : Type}.
Context (submit : BatchAction A -> E -> result RuntimeError F * E).
Context (poll_batch : F -> E -> option (result RuntimeError (BatchReply U)) * E).

Record PmapFuture : Type := mkPmapFuture {
  pending : list (Z * list A);
  slots : list F;
  options : PmapOptions;
  outputs : list (option U);
  first_error : option (Z * text);
  stats : ControllerStats;
  done : bool;
  env : E;
}.

Abbreviation PM := (M PmapFuture AlgorithmError).

Definition set_pending p (s : PmapFuture) :=
  mkPmapFuture p (slots s) (options s) (outputs s) (first_error s) (stats s) (done s) (env s).
Definition set_slots l (s : PmapFuture) :=
  mkPmapFuture (pending s) l (options s) (outputs s) (first_error s) (stats s) (done s) (env s).
Definition set_outputs o (s : PmapFuture) :=
  mkPmapFuture (pending s) (slots s) (options s) o (first_error s) (stats s) (done s) (env s).
Definition set_first_error e (s : PmapFuture) :=
  mkPmapFuture (pending s) (slots s) (options s) (outputs s) e (stats s) (done s) (env s).
Definition set_stats x (s : PmapFuture) :=
  mkPmapFuture (pending s) (slots s) (options s) (outputs s) (first_error s) x (done s) (env s).
Definition set_done (s : PmapFuture) :=
  mkPmapFuture (pending s) (slots s) (options s) (outputs s) (first_error s) (stats s) true (env s).
Definition set_env e (s : PmapFuture) :=
  mkPmapFuture (pending s) (slots s) (options s) (outputs s) (first_error s) (stats s) (done s) e.

(** Calls into the environment. *)
Definition do_submit (b : BatchAction A) : PM (result RuntimeError F) := fun s =>
  let '(r, e) := submit b (env s) in (Ok r, set_env e s).
Definition do_poll (f : F) : PM (option (result RuntimeError (BatchReply U))) := fun s =>
  let '(r, e) := poll_batch f (env s) in (Ok r, set_env e s).

(** [return Poll::Ready(Err(e))] after [this.done = true]. *)
Definition fail {X} (e : AlgorithmError) : PM X := modify set_done;; raise e.

(** The first loop: submit while there is room; [p] is [pending] itself. *)
Fixpoint fill (p : list (Z * list A)) : PM unit :=
  match p with
  | [] => mret tt
  | (start, items) :: p' =>
      s ← gets id;
      if len (slots s) <? inflight_limit (options s) then
        modify (set_pending p');;
        r ← do_submit (mkBatchAction start (local_mode (options s)) items);
        match r with
        | Err e => fail (AlgorithmError_Runtime e)
        | Ok f =>
            modify (fun s => set_slots (slots s ++ [f]) s);;
            modify (fun s => set_stats
              (mkControllerStats (item_count (stats s)) (batch_count (stats s))
                 (Z.max (peak_in_flight (stats s)) (len (slots s))) (placement_submissions (stats s) + 1)) s);;
            fill p'
        end
      else mret tt
  end.

(** [Vec::swap_remove]. *)
Definition swap_remove {X} (i : nat) (l : list X) : list X :=
  match last l with
  | Some x => if Nat.eqb (S i) (length l) then take i l else <[i := x]> (take (length l - 1) l)
  | None => l
  end.

(** The loop over the items of a reply. *)
Fixpoint store_items (start offset : Z) (items : list (ItemReply U)) : PM unit :=
  match items with
  | [] => mret tt
  | item :: rest =>
      index ← match checked_add usize_max start offset with Some i => mret i | None => panic end;
      match item with
      | Item_Ok v =>
          s ← gets id;
          if (len (outputs s) <=? index)
             || match outputs s !! Z.to_nat index with Some (Some _) => true | _ => false end
          then fail (AlgorithmError_Protocol "invalid batch result index")
          else modify (fun s => set_outputs (<[Z.to_nat index := Some v]> (outputs s)) s)
      | Item_Err message =>
          s ← gets id;
          mwhen (match first_error s with None => true | Some (old, _) => index <? old end)
            (modify (set_first_error (Some (index, message))))
      end;;
      store_items start (offset + 1) rest
  end.

(** The second loop, from slot [i]; every turn passes or removes a slot. *)
Fixpoint scan (fuel : nat) (i : nat) (progress : bool) : PM bool :=
  match fuel with
  | O => mret progress
  | S fuel' =>
      slot ← gets (fun s => slots s !! i);
      match slot with
      | None => mret progress
      | Some f =>
          r ← do_poll f;
          match r with
          | None => scan fuel' (S i) progress
          | Some (Err e) => fail (AlgorithmError_Runtime e)
          | Some (Ok reply) =>
              modify (fun s => set_slots (swap_remove i (slots s)) s);;
              store_items (reply_start reply) 0 (reply_items reply);;
              scan fuel' i true
          end
      end
  end.

(** The last loop: take every output, the first missing one is an error; [k] is
    the number already taken. *)
Fixpoint take_outputs (k : nat) (values : list (option U)) : PM (list U) :=
  match values with
  | [] => mret []
  | value :: rest =>
      modify (fun s => set_outputs (<[k := None]> (outputs s)) s);;
      v ← lift (ok_or value (AlgorithmError_Protocol "missing batch result"));
      out ← take_outputs (S k) rest;
      mret (v :: out)
  end.

Definition finish : PM (option (list U * ControllerStats)) :=
  modify set_done;;
  e ← gets first_error;
  modify (set_first_error None);;
  match e with
  | Some (index, message) => raise (AlgorithmError_Callback index message)
  | None =>
      values ← gets outputs;
      out ← take_outputs 0 values;
      st ← gets stats;
      mret (Some (out, st))
  end.

(** The outer loop; [fuel] bounds its turns, every one but the last removing a
    slot. *)
Fixpoint poll_loop (fuel : nat) : PM (option (list U * ControllerStats)) :=
  match fuel with
  | O => panic
  | S fuel' =>
      p ← gets pending;
      fill p;;
      l ← gets slots;
      progress ← scan (length l) 0 false;
      s ← gets id;
      match pending s, slots s with
      | [], [] => finish
      | _, _ => if progress : bool then poll_loop fuel' else mret None
      end
  end.

Definition poll : PM (option (list U * ControllerStats)) :=
  s ← gets id;
  poll_loop (S (length (pending s) + length (slots s))).

(** [source.by_ref().take(batch_size)], chunk by chunk. *)
Fixpoint chunks (fuel : nat) (size : nat) (start : Z) (items : list A) : list (Z * list A) :=
  match fuel, items with
  | S fuel', _ :: _ => (start, take size items) :: chunks fuel' size (start + len (take size items)) (drop size items)
  | _, _ => []
  end.

Definition build (items : list A) (o : PmapOptions) (e : E) : result AlgorithmError PmapFuture :=
  validate o;;
  let p := chunks (length items) (Z.to_nat (batch_size o)) 0 items in
  Ok (mkPmapFuture p [] o (replicate (length items) None) None
        (mkControllerStats (len items) (len p) 0 0) false e).
End Controller.

(** ** Lists *)

Lemma swap_remove_perm {X} i (l : list X) x : l !! i = Some x -> l ≡ₚ x :: swap_remove i l.
Proof.
  intros Hi. unfold swap_remove. destruct (last l) as [y|] eqn:Hlast; [|by apply last_None in Hlast as ->].
  destruct (Nat.eqb_spec (S i) (length l)) as [Heq|Hne].
  - rewrite <- (take_drop_middle l i x Hi) at 1. rewrite (drop_ge l (S i)) by lia.
    apply Permutation_app_comm.
  - assert (Hi' : (i < length l - 1)%nat) by (apply lookup_lt_Some in Hi; lia).
    assert (Hl : l = take (length l - 1) l ++ [y]).
    { rewrite last_lookup in Hlast. replace (length l - 1)%nat with (pred (length l)) by lia.
      rewrite <- (take_drop (pred (length l)) l) at 1. f_equal.
      rewrite (drop_S _ y) by done. f_equal. apply drop_ge. lia. }
    set (k := take (length l - 1) l) in *.
    assert (Hk : k !! i = Some x) by (unfold k; by rewrite lookup_take_lt).
    rewrite Hl. rewrite <- (take_drop_middle k i x Hk) at 1. rewrite insert_take_drop by (by eapply lookup_lt_Some).
    generalize (take i k) as a, (drop (S i) k) as b. intros a b.
    rewrite <- !Permutation_middle, Permutation_app_comm. cbn. by rewrite perm_swap.
Qed.

Lemma swap_remove_lookup {X} i j (l : list X) y : swap_remove i l !! j = Some y -> y ∈ l.
Proof.
  intros Hj. destruct (l !! i) as [x|] eqn:Hi.
  - rewrite (swap_remove_perm i l x Hi). right. by eapply list_elem_of_lookup_2.
  - unfold swap_remove in Hj. destruct (last l) as [z|] eqn:Hlast; [|by eapply list_elem_of_lookup_2].
    apply lookup_ge_None in Hi. destruct (Nat.eqb_spec (S i) (length l)); [lia|].
    rewrite list_insert_ge in Hj by (rewrite length_take; lia).
    apply lookup_take_Some in Hj as [Hj _]. by eapply list_elem_of_lookup_2.
Qed.

(** ** Batches as indexed items *)

Section Indexed.
Context {A : Type}.

Definition indexed_from (k : nat) (items : list A) : list (nat * A) := imap (fun j x => ((k + j)%nat, x)) items.
Definition batch_items (b : Z * list A) : list (nat * A) := indexed_from (Z.to_nat b.1) b.2.

Lemma indexed_from_cons k x items : indexed_from k (x :: items) = (k, x) :: indexed_from (S k) items.
Proof.
  unfold indexed_from. cbn. f_equal; [f_equal; lia|]. apply imap_ext. intros j y _. cbn. f_equal. lia.
Qed.

Lemma indexed_from_app k l1 l2 : indexed_from k (l1 ++ l2) = indexed_from k l1 ++ indexed_from (k + length l1) l2.
Proof.
  revert k. induction l1 as [|x l1 IH]; intros k; cbn [app length]; [by rewrite Nat.add_0_r|].
  rewrite !indexed_from_cons, IH. cbn. do 3 f_equal. lia.
Qed.

Lemma elem_indexed_from k items i x :
  (i, x) ∈ indexed_from k items <-> (k <= i)%nat /\ items !! (i - k)%nat = Some x.
Proof.
  revert k. induction items as [|y items IH]; intros k.
  - cbn. split; [by intros ?%elem_of_nil|by intros [_ ?]].
  - rewrite indexed_from_cons, elem_of_cons, IH. split.
    + intros [[= -> ->]|[Hle Hl]].
      * split; [lia|]. by rewrite Nat.sub_diag.
      * split; [lia|]. by replace (i - k)%nat with (S (i - S k)) by lia.
    + intros [Hle Hl]. destruct (decide (i = k)) as [->|Hne].
      * left. rewrite Nat.sub_diag in Hl. cbn in Hl. congruence.
      * right. split; [lia|]. by replace (i - k)%nat with (S (i - S k)) in Hl by lia.
Qed.

Lemma indexed_fst k items : (indexed_from k items).*1 = seq k (length items).
Proof.
  revert k. induction items as [|x items IH]; intros k; [done|]. rewrite indexed_from_cons. cbn. by rewrite IH.
Qed.

Lemma indexed_nodup k items : NoDup (indexed_from k items).*1.
Proof. rewrite indexed_fst. apply NoDup_seq. Qed.

(** Chunking covers the items, each once, in order. *)
Lemma chunks_cover fuel size start items :
  (0 < size)%nat -> 0 <= start -> (length items <= fuel)%nat ->
  chunks fuel size start items ≫= batch_items = indexed_from (Z.to_nat start) items.
Proof.
  intros Hsize. revert start items. induction fuel as [|fuel IH]; intros start items Hs Hf.
  { destruct items; [done|cbn in Hf; lia]. }
  destruct items as [|x items]; [done|]. set (l := x :: items) in *.
  assert (Hch : chunks (S fuel) size start l =
    (start, take size l) :: chunks fuel size (start + len (take size l)) (drop size l)) by done.
  rewrite Hch. cbn [mbind list_bind].
  change (batch_items (start, take size l) ++ (chunks fuel size (start + len (take size l)) (drop size l) ≫= batch_items)
    = indexed_from (Z.to_nat start) l).
  pose proof (len_nonneg (take size l)).
  rewrite IH by (try lia; rewrite length_drop; cbn [length l] in *; lia).
  rewrite <- (take_drop size l) at 4. rewrite indexed_from_app. unfold batch_items. cbn [fst snd]. f_equal.
  f_equal. rewrite Z2Nat.inj_add by lia. unfold len. by rewrite Nat2Z.id.
Qed.

Lemma chunks_bounds fuel size start (items : list A) (b : Z * list A) :
  (0 < size)%nat -> 0 <= start -> b ∈ chunks fuel size start items ->
  start <= b.1 /\ b.1 + len b.2 <= start + len items.
Proof.
  intros Hsize. revert start items. induction fuel as [|fuel IH]; intros start items Hs Hin; [by apply elem_of_nil in Hin|].
  destruct items as [|x items]; [by apply elem_of_nil in Hin|]. set (l := x :: items) in *.
  change (b ∈ (start, take size l) :: chunks fuel size (start + len (take size l)) (drop size l)) in Hin.
  pose proof (len_nonneg (take size l)). pose proof (len_nonneg (drop size l)).
  assert (Hl : len l = len (take size l) + len (drop size l)) by (by rewrite <- len_app, take_drop).
  apply elem_of_cons in Hin as [->|Hin]; [cbn [fst snd]; lia|].
  apply IH in Hin; [|lia]. lia.
Qed.

Lemma chunks_length fuel size start (items : list A) :
  (0 < size)%nat -> (length items <= fuel)%nat ->
  len (chunks fuel size start items) = (len items + Z.of_nat size - 1) / Z.of_nat size.
Proof.
  intros Hsize. revert start items. induction fuel as [|fuel IH]; intros start items Hf.
  { destruct items; [|cbn in Hf; lia]. symmetry. apply Z.div_small. unfold len. cbn [length]. lia. }
  destruct items as [|x items]; [symmetry; apply Z.div_small; unfold len; cbn [length]; lia|]. set (l := x :: items) in *.
  change (len ((start, take size l) :: chunks fuel size (start + len (take size l)) (drop size l)) =
    (len l + Z.of_nat size - 1) / Z.of_nat size).
  rewrite len_cons, IH by (rewrite length_drop; cbn [length l] in *; lia).
  assert (Hpos : 1 <= len l) by (unfold l; rewrite len_cons; pose proof (len_nonneg items); lia).
  destruct (decide (size <= length l)%nat) as [Hle|Hgt].
  - assert (Hd : len (drop size l) = len l - Z.of_nat size) by (unfold len; rewrite length_drop; lia).
    rewrite Hd. replace (len l + Z.of_nat size - 1) with ((len l - Z.of_nat size + Z.of_nat size - 1) + 1 * Z.of_nat size) by lia.
    rewrite Z.div_add by lia. lia.
  - assert (Hl : len l < Z.of_nat size) by (unfold len; lia). clearbody l.
    rewrite drop_ge by lia. rewrite len_nil, (Z.div_small (0 + _ - 1)) by lia.
    apply (Z.div_unique _ _ 1 (len l - 1)); lia.
Qed.
End Indexed.

(** ** What a runtime promises of submitted batches *)

Section Service.
Context {A U F E : Type}.
Context (submit : BatchAction A -> E -> result RuntimeError F * E).
Context (poll_batch : F -> E -> option (result RuntimeError (BatchReply U)) * E).

(** A submitted future stands for its batch, and when it is ready without an
    error it carries the handler's reply to that batch.  Errors and delays are
    the runtime's: nothing is assumed of them. *)
Class HonestService : Type := {
  batch_of : F -> BatchAction A;
  run_item : A -> ItemReply U;
  submit_batch b e f e' : submit b e = (Ok f, e') -> batch_of f = b;
  poll_reply f e r e' : poll_batch f e = (Some (Ok r), e') ->
    r = mkBatchReply (action_start (batch_of f)) (map run_item (action_items (batch_of f)));
}.

(** The reference: the items one after the other, up to the first failure. *)
Fixpoint serial_from `{HonestService} (i : Z) (items : list A) : result (Z * text) (list U) :=
  match items with
  | [] => Ok []
  | x :: rest =>
      match run_item x with
      | Item_Ok v => vs ← serial_from (i + 1) rest; Ok (v :: vs)
      | Item_Err m => Err (i, m)
      end
  end.

Context `{HonestService}.

Lemma serial_from_ok items vs i :
  Forall2 (fun x v => run_item x = Item_Ok v) items vs -> serial_from i items = Ok vs.
Proof.
  intros Hall. revert i. induction Hall as [|x v items vs Hx _ IH]; intros i; [done|].
  cbn. rewrite Hx, IH. done.
Qed.

Lemma serial_from_err items k x m i :
  items !! k = Some x -> run_item x = Item_Err m ->
  (forall j y m', items !! j = Some y -> run_item y = Item_Err m' -> (k <= j)%nat) ->
  serial_from i items = Err (i + Z.of_nat k, m).
Proof.
  revert k i. induction items as [|z items IH]; intros k i Hk Hx Hmin; [done|]. cbn.
  destruct k as [|k].
  - injection Hk as ->. rewrite Hx. by rewrite Z.add_0_r.
  - destruct (run_item z) as [v|m'] eqn:Hz; [|by pose proof (Hmin 0%nat z m' eq_refl Hz); lia].
    rewrite (IH k (i + 1) Hk Hx) by (intros j y m' Hj Hy; pose proof (Hmin (S j) y m' Hj Hy); lia).
    cbn. by replace (i + 1 + Z.of_nat k) with (i + Z.of_nat (S k)) by lia.
Qed.

(** ** The controller's invariant *)

Definition slot_items (f : F) : list (nat * A) :=
  batch_items (action_start (batch_of f), action_items (batch_of f)).

Abbreviation Ctl := (PmapFuture (A := A) (U := U) (F := F) (E := E)).

Section Invariant.
Context (xs : list A) (o : PmapOptions) (batches : Z).

(** [cur] are the items of the reply being stored, [fin] those whose results
    are recorded: with the pending and the submitted ones, these are all. *)
Record controller_inv (cur fin : list (nat * A)) (s : Ctl) : Prop := {
  ci_items : (pending s ≫= batch_items) ++ (slots s ≫= slot_items) ++ cur ++ fin ≡ₚ indexed_from 0 xs;
  ci_pending : Forall (fun b => 0 <= b.1) (pending s);
  ci_slots : Forall (fun f => 0 <= action_start (batch_of f)) (slots s);
  ci_length : length (outputs s) = length xs;
  ci_outputs i out : outputs s !! i = Some out ->
    match out with
    | Some v => exists x, (i, x) ∈ fin /\ run_item x = Item_Ok v
    | None => forall x, (i, x) ∈ fin -> exists m, run_item x = Item_Err m
    end;
  ci_error :
    match first_error s with
    | None => forall i x m, (i, x) ∈ fin -> run_item x <> Item_Err m
    | Some (z, m) => 0 <= z /\ (exists x, (Z.to_nat z, x) ∈ fin /\ run_item x = Item_Err m)
        /\ forall i x m', (i, x) ∈ fin -> run_item x = Item_Err m' -> z <= Z.of_nat i
    end;
  ci_window : len (slots s) <= inflight_limit o;
  ci_options : options s = o;
  ci_stats : item_count (stats s) = len xs /\ batch_count (stats s) = batches
    /\ placement_submissions (stats s) + len (pending s) = batches
    /\ 0 <= peak_in_flight (stats s) <= inflight_limit o;
}.

(** An item still to record is an item of the input, recorded nowhere. *)
Lemma inv_current i x cur fin s : controller_inv ((i, x) :: cur) fin s ->
  xs !! i = Some x /\ forall y, (i, y) ∉ fin.
Proof.
  intros [Hp _ _ _ _ _ _ _ _]. split.
  - assert (Hin : (i, x) ∈ indexed_from 0 xs) by (rewrite <- Hp; set_solver).
    apply elem_indexed_from in Hin as [_ Hin]. by rewrite Nat.sub_0_r in Hin.
  - intros y Hy. assert (Hnd : NoDup (indexed_from 0 xs).*1) by apply indexed_nodup.
    rewrite <- Hp in Hnd. rewrite !fmap_app in Hnd. apply NoDup_app in Hnd as (_ & _ & Hnd).
    apply NoDup_app in Hnd as (_ & _ & Hnd). cbn in Hnd. apply NoDup_cons in Hnd as [Hni _].
    apply Hni. apply elem_of_app. right. apply list_elem_of_fmap. by exists (i, y).
Qed.

Lemma inv_moved i x cur fin s : controller_inv ((i, x) :: cur) fin s ->
  (pending s ≫= batch_items) ++ (slots s ≫= slot_items) ++ cur ++ ((i, x) :: fin) ≡ₚ indexed_from 0 xs.
Proof. intros Hi. rewrite <- (ci_items _ _ _ Hi). by rewrite <- Permutation_middle. Qed.

Lemma inv_store_ok i x v cur fin s : controller_inv ((i, x) :: cur) fin s -> run_item x = Item_Ok v ->
  outputs s !! i = Some None
  /\ controller_inv cur ((i, x) :: fin) (set_outputs (<[i := Some v]> (outputs s)) s).
Proof.
  intros Hi Hx. destruct (inv_current _ _ _ _ _ Hi) as [Hxs Hfresh].
  pose proof (inv_moved _ _ _ _ _ Hi) as Hmoved. destruct Hi as [Hp H1 H2 H3 H4 H5 H6 H7 H8].
  assert (Hlt : (i < length (outputs s))%nat) by (rewrite H3; by eapply lookup_lt_Some).
  destruct (lookup_lt_is_Some_2 _ _ Hlt) as [[w|] Hw].
  { destruct (H4 _ _ Hw) as (y & Hy & _). by destruct (Hfresh y). }
  split; [done|]. split; cbn [outputs set_outputs first_error pending slots options stats]; try done.
  - by rewrite length_insert.
  - intros j out. destruct (decide (i = j)) as [<-|Hne].
    + rewrite list_lookup_insert_eq by done. intros [= <-]. exists x. split; [left|done].
    + rewrite list_lookup_insert_ne by done. intros Hj. pose proof (H4 _ _ Hj) as Ho. destruct out as [w'|].
      * destruct Ho as (y & Hy & Hr). exists y. split; [by right|done].
      * intros y [[= -> _]|Hy]%elem_of_cons; [done|eauto].
  - destruct (first_error s) as [[z m]|].
    + destruct H5 as (Hz & (y & Hy & Hr) & Hmin). split; [done|]. split; [exists y; split; [by right|done]|].
      intros j y' m' [[= -> ->]|Hy']%elem_of_cons; [congruence|eauto].
    + intros j y m [[= -> ->]|Hy]%elem_of_cons; [congruence|eauto].
Qed.

Lemma inv_store_err i x m cur fin s : controller_inv ((i, x) :: cur) fin s -> run_item x = Item_Err m ->
  controller_inv cur ((i, x) :: fin)
    (if match first_error s with None => true | Some (old, _) => Z.of_nat i <? old end
     then set_first_error (Some (Z.of_nat i, m)) s else s).
Proof.
  intros Hi Hx. destruct (inv_current _ _ _ _ _ Hi) as [Hxs Hfresh].
  pose proof (inv_moved _ _ _ _ _ Hi) as Hmoved. destruct Hi as [Hp H1 H2 H3 H4 H5 H6 H7 H8].
  assert (Hout : forall j out, outputs s !! j = Some out -> match out with
    | Some v => exists y, (j, y) ∈ (i, x) :: fin /\ run_item y = Item_Ok v
    | None => forall y, (j, y) ∈ (i, x) :: fin -> exists m, run_item y = Item_Err m end).
  { intros j out Hj. pose proof (H4 _ _ Hj) as Ho. destruct out as [w|].
    - destruct Ho as (y & Hy & Hr). exists y. split; [by right|done].
    - intros y [[= -> ->]|Hy]%elem_of_cons; eauto. }
  destruct (first_error s) as [[z m0]|] eqn:Hf; [destruct (Z.ltb_spec (Z.of_nat i) z)|];
    (split; cbn [outputs set_first_error first_error pending slots options stats]; try done).
  - destruct H5 as (Hz & _ & Hmin). split; [lia|]. rewrite Nat2Z.id. split; [exists x; split; [left|done]|].
    intros j y m' [[= -> ->]|Hy]%elem_of_cons Hr; [lia|]. pose proof (Hmin _ _ _ Hy Hr). lia.
  - rewrite Hf. destruct H5 as (Hz & (y & Hy & Hr) & Hmin). split; [done|].
    split; [exists y; split; [by right|done]|].
    intros j y' m' [[= -> ->]|Hy']%elem_of_cons Hr'; [lia|eauto].
  - split; [lia|]. rewrite Nat2Z.id. split; [exists x; split; [left|done]|].
    intros j y m' [[= -> ->]|Hy]%elem_of_cons Hr; [lia|]. by destruct (H5 _ _ _ Hy Hr).
Qed.

(** Taking a batch from the queue into a slot, and a reply out of its slot. *)
Lemma inv_submitted fin (s : Ctl) b p f sl env' :
  controller_inv [] fin s -> pending s = b :: p ->
  batch_of f = mkBatchAction b.1 sl b.2 -> len (slots s) < inflight_limit o ->
  controller_inv [] fin
    (set_stats (mkControllerStats (item_count (stats s)) (batch_count (stats s))
        (Z.max (peak_in_flight (stats s)) (len (slots s ++ [f]))) (placement_submissions (stats s) + 1))
      (set_slots (slots s ++ [f]) (set_env env' (set_pending p s)))).
Proof.
  intros [Hp H1 H2 H3 H4 H5 H6 H7 H8] Hpend Hb Hlim. rewrite Hpend in *.
  split; cbn [pending slots outputs first_error options stats set_stats set_slots set_env set_pending
    item_count batch_count peak_in_flight placement_submissions]; try done.
  - rewrite <- Hp. rewrite bind_app. cbn [mbind list_bind].
    assert (Hf : slot_items f = batch_items b) by (unfold slot_items; rewrite Hb; by destruct b).
    rewrite Hf, app_nil_r, <- !app_assoc. cbn [app]. solve_Permutation.
  - by apply Forall_cons in H1 as [_ ?].
  - apply Forall_cons in H1 as [Hge _]. apply Forall_app. split; [done|]. apply Forall_singleton. by rewrite Hb.
  - assert (len (slots s ++ [f]) = len (slots s) + 1) by (by rewrite len_app). lia.
  - assert (len (slots s ++ [f]) = len (slots s) + 1) by (by rewrite len_app). rewrite len_cons in H8. lia.
Qed.

Lemma inv_replied fin (s : Ctl) i f env' :
  controller_inv [] fin s -> slots s !! i = Some f ->
  0 <= action_start (batch_of f)
  /\ controller_inv (slot_items f) fin (set_slots (swap_remove i (slots s)) (set_env env' s)).
Proof.
  intros [Hp H1 H2 H3 H4 H5 H6 H7 H8] Hf. pose proof (swap_remove_perm i (slots s) f Hf) as Hperm.
  assert (Hall : Forall (fun f => 0 <= action_start (batch_of f)) (f :: swap_remove i (slots s)))
    by (by rewrite <- Hperm).
  apply Forall_cons in Hall as [Hge Hall]. split; [done|].
  split; cbn [pending slots outputs first_error options stats set_slots set_env]; try done.
  - assert (Hbind : (slots s ≫= slot_items) ≡ₚ slot_items f ++ (swap_remove i (slots s) ≫= slot_items))
      by (exact (bind_Permutation slot_items _ _ Hperm)).
    rewrite <- Hp, Hbind. solve_Permutation.
  - apply Permutation_length in Hperm. cbn [length] in Hperm. unfold len in *. lia.
Qed.

Lemma inv_env fin (s : Ctl) env' : controller_inv [] fin s -> controller_inv [] fin (set_env env' s).
Proof. by intros [? ? ? ? ? ? ? ? ?]. Qed.

(** ** What a poll can end with *)

(** An error of the runtime, met while submitting or polling a batch. *)
Definition runtime_failed (e : RuntimeError) : Prop :=
  (exists b env env', submit b env = (Err e, env')) \/ (exists f env env', poll_batch f env = (Some (Err e), env')).

Definition pmap_error (e : AlgorithmError) (_ : Ctl) : Prop :=
  match e with
  | AlgorithmError_Runtime e => runtime_failed e
  | AlgorithmError_Callback i m => serial_from 0 xs = Err (i, m)
  | _ => False
  end.

Context (Hxs : len xs <= usize_max).

Lemma fill_inv p fin (s : Ctl) : pending s = p -> controller_inv [] fin s ->
  wp (fill submit p)
    (fun _ s' => controller_inv [] fin s'
       /\ (pending s' = [] \/ inflight_limit o <= len (slots s'))
       /\ (length (pending s') + length (slots s') = length (pending s) + length (slots s))%nat)
    pmap_error s.
Proof.
  revert s. induction p as [|b p IH]; intros s Hp Hi; cbn [fill]; [wp_step; auto|].
  destruct b as [start items]. apply wp_bind, wp_gets. cbv beta delta [id]. rewrite (ci_options _ _ _ Hi).
  destruct (Z.ltb_spec (len (slots s)) (inflight_limit o)) as [Hlt|Hge]; [|wp_step; auto].
  apply wp_bind, wp_modify, wp_bind. unfold do_submit at 1, wp at 1.
  destruct (submit _ _) as [r env'] eqn:Hsub. destruct r as [f|e].
  - pose proof (submit_batch _ _ _ _ Hsub) as Hb. do 2 apply wp_bind, wp_modify.
    eapply wp_mono; [apply IH; [reflexivity|]|cbn beta|auto].
    + exact (inv_submitted _ s (start, items) p f _ env' Hi Hp Hb Hlt).
    + intros _ s' (H1 & H2 & H3). split; [done|]. split; [done|]. rewrite H3, Hp.
      cbn [slots pending set_stats set_slots set_env set_pending]. rewrite length_app. cbn. lia.
  - unfold fail. apply wp_bind, wp_modify, wp_raise. left. eauto.
Qed.

Lemma store_items_inv start items k fin (s : Ctl) :
  0 <= start -> controller_inv (indexed_from (Z.to_nat start + k) items) fin s ->
  wp (store_items start (Z.of_nat k) (map run_item items))
    (fun _ s' => (exists fin', controller_inv [] fin' s') /\ pending s' = pending s /\ slots s' = slots s)
    pmap_error s.
Proof.
  intros Hstart. revert k fin s. induction items as [|x items IH]; intros k fin s Hi; cbn [store_items map].
  { wp_step. eauto. }
  rewrite indexed_from_cons in Hi. destruct (inv_current _ _ _ _ _ Hi) as [Hx _].
  pose proof (lookup_lt_Some _ _ _ Hx) as Hlt.
  replace (checked_add usize_max start (Z.of_nat k)) with (Some (Z.of_nat (Z.to_nat start + k)));
    [|unfold checked_add, len in *; destruct (Z.leb_spec (start + Z.of_nat k) usize_max); [f_equal; lia|lia]].
  set (i := (Z.to_nat start + k)%nat) in *. apply wp_bind, wp_ret, wp_bind.
  replace (Z.of_nat k + 1) with (Z.of_nat (S k)) by lia.
  assert (Hnext : (S i = Z.to_nat start + S k)%nat) by lia.
  destruct (run_item x) as [v|m] eqn:Hrun; apply wp_bind, wp_gets; cbv beta; cbn [id].
  - destruct (inv_store_ok _ _ _ _ _ _ Hi Hrun) as [Hnone Hi'].
    rewrite Nat2Z.id, Hnone, orb_false_r.
    destruct (Z.leb_spec (len (outputs s)) (Z.of_nat i)) as [Hle|_].
    { pose proof (ci_length _ _ _ Hi). unfold len in Hle. lia. }
    apply wp_modify. rewrite Hnext in Hi'. eapply wp_mono; [eapply IH, Hi'|cbn beta; auto|auto].
  - pose proof (inv_store_err _ _ _ _ _ _ Hi Hrun) as Hi'. rewrite Hnext in Hi'.
    apply wp_when.
    destruct (match first_error s with None => true | Some (old, _) => Z.of_nat i <? old end);
      [apply wp_modify|]; (eapply wp_mono; [eapply IH, Hi'|cbn beta; auto|auto]).
Qed.

(** Some submitted batch was polled and was not ready. *)
Definition waiting : Prop := exists f env env', poll_batch f env = (None, env').

Lemma scan_inv fuel : forall i progress fin (s : Ctl), controller_inv [] fin s ->
  wp (scan poll_batch fuel i progress)
    (fun p s' => (exists fin', controller_inv [] fin' s') /\ pending s' = pending s
       /\ (length (slots s') <= length (slots s))%nat
       /\ (p = true -> progress = true \/ (length (slots s') < length (slots s))%nat)
       /\ (p = false -> progress = false /\ slots s' = slots s /\ ((i < length (slots s))%nat -> fuel <> 0%nat -> waiting)))
    pmap_error s.
Proof.
  induction fuel as [|fuel IH]; intros i progress fin s Hi; cbn [scan].
  { wp_step. split; [eauto|]. split; [done|]. split; [lia|]. split; [auto|]. by intros ->. }
  apply wp_bind, wp_gets. cbv beta. destruct (slots s !! i) as [f|] eqn:Hf.
  2: { apply lookup_ge_None in Hf. wp_step. split; [eauto|]. split; [done|]. split; [lia|]. split; [auto|].
       intros ->. split; [done|]. split; [done|]. lia. }
  apply wp_bind. unfold do_poll at 1, wp at 1. destruct (poll_batch f (env s)) as [r env'] eqn:Hpoll.
  destruct r as [[reply|e]|].
  - pose proof (poll_reply _ _ _ _ Hpoll) as ->. apply wp_bind, wp_modify, wp_bind.
    destruct (inv_replied _ _ _ _ env' Hi Hf) as [Hge Hi']. cbn [reply_start reply_items].
    eapply wp_mono; [eapply (store_items_inv _ _ 0); [exact Hge|]|cbv beta|auto].
    { rewrite Nat.add_0_r. exact Hi'. }
    intros _ s1 ((fin1 & Hi1) & Hp1 & Hs1).
    eapply wp_mono; [eapply IH, Hi1|cbv beta|auto].
    pose proof (Permutation_length (swap_remove_perm _ _ _ Hf)) as Hlen. cbn [length] in Hlen.
    assert (Hl1 : length (slots s1) = length (swap_remove i (slots s))) by (by rewrite Hs1).
    intros p s2 (Hi2 & Hp2 & Hle & Ht & Hfa). split; [done|]. split; [by rewrite Hp2, Hp1|].
    split; [lia|]. split; [intros _; right; lia|]. intros Hp. by destruct (Hfa Hp).
  - unfold fail. apply wp_bind, wp_modify, wp_raise. right. eauto.
  - eapply wp_mono; [eapply IH, inv_env, Hi|cbv beta|auto].
    intros p s' (Hi' & Hp' & Hle & Ht & Hfa). split; [done|]. split; [done|]. split; [done|]. split; [done|].
    intros Hp. destruct (Hfa Hp) as (Hpr & Hs & _). split; [done|]. split; [done|]. intros _ _. by exists f, (env s), env'.
Qed.

Definition exact_stats (st : ControllerStats) : Prop :=
  item_count st = len xs /\ batch_count st = batches /\ placement_submissions st = batches
  /\ peak_in_flight st <= inflight_limit o.

Lemma take_outputs_all vs k st (s : Ctl) R : stats s = st ->
  wp (take_outputs k (map Some vs)) (fun out s' => out = vs /\ stats s' = st) R s.
Proof.
  revert k s. induction vs as [|v vs IH]; intros k s Hst; cbn [take_outputs map]; [by wp_step|].
  apply wp_bind, wp_modify, wp_bind, wp_lift. cbn [ok_or]. apply wp_bind.
  eapply wp_mono; [by apply IH|cbv beta|auto]. intros out s' [-> Hs]. by wp_step.
Qed.

Lemma all_fin fin (s : Ctl) : controller_inv [] fin s -> pending s = [] -> slots s = [] ->
  forall i x, (i, x) ∈ fin <-> xs !! i = Some x.
Proof.
  intros Hi Hp Hs i x. pose proof (ci_items _ _ _ Hi) as Hperm. rewrite Hp, Hs in Hperm. cbn in Hperm.
  rewrite Hperm, elem_indexed_from, Nat.sub_0_r. split; [by intros []|split; [lia|done]].
Qed.

Lemma finish_inv fin (s : Ctl) : controller_inv [] fin s -> pending s = [] -> slots s = [] ->
  wp finish (fun r _ => exists out st, r = Some (out, st) /\ serial_from 0 xs = Ok out /\ exact_stats st)
    pmap_error s.
Proof.
  intros Hi Hp Hs. pose proof (all_fin _ _ Hi Hp Hs) as Hall. destruct Hi as [_ _ _ H3 H4 H5 _ _ H8].
  unfold finish. apply wp_bind, wp_modify, wp_bind, wp_gets, wp_bind, wp_modify. cbv beta.
  cbn [first_error set_done set_first_error outputs]. destruct (first_error s) as [[z m]|].
  - destruct H5 as (Hz & (x & Hx & Hr) & Hmin). apply wp_raise. cbn [pmap_error].
    apply Hall in Hx. rewrite (serial_from_err _ _ _ _ 0 Hx Hr); [by rewrite Z2Nat.id by done|].
    intros j y m' Hj Hy. apply Hall in Hj. pose proof (Hmin _ _ _ Hj Hy). lia.
  - assert (Hvs : exists vs, outputs s = map Some vs /\ Forall2 (fun x v => run_item x = Item_Ok v) xs vs).
    { exists (omap id (outputs s)). cut (Forall2 (fun x out => exists v, out = Some v /\ run_item x = Item_Ok v) xs (outputs s)).
      { clear. induction 1 as [|x out xs' outs (v & -> & Hv) _ [IH1 IH2]]; [by split|]. cbn. rewrite <- IH1. by auto. }
      apply Forall2_same_length_lookup_2; [done|]. intros i x out Hx Ho. apply Hall in Hx.
      pose proof (H4 _ _ Ho) as Hout. destruct out as [v|].
      - destruct Hout as (y & Hy & Hr). exists v. split; [done|]. apply Hall in Hx, Hy. congruence.
      - destruct (Hout _ Hx) as (m & Hm). by destruct (H5 _ _ _ Hx Hm). }
    destruct Hvs as (vs & Hvs & Hrun). apply wp_bind, wp_gets. cbv beta. cbn [outputs set_first_error set_done].
    rewrite Hvs. apply wp_bind. eapply wp_mono; [by apply (take_outputs_all _ _ (stats s) _ pmap_error)|cbv beta|auto].
    intros out s' [-> Hst]. cbn [stats set_first_error set_done] in Hst. wp_steps. rewrite Hst.
    exists vs, (stats s). split; [done|]. split; [by apply serial_from_ok|]. unfold exact_stats.
    rewrite Hp, len_nil in H8. lia.
Qed.

(** A poll: the serial result, or one of the runtime's errors, or nothing yet;
    then a batch is outstanding, and the window is full unless none is queued. *)
Definition polled (r : option (list U * ControllerStats)) (s' : Ctl) : Prop :=
  match r with
  | Some (out, st) => serial_from 0 xs = Ok out /\ exact_stats st
  | None => (exists fin, controller_inv [] fin s')
      /\ (pending s' = [] \/ inflight_limit o <= len (slots s'))
      /\ (1 <= inflight_limit o -> slots s' <> [] /\ waiting)
  end.

Lemma poll_loop_inv fuel : forall fin (s : Ctl), controller_inv [] fin s ->
  (length (pending s) + length (slots s) < fuel)%nat ->
  wp (poll_loop submit poll_batch fuel) polled pmap_error s.
Proof.
  induction fuel as [|fuel IH]; intros fin s Hi Hfuel; [lia|]. cbn [poll_loop].
  apply wp_bind, wp_gets. cbv beta. apply wp_bind.
  eapply wp_mono; [apply fill_inv; [reflexivity|exact Hi]|cbv beta|auto].
  intros _ s1 (Hi1 & Hroom & Hsum). apply wp_bind, wp_gets, wp_bind. cbv beta.
  eapply wp_mono; [eapply scan_inv, Hi1|cbv beta|auto].
  intros progress s2 ((fin2 & Hi2) & Hp2 & Hle & Ht & Hf). apply wp_bind, wp_gets. cbv beta delta [id].
  assert (Hdone : pending s2 = [] /\ slots s2 = [] \/ wp match pending s2, slots s2 with
    | [], [] => finish | _, _ => if progress : bool then poll_loop submit poll_batch fuel else mret None end = 
      wp (if progress then poll_loop submit poll_batch fuel else mret None) /\ (pending s2 <> [] \/ slots s2 <> [])).
  { destruct (pending s2), (slots s2); auto. }
  destruct Hdone as [[Hpe Hse]|[-> Hne]].
  - rewrite Hpe, Hse. eapply wp_mono; [by eapply finish_inv|cbv beta|auto].
    intros r s3 (out & st & -> & Hser & Hst). by split.
  - destruct progress.
    + destruct (Ht eq_refl) as [|Hlt]; [done|]. eapply IH; [exact Hi2|]. rewrite Hp2. lia.
    + destruct (Hf eq_refl) as (_ & Hs2 & Hw). apply wp_ret. split; [by eauto|]. rewrite Hp2, Hs2 in *.
      split; [done|]. intros Hlim.
      assert (Hns : slots s1 <> []) by (intros Hnil; rewrite Hnil, len_nil in *; destruct Hroom, Hne; auto; lia).
      split; [done|]. destruct (slots s1); [done|]. apply Hw; cbn; lia.
Qed.

Lemma poll_inv fin (s : Ctl) : controller_inv [] fin s ->
  wp (poll submit poll_batch) polled pmap_error s.
Proof. intros Hi. unfold poll. apply wp_bind, wp_gets. cbv beta. eapply poll_loop_inv; [exact Hi|]. unfold id. lia. Qed.
End Invariant.

(** The states of a controller that is polled again after every
    [Poll::Pending], whatever the runtime did in between. *)
Inductive reached (xs : list A) (o : PmapOptions) : Ctl -> Prop :=
| reached_build e s : build xs o e = Ok s -> reached xs o s
| reached_poll s s' e : reached xs o s -> poll submit poll_batch s = (Ok None, s') ->
    reached xs o (set_env e s').

Definition batches_of (xs : list A) (o : PmapOptions) : Z := (len xs + batch_size o - 1) / batch_size o.

Lemma pmap_build_inv xs o e s : build xs o e = Ok s -> 0 <= batch_size o -> 0 <= inflight_limit o ->
  controller_inv xs o (batches_of xs o) [] [] s.
Proof.
  unfold build. intros Hb Hbatch Hlimit. bind_inv Hb. unfold validate in E0. bind_inv E0.
  clear E0. destruct a0. apply fail_if_ok in E1.
  injection Hb as <-. zbool.
  set (size := Z.to_nat (batch_size o)). assert (Hsize : (0 < size)%nat) by (unfold size; lia).
  split; cbn [pending slots outputs first_error options stats item_count batch_count placement_submissions peak_in_flight].
  - cbn [mbind list_bind]. rewrite !app_nil_r. by rewrite chunks_cover by lia.
  - apply Forall_forall. intros b Hin. apply chunks_bounds in Hin; lia.
  - done.
  - by rewrite length_replicate.
  - intros i out [-> _]%lookup_replicate. intros x Hx. by apply elem_of_nil in Hx.
  - intros i x m Hx. by apply elem_of_nil in Hx.
  - by rewrite len_nil.
  - done.
  - rewrite chunks_length by lia. unfold batches_of, size. rewrite Z2Nat.id by lia. lia.
Qed.

Lemma reached_inv xs o s : len xs <= usize_max -> 0 <= batch_size o -> 0 <= inflight_limit o ->
  reached xs o s -> exists fin, controller_inv xs o (batches_of xs o) [] fin s.
Proof.
  intros Hxs Hb Hl. induction 1 as [e s Hbuild|s s' e _ (fin & Hi) Hpoll]; [eexists; by eapply pmap_build_inv|].
  pose proof (wp_eq _ _ _ _ _ _ Hpoll (poll_inv _ _ _ Hxs _ _ Hi)) as ((fin' & Hi') & _).
  exists fin'. by apply inv_env.
Qed.
End Service.

(** ** Entry points *)

(** What each of them submits a batch to: a place of its own for every batch, in
    turn, or the one target of all batches.  [spawn] stands for
    [client.spawn_on_with]; the counter is bounded by the number of batches. *)
Section EntryPoints.
Context {A U F E : Type}.
Context (spawn : Place -> BatchAction A -> SpawnOptions -> E -> result RuntimeError F * E).

Definition pmap_places (localities : list LocalityId) (o : PmapOptions) : list Place :=
  map (fun l => Place_new l (options_domain o)) localities.

Definition submit_round_robin (places : list Place) (deadline : Z) (b : BatchAction A) (e : Z * E)
    : result RuntimeError F * (Z * E) :=
  let '(next, e) := e in
  let place := nth (Z.to_nat (next mod len places)) places (Place_new 0 0) in
  let '(r, e) := spawn place b (mkSpawnOptions deadline None) e in (r, (next + 1, e)).

Definition pmap (localities : list LocalityId) (o : PmapOptions) (items : list A) (e : E)
    : result AlgorithmError (PmapFuture (A := A) (U := U) (F := F) (E := Z * E)) :=
  o ← with_targets (len (pmap_places localities o)) o;
  build items o (0, e).

Definition submit_at (place : Place) (deadline : Z) (b : BatchAction A) (e : E) : result RuntimeError F * E :=
  spawn place b (mkSpawnOptions deadline None) e.

Definition pmap_at (o : PmapOptions) (items : list A) (e : E)
    : result AlgorithmError (PmapFuture (A := A) (U := U) (F := F) (E := E)) :=
  o ← with_targets 1 o;
  build items o e.

(** The target is the locality of a remote object; the runtime's default
    deadline applies, not the one of the options.  [Obj] is [Remote<T>],
    [Fallback] is [PlacementFallback]. *)
Context {Obj Fallback : Type}.
Context (spawn_colocated : Obj -> BatchAction A -> E -> result RuntimeError F * E).
Context (spawn_preferred : Obj -> Fallback -> BatchAction A -> E -> result RuntimeError F * E).

Definition submit_colocated (remote : Obj) (b : BatchAction A) (e : E) : result RuntimeError F * E :=
  spawn_colocated remote b e.

Definition pmap_colocated (o : PmapOptions) (items : list A) (e : E)
    : result AlgorithmError (PmapFuture (A := A) (U := U) (F := F) (E := E)) :=
  o ← with_targets 1 o;
  build items o e.

Definition submit_preferred (remote : Obj) (fallback : Fallback) (b : BatchAction A) (e : E)
    : result RuntimeError F * E :=
  spawn_preferred remote fallback b e.

Definition pmap_preferred_colocated (o : PmapOptions) (items : list A) (e : E)
    : result AlgorithmError (PmapFuture (A := A) (U := U) (F := F) (E := E)) :=
  o ← with_targets 1 o;
  build items o e.
End EntryPoints.

(** [with_targets] and [build] accept exactly a nonempty membership and options
    in range; the window is one batch per target, two with prefetch. *)
Lemma with_targets_inv n o o' : with_targets n o = Ok o' ->
  n <> 0 /\ o' = mkPmapOptions (batch_size o) (local_mode o) (prefetch o) (deadline o) (options_domain o)
    (n * (1 + if prefetch o then 1 else 0)) /\ n * (1 + if prefetch o then 1 else 0) <= usize_max.
Proof.
  unfold with_targets. intros Ho. bind_inv Ho. destruct a. apply fail_if_ok in E. zbool. bind_inv Ho.
  destruct (checked_mul _ _ _) eqn:Hm; [|done]. injection E0 as <-. apply checked_mul_some in Hm as [-> Hm].
  injection Ho as <-. done.
Qed.

(** ** The handler and the service it makes *)

Section HandlerReplies.
Context {A U : Type} (debug_str : text -> text).
Context (par_collect : (A -> Handled (ItemReply U)) -> list A -> Handled (list (ItemReply U))).

(** The reply to one item. *)
Definition reply_of (handler : A -> Handled U) (x : A) : ItemReply U :=
  match handler x with
  | Ok v => Item_Ok v
  | Err (Raise e) => Item_Err (ActionError_to_string debug_str e)
  | Err Panic => Item_Err []
  end.

Lemma mapR_total {X Y Err} (f : X -> result Err Y) (g : X -> Y) l :
  (forall x, f x = Ok (g x)) -> mapR f l = Ok (map g l).
Proof. intros Hf. induction l as [|x l IH]; [done|]. cbn. by rewrite Hf, IH. Qed.

(** With rayon's ordered collect, a handler that does not panic answers each
    item of the batch, in order, in every mode. *)
Lemma batch_handler_replies handler b :
  (forall f g l, (forall x, f x = Ok (g x)) -> par_collect f l = Ok (map g l)) ->
  (forall x, handler x <> Err Panic) ->
  batch_handler debug_str par_collect handler b =
    Ok (mkBatchReply (action_start b) (map (reply_of handler) (action_items b))).
Proof.
  intros Hpar Hsafe.
  assert (Hitem : forall x, apply_item debug_str handler x = Ok (reply_of handler x)).
  { intros x. unfold apply_item, reply_of. pose proof (Hsafe x). by destruct (handler x) as [v|[e|]]. }
  unfold batch_handler. destruct (action_mode b); (rewrite (Hpar _ _ _ Hitem) || rewrite (mapR_total _ _ _ Hitem)); done.
Qed.
End HandlerReplies.

(** ** Properties *)

(** C14: Over an honest runtime, whenever the future of a bounded [pmap] is
    polled: it never panics nor reports a protocol error; if it completes, it
    does so with the outputs of the serial map of the handler, in the order of
    the items whatever the order of the replies, and with exact statistics; if
    it fails on a callback, that is the first item on which the serial map
    fails; any other error is one the runtime gave; and while it is not ready
    some submitted batch is outstanding and the window is full or the queue empty. *)
Theorem pmap_poll_serial {A U F E} (submit : BatchAction A -> E -> result RuntimeError F * E)
    (poll_batch : F -> E -> option (result RuntimeError (BatchReply U)) * E)
    `{!HonestService submit poll_batch} xs o s :
  len xs <= usize_max -> 0 <= batch_size o -> 1 <= inflight_limit o <= usize_max ->
  reached submit poll_batch xs o s ->
  match poll submit poll_batch s with
  | (Ok (Some (out, st)), _) =>
      serial_from submit poll_batch 0 xs = Ok out
      /\ item_count st = len xs /\ batch_count st = batches_of xs o
      /\ placement_submissions st = batch_count st /\ peak_in_flight st <= inflight_limit o
  | (Ok None, s') =>
      waiting poll_batch /\ 0 < len (slots s') <= inflight_limit o
      /\ (pending s' = [] \/ len (slots s') = inflight_limit o)
  | (Err (Raise (AlgorithmError_Callback i m)), _) => serial_from submit poll_batch 0 xs = Err (i, m)
  | (Err (Raise (AlgorithmError_Runtime e)), _) => runtime_failed submit poll_batch e
  | _ => False
  end.
Proof.
  intros Hxs Hb Hl Hr. destruct (reached_inv submit poll_batch xs o s) as (fin & Hi); [lia..|done|].
  pose proof (poll_inv submit poll_batch xs o _ Hxs _ _ Hi) as Hpoll. unfold wp in Hpoll.
  destruct (poll submit poll_batch s) as [[[[out st]|]|[e|]] s'].
  - destruct Hpoll as (Hser & H1 & H2 & H3 & H4). rewrite H2, H3. done.
  - destruct Hpoll as ((fin' & Hi') & Hroom & Hw). destruct Hw as [Hne Hw]; [lia|].
    pose proof (ci_window _ _ _ _ _ _ _ _ Hi') as Hwin. split; [done|]. split.
    + destruct (slots s'); [done|]. rewrite len_cons in *. pose proof (len_nonneg l). lia.
    + destruct Hroom; [by left|right; lia].
  - destruct e; exact Hpoll.
  - exact Hpoll.
Qed.

(** If moreover the runtime accepts every batch and its futures are ready,
    one poll runs the whole [pmap]: its result is the serial map of the handler
    over the items, the outputs or the index and message of the first failure. *)
Theorem ready_pmap_is_serial {A U F E} (submit : BatchAction A -> E -> result RuntimeError F * E)
    (poll_batch : F -> E -> option (result RuntimeError (BatchReply U)) * E)
    `{!HonestService submit poll_batch} xs o e s :
  len xs <= usize_max -> 0 <= batch_size o -> 1 <= inflight_limit o <= usize_max ->
  (forall b env, is_ok (submit b env).1 = true) ->
  (forall f env, exists r, (poll_batch f env).1 = Some (Ok r)) ->
  build xs o e = Ok s ->
  match serial_from submit poll_batch 0 xs with
  | Ok out => exists st, (poll submit poll_batch s).1 = Ok (Some (out, st))
  | Err (i, m) => (poll submit poll_batch s).1 = Err (Raise (AlgorithmError_Callback i m))
  end.
Proof.
  intros Hxs Hb Hl Hsub Hready Hbuild. pose proof (pmap_build_inv submit poll_batch xs o e s Hbuild) as Hi.
  pose proof (poll_inv submit poll_batch xs o _ Hxs _ _ (Hi Hb ltac:(lia))) as Hpoll. unfold wp in Hpoll.
  destruct (poll submit poll_batch s) as [[[[out st]|]|[err|]] s']; cbn [fst].
  - destruct Hpoll as (-> & _). by exists st.
  - destruct Hpoll as (_ & _ & Hw). destruct Hw as [_ (f & env & env' & Hn)]; [lia|].
    destruct (Hready f env) as [r Hr]. by rewrite Hn in Hr.
  - destruct err; try done; cbn [pmap_error] in Hpoll; [by rewrite Hpoll|].
    destruct Hpoll as [(b & env & env' & Hf)|(f & env & env' & Hf)].
    + pose proof (Hsub b env) as Hok. by rewrite Hf in Hok.
    + destruct (Hready f env) as [r Hr]. by rewrite Hf in Hr.
  - done.
Qed.

(** The sum of a reply's [start] and an offset is not checked: a reply that does
    not come from the batch handler can make the controller panic. *)
Lemma wild_reply_panics {A U F E} (s : PmapFuture (A := A) (U := U) (F := F) (E := E)) m1 m2 :
  (store_items usize_max 0 [Item_Err m1; Item_Err m2] s).1 = Err Panic.
Proof.
  destruct s as [? ? ? ? [[i m]|] ? ? ?]; cbn [store_items];
    change (checked_add usize_max usize_max 0) with (Some usize_max);
    change (checked_add usize_max usize_max (0 + 1)) with (@None Z);
    unfold gets, modify, panic, mbind, M_bind; cbn [mret M_ret first_error id]; [destruct (_ <? i)|]; reflexivity.
Qed.

(** ** Witnesses *)

Module Example.
Definition debug_str (t : text) : text := [Byte.x22] ++ t ++ [Byte.x22].
Definition handler (z : Z) : Handled Z :=
  if z <? 0 then Err (Raise (ActionError_user (lit "negative"))) else Ok (2 * z).
Definition service (b : BatchAction Z) : result (exn ActionError) (BatchReply Z) :=
  batch_handler debug_str mapR handler b.
(** The environment counts the polls before a batch is ready. *)
Definition submit (b : BatchAction Z) (n : nat) : result RuntimeError (BatchAction Z) * nat := (Ok b, n).
Definition poll_ready (b : BatchAction Z) (n : nat) : option (result RuntimeError (BatchReply Z)) * nat :=
  (match service b with Ok r => Some (Ok r) | Err _ => None end, n).
Definition poll_batch (b : BatchAction Z) (n : nat) : option (result RuntimeError (BatchReply Z)) * nat :=
  match n with S n => (None, n) | O => poll_ready b 0 end.

Lemma service_replies b :
  service b = Ok (mkBatchReply (action_start b) (map (reply_of debug_str handler) (action_items b))).
Proof.
  apply batch_handler_replies; [intros f g l Hf; by apply mapR_total|].
  intros x. unfold handler. by destruct (x <? 0).
Qed.

#[global] Instance honest_ready : HonestService submit poll_ready.
Proof.
  refine {| batch_of := fun b : BatchAction Z => b; run_item := reply_of debug_str handler |}.
  - by intros b n f n' [= <- <-].
  - intros f n r n'. unfold poll_ready. rewrite service_replies. by intros [= <- <-].
Defined.
#[global] Instance honest : HonestService submit poll_batch.
Proof.
  refine {| batch_of := fun b : BatchAction Z => b; run_item := reply_of debug_str handler |}.
  - by intros b n f n' [= <- <-].
  - intros f [|n] r n' Hr; [|done]. by eapply (poll_reply _ _ (HonestService := honest_ready)).
Defined.

Definition opts : PmapOptions := mkPmapOptions 2 Outer false 1 0 1.
Definition started : result AlgorithmError (PmapFuture (A := Z) (U := Z) (F := BatchAction Z) (E := nat)) :=
  build [3; 4; -1; 5; -2] opts 1%nat.
Definition state0 := Eval vm_compute in
  match started with
  | Ok s => s
  | Err _ => mkPmapFuture [] [] opts [] None (mkControllerStats 0 0 0 0) true 0%nat
  end.
Definition state1 := Eval vm_compute in (poll submit poll_batch state0).2.
End Example.

(** The first poll leaves a batch outstanding, the second finds the failure. *)
Lemma pmap_poll_serial_witness :
  Example.started = Ok Example.state0
  /\ poll Example.submit Example.poll_batch Example.state0 = (Ok None, Example.state1)
  /\ serial_from Example.submit Example.poll_batch 0 [3; 4; -1; 5; -2]
       = Err (2, ActionError_to_string Example.debug_str (ActionError_user (lit "negative")))
  /\ match poll Example.submit Example.poll_batch (set_env 0%nat Example.state1) with
     | (Err (Raise (AlgorithmError_Callback i m)), _) =>
         serial_from Example.submit Example.poll_batch 0 [3; 4; -1; 5; -2] = Err (i, m)
     | _ => False
     end.
Proof.
  assert (H0 : Example.started = Ok Example.state0) by (vm_compute; reflexivity).
  assert (H1 : poll Example.submit Example.poll_batch Example.state0 = (Ok None, Example.state1))
    by (vm_compute; reflexivity).
  assert (Hr : reached Example.submit Example.poll_batch [3; 4; -1; 5; -2] Example.opts
    (set_env 0%nat Example.state1)) by (eapply reached_poll; [eapply reached_build, H0|exact H1]).
  split; [exact H0|]. split; [exact H1|]. split; [vm_compute; reflexivity|].
  pose proof (pmap_poll_serial Example.submit Example.poll_batch [3; 4; -1; 5; -2] Example.opts _
    ltac:(by vm_compute) ltac:(by vm_compute) ltac:(by vm_compute) Hr) as Hpoll.
  destruct (poll _ _ _) as [[[[out st]|]|[[]|]] s'] eqn:Heq; try done; vm_compute in Heq; discriminate Heq.
Defined.

Lemma ready_pmap_is_serial_witness :
  exists s, build (U := Z) (F := BatchAction Z) [3; 4; 1; 5; 2] Example.opts 0%nat = Ok s
    /\ match serial_from Example.submit Example.poll_ready 0 [3; 4; 1; 5; 2] with
       | Ok out => out = [6; 8; 2; 10; 4]
           /\ exists st, (poll Example.submit Example.poll_ready s).1 = Ok (Some (out, st))
       | Err _ => False
       end.
Proof.
  assert (Hs : serial_from Example.submit Example.poll_ready 0 [3; 4; 1; 5; 2] = Ok [6; 8; 2; 10; 4])
    by (vm_compute; reflexivity).
  eexists. split; [vm_compute; reflexivity|].
  match goal with |- context [poll _ _ ?s] =>
    assert (Hb : build [3; 4; 1; 5; 2] Example.opts 0%nat = Ok s) by (vm_compute; reflexivity) end.
  assert (Hready : forall f env, exists r, (Example.poll_ready f env).1 = Some (Ok r)).
  { intros f env. eexists. unfold Example.poll_ready. rewrite Example.service_replies. reflexivity. }
  pose proof (ready_pmap_is_serial Example.submit Example.poll_ready [3; 4; 1; 5; 2] Example.opts 0%nat _
    ltac:(by vm_compute) ltac:(by vm_compute) ltac:(by vm_compute) (fun _ _ => eq_refl) Hready Hb) as Hp.
  rewrite Hs in Hp |- *. by split.
Defined.
