(* ===== verification/Collectives.v ===== *)
(** * Collectives: gather, broadcast and scatter

    Models [crates/hataori-algorithms/src/collectives.rs].  Remote futures are
    the runtime's ([poll_value], [spawn_on]) over an environment [E]; [poll]
    answers [None] for [Poll::Pending].  A future that has completed is taken
    out of its slot and not polled again. *)
From S2P Require Import Prelude Text Protocol Error RuntimeTypes RuntimeWire Action BatchWire.

(** ** The echo action *)

Inductive CollectiveEcho (T : Type) : Type := Echo (v : T).
Arguments Echo {T}.

#[export] Instance CollectiveEcho_WireValue {T} `{WireValue T} : WireValue (CollectiveEcho T) := {|
  SCHEMA_ID := Z.lxor (SCHEMA_ID (T := T)) 0xe504000000000001;
  wire_encode '(Echo v) := wire_encode v;
  wire_decode s := v ← wire_decode s; Ok (Echo v);
|}.

Definition CollectiveEcho_ID {T} `{WireValue T} : Z :=
  Z.lxor 0xe5040000000000000000000000000001 (SCHEMA_ID (T := T)).

(** The handler [register_collective] registers. *)
Definition collective_handler {T} (e : CollectiveEcho T) : Handled T := let '(Echo v) := e in Ok v.

Section Gather.
Context {T F E : Type}.
Context (poll_value : F -> E -> option (result RuntimeError T) * E).

(** ** Gathering *)

Record GatherFuture : Type := mkGatherFuture {
  futures : list (option F);
  values : list (option T);
  env : E;
}.

Abbreviation GM := (M GatherFuture AlgorithmError).

Definition set_futures l (s : GatherFuture) := mkGatherFuture l (values s) (env s).
Definition set_values l (s : GatherFuture) := mkGatherFuture (futures s) l (env s).
Definition set_env e (s : GatherFuture) := mkGatherFuture (futures s) (values s) e.

Definition do_poll (f : F) : GM (option (result RuntimeError T)) := fun s =>
  let '(r, e) := poll_value f (env s) in (Ok r, set_env e s).

(** [for i in 0..this.futures.len()], [n] turns from [i]. *)
Fixpoint poll_each (n i : nat) (waits : bool) : GM bool :=
  match n with
  | O => mret waits
  | S n' =>
      slot ← gets (fun s => futures s !! i);
      match slot with
      | None => panic
      | Some None => poll_each n' (S i) waits
      | Some (Some f) =>
          r ← do_poll f;
          match r with
          | None => poll_each n' (S i) true
          | Some (Err e) => raise (AlgorithmError_Runtime e)
          | Some (Ok v) =>
              modify (fun s => set_futures (<[i := None]> (futures s)) s);;
              s ← gets id;
              (if len (values s) <=? Z.of_nat i then panic
               else modify (fun s => set_values (<[i := Some v]> (values s)) s));;
              poll_each n' (S i) waits
          end
      end
  end.

(** [values.iter_mut().map(|v| v.take().unwrap()).collect()], [k] taken already. *)
Fixpoint take_values (k : nat) (l : list (option T)) : GM (list T) :=
  match l with
  | [] => mret []
  | value :: rest =>
      modify (fun s => set_values (<[k := None]> (values s)) s);;
      v ← match value with Some v => mret v | None => panic end;
      vs ← take_values (S k) rest;
      mret (v :: vs)
  end.

Definition poll : GM (option (list T)) :=
  l ← gets futures;
  waits ← poll_each (length l) 0 false;
  if waits : bool then mret None
  else
    l ← gets values;
    vs ← take_values 0 l;
    mret (Some vs).

Definition gather (fs : list F) (e : E) : GatherFuture :=
  mkGatherFuture (map Some fs) (replicate (length fs) None) e.

(** ** Broadcast and scatter *)

Context (spawn_on : Place -> CollectiveEcho T -> E -> result RuntimeError F * E).

(** [map(spawn).collect::<Result<Vec<_>, _>>()], which stops at the first error. *)
Fixpoint spawn_all (jobs : list (Place * T)) (e : E) : result AlgorithmError (list F) * E :=
  match jobs with
  | [] => (Ok [], e)
  | (place, value) :: rest =>
      match spawn_on place (Echo value) e with
      | (Err err, e) => (Err (AlgorithmError_Runtime err), e)
      | (Ok f, e) =>
          match spawn_all rest e with
          | (Err err, e) => (Err err, e)
          | (Ok fs, e) => (Ok (f :: fs), e)
          end
      end
  end.

Definition broadcast (localities : list LocalityId) (d : DomainId) (value : T) (e : E)
    : result AlgorithmError GatherFuture * E :=
  let '(r, e) := spawn_all (map (fun l => (Place_new l d, value)) localities) e in
  (fs ← r; Ok (gather fs e), e).

Definition scatter (localities : list LocalityId) (d : DomainId) (vs : list T) (e : E)
    : result AlgorithmError GatherFuture * E :=
  if negb (len vs =? len localities) then
    (Err (AlgorithmError_InputShape "scatter requires one value per locality"), e)
  else
    let '(r, e) := spawn_all (map (fun '(v, l) => (Place_new l d, v)) (zip vs localities)) e in
    (fs ← r; Ok (gather fs e), e).

(** ** What a runtime promises *)

(** A future stands for one value, which it carries when it is ready without
    an error; the echo action's future stands for the value sent. *)
Class HonestFutures : Type := {
  value_of : F -> T;
  poll_honest f e v e' : poll_value f e = (Some (Ok v), e') -> v = value_of f;
}.
Class HonestEcho `{HonestFutures} : Prop :=
  spawn_honest place v e f e' : spawn_on place (Echo v) e = (Ok f, e') -> value_of f = v.

Context `{HonestFutures}.

(** ** Gather *)

(** Every slot still holds its future, or its value is there. *)
Definition slot_ok (f : F) (slot : option F) (value : option T) : Prop :=
  (slot = Some f /\ value = None) \/ (slot = None /\ value = Some (value_of f)).

Definition gather_inv (fs : list F) (s : GatherFuture) : Prop :=
  length (futures s) = length fs /\ length (values s) = length fs
  /\ forall i f, fs !! i = Some f -> exists slot value,
       futures s !! i = Some slot /\ values s !! i = Some value /\ slot_ok f slot value.

Definition future_failed (e : RuntimeError) : Prop := exists f env env', poll_value f env = (Some (Err e), env').
Definition future_waits : Prop := exists f env env', poll_value f env = (None, env').
Definition gather_error (e : AlgorithmError) (_ : GatherFuture) : Prop :=
  match e with AlgorithmError_Runtime e => future_failed e | _ => False end.

Lemma gather_start fs e : gather_inv fs (gather fs e).
Proof.
  split; [|split]; cbn [gather futures values]; [by rewrite length_map|by rewrite length_replicate|].
  intros i f Hi. exists (Some f), None. split; [by rewrite list_lookup_fmap, Hi|].
  split; [apply lookup_replicate_2; by eapply lookup_lt_Some|by left].
Qed.

Lemma gather_store fs s i f :
  gather_inv fs s -> fs !! i = Some f ->
  gather_inv fs (set_values (<[i := Some (value_of f)]> (values s)) (set_futures (<[i := None]> (futures s)) s)).
Proof.
  intros (H1 & H2 & H3) Hi. pose proof (lookup_lt_Some _ _ _ Hi).
  split; [|split]; cbn [futures values set_values set_futures]; [by rewrite length_insert..|].
  intros j g Hj. destruct (decide (i = j)) as [<-|Hne].
  - exists None, (Some (value_of f)). rewrite !list_lookup_insert_eq by lia.
    split; [done|]. split; [done|]. right. split; [done|]. congruence.
  - rewrite !list_lookup_insert_ne by done. by apply H3.
Qed.

Lemma poll_each_inv fs n : forall i waits s,
  gather_inv fs s -> (i + n = length fs)%nat -> (waits = true -> future_waits) ->
  (waits = false -> forall j f, (j < i)%nat -> fs !! j = Some f -> values s !! j = Some (Some (value_of f))) ->
  wp (poll_each n i waits)
    (fun w s' => gather_inv fs s' /\ (w = true -> future_waits)
       /\ (w = false -> forall j f, fs !! j = Some f -> values s' !! j = Some (Some (value_of f))))
    gather_error s.
Proof.
  induction n as [|n IH]; intros i waits s Hi Hn Hw Hd; cbn [poll_each].
  { wp_step. split; [done|]. split; [done|]. intros -> j f Hj. apply Hd; [done| |done].
    apply lookup_lt_Some in Hj. lia. }
  apply wp_bind, wp_gets. cbv beta.
  destruct (lookup_lt_is_Some_2 fs i ltac:(lia)) as [f Hf]. destruct (proj2 (proj2 Hi) _ _ Hf) as (slot & value & Hs & Hv & Hok).
  rewrite Hs. destruct slot as [g|].
  - destruct Hok as [[[= ->] ->]|[? _]]; [|done]. apply wp_bind. unfold do_poll at 1, wp at 1.
    destruct (poll_value f (env s)) as [r e'] eqn:Hpoll. destruct r as [[v|e]|].
    + apply poll_honest in Hpoll as ->. apply wp_bind, wp_modify, wp_bind, wp_gets. cbv beta delta [id].
      cbn [values set_futures set_env].
      destruct (Z.leb_spec (len (values s)) (Z.of_nat i)) as [Hle|_].
      { pose proof (proj1 (proj2 Hi)). unfold len in Hle. lia. }
      apply wp_bind, wp_modify. apply IH; [exact (gather_store fs s i f Hi Hf)|lia|done|].
      intros Hfalse j g Hj Hg. cbn [values set_values set_futures set_env].
      destruct (decide (i = j)) as [<-|Hne].
      * assert (g = f) as -> by congruence. apply list_lookup_insert_eq. pose proof (proj1 (proj2 Hi)). lia.
      * rewrite list_lookup_insert_ne by done. apply Hd; [done|lia|done].
    + apply wp_raise. cbn. unfold future_failed. eauto.
    + apply IH; [exact Hi|lia| |done]. intros _. by exists f, (env s), e'.
  - destruct Hok as [[? _]|[_ ->]]; [done|]. apply IH; [done|lia|done|].
    intros Hfalse j g Hj Hg. destruct (decide (i = j)) as [<-|Hne]; [congruence|]. apply Hd; [done|lia|done].
Qed.

Lemma take_values_all vs k s R : wp (take_values k (map Some vs)) (fun out _ => out = vs) R s.
Proof.
  revert k s. induction vs as [|v vs IH]; intros k s; cbn [take_values map]; [by wp_step|].
  apply wp_bind, wp_modify, wp_bind, wp_ret, wp_bind.
  eapply wp_mono; [apply IH|cbv beta|auto]. intros out s' ->. by wp_step.
Qed.

Lemma poll_gather fs s : gather_inv fs s ->
  wp poll (fun r s' => match r with
    | Some out => out = map value_of fs
    | None => gather_inv fs s' /\ future_waits
    end) gather_error s.
Proof.
  intros Hi. unfold poll. apply wp_bind, wp_gets, wp_bind. cbv beta.
  eapply wp_mono; [eapply (poll_each_inv fs); [exact Hi|destruct Hi as [-> _]; lia|done|lia]|cbv beta|auto].
  intros waits s1 (Hi1 & Hw & Hd). destruct waits; [wp_step; auto|]. apply wp_bind, wp_gets, wp_bind. cbv beta.
  assert (Hall : values s1 = map Some (map value_of fs)).
  { apply list_eq_same_length with (length fs); [by rewrite !length_map|by destruct Hi1 as (_ & -> & _)|].
    intros j x y Hj Hx Hy. rewrite map_map in Hy. apply list_lookup_fmap_Some in Hy as (f & -> & Hf).
    rewrite (Hd eq_refl _ _ Hf) in Hx. congruence. }
  rewrite Hall. eapply wp_mono; [apply (take_values_all _ _ _ gather_error)|cbv beta|auto].
  intros out s' ->. by wp_step.
Qed.

(** The states of a gather that is polled again after every [Poll::Pending]. *)
Inductive gathering (fs : list F) : GatherFuture -> Prop :=
| gathering_start e : gathering fs (gather fs e)
| gathering_poll s s' e : gathering fs s -> poll s = (Ok None, s') -> gathering fs (set_env e s').

Lemma gathering_inv fs s : gathering fs s -> gather_inv fs s.
Proof.
  induction 1 as [e|s s' e _ IH Hp]; [apply gather_start|].
  destruct (wp_eq _ _ _ _ _ _ Hp (poll_gather _ _ IH)) as [Hi _]. exact Hi.
Qed.
End Gather.

Section Spawn.
Context {T F E : Type}.
Context (poll_value : F -> E -> option (result RuntimeError T) * E).
Context (spawn_on : Place -> CollectiveEcho T -> E -> result RuntimeError F * E).
Context `{!HonestFutures poll_value, !HonestEcho poll_value spawn_on}.

Definition spawn_failed (e : AlgorithmError) : Prop :=
  exists err place v env env', e = AlgorithmError_Runtime err /\ spawn_on place v env = (Err err, env').

Lemma spawn_all_honest jobs : forall e,
  match spawn_all spawn_on jobs e with
  | (Ok fs, _) => map (value_of poll_value) fs = jobs.*2
  | (Err err, _) => spawn_failed err
  end.
Proof.
  induction jobs as [|[place v] jobs IH]; intros e; [done|]. cbn [spawn_all].
  destruct (spawn_on place (Echo v) e) as [[f|err] e1] eqn:Hsp.
  - specialize (IH e1). destruct (spawn_all spawn_on jobs e1) as [[fs|err] e2]; [|done].
    cbn. rewrite IH. f_equal. by eapply spawn_honest.
  - by exists err, place, (Echo v), e, e1.
Qed.
End Spawn.

(** ** Properties *)

(** However often a gather is polled, and in whatever order its futures
    become ready: it never panics; if it completes, it does so with the value
    of every future, in the order of the futures; an error is one that a future
    reported; and it is pending only while some future is. *)
Theorem gather_in_order {T F E} (poll_value : F -> E -> option (result RuntimeError T) * E)
    `{!HonestFutures poll_value} fs s : gathering poll_value fs s ->
  match poll poll_value s with
  | (Ok (Some out), _) => out = map (value_of poll_value) fs
  | (Ok None, _) => future_waits poll_value
  | (Err (Raise e), _) => exists err, e = AlgorithmError_Runtime err /\ future_failed poll_value err
  | (Err Panic, _) => False
  end.
Proof.
  intros Hg. pose proof (poll_gather poll_value _ _ (gathering_inv poll_value _ _ Hg)) as Hp. unfold wp in Hp.
  destruct (poll poll_value s) as [[[out|]|[e|]] s']; [done|by destruct Hp| |done].
  destruct e; try done. by exists e.
Qed.

(** A broadcast that starts gathers the value once per locality, and a
    scatter gathers the values in the order of the localities; a scatter of any
    other number of values is refused; the only other errors are the runtime's
    for an echo it did not take. *)
Theorem collectives_deliver {T F E} (poll_value : F -> E -> option (result RuntimeError T) * E)
    (spawn_on : Place -> CollectiveEcho T -> E -> result RuntimeError F * E)
    `{!HonestFutures poll_value} `{!HonestEcho poll_value spawn_on} localities d v vs e :
  match broadcast spawn_on localities d v e with
  | (Ok g, _) => exists fs, gathering poll_value fs g /\ map (value_of poll_value) fs = map (fun _ => v) localities
  | (Err err, _) => spawn_failed spawn_on err
  end
  /\ match scatter spawn_on localities d vs e with
     | (Ok g, _) => len vs = len localities
         /\ exists fs, gathering poll_value fs g /\ map (value_of poll_value) fs = vs
     | (Err err, _) => if len vs =? len localities then spawn_failed spawn_on err
         else err = AlgorithmError_InputShape "scatter requires one value per locality"
     end.
Proof.
  split.
  - unfold broadcast. pose proof (spawn_all_honest poll_value spawn_on
      (map (fun l => (Place_new l d, v)) localities) e) as Hs.
    destruct (spawn_all _ _ _) as [[fs|err] e']; [|done]. cbn. exists fs.
    split; [constructor|]. rewrite Hs, <- list_fmap_compose. done.
  - unfold scatter. destruct (Z.eqb_spec (len vs) (len localities)) as [Heq|Hne]; [|done]. cbn [negb].
    pose proof (spawn_all_honest poll_value spawn_on
      (map (fun '(v, l) => (Place_new l d, v)) (zip vs localities)) e) as Hs.
    destruct (spawn_all _ _ _) as [[fs|err] e']; [|done]. cbn. split; [done|]. exists fs.
    split; [constructor|]. rewrite Hs, <- list_fmap_compose.
    transitivity ((zip vs localities).*1).
    + apply list_fmap_ext. by intros i [x l] _.
    + apply fst_zip. unfold len in Heq. lia.
Qed.

(** ** Witness *)

(** Futures that become ready one by one, the last one first. *)
Module GatherExample.
Definition poll_value (f : Z) (clock : Z) : option (result RuntimeError Z) * Z :=
  if f + clock <? 3 then (None, clock) else (Some (Ok (10 * f)), clock).
#[global] Instance honest : HonestFutures poll_value.
Proof.
  refine {| value_of := fun f => 10 * f |}. unfold poll_value. intros f e v e'.
  destruct (f + e <? 3); [done|]. by intros [= <- _].
Defined.
Definition state1 := Eval vm_compute in (poll poll_value (gather [0; 1; 2] 1)).2.
End GatherExample.

Lemma gather_in_order_witness :
  poll GatherExample.poll_value (gather [0; 1; 2] 1) = (Ok None, GatherExample.state1)
  /\ futures GatherExample.state1 = [Some 0; Some 1; None]
  /\ match poll GatherExample.poll_value (set_env 3 GatherExample.state1) with
     | (Ok (Some out), _) => out = [0; 10; 20]
     | _ => False
     end.
Proof.
  assert (H1 : poll GatherExample.poll_value (gather [0; 1; 2] 1) = (Ok None, GatherExample.state1))
    by (vm_compute; reflexivity).
  assert (Hg : gathering GatherExample.poll_value [0; 1; 2] (set_env 3 GatherExample.state1))
    by (eapply gathering_poll; [apply gathering_start|exact H1]).
  split; [exact H1|]. split; [reflexivity|].
  pose proof (gather_in_order GatherExample.poll_value [0; 1; 2] _ Hg) as Hp.
  destruct (poll _ _) as [[[out|]|[e|]] s'] eqn:Heq; try (vm_compute in Heq; discriminate Heq). exact Hp.
Defined.

(** A runtime with room for three calls, whose echoes answer at once. *)
Module EchoExample.
Definition poll_value (f : Z) (calls : Z) : option (result RuntimeError Z) * Z := (Some (Ok f), calls).
Definition spawn_on (_ : Place) (echo : CollectiveEcho Z) (calls : Z) : result RuntimeError Z * Z :=
  let '(Echo v) := echo in
  if calls <? 3 then (Ok v, calls + 1) else (Err RuntimeError_BuilderSealed, calls).
#[global] Instance honest : HonestFutures poll_value.
Proof. refine {| value_of := fun f => f |}. by intros f e v e' [= -> _]. Defined.
#[global] Instance echo : HonestEcho poll_value spawn_on.
Proof. intros place v e f e'. unfold spawn_on. destruct (e <? 3); [|done]. by intros [= <- _]. Defined.
End EchoExample.

Lemma collectives_deliver_witness :
  (exists g, (broadcast EchoExample.spawn_on [4; 7] 0 9 0).1 = Ok g
     /\ (poll EchoExample.poll_value g).1 = Ok (Some [9; 9]))
  /\ (exists g fs, (scatter EchoExample.spawn_on [4; 7] 0 [5; 6] 1).1 = Ok g
     /\ gathering EchoExample.poll_value fs g /\ map (value_of EchoExample.poll_value) fs = [5; 6])
  /\ (scatter EchoExample.spawn_on [4; 7] 0 [5] 1).1
     = Err (AlgorithmError_InputShape "scatter requires one value per locality")
  /\ (exists err, (broadcast EchoExample.spawn_on [4; 7] 0 9 2).1 = Err err /\ spawn_failed EchoExample.spawn_on err).
Proof.
  split; [|split; [|split]].
  - eexists. split; reflexivity.
  - destruct (collectives_deliver EchoExample.poll_value EchoExample.spawn_on [4; 7] 0 9 [5; 6] 1) as [_ Hs].
    eexists. change (match (Ok (gather [5; 6] 3), 3) with
      | (Ok g, _) => len [5; 6] = len [4; 7] /\ exists fs, gathering EchoExample.poll_value fs g
          /\ map (value_of EchoExample.poll_value) fs = [5; 6]
      | (Err err, _) => if len [5; 6] =? len [4; 7] then spawn_failed EchoExample.spawn_on err
         else err = AlgorithmError_InputShape "scatter requires one value per locality" end) in Hs.
    destruct Hs as (_ & fs & Hg & Hm). exists fs. split; [reflexivity|]. by split.
  - reflexivity.
  - eexists. split; [reflexivity|].
    exact (proj1 (collectives_deliver EchoExample.poll_value EchoExample.spawn_on [4; 7] 0 9 [] 2)).
Defined.
