(* ===== verification/Pending.v ===== *)
(** * Pending: calls awaiting their result

    Models [crates/hataori-runtime/src/pending.rs].  A [Promise] is an
    [Arc] shared by the table entry and the caller's future: the promises are a
    store, and entries and futures hold their addresses.  Every operation runs
    under the promise's or the table's mutex, so it is one step; [wakes] logs
    the wakers that were woken.  Instants and durations are integers. *)
From S2P Require Import Prelude Text Protocol Error RuntimeWire Action.

Section Pending.
Context `{AnyTypes}.

Abbreviation Waker := Z (only parsing).
Abbreviation Address := Z (only parsing).
Definition Outcome : Type := result RuntimeError ActionValue.

(** ** Data *)

Record Promise : Type := mkPromise {
  promise_result : option Outcome;
  promise_waker : option Waker;
  promise_done : bool;
}.

Record PendingEntry : Type := mkPendingEntry {
  promise : Address;
  destination : LocalityId;
  entry_action : ActionId;
  entry_domain : DomainId;
  trace_id : option TraceId;
  expires_at : Z;
  deadline : Z;
  cancel_token : option Z;
}.

(** The table, the promises and what the wakers saw. *)
Record State : Type := mkState {
  entries : gmap RequestId PendingEntry;
  limit : Z;
  promises : gmap Address Promise;
  next_promise : Address;
  wakes : list Waker;
}.

Definition PendingTable_new (limit : Z) : State := mkState ∅ limit ∅ 0 [].

Definition set_entries (e : gmap RequestId PendingEntry) (s : State) : State :=
  mkState e (limit s) (promises s) (next_promise s) (wakes s).
Definition set_promise (p : Address) (v : Promise) (s : State) : State :=
  mkState (entries s) (limit s) (<[p := v]> (promises s)) (next_promise s) (wakes s).
Definition wake (w : Waker) (s : State) : State :=
  mkState (entries s) (limit s) (promises s) (next_promise s) (wakes s ++ [w]).

(** ** Promises *)

(** [Arc::new(Promise::new())]. *)
Definition Promise_new : M State RuntimeError Address :=
  p ← gets next_promise;
  modify (fun s => mkState (entries s) (limit s) (<[p := mkPromise None None false]> (promises s))
                     (p + 1) (wakes s));;
  mret p.

(** Follow an address; every address the program holds was allocated. *)
Definition deref (p : Address) : M State RuntimeError Promise :=
  v ← gets (fun s => promises s !! p);
  match v with Some v => mret v | None => panic end.

Definition complete (p : Address) (outcome : Outcome) : M State RuntimeError unit :=
  state ← deref p;
  mwhen (match promise_result state with None => negb (promise_done state) | Some _ => false end)
    (modify (set_promise p (mkPromise (Some outcome) None true));;
     match promise_waker state with
     | Some w => modify (wake w)
     | None => mret tt
     end).

(** [Poll<T>] as an option: [None] is [Pending]. *)
Definition poll (p : Address) (context : Waker) : M State RuntimeError (option Outcome) :=
  state ← deref p;
  match promise_result state with
  | Some outcome =>
      modify (set_promise p (mkPromise None (promise_waker state) (promise_done state)));;
      mret (Some outcome)
  | None =>
      modify (set_promise p (mkPromise None (Some context) (promise_done state)));;
      mret None
  end.

Definition done (p : Address) : M State RuntimeError bool :=
  state ← deref p; mret (promise_done state).

(** ** The table *)

Definition insert (request : RequestId) (entry : PendingEntry) : M State RuntimeError unit :=
  s ← gets id;
  if limit s <=? Z.of_nat (size (entries s))
  then raise (RuntimeError_ResourceExhausted PendingCalls (limit s))
  else modify (fun s => set_entries (<[request := entry]> (entries s)) s).

Definition remove (request : RequestId) : M State RuntimeError (option PendingEntry) :=
  found ← gets (fun s => entries s !! request);
  modify (fun s => set_entries (delete request (entries s)) s);;
  mret found.

Definition take_checked (request : RequestId) (source : LocalityId) (act : ActionId) :
    M State RuntimeError (option PendingEntry) :=
  found ← gets (fun s => entries s !! request);
  match found with
  | None => mret None
  | Some entry =>
      if negb (destination entry =? source) || negb (entry_action entry =? act)
      then raise (RuntimeError_Protocol (lit "result source or action does not match pending request"))
      else remove request
  end.

(** [into_iter().filter_map(remove)] over the collected requests. *)
Fixpoint remove_all (requests : list RequestId) : M State RuntimeError (list (RequestId * PendingEntry)) :=
  match requests with
  | [] => mret []
  | request :: rest =>
      found ← remove request;
      removed ← remove_all rest;
      mret (match found with Some entry => (request, entry) :: removed | None => removed end)
  end.

Definition expired (now : Z) : M State RuntimeError (list (RequestId * PendingEntry)) :=
  requests ← gets (fun s =>
    map fst (filter (fun x => (expires_at x.2 <=? now) = true) (map_to_list (entries s))));
  remove_all requests.

Definition drain : M State RuntimeError (list (RequestId * PendingEntry)) :=
  all ← gets (fun s => map_to_list (entries s));
  modify (set_entries ∅);;
  mret all.

Definition table_len (s : State) : Z := Z.of_nat (size (entries s)).

(** ** Futures *)

(** The caller's side of a call. *)
Record RemoteFuture : Type := mkRemoteFuture {
  future_request : RequestId;
  future_promise : Address;
  finished : bool;
}.

Definition RemoteFuture_new (request : RequestId) (p : Address) : RemoteFuture :=
  mkRemoteFuture request p false.

Definition finish (f : RemoteFuture) : RemoteFuture :=
  mkRemoteFuture (future_request f) (future_promise f) true.

(** The conversion of a finished call's outcome to [T], of which [cast] is
    [Box::downcast]; a codec that panics unwinds out of [poll], which has set
    [finished] by then. *)
Definition convert {T} `{WireValue T} (cast : any -> option T) (outcome : Outcome) : result (exn RuntimeError) T :=
  match outcome with
  | Ok (Encoded segments) =>
      match wire_decode segments with
      | Ok v => Ok v
      | Err (Raise e) =>
          Err (Raise (RuntimeError_Protocol (lit "action output decode failed: " ++ ActionError_message e)))
      | Err Panic => Err Panic
      end
  | Ok (Typed value) => ok_or (cast value) (Raise (RuntimeError_Protocol (lit "typed action output mismatch")))
  | Err e => Err (Raise e)
  end.

Definition future_poll {T} `{WireValue T} (cast : any -> option T) (f : RemoteFuture) (context : Waker) :
    M State RuntimeError (option (result (exn RuntimeError) T) * RemoteFuture) :=
  if finished f then panic
  else
    ready ← poll (future_promise f) context;
    match ready with
    | Some outcome => mret (Some (convert cast outcome), finish f)
    | None => mret (None, f)
    end.

(** [Drop]: the result is whether the [cancel] closure is called. *)
Definition future_drop (f : RemoteFuture) : M State RuntimeError bool :=
  if finished f then mret false
  else d ← done (future_promise f); mret (negb d).

(** ** One promise *)

Lemma deref_eq p v s : promises s !! p = Some v -> deref p s = (Ok v, s).
Proof. intros Hp. unfold deref. mrun. by rewrite Hp. Qed.

(** The effect of [complete] on a promise in state [v]. *)
Definition open (v : Promise) : bool :=
  match promise_result v with None => negb (promise_done v) | Some _ => false end.
Definition completed (p : Address) (v : Promise) (outcome : Outcome) (s : State) : State :=
  if open v then
    let s := set_promise p (mkPromise (Some outcome) None true) s in
    match promise_waker v with Some w => wake w s | None => s end
  else s.

Lemma complete_eq p v outcome s :
  promises s !! p = Some v -> complete p outcome s = (Ok tt, completed p v outcome s).
Proof.
  intros Hp. unfold complete. rewrite (M_bind_step _ _ _ _ _ (deref_eq p v s Hp)).
  unfold completed. fold (open v). destruct (open v); [|done]. cbn [mwhen]. mrun.
  by destruct (promise_waker v).
Qed.

Lemma poll_eq p v context s :
  promises s !! p = Some v ->
  poll p context s =
    (Ok (promise_result v),
     set_promise p (mkPromise None (match promise_result v with Some _ => promise_waker v | None => Some context end)
                      (promise_done v)) s).
Proof.
  intros Hp. unfold poll. rewrite (M_bind_step _ _ _ _ _ (deref_eq p v s Hp)).
  by destruct (promise_result v).
Qed.

(** What happens to one promise: attempts to complete it, and polls. *)
Inductive promise_op : Type :=
| P_complete (outcome : Outcome)
| P_poll (context : Waker).

Fixpoint promise_run (p : Address) (ops : list promise_op) : M State RuntimeError (list (option Outcome)) :=
  match ops with
  | [] => mret []
  | P_complete outcome :: ops' => complete p outcome;; promise_run p ops'
  | P_poll context :: ops' =>
      answer ← poll p context; answers ← promise_run p ops'; mret (answer :: answers)
  end.

(** The answers to the polls among [ops], the first being [first]. *)
Fixpoint poll_answers (first : option Outcome) (ops : list promise_op) : list (option Outcome) :=
  match ops with
  | [] => []
  | P_complete _ :: ops' => poll_answers first ops'
  | P_poll _ :: ops' => first :: poll_answers None ops'
  end.

Lemma promise_run_done p ops : forall s v,
  promises s !! p = Some v -> promise_done v = true ->
  exists s', promise_run p ops s = (Ok (poll_answers (promise_result v) ops), s') /\ wakes s' = wakes s.
Proof.
  induction ops as [|[outcome|context] ops IH]; intros s v Hp Hd; cbn [promise_run poll_answers]; [by exists s| |].
  - rewrite (M_bind_step _ _ _ _ _ (complete_eq p v outcome s Hp)).
    assert (Hc : completed p v outcome s = s)
      by (unfold completed, open; rewrite Hd; by destruct (promise_result v)).
    rewrite Hc. by apply IH.
  - rewrite (M_bind_step _ _ _ _ _ (poll_eq p v context s Hp)).
    edestruct (IH (set_promise p (mkPromise None (match promise_result v with Some _ => promise_waker v
      | None => Some context end) (promise_done v)) s)) as (s' & Hr & Hw);
      [apply lookup_insert_eq|done|].
    rewrite (M_bind_step _ _ _ _ _ Hr). exists s'. split; [done|]. by rewrite Hw.
Qed.

Lemma promise_run_open p pre : forall s w,
  promises s !! p = Some (mkPromise None w false) ->
  exists s', promise_run p (map P_poll pre) s = (Ok (map (fun _ => None) pre), s') /\
    wakes s' = wakes s /\
    promises s' !! p = Some (mkPromise None (match last pre with Some w' => Some w' | None => w end) false).
Proof.
  induction pre as [|c pre IH]; intros s w Hp; cbn [map promise_run]; [by exists s|].
  rewrite (M_bind_step _ _ _ _ _ (poll_eq p _ c s Hp)). cbn [promise_result promise_done].
  edestruct (IH (set_promise p (mkPromise None (Some c) false) s) (Some c)) as (s' & Hr & Hw & Hp');
    [apply lookup_insert_eq|].
  rewrite (M_bind_step _ _ _ _ _ Hr). exists s'. split_and!; [done|by rewrite Hw|].
  rewrite Hp'. rewrite last_cons. by destruct (last pre).
Qed.

Lemma promise_run_app p ops1 ops2 s a1 s1 :
  promise_run p ops1 s = (Ok a1, s1) ->
  promise_run p (ops1 ++ ops2) s =
    match promise_run p ops2 s1 with
    | (Ok a2, s2) => (Ok (a1 ++ a2), s2)
    | (Err e, s2) => (Err e, s2)
    end.
Proof.
  revert s a1. induction ops1 as [|[outcome|context] ops1 IH]; intros s a1 Hrun; cbn [promise_run app] in *.
  - injection Hrun as <- <-. by destruct (promise_run p ops2 s) as [[]].
  - unfold mbind, M_bind in *. destruct (complete p outcome s) as [[|] s']; [|done]. by apply IH.
  - unfold mbind, M_bind in *. destruct (poll p context s) as [[a|] s']; [|done].
    destruct (promise_run p ops1 s') as [[l|] s''] eqn:E; [|done]. injection Hrun as <- <-.
    rewrite (IH _ _ E). by destruct (promise_run p ops2 s'') as [[]].
Qed.

(** A promise delivers its first outcome, once.  Polls before the first
    completion are pending; the first poll after it returns that outcome, later
    polls find it taken, and later completions are ignored, even after it was
    taken; exactly one waker is woken, the one of the last poll before the
    completion, so that no wake-up is lost. *)
Theorem promise_delivers_once p s pre outcome post :
  promises s !! p = Some (mkPromise None None false) ->
  exists s', promise_run p (map P_poll pre ++ P_complete outcome :: post) s =
      (Ok (map (fun _ => None) pre ++ poll_answers (Some outcome) post), s') /\
    wakes s' = wakes s ++ match last pre with Some w => [w] | None => [] end.
Proof.
  intros Hp. destruct (promise_run_open p pre s None Hp) as (s1 & Hr1 & Hw1 & Hp1).
  rewrite (promise_run_app _ _ _ _ _ _ Hr1). cbn [promise_run].
  rewrite (M_bind_step _ _ _ _ _ (complete_eq p _ outcome s1 Hp1)).
  set (s2 := completed _ _ _ _).
  assert (Hp2 : promises s2 !! p = Some (mkPromise (Some outcome) None true)).
  { unfold s2, completed. cbn. destruct (last pre); apply lookup_insert_eq. }
  destruct (promise_run_done p post s2 _ Hp2 eq_refl) as (s3 & Hr3 & Hw3).
  rewrite Hr3. exists s3. split; [done|]. rewrite Hw3, <- Hw1. unfold s2, completed. cbn.
  destruct (last pre); cbn; [done|]. by rewrite app_nil_r.
Qed.

(** ** Calls

    What the runtime does with the table: a call puts a promise in it; a
    result, a refusal, the deadline or the end of the runtime takes entries out
    and completes their promises; dropping an unfinished future takes its entry
    out and leaves the promise alone. *)

Fixpoint complete_all (l : list (RequestId * PendingEntry)) (f : RequestId -> PendingEntry -> Outcome) :
    M State RuntimeError unit :=
  match l with
  | [] => mret tt
  | (r, e) :: l' => complete (promise e) (f r e);; complete_all l' f
  end.

Definition deadline_exceeded (r : RequestId) (e : PendingEntry) : Outcome :=
  Err (RuntimeError_DeadlineExceeded r (deadline e)).

(** The promises the table is responsible for. *)
Definition owners (s : State) : list Address := map (fun x => promise x.2) (map_to_list (entries s)).

(** [dropped]: promises whose future was dropped; [taken]: promises whose entry
    has been taken out and that are about to be completed. *)
Record call_inv (s : State) (dropped : gset Z) (taken : list Address) : Prop := {
  ci_size : table_len s <= Z.max 0 (limit s);
  ci_alloc : forall p v, promises s !! p = Some v -> p < next_promise s;
  ci_nodup : NoDup (owners s ++ taken);
  ci_owned : forall p, p ∈ owners s ++ taken -> exists v, promises s !! p = Some v /\ open v = true;
  ci_settled : forall p v, promises s !! p = Some v -> promise_done v = false ->
    p ∈ dropped \/ p ∈ owners s ++ taken;
}.

Lemma call_inv_perm s s' d t t' :
  call_inv s d t -> table_len s' <= table_len s -> limit s' = limit s -> promises s' = promises s ->
  next_promise s' = next_promise s -> owners s ++ t ≡ₚ owners s' ++ t' -> call_inv s' d t'.
Proof.
  intros [] Hlen Hl Hp Hn Hperm. split; rewrite ?Hl, ?Hp, ?Hn; try done.
  - lia.
  - by rewrite <- Hperm.
  - intros p Hin. apply ci_owned0. by rewrite Hperm.
  - intros p v Hv Hd. rewrite <- Hperm. eauto.
Qed.

Lemma owners_delete s r e :
  entries s !! r = Some e ->
  owners s ≡ₚ promise e :: owners (set_entries (delete r (entries s)) s).
Proof.
  intros Hr. unfold owners. cbn [entries set_entries].
  rewrite <- (map_to_list_delete (entries s) r e Hr). done.
Qed.

Lemma remove_call r s d t :
  call_inv s d t ->
  let s' := set_entries (delete r (entries s)) s in
  remove r s = (Ok (entries s !! r), s') /\
  call_inv s' d (match entries s !! r with Some e => promise e :: t | None => t end).
Proof.
  intros Hinv s'. split; [done|].
  destruct (entries s !! r) as [e|] eqn:Hr.
  - apply (call_inv_perm s _ d t); try done.
    + unfold table_len, s'. cbn. rewrite map_size_delete, Hr. lia.
    + rewrite (owners_delete s r e Hr). cbn. fold s'. by rewrite Permutation_middle.
  - assert (s' = s) as ->; [|done]. unfold s', set_entries. rewrite delete_id by done. by destruct s.
Qed.

Lemma drop_taken s d p t : call_inv s d (p :: t) -> call_inv s ({[p]} ∪ d) t.
Proof.
  intros []. split; try done.
  - apply NoDup_app in ci_nodup0 as (H1 & H2 & H3). apply NoDup_cons in H3 as [? H3].
    apply NoDup_app. split_and!; [done|set_solver|done].
  - intros q Hq. apply ci_owned0. set_solver.
  - intros q v Hq Hd. specialize (ci_settled0 q v Hq Hd). set_solver.
Qed.

Lemma complete_call p outcome s d t :
  call_inv s d (p :: t) -> exists s', complete p outcome s = (Ok tt, s') /\ call_inv s' d t /\
    entries s' = entries s /\ limit s' = limit s /\
    promises s' = <[p := mkPromise (Some outcome) None true]> (promises s).
Proof.
  intros Hinv. destruct (ci_owned _ _ _ Hinv p) as (v & Hp & Hopen); [set_solver|].
  rewrite (complete_eq p v outcome s Hp). unfold completed. rewrite Hopen.
  set (s1 := match promise_waker v with Some _ => _ | None => _ end).
  assert (Hs1 : entries s1 = entries s /\ limit s1 = limit s /\ next_promise s1 = next_promise s /\
      promises s1 = <[p := mkPromise (Some outcome) None true]> (promises s))
    by (unfold s1; by destruct (promise_waker v)).
  destruct Hs1 as (H1 & H2 & H3 & H4). exists s1. split; [done|]. split; [|done].
  assert (Ho : owners s1 = owners s) by (unfold owners; by rewrite H1).
  assert (Hl : table_len s1 = table_len s) by (unfold table_len; by rewrite H1).
  destruct Hinv. split; rewrite ?Ho, ?Hl, ?H2, ?H3, ?H4; try done.
  - intros q w [[<- _]|[_ Hq]]%lookup_insert_Some; eauto.
  - apply NoDup_app in ci_nodup0 as (N1 & N2 & N3). apply NoDup_cons in N3 as [? N3].
    apply NoDup_app. split_and!; [done|set_solver|done].
  - intros q Hq. rewrite lookup_insert_ne; [apply ci_owned0; set_solver|].
    intros <-. apply NoDup_app in ci_nodup0 as (_ & N2 & N3). apply NoDup_cons in N3 as [? _]. set_solver.
  - intros q w [[<- <-]|[Hne Hq]]%lookup_insert_Some Hd; [done|].
    specialize (ci_settled0 q w Hq Hd). set_solver.
Qed.

Abbreviation addresses l := (map (fun x => promise x.2) l).

Lemma remove_all_call ks : forall s d t,
  call_inv s d t -> exists l s', remove_all ks s = (Ok l, s') /\
    call_inv s' d (addresses l ++ t) /\ promises s' = promises s /\ limit s' = limit s /\
    (forall r, entries s' !! r = if decide (r ∈ ks) then None else entries s !! r) /\
    (forall r e, (r, e) ∈ l <-> r ∈ ks /\ entries s !! r = Some e).
Proof.
  induction ks as [|k ks IH]; intros s d t Hinv; cbn [remove_all].
  - exists [], s. split_and!; try done. intros r e. split; [by intros ?%elem_of_nil|].
    by intros [?%elem_of_nil _].
  - destruct (remove_call k s d t Hinv) as [Hr Hinv1]. rewrite (M_bind_step _ _ _ _ _ Hr).
    destruct (IH _ _ _ Hinv1) as (l & s' & Hl & Hinv2 & Hp & Hlim & He & Hin).
    rewrite (M_bind_step _ _ _ _ _ Hl). cbn [entries set_entries] in He, Hin.
    eexists _, s'. split; [reflexivity|]. split_and!.
    + destruct (entries s !! k) as [e|]; [|done].
      apply (call_inv_perm s' s' d (addresses l ++ promise e :: t)); try done.
      cbn. by rewrite <- Permutation_middle.
    + done.
    + done.
    + intros r. rewrite He. destruct (decide (r = k)) as [->|Hne].
      * rewrite lookup_delete_eq, (decide_True (P := k ∈ k :: ks)) by (by left). by destruct (decide _).
      * rewrite lookup_delete_ne by done. destruct (decide (r ∈ ks)) as [Hi|Hi].
        -- by rewrite decide_True by (by right).
        -- by rewrite decide_False by (by intros [?|?]%elem_of_cons).
    + intros r e.
      assert (Hl' : (r, e) ∈ l <-> r ∈ ks /\ r <> k /\ entries s !! r = Some e).
      { rewrite Hin, lookup_delete_Some. naive_solver. }
      destruct (entries s !! k) as [e'|] eqn:Hk; rewrite ?elem_of_cons, Hl'; split.
      * intros [[= -> ->]|?]; naive_solver.
      * intros [[->|?] ?]; [left; congruence|]. destruct (decide (r = k)) as [->|]; [left; congruence|naive_solver].
      * naive_solver.
      * intros [[->|?] ?]; [congruence|]. destruct (decide (r = k)) as [->|]; [congruence|naive_solver].
Qed.

Lemma complete_all_call f l : forall s d t,
  call_inv s d (addresses l ++ t) -> exists s', complete_all l f s = (Ok tt, s') /\
    call_inv s' d t /\ entries s' = entries s /\ limit s' = limit s /\
    (forall r e, (r, e) ∈ l -> promises s' !! promise e = Some (mkPromise (Some (f r e)) None true)) /\
    (forall q, q ∉ addresses l -> promises s' !! q = promises s !! q).
Proof.
  induction l as [|[r e] l IH]; intros s d t Hinv; cbn [complete_all].
  - exists s. split_and!; try done. by intros ? ? ?%elem_of_nil.
  - destruct (complete_call (promise e) (f r e) s d (addresses l ++ t) Hinv) as
      (s1 & Hc & Hinv1 & He & Hlim & Hp).
    rewrite (M_bind_step _ _ _ _ _ Hc).
    assert (Hfresh : promise e ∉ addresses l).
    { pose proof (ci_nodup _ _ _ Hinv) as Hnd. apply NoDup_app in Hnd as (_ & _ & Hnd).
      cbn in Hnd. apply NoDup_cons in Hnd as [Hnd _]. set_solver. }
    destruct (IH _ _ _ Hinv1) as (s' & Hl & Hinv2 & He2 & Hlim2 & Hdone & Hother).
    exists s'. split; [done|]. split_and!; [done|by rewrite He2|by rewrite Hlim2|..].
    + intros r' e' [[= -> ->]|Hin]%elem_of_cons; [|by apply Hdone].
      by rewrite Hother, Hp, lookup_insert_eq.
    + intros q Hq. cbn in Hq. rewrite Hother by set_solver.
      rewrite Hp, lookup_insert_ne; [done|set_solver].
Qed.

Lemma expire_call now s d :
  call_inv s d [] -> exists l s', expired now s = (Ok l, s') /\ call_inv s' d (addresses l) /\
    promises s' = promises s /\ limit s' = limit s /\
    (forall r, entries s' !! r = match entries s !! r with
                                 | Some e => if expires_at e <=? now then None else Some e
                                 | None => None
                                 end) /\
    (forall r e, (r, e) ∈ l <-> entries s !! r = Some e /\ (expires_at e <=? now) = true).
Proof.
  intros Hinv. unfold expired. mrun. set (ks := map fst _).
  assert (Hks : forall r, r ∈ ks <-> exists e, entries s !! r = Some e /\ (expires_at e <=? now) = true).
  { intros r. unfold ks. rewrite list_elem_of_fmap. split.
    - intros ([r' e] & -> & [Hexp Hin]%list_elem_of_filter). apply elem_of_map_to_list in Hin. eauto.
    - intros (e & He & Hexp). exists (r, e). split; [done|]. apply list_elem_of_filter.
      split; [done|]. by apply elem_of_map_to_list. }
  destruct (remove_all_call ks s d [] Hinv) as (l & s' & Hl & Hinv' & Hp & Hlim & He & Hin).
  rewrite app_nil_r in Hinv'. exists l, s'. split_and!; try done.
  - intros r. rewrite He. destruct (decide (r ∈ ks)) as [Hr|Hr].
    + apply Hks in Hr as (e & -> & ->). done.
    + destruct (entries s !! r) as [e|] eqn:Hr'; [|done].
      destruct (expires_at e <=? now) eqn:Hexp; [|done]. destruct Hr. apply Hks. eauto.
  - intros r e. rewrite Hin, Hks. naive_solver.
Qed.

Lemma drain_call s d :
  call_inv s d [] -> exists l s', drain s = (Ok l, s') /\ call_inv s' d (addresses l) /\
    promises s' = promises s /\ limit s' = limit s /\ entries s' = ∅ /\
    (forall r e, (r, e) ∈ l <-> entries s !! r = Some e).
Proof.
  intros Hinv. unfold drain. mrun. eexists _, _. split; [reflexivity|]. split_and!; try done.
  - apply (call_inv_perm s _ d [] (owners s)); try done.
    + unfold table_len. cbn. rewrite map_size_empty. lia.
    + unfold owners. cbn. by rewrite map_to_list_empty, app_nil_r.
  - intros r e. apply elem_of_map_to_list.
Qed.

(** The events of a runtime's calls.  The result of [handle] is the promises
    whose future is gone: that of a refused call, which never got one, and that
    of a call whose future was dropped before its result. *)
Inductive event : Type :=
| Ev_call (r : RequestId) (e : Address -> PendingEntry)
| Ev_result (r : RequestId) (source : LocalityId) (act : ActionId) (outcome : Outcome)
| Ev_refused (r : RequestId) (outcome : Outcome)
| Ev_expire (now : Z)
| Ev_end (outcome : Outcome)
| Ev_poll (p : Address) (context : Waker)
| Ev_drop (f : RemoteFuture).

Definition answer (found : option PendingEntry) (outcome : Outcome) : M State RuntimeError (list Address) :=
  match found with
  | Some e => complete (promise e) outcome;; mret []
  | None => mret []
  end.

Definition not_inserted (p : Address) (m : M State RuntimeError unit) : M State RuntimeError (list Address) :=
  fun s => match m s with
           | (Ok _, s') => (Ok [], s')
           | (Err _, s') => (Ok [p], s')
           end.

Definition handle (ev : event) : M State RuntimeError (list Address) :=
  match ev with
  | Ev_call r e =>
      p ← Promise_new;
      not_inserted p (insert r (e p))
  | Ev_result r source act outcome => found ← take_checked r source act; answer found outcome
  | Ev_refused r outcome => found ← remove r; answer found outcome
  | Ev_expire now => l ← expired now; complete_all l deadline_exceeded;; mret []
  | Ev_end outcome => l ← drain; complete_all l (fun _ _ => outcome);; mret []
  | Ev_poll p context => poll p context;; mret []
  | Ev_drop f =>
      cancel ← future_drop f;
      if cancel : bool then
        found ← remove (future_request f);
        mret (match found with Some e => [promise e] | None => [] end)
      else mret []
  end.

(** Calls use fresh requests and their own promise; polls and drops are those
    of futures of calls that were made. *)
Definition event_wf (s : State) (ev : event) : Prop :=
  match ev with
  | Ev_call r e => entries s !! r = None /\ forall p, promise (e p) = p
  | Ev_poll p _ => is_Some (promises s !! p)
  | Ev_drop f => is_Some (promises s !! future_promise f)
  | _ => True
  end.

Inductive reachable (limit : Z) : State -> gset Address -> Prop :=
| R_new : reachable limit (PendingTable_new limit) ∅
| R_step s d ev x s' :
    reachable limit s d -> event_wf s ev -> handle ev s = (x, s') ->
    reachable limit s' (match x with Ok l => list_to_set l ∪ d | Err _ => d end).

Definition keeps_inv (ev : event) (s : State) (d : gset Address) : Prop :=
  exists x s', handle ev s = (x, s') /\ x <> Err Panic /\ limit s' = limit s /\
    call_inv s' (match x with Ok l => list_to_set l ∪ d | Err _ => d end) [].

Lemma remove_limit r s : limit (remove r s).2 = limit s.
Proof. done. Qed.

Lemma answer_inv found outcome s d :
  call_inv s d (match found with Some e => [promise e] | None => [] end) ->
  exists s', answer found outcome s = (Ok [], s') /\ call_inv s' d [] /\ limit s' = limit s.
Proof.
  intros Hinv. destruct found as [e|]; cbn [answer]; [|by exists s].
  destruct (complete_call _ outcome _ _ _ Hinv) as (s' & Hc & Hinv' & _ & Hl & _).
  rewrite (M_bind_step _ _ _ _ _ Hc). by exists s'.
Qed.

Lemma empty_union (d : gset Address) : list_to_set [] ∪ d = d.
Proof. set_solver. Qed.

(** A new promise is nobody's; inserting its entry makes the table its owner. *)
Lemma new_call s d :
  call_inv s d [] -> exists s1, Promise_new s = (Ok (next_promise s), s1) /\
    call_inv s1 ({[next_promise s]} ∪ d) [] /\ entries s1 = entries s /\ limit s1 = limit s /\
    promises s1 = <[next_promise s := mkPromise None None false]> (promises s) /\
    next_promise s ∉ owners s.
Proof.
  intros []. rewrite app_nil_r in *. unfold Promise_new. mrun. eexists. split; [reflexivity|].
  assert (Hfresh : next_promise s ∉ owners s).
  { intros Hin. destruct (ci_owned0 _ Hin) as (v & Hv & _). apply ci_alloc0 in Hv. lia. }
  split; [|done]. split; rewrite ?app_nil_r; try done.
  - cbn. intros q v [[<- _]|[_ Hq]]%lookup_insert_Some; [lia|]. apply ci_alloc0 in Hq. lia.
  - intros q Hq. cbn. rewrite lookup_insert_ne; [by apply ci_owned0|]. by intros <-.
  - cbn [promises]. intros q v [[<- _]|[_ Hq]]%lookup_insert_Some Hd; [set_solver|].
    specialize (ci_settled0 q v Hq Hd). change (q ∈ {[next_promise s]} ∪ d \/ q ∈ owners s). set_solver.
Qed.

Lemma insert_call r e s d v :
  call_inv s ({[promise e]} ∪ d) [] -> entries s !! r = None -> promise e ∉ owners s ->
  promises s !! promise e = Some v -> open v = true -> table_len s < limit s ->
  call_inv (set_entries (<[r := e]> (entries s)) s) d [].
Proof.
  intros [] Hr Hown Hv Hopen Hlen. rewrite app_nil_r in *. set (s' := set_entries _ s).
  assert (Ho : owners s' ≡ₚ promise e :: owners s).
  { unfold owners, s'. cbn. by rewrite (map_to_list_insert (entries s) r e Hr). }
  split; rewrite ?app_nil_r; try done.
  - unfold table_len, s' in *. cbn. rewrite map_size_insert_None by done. lia.
  - rewrite Ho. by constructor.
  - intros q. rewrite Ho. intros [->|Hq]%elem_of_cons; [by eexists|by apply ci_owned0].
  - intros q w Hq Hd. rewrite Ho. specialize (ci_settled0 q w Hq Hd). set_solver.
Qed.

Lemma call_handled r e s d : call_inv s d [] -> event_wf s (Ev_call r e) -> keeps_inv (Ev_call r e) s d.
Proof.
  intros Hinv [Hr He]. unfold keeps_inv, handle.
  destruct (new_call s d Hinv) as (s1 & Hn & Hinv1 & He1 & Hl1 & Hp1 & Hown).
  rewrite (M_bind_step _ _ _ _ _ Hn). set (p := next_promise s) in *.
  unfold not_inserted, insert. mrun. unfold id.
  destruct (limit s1 <=? _) eqn:Hfull; mrun.
  - eexists _, _. split; [reflexivity|]. split_and!; [done|done|]. cbn.
    by rewrite (right_id_L ∅ (∪)).
  - zbool. eexists _, _. split; [reflexivity|]. split_and!; [done|done|]. rewrite empty_union.
    apply (insert_call r (e p) s1 d (mkPromise None None false)).
    + by rewrite He.
    + by rewrite He1.
    + rewrite He. unfold owners. by rewrite He1.
    + by rewrite He, Hp1, lookup_insert_eq.
    + done.
    + unfold table_len. lia.
Qed.

Lemma poll_handled p context s d : call_inv s d [] -> event_wf s (Ev_poll p context) -> keeps_inv (Ev_poll p context) s d.
Proof.
  intros [] [v Hv]. unfold keeps_inv, handle. rewrite (M_bind_step _ _ _ _ _ (poll_eq p v context s Hv)).
  eexists _, _. split; [reflexivity|]. split_and!; [done|done|]. rewrite empty_union.
  set (s' := set_promise _ _ s). change (owners s) with (owners s') in *. split; try done.
  - unfold s'. cbn [promises set_promise]. intros q w [[<- _]|[_ Hq]]%lookup_insert_Some; cbn; eauto.
  - intros q Hq. destruct (ci_owned0 q Hq) as (w & Hw & Ho). cbn.
    destruct (decide (p = q)) as [<-|Hne]; [|rewrite lookup_insert_ne by done; eauto].
    rewrite lookup_insert_eq. eexists. split; [done|]. assert (w = v) as -> by congruence.
    unfold open in *. by destruct (promise_result v).
  - unfold s' at 1. cbn [promises set_promise]. intros q w [[<- <-]|[_ Hq]]%lookup_insert_Some Hd; [by apply (ci_settled0 p v)|eauto].
Qed.

(** Entries taken out are answered together. *)
Lemma settle_handled s s1 d l (m : M State RuntimeError (list (RequestId * PendingEntry))) f :
  m s = (Ok l, s1) -> call_inv s1 d (addresses l) -> limit s1 = limit s ->
  exists x s', (l ← m; complete_all l f;; mret ([] : list Address)) s = (x, s') /\ x <> Err Panic /\
    limit s' = limit s /\ call_inv s' (match x with Ok l => list_to_set l ∪ d | Err _ => d end) [].
Proof.
  intros He Hinv Hl. rewrite (M_bind_step _ _ _ _ _ He). rewrite <- (app_nil_r (addresses l)) in Hinv.
  destruct (complete_all_call f l s1 d [] Hinv) as (s2 & Hc & Hinv2 & _ & Hl2 & _).
  rewrite (M_bind_step _ _ _ _ _ Hc). exists (Ok []), s2. rewrite empty_union.
  split_and!; [done|done|congruence|done].
Qed.

Lemma handle_inv ev s d : call_inv s d [] -> event_wf s ev -> keeps_inv ev s d.
Proof.
  intros Hinv Hwf. destruct ev as [r e|r src act outcome|r outcome|now|outcome|p context|f].
  - by apply call_handled.
  - unfold keeps_inv, handle, take_checked. mrun. destruct (entries s !! r) as [e|] eqn:Hr; mrun.
    + destruct (negb _ || negb _); mrun; [by eexists _, s|].
      destruct (remove_call r s d [] Hinv) as [Hrm Hinv1]. rewrite Hr in Hrm, Hinv1.
      rewrite (M_bind_step _ _ _ _ _ Hrm).
      destruct (answer_inv (Some e) outcome _ d Hinv1) as (s' & -> & Hinv2 & Hl).
      exists (Ok []), s'. by rewrite empty_union.
    + exists (Ok []), s. by rewrite empty_union.
  - unfold keeps_inv, handle. destruct (remove_call r s d [] Hinv) as [Hrm Hinv1].
    rewrite (M_bind_step _ _ _ _ _ Hrm).
    destruct (answer_inv (entries s !! r) outcome _ d Hinv1) as (s' & -> & Hinv2 & Hl).
    exists (Ok []), s'. by rewrite empty_union.
  - unfold keeps_inv, handle. destruct (expire_call now s d Hinv) as (l & s1 & He & Hinv1 & _ & Hl1 & _).
    by apply (settle_handled s s1 d l).
  - unfold keeps_inv, handle. destruct (drain_call s d Hinv) as (l & s1 & He & Hinv1 & _ & Hl1 & _).
    by apply (settle_handled s s1 d l).
  - by apply poll_handled.
  - destruct Hwf as [v Hv]. unfold keeps_inv, handle, future_drop.
    assert (Hnop : exists x s', (mret [] : M State RuntimeError (list Address)) s = (x, s') /\
        x <> Err Panic /\ limit s' = limit s /\
        call_inv s' (match x with Ok l => list_to_set l ∪ d | Err _ => d end) [])
      by (exists (Ok []), s; by rewrite empty_union).
    destruct (finished f); mrun; [done|]. unfold done.
    rewrite M_bind_assoc, (M_bind_step _ _ _ _ _ (deref_eq _ v s Hv)). mrun.
    destruct (negb (promise_done v)); [|done].
    destruct (remove_call (future_request f) s d [] Hinv) as [Hrm Hinv1].
    rewrite (M_bind_step _ _ _ _ _ Hrm). eexists _, _. split; [reflexivity|]. split_and!; [done|done|].
    destruct (entries s !! future_request f) as [e|]; [|by rewrite empty_union].
    cbn. rewrite (right_id_L ∅ (∪)). by apply drop_taken.
Qed.

Lemma pending_reachable_inv lim s d : reachable lim s d -> call_inv s d [] /\ limit s = lim.
Proof.
  induction 1 as [|s d ev x s' _ [IH Hlim] Hwf Hev].
  - split; [|done]. split; cbn; try done.
    + unfold table_len. cbn. rewrite map_size_empty. lia.
    + unfold owners. cbn. rewrite map_to_list_empty. apply NoDup_nil_2.
    + unfold owners. cbn. rewrite map_to_list_empty. by intros ? ?%elem_of_nil.
  - destruct (handle_inv ev s d IH Hwf) as (y & s1 & Hev1 & _ & Hl & Hinv).
    rewrite Hev in Hev1. injection Hev1 as <- <-. split; [done|congruence].
Qed.

Lemma owned_entry s p : p ∈ owners s <-> exists r e, entries s !! r = Some e /\ promise e = p.
Proof.
  unfold owners. rewrite list_elem_of_fmap. split.
  - intros ([r e] & -> & Hin). apply elem_of_map_to_list in Hin. eauto.
  - intros (r & e & He & <-). exists (r, e). split; [done|]. by apply elem_of_map_to_list.
Qed.

(** An entry waits for its promise, which is no other entry's. *)
Lemma entry_waits s d r e :
  call_inv s d [] -> entries s !! r = Some e ->
  (exists w, promises s !! promise e = Some (mkPromise None w false)) /\
  forall r' e', entries s !! r' = Some e' -> promise e' = promise e -> r' = r.
Proof.
  intros Hinv He. split.
  - destruct (ci_owned _ _ _ Hinv (promise e)) as (v & Hv & Hopen).
    { rewrite app_nil_r. apply owned_entry. eauto. }
    destruct v as [[] w []]; try done. by exists w.
  - intros r' e' He' Hsame. destruct (decide (r' = r)) as [|Hne]; [done|exfalso].
    pose proof (ci_nodup _ _ _ Hinv) as Hnd. rewrite app_nil_r, (owners_delete s r e He) in Hnd.
    apply NoDup_cons in Hnd as [Hnd _]. apply Hnd, owned_entry. exists r', e'.
    split; [|done]. cbn. by rewrite lookup_delete_ne.
Qed.

(** No call is forgotten.  Whatever calls, results, refusals, deadlines,
    polls and drops happen, in any order: the table never exceeds its limit; a
    call that is still unanswered either has its entry in the table or lost its
    future; an entry of the table is always unanswered and belongs to one
    request only; and no event ever panics. *)
Theorem pending_calls_accounted lim s d :
  reachable lim s d ->
  table_len s <= Z.max 0 lim /\
  (forall p v, promises s !! p = Some v -> promise_done v = false ->
     p ∈ d \/ exists r e, entries s !! r = Some e /\ promise e = p) /\
  (forall r e, entries s !! r = Some e ->
     (exists w, promises s !! promise e = Some (mkPromise None w false)) /\
     forall r' e', entries s !! r' = Some e' -> promise e' = promise e -> r' = r) /\
  (forall ev, event_wf s ev -> (handle ev s).1 <> Err Panic).
Proof.
  intros Hs. apply pending_reachable_inv in Hs as [Hinv <-]. split_and!.
  - apply Hinv.
  - intros p v Hp Hd. destruct (ci_settled _ _ _ Hinv p v Hp Hd) as [?|Ho]; [by left|].
    rewrite app_nil_r in Ho. right. by apply owned_entry.
  - intros r e He. by apply (entry_waits s d r e Hinv).
  - intros ev Hwf. destruct (handle_inv ev s d Hinv Hwf) as (x & s' & -> & Hx & _). done.
Qed.

(** Deadlines and the end of the runtime answer every call they concern.
    Expiring at [now] leaves exactly the entries that expire later; each call
    taken out is answered with [DeadlineExceeded] for its own request and
    deadline, and no other promise changes; at the end of the runtime the table
    is empty and every call that was in it has the final error. *)
Theorem deadlines_answer_calls lim s d now outcome :
  reachable lim s d ->
  (exists s', handle (Ev_expire now) s = (Ok [], s') /\
     (forall r, entries s' !! r = match entries s !! r with
                                  | Some e => if expires_at e <=? now then None else Some e
                                  | None => None
                                  end) /\
     (forall r e, entries s !! r = Some e -> expires_at e <= now ->
        promises s' !! promise e = Some (mkPromise (Some (deadline_exceeded r e)) None true)) /\
     (forall p, (forall r e, entries s !! r = Some e -> promise e = p -> now < expires_at e) ->
        promises s' !! p = promises s !! p)) /\
  (exists s', handle (Ev_end outcome) s = (Ok [], s') /\ entries s' = ∅ /\
     forall r e, entries s !! r = Some e ->
       promises s' !! promise e = Some (mkPromise (Some outcome) None true)).
Proof.
  intros Hs. apply pending_reachable_inv in Hs as [Hinv _]. unfold handle. split.
  - destruct (expire_call now s d Hinv) as (l & s1 & He & Hinv1 & Hp & _ & Hent & Hin).
    rewrite (M_bind_step _ _ _ _ _ He). rewrite <- (app_nil_r (addresses l)) in Hinv1.
    destruct (complete_all_call deadline_exceeded l s1 d [] Hinv1) as (s2 & Hc & _ & He2 & _ & Hdone & Hother).
    rewrite (M_bind_step _ _ _ _ _ Hc). exists s2. split; [done|]. rewrite He2. split_and!; [done|..].
    + intros r e Hr Hexp. apply Hdone, Hin. split; [done|]. by apply Z.leb_le.
    + intros p Hp'. rewrite Hother, Hp; [done|]. intros ([r e] & -> & Hre)%list_elem_of_fmap.
      apply Hin in Hre as [Hr Hexp]. zbool. specialize (Hp' r e Hr eq_refl). cbn in Hp'. lia.
  - destruct (drain_call s d Hinv) as (l & s1 & He & Hinv1 & _ & _ & Hent & Hin).
    rewrite (M_bind_step _ _ _ _ _ He). rewrite <- (app_nil_r (addresses l)) in Hinv1.
    destruct (complete_all_call (fun _ _ => outcome) l s1 d [] Hinv1) as (s2 & Hc & _ & He2 & _ & Hdone & _).
    rewrite (M_bind_step _ _ _ _ _ Hc). exists s2. split; [done|]. split; [by rewrite He2|].
    intros r e Hr. by apply (Hdone r e), Hin.
Qed.

(** C37: A result answers exactly the call it belongs to.  A result for a
    pending request from the locality the request was sent to, for the action it
    asked for, takes the entry out and hands the outcome to its promise, every
    other promise and entry staying as it was; a result for a request that is
    not pending (late or duplicated) and a result from another source or for
    another action change nothing, the latter being a protocol error. *)
Theorem result_answers_its_call lim s d r source act outcome :
  reachable lim s d ->
  match entries s !! r with
  | Some e =>
      if (destination e =? source) && (entry_action e =? act) then
        exists s', handle (Ev_result r source act outcome) s = (Ok [], s') /\
          entries s' = delete r (entries s) /\
          promises s' = <[promise e := mkPromise (Some outcome) None true]> (promises s)
      else exists message,
        handle (Ev_result r source act outcome) s = (Err (Raise (RuntimeError_Protocol message)), s)
  | None => handle (Ev_result r source act outcome) s = (Ok [], s)
  end.
Proof.
  intros Hs. apply pending_reachable_inv in Hs as [Hinv _]. unfold handle, take_checked. mrun.
  destruct (entries s !! r) as [e|] eqn:Hr; mrun; [|done].
  destruct (destination e =? source); mrun; [|eauto].
  destruct (entry_action e =? act); mrun; [|eauto].
  destruct (remove_call r s d [] Hinv) as [Hrm Hinv1]. rewrite Hr in Hrm, Hinv1.
  rewrite (M_bind_step _ _ _ _ _ Hrm). cbn [answer].
  destruct (complete_call _ outcome _ _ _ Hinv1) as (s' & Hc & _ & He & _ & Hp).
  rewrite (M_bind_step _ _ _ _ _ Hc). exists s'. by split_and!.
Qed.
End Pending.

(** ** Examples *)

Definition ex_entry (p : Z) : PendingEntry := mkPendingEntry p 1 41 0 None 10 7 None.
Definition ex_call : event := Ev_call (mkRequestId 0 1) ex_entry.
Definition ex_pending : State := (handle ex_call (PendingTable_new 1)).2.

Lemma ex_reachable : reachable 1 ex_pending ∅.
Proof.
  rewrite <- (empty_union ∅).
  apply (R_step 1 (PendingTable_new 1) ∅ ex_call (Ok [])); [apply R_new|done|reflexivity].
Qed.

Lemma promise_delivers_once_witness :
  exists s', promise_run 0 [P_poll 5; P_complete (Err RuntimeError_Shutdown); P_poll 6; P_poll 7] ex_pending =
      (Ok [None; Some (Err RuntimeError_Shutdown); None], s') /\ wakes s' = [5].
Proof.
  apply (promise_delivers_once 0 ex_pending [5] (Err RuntimeError_Shutdown) [P_poll 6; P_poll 7]).
  reflexivity.
Defined.

Lemma pending_calls_accounted_witness :
  table_len ex_pending <= 1 /\
  (handle (Ev_drop (RemoteFuture_new (mkRequestId 0 1) 0)) ex_pending).1 <> Err Panic.
Proof.
  destruct (pending_calls_accounted 1 ex_pending ∅ ex_reachable) as (Hlen & _ & _ & Hpanic).
  split; [lia|]. apply Hpanic. cbn. eauto.
Defined.

Lemma deadlines_answer_calls_witness :
  exists s', handle (Ev_expire 10) ex_pending = (Ok [], s') /\ entries s' !! mkRequestId 0 1 = None /\
    promises s' !! 0 =
      Some (mkPromise (Some (Err (RuntimeError_DeadlineExceeded (mkRequestId 0 1) 7))) None true).
Proof.
  destruct (deadlines_answer_calls 1 ex_pending ∅ 10 (Err RuntimeError_Shutdown) ex_reachable)
    as [(s' & Hh & He & Hp & _) _].
  exists s'. split; [exact Hh|]. split; [rewrite He; reflexivity|].
  apply (Hp (mkRequestId 0 1) (ex_entry 0)); [reflexivity|cbn; lia].
Defined.

Lemma result_answers_its_call_witness :
  (exists s', handle (Ev_result (mkRequestId 0 1) 1 41 (Err RuntimeError_Shutdown)) ex_pending = (Ok [], s') /\
     entries s' = delete (mkRequestId 0 1) (entries ex_pending) /\
     promises s' = <[0 := mkPromise (Some (Err RuntimeError_Shutdown)) None true]> (promises ex_pending)) /\
  exists message, handle (Ev_result (mkRequestId 0 1) 2 41 (Err RuntimeError_Shutdown)) ex_pending =
    (Err (Raise (RuntimeError_Protocol message)), ex_pending).
Proof.
  split.
  - apply (result_answers_its_call 1 ex_pending ∅ (mkRequestId 0 1) 1 41 (Err RuntimeError_Shutdown) ex_reachable).
  - apply (result_answers_its_call 1 ex_pending ∅ (mkRequestId 0 1) 2 41 (Err RuntimeError_Shutdown) ex_reachable).
Defined.
