(* ===== verification/Domain.v ===== *)
(** * Domain: execution domains and their worker pools

    Models [crates/hataori-runtime/src/domain.rs].  A domain's counters are
    atomics that its workers and the driving thread update concurrently:
    [execute_job] is a sequence of atomic steps ([Phase], [exec_step]) of one
    task, and the tasks of all domains interleave freely ([worker_step]).  The
    methods of [DomainRegistry] are called by the driving thread only, which is
    the only one that changes [inflight] and spawns tasks, so that [submit] and
    [try_completion] are single steps.

    The worker pool is [rayon]'s: a pool of [n] threads runs each spawned
    closure once, at most [n] of them at a time, in an order it chooses.  The
    completion channel is a bounded queue on which [send] blocks while it is
    full.  [AtomicBool] flags that have been set are a set of addresses. *)
From S2P Require Import Prelude Text Protocol Error RuntimeWire Action.

Section Domain.
Context `{AnyTypes}.

(** ** Data *)

Record DomainConfig : Type := mkDomainConfig {
  config_id : DomainId; config_workers : Z; config_queue_capacity : Z;
}.

Definition DomainConfig_default : DomainConfig := mkDomainConfig 0 1 64.

Record DomainStats : Type := mkDomainStats {
  stats_queued : Z; stats_running : Z; pending_completions : Z;
  stats_completed : Z; cancelled_before_start : Z;
  total_queue_latency_ns : Z; max_queue_latency_ns : Z;
  total_execution_ns : Z; max_execution_ns : Z;
}.

Record ObjectJob : Type := mkObjectJob { job_object : ObjectId; read : bool; placement : bool }.

Record ActionJob : Type := mkActionJob {
  job_requester : LocalityId;
  job_request : RequestId;
  job_action : ActionId;
  job_domain : DomainId;
  job_trace : option TraceId;
  job_input : ActionValue;
  job_handler : RegisteredAction;
  job_cancelled : Z;
  job_local : bool;
  submitted_at : Z;
  object_job : option ObjectJob;
}.

Record ActionCompletion : Type := mkActionCompletion {
  requester : LocalityId;
  comp_request : RequestId;
  comp_action : ActionId;
  comp_domain : DomainId;
  comp_trace : option TraceId;
  comp_result : result ActionError ActionValue;
  comp_cancelled : bool;
  comp_local : bool;
  comp_object : option ObjectJob;
}.

Record DomainCounters : Type := mkDomainCounters {
  queued : Z; running : Z; inflight : Z;
  completed : Z; cancelled : Z;
  queue_latency : Z; max_queue_latency : Z;
  execution : Z; max_execution : Z;
}.

Definition DomainCounters_zero : DomainCounters := mkDomainCounters 0 0 0 0 0 0 0 0 0.

Definition snapshot (c : DomainCounters) : DomainStats :=
  mkDomainStats (queued c) (running c)
    (saturating_sub (inflight c) (saturating_add usize_max (queued c) (running c)))
    (completed c) (cancelled c) (queue_latency c) (max_queue_latency c)
    (execution c) (max_execution c).

(** [pool] is the number of threads of the domain's pool. *)
Record DomainExecutor : Type := mkDomainExecutor {
  pool : Z; counters : DomainCounters; queue_capacity : Z;
}.

(** ** The steps of [execute_job] *)

(** Where a task is: [Ph_loaded b] has read the flag, the later phases know the
    result. *)
Inductive Phase : Type :=
| Ph_spawned | Ph_dequeued | Ph_running | Ph_latency | Ph_max_latency
| Ph_loaded (b : bool)
| Ph_executed (b : bool) (r : result ActionError ActionValue)
| Ph_execution (b : bool) (r : result ActionError ActionValue)
| Ph_max_execution (b : bool) (r : result ActionError ActionValue)
| Ph_stopped (b : bool) (r : result ActionError ActionValue)
| Ph_counted (b : bool) (r : result ActionError ActionValue).

(** [nanos]. *)
Definition nanos (duration : Z) : Z := Z.min u64_max duration.

Definition add_queued (n : Z) (c : DomainCounters) : DomainCounters :=
  mkDomainCounters (wrapping_add 64 (queued c) n) (running c) (inflight c) (completed c) (cancelled c)
    (queue_latency c) (max_queue_latency c) (execution c) (max_execution c).
Definition add_running (n : Z) (c : DomainCounters) : DomainCounters :=
  mkDomainCounters (queued c) (wrapping_add 64 (running c) n) (inflight c) (completed c) (cancelled c)
    (queue_latency c) (max_queue_latency c) (execution c) (max_execution c).
Definition add_inflight (n : Z) (c : DomainCounters) : DomainCounters :=
  mkDomainCounters (queued c) (running c) (wrapping_add 64 (inflight c) n) (completed c) (cancelled c)
    (queue_latency c) (max_queue_latency c) (execution c) (max_execution c).
Definition add_completed (c : DomainCounters) : DomainCounters :=
  mkDomainCounters (queued c) (running c) (inflight c) (wrapping_add 64 (completed c) 1) (cancelled c)
    (queue_latency c) (max_queue_latency c) (execution c) (max_execution c).
Definition add_cancelled (c : DomainCounters) : DomainCounters :=
  mkDomainCounters (queued c) (running c) (inflight c) (completed c) (wrapping_add 64 (cancelled c) 1)
    (queue_latency c) (max_queue_latency c) (execution c) (max_execution c).
Definition add_latency (n : Z) (c : DomainCounters) : DomainCounters :=
  mkDomainCounters (queued c) (running c) (inflight c) (completed c) (cancelled c)
    (wrapping_add 64 (queue_latency c) n) (max_queue_latency c) (execution c) (max_execution c).
Definition max_latency (n : Z) (c : DomainCounters) : DomainCounters :=
  mkDomainCounters (queued c) (running c) (inflight c) (completed c) (cancelled c)
    (queue_latency c) (Z.max (max_queue_latency c) n) (execution c) (max_execution c).
Definition add_execution (n : Z) (c : DomainCounters) : DomainCounters :=
  mkDomainCounters (queued c) (running c) (inflight c) (completed c) (cancelled c)
    (queue_latency c) (max_queue_latency c) (wrapping_add 64 (execution c) n) (max_execution c).
Definition maximum_execution (n : Z) (c : DomainCounters) : DomainCounters :=
  mkDomainCounters (queued c) (running c) (inflight c) (completed c) (cancelled c)
    (queue_latency c) (max_queue_latency c) (execution c) (Z.max (max_execution c) n).

Definition cancelled_error : ActionError := ActionError_user (lit "action cancelled before execution").

(** One atomic step of [execute_job], up to the send.  [flag] is the job's
    cancellation flag as the step would read it; [waited] and [ran] are the
    durations its clock shows. *)
Definition exec_step (job : ActionJob) (flag : bool) (waited ran : Z) (ph : Phase) (c : DomainCounters) :
    Phase * DomainCounters :=
  match ph with
  | Ph_spawned => (Ph_dequeued, add_queued (-1) c)
  | Ph_dequeued => (Ph_running, add_running 1 c)
  | Ph_running => (Ph_latency, add_latency (nanos waited) c)
  | Ph_latency => (Ph_max_latency, max_latency (nanos waited) c)
  | Ph_max_latency => (Ph_loaded flag, c)
  | Ph_loaded true => (Ph_executed true (Err cancelled_error), add_cancelled c)
  | Ph_loaded false => (Ph_executed false (execute (job_handler job) (job_input job)), c)
  | Ph_executed b r => (Ph_execution b r, add_execution (nanos ran) c)
  | Ph_execution b r => (Ph_max_execution b r, maximum_execution (nanos ran) c)
  | Ph_max_execution b r => (Ph_stopped b r, add_running (-1) c)
  | Ph_stopped b r => (Ph_counted b r, add_completed c)
  | Ph_counted b r => (Ph_counted b r, c)
  end.

(** The completion sent at the end. *)
Definition completion_of (job : ActionJob) (b : bool) (r : result ActionError ActionValue) : ActionCompletion :=
  mkActionCompletion (job_requester job) (job_request job) (job_action job) (job_domain job)
    (job_trace job) r b (job_local job) (object_job job).

(** ** The registry *)

Record DomainRegistry : Type := mkDomainRegistry {
  domains : gmap DomainId DomainExecutor;
  completions : list ActionCompletion;
  completion_capacity : Z;
  tasks : list (ActionJob * Phase);
  flags : gset Z;
}.

Definition with_domains (m : gmap DomainId DomainExecutor) (s : DomainRegistry) : DomainRegistry :=
  mkDomainRegistry m (completions s) (completion_capacity s) (tasks s) (flags s).
Definition with_counters (d : DomainId) (x : DomainExecutor) (c : DomainCounters) (s : DomainRegistry) :
    DomainRegistry :=
  with_domains (<[d := mkDomainExecutor (pool x) c (queue_capacity x)]> (domains s)) s.
Definition with_tasks (l : list (ActionJob * Phase)) (s : DomainRegistry) : DomainRegistry :=
  mkDomainRegistry (domains s) (completions s) (completion_capacity s) l (flags s).
Definition with_completions (l : list ActionCompletion) (s : DomainRegistry) : DomainRegistry :=
  mkDomainRegistry (domains s) l (completion_capacity s) (tasks s) (flags s).

(** [build] says whether the thread pool of a configuration starts. *)
Fixpoint build_domains (build : DomainConfig -> bool) (configs : list DomainConfig)
    (m : gmap DomainId DomainExecutor) : result RuntimeError (gmap DomainId DomainExecutor) :=
  match configs with
  | [] => Ok m
  | c :: rest =>
      fail_if ((config_workers c =? 0) || (config_queue_capacity c <? config_workers c))
        (RuntimeError_InvalidLimits "domain workers must be nonzero and fit in its queue capacity");;
      fail_if (bool_decide (is_Some (m !! config_id c)))
        (RuntimeError_InvalidLimits "duplicate domain id");;
      fail_if (negb (build c)) (RuntimeError_InvalidLimits "failed to start domain workers");;
      build_domains build rest
        (<[config_id c := mkDomainExecutor (config_workers c) DomainCounters_zero (config_queue_capacity c)]> m)
  end.

Definition DomainRegistry_new (build : DomainConfig -> bool) (configs : list DomainConfig) (capacity : Z) :
    result RuntimeError DomainRegistry :=
  m ← build_domains build configs ∅;
  Ok (mkDomainRegistry m [] capacity [] ∅).

Definition can_submit (s : DomainRegistry) (d : DomainId) : bool :=
  match domains s !! d with
  | Some x => queued (counters x) <? queue_capacity x
  | None => false
  end.

Definition submit (job : ActionJob) : M DomainRegistry RuntimeError unit :=
  s ← gets id;
  x ← lift (ok_or (domains s !! job_domain job) (RuntimeError_UnknownDomain (job_domain job)));
  if negb (queued (counters x) <? queue_capacity x)
  then raise (RuntimeError_ResourceExhausted ActionQueue (queue_capacity x))
  else
    let c := add_inflight 1 (add_queued 1 (counters x)) in
    modify (with_counters (job_domain job) x c);;
    modify (fun s => with_tasks (tasks s ++ [(job, Ph_spawned)]) s).

Definition try_completion : M DomainRegistry RuntimeError (option ActionCompletion) :=
  s ← gets id;
  match completions s with
  | [] => mret None
  | completion :: rest =>
      modify (with_completions rest);;
      match domains s !! comp_domain completion with
      | Some x => modify (with_counters (comp_domain completion) x (add_inflight (-1) (counters x)))
      | None => mret tt
      end;;
      mret (Some completion)
  end.

Definition stats (s : DomainRegistry) : list (DomainId * DomainStats) :=
  omap (fun id => (fun x => (id, snapshot (counters x))) <$> domains s !! id) (btree_keys (domains s)).

Definition idle (s : DomainRegistry) : bool :=
  forallb (fun x => inflight (counters x.2) =? 0) (map_to_list (domains s)).

(** ** Workers *)

Definition is_spawned (ph : Phase) : bool := match ph with Ph_spawned => true | _ => false end.

Definition on (d : DomainId) (P : Phase -> bool) (t : ActionJob * Phase) : bool :=
  (job_domain t.1 =? d) && P t.2.

Fixpoint count {A} (P : A -> bool) (l : list A) : Z :=
  match l with [] => 0 | x :: l' => (if P x then 1 else 0) + count P l' end.

(** Task [i] makes a step: it starts if a thread of its pool is free, sends when
    the channel has room, and takes the next atomic step otherwise. *)
Definition worker_step (i : nat) (waited ran : Z) (s : DomainRegistry) : option DomainRegistry :=
  t ← tasks s !! i;
  let '(job, ph) := t in
  x ← domains s !! job_domain job;
  match ph with
  | Ph_counted b r =>
      if Z.of_nat (length (completions s)) <? completion_capacity s
      then Some (with_tasks (delete i (tasks s))
                   (with_completions (completions s ++ [completion_of job b r]) s))
      else None
  | _ =>
      if is_spawned ph && (pool x <=? count (on (job_domain job) (negb ∘ is_spawned)) (tasks s))
      then None
      else
        let '(ph', c) := exec_step job (bool_decide (job_cancelled job ∈ flags s)) waited ran ph (counters x) in
        Some (with_tasks (<[i := (job, ph')]> (tasks s)) (with_counters (job_domain job) x c s))
  end.

(** ** Counting *)

Lemma count_nil {A} (P : A -> bool) : count P [] = 0.
Proof. done. Qed.
Lemma count_cons {A} (P : A -> bool) x l : count P (x :: l) = (if P x then 1 else 0) + count P l.
Proof. done. Qed.
Lemma count_app {A} (P : A -> bool) l k : count P (l ++ k) = count P l + count P k.
Proof. induction l; cbn; lia. Qed.
Lemma count_nonneg {A} (P : A -> bool) l : 0 <= count P l.
Proof. induction l as [|x l IH]; cbn; [lia|]. destruct (P x); lia. Qed.
Lemma count_le_length {A} (P : A -> bool) l : count P l <= Z.of_nat (length l).
Proof. induction l as [|x l IH]; cbn [count length]; [lia|]. destruct (P x); lia. Qed.

Lemma count_insert {A} (P : A -> bool) l i x y :
  l !! i = Some x ->
  count P (<[i := y]> l) = count P l - (if P x then 1 else 0) + (if P y then 1 else 0).
Proof.
  revert i. induction l as [|z l IH]; intros [|i] Hi; try done.
  - injection Hi as ->. cbn. lia.
  - change (<[S i := y]> (z :: l)) with (z :: <[i := y]> l). cbn [count]. rewrite (IH i Hi). lia.
Qed.
Lemma count_delete {A} (P : A -> bool) l i x :
  l !! i = Some x -> count P (delete i l) = count P l - (if P x then 1 else 0).
Proof.
  revert i. induction l as [|z l IH]; intros [|i] Hi; try done.
  - injection Hi as ->. cbn. lia.
  - change (delete (S i) (z :: l)) with (z :: delete i l). cbn [count]. rewrite (IH i Hi). lia.
Qed.
Lemma count_le {A} (P Q : A -> bool) l : (forall x, P x = true -> Q x = true) -> count P l <= count Q l.
Proof.
  intros HPQ. induction l as [|x l IH]; [done|]. rewrite !count_cons.
  specialize (HPQ x). destruct (P x); [rewrite HPQ by done|destruct (Q x)]; lia.
Qed.
Lemma count_split {A} (P Q : A -> bool) l :
  count P l = count (fun x => P x && Q x) l + count (fun x => P x && negb (Q x)) l.
Proof.
  induction l as [|x l IH]; [done|]. rewrite !count_cons. destruct (P x), (Q x); cbn; lia.
Qed.
Lemma count_ext {A} (P Q : A -> bool) l : (forall x, P x = Q x) -> count P l = count Q l.
Proof. intros HPQ. induction l as [|x l IH]; [done|]. by rewrite !count_cons, HPQ, IH. Qed.
Lemma count_pos {A} (P : A -> bool) l : 0 < count P l <-> exists x, x ∈ l /\ P x = true.
Proof.
  induction l as [|x l IH]; [cbn; split; [done|by intros (? & ?%elem_of_nil & _)]|].
  rewrite count_cons. pose proof (count_nonneg P l). split.
  - destruct (P x) eqn:E; [intros _; exists x; split; [by left|done]|].
    intros Hp. apply IH in Hp as (y & ? & ?); [|lia..]. exists y. split; [by right|done].
  - intros (y & [->|Hy]%elem_of_cons & Hp); [rewrite Hp; lia|].
    assert (0 < count P l) by (apply IH; eauto). destruct (P x); lia.
Qed.

Lemma wrapping_id z : 0 <= z <= usize_max -> wrapping_add 64 z 0 = z.
Proof. intros. unfold wrapping_add. rewrite Z.mod_small; zunfold; lia. Qed.
Lemma wrapping_exact a n : 0 <= a + n <= usize_max -> wrapping_add 64 a n = a + n.
Proof. intros. unfold wrapping_add. rewrite Z.mod_small; zunfold; lia. Qed.

(** ** The invariant of the counters *)

Definition is_running (ph : Phase) : bool :=
  match ph with
  | Ph_running | Ph_latency | Ph_max_latency | Ph_loaded _
  | Ph_executed _ _ | Ph_execution _ _ | Ph_max_execution _ _ => true
  | _ => false
  end.

Definition any_phase (_ : Phase) : bool := true.
Definition from (d : DomainId) (c : ActionCompletion) : bool := comp_domain c =? d.

(** What domain [d] has accepted and not yet handed back. *)
Definition outstanding (s : DomainRegistry) (d : DomainId) : Z :=
  count (on d any_phase) (tasks s) + count (from d) (completions s).

Record domain_ok (s : DomainRegistry) (d : DomainId) (x : DomainExecutor) : Prop := {
  do_queued : queued (counters x) = count (on d is_spawned) (tasks s);
  do_running : running (counters x) = count (on d is_running) (tasks s);
  do_inflight : inflight (counters x) = outstanding s d;
  do_capacity : count (on d is_spawned) (tasks s) <= queue_capacity x;
  do_busy : count (on d (negb ∘ is_spawned)) (tasks s) <= pool x;
  do_pool : 0 < pool x;
  do_fits : queue_capacity x + pool x + completion_capacity s < usize_max;
}.

Record registry_inv (s : DomainRegistry) : Prop := {
  ri_domains : forall d x, domains s !! d = Some x -> domain_ok s d x;
  ri_tasks : forall t, t ∈ tasks s -> is_Some (domains s !! job_domain t.1);
  ri_completions : forall c, c ∈ completions s -> is_Some (domains s !! comp_domain c);
  ri_channel : Z.of_nat (length (completions s)) <= completion_capacity s;
}.


(** ** Steps preserve it *)

Definition b2z (b : bool) : Z := if b then 1 else 0.
Definition sending (ph : Phase) : bool := match ph with Ph_counted _ _ => true | _ => false end.

(** A step of one task changes the counters by what it changes in the counts. *)
Lemma exec_step_counts job flag w r ph c :
  sending ph = false ->
  b2z (is_spawned ph) <= queued c <= usize_max ->
  b2z (is_running ph) <= running c < usize_max ->
  let '(ph', c') := exec_step job flag w r ph c in
  is_spawned ph' = false /\ inflight c' = inflight c /\
  queued c' = queued c - b2z (is_spawned ph) /\
  running c' = running c - b2z (is_running ph) + b2z (is_running ph').
Proof.
  intros Hs Hq Hr.
  destruct ph as [| | | | |[]|b res|b res|b res|b res|b res]; try done; cbn in *;
    rewrite ?wrapping_exact by lia; split_and!; try done; lia.
Qed.

(** Replacing one task of domain [d] by another of the same domain. *)
Lemma count_on_insert d d' P l i t t' :
  l !! i = Some t -> job_domain t.1 = d -> job_domain t'.1 = d ->
  count (on d' P) (<[i := t']> l) =
    if decide (d' = d) then count (on d' P) l - b2z (P t.2) + b2z (P t'.2) else count (on d' P) l.
Proof.
  intros Hi Hd Hd'. rewrite (count_insert _ _ _ _ _ Hi). unfold on. rewrite Hd, Hd'.
  destruct (decide (d' = d)) as [->|Hne].
  - by rewrite Z.eqb_refl.
  - rewrite (proj2 (Z.eqb_neq d d')) by congruence. cbn. lia.
Qed.

Lemma count_on_app d d' P l t :
  job_domain t.1 = d ->
  count (on d' P) (l ++ [t]) = count (on d' P) l + if decide (d' = d) then b2z (P t.2) else 0.
Proof.
  intros Hd. rewrite count_app. cbn. unfold on. rewrite Hd.
  destruct (decide (d' = d)) as [->|Hne].
  - rewrite Z.eqb_refl. cbn. unfold b2z. destruct (P t.2); lia.
  - rewrite (proj2 (Z.eqb_neq d d')) by congruence. cbn. lia.
Qed.

Lemma on_le d (P Q : Phase -> bool) l : (forall ph, P ph = true -> Q ph = true) -> count (on d P) l <= count (on d Q) l.
Proof. intros HPQ. apply count_le. intros t. unfold on. rewrite !andb_true_iff. naive_solver. Qed.

Lemma on_in d P l i t :
  l !! i = Some t -> job_domain t.1 = d -> b2z (P t.2) <= count (on d P) l.
Proof.
  intros Hi Hd. destruct (P t.2) eqn:HP; cbn; [|apply count_nonneg].
  assert (0 < count (on d P) l); [|lia]. apply count_pos. exists t.
  split; [by eapply list_elem_of_lookup_2|]. unfold on. by rewrite Hd, Z.eqb_refl.
Qed.

Lemma outstanding_split s d :
  count (on d any_phase) (tasks s) = count (on d is_spawned) (tasks s) + count (on d (negb ∘ is_spawned)) (tasks s).
Proof.
  rewrite (count_split _ (fun t => is_spawned t.2)). f_equal; apply count_ext; intros t; unfold on; cbn;
    by rewrite andb_true_r.
Qed.

Lemma domain_ok_bounds s d x :
  registry_inv s -> domain_ok s d x ->
  0 <= queued (counters x) <= queue_capacity x /\ 0 <= running (counters x) <= pool x /\
  0 <= inflight (counters x) <= usize_max /\ 0 <= queue_capacity x < usize_max /\ 0 < pool x < usize_max.
Proof.
  intros Hinv []. pose proof (ri_channel _ Hinv).
  pose proof (count_nonneg (on d is_spawned) (tasks s)).
  pose proof (count_nonneg (on d is_running) (tasks s)).
  pose proof (count_nonneg (on d any_phase) (tasks s)).
  pose proof (count_nonneg (from d) (completions s)).
  pose proof (count_le_length (from d) (completions s)).
  pose proof (outstanding_split s d).
  assert (count (on d is_running) (tasks s) <= count (on d (negb ∘ is_spawned)) (tasks s))
    by (apply on_le; by intros []).
  unfold outstanding in *. lia.
Qed.

(** The same domain in a registry whose counts have moved along with its
    counters. *)
Lemma domain_ok_transfer s s' d x x' :
  domain_ok s d x -> pool x' = pool x -> queue_capacity x' = queue_capacity x ->
  completion_capacity s' = completion_capacity s ->
  queued (counters x') - queued (counters x) =
    count (on d is_spawned) (tasks s') - count (on d is_spawned) (tasks s) ->
  running (counters x') - running (counters x) =
    count (on d is_running) (tasks s') - count (on d is_running) (tasks s) ->
  inflight (counters x') - inflight (counters x) = outstanding s' d - outstanding s d ->
  count (on d is_spawned) (tasks s') <= queue_capacity x ->
  count (on d (negb ∘ is_spawned)) (tasks s') <= pool x -> domain_ok s' d x'.
Proof. intros [] Hp Hc Hcc Hq Hr Hi Hcap Hbusy. split; rewrite ?Hp, ?Hc, ?Hcc; try done; lia. Qed.

Lemma domain_ok_same s s' d x :
  domain_ok s d x -> completion_capacity s' = completion_capacity s ->
  (forall P, count (on d P) (tasks s') = count (on d P) (tasks s)) ->
  count (from d) (completions s') = count (from d) (completions s) -> domain_ok s' d x.
Proof.
  intros [] Hc Ht Hf. assert (Ho : outstanding s' d = outstanding s d) by (unfold outstanding; by rewrite Ht, Hf).
  split; rewrite ?Hc, ?Ht, ?Ho; done.
Qed.

Lemma submit_spec job s :
  registry_inv s ->
  match domains s !! job_domain job with
  | None => submit job s = (Err (Raise (RuntimeError_UnknownDomain (job_domain job))), s)
  | Some x =>
      if queued (counters x) <? queue_capacity x then
        exists s', submit job s = (Ok tt, s') /\ registry_inv s' /\
          tasks s' = tasks s ++ [(job, Ph_spawned)] /\ completions s' = completions s /\ flags s' = flags s /\
          completion_capacity s' = completion_capacity s
      else submit job s =
        (Err (Raise (RuntimeError_ResourceExhausted ActionQueue (queue_capacity x))), s)
  end.
Proof.
  intros Hinv. unfold submit. mrun. unfold id.
  destruct (domains s !! job_domain job) as [x|] eqn:Hx; mrun; [|done].
  destruct (queued (counters x) <? queue_capacity x) eqn:Hfull; mrun; [|done]. zbool.
  eexists. split; [reflexivity|]. split; [|done].
  pose proof (ri_domains _ Hinv _ _ Hx) as Hok. pose proof (domain_ok_bounds _ _ _ Hinv Hok) as Hb.
  set (s' := with_tasks _ _).
  assert (Hcnt : forall d P, count (on d P) (tasks s') =
      count (on d P) (tasks s) + if decide (d = job_domain job) then b2z (P Ph_spawned) else 0)
    by (intros d P; change (tasks s') with (tasks s ++ [(job, Ph_spawned)]);
        by rewrite (count_on_app (job_domain job))).
  split.
  - cbn. intros d x' [[<- <-]|[Hne Hx']]%lookup_insert_Some.
    + pose proof (outstanding_split s (job_domain job)).
      assert (Hq : queued (counters x) + 1 <= queue_capacity x) by lia.
      assert (Hin : inflight (counters x) + 1 <= usize_max).
      { destruct Hok. pose proof (ri_channel _ Hinv). pose proof (count_le_length (from (job_domain job)) (completions s)).
        unfold outstanding in *. lia. }
      eapply (domain_ok_transfer s s' _ x); try done; unfold outstanding; rewrite ?Hcnt, ?decide_True by done;
        cbn; rewrite ?wrapping_exact by lia; destruct Hok; cbn; lia.
    + apply (domain_ok_same s); [by apply Hinv|done| |done]. intros P. rewrite Hcnt, decide_False by done. lia.
  - cbn. intros t [Ht| ->%list_elem_of_singleton]%elem_of_app.
    + destruct (decide (job_domain t.1 = job_domain job)) as [->|Hne]; [by rewrite lookup_insert_eq|].
      rewrite lookup_insert_ne by done. by apply Hinv.
    + cbn. by rewrite lookup_insert_eq.
  - cbn. intros c Hc. destruct (decide (comp_domain c = job_domain job)) as [->|Hne]; [by rewrite lookup_insert_eq|].
    rewrite lookup_insert_ne by done. by apply Hinv.
  - apply Hinv.
Qed.

Lemma lookup_domains_same (m : gmap DomainId DomainExecutor) d x d' :
  is_Some (m !! d') -> is_Some (<[d := x]> m !! d').
Proof.
  intros Hd. destruct (decide (d' = d)) as [->|]; [by rewrite lookup_insert_eq|by rewrite lookup_insert_ne].
Qed.

Lemma try_completion_spec s :
  registry_inv s ->
  match completions s with
  | [] => try_completion s = (Ok None, s)
  | c :: rest => exists s', try_completion s = (Ok (Some c), s') /\ registry_inv s' /\
      tasks s' = tasks s /\ completions s' = rest /\ flags s' = flags s /\
      completion_capacity s' = completion_capacity s
  end.
Proof.
  intros Hinv. unfold try_completion. mrun. unfold id.
  destruct (completions s) as [|c rest] eqn:Hc; mrun; [done|].
  destruct (ri_completions _ Hinv c) as [x Hx]; [rewrite Hc; by left|]. rewrite Hx. mrun.
  eexists. split; [reflexivity|]. split; [|done].
  pose proof (ri_domains _ Hinv _ _ Hx) as Hok. pose proof (domain_ok_bounds _ _ _ Hinv Hok) as Hb.
  set (s' := with_counters _ _ _ _).
  assert (Hcnt : forall d, count (from d) (completions s) =
      count (from d) (completions s') + if decide (d = comp_domain c) then 1 else 0).
  { intros d. rewrite Hc. change (completions s') with rest. cbn [count]. unfold from at 1.
    destruct (decide (d = comp_domain c)) as [->|Hne]; [rewrite Z.eqb_refl|rewrite (proj2 (Z.eqb_neq _ _)) by congruence]; lia. }
  split.
  - cbn. intros d x' [[<- <-]|[Hne Hx']]%lookup_insert_Some.
    + assert (Hpos : 1 <= inflight (counters x)).
      { rewrite (do_inflight _ _ _ Hok). unfold outstanding. rewrite Hcnt, decide_True by done.
        pose proof (count_nonneg (on (comp_domain c) any_phase) (tasks s)).
        pose proof (count_nonneg (from (comp_domain c)) (completions s')). lia. }
      eapply (domain_ok_transfer s s' _ x); try done; unfold outstanding; rewrite ?Hcnt, ?decide_True by done;
        change (tasks s') with (tasks s); cbn [counters inflight queued running add_inflight];
        rewrite ?wrapping_exact by lia; destruct Hok; lia.
    + apply (domain_ok_same s); [by apply Hinv|done|done|]. rewrite (Hcnt d), decide_False by done. lia.
  - cbn. intros t Ht. apply lookup_domains_same. by apply Hinv.
  - cbn. intros c' Hc'. apply lookup_domains_same. apply (ri_completions _ Hinv). rewrite Hc. by right.
  - pose proof (ri_channel _ Hinv) as Hch. rewrite Hc in Hch. cbn in *. lia.
Qed.

(** The four things a worker's step can be. *)
Lemma worker_exec_inv s i job ph x flag w r :
  registry_inv s -> tasks s !! i = Some (job, ph) -> domains s !! job_domain job = Some x ->
  sending ph = false ->
  (is_spawned ph = true -> count (on (job_domain job) (negb ∘ is_spawned)) (tasks s) < pool x) ->
  let '(ph', c) := exec_step job flag w r ph (counters x) in
  registry_inv (with_tasks (<[i := (job, ph')]> (tasks s)) (with_counters (job_domain job) x c s)).
Proof.
  intros Hinv Hi Hx Hs Hfree. set (d := job_domain job) in *.
  pose proof (ri_domains _ Hinv _ _ Hx) as Hok. pose proof (domain_ok_bounds _ _ _ Hinv Hok) as Hb.
  pose proof (on_in d is_spawned _ _ _ Hi eq_refl) as Hsp.
  pose proof (on_in d is_running _ _ _ Hi eq_refl) as Hrn.
  pose proof (exec_step_counts job flag w r ph (counters x) Hs) as Hstep.
  destruct (exec_step job flag w r ph (counters x)) as [ph' c].
  destruct Hstep as (Hsp' & Hci & Hcq & Hcr); [destruct Hok; cbn in *; lia..|].
  set (s' := with_tasks _ _).
  assert (Hcnt : forall d' P, count (on d' P) (tasks s') =
      if decide (d' = d) then count (on d' P) (tasks s) - b2z (P ph) + b2z (P ph') else count (on d' P) (tasks s)).
  { intros d' P. change (tasks s') with (<[i := (job, ph')]> (tasks s)).
    by rewrite (count_on_insert d d' P _ _ (job, ph) (job, ph') Hi eq_refl eq_refl). }
  split.
  - cbn. intros d' x' [[<- <-]|[Hne Hx']]%lookup_insert_Some.
    + eapply (domain_ok_transfer s s' _ x); try done; unfold outstanding; rewrite ?Hcnt, ?decide_True by done;
        cbn [counters b2z any_phase]; destruct Hok; rewrite ?Hsp', ?Hci, ?Hcq, ?Hcr; cbn [b2z];
        change (completions s') with (completions s); try lia.
      * destruct (is_spawned ph); cbn [b2z]; lia.
      * unfold compose in *. rewrite Hsp'. destruct (is_spawned ph); cbn [negb b2z] in *; [|lia].
        specialize (Hfree eq_refl). lia.
    + apply (domain_ok_same s); [by apply Hinv|done| |done]. intros P. by rewrite Hcnt, decide_False by done.
  - intros t Ht. apply lookup_domains_same. cbn in Ht.
    apply list_elem_of_lookup in Ht as [j Hj]. apply list_lookup_insert_Some in Hj as [(<- & <- & _)|[_ Hj]].
    + cbn. fold d. eauto.
    + apply Hinv. by eapply list_elem_of_lookup_2.
  - cbn. intros c' Hc'. apply lookup_domains_same. by apply Hinv.
  - apply Hinv.
Qed.

Lemma worker_send_inv s i job b r :
  registry_inv s -> tasks s !! i = Some (job, Ph_counted b r) ->
  Z.of_nat (length (completions s)) < completion_capacity s ->
  registry_inv (with_tasks (delete i (tasks s)) (with_completions (completions s ++ [completion_of job b r]) s)).
Proof.
  intros Hinv Hi Hroom. set (s' := with_tasks _ _). set (d := job_domain job).
  assert (Hcnt : forall d' P, count (on d' P) (tasks s') =
      count (on d' P) (tasks s) - if decide (d' = d) then b2z (P (Ph_counted b r)) else 0).
  { intros d' P. change (tasks s') with (delete i (tasks s)). rewrite (count_delete _ _ _ _ Hi). unfold on at 2. cbn. fold d.
    destruct (decide (d' = d)) as [->|Hne]; [rewrite Z.eqb_refl|rewrite (proj2 (Z.eqb_neq _ _)) by congruence]; done. }
  assert (Hcom : forall d', count (from d') (completions s') =
      count (from d') (completions s) + if decide (d' = d) then 1 else 0).
  { intros d'. cbn. rewrite count_app. cbn [count]. unfold from at 2. cbn. fold d.
    destruct (decide (d' = d)) as [->|Hne]; [rewrite Z.eqb_refl|rewrite (proj2 (Z.eqb_neq _ _)) by congruence]; lia. }
  split.
  - intros d' x Hx. pose proof (ri_domains _ Hinv d' x Hx) as Hok.
    eapply (domain_ok_transfer s s' _ x); try done; unfold outstanding; rewrite ?Hcnt, ?Hcom; destruct Hok;
      destruct (decide (d' = d)); cbn [b2z is_spawned is_running any_phase compose negb]; lia.
  - cbn. intros t Ht. apply Hinv. apply list_elem_of_lookup in Ht as [j Hj].
    eapply list_elem_of_lookup_2. rewrite list_lookup_delete in Hj. exact Hj.
  - cbn. intros c [Hc| ->%list_elem_of_singleton]%elem_of_app; [by apply Hinv|].
    cbn. apply (ri_tasks _ Hinv (job, Ph_counted b r)). by eapply list_elem_of_lookup_2.
  - cbn. rewrite length_app. cbn. lia.
Qed.

Lemma worker_step_inv i w r s s' :
  registry_inv s -> worker_step i w r s = Some s' ->
  exists job ph, tasks s !! i = Some (job, ph) /\ registry_inv s' /\ flags s' = flags s /\
    completion_capacity s' = completion_capacity s /\
    match ph with
    | Ph_counted b res =>
        tasks s' = delete i (tasks s) /\ completions s' = completions s ++ [completion_of job b res]
    | _ => exists c, tasks s' = <[i := (job,
             (exec_step job (bool_decide (job_cancelled job ∈ flags s)) w r ph c).1)]> (tasks s) /\
           completions s' = completions s
    end.
Proof.
  intros Hinv Hw. unfold worker_step in Hw. destruct (tasks s !! i) as [[job ph]|] eqn:Hi; [|done].
  cbn [mbind option_bind] in Hw. destruct (domains s !! job_domain job) as [x|] eqn:Hx; [|done].
  cbn [mbind option_bind] in Hw. exists job, ph. split; [done|]. destruct (sending ph) eqn:Hs.
  - destruct ph as [| | | | | | | | | |b res]; try done.
    destruct (_ <? _) eqn:Hroom; [|done]. injection Hw as <-. zbool.
    split; [by apply worker_send_inv|done].
  - assert (Hgo : exists c', s' = with_tasks (<[i := (job, (exec_step job
        (bool_decide (job_cancelled job ∈ flags s)) w r ph (counters x)).1)]> (tasks s))
        (with_counters (job_domain job) x c' s) /\ registry_inv s').
    { assert (Hfree : (is_spawned ph && (pool x <=? count (on (job_domain job) (negb ∘ is_spawned)) (tasks s))) = false).
      { destruct ph; try done; cbn [is_spawned andb] in *; by destruct (pool x <=? _). }
      pose proof (worker_exec_inv s i job ph x (bool_decide (job_cancelled job ∈ flags s)) w r Hinv Hi Hx Hs) as Hexec.
      assert (Hs' : (if is_spawned ph && (pool x <=? count (on (job_domain job) (negb ∘ is_spawned)) (tasks s))
          then None else let '(ph', c) := exec_step job (bool_decide (job_cancelled job ∈ flags s)) w r ph (counters x)
          in Some (with_tasks (<[i := (job, ph')]> (tasks s)) (with_counters (job_domain job) x c s))) = Some s')
        by (by destruct ph).
      rewrite Hfree in Hs'. destruct (exec_step job _ w r ph (counters x)) as [ph' c]. injection Hs' as <-.
      exists c. split; [done|]. apply Hexec. intros Hsp. rewrite Hsp in Hfree. cbn in Hfree. zbool. done. }
    destruct Hgo as (c' & -> & Hinv'). split_and!; try done.
    destruct ph; try done; by exists (counters x).
Qed.

(** ** Runs *)

(** What a run has accepted, with whether the job was cancelled before it was
    submitted, and what it has handed back. *)
Inductive reachable (build : DomainConfig -> bool) (configs : list DomainConfig) (capacity : Z) :
    DomainRegistry -> list (ActionJob * bool) -> list ActionCompletion -> Prop :=
| R_new s : DomainRegistry_new build configs capacity = Ok s -> reachable build configs capacity s [] []
| R_submit s acc rec job x s' :
    reachable build configs capacity s acc rec -> submit job s = (x, s') ->
    reachable build configs capacity s'
      (match x with Ok _ => acc ++ [(job, bool_decide (job_cancelled job ∈ flags s))] | Err _ => acc end) rec
| R_worker s acc rec i w r s' :
    reachable build configs capacity s acc rec -> worker_step i w r s = Some s' ->
    reachable build configs capacity s' acc rec
| R_completion s acc rec o s' :
    reachable build configs capacity s acc rec -> try_completion s = (Ok o, s') ->
    reachable build configs capacity s' acc (rec ++ match o with Some c => [c] | None => [] end)
| R_cancel s acc rec t :
    reachable build configs capacity s acc rec ->
    reachable build configs capacity
      (mkDomainRegistry (domains s) (completions s) (completion_capacity s) (tasks s) ({[t]} ∪ flags s)) acc rec.

(** Limits as the runtime builds them: nothing overflows a [usize]. *)
Definition configs_ok (configs : list DomainConfig) (capacity : Z) : Prop :=
  0 <= capacity /\
  Forall (fun c => 0 <= config_workers c /\
            config_queue_capacity c + config_workers c + capacity < usize_max) configs.

Lemma build_domains_spec build configs : forall m m',
  build_domains build configs m = Ok m' ->
  forall d x, m' !! d = Some x -> m !! d = Some x \/
    exists c, c ∈ configs /\ x = mkDomainExecutor (config_workers c) DomainCounters_zero (config_queue_capacity c) /\
      config_workers c <> 0 /\ config_workers c <= config_queue_capacity c.
Proof.
  induction configs as [|c configs IH]; intros m m' Hb d x Hx; cbn [build_domains] in Hb.
  - injection Hb as <-. by left.
  - bind_inv Hb. fail_if_inv E. bind_inv Hb. clear E. bind_inv Hb. clear E. zbool.
    destruct (IH _ _ Hb d x Hx) as [Hm|(c' & Hin & Hc')].
    + apply lookup_insert_Some in Hm as [[<- <-]|[_ Hm]]; [|by left].
      right. exists c. split_and!; [by left|done|done|lia].
    + right. exists c'. split; [by right|done].
Qed.

Lemma registry_new_inv build configs capacity s :
  configs_ok configs capacity -> DomainRegistry_new build configs capacity = Ok s -> registry_inv s.
Proof.
  intros [Hcap Hcfg] Hnew. unfold DomainRegistry_new in Hnew. bind_inv Hnew. injection Hnew as <-.
  split; cbn; try done; try (by intros ? ?%elem_of_nil).
  intros d x Hx. destruct (build_domains_spec _ _ _ _ E d x Hx) as [Hm|(c & Hin & -> & Hw & Hq)];
    [by rewrite lookup_empty in Hm|].
  rewrite Forall_forall in Hcfg. destruct (Hcfg c Hin) as [Hw0 Hfit].
  split; cbn; try done; lia.
Qed.

Lemma domain_reachable_inv build configs capacity s acc rec :
  configs_ok configs capacity -> reachable build configs capacity s acc rec -> registry_inv s.
Proof.
  intros Hcfg Hr. induction Hr as [s Hs|s acc rec job x s' _ IH Hs|s acc rec i w r s' _ IH Hs|s acc rec o s' _ IH Hs|s acc rec t _ IH].
  - by eapply registry_new_inv.
  - pose proof (submit_spec job s IH) as Hsub. destruct (domains s !! job_domain job) as [y|]; [|congruence].
    destruct (_ <? _); [|congruence]. destruct Hsub as (s1 & Hs1 & Hinv & _). congruence.
  - by destruct (worker_step_inv _ _ _ _ _ IH Hs) as (? & ? & _ & Hinv & _).
  - pose proof (try_completion_spec s IH) as Htry. destruct (completions s); [congruence|].
    destruct Htry as (s1 & Hs1 & Hinv & _). congruence.
  - destruct IH as [Hd]. split; try done. intros d x Hx. by destruct (Hd d x Hx); split.
Qed.

(** C25: The counters of every domain are exact and its limits hold.  In every
    state reachable by submissions, worker steps of any interleaving,
    completions and cancellations, [queued] is the number of spawned tasks not
    yet started and at most the queue's capacity, [running] counts the tasks
    between start and end and is at most the number of workers, [inflight] is
    what was accepted and not handed back, so that no counter ever wraps; and a
    snapshot's pending completions are the rest. *)
Theorem domain_counters_exact build configs capacity s acc rec d x :
  configs_ok configs capacity -> reachable build configs capacity s acc rec ->
  domains s !! d = Some x ->
  queued (counters x) = count (on d is_spawned) (tasks s) /\ queued (counters x) <= queue_capacity x /\
  running (counters x) = count (on d is_running) (tasks s) /\ running (counters x) <= pool x /\
  inflight (counters x) = outstanding s d /\ inflight (counters x) <= usize_max /\
  pending_completions (snapshot (counters x)) =
    outstanding s d - queued (counters x) - running (counters x) /\
  Z.of_nat (length (completions s)) <= completion_capacity s.
Proof.
  intros Hcfg Hr Hx. pose proof (domain_reachable_inv _ _ _ _ _ _ Hcfg Hr) as Hinv.
  pose proof (ri_domains _ Hinv d x Hx) as Hok. pose proof (domain_ok_bounds _ _ _ Hinv Hok) as Hb.
  pose proof (outstanding_split s d) as Hsplit.
  assert (Hle : count (on d is_running) (tasks s) <= count (on d (negb ∘ is_spawned)) (tasks s))
    by (apply on_le; by intros []).
  pose proof (count_nonneg (from d) (completions s)). pose proof (ri_channel _ Hinv).
  destruct Hok. cbn [pending_completions snapshot]. unfold saturating_sub, saturating_add, outstanding in *.
  split_and!; try done; try lia.
Qed.

(** ** What becomes of a job *)

(** The result a job owes: that of its handler, unless it was cancelled. *)
Definition job_result (job : ActionJob) (b : bool) : result ActionError ActionValue :=
  if b then Err cancelled_error else execute (job_handler job) (job_input job).

(** What a task knows of its flag and its result. *)
Definition phase_ok (job : ActionJob) (preset : bool) (flag : bool) (ph : Phase) : Prop :=
  match ph with
  | Ph_spawned | Ph_dequeued | Ph_running | Ph_latency | Ph_max_latency => preset = true -> flag = true
  | Ph_loaded b => (preset = true -> b = true) /\ (b = true -> flag = true)
  | Ph_executed b r | Ph_execution b r | Ph_max_execution b r | Ph_stopped b r | Ph_counted b r =>
      (preset = true -> b = true) /\ (b = true -> flag = true) /\ r = job_result job b
  end.

Lemma phase_ok_mono job preset flag flag' ph :
  (flag = true -> flag' = true) -> phase_ok job preset flag ph -> phase_ok job preset flag' ph.
Proof. destruct ph; cbn; naive_solver. Qed.

Lemma exec_step_ok job preset flag w r ph c :
  sending ph = false -> phase_ok job preset flag ph -> phase_ok job preset flag (exec_step job flag w r ph c).1.
Proof. destruct ph as [| | | | |[]| | | | |]; cbn; naive_solver. Qed.

(** A job that is done: whether it was cancelled before submission, and whether
    it was found cancelled. *)
Record done_job : Type := mkDone { done_of : ActionJob; was_preset : bool; found_cancelled : bool }.
Definition done_completion (x : done_job) : ActionCompletion :=
  completion_of (done_of x) (found_cancelled x) (job_result (done_of x) (found_cancelled x)).
Definition done_accepted (x : done_job) : ActionJob * bool := (done_of x, was_preset x).

Definition flag_of (s : DomainRegistry) (job : ActionJob) : bool := bool_decide (job_cancelled job ∈ flags s).

(** The history of a run: the accepted jobs are the tasks and the jobs done; the
    completions are those of the jobs done, in the order they were done. *)
Definition history (s : DomainRegistry) (acc : list (ActionJob * bool)) (rec : list ActionCompletion)
    (presets : list bool) (finished : list done_job) : Prop :=
  length presets = length (tasks s) /\
  acc ≡ₚ zip ((tasks s).*1) presets ++ map done_accepted finished /\
  rec ++ completions s = map done_completion finished /\
  (forall i job ph p, tasks s !! i = Some (job, ph) -> presets !! i = Some p ->
     phase_ok job p (flag_of s job) ph) /\
  Forall (fun x => (was_preset x = true -> found_cancelled x = true) /\
                   (found_cancelled x = true -> flag_of s (done_of x) = true)) finished.

Lemma zip_delete {A B} (l : list A) (k : list B) i a b :
  l !! i = Some a -> k !! i = Some b -> zip l k ≡ₚ (a, b) :: zip (delete i l) (delete i k).
Proof.
  revert k i. induction l as [|x l IH]; intros [|y k] [|i] Ha Hb; try done.
  - cbn in *. by simplify_eq.
  - cbn in Ha, Hb |- *. rewrite (IH _ _ Ha Hb). apply perm_swap.
Qed.

Lemma fmap_delete {A B} (f : A -> B) (l : list A) i : f <$> delete i l = delete i (f <$> l).
Proof. revert i. induction l as [|x l IH]; intros [|i]; cbn; [done..|by f_equal]. Qed.

Lemma history_submit s s' acc rec presets fin job :
  history s acc rec presets fin -> tasks s' = tasks s ++ [(job, Ph_spawned)] ->
  completions s' = completions s -> flags s' = flags s ->
  history s' (acc ++ [(job, flag_of s job)]) rec (presets ++ [flag_of s job]) fin.
Proof.
  intros (Hlen & Hacc & Hrec & Hph & Hfin) Ht Hc Hf. unfold history, flag_of. rewrite Ht, Hc, Hf. split_and!; try done.
  - rewrite !length_app. cbn. lia.
  - rewrite fmap_app, zip_with_app by (rewrite length_fmap; done). cbn.
    rewrite Hacc, <- !(assoc_L (++)). apply Permutation_app_head, Permutation_app_comm.
  - intros i j ph p Hi Hp. apply lookup_app_Some in Hi as [Hi|[Hge Hi]].
    + rewrite lookup_app_l in Hp by (rewrite Hlen; by eapply lookup_lt_Some). by eapply Hph.
    + rewrite lookup_app_r, Hlen in Hp by lia. apply list_lookup_singleton_Some in Hi as [Hz Heq].
      rewrite Hz in Hp. cbn in Hp. injection Heq as <- <-. injection Hp as <-. exact (fun Hb => Hb).
Qed.

Lemma history_exec s s' acc rec presets fin i job ph ph' :
  history s acc rec presets fin -> tasks s !! i = Some (job, ph) ->
  (forall p, phase_ok job p (flag_of s job) ph -> phase_ok job p (flag_of s job) ph') ->
  tasks s' = <[i := (job, ph')]> (tasks s) -> completions s' = completions s -> flags s' = flags s ->
  history s' acc rec presets fin.
Proof.
  intros (Hlen & Hacc & Hrec & Hph & Hfin) Hi Hok Ht Hc Hf. unfold history, flag_of. rewrite Ht, Hc, Hf.
  split_and!; try done.
  - by rewrite length_insert.
  - rewrite list_fmap_insert. cbn.
    rewrite (list_insert_id (tasks s).*1 i job); [done|]. by rewrite list_lookup_fmap, Hi.
  - intros k j q p Hk Hp. apply list_lookup_insert_Some in Hk as [(<- & [= -> ->] & _)|[Hne Hk]].
    + apply Hok. by eapply Hph.
    + by eapply Hph.
Qed.

Lemma history_send s s' acc rec presets fin i job b r :
  history s acc rec presets fin -> tasks s !! i = Some (job, Ph_counted b r) ->
  tasks s' = delete i (tasks s) -> completions s' = completions s ++ [completion_of job b r] ->
  flags s' = flags s ->
  exists presets' fin', history s' acc rec presets' fin'.
Proof.
  intros (Hlen & Hacc & Hrec & Hph & Hfin) Hi Ht Hc Hf.
  destruct (lookup_lt_is_Some_2 presets i) as [p Hp]; [rewrite Hlen; by eapply lookup_lt_Some|].
  destruct (Hph _ _ _ _ Hi Hp) as (Hpre & Hflag & ->).
  exists (delete i presets), (fin ++ [mkDone job p b]). unfold history, flag_of. rewrite Ht, Hc, Hf.
  split_and!.
  - rewrite !length_delete by eauto. by rewrite Hlen.
  - rewrite Hacc, map_app. cbn.
    rewrite (zip_delete (tasks s).*1 presets i job p) by (by rewrite ?list_lookup_fmap, ?Hi).
    rewrite fmap_delete. cbn. rewrite app_assoc. by rewrite (Permutation_app_comm _ [_]).
  - by rewrite map_app, <- Hrec, <- app_assoc.
  - intros k j q p' Hk Hp'. rewrite list_lookup_delete in Hk; rewrite list_lookup_delete in Hp'. by eapply Hph.
  - apply Forall_app. split; [done|]. apply Forall_singleton. done.
Qed.

Lemma reachable_history build configs capacity s acc rec :
  configs_ok configs capacity -> reachable build configs capacity s acc rec ->
  exists presets fin, history s acc rec presets fin.
Proof.
  intros Hcfg Hr. induction Hr as [s Hs|s acc rec job x s' Hr IH Hs|s acc rec i w r s' Hr IH Hs|s acc rec o s' Hr IH Hs|s acc rec t Hr IH].
  - unfold DomainRegistry_new in Hs. bind_inv Hs. injection Hs as <-. exists [], [].
    unfold history. cbn. split_and!; try done.
  - destruct IH as (presets & fin & Hh). pose proof (domain_reachable_inv _ _ _ _ _ _ Hcfg Hr) as Hinv.
    pose proof (submit_spec job s Hinv) as Hsub.
    destruct (domains s !! job_domain job) as [y|]; [|rewrite Hs in Hsub; injection Hsub as -> ->; eauto].
    destruct (_ <? _); [|rewrite Hs in Hsub; injection Hsub as -> ->; eauto].
    destruct Hsub as (s1 & Hs1 & _ & Ht & Hc & Hf & _). rewrite Hs in Hs1. injection Hs1 as -> ->.
    eexists _, _. by eapply history_submit.
  - destruct IH as (presets & fin & Hh). pose proof (domain_reachable_inv _ _ _ _ _ _ Hcfg Hr) as Hinv.
    destruct (worker_step_inv _ _ _ _ _ Hinv Hs) as (job & ph & Hi & _ & Hf & _ & Hstep).
    destruct (sending ph) eqn:Hsend.
    + destruct ph; try done. destruct Hstep as [Ht Hc]. by eapply history_send.
    + exists presets, fin. assert (Hstep' : exists c, tasks s' = <[i := (job, (exec_step job (flag_of s job) w r ph c).1)]> (tasks s)
          /\ completions s' = completions s) by (by destruct ph).
      destruct Hstep' as (c & Ht & Hc). eapply (history_exec s s' _ _ _ _ i job ph _ Hh Hi); [|exact Ht|done..].
      intros p. by apply exec_step_ok.
  - destruct IH as (presets & fin & Hh). pose proof (domain_reachable_inv _ _ _ _ _ _ Hcfg Hr) as Hinv.
    exists presets, fin. pose proof (try_completion_spec s Hinv) as Htry.
    destruct (completions s) as [|c rest] eqn:Hc.
    + rewrite Hs in Htry. injection Htry as -> ->. by rewrite app_nil_r.
    + destruct Htry as (s1 & Hs1 & _ & Ht & Hc1 & Hf & _). rewrite Hs in Hs1. injection Hs1 as -> ->.
      destruct Hh as (H1 & H2 & H3 & H4 & H5). unfold history, flag_of. rewrite Ht, Hc1, Hf.
      split_and!; try done. by rewrite <- H3, Hc, <- app_assoc.
  - destruct IH as (presets & fin & H1 & H2 & H3 & H4 & H5). exists presets, fin. unfold history, flag_of.
    cbn [tasks completions flags]. split_and!; try done.
    + intros i job ph p Hi Hp. eapply phase_ok_mono; [|by eapply H4].
      unfold flag_of. rewrite !bool_decide_eq_true. set_solver.
    + eapply Forall_impl; [exact H5|]. cbn. intros x [Hx1 Hx2]. split; [done|]. intros Hx.
      specialize (Hx2 Hx). unfold flag_of in Hx2. rewrite bool_decide_eq_true in *. set_solver.
Qed.

(** C24: Every accepted job is completed exactly once, with its own identity and
    result.  At any moment of any interleaving the accepted jobs are those
    still among the tasks and those done; the completions received so far and
    those in the channel are exactly the completions of the jobs done, in
    order; each carries the metadata of its job and the outcome of its handler,
    or the cancellation error; a job whose flag was set before its submission
    is always found cancelled, one whose flag was never set never is. *)
Theorem jobs_complete_once build configs capacity s acc rec :
  configs_ok configs capacity -> reachable build configs capacity s acc rec ->
  exists presets fin, length presets = length (tasks s) /\
    acc ≡ₚ zip ((tasks s).*1) presets ++ map done_accepted fin /\
    rec ++ completions s = map done_completion fin /\
    Forall (fun x => (was_preset x = true -> found_cancelled x = true) /\
                     (found_cancelled x = true -> job_cancelled (done_of x) ∈ flags s)) fin.
Proof.
  intros Hcfg Hr. destruct (reachable_history _ _ _ _ _ _ Hcfg Hr) as (presets & fin & H1 & H2 & H3 & _ & H5).
  exists presets, fin. split_and!; try done. eapply Forall_impl; [exact H5|]. cbn. intros x [Hp Hf].
  split; [done|]. intros Hx. specialize (Hf Hx). unfold flag_of in Hf. by apply bool_decide_eq_true in Hf.
Qed.

(** ** Draining *)

Lemma reachable_capacity build configs capacity s acc rec :
  configs_ok configs capacity -> reachable build configs capacity s acc rec -> completion_capacity s = capacity.
Proof.
  intros Hcfg Hr. induction Hr as [s Hs|s acc rec job x s' Hr IH Hs|s acc rec i w r s' Hr IH Hs|s acc rec o s' Hr IH Hs|s acc rec t Hr IH].
  - unfold DomainRegistry_new in Hs. bind_inv Hs. by injection Hs as <-.
  - pose proof (submit_spec job s (domain_reachable_inv _ _ _ _ _ _ Hcfg Hr)) as Hsub.
    destruct (domains s !! job_domain job) as [y|]; [|congruence].
    destruct (_ <? _); [|congruence]. destruct Hsub as (s1 & Hs1 & _ & _ & _ & _ & Hc). congruence.
  - destruct (worker_step_inv _ _ _ _ _ (domain_reachable_inv _ _ _ _ _ _ Hcfg Hr) Hs) as (? & ? & _ & _ & _ & Hc & _).
    congruence.
  - pose proof (try_completion_spec s (domain_reachable_inv _ _ _ _ _ _ Hcfg Hr)) as Htry.
    destruct (completions s); [congruence|]. destruct Htry as (s1 & Hs1 & _ & _ & _ & _ & Hc). congruence.
  - done.
Qed.

Lemma idle_iff s :
  registry_inv s -> idle s = true <-> tasks s = [] /\ completions s = [].
Proof.
  intros Hinv. unfold idle. rewrite forallb_forall. split.
  - intros Hall.
    assert (Hzero : forall d x, domains s !! d = Some x -> outstanding s d = 0).
    { intros d x Hx. rewrite <- (do_inflight _ _ _ (ri_domains _ Hinv d x Hx)).
      specialize (Hall (d, x)). cbn in Hall. apply Z.eqb_eq, Hall.
      apply list_elem_of_In, elem_of_map_to_list, Hx. }
    split.
    + destruct (tasks s) as [|t l] eqn:Ht; [done|exfalso].
      destruct (ri_tasks _ Hinv t) as [x Hx]; [rewrite Ht; by left|]. specialize (Hzero _ _ Hx).
      unfold outstanding in Hzero. pose proof (count_nonneg (from (job_domain t.1)) (completions s)).
      assert (0 < count (on (job_domain t.1) any_phase) (tasks s)); [|lia].
      apply count_pos. exists t. rewrite Ht. split; [by left|]. unfold on. by rewrite Z.eqb_refl.
    + destruct (completions s) as [|c l] eqn:Hc; [done|exfalso].
      destruct (ri_completions _ Hinv c) as [x Hx]; [rewrite Hc; by left|]. specialize (Hzero _ _ Hx).
      unfold outstanding in Hzero. pose proof (count_nonneg (on (comp_domain c) any_phase) (tasks s)).
      assert (0 < count (from (comp_domain c)) (completions s)); [|lia].
      apply count_pos. exists c. rewrite Hc. split; [by left|]. unfold from. by rewrite Z.eqb_refl.
  - intros [Ht Hc] [d x] Hin. apply list_elem_of_In, elem_of_map_to_list in Hin. cbn.
    rewrite (do_inflight _ _ _ (ri_domains _ Hinv d x Hin)). unfold outstanding. by rewrite Ht, Hc.
Qed.

(** The steps that empty the registry: those of the workers, and receiving. *)
Inductive drains : DomainRegistry -> list ActionCompletion -> nat -> DomainRegistry -> list ActionCompletion -> Prop :=
| D_done s rec : drains s rec 0 s rec
| D_worker s rec i w r s1 n s' rec' :
    worker_step i w r s = Some s1 -> drains s1 rec n s' rec' -> drains s rec (S n) s' rec'
| D_receive s rec c s1 n s' rec' :
    try_completion s = (Ok (Some c), s1) -> drains s1 (rec ++ [c]) n s' rec' -> drains s rec (S n) s' rec'.

Definition rank (ph : Phase) : nat :=
  match ph with
  | Ph_spawned => 12 | Ph_dequeued => 11 | Ph_running => 10 | Ph_latency => 9 | Ph_max_latency => 8
  | Ph_loaded _ => 7 | Ph_executed _ _ => 6 | Ph_execution _ _ => 5 | Ph_max_execution _ _ => 4
  | Ph_stopped _ _ => 3 | Ph_counted _ _ => 2
  end.

Definition work_left (s : DomainRegistry) : nat :=
  sum_list ((rank ∘ snd) <$> tasks s) + length (completions s).

Lemma sum_list_insert l i x y : l !! i = Some x -> (sum_list (<[i := y]> l) + x = sum_list l + y)%nat.
Proof.
  revert i. induction l as [|z l IH]; intros [|i] Hi; try done.
  - injection Hi as ->. cbn. lia.
  - specialize (IH i Hi). change (<[S i := y]> (z :: l)) with (z :: <[i := y]> l). cbn [sum_list]. lia.
Qed.
Lemma sum_list_delete l i x : l !! i = Some x -> (sum_list (delete i l) + x = sum_list l)%nat.
Proof.
  revert i. induction l as [|z l IH]; intros [|i] Hi; try done.
  - injection Hi as ->. cbn. lia.
  - specialize (IH i Hi). change (delete (S i) (z :: l)) with (z :: delete i l). cbn [sum_list]. lia.
Qed.

Lemma worker_decreases s s' i w r :
  registry_inv s -> worker_step i w r s = Some s' -> (work_left s' < work_left s)%nat.
Proof.
  intros Hinv Hs. destruct (worker_step_inv _ _ _ _ _ Hinv Hs) as (job & ph & Hi & _ & _ & _ & Hstep).
  assert (Hrank : ((rank ∘ snd) <$> tasks s) !! i = Some (rank ph)) by (by rewrite list_lookup_fmap, Hi).
  unfold work_left. destruct (sending ph) eqn:Hsend.
  - destruct ph; try done. destruct Hstep as [-> ->]. rewrite fmap_delete, length_app.
    pose proof (sum_list_delete _ _ _ Hrank). cbn in *. lia.
  - assert (Hstep' : exists flag c, tasks s' = <[i := (job, (exec_step job flag w r ph c).1)]> (tasks s)
        /\ completions s' = completions s) by (destruct ph; try done; destruct Hstep as (c & Hts & Hcs); eauto).
    destruct Hstep' as (flag & c & -> & ->). rewrite list_fmap_insert.
    set (ph' := (exec_step job flag w r ph c).1). cbn.
    pose proof (sum_list_insert _ _ _ (rank ph') Hrank).
    assert (rank ph' < rank ph)%nat; [|lia]. unfold ph'. destruct ph as [| | | | |[]| | | | |]; cbn; try lia; done.
Qed.

Lemma receive_decreases s s' c :
  registry_inv s -> try_completion s = (Ok (Some c), s') -> (work_left s' < work_left s)%nat.
Proof.
  intros Hinv Hs. pose proof (try_completion_spec s Hinv) as Htry. unfold work_left.
  destruct (completions s) as [|c' rest]; [congruence|].
  destruct Htry as (s1 & Hs1 & _ & Ht & Hc & _). assert (s1 = s') as -> by congruence.
  rewrite Ht, Hc. cbn. lia.
Qed.

(** Unless the registry is idle some worker can step or a completion is there. *)
Lemma can_drain s :
  registry_inv s -> 0 < completion_capacity s -> idle s = false ->
  (exists i s', worker_step i 0 0 s = Some s') \/ (exists c s', try_completion s = (Ok (Some c), s')).
Proof.
  intros Hinv Hcap Hidle. destruct (completions s) as [|c rest] eqn:Hc.
  2: { right. pose proof (try_completion_spec s Hinv) as Htry. rewrite Hc in Htry.
       destruct Htry as (s1 & Hs1 & _). eauto. }
  left. destruct (tasks s) as [|t0 l] eqn:Ht.
  { exfalso. assert (idle s = true); [by apply idle_iff|congruence]. }
  destruct (decide (Exists (fun t => is_spawned t.2 = false) (tasks s))) as [Hex|Hno]; rewrite Exists_exists in *.
  - destruct Hex as ([job ph] & Hin & Hph). apply list_elem_of_lookup in Hin as [i Hi]. exists i. unfold worker_step. rewrite Hi. cbn [mbind option_bind].
    destruct (ri_tasks _ Hinv (job, ph)) as [x Hx]; [by eapply list_elem_of_lookup_2|]. cbn in Hx. rewrite Hx.
    cbn [mbind option_bind]. cbn in Hph. rewrite Hph. cbn [andb].
    rewrite Hc. cbn [length]. rewrite (proj2 (Z.ltb_lt _ _)) by lia.
    destruct ph; try done; try (destruct (exec_step _ _ _ _ _ _); eauto); eauto.
  - exists 0%nat. unfold worker_step. rewrite Ht. cbn [lookup list_lookup mbind option_bind].
    destruct t0 as [job ph]. destruct (ri_tasks _ Hinv (job, ph)) as [x Hx]; [rewrite Ht; by left|].
    cbn in Hx. rewrite Hx. cbn [mbind option_bind].
    assert (Hsp : is_spawned ph = true).
    { destruct (is_spawned ph) eqn:E; [done|]. destruct Hno. exists (job, ph). rewrite Ht. split; [by left|done]. }
    assert (Hbusy : count (on (job_domain job) (negb ∘ is_spawned)) (tasks s) = 0).
    { pose proof (count_nonneg (on (job_domain job) (negb ∘ is_spawned)) (tasks s)) as Hnn.
      destruct (decide (0 < count (on (job_domain job) (negb ∘ is_spawned)) (tasks s))) as [Hpos|]; [|lia].
      apply count_pos in Hpos as (t & Hin & Ht'). destruct Hno. exists t. split; [done|].
      unfold on in Ht'. zbool. by apply negb_true_iff. }
    rewrite Ht in Hbusy. rewrite Hbusy. pose proof (do_pool _ _ _ (ri_domains _ Hinv _ _ Hx)).
    rewrite Hsp, (proj2 (Z.leb_gt _ _)) by lia. destruct ph; try done. cbn. eauto.
Qed.

Lemma drains_reachable build configs capacity acc s rec n s' rec' :
  drains s rec n s' rec' -> reachable build configs capacity s acc rec -> reachable build configs capacity s' acc rec'.
Proof.
  induction 1 as [|s rec i w r s1 n s' rec' Hw _ IH|s rec c s1 n s' rec' Hw _ IH]; intros Hr; [done|..].
  - apply IH. by eapply R_worker.
  - apply IH. by apply (R_completion _ _ _ s acc rec (Some c) s1).
Qed.

Lemma drains_bounded build configs capacity acc s rec n s' rec' :
  configs_ok configs capacity -> drains s rec n s' rec' -> reachable build configs capacity s acc rec ->
  (n + work_left s' <= work_left s)%nat.
Proof.
  intros Hcfg. induction 1 as [|s rec i w r s1 n s' rec' Hw _ IH|s rec c s1 n s' rec' Hw _ IH]; intros Hr; [lia|..];
    pose proof (domain_reachable_inv _ _ _ _ _ _ Hcfg Hr) as Hinv.
  - pose proof (worker_decreases _ _ _ _ _ Hinv Hw). specialize (IH ltac:(by eapply R_worker)). lia.
  - pose proof (receive_decreases _ _ _ Hinv Hw).
    specialize (IH (R_completion _ _ _ s acc rec (Some c) s1 Hr Hw)). lia.
Qed.

Lemma drain_exists build configs capacity acc k : forall s rec,
  configs_ok configs capacity -> 0 < capacity -> reachable build configs capacity s acc rec ->
  (work_left s <= k)%nat -> exists n s' rec', drains s rec n s' rec' /\ idle s' = true.
Proof.
  induction k as [|k IH]; intros s rec Hcfg Hcap Hr Hk;
    pose proof (domain_reachable_inv _ _ _ _ _ _ Hcfg Hr) as Hinv;
    (destruct (idle s) eqn:Hidle; [exists 0%nat, s, rec; split; [constructor|done]|]);
    pose proof (reachable_capacity _ _ _ _ _ _ Hcfg Hr) as Hc;
    destruct (can_drain s Hinv ltac:(lia) Hidle) as [(i & s1 & Hw)|(c & s1 & Hw)].
  - pose proof (worker_decreases _ _ _ _ _ Hinv Hw). lia.
  - pose proof (receive_decreases _ _ _ Hinv Hw). lia.
  - pose proof (worker_decreases _ _ _ _ _ Hinv Hw).
    destruct (IH s1 rec Hcfg Hcap ltac:(by eapply R_worker) ltac:(lia)) as (n & s' & rec' & Hd & Hi).
    exists (S n), s', rec'. split; [by eapply D_worker|done].
  - pose proof (receive_decreases _ _ _ Hinv Hw).
    destruct (IH s1 (rec ++ [c]) Hcfg Hcap (R_completion _ _ _ s acc rec (Some c) s1 Hr Hw) ltac:(lia))
      as (n & s' & rec' & Hd & Hi).
    exists (S n), s', rec'. split; [by eapply D_receive|done].
Qed.

(** C26: Accepted work drains.  From every reachable state, with room for one
    completion, the workers and the receiver can always empty the registry: no
    interleaving of their steps is longer than the work left, some step is
    possible until the registry is idle, and it is idle exactly when nothing is
    outstanding, every accepted job having been handed back. *)
Theorem accepted_jobs_drain build configs capacity s acc rec :
  configs_ok configs capacity -> 0 < capacity -> reachable build configs capacity s acc rec ->
  (forall n s' rec', drains s rec n s' rec' -> (n <= work_left s)%nat /\
     (idle s' = true -> exists fin, acc ≡ₚ map done_accepted fin /\ rec' = map done_completion fin)) /\
  exists n s' rec', drains s rec n s' rec' /\ idle s' = true.
Proof.
  intros Hcfg Hcap Hr. split; [|by apply (drain_exists _ _ _ acc _ s rec Hcfg Hcap Hr (Nat.le_refl _))].
  intros n s' rec' Hd. pose proof (drains_bounded _ _ _ _ _ _ _ _ _ Hcfg Hd Hr). split; [lia|].
  intros Hidle. pose proof (drains_reachable _ _ _ _ _ _ _ _ _ Hd Hr) as Hr'.
  destruct (reachable_history _ _ _ _ _ _ Hcfg Hr') as (presets & fin & Hlen & Hacc & Hrec & _).
  apply (idle_iff _ (domain_reachable_inv _ _ _ _ _ _ Hcfg Hr')) in Hidle as [Ht Hc].
  exists fin. rewrite Ht in Hacc, Hlen. rewrite Hc, app_nil_r in Hrec.
  by destruct presets.
Qed.
End Domain.

Section Admission.
Context `{AnyTypes}.

(** Admission is exact.  [submit] accepts a job precisely when [can_submit]
    says so, that is when its domain exists and has fewer jobs waiting than its
    queue holds; the job is then a task that has not started, and a refusal,
    which names its reason, changes nothing. *)
Theorem submit_admission_exact build configs capacity s acc rec job :
  configs_ok configs capacity -> reachable build configs capacity s acc rec ->
  if can_submit s (job_domain job) then
    exists s', submit job s = (Ok tt, s') /\ tasks s' = tasks s ++ [(job, Ph_spawned)] /\
      completions s' = completions s
  else submit job s =
    (Err (Raise (match domains s !! job_domain job with
                 | Some x => RuntimeError_ResourceExhausted ActionQueue (queue_capacity x)
                 | None => RuntimeError_UnknownDomain (job_domain job)
                 end)), s).
Proof.
  intros Hcfg Hr. pose proof (submit_spec job s (domain_reachable_inv _ _ _ _ _ _ Hcfg Hr)) as Hs.
  unfold can_submit. destruct (domains s !! job_domain job) as [x|]; [|done].
  destruct (queued (counters x) <? queue_capacity x); [|done].
  destruct Hs as (s' & Hs & _ & Ht & Hc & _). eauto.
Qed.
End Admission.

(** ** Examples *)

Definition ex_config : DomainConfig := mkDomainConfig 0 1 2.
Definition ex_job (n : Z) (flag : Z) : ActionJob :=
  mkActionJob 1 (mkRequestId 1 n) 41 0 None (Typed (Any true (U64 n)))
    (mkRegisteredAction (remote_handler ex_action ex_handler) (Some (typed_handler ex_action ex_handler)))
    flag false 0 None.
Definition ex_start : DomainRegistry :=
  match DomainRegistry_new (fun _ => true) [ex_config] 1 with
  | Ok s => s
  | Err _ => mkDomainRegistry ∅ [] 1 [] ∅
  end.
Definition ex_one : DomainRegistry := (submit (ex_job 5 7) ex_start).2.

Lemma ex_configs_ok : configs_ok [ex_config] 1.
Proof.
  split; [lia|]. apply Forall_singleton. cbn. zunfold. lia.
Qed.

Lemma ex_one_reachable : reachable (fun _ => true) [ex_config] 1 ex_one [(ex_job 5 7, false)] [].
Proof.
  apply (R_submit (fun _ => true) [ex_config] 1 ex_start [] [] (ex_job 5 7) (Ok tt) ex_one); [|reflexivity].
  apply R_new. reflexivity.
Qed.

Lemma domain_counters_exact_witness :
  exists x, domains ex_one !! 0 = Some x /\ queued (counters x) = 1 /\ running (counters x) = 0 /\
    inflight (counters x) = 1 /\ pending_completions (snapshot (counters x)) = 0.
Proof.
  destruct (domains ex_one !! 0) as [x|] eqn:Hx; [|discriminate Hx]. exists x. split; [reflexivity|].
  destruct (domain_counters_exact (fun _ => true) [ex_config] 1 ex_one [(ex_job 5 7, false)] [] 0 x
              ex_configs_ok ex_one_reachable Hx) as (Hq & _ & Hrun & _ & Hi & _ & Hp & _).
  rewrite Hp, Hq, Hrun, Hi. split_and!; reflexivity.
Defined.

Lemma jobs_complete_once_witness :
  exists presets fin, length presets = 1%nat /\
    [(ex_job 5 7, false)] ≡ₚ zip [ex_job 5 7] presets ++ map done_accepted fin /\ map done_completion fin = [].
Proof.
  destruct (jobs_complete_once (fun _ => true) [ex_config] 1 ex_one [(ex_job 5 7, false)] []
              ex_configs_ok ex_one_reachable) as (presets & fin & Hlen & Hacc & Hrec & _).
  exists presets, fin. split; [exact Hlen|]. split; [exact Hacc|]. symmetry. exact Hrec.
Defined.

Lemma accepted_jobs_drain_witness :
  exists n s' rec', drains ex_one [] n s' rec' /\ idle s' = true /\ (n <= 12)%nat.
Proof.
  destruct (accepted_jobs_drain (fun _ => true) [ex_config] 1 ex_one [(ex_job 5 7, false)] []
              ex_configs_ok ltac:(lia) ex_one_reachable) as (Hb & n & s' & rec' & Hd & Hi).
  exists n, s', rec'. split; [exact Hd|]. split; [exact Hi|]. destruct (Hb n s' rec' Hd) as [Hn _]. exact Hn.
Defined.

Lemma submit_admission_exact_witness :
  can_submit ex_one 0 = true /\
  exists s', submit (ex_job 6 8) ex_one = (Ok tt, s') /\ tasks s' = tasks ex_one ++ [(ex_job 6 8, Ph_spawned)] /\
    completions s' = completions ex_one.
Proof.
  split; [reflexivity|].
  apply (submit_admission_exact (fun _ => true) [ex_config] 1 ex_one [(ex_job 5 7, false)] [] (ex_job 6 8)
           ex_configs_ok ex_one_reachable).
Defined.
