(* ===== verification/ObjectWire.v ===== *)
(** * ObjectWire: the data and the messages of remote objects

    The plain data of [crates/hataori-runtime/src/object.rs] and the codecs of
    remote objects: the envelope in front of every object request, object
    locations, weak handles, and the migration packets of
    [object/migration.rs].  A slice at constant bounds is taken after the length
    has been checked, as in the code. *)
From Stdlib Require Import Strings.Byte.
From S2P Require Import Prelude Text Protocol Error RuntimeTypes RuntimeWire.

(** ** Data *)

Inductive ObjectConcurrency : Type := Exclusive | ReadWrite.
#[export] Instance ObjectConcurrency_eq_dec : EqDecision ObjectConcurrency.
Proof. solve_decision. Defined.
(** [concurrency as u8]. *)
Definition ObjectConcurrency_code (c : ObjectConcurrency) : Z :=
  match c with Exclusive => 0 | ReadWrite => 1 end.

Inductive Mobility : Type := Pinned | Reconstructible | Migratable.
#[export] Instance Mobility_eq_dec : EqDecision Mobility.
Proof. solve_decision. Defined.
Definition Mobility_code (m : Mobility) : Z :=
  match m with Pinned => 0 | Reconstructible => 1 | Migratable => 2 end.

Inductive ObjectAccess : Type := Access_Read | Access_Write.
#[export] Instance ObjectAccess_eq_dec : EqDecision ObjectAccess.
Proof. solve_decision. Defined.
Definition ObjectAccess_code (a : ObjectAccess) : Z :=
  match a with Access_Read => 0 | Access_Write => 1 end.

Record ObjectLimits : Type := mkObjectLimits {
  max_objects : Z;
  max_mailbox_per_object : Z;
  max_resolver_entries : Z;
  max_local_leases : Z;
  max_roots : Z;
  max_placement_tickets : Z;
  max_transfers : Z;
  max_migrations : Z;
  max_prepared_migrations : Z;
  max_forwarders : Z;
  max_redirects : Z;
  max_snapshot_bytes : Z;
  max_snapshot_segments : Z;
  forwarding_ttl : Z;
  lease_renew_interval : Z;
  lease_ttl : Z;
  lease_grace : Z;
}.

Definition MIGRATION_HEADER_BYTES : Z := 133.

Definition ObjectLimits_default : ObjectLimits :=
  mkObjectLimits 1024 64 1024 1024 1024 1024 1024 64 64 1024 8
    (8 * 1024 * 1024 - MIGRATION_HEADER_BYTES) 1023
    (60 * second) (10 * second) (30 * second) (30 * second).

Definition ObjectLimits_validate (l : ObjectLimits) : result RuntimeError ObjectLimits :=
  fail_if ((max_objects l =? 0) || (max_mailbox_per_object l =? 0) || (max_resolver_entries l =? 0)
      || (max_local_leases l =? 0) || (max_roots l =? 0) || (max_placement_tickets l =? 0)
      || (max_transfers l =? 0) || (max_migrations l =? 0) || (max_prepared_migrations l =? 0)
      || (max_forwarders l =? 0) || (max_redirects l =? 0) || (max_snapshot_bytes l =? 0)
      || (max_snapshot_segments l =? 0) || (forwarding_ttl l =? 0) || (lease_renew_interval l =? 0)
      || (lease_ttl l <=? lease_renew_interval l) || (lease_grace l =? 0))
    (RuntimeError_InvalidLimits "invalid object limits");;
  Ok l.

Record MigrationReport : Type := mkMigrationReport {
  report_object : ObjectId; report_from : ObjectLocation; report_to : ObjectLocation;
  snapshot_size : Z;
}.

(** ** The envelope *)

(** [b"HOBJ"]. *)
Definition OBJECT_MAGIC : list byte := String.list_byte_of_string "HOBJ".
Definition OBJECT_VERSION : Z := 1.
Definition OBJECT_HEADER_BYTES : Z := 76.

Record ObjectEnvelope : Type := mkObjectEnvelope {
  env_object : ObjectId;
  env_type : Z;
  env_epoch : Z;
  lease_locality : LocalityId;
  env_domain : DomainId;
  rooted : bool;
}.

Definition ObjectEnvelope_encode (e : ObjectEnvelope) (payload : Segments) : Segments :=
  let header := OBJECT_MAGIC in
  let header := header ++ [byte_of OBJECT_VERSION] in
  let header := header ++ [byte_of (if rooted e then 1 else 0)] in
  let header := header ++ replicate 2 Byte.x00 in
  let header := header ++ to_le_bytes 16 (ObjectId_run (env_object e)) in
  let header := header ++ to_le_bytes 16 (ObjectId_unique (env_object e)) in
  let header := header ++ to_le_bytes 16 (env_type e) in
  let header := header ++ to_le_bytes 8 (env_epoch e) in
  let header := header ++ to_le_bytes 8 (lease_locality e) in
  let header := header ++ to_le_bytes 4 (env_domain e) in
  [header] ++ payload.

(** [map_err(|_| ActionError::codec(message))]. *)
Definition or_codec {E A} (r : result E A) (message : string) : result ActionError A :=
  map_err (fun _ => ActionError_codec (lit message)) r.

(** [ObjectTypeId::new]. *)
Definition ObjectTypeId_new (value : Z) : PResult Z := nonzero_u128_id "ObjectTypeId" value.

Definition decode_header (header : list byte) : result ActionError ObjectEnvelope :=
  fail_if (negb (len header =? OBJECT_HEADER_BYTES))
    (ActionError_codec (lit "invalid object envelope length"));;
  fail_if (bool_decide (slice 0 4 header <> OBJECT_MAGIC)
           || negb (from_le_bytes (slice 4 5 header) =? OBJECT_VERSION)
           || bool_decide (slice 6 8 header <> replicate 2 Byte.x00))
    (ActionError_codec (lit "invalid object envelope header"));;
  let flag := from_le_bytes (slice 5 6 header) in
  root ← (if flag =? 0 then Ok false else if flag =? 1 then Ok true
          else Err (ActionError_codec (lit "invalid object root flag")));
  run ← or_codec (RunId_new (from_le_bytes (slice 8 24 header))) "invalid object run id";
  object ← or_codec (ObjectId_new run (from_le_bytes (slice 24 40 header))) "invalid object id";
  object_type ← or_codec (ObjectTypeId_new (from_le_bytes (slice 40 56 header))) "invalid object type";
  let epoch := from_le_bytes (slice 56 64 header) in
  fail_if (epoch =? 0) (ActionError_codec (lit "invalid object epoch"));;
  Ok (mkObjectEnvelope object object_type epoch
        (from_le_bytes (slice 64 72 header)) (from_le_bytes (slice 72 76 header)) root).

Definition inspect (segments : Segments) : result ActionError ObjectEnvelope :=
  header ← ok_or (head segments) (ActionError_codec (lit "invalid object envelope length"));
  decode_header header.

Definition ObjectEnvelope_decode (segments : Segments) : result ActionError (ObjectEnvelope * Segments) :=
  match segments with
  | [] => Err (ActionError_codec (lit "invalid object envelope length"))
  | header :: rest =>
      fail_if (negb (len header =? OBJECT_HEADER_BYTES))
        (ActionError_codec (lit "invalid object envelope length"));;
      e ← decode_header header;
      Ok (e, rest)
  end.

(** ** Locations *)

Definition location_bytes (l : ObjectLocation) : list byte :=
  let bytes := to_le_bytes 8 (ObjectLocation_locality l) in
  let bytes := bytes ++ to_le_bytes 4 (ObjectLocation_domain l) in
  let bytes := bytes ++ to_le_bytes 8 (ObjectLocation_slot l) in
  let bytes := bytes ++ to_le_bytes 4 (ObjectLocation_generation l) in
  bytes ++ to_le_bytes 8 (ObjectLocation_epoch l).

Definition encode_location (l : ObjectLocation) : result ActionError Segments := Ok [location_bytes l].

(** [ObjectLocation::new] on the five fields that start at byte [o]. *)
Definition location_at (o : nat) (bytes : list byte) : PResult ObjectLocation :=
  ObjectLocation_new (from_le_bytes (slice o (o + 8) bytes))
    (from_le_bytes (slice (o + 8) (o + 12) bytes))
    (from_le_bytes (slice (o + 12) (o + 20) bytes))
    (from_le_bytes (slice (o + 20) (o + 24) bytes))
    (from_le_bytes (slice (o + 24) (o + 32) bytes)).

(** [display] is the [Display] of a [ProtocolError]. *)
Definition decode_location (display : ProtocolError -> text) (bytes : list byte) :
    result RuntimeError ObjectLocation :=
  fail_if (negb (len bytes =? 32)) (RuntimeError_Protocol (lit "invalid object location payload"));;
  map_err (fun e => RuntimeError_Protocol (lit "invalid object location: " ++ display e))
    (location_at 0 bytes).

(** ** Weak handles *)

Record WeakRemote : Type := mkWeakRemote {
  weak_object : ObjectId; weak_type : Z; weak_location : ObjectLocation;
}.

Definition WeakRemote_encode (w : WeakRemote) : result ActionError Segments :=
  let bytes := to_le_bytes 16 (ObjectId_run (weak_object w)) in
  let bytes := bytes ++ to_le_bytes 16 (ObjectId_unique (weak_object w)) in
  let bytes := bytes ++ to_le_bytes 16 (weak_type w) in
  Ok [bytes ++ location_bytes (weak_location w)].

(** [TYPE_ID] is that of the handle's type. *)
Definition WeakRemote_decode (TYPE_ID : Z) (segments : Segments) : result ActionError WeakRemote :=
  match segments with
  | [bytes] =>
      fail_if (negb (len bytes =? 80)) (ActionError_codec (lit "invalid weak remote payload"));;
      run ← or_codec (RunId_new (from_le_bytes (slice 0 16 bytes))) "invalid weak remote run";
      object ← or_codec (ObjectId_new run (from_le_bytes (slice 16 32 bytes))) "invalid weak remote object";
      object_type ← or_codec (ObjectTypeId_new (from_le_bytes (slice 32 48 bytes))) "invalid weak remote type";
      fail_if (negb (object_type =? TYPE_ID)) (ActionError_codec (lit "weak remote type mismatch"));;
      location ← or_codec (location_at 48 bytes) "invalid weak remote location";
      Ok (mkWeakRemote object object_type location)
  | _ => Err (ActionError_codec (lit "invalid weak remote payload"))
  end.

(** ** Migration packets *)

Record MigrationPacket : Type := mkMigrationPacket {
  packet_migration : RequestId;
  packet_object : ObjectId;
  packet_type : Z;
  packet_authority : LocalityId;
  packet_from : ObjectLocation;
  packet_destination : Place;
  snapshot_version : Z;
  snapshot_schema : Z;
  packet_snapshot : Segments;
}.

Definition MIGRATION_MAGIC : list byte := String.list_byte_of_string "HMIG".

Definition MigrationPacket_encode (p : MigrationPacket) : result ActionError Segments :=
  let header := MIGRATION_MAGIC in
  let header := header ++ [byte_of 1] in
  let header := header ++ to_le_bytes 8 (RequestId_origin (packet_migration p)) in
  let header := header ++ to_le_bytes 8 (RequestId_sequence (packet_migration p)) in
  let header := header ++ to_le_bytes 16 (ObjectId_run (packet_object p)) in
  let header := header ++ to_le_bytes 16 (ObjectId_unique (packet_object p)) in
  let header := header ++ to_le_bytes 16 (packet_type p) in
  let header := header ++ to_le_bytes 8 (packet_authority p) in
  let header := header ++ location_bytes (packet_from p) in
  let header := header ++ to_le_bytes 8 (locality (packet_destination p)) in
  let header := header ++ to_le_bytes 4 (RuntimeTypes.domain (packet_destination p)) in
  let header := header ++ to_le_bytes 4 (snapshot_version p) in
  let header := header ++ to_le_bytes 8 (snapshot_schema p) in
  Ok (header :: packet_snapshot p).

Definition MigrationPacket_decode (segments : Segments) : result ActionError MigrationPacket :=
  match segments with
  | [] => Err (ActionError_codec (lit "invalid migration header length"))
  | header :: rest =>
      fail_if (negb (len header =? MIGRATION_HEADER_BYTES))
        (ActionError_codec (lit "invalid migration header length"));;
      fail_if (bool_decide (slice 0 4 header <> MIGRATION_MAGIC)
               || negb (from_le_bytes (slice 4 5 header) =? 1))
        (ActionError_codec (lit "invalid migration header"));;
      request ← or_codec (RequestId_new (from_le_bytes (slice 5 13 header))
                            (from_le_bytes (slice 13 21 header))) "invalid migration id";
      run ← or_codec (RunId_new (from_le_bytes (slice 21 37 header))) "invalid migration run";
      object ← or_codec (ObjectId_new run (from_le_bytes (slice 37 53 header))) "invalid migration object";
      object_type ← or_codec (ObjectTypeId_new (from_le_bytes (slice 53 69 header)))
                      "invalid migration object type";
      let authority := from_le_bytes (slice 69 77 header) in
      from ← or_codec (location_at 77 header) "invalid migration source";
      let destination := Place_new (from_le_bytes (slice 109 117 header))
                           (from_le_bytes (slice 117 121 header)) in
      Ok (mkMigrationPacket request object object_type authority from destination
            (from_le_bytes (slice 121 125 header)) (from_le_bytes (slice 125 133 header)) rest)
  end.

(** ** What the codecs accept *)

Definition location_wf (l : ObjectLocation) : Prop :=
  in_u 64 (ObjectLocation_locality l) /\ in_u 32 (ObjectLocation_domain l) /\
  0 < ObjectLocation_slot l < 2 ^ 64 /\ 0 < ObjectLocation_generation l < 2 ^ 32 /\
  0 < ObjectLocation_epoch l < 2 ^ 64.

Definition object_id_wf (o : ObjectId) : Prop := id128_wf (ObjectId_run o) /\ id128_wf (ObjectId_unique o).

Definition envelope_wf (e : ObjectEnvelope) : Prop :=
  object_id_wf (env_object e) /\ id128_wf (env_type e) /\ 0 < env_epoch e < 2 ^ 64 /\
  in_u 64 (lease_locality e) /\ in_u 32 (env_domain e).

Definition weak_wf (w : WeakRemote) : Prop :=
  object_id_wf (weak_object w) /\ id128_wf (weak_type w) /\ location_wf (weak_location w).

Definition packet_wf (p : MigrationPacket) : Prop :=
  in_u 64 (RequestId_origin (packet_migration p)) /\ 0 < RequestId_sequence (packet_migration p) < 2 ^ 64 /\
  object_id_wf (packet_object p) /\ id128_wf (packet_type p) /\ in_u 64 (packet_authority p) /\
  location_wf (packet_from p) /\ in_u 64 (locality (packet_destination p)) /\
  in_u 32 (RuntimeTypes.domain (packet_destination p)) /\ in_u 32 (snapshot_version p) /\
  in_u 64 (snapshot_schema p).

Lemma or_codec_ok {E A} (r : result E A) m a : or_codec r m = Ok a <-> r = Ok a.
Proof. unfold or_codec. destruct r; cbn; split; by intros [= ->]. Qed.

Lemma nonzero_id_iff name v x : nonzero_u128_id name v = Ok x <-> x = v /\ v <> 0.
Proof.
  split; [apply nonzero_id_inv|]. intros [-> Hne]. by apply nonzero_id_ok.
Qed.

Lemma ObjectId_new_ok run unique o :
  ObjectId_new run unique = Ok o <-> o = mkObjectId run unique /\ unique <> 0.
Proof.
  unfold ObjectId_new. destruct (Z.eqb_spec unique 0); cbn; [by split; [|intros []]|].
  split; [by intros [= <-]|]. by intros [-> _].
Qed.

Lemma RequestId_new_ok origin sequence r :
  RequestId_new origin sequence = Ok r <-> r = mkRequestId origin sequence /\ sequence <> 0.
Proof.
  unfold RequestId_new. destruct (Z.eqb_spec sequence 0); cbn; [by split; [|intros []]|].
  split; [by intros [= <-]|]. by intros [-> _].
Qed.

Lemma ObjectLocation_new_ok a b c d e l :
  ObjectLocation_new a b c d e = Ok l <-> l = mkObjectLocation a b c d e /\ c <> 0 /\ d <> 0 /\ e <> 0.
Proof.
  unfold ObjectLocation_new, fail_if.
  destruct (Z.eqb_spec c 0), (Z.eqb_spec d 0), (Z.eqb_spec e 0); rcbn;
    (split; [by intros [= <-]|naive_solver]).
Qed.

(** The integer a slice of [w] bytes holds, and back. *)
Lemma slice_value (w a : nat) (h : list byte) v :
  (a + w <= length h)%nat ->
  from_le_bytes (slice a (a + w) h) = v <-> 0 <= v < 256 ^ Z.of_nat w /\ slice a (a + w) h = to_le_bytes w v.
Proof.
  intros Hl. assert (Hs : length (slice a (a + w) h) = w) by (rewrite length_slice; lia). split.
  - intros <-. split; [by apply from_le_bytes_range'|]. by rewrite to_from_le_bytes'.
  - intros [Hr ->]. by apply from_to_le_bytes.
Qed.

Lemma length_location_bytes l : length (location_bytes l) = 32%nat.
Proof. unfold location_bytes. by autorewrite with lens. Qed.
#[local] Hint Rewrite length_location_bytes : lens.

Lemma location_at_spec o bytes l :
  (o + 32 <= length bytes)%nat ->
  location_at o bytes = Ok l <-> location_wf l /\ slice o (o + 32) bytes = location_bytes l.
Proof.
  intros Hl. unfold location_at. rewrite ObjectLocation_new_ok.
  assert (Hsplit : slice o (o + 32) bytes =
    slice o (o + 8) bytes ++ slice (o + 8) (o + 12) bytes ++ slice (o + 12) (o + 20) bytes
    ++ slice (o + 20) (o + 24) bytes ++ slice (o + 24) (o + 32) bytes) by (by rewrite !slice_join by lia).
  pose proof (slice_value 8 o bytes) as H1. pose proof (slice_value 4 (o + 8) bytes) as H2.
  pose proof (slice_value 8 (o + 12) bytes) as H3. pose proof (slice_value 4 (o + 20) bytes) as H4.
  pose proof (slice_value 8 (o + 24) bytes) as H5.
  rewrite <- !Nat.add_assoc in *. cbn [Nat.add] in *. unfold location_wf, in_u, location_bytes. split.
  - intros (-> & ? & ? & ?). cbn [ObjectLocation_locality ObjectLocation_domain ObjectLocation_slot
      ObjectLocation_generation ObjectLocation_epoch].
    destruct (proj1 (H1 _ ltac:(lia)) eq_refl) as [? E1], (proj1 (H2 _ ltac:(lia)) eq_refl) as [? E2],
      (proj1 (H3 _ ltac:(lia)) eq_refl) as [? E3], (proj1 (H4 _ ltac:(lia)) eq_refl) as [? E4],
      (proj1 (H5 _ ltac:(lia)) eq_refl) as [? E5].
    split; [cbn in *; lia|]. rewrite Hsplit, <- !app_assoc. by rewrite <- E1, <- E2, <- E3, <- E4, <- E5.
  - intros (Hwf & Heq). destruct l as [a b c d e]. cbn [ObjectLocation_locality ObjectLocation_domain
      ObjectLocation_slot ObjectLocation_generation ObjectLocation_epoch] in *.
    rewrite Heq, <- !app_assoc in Hsplit.
    apply app_inj_1 in Hsplit as [E1 Hsplit]; [|rewrite length_slice by lia; autorewrite with lens; lia].
    apply app_inj_1 in Hsplit as [E2 Hsplit]; [|rewrite length_slice by lia; autorewrite with lens; lia].
    apply app_inj_1 in Hsplit as [E3 Hsplit]; [|rewrite length_slice by lia; autorewrite with lens; lia].
    apply app_inj_1 in Hsplit as [E4 E5]; [|rewrite length_slice by lia; autorewrite with lens; lia].
    rewrite (proj2 (H1 a ltac:(lia))), (proj2 (H2 b ltac:(lia))), (proj2 (H3 c ltac:(lia))),
      (proj2 (H4 d ltac:(lia))), (proj2 (H5 e ltac:(lia))); [|split; [cbn; lia|done]..].
    split_and!; [done|lia..].
Qed.

(** Rewrite with the value of every slice of [h], as [slice_value] gives it. *)
Lemma slice_bytes (a b w : nat) (h : list byte) v :
  b = (a + w)%nat -> (b <= length h)%nat -> from_le_bytes (slice a b h) = v ->
  0 <= v < 256 ^ Z.of_nat w /\ slice a b h = to_le_bytes w v.
Proof. intros -> Hl Hv. by apply slice_value. Qed.

Lemma flag_ok (flag : Z) (b : bool) (e : ActionError) :
  (if flag =? 0 then Ok false else if flag =? 1 then Ok true else Err e) = Ok b <->
  flag = if b then 1 else 0.
Proof.
  destruct (Z.eqb_spec flag 0), (Z.eqb_spec flag 1), b; split; intros; simplify_eq; try done; lia.
Qed.

Ltac codec_inv H :=
  repeat match type of H with
  | mbind _ ?e = _ =>
      let E := fresh "E" in destruct e eqn:E; cbn [mbind result_bind] in H; [|discriminate H];
      try (apply or_codec_ok in E);
      lazymatch type of E with
      | fail_if _ _ = Ok _ => fail_if_inv E
      | nonzero_u128_id _ _ = Ok _ => apply nonzero_id_iff in E as [-> ?]
      | RunId_new _ = Ok _ => apply nonzero_id_iff in E as [-> ?]
      | ObjectTypeId_new _ = Ok _ => apply nonzero_id_iff in E as [-> ?]
      | ObjectId_new _ _ = Ok _ => apply ObjectId_new_ok in E as [-> ?]
      | RequestId_new _ _ = Ok _ => apply RequestId_new_ok in E as [-> ?]
      | _ => idtac
      end
  end.

(** A slice of [h] as the bytes of its value. *)
Ltac field h a b w :=
  let R := fresh "R" in let F := fresh "F" in
  destruct (slice_bytes a b w h _ eq_refl ltac:(lia) eq_refl) as [R F].
Ltac fields h l :=
  lazymatch l with
  | nil => idtac
  | cons (?a, ?b, ?w) ?l' => field h a b w; fields h l'
  end.
Ltac eq_slices :=
  repeat match goal with
  | H : bool_decide (_ <> _) = false |- _ => apply bool_decide_eq_false in H
  | H : ~ (_ <> _) |- _ => apply dec_stable in H
  end.

(** Evaluate the checks of a decoder on in-range fields. *)
Ltac codec_run :=
  unfold or_codec, RunId_new, ObjectTypeId_new, nonzero_u128_id, ObjectId_new, RequestId_new, fail_if;
  repeat (zdec1; cbn [map_err negb]; rcbn); rewrite ?bool_decide_neq_refl; cbn [map_err negb]; rcbn;
  repeat (zdec1; cbn [map_err negb]; rcbn).

Definition envelope_layout (e : ObjectEnvelope) : list byte :=
  OBJECT_MAGIC ++ to_le_bytes 1 OBJECT_VERSION ++ to_le_bytes 1 (if rooted e then 1 else 0) ++ to_le_bytes 2 0
  ++ to_le_bytes 16 (ObjectId_run (env_object e)) ++ to_le_bytes 16 (ObjectId_unique (env_object e))
  ++ to_le_bytes 16 (env_type e) ++ to_le_bytes 8 (env_epoch e) ++ to_le_bytes 8 (lease_locality e)
  ++ to_le_bytes 4 (env_domain e).

Lemma envelope_encode_layout e p : ObjectEnvelope_encode e p = envelope_layout e :: p.
Proof. unfold ObjectEnvelope_encode, envelope_layout. by rewrite <- !app_assoc. Qed.

Lemma decode_header_inv h e :
  decode_header h = Ok e -> envelope_wf e /\ h = envelope_layout e.
Proof.
  unfold decode_header. intros H. codec_inv H. injection H as <-. zbool.
  rename E into Hroot. apply flag_ok in Hroot.
  assert (Hl : length h = 76%nat) by (unfold len, OBJECT_HEADER_BYTES in *; lia).
  eq_slices. fields h [(4, 5, 1); (5, 6, 1); (8, 24, 16); (24, 40, 16); (40, 56, 16); (56, 64, 8);
    (64, 72, 8); (72, 76, 4)]%nat. split.
  - unfold envelope_wf, object_id_wf, id128_wf, in_u. cbn in *. lia.
  - rewrite <- (slice_all 76 h Hl) at 1.
    rewrite <- (slice_join 0 4 76), <- (slice_join 4 5 76), <- (slice_join 5 6 76), <- (slice_join 6 8 76),
      <- (slice_join 8 24 76), <- (slice_join 24 40 76), <- (slice_join 40 56 76), <- (slice_join 56 64 76),
      <- (slice_join 64 72 76) by lia.
    unfold envelope_layout. cbn [env_object env_type env_epoch lease_locality env_domain rooted
      ObjectId_run ObjectId_unique]. change (to_le_bytes 2 0) with (replicate 2 Byte.x00). congruence.
Qed.

Lemma decode_header_layout e :
  envelope_wf e -> decode_header (envelope_layout e) = Ok e.
Proof.
  destruct e as [[run unique] t epoch lease d root]. intros (Ho & Ht & He & Hl & Hd).
  unfold object_id_wf, id128_wf, in_u in *. cbn [env_object env_type env_epoch lease_locality env_domain
    ObjectId_run ObjectId_unique] in *.
  unfold decode_header.
  assert (Hlen : len (envelope_layout (mkObjectEnvelope (mkObjectId run unique) t epoch lease d root)) =
    OBJECT_HEADER_BYTES) by (unfold len, envelope_layout; by autorewrite with lens).
  rewrite Hlen. clear Hlen. rcbn. unfold envelope_layout. cbn [env_object env_type env_epoch lease_locality
    env_domain rooted ObjectId_run ObjectId_unique]. slice_eval.
  rewrite !from_to_le_bytes by (destruct root; cbn; lia). codec_run. by destruct root.
Qed.

(** [location_at] on a part of a concatenation. *)
Lemma location_at_layout o l bytes :
  location_wf l -> (o + 32 <= length bytes)%nat -> slice o (o + 32) bytes = location_bytes l ->
  location_at o bytes = Ok l.
Proof. intros Hl Ho Hs. by apply location_at_spec. Qed.

Definition weak_layout (w : WeakRemote) : list byte :=
  to_le_bytes 16 (ObjectId_run (weak_object w)) ++ to_le_bytes 16 (ObjectId_unique (weak_object w))
  ++ to_le_bytes 16 (weak_type w) ++ location_bytes (weak_location w).

Lemma weak_encode_layout w : WeakRemote_encode w = Ok [weak_layout w].
Proof. unfold WeakRemote_encode, weak_layout. by rewrite <- !app_assoc. Qed.

Lemma weak_decode_inv T s w :
  WeakRemote_decode T s = Ok w -> weak_wf w /\ weak_type w = T /\ s = [weak_layout w].
Proof.
  unfold WeakRemote_decode. destruct s as [|h [|]]; try done. intros H. codec_inv H.
  injection H as <-. zbool. assert (Hl : length h = 80%nat) by (unfold len in *; lia).
  apply location_at_spec in E as [Hwf Hloc]; [|lia]. cbn [Nat.add] in Hloc.
  fields h [(0, 16, 16); (16, 32, 16); (32, 48, 16)]%nat. split_and!; [|done|].
  - split_and!; [..|done]; unfold object_id_wf, id128_wf; cbn in *; lia.
  - f_equal. rewrite <- (slice_all 80 h Hl) at 1.
    rewrite <- (slice_join 0 16 80), <- (slice_join 16 32 80), <- (slice_join 32 48 80) by lia.
    unfold weak_layout. cbn [weak_object weak_type weak_location ObjectId_run ObjectId_unique]. congruence.
Qed.

Lemma weak_decode_layout w : weak_wf w -> WeakRemote_decode (weak_type w) [weak_layout w] = Ok w.
Proof.
  destruct w as [[run unique] t l]. intros (Ho & Ht & Hl). unfold object_id_wf, id128_wf in *.
  cbn [weak_object weak_type weak_location ObjectId_run ObjectId_unique] in *. unfold WeakRemote_decode.
  set (h := weak_layout _). assert (Hlen : length h = 80%nat) by (unfold h, weak_layout; by autorewrite with lens).
  rewrite (location_at_layout 48 l) by first [done | lia | unfold h, weak_layout; cbn [weak_object weak_type
    weak_location ObjectId_run ObjectId_unique]; by slice_eval].
  replace (len h) with 80 by (unfold len; lia). unfold h, weak_layout. cbn [weak_object weak_type
    weak_location ObjectId_run ObjectId_unique]. slice_eval.
  rewrite !from_to_le_bytes by (cbn; lia). by codec_run.
Qed.

Definition packet_layout (p : MigrationPacket) : list byte :=
  MIGRATION_MAGIC ++ to_le_bytes 1 1
  ++ to_le_bytes 8 (RequestId_origin (packet_migration p)) ++ to_le_bytes 8 (RequestId_sequence (packet_migration p))
  ++ to_le_bytes 16 (ObjectId_run (packet_object p)) ++ to_le_bytes 16 (ObjectId_unique (packet_object p))
  ++ to_le_bytes 16 (packet_type p) ++ to_le_bytes 8 (packet_authority p) ++ location_bytes (packet_from p)
  ++ to_le_bytes 8 (locality (packet_destination p)) ++ to_le_bytes 4 (RuntimeTypes.domain (packet_destination p))
  ++ to_le_bytes 4 (snapshot_version p) ++ to_le_bytes 8 (snapshot_schema p).

Lemma packet_encode_layout p : MigrationPacket_encode p = Ok (packet_layout p :: packet_snapshot p).
Proof. unfold MigrationPacket_encode, packet_layout. by rewrite <- !app_assoc. Qed.

Ltac packet_cbn :=
  cbn [packet_migration packet_object packet_type packet_authority packet_from packet_destination
    snapshot_version snapshot_schema packet_snapshot ObjectId_run ObjectId_unique RequestId_origin
    RequestId_sequence locality RuntimeTypes.domain] in *.

Lemma packet_decode_inv s p :
  MigrationPacket_decode s = Ok p -> packet_wf p /\ s = packet_layout p :: packet_snapshot p.
Proof.
  unfold MigrationPacket_decode. destruct s as [|h rest]; [done|]. intros H. codec_inv H.
  injection H as <-. zbool. eq_slices.
  assert (Hl : length h = 133%nat) by (unfold len, MIGRATION_HEADER_BYTES in *; lia).
  apply location_at_spec in E as [Hwf Hloc]; [|lia]. cbn [Nat.add] in Hloc.
  fields h [(4, 5, 1); (5, 13, 8); (13, 21, 8); (21, 37, 16); (37, 53, 16); (53, 69, 16); (69, 77, 8);
    (109, 117, 8); (117, 121, 4); (121, 125, 4); (125, 133, 8)]%nat. split.
  - unfold packet_wf, object_id_wf, id128_wf, in_u. packet_cbn. cbn in *. intuition lia.
  - packet_cbn. f_equal. rewrite <- (slice_all 133 h Hl) at 1.
    rewrite <- (slice_join 0 4 133), <- (slice_join 4 5 133), <- (slice_join 5 13 133),
      <- (slice_join 13 21 133), <- (slice_join 21 37 133), <- (slice_join 37 53 133),
      <- (slice_join 53 69 133), <- (slice_join 69 77 133), <- (slice_join 77 109 133),
      <- (slice_join 109 117 133), <- (slice_join 117 121 133), <- (slice_join 121 125 133) by lia.
    unfold packet_layout. packet_cbn. congruence.
Qed.

Lemma packet_decode_layout p :
  packet_wf p -> MigrationPacket_decode (packet_layout p :: packet_snapshot p) = Ok p.
Proof.
  destruct p as [[origin sequence] [run unique] t auth l [dl dd] v sch snap].
  unfold packet_wf, object_id_wf, id128_wf, in_u. packet_cbn. intros Hwf. unfold MigrationPacket_decode.
  set (h := packet_layout _).
  assert (Hlen : length h = 133%nat) by (unfold h, packet_layout; by autorewrite with lens).
  rewrite (location_at_layout 77 l) by first [tauto | lia | unfold h, packet_layout; packet_cbn; by slice_eval].
  replace (len h) with 133 by (unfold len; lia). unfold h, packet_layout. packet_cbn. slice_eval.
  rewrite !from_to_le_bytes by (cbn; lia). by codec_run.
Qed.

Lemma decode_location_inv display bytes l :
  decode_location display bytes = Ok l -> location_wf l /\ bytes = location_bytes l.
Proof.
  unfold decode_location. intros H. bind_inv H. fail_if_inv E. zbool.
  destruct (location_at 0 bytes) as [l'|] eqn:E; [|done]. injection H as ->.
  assert (Hl : length bytes = 32%nat) by (unfold len in *; lia).
  apply location_at_spec in E as [Hwf Hs]; [|lia]. by rewrite (slice_all 32) in Hs by lia.
Qed.

Lemma decode_location_bytes display l : location_wf l -> decode_location display (location_bytes l) = Ok l.
Proof.
  intros Hl. unfold decode_location. rewrite (location_at_layout 0 l); [|done|by rewrite length_location_bytes|].
  - unfold len. by rewrite length_location_bytes.
  - apply slice_all, length_location_bytes.
Qed.

(** C40: the codecs of remote objects are exact.  An object request is accepted
    exactly when its first segment is the encoding of an envelope with in-range
    fields, and the action's own segments follow unchanged; [inspect] reads the
    same envelope.  The same holds of the locations that creations and redirects
    carry, of weak handles (whose type must be the expected one) and of
    migration packets with their snapshots. *)
Theorem object_codecs_exact :
  (forall s e p, ObjectEnvelope_decode s = Ok (e, p) <-> envelope_wf e /\ s = ObjectEnvelope_encode e p) /\
  (forall s e, inspect s = Ok e <-> exists p, ObjectEnvelope_decode s = Ok (e, p)) /\
  (forall display b l, decode_location display b = Ok l <-> location_wf l /\ encode_location l = Ok [b]) /\
  (forall T s w, WeakRemote_decode T s = Ok w <-> weak_wf w /\ weak_type w = T /\ WeakRemote_encode w = Ok s) /\
  (forall s p, MigrationPacket_decode s = Ok p <-> packet_wf p /\ MigrationPacket_encode p = Ok s).
Proof.
  split_and!.
  - intros s e p. rewrite envelope_encode_layout. split.
    + destruct s as [|h rest]; [done|]. cbn [ObjectEnvelope_decode]. intros H. bind_inv H. bind_inv H.
      apply decode_header_inv in E0 as [Hwf ->]. by injection H as -> ->.
    + intros [Hwf ->]. cbn [ObjectEnvelope_decode]. rewrite decode_header_layout by done.
      unfold len, envelope_layout, fail_if. by autorewrite with lens.
  - intros [|h rest] e; [split; [done|by intros []]|]. change (inspect (h :: rest)) with (decode_header h).
    cbn [ObjectEnvelope_decode]. split; [intros H; exists rest|intros [p H]].
    + pose proof H as [_ ->]%decode_header_inv. rewrite H.
      unfold len, envelope_layout, fail_if. by autorewrite with lens.
    + bind_inv H. bind_inv H. by injection H as <- _.
  - intros display b l. unfold encode_location. split.
    + by intros [Hl ->]%decode_location_inv.
    + intros [Hl [= <-]]. by apply decode_location_bytes.
  - intros T s w. rewrite weak_encode_layout. split.
    + by intros (Hw & Ht & ->)%weak_decode_inv.
    + intros (Hw & <- & [= <-]). by apply weak_decode_layout.
  - intros s p. rewrite packet_encode_layout. split.
    + by intros (Hp & ->)%packet_decode_inv.
    + intros (Hp & [= <-]). by apply packet_decode_layout.
Qed.
