(* ===== verification/ObjectRegistry.v ===== *)
(** * ObjectRegistry: object types, their actions and the action identifiers they reserve

    Models [ObjectRegistry] and the type-erased state of
    [crates/hataori-runtime/src/object.rs].  A registered type is a record of
    closures over [Box<dyn Any>]; user code returns a value, an [ActionError] or
    a panic, as in [Action].

    The [Mutex] or [RwLock] around an object's state is only ever tried, never
    waited for: [lock] says who holds it, and a writer that panics poisons it. *)
From Stdlib Require Import Strings.Byte.
From S2P Require Import Prelude Text Protocol Error RuntimeTypes RuntimeWire Action ObjectWire.

Section Registry.
Context `{AnyTypes}.

(** ** Type-erased state *)

Inductive Lock : Type := Free | Readers (n : nat) | Writer.

Record ErasedState : Type := mkErased {
  erased_kind : ObjectConcurrency;
  boxed : any;
  lock : Lock;
  poisoned : bool;
}.

Definition erase (kind : ObjectConcurrency) (x : any) : ErasedState := mkErased kind x Free false.

(** [Mutex::try_lock] and [RwLock::try_write]; [RwLock::try_read]. *)
Definition try_write (s : ErasedState) : bool :=
  match lock s with Free => negb (poisoned s) | _ => false end.
Definition try_read (s : ErasedState) : bool :=
  match lock s with Writer => false | _ => negb (poisoned s) end.

(** ** Registered types *)

(** The trait [DistributedObject]. *)
Record DistributedObject : Type := mkDistributedObject {
  TYPE_ID : Z;
  object_ty : ty;
  object_wire : WireValue (sort_of object_ty);
}.

(** The traits [ObjectReadAction] and [ObjectWriteAction]; a write action also
    answers the state it leaves behind, however it ends. *)
Record ObjectReadAction (T : DistributedObject) : Type := mkObjectReadAction {
  read_ID : Z; read_ty : ty; read_output : ty;
  read_wire : WireValue (sort_of read_ty);
  read_output_wire : WireValue (sort_of read_output);
  read_execute : sort_of read_ty -> sort_of (object_ty T) -> Handled (sort_of read_output);
}.

Record ObjectWriteAction (T : DistributedObject) : Type := mkObjectWriteAction {
  write_ID : Z; write_ty : ty; write_output : ty;
  write_wire : WireValue (sort_of write_ty);
  write_output_wire : WireValue (sort_of write_output);
  write_execute : sort_of write_ty -> sort_of (object_ty T) ->
    Handled (sort_of write_output) * sort_of (object_ty T);
}.

(** The trait [MobileObject]; the context of [restore] is its destination. *)
Record MobileObject : Type := mkMobileObject {
  mobile_object : DistributedObject;
  MOBILITY : Mobility;
  SNAPSHOT_VERSION : Z;
  snapshot_ty : ty;
  snapshot_wire : WireValue (sort_of snapshot_ty);
  freeze : sort_of (object_ty mobile_object) ->
    Handled (sort_of snapshot_ty) * sort_of (object_ty mobile_object);
  restore : sort_of snapshot_ty -> Place -> Handled (sort_of (object_ty mobile_object));
}.

Definition user_error {A} (message : string) : Handled A := Err (Raise (ActionError_user (lit message))).

(** Closures over [&ErasedState] answer the state they leave behind. *)
Abbreviation Freezer := (ErasedState -> Handled Segments * ErasedState) (only parsing).
Abbreviation Restorer := (Segments -> Place -> Handled ErasedState) (only parsing).
Abbreviation ObjectHandler :=
  (Segments -> option ErasedState -> Handled Segments * option ErasedState) (only parsing).

Record ObjectActionRegistration : Type := mkObjectActionRegistration {
  action_type : Z; action_input : Z; action_output : Z;
  access : ObjectAccess;
  object_handler : ObjectHandler;
}.

Record MigrationRegistration : Type := mkMigrationRegistration {
  mig_mobility : Mobility; mig_version : Z; mig_schema : Z;
  mig_freezer : option Freezer; mig_restorer : option Restorer;
}.

Record PlacementActionRegistration : Type := mkPlacementActionRegistration {
  placement_input : Z; placement_output : Z; placement_handler : RegisteredAction;
}.

Record ObjectTypeRegistration : Type := mkObjectTypeRegistration {
  type_schema : Z;
  type_concurrency : ObjectConcurrency;
  type_mobility : Mobility;
  type_version : Z;
  type_snapshot : Z;
  decoder : Segments -> Handled ErasedState;
  local_wrapper : any -> result RuntimeError ErasedState;
  freezer : option Freezer;
  restorer : option Restorer;
}.

Record ObjectRegistry : Type := mkObjectRegistry {
  types : gmap Z ObjectTypeRegistration;
  actions : gmap ActionId ObjectActionRegistration;
  placements : gmap ActionId PlacementActionRegistration;
}.

Definition ObjectRegistry_default : ObjectRegistry := mkObjectRegistry ∅ ∅ ∅.

(** ** Reserved identifiers *)

Definition PLACEMENT_ACTION_MASK : Z := 0xc4ea7e03000000000000000000000000.
Definition CREATE_ACTION_MASK : Z := 0xc4ea7e00000000000000000000000000.
Definition LOCATION_SCHEMA_ID : Z := 3.
Definition LEASE_RENEW_ACTION_ID : Z := 0xc4ea7e01000000000000000000000001.
Definition LEASE_RELEASE_ACTION_ID : Z := 0xc4ea7e01000000000000000000000002.
Definition LEASE_ACQUIRE_ACTION_ID : Z := 0xc4ea7e01000000000000000000000003.
Definition ROOT_RELEASE_ACTION_ID : Z := 0xc4ea7e01000000000000000000000004.
Definition TRANSFER_ACK_ACTION_ID : Z := 0xc4ea7e01000000000000000000000005.
Definition MIGRATION_SCHEMA_ID : Z := 0x484d4947.
Definition MIGRATION_FREEZE_ACTION_ID : Z := 0xc4ea7e02000000000000000000000001.
Definition MIGRATION_PREPARE_ACTION_ID : Z := 0xc4ea7e02000000000000000000000002.
Definition MIGRATION_COMMIT_ACTION_ID : Z := 0xc4ea7e02000000000000000000000003.
Definition MIGRATION_ACTIVATE_ACTION_ID : Z := 0xc4ea7e02000000000000000000000004.
Definition MIGRATION_ROLLBACK_ACTION_ID : Z := 0xc4ea7e02000000000000000000000005.
Definition MIGRATION_RETIRE_ACTION_ID : Z := 0xc4ea7e02000000000000000000000006.

Definition placement_action_id (action : ActionId) : result RuntimeError ActionId :=
  map_err (fun _ => RuntimeError_InvalidActionId) (ActionId_new (Z.lxor action PLACEMENT_ACTION_MASK)).

Definition create_action_id (object_type : Z) : result RuntimeError ActionId :=
  map_err (fun _ => RuntimeError_InvalidActionId) (ActionId_new (Z.lxor object_type CREATE_ACTION_MASK)).

Definition reserved_ids : list ActionId :=
  [LEASE_RENEW_ACTION_ID; LEASE_RELEASE_ACTION_ID; LEASE_ACQUIRE_ACTION_ID; ROOT_RELEASE_ACTION_ID;
   TRANSFER_ACK_ACTION_ID; MIGRATION_FREEZE_ACTION_ID; MIGRATION_PREPARE_ACTION_ID;
   MIGRATION_COMMIT_ACTION_ID; MIGRATION_ACTIVATE_ACTION_ID; MIGRATION_ROLLBACK_ACTION_ID;
   MIGRATION_RETIRE_ACTION_ID].

Definition creates (id : ActionId) (object_type : Z) : bool :=
  match create_action_id object_type with Ok create => create =? id | Err _ => false end.

Definition reserves_action (r : ObjectRegistry) (id : ActionId) : bool :=
  bool_decide (id ∈ reserved_ids)
  || bool_decide (is_Some (actions r !! id))
  || bool_decide (is_Some (placements r !! id))
  || existsb (creates id) (btree_keys (types r)).

(** ** Registration of types *)

Definition object_type_id (raw : Z) : result RuntimeError Z :=
  map_err (fun _ => RuntimeError_InvalidObjectTypeId) (ObjectTypeId_new raw).

Definition register_type (T : DistributedObject) (kind : ObjectConcurrency) (m : MigrationRegistration)
    (decode : Segments -> Handled ErasedState) (wrap : any -> result RuntimeError ErasedState) :
    M ObjectRegistry RuntimeError unit :=
  id ← lift (object_type_id (TYPE_ID T));
  let schema := @SCHEMA_ID _ (object_wire T) in
  if schema =? 0 then raise RuntimeError_InvalidSchema else
  r ← gets (fun r => r);
  if bool_decide (is_Some (types r !! id)) then raise (RuntimeError_DuplicateObjectType id) else
  create ← lift (create_action_id id);
  if reserves_action r create then raise (RuntimeError_DuplicateAction create) else
  modify (fun r => mkObjectRegistry
    (<[id := mkObjectTypeRegistration schema kind (mig_mobility m) (mig_version m) (mig_schema m)
               decode wrap (mig_freezer m) (mig_restorer m)]> (types r))
    (actions r) (placements r)).

(** The closures every registration of a type passes. *)
Definition decode_state (T : DistributedObject) (kind : ObjectConcurrency) (segments : Segments) :
    Handled ErasedState :=
  v ← @wire_decode _ (object_wire T) segments; Ok (erase kind (Any (object_ty T) v)).

Definition wrap_state (T : DistributedObject) (kind : ObjectConcurrency) (x : any) :
    result RuntimeError ErasedState :=
  v ← ok_or (downcast (object_ty T) x) (RuntimeError_UnknownObjectType (TYPE_ID T));
  Ok (erase kind (Any (object_ty T) v)).

Definition pinned : MigrationRegistration := mkMigrationRegistration Pinned 0 0 None None.

Definition register_exclusive (T : DistributedObject) : M ObjectRegistry RuntimeError unit :=
  register_type T Exclusive pinned (decode_state T Exclusive) (wrap_state T Exclusive).
Definition register_read_write (T : DistributedObject) : M ObjectRegistry RuntimeError unit :=
  register_type T ReadWrite pinned (decode_state T ReadWrite) (wrap_state T ReadWrite).

Definition validate_mobile (T : MobileObject) : result RuntimeError unit :=
  if bool_decide (MOBILITY T = Pinned) then
    id ← object_type_id (TYPE_ID (mobile_object T)); Err (RuntimeError_PinnedObjectType id)
  else fail_if ((SNAPSHOT_VERSION T =? 0) || (@SCHEMA_ID _ (snapshot_wire T) =? 0))
         RuntimeError_InvalidSchema.

(** The freezer holds the lock while it runs; a panic poisons it. *)
Definition freeze_state (T : MobileObject) (kind : ObjectConcurrency) (s : ErasedState) :
    Handled Segments * ErasedState :=
  if bool_decide (erased_kind s <> kind) then (user_error "object concurrency mismatch", s) else
  if negb (try_write s) then (user_error "object admission saturated", s) else
  match downcast (object_ty (mobile_object T)) (boxed s) with
  | None => (user_error "object type mismatch", s)
  | Some typed =>
      let '(r, typed') := freeze T typed in
      let r := v ← r; @wire_encode _ (snapshot_wire T) v in
      (r, mkErased (erased_kind s) (Any _ typed') (lock s)
            (match r with Err Panic => true | _ => poisoned s end))
  end.

Definition restore_state (T : MobileObject) (kind : ObjectConcurrency) (segments : Segments) (p : Place) :
    Handled ErasedState :=
  v ← @wire_decode _ (snapshot_wire T) segments;
  state ← restore T v p;
  Ok (erase kind (Any (object_ty (mobile_object T)) state)).

Definition register_mobile (kind : ObjectConcurrency) (T : MobileObject) : M ObjectRegistry RuntimeError unit :=
  lift (validate_mobile T);;
  register_type (mobile_object T) kind
    (mkMigrationRegistration (MOBILITY T) (SNAPSHOT_VERSION T) (@SCHEMA_ID _ (snapshot_wire T))
       (Some (freeze_state T kind)) (Some (restore_state T kind)))
    (decode_state (mobile_object T) kind) (wrap_state (mobile_object T) kind).

Definition register_mobile_exclusive : MobileObject -> M ObjectRegistry RuntimeError unit :=
  register_mobile Exclusive.
Definition register_mobile_read_write : MobileObject -> M ObjectRegistry RuntimeError unit :=
  register_mobile ReadWrite.

(** ** Registration of actions *)

Definition require_type (T : DistributedObject) (kind : ObjectConcurrency) (r : ObjectRegistry) :
    result RuntimeError Z :=
  id ← object_type_id (TYPE_ID T);
  registration ← ok_or (types r !! id) (RuntimeError_UnknownObjectType id);
  fail_if (bool_decide (type_concurrency registration <> kind)) RuntimeError_InvalidObjectConcurrency;;
  Ok id.

Definition insert_action (raw input output object_type : Z) (a : ObjectAccess) (h : ObjectHandler) :
    M ObjectRegistry RuntimeError unit :=
  id ← lift (map_err (fun _ => RuntimeError_InvalidActionId) (ActionId_new raw));
  r ← gets (fun r => r);
  if (input =? 0) || (output =? 0) || reserves_action r id then raise (RuntimeError_DuplicateAction id) else
  modify (fun r => mkObjectRegistry (types r)
    (<[id := mkObjectActionRegistration object_type input output a h]> (actions r)) (placements r)).

(** The handler of a read action.  A panic does not poison a lock held for
    reading. *)
Definition read_handler (T : DistributedObject) (A : ObjectReadAction T) : ObjectHandler := fun input state =>
  (action ← @wire_decode _ (read_wire T A) input;
   s ← ok_or state (Raise (ActionError_user (lit "object moved")));
   if bool_decide (erased_kind s = Exclusive) then user_error "object does not admit reads" else
   if negb (try_read s) then user_error "object admission saturated" else
   typed ← ok_or (downcast (object_ty T) (boxed s)) (Raise (ActionError_user (lit "object type mismatch")));
   output ← read_execute T A action typed;
   @wire_encode _ (read_output_wire T A) output,
   state).

(** The output is encoded while the lock is still held. *)
Definition write_handler (T : DistributedObject) (A : ObjectWriteAction T) : ObjectHandler := fun input state =>
  match @wire_decode _ (write_wire T A) input with
  | Err e => (Err e, state)
  | Ok action =>
  match state with
  | None => (user_error "object moved", state)
  | Some s =>
      if negb (try_write s) then (user_error "object admission saturated", state) else
      match downcast (object_ty T) (boxed s) with
      | None => (user_error "object type mismatch", state)
      | Some typed =>
          let '(r, typed') := write_execute T A action typed in
          let r := output ← r; @wire_encode _ (write_output_wire T A) output in
          (r, Some (mkErased (erased_kind s) (Any _ typed') (lock s)
                      (match r with Err Panic => true | _ => poisoned s end)))
      end
  end
  end.

Definition register_read (T : DistributedObject) (A : ObjectReadAction T) : M ObjectRegistry RuntimeError unit :=
  r ← gets (fun r => r);
  object_type ← lift (require_type T ReadWrite r);
  insert_action (read_ID T A) (@SCHEMA_ID _ (read_wire T A)) (@SCHEMA_ID _ (read_output_wire T A))
    object_type Access_Read (read_handler T A).

Definition register_write (T : DistributedObject) (A : ObjectWriteAction T) : M ObjectRegistry RuntimeError unit :=
  object_type ← lift (object_type_id (TYPE_ID T));
  r ← gets (fun r => r);
  if negb (bool_decide (is_Some (types r !! object_type)))
  then raise (RuntimeError_UnknownObjectType object_type) else
  insert_action (write_ID T A) (@SCHEMA_ID _ (write_wire T A)) (@SCHEMA_ID _ (write_output_wire T A))
    object_type Access_Write (write_handler T A).

Definition register_placement (A : Action) (h : RegisteredAction) : M ObjectRegistry RuntimeError ActionId :=
  action ← lift (map_err (fun _ => RuntimeError_InvalidActionId) (ActionId_new (ID A)));
  id ← lift (placement_action_id action);
  r ← gets (fun r => r);
  let input := @SCHEMA_ID _ (action_wire A) in
  let output := @SCHEMA_ID _ (output_wire A) in
  if (input =? 0) || (output =? 0) || reserves_action r id then raise (RuntimeError_DuplicateAction id) else
  modify (fun r => mkObjectRegistry (types r) (actions r)
    (<[id := mkPlacementActionRegistration input output h]> (placements r)));;
  mret id.

(** ** Installation *)

(** The closures over the object service that [install] registers. *)
Record ServiceHandlers : Type := mkServiceHandlers {
  control_handler : ActionId -> RegisteredAction;
  create_handler : Z -> RegisteredAction;
  action_handler : ActionId -> RegisteredAction;
}.

(** The handler of a placement action strips the envelope. *)
Definition colocated_handler (h : RegisteredAction) : RegisteredAction :=
  RegisteredAction_new (fun segments =>
    '(_, payload) ← map_err Raise (ObjectEnvelope_decode segments);
    map_err Raise (execute_encoded h payload)).

(** The entries of a [BTreeMap], in order. *)
Definition btree_entries {A} (m : gmap Z A) : list (Z * A) :=
  btree_keys m ≫= fun k => match m !! k with Some x => [(k, x)] | None => [] end.

Definition lease_control_ids : list ActionId :=
  [LEASE_RENEW_ACTION_ID; LEASE_RELEASE_ACTION_ID; LEASE_ACQUIRE_ACTION_ID; ROOT_RELEASE_ACTION_ID;
   TRANSFER_ACK_ACTION_ID].
Definition migration_ids : list ActionId :=
  [MIGRATION_FREEZE_ACTION_ID; MIGRATION_PREPARE_ACTION_ID; MIGRATION_COMMIT_ACTION_ID;
   MIGRATION_ACTIVATE_ACTION_ID; MIGRATION_ROLLBACK_ACTION_ID; MIGRATION_RETIRE_ACTION_ID].

Definition install (r : ObjectRegistry) (service : ServiceHandlers) : M ActionRegistry RuntimeError unit :=
  for_each (fun id => insert_erased id 1 1 (control_handler service id)) lease_control_ids;;
  for_each (fun id => insert_erased id MIGRATION_SCHEMA_ID MIGRATION_SCHEMA_ID (control_handler service id))
    migration_ids;;
  for_each (fun '(object_type, registration) =>
              create ← lift (create_action_id object_type);
              insert_erased create (type_schema registration) LOCATION_SCHEMA_ID
                (create_handler service object_type))
    (btree_entries (types r));;
  for_each (fun '(id, registration) =>
              insert_erased id (placement_input registration) (placement_output registration)
                (colocated_handler (placement_handler registration)))
    (btree_entries (placements r));;
  for_each (fun '(id, registration) =>
              insert_erased id (action_input registration) (action_output registration)
                (action_handler service id))
    (btree_entries (actions r)).

(** ** The fingerprint *)

Definition hash_bytes (hashes : list Z) (bytes : list byte) : list Z := foldl hash_byte hashes bytes.

Definition type_bytes (id : Z) (x : ObjectTypeRegistration) : list byte :=
  to_le_bytes 16 id ++ to_le_bytes 8 (type_schema x)
  ++ [byte_of (ObjectConcurrency_code (type_concurrency x))] ++ [byte_of (Mobility_code (type_mobility x))]
  ++ to_le_bytes 4 (type_version x) ++ to_le_bytes 8 (type_snapshot x).
Definition placement_bytes (id : ActionId) (x : PlacementActionRegistration) : list byte :=
  to_le_bytes 16 id ++ to_le_bytes 8 (placement_input x) ++ to_le_bytes 8 (placement_output x).
Definition action_bytes (id : ActionId) (x : ObjectActionRegistration) : list byte :=
  to_le_bytes 16 id ++ to_le_bytes 16 (action_type x) ++ to_le_bytes 8 (action_input x)
  ++ to_le_bytes 8 (action_output x) ++ [byte_of (ObjectAccess_code (access x))].

Definition ObjectRegistry_fingerprint (r : ObjectRegistry) : list byte :=
  let hashes := SEEDS in
  let hashes := foldl (fun h '(id, x) => hash_bytes h (type_bytes id x)) hashes (btree_entries (types r)) in
  let hashes := foldl (fun h '(id, x) => hash_bytes h (placement_bytes id x)) hashes
                  (btree_entries (placements r)) in
  let hashes := foldl (fun h '(id, x) => hash_bytes h (action_bytes id x)) hashes
                  (btree_entries (actions r)) in
  hashes ≫= to_le_bytes 8.
End Registry.
