(* ===== verification/Objects.v ===== *)
(** * Objects: the object service of a locality

    Models [ObjectService] of [crates/hataori-runtime/src/object.rs]: the entries
    of the objects a locality stores or is the authority of, their leases, roots
    and transfers, the admission of calls, collection, and the calls on local
    objects.  The steps of a migration are in [Migration].

    A method takes several locks in turn; here it is one computation on the
    service, so the theorems are about methods called one after another.
    Instants are integers.  Counts of things that exist ([readers], [roots],
    [in_flight], [placement_tickets]) are [nat]; the service-wide counters are
    atomics and wrap around.  Where the code iterates over a [HashMap], the order
    is an argument. *)
From Stdlib Require Import Strings.Byte.
From S2P Require Import Prelude Text Protocol Error RuntimeTypes RuntimeWire Action Domain ObjectWire ObjectRegistry.

(** ** Data *)

Record LeaseRecord : Type := mkLeaseRecord { expires_at : Z; suspect_since : option Z }.

Inductive MigrationOutcome : Type := Completed | RolledBack | Failed.

Inductive ObjectLifecycle : Type :=
| Resident
| Freezing (migration : RequestId) (expires : Z)
| Prepared (migration : RequestId) (expires : Z)
| Forwarding (location : ObjectLocation) (expires : Z)
| Retiring (location : ObjectLocation).

Record Retirement : Type := mkRetirement {
  ret_object : ObjectId; ret_type : Z; ret_authority : LocalityId; ret_location : ObjectLocation;
  ret_version : Z; ret_schema : Z;
}.

(** The fields of [RuntimeStats::objects]. *)
Record ObjectStats : Type := mkObjectStats {
  live_objects : nat; stat_leases : nat; suspect_leases : nat; stat_roots : nat;
  queued_calls : nat; in_flight_calls : nat; stat_placement_tickets : Z;
  resolver_entries : nat; resolver_bytes : Z; stat_transfers : Z; stat_active_migrations : nat; prepared_migrations : Z;
  forwarding_entries : nat; migration_snapshot_bytes : Z; transferred_snapshot_bytes : Z;
  stat_completed : Z; stat_rolled_back : Z; stat_failed : Z; stat_local_calls : Z; stat_remote_calls : Z;
}.

Section Objects.
Context `{AnyTypes}.

Record Admission : Type := mkAdmission { readers : nat; writer : bool; queue : list ActionJob }.

Record PreparedState : Type := mkPreparedState {
  prep_migration : RequestId; prep_location : ObjectLocation; prep_state : ErasedState;
  prep_bytes : Z; prep_expires : Z;
}.

Record ObjectEntry : Type := mkObjectEntry {
  entry_type : Z;
  authority : LocalityId;
  location : ObjectLocation;
  state : option ErasedState;
  lifecycle : ObjectLifecycle;
  prepared : option PreparedState;
  snapshot_bytes : Z;
  leases : gmap LocalityId LeaseRecord;
  roots : nat;
  in_flight : nat;
  placement_tickets : nat;
  admission : Admission;
}.

Definition set_location (v : ObjectLocation) (s : ObjectEntry) : ObjectEntry :=
  mkObjectEntry (entry_type s) (authority s) v (state s) (lifecycle s) (prepared s) (snapshot_bytes s)
    (leases s) (roots s) (in_flight s) (placement_tickets s) (admission s).
Definition set_state (v : option ErasedState) (s : ObjectEntry) : ObjectEntry :=
  mkObjectEntry (entry_type s) (authority s) (location s) v (lifecycle s) (prepared s) (snapshot_bytes
    s) (leases s) (roots s) (in_flight s) (placement_tickets s) (admission s).
Definition set_lifecycle (v : ObjectLifecycle) (s : ObjectEntry) : ObjectEntry :=
  mkObjectEntry (entry_type s) (authority s) (location s) (state s) v (prepared s) (snapshot_bytes s)
    (leases s) (roots s) (in_flight s) (placement_tickets s) (admission s).
Definition set_prepared (v : option PreparedState) (s : ObjectEntry) : ObjectEntry :=
  mkObjectEntry (entry_type s) (authority s) (location s) (state s) (lifecycle s) v (snapshot_bytes s)
    (leases s) (roots s) (in_flight s) (placement_tickets s) (admission s).
Definition set_snapshot_bytes (v : Z) (s : ObjectEntry) : ObjectEntry :=
  mkObjectEntry (entry_type s) (authority s) (location s) (state s) (lifecycle s) (prepared s) v (leases
    s) (roots s) (in_flight s) (placement_tickets s) (admission s).
Definition set_leases (v : gmap LocalityId LeaseRecord) (s : ObjectEntry) : ObjectEntry :=
  mkObjectEntry (entry_type s) (authority s) (location s) (state s) (lifecycle s) (prepared s)
    (snapshot_bytes s) v (roots s) (in_flight s) (placement_tickets s) (admission s).
Definition set_roots (v : nat) (s : ObjectEntry) : ObjectEntry :=
  mkObjectEntry (entry_type s) (authority s) (location s) (state s) (lifecycle s) (prepared s)
    (snapshot_bytes s) (leases s) v (in_flight s) (placement_tickets s) (admission s).
Definition set_in_flight (v : nat) (s : ObjectEntry) : ObjectEntry :=
  mkObjectEntry (entry_type s) (authority s) (location s) (state s) (lifecycle s) (prepared s)
    (snapshot_bytes s) (leases s) (roots s) v (placement_tickets s) (admission s).
Definition set_placement_tickets (v : nat) (s : ObjectEntry) : ObjectEntry :=
  mkObjectEntry (entry_type s) (authority s) (location s) (state s) (lifecycle s) (prepared s)
    (snapshot_bytes s) (leases s) (roots s) (in_flight s) v (admission s).
Definition set_admission (v : Admission) (s : ObjectEntry) : ObjectEntry :=
  mkObjectEntry (entry_type s) (authority s) (location s) (state s) (lifecycle s) (prepared s)
    (snapshot_bytes s) (leases s) (roots s) (in_flight s) (placement_tickets s) v.

Record ObjectService : Type := mkObjectService {
  run_id : RunId;
  local_id : LocalityId;
  limits : ObjectLimits;
  registry : ObjectRegistry;
  entries : gmap ObjectId ObjectEntry;
  next_slot : Z;
  resolver : gmap ObjectId ObjectLocation * list ObjectId;
  local_calls : Z;
  remote_calls : Z;
  root_count : Z;
  transfer_count : Z;
  placement_count : Z;
  pending_transfers : gset (ObjectId * LocalityId);
  active_migrations : gset RequestId;
  prepared_count : Z;
  completed_migrations : Z;
  rolled_back_migrations : Z;
  failed_migrations : Z;
  migrated_bytes : Z;
  retirements : list Retirement;
}.

Definition set_entries (v : gmap ObjectId ObjectEntry) (s : ObjectService) : ObjectService :=
  mkObjectService (run_id s) (local_id s) (limits s) (registry s) v (next_slot s) (resolver s)
    (local_calls s) (remote_calls s) (root_count s) (transfer_count s) (placement_count s)
    (pending_transfers s) (active_migrations s) (prepared_count s) (completed_migrations s)
    (rolled_back_migrations s) (failed_migrations s) (migrated_bytes s) (retirements s).
Definition set_next_slot (v : Z) (s : ObjectService) : ObjectService :=
  mkObjectService (run_id s) (local_id s) (limits s) (registry s) (entries s) v (resolver s)
    (local_calls s) (remote_calls s) (root_count s) (transfer_count s) (placement_count s)
    (pending_transfers s) (active_migrations s) (prepared_count s) (completed_migrations s)
    (rolled_back_migrations s) (failed_migrations s) (migrated_bytes s) (retirements s).
Definition set_resolver (v : gmap ObjectId ObjectLocation * list ObjectId) (s : ObjectService) :
    ObjectService :=
  mkObjectService (run_id s) (local_id s) (limits s) (registry s) (entries s) (next_slot s) v
    (local_calls s) (remote_calls s) (root_count s) (transfer_count s) (placement_count s)
    (pending_transfers s) (active_migrations s) (prepared_count s) (completed_migrations s)
    (rolled_back_migrations s) (failed_migrations s) (migrated_bytes s) (retirements s).
Definition set_local_calls (v : Z) (s : ObjectService) : ObjectService :=
  mkObjectService (run_id s) (local_id s) (limits s) (registry s) (entries s) (next_slot s) (resolver s)
    v (remote_calls s) (root_count s) (transfer_count s) (placement_count s) (pending_transfers s)
    (active_migrations s) (prepared_count s) (completed_migrations s) (rolled_back_migrations s)
    (failed_migrations s) (migrated_bytes s) (retirements s).
Definition set_remote_calls (v : Z) (s : ObjectService) : ObjectService :=
  mkObjectService (run_id s) (local_id s) (limits s) (registry s) (entries s) (next_slot s) (resolver s)
    (local_calls s) v (root_count s) (transfer_count s) (placement_count s) (pending_transfers s)
    (active_migrations s) (prepared_count s) (completed_migrations s) (rolled_back_migrations s)
    (failed_migrations s) (migrated_bytes s) (retirements s).
Definition set_root_count (v : Z) (s : ObjectService) : ObjectService :=
  mkObjectService (run_id s) (local_id s) (limits s) (registry s) (entries s) (next_slot s) (resolver s)
    (local_calls s) (remote_calls s) v (transfer_count s) (placement_count s) (pending_transfers s)
    (active_migrations s) (prepared_count s) (completed_migrations s) (rolled_back_migrations s)
    (failed_migrations s) (migrated_bytes s) (retirements s).
Definition set_transfer_count (v : Z) (s : ObjectService) : ObjectService :=
  mkObjectService (run_id s) (local_id s) (limits s) (registry s) (entries s) (next_slot s) (resolver s)
    (local_calls s) (remote_calls s) (root_count s) v (placement_count s) (pending_transfers s)
    (active_migrations s) (prepared_count s) (completed_migrations s) (rolled_back_migrations s)
    (failed_migrations s) (migrated_bytes s) (retirements s).
Definition set_placement_count (v : Z) (s : ObjectService) : ObjectService :=
  mkObjectService (run_id s) (local_id s) (limits s) (registry s) (entries s) (next_slot s) (resolver s)
    (local_calls s) (remote_calls s) (root_count s) (transfer_count s) v (pending_transfers s)
    (active_migrations s) (prepared_count s) (completed_migrations s) (rolled_back_migrations s)
    (failed_migrations s) (migrated_bytes s) (retirements s).
Definition set_pending_transfers (v : gset (ObjectId * LocalityId)) (s : ObjectService) : ObjectService
    :=
  mkObjectService (run_id s) (local_id s) (limits s) (registry s) (entries s) (next_slot s) (resolver s)
    (local_calls s) (remote_calls s) (root_count s) (transfer_count s) (placement_count s) v
    (active_migrations s) (prepared_count s) (completed_migrations s) (rolled_back_migrations s)
    (failed_migrations s) (migrated_bytes s) (retirements s).
Definition set_active_migrations (v : gset RequestId) (s : ObjectService) : ObjectService :=
  mkObjectService (run_id s) (local_id s) (limits s) (registry s) (entries s) (next_slot s) (resolver s)
    (local_calls s) (remote_calls s) (root_count s) (transfer_count s) (placement_count s)
    (pending_transfers s) v (prepared_count s) (completed_migrations s) (rolled_back_migrations s)
    (failed_migrations s) (migrated_bytes s) (retirements s).
Definition set_prepared_count (v : Z) (s : ObjectService) : ObjectService :=
  mkObjectService (run_id s) (local_id s) (limits s) (registry s) (entries s) (next_slot s) (resolver s)
    (local_calls s) (remote_calls s) (root_count s) (transfer_count s) (placement_count s)
    (pending_transfers s) (active_migrations s) v (completed_migrations s) (rolled_back_migrations s)
    (failed_migrations s) (migrated_bytes s) (retirements s).
Definition set_completed_migrations (v : Z) (s : ObjectService) : ObjectService :=
  mkObjectService (run_id s) (local_id s) (limits s) (registry s) (entries s) (next_slot s) (resolver s)
    (local_calls s) (remote_calls s) (root_count s) (transfer_count s) (placement_count s)
    (pending_transfers s) (active_migrations s) (prepared_count s) v (rolled_back_migrations s)
    (failed_migrations s) (migrated_bytes s) (retirements s).
Definition set_rolled_back_migrations (v : Z) (s : ObjectService) : ObjectService :=
  mkObjectService (run_id s) (local_id s) (limits s) (registry s) (entries s) (next_slot s) (resolver s)
    (local_calls s) (remote_calls s) (root_count s) (transfer_count s) (placement_count s)
    (pending_transfers s) (active_migrations s) (prepared_count s) (completed_migrations s) v
    (failed_migrations s) (migrated_bytes s) (retirements s).
Definition set_failed_migrations (v : Z) (s : ObjectService) : ObjectService :=
  mkObjectService (run_id s) (local_id s) (limits s) (registry s) (entries s) (next_slot s) (resolver s)
    (local_calls s) (remote_calls s) (root_count s) (transfer_count s) (placement_count s)
    (pending_transfers s) (active_migrations s) (prepared_count s) (completed_migrations s)
    (rolled_back_migrations s) v (migrated_bytes s) (retirements s).
Definition set_migrated_bytes (v : Z) (s : ObjectService) : ObjectService :=
  mkObjectService (run_id s) (local_id s) (limits s) (registry s) (entries s) (next_slot s) (resolver s)
    (local_calls s) (remote_calls s) (root_count s) (transfer_count s) (placement_count s)
    (pending_transfers s) (active_migrations s) (prepared_count s) (completed_migrations s)
    (rolled_back_migrations s) (failed_migrations s) v (retirements s).
Definition set_retirements (v : list Retirement) (s : ObjectService) : ObjectService :=
  mkObjectService (run_id s) (local_id s) (limits s) (registry s) (entries s) (next_slot s) (resolver s)
    (local_calls s) (remote_calls s) (root_count s) (transfer_count s) (placement_count s)
    (pending_transfers s) (active_migrations s) (prepared_count s) (completed_migrations s)
    (rolled_back_migrations s) (failed_migrations s) (migrated_bytes s) v.

Definition ObjectService_new (run : RunId) (local : LocalityId) (l : ObjectLimits) (r : ObjectRegistry) :
    ObjectService :=
  mkObjectService run local l r ∅ 1 (∅, []) 0 0 0 0 0 ∅ ∅ 0 0 0 0 0 [].

(** ** Building blocks *)

Definition update_entry {E} (o : ObjectId) (f : ObjectEntry -> ObjectEntry) : M ObjectService E unit :=
  modify (fun s => set_entries (alter f o (entries s)) s).

Definition set_readers (n : nat) (a : Admission) : Admission := mkAdmission n (writer a) (queue a).
Definition set_writer (b : bool) (a : Admission) : Admission := mkAdmission (readers a) b (queue a).
Definition set_queue (q : list ActionJob) (a : Admission) : Admission := mkAdmission (readers a) (writer a) q.

(** [fetch_update(|n| (n < limit).then_some(n + 1))]. *)
Definition fetch_increment (limit n : Z) : option Z := if n <? limit then Some (n + 1) else None.
(** [fetch_sub]. *)
Definition fetch_sub (n k : Z) : Z := wrapping_sub 64 n k.

Definition is_resident (l : ObjectLifecycle) : bool := match l with Resident => true | _ => false end.
Definition is_forwarding (l : ObjectLifecycle) : bool :=
  match l with Forwarding _ _ | Retiring _ => true | _ => false end.

(** [ObjectEntry::resident_state]. *)
Definition resident_state (e : ObjectEntry) : result ActionError ErasedState :=
  ok_or (state e) (ActionError_user (lit "object moved")).

(** ** The resolver *)

Definition cache_location {E} (o : ObjectId) (l : ObjectLocation) : M ObjectService E unit :=
  modify (fun s =>
    let '(m, q) := resolver s in
    let '(m, q) :=
      if bool_decide (is_Some (m !! o)) then (m, q)
      else
        let '(m, q) :=
          if max_resolver_entries (limits s) <=? Z.of_nat (size m)
          then match q with oldest :: q' => (delete oldest m, q') | [] => (m, q) end
          else (m, q) in
        (m, q ++ [o]) in
    set_resolver (<[o := l]> m, q) s).

Definition resolve (o : ObjectId) (s : ObjectService) : option ObjectLocation :=
  match (resolver s).1 !! o with
  | Some l => Some l
  | None => location <$> entries s !! o
  end.

Definition clear_resolver {E} : M ObjectService E unit := modify (set_resolver (∅, [])).

Definition clear_all {E} : M ObjectService E unit :=
  modify (set_entries ∅);;
  modify (set_root_count 0);;
  modify (set_transfer_count 0);;
  modify (set_placement_count 0);;
  modify (set_pending_transfers ∅);;
  modify (set_active_migrations ∅);;
  modify (set_prepared_count 0);;
  modify (set_retirements []);;
  clear_resolver.

(** Both entries of the resolver's map and of the store are dropped; the
    resolver's queue is left alone. *)
Definition forget {E} (o : ObjectId) : M ObjectService E unit :=
  modify (fun s => set_entries (delete o (entries s)) s);;
  modify (fun s => set_resolver (delete o (resolver s).1, (resolver s).2) s).

(** ** Collection *)

Definition idle_entry (e : ObjectEntry) : bool :=
  bool_decide (in_flight e = 0%nat) && bool_decide (placement_tickets e = 0%nat)
  && bool_decide (queue (admission e) = []) && bool_decide (prepared e = None).

Definition collect {E} (o : ObjectId) : M ObjectService E unit :=
  s ← gets (fun s => s);
  match entries s !! o with
  | None => mret tt
  | Some e =>
      if negb (idle_entry e) then mret tt else
      if negb (authority e =? local_id s) then
        mwhen (is_forwarding (lifecycle e) && bool_decide (state e = None)) (forget o)
      else
      if negb (bool_decide (leases e = ∅)) || negb (bool_decide (roots e = 0%nat)) then mret tt else
      match lifecycle e with
      | Resident => mwhen (bool_decide (is_Some (state e))) (forget o)
      | Forwarding l _ =>
          if bool_decide (is_Some (state e)) then mret tt else
          if ObjectLocation_locality l =? local_id s then forget o else
          match types (registry s) !! entry_type e with
          | None => panic
          | Some registration =>
              if max_migrations (limits s) <=? Z.of_nat (length (retirements s)) then mret tt else
              update_entry o (set_lifecycle (Retiring l));;
              modify (fun s => set_retirements (retirements s ++
                [mkRetirement o (entry_type e) (authority e) l (type_version registration)
                   (type_snapshot registration)]) s)
          end
      | _ => mret tt
      end
  end.

(** ** Leases, roots and transfers *)

(** [HashMap::len]. *)
Definition map_len {K A} `{Countable K} (m : gmap K A) : Z := Z.of_nat (size m).

Definition insert (env : ObjectEnvelope) (st : ErasedState) (now : Z) :
    M ObjectService ActionError ObjectLocation :=
  let o := env_object env in
  s ← gets (fun s => s);
  if max_objects (limits s) <=? map_len (entries s) then raise (ActionError_user (lit "object store is full")) else
  if bool_decide (is_Some (entries s !! o)) then raise (ActionError_user (lit "duplicate object id")) else
  let current := next_slot s in
  slot ← lift (ok_or (checked_add u64_max current 1) (ActionError_user (lit "object slot overflow")));
  modify (set_next_slot slot);;
  l ← lift (map_err (fun _ => ActionError_user (lit "invalid object location"))
              (ObjectLocation_new (local_id s) (env_domain env) current 1 1));
  (if rooted env then
     match fetch_increment (max_roots (limits s)) (root_count s) with
     | Some n => modify (set_root_count n)
     | None => raise (ActionError_user (lit "object root limit reached"))
     end
   else mret tt);;
  modify (fun s => set_entries
    (<[o := mkObjectEntry (env_type env) (local_id s) l (Some st) Resident None 0
              {[lease_locality env := mkLeaseRecord (now + lease_ttl (limits s)) None]}
              (if rooted env then 1 else 0) 0 0 (mkAdmission 0 false [])]> (entries s)) s);;
  cache_location o l;;
  mret l.

Definition acquire {E} (o : ObjectId) (l : LocalityId) (now : Z) : M ObjectService E bool :=
  s ← gets (fun s => s);
  match entries s !! o with
  | None => mret false
  | Some e =>
      if (max_local_leases (limits s) <=? map_len (leases e))
         && negb (bool_decide (is_Some (leases e !! l))) then mret false
      else
        update_entry o (set_leases (<[l := mkLeaseRecord (now + lease_ttl (limits s)) None]> (leases e)));;
        mret true
  end.

Definition ack_transfer {E} (o : ObjectId) (l : LocalityId) : M ObjectService E bool :=
  pending ← gets pending_transfers;
  if bool_decide ((o, l) ∈ pending) then
    modify (fun s => set_pending_transfers (pending_transfers s ∖ {[(o, l)]}) s);;
    modify (fun s => set_transfer_count (fetch_sub (transfer_count s) 1) s);;
    mret true
  else mret false.

Definition begin_transfer {E} (o : ObjectId) (l : LocalityId) (now : Z) : M ObjectService E bool :=
  s ← gets (fun s => s);
  if match entries s !! o with None => true | Some e => bool_decide (is_Some (leases e !! l)) end
  then mret false else
  if bool_decide ((o, l) ∈ pending_transfers s) then mret false else
  match fetch_increment (max_transfers (limits s)) (transfer_count s) with
  | None => mret false
  | Some n =>
      modify (set_transfer_count n);;
      modify (fun s => set_pending_transfers ({[(o, l)]} ∪ pending_transfers s) s);;
      acquired ← acquire o l now;
      if acquired : bool then mret true
      else
        modify (fun s => set_pending_transfers (pending_transfers s ∖ {[(o, l)]}) s);;
        modify (fun s => set_transfer_count (fetch_sub (transfer_count s) 1) s);;
        mret false
  end.

Definition release_root {E} (o : ObjectId) : M ObjectService E bool :=
  s ← gets (fun s => s);
  match entries s !! o with
  | None => mret false
  | Some e =>
      if bool_decide (roots e = 0%nat) then mret false
      else
        update_entry o (set_roots (pred (roots e)));;
        modify (fun s => set_root_count (fetch_sub (root_count s) 1) s);;
        collect o;;
        mret true
  end.

Definition renew {E} (o : ObjectId) (l : LocalityId) (now : Z) : M ObjectService E bool :=
  s ← gets (fun s => s);
  match entries s !! o with
  | None => mret false
  | Some e =>
      match leases e !! l with
      | None => mret false
      | Some _ =>
          update_entry o (set_leases (<[l := mkLeaseRecord (now + lease_ttl (limits s)) None]> (leases e)));;
          mret true
      end
  end.

Definition release {E} (o : ObjectId) (l : LocalityId) : M ObjectService E bool :=
  s ← gets (fun s => s);
  match entries s !! o with
  | None => mret false
  | Some e =>
      let removed := bool_decide (is_Some (leases e !! l)) in
      update_entry o (set_leases (delete l (leases e)));;
      ack_transfer o l;;
      collect o;;
      mret removed
  end.

(** ** Expiry *)

Definition suspect (now : Z) (r : LeaseRecord) : LeaseRecord :=
  if (expires_at r <=? now) && bool_decide (suspect_since r = None)
  then mkLeaseRecord (expires_at r) (Some now) else r.

Definition keeps_lease (now grace : Z) (r : LeaseRecord) : bool :=
  match suspect_since r with None => true | Some since => saturating_sub now since <? grace end.

Definition expire_leases (now grace : Z) (m : gmap LocalityId LeaseRecord) : gmap LocalityId LeaseRecord :=
  filter (fun p => keeps_lease now grace p.2 = true) (suspect now <$> m).

(** [prepared.take()], and the counter when there was something. *)
Definition take_prepared {E} (o : ObjectId) : M ObjectService E unit :=
  s ← gets (fun s => s);
  mwhen (match entries s !! o with Some e => bool_decide (is_Some (prepared e)) | None => false end)
    (update_entry o (set_prepared None);;
     modify (fun s => set_prepared_count (fetch_sub (prepared_count s) 1) s)).

Definition expire_lifecycle {E} (now : Z) (o : ObjectId) (e : ObjectEntry) : M ObjectService E unit :=
  s ← gets (fun s => s);
  match lifecycle e with
  | Freezing _ t =>
      mwhen (t <=? now) (update_entry o (fun e => set_snapshot_bytes 0 (set_lifecycle Resident e)))
  | Prepared _ t =>
      mwhen (t <=? now)
        (take_prepared o;;
         update_entry o (set_lifecycle (Forwarding (location e) (now + forwarding_ttl (limits s)))))
  | Forwarding _ t =>
      mwhen ((t <=? now) && negb (authority e =? local_id s)) (update_entry o (set_state None))
  | _ => mret tt
  end.

Definition expire_entry {E} (now : Z) (o : ObjectId) : M ObjectService E unit :=
  s ← gets (fun s => s);
  match entries s !! o with
  | None => mret tt
  | Some e =>
      expire_lifecycle now o e;;
      s1 ← gets (fun s => s);
      mwhen (match entries s1 !! o with
             | Some e => match prepared e with Some p => prep_expires p <=? now | None => false end
             | None => false
             end)
        (take_prepared o);;
      update_entry o (fun e => set_leases (expire_leases now (lease_grace (limits s)) (leases e)) e);;
      s2 ← gets (fun s => s);
      let active := match entries s2 !! o with Some e => dom (leases e) | None => ∅ end in
      let before := pending_transfers s2 in
      let after := filter (fun p => p.1 <> o \/ p.2 ∈ active) before in
      modify (set_pending_transfers after);;
      mwhen (negb (bool_decide (size before = size after)))
        (modify (fun s => set_transfer_count
           (fetch_sub (transfer_count s) (Z.of_nat (size before - size after))) s));;
      collect o
  end.

(** [order] is the order in which the map lists its keys. *)
Definition expire {E} (now : Z) (order : list ObjectId) : M ObjectService E unit :=
  for_each (expire_entry now) order.

(** ** Retirements *)

Definition take_retirements {E} (max : nat) : M ObjectService E (list Retirement) :=
  q ← gets retirements;
  modify (set_retirements (drop max q));;
  mret (take max q).

Definition requeue_retirement {E} (r : Retirement) : M ObjectService E unit :=
  modify (fun s => set_retirements (r :: retirements s) s).

Definition finish_retirement {E} (o : ObjectId) : M ObjectService E unit := forget o.

(** ** Statistics *)

Definition sum_entries (f : ObjectEntry -> nat) (s : ObjectService) : nat :=
  map_fold (fun _ e n => (f e + n)%nat) 0%nat (entries s).

(** [entry_bytes] is the size of a resolver entry, [size_of::<(ObjectId, ObjectLocation)>()]. *)
Definition stats (entry_bytes now : Z) (s : ObjectService) : ObjectStats :=
  mkObjectStats (size (entries s))
    (sum_entries (fun e => size (leases e)) s)
    (sum_entries (fun e => size (filter (fun p : LocalityId * LeaseRecord =>
       expires_at p.2 <= now \/ is_Some (suspect_since p.2)) (leases e))) s)
    (sum_entries roots s) (sum_entries (fun e => length (queue (admission e))) s)
    (sum_entries in_flight s) (placement_count s) (size (resolver s).1)
    (Z.min usize_max (map_len (resolver s).1 * entry_bytes)) (transfer_count s)
    (size (active_migrations s)) (prepared_count s)
    (sum_entries (fun e => if is_forwarding (lifecycle e) then 1%nat else 0%nat) s)
    (foldl (fun n (x : ObjectId * ObjectEntry) => saturating_add usize_max n (snapshot_bytes x.2)) 0
       (map_to_list (entries s)))
    (migrated_bytes s) (completed_migrations s) (rolled_back_migrations s) (failed_migrations s)
    (local_calls s) (remote_calls s).

(** ** Admission *)

Definition is_local_resident (o : ObjectId) (l : ObjectLocation) (s : ObjectService) : bool :=
  match entries s !! o with
  | Some e => is_resident (lifecycle e) && bool_decide (location e = l) && bool_decide (is_Some (state e))
  | None => false
  end.

Definition request_targets_current (action : ActionId) (payload : Segments) (s : ObjectService) : bool :=
  if negb (bool_decide (is_Some (actions (registry s) !! action)))
     && negb (bool_decide (is_Some (placements (registry s) !! action))) then false
  else
    match inspect payload with
    | Err _ => false
    | Ok env =>
        match entries s !! env_object env with
        | Some e => (ObjectLocation_epoch (location e) =? env_epoch env) && is_resident (lifecycle e)
        | None => false
        end
    end.

(** [job.object = Some(..)]. *)
Definition with_object (x : ObjectJob) (j : ActionJob) : ActionJob :=
  mkActionJob (job_requester j) (job_request j) (job_action j) (job_domain j) (job_trace j) (job_input j)
    (job_handler j) (job_cancelled j) (job_local j) (submitted_at j) (Some x).

Definition map_admission (f : Admission -> Admission) (e : ObjectEntry) : ObjectEntry :=
  set_admission (f (admission e)) e.

(** Mark a call as admitted. *)
Definition enter (read : bool) (e : ObjectEntry) : ObjectEntry :=
  set_in_flight (S (in_flight e))
    (map_admission (fun a => if read then set_readers (S (readers a)) a else set_writer true a) e).

Definition can_enter (read : bool) (a : Admission) : bool :=
  if read then negb (writer a) else negb (writer a) && bool_decide (readers a = 0%nat).

(** The object, its type, the epoch and the migration an admitted request names. *)
Definition admission_key (freeze : bool) (segments : Segments) :
    result RuntimeError (ObjectId * Z * Z * option RequestId) :=
  if freeze then
    packet ← map_err (fun e => RuntimeError_Protocol (ActionError_message e)) (MigrationPacket_decode segments);
    Ok (packet_object packet, packet_type packet, ObjectLocation_epoch (packet_from packet),
        Some (packet_migration packet))
  else
    env ← map_err (fun e => RuntimeError_Protocol (ActionError_message e)) (inspect segments);
    Ok (env_object env, env_type env, env_epoch env, None).

(** The lifecycle a request with [migration] finds and leaves. *)
Definition admission_lifecycle (o : ObjectId) (migration : option RequestId) (expires : Z)
    (l : ObjectLifecycle) : result RuntimeError ObjectLifecycle :=
  match migration with
  | Some m =>
      match l with
      | Resident => Ok (Freezing m expires)
      | Freezing m' t => if bool_decide (m' = m) then Ok (Freezing m' t)
                         else Err (RuntimeError_MigrationInProgress o)
      | _ => Err (RuntimeError_MigrationInProgress o)
      end
  | None =>
      match l with
      | Resident => Ok Resident
      | Forwarding x _ | Retiring x => Err (RuntimeError_Moved o x)
      | Freezing _ _ | Prepared _ _ => Err (RuntimeError_MigrationInProgress o)
      end
  end.

Definition admit_request (now : Z) (action : ActionId) (job : ActionJob) (domain_available : bool) :
    M ObjectService RuntimeError (option ActionJob) :=
  s ← gets (fun s => s);
  let registration := actions (registry s) !! action in
  let placement := bool_decide (is_Some (placements (registry s) !! action)) in
  let freeze := action =? MIGRATION_FREEZE_ACTION_ID in
  if bool_decide (registration = None) && negb placement && negb freeze then mret (Some job) else
  encoded ← lift (match job_input job with
                  | Encoded segments => Ok segments
                  | Typed _ => Err (RuntimeError_Protocol (lit "object admission requires encoded input"))
                  end);
  '(o, object_type, epoch, migration) ← lift (admission_key freeze encoded);
  e ← lift (ok_or (entries s !! o) (RuntimeError_ObjectCollected o));
  if negb (entry_type e =? object_type) then raise (RuntimeError_UnknownObjectType object_type) else
  if negb (ObjectLocation_epoch (location e) =? epoch) then raise (RuntimeError_Moved o (location e)) else
  l ← lift (admission_lifecycle o migration (now + forwarding_ttl (limits s)) (lifecycle e));
  update_entry o (set_lifecycle l);;
  if placement then
    if negb domain_available
    then raise (RuntimeError_Placement (job_request job) (lit "colocated domain is saturated")) else
    if negb (is_resident l) then raise (RuntimeError_MigrationInProgress o) else
    n ← lift (ok_or (fetch_increment (max_placement_tickets (limits s)) (placement_count s))
                (RuntimeError_ResourceExhausted PlacementTickets (max_placement_tickets (limits s))));
    modify (set_placement_count n);;
    update_entry o (fun e => set_in_flight (S (in_flight e)) (set_placement_tickets (S (placement_tickets e)) e));;
    mret (Some (with_object (mkObjectJob o false true) job))
  else
    let read := match registration with
                | Some r => bool_decide (access r = Access_Read)
                | None => false
                end in
    let a := admission e in
    let available := domain_available && bool_decide (queue a = [])
                     && (negb freeze || bool_decide (placement_tickets e = 0%nat)) && can_enter read a in
    let job := with_object (mkObjectJob o read false) job in
    if available then update_entry o (enter read);; mret (Some job) else
    if max_mailbox_per_object (limits s) <=? len (queue a)
    then raise (RuntimeError_ResourceExhausted ObjectMailbox (max_mailbox_per_object (limits s))) else
    update_entry o (map_admission (fun a => set_queue (queue a ++ [job]) a));;
    mret None.

Definition complete {E} (x : ObjectJob) : M ObjectService E (list ActionJob) :=
  s ← gets (fun s => s);
  match entries s !! job_object x with
  | None => mret []
  | Some e =>
      (if placement x then
         update_entry (job_object x) (fun e => set_placement_tickets (pred (placement_tickets e)) e);;
         modify (fun s => set_placement_count (fetch_sub (placement_count s) 1) s)
       else
         update_entry (job_object x)
           (map_admission (fun a => if read x then set_readers (pred (readers a)) a else set_writer false a)));;
      update_entry (job_object x) (fun e => set_in_flight (pred (in_flight e)) e);;
      mret []
  end.

Definition rollback {E} (x : ObjectJob) : M ObjectService E (list ActionJob) := complete x.

(** The jobs an entry hands out: its queue from the front, until the pool of
    [n] slots is used up, a domain has no room, a freeze finds placement tickets,
    or a writer has been handed out. *)
Fixpoint retry_queue (n : nat) (domain_available : DomainId -> bool) (tickets : nat) (q : list ActionJob)
    (a : Admission) (flight : nat) : option (list ActionJob * Admission * nat) :=
  match n, q with
  | O, _ | _, [] => Some ([], set_queue q a, flight)
  | S n, front :: rest =>
      if negb (domain_available (job_domain front))
         || ((job_action front =? MIGRATION_FREEZE_ACTION_ID) && negb (bool_decide (tickets = 0%nat)))
      then Some ([], set_queue q a, flight)
      else
        x ← object_job front;
        if read x then
          '(jobs, a', f') ← retry_queue n domain_available tickets rest (set_readers (S (readers a)) a) (S flight);
          Some (front :: jobs, a', f')
        else Some ([front], set_queue rest (set_writer true a), S flight)
  end.

Fixpoint retry_entries {E} (max : nat) (domain_available : DomainId -> bool) (order : list ObjectId)
    (ready : list ActionJob) : M ObjectService E (list ActionJob) :=
  match order with
  | [] => mret ready
  | o :: order' =>
      if (max <=? length ready)%nat then mret ready else
      s ← gets (fun s => s);
      match entries s !! o with
      | None => retry_entries max domain_available order' ready
      | Some e =>
          if writer (admission e) || negb (bool_decide (readers (admission e) = 0%nat))
          then retry_entries max domain_available order' ready
          else
            match retry_queue (max - length ready) domain_available (placement_tickets e)
                    (queue (admission e)) (admission e) (in_flight e) with
            | None => panic
            | Some (jobs, a, f) =>
                update_entry o (fun e => set_in_flight f (set_admission a e));;
                retry_entries max domain_available order' (ready ++ jobs)
            end
      end
  end.

(** [order] is the order in which the map lists its entries. *)
Definition retry_ready {E} (max : nat) (domain_available : DomainId -> bool) (order : list ObjectId) :
    M ObjectService E (list ActionJob) := retry_entries max domain_available order [].

(** ** Calls on local objects *)

(** Taking the pin ([LocalAdmissionPin]). *)
Definition admit_local (o : ObjectId) (e : ObjectEntry) (read : bool) : M ObjectService RuntimeError unit :=
  s ← gets (fun s => s);
  lift (admission_lifecycle o None 0 (lifecycle e));;
  if negb (bool_decide (queue (admission e) = []) && can_enter read (admission e))
  then raise (RuntimeError_ResourceExhausted ObjectMailbox (max_mailbox_per_object (limits s)))
  else update_entry o (enter read).

(** [body] while the pin is held; dropping it completes the call and collects. *)
Definition with_pin {A} (o : ObjectId) (read : bool) (body : M ObjectService RuntimeError A) :
    M ObjectService RuntimeError A := fun s =>
  let '(r, s) := body s in
  match (complete (mkObjectJob o read false);; collect (E := RuntimeError) o) s with
  | (Ok _, s) => (r, s)
  | (Err e, s) => (Err e, s)
  end.

Definition local_entry (o : ObjectId) (object_type : Z) (l : ObjectLocation) (s : ObjectService) :
    result RuntimeError ObjectEntry :=
  e ← ok_or (entries s !! o) (RuntimeError_ObjectCollected o);
  fail_if (negb (entry_type e =? object_type)) (RuntimeError_UnknownObjectType object_type);;
  fail_if (negb (ObjectLocation_epoch (location e) =? ObjectLocation_epoch l)) (RuntimeError_StaleObjectLocation o);;
  Ok e.

Definition mailbox_exhausted (s : ObjectService) : RuntimeError :=
  RuntimeError_ResourceExhausted ObjectMailbox (max_mailbox_per_object (limits s)).

(** The outcome of [catch_unwind] around an action on a local object. *)
Definition local_outcome {A} (r : Handled A) : result RuntimeError A :=
  match r with
  | Ok a => Ok a
  | Err (Raise e) => Err (RuntimeError_ObjectAction (ActionError_message e))
  | Err Panic => Err (RuntimeError_ObjectAction (lit "object action panicked"))
  end.

Definition count_local_call {E} : M ObjectService E unit :=
  modify (fun s => set_local_calls (wrapping_add 64 (local_calls s) 1) s).

Definition call_read_local (T : DistributedObject) (A : ObjectReadAction T) (o : ObjectId) (object_type : Z)
    (l : ObjectLocation) (action : sort_of (read_ty T A)) :
    M ObjectService RuntimeError (sort_of (read_output T A)) :=
  s ← gets (fun s => s);
  e ← lift (local_entry o object_type l s);
  admit_local o e true;;
  with_pin o true
    (erased ← lift (map_err (fun x => RuntimeError_ObjectAction (ActionError_message x)) (resident_state e));
     if bool_decide (erased_kind erased = Exclusive) then raise RuntimeError_InvalidObjectConcurrency else
     if negb (try_read erased) then raise (mailbox_exhausted s) else
     typed ← lift (ok_or (downcast (object_ty T) (boxed erased)) (RuntimeError_UnknownObjectType object_type));
     count_local_call;;
     lift (local_outcome (read_execute T A action typed))).

Definition call_write_local (T : DistributedObject) (A : ObjectWriteAction T) (o : ObjectId) (object_type : Z)
    (l : ObjectLocation) (action : sort_of (write_ty T A)) :
    M ObjectService RuntimeError (sort_of (write_output T A)) :=
  s ← gets (fun s => s);
  e ← lift (local_entry o object_type l s);
  admit_local o e false;;
  with_pin o false
    (erased ← lift (map_err (fun x => RuntimeError_ObjectAction (ActionError_message x)) (resident_state e));
     if negb (try_write erased) then raise (mailbox_exhausted s) else
     typed ← lift (ok_or (downcast (object_ty T) (boxed erased)) (RuntimeError_UnknownObjectType object_type));
     let '(r, typed') := write_execute T A action typed in
     update_entry o (set_state (Some (mkErased (erased_kind erased) (Any _ typed') (lock erased) (poisoned erased))));;
     count_local_call;;
     lift (local_outcome r)).

(** ** Handlers of object requests *)

(** [map_err] on a method. *)
Definition with_error {S E F A} (f : E -> F) (m : M S E A) : M S F A := fun s =>
  match m s with
  | (Ok a, s) => (Ok a, s)
  | (Err (Raise e), s) => (Err (Raise (f e)), s)
  | (Err Panic, s) => (Err Panic, s)
  end.

Definition envelope_of (segments : Segments) : M ObjectService ActionError (ObjectEnvelope * Segments) :=
  lift (ObjectEnvelope_decode segments).

Definition create_local (T : DistributedObject) (o : ObjectId) (object_type : Z) (d : DomainId)
    (st : sort_of (object_ty T)) (lease : LocalityId) (root : bool) (now : Z) :
    M ObjectService RuntimeError ObjectLocation :=
  s ← gets (fun s => s);
  registration ← lift (ok_or (types (registry s) !! object_type) (RuntimeError_UnknownObjectType object_type));
  erased ← lift (local_wrapper registration (Any (object_ty T) st));
  with_error (fun e => RuntimeError_ObjectAction (ActionError_message e))
    (insert (mkObjectEnvelope o object_type 1 lease d root) erased now).

(** The handler registered for the creation of objects of [object_type]. *)
Definition create_object (object_type : Z) (registration : ObjectTypeRegistration) (now : Z)
    (segments : Segments) : M ObjectService ActionError Segments :=
  '(env, payload) ← envelope_of segments;
  s ← gets (fun s => s);
  if negb (env_type env =? object_type) || negb (ObjectId_run (env_object env) =? run_id s)
  then raise (ActionError_user (lit "object identity mismatch")) else
  st ← lift_exn (decoder registration payload);
  l ← insert env st now;
  lift (encode_location l).

Definition acquire_lease_handler (now : Z) (segments : Segments) : M ObjectService ActionError Segments :=
  '(env, payload) ← envelope_of segments;
  acquired ← (if rooted env then begin_transfer (env_object env) (lease_locality env) now
              else acquire (env_object env) (lease_locality env) now);
  if negb (is_nil payload) || negb acquired then raise (ActionError_user (lit "object lease is unavailable"))
  else mret [].

Definition transfer_ack_handler (segments : Segments) : M ObjectService ActionError Segments :=
  '(env, payload) ← envelope_of segments;
  if negb (is_nil payload) then raise (ActionError_codec (lit "transfer acknowledgement payload must be empty"))
  else ack_transfer (env_object env) (lease_locality env);; mret [].

Definition root_release_handler (segments : Segments) : M ObjectService ActionError Segments :=
  '(env, payload) ← envelope_of segments;
  if negb (is_nil payload) then raise (ActionError_codec (lit "root control payload must be empty"))
  else release_root (env_object env);; mret [].

Definition lease_handler (renewal : bool) (now : Z) (segments : Segments) : M ObjectService ActionError Segments :=
  '(env, payload) ← envelope_of segments;
  if negb (is_nil payload) then raise (ActionError_codec (lit "lease control payload must be empty")) else
  if renewal then
    renewed ← renew (env_object env) (lease_locality env) now;
    if negb renewed then raise (ActionError_user (lit "object lease is unavailable")) else mret []
  else release (env_object env) (lease_locality env);; mret [].

(** The handler registered for the object action of [registration]. *)
Definition object_action (registration : ObjectActionRegistration) (segments : Segments) :
    M ObjectService ActionError Segments :=
  '(env, input) ← envelope_of segments;
  if negb (env_type env =? action_type registration)
  then raise (ActionError_user (lit "object type mismatch")) else
  modify (fun s => set_remote_calls (wrapping_add 64 (remote_calls s) 1) s);;
  s ← gets (fun s => s);
  e ← lift (ok_or (entries s !! env_object env) (ActionError_user (lit "object collected")));
  if negb (entry_type e =? env_type env) || negb (ObjectLocation_epoch (location e) =? env_epoch env)
  then raise (ActionError_user (lit "stale object location")) else
  let '(r, st) := object_handler registration input (state e) in
  update_entry (env_object env) (set_state st);;
  lift_exn r.
End Objects.
