(* ===== verification/Migration.v ===== *)
(** * Migration: moving an object to another place

    Models [crates/hataori-runtime/src/object/migration.rs]: the six steps a
    migration takes on the object services of the source, the destination and
    the authority.  The future that drives them is in [MigrationFuture].  A step that reads
    the clock several times reads it once here. *)
From Stdlib Require Import Strings.Byte.
From S2P Require Import Prelude Text Protocol Error RuntimeTypes RuntimeWire Action Domain ObjectWire ObjectRegistry Objects.

Section Migration.
Context `{AnyTypes}.

Definition action_error {E} (message : string) : M ObjectService ActionError E :=
  raise (ActionError_user (lit message)).

(** ** Steps on a service *)

Definition migration_metadata (object_type : Z) (s : ObjectService) :
    result RuntimeError (Mobility * Z * Z) :=
  r ← ok_or (types (registry s) !! object_type) (RuntimeError_UnknownObjectType object_type);
  Ok (type_mobility r, type_version r, type_snapshot r).

Definition begin_migration (m : RequestId) : M ObjectService RuntimeError unit :=
  s ← gets (fun s => s);
  if max_migrations (limits s) <=? Z.of_nat (size (active_migrations s))
  then raise (RuntimeError_ResourceExhausted Migrations (max_migrations (limits s))) else
  modify (fun s => set_active_migrations ({[m]} ∪ active_migrations s) s);;
  if bool_decide (m ∈ active_migrations s)
  then raise (RuntimeError_Protocol (lit "duplicate migration id")) else mret tt.

Definition finish_migration {E} (m : RequestId) (outcome : MigrationOutcome) (bytes : Z) :
    M ObjectService E unit :=
  modify (fun s => set_active_migrations (active_migrations s ∖ {[m]}) s);;
  match outcome with
  | Completed =>
      modify (fun s => set_completed_migrations (wrapping_add 64 (completed_migrations s) 1) s);;
      modify (fun s => set_migrated_bytes (wrapping_add 64 (migrated_bytes s) bytes) s)
  | RolledBack => modify (fun s => set_rolled_back_migrations (wrapping_add 64 (rolled_back_migrations s) 1) s)
  | Failed => modify (fun s => set_failed_migrations (wrapping_add 64 (failed_migrations s) 1) s)
  end.

Definition entry_for_migration (p : MigrationPacket) : M ObjectService ActionError ObjectEntry :=
  s ← gets (fun s => s);
  e ← lift (ok_or (entries s !! packet_object p) (ActionError_user (lit "migration object not found")));
  if negb (entry_type e =? packet_type p) then action_error "migration object type mismatch" else mret e.

(** [try_fold(0_usize, checked_add)] over the segment lengths. *)
Fixpoint sum_segments (total : Z) (segments : Segments) : option Z :=
  match segments with
  | [] => Some total
  | s :: rest => t ← checked_add usize_max total (len s); sum_segments t rest
  end.

Definition validate_snapshot (snapshot : Segments) (s : ObjectService) : result ActionError Z :=
  fail_if (max_snapshot_segments (limits s) <? len snapshot)
    (ActionError_user (lit "migration snapshot segment limit exceeded"));;
  bytes ← ok_or (sum_segments 0 snapshot) (ActionError_user (lit "migration snapshot size overflow"));
  fail_if (max_snapshot_bytes (limits s) <? bytes)
    (ActionError_user (lit "migration snapshot byte limit exceeded"));;
  Ok bytes.

Definition registered_type (object_type : Z) : M ObjectService ActionError ObjectTypeRegistration :=
  s ← gets (fun s => s);
  lift (ok_or (types (registry s) !! object_type) (ActionError_user (lit "unknown migration object type"))).

Definition snapshot_matches (p : MigrationPacket) (r : ObjectTypeRegistration) : bool :=
  (snapshot_version p =? type_version r) && (snapshot_schema p =? type_snapshot r).

Definition with_snapshot (x : Segments) (p : MigrationPacket) : MigrationPacket :=
  mkMigrationPacket (packet_migration p) (packet_object p) (packet_type p) (packet_authority p)
    (packet_from p) (packet_destination p) (snapshot_version p) (snapshot_schema p) x.
Definition with_from (x : ObjectLocation) (p : MigrationPacket) : MigrationPacket :=
  mkMigrationPacket (packet_migration p) (packet_object p) (packet_type p) (packet_authority p)
    x (packet_destination p) (snapshot_version p) (snapshot_schema p) (packet_snapshot p).

Definition freeze_migration (now : Z) (p : MigrationPacket) : M ObjectService ActionError MigrationPacket :=
  let o := packet_object p in
  e ← entry_for_migration p;
  if bool_decide (location e <> packet_from p) || negb (authority e =? packet_authority p)
  then action_error "migration source changed" else
  r ← registered_type (packet_type p);
  freezer ← lift (ok_or (freezer r) (ActionError_user (lit "object is pinned")));
  if negb (snapshot_matches p r) then action_error "migration snapshot schema mismatch" else
  s ← gets (fun s => s);
  match lifecycle e with
  | Resident =>
      update_entry o (set_lifecycle (Freezing (packet_migration p) (now + forwarding_ttl (limits s))))
  | Freezing m _ =>
      if bool_decide (m = packet_migration p) then mret tt else action_error "migration already in progress"
  | _ => action_error "migration already in progress"
  end;;
  st ← lift (resident_state e);
  let '(frozen, st') := freezer st in
  update_entry o (set_state (Some st'));;
  match frozen with
  | Err (Raise x) => update_entry o (set_lifecycle Resident);; raise x
  | Err Panic => update_entry o (set_lifecycle Resident);; raise ActionError_Panic
  | Ok snapshot =>
      match validate_snapshot snapshot s with
      | Err x => update_entry o (set_lifecycle Resident);; raise x
      | Ok bytes =>
          update_entry o (set_snapshot_bytes bytes);;
          mret (with_snapshot snapshot p)
      end
  end.

(** [body] under a [PreparedPermit]: unless [body] answers [true] the permit
    gives its slot back when it is dropped, also on an error or a panic. *)
Definition with_permit {E A} (body : M ObjectService E (A * bool)) : M ObjectService E A := fun s =>
  let give_back s := set_prepared_count (fetch_sub (prepared_count s) 1) s in
  match body s with
  | (Ok (a, true), s) => (Ok a, s)
  | (Ok (a, false), s) => (Ok a, give_back s)
  | (Err e, s) => (Err e, give_back s)
  end.

Definition fresh_entry (p : MigrationPacket) (expires : Z) : ObjectEntry :=
  mkObjectEntry (packet_type p) (packet_authority p) (packet_from p) None
    (Prepared (packet_migration p) expires) None 0 ∅ 0 0 0 (mkAdmission 0 false []).

Definition store_is_full (o : ObjectId) (s : ObjectService) : bool :=
  (max_objects (limits s) <=? map_len (entries s)) && negb (bool_decide (is_Some (entries s !! o))).

Definition prepare_permitted (now : Z) (p : MigrationPacket) (bytes : Z) (r : ObjectTypeRegistration) :
    M ObjectService ActionError (MigrationPacket * bool) :=
  let o := packet_object p in
  s ← gets (fun s => s);
  if store_is_full o s then action_error "object store is full" else
  epoch ← lift (ok_or (checked_add u64_max (ObjectLocation_epoch (packet_from p)) 1)
                  (ActionError_user (lit "object epoch overflow")));
  l ← lift (map_err (fun _ => ActionError_user (lit "invalid migration destination"))
              (ObjectLocation_new (local_id s) (RuntimeTypes.domain (packet_destination p)) (next_slot s) 1 epoch));
  slot ← lift (ok_or (checked_add u64_max (next_slot s) 1) (ActionError_user (lit "object slot overflow")));
  modify (set_next_slot slot);;
  restore ← lift (ok_or (restorer r) (ActionError_user (lit "object is pinned")));
  restored ← lift_exn (restore (packet_snapshot p) (packet_destination p));
  s ← gets (fun s => s);
  if store_is_full o s then action_error "object store is full" else
  let expires := now + forwarding_ttl (limits s) in
  let e := default (fresh_entry p expires) (entries s !! o) in
  modify (set_entries (<[o := e]> (entries s)));;
  if negb (entry_type e =? packet_type p) || negb (authority e =? packet_authority p)
  then action_error "migration destination conflict" else
  let answer := with_from l (with_snapshot [] p) in
  match prepared e with
  | Some existing =>
      if bool_decide (prep_migration existing <> packet_migration p)
         || bool_decide (prep_location existing <> l)
      then action_error "conflicting prepared migration"
      else mret (answer, false)
  | None =>
      update_entry o (set_prepared (Some (mkPreparedState (packet_migration p) l restored bytes expires)));;
      mret (answer, true)
  end.

Definition prepare_migration (now : Z) (p : MigrationPacket) : M ObjectService ActionError MigrationPacket :=
  s ← gets (fun s => s);
  if negb (locality (packet_destination p) =? local_id s)
  then action_error "migration prepared at wrong locality" else
  bytes ← lift (validate_snapshot (packet_snapshot p) s);
  r ← registered_type (packet_type p);
  if bool_decide (type_mobility r = Pinned) || negb (snapshot_matches p r)
  then action_error "migration snapshot schema mismatch" else
  n ← lift (ok_or (fetch_increment (max_prepared_migrations (limits s)) (prepared_count s))
              (ActionError_user (lit "prepared migration limit reached")));
  modify (set_prepared_count n);;
  with_permit (prepare_permitted now p bytes r).

Definition commit_migration (now : Z) (p : MigrationPacket) : M ObjectService ActionError MigrationPacket :=
  let o := packet_object p in
  s ← gets (fun s => s);
  if negb (packet_authority p =? local_id s) then action_error "migration committed at wrong authority" else
  e ← entry_for_migration p;
  let forwarders := sum_entries (fun e => if is_forwarding (lifecycle e) then 1%nat else 0%nat) s in
  if negb (is_forwarding (lifecycle e)) && (max_forwarders (limits s) <=? Z.of_nat forwarders)
  then action_error "forwarding entry limit reached" else
  if bool_decide (checked_add u64_max (ObjectLocation_epoch (location e)) 1
                  <> Some (ObjectLocation_epoch (packet_from p)))
  then action_error "migration epoch conflict" else
  update_entry o (set_location (packet_from p));;
  update_entry o (set_lifecycle (Forwarding (packet_from p) (now + forwarding_ttl (limits s))));;
  cache_location o (packet_from p);;
  mret p.

Definition activate_migration (p : MigrationPacket) : M ObjectService ActionError MigrationPacket :=
  let o := packet_object p in
  e ← entry_for_migration p;
  update_entry o (set_prepared None);;
  x ← lift (ok_or (prepared e) (ActionError_user (lit "migration destination was not prepared")));
  modify (fun s => set_prepared_count (fetch_sub (prepared_count s) 1) s);;
  if bool_decide (prep_migration x <> packet_migration p) || bool_decide (prep_location x <> packet_from p)
  then action_error "prepared migration mismatch" else
  update_entry o (set_location (prep_location x));;
  update_entry o (set_state (Some (prep_state x)));;
  update_entry o (set_snapshot_bytes (prep_bytes x));;
  update_entry o (set_lifecycle Resident);;
  cache_location o (prep_location x);;
  mret p.

Definition rollback_migration (p : MigrationPacket) : M ObjectService ActionError MigrationPacket :=
  let o := packet_object p in
  s ← gets (fun s => s);
  match entries s !! o with
  | None => mret p
  | Some e =>
      mwhen (match prepared e with Some x => bool_decide (prep_migration x = packet_migration p) | None => false end)
        (update_entry o (set_prepared None);;
         modify (fun s => set_prepared_count (fetch_sub (prepared_count s) 1) s));;
      mwhen (match lifecycle e with Freezing m _ => bool_decide (m = packet_migration p) | _ => false end)
        (update_entry o (set_lifecycle Resident);; update_entry o (set_snapshot_bytes 0));;
      mret p
  end.

Definition retire_migration (now : Z) (p : MigrationPacket) : M ObjectService ActionError MigrationPacket :=
  let o := packet_object p in
  s ← gets (fun s => s);
  e ← entry_for_migration p;
  if ObjectLocation_epoch (packet_from p) <? ObjectLocation_epoch (location e) then mret p else
  update_entry o (set_state None);;
  update_entry o (set_snapshot_bytes 0);;
  update_entry o (set_location (packet_from p));;
  update_entry o (set_lifecycle (Forwarding (packet_from p) (now + forwarding_ttl (limits s))));;
  cache_location o (packet_from p);;
  collect o;;
  mret p.

(** The registered handlers decode, run the step and encode. *)
Definition migration_handler (step : MigrationPacket -> M ObjectService ActionError MigrationPacket)
    (segments : Segments) : M ObjectService ActionError Segments :=
  p ← lift (MigrationPacket_decode segments);
  p ← step p;
  lift (MigrationPacket_encode p).

(** ** Retirements *)

(** The driver's loop over the retirements it took: [sent] says which sends
    succeed.  A failed send puts its retirement back and ends the loop. *)
Fixpoint send_retirements {E} (sent : list bool) (l : list Retirement) : M ObjectService E unit :=
  match l with
  | [] => mret tt
  | r :: rest =>
      match sent with
      | true :: sent => finish_retirement (ret_object r);; send_retirements sent rest
      | _ => requeue_retirement r
      end
  end.

Definition drain_retirements {E} (limit : nat) (sent : list bool) : M ObjectService E unit :=
  l ← take_retirements limit; send_retirements sent l.
End Migration.

(** ** Examples *)

(** A mobile counter with an action that reads it and one that adds to it. *)
Definition ex_counter : DistributedObject := mkDistributedObject 7 true wire_u64.
Definition ex_mobile : MobileObject :=
  mkMobileObject ex_counter Migratable 1 true wire_u64 (fun st => (Ok st, st)) (fun v _ => Ok v).
Definition ex_get : ObjectReadAction ex_counter :=
  mkObjectReadAction ex_counter 101 true true wire_u64 wire_u64 (fun _ st => Ok st).
Definition ex_add : ObjectWriteAction ex_counter :=
  mkObjectWriteAction ex_counter 102 true true wire_u64 wire_u64
    (fun '(U64 a) '(U64 st) => (Ok (U64 (st + a)), U64 (st + a))).

Definition ex_objects : ObjectRegistry :=
  ((register_mobile_read_write ex_mobile;; register_read ex_counter ex_get;; register_write ex_counter ex_add)
     ObjectRegistry_default).2.

Definition ex_object : ObjectId := mkObjectId 1 5.
Definition ex_state (n : Z) : ErasedState := erase ReadWrite (Any true (U64 n)).
Definition ex_envelope (root : bool) : ObjectEnvelope := mkObjectEnvelope ex_object 7 1 0 1 root.
Definition ex_service (id : LocalityId) : ObjectService :=
  ObjectService_new 1 id ObjectLimits_default ex_objects.
Definition ex_request (n : Z) (action : ActionId) : ActionJob :=
  mkActionJob 2 (mkRequestId 2 n) action 1 None
    (Encoded (ObjectEnvelope_encode (ex_envelope false) [to_le_bytes 8 n]))
    (RegisteredAction_new (fun s => Ok s)) 0 false 0 None.
