(* ===== verification/ObjectRuns.v ===== *)
(** * ObjectRuns: what holds of an object service after any calls

    Sequences of calls of the object service ([Objects], [Migration]) by the
    driver, the handlers and the clients, in any order and with any arguments.
    A ghost ledger keeps the calls admitted and not completed yet. *)
From S2P Require Import Prelude Text Protocol Error RuntimeTypes RuntimeWire Action Domain ObjectWire ObjectRegistry Objects Migration.

(** ** Sums over the entries *)

Section Sums.
Context `{Countable K} {A : Type}.
Implicit Types (m : gmap K A) (f : A -> nat).

Definition msum f m : nat := map_fold (fun _ x n => (f x + n)%nat) 0%nat m.

Lemma msum_insert f m k x : m !! k = None -> msum f (<[k := x]> m) = (f x + msum f m)%nat.
Proof. intros Hk. unfold msum. rewrite map_fold_insert_L; [done|intros; lia|done]. Qed.

Lemma msum_delete f m k x : m !! k = Some x -> msum f m = (f x + msum f (delete k m))%nat.
Proof.
  intros Hk. rewrite <- (insert_delete_id m k x Hk) at 1. apply msum_insert, lookup_delete_eq.
Qed.

Lemma alter_some (g : A -> A) m k x : m !! k = Some x -> alter g k m = <[k := g x]> m.
Proof.
  intros Hk. apply map_eq. intros j. destruct (decide (k = j)) as [->|].
  - by rewrite lookup_alter_eq, lookup_insert_eq, Hk.
  - by rewrite lookup_alter_ne, lookup_insert_ne.
Qed.

Lemma msum_alter f (g : A -> A) m k x :
  m !! k = Some x -> (msum f (alter g k m) + f x = msum f m + f (g x))%nat.
Proof.
  intros Hk. rewrite (alter_some g m k x Hk), <- insert_delete_eq, msum_insert by apply lookup_delete_eq.
  rewrite (msum_delete f m k x Hk). lia.
Qed.

Lemma msum_le f m k x : m !! k = Some x -> (f x <= msum f m)%nat.
Proof. intros Hk. rewrite (msum_delete f m k x Hk). lia. Qed.

Lemma size_alter (g : A -> A) m k : size (alter g k m) = size m.
Proof.
  destruct (m !! k) as [x|] eqn:Hk.
  - rewrite (alter_some g m k x Hk). rewrite map_size_insert_Some; [done|eauto].
  - f_equal. apply map_eq. intros j. destruct (decide (k = j)) as [->|].
    + by rewrite lookup_alter_eq, Hk.
    + by rewrite lookup_alter_ne.
Qed.
End Sums.

Section Runs.
Context `{AnyTypes}.
Implicit Types (s : ObjectService) (e : ObjectEntry).

(** The calls that were handed out and are not completed, and the calls that
    wait in the mailboxes. *)
Record Ledger : Type := mkLedger { running : list ObjectJob; waiting : ObjectId -> list ActionJob }.
Implicit Types (run : Ledger).

(** ** The ledger of admitted calls *)

Definition is_read (o : ObjectId) (x : ObjectJob) : bool :=
  bool_decide (job_object x = o) && negb (placement x) && read x.
Definition is_write (o : ObjectId) (x : ObjectJob) : bool :=
  bool_decide (job_object x = o) && negb (placement x) && negb (read x).
Definition is_placement (o : ObjectId) (x : ObjectJob) : bool :=
  bool_decide (job_object x = o) && placement x.

(** How often a kind of call occurs in the ledger. *)
Definition tally (P : ObjectJob -> bool) run : nat := length (filter (fun x => P x = true) (running run)).

Definition has_prepared e : nat := match prepared e with Some _ => 1%nat | None => 0%nat end.

(** An entry's counters against the ledger. *)
Definition admission_exact run (o : ObjectId) e : Prop :=
  tally (is_read o) run = readers (admission e) /\
  tally (is_write o) run = (if writer (admission e) then 1 else 0)%nat /\
  tally (is_placement o) run = placement_tickets e /\
  in_flight e = (readers (admission e) + (if writer (admission e) then 1 else 0) + placement_tickets e)%nat.

Definition queue_ok (l : ObjectLimits) (o : ObjectId) e : Prop :=
  Forall (fun j => exists r, object_job j = Some (mkObjectJob o r false)) (queue (admission e)) /\
  len (queue (admission e)) <= max_mailbox_per_object l.

Definition entry_ok s run (o : ObjectId) e : Prop :=
  admission_exact run o e /\ queue_ok (limits s) o e /\
  map_len (leases e) <= max_local_leases (limits s) /\
  is_Some (types (registry s) !! entry_type e) /\
  (authority e <> local_id s -> roots e = 0%nat).

(** The object of a queued retirement, if it is still there, holds nothing and
    only forwards. *)
Definition retiring_ok s (r : Retirement) : Prop :=
  forall e, entries s !! ret_object r = Some e ->
    is_forwarding (lifecycle e) = true /\ idle_entry e = true /\ roots e = 0%nat.

Definition counted (n : nat) (counter limit : Z) : Prop := counter = Z.of_nat n /\ counter <= limit.

(** Limits are those [ObjectLimits::validate] accepts, of type [usize]. *)
Definition limits_wf (l : ObjectLimits) : Prop :=
  0 < max_objects l /\ 0 < max_mailbox_per_object l /\ 0 < max_local_leases l /\
  0 < max_roots l < 2 ^ 64 /\ 0 < max_placement_tickets l < 2 ^ 64 /\ 0 < max_transfers l < 2 ^ 64 /\
  0 < max_prepared_migrations l < 2 ^ 64 /\ 0 < max_migrations l.

(** The mailbox of an object. *)
Definition mailbox s (o : ObjectId) : list ActionJob :=
  match entries s !! o with Some e => queue (admission e) | None => [] end.

Definition Inv s run : Prop :=
  limits_wf (limits s) /\
  (forall o, mailbox s o = waiting run o) /\
  map_Forall (entry_ok s run) (entries s) /\
  Forall (fun x => is_Some (entries s !! job_object x)) (running run) /\
  map_len (entries s) <= max_objects (limits s) /\
  counted (msum roots (entries s)) (root_count s) (max_roots (limits s)) /\
  counted (msum placement_tickets (entries s)) (placement_count s) (max_placement_tickets (limits s)) /\
  counted (msum has_prepared (entries s)) (prepared_count s) (max_prepared_migrations (limits s)) /\
  counted (size (pending_transfers s)) (transfer_count s) (max_transfers (limits s)) /\
  Z.of_nat (size (active_migrations s)) <= max_migrations (limits s) /\
  Forall (retiring_ok s) (retirements s) /\
  len (retirements s) <= max_migrations (limits s).

Lemma Inv_new run_id local l r : limits_wf l -> Inv (ObjectService_new run_id local l r) (mkLedger [] (fun _ => [])).
Proof.
  intros Hl. split; [done|]. split; [done|]. unfold limits_wf, counted, map_len, len in *. cbn [ObjectService_new entries
    root_count limits placement_count prepared_count pending_transfers transfer_count active_migrations
    retirements length running]. unfold msum. rewrite !map_fold_empty, map_size_empty, !size_empty.
  split_and!; try (by apply Forall_nil); try lia. apply map_Forall_empty.
Qed.

(** ** Changing one entry *)

Definition put (o : ObjectId) (f : ObjectEntry -> ObjectEntry) s : ObjectService :=
  set_entries (alter f o (entries s)) s.

Lemma wp_update {E} o f (Q : unit -> ObjectService -> Prop) (R : E -> ObjectService -> Prop) s :
  Q tt (put o f s) -> wp (update_entry o f) Q R s.
Proof. done. Qed.

Lemma lookup_put o f s o' :
  entries (put o f s) !! o' = if decide (o = o') then f <$> entries s !! o' else entries s !! o'.
Proof.
  cbn. destruct (decide (o = o')) as [->|]; [apply lookup_alter_eq|by apply lookup_alter_ne].
Qed.

Lemma lookup_put_some o f s o' : is_Some (entries (put o f s) !! o') <-> is_Some (entries s !! o').
Proof. rewrite lookup_put. case_decide; [apply fmap_is_Some|done]. Qed.

(** No retirement of [o] is queued. *)
Definition not_retiring s (o : ObjectId) : Prop := Forall (fun r => ret_object r <> o) (retirements s).

(** One entry changes, with the counters and the ledger. *)
Lemma Inv_change s run run' o f e cr ct cp :
  Inv s run -> entries s !! o = Some e -> entry_ok s run' o (f e) ->
  (forall o' e', o' <> o -> admission_exact run o' e' -> admission_exact run' o' e') ->
  (forall x, x ∈ running run' -> job_object x = o \/ x ∈ running run) ->
  (forall o', waiting run' o' = if decide (o = o') then queue (admission (f e)) else waiting run o') ->
  cr = root_count s + Z.of_nat (roots (f e)) - Z.of_nat (roots e) -> cr <= max_roots (limits s) ->
  ct = placement_count s + Z.of_nat (placement_tickets (f e)) - Z.of_nat (placement_tickets e) ->
  ct <= max_placement_tickets (limits s) ->
  cp = prepared_count s + Z.of_nat (has_prepared (f e)) - Z.of_nat (has_prepared e) ->
  cp <= max_prepared_migrations (limits s) ->
  not_retiring s o \/
    (is_forwarding (lifecycle e) = true -> idle_entry e = true -> roots e = 0%nat ->
     is_forwarding (lifecycle (f e)) = true /\ idle_entry (f e) = true /\ roots (f e) = 0%nat) ->
  Inv (set_root_count cr (set_placement_count ct (set_prepared_count cp (put o f s)))) run'.
Proof.
  intros (Hlim & Hbox & Hent & Hrun & Hsize & Hroots & Htick & Hprep & Htr & Hact & Hret & Hlen)
    He Hok Hex Hin Hwait Hcr Hcr' Hct Hct' Hcp Hcp' Hfw.
  pose proof (msum_alter roots f _ o e He). pose proof (msum_alter placement_tickets f _ o e He).
  pose proof (msum_alter has_prepared f _ o e He). unfold Inv, counted in *.
  cbn [put set_root_count set_placement_count set_prepared_count set_entries entries limits registry local_id
    root_count placement_count prepared_count pending_transfers transfer_count active_migrations retirements].
  split_and!; try apply Htr; try done; try lia.
  - intros o'. rewrite Hwait, <- Hbox. unfold mailbox.
    change (entries (set_root_count _ _)) with (entries (put o f s)). rewrite lookup_put.
    case_decide as Hd; [subst; by rewrite He|done].
  - intros o' e' Hl. change (alter f o (entries s)) with (entries (put o f s)) in Hl. rewrite lookup_put in Hl.
    case_decide as Hd.
    + subst o'. rewrite He in Hl. by injection Hl as <-.
    + destruct (Hent o' e' Hl) as (Ha & Hb). split; [|exact Hb]. by apply Hex.
  - apply Forall_forall. intros x Hx. change (alter f o (entries s)) with (entries (put o f s)).
    rewrite lookup_put_some. rewrite Forall_forall in Hrun.
    destruct (Hin x Hx) as [->|Hx']; [by rewrite He|by apply Hrun].
  - unfold map_len. by rewrite size_alter.
  - unfold not_retiring in Hfw. rewrite Forall_forall in *. intros r Hin' e' Hl. specialize (Hret r Hin').
    change (entries (put o f s) !! ret_object r = Some e') in Hl. rewrite lookup_put in Hl.
    case_decide as Hd; [|by apply Hret]. rewrite <- Hd, He in Hl. injection Hl as <-.
    destruct (Hret e) as (Hf & Hi & Hz); [by rewrite <- Hd|].
    destruct Hfw as [Hfw|Hfw]; [by destruct (Hfw r Hin')|by apply Hfw].
Qed.

(** A mailbox that does not change. *)
Lemma same_waiting s run o f e :
  Inv s run -> entries s !! o = Some e -> queue (admission (f e)) = queue (admission e) ->
  forall o', waiting run o' = if decide (o = o') then queue (admission (f e)) else waiting run o'.
Proof.
  intros (_ & Hbox & _) He Hq o'. case_decide as Hd; [|done]. subst. rewrite Hq, <- Hbox.
  unfold mailbox. by rewrite He.
Qed.

Lemma Inv_put s run o f e :
  Inv s run -> entries s !! o = Some e -> entry_ok s run o (f e) ->
  roots (f e) = roots e -> placement_tickets (f e) = placement_tickets e -> has_prepared (f e) = has_prepared e ->
  queue (admission (f e)) = queue (admission e) ->
  not_retiring s o \/
    (is_forwarding (lifecycle e) = true -> idle_entry e = true ->
     is_forwarding (lifecycle (f e)) = true /\ idle_entry (f e) = true) ->
  Inv (put o f s) run.
Proof.
  intros HI He Hok Hr Ht Hp Hq Hfw.
  pose proof HI as (_ & Hbox & _ & _ & _ & [_ ?] & [_ ?] & [_ ?] & _).
  refine (Inv_change s run run o f e (root_count s) (placement_count s) (prepared_count s) HI He Hok _ _ _ _ _ _ _ _ _ _);
    try done; try lia; try (rewrite ?Hr, ?Ht, ?Hp; lia); try (by right); try (by apply (same_waiting s)).
  destruct Hfw as [Hfw|Hfw]; [by left|right]. intros Hf Hi Hz. destruct (Hfw Hf Hi). by rewrite Hr.
Qed.

(** A change of an entry that the accounts do not see. *)
Definition unseen (e e' : ObjectEntry) : Prop :=
  entry_type e' = entry_type e /\ authority e' = authority e /\ roots e' = roots e /\
  leases e' = leases e /\ in_flight e' = in_flight e /\ placement_tickets e' = placement_tickets e /\
  admission e' = admission e /\ has_prepared e' = has_prepared e.

(** What a queued retirement relies on. *)
Definition still_forwarding e e' : Prop :=
  is_forwarding (lifecycle e) = true -> idle_entry e = true -> is_forwarding (lifecycle e') = true.

Lemma has_prepared_none e : has_prepared e = 0%nat <-> prepared e = None.
Proof. unfold has_prepared. by destruct (prepared e). Qed.

Lemma idle_entry_spec e :
  idle_entry e = true <->
  in_flight e = 0%nat /\ placement_tickets e = 0%nat /\ queue (admission e) = [] /\ prepared e = None.
Proof. unfold idle_entry. rewrite !andb_true_iff, !bool_decide_eq_true. tauto. Qed.

Lemma Inv_unseen s run o f :
  Inv s run ->
  (forall e, entries s !! o = Some e -> unseen e (f e) /\ (not_retiring s o \/ still_forwarding e (f e))) ->
  Inv (put o f s) run.
Proof.
  intros HI Hun. destruct (entries s !! o) as [e|] eqn:He.
  - destruct (Hun e eq_refl) as ((Ht & Ha & Hr & Hl & Hi & Hp & Had & Hpr) & Hf).
    apply (Inv_put s run o f e HI He); try done.
    + destruct HI as (_ & _ & Hent & _). destruct (Hent o e He) as (Hex & Hq & Hle & Hty & Hau).
      unfold entry_ok, admission_exact, queue_ok in *. by rewrite Ht, Ha, Hr, Hl, Hi, Hp, Had.
    + by rewrite Had.
    + destruct Hf as [Hf|Hf]; [by left|right]. intros Hfw Hidle. split; [by apply Hf|].
      rewrite idle_entry_spec in *. rewrite Hi, Hp, Had. rewrite <- !has_prepared_none, Hpr in *. tauto.
  - unfold put. rewrite (proj2 (map_eq_iff _ (entries s))).
    + by destruct s.
    + intros o'. destruct (decide (o = o')) as [->|]; [by rewrite lookup_alter_eq, He|by rewrite lookup_alter_ne].
Qed.

(** ** Forgetting an entry *)

Lemma tally_zero P run x : tally P run = 0%nat -> x ∈ running run -> P x = false.
Proof.
  unfold tally. intros Hz Hx. apply not_true_is_false. intros HP.
  apply length_zero_iff_nil in Hz. apply (not_elem_of_nil x). rewrite <- Hz.
  by apply list_elem_of_filter.
Qed.

Lemma idle_not_running s run o e :
  admission_exact run o e -> idle_entry e = true -> Forall (fun x => job_object x <> o) (running run).
Proof.
  intros (Hr & Hw & Hp & Hf) (Hi & _ & _ & _)%idle_entry_spec. apply Forall_forall. intros x Hx Ho.
  rewrite Hi in Hf. destruct (writer (admission e)); [lia|].
  pose proof (tally_zero _ run x ltac:(rewrite Hr; lia) Hx) as H1.
  pose proof (tally_zero _ run x Hw Hx) as H2. pose proof (tally_zero _ run x ltac:(rewrite Hp; lia) Hx) as H3.
  unfold is_read, is_write, is_placement in *. rewrite bool_decide_eq_true_2 in * by done.
  by destruct (placement x), (read x).
Qed.

Definition forgotten (o : ObjectId) s : ObjectService :=
  set_resolver (delete o (resolver s).1, (resolver s).2) (set_entries (delete o (entries s)) s).

Lemma wp_forget {E} o (Q : unit -> ObjectService -> Prop) (R : E -> ObjectService -> Prop) s :
  Q tt (forgotten o s) -> wp (forget o) Q R s.
Proof. done. Qed.

Lemma Inv_forgotten s run o :
  Inv s run -> (forall e, entries s !! o = Some e -> idle_entry e = true /\ roots e = 0%nat) ->
  Inv (forgotten o s) run.
Proof.
  intros HI Hidle. destruct (entries s !! o) as [e|] eqn:He.
  - destruct (Hidle e eq_refl) as [Hi Hz].
    destruct HI as (Hlim & Hbox & Hent & Hrun & Hsize & Hroots & Htick & Hprep & Htr & Hact & Hret & Hlen).
    pose proof (Hent o e He) as (Hex & _). pose proof (idle_not_running s run o e Hex Hi) as Hno.
    apply idle_entry_spec in Hi as (_ & Hti & Hqu & Hpn). apply has_prepared_none in Hpn.
    pose proof (msum_delete roots _ _ _ He). pose proof (msum_delete placement_tickets _ _ _ He).
    pose proof (msum_delete has_prepared _ _ _ He). unfold Inv, counted in *.
    cbn [forgotten set_resolver set_entries entries limits registry local_id root_count placement_count
      prepared_count pending_transfers transfer_count active_migrations retirements].
    replace (msum roots (delete o (entries s))) with (msum roots (entries s)) by lia.
    replace (msum placement_tickets (delete o (entries s))) with (msum placement_tickets (entries s)) by lia.
    replace (msum has_prepared (delete o (entries s))) with (msum has_prepared (entries s)) by lia.
    split_and!; try apply Hroots; try apply Htick; try apply Hprep; try apply Htr; try done.
    + intros o'. rewrite <- Hbox. unfold mailbox.
      change (entries (forgotten o s)) with (delete o (entries s)).
      destruct (decide (o = o')) as [<-|Hne].
      * by rewrite lookup_delete_eq, He, Hqu.
      * by rewrite lookup_delete_ne.
    + by apply map_Forall_delete.
    + apply Forall_forall. intros x Hx. rewrite Forall_forall in Hrun, Hno.
      rewrite lookup_delete_ne by (symmetry; by apply Hno). by apply Hrun.
    + unfold map_len in *. rewrite map_size_delete_Some by eauto. lia.
    + eapply Forall_impl; [exact Hret|]. intros r Hr e' Hl. cbn in Hl. apply lookup_delete_Some in Hl as [_ Hl]. by apply (Hr e').
  - unfold forgotten. rewrite (delete_id (entries s) o He). exact HI.
Qed.

(** ** Every method keeps the accounts *)

(** From [s], [m] does not panic and leaves the accounts exact, also on errors. *)
Definition keeps {E A} run (m : M ObjectService E A) s : Prop :=
  wp m (fun _ s' => Inv s' run) (fun _ s' => Inv s' run) s.

Lemma keeps_bind {E A B} run (m : M ObjectService E A) (k : A -> M ObjectService E B) s :
  keeps run m s -> (forall a s', Inv s' run -> keeps run (k a) s') -> keeps run (m ≫= k) s.
Proof.
  intros Hm Hk. apply wp_bind. eapply wp_mono; [exact Hm| |done]. cbn. intros a s' Hs'. by apply Hk.
Qed.

Lemma keeps_ret {E A} run (a : A) s : Inv s run -> keeps run (mret (M := M ObjectService E) a) s.
Proof. done. Qed.

Lemma keeps_when {E} run b (m : M ObjectService E unit) s :
  Inv s run -> (b = true -> keeps run m s) -> keeps run (mwhen b m) s.
Proof. intros HI Hm. destruct b; [by apply Hm|done]. Qed.

Lemma keeps_unseen {E} run o f s :
  Inv s run ->
  (forall e, entries s !! o = Some e -> unseen e (f e) /\ (not_retiring s o \/ still_forwarding e (f e))) ->
  keeps run (update_entry (E := E) o f) s.
Proof. intros HI Hf. apply wp_update. by apply Inv_unseen. Qed.

Lemma keeps_forget {E} run o s :
  Inv s run -> (forall e, entries s !! o = Some e -> idle_entry e = true /\ roots e = 0%nat) ->
  keeps run (forget (E := E) o) s.
Proof. intros HI Hf. apply wp_forget. by apply Inv_forgotten. Qed.

Lemma Inv_entry s run o e : Inv s run -> entries s !! o = Some e -> entry_ok s run o e.
Proof. intros (_ & _ & Hent & _). apply Hent. Qed.

Lemma unseen_lifecycle s o e l :
  is_forwarding (lifecycle e) = false \/ is_forwarding l = true ->
  unseen e (set_lifecycle l e) /\ (not_retiring s o \/ still_forwarding e (set_lifecycle l e)).
Proof.
  intros Hl. split; [unfold unseen; by split_and!|right]. intros Hf _. cbn. destruct Hl; congruence.
Qed.

(** Queueing a retirement for an entry that only forwards. *)
Lemma Inv_queue_retirement s run r :
  Inv s run -> retiring_ok s r -> len (retirements s) < max_migrations (limits s) ->
  Inv (set_retirements (retirements s ++ [r]) s) run.
Proof.
  intros (Hlim & Hbox & Hent & Hrun & Hsize & Hroots & Htick & Hprep & Htr & Hact & Hret & Hlen) Hr Hl.
  unfold Inv. split_and!; try done; cbn [set_retirements retirements limits].
  - apply Forall_app. split; [exact Hret|by constructor].
  - rewrite len_app, len_cons, len_nil. lia.
Qed.

Lemma collect_keeps {E} run o s : Inv s run -> keeps run (collect (E := E) o) s.
Proof.
  intros HI. unfold collect. apply wp_bind, wp_gets.
  destruct (entries s !! o) as [e|] eqn:He; [|by apply keeps_ret].
  destruct (Inv_entry _ _ _ _ HI He) as (Hex & Hq & Hle & [reg Hty] & Hau).
  destruct (idle_entry e) eqn:Hidle; cbn [negb]; [|by apply keeps_ret].
  assert (Hforget : roots e = 0%nat -> keeps run (forget (E := E) o) s)
    by (intros Hz; apply keeps_forget; [done|]; intros ? [= <-]%(eq_trans (eq_sym He)); done).
  destruct (Z.eqb_spec (authority e) (local_id s)) as [_|Hne]; cbn [negb].
  2: { apply keeps_when; [done|]. intros _. by apply Hforget, Hau. }
  destruct (bool_decide (leases e = ∅)), (bool_decide_reflect (roots e = 0%nat)) as [Hz|]; try by apply keeps_ret.
  cbn [negb orb]. destruct (lifecycle e) as [| | |l t|] eqn:Hlife; try by apply keeps_ret.
  - apply keeps_when; [done|]. intros _. by apply Hforget.
  - destruct (bool_decide (is_Some (state e))); [by apply keeps_ret|].
    destruct (_ =? _); [by apply Hforget|]. rewrite Hty.
    destruct (Z.leb_spec (max_migrations (limits s)) (Z.of_nat (length (retirements s)))); [by apply keeps_ret|].
    apply wp_bind, wp_update, wp_modify. apply Inv_queue_retirement; [|intros e' Hl|done].
    + apply Inv_unseen; [done|]. intros e' Hl. apply unseen_lifecycle. by right.
    + cbn [ret_object] in Hl. rewrite lookup_put, decide_True, He in Hl by done. injection Hl as <-.
      split_and!; [done|exact Hidle|exact Hz].
Qed.

(** [collect] has no errors. *)
Lemma collect_total {E} o s (x : E) : (collect o s).1 <> Err (Raise x).
Proof.
  unfold collect. unfold mbind, M_bind, gets, mwhen, forget, update_entry, modify, panic.
  repeat case_match; simplify_eq; cbn; try done; congruence.
Qed.

(** *** Counters *)

Lemma fetch_sub_counted n k c limit :
  counted (n + k) c limit -> limit < 2 ^ 64 -> counted n (fetch_sub c (Z.of_nat k)) limit.
Proof.
  intros [-> Hle] Hl. unfold fetch_sub, wrapping_sub, counted. rewrite Z.mod_small by lia. lia.
Qed.

Lemma fetch_increment_counted n c c' limit :
  counted n c limit -> fetch_increment limit c = Some c' -> counted (S n) c' limit.
Proof.
  intros [-> _]. unfold fetch_increment, counted. destruct (Z.ltb_spec (Z.of_nat n) limit); [|done].
  intros [= <-]. lia.
Qed.

Lemma Inv_transfers s run p c :
  Inv s run -> counted (size p) c (max_transfers (limits s)) ->
  Inv (set_transfer_count c (set_pending_transfers p s)) run.
Proof.
  intros (Hlim & Hbox & Hent & Hrun & Hsize & Hroots & Htick & Hprep & Htr & Hact & Hret & Hlen) Hc.
  unfold Inv. by split_and!.
Qed.

Lemma Inv_set_leases s run o f m e :
  Inv s run -> entries s !! o = Some e -> f e = set_leases m e -> map_len m <= max_local_leases (limits s) ->
  Inv (put o f s) run.
Proof.
  intros HI He Hf Hle. destruct (Inv_entry _ _ _ _ HI He) as (Hex & Hq & _ & Hty & Hau).
  apply (Inv_put s run o _ e HI He); rewrite Hf; first [done|by right].
Qed.

Lemma limits_of s run : Inv s run -> limits_wf (limits s).
Proof. by intros (Hlim & _). Qed.

Lemma transfers_of s run : Inv s run -> counted (size (pending_transfers s)) (transfer_count s) (max_transfers (limits s)).
Proof. by intros (Hlim & Hbox & Hent & Hrun & Hsize & Hroots & Htick & Hprep & Htr & _). Qed.

(** Removing one pending transfer. *)
Lemma Inv_drop_transfer s run x :
  Inv s run -> x ∈ pending_transfers s ->
  Inv (set_transfer_count (fetch_sub (transfer_count s) 1)
         (set_pending_transfers (pending_transfers s ∖ {[x]}) s)) run.
Proof.
  intros HI Hx. apply Inv_transfers; [done|]. change 1 with (Z.of_nat 1).
  apply fetch_sub_counted; [|pose proof (limits_of _ _ HI) as Hl; unfold limits_wf in Hl; lia].
  rewrite size_difference, size_singleton by set_solver.
  pose proof (transfers_of _ _ HI) as Hc. replace (_ - 1 + 1)%nat with (size (pending_transfers s)); [done|].
  assert (size (pending_transfers s) <> 0%nat); [|lia]. intros Hz%size_empty_inv. set_solver.
Qed.

Lemma ack_transfer_keeps {E} run o l s : Inv s run -> keeps run (ack_transfer (E := E) o l) s.
Proof.
  intros HI. unfold ack_transfer. apply wp_bind, wp_gets. case_bool_decide as Hin; [|by apply keeps_ret].
  apply wp_bind, wp_modify, wp_bind, wp_modify, wp_ret.
  exact (Inv_drop_transfer s run (o, l) HI Hin).
Qed.

Lemma acquire_spec {E} run o l now s :
  Inv s run ->
  wp (acquire (E := E) o l now) (fun _ s' => Inv s' run /\ pending_transfers s' = pending_transfers s)
    (fun _ _ => False) s.
Proof.
  intros HI. unfold acquire. apply wp_bind, wp_gets.
  destruct (entries s !! o) as [e|] eqn:He; [|done].
  destruct (Inv_entry _ _ _ _ HI He) as (_ & _ & Hle & _).
  destruct (_ && _) eqn:Hfull; [done|].
  apply wp_bind, wp_update, wp_ret. split; [|done]. eapply Inv_set_leases; [done..|].
  unfold map_len in *. rewrite map_size_insert. destruct (leases e !! l) as [r|] eqn:Hl; [done|].
  rewrite bool_decide_eq_false_2, andb_true_r in Hfull by (by intros [? ?]). zbool. lia.
Qed.

Lemma acquire_keeps {E} run o l now s : Inv s run -> keeps run (acquire (E := E) o l now) s.
Proof. intros HI. eapply wp_mono; [by apply acquire_spec|by intros ? ? []|done]. Qed.

(** A transfer is counted before its lease is taken, and given back when there
    is none. *)
Lemma begin_transfer_keeps {E} run o l now s : Inv s run -> keeps run (begin_transfer (E := E) o l now) s.
Proof.
  intros HI. unfold begin_transfer. apply wp_bind, wp_gets. case_match; [by apply keeps_ret|].
  case_bool_decide as Hin; [by apply keeps_ret|].
  destruct (fetch_increment _ _) as [n|] eqn:Hn; [|by apply keeps_ret].
  apply wp_bind, wp_modify, wp_bind, wp_modify.
  set (s1 := set_pending_transfers _ _).
  assert (HI1 : Inv s1 run).
  { apply (Inv_transfers s run ({[(o, l)]} ∪ pending_transfers s) n); [done|].
    rewrite size_union, size_singleton by set_solver.
    by apply (fetch_increment_counted _ _ _ _ (transfers_of _ _ HI)). }
  apply wp_bind. eapply wp_mono; [apply (acquire_spec run o l now s1 HI1)| |done].
  cbn beta. intros [] s2 [HI2 Hp]; [by apply keeps_ret|].
  apply wp_bind, wp_modify, wp_bind, wp_modify, wp_ret.
  apply (Inv_drop_transfer s2 run (o, l) HI2). rewrite Hp. cbn. set_solver.
Qed.

Lemma release_root_keeps {E} run o s : Inv s run -> keeps run (release_root (E := E) o) s.
Proof.
  intros HI. unfold release_root. apply wp_bind, wp_gets.
  destruct (entries s !! o) as [e|] eqn:He; [|by apply keeps_ret].
  case_bool_decide as Hz; [by apply keeps_ret|].
  apply wp_bind, wp_update, wp_bind, wp_modify. set (s1 := set_root_count _ _).
  assert (HI1 : Inv s1 run).
  { destruct (Inv_entry _ _ _ _ HI He) as (Hex & Hq & Hle & Hty & Hau).
    pose proof HI as (Hlim & _ & _ & _ & _ & [Hr Hr'] & [_ ?] & [_ ?] & _). unfold limits_wf in Hlim.
    pose proof (msum_le roots _ o e He).
    assert (Hc : fetch_sub (root_count s) 1 = root_count s - 1)
      by (unfold fetch_sub, wrapping_sub; rewrite Z.mod_small; lia).
    refine (Inv_change s run run o _ e _ (placement_count s) (prepared_count s) HI He _ _ _ _ _ _ _ _ _ _ _);
      try done; try (by right); try (by apply (same_waiting s)); cbn [root_count put set_entries set_roots roots placement_tickets]; try lia.
    - split_and!; try done. intros Hne. cbn. by rewrite (Hau Hne).
    - change (has_prepared (set_roots _ e)) with (has_prepared e). lia. }
  apply keeps_bind; [by apply collect_keeps|]. intros; by apply keeps_ret.
Qed.

Lemma renew_keeps {E} run o l now s : Inv s run -> keeps run (renew (E := E) o l now) s.
Proof.
  intros HI. unfold renew. apply wp_bind, wp_gets.
  destruct (entries s !! o) as [e|] eqn:He; [|by apply keeps_ret].
  destruct (leases e !! l) as [r|] eqn:Hl; [|by apply keeps_ret].
  destruct (Inv_entry _ _ _ _ HI He) as (_ & _ & Hle & _).
  apply wp_bind, wp_update, wp_ret. eapply Inv_set_leases; [done..|].
  unfold map_len in *. by rewrite map_size_insert, Hl.
Qed.

Lemma release_keeps {E} run o l s : Inv s run -> keeps run (release (E := E) o l) s.
Proof.
  intros HI. unfold release. apply wp_bind, wp_gets.
  destruct (entries s !! o) as [e|] eqn:He; [|by apply keeps_ret].
  destruct (Inv_entry _ _ _ _ HI He) as (_ & _ & Hle & _).
  apply keeps_bind.
  - apply wp_update. eapply Inv_set_leases; [done..|]. unfold map_len in *.
    destruct (leases e !! l) as [r|] eqn:Hl; [|by rewrite delete_id].
    rewrite map_size_delete_Some by eauto. lia.
  - intros _ s1 HI1. apply keeps_bind; [by apply ack_transfer_keeps|].
    intros _ s2 HI2. apply keeps_bind; [by apply collect_keeps|]. intros; by apply keeps_ret.
Qed.

(** *** Creation *)

Lemma Inv_insert s run o e cr :
  Inv s run -> entries s !! o = None -> map_len (entries s) < max_objects (limits s) ->
  Forall (fun r => ret_object r <> o) (retirements s) ->
  admission e = mkAdmission 0 false [] -> in_flight e = 0%nat -> placement_tickets e = 0%nat ->
  prepared e = None -> map_len (leases e) <= max_local_leases (limits s) ->
  is_Some (types (registry s) !! entry_type e) -> (authority e <> local_id s -> roots e = 0%nat) ->
  counted (roots e + msum roots (entries s)) cr (max_roots (limits s)) ->
  Inv (set_root_count cr (set_entries (<[o := e]> (entries s)) s)) run.
Proof.
  intros (Hlim & Hbox & Hent & Hrun & Hsize & Hroots & Htick & Hprep & Htr & Hact & Hret & Hlen)
    Ho Hroom Hfresh Had Hfl Htk Hpr Hle Hty Hau Hc.
  assert (Hno : forall P, (forall x, P x = true -> job_object x = o) -> tally P run = 0%nat).
  { intros P HP. apply length_zero_iff_nil. destruct (filter _ (running run)) as [|x l] eqn:Hf; [done|].
    assert (Hx : x ∈ filter (fun x => P x = true) (running run)) by (rewrite Hf; apply list_elem_of_here).
    apply list_elem_of_filter in Hx as [HPx Hx]. rewrite Forall_forall in Hrun.
    specialize (Hrun x Hx). rewrite (HP x HPx), Ho in Hrun. by destruct Hrun. }
  unfold Inv, counted in *. cbn [set_root_count set_entries entries limits registry local_id
    root_count placement_count prepared_count pending_transfers transfer_count active_migrations retirements].
  rewrite !msum_insert by done. rewrite Htk. unfold has_prepared at 1. rewrite Hpr. cbn [Nat.add].
  split_and!; try apply Hc; try apply Htick; try apply Hprep; try apply Htr; try done.
  - intros o'. rewrite <- Hbox. unfold mailbox.
    change (entries (set_root_count _ _)) with (<[o := e]> (entries s)).
    destruct (decide (o = o')) as [<-|Hne]; [by rewrite lookup_insert_eq, Ho, Had|by rewrite lookup_insert_ne].
  - apply map_Forall_insert_2; [|exact Hent]. unfold entry_ok, admission_exact, queue_ok.
    rewrite Had, Hfl, Htk. cbn [readers writer queue].
    rewrite !Hno by (unfold is_read, is_write, is_placement; intros x Hx; zbool; tauto).
    split_and!; try done. unfold limits_wf, len in *. cbn. lia.
  - apply Forall_forall. rewrite Forall_forall in Hrun. intros x Hx. rewrite lookup_insert_is_Some. 
    destruct (decide (o = job_object x)); [by left|right; auto].
  - unfold map_len in *. rewrite map_size_insert_None by done. lia.
  - rewrite Forall_forall in *. intros r Hr e' Hl. cbn in Hl.
    rewrite lookup_insert_ne in Hl by (symmetry; by apply Hfresh). by apply (Hret r Hr).
Qed.

Lemma Inv_resolver s run x : Inv s run -> Inv (set_resolver x s) run.
Proof. done. Qed.

Lemma cache_location_keeps {E} run o l s : Inv s run -> keeps run (cache_location (E := E) o l) s.
Proof.
  intros HI. apply wp_modify. destruct (resolver s) as [m q].
  destruct (bool_decide _); [exact HI|]. destruct (_ <=? _); [|exact HI]. by destruct q.
Qed.

(** The two callers of [insert] look the type up first. *)
Lemma insert_keeps run env st now s :
  Inv s run -> is_Some (types (registry s) !! env_type env) -> not_retiring s (env_object env) ->
  keeps run (insert env st now) s.
Proof.
  intros HI Hty Hfresh. unfold insert. apply wp_bind, wp_gets.
  destruct (Z.leb_spec (max_objects (limits s)) (map_len (entries s))) as [|Hroom]; [done|].
  case_bool_decide as Hnew; [done|].
  apply wp_bind, wp_lift. destruct (checked_add _ _ _) as [slot|]; [|done]. cbn [ok_or].
  apply wp_bind, wp_modify, wp_bind, wp_lift. destruct (ObjectLocation_new _ _ _ _ _) as [l|]; [|done].
  cbn [map_err].
  assert (Hc : forall cr, counted ((if rooted env then 1 else 0) + msum roots (entries s)) cr (max_roots (limits s)) ->
    keeps (E := ActionError) run
      (modify (fun s => set_entries
        (<[env_object env := mkObjectEntry (env_type env) (local_id s) l (Some st) Resident None 0
              {[lease_locality env := mkLeaseRecord (now + lease_ttl (limits s)) None]}
              (if rooted env then 1 else 0) 0 0 (mkAdmission 0 false [])]> (entries s)) s);;
       cache_location (env_object env) l;; mret l)
      (set_root_count cr (set_next_slot slot s))).
  { intros cr Hcr. apply wp_bind, wp_modify.
    apply keeps_bind; [|intros; by apply keeps_ret]. apply cache_location_keeps.
    apply (Inv_insert s run _ _ cr HI); try done.
    - by apply eq_None_not_Some.
    - cbn [leases]. unfold map_len. rewrite map_size_singleton.
      pose proof (limits_of _ _ HI) as Hl. unfold limits_wf in Hl. lia. }
  assert (Hroots : counted (msum roots (entries s)) (root_count s) (max_roots (limits s)))
    by (by destruct HI as (_ & _ & _ & _ & _ & Hroots & _)).
  destruct (rooted env).
  - change (root_count (set_next_slot slot s)) with (root_count s) in *.
    destruct (fetch_increment _ _) as [n|] eqn:Hn; [|done].
    apply wp_bind, wp_modify. apply Hc. by apply (fetch_increment_counted _ _ _ _ Hroots).
  - apply wp_bind, wp_ret. exact (Hc _ Hroots).
Qed.

(** *** Expiry and retirements *)

(** Dropping the prepared state of an entry, with its permit. *)
Lemma Inv_take_prepared s run o e :
  Inv s run -> entries s !! o = Some e -> is_Some (prepared e) ->
  Inv (set_prepared_count (fetch_sub (prepared_count s) 1) (put o (set_prepared None) s)) run.
Proof.
  intros HI He [x Hx]. destruct (Inv_entry _ _ _ _ HI He) as (Hex & Hq & Hle & Hty & Hau).
  pose proof HI as (Hlim & _ & _ & _ & _ & [_ ?] & [_ ?] & [Hp ?] & _). unfold limits_wf in Hlim.
  pose proof (msum_le has_prepared _ o e He) as Hpe.
  assert (Hone : has_prepared e = 1%nat) by (unfold has_prepared; by rewrite Hx).
  assert (Hc : fetch_sub (prepared_count s) 1 = prepared_count s - 1)
    by (unfold fetch_sub, wrapping_sub; rewrite Z.mod_small; lia).
  refine (Inv_change s run run o (set_prepared None) e (root_count s) (placement_count s)
    (fetch_sub (prepared_count s) 1) HI He _ _ _ _ _ _ _ _ _ _ _);
    try done; try (by right); try (by apply (same_waiting s)); rewrite ?Hc, ?Hone; cbn [set_prepared roots placement_tickets]; try lia.
  - change (has_prepared (set_prepared None e)) with 0%nat. lia.
  - right. intros _ (_ & _ & _ & Hno)%idle_entry_spec. congruence.
Qed.

Lemma take_prepared_keeps {E} run o s : Inv s run -> keeps run (take_prepared (E := E) o) s.
Proof.
  intros HI. unfold take_prepared. apply wp_bind, wp_gets. apply keeps_when; [done|].
  destruct (entries s !! o) as [e|] eqn:He; [|done]. intros Hp%bool_decide_eq_true.
  apply wp_bind, wp_update, wp_modify. exact (Inv_take_prepared s run o e HI He Hp).
Qed.

(** Changes that touch neither accounts nor the lifecycle. *)
Lemma unseen_state s o e x :
  unseen e (set_state x e) /\ (not_retiring s o \/ still_forwarding e (set_state x e)).
Proof. split; [unfold unseen; by split_and!|right; by intros ? ?]. Qed.
Lemma unseen_bytes s o e x :
  unseen e (set_snapshot_bytes x e) /\ (not_retiring s o \/ still_forwarding e (set_snapshot_bytes x e)).
Proof. split; [unfold unseen; by split_and!|right; by intros ? ?]. Qed.
Lemma unseen_location s o e x :
  unseen e (set_location x e) /\ (not_retiring s o \/ still_forwarding e (set_location x e)).
Proof. split; [unfold unseen; by split_and!|right; by intros ? ?]. Qed.

Lemma expire_lifecycle_keeps {E} run now o e s :
  Inv s run -> entries s !! o = Some e -> keeps run (expire_lifecycle (E := E) now o e) s.
Proof.
  intros HI He. unfold expire_lifecycle. apply wp_bind, wp_gets.
  destruct (lifecycle e) eqn:Hl; try by apply keeps_ret.
  - apply keeps_when; [done|]. intros _. apply keeps_unseen; [done|]. intros e' He'.
    rewrite He in He'. injection He' as <-. split; [unfold unseen; by split_and!|right].
    intros Hf. by rewrite Hl in Hf.
  - apply keeps_when; [done|]. intros _. apply keeps_bind; [by apply take_prepared_keeps|].
    intros _ s1 HI1. apply keeps_unseen; [done|]. intros. apply unseen_lifecycle. by right.
  - apply keeps_when; [done|]. intros _. apply keeps_unseen; [done|]. intros. apply unseen_state.
Qed.

Lemma size_expire_leases now grace m : (size (expire_leases now grace m) <= size m)%nat.
Proof.
  unfold expire_leases. rewrite <- (map_size_fmap (suspect now) m). apply map_subseteq_size, map_filter_subseteq.
Qed.

Lemma expire_entry_keeps {E} run now o s : Inv s run -> keeps run (expire_entry (E := E) now o) s.
Proof.
  intros HI. unfold expire_entry. apply wp_bind, wp_gets.
  destruct (entries s !! o) as [e|] eqn:He; [|by apply keeps_ret].
  apply keeps_bind; [by apply expire_lifecycle_keeps|]. intros _ s1 HI1.
  apply wp_bind, wp_gets. apply keeps_bind; [apply keeps_when; [done|]; intros _; by apply take_prepared_keeps|].
  intros _ s2 HI2. apply keeps_bind.
  { apply wp_update. destruct (entries s2 !! o) as [e2|] eqn:He2.
    - destruct (Inv_entry _ _ _ _ HI2 He2) as (_ & _ & Hle & _). eapply Inv_set_leases; [done..|].
      pose proof (size_expire_leases now (lease_grace (limits s)) (leases e2)). unfold map_len in *. lia.
    - apply Inv_unseen; [done|]. by rewrite He2. }
  intros _ s3 HI3. apply wp_bind, wp_gets. cbv zeta. set (active := match _ with Some _ => _ | None => _ end).
  set (after := filter _ (pending_transfers s3)).
  assert (Hsz : (size after <= size (pending_transfers s3))%nat) by (apply subseteq_size; set_solver).
  pose proof (transfers_of _ _ HI3) as Htr. pose proof (limits_of _ _ HI3) as Hl. unfold limits_wf in Hl.
  apply wp_bind, wp_modify. apply keeps_bind; [|intros; by apply collect_keeps].
  destruct (bool_decide_reflect (size (pending_transfers s3) = size after)) as [Heq|Hne]; cbn [negb mwhen].
  - apply keeps_ret. apply (Inv_transfers s3 run after (transfer_count s3) HI3). by rewrite <- Heq.
  - apply wp_modify. apply (Inv_transfers s3 run after _ HI3). apply fetch_sub_counted; [|lia].
    by replace (size after + (size (pending_transfers s3) - size after))%nat with (size (pending_transfers s3)) by lia.
Qed.

Lemma for_each_keeps {E A} run (f : A -> M ObjectService E unit) l s :
  (forall x s, Inv s run -> keeps run (f x) s) -> Inv s run -> keeps run (for_each f l) s.
Proof.
  intros Hf. revert s. induction l as [|x l IH]; intros s HI; cbn [for_each]; [by apply keeps_ret|].
  apply keeps_bind; [by apply Hf|]. intros _ s'. apply IH.
Qed.

Lemma expire_keeps {E} run now order s : Inv s run -> keeps run (expire (E := E) now order) s.
Proof. intros HI. apply for_each_keeps; [|done]. intros. by apply expire_entry_keeps. Qed.

(** *** Admission *)

Definition admitted (x : ObjectJob) run : Ledger := mkLedger (x :: running run) (waiting run).

Definition queued_call (o : ObjectId) (j : ActionJob) run : Ledger :=
  mkLedger (running run) (fun o' => if decide (o = o') then waiting run o' ++ [j] else waiting run o').

Lemma tally_admitted P x run : tally P (admitted x run) = ((if P x then 1 else 0) + tally P run)%nat.
Proof.
  unfold tally. cbn [admitted running]. rewrite filter_cons. destruct (P x).
  - by rewrite decide_True.
  - by rewrite decide_False.
Qed.

(** What a call adds to the counts of object [o]. *)
Lemma is_read_job o o' r p : is_read o (mkObjectJob o' r p) = bool_decide (o' = o) && negb p && r.
Proof. done. Qed.
Lemma is_write_job o o' r p : is_write o (mkObjectJob o' r p) = bool_decide (o' = o) && negb p && negb r.
Proof. done. Qed.
Lemma is_placement_job o o' r p : is_placement o (mkObjectJob o' r p) = bool_decide (o' = o) && p.
Proof. done. Qed.
#[local] Hint Rewrite tally_admitted is_read_job is_write_job is_placement_job : ledger.

Lemma admitted_elsewhere x run o e :
  job_object x <> o -> admission_exact run o e -> admission_exact (admitted x run) o e.
Proof.
  intros Hne (Hr & Hw & Hp & Hf). destruct x as [o' r p]. cbn in Hne. unfold admission_exact.
  autorewrite with ledger. rewrite bool_decide_eq_false_2 by done. by split_and!.
Qed.

Lemma Inv_enter s run o e r :
  Inv s run -> entries s !! o = Some e -> is_forwarding (lifecycle e) = false ->
  (r = false -> writer (admission e) = false) ->
  Inv (put o (enter r) s) (admitted (mkObjectJob o r false) run).
Proof.
  intros HI He Hf Hw. destruct (Inv_entry _ _ _ _ HI He) as (Hex & Hq & Hle & Hty & Hau).
  pose proof HI as (_ & _ & _ & _ & _ & [_ ?] & [_ ?] & [_ ?] & _).
  refine (Inv_change s run _ o (enter r) e (root_count s) (placement_count s) (prepared_count s) HI He
    _ _ _ _ _ _ _ _ _ _ _); try done; try lia.
  - split_and!; try done; [| |by destruct r..]; destruct Hex as (Hr & Hwr & Hp & Hfl).
    + unfold admission_exact. autorewrite with ledger. rewrite bool_decide_eq_true_2 by done.
      destruct r; cbn; [split_and!; lia|]. rewrite (Hw eq_refl) in *. split_and!; lia.
    + unfold queue_ok in *. by destruct r.
  - intros o' e' Hne. by apply admitted_elsewhere.
  - intros x [->|Hx]%elem_of_cons; [by left|by right].
  - apply (same_waiting s run o (enter r) e HI He). by destruct r.
  - by destruct r; cbn; lia.
  - by destruct r; cbn; lia.
  - destruct r; change (has_prepared (enter _ e)) with (has_prepared e); lia.
  - right. congruence.
Qed.

(** Taking a placement ticket. *)
Definition ticketed e : ObjectEntry :=
  set_in_flight (S (in_flight e)) (set_placement_tickets (S (placement_tickets e)) e).

Lemma Inv_ticket s run o e n :
  Inv s run -> entries s !! o = Some e -> is_forwarding (lifecycle e) = false ->
  fetch_increment (max_placement_tickets (limits s)) (placement_count s) = Some n ->
  Inv (set_placement_count n (put o ticketed s)) (admitted (mkObjectJob o false true) run).
Proof.
  intros HI He Hf Hn. destruct (Inv_entry _ _ _ _ HI He) as (Hex & Hq & Hle & Hty & Hau).
  pose proof HI as (_ & _ & _ & _ & _ & [_ ?] & Ht & [_ ?] & _).
  destruct (fetch_increment_counted _ _ _ _ Ht Hn) as [Hn1 Hn2]. destruct Ht as [Ht1 Ht2].
  refine (Inv_change s run _ o ticketed e (root_count s) n (prepared_count s) HI He
    _ _ _ _ _ _ _ _ _ _ _); try done; try (cbn; lia).
  - split_and!; try done; destruct Hex as (Hr & Hwr & Hp & Hfl).
    unfold admission_exact. autorewrite with ledger. rewrite bool_decide_eq_true_2 by done.
    cbn. split_and!; lia.
  - intros o' e' Hne. by apply admitted_elsewhere.
  - intros x [->|Hx]%elem_of_cons; [by left|by right].
  - by apply (same_waiting s run o ticketed e HI He).
  - change (has_prepared (ticketed e)) with (has_prepared e). lia.
  - right. congruence.
Qed.

(** Queueing a call. *)
Lemma Inv_enqueue s run o e j r :
  Inv s run -> entries s !! o = Some e -> is_forwarding (lifecycle e) = false ->
  object_job j = Some (mkObjectJob o r false) ->
  len (queue (admission e)) < max_mailbox_per_object (limits s) ->
  Inv (put o (map_admission (fun a => set_queue (queue a ++ [j]) a)) s) (queued_call o j run).
Proof.
  intros HI He Hf Hj Hlen. destruct (Inv_entry _ _ _ _ HI He) as (Hex & [Hq1 Hq2] & Hle & Hty & Hau).
  pose proof HI as (_ & Hbox & _ & _ & _ & [_ ?] & [_ ?] & [_ ?] & _).
  set (f := map_admission _).
  refine (Inv_change s run _ o f e (root_count s) (placement_count s) (prepared_count s) HI He
    _ _ _ _ _ _ _ _ _ _ _); try done; try (cbn; lia).
  - split_and!; try done. split; cbn [f map_admission set_admission admission set_queue queue].
    + apply Forall_app. split; [done|]. constructor; [by exists r|constructor].
    + rewrite len_app, len_cons, len_nil. lia.
  - by right.
  - intros o'. cbn [queued_call waiting f map_admission set_admission admission set_queue queue].
    case_decide as Hd; [|done]. subst. rewrite <- Hbox. unfold mailbox. by rewrite He.
  - change (has_prepared (f e)) with (has_prepared e). lia.
  - right. congruence.
Qed.

Lemma admission_lifecycle_ok o m t l l' :
  admission_lifecycle o m t l = Ok l' -> is_forwarding l = false /\ is_forwarding l' = false.
Proof.
  unfold admission_lifecycle. destruct m, l; try done; try (by intros [= <-]).
  case_bool_decide; [|done]. by intros [= <-].
Qed.

(** What [admit] answers: a call of no object goes through; a call of an object
    is handed out at once, with its ticket or over an empty mailbox, or waits
    at the end of the mailbox. *)
Definition admit_answer run (job : ActionJob) (r : option ActionJob) s' : Prop :=
  match r with
  | Some j =>
      (j = job /\ Inv s' run) \/
      (exists x, j = with_object x job /\ Inv s' (admitted x run) /\
         (placement x = true \/ waiting run (job_object x) = []))
  | None => exists o r, Inv s' (queued_call o (with_object (mkObjectJob o r false) job) run)
  end.

Lemma admit_spec run now action job avail s :
  Inv s run -> wp (admit_request now action job avail) (admit_answer run job) (fun _ s' => Inv s' run) s.
Proof.
  intros HI. unfold admit_request. apply wp_bind, wp_gets. cbv zeta.
  case_match eqn:Hmanaged; [apply wp_ret; by left|].
  apply wp_bind, wp_lift. destruct (job_input job) as [segments|]; [|done].
  apply wp_bind, wp_lift. destruct (admission_key _ _) as [[[[o ty'] epoch] m]|]; [|done].
  apply wp_bind, wp_lift. destruct (entries s !! o) as [e|] eqn:He; [|done]. cbn [ok_or].
  destruct (_ =? ty'); cbn [negb]; [|done]. destruct (_ =? epoch); cbn [negb]; [|done].
  apply wp_bind, wp_lift. destruct (admission_lifecycle _ _ _ _) as [l|] eqn:Hl; [|done].
  apply admission_lifecycle_ok in Hl as [Hf Hf'].
  apply wp_bind, wp_update. set (s1 := put o (set_lifecycle l) s).
  assert (HI1 : Inv s1 run).
  { apply Inv_unseen; [done|]. intros e' He'. rewrite He in He'. injection He' as <-.
    apply unseen_lifecycle. by left. }
  assert (He1 : entries s1 !! o = Some (set_lifecycle l e))
    by (unfold s1; by rewrite lookup_put, decide_True, He).
  destruct (bool_decide (is_Some (placements (registry s) !! action))).
  - destruct avail; cbn [negb]; [|done]. destruct (is_resident l); cbn [negb]; [|done].
    apply wp_bind, wp_lift. destruct (fetch_increment _ _) as [n|] eqn:Hn; [|done]. cbn [ok_or].
    apply wp_bind, wp_modify, wp_bind, wp_update, wp_ret. right. eexists. split; [done|].
    split; [|by left]. exact (Inv_ticket s1 run o _ n HI1 He1 Hf' Hn).
  - set (r := match actions _ !! action with Some _ => _ | None => _ end).
    destruct (avail && _ && _ && _) eqn:Hav.
    + zbool. apply wp_bind, wp_update, wp_ret. right. eexists. split; [done|]. split; [|right].
      * apply (Inv_enter s1 run o _ r HI1 He1 Hf'). intros ->. cbn [can_enter] in *. zbool.
        match goal with Hw : writer (admission e) = false |- _ => exact Hw end.
      * destruct HI as (_ & Hbox & _). rewrite <- Hbox. unfold mailbox. cbn. rewrite He. tauto.
    + destruct (Z.leb_spec (max_mailbox_per_object (limits s)) (len (queue (admission e)))); [done|].
      apply wp_bind, wp_update, wp_ret. exists o, r.
      by apply (Inv_enqueue s1 run o _ _ r HI1 He1 Hf').
Qed.

(** *** Completion *)

(** The order of the ledger does not matter. *)
Definition ledger_equiv : relation Ledger := fun a b => running a ≡ₚ running b /\ forall o, waiting a o = waiting b o.

#[export] Instance tally_proper P : Proper (ledger_equiv ==> eq) (tally P).
Proof. intros a b [Hp _]. unfold tally. by rewrite Hp. Qed.

Lemma Inv_equiv s run run' : ledger_equiv run run' -> Inv s run -> Inv s run'.
Proof.
  intros Heq (Hlim & Hbox & Hent & Hrun & Hsize & Hroots & Htick & Hprep & Htr & Hact & Hret & Hlen).
  unfold Inv. split_and!; try apply Hroots; try apply Htick; try apply Hprep; try apply Htr; try done.
  - intros o. rewrite Hbox. apply Heq.
  - intros o e He. destruct (Hent o e He) as (Hex & Hb). split; [|exact Hb].
    unfold admission_exact in *. by rewrite <- !(tally_proper _ _ _ Heq).
  - destruct Heq as [Hp _]. by rewrite <- Hp.
Qed.

Lemma not_idle_running s run o e x :
  admission_exact run o e -> x ∈ running run -> job_object x = o -> idle_entry e = false.
Proof.
  intros Hex Hx Ho. apply not_true_is_false. intros Hi.
  pose proof (idle_not_running s run o e Hex Hi) as Hno. rewrite Forall_forall in Hno. by apply (Hno x Hx).
Qed.

(** What the completion of [x] does to its entry. *)
Definition leave (x : ObjectJob) e : ObjectEntry :=
  let e := if placement x then set_placement_tickets (pred (placement_tickets e)) e
           else map_admission (fun a => if read x then set_readers (pred (readers a)) a else set_writer false a) e in
  set_in_flight (pred (in_flight e)) e.

Lemma put_put o f g s : put o g (put o f s) = put o (fun e => g (f e)) s.
Proof.
  destruct s. unfold put. cbn. by rewrite alter_alter_eq.
Qed.

Lemma leave_exact run o r p e :
  admission_exact (admitted (mkObjectJob o r p) run) o e ->
  admission_exact run o (leave (mkObjectJob o r p) e) /\
  Z.of_nat (placement_tickets (leave (mkObjectJob o r p) e)) =
    Z.of_nat (placement_tickets e) - (if p then 1 else 0).
Proof.
  unfold admission_exact. autorewrite with ledger. rewrite bool_decide_eq_true_2 by done.
  intros (Hr & Hw & Hp & Hf). destruct p, r, (writer (admission e)) eqn:Hwr;
    cbn [negb andb leave placement read map_admission set_admission set_in_flight set_placement_tickets
      admission readers writer placement_tickets in_flight set_readers set_writer pred] in *;
    rewrite ?Hwr; split_and!; lia.
Qed.

Lemma Inv_leave s run x e :
  Inv s (admitted x run) -> entries s !! job_object x = Some e ->
  Inv (set_placement_count (placement_count s - (if placement x then 1 else 0)) (put (job_object x) (leave x) s)) run.
Proof.
  intros HI He. destruct x as [o r p]. cbn [job_object placement] in *.
  destruct (Inv_entry _ _ _ _ HI He) as (Hex & Hq & Hle & Hty & Hau).
  pose proof (not_idle_running s _ o e (mkObjectJob o r p) Hex ltac:(by left) eq_refl) as Hbusy.
  destruct (leave_exact run o r p e Hex) as [Hex' Htk].
  pose proof HI as (_ & _ & _ & _ & _ & [_ ?] & [_ ?] & [_ ?] & _).
  refine (Inv_change s _ run o (leave (mkObjectJob o r p)) e (root_count s)
    (placement_count s - (if p then 1 else 0)) (prepared_count s) HI He
    _ _ _ _ _ _ _ _ _ _ _); try done; try (destruct p, r; cbn in *; lia).
  - unfold entry_ok. split_and!; [exact Hex'|unfold queue_ok in *; by destruct p, r|by destruct p, r..].
  - intros o' e' Hne He'. destruct He' as (Hr & Hw & Hp & Hf). unfold admission_exact.
    revert Hr Hw Hp. autorewrite with ledger. rewrite bool_decide_eq_false_2 by done. intros. by split_and!.
  - intros y Hy. right. by right.
  - apply (same_waiting s _ o _ e HI He). by destruct p, r.
  - destruct p, r; change (has_prepared (leave _ e)) with (has_prepared e); lia.
  - right. intros _ Hi. congruence.
Qed.

Lemma object_complete_spec {E} run x s :
  Inv s (admitted x run) -> wp (complete (E := E) x) (fun r s' => r = [] /\ Inv s' run) (fun _ _ => False) s.
Proof.
  intros HI. unfold complete. apply wp_bind, wp_gets.
  destruct (entries s !! job_object x) as [e|] eqn:He.
  2: { pose proof HI as (_ & _ & _ & Hrun & _). apply Forall_cons_1 in Hrun as [[? Hx] _]. congruence. }
  pose proof (Inv_leave s run x e HI He) as Hleave. destruct (Inv_entry _ _ _ _ HI He) as (Hex & _).
  pose proof HI as (Hlim & _ & _ & _ & _ & _ & [Ht ?] & _). unfold limits_wf in Hlim.
  pose proof (msum_le placement_tickets _ _ _ He). unfold leave in Hleave.
  destruct (placement x) eqn:Hp.
  - assert (Htk : (0 < placement_tickets e)%nat).
    { destruct Hex as (_ & _ & Hpl & _). revert Hpl. rewrite tally_admitted. unfold is_placement at 1.
      rewrite bool_decide_eq_true_2, Hp by done. cbn. lia. }
    apply wp_bind, wp_bind, wp_update, wp_modify, wp_bind, wp_update, wp_ret. split; [done|].
    set (f := fun e : ObjectEntry => set_placement_tickets _ e). set (g := fun e : ObjectEntry => set_in_flight _ e).
    change (Inv (set_placement_count (fetch_sub (placement_count s) 1)
      (put (job_object x) g (put (job_object x) f s))) run).
    rewrite put_put. replace (fetch_sub (placement_count s) 1) with (placement_count s - 1); [exact Hleave|].
    unfold fetch_sub, wrapping_sub. rewrite Z.mod_small; lia.
  - apply wp_bind, wp_update, wp_bind, wp_update, wp_ret. split; [done|].
    rewrite put_put. rewrite Z.sub_0_r in Hleave. exact Hleave.
Qed.

(** *** The mailboxes *)

Definition mailbox_job (o : ObjectId) (j : ActionJob) : Prop :=
  exists r, object_job j = Some (mkObjectJob o r false).

(** The admission metadata of handed out jobs. *)
Definition metadata (jobs : list ActionJob) : list ObjectJob := omap object_job jobs.

Definition tally_of (P : ObjectJob -> bool) (l : list ObjectJob) : nat := length (filter (fun x => P x = true) l).

Lemma tally_of_app P l k : tally_of P (l ++ k) = (tally_of P l + tally_of P k)%nat.
Proof. unfold tally_of. by rewrite filter_app, length_app. Qed.

Lemma tally_of_cons P x l : tally_of P (x :: l) = ((if P x then 1 else 0) + tally_of P l)%nat.
Proof. exact (tally_admitted P x (mkLedger l (fun _ => []))). Qed.

Lemma retry_queue_spec o n avail t q : forall a fl,
  Forall (mailbox_job o) q -> writer a = false ->
  exists jobs a' fl', retry_queue n avail t q a fl = Some (jobs, a', fl') /\
    q = jobs ++ queue a' /\ (length jobs <= n)%nat /\
    readers a' = (readers a + tally_of (is_read o) (metadata jobs))%nat /\
    (if writer a' then 1 else 0)%nat = tally_of (is_write o) (metadata jobs) /\
    tally_of (is_placement o) (metadata jobs) = 0%nat /\
    fl' = (fl + length jobs)%nat /\ length (metadata jobs) = length jobs.
Proof.
  revert q. induction n as [|n IH]; intros q a fl Hq Hw.
  { cbn. do 3 eexists. split; [done|]. cbn. rewrite Hw. split_and!; done || lia. }
  destruct q as [|front rest].
  { cbn. do 3 eexists. split; [done|]. cbn. rewrite Hw. split_and!; done || lia. }
  apply Forall_cons_1 in Hq as [[r Hj] Hrest]. cbn [retry_queue].
  destruct (_ || _).
  { do 3 eexists. split; [done|]. cbn. rewrite Hw. split_and!; done || lia. }
  rewrite Hj. cbn [option_bind mbind read]. destruct r.
  - destruct (IH rest (set_readers (S (readers a)) a) (S fl) Hrest Hw)
      as (jobs & a' & fl' & Heq & Hq' & Hn & Hr & Hwr & Hp & Hf & Hlen).
    unfold mbind, option_bind. rewrite Heq. do 3 eexists. split; [done|].
    unfold metadata in *. cbn [omap list_omap]. rewrite Hj. cbn [set_readers readers] in Hr.
    rewrite !tally_of_cons, is_read_job, is_write_job, is_placement_job, bool_decide_eq_true_2 by done.
    cbn. split_and!; try lia; [by rewrite Hq'].
  - do 3 eexists. split; [done|]. unfold metadata. cbn [omap list_omap]. rewrite Hj.
    rewrite !tally_of_cons, is_read_job, is_write_job, is_placement_job, bool_decide_eq_true_2 by done.
    cbn. split_and!; done || lia.
Qed.

(** [jobs] leave the front of the mailbox of [o], whose rest is [q]. *)
Definition handed_out (o : ObjectId) (jobs q : list ActionJob) run : Ledger :=
  mkLedger (metadata jobs ++ running run) (fun o' => if decide (o = o') then q else waiting run o').

Lemma Inv_handed_out s run o e jobs a' :
  Inv s run -> entries s !! o = Some e -> writer (admission e) = false ->
  queue (admission e) = jobs ++ queue a' ->
  readers a' = (readers (admission e) + tally_of (is_read o) (metadata jobs))%nat ->
  (if writer a' then 1 else 0)%nat = tally_of (is_write o) (metadata jobs) ->
  tally_of (is_placement o) (metadata jobs) = 0%nat -> length (metadata jobs) = length jobs ->
  Inv (put o (fun e => set_in_flight (in_flight e + length jobs) (set_admission a' e)) s)
    (handed_out o jobs (queue a') run).
Proof.
  intros HI He Hw Hq Hr Hwr Hp Hlen. destruct (Inv_entry _ _ _ _ HI He) as (Hex & [Hq1 Hq2] & Hle & Hty & Hau).
  pose proof HI as (_ & _ & _ & _ & _ & [_ ?] & [_ ?] & [_ ?] & _).
  assert (Hmeta : Forall (fun x => exists r, x = mkObjectJob o r false) (metadata jobs)).
  { rewrite Hq in Hq1. apply Forall_app in Hq1 as [Hj _]. apply Forall_forall. intros x Hx.
    apply list_elem_of_omap in Hx as (j & Hin & Hj'). rewrite Forall_forall in Hj.
    destruct (Hj j Hin) as [r Hr']. exists r. congruence. }
  set (f := fun e : ObjectEntry => _).
  refine (Inv_change s run _ o f e (root_count s) (placement_count s) (prepared_count s) HI He
    _ _ _ _ _ _ _ _ _ _ _); try done; try (cbn; lia).
  - destruct Hex as (Hr1 & Hw1 & Hp1 & Hf1). unfold entry_ok. split_and!; try done.
    + unfold admission_exact, tally, handed_out, f in *. cbn [running set_in_flight set_admission admission
        placement_tickets in_flight].
      change (length (filter (fun x => ?P x = true) ?l)) with (tally_of P l) in *. rewrite !tally_of_app.
      rewrite Hw in *. split_and!; try lia.
      assert (Hsum : (tally_of (is_read o) (metadata jobs) + tally_of (is_write o) (metadata jobs))%nat
                     = length (metadata jobs)); [|lia].
      clear -Hmeta. induction Hmeta as [|x l [r ->] _ IH]; [done|].
      rewrite !tally_of_cons, is_read_job, is_write_job, bool_decide_eq_true_2 by done. cbn. destruct r; cbn; lia.
    + split; cbn.
      * rewrite Hq in Hq1. by apply Forall_app in Hq1 as [_ ?].
      * rewrite Hq, len_app in Hq2. pose proof (len_nonneg jobs). lia.
  - intros o' e' Hne (Hr1 & Hw1 & Hp1 & Hf1).
    assert (Hno : forall P, (forall r, P (mkObjectJob o r false) = false) -> tally_of P (metadata jobs) = 0%nat).
    { intros P HP. clear -Hmeta HP. induction Hmeta as [|x l [r ->] _ IH]; [done|].
      by rewrite tally_of_cons, HP. }
    unfold admission_exact, tally, handed_out in *. cbn [running].
    change (length (filter (fun x => ?P x = true) ?l)) with (tally_of P l) in *. rewrite !tally_of_app.
    assert (Hne' : bool_decide (o = o') = false) by (by apply bool_decide_eq_false_2; congruence).
    rewrite (Hno (is_read o')), (Hno (is_write o')), (Hno (is_placement o'))
      by (intros r; rewrite ?is_read_job, ?is_write_job, ?is_placement_job, Hne'; done). by split_and!.
  - intros x [Hx|Hx]%elem_of_app; [left|by right]. rewrite Forall_forall in Hmeta. by destruct (Hmeta x Hx) as [r ->].
  - change (has_prepared (f e)) with (has_prepared e). lia.
  - right. intros Hf Hi Hz. apply idle_entry_spec in Hi as (Hi1 & Hi2 & Hi3 & Hi4).
    rewrite Hi3 in Hq. symmetry in Hq. apply app_eq_nil in Hq as [-> Hqa].
    split_and!; [done| |done]. apply idle_entry_spec. cbn. rewrite Hqa. split_and!; try done. lia.
Qed.

(** The calls of [o] that go through its mailbox. *)
Definition on_object (o : ObjectId) (j : ActionJob) : bool :=
  match object_job j with Some x => bool_decide (job_object x = o) && negb (placement x) | None => false end.
Definition mail (o : ObjectId) (l : list ActionJob) : list ActionJob := filter (fun j => on_object o j = true) l.

Lemma mail_app o l k : mail o (l ++ k) = mail o l ++ mail o k.
Proof. apply filter_app. Qed.

Lemma mail_own o l : Forall (mailbox_job o) l -> mail o l = l.
Proof.
  induction 1 as [|j l [r Hj] _ IH]; [done|]. unfold mail. rewrite filter_cons_True; [by f_equal|].
  unfold on_object. rewrite Hj. by rewrite bool_decide_eq_true_2.
Qed.

Lemma mail_other o o' l : o <> o' -> Forall (mailbox_job o) l -> mail o' l = [].
Proof.
  intros Hne. induction 1 as [|j l [r Hj] _ IH]; [done|]. unfold mail. rewrite filter_cons_False; [done|].
  unfold on_object. rewrite Hj. by rewrite bool_decide_eq_false_2.
Qed.

Lemma put_ext o f g s e : entries s !! o = Some e -> f e = g e -> put o f s = put o g s.
Proof.
  intros He Hfg. unfold put. f_equal. rewrite !(alter_some _ _ _ e) by done. by rewrite Hfg.
Qed.

(** [jobs] are handed out: each from the front of the mailbox of its object. *)
Definition delivered run (jobs : list ActionJob) run' : Prop :=
  running run' ≡ₚ metadata jobs ++ running run /\
  forall o, waiting run o = mail o jobs ++ waiting run' o.

Lemma delivered_trans a b c l k : delivered a l b -> delivered b k c -> delivered a (l ++ k) c.
Proof.
  intros [Hr Hw] [Hr' Hw']. split.
  - rewrite Hr', Hr. unfold metadata. rewrite omap_app. solve_Permutation.
  - intros o. by rewrite Hw, Hw', mail_app, app_assoc.
Qed.

Lemma retry_entries_spec {E} max avail order : forall ready s run,
  Inv s run ->
  wp (retry_entries (E := E) max avail order ready)
    (fun out s' => exists jobs run', out = ready ++ jobs /\ delivered run jobs run' /\
      Forall (fun j => exists o, mailbox_job o j) jobs /\ Inv s' run')
    (fun _ _ => False) s.
Proof.
  induction order as [|o order IH]; intros ready s run HI; cbn [retry_entries].
  { apply wp_ret. exists [], run. rewrite app_nil_r. by split_and!. }
  destruct (max <=? length ready)%nat. { apply wp_ret. exists [], run. rewrite app_nil_r. by split_and!. }
  apply wp_bind, wp_gets. destruct (entries s !! o) as [e|] eqn:He; [|by apply IH].
  destruct (writer (admission e)) eqn:Hw; cbn [orb]; [by apply IH|].
  case_bool_decide as Hr0; cbn [negb]; [|by apply IH].
  destruct (Inv_entry _ _ _ _ HI He) as (Hex & [Hq _] & _).
  destruct (retry_queue_spec o (max - length ready) avail (placement_tickets e) (queue (admission e))
    (admission e) (in_flight e) Hq Hw) as (jobs & a' & fl' & -> & Hq' & _ & Hr & Hwr & Hp & -> & Hlen).
  apply wp_bind, wp_update.
  erewrite (put_ext o _ (fun e => set_in_flight (in_flight e + length jobs) (set_admission a' e))) by done.
  pose proof (Inv_handed_out s run o e jobs a' HI He Hw Hq' Hr Hwr Hp Hlen) as HI'.
  eapply wp_mono; [apply (IH (ready ++ jobs) _ _ HI')| |done].
  intros out s' (jobs2 & run' & -> & Hd & Hb & HI2). exists (jobs ++ jobs2), run'. rewrite app_assoc.
  rewrite Hq' in Hq. apply Forall_app in Hq as [Hq _].
  split_and!; [done| |by apply Forall_app; split; [eapply Forall_impl; [exact Hq|]; eauto|]|done].
  eapply delivered_trans; [|exact Hd]. split; [done|]. intros o'. cbn [handed_out waiting].
  destruct HI as (_ & Hbox & _). case_decide as Hd'.
  - subst. rewrite mail_own, <- Hbox by done. unfold mailbox. by rewrite He.
  - by rewrite (mail_other o o').
Qed.

(** *** Calls on local objects *)

Lemma with_pin_keeps {A} run o r (body : M ObjectService RuntimeError A) s :
  keeps (admitted (mkObjectJob o r false) run) body s -> keeps run (with_pin o r body) s.
Proof.
  unfold with_pin, keeps, wp. intros Hbody.
  assert (Hdrop : forall s', Inv s' (admitted (mkObjectJob o r false) run) ->
    exists s'', (complete (mkObjectJob o r false);; collect (E := RuntimeError) o) s' = (Ok tt, s'') /\ Inv s'' run).
  { intros s' HI'. pose proof (object_complete_spec (E := RuntimeError) _ _ _ HI') as Hc.
    unfold mbind, M_bind. unfold wp in Hc. destruct (complete _ s') as [[l|[]] s1]; try done. destruct Hc as [_ HI1].
    pose proof (collect_keeps (E := RuntimeError) run o s1 HI1) as Hcol. unfold keeps, wp in Hcol.
    pose proof (collect_total (E := RuntimeError) o s1) as Htot.
    destruct (collect o s1) as [[[]|[x|]] s2]; [by exists s2|by destruct (Htot x)|done]. }
  destruct (body s) as [[a|[x|]] s1]; try done; destruct (Hdrop _ Hbody) as (s2 & -> & HI2); done.
Qed.

Lemma keeps_lift {E A} run (r : result E A) s : Inv s run -> keeps run (lift (S := ObjectService) r) s.
Proof. intros HI. apply wp_lift. by destruct r. Qed.

(** A computation whose continuation does not need its answer. *)
Lemma keeps_lift_bind {E A B} run (r : result E A) (k : A -> M ObjectService E B) s :
  Inv s run -> (forall a, r = Ok a -> keeps run (k a) s) -> keeps run (lift r ≫= k) s.
Proof. intros HI Hk. apply wp_bind, wp_lift. destruct r as [a|e]; [by apply Hk|done]. Qed.

Lemma local_entry_ok o t l s e : local_entry o t l s = Ok e -> entries s !! o = Some e.
Proof.
  unfold local_entry. intros Hok. bind_inv Hok. bind_inv Hok. bind_inv Hok. injection Hok as <-.
  unfold ok_or in *. by destruct (entries s !! o); simplify_eq.
Qed.

Lemma admit_local_spec run o e r s :
  Inv s run -> entries s !! o = Some e ->
  wp (admit_local o e r) (fun _ s' => Inv s' (admitted (mkObjectJob o r false) run)) (fun _ s' => Inv s' run) s.
Proof.
  intros HI He. unfold admit_local. apply wp_bind, wp_gets, wp_bind, wp_lift.
  destruct (admission_lifecycle _ _ _ _) as [l|] eqn:Hl; [|done]. apply admission_lifecycle_ok in Hl as [Hf _].
  destruct (negb _) eqn:Hc; [done|]. zbool. apply wp_update. apply (Inv_enter s run o e r HI He Hf).
  intros ->. cbn [can_enter] in *. by zbool.
Qed.

Lemma local_call_keeps {A} run o t l r (body : ObjectService -> ObjectEntry -> M ObjectService RuntimeError A) s :
  (forall s0 e s' run', Inv s' run' -> keeps run' (body s0 e) s') -> Inv s run ->
  keeps run (s ← gets (fun s => s); e ← lift (local_entry o t l s); admit_local o e r;; with_pin o r (body s e)) s.
Proof.
  intros Hbody HI. apply wp_bind, wp_gets. apply keeps_lift_bind; [done|]. intros e He%local_entry_ok.
  apply wp_bind. eapply wp_mono; [by apply (admit_local_spec run o e r s)| |done].
  cbn. intros _ s' HI'. apply with_pin_keeps. by apply Hbody.
Qed.

Lemma call_read_local_keeps run T A o t l action s :
  Inv s run -> keeps run (call_read_local T A o t l action) s.
Proof.
  apply (local_call_keeps run o t l true (fun s e => _)). intros s0 e s' run' HI'.
  apply keeps_lift_bind; [done|]. intros st _. destruct (bool_decide _); [done|].
  destruct (negb _); [done|]. apply keeps_lift_bind; [done|]. intros typed _.
  apply wp_bind, wp_modify. by apply keeps_lift.
Qed.

Lemma call_write_local_keeps run T A o t l action s :
  Inv s run -> keeps run (call_write_local T A o t l action) s.
Proof.
  apply (local_call_keeps run o t l false (fun s e => _)). intros s0 e s' run' HI'.
  apply keeps_lift_bind; [done|]. intros st _. destruct (negb _); [done|].
  apply keeps_lift_bind; [done|]. intros typed _. destruct (write_execute _ _ _ _) as [r typed'].
  apply keeps_bind; [apply keeps_unseen; [done|]; intros; apply unseen_state|].
  intros _ s1 HI1. apply wp_bind, wp_modify. by apply keeps_lift.
Qed.

Lemma keeps_lift_exn {E A} run (r : result (exn E) A) s :
  Inv s run -> r <> Err Panic -> keeps run (lift_exn (S := ObjectService) r) s.
Proof. intros HI Hr. unfold keeps, wp, lift_exn. by destruct r as [a|[e|]]. Qed.

(** Whatever a handler does to the service; user code may panic. *)
Definition leaves {E A} run (m : M ObjectService E A) s : Prop := Inv (m s).2 run.

Lemma leaves_bind {E A B} run (m : M ObjectService E A) (k : A -> M ObjectService E B) s :
  leaves run m s -> (forall a s', Inv s' run -> leaves run (k a) s') -> leaves run (m ≫= k) s.
Proof.
  unfold leaves, mbind, M_bind. intros Hm Hk. destruct (m s) as [[a|e] s']; [by apply Hk|done].
Qed.

Lemma leaves_keeps {E A} run (m : M ObjectService E A) s : keeps run m s -> leaves run m s.
Proof. unfold keeps, wp, leaves. by destruct (m s) as [[a|[e|]] s']. Qed.

Lemma leaves_lift_exn {E A} run (r : result (exn E) A) s : Inv s run -> leaves run (lift_exn (S := ObjectService) r) s.
Proof. done. Qed.

Lemma object_action_leaves run reg segments s : Inv s run -> leaves run (object_action reg segments) s.
Proof.
  intros HI. unfold object_action. apply leaves_bind; [by apply leaves_keeps, keeps_lift|].
  intros [env input] s1 HI1. destruct (negb _); [done|]. apply leaves_bind; [done|]. intros _ s2 HI2.
  apply leaves_bind; [done|]. intros s2' s3 HI3. apply leaves_bind; [by apply leaves_keeps, keeps_lift|].
  intros e s4 HI4. destruct (_ || _); [done|]. destruct (object_handler _ _ _) as [r st].
  apply leaves_bind; [|intros; by apply leaves_lift_exn].
  apply leaves_keeps, keeps_unseen; [done|]. intros. apply unseen_state.
Qed.

(** *** Retirements *)

Lemma retiring_forgotten s o r : retiring_ok s r -> retiring_ok (forgotten o s) r.
Proof. intros Hr e Hl. cbn in Hl. apply lookup_delete_Some in Hl as [_ Hl]. by apply Hr. Qed.

Lemma send_retirements_keeps {E} run l : forall sent s,
  Inv s run -> Forall (retiring_ok s) l -> len l + len (retirements s) <= max_migrations (limits s) ->
  keeps run (send_retirements (E := E) sent l) s.
Proof.
  induction l as [|r l IH]; intros sent s HI Hl Hlen; [destruct sent; exact HI|].
  rewrite len_cons in Hlen. pose proof (len_nonneg l). apply Forall_cons_1 in Hl as [Hr Hl].
  destruct sent as [|[] sent].
  2: { apply wp_bind, wp_forget. apply IH; [|eapply Forall_impl; [exact Hl|]; apply retiring_forgotten|cbn; lia].
    apply Inv_forgotten; [done|]. intros e He. destruct (Hr e He) as (_ & Hi & Hz). done. }
  all: apply wp_modify; destruct HI as (Hlim & Hbox & Hent & Hrun & Hsize & Hroots & Htick & Hprep & Htr & Hact & Hret & Hle);
    unfold Inv; split_and!; try done; cbn [set_retirements retirements limits]; [by constructor|rewrite len_cons; lia].
Qed.

Lemma drain_retirements_keeps {E} run limit sent s :
  Inv s run -> keeps run (drain_retirements (E := E) limit sent) s.
Proof.
  intros HI. unfold drain_retirements, take_retirements.
  apply wp_bind, wp_bind, wp_gets, wp_bind, wp_modify, wp_ret. pose proof HI as HI0.
  destruct HI as (Hlim & Hbox & Hent & Hrun & Hsize & Hroots & Htick & Hprep & Htr & Hact & Hret & Hle).
  pose proof (take_drop limit (retirements s)) as Htd.
  assert (Hlen : len (take limit (retirements s)) + len (drop limit (retirements s)) = len (retirements s))
    by (rewrite <- Htd at 3; by rewrite len_app).
  apply send_retirements_keeps; [|by apply Forall_take|cbn [set_retirements retirements limits]; lia].
  pose proof (len_nonneg (take limit (retirements s))).
  unfold Inv; split_and!; try done; cbn [set_retirements retirements limits]; [by apply Forall_drop|lia].
Qed.

(** *** Migration *)

Lemma begin_migration_keeps run m s : Inv s run -> keeps run (begin_migration m) s.
Proof.
  intros HI. unfold begin_migration. apply wp_bind, wp_gets.
  destruct (Z.leb_spec (max_migrations (limits s)) (Z.of_nat (size (active_migrations s)))); [done|].
  apply keeps_bind; [|intros; by case_bool_decide]. apply wp_modify.
  destruct HI as (Hlim & Hbox & Hent & Hrun & Hsize & Hroots & Htick & Hprep & Htr & Hact & Hret & Hle).
  unfold Inv; split_and!; try done. cbn [set_active_migrations active_migrations limits].
  pose proof (size_union_alt {[m]} (active_migrations s)) as Hu. rewrite size_singleton in Hu.
  pose proof (subseteq_size (active_migrations s ∖ {[m]}) (active_migrations s) ltac:(set_solver)). lia.
Qed.

Lemma finish_migration_keeps {E} run m out bytes s : Inv s run -> keeps run (finish_migration (E := E) m out bytes) s.
Proof.
  intros HI. unfold finish_migration. apply keeps_bind.
  - apply wp_modify.
    destruct HI as (Hlim & Hbox & Hent & Hrun & Hsize & Hroots & Htick & Hprep & Htr & Hact & Hret & Hle).
    unfold Inv; split_and!; try done. cbn [set_active_migrations active_migrations limits].
    pose proof (subseteq_size (active_migrations s ∖ {[m]}) (active_migrations s) ltac:(set_solver)). lia.
  - intros _ s1 HI1. destruct out; by repeat (apply wp_bind || apply wp_modify).
Qed.

Lemma entry_for_migration_spec run p s :
  Inv s run ->
  wp (entry_for_migration p) (fun e s' => s' = s /\ entries s !! packet_object p = Some e)
    (fun _ s' => Inv s' run) s.
Proof.
  intros HI. unfold entry_for_migration. apply wp_bind, wp_gets, wp_bind, wp_lift.
  destruct (entries s !! packet_object p) as [e|]; [|done]. cbn [ok_or].
  destruct (negb _); [done|]. by apply wp_ret.
Qed.

(** A step on the entry of a packet. *)
Lemma on_entry_keeps {A} run p (k : ObjectEntry -> M ObjectService ActionError A) s :
  Inv s run -> (forall e, entries s !! packet_object p = Some e -> keeps run (k e) s) ->
  keeps run (entry_for_migration p ≫= k) s.
Proof.
  intros HI Hk. apply wp_bind. eapply wp_mono; [by apply (entry_for_migration_spec run)| |done].
  cbn. intros e s' [-> He]. by apply Hk.
Qed.

Lemma registered_type_spec run t (k : ObjectTypeRegistration -> M ObjectService ActionError MigrationPacket) s :
  Inv s run -> (forall r, keeps run (k r) s) -> keeps run (registered_type t ≫= k) s.
Proof.
  intros HI Hk. unfold registered_type. apply wp_bind, wp_bind, wp_gets, wp_lift.
  destruct (types (registry s) !! t); [apply Hk|done].
Qed.

(** An update that touches neither the accounts nor, unless the entry cannot be
    forwarding, the lifecycle. *)
Lemma update_keeps {E A} run o f (k : M ObjectService E A) s :
  Inv s run ->
  (forall e, entries s !! o = Some e -> unseen e (f e) /\ (not_retiring s o \/ still_forwarding e (f e))) ->
  (Inv (put o f s) run -> keeps run k (put o f s)) -> keeps run (update_entry o f;; k) s.
Proof. intros HI Hf Hk. apply wp_bind, wp_update, Hk. by apply Inv_unseen. Qed.

Lemma freeze_migration_keeps run now p s : Inv s run -> keeps run (freeze_migration now p) s.
Proof.
  intros HI. unfold freeze_migration. cbv zeta. set (o := packet_object p).
  apply on_entry_keeps; [done|]. intros e He. fold o in He. destruct (_ || _); [done|].
  apply registered_type_spec; [done|]. intros r. apply keeps_lift_bind; [done|]. intros fz _.
  destruct (negb _); [done|]. apply wp_bind, wp_gets.
  (* the lifecycle is not forwarding from here on *)
  assert (Hrest : forall s1 e1, Inv s1 run -> entries s1 !! o = Some e1 -> is_forwarding (lifecycle e1) = false ->
    keeps run (st ← lift (resident_state e); let '(frozen, st') := fz st in
      update_entry o (set_state (Some st'));;
      match frozen with
      | Err (Raise x) => update_entry o (set_lifecycle Resident);; raise x
      | Err Panic => update_entry o (set_lifecycle Resident);; raise ActionError_Panic
      | Ok snapshot =>
          match validate_snapshot snapshot s with
          | Err x => update_entry o (set_lifecycle Resident);; raise x
          | Ok bytes => update_entry o (set_snapshot_bytes bytes);; mret (with_snapshot snapshot p)
          end
      end) s1).
  { intros s1 e1 HI1 He1 Hf1. apply keeps_lift_bind; [done|]. intros st _. destruct (fz st) as [frozen st'].
    apply update_keeps; [done|intros; apply unseen_state|]. intros HI2.
    assert (Hback : forall x, keeps run (update_entry o (set_lifecycle Resident);; raise x)
      (put o (set_state (Some st')) s1) (A := MigrationPacket) (E := ActionError)).
    { intros x. apply update_keeps; [done| |by intros HI3]. intros e2 He2.
      rewrite lookup_put, decide_True, He1 in He2 by done. injection He2 as <-.
      apply unseen_lifecycle. by left. }
    destruct frozen as [snapshot|[x|]]; [|apply Hback..]. destruct (validate_snapshot _ _); [|apply Hback].
    by apply update_keeps; [|intros; apply unseen_bytes|]. }
  destruct (lifecycle e) eqn:Hl; try done; cbn [mbind].
  - apply update_keeps; [done| |].
    + intros e' He'. apply unseen_lifecycle. left. rewrite He in He'. injection He' as <-. by rewrite Hl.
    + intros HI1. eapply Hrest; [done| |].
      * rewrite lookup_put, decide_True, He by done. done.
      * done.
  - case_bool_decide; [|done]. apply wp_bind, wp_ret. apply (Hrest s e); [done..|]. by rewrite Hl.
Qed.

Lemma commit_migration_keeps run now p s : Inv s run -> keeps run (commit_migration now p) s.
Proof.
  intros HI. unfold commit_migration. apply wp_bind, wp_gets. destruct (negb _); [done|].
  apply on_entry_keeps; [done|]. intros e He. destruct (_ && _); [done|]. case_bool_decide; [done|].
  apply update_keeps; [done|intros; apply unseen_location|]. intros HI1.
  apply update_keeps; [done|intros; apply unseen_lifecycle; by right|]. intros HI2.
  apply keeps_bind; [by apply cache_location_keeps|]. intros; by apply keeps_ret.
Qed.

Lemma retire_migration_keeps run now p s : Inv s run -> keeps run (retire_migration now p) s.
Proof.
  intros HI. unfold retire_migration. apply wp_bind, wp_gets.
  apply on_entry_keeps; [done|]. intros e He. destruct (_ <? _); [done|].
  apply update_keeps; [done|intros; apply unseen_state|]. intros HI1.
  apply update_keeps; [done|intros; apply unseen_bytes|]. intros HI2.
  apply update_keeps; [done|intros; apply unseen_location|]. intros HI3.
  apply update_keeps; [done|intros; apply unseen_lifecycle; by right|]. intros HI4.
  apply keeps_bind; [by apply cache_location_keeps|]. intros _ s5 HI5.
  apply keeps_bind; [by apply collect_keeps|]. intros; by apply keeps_ret.
Qed.

Lemma rollback_migration_keeps run p s : Inv s run -> keeps run (rollback_migration p) s.
Proof.
  intros HI. unfold rollback_migration. apply wp_bind, wp_gets.
  destruct (entries s !! packet_object p) as [e|] eqn:He; [|by apply keeps_ret].
  set (mine := match prepared e with Some _ => _ | None => _ end).
  assert (Hmine : mine = true -> is_Some (prepared e)) by (unfold mine; destruct (prepared e); [eauto|done]).
  assert (Hlast : forall s1, Inv s1 run -> (exists e1, entries s1 !! packet_object p = Some e1 /\ lifecycle e1 = lifecycle e) ->
    keeps run (mwhen (match lifecycle e with Freezing m _ => bool_decide (m = packet_migration p) | _ => false end)
      (update_entry (packet_object p) (set_lifecycle Resident);;
       update_entry (packet_object p) (set_snapshot_bytes 0));; mret (M := M ObjectService ActionError) p) s1).
  { intros s1 HI1 (e1 & He1 & Hl1). apply keeps_bind; [|intros; by apply keeps_ret].
    apply keeps_when; [done|]. intros Hfz. apply update_keeps; [done| |].
    - intros e' He'. rewrite He1 in He'. injection He' as <-. apply unseen_lifecycle. left. rewrite Hl1.
      by destruct (lifecycle e).
    - intros HI2. apply keeps_unseen; [done|]. intros. apply unseen_bytes. }
  destruct mine; cbn [mwhen].
  - apply wp_bind, wp_bind, wp_update, wp_modify. apply Hlast.
    + exact (Inv_take_prepared s run _ e HI He (Hmine eq_refl)).
    + exists (set_prepared None e). split; [|done].
      change (entries (put (packet_object p) (set_prepared None) s) !! packet_object p = Some (set_prepared None e)).
      by rewrite lookup_put, decide_True, He.
  - apply wp_bind, wp_ret. apply Hlast; [done|by exists e].
Qed.

(** A prepared entry is not idle, so no retirement of it is queued. *)
Lemma prepared_not_retiring s run o e :
  Inv s run -> entries s !! o = Some e -> is_Some (prepared e) -> not_retiring s o.
Proof.
  intros (Hlim & Hbox & Hent & Hrun & Hsize & Hroots & Htick & Hprep & Htr & Hact & Hret & Hle) He [x Hx].
  unfold not_retiring. eapply Forall_impl; [exact Hret|]. intros r Hr <-.
  destruct (Hr e He) as (_ & (_ & _ & _ & Hno)%idle_entry_spec & _). congruence.
Qed.

Lemma activate_migration_keeps run p s : Inv s run -> keeps run (activate_migration p) s.
Proof.
  intros HI. unfold activate_migration. cbv zeta. set (o := packet_object p).
  apply on_entry_keeps; [done|]. intros e He. fold o in He.
  destruct (prepared e) as [x|] eqn:Hx; cbn [ok_or].
  2: { apply update_keeps; [done| |by intros]. intros e' He'. rewrite He in He'. injection He' as <-.
       split; [unfold unseen, has_prepared; split_and!; try done; by rewrite Hx|right; by intros ? ?]. }
  pose proof (prepared_not_retiring s run o e HI He ltac:(eauto)) as Hnr.
  apply wp_bind, wp_update, wp_bind, wp_lift, wp_bind, wp_modify.
  set (s1 := set_prepared_count _ _).
  assert (HI1 : Inv s1 run) by exact (Inv_take_prepared s run o e HI He ltac:(eauto)).
  destruct (_ || _); [done|].
  apply update_keeps; [done|intros; apply unseen_location|]. intros HI2.
  apply update_keeps; [done|intros; apply unseen_state|]. intros HI3.
  apply update_keeps; [done|intros; apply unseen_bytes|]. intros HI4.
  apply update_keeps; [done|intros; split; [unfold unseen; by split_and!|left; exact Hnr]|]. intros HI5.
  apply keeps_bind; [by apply cache_location_keeps|]. intros; by apply keeps_ret.
Qed.

(** While a permit is held the counter of prepared states is one ahead. *)
Definition permitted run s : Prop :=
  Inv (set_prepared_count (prepared_count s - 1) s) run /\
  prepared_count s <= max_prepared_migrations (limits s).

(** What the holder of a permit may do; user code may panic. *)
Definition permit_post run {A} (r : result (exn ActionError) (A * bool)) s : Prop :=
  match r with Ok (_, true) => Inv s run | _ => permitted run s end.

Definition under_permit {A} run (m : M ObjectService ActionError (A * bool)) s : Prop :=
  permit_post run (m s).1 (m s).2.

Lemma permitted_give_back run s :
  permitted run s -> Inv (set_prepared_count (fetch_sub (prepared_count s) 1) s) run.
Proof.
  intros [HI Hle]. pose proof HI as (Hlim & _ & _ & _ & _ & _ & _ & [Hp _] & _). unfold limits_wf in Hlim.
  change (prepared_count (set_prepared_count (prepared_count s - 1) s)) with (prepared_count s - 1) in Hp.
  change (limits (set_prepared_count (prepared_count s - 1) s)) with (limits s) in Hlim.
  unfold fetch_sub, wrapping_sub. rewrite Z.mod_small by lia. exact HI.
Qed.

Lemma with_permit_leaves {A} run (m : M ObjectService ActionError (A * bool)) s :
  under_permit run m s -> leaves run (with_permit m) s.
Proof.
  unfold under_permit, permit_post, leaves, with_permit.
  destruct (m s) as [[[a []]|e] s1]; cbn; [done|intros ?%permitted_give_back; done..].
Qed.

Lemma up_lift {A B} run (r : result ActionError A) (k : A -> M ObjectService ActionError (B * bool)) s :
  permitted run s -> (forall a, r = Ok a -> under_permit run (k a) s) -> under_permit run (lift r ≫= k) s.
Proof. intros Hp Hk. unfold under_permit. mrun. destruct r as [a|e]; [by apply Hk|exact Hp]. Qed.

Lemma up_lift_exn {A B} run (r : result (exn ActionError) A) (k : A -> M ObjectService ActionError (B * bool)) s :
  permitted run s -> (forall a, r = Ok a -> under_permit run (k a) s) -> under_permit run (lift_exn r ≫= k) s.
Proof. intros Hp Hk. unfold under_permit. mrun. destruct r as [a|e]; [by apply Hk|exact Hp]. Qed.

Lemma prepare_permitted_spec run now p bytes r s :
  permitted run s -> is_Some (types (registry s) !! packet_type p) -> not_retiring s (packet_object p) ->
  under_permit run (prepare_permitted now p bytes r) s.
Proof.
  intros Hs Hty Hnr. unfold prepare_permitted. cbv zeta. set (o := packet_object p) in *.
  change (under_permit run (gets (fun s => s) ≫= ?k) s) with (under_permit run (k s) s). cbv beta.
  destruct (store_is_full o s); [exact Hs|].
  apply up_lift; [done|]. intros epoch _. apply up_lift; [done|]. intros l _. apply up_lift; [done|]. intros slot _.
  change (under_permit run (modify ?f ≫= ?k) s) with (under_permit run (k tt) (f s)). cbv beta.
  set (s1 := set_next_slot slot s). assert (Hs1 : permitted run s1) by exact Hs.
  apply up_lift; [done|]. intros restore _. apply up_lift_exn; [done|]. intros restored _.
  change (under_permit run (gets (fun s => s) ≫= ?k) s1) with (under_permit run (k s1) s1). cbv beta.
  destruct (store_is_full o s1) eqn:Hfull; [exact Hs1|].
  set (t := now + forwarding_ttl (limits s1)). set (e := default (fresh_entry p t) (entries s1 !! o)).
  change (under_permit run (modify ?f ≫= ?k) s1) with (under_permit run (k tt) (f s1)). cbv beta.
  set (s2 := set_entries (<[o := e]> (entries s1)) s1).
  assert (Hs2 : permitted run s2).
  { destruct Hs1 as [HI Hle]. split; [|exact Hle]. unfold s2, e. destruct (entries s1 !! o) as [e0|] eqn:He0; cbn [default].
    - unfold permitted. rewrite insert_id by done. exact HI.
    - unfold store_is_full in Hfull. rewrite He0, bool_decide_eq_false_2, andb_true_r in Hfull by (by intros [? ?]).
      pose proof HI as (Hlim & _ & _ & _ & _ & Hroots & _). zbool.
      apply (Inv_insert _ run o (fresh_entry p t) (root_count s) HI); try done.
      unfold limits_wf in Hlim. cbn [fresh_entry leases]. unfold map_len. rewrite map_size_empty.
      change (limits (set_prepared_count _ s1)) with (limits s) in *. lia. }
  destruct (negb _ || negb _); [exact Hs2|].
  assert (He2 : entries s2 !! o = Some e) by apply lookup_insert_eq.
  destruct (prepared e) as [x|] eqn:Hx; [destruct (_ || _); exact Hs2|].
  unfold under_permit, permit_post. cbn [fst snd].
  set (y := mkPreparedState _ _ _ _ _).
  change (Inv (put o (set_prepared (Some y)) s2) run).
  destruct Hs2 as [HI Hle]. set (b := set_prepared_count (prepared_count s2 - 1) s2) in *.
  destruct (Inv_entry b run o e HI He2) as (Hex & Hq & Hl & Ht & Hau).
  pose proof HI as (_ & _ & _ & _ & _ & [_ ?] & [_ ?] & _).
  refine (Inv_change b run run o (set_prepared (Some y)) e (root_count b) (placement_count b) (prepared_count s2)
    HI He2 _ _ _ _ _ _ _ _ _ _ _); try done; try (by right); try (by apply (same_waiting b)); try (by left);
    try (cbn; lia).
  change (has_prepared (set_prepared (Some y) e)) with 1%nat. unfold has_prepared. rewrite Hx.
  change (prepared_count b) with (prepared_count s2 - 1). lia.
Qed.

Lemma prepare_migration_leaves run now p s :
  Inv s run -> not_retiring s (packet_object p) -> leaves run (prepare_migration now p) s.
Proof.
  intros HI Hnr. unfold prepare_migration, leaves. mrun. destruct (negb _); [done|]. mrun.
  destruct (validate_snapshot _ _) as [bytes|]; [|done]. unfold registered_type. mrun.
  destruct (types (registry s) !! packet_type p) as [r|] eqn:Hty; cbn [ok_or]; [|done].
  destruct (_ || _); [done|]. mrun. destruct (fetch_increment _ _) as [n|] eqn:Hn; cbn [ok_or]; [|done].
  apply with_permit_leaves, prepare_permitted_spec; [|eauto|done].
  pose proof HI as (_ & _ & _ & _ & _ & _ & _ & Hp & _).
  destruct (fetch_increment_counted _ _ _ _ Hp Hn) as [Hn1 Hn2]. destruct Hp as [Hp _]. split; [|exact Hn2].
  cbn [set_prepared_count prepared_count]. replace (n - 1) with (prepared_count s) by lia. exact HI.
Qed.
End Runs.
