(* ===== verification/ObjectWorld.v ===== *)
(** * ObjectWorld: the object service under any sequence of calls

    A world is the service of a locality with the calls that run on it and the
    mailbox calls it accepted and handed out so far.  A step is one call of a
    method with any arguments; [reachable] worlds are those after any steps. *)
From Stdlib Require Import Strings.Byte.
From S2P Require Import Prelude Text Protocol Error RuntimeTypes RuntimeWire Action Domain ObjectWire ObjectRegistry Objects Migration ObjectRuns.

Section World.
Context `{AnyTypes}.
Implicit Types (s : ObjectService) (run : Ledger).

(** The calls that admit and complete nothing. *)
Inductive service_call : Type :=
| Call_insert (env : ObjectEnvelope) (st : ErasedState) (now : Z)
| Call_cache (o : ObjectId) (l : ObjectLocation)
| Call_clear_resolver
| Call_acquire (o : ObjectId) (l : LocalityId) (now : Z)
| Call_begin_transfer (o : ObjectId) (l : LocalityId) (now : Z)
| Call_ack_transfer (o : ObjectId) (l : LocalityId)
| Call_renew (o : ObjectId) (l : LocalityId) (now : Z)
| Call_release (o : ObjectId) (l : LocalityId)
| Call_release_root (o : ObjectId)
| Call_expire (now : Z) (order : list ObjectId)
| Call_drain (limit : nat) (sent : list bool)
| Call_read (T : DistributedObject) (A : ObjectReadAction T) (o : ObjectId) (t : Z) (l : ObjectLocation)
    (action : sort_of (read_ty T A))
| Call_write (T : DistributedObject) (A : ObjectWriteAction T) (o : ObjectId) (t : Z) (l : ObjectLocation)
    (action : sort_of (write_ty T A))
| Call_object_action (reg : ObjectActionRegistration) (segments : Segments)
| Call_begin_migration (m : RequestId)
| Call_finish_migration (m : RequestId) (outcome : MigrationOutcome) (bytes : Z)
| Call_freeze (now : Z) (p : MigrationPacket)
| Call_prepare (now : Z) (p : MigrationPacket)
| Call_commit (now : Z) (p : MigrationPacket)
| Call_activate (p : MigrationPacket)
| Call_rollback (p : MigrationPacket)
| Call_retire (now : Z) (p : MigrationPacket).

Definition quietly {E A} (m : M ObjectService E A) : M ObjectService unit unit :=
  with_error (fun _ => tt) (m;; mret tt).

Definition perform (c : service_call) : M ObjectService unit unit :=
  match c with
  | Call_insert env st now => quietly (insert env st now)
  | Call_cache o l => cache_location o l
  | Call_clear_resolver => clear_resolver
  | Call_acquire o l now => quietly (acquire (E := unit) o l now)
  | Call_begin_transfer o l now => quietly (begin_transfer (E := unit) o l now)
  | Call_ack_transfer o l => quietly (ack_transfer (E := unit) o l)
  | Call_renew o l now => quietly (renew (E := unit) o l now)
  | Call_release o l => quietly (release (E := unit) o l)
  | Call_release_root o => quietly (release_root (E := unit) o)
  | Call_expire now order => expire now order
  | Call_drain limit sent => drain_retirements limit sent
  | Call_read T A o t l action => quietly (call_read_local T A o t l action)
  | Call_write T A o t l action => quietly (call_write_local T A o t l action)
  | Call_object_action reg segments => quietly (object_action reg segments)
  | Call_begin_migration m => quietly (begin_migration m)
  | Call_finish_migration m outcome bytes => finish_migration m outcome bytes
  | Call_freeze now p => quietly (freeze_migration now p)
  | Call_prepare now p => quietly (prepare_migration now p)
  | Call_commit now p => quietly (commit_migration now p)
  | Call_activate p => quietly (activate_migration p)
  | Call_rollback p => quietly (rollback_migration p)
  | Call_retire now p => quietly (retire_migration now p)
  end.

(** Objects are created with a registered type, and an object whose retirement
    is queued is neither created anew nor migrated back. *)
Definition allowed (c : service_call) s : Prop :=
  match c with
  | Call_insert env _ _ => is_Some (types (registry s) !! env_type env) /\ not_retiring s (env_object env)
  | Call_prepare _ p => not_retiring s (packet_object p)
  | _ => True
  end.

(** Calls that run user code outside [catch_unwind]; the panic of a handler is
    caught by [execute]. *)
Definition runs_user_code (c : service_call) : bool :=
  match c with Call_object_action _ _ | Call_prepare _ _ => true | _ => false end.

Lemma quietly_keeps {E A} run (m : M ObjectService E A) s : keeps run m s -> keeps run (quietly m) s.
Proof.
  unfold keeps, wp, quietly, with_error, mbind, M_bind. by destruct (m s) as [[a|[e|]] s'].
Qed.

Lemma quietly_leaves {E A} run (m : M ObjectService E A) s : leaves run m s -> leaves run (quietly m) s.
Proof.
  unfold leaves, quietly, with_error, mbind, M_bind. by destruct (m s) as [[a|[e|]] s'].
Qed.

Lemma clear_resolver_keeps {E} run s : Inv s run -> keeps run (clear_resolver (E := E)) s.
Proof. done. Qed.

#[local] Hint Resolve quietly_keeps insert_keeps cache_location_keeps clear_resolver_keeps acquire_keeps
  begin_transfer_keeps ack_transfer_keeps renew_keeps release_keeps release_root_keeps expire_keeps
  drain_retirements_keeps call_read_local_keeps call_write_local_keeps begin_migration_keeps
  finish_migration_keeps freeze_migration_keeps commit_migration_keeps activate_migration_keeps
  rollback_migration_keeps retire_migration_keeps : calls.

Lemma perform_keeps run c s :
  Inv s run -> allowed c s -> runs_user_code c = false -> keeps run (perform c) s.
Proof. intros HI Hal Hu. destruct c; cbn [perform allowed] in *; try done; destruct_and?; eauto with calls. Qed.

Lemma perform_leaves run c s : Inv s run -> allowed c s -> leaves run (perform c) s.
Proof.
  intros HI Hal. destruct (runs_user_code c) eqn:Hu; [|by apply leaves_keeps, perform_keeps].
  destruct c; try done; apply quietly_leaves; [by apply object_action_leaves|by apply prepare_migration_leaves].
Qed.

(** The service, the calls that run, and the mailbox calls accepted and handed
    out so far. *)
Record World : Type := mkWorld {
  svc : ObjectService;
  active : list ObjectJob;
  accepted : list ActionJob;
  handed : list ActionJob;
}.

Definition is_mailbox_call (j : ActionJob) : bool :=
  match object_job j with Some x => negb (placement x) | None => false end.

Inductive world_step : World -> World -> Prop :=
| step_call w c :
    allowed c (svc w) ->
    world_step w (mkWorld (perform c (svc w)).2 (active w) (accepted w) (handed w))
| step_admit w now action job avail j s :
    object_job job = None -> admit_request now action job avail (svc w) = (Ok (Some j), s) ->
    world_step w (mkWorld s (metadata [j] ++ active w)
      (accepted w ++ filter (fun j => is_mailbox_call j = true) [j])
      (handed w ++ filter (fun j => is_mailbox_call j = true) [j]))
| step_queue w now action job avail o j s :
    object_job job = None -> admit_request now action job avail (svc w) = (Ok None, s) ->
    mailbox s o = mailbox (svc w) o ++ [j] ->
    world_step w (mkWorld s (active w) (accepted w ++ [j]) (handed w))
| step_refuse w now action job avail x s :
    object_job job = None -> admit_request now action job avail (svc w) = (Err x, s) ->
    world_step w (mkWorld s (active w) (accepted w) (handed w))
| step_complete w x rest :
    active w ≡ₚ x :: rest ->
    world_step w (mkWorld (complete (E := unit) x (svc w)).2 rest (accepted w) (handed w))
| step_retry w max avail order out s :
    retry_ready (E := unit) max avail order (svc w) = (Ok out, s) ->
    world_step w (mkWorld s (metadata out ++ active w) (accepted w) (handed w ++ out)).

Definition world_new (id : RunId) (local : LocalityId) (l : ObjectLimits) (r : ObjectRegistry) : World :=
  mkWorld (ObjectService_new id local l r) [] [] [].

(** A world after any calls. *)
Definition reachable (w : World) : Prop :=
  exists id local l r, limits_wf l /\ rtc world_step (world_new id local l r) w.

Definition ledger_of (w : World) : Ledger := mkLedger (active w) (mailbox (svc w)).

(** The service agrees with the ledger, and each mailbox holds the calls accepted
    for its object and not handed out, in order. *)
Definition world_ok (w : World) : Prop :=
  Inv (svc w) (ledger_of w) /\
  forall o, mail o (accepted w) = mail o (handed w) ++ mailbox (svc w) o.

Lemma Inv_mailbox s run : Inv s run -> forall o, mailbox s o = waiting run o.
Proof. by intros (_ & ? & _). Qed.

Lemma Inv_running s run l : Inv s run -> running run ≡ₚ l -> Inv s (mkLedger l (mailbox s)).
Proof. intros HI Hl. eapply Inv_equiv; [|exact HI]. split; [done|]. intros o. symmetry. by apply Inv_mailbox. Qed.

(** A step that leaves the ledger alone. *)
Lemma world_ok_same w s :
  world_ok w -> Inv s (ledger_of w) -> world_ok (mkWorld s (active w) (accepted w) (handed w)).
Proof.
  intros [_ Hfifo] HI. split; [by apply (Inv_running s (ledger_of w))|]. intros o. cbn.
  rewrite (Inv_mailbox _ _ HI). apply Hfifo.
Qed.

Lemma mail_filter o l : mail o (filter (fun j => is_mailbox_call j = true) l) = mail o l.
Proof.
  unfold mail. rewrite list_filter_filter. apply list_filter_iff. intros j. unfold is_mailbox_call, on_object.
  destruct (object_job j) as [x|]; [|naive_solver].
  destruct (placement x), (bool_decide (job_object x = o)); naive_solver.
Qed.

Lemma mail_with_object o x job :
  mail o [with_object x job] = if bool_decide (job_object x = o) && negb (placement x) then [with_object x job] else [].
Proof. unfold mail. rewrite filter_cons, filter_nil. unfold on_object. cbn [with_object object_job]. by destruct (_ && _). Qed.

Lemma step_keeps_ok w w' : world_step w w' -> world_ok w -> world_ok w'.
Proof.
  intros Hstep [HI Hfifo]. destruct Hstep as
    [w c Hal|w now action job avail j s Hjob Had|w now action job avail o j s Hjob Had Hm
    |w now action job avail x s Hjob Had|w x rest Hp|w max avail order out s Hre].
  - apply world_ok_same; [by split|]. by apply perform_leaves.
  - pose proof (admit_spec _ now action job avail _ HI) as Hspec. unfold wp in Hspec. rewrite Had in Hspec.
    cbn [admit_answer] in Hspec. destruct Hspec as [[-> HI']|(x & -> & HI' & Hx)].
    + assert (Hno : is_mailbox_call job = false) by (unfold is_mailbox_call; by rewrite Hjob).
      rewrite filter_cons_False, filter_nil, !app_nil_r by (by rewrite Hno).
      unfold metadata. cbn [omap list_omap]. rewrite Hjob. by apply world_ok_same.
    + split; [by apply (Inv_running s (admitted x (ledger_of w)))|]. intros o. cbn [accepted handed svc].
      rewrite !mail_app, !mail_filter, mail_with_object, Hfifo, (Inv_mailbox _ _ HI').
      cbn [admitted waiting ledger_of] in *. destruct (bool_decide (job_object x = o) && negb (placement x)) eqn:Hd.
      * zbool. subst o. destruct Hx as [?| ->]; [congruence|]. by rewrite !app_nil_r.
      * by rewrite !app_nil_r.
  - pose proof (admit_spec _ now action job avail _ HI) as Hspec. unfold wp in Hspec. rewrite Had in Hspec.
    cbn [admit_answer] in Hspec. destruct Hspec as (o' & r & HI').
    split; [by apply (Inv_running s (queued_call o' (with_object (mkObjectJob o' r false) job) (ledger_of w)))|].
    pose proof (Inv_mailbox _ _ HI') as Hbox. cbn [queued_call waiting ledger_of] in Hbox.
    rewrite Hbox in Hm. case_decide as Hd; [subst o'; apply app_inv_head in Hm as [= <-]|
      apply (f_equal length) in Hm; rewrite length_app in Hm; cbn in Hm; lia].
    intros o'. cbn [accepted handed svc]. rewrite mail_app, Hfifo, Hbox, mail_with_object. cbn [job_object placement].
    rewrite andb_true_r. case_bool_decide; case_decide; try done; rewrite ?app_nil_r, ?app_assoc; done.
  - pose proof (admit_spec _ now action job avail _ HI) as Hspec. unfold wp in Hspec. rewrite Had in Hspec.
    apply world_ok_same; [by split|]. by destruct x.
  - pose proof (object_complete_spec (E := unit) (mkLedger rest (mailbox (svc w))) x (svc w)
      (Inv_running _ _ _ HI Hp)) as Hspec.
    unfold wp in Hspec. destruct (complete x (svc w)) as [[r|[]] s]; [|done..]. destruct Hspec as [_ HI'].
    split; [by apply (Inv_running s (mkLedger rest (mailbox (svc w))))|]. intros o. cbn.
    rewrite (Inv_mailbox _ _ HI'). apply Hfifo.
  - pose proof (retry_entries_spec (E := unit) max avail order [] _ _ HI) as Hspec.
    unfold retry_ready in Hre. unfold wp in Hspec. rewrite Hre in Hspec.
    destruct Hspec as (jobs & run' & -> & [Hr Hw] & _ & HI'). split; [by apply (Inv_running s run')|].
    intros o. cbn [accepted handed svc ledger_of waiting] in *.
    by rewrite mail_app, Hfifo, (Inv_mailbox _ _ HI'), <- app_assoc, <- Hw.
Qed.

Lemma steps_keep_ok w w' : rtc world_step w w' -> world_ok w -> world_ok w'.
Proof. induction 1; eauto using step_keeps_ok. Qed.

Lemma world_new_ok id local l r : limits_wf l -> world_ok (world_new id local l r).
Proof. intros Hl. split; [by apply (Inv_equiv _ (mkLedger [] (fun _ => []))), Inv_new|done]. Qed.

Lemma reachable_ok w : reachable w -> world_ok w.
Proof.
  intros (id & local & l & r & Hl & Hsteps). eapply steps_keep_ok; [exact Hsteps|by apply world_new_ok].
Qed.

(** *** The mailboxes empty *)

(** Completing every running call. *)
Lemma complete_all : forall jobs w, active w = jobs -> world_ok w ->
  exists s, rtc world_step w (mkWorld s [] (accepted w) (handed w)) /\
    forall o, mailbox s o = mailbox (svc w) o.
Proof.
  induction jobs as [|x rest IH]; intros [s ac acc ha] Hac Hok; cbn [active accepted handed svc] in *; subst ac.
  { by exists s. }
  pose proof (step_complete (mkWorld s (x :: rest) acc ha) x rest ltac:(done)) as Hstep. cbn [active accepted handed svc] in Hstep.
  pose proof (step_keeps_ok _ _ Hstep Hok) as Hok'. destruct Hok as [_ Hfifo].
  pose proof (proj2 Hok') as Hfifo'.
  destruct (IH (mkWorld (complete (E := unit) x s).2 rest acc ha) eq_refl Hok') as (s' & Hrun & Hbox). cbn [active accepted handed svc] in *.
  exists s'. split; [eapply rtc_l; eassumption|]. intros o. rewrite Hbox.
  specialize (Hfifo o). specialize (Hfifo' o). rewrite Hfifo' in Hfifo. by apply app_inv_head in Hfifo.
Qed.

(** With no call running, a mailbox gives up its first call. *)
Lemma retry_pops w o :
  world_ok w -> active w = [] -> mailbox (svc w) o <> [] ->
  exists j s, on_object o j = true /\
    world_step w (mkWorld s (metadata [j]) (accepted w) (handed w ++ [j])).
Proof.
  intros [HI _] Hac Hne. unfold mailbox in Hne.
  destruct (entries (svc w) !! o) as [e|] eqn:He; [|done].
  destruct (queue (admission e)) as [|j q] eqn:Hq; [done|].
  pose proof (Inv_entry _ _ _ _ HI He) as ((Hr & Hw & Hp & _) & [Hjobs _] & _). unfold tally in *.
  cbn [ledger_of running] in *. rewrite Hac, filter_nil in *. cbn [length] in *.
  destruct (writer (admission e)) eqn:Hwr; [done|].
  rewrite Hq in Hjobs. apply Forall_cons_1 in Hjobs as [[r Hj] _].
  exists j, (retry_ready (E := unit) 1 (fun _ => true) [o] (svc w)).2.
  split; [unfold on_object; rewrite Hj; by rewrite bool_decide_eq_true_2|].
  replace (metadata [j]) with (metadata [j] ++ active w) by (by rewrite Hac, app_nil_r).
  apply (step_retry w 1 (fun _ => true) [o]). unfold retry_ready. cbn [retry_entries length Nat.leb].
  mrun. rewrite He, Hwr, <- Hr, Hq. cbn [bool_decide negb orb Nat.sub retry_queue]. cbn [negb orb].
  rewrite <- Hp. rewrite (bool_decide_eq_true_2 (0%nat = 0%nat)) by done. cbn [negb]. rewrite andb_false_r. cbn [mbind option_bind].
  rewrite Hj. cbn [mbind option_bind read]. by destruct r.
Qed.

(** Calls of a list of objects that still wait. *)
Definition waiting_calls (objects : list ObjectId) w : nat :=
  sum_list ((fun o => length (mailbox (svc w) o)) <$> objects).

Lemma waiting_calls_zero objects w o : waiting_calls objects w = 0%nat -> o ∈ objects -> mailbox (svc w) o = [].
Proof.
  unfold waiting_calls. induction objects as [|o' l IH]; [by intros _ ?%elem_of_nil|]. cbn.
  intros Hz [<-|Hin]%elem_of_cons; [apply length_zero_iff_nil; lia|apply IH; [lia|done]].
Qed.

(** What is handed out leaves its mailbox, and nothing else does. *)
Lemma handed_leaves w w' out o :
  world_ok w -> world_ok w' -> accepted w' = accepted w -> handed w' = handed w ++ out ->
  mailbox (svc w) o = mail o out ++ mailbox (svc w') o.
Proof.
  intros [_ H1] [_ H2] Ha Hh. specialize (H1 o). specialize (H2 o).
  rewrite Ha, Hh, mail_app, H1, <- app_assoc in H2. by apply app_inv_head in H2.
Qed.

Lemma waiting_calls_less objects w w' o :
  o ∈ objects ->
  (forall o', length (mailbox (svc w') o') <= length (mailbox (svc w) o'))%nat ->
  (length (mailbox (svc w') o) < length (mailbox (svc w) o))%nat ->
  (waiting_calls objects w' < waiting_calls objects w)%nat.
Proof.
  intros Hin Hle Hlt. unfold waiting_calls. induction objects as [|o' l IH]; [by apply elem_of_nil in Hin|].
  cbn. pose proof (Hle o'). apply elem_of_cons in Hin as [<-|Hin]; [|specialize (IH Hin); lia].
  enough (sum_list ((fun o => length (mailbox (svc w') o)) <$> l)
    <= sum_list ((fun o => length (mailbox (svc w) o)) <$> l))%nat by lia.
  clear -Hle. induction l as [|o l IH]; [done|]. cbn. pose proof (Hle o). lia.
Qed.

Lemma drain objects : forall n w,
  waiting_calls objects w = n -> (forall o, o ∉ objects -> mailbox (svc w) o = []) -> world_ok w ->
  exists w', rtc world_step w w' /\ active w' = [] /\ accepted w' = accepted w /\
    forall o, mailbox (svc w') o = [].
Proof.
  induction n as [n IH] using lt_wf_ind. intros w Hn Hout Hok.
  destruct (complete_all _ w eq_refl Hok) as (s1 & Hrun1 & Hbox1).
  set (w1 := mkWorld s1 [] (accepted w) (handed w)) in *.
  assert (Hok1 : world_ok w1) by (by apply (steps_keep_ok w)).
  destruct (decide (Forall (fun o => mailbox s1 o = []) objects)) as [Hall|Hsome].
  { exists w1. split_and!; try done. intros o. destruct (decide (o ∈ objects)) as [Hin|Hno].
    - rewrite Forall_forall in Hall. by apply Hall.
    - cbn. by rewrite Hbox1, Hout. }
  apply not_Forall_Exists, Exists_exists in Hsome as (o & Hin & Hne); [|apply _].
  destruct (retry_pops w1 o Hok1 eq_refl Hne) as (j & s2 & Hj & Hstep).
  set (w2 := mkWorld s2 _ _ _) in *. pose proof (step_keeps_ok _ _ Hstep Hok1) as Hok2.
  assert (Hl : forall o', mailbox (svc w) o' = mail o' [j] ++ mailbox s2 o')
    by (intros o'; rewrite <- Hbox1; by apply (handed_leaves w1 w2)).
  assert (Hle : forall o', (length (mailbox s2 o') <= length (mailbox (svc w) o'))%nat)
    by (intros o'; rewrite (Hl o'), length_app; lia).
  edestruct (IH (waiting_calls objects w2)) as (w' & Hrun & Ha & Hc & Hempty); [|done|..|done|].
  - rewrite <- Hn. apply (waiting_calls_less objects w w2 o Hin Hle). cbn.
    rewrite (Hl o), length_app. unfold mail. rewrite filter_cons_True by done. cbn. lia.
  - intros o' Hno. specialize (Hle o'). rewrite (Hout o' Hno) in Hle. cbn in *. apply length_zero_iff_nil. lia.
  - exists w'. split_and!; try done. etrans; [exact Hrun1|]. by eapply rtc_l.
Qed.

Lemma reachable_drains w : world_ok w ->
  exists w', rtc world_step w w' /\ active w' = [] /\ accepted w' = accepted w /\
    forall o, mailbox (svc w') o = [].
Proof.
  apply (drain (elements (dom (entries (svc w)))) _ w eq_refl). intros o Hno.
  rewrite elem_of_elements, elem_of_dom in Hno. unfold mailbox.
  destruct (entries (svc w) !! o); [|done]. by destruct Hno.
Qed.

(** *** What holds in every reachable world *)



(** whatever was called, completing the running calls and retrying the
    mailboxes hands every accepted call out: no accepted call is stuck. *)
Theorem mailboxes_drain w :
  reachable w ->
  exists w', rtc world_step w w' /\ active w' = [] /\
    forall o, mailbox (svc w') o = [] /\ mail o (handed w') = mail o (accepted w).
Proof.
  intros Hr%reachable_ok. destruct (reachable_drains w Hr) as (w' & Hrun & Ha & Hc & He).
  exists w'. split_and!; [done..|]. intros o. split; [done|].
  destruct (steps_keep_ok _ _ Hrun Hr) as [_ Hf]. by rewrite <- Hc, (Hf o), He, app_nil_r.
Qed.
End World.

(** ** Examples *)

(** A counter is created; a write of it starts, a read waits behind it. *)
Definition ex_created (root : bool) : World :=
  mkWorld (perform (Call_insert (ex_envelope root) (ex_state 3) 0) (ex_service 0)).2 [] [] [].
Definition ex_world1 : World := ex_created true.
Definition ex_write : ActionJob := with_object (mkObjectJob ex_object false false) (ex_request 4 102).
Definition ex_read : ActionJob := with_object (mkObjectJob ex_object true false) (ex_request 5 101).
Definition ex_service2 : ObjectService := (admit_request 0 102 (ex_request 4 102) true (svc ex_world1)).2.
Definition ex_world2 : World :=
  mkWorld ex_service2 [mkObjectJob ex_object false false] [ex_write] [ex_write].
Definition ex_service3 : ObjectService := (admit_request 0 101 (ex_request 5 101) true (svc ex_world2)).2.
Definition ex_world3 : World :=
  mkWorld ex_service3 [mkObjectJob ex_object false false] [ex_write; ex_read] [ex_write].

Lemma ex_admit {S E A} (m : M S E A) s r : (m s).1 = r -> m s = (r, (m s).2).
Proof. by destruct (m s) as [r' s'] eqn:Hm; intros <-. Qed.

Lemma ex_create root : world_step (world_new 1 0 ObjectLimits_default ex_objects) (ex_created root).
Proof.
  apply (step_call (world_new 1 0 ObjectLimits_default ex_objects)
    (Call_insert (ex_envelope root) (ex_state 3) 0)). cbn. split; [by eexists|by apply Forall_nil].
Qed.

Lemma ex_created_reachable root : reachable (ex_created root).
Proof.
  exists 1, 0, ObjectLimits_default, ex_objects. split; [vm_compute; by split_and!|].
  apply rtc_once, ex_create.
Qed.

Lemma ex_world3_reachable : reachable ex_world3.
Proof.
  exists 1, 0, ObjectLimits_default, ex_objects. split; [vm_compute; by split_and!|].
  apply (rtc_l _ _ ex_world1); [apply ex_create|].
  apply (rtc_l _ _ ex_world2).
  { apply (step_admit ex_world1 0 102 (ex_request 4 102) true ex_write ex_service2); [done|].
    unfold ex_service2. apply ex_admit. vm_compute. reflexivity. }
  apply rtc_once.
  apply (step_queue ex_world2 0 101 (ex_request 5 101) true ex_object ex_read ex_service3); [done|..].
  - unfold ex_service3. apply ex_admit. vm_compute. reflexivity.
  - vm_compute. reflexivity.
Qed.



Lemma mailboxes_drain_witness :
  exists w', rtc world_step ex_world3 w' /\ mail ex_object (handed w') = [ex_write; ex_read].
Proof.
  destruct (mailboxes_drain ex_world3 ex_world3_reachable) as (w' & Hrun & _ & Hw). exists w'.
  split; [exact Hrun|]. destruct (Hw ex_object) as [_ Hm]. rewrite Hm. vm_compute. reflexivity.
Defined.
