(* ===== verification/ObjectExpiry.v ===== *)
(** * ObjectExpiry: leases, and when an object goes

    What the periodic expiry of the object service does to an object: an object
    that is leased, rooted or in use survives it untouched; an object that nobody
    holds is gone one grace period after its leases were missed. *)
From Stdlib Require Import Strings.Byte.
From S2P Require Import Prelude Text Protocol Error RuntimeTypes RuntimeWire Action Domain ObjectWire ObjectRegistry Objects Migration ObjectRuns ObjectWorld.

Section Expiry.
Context `{AnyTypes}.
Implicit Types (s : ObjectService) (e : ObjectEntry) (run : Ledger).

(** ** What a pass does to one entry *)

Definition settle_lifecycle (now : Z) s e : ObjectEntry :=
  match lifecycle e with
  | Freezing _ t => if t <=? now then set_snapshot_bytes 0 (set_lifecycle Resident e) else e
  | Prepared _ t =>
      if t <=? now
      then set_lifecycle (Forwarding (location e) (now + forwarding_ttl (limits s))) (set_prepared None e) else e
  | Forwarding _ t => if (t <=? now) && negb (authority e =? local_id s) then set_state None e else e
  | _ => e
  end.

Definition drop_prepared (now : Z) e : ObjectEntry :=
  match prepared e with
  | Some p => if prep_expires p <=? now then set_prepared None e else e
  | None => e
  end.

Definition settle_leases (now : Z) s e : ObjectEntry :=
  set_leases (expire_leases now (lease_grace (limits s)) (leases e)) e.

Definition settle (now : Z) s e : ObjectEntry :=
  settle_leases now s (drop_prepared now (settle_lifecycle now s e)).

(** [s'] differs from [s] at most in the entry of [o] and in the service-wide
    counters. *)
Definition same_but (o : ObjectId) s s' : Prop :=
  limits s' = limits s /\ local_id s' = local_id s /\ registry s' = registry s /\
  forall o', o' <> o -> entries s' !! o' = entries s !! o'.

Lemma same_but_refl o s : same_but o s s.
Proof. done. Qed.

Lemma same_but_trans o a b c : same_but o a b -> same_but o b c -> same_but o a c.
Proof.
  intros (Ha1 & Ha2 & Ha3 & Ha) (Hb1 & Hb2 & Hb3 & Hb). unfold same_but.
  rewrite Hb1, Hb2, Hb3. split_and!; try done. intros o' Hne. by rewrite Hb, Ha.
Qed.

Lemma same_but_put o f s : same_but o s (put o f s).
Proof. unfold same_but. split_and!; try done. intros o' Hne. rewrite lookup_put. by rewrite decide_False. Qed.

Lemma lookup_put_same o f s e : entries s !! o = Some e -> entries (put o f s) !! o = Some (f e).
Proof. intros He. by rewrite lookup_put, decide_True, He. Qed.

Lemma set_prepared_none e : prepared e = None -> set_prepared None e = e.
Proof. destruct e. cbn. by intros ->. Qed.

Lemma wp_take_prepared {E} o s e (Q : unit -> ObjectService -> Prop) (R : E -> ObjectService -> Prop) :
  entries s !! o = Some e ->
  (forall s', same_but o s s' -> entries s' !! o = Some (set_prepared None e) -> Q tt s') ->
  wp (take_prepared (E := E) o) Q R s.
Proof.
  intros He HQ. unfold take_prepared. apply wp_bind, wp_gets, wp_when. rewrite He. case_bool_decide as Hp.
  - apply wp_bind, wp_update, wp_modify. apply HQ.
    + apply same_but_put.
    + by apply lookup_put_same.
  - apply HQ; [done|]. rewrite set_prepared_none; [done|]. destruct (prepared e); [|done]. by destruct Hp.
Qed.

Lemma wp_expire_lifecycle {E} now o s e (Q : unit -> ObjectService -> Prop) (R : E -> ObjectService -> Prop) :
  entries s !! o = Some e ->
  (forall s', same_but o s s' -> entries s' !! o = Some (settle_lifecycle now s e) -> Q tt s') ->
  wp (expire_lifecycle (E := E) now o e) Q R s.
Proof.
  intros He HQ. unfold expire_lifecycle, settle_lifecycle in *. apply wp_bind, wp_gets.
  destruct (lifecycle e); try (apply HQ; done); apply wp_when.
  - destruct (_ <=? _); [|by apply HQ]. apply wp_update, HQ; [apply same_but_put|by rewrite (lookup_put_same _ _ _ _ He)].
  - destruct (_ <=? _); [|by apply HQ]. apply wp_bind, (wp_take_prepared o s e); [done|]. intros s' Hs' He'.
    apply wp_update, HQ; [eapply same_but_trans; [exact Hs'|apply same_but_put]|].
    by rewrite (lookup_put_same _ _ _ _ He').
  - destruct (_ && _); [|by apply HQ]. apply wp_update, HQ; [apply same_but_put|by rewrite (lookup_put_same _ _ _ _ He)].
Qed.

Lemma wp_expire_entry {E} now o s e (Q : unit -> ObjectService -> Prop) (R : E -> ObjectService -> Prop) :
  entries s !! o = Some e ->
  (forall s', same_but o s s' -> entries s' !! o = Some (settle now s e) -> wp (collect o) Q R s') ->
  wp (expire_entry (E := E) now o) Q R s.
Proof.
  intros He HQ. unfold expire_entry. apply wp_bind, wp_gets. rewrite He.
  apply wp_bind, (wp_expire_lifecycle now o s e); [done|]. intros s1 H1 He1.
  apply wp_bind, wp_gets. rewrite He1. set (e1 := settle_lifecycle now s e) in *.
  assert (Hdrop : wp (mwhen match prepared e1 with Some p => prep_expires p <=? now | None => false end
      (take_prepared (E := E) o))
    (fun _ s' => same_but o s1 s' /\ entries s' !! o = Some (drop_prepared now e1)) (fun _ _ => False) s1).
  { unfold drop_prepared. apply wp_when. destruct (prepared e1) as [p|]; [|done].
    destruct (_ <=? _); [|done]. by apply (wp_take_prepared o s1 e1). }
  apply wp_bind. eapply wp_mono; [exact Hdrop| |done]. cbn beta. intros _ s2 [H2 He2].
  assert (Hs2 : same_but o s s2) by (by eapply same_but_trans).
  apply wp_bind, wp_update, wp_bind, wp_gets. cbv zeta. set (s3 := put o _ s2).
  assert (He3 : entries s3 !! o = Some (settle now s e)) by (unfold s3; by rewrite (lookup_put_same _ _ _ _ He2)).
  assert (Hs3 : same_but o s s3) by (eapply same_but_trans; [exact Hs2|apply same_but_put]).
  set (after := filter _ _). apply wp_bind, wp_modify, wp_bind, wp_when.
  destruct (negb _); [apply wp_modify|]; by apply HQ.
Qed.

(** ** Collection *)

(** What keeps an entry from collection, whatever its leases and roots. *)
Definition busy e : Prop := in_flight e <> 0%nat \/ placement_tickets e <> 0%nat \/ queue (admission e) <> [].

Lemma busy_not_idle e : busy e -> idle_entry e = false.
Proof.
  unfold busy, idle_entry. intros [Hb|[Hb|Hb]]; rewrite (bool_decide_eq_false_2 _ Hb); by rewrite ?andb_false_r.
Qed.

Lemma wp_collect_held {E} o s e (Q : unit -> ObjectService -> Prop) (R : E -> ObjectService -> Prop) :
  entries s !! o = Some e -> authority e = local_id s -> busy e \/ leases e <> ∅ \/ roots e <> 0%nat ->
  Q tt s -> wp (collect (E := E) o) Q R s.
Proof.
  intros He Hau Hheld HQ. unfold collect. apply wp_bind, wp_gets. rewrite He.
  destruct (idle_entry e) eqn:Hidle; [|done]. rewrite Hau, Z.eqb_refl. cbn [negb].
  destruct Hheld as [Hb%busy_not_idle|[Hl|Hr]]; [congruence|..].
  - by rewrite (bool_decide_eq_false_2 _ Hl).
  - rewrite (bool_decide_eq_false_2 _ Hr). by rewrite orb_true_r.
Qed.

Lemma same_but_forgotten o s : same_but o s (forgotten o s).
Proof. unfold same_but. split_and!; try done. intros o' Hne. by apply lookup_delete_ne. Qed.

(** Collecting [o] leaves the others alone. *)
Lemma wp_collect_frame {E} o s (Q : unit -> ObjectService -> Prop) (R : E -> ObjectService -> Prop) :
  map_Forall (fun _ e => is_Some (types (registry s) !! entry_type e)) (entries s) ->
  (forall s', same_but o s s' -> (entries s !! o = None -> entries s' !! o = None) -> Q tt s') ->
  wp (collect (E := E) o) Q R s.
Proof.
  intros Hty HQ. unfold collect. apply wp_bind, wp_gets.
  destruct (entries s !! o) as [e|] eqn:He; [|by apply HQ].
  destruct (Hty o e He) as [r Hr].
  assert (Hforget : wp (forget (E := E) o) Q R s)
    by (apply wp_forget, HQ; [apply same_but_forgotten|done]).
  assert (Hstay : Q tt s) by (by apply HQ).
  destruct (negb (idle_entry e)); [done|].
  destruct (negb _); [apply wp_when; by destruct (_ && _)|]. destruct (_ || _); [done|].
  destruct (lifecycle e); try done; [apply wp_when; by destruct (bool_decide _)|].
  destruct (bool_decide _); [done|]. destruct (_ =? _); [done|]. rewrite Hr.
  destruct (_ <=? _); [done|]. apply wp_bind, wp_update, wp_modify. apply HQ; [|congruence].
  apply (same_but_put o _ s).
Qed.

(** A resident object nobody holds goes. *)
Lemma wp_collect_gone {E} o s e (Q : unit -> ObjectService -> Prop) (R : E -> ObjectService -> Prop) :
  entries s !! o = Some e -> authority e = local_id s -> lifecycle e = Resident -> is_Some (state e) ->
  idle_entry e = true -> roots e = 0%nat -> leases e = ∅ ->
  Q tt (forgotten o s) -> wp (collect (E := E) o) Q R s.
Proof.
  intros He Hau Hl Hst Hidle Hr Hle HQ. unfold collect. apply wp_bind, wp_gets.
  rewrite He, Hidle, Hau, Z.eqb_refl, Hr, Hle, Hl. cbn [negb].
  rewrite !bool_decide_eq_true_2 by done. cbn [negb orb mwhen]. by apply wp_forget.
Qed.

(** ** Passes over the whole store *)

Lemma wp_and {A} (m : M ObjectService unit A) (Q Q' : A -> ObjectService -> Prop) R R' s :
  wp m Q R s -> wp m Q' R' s -> wp m (fun a s' => Q a s' /\ Q' a s') R s.
Proof. unfold wp. by destruct (m s) as [[?|[]] ?]. Qed.

Lemma wp_for_each {A} (f : A -> M ObjectService unit unit) (P : ObjectService -> Prop) l s :
  (forall x s, P s -> wp (f x) (fun _ s' => P s') (fun _ _ => False) s) ->
  P s -> wp (for_each f l) (fun _ s' => P s') (fun _ _ => False) s.
Proof.
  intros Hf. revert s. induction l as [|x l IH]; intros s HP; cbn [for_each]; [done|].
  apply wp_bind. eapply wp_mono; [by apply Hf| |done]. cbn. intros _ s' HP'. by apply IH.
Qed.

(** An element that establishes what all of them keep. *)
Lemma wp_for_each_hit {A} (f : A -> M ObjectService unit unit) (P P' : ObjectService -> Prop) x l s :
  (forall y s, P s -> wp (f y) (fun _ s' => P s') (fun _ _ => False) s) ->
  (forall y s, P' s -> wp (f y) (fun _ s' => P' s') (fun _ _ => False) s) ->
  (forall s, P s -> wp (f x) (fun _ s' => P' s') (fun _ _ => False) s) ->
  x ∈ l -> P s -> wp (for_each f l) (fun _ s' => P' s') (fun _ _ => False) s.
Proof.
  intros Hf Hf' Hx Hin. revert s. induction l as [|y l IH]; intros s HP; [by apply elem_of_nil in Hin|].
  cbn [for_each]. apply wp_bind. apply elem_of_cons in Hin as [<-|Hin].
  - eapply wp_mono; [by apply Hx| |done]. cbn. intros _ s' HP'. by apply wp_for_each.
  - eapply wp_mono; [by apply Hf| |done]. cbn. intros _ s' HP'. by apply IH.
Qed.

Lemma registered_types s run : Inv s run -> map_Forall (fun _ e => is_Some (types (registry s) !! entry_type e)) (entries s).
Proof. intros HI o e He. by destruct (Inv_entry _ _ _ _ HI He) as (_ & _ & _ & ? & _). Qed.

(** The pass over another object. *)
Lemma wp_expire_other now o o' s run (P : ObjectService -> Prop) :
  Inv s run -> o' <> o -> (forall s', same_but o' s s' -> P s') ->
  wp (expire_entry (E := unit) now o') (fun _ s' => P s') (fun _ _ => False) s.
Proof.
  intros HI Hne HP. destruct (entries s !! o') as [e'|] eqn:He'.
  - apply (wp_expire_entry now o' s e'); [done|]. intros s1 H1 He1.
    apply wp_collect_frame.
    + destruct H1 as (_ & _ & Hreg & Hoth). rewrite Hreg. intros o2 e2 He2.
      destruct (decide (o2 = o')) as [->|Hne2].
      * rewrite He1 in He2. injection He2 as <-. pose proof (registered_types _ _ HI o' e' He') as Ht.
        unfold settle, settle_leases, drop_prepared, settle_lifecycle. repeat case_match; exact Ht.
      * rewrite Hoth in He2 by done. by apply (registered_types _ _ HI o2).
    + intros s2 H2 _. apply HP. by eapply same_but_trans.
  - unfold expire_entry. apply wp_bind, wp_gets. rewrite He'. apply wp_ret, HP. done.
Qed.

(** *** Objects that are held *)

(** A lease is good unless it was found missed a grace period ago or more. *)
Definition good_lease (now grace : Z) (r : LeaseRecord) : bool := keeps_lease now grace (suspect now r).

Definition held (now : Z) s e : Prop :=
  busy e \/ roots e <> 0%nat \/
  exists l r, leases e !! l = Some r /\ good_lease now (lease_grace (limits s)) r = true.

Lemma suspect_twice now r : suspect now (suspect now r) = suspect now r.
Proof.
  unfold suspect at 2 3. destruct (_ && _) eqn:Hs; unfold suspect.
  - cbn. by rewrite andb_false_r.
  - by rewrite Hs.
Qed.

(** The state of a resident object and what holds it. *)
Definition intact (now : Z) (o : ObjectId) e s : Prop :=
  exists e', entries s !! o = Some e' /\ authority e' = local_id s /\ held now s e' /\
    lifecycle e' = Resident /\ state e' = state e /\ location e' = location e.

Lemma settle_held now s e : lifecycle e = Resident -> held now s e -> held now s (settle now s e).
Proof.
  intros Hl Hheld. unfold settle, settle_lifecycle. rewrite Hl.
  assert (Hsame : forall e', busy (drop_prepared now e') = busy e' /\ roots (drop_prepared now e') = roots e' /\
    leases (drop_prepared now e') = leases e') by (intros e'; unfold drop_prepared; repeat case_match; done).
  destruct (Hsame e) as (Hb & Hr & Hle). unfold held, settle_leases in *. cbn [leases set_leases].
  change (busy (set_leases _ ?x)) with (busy x). change (roots (set_leases _ ?x)) with (roots x).
  rewrite Hb, Hr, Hle. destruct Hheld as [?|[?|(l & r & Hlr & Hgood)]]; [tauto..|]. right; right.
  exists l, (suspect now r). split; [|unfold good_lease in *; by rewrite suspect_twice].
  unfold expire_leases. apply map_lookup_filter_Some. split; [by rewrite lookup_fmap, Hlr|exact Hgood].
Qed.

Lemma settle_resident now s e :
  lifecycle e = Resident ->
  authority (settle now s e) = authority e /\ lifecycle (settle now s e) = Resident /\
  state (settle now s e) = state e /\ location (settle now s e) = location e.
Proof.
  intros Hl. unfold settle, settle_leases, drop_prepared, settle_lifecycle. rewrite Hl. by repeat case_match.
Qed.

Lemma expire_keeps_intact now order o e s run :
  Inv s run -> intact now o e s ->
  wp (expire (E := unit) now order) (fun _ s' => Inv s' run /\ intact now o e s') (fun _ _ => False) s.
Proof.
  intros HI Hi. apply (wp_for_each _ (fun s => Inv s run /\ intact now o e s)); [|done]. clear s HI Hi.
  intros o' s [HI Hi].
  enough (Hw : wp (expire_entry (E := unit) now o') (fun _ s' => intact now o e s')
    (fun _ _ => False) s).
  { eapply wp_mono; [exact (wp_and _ _ _ _ _ _ Hw (expire_entry_keeps run now o' s HI))| |done].
    intros ? ? [? ?]. by split. }
  destruct Hi as (e' & He' & Hau & Hheld & Hl & Hst & Hloc). destruct (decide (o' = o)) as [->|Hne].
  - apply (wp_expire_entry now o s e'); [done|]. intros s1 (Hlim & Hloc1 & _) He1.
    pose proof (settle_held now s e' Hl Hheld) as Hh. destruct (settle_resident now s e' Hl) as (Ha & Hl' & Hs' & Hx').
    apply (wp_collect_held o s1 _ _ _ He1).
    + congruence.
    + destruct Hh as [?|[?|(l & r & Hlr & _)]]; [tauto..|]. right; left. intros Hz. rewrite Hz in Hlr.
      by rewrite lookup_empty in Hlr.
    + exists (settle now s e'). split_and!; [done|..].
      * congruence.
      * unfold held in *. by rewrite Hlim.
      * done.
      * congruence.
      * congruence.
  - apply (wp_expire_other now o o' s run _ HI Hne). intros s' (Hlim & Hloc' & _ & Hoth).
    exists e'. rewrite Hoth, Hloc' by done. unfold held in *. by rewrite Hlim.
Qed.

(** *** Objects nobody holds *)

Definition abandoned s e : Prop :=
  authority e = local_id s /\ lifecycle e = Resident /\ is_Some (state e) /\ idle_entry e = true /\ roots e = 0%nat.

(** Gone, or abandoned with every lease as [P] says. *)
Definition going (P : LeaseRecord -> Prop) (o : ObjectId) s : Prop :=
  forall e, entries s !! o = Some e -> abandoned s e /\ map_Forall (fun _ r => P r) (leases e).

(** Every lease was missed by [t]. *)
Definition missed (t : Z) (r : LeaseRecord) : Prop :=
  expires_at r <= t /\ forall since, suspect_since r = Some since -> since <= t.
(** Every lease was found missed by [t]. *)
Definition suspected (t : Z) (r : LeaseRecord) : Prop :=
  exists since, suspect_since r = Some since /\ since <= t.

Lemma settle_abandoned now s e :
  abandoned s e ->
  abandoned s (settle now s e) /\ leases (settle now s e) = expire_leases now (lease_grace (limits s)) (leases e).
Proof.
  intros (Hau & Hl & Hst & Hidle & Hr). unfold settle, settle_lifecycle. rewrite Hl.
  apply idle_entry_spec in Hidle as (? & ? & ? & Hp). unfold drop_prepared. rewrite Hp.
  unfold settle_leases. cbn. split; [|done]. unfold abandoned. split_and!; try done.
  by apply idle_entry_spec.
Qed.

Lemma forgotten_lookup o s : entries (forgotten o s) !! o = None.
Proof. apply lookup_delete_eq. Qed.

(** What a pass makes of the leases. *)
Definition passed (P : LeaseRecord -> Prop) (o o' : ObjectId) s s' : Prop :=
  limits s' = limits s /\ going P o s' /\
  (o' = o -> forall e, entries s' !! o = Some e -> leases e <> ∅).

Lemma wp_expire_going now o' o (P P' : LeaseRecord -> Prop) s run :
  Inv s run -> going P o s ->
  (forall r, P r -> good_lease now (lease_grace (limits s)) r = true -> P' (suspect now r)) ->
  (o' <> o -> forall r, P r -> P' r) ->
  wp (expire_entry (E := unit) now o') (fun _ s' => passed P' o o' s s' /\ Inv s' run) (fun _ _ => False) s.
Proof.
  intros HI Hg Hown Hother.
  enough (Hw : wp (expire_entry (E := unit) now o') (fun _ => passed P' o o' s) (fun _ _ => False) s)
    by exact (wp_and _ _ _ _ _ _ Hw (expire_entry_keeps run now o' s HI)).
  destruct (decide (o' = o)) as [->|Hne].
  - destruct (entries s !! o) as [e|] eqn:He.
    + destruct (Hg e He) as [Hab HP]. destruct (settle_abandoned now s e Hab) as [Hab' Hle].
      apply (wp_expire_entry now o s e _ _ He). intros s1 (Hlim & Hloc & Hreg & _) He1.
      destruct (decide (leases (settle now s e) = ∅)) as [Hz|Hnz].
      * destruct Hab' as (Hau & Hl & Hst & Hidle & Hr).
        apply (wp_collect_gone o s1 _ _ _ He1); try done; [congruence|].
        split_and!; [exact Hlim|intros e2|intros _ e2]; by rewrite forgotten_lookup.
      * apply (wp_collect_held o s1 _ _ _ He1); [destruct Hab' as [-> _]; congruence|tauto|].
        split_and!; [exact Hlim|intros e2|intros _ e2]; rewrite He1; intros [= <-]; [|exact Hnz].
        split; [unfold abandoned in *; by rewrite Hloc|].
        rewrite Hle. intros l r. unfold expire_leases. intros [Hf Hk]%map_lookup_filter_Some.
        rewrite lookup_fmap in Hf. destruct (leases e !! l) as [r0|] eqn:Hr0; [|done].
        injection Hf as <-. apply Hown; [by apply (HP l)|exact Hk].
    + unfold expire_entry. apply wp_bind, wp_gets. rewrite He. apply wp_ret.
      split_and!; [done|intros e|intros _ e]; by rewrite He.
  - apply (wp_expire_other now o o' s run _ HI Hne). intros s' (Hlim & Hloc & _ & Hoth).
    split_and!; [done|intros e|done].
    rewrite Hoth by done. intros He. destruct (Hg e He) as [Hab HP]. split.
    + unfold abandoned in *. by rewrite Hloc.
    + intros l r Hlr. by apply (Hother Hne), (HP l).
Qed.

Lemma suspect_missed t r : missed t r -> suspected t (suspect t r).
Proof.
  intros [Hexp Hs]. unfold suspected, suspect. destruct (suspect_since r) as [since|] eqn:Hr; cbn.
  - rewrite andb_false_r. exists since. split; [done|by apply Hs].
  - rewrite (proj2 (Z.leb_le _ _)) by done. by exists t.
Qed.

Lemma suspect_suspected now t r : suspected t r -> suspect now r = r.
Proof. intros (since & Hr & _). unfold suspect. rewrite Hr. cbn. by rewrite andb_false_r. Qed.

Lemma going_weaken (P P' : LeaseRecord -> Prop) o s : (forall r, P r -> P' r) -> going P o s -> going P' o s.
Proof. intros HP Hg e He. destruct (Hg e He) as [Hab Hl]. split; [done|]. intros l r Hlr. by apply HP, (Hl l). Qed.

(** A step of a pass, with what it leaves alone. *)
Lemma expire_entry_going now o' o (P P' : LeaseRecord -> Prop) l run s :
  (Inv s run /\ limits s = l) /\ going P o s ->
  (forall r, P r -> good_lease now (lease_grace l) r = true -> P' (suspect now r)) ->
  (o' <> o -> forall r, P r -> P' r) ->
  wp (expire_entry (E := unit) now o')
    (fun _ s' => (Inv s' run /\ limits s' = l) /\ going P' o s') (fun _ _ => False) s.
Proof.
  intros [[HI <-] Hg] Hown Hother.
  eapply wp_mono; [by apply (wp_expire_going now o' o P P')| |done]. by intros ? ? [(? & ? & _) ?].
Qed.

(** The pass that finds the leases missed. *)
Lemma expire_suspects t order o s run :
  Inv s run -> o ∈ order -> going (missed t) o s ->
  wp (expire (E := unit) t order)
    (fun _ s' => (Inv s' run /\ limits s' = limits s) /\ going (suspected t) o s') (fun _ _ => False) s.
Proof.
  intros HI Hin Hg. set (l := limits s).
  assert (Hs : forall r, missed t r \/ suspected t r -> suspected t (suspect t r))
    by (intros r [Hr|Hr]; [by apply suspect_missed|by rewrite (suspect_suspected t t)]).
  apply (wp_for_each_hit _ (fun s => (Inv s run /\ limits s = l) /\ going (fun r => missed t r \/ suspected t r) o s)
    (fun s => (Inv s run /\ limits s = l) /\ going (suspected t) o s) o order); [..|done|split; [done|]].
  - intros o' s' Hs'. apply (expire_entry_going t o' o _ _ l run s' Hs'); auto.
  - intros o' s' Hs'. apply (expire_entry_going t o' o _ _ l run s' Hs'); auto.
  - intros s' Hs'. apply (expire_entry_going t o o _ _ l run s' Hs'); auto. done.
  - eapply going_weaken; [|exact Hg]. by left.
Qed.

Lemma going_gone P o s : entries s !! o = None -> going P o s.
Proof. intros Hgone e. by rewrite Hgone. Qed.

(** The pass that takes them away. *)
Lemma expire_collects t now order o s run :
  Inv s run -> o ∈ order -> going (suspected t) o s -> t + lease_grace (limits s) <= now -> t <= now ->
  wp (expire (E := unit) now order) (fun _ s' => Inv s' run /\ entries s' !! o = None) (fun _ _ => False) s.
Proof.
  intros HI Hin Hg Hnow Ht. set (l := limits s) in *.
  apply (wp_for_each_hit _ (fun s => (Inv s run /\ limits s = l) /\ going (suspected t) o s)
    (fun s => Inv s run /\ entries s !! o = None) o order); [..|done|done].
  - intros o' s' Hs'. apply (expire_entry_going now o' o _ _ l run s' Hs'); [|done].
    intros r Hr _. by rewrite (suspect_suspected now t).
  - intros o' s' [HI' Hgone]. destruct (decide (o' = o)) as [->|Hne].
    + unfold expire_entry. apply wp_bind, wp_gets. rewrite Hgone. by apply wp_ret.
    + assert (Hw : wp (expire_entry (E := unit) now o') (fun _ s2 => entries s2 !! o = None) (fun _ _ => False) s').
      { apply (wp_expire_other now o o' s' run (fun s2 => entries s2 !! o = None) HI' Hne).
        intros s2 (_ & _ & _ & Hoth). by rewrite Hoth. }
      eapply wp_mono; [exact (wp_and _ _ _ _ _ _ Hw (expire_entry_keeps run now o' s' HI'))| |done].
      intros ? ? [? ?]. by split.
  - intros s' [[HI' Hlim] Hg'].
    eapply wp_mono; [apply (wp_expire_going now o o (suspected t) (fun _ => False) s' run HI' Hg')| |done].
    + intros r (since & Hr & Hs) Hgood. unfold good_lease in Hgood.
      rewrite (suspect_suspected now t) in Hgood by (by exists since). unfold keeps_lease in Hgood.
      rewrite Hr, Hlim in Hgood. zbool. unfold saturating_sub in Hgood. lia.
    + done.
    + intros _ s2 [(_ & Hg2 & Hne) HI2]. split; [done|]. destruct (entries s2 !! o) as [e|] eqn:He; [|done].
      destruct (Hg2 e He) as [_ Hno]. destruct (Hne eq_refl e eq_refl). apply map_empty. intros k.
      destruct (leases e !! k) as [r|] eqn:Hk; [|done]. by destruct (Hno k r Hk).
Qed.

(** ** What expiry does in every reachable world *)

Lemma wp_ok {A} (m : M ObjectService unit A) Q R s :
  wp m Q R s -> (forall u s', ~ R u s') -> exists a, (m s).1 = Ok a /\ Q a (m s).2.
Proof. unfold wp. destruct (m s) as [[a|[[]|]] s']; cbn; [eauto|intros HR Hn; by destruct (Hn tt s')|done]. Qed.

(** C20: expiry never takes away or touches an object that somebody holds: a
    resident object of this locality with a call in flight or waiting, with a
    placement ticket, a root, or a lease that was not found missed a full grace
    period before, has its state, its place and its lifecycle after the pass. *)
Theorem held_objects_survive w now order o e :
  reachable w -> entries (svc w) !! o = Some e -> authority e = local_id (svc w) ->
  lifecycle e = Resident -> held now (svc w) e ->
  exists e', entries (expire (E := unit) now order (svc w)).2 !! o = Some e' /\
    lifecycle e' = Resident /\ state e' = state e /\ location e' = location e.
Proof.
  intros [HI _]%reachable_ok He Hau Hl Hheld.
  assert (Hi : intact now o e (svc w)) by (by exists e).
  pose proof (expire_keeps_intact now order o e (svc w) _ HI Hi) as Hw.
  apply wp_ok in Hw as (_ & _ & _ & e' & He' & _ & _ & Hl' & Hs & Hx); [by exists e'|by intros ? ? ?].
Qed.

(** C21: an object that nobody holds goes: once its leases are missed, the pass
    that finds this and any later pass at least one grace period after it remove
    the entry, in whatever order the passes visit the store. *)
Theorem abandoned_objects_go w t now order order' o e :
  reachable w -> entries (svc w) !! o = Some e -> abandoned (svc w) e ->
  map_Forall (fun _ => missed t) (leases e) -> o ∈ order -> o ∈ order' ->
  t + lease_grace (limits (svc w)) <= now -> t <= now ->
  entries ((expire (E := unit) t order;; expire (E := unit) now order') (svc w)).2 !! o = None.
Proof.
  intros [HI _]%reachable_ok He Hab Hm Hin Hin' Hnow Ht.
  assert (Hg : going (missed t) o (svc w)) by (intros e2; rewrite He; by intros [= <-]).
  destruct (wp_ok (expire (E := unit) t order;; expire (E := unit) now order') (fun _ s' => entries s' !! o = None)
    (fun _ _ => False) (svc w)) as (_ & _ & Hgone); [|by intros ? ? ?|done].
  apply wp_bind. eapply wp_mono; [by apply (expire_suspects t order o _ _ HI)| |done].
  intros _ s1 [[HI1 Hlim] Hg1]. rewrite <- Hlim in Hnow.
  eapply wp_mono; [by apply (expire_collects t now order' o s1 _ HI1)| |done]. by intros ? ? [_ ?].
Qed.
End Expiry.

(** ** Examples *)

(** The entry of a counter just created. *)
Definition ex_entry (root : bool) : ObjectEntry :=
  mkObjectEntry 7 0 (mkObjectLocation 0 1 1 1 1) (Some (ex_state 3)) Resident None 0
    {[0 := mkLeaseRecord (lease_ttl ObjectLimits_default) None]} (if root then 1 else 0) 0 0 (mkAdmission 0 false []).

Lemma ex_created_entry root : entries (svc (ex_created root)) !! ex_object = Some (ex_entry root).
Proof. destruct root; vm_compute; reflexivity. Qed.

(** A rooted counter survives a year without a lease; one without a root is gone
    after the lease and the grace period. *)
Lemma held_objects_survive_witness :
  exists e', entries (expire (E := unit) (365 * 24 * 3600 * second) [ex_object] (svc (ex_created true))).2 !! ex_object
      = Some e' /\ state e' = Some (ex_state 3).
Proof.
  destruct (held_objects_survive (ex_created true) (365 * 24 * 3600 * second) [ex_object] ex_object (ex_entry true)
    (ex_created_reachable true) (ex_created_entry true) eq_refl eq_refl) as (e' & He' & _ & Hs & _).
  { right. left. discriminate. }
  exists e'. split; [exact He'|exact Hs].
Defined.

Lemma abandoned_objects_go_witness :
  entries ((expire (E := unit) (30 * second) [ex_object];; expire (E := unit) (60 * second) [ex_object])
    (svc (ex_created false))).2 !! ex_object = None.
Proof.
  apply (abandoned_objects_go (ex_created false) (30 * second) (60 * second) [ex_object] [ex_object] ex_object
    (ex_entry false) (ex_created_reachable false) (ex_created_entry false)).
  - split_and!; try reflexivity. by eexists.
  - intros l r Hl. cbn [leases ex_entry] in Hl. apply lookup_singleton_Some in Hl as [_ <-]. split; [vm_compute; discriminate|done].
  - by left.
  - by left.
  - vm_compute. discriminate.
  - vm_compute. discriminate.
Defined.
