(* ===== verification/MigrationFuture.v ===== *)
(** * MigrationFuture: the caller's side of a migration

    Models [MigrationFuture] of [crates/hataori-runtime/src/object/migration.rs].
    A poll is a program over what it asks of its surroundings: requests to the
    client of the runtime ([migration_step], [fail_committed_migration]), polls of
    the futures these give, and calls of the object service.  The theorems hold
    for whatever these answer. *)
From Stdlib Require Import Strings.Byte.
From S2P Require Import Prelude Text Protocol Error RuntimeTypes RuntimeWire Action Domain ObjectWire ObjectRegistry Objects Migration.

Section Future.
Context `{AnyTypes}.
(** The type of the futures of requests, and the [Display] of errors. *)
Context {Fut : Type} (display : RuntimeError -> text).

(** ** Programs *)

Inductive Prog (A : Type) : Type :=
| Ret (a : A)
| Unwind
| Step (place : Place) (action : ActionId) (p : MigrationPacket) (k : result RuntimeError Fut -> Prog A)
| Poll (f : Fut) (k : option (result RuntimeError MigrationPacket) -> Prog A)
| Cache (o : ObjectId) (l : ObjectLocation) (k : Prog A)
| Finish (m : RequestId) (outcome : MigrationOutcome) (bytes : Z) (k : Prog A)
| FailCommitted (k : Prog A).
#[global] Arguments Ret {A}. #[global] Arguments Unwind {A}. #[global] Arguments Step {A}.
#[global] Arguments Poll {A}. #[global] Arguments Cache {A}. #[global] Arguments Finish {A}.
#[global] Arguments FailCommitted {A}.

Fixpoint prog_bind {A B} (m : Prog A) (k : A -> Prog B) : Prog B :=
  match m with
  | Ret a => k a
  | Unwind => Unwind
  | Step place action p c => Step place action p (fun r => prog_bind (c r) k)
  | Poll f c => Poll f (fun r => prog_bind (c r) k)
  | Cache o l c => Cache o l (prog_bind c k)
  | Finish m outcome bytes c => Finish m outcome bytes (prog_bind c k)
  | FailCommitted c => FailCommitted (prog_bind c k)
  end.
#[export] Instance Prog_bind : MBind Prog := fun A B k m => prog_bind m k.
#[export] Instance Prog_ret : MRet Prog := fun A a => Ret a.

(** ** The future *)

Inductive MigrationState : Type :=
| Ready (r : option (result RuntimeError MigrationReport))
| Freeze (f : Fut)
| Prepare (f : Fut)
| Commit (f : Fut)
| Activate (f : Fut)
| Retire (f : Fut)
| RollbackSource (f : Fut) (error : RuntimeError) (destination : bool)
| RollbackDestination (f : Fut) (error : RuntimeError)
| Done.

(** [service] is the reference to the service, of which the limits matter. *)
Record MigrationFuture : Type := mkMigrationFuture {
  client : bool;
  service : option ObjectLimits;
  lease : bool;
  packet : MigrationPacket;
  mig_authority : ObjectLocation;
  original : ObjectLocation;
  mig_prepared : option ObjectLocation;
  mig_bytes : Z;
  redirects : Z;
  committed : bool;
  mig_state : MigrationState;
}.

Definition set_mig_state (x : MigrationState) (f : MigrationFuture) : MigrationFuture :=
  mkMigrationFuture (client f) (service f) (lease f) (packet f) (mig_authority f) (original f)
    (mig_prepared f) (mig_bytes f) (redirects f) (committed f) x.
Definition set_packet (x : MigrationPacket) (f : MigrationFuture) : MigrationFuture :=
  mkMigrationFuture (client f) (service f) (lease f) x (mig_authority f) (original f)
    (mig_prepared f) (mig_bytes f) (redirects f) (committed f) (mig_state f).
Definition set_mig_bytes (x : Z) (f : MigrationFuture) : MigrationFuture :=
  mkMigrationFuture (client f) (service f) (lease f) (packet f) (mig_authority f) (original f)
    (mig_prepared f) x (redirects f) (committed f) (mig_state f).
Definition set_mig_prepared (x : option ObjectLocation) (f : MigrationFuture) : MigrationFuture :=
  mkMigrationFuture (client f) (service f) (lease f) (packet f) (mig_authority f) (original f)
    x (mig_bytes f) (redirects f) (committed f) (mig_state f).
Definition set_committed (x : bool) (f : MigrationFuture) : MigrationFuture :=
  mkMigrationFuture (client f) (service f) (lease f) (packet f) (mig_authority f) (original f)
    (mig_prepared f) (mig_bytes f) (redirects f) x (mig_state f).
(** [redirects += 1; packet.from = location; original = location]. *)
Definition redirected (l : ObjectLocation) (f : MigrationFuture) : MigrationFuture :=
  mkMigrationFuture (client f) (service f) (lease f) (with_from l (packet f)) (mig_authority f) l
    (mig_prepared f) (mig_bytes f) (redirects f + 1) (committed f) (mig_state f).
Definition released (f : MigrationFuture) : MigrationFuture :=
  mkMigrationFuture false None false (packet f) (mig_authority f) (original f)
    (mig_prepared f) (mig_bytes f) (redirects f) (committed f) (mig_state f).

Definition MigrationFuture_new (l : ObjectLimits) (p : MigrationPacket) (authority : ObjectLocation) (f : Fut) :
    MigrationFuture :=
  mkMigrationFuture true (Some l) true p authority (packet_from p) None 0 0 false (Freeze f).

(** [ready]: the packet is a placeholder; [RequestId::new] on 1 does not fail. *)
Definition MigrationFuture_ready (report : MigrationReport) (object_type : Z) : MigrationFuture :=
  mkMigrationFuture false None false
    (mkMigrationPacket (mkRequestId (ObjectLocation_locality (report_from report)) 1) (report_object report)
       object_type (ObjectLocation_locality (report_from report)) (report_from report)
       (Place_new (ObjectLocation_locality (report_to report)) (ObjectLocation_domain (report_to report))) 1 1 [])
    (report_from report) (report_from report) (Some (report_to report)) (snapshot_size report) 0 true
    (Ready (Some (Ok report))).

Definition migration_error (e : RuntimeError) (f : MigrationFuture) : RuntimeError :=
  match e with
  | RuntimeError_Migration _ _ => e
  | e => RuntimeError_Migration (packet_migration (packet f)) (display e)
  end.

(** [client.as_ref().unwrap().migration_step(..)]. *)
Definition migration_step (place : Place) (action : ActionId) (p : MigrationPacket) (f : MigrationFuture) :
    Prog (result RuntimeError Fut) :=
  if client f then Step place action p Ret else Unwind.

Definition place_of (l : ObjectLocation) : Place := Place_new (ObjectLocation_locality l) (ObjectLocation_domain l).

Definition start_rollback (error : RuntimeError) (destination : bool) (f : MigrationFuture) :
    Prog (result RuntimeError unit * MigrationFuture) :=
  let error := migration_error error f in
  r ← migration_step (place_of (original f)) MIGRATION_ROLLBACK_ACTION_ID (packet f) f;
  match r with
  | Ok future => mret (Ok tt, set_mig_state (RollbackSource future error destination) f)
  | Err e => mret (Err e, f)
  end.

Definition finish_future (outcome : MigrationOutcome) (f : MigrationFuture) : Prog MigrationFuture :=
  match service f with
  | Some _ => Finish (packet_migration (packet f)) outcome (mig_bytes f) (Ret (released f))
  | None => mret (released f)
  end.

(** What an iteration of [poll] comes to. *)
Inductive Polled : Type := Pending | Return (r : result RuntimeError MigrationReport) | Continue.

Definition after_completion {A} : result RuntimeError A :=
  Err (RuntimeError_Protocol (lit "migration future polled after completion")).

(** The rollback an error starts; if it cannot start the migration fails. *)
Definition roll_back (error : RuntimeError) (destination : bool) (f : MigrationFuture) :
    Prog (Polled * MigrationFuture) :=
  '(r, f) ← start_rollback error destination f;
  match r with
  | Ok _ => mret (Continue, f)
  | Err rollback => f ← finish_future Failed f; mret (Return (Err rollback), f)
  end.

Definition fail_committed (error : RuntimeError) (f : MigrationFuture) : Prog (Polled * MigrationFuture) :=
  if client f then
    FailCommitted
      (f ← finish_future Failed f;
       mret (Return (Err (RuntimeError_MigrationCommittedFailure (packet_object (packet f)) (display error))), f))
  else Unwind.

Definition limits_unwrap {A} (f : MigrationFuture) (k : ObjectLimits -> Prog A) : Prog A :=
  match service f with Some l => k l | None => Unwind end.

Definition report (f : MigrationFuture) : Prog (Polled * MigrationFuture) :=
  match mig_prepared f with
  | None => Unwind
  | Some to =>
      limits_unwrap f (fun _ =>
        Cache (packet_object (packet f)) to
          (let report := mkMigrationReport (packet_object (packet f)) (original f) to (mig_bytes f) in
           f ← finish_future Completed f;
           mret (Return (Ok report), set_mig_state Done f)))
  end.

(** The next step of the protocol, or [otherwise] when it cannot be sent. *)
Definition go (place : Place) (action : ActionId) (next : Fut -> MigrationState)
    (otherwise : RuntimeError -> MigrationFuture -> Prog (Polled * MigrationFuture)) (f : MigrationFuture) :
    Prog (Polled * MigrationFuture) :=
  r ← migration_step place action (packet f) f;
  match r with
  | Ok future => mret (Continue, set_mig_state (next future) f)
  | Err e => otherwise e f
  end.

Definition is_redirect (e : RuntimeError) (f : MigrationFuture) : option ObjectLocation :=
  match e with
  | RuntimeError_Moved o l =>
      if bool_decide (o = packet_object (packet f))
         && (ObjectLocation_epoch (packet_from (packet f)) <? ObjectLocation_epoch l)
      then Some l else None
  | _ => None
  end.

Definition poll_freeze (r : result RuntimeError MigrationPacket) (f : MigrationFuture) : Prog (Polled * MigrationFuture) :=
  match r with
  | Ok p =>
      match sum_segments 0 (packet_snapshot p) with
      | None => limits_unwrap f (fun l => roll_back (RuntimeError_SnapshotTooLarge usize_max (max_snapshot_bytes l)) false f)
      | Some bytes =>
          let f := set_packet p (set_mig_bytes bytes f) in
          go (packet_destination (packet f)) MIGRATION_PREPARE_ACTION_ID Prepare
            (fun e f => roll_back e false f) f
      end
  | Err e =>
      let abort_with e f :=
        f ← finish_future RolledBack f;
        mret (Return (Err e), f) in
      let stop :=
        let error := migration_error e f in
        f ← finish_future RolledBack f;
        mret (Return (Err error), set_mig_state Done f) in
      match is_redirect e f with
      | Some l =>
          limits_unwrap f (fun limits =>
            if redirects f <? max_redirects limits then
              let f := redirected l f in
              Cache (packet_object (packet f)) l
                (go (place_of l) MIGRATION_FREEZE_ACTION_ID Freeze abort_with f)
            else stop)
      | None => stop
      end
  end.

Definition poll_once (f : MigrationFuture) : Prog (Polled * MigrationFuture) :=
  match mig_state f with
  | Ready r =>
      let answer := match r with Some r => r | None => after_completion end in
      mret (Return answer, set_mig_state Done f)
  | Freeze future => Poll future (fun r => match r with None => mret (Pending, f) | Some r => poll_freeze r f end)
  | Prepare future => Poll future (fun r =>
      match r with
      | None => mret (Pending, f)
      | Some (Ok p) =>
          go (place_of (mig_authority f)) MIGRATION_COMMIT_ACTION_ID Commit (fun e f => roll_back e true f)
            (set_packet p (set_mig_prepared (Some (packet_from p)) f))
      | Some (Err e) => roll_back e false f
      end)
  | Commit future => Poll future (fun r =>
      match r with
      | None => mret (Pending, f)
      | Some (Ok p) =>
          let f := set_packet p (set_committed true f) in
          go (packet_destination (packet f)) MIGRATION_ACTIVATE_ACTION_ID Activate fail_committed f
      | Some (Err e) => roll_back e true f
      end)
  | Activate future => Poll future (fun r =>
      match r with
      | None => mret (Pending, f)
      | Some (Ok p) =>
          let f := set_packet p f in
          if ObjectLocation_locality (original f) =? ObjectLocation_locality (packet_from p) then report f
          else go (place_of (original f)) MIGRATION_RETIRE_ACTION_ID Retire fail_committed f
      | Some (Err e) => fail_committed e f
      end)
  | Retire future => Poll future (fun r =>
      match r with
      | None => mret (Pending, f)
      | Some (Ok _) => report f
      | Some (Err e) => fail_committed e f
      end)
  | RollbackSource future error destination => Poll future (fun r =>
      match r with
      | None => mret (Pending, f)
      | Some (Err rollback) =>
          let message := display error ++ lit "; source rollback failed: " ++ display rollback in
          f ← finish_future Failed f;
          mret (Return (Err (RuntimeError_Migration (packet_migration (packet f)) message)), f)
      | Some (Ok _) =>
          if destination then
            go (packet_destination (packet f)) MIGRATION_ROLLBACK_ACTION_ID
              (fun future => RollbackDestination future error)
              (fun _ f => f ← finish_future Failed f; mret (Return (Err error), f)) f
          else
            f ← finish_future RolledBack f;
            mret (Return (Err error), set_mig_state Done f)
      end)
  | RollbackDestination future error => Poll future (fun r =>
      match r with
      | None => mret (Pending, f)
      | Some (Err rollback) =>
          let message := display error ++ lit "; destination rollback failed: " ++ display rollback in
          f ← finish_future Failed f;
          mret (Return (Err (RuntimeError_Migration (packet_migration (packet f)) message)), f)
      | Some (Ok _) =>
          f ← finish_future RolledBack f;
          mret (Return (Err error), set_mig_state Done f)
      end)
  | Done => mret (Return after_completion, f)
  end.

(** [poll]'s loop, bounded by [fuel]. *)
Fixpoint poll (fuel : nat) (f : MigrationFuture) : Prog (Polled * MigrationFuture) :=
  match fuel with
  | O => mret (Continue, f)
  | S fuel =>
      '(p, f) ← poll_once f;
      match p with Continue => poll fuel f | _ => mret (p, f) end
  end.

(** [Drop]. *)
Definition drop_future (f : MigrationFuture) : Prog unit :=
  match service f with
  | None => mret tt
  | Some _ =>
      let finish := (finish_future (if committed f then Failed else RolledBack) f ≫= fun _ => mret tt) in
      if committed f && client f then FailCommitted finish else finish
  end.

(** ** What a future does, whatever it is answered *)

Inductive effect : Type :=
| E_step (place : Place) (action : ActionId)
| E_cache (o : ObjectId) (l : ObjectLocation)
| E_finish (m : RequestId) (outcome : MigrationOutcome) (bytes : Z)
| E_fail.

(** On every path [p] returns, without a panic, such that [Q] holds of what it
    did and returned.  Replies answer the migration [m] they were asked. *)
Fixpoint always {A} (m : RequestId) (p : Prog A) (tr : list effect) (Q : list effect -> A -> Prop) : Prop :=
  match p with
  | Ret a => Q tr a
  | Unwind => False
  | Step place action _ k => forall r, always m (k r) (tr ++ [E_step place action]) Q
  | Poll _ k => forall r, (forall x, r = Some (Ok x) -> packet_migration x = m) -> always m (k r) tr Q
  | Cache o l k => always m k (tr ++ [E_cache o l]) Q
  | Finish m' outcome bytes k => always m k (tr ++ [E_finish m' outcome bytes]) Q
  | FailCommitted k => always m k (tr ++ [E_fail]) Q
  end.

Lemma always_bind {A B} m (p : Prog A) (k : A -> Prog B) tr Q :
  always m p tr (fun tr' a => always m (k a) tr' Q) -> always m (p ≫= k) tr Q.
Proof.
  change (p ≫= k) with (prog_bind p k). revert tr.
  induction p as [a| |place action x c IH|f c IH|o l c IH|m' out b c IH|c IH]; intros tr; cbn; eauto.
Qed.

Lemma always_mono {A} m (p : Prog A) tr (Q Q' : list effect -> A -> Prop) :
  always m p tr Q -> (forall tr' a, Q tr' a -> Q' tr' a) -> always m p tr Q'.
Proof.
  intros Hp HQ. revert tr Hp.
  induction p as [a| |place action x c IH|f c IH|o l c IH|m' out b c IH|c IH]; intros tr; cbn; eauto.
Qed.

(** The whole life of a future: polled up to [n] times, then dropped. *)
Definition enough (l : ObjectLimits) : nat := Z.to_nat (max_redirects l) + 8.

Fixpoint drive (fuel n : nat) (f : MigrationFuture) : Prog (option (result RuntimeError MigrationReport)) :=
  match n with
  | O => drop_future f;; mret None
  | S n =>
      '(p, f) ← poll fuel f;
      match p with
      | Return r => drop_future f;; mret (Some r)
      | Pending => drive fuel n f
      | Continue => Unwind
      end
  end.

Definition steps_of (tr : list effect) : list ActionId :=
  omap (fun x => match x with E_step _ a => Some a | _ => None end) tr.
Definition finishes (tr : list effect) : list (RequestId * MigrationOutcome) :=
  omap (fun x => match x with E_finish m out _ => Some (m, out) | _ => None end) tr.
Definition failures (tr : list effect) : nat :=
  length (omap (fun x => match x with E_fail => Some tt | _ => None end) tr).

Lemma steps_of_app tr k : steps_of (tr ++ k) = steps_of tr ++ steps_of k.
Proof. apply omap_app. Qed.
Lemma finishes_app tr k : finishes (tr ++ k) = finishes tr ++ finishes k.
Proof. apply omap_app. Qed.
Lemma failures_app tr k : failures (tr ++ k) = (failures tr + failures k)%nat.
Proof. unfold failures. by rewrite omap_app, length_app. Qed.

(** The steps after those that look for the object. *)
Abbreviation P := MIGRATION_PREPARE_ACTION_ID. Abbreviation C := MIGRATION_COMMIT_ACTION_ID.
Abbreviation A := MIGRATION_ACTIVATE_ACTION_ID. Abbreviation R := MIGRATION_RETIRE_ACTION_ID.
Abbreviation B := MIGRATION_ROLLBACK_ACTION_ID.

(** [courses c tail]: [tail] is a course of the protocol, [c] whether it is
    past the commit. *)
Definition courses : list (bool * list ActionId) :=
  [(false, []); (false, [P]); (false, [P; C]); (false, [B]); (false, [P; B]); (false, [P; C; B]);
   (false, [P; C; B; B]); (true, [P; C; A]); (true, [P; C; A; R])].

(** The steps sent when a future is in a state. *)
Definition sent_in (st : MigrationState) (tail : list ActionId) : Prop :=
  match st with
  | Freeze _ => tail = []
  | Prepare _ => tail = [P]
  | Commit _ => tail = [P; C]
  | Activate _ => tail = [P; C; A]
  | Retire _ => tail = [P; C; A; R]
  | RollbackSource _ _ false => tail = [B] \/ tail = [P; B]
  | RollbackSource _ _ true => tail = [P; C; B]
  | RollbackDestination _ _ => tail = [P; C; B; B]
  | _ => False
  end.

Definition past_commit (st : MigrationState) : bool :=
  match st with Activate _ | Retire _ => true | _ => false end.
Definition needs_prepared (st : MigrationState) : bool :=
  match st with Commit _ | Activate _ | Retire _ => true | _ => false end.

(** A future at work that has sent [tail] after its requests to freeze. *)
Definition base (l : ObjectLimits) (m : RequestId) (f : MigrationFuture) (tr : list effect) (tail : list ActionId) : Prop :=
  service f = Some l /\ client f = true /\ packet_migration (packet f) = m /\
  finishes tr = [] /\ failures tr = 0%nat /\ 0 <= redirects f <= max_redirects l /\
  steps_of tr = replicate (Z.to_nat (redirects f)) MIGRATION_FREEZE_ACTION_ID ++ tail.

Definition live (l : ObjectLimits) (m : RequestId) (f : MigrationFuture) (tr : list effect) : Prop :=
  committed f = past_commit (mig_state f) /\
  (needs_prepared (mig_state f) = true -> is_Some (mig_prepared f)) /\
  exists tail, sent_in (mig_state f) tail /\ base l m f tr tail.

(** What a finished life looks like. *)
Definition settled (l : ObjectLimits) (m : RequestId) (res : option (result RuntimeError MigrationReport))
    (tr : list effect) : Prop :=
  exists k c tail out,
    Z.of_nat k <= max_redirects l /\ (c, tail) ∈ courses /\
    steps_of tr = replicate k MIGRATION_FREEZE_ACTION_ID ++ tail /\
    finishes tr = [(m, out)] /\
    (out = Completed <-> exists x, res = Some (Ok x)) /\
    (out = RolledBack -> c = false) /\ (out = Completed -> c = true) /\
    failures tr = (if c then match out with Completed => 0 | _ => 1 end else 0)%nat.

Definition mig_measure (l : ObjectLimits) (f : MigrationFuture) : nat :=
  match mig_state f with
  | Freeze _ => Z.to_nat (max_redirects l - redirects f) + 6
  | Prepare _ => 5 | Commit _ => 4 | Activate _ => 3 | Retire _ => 2
  | RollbackSource _ _ _ => 2 | RollbackDestination _ _ => 1
  | _ => 0
  end.

Definition polled (l : ObjectLimits) (m : RequestId) (n : nat) (tr : list effect) (x : Polled * MigrationFuture) : Prop :=
  match x.1 with
  | Pending => live l m x.2 tr
  | Continue => live l m x.2 tr /\ (mig_measure l x.2 < n)%nat
  | Return r => settled l m (Some r) tr /\ service x.2 = None
  end.

(** *** The pieces of a poll *)

Implicit Types (l : ObjectLimits) (m : RequestId) (f : MigrationFuture) (tr : list effect) (tail : list ActionId).

Lemma base_sent l m f tr tail place a :
  base l m f tr tail -> base l m f (tr ++ [E_step place a]) (tail ++ [a]).
Proof.
  intros (Hs & Hc & Hm & Hf & Hx & Hr & Ht). unfold base.
  rewrite finishes_app, failures_app, steps_of_app, Hf, Hx, Ht, <- app_assoc. split_and!; try done; lia.
Qed.

Lemma base_same l m f f' tr tail :
  base l m f tr tail -> service f' = service f -> client f' = client f -> redirects f' = redirects f ->
  packet_migration (packet f') = m -> base l m f' tr tail.
Proof.
  intros (Hs & Hc & Hm & Hf & Hx & Hr & Ht) Hs' Hc' Hr' Hm'. unfold base. rewrite Hs', Hc', Hr'. destruct Hr. by split_and!.
Qed.

Lemma base_settled l m f tr tail c out b res :
  base l m f tr tail -> (c, tail) ∈ courses ->
  (out = Completed <-> exists x, res = Some (Ok x)) -> (out = RolledBack -> c = false) ->
  c = match out with Completed => true | _ => false end \/ c = false /\ out <> Completed ->
  settled l m res (tr ++ [E_finish (packet_migration (packet f)) out b]).
Proof.
  intros (Hs & Hc & Hm & Hf & Hx & Hr & Ht) Hin Hres Hrb Hok.
  exists (Z.to_nat (redirects f)), c, tail, out.
  rewrite finishes_app, failures_app, steps_of_app, Hf, Hx, Ht, app_nil_r. cbn.
  split_and!; try done; [lia|by rewrite Hm|..].
  - intros ->. destruct Hok as [->|[_ ?]]; done.
  - destruct Hok as [->|[-> _]]; [|done]. by destruct out.
Qed.

Lemma base_failed l m f tr tail b e :
  base l m f tr tail -> (true, tail) ∈ courses ->
  settled l m (Some (Err e)) ((tr ++ [E_fail]) ++ [E_finish (packet_migration (packet f)) Failed b]).
Proof.
  intros (Hs & Hc & Hm & Hf & Hx & Hr & Ht) Hin.
  exists (Z.to_nat (redirects f)), true, tail, Failed.
  rewrite !finishes_app, !failures_app, !steps_of_app, Hf, Hx, Ht, !app_nil_r. cbn.
  split_and!; try done; [lia|by rewrite Hm|]. split; [done|]. by intros [x Hres].
Qed.

Lemma always_finish l m f tr tail out (Q : list effect -> MigrationFuture -> Prop) :
  base l m f tr tail ->
  Q (tr ++ [E_finish (packet_migration (packet f)) out (mig_bytes f)]) (released f) ->
  always m (finish_future out f) tr Q.
Proof. intros (Hs & _) HQ. unfold finish_future. by rewrite Hs. Qed.

Lemma always_step l m f tr tail place a p (Q : list effect -> result RuntimeError Fut -> Prop) :
  base l m f tr tail -> (forall r, Q (tr ++ [E_step place a]) r) -> always m (migration_step place a p f) tr Q.
Proof. intros (_ & Hc & _) HQ. unfold migration_step. by rewrite Hc. Qed.

Lemma always_ret {X} m (a : X) tr (Q : list effect -> X -> Prop) : Q tr a -> always m (mret a) tr Q.
Proof. done. Qed.

Lemma roll_back_polled l m f tr tail e d n :
  base l m f tr tail -> committed f = false -> (2 < n)%nat ->
  (d = false /\ (tail = [] \/ tail = [P]) \/ d = true /\ tail = [P; C]) ->
  always m (roll_back e d f) tr (polled l m n).
Proof.
  intros Hb Hc Hn Hd. unfold roll_back, start_rollback. apply always_bind, always_bind.
  apply (always_step l m f tr tail); [done|]. intros [fut|x]; apply always_ret; cbn [fst].
  - apply always_ret. split; [|done]. split; [done|]. split; [by destruct d|].
    exists (tail ++ [B]). split; [|by apply base_sent].
    cbn. destruct Hd as [[-> [->| ->]]|[-> ->]]; auto.
  - eapply always_bind, (always_finish l); [by apply base_sent|]. apply always_ret. split; [|done].
    apply (base_settled l m f _ (tail ++ [B]) false); [by apply base_sent|..]; try done; auto.
    + destruct Hd as [[-> [->| ->]]|[-> ->]]; set_solver.
    + split; [done|]. by intros [? ?].
Qed.

Lemma fail_committed_polled l m f tr tail e n :
  base l m f tr tail -> (true, tail) ∈ courses -> always m (fail_committed e f) tr (polled l m n).
Proof.
  intros Hb Hin. unfold fail_committed. destruct (Hb) as (Hs & Hc & _). rewrite Hc. cbn [always].
  apply always_bind. unfold finish_future. rewrite Hs. cbn [always]. apply always_ret. split; [|done].
  by apply (base_failed l m f tr tail).
Qed.

(** Sending the next step. *)
Lemma go_polled l m f tr tail place a next otherwise n :
  base l m f tr tail ->
  (forall fut, sent_in (next fut) (tail ++ [a]) /\ committed f = past_commit (next fut) /\
     (needs_prepared (next fut) = true -> is_Some (mig_prepared f)) /\
     (mig_measure l (set_mig_state (next fut) f) < n)%nat) ->
  (forall e tr', base l m f tr' (tail ++ [a]) -> always m (otherwise e f) tr' (polled l m n)) ->
  always m (go place a next otherwise f) tr (polled l m n).
Proof.
  intros Hb Hnext Hother. unfold go. apply always_bind, (always_step l m f tr tail); [done|].
  pose proof (base_sent l m f tr tail place a Hb) as Hb'. intros [fut|e]; [|by apply Hother].
  apply always_ret. destruct (Hnext fut) as (Hs & Hc & Hp & Hn). split; [|done].
  split; [done|]. split; [done|]. by exists (tail ++ [a]).
Qed.

Lemma report_polled l m f tr tail n :
  base l m f tr tail -> (true, tail) ∈ courses -> is_Some (mig_prepared f) ->
  always m (report f) tr (polled l m n).
Proof.
  intros Hb Hin [to Hto]. unfold report, limits_unwrap. destruct (Hb) as (Hs & _). rewrite Hto, Hs. cbn [always].
  apply always_bind. set (tr' := tr ++ _). assert (Hb' : base l m f tr' tail).
  { destruct Hb as (? & ? & ? & Hf & Hx & ? & Ht). unfold base, tr'.
    rewrite finishes_app, failures_app, steps_of_app, Hf, Hx, Ht, !app_nil_r. split_and!; try done; lia. }
  apply (always_finish l m f tr' tail); [done|]. apply always_ret. split; [|done].
  apply (base_settled l m f tr' tail true); try done; [|by left]. split; [eauto|done].
Qed.

(** A future that gives up before the commit. *)
Lemma abort_with_settles l m f tr tail out e (g : MigrationFuture -> MigrationFuture) n :
  base l m f tr tail -> (false, tail) ∈ courses -> out <> Completed -> (forall f', service (g f') = service f') ->
  always m (f' ← finish_future out f; mret (Return (Err (e f')), g f')) tr (polled l m n).
Proof.
  intros Hb Hin Hout Hg. apply always_bind, (always_finish l m f tr tail); [done|]. apply always_ret.
  split; [|cbn; by rewrite Hg].
  apply (base_settled l m f tr tail false); try done; [|by right]. split; [done|]. by intros [x [= Hx]].
Qed.

Ltac course := unfold courses; set_solver.

Lemma sent_course st tail : sent_in st tail -> (past_commit st, tail) ∈ courses.
Proof.
  destruct st as [| | | | | |? ? []| |]; cbn; try done; try (intros ->; course). intros [-> | ->]; course.
Qed.

Lemma poll_freeze_polled l m f tr r :
  (forall p, r = Ok p -> packet_migration p = m) ->
  base l m f tr [] -> committed f = false ->
  always m (poll_freeze r f) tr (polled l m (Z.to_nat (max_redirects l - redirects f) + 6)).
Proof.
  intros Hm Hb Hc. pose proof Hb as (Hs & Hcl & Hpk & Hf & Hx & Hr & Ht).
  destruct r as [p|e]; cbn [poll_freeze].
  - destruct (sum_segments 0 (packet_snapshot p)) as [bytes|].
    + cbv zeta. set (f' := set_packet p (set_mig_bytes bytes f)).
      assert (Hb' : base l m f' tr []) by (apply (base_same l m f); auto).
      apply (go_polled l m f' tr []); [done|..].
      * intros fut. split_and!; try done. cbn. lia.
      * intros x tr' Hbx. apply (roll_back_polled l m f' tr' [P]); try done; [lia|]. left. auto.
    + unfold limits_unwrap. rewrite Hs. apply (roll_back_polled l m f tr []); try done; [lia|]. left. auto.
  - set (n := (_ + 6)%nat).
    assert (Hstop : always m (f' ← finish_future RolledBack f;
      mret (Return (Err (migration_error e f)), set_mig_state Done f')) tr (polled l m n))
      by (by apply (abort_with_settles l m f tr [] RolledBack (fun _ => migration_error e f) (set_mig_state Done) n Hb);
          [course|..]).
    destruct (is_redirect e f) as [loc|]; [|exact Hstop].
    unfold limits_unwrap. rewrite Hs. destruct (Z.ltb_spec (redirects f) (max_redirects l)); [|exact Hstop].
    cbv zeta. cbn [always]. set (f' := redirected loc f). set (tr' := tr ++ _).
    assert (Hsent : forall place, base l m f' (tr' ++ [E_step place MIGRATION_FREEZE_ACTION_ID]) []).
    { intros place. unfold base, tr'. cbn [f' redirected redirects].
      rewrite !finishes_app, !failures_app, !steps_of_app, Hf, Hx, Ht, !app_nil_r.
      split_and!; try done; [lia..|]. cbn. replace (Z.to_nat (redirects f + 1)) with (Z.to_nat (redirects f) + 1)%nat by lia.
      by rewrite replicate_add. }
    unfold go. apply always_bind. unfold migration_step. change (client f') with (client f). rewrite Hcl.
    cbn [always]. intros [fut|x].
    + split; [|cbn; subst n; lia]. split; [done|]. split; [done|]. exists []. split; [done|exact (Hsent _)].
    + by apply (abort_with_settles l m f' _ [] RolledBack (fun _ => x) id n (Hsent _)); [course|..].
Qed.

Lemma poll_once_polled l m f tr :
  live l m f tr -> always m (poll_once f) tr (polled l m (mig_measure l f)).
Proof.
  intros Hlive. pose proof Hlive as (Hc & Hp & tail & Hs & Hb).
  unfold poll_once, mig_measure.
  destruct (mig_state f) as [r|fut|fut|fut|fut|fut|fut e d|fut e|] eqn:Hst; cbn [sent_in past_commit needs_prepared] in *;
    try done; cbn [always]; intros r Hr; (destruct r as [[p|x]|]; [| |by apply always_ret]).
  - subst tail. apply poll_freeze_polled; try done. intros p' [= <-]. by apply Hr.
  - subst tail. by apply poll_freeze_polled.
  - subst tail. assert (Hb' : base l m (set_packet p (set_mig_prepared (Some (packet_from p)) f)) tr [P])
      by (apply (base_same l m f); auto).
    apply (go_polled l m _ tr [P]); [done|..].
    + intros fut'. split_and!; try done; try (by eexists). cbn; lia.
    + intros x tr' Hbx. apply (roll_back_polled l m _ tr' [P; C]); try done; [lia|]. by right.
  - subst tail. apply (roll_back_polled l m f tr [P]); try done; [lia|]. left. auto.
  - subst tail. assert (Hb' : base l m (set_packet p (set_committed true f)) tr [P; C])
      by (apply (base_same l m f); auto).
    apply (go_polled l m _ tr [P; C]); [done|..].
    + intros fut'. split_and!; try done; try (by intros; apply Hp). cbn; lia.
    + intros x tr' Hbx. apply (fail_committed_polled l m _ tr' [P; C; A]); [done|course].
  - subst tail. apply (roll_back_polled l m f tr [P; C]); try done; [lia|]. by right.
  - subst tail. assert (Hb' : base l m (set_packet p f) tr [P; C; A])
      by (apply (base_same l m f); auto).
    cbv zeta. destruct (_ =? _).
    + apply (report_polled l m _ tr [P; C; A]); [done|course|by apply Hp].
    + apply (go_polled l m _ tr [P; C; A]); [done|..].
      * intros fut'. split_and!; try done; try (by intros; apply Hp). cbn; lia.
      * intros x tr' Hbx. apply (fail_committed_polled l m _ tr' [P; C; A; R]); [done|course].
  - subst tail. apply (fail_committed_polled l m f tr [P; C; A]); [done|course].
  - subst tail. apply (report_polled l m f tr [P; C; A; R]); [done|course|by apply Hp].
  - subst tail. apply (fail_committed_polled l m f tr [P; C; A; R]); [done|course].
  - assert (Hin : (false, tail) ∈ courses) by (by apply (sent_course (RollbackSource fut e d))).
    destruct d.
    + subst tail. apply (go_polled l m f tr [P; C; B]); [done|..].
      * intros fut'. split_and!; try done. cbn. lia.
      * intros x tr' Hbx. by apply (abort_with_settles l m f tr' [P; C; B; B] Failed (fun _ => e) id _ Hbx); [course|..].
    + by apply (abort_with_settles l m f tr tail RolledBack (fun _ => e) (set_mig_state Done) _ Hb Hin).
  - assert (Hin : (false, tail) ∈ courses) by (by apply (sent_course (RollbackSource fut e d))).
    by apply (abort_with_settles l m f tr tail Failed (fun f' => RuntimeError_Migration (packet_migration (packet f'))
      (display e ++ lit "; source rollback failed: " ++ display x)) id _ Hb Hin).
  - subst tail. by apply (abort_with_settles l m f tr [P; C; B; B] RolledBack (fun _ => e) (set_mig_state Done) _ Hb); [course|..].
  - subst tail. by apply (abort_with_settles l m f tr [P; C; B; B] Failed
      (fun f' => RuntimeError_Migration (packet_migration (packet f'))
        (display e ++ lit "; destination rollback failed: " ++ display x)) id _ Hb); [course|..].
Qed.

Lemma poll_polled l m fuel : forall f tr n,
  live l m f tr -> (mig_measure l f < fuel)%nat ->
  always m (poll fuel f) tr (fun tr' x => x.1 <> Continue /\ polled l m n tr' x).
Proof.
  induction fuel as [|fuel IH]; intros f tr n Hl Hn; [lia|]. cbn [poll]. apply always_bind.
  eapply always_mono; [by apply poll_once_polled|]. intros tr' [[|r|] f'] Hx; cbn in Hx |- *.
  - by split.
  - by split.
  - destruct Hx as [Hl' Hm]. apply IH; [done|lia].
Qed.

Lemma enough_fuel l m f tr : live l m f tr -> (mig_measure l f < enough l)%nat.
Proof.
  intros (_ & _ & tail & _ & _ & _ & _ & _ & _ & Hr & _). unfold mig_measure, enough.
  destruct (mig_state f); lia.
Qed.

(** A future dropped at work. *)
Lemma drop_settles l m f tr :
  live l m f tr -> always m (drop_future f) tr (fun tr' _ => settled l m None tr').
Proof.
  intros (Hc & _ & tail & Hs & Hb). pose proof Hb as (Hsv & Hcl & _).
  unfold drop_future. rewrite Hsv, Hcl, Hc. rewrite andb_true_r.
  assert (Hno : forall out : MigrationOutcome, out <> Completed -> (out = Completed <->
    exists x : MigrationReport, (None : option (result RuntimeError MigrationReport)) = Some (Ok x)))
    by (intros out Hout; split; [done|by intros [? ?]]).
  destruct (past_commit (mig_state f)) eqn:Hpast.
  - cbn [always]. apply always_bind. unfold finish_future. rewrite Hsv. cbn [always]. apply always_ret.
    pose proof (sent_course _ _ Hs) as Hin. rewrite Hpast in Hin.
    destruct (base_failed l m f tr tail (mig_bytes f) (RuntimeError_Shutdown) Hb Hin)
      as (k & c & t & out & H1 & H2 & H3 & H4 & H5 & H6 & H7 & H8).
    exists k, c, t, out. split_and!; try done. apply Hno. intros ->. destruct H5 as [[x [=]] _]; done.
  - apply always_bind, (always_finish l m f tr tail); [done|]. apply always_ret.
    pose proof (sent_course _ _ Hs) as Hin. rewrite Hpast in Hin.
    apply (base_settled l m f tr tail false); try done; [by apply Hno|by right].
Qed.

Lemma drive_settles l m n : forall f tr,
  live l m f tr -> always m (drive (enough l) n f) tr (fun tr' res => settled l m res tr').
Proof.
  induction n as [|n IH]; intros f tr Hl; cbn [drive]; apply always_bind.
  - eapply always_mono; [by apply drop_settles|]. done.
  - eapply always_mono; [apply (poll_polled l m (enough l) f tr 0 Hl), (enough_fuel l m f tr Hl)|].
    intros tr' [[|r|] f'] [Hne Hx]; cbn in Hx |- *.
    + by apply IH.
    + destruct Hx as [Hset Hsv]. apply always_bind. unfold drop_future. by rewrite Hsv.
    + done.
Qed.

(** C22: a migration settles exactly once, whatever the network and the other
    localities answer and however often its future is polled before it is
    dropped: no poll panics or loops forever; the steps sent are at most
    [max_redirects] more requests to freeze and then one of nine courses of the
    protocol, so nothing is prepared before the freeze succeeded, committed before
    it was prepared, or activated before it was committed; the service hears of
    exactly one outcome, completed exactly if the caller got a report, and rolled
    back only if the commit was not acknowledged; and the runtime is failed
    exactly if a committed migration does not complete. *)
Theorem migration_settles_once l p authority future n :
  0 <= max_redirects l ->
  always (packet_migration p) (drive (enough l) n (MigrationFuture_new l p authority future)) []
    (fun tr res => settled l (packet_migration p) res tr).
Proof.
  intros Hl. apply drive_settles. split; [done|]. split; [done|]. exists []. split; [done|].
  unfold base. by split_and!.
Qed.
End Future.

(** A future whose request to freeze has been sent and that is polled three times. *)
Lemma migration_settles_once_witness :
  always (Fut := unit) (mkRequestId 0 1)
    (drive (fun _ => []) (enough ObjectLimits_default) 3
      (MigrationFuture_new ObjectLimits_default
        (mkMigrationPacket (mkRequestId 0 1) ex_object 7 0 (mkObjectLocation 0 1 1 1 1) (Place_new 1 1) 1 2 [])
        (mkObjectLocation 0 1 1 1 1) tt)) []
    (fun tr res => settled ObjectLimits_default (mkRequestId 0 1) res tr).
Proof.
  apply (migration_settles_once (fun _ => []) ObjectLimits_default
    (mkMigrationPacket (mkRequestId 0 1) ex_object 7 0 (mkObjectLocation 0 1 1 1 1) (Place_new 1 1) 1 2 [])
    (mkObjectLocation 0 1 1 1 1) tt 3). cbn. lia.
Defined.
