(* ===== verification/MigrationRuns.v ===== *)
(** * MigrationRuns: a migration over the object services of a run

    Composes [MigrationFuture] with the handlers of the localities: every request
    is served at once by the service it is addressed to.  A migration that meets
    no obstacle moves the object: its state is at the destination, under the next
    epoch, and nowhere else. *)
From Stdlib Require Import Strings.Byte.
From S2P Require Import Prelude Text Protocol Error RuntimeTypes RuntimeWire Action Domain ObjectWire ObjectRegistry Objects Migration ObjectRuns ObjectWorld ObjectExpiry MigrationFuture.

Section Runs.
Context `{AnyTypes}.
Context (display : RuntimeError -> text).
Implicit Types (s : ObjectService) (e : ObjectEntry) (p : MigrationPacket).

(** ** Localities that serve requests at once *)

Abbreviation Services := (gmap LocalityId ObjectService).

Definition step_of (now : Z) (action : ActionId) : option (MigrationPacket -> M ObjectService ActionError MigrationPacket) :=
  if action =? MIGRATION_FREEZE_ACTION_ID then Some (freeze_migration now)
  else if action =? MIGRATION_PREPARE_ACTION_ID then Some (prepare_migration now)
  else if action =? MIGRATION_COMMIT_ACTION_ID then Some (commit_migration now)
  else if action =? MIGRATION_ACTIVATE_ACTION_ID then Some activate_migration
  else if action =? MIGRATION_ROLLBACK_ACTION_ID then Some rollback_migration
  else if action =? MIGRATION_RETIRE_ACTION_ID then Some (retire_migration now)
  else None.

(** What the caller makes of a handler's answer. *)
Definition reply (m : RequestId) (r : result (exn ActionError) Segments) : result RuntimeError MigrationPacket :=
  match r with
  | Ok segments => map_err (fun x => RuntimeError_Protocol (ActionError_message x)) (MigrationPacket_decode segments)
  | Err (Raise x) => Err (RuntimeError_RemoteAction m (ActionError_message x))
  | Err Panic => Err (RuntimeError_RemoteAction m (ActionError_message ActionError_Panic))
  end.

Definition serve (now : Z) (place : Place) (action : ActionId) p (w : Services) :
    result RuntimeError MigrationPacket * Services :=
  match w !! locality place, step_of now action, MigrationPacket_encode p with
  | Some s, Some step, Ok segments =>
      let '(r, s') := migration_handler step segments s in
      (reply (packet_migration p) r, <[locality place := s']> w)
  | _, _, _ => (Err (RuntimeError_InvalidMembership (locality place)), w)
  end.

Definition on_service {A} (id : LocalityId) (m : M ObjectService unit A) (w : Services) : Services :=
  alter (fun s => (m s).2) id w.

(** The program of a poll at locality [here]; the future of a request is its
    answer. *)
Fixpoint exec {A} (now : Z) (here : LocalityId) (prog : Prog (Fut := result RuntimeError MigrationPacket) A)
    (w : Services) : option A * Services :=
  match prog with
  | Ret a => (Some a, w)
  | Unwind => (None, w)
  | Step place action p k => let '(r, w) := serve now place action p w in exec now here (k (Ok r)) w
  | Poll f k => exec now here (k (Some f)) w
  | Cache o l k => exec now here k (on_service here (cache_location o l) w)
  | Finish m outcome bytes k => exec now here k (on_service here (finish_migration m outcome bytes) w)
  | FailCommitted k => exec now here k w
  end.

Definition migrate_run (now : Z) (here : LocalityId) (l : ObjectLimits) p (authority : ObjectLocation) (w : Services) :=
  let '(r, w) := serve now (place_of (packet_from p)) MIGRATION_FREEZE_ACTION_ID p w in
  exec now here (poll display (enough l) (MigrationFuture_new l p authority r)) w.

(** ** The steps on their services *)

Lemma serve_ok now place action p p' step s s' (w : Services) :
  w !! locality place = Some s -> step_of now action = Some step -> packet_wf p -> packet_wf p' ->
  step p s = (Ok p', s') -> serve now place action p w = (Ok p', <[locality place := s']> w).
Proof.
  intros Hs Hstep Hp Hp' Hrun. unfold serve. rewrite Hs, Hstep, packet_encode_layout.
  unfold migration_handler. rewrite packet_decode_layout by done. mrun.
  rewrite (M_bind_step _ _ _ _ _ Hrun), packet_encode_layout. cbn [reply lift].
  by rewrite packet_decode_layout.
Qed.

Lemma run_update {E} o f s : update_entry (E := E) o f s = (Ok tt, put o f s).
Proof. done. Qed.

Lemma size_put o f s : size (entries (put o f s)) = size (entries s).
Proof. apply size_alter. Qed.

(** What a step leaves of a service: only the entry of [o] differs. *)
Definition stepped (o : ObjectId) s s' : Prop := same_but o s s' /\ size (entries s') = size (entries s).

Lemma stepped_put o f s s' : stepped o s s' -> stepped o s (put o f s').
Proof.
  intros [Hs Hn]. split; [eapply same_but_trans; [exact Hs|apply same_but_put]|]. by rewrite size_put.
Qed.

Lemma entry_for_migration_ok p s e (Q : ObjectEntry -> ObjectService -> Prop) R :
  entries s !! packet_object p = Some e -> entry_type e = packet_type p -> Q e s ->
  wp (entry_for_migration p) Q R s.
Proof.
  intros He Ht HQ. unfold entry_for_migration. apply wp_bind, wp_gets, wp_bind, wp_lift. rewrite He. cbn [ok_or].
  by rewrite Ht, Z.eqb_refl.
Qed.

Lemma registered_type_ok t s r (Q : ObjectTypeRegistration -> ObjectService -> Prop) R :
  types (registry s) !! t = Some r -> Q r s -> wp (registered_type t) Q R s.
Proof. intros Hr HQ. unfold registered_type. apply wp_bind, wp_gets, wp_lift. by rewrite Hr. Qed.

Lemma freeze_exact now p s e r fz st snap st' bytes :
  entries s !! packet_object p = Some e -> entry_type e = packet_type p -> location e = packet_from p ->
  authority e = packet_authority p -> types (registry s) !! packet_type p = Some r -> freezer r = Some fz ->
  snapshot_matches p r = true -> lifecycle e = Resident -> state e = Some st -> fz st = (Ok snap, st') ->
  validate_snapshot snap s = Ok bytes ->
  wp (freeze_migration now p) (fun p' s' => p' = with_snapshot snap p /\ stepped (packet_object p) s s' /\
    entries s' !! packet_object p =
      Some (set_snapshot_bytes bytes (set_state (Some st')
        (set_lifecycle (Freezing (packet_migration p) (now + forwarding_ttl (limits s))) e))))
    (fun _ _ => False) s.
Proof.
  intros He Ht Hl Ha Hr Hfz Hm Hlife Hst Hrun Hv. unfold freeze_migration.
  apply wp_bind, (entry_for_migration_ok p s e); [done..|].
  rewrite Hl, Ha, Z.eqb_refl, bool_decide_eq_false_2 by tauto. cbn [negb orb].
  apply wp_bind, (registered_type_ok _ s r); [done|]. apply wp_bind, wp_lift. rewrite Hfz. cbn [ok_or].
  rewrite Hm. cbn [negb]. apply wp_bind, wp_gets. rewrite Hlife. apply wp_bind, wp_update, wp_bind, wp_lift.
  unfold resident_state. rewrite Hst. cbn [ok_or]. rewrite Hrun, Hv.
  apply wp_bind, wp_update, wp_bind, wp_update, wp_ret. split; [done|]. split.
  - do 3 apply stepped_put. by split.
  - erewrite lookup_put_same; [|erewrite lookup_put_same; [|by apply lookup_put_same]]; done.
Qed.

(** The place [prepare_migration] gives the object. *)
Definition next_location p s : ObjectLocation :=
  mkObjectLocation (local_id s) (RuntimeTypes.domain (packet_destination p)) (next_slot s) 1
    (ObjectLocation_epoch (packet_from p) + 1).

Definition prepared_of p s (restored : ErasedState) (bytes t : Z) : PreparedState :=
  mkPreparedState (packet_migration p) (next_location p s) restored bytes t.

Lemma prepare_exact now p s r rs restored bytes :
  locality (packet_destination p) = local_id s -> types (registry s) !! packet_type p = Some r ->
  type_mobility r <> Pinned -> snapshot_matches p r = true -> restorer r = Some rs ->
  rs (packet_snapshot p) (packet_destination p) = Ok restored ->
  validate_snapshot (packet_snapshot p) s = Ok bytes ->
  prepared_count s < max_prepared_migrations (limits s) -> 0 < next_slot s < u64_max ->
  0 < ObjectLocation_epoch (packet_from p) < u64_max ->
  store_is_full (packet_object p) s = false ->
  (forall e, entries s !! packet_object p = Some e ->
     entry_type e = packet_type p /\ authority e = packet_authority p /\ prepared e = None) ->
  wp (prepare_migration now p) (fun p' s' => p' = with_from (next_location p s) (with_snapshot [] p) /\
    same_but (packet_object p) s s' /\
    (is_Some (entries s !! packet_object p) -> size (entries s') = size (entries s)) /\
    entries s' !! packet_object p = Some (set_prepared
      (Some (prepared_of p s restored bytes (now + forwarding_ttl (limits s))))
      (default (fresh_entry p (now + forwarding_ttl (limits s))) (entries s !! packet_object p))))
    (fun _ _ => False) s.
Proof.
  intros Hd Hr Hmob Hm Hrs Hrest Hv Hpc Hslot Hep Hfull He. unfold prepare_migration.
  apply wp_bind, wp_gets. rewrite Hd, Z.eqb_refl. cbn [negb].
  apply wp_bind, wp_lift. rewrite Hv. apply wp_bind, (registered_type_ok _ s r); [done|].
  rewrite bool_decide_eq_false_2, Hm by done. cbn [negb orb]. apply wp_bind, wp_lift. unfold fetch_increment.
  rewrite (proj2 (Z.ltb_lt _ _)) by done. cbn [ok_or]. apply wp_bind, wp_modify.
  set (s1 := set_prepared_count _ s).
  enough (Hw : wp (prepare_permitted now p bytes r) (fun x s' => x.2 = true /\
    x.1 = with_from (next_location p s) (with_snapshot [] p) /\ same_but (packet_object p) s s' /\
    (is_Some (entries s !! packet_object p) -> size (entries s') = size (entries s)) /\
    entries s' !! packet_object p = Some (set_prepared
      (Some (prepared_of p s restored bytes (now + forwarding_ttl (limits s))))
      (default (fresh_entry p (now + forwarding_ttl (limits s))) (entries s !! packet_object p))))
    (fun _ _ => False) s1).
  { unfold wp, with_permit in *. destruct (prepare_permitted now p bytes r s1) as [[[a b]|[]] s']; try done.
    cbn in Hw. destruct Hw as [-> Hw]. exact Hw. }
  unfold prepare_permitted. apply wp_bind, wp_gets. change (store_is_full _ s1) with (store_is_full (packet_object p) s).
  rewrite Hfull. apply wp_bind, wp_lift. unfold checked_add.
  rewrite (proj2 (Z.leb_le _ _)) by lia. cbn [ok_or]. apply wp_bind, wp_lift.
  assert (Hloc : ObjectLocation_new (local_id s) (RuntimeTypes.domain (packet_destination p)) (next_slot s) 1
      (ObjectLocation_epoch (packet_from p) + 1) = Ok (next_location p s))
    by (apply ObjectLocation_new_ok; split_and!; [done|lia..]).
  change (next_slot s1) with (next_slot s). change (local_id s1) with (local_id s). rewrite Hloc. cbn [map_err].
  apply wp_bind, wp_lift. rewrite (proj2 (Z.leb_le _ _)) by lia. cbn [ok_or]. apply wp_bind, wp_modify.
  apply wp_bind, wp_lift. rewrite Hrs. cbn [ok_or]. apply wp_bind. unfold wp at 1. rewrite Hrest.
  cbn [lift_exn]. apply wp_bind, wp_gets.
  set (s2 := set_next_slot _ s1). change (store_is_full _ s2) with (store_is_full (packet_object p) s). rewrite Hfull.
  change (limits s2) with (limits s). change (entries s2) with (entries s).
  set (t := now + forwarding_ttl (limits s)) in *. set (e := default (fresh_entry p t) (entries s !! packet_object p)) in *.
  assert (Hent : entry_type e = packet_type p /\ authority e = packet_authority p /\ prepared e = None).
  { unfold e. destruct (entries s !! packet_object p) as [e0|]; [by apply He|done]. }
  destruct Hent as (Hty & Hau & Hpr). apply wp_bind, wp_modify. set (s3 := set_entries _ s2).
  rewrite Hty, Hau, !Z.eqb_refl. cbn [negb orb]. cbv zeta. rewrite Hpr.
  apply wp_bind, wp_update, wp_ret. split_and!; try done.
  - eapply same_but_trans; [|apply same_but_put]. unfold same_but. split_and!; try done.
    intros o' Hne. by apply lookup_insert_ne.
  - intros Hsome. rewrite size_put. cbn [s3 set_entries entries]. by rewrite map_size_insert_Some.
  - rewrite (lookup_put_same _ _ _ e); [done|]. apply lookup_insert_eq.
Qed.

Lemma forwarders_below s o e :
  entries s !! o = Some e -> is_forwarding (lifecycle e) = false ->
  (sum_entries (fun e => if is_forwarding (lifecycle e) then 1 else 0)%nat s < size (entries s))%nat.
Proof.
  intros He Hf. change (msum (fun e => if is_forwarding (lifecycle e) then 1 else 0)%nat (entries s) < size (entries s))%nat.
  rewrite (msum_delete _ _ _ _ He), Hf. rewrite <- (insert_delete_id (entries s) o e) at 2 by done.
  rewrite map_size_insert_None by apply lookup_delete_eq. cbn.
  enough (forall m : gmap ObjectId ObjectEntry, msum (fun e => if is_forwarding (lifecycle e) then 1 else 0)%nat m <= size m)%nat
    by (apply Nat.lt_succ_r; auto).
  intros m. induction m as [|k x m Hk IH] using map_ind; [done|].
  rewrite msum_insert, map_size_insert_None by done. destruct (is_forwarding (lifecycle x)); lia.
Qed.

Lemma wp_cache {E} o l s (Q : unit -> ObjectService -> Prop) (R : E -> ObjectService -> Prop) :
  (forall x, Q tt (set_resolver x s)) -> wp (cache_location (E := E) o l) Q R s.
Proof. intros HQ. unfold cache_location. apply wp_modify. repeat case_match; apply HQ. Qed.

Lemma commit_exact now p s e :
  packet_authority p = local_id s -> entries s !! packet_object p = Some e -> entry_type e = packet_type p ->
  ObjectLocation_epoch (location e) + 1 = ObjectLocation_epoch (packet_from p) ->
  ObjectLocation_epoch (packet_from p) <= u64_max -> Z.of_nat (size (entries s)) <= max_forwarders (limits s) ->
  wp (commit_migration now p) (fun p' s' => p' = p /\ same_but (packet_object p) s s' /\
    entries s' !! packet_object p = Some (set_lifecycle
      (Forwarding (packet_from p) (now + forwarding_ttl (limits s))) (set_location (packet_from p) e)))
    (fun _ _ => False) s.
Proof.
  intros Ha He Ht Hep Hmax Hfw. unfold commit_migration. apply wp_bind, wp_gets. rewrite Ha, Z.eqb_refl. cbn [negb].
  apply wp_bind, (entry_for_migration_ok p s e); [done..|]. cbv zeta.
  rewrite (proj2 (andb_false_iff _ _)).
  2: { destruct (is_forwarding (lifecycle e)) eqn:Hf; [by left|right]. pose proof (forwarders_below s _ e He Hf). lia. }
  unfold checked_add. rewrite (proj2 (Z.leb_le _ _)), bool_decide_eq_false_2 by (rewrite ?Hep; try lia; intros Hne; by apply Hne).
  apply wp_bind, wp_update, wp_bind, wp_update, wp_bind, wp_cache. intros x. apply wp_ret. split_and!; [done|..].
  - change (same_but (packet_object p) s (put (packet_object p)
      (set_lifecycle (Forwarding (packet_from p) (now + forwarding_ttl (limits s))))
      (put (packet_object p) (set_location (packet_from p)) s))).
    eapply same_but_trans; apply same_but_put.
  - change (entries (set_resolver x ?s0)) with (entries s0).
    erewrite lookup_put_same; [done|by apply lookup_put_same].
Qed.

Lemma activate_exact p s e x :
  entries s !! packet_object p = Some e -> entry_type e = packet_type p -> prepared e = Some x ->
  prep_migration x = packet_migration p -> prep_location x = packet_from p ->
  wp (activate_migration p) (fun p' s' => p' = p /\ same_but (packet_object p) s s' /\
    exists e', entries s' !! packet_object p = Some e' /\ entry_type e' = entry_type e /\ authority e' = authority e /\
      lifecycle e' = Resident /\ location e' = packet_from p /\ state e' = Some (prep_state x))
    (fun _ _ => False) s.
Proof.
  intros He Ht Hp Hm Hl. unfold activate_migration. cbv zeta.
  apply wp_bind, (entry_for_migration_ok p s e); [done..|]. apply wp_bind, wp_update, wp_bind, wp_lift.
  rewrite Hp. cbn [ok_or]. apply wp_bind, wp_modify. set (s1 := set_prepared_count _ _).
  rewrite Hm, Hl, !bool_decide_eq_false_2 by tauto. cbn [orb].
  apply wp_bind, wp_update, wp_bind, wp_update, wp_bind, wp_update, wp_bind, wp_update, wp_bind, wp_cache.
  intros y. apply wp_ret.
  assert (Hs1 : entries s1 !! packet_object p = Some (set_prepared None e)) by (by apply (lookup_put_same _ (set_prepared None))).
  split_and!; [done|..].
  - do 4 (eapply same_but_trans; [|apply same_but_put]). apply (same_but_put _ (set_prepared None) s).
  - exists (set_lifecycle Resident (set_snapshot_bytes (prep_bytes x) (set_state (Some (prep_state x))
      (set_location (prep_location x) (set_prepared None e))))).
    split; [|by split_and!]. change (entries (set_resolver y ?s0)) with (entries s0).
    erewrite lookup_put_same; [done|]. erewrite lookup_put_same; [done|].
    erewrite lookup_put_same; [done|]. rewrite (lookup_put_same _ _ _ _ Hs1). by rewrite Hl.
Qed.

(** What collection does to an entry. *)
Lemma wp_collect_entry {E} o s e (Q : unit -> ObjectService -> Prop) (R : E -> ObjectService -> Prop) :
  entries s !! o = Some e -> is_Some (types (registry s) !! entry_type e) ->
  (forall s', same_but o s s' ->
     (forall e', entries s' !! o = Some e' -> state e' = state e /\ location e' = location e) -> Q tt s') ->
  wp (collect (E := E) o) Q R s.
Proof.
  intros He [r Hr] HQ. unfold collect. apply wp_bind, wp_gets. rewrite He.
  assert (Hstay : Q tt s) by (apply HQ; [done|]; intros e'; rewrite He; by intros [= <-]).
  assert (Hforget : wp (forget (E := E) o) Q R s).
  { apply wp_forget, HQ; [apply same_but_forgotten|]. intros e'. by rewrite forgotten_lookup. }
  destruct (negb (idle_entry e)); [done|].
  destruct (negb _); [apply wp_when; by destruct (_ && _)|]. destruct (_ || _); [done|].
  destruct (lifecycle e); try done; [apply wp_when; by destruct (bool_decide _)|].
  destruct (bool_decide _); [done|]. destruct (_ =? _); [done|]. rewrite Hr.
  destruct (_ <=? _); [done|]. apply wp_bind, wp_update, wp_modify. apply HQ; [apply (same_but_put o _ s)|].
  intros e'. change (entries (set_retirements _ ?s0)) with (entries s0).
  erewrite lookup_put_same by done. by intros [= <-].
Qed.

Lemma retire_exact now p s e :
  entries s !! packet_object p = Some e -> entry_type e = packet_type p ->
  is_Some (types (registry s) !! packet_type p) ->
  ObjectLocation_epoch (location e) <= ObjectLocation_epoch (packet_from p) ->
  wp (retire_migration now p) (fun p' s' => p' = p /\ same_but (packet_object p) s s' /\
    forall e', entries s' !! packet_object p = Some e' -> state e' = None /\ location e' = packet_from p)
    (fun _ _ => False) s.
Proof.
  intros He Ht Hr Hep. unfold retire_migration. cbv zeta. apply wp_bind, wp_gets.
  apply wp_bind, (entry_for_migration_ok p s e); [done..|].
  rewrite (proj2 (Z.ltb_ge _ _)) by done.
  apply wp_bind, wp_update, wp_bind, wp_update, wp_bind, wp_update, wp_bind, wp_update, wp_bind, wp_cache.
  intros y. set (s1 := set_resolver y _).
  assert (Hs1 : same_but (packet_object p) s s1).
  { change (same_but (packet_object p) s (set_resolver y (put (packet_object p)
      (set_lifecycle (Forwarding (packet_from p) (now + forwarding_ttl (limits s))))
      (put (packet_object p) (set_location (packet_from p)) (put (packet_object p) (set_snapshot_bytes 0)
        (put (packet_object p) (set_state None) s)))))).
    do 3 (eapply same_but_trans; [|apply same_but_put]). apply (same_but_put _ (set_state None) s). }
  assert (He1 : entries s1 !! packet_object p = Some (set_lifecycle (Forwarding (packet_from p)
    (now + forwarding_ttl (limits s))) (set_location (packet_from p) (set_snapshot_bytes 0 (set_state None e))))).
  { change (entries s1) with (entries (put (packet_object p)
      (set_lifecycle (Forwarding (packet_from p) (now + forwarding_ttl (limits s))))
      (put (packet_object p) (set_location (packet_from p)) (put (packet_object p) (set_snapshot_bytes 0)
        (put (packet_object p) (set_state None) s))))).
    erewrite lookup_put_same; [done|]. erewrite lookup_put_same; [done|].
    erewrite lookup_put_same; [done|]. by erewrite lookup_put_same. }
  apply wp_bind, (wp_collect_entry _ _ _ _ _ He1).
  - destruct Hs1 as (_ & _ & -> & _). cbn. by rewrite Ht.
  - intros s2 Hs2 Hk. apply wp_ret. split_and!; [done|by eapply same_but_trans|].
    intros e' He'. apply (Hk e' He').
Qed.

(** ** The whole migration *)

Lemma exec_bind {A B} now here (m : Prog (Fut := result RuntimeError MigrationPacket) A) (k : A -> Prog B) w :
  exec now here (m ≫= k) w =
    match exec now here m w with (Some a, w') => exec now here (k a) w' | (None, w') => (None, w') end.
Proof.
  change (m ≫= k) with (prog_bind m k). revert w.
  induction m as [a| |place action p c IH|f c IH|o l c IH|m' out b c IH|c IH]; intros w; cbn; auto.
  destruct (serve now place action p w) as [r w']. apply IH.
Qed.

Lemma exec_poll_continue now here fuel f f' w w' :
  exec now here (poll_once display f) w = (Some (Continue, f'), w') ->
  exec now here (poll display (S fuel) f) w = exec now here (poll display fuel f') w'.
Proof. intros Hp. cbn [poll]. rewrite exec_bind, Hp. done. Qed.

Lemma exec_poll_return now here fuel f r f' w w' :
  exec now here (poll_once display f) w = (Some (Return r, f'), w') ->
  exec now here (poll display (S fuel) f) w = (Some (Return r, f'), w').
Proof. intros Hp. cbn [poll]. rewrite exec_bind, Hp. done. Qed.

Lemma exec_go now here place a next otherwise f w r w' :
  client f = true -> serve now place a (packet f) w = (r, w') ->
  exec now here (go place a next otherwise f) w = (Some (Continue, set_mig_state (next r) f), w').
Proof.
  intros Hc Hs. unfold go, migration_step. rewrite exec_bind, Hc. cbn [exec]. by rewrite Hs.
Qed.

(** What a migration needs: [p] is its first packet, [src], [dst] and [auth] the
    services of the source, the destination and the authority, [e] and [ea] the
    entries of the first and the last. *)
Record movable (w : Services) p src dst auth e ea (r : ObjectTypeRegistration) (snap : Segments)
    (restored : ErasedState) : Prop := {
  mv_wf : packet_wf p;
  mv_apart : ObjectLocation_locality (packet_from p) <> locality (packet_destination p);
  mv_src : w !! ObjectLocation_locality (packet_from p) = Some src;
  mv_dst : w !! locality (packet_destination p) = Some dst;
  mv_auth : w !! packet_authority p = Some auth;
  mv_local : map_Forall (fun id s => local_id s = id) w;
  mv_types : map_Forall (fun _ s => types (registry s) !! packet_type p = Some r) w;
  mv_mobile : type_mobility r <> Pinned;
  mv_match : snapshot_matches p r = true;
  mv_entry : entries src !! packet_object p = Some e;
  mv_entry_type : entry_type e = packet_type p;
  mv_entry_authority : authority e = packet_authority p;
  mv_entry_location : location e = packet_from p;
  mv_resident : lifecycle e = Resident;
  mv_freeze : exists fz st st', freezer r = Some fz /\ state e = Some st /\ fz st = (Ok snap, st');
  mv_restore : exists rs, restorer r = Some rs /\ rs snap (packet_destination p) = Ok restored;
  mv_snapshot_src : exists bytes, validate_snapshot snap src = Ok bytes;
  mv_snapshot_dst : exists bytes, validate_snapshot snap dst = Ok bytes;
  mv_room : store_is_full (packet_object p) dst = false;
  mv_dst_entry : forall ed, entries dst !! packet_object p = Some ed ->
    entry_type ed = packet_type p /\ authority ed = packet_authority p /\ prepared ed = None;
  mv_permit : prepared_count dst < max_prepared_migrations (limits dst);
  mv_slot : 0 < next_slot dst < u64_max;
  mv_epoch : ObjectLocation_epoch (packet_from p) < u64_max;
  mv_auth_entry : entries auth !! packet_object p = Some ea;
  mv_auth_type : entry_type ea = packet_type p;
  mv_auth_epoch : ObjectLocation_epoch (location ea) = ObjectLocation_epoch (packet_from p);
  mv_forwarders : Z.of_nat (size (entries auth)) <= max_forwarders (limits auth);
}.

(** The outcome: the object is at its new place, and only there. *)
Definition moved (w : Services) p (to : ObjectLocation) (restored : ErasedState) : Prop :=
  (exists s e, w !! locality (packet_destination p) = Some s /\ entries s !! packet_object p = Some e /\
     lifecycle e = Resident /\ state e = Some restored /\ location e = to) /\
  (forall s e, w !! ObjectLocation_locality (packet_from p) = Some s -> entries s !! packet_object p = Some e ->
     state e = None /\ location e = to) /\
  (forall s e, w !! packet_authority p = Some s -> entries s !! packet_object p = Some e -> location e = to).

Lemma wp_run {A} (m : M ObjectService ActionError A) Q s :
  wp m Q (fun _ _ => False) s -> exists a s', m s = (Ok a, s') /\ Q a s'.
Proof. unfold wp. destruct (m s) as [[a|[x|]] s']; [|done..]. by exists a, s'. Qed.

Lemma sum_segments_valid snap s bytes : validate_snapshot snap s = Ok bytes -> sum_segments 0 snap = Some bytes.
Proof.
  unfold validate_snapshot. intros Hv. bind_inv Hv. bind_inv Hv. bind_inv Hv. injection Hv as <-.
  destruct (sum_segments 0 snap); [|done]. by injection E0 as <-.
Qed.

Lemma serve_step now place action p p' step Q s (w : Services) :
  w !! locality place = Some s -> step_of now action = Some step -> packet_wf p -> packet_wf p' ->
  wp (step p) (fun x s' => x = p' /\ Q s') (fun _ _ => False) s ->
  exists s', serve now place action p w = (Ok p', <[locality place := s']> w) /\ Q s'.
Proof.
  intros Hs Hstep Hp Hp' Hw. apply wp_run in Hw as (a & s' & Hrun & -> & HQ). exists s'.
  split; [|done]. by apply (serve_ok now place action p p' step s).
Qed.

(** The rest of a service, as the later steps need it. *)
Definition served (t : Z) (r : ObjectTypeRegistration) (id : LocalityId) s : Prop :=
  local_id s = id /\ types (registry s) !! t = Some r.

Lemma served_same t r id o s s' : same_but o s s' -> served t r id s -> served t r id s'.
Proof. intros (_ & Hl & Hr & _) [? ?]. unfold served. by rewrite Hl, Hr. Qed.

Definition with_packet p (x : MigrationState (Fut := result RuntimeError MigrationPacket)) (f : MigrationFuture) : MigrationFuture :=
  set_mig_state x (set_packet p f).

Section Moving.
Context (now : Z) (here : LocalityId) (l : ObjectLimits) (authority : ObjectLocation).
Context (w : Services) p (src dst auth : ObjectService) (e ea : ObjectEntry) (r : ObjectTypeRegistration)
  (snap : Segments) (restored : ErasedState).
Hypothesis Hmv : movable w p src dst auth e ea r snap restored.

Let o := packet_object p.
Let to := next_location p dst.
Let p1 := with_snapshot snap p.
Let p2 := with_from to (with_snapshot [] p1).
Let srcid := ObjectLocation_locality (packet_from p).
Let dstid := locality (packet_destination p).
Let t := packet_type p.

Lemma to_wf : location_wf to.
Proof.
  destruct Hmv. unfold packet_wf, location_wf, in_u in *. destruct_and!.
  assert (Hl : local_id dst = dstid) by (by apply (mv_local0 dstid)).
  unfold to, next_location. cbn. rewrite Hl. unfold u64_max in *. unfold dstid. lia.
Qed.

Lemma packets_wf : packet_wf p1 /\ packet_wf p2.
Proof.
  pose proof to_wf as Ht. destruct Hmv. unfold packet_wf, p1, p2 in *. cbn in *. tauto.
Qed.

Lemma after_freeze : exists s1 e1 bytes,
  serve now (place_of (packet_from p)) MIGRATION_FREEZE_ACTION_ID p w = (Ok p1, <[srcid := s1]> w) /\
  stepped o src s1 /\ entries s1 !! o = Some e1 /\ entry_type e1 = t /\ location e1 = packet_from p /\
  validate_snapshot snap src = Ok bytes.
Proof.
  destruct Hmv, mv_freeze0 as (fz & st & st' & Hfz & Hst & Hrun), mv_snapshot_src0 as [bytes Hb].
  pose proof (freeze_exact now p src e r fz st snap st' bytes mv_entry0 mv_entry_type0 mv_entry_location0
    mv_entry_authority0 (mv_types0 _ _ mv_src0) Hfz mv_match0 mv_resident0 Hst Hrun Hb) as Hw.
  destruct (serve_step now (place_of (packet_from p)) MIGRATION_FREEZE_ACTION_ID p p1 (freeze_migration now) _ src w
    mv_src0 eq_refl mv_wf0 (proj1 packets_wf) Hw) as (s1 & Hserve & Hs1 & He1).
  exists s1. eexists. exists bytes. split; [exact Hserve|]. split; [exact Hs1|]. split; [exact He1|]. by split_and!.
Qed.

Lemma after_prepare s1 : exists d1 ed1 x,
  serve now (packet_destination p1) MIGRATION_PREPARE_ACTION_ID p1 (<[srcid := s1]> w) =
    (Ok p2, <[dstid := d1]> (<[srcid := s1]> w)) /\
  same_but o dst d1 /\ (is_Some (entries dst !! o) -> size (entries d1) = size (entries dst)) /\
  entries d1 !! o = Some ed1 /\ entry_type ed1 = t /\ prepared ed1 = Some x /\
  prep_migration x = packet_migration p /\ prep_location x = to /\ prep_state x = restored /\
  (forall ed, entries dst !! o = Some ed -> location ed1 = location ed).
Proof.
  destruct Hmv, mv_restore0 as (rs & Hrs & Hrest), mv_snapshot_dst0 as [bytes Hb].
  assert (Hl : local_id dst = dstid) by (by apply (mv_local0 dstid)).
  assert (Hep : 0 < ObjectLocation_epoch (packet_from p)) by (unfold packet_wf, location_wf in *; lia).
  pose proof (prepare_exact now p1 dst r rs restored bytes (eq_sym Hl) (mv_types0 _ _ mv_dst0) mv_mobile0 mv_match0 Hrs
    Hrest Hb mv_permit0 mv_slot0 (conj Hep mv_epoch0) mv_room0 mv_dst_entry0) as Hw.
  assert (Hdst : <[srcid := s1]> w !! locality (packet_destination p1) = Some dst)
    by (rewrite lookup_insert_ne; [done|exact mv_apart0]).
  destruct (serve_step now (packet_destination p1) MIGRATION_PREPARE_ACTION_ID p1 p2 (prepare_migration now) _ dst
    (<[srcid := s1]> w) Hdst eq_refl (proj1 packets_wf) (proj2 packets_wf) Hw) as (d1 & Hserve & Hd1 & Hsz & Hed).
  exists d1. eexists. eexists. split; [exact Hserve|]. split; [exact Hd1|]. split; [exact Hsz|]. split; [exact Hed|].
  split_and!; try done.
  - destruct (entries dst !! packet_object p1) as [ed|] eqn:Hd; [|done]. by apply (mv_dst_entry0 ed).
  - intros ed Hed'. change (packet_object p1) with o. by rewrite Hed'.
Qed.

(** The authority's entry when the commit arrives, wherever the authority is. *)
Lemma before_commit s1 e1 d1 ed1 :
  stepped o src s1 -> entries s1 !! o = Some e1 -> entry_type e1 = t -> location e1 = packet_from p ->
  same_but o dst d1 -> (is_Some (entries dst !! o) -> size (entries d1) = size (entries dst)) ->
  entries d1 !! o = Some ed1 -> entry_type ed1 = t ->
  (forall ed, entries dst !! o = Some ed -> location ed1 = location ed) ->
  exists a2 ea2, <[dstid := d1]> (<[srcid := s1]> w) !! packet_authority p = Some a2 /\
    entries a2 !! o = Some ea2 /\ entry_type ea2 = t /\
    ObjectLocation_epoch (location ea2) + 1 = ObjectLocation_epoch to /\
    Z.of_nat (size (entries a2)) <= max_forwarders (limits a2) /\
    served t r (packet_authority p) a2 /\
    (packet_authority p = dstid -> a2 = d1 /\ ea2 = ed1) /\ (packet_authority p = srcid -> a2 = s1 /\ ea2 = e1).
Proof.
  intros [Hs1 Hn1] He1 Ht1 Hl1 Hd1 Hnd Hed1 Htd Hld. destruct Hmv.
  assert (Hserved : served t r (packet_authority p) auth) by (split; [by apply (mv_local0 _ _ mv_auth0)|by apply (mv_types0 _ _ mv_auth0)]).
  destruct (decide (packet_authority p = dstid)) as [Hd|Hnd'].
  { exists d1, ed1. rewrite Hd in *. rewrite lookup_insert_eq. unfold dstid in mv_auth0. rewrite mv_dst0 in mv_auth0.
    injection mv_auth0 as <-. split_and!; try done.
    - rewrite (Hld ea) by done. rewrite mv_auth_epoch0. done.
    - destruct Hd1 as (-> & _). rewrite Hnd by done. done.
    - by eapply served_same. }
  rewrite lookup_insert_ne by congruence. destruct (decide (packet_authority p = srcid)) as [Hs|Hns].
  { exists s1, e1. rewrite Hs in *. rewrite lookup_insert_eq. unfold srcid in mv_auth0. rewrite mv_src0 in mv_auth0.
    injection mv_auth0 as <-. split_and!; try done.
    - by rewrite Hl1.
    - destruct Hs1 as (-> & _). by rewrite Hn1.
    - by eapply served_same. }
  exists auth, ea. rewrite lookup_insert_ne by congruence. split_and!; try done. by rewrite mv_auth_epoch0.
Qed.

(** The five requests of the protocol in turn. *)
Lemma all_steps : exists bytes s1 d1 a2 d3 s4,
  let w1 := <[srcid := s1]> w in
  let w2 := <[dstid := d1]> w1 in
  let w3 := <[packet_authority p := a2]> w2 in
  let w4 := <[dstid := d3]> w3 in
  validate_snapshot snap src = Ok bytes /\
  serve now (place_of (packet_from p)) MIGRATION_FREEZE_ACTION_ID p w = (Ok p1, w1) /\
  serve now (packet_destination p1) MIGRATION_PREPARE_ACTION_ID p1 w1 = (Ok p2, w2) /\
  (forall x, ObjectLocation_locality x = packet_authority p ->
     serve now (place_of x) MIGRATION_COMMIT_ACTION_ID p2 w2 = (Ok p2, w3)) /\
  serve now (packet_destination p2) MIGRATION_ACTIVATE_ACTION_ID p2 w3 = (Ok p2, w4) /\
  serve now (place_of (packet_from p)) MIGRATION_RETIRE_ACTION_ID p2 w4 = (Ok p2, <[srcid := s4]> w4) /\
  moved (<[srcid := s4]> w4) p to restored.
Proof.
  destruct after_freeze as (s1 & e1 & bytes & Hfr & Hs1 & He1 & Ht1 & Hl1 & Hb).
  destruct (after_prepare s1) as (d1 & ed1 & x & Hpr & Hd1 & Hnd & Hed1 & Htd & Hx & Hxm & Hxl & Hxs & Hld).
  destruct (before_commit s1 e1 d1 ed1) as (a1 & ea1 & Ha1 & Hea1 & Hta & Hepa & Hfa & Hsa & Had & Has); try done.
  destruct (Hmv) as [? Happ ? ? ? ? ? ? ? ? ? ? ? ? ? ? ? ? ? ? ? ? ? ? ? ? ? ?].
  assert (Hds : dstid <> srcid) by (intros Heq; by apply Happ). pose proof packets_wf as [Hw1 Hw2].
  assert (Hcom : exists a2, (forall x, ObjectLocation_locality x = packet_authority p ->
      serve now (place_of x) MIGRATION_COMMIT_ACTION_ID p2 (<[dstid := d1]> (<[srcid := s1]> w)) =
        (Ok p2, <[packet_authority p := a2]> (<[dstid := d1]> (<[srcid := s1]> w)))) /\
      same_but o a1 a2 /\ exists life, entries a2 !! o = Some (set_lifecycle life (set_location to ea1))).
  { pose proof (commit_exact now p2 a1 ea1 (eq_sym (proj1 Hsa)) Hea1 Hta Hepa) as Hw.
    apply wp_run in Hw as (a & a2 & Hrun & -> & Hsb & Hent); [|cbn; lia|done].
    exists a2. split; [|split; [exact Hsb|eexists; exact Hent]]. intros y Hy.
    assert (Hy' : locality (place_of y) = packet_authority p) by done. rewrite <- Hy'.
    apply (serve_ok now (place_of y) MIGRATION_COMMIT_ACTION_ID p2 p2 (commit_migration now) a1); try done.
    by rewrite Hy'. }
  destruct Hcom as (a2 & Hcom & Hsb2 & life & Hea2).
  set (w1 := <[srcid := s1]> w) in *. set (w2 := <[dstid := d1]> w1) in *. set (w3 := <[packet_authority p := a2]> w2).
  assert (Hdst : exists d2 ed2, w3 !! dstid = Some d2 /\ entries d2 !! o = Some ed2 /\ entry_type ed2 = t /\
    prepared ed2 = Some x).
  { destruct (decide (packet_authority p = dstid)) as [Hd|Hne].
    - destruct (Had Hd) as [_ ->]. exists a2. eexists. unfold w3. rewrite Hd, lookup_insert_eq. by split_and!.
    - exists d1, ed1. unfold w3, w2. rewrite lookup_insert_ne, lookup_insert_eq by done. by split_and!. }
  destruct Hdst as (d2 & ed2 & Hd2 & Hed2 & Htd2 & Hx2).
  destruct (serve_step now (packet_destination p2) MIGRATION_ACTIVATE_ACTION_ID p2 p2 activate_migration _ d2 w3
    Hd2 eq_refl Hw2 Hw2 (activate_exact p2 d2 ed2 x Hed2 Htd2 Hx2 Hxm Hxl))
    as (d3 & Hact & Hsb3 & ed3 & Hed3 & Htd3 & _ & Hlife3 & Hloc3 & Hst3).
  set (w4 := <[dstid := d3]> w3).
  assert (Hsrc : exists s3 e3, w4 !! srcid = Some s3 /\ entries s3 !! o = Some e3 /\ entry_type e3 = t /\
    ObjectLocation_epoch (location e3) <= ObjectLocation_epoch to /\ is_Some (types (registry s3) !! t)).
  { unfold w4. rewrite lookup_insert_ne by congruence.
    destruct (decide (packet_authority p = srcid)) as [Hs|Hne].
    - destruct (Has Hs) as [-> ->]. exists a2. eexists. unfold w3. rewrite Hs, lookup_insert_eq.
      split_and!; try done. apply (served_same _ _ _ _ _ _ Hsb2) in Hsa as [_ ->]. by eexists.
    - exists s1, e1. unfold w3, w2, w1. rewrite lookup_insert_ne by done. rewrite lookup_insert_ne by done. rewrite lookup_insert_eq.
      split_and!; try done; [rewrite Hl1; unfold to; cbn; lia|]. destruct Hs1 as [(_ & _ & -> & _) _].
      eexists. by apply (mv_types _ _ _ _ _ _ _ _ _ _ Hmv srcid). }
  destruct Hsrc as (s3 & e3 & Hs3 & He3 & Ht3 & Hep3 & Hty3).
  destruct (serve_step now (place_of (packet_from p)) MIGRATION_RETIRE_ACTION_ID p2 p2 (retire_migration now) _ s3 w4
    Hs3 eq_refl Hw2 Hw2 (retire_exact now p2 s3 e3 He3 Ht3 Hty3 Hep3)) as (s4 & Hret & Hsb4 & Hgone).
  exists bytes, s1, d1, a2, d3, s4. cbv zeta. fold w1 w2 w3 w4.
  split_and!; try done. split; [|split].
  - exists d3, ed3. fold dstid. rewrite lookup_insert_ne by done. unfold w4. rewrite lookup_insert_eq.
    split_and!; try done. by rewrite Hst3, Hxs.
  - intros s e' Hs He'. rewrite lookup_insert_eq in Hs. injection Hs as <-. by apply Hgone.
  - intros s e' Hs He'. destruct (decide (packet_authority p = srcid)) as [Heq|Hne].
    + rewrite Heq, lookup_insert_eq in Hs. injection Hs as <-. by apply Hgone.
    + rewrite lookup_insert_ne in Hs by done. destruct (decide (packet_authority p = dstid)) as [Heq|Hne2].
      * unfold w4 in Hs. rewrite Heq, lookup_insert_eq in Hs. injection Hs as <-.
        unfold o in Hed3. change (packet_object p2) with (packet_object p) in Hed3. rewrite Hed3 in He'. by injection He' as <-.
      * unfold w4 in Hs. rewrite lookup_insert_ne in Hs by done. unfold w3 in Hs. rewrite lookup_insert_eq in Hs.
        injection Hs as <-. unfold o in Hea2. rewrite Hea2 in He'. by injection He' as <-.
Qed.
End Moving.

(** Calls at [here] that leave the entries alone. *)
Lemma on_service_entries {A} id here (m : M ObjectService unit A) (w : Services) s :
  (forall s, entries (m s).2 = entries s) -> on_service here m w !! id = Some s ->
  exists s', w !! id = Some s' /\ entries s = entries s'.
Proof.
  intros Hm. unfold on_service. destruct (decide (id = here)) as [->|Hne].
  - rewrite lookup_alter_eq. destruct (w !! here) as [s'|]; [|done]. intros [= <-]. exists s'. by rewrite Hm.
  - rewrite lookup_alter_ne by done. by exists s.
Qed.

Lemma on_service_some {A} id here (m : M ObjectService unit A) (w : Services) s :
  (forall s, entries (m s).2 = entries s) -> w !! id = Some s ->
  exists s', on_service here m w !! id = Some s' /\ entries s' = entries s.
Proof.
  intros Hm Hs. unfold on_service. destruct (decide (id = here)) as [->|Hne].
  - rewrite lookup_alter_eq, Hs. cbn. eexists. split; [done|]. apply Hm.
  - rewrite lookup_alter_ne by done. by exists s.
Qed.

Lemma moved_on_service {A} here (m : M ObjectService unit A) (w : Services) p to restored :
  (forall s, entries (m s).2 = entries s) -> moved w p to restored -> moved (on_service here m w) p to restored.
Proof.
  intros Hm ((s & e & Hs & He & Hrest) & Hsrc & Hau). split; [|split].
  - destruct (on_service_some _ here m w s Hm Hs) as (s' & Hs' & Heq). exists s', e. by rewrite Heq.
  - intros s' e' (s2 & Hs2 & Heq)%on_service_entries He'; [|done]. rewrite Heq in He'. by apply (Hsrc s2).
  - intros s' e' (s2 & Hs2 & Heq)%on_service_entries He'; [|done]. rewrite Heq in He'. by apply (Hau s2).
Qed.

Lemma cache_entries o x s : entries (cache_location (E := unit) o x s).2 = entries s.
Proof. unfold cache_location, modify. cbn. by repeat case_match. Qed.
Lemma finish_entries m out b s : entries (finish_migration (E := unit) m out b s).2 = entries s.
Proof. by destruct out. Qed.

Lemma cached_resolves o x s m out b :
  resolve o (finish_migration (E := unit) m out b (cache_location (E := unit) o x s).2).2 = Some x.
Proof.
  assert (Hr : forall s', (resolver (finish_migration (E := unit) m out b s').2).1 = (resolver s').1) by (by destruct out).
  assert (Hc : (resolver (cache_location (E := unit) o x s).2).1 !! o = Some x).
  { unfold cache_location, modify. destruct (resolver s) as [known q]. destruct (bool_decide _); [|destruct (_ <=? _); [destruct q|]];
      apply lookup_insert_eq. }
  unfold resolve. by rewrite Hr, Hc.
Qed.

(** One iteration of the poll for each answer. *)
Lemma exec_freeze now here f q bytes w r w' :
  mig_state f = Freeze (Ok q) -> client f = true -> sum_segments 0 (packet_snapshot q) = Some bytes ->
  serve now (packet_destination q) MIGRATION_PREPARE_ACTION_ID q w = (r, w') ->
  exec now here (poll_once display f) w =
    (Some (Continue, set_mig_state (Prepare r) (set_packet q (set_mig_bytes bytes f))), w').
Proof.
  intros Hst Hc Hb Hs. unfold poll_once. rewrite Hst. cbn [exec poll_freeze]. rewrite Hb. cbv zeta. by apply exec_go.
Qed.

Lemma exec_prepare now here f q w r w' :
  mig_state f = Prepare (Ok q) -> client f = true ->
  serve now (place_of (mig_authority f)) MIGRATION_COMMIT_ACTION_ID q w = (r, w') ->
  exec now here (poll_once display f) w =
    (Some (Continue, set_mig_state (Commit r) (set_packet q (set_mig_prepared (Some (packet_from q)) f))), w').
Proof. intros Hst Hc Hs. unfold poll_once. rewrite Hst. cbn [exec]. by apply exec_go. Qed.

Lemma exec_commit now here f q w r w' :
  mig_state f = Commit (Ok q) -> client f = true ->
  serve now (packet_destination q) MIGRATION_ACTIVATE_ACTION_ID q w = (r, w') ->
  exec now here (poll_once display f) w =
    (Some (Continue, set_mig_state (Activate r) (set_packet q (set_committed true f))), w').
Proof. intros Hst Hc Hs. unfold poll_once. rewrite Hst. cbn [exec]. cbv zeta. by apply exec_go. Qed.

Lemma exec_activate now here f q w r w' :
  mig_state f = Activate (Ok q) -> client f = true ->
  ObjectLocation_locality (original f) <> ObjectLocation_locality (packet_from q) ->
  serve now (place_of (original f)) MIGRATION_RETIRE_ACTION_ID q w = (r, w') ->
  exec now here (poll_once display f) w =
    (Some (Continue, set_mig_state (Retire r) (set_packet q f)), w').
Proof.
  intros Hst Hc Hne Hs. unfold poll_once. rewrite Hst. cbn [exec]. cbv zeta.
  rewrite (proj2 (Z.eqb_neq _ _)) by done. by apply exec_go.
Qed.

Lemma exec_retire now here f q to limits w :
  mig_state f = Retire (Ok q) -> mig_prepared f = Some to -> service f = Some limits ->
  exists f', exec now here (poll_once display f) w =
    (Some (Return (Ok (mkMigrationReport (packet_object (packet f)) (original f) to (mig_bytes f))), f'),
     on_service here (finish_migration (packet_migration (packet f)) Completed (mig_bytes f))
       (on_service here (cache_location (packet_object (packet f)) to) w)).
Proof.
  intros Hst Hp Hs. unfold poll_once. rewrite Hst. cbn [exec]. unfold report, limits_unwrap. rewrite Hp, Hs.
  cbn [exec]. rewrite exec_bind. unfold finish_future. rewrite Hs. cbn [exec]. by eexists.
Qed.

(** What the caller is told. *)
Definition migration_report p dst (bytes : Z) : MigrationReport :=
  mkMigrationReport (packet_object p) (packet_from p) (next_location p dst) bytes.

(** C23: a migration that meets no obstacle moves the object.  Driven to its end
    over the services of the run, the future returns the report; the destination
    holds the object, resident, with the state restored from the snapshot of its
    frozen state, at a new slot of the destination and under the next epoch; the
    source holds no state any more and forwards to the new place, as does the
    authority, wherever it is; and the caller resolves the object to that place. *)
Theorem migration_moves_object now here l authority (w : Services) p src dst auth e ea r snap restored :
  movable w p src dst auth e ea r snap restored ->
  ObjectLocation_locality authority = packet_authority p -> is_Some (w !! here) ->
  exists bytes w' f', validate_snapshot snap src = Ok bytes /\
    migrate_run now here l p authority w = (Some (Return (Ok (migration_report p dst bytes)), f'), w') /\
    moved w' p (next_location p dst) restored /\
    exists s, w' !! here = Some s /\ resolve (packet_object p) s = Some (next_location p dst).
Proof.
  intros Hmv Hau Hhere.
  destruct (all_steps now w p src dst auth e ea r snap restored Hmv)
    as (bytes & s1 & d1 & a2 & d3 & s4 & Hb & Hfr & Hpr & Hcom & Hact & Hret & Hmoved).
  set (w4 := <[locality (packet_destination p) := d3]> _) in *.
  set (w5 := <[ObjectLocation_locality (packet_from p) := s4]> w4) in *.
  set (w' := on_service here (finish_migration (packet_migration p) Completed bytes)
    (on_service here (cache_location (packet_object p) (next_location p dst)) w5)).
  set (q1 := with_snapshot snap p) in *. set (q2 := with_from (next_location p dst) (with_snapshot [] q1)) in *.
  set (r1 := Ok q1 : result RuntimeError MigrationPacket). set (r2 := Ok q2 : result RuntimeError MigrationPacket).
  set (f0 := MigrationFuture_new l p authority r1).
  set (f1 := set_mig_state (Prepare r2) (set_packet q1 (set_mig_bytes bytes f0))).
  set (f2 := set_mig_state (Commit r2) (set_packet q2 (set_mig_prepared (Some (packet_from q2)) f1))).
  set (f3 := set_mig_state (Activate r2) (set_packet q2 (set_committed true f2))).
  set (f4 := set_mig_state (Retire r2) (set_packet q2 f3)).
  destruct (exec_retire now here f4 q2 (next_location p dst) l w5 eq_refl eq_refl eq_refl) as [f5 Hlast].
  exists bytes, w', f5. split; [done|]. split; [|split].
  - unfold migrate_run. rewrite Hfr.
    replace (enough l) with (S (S (S (S (S (Z.to_nat (max_redirects l) + 3))))))%nat by (unfold enough; lia).
    rewrite (exec_poll_continue _ _ _ f0 f1 _ _ (exec_freeze now here f0 q1 bytes _ _ _ eq_refl eq_refl
      (sum_segments_valid _ _ _ Hb) Hpr)).
    rewrite (exec_poll_continue _ _ _ f1 f2 _ _ (exec_prepare now here f1 q2 _ _ _ eq_refl eq_refl (Hcom _ Hau))).
    rewrite (exec_poll_continue _ _ _ f2 f3 _ _ (exec_commit now here f2 q2 _ _ _ eq_refl eq_refl Hact)).
    assert (Hne : ObjectLocation_locality (original f3) <> ObjectLocation_locality (packet_from q2)).
    { destruct Hmv. cbn. by rewrite (mv_local0 _ _ mv_dst0). }
    rewrite (exec_poll_continue _ _ _ f3 f4 _ _ (exec_activate now here f3 q2 _ _ _ eq_refl eq_refl Hne Hret)).
    by apply exec_poll_return.
  - apply moved_on_service; [apply finish_entries|]. apply moved_on_service; [apply cache_entries|done].
  - destruct (w5 !! here) as [s|] eqn:Hs.
    2: { exfalso. revert Hs. unfold w5, w4. destruct Hhere as [s Hs]. rewrite !lookup_insert_None. intros. destruct_and!. congruence. }
    eexists. unfold w', on_service. rewrite !lookup_alter_eq, Hs. split; [reflexivity|]. apply cached_resolves.
Qed.
End Runs.

(** ** Example *)

(** The counter moves from locality 0, its authority, to locality 1. *)
Definition ex_type : ObjectTypeRegistration :=
  mkObjectTypeRegistration 2 ReadWrite Migratable 1 2 (decode_state ex_counter ReadWrite)
    (wrap_state ex_counter ReadWrite) (Some (freeze_state ex_mobile ReadWrite)) (Some (restore_state ex_mobile ReadWrite)).
Definition ex_packet : MigrationPacket :=
  mkMigrationPacket (mkRequestId 0 1) ex_object 7 0 (mkObjectLocation 0 1 1 1 1) (Place_new 1 1) 1 2 [].
Definition ex_services : gmap LocalityId ObjectService :=
  {[0 := svc (ex_created true); 1 := ex_service 1]}.

Lemma ex_services_forall (P : LocalityId -> ObjectService -> Prop) :
  P 0 (svc (ex_created true)) -> P 1 (ex_service 1) -> map_Forall P ex_services.
Proof.
  intros H0 H1. apply map_Forall_insert_2; [done|]. apply map_Forall_singleton. exact H1.
Qed.

Lemma ex_movable :
  movable ex_services ex_packet (svc (ex_created true)) (ex_service 1) (svc (ex_created true))
    (ex_entry true) (ex_entry true) ex_type [to_le_bytes 8 3] (ex_state 3).
Proof.
  split; try apply ex_created_entry;
    try lazymatch goal with
      | |- map_Forall _ _ => apply ex_services_forall; reflexivity
      | |- _ = _ => reflexivity
      end.
  - vm_compute. by split_and!.
  - discriminate.
  - discriminate.
  - do 3 eexists. split; [reflexivity|]. split; reflexivity.
  - eexists. split; reflexivity.
  - eexists. reflexivity.
  - eexists. reflexivity.
  - discriminate.
  - reflexivity.
  - by split.
  - reflexivity.
  - vm_compute. discriminate.
Qed.

Lemma migration_moves_object_witness :
  exists w' f', migrate_run (fun _ => []) 0 0 ObjectLimits_default ex_packet (mkObjectLocation 0 1 1 1 1) ex_services =
    (Some (Return (Ok (mkMigrationReport ex_object (mkObjectLocation 0 1 1 1 1) (mkObjectLocation 1 1 1 1 2) 8)), f'), w') /\
    moved w' ex_packet (mkObjectLocation 1 1 1 1 2) (ex_state 3).
Proof.
  destruct (migration_moves_object (fun _ => []) 0 0 ObjectLimits_default (mkObjectLocation 0 1 1 1 1) ex_services
    ex_packet (svc (ex_created true)) (ex_service 1) (svc (ex_created true)) (ex_entry true) (ex_entry true) ex_type
    [to_le_bytes 8 3] (ex_state 3) ex_movable eq_refl (mk_is_Some _ _ (mv_src _ _ _ _ _ _ _ _ _ _ ex_movable))) as (bytes & w' & f' & Hb & Hrun & Hm & _).
  exists w', f'. split; [|exact Hm].
  assert (Hbytes : validate_snapshot [to_le_bytes 8 3] (svc (ex_created true)) = Ok 8) by reflexivity.
  rewrite Hbytes in Hb. injection Hb as <-. exact Hrun.
Defined.
