(* ===== verification/RuntimeState.v ===== *)
(** * RuntimeState: the state of the runtime of a locality

    The data of [Shared] and [Runtime] of [crates/hataori-runtime/src/runtime.rs],
    with [LocalLease] and the table of [LocalLeaseManager] of [object.rs].  The
    runtime composes the table of pending calls, the table of requests, the
    execution domains and the object service over a transport, which it sees
    through the traits [TransportHandle] and [TransportDriver].  Methods are
    computations on the whole state; those of a component run on its part of it.

    The cancellation flag of a call is one [Arc<AtomicBool>] that a table and a
    job hold.  The flags that [Dedup] and the client allocate have addresses
    of their own in one store, that of [Domain]. *)
From Stdlib Require Import Strings.Byte.
From S2P Require Import Prelude Text Protocol Transport Error RuntimeTypes RuntimeWire Dedup Action Pending Domain ObjectWire ObjectRegistry Objects.

(** ** The transport, as the runtime sees it *)

Class TransportDriver (Net : Type) := {
  try_send : Parcel -> M Net TransportError SendTicket;
  poll_events : Z -> M Net TransportError (list TransportEvent * Progress);
  close_transport : Z -> M Net TransportError (list TransportEvent);
  transport_stats : Net -> TransportStats;
}.

Section State.
Context `{AnyTypes}.

(** ** Data *)

(** [SharedCounters]; the arrays are indexed by channel. *)
Record SharedCounters : Type := mkSharedCounters {
  count_completed : Z; count_cancelled : Z; count_timed_out : Z; count_late_results : Z;
  count_duplicate_requests : Z; count_action_failures : Z;
  count_local_typed_dispatches : Z; count_local_action_serializations : Z;
  count_sent : list Z; count_received : list Z;
}.
Definition SharedCounters_default : SharedCounters := mkSharedCounters 0 0 0 0 0 0 0 0 [0; 0; 0] [0; 0; 0].

Inductive TicketPurpose : Type := For_Request (r : RequestId) | RequiredResponse | BestEffort.

Record LocalRequest : Type := mkLocalRequest {
  local_message : RuntimeMessage; local_input : ActionValue; local_cancel : Z; local_trace : option TraceId;
}.

Record QueuedResponse : Type := mkQueuedResponse {
  resp_destination : LocalityId; resp_message : RuntimeMessage; resp_trace : option TraceId;
  resp_cache : bool; resp_bytes : Z;
}.

(** [LocalLease], with the number of its strong references. *)
Record LocalLease : Type := mkLocalLease {
  lease_object : ObjectId; lease_type : Z; lease_location : ObjectLocation;
  lease_active : bool; next_renewal : Z; strong : nat;
}.

(** The fields of [Shared] that never change, and [usize]s of [ObjectLimits]. *)
Record Config : Type := mkConfig {
  conf_local : LocalityId; conf_run : RunId; conf_limits : RuntimeLimits; conf_protocol : ProtocolLimits;
  conf_registry : ActionRegistry; conf_lease_limit : Z; conf_lease_interval : Z;
}.

Definition state_code (s : RuntimeState) : Z :=
  match s with
  | Created => 0 | Bootstrapping => 1 | Running => 2 | Draining => 3 | Stopped => 4 | Error.Failed => 5
  end.
Definition decode_state (value : Z) : RuntimeState :=
  if value =? state_code Created then Created
  else if value =? state_code Bootstrapping then Bootstrapping
  else if value =? state_code Running then Running
  else if value =? state_code Draining then Draining
  else if value =? state_code Stopped then Stopped
  else Error.Failed.

Context {Net : Type}.

Record Runtime : Type := mkRuntime {
  state_cell : Z;
  request_seq : Z; object_seq : Z; message_seq : Z;
  tickets : gmap SendTicket TicketPurpose;
  local_object_calls : Z;
  counts : SharedCounters;
  pending : Pending.State;
  local_queue : list LocalRequest;
  net : Net;
  pools : DomainRegistry;
  dedup : DedupTable;
  responses : list QueuedResponse;
  response_bytes : Z;
  objects : ObjectService;
  lease_store : gmap Z LocalLease;
  lease_table : gmap ObjectId Z;
  lease_seq : Z;
  flag_seq : Z;
  clock : nat;
}.

Definition set_state_cell (v : Z) (s : Runtime) : Runtime :=
  mkRuntime v (request_seq s) (object_seq s) (message_seq s) (tickets s) (local_object_calls s) (counts s)
    (pending s) (local_queue s) (net s) (pools s) (dedup s) (responses s) (response_bytes s) (objects s)
    (lease_store s) (lease_table s) (lease_seq s) (flag_seq s) (clock s).
Definition set_request_seq (v : Z) (s : Runtime) : Runtime :=
  mkRuntime (state_cell s) v (object_seq s) (message_seq s) (tickets s) (local_object_calls s) (counts s)
    (pending s) (local_queue s) (net s) (pools s) (dedup s) (responses s) (response_bytes s) (objects s)
    (lease_store s) (lease_table s) (lease_seq s) (flag_seq s) (clock s).
Definition set_object_seq (v : Z) (s : Runtime) : Runtime :=
  mkRuntime (state_cell s) (request_seq s) v (message_seq s) (tickets s) (local_object_calls s) (counts s)
    (pending s) (local_queue s) (net s) (pools s) (dedup s) (responses s) (response_bytes s) (objects s)
    (lease_store s) (lease_table s) (lease_seq s) (flag_seq s) (clock s).
Definition set_message_seq (v : Z) (s : Runtime) : Runtime :=
  mkRuntime (state_cell s) (request_seq s) (object_seq s) v (tickets s) (local_object_calls s) (counts s)
    (pending s) (local_queue s) (net s) (pools s) (dedup s) (responses s) (response_bytes s) (objects s)
    (lease_store s) (lease_table s) (lease_seq s) (flag_seq s) (clock s).
Definition set_tickets (v : gmap SendTicket TicketPurpose) (s : Runtime) : Runtime :=
  mkRuntime (state_cell s) (request_seq s) (object_seq s) (message_seq s) v (local_object_calls s) (counts
    s) (pending s) (local_queue s) (net s) (pools s) (dedup s) (responses s) (response_bytes s) (objects s)
    (lease_store s) (lease_table s) (lease_seq s) (flag_seq s) (clock s).
Definition set_local_object_calls (v : Z) (s : Runtime) : Runtime :=
  mkRuntime (state_cell s) (request_seq s) (object_seq s) (message_seq s) (tickets s) v (counts s) (pending
    s) (local_queue s) (net s) (pools s) (dedup s) (responses s) (response_bytes s) (objects s) (lease_store
    s) (lease_table s) (lease_seq s) (flag_seq s) (clock s).
Definition set_counts (v : SharedCounters) (s : Runtime) : Runtime :=
  mkRuntime (state_cell s) (request_seq s) (object_seq s) (message_seq s) (tickets s) (local_object_calls s)
    v (pending s) (local_queue s) (net s) (pools s) (dedup s) (responses s) (response_bytes s) (objects s)
    (lease_store s) (lease_table s) (lease_seq s) (flag_seq s) (clock s).
Definition set_pending (v : Pending.State) (s : Runtime) : Runtime :=
  mkRuntime (state_cell s) (request_seq s) (object_seq s) (message_seq s) (tickets s) (local_object_calls s)
    (counts s) v (local_queue s) (net s) (pools s) (dedup s) (responses s) (response_bytes s) (objects s)
    (lease_store s) (lease_table s) (lease_seq s) (flag_seq s) (clock s).
Definition set_local_queue (v : list LocalRequest) (s : Runtime) : Runtime :=
  mkRuntime (state_cell s) (request_seq s) (object_seq s) (message_seq s) (tickets s) (local_object_calls s)
    (counts s) (pending s) v (net s) (pools s) (dedup s) (responses s) (response_bytes s) (objects s)
    (lease_store s) (lease_table s) (lease_seq s) (flag_seq s) (clock s).
Definition set_net (v : Net) (s : Runtime) : Runtime :=
  mkRuntime (state_cell s) (request_seq s) (object_seq s) (message_seq s) (tickets s) (local_object_calls s)
    (counts s) (pending s) (local_queue s) v (pools s) (dedup s) (responses s) (response_bytes s) (objects
    s) (lease_store s) (lease_table s) (lease_seq s) (flag_seq s) (clock s).
Definition set_pools (v : DomainRegistry) (s : Runtime) : Runtime :=
  mkRuntime (state_cell s) (request_seq s) (object_seq s) (message_seq s) (tickets s) (local_object_calls s)
    (counts s) (pending s) (local_queue s) (net s) v (dedup s) (responses s) (response_bytes s) (objects s)
    (lease_store s) (lease_table s) (lease_seq s) (flag_seq s) (clock s).
Definition set_dedup (v : DedupTable) (s : Runtime) : Runtime :=
  mkRuntime (state_cell s) (request_seq s) (object_seq s) (message_seq s) (tickets s) (local_object_calls s)
    (counts s) (pending s) (local_queue s) (net s) (pools s) v (responses s) (response_bytes s) (objects s)
    (lease_store s) (lease_table s) (lease_seq s) (flag_seq s) (clock s).
Definition set_responses (v : list QueuedResponse) (s : Runtime) : Runtime :=
  mkRuntime (state_cell s) (request_seq s) (object_seq s) (message_seq s) (tickets s) (local_object_calls s)
    (counts s) (pending s) (local_queue s) (net s) (pools s) (dedup s) v (response_bytes s) (objects s)
    (lease_store s) (lease_table s) (lease_seq s) (flag_seq s) (clock s).
Definition set_response_bytes (v : Z) (s : Runtime) : Runtime :=
  mkRuntime (state_cell s) (request_seq s) (object_seq s) (message_seq s) (tickets s) (local_object_calls s)
    (counts s) (pending s) (local_queue s) (net s) (pools s) (dedup s) (responses s) v (objects s)
    (lease_store s) (lease_table s) (lease_seq s) (flag_seq s) (clock s).
Definition set_objects (v : ObjectService) (s : Runtime) : Runtime :=
  mkRuntime (state_cell s) (request_seq s) (object_seq s) (message_seq s) (tickets s) (local_object_calls s)
    (counts s) (pending s) (local_queue s) (net s) (pools s) (dedup s) (responses s) (response_bytes s) v
    (lease_store s) (lease_table s) (lease_seq s) (flag_seq s) (clock s).
Definition set_lease_store (v : gmap Z LocalLease) (s : Runtime) : Runtime :=
  mkRuntime (state_cell s) (request_seq s) (object_seq s) (message_seq s) (tickets s) (local_object_calls s)
    (counts s) (pending s) (local_queue s) (net s) (pools s) (dedup s) (responses s) (response_bytes s)
    (objects s) v (lease_table s) (lease_seq s) (flag_seq s) (clock s).
Definition set_lease_table (v : gmap ObjectId Z) (s : Runtime) : Runtime :=
  mkRuntime (state_cell s) (request_seq s) (object_seq s) (message_seq s) (tickets s) (local_object_calls s)
    (counts s) (pending s) (local_queue s) (net s) (pools s) (dedup s) (responses s) (response_bytes s)
    (objects s) (lease_store s) v (lease_seq s) (flag_seq s) (clock s).
Definition set_lease_seq (v : Z) (s : Runtime) : Runtime :=
  mkRuntime (state_cell s) (request_seq s) (object_seq s) (message_seq s) (tickets s) (local_object_calls s)
    (counts s) (pending s) (local_queue s) (net s) (pools s) (dedup s) (responses s) (response_bytes s)
    (objects s) (lease_store s) (lease_table s) v (flag_seq s) (clock s).
Definition set_flag_seq (v : Z) (s : Runtime) : Runtime :=
  mkRuntime (state_cell s) (request_seq s) (object_seq s) (message_seq s) (tickets s) (local_object_calls s)
    (counts s) (pending s) (local_queue s) (net s) (pools s) (dedup s) (responses s) (response_bytes s)
    (objects s) (lease_store s) (lease_table s) (lease_seq s) v (clock s).
Definition set_clock (v : nat) (s : Runtime) : Runtime :=
  mkRuntime (state_cell s) (request_seq s) (object_seq s) (message_seq s) (tickets s) (local_object_calls s)
    (counts s) (pending s) (local_queue s) (net s) (pools s) (dedup s) (responses s) (response_bytes s)
    (objects s) (lease_store s) (lease_table s) (lease_seq s) (flag_seq s) v.

Abbreviation DM := (M Runtime RuntimeError).

(** ** Methods of the components *)

Section On.
Context {S E A : Type} (get : Runtime -> S) (put : S -> Runtime -> Runtime) (to_error : E -> RuntimeError).
(** A method of the part [get] reads and [put] writes. *)
Definition on_part (m : M S E A) : DM A := fun s =>
  match m (get s) with
  | (Ok a, p) => (Ok a, put p s)
  | (Err (Raise e), p) => (Err (Raise (to_error e)), put p s)
  | (Err Panic, p) => (Err Panic, put p s)
  end.
End On.

Definition on_pending {A} (m : M Pending.State RuntimeError A) : DM A := on_part pending set_pending id m.
Definition on_pools {A} (m : M DomainRegistry RuntimeError A) : DM A := on_part pools set_pools id m.
Definition on_objects {A} (m : M ObjectService RuntimeError A) : DM A := on_part objects set_objects id m.
(** [?] with [From<TransportError>]. *)
Definition on_net {A} (m : M Net TransportError A) : DM A := on_part net set_net RuntimeError_Transport m.

(** The address of a flag of the table of requests, and of one of the client's. *)
Definition table_flag (t : Z) : Z := 2 * t.
Definition client_flag (n : Z) : Z := 2 * n + 1.

Definition raise_flags (l : gset Z) (s : Runtime) : Runtime :=
  set_pools (mkDomainRegistry (domains (pools s)) (completions (pools s)) (completion_capacity (pools s))
               (tasks (pools s)) (l ∪ flags (pools s))) s.
(** [token.store(true)]. *)
Definition raise_flag (t : Z) : DM unit := modify (raise_flags {[t]}).

(** The flags of the table that are up. *)
Definition table_flags (d : DedupTable) : gset Z :=
  set_map table_flag (dom (filter (fun p => p.2 = true) (Dedup.tokens d))).

Definition on_dedup {A} (m : M DedupTable RuntimeError A) : DM A := fun s =>
  let '(r, s') := on_part dedup set_dedup id m s in
  (r, raise_flags (table_flags (dedup s')) s').

(** [match m { Ok(a) => .., Err(e) => .. }]. *)
Definition outcome {A} (m : DM A) : DM (result RuntimeError A) := fun s =>
  match m s with
  | (Ok a, s') => (Ok (Ok a), s')
  | (Err (Raise e), s') => (Ok (Err e), s')
  | (Err Panic, s') => (Err Panic, s')
  end.

(** [let _ = m]. *)
Definition ignore {A} (m : DM A) : DM unit := outcome m;; mret tt.

(** [if let Err(e) = m { h(e); return Err(e) }]. *)
Definition or_else {A} (m : DM A) (h : RuntimeError -> DM unit) : DM A :=
  r ← outcome m;
  match r with Ok a => mret a | Err e => h e;; raise e end.

(** [AtomicU64::fetch_add(1)] on a counter. *)
Definition bump (n : Z) : Z := wrapping_add 64 n 1.
Definition bump_at (i : nat) (l : list Z) : list Z := alter bump i l.

Definition count (f : SharedCounters -> SharedCounters) : DM unit :=
  modify (fun s => set_counts (f (counts s)) s).
Definition add_completed (c : SharedCounters) : SharedCounters :=
  mkSharedCounters (bump (count_completed c)) (count_cancelled c) (count_timed_out c) (count_late_results c)
    (count_duplicate_requests c) (count_action_failures c) (count_local_typed_dispatches c)
    (count_local_action_serializations c) (count_sent c) (count_received c).
Definition add_cancelled (c : SharedCounters) : SharedCounters :=
  mkSharedCounters (count_completed c) (bump (count_cancelled c)) (count_timed_out c) (count_late_results c)
    (count_duplicate_requests c) (count_action_failures c) (count_local_typed_dispatches c)
    (count_local_action_serializations c) (count_sent c) (count_received c).
Definition add_timed_out (c : SharedCounters) : SharedCounters :=
  mkSharedCounters (count_completed c) (count_cancelled c) (bump (count_timed_out c)) (count_late_results c)
    (count_duplicate_requests c) (count_action_failures c) (count_local_typed_dispatches c)
    (count_local_action_serializations c) (count_sent c) (count_received c).
Definition add_late_result (c : SharedCounters) : SharedCounters :=
  mkSharedCounters (count_completed c) (count_cancelled c) (count_timed_out c) (bump (count_late_results c))
    (count_duplicate_requests c) (count_action_failures c) (count_local_typed_dispatches c)
    (count_local_action_serializations c) (count_sent c) (count_received c).
Definition add_duplicate (c : SharedCounters) : SharedCounters :=
  mkSharedCounters (count_completed c) (count_cancelled c) (count_timed_out c) (count_late_results c)
    (bump (count_duplicate_requests c)) (count_action_failures c) (count_local_typed_dispatches c)
    (count_local_action_serializations c) (count_sent c) (count_received c).
Definition add_action_failure (c : SharedCounters) : SharedCounters :=
  mkSharedCounters (count_completed c) (count_cancelled c) (count_timed_out c) (count_late_results c)
    (count_duplicate_requests c) (bump (count_action_failures c)) (count_local_typed_dispatches c)
    (count_local_action_serializations c) (count_sent c) (count_received c).
Definition add_local_dispatch (typed : bool) (c : SharedCounters) : SharedCounters :=
  mkSharedCounters (count_completed c) (count_cancelled c) (count_timed_out c) (count_late_results c)
    (count_duplicate_requests c) (count_action_failures c)
    (if typed then bump (count_local_typed_dispatches c) else count_local_typed_dispatches c)
    (if typed then count_local_action_serializations c else bump (count_local_action_serializations c))
    (count_sent c) (count_received c).
Definition add_sent (c : Channel) (k : SharedCounters) : SharedCounters :=
  mkSharedCounters (count_completed k) (count_cancelled k) (count_timed_out k) (count_late_results k)
    (count_duplicate_requests k) (count_action_failures k) (count_local_typed_dispatches k)
    (count_local_action_serializations k) (bump_at (channel_index c) (count_sent k)) (count_received k).
Definition add_received (c : Channel) (k : SharedCounters) : SharedCounters :=
  mkSharedCounters (count_completed k) (count_cancelled k) (count_timed_out k) (count_late_results k)
    (count_duplicate_requests k) (count_action_failures k) (count_local_typed_dispatches k)
    (count_local_action_serializations k) (count_sent k) (bump_at (channel_index c) (count_received k)).

End State.
#[global] Arguments Runtime {_} _.
