(* ===== verification/Driver.v ===== *)
(** * Driver: the operations of the runtime of a locality

    Models the methods of [Shared], [RuntimeClient] and [Runtime] of
    [crates/hataori-runtime/src/runtime.rs] and those of [LocalLease] and
    [LocalLeaseManager] of [object.rs] on the state of [RuntimeState].  Every
    [Instant::now] takes the next element of a sequence of instants.  Iterations
    over hash maps follow the order of [map_to_list], or a given one. *)
From Stdlib Require Import Strings.Byte.
From S2P Require Import Prelude Text Protocol Transport Error RuntimeTypes RuntimeWire Dedup Action Pending Domain ObjectWire ObjectRegistry Objects Migration RuntimeState.

(** ** Substrings *)

Fixpoint starts_with (pattern t : text) : bool :=
  match pattern, t with
  | [], _ => true
  | _, [] => false
  | p :: pattern, b :: t => bool_decide (p = b) && starts_with pattern t
  end.

(** [str::contains]. *)
Fixpoint contains (t pattern : text) : bool :=
  starts_with pattern t || match t with [] => false | _ :: t => contains t pattern end.

(** [str::to_ascii_lowercase]. *)
Definition ascii_lower (b : byte) : byte :=
  let v := byte_val b in if (65 <=? v) && (v <=? 90) then byte_of (v + 32) else b.
Definition to_ascii_lowercase (t : text) : text := map ascii_lower t.

(** ** The surroundings

    The constants of this runtime, the instants the clock shows, the last instant
    the clock can represent, the order in which the object table lists its keys,
    the [Display] of errors and the [Debug] of strings, the size of an entry of
    the resolver, and what workers, clients and peers do between two rounds of
    [shutdown]. *)
Class Surroundings (Net : Type) `{AnyTypes} := mkSurroundings {
  cfg : Config;
  instants : nat -> Z;
  instant_max : Z;
  key_order : nat -> ObjectService -> list ObjectId;
  debug_str : text -> text;
  display : RuntimeError -> text;
  display_wire : WireError -> text;
  display_protocol : ProtocolError -> text;
  entry_bytes : Z;
  others : RuntimeState.Runtime Net -> RuntimeState.Runtime Net;
}.

Section Driver.
Context `{AnyTypes} {Net : Type} `{!TransportDriver Net} `{!Surroundings Net}.

Abbreviation Runtime := (RuntimeState.Runtime Net).
Abbreviation DM := (M Runtime RuntimeError).
Abbreviation local_id := (conf_local cfg).
Abbreviation limits := (conf_limits cfg).

(** [Instant::now]. *)
Definition now : DM Z :=
  n ← gets clock;
  modify (set_clock (S n));;
  mret (instants n).

(** ** [Shared] *)

Definition runtime_state (s : Runtime) : RuntimeState := decode_state (state_cell s).
Definition store_state (v : RuntimeState) : DM unit := modify (set_state_cell (state_code v)).

Definition ensure_running : DM unit :=
  state ← gets runtime_state;
  match state with
  | Running => mret tt
  | Draining | Stopped => raise RuntimeError_Shutdown
  | _ => raise (RuntimeError_InvalidState Running state)
  end.

(** [value.checked_add(1).filter(|next| *next != 0)]. *)
Definition next_value (value : Z) : option Z :=
  next ← checked_add u64_max value 1; if next =? 0 then None else Some next.

Definition next_request : DM RequestId :=
  sequence ← gets request_seq;
  next ← lift (ok_or (next_value sequence)
                 (RuntimeError_ResourceExhausted PendingCalls (max_pending_calls limits)));
  modify (set_request_seq next);;
  lift (map_err (fun _ => RuntimeError_Protocol (lit "request id overflow")) (RequestId_new local_id sequence)).

Definition next_object : DM ObjectId :=
  sequence ← gets object_seq;
  object_limits ← gets (fun s => Objects.limits (objects s));
  next ← lift (ok_or (next_value sequence)
                 (RuntimeError_ResourceExhausted Error.Objects (max_objects object_limits)));
  modify (set_object_seq next);;
  let unique := Z.lor (Z.shiftl local_id 64) sequence in
  lift (map_err (fun _ => RuntimeError_Protocol (lit "object id overflow")) (ObjectId_new (conf_run cfg) unique)).

Definition next_message : DM MessageId :=
  value ← gets message_seq;
  next ← lift (ok_or (next_value value) (RuntimeError_Protocol (lit "message id overflow")));
  modify (set_message_seq next);;
  lift (map_err (fun _ => RuntimeError_Protocol (lit "zero message id")) (MessageId_new value)).

(** [RuntimeClient::fail_committed_migration]. *)
Definition fail_committed_migration : DM unit := store_state Error.Failed.

Definition ticket_limit (c : Channel) : Z :=
  let action_limit := saturating_add usize_max
    (saturating_add usize_max (max_pending_calls limits) (max_dedup_entries limits))
    (max_action_queue_per_domain limits) in
  let total_limit := saturating_add usize_max action_limit (max_pending_calls limits) in
  match c with Channel_Control => total_limit | _ => action_limit end.

Definition send (destination : LocalityId) (message : RuntimeMessage) (purpose : TicketPurpose)
    (trace : option TraceId) : DM SendTicket :=
  let channel := if bool_decide (msg_kind message = Msg_Cancel) then Channel_Control else Channel_Action in
  let kind := match channel with Channel_Control => ParcelKind_Control | _ => ParcelKind_Data end in
  id ← next_message;
  let parcel := mkParcel (conf_run cfg) id channel kind local_id destination trace (encode message) in
  lift (map_err (fun e => RuntimeError_Protocol (lit "runtime parcel exceeds limits: " ++ display_protocol e))
          (Parcel_validate parcel (conf_protocol cfg)));;
  held ← gets tickets;
  if ticket_limit channel <=? Objects.map_len held
  then raise (RuntimeError_ResourceExhausted SendTickets (ticket_limit channel))
  else
    ticket ← on_net (try_send parcel);
    modify (fun s => set_tickets (<[ticket := purpose]> (tickets s)) s);;
    count (add_sent channel);;
    mret ticket.

(** What is sent to the destination of an entry whose call is given up. *)
Definition send_cancel (request : RequestId) (entry : PendingEntry) : DM unit :=
  mwhen (negb (Pending.destination entry =? local_id))
    (ignore (send (Pending.destination entry)
      (mkRuntimeMessage Msg_Cancel request (entry_action entry) (entry_domain entry) 0 [])
      BestEffort (Pending.trace_id entry))).

(** [if let Some(token) = entry.cancel_token { token.store(true) }]. *)
Definition raise_entry (entry : PendingEntry) : DM unit :=
  match cancel_token entry with Some token => raise_flag token | None => mret tt end.

Definition cancel (request : RequestId) : DM unit :=
  found ← on_pending (Pending.remove request);
  match found with
  | None => mret tt
  | Some entry =>
      count add_cancelled;;
      raise_entry entry;;
      send_cancel request entry
  end.

(** The last step of [RuntimeBuilder::start]. *)
Definition Runtime_new (transport : Net) (domains : DomainRegistry) (service : ObjectService) : Runtime :=
  mkRuntime (state_code Running) 1 1 1 ∅ 0 SharedCounters_default (PendingTable_new (max_pending_calls limits)) []
    transport domains
    (DedupTable_new (max_dedup_entries limits) (max_dedup_bytes limits) (dedup_ttl limits)) [] 0 service ∅ ∅ 0 0 0.

(** ** Calls of the client *)

(** [options.deadline.as_millis().max(1)]. *)
Definition millis (duration : Z) : Z := Z.max 1 (duration / 1000000).

(** [Arc::new(AtomicBool::new(false))]. *)
Definition new_client_flag : DM Z :=
  n ← gets flag_seq;
  modify (set_flag_seq (n + 1));;
  mret (client_flag n).

(** The channel to the driver holds [max_pending_calls] requests. *)
Definition local_send (r : LocalRequest) : DM unit :=
  queue ← gets local_queue;
  if max_pending_calls limits <=? len queue
  then raise (RuntimeError_ResourceExhausted ActionQueue (max_pending_calls limits))
  else modify (set_local_queue (queue ++ [r])).

Definition is_typed (v : ActionValue) : bool := match v with Typed _ => true | Encoded _ => false end.

Definition spawn_inner (place : Place) (action_id : ActionId) (input : ActionValue) (options : SpawnOptions)
    (request : option RequestId) : DM RemoteFuture :=
  ensure_running;;
  if spawn_deadline options =? 0 then raise RuntimeError_InvalidDeadline else
  if negb (bool_decide (is_Some (Action.get (conf_registry cfg) action_id))) then raise (RuntimeError_UnknownAction action_id) else
  let local := locality place =? local_id in
  if negb local && is_typed input
  then raise (RuntimeError_Protocol (lit "typed action cannot cross a locality boundary")) else
  let deadline_ms := millis (spawn_deadline options) in
  if negb (deadline_ms <=? u64_max) then raise RuntimeError_InvalidDeadline else
  ensure_running;;
  request ← (match request with Some request => mret request | None => next_request end : DM RequestId);
  promise ← on_pending Promise_new;
  start ← now;
  expires_at ← lift (ok_or (checked_add instant_max start (spawn_deadline options)) RuntimeError_InvalidDeadline);
  token ← (if local then token ← new_client_flag; mret (Some token) else mret None : DM (option Z));
  on_pending (Pending.insert request (mkPendingEntry promise (locality place) action_id (RuntimeTypes.domain place)
    (RuntimeTypes.trace_id options) expires_at (spawn_deadline options) token));;
  let message payload :=
    mkRuntimeMessage Msg_Request request action_id (RuntimeTypes.domain place) deadline_ms payload in
  or_else
    (match token, input with
     | Some token, _ => local_send (mkLocalRequest (message []) input token (RuntimeTypes.trace_id options))
     | None, Encoded payload =>
         send (locality place) (message payload) (For_Request request) (RuntimeTypes.trace_id options);; mret tt
     | None, Typed _ => panic
     end)
    (fun _ => on_pending (Pending.remove request);; mret tt);;
  mret (RemoteFuture_new request promise).

Definition spawn_encoded (place : Place) (action_id : ActionId) (payload : Segments) (options : SpawnOptions) :
    DM RemoteFuture := spawn_inner place action_id (Encoded payload) options None.

Definition spawn_encoded_retry (place : Place) (action_id : ActionId) (payload : Segments) (options : SpawnOptions)
    (request : RequestId) : DM RemoteFuture :=
  spawn_inner place action_id (Encoded payload) options (Some request).

Definition default_options : SpawnOptions := mkSpawnOptions (default_deadline limits) None.

(** The codec of an action may panic. *)
Definition lift_handled {A} (to_error : ActionError -> RuntimeError) (r : Handled A) : DM A :=
  lift_exn (match r with Ok a => Ok a | Err (Raise e) => Err (Raise (to_error e)) | Err Panic => Err Panic end).

Definition encode_failed (prefix : string) (e : ActionError) : RuntimeError :=
  RuntimeError_Protocol (lit prefix ++ ActionError_to_string debug_str e).

Definition spawn_on_with (A : Action) (place : Place) (action : sort_of (action_ty A)) (options : SpawnOptions) :
    DM RemoteFuture :=
  action_id ← lift (map_err (fun _ => RuntimeError_InvalidActionId) (ActionId_new (Action.ID A)));
  if locality place =? local_id
  then spawn_inner place action_id (Typed (Any (action_ty A) action)) options None
  else
    payload ← lift_handled (encode_failed "action encode failed: ") (wire_encode action);
    spawn_encoded place action_id payload options.

Definition spawn_on (A : Action) (place : Place) (action : sort_of (action_ty A)) : DM RemoteFuture :=
  spawn_on_with A place action default_options.

(** ** Leases of this locality *)

Definition with_lease (a : Z) (f : LocalLease -> LocalLease) : DM unit :=
  modify (fun s => set_lease_store (alter f a (lease_store s)) s).
Definition set_active (b : bool) (l : LocalLease) : LocalLease :=
  mkLocalLease (lease_object l) (lease_type l) (lease_location l) b (next_renewal l) (strong l).
Definition set_renewal (t : Z) (l : LocalLease) : LocalLease :=
  mkLocalLease (lease_object l) (lease_type l) (lease_location l) (lease_active l) t (strong l).
Definition set_strong (n : nat) (l : LocalLease) : LocalLease :=
  mkLocalLease (lease_object l) (lease_type l) (lease_location l) (lease_active l) (next_renewal l) n.

(** [Weak::upgrade]: the lease, when a strong reference is left. *)
Definition upgrade (a : Z) (s : Runtime) : option LocalLease :=
  l ← lease_store s !! a; if (0 <? strong l)%nat then Some l else None.

Definition object_control (object : ObjectId) (object_type : Z) (location : ObjectLocation)
    (lease_locality : LocalityId) (raw_action : Z) : DM unit :=
  if ObjectLocation_locality location =? local_id then
    if raw_action =? LEASE_RENEW_ACTION_ID then
      t ← now; on_objects (renew object lease_locality t);; mret tt
    else if raw_action =? ROOT_RELEASE_ACTION_ID then on_objects (release_root object);; mret tt
    else if raw_action =? TRANSFER_ACK_ACTION_ID then on_objects (ack_transfer object lease_locality);; mret tt
    else on_objects (Objects.release object lease_locality);; mret tt
  else
    ignore
      (request ← next_request;
       action ← lift (map_err (fun _ => RuntimeError_InvalidActionId) (ActionId_new raw_action));
       send (ObjectLocation_locality location)
         (mkRuntimeMessage Msg_Request request action (ObjectLocation_domain location)
            (Z.min u64_max (millis (default_deadline limits)))
            (ObjectEnvelope_encode
               (mkObjectEnvelope object object_type (ObjectLocation_epoch location) lease_locality
                  (ObjectLocation_domain location) false) []))
         BestEffort None).

Definition renew_object (o : ObjectId) (t : Z) (l : ObjectLocation) : DM unit :=
  object_control o t l local_id LEASE_RENEW_ACTION_ID.
Definition release_object (o : ObjectId) (t : Z) (l : ObjectLocation) : DM unit :=
  object_control o t l local_id LEASE_RELEASE_ACTION_ID.
Definition client_release_root (o : ObjectId) (t : Z) (l : ObjectLocation) : DM unit :=
  object_control o t l local_id ROOT_RELEASE_ACTION_ID.
Definition release_for_locality (o : ObjectId) (t : Z) (l : ObjectLocation) (locality : LocalityId) : DM unit :=
  object_control o t l locality LEASE_RELEASE_ACTION_ID.

Definition lease_renew (l : LocalLease) : DM unit := renew_object (lease_object l) (lease_type l) (lease_location l).

(** [LocalLease::deactivate], and what [Drop] does. *)
Definition deactivate (a : Z) : DM unit :=
  found ← gets (fun s => lease_store s !! a);
  match found with
  | Some l =>
      with_lease a (set_active false);;
      mwhen (lease_active l) (release_object (lease_object l) (lease_type l) (lease_location l))
  | None => panic
  end.

(** A strong reference is cloned, or dropped. *)
Definition clone_lease (a : Z) : DM unit := with_lease a (fun l => set_strong (S (strong l)) l).
Definition drop_lease (a : Z) : DM unit :=
  found ← gets (fun s => lease_store s !! a);
  match found with
  | Some l =>
      with_lease a (fun l => set_strong (pred (strong l)) l);;
      mwhen (bool_decide (strong l = 1%nat)) (deactivate a)
  | None => panic
  end.

Definition is_live (s : Runtime) (a : Z) : bool := bool_decide (is_Some (upgrade a s)).

(** [LocalLeaseManager::attach]: the address of the lease of the new handle. *)
Definition attach (object : ObjectId) (object_type : Z) (location : ObjectLocation) : DM Z :=
  s ← gets id;
  match (a ← lease_table s !! object; _ ← upgrade a s; Some a) with
  | Some a => clone_lease a;; mret a
  | None =>
      let live := filter (fun p : ObjectId * Z => is_live s p.2 = true) (lease_table s) in
      modify (set_lease_table live);;
      if conf_lease_limit cfg <=? Objects.map_len live
      then raise (RuntimeError_ResourceExhausted LocalityLeases (conf_lease_limit cfg))
      else
        t ← now;
        let a := lease_seq s in
        modify (set_lease_seq (a + 1));;
        modify (fun s => set_lease_store
          (<[a := mkLocalLease object object_type location true (t + conf_lease_interval cfg) 1]> (lease_store s)) s);;
        modify (fun s => set_lease_table (<[object := a]> (lease_table s)) s);;
        mret a
  end.

Definition attach_object (object : ObjectId) (object_type : Z) (location : ObjectLocation) : DM Z :=
  on_objects (cache_location object location);;
  attach object object_type location.

(** [LocalLeaseManager::due]: the leases to renew at [t], whose next renewal is
    set. *)
Definition is_due (t : Z) (l : LocalLease) : bool := lease_active l && (next_renewal l <=? t).
Definition due (t : Z) : DM (list LocalLease) :=
  s ← gets id;
  let live := filter (fun p : ObjectId * Z => is_live s p.2 = true) (lease_table s) in
  modify (set_lease_table live);;
  let ready := omap (fun p => l ← upgrade p.2 s; if is_due t l then Some (p.2, l) else None) (map_to_list live) in
  for_each (fun p => with_lease p.1 (set_renewal (t + conf_lease_interval cfg))) ready;;
  mret (snd <$> ready).

(** [LocalLeaseManager::clear]. *)
Definition clear_leases : DM unit :=
  s ← gets id;
  modify (set_lease_table ∅);;
  for_each (fun p : ObjectId * Z => mwhen (is_live s p.2) (deactivate p.2)) (map_to_list (lease_table s)).

(** ** Answers *)

Definition queue_response (destination : LocalityId) (message : RuntimeMessage) (trace : option TraceId)
    (cache : bool) : DM unit :=
  let exhausted := RuntimeError_ResourceExhausted DedupBytes (max_dedup_bytes limits) in
  bytes ← lift (ok_or (payload_bytes 0 (payload message)) exhausted);
  held ← gets response_bytes;
  next_bytes ← lift (ok_or (checked_add usize_max held bytes) exhausted);
  queue ← gets responses;
  if max_dedup_entries limits <=? len queue
  then raise (RuntimeError_ResourceExhausted DedupEntries (max_dedup_entries limits)) else
  if max_dedup_bytes limits <? next_bytes then raise exhausted else
  modify (set_response_bytes next_bytes);;
  modify (fun s => set_responses (responses s ++ [mkQueuedResponse destination message trace cache bytes]) s).

Definition failure_to (request : RuntimeMessage) (message : text) : RuntimeMessage :=
  mkRuntimeMessage Msg_Failure (RuntimeWire.request request) (action request) (RuntimeWire.domain request) 0
    [capped message].

Definition send_failure (destination : LocalityId) (request : RuntimeMessage) (message : text)
    (trace : option TraceId) : DM unit :=
  queue_response destination (failure_to request message) trace false.

Definition send_and_cache_failure (destination : LocalityId) (request : RuntimeMessage) (message : text)
    (trace : option TraceId) : DM unit :=
  queue_response destination (failure_to request message) trace true.

Definition send_and_cache_moved (destination : LocalityId) (request : RuntimeMessage) (object : ObjectId)
    (location : ObjectLocation) (trace : option TraceId) : DM unit :=
  let identity := to_le_bytes 16 (ObjectId_run object) ++ to_le_bytes 16 (ObjectId_unique object) in
  segments ← lift (map_err (fun e => RuntimeError_Protocol (ActionError_message e)) (encode_location location));
  location ← lift (ok_or (last segments) (RuntimeError_Protocol (lit "missing moved location")));
  queue_response destination
    (mkRuntimeMessage Msg_Moved (RuntimeWire.request request) (action request) (RuntimeWire.domain request) 0
       [identity; location]) trace true.

(** The errors of [send] after which a response waits. *)
Definition must_wait (e : RuntimeError) : bool :=
  match e with
  | RuntimeError_Transport (TransportError_QueueFull _ _)
  | RuntimeError_Transport (TransportError_ByteLimit _ _)
  | RuntimeError_ResourceExhausted SendTickets _ => true
  | _ => false
  end.

(** The answer is how many responses were sent. *)
Fixpoint drain_responses (max_responses : nat) : DM nat :=
  match max_responses with
  | O => mret 0%nat
  | S more =>
      queue ← gets responses;
      match queue with
      | [] => mret 0%nat
      | response :: rest =>
          modify (set_responses rest);;
          modify (fun s => set_response_bytes (saturating_sub (response_bytes s) (resp_bytes response)) s);;
          sent ← outcome (send (resp_destination response) (resp_message response) RequiredResponse
                            (resp_trace response));
          match sent with
          | Ok _ =>
              mwhen (resp_cache response) (t ← now; on_dedup (Dedup.complete (resp_message response) t));;
              n ← drain_responses more;
              mret (S n)
          | Err error =>
              if must_wait error then
                modify (fun s => set_response_bytes
                  (saturating_add usize_max (response_bytes s) (resp_bytes response)) s);;
                modify (fun s => set_responses (response :: responses s) s);;
                mret 0%nat
              else raise error
          end
      end
  end.

(** ** Ends of calls *)

Definition complete_promise (entry : PendingEntry) (r : Outcome) : DM unit :=
  on_pending (Pending.complete (promise entry) r).

(** [map] turns the message into the outcome; it may panic. *)
Definition complete_pending (source : LocalityId) (message : RuntimeMessage)
    (to_outcome : RuntimeMessage -> result (exn RuntimeError) Segments) : DM unit :=
  found ← on_pending (take_checked (RuntimeWire.request message) source (action message));
  match found with
  | Some entry =>
      r ← lift_exn (match to_outcome message with
                    | Ok p => Ok (Ok (Encoded p))
                    | Err (Raise e) => Ok (Err e)
                    | Err Panic => Err Panic
                    end);
      complete_promise entry r;;
      count add_completed
  | None => count add_late_result
  end.

Definition expire_pending : DM unit :=
  t ← now;
  gone ← on_pending (expired t);
  for_each (fun p : RequestId * PendingEntry =>
    complete_promise p.2 (Err (RuntimeError_DeadlineExceeded p.1 (deadline p.2)));;
    count add_timed_out;;
    raise_entry p.2;;
    send_cancel p.1 p.2) gone.

Definition fail (error : RuntimeError) : DM unit :=
  store_state Error.Failed;;
  gone ← on_pending drain;
  for_each (fun p : RequestId * PendingEntry => complete_promise p.2 (Err error);; raise_entry p.2) gone.

(** ** Incoming messages *)

(** The error a [Failure] message stands for. *)
Definition remote_error (request : RequestId) (message : text) : RuntimeError :=
  let category := to_ascii_lowercase message in
  if contains category (lit "placement") || contains category (lit "admission")
     || contains category (lit "actionqueue") || contains category (lit "objectmailbox")
  then RuntimeError_Placement request message
  else if contains category (lit "object") then RuntimeError_RemoteObject request message
  else if contains category (lit "lease") || contains category (lit "transfer")
  then RuntimeError_Lease request message
  else RuntimeError_RemoteAction request message.

Definition failure_outcome (message : RuntimeMessage) : result (exn RuntimeError) Segments :=
  match payload message with
  | [] => Err Panic
  | segment :: _ =>
      if utf8_valid segment then Err (Raise (remote_error (RuntimeWire.request message) (capped segment)))
      else Err (Raise (RuntimeError_Protocol (lit "remote error is not UTF-8")))
  end.

Definition moved_outcome (message : RuntimeMessage) : result RuntimeError Segments :=
  match payload message with
  | [identity; location] =>
      fail_if (negb (len identity =? 32)) (RuntimeError_Protocol (lit "invalid moved payload"));;
      run ← map_err (fun _ => RuntimeError_Protocol (lit "invalid moved run"))
              (RunId_new (from_le_bytes (slice 0 16 identity)));
      object ← map_err (fun _ => RuntimeError_Protocol (lit "invalid moved object"))
                 (ObjectId_new run (from_le_bytes (slice 16 32 identity)));
      location ← decode_location display_protocol location;
      Err (RuntimeError_Moved object location)
  | _ => Err (RuntimeError_Protocol (lit "invalid moved payload"))
  end.

(** [job.object], and [rollback] of what admission did. *)
Definition roll_back (admitted : option ObjectJob) : DM unit :=
  match admitted with Some x => on_objects (rollback x);; mret tt | None => mret tt end.

(** Submit an admitted job; a job that is refused is rolled back. *)
Definition submit_admitted (job : ActionJob) : DM unit :=
  or_else (on_pools (submit job)) (fun _ => roll_back (object_job job)).

(** [objects.admit] followed by [domains.submit], when it hands the job out. *)
Definition admit_job (job : ActionJob) : DM (option ActionJob) :=
  t ← now;
  available ← gets (fun s => can_submit (pools s) (job_domain job));
  on_objects (admit_request t (job_action job) job available).

(** The job of a request that is to run. *)
Definition job_of (source : LocalityId) (trace : option TraceId) (message : RuntimeMessage)
    (handler : RegisteredAction) (token : Z) (t : Z) : ActionJob :=
  mkActionJob source (RuntimeWire.request message) (action message) (RuntimeWire.domain message) trace
    (Encoded (payload message)) handler (table_flag token) false t None.

(** A request that is new to the table of requests. *)
Definition start_request (source : LocalityId) (trace : option TraceId) (message : RuntimeMessage) (token : Z) : DM unit :=
  match Action.get (conf_registry cfg) (action message) with
  | None => send_and_cache_failure source message (lit "unknown action") trace
  | Some handler =>
      t ← now;
      admitted ← outcome (admit_job (job_of source trace message handler token t));
      match admitted with
      | Err (RuntimeError_Moved object location) => send_and_cache_moved source message object location trace
      | Err error => send_and_cache_failure source message (display error) trace
      | Ok None => mret tt
      | Ok (Some job) =>
          submitted ← outcome (submit_admitted job);
          match submitted with
          | Ok _ => mret tt
          | Err error => send_and_cache_failure source message (display error) trace
          end
      end
  end.

Definition handle_request (source : LocalityId) (trace : option TraceId) (message : RuntimeMessage) : DM unit :=
  state ← gets runtime_state;
  if negb (bool_decide (state = Running))
  then send_failure source message (lit "runtime is shutting down") trace else
  current ← gets (fun s => request_targets_current (action message) (payload message) (objects s));
  mwhen current
    (on_dedup (release_redirect (RuntimeWire.request message) (action message) (RuntimeWire.domain message)));;
  t ← now;
  found ← outcome (on_dedup (begin (RuntimeWire.request message) (action message) (RuntimeWire.domain message) t));
  match found with
  | Ok (Disp_New token) => start_request source trace message token
  | Ok Disp_Running => count add_duplicate
  | Ok (Disp_Replay response) | Ok (Disp_Unavailable response) | Ok (Disp_Cancelled response) =>
      count add_duplicate;;
      queue_response source response trace false
  | Err error => send_failure source message (display error) trace
  end.

Definition handle_message (source : LocalityId) (trace : option TraceId) (message : RuntimeMessage) : DM unit :=
  let error := fun e : RuntimeError => fun _ : RuntimeMessage => Err (Raise e) in
  match msg_kind message with
  | Msg_Request => handle_request source trace message
  | Msg_Cancel =>
      t ← now;
      on_dedup (Dedup.cancel (RuntimeWire.request message) (action message) (RuntimeWire.domain message) t)
  | Msg_Success => complete_pending source message (fun m => Ok (payload m))
  | Msg_Failure => complete_pending source message failure_outcome
  | Msg_Cancelled =>
      complete_pending source message (error (RuntimeError_Cancelled (RuntimeWire.request message)))
  | Msg_DuplicateResultUnavailable =>
      complete_pending source message (error (RuntimeError_DuplicateResultUnavailable (RuntimeWire.request message)))
  | Msg_Moved =>
      complete_pending source message
        (fun m => match moved_outcome m with Ok p => Ok p | Err e => Err (Raise e) end)
  end.

Definition handle_transport_event (event : TransportEvent) : DM unit :=
  match event with
  | LocalSendComplete ticket => modify (fun s => set_tickets (delete ticket (tickets s)) s)
  | SendFailed ticket error =>
      purpose ← gets (fun s => tickets s !! ticket);
      modify (fun s => set_tickets (delete ticket (tickets s)) s);;
      match purpose with
      | Some (For_Request request) =>
          found ← on_pending (Pending.remove request);
          match found with
          | Some entry => complete_promise entry (Err (RuntimeError_Transport error))
          | None => mret tt
          end
      | Some BestEffort | None => mret tt
      | Some RequiredResponse => raise (RuntimeError_Transport error)
      end
  | Incoming parcel =>
      count (add_received (channel parcel));;
      message ← lift (map_err (fun e => RuntimeError_Protocol (display_wire e)) (decode parcel));
      handle_message (Protocol.source parcel) (Protocol.trace_id parcel) message
  | PeerFailed peer _ => fail (RuntimeError_PeerFailed peer);; raise (RuntimeError_PeerFailed peer)
  | ShutdownComplete => mret tt
  end.

(** ** Local requests and completions *)

Definition dispatch_local (request : LocalRequest) : DM unit :=
  let message := local_message request in
  count (add_local_dispatch (is_typed (local_input request)));;
  result ← outcome
    (handler ← lift (ok_or (Action.get (conf_registry cfg) (action message)) (RuntimeError_UnknownAction (action message)));
     t ← now;
     admitted ← admit_job (mkActionJob local_id (RuntimeWire.request message) (action message) (RuntimeWire.domain message)
                         (local_trace request) (local_input request) handler (local_cancel request) true t None);
     match admitted with
     | None => mret tt
     | Some job => submit_admitted job
     end);
  match result with
  | Ok _ => mret tt
  | Err error =>
      found ← on_pending (Pending.remove (RuntimeWire.request message));
      match found with
      | Some entry => complete_promise entry (Err error)
      | None => mret tt
      end
  end.

(** What a completion says to a remote caller. *)
Definition answer_of (completion : ActionCompletion) : result RuntimeError (RuntimeMessageKind * Segments) :=
  if comp_cancelled completion then Ok (Msg_Cancelled, []) else
  match comp_result completion with
  | Ok (Encoded payload) => Ok (Msg_Success, payload)
  | Ok (Typed _) => Err (RuntimeError_Protocol (lit "remote action produced typed output"))
  | Err error => Ok (Msg_Failure, [ActionError_message error])
  end.

Definition handle_completion (completion : ActionCompletion) : DM unit :=
  match comp_object completion with
  | Some object =>
      jobs ← on_objects (Objects.complete object);
      for_each submit_admitted jobs
  | None => mret tt
  end;;
  if comp_local completion then
    found ← on_pending (take_checked (comp_request completion) local_id (comp_action completion));
    match found with
    | Some entry =>
        complete_promise entry
          (if comp_cancelled completion then Err (RuntimeError_Cancelled (comp_request completion))
           else map_err (fun e => RuntimeError_RemoteAction (comp_request completion) (ActionError_message e))
                  (comp_result completion));;
        count add_completed
    | None => count add_late_result
    end
  else
    mwhen (negb (comp_cancelled completion) && negb (is_ok (comp_result completion))) (count add_action_failure);;
    answer ← lift (answer_of completion);
    queue_response (requester completion)
      (mkRuntimeMessage answer.1 (comp_request completion) (comp_action completion) (comp_domain completion) 0 answer.2)
      (comp_trace completion) true.

(** ** The driver *)

Definition send_retirement (r : Retirement) : DM unit :=
  request ← next_request;
  let location := ret_location r in
  let place := Place_new (ObjectLocation_locality location) (ObjectLocation_domain location) in
  payload ← lift (map_err (fun e => RuntimeError_ObjectAction (ActionError_message e))
    (MigrationPacket_encode (mkMigrationPacket request (ret_object r) (ret_type r) (ret_authority r) location place
       (ret_version r) (ret_schema r) [])));
  send (ObjectLocation_locality location)
    (mkRuntimeMessage Msg_Request request MIGRATION_RETIRE_ACTION_ID (ObjectLocation_domain location)
       (Z.min u64_max (millis (default_deadline limits))) payload)
    BestEffort None;;
  mret tt.

(** The loop over the retirements taken: the first that cannot be sent is put
    back, and ends it. *)
Fixpoint send_retirements (taken : list Retirement) : DM unit :=
  match taken with
  | [] => mret tt
  | r :: rest =>
      sent ← outcome (send_retirement r);
      match sent with
      | Ok _ => on_objects (finish_retirement (ret_object r));; send_retirements rest
      | Err _ => on_objects (requeue_retirement r)
      end
  end.

(** [if let Err(error) = m { self.fail(error.clone()); return Err(error) }]. *)
Definition or_fail {A} (m : DM A) : DM A := or_else m fail.

(** The loops of [progress], each with what is left of the budget. *)
Fixpoint handle_completions (budget : nat) : DM nat :=
  match budget with
  | O => mret 0%nat
  | S more =>
      found ← on_pools try_completion;
      match found with
      | None => mret 0%nat
      | Some completion => or_fail (handle_completion completion);; n ← handle_completions more; mret (S n)
      end
  end.

Fixpoint dispatch_locals (budget : nat) : DM nat :=
  match budget with
  | O => mret 0%nat
  | S more =>
      queue ← gets local_queue;
      match queue with
      | [] => mret 0%nat
      | request :: rest =>
          modify (set_local_queue rest);; dispatch_local request;; n ← dispatch_locals more; mret (S n)
      end
  end.

Definition keys_now (s : Runtime) : list ObjectId := key_order (clock s) (objects s).

Record RuntimeProgress : Type := mkRuntimeProgress { handled_events : nat; progressed : bool }.

Definition progress (max_events : Z) : DM RuntimeProgress :=
  state ← gets runtime_state;
  if negb (bool_decide (state = Running) || bool_decide (state = Draining))
  then raise (RuntimeError_InvalidState Running state) else
  let limit := Z.to_nat (Z.min max_events (max_progress_events limits)) in
  if bool_decide (limit = 0%nat) then mret (mkRuntimeProgress 0 false) else
  expire_pending;;
  t ← now; on_dedup (Dedup.expire t);;
  t ← now;
  leases ← due t;
  for_each lease_renew leases;;
  keys ← gets keys_now;
  on_objects (Objects.expire t keys);;
  retirements ← on_objects (take_retirements limit);
  send_retirements retirements;;
  polled ← or_else (on_net (poll_events (Z.of_nat limit))) fail;
  let '(events, transport) := polled in
  for_each (fun event => or_fail (handle_transport_event event)) events;;
  let handled := length events in
  n ← handle_completions (limit - handled);
  let handled := (handled + n)%nat in
  n ← (if (handled <? limit)%nat then
         s ← gets id;
         ready ← on_objects (retry_ready (limit - handled) (can_submit (pools s)) (keys_now s));
         for_each (fun job => on_pools (submit job)) ready;;
         mret (length ready)
       else mret 0%nat);
  let handled := (handled + n)%nat in
  n ← dispatch_locals (limit - handled);
  let handled := (handled + n)%nat in
  (** [limit - handled] on [usize]. *)
  if (limit <? handled)%nat then panic else
  sent ← or_fail (drain_responses (limit - handled));
  let handled := (handled + sent)%nat in
  mret (mkRuntimeProgress handled (made_progress transport || (0 <? handled)%nat)).

(** ** Statistics and shutdown *)

Record RuntimeStats : Type := mkRuntimeStats {
  stat_state : RuntimeState; pending_calls : Z; completed_calls : Z; cancelled_calls : Z; timed_out_calls : Z;
  late_results : Z; duplicate_requests : Z; action_failures : Z; local_typed_dispatches : Z;
  local_action_serializations : Z; dedup_entries : Z; dedup_bytes : Z;
  sent_by_channel : list Z; received_by_channel : list Z; stat_domains : list (DomainId * DomainStats);
  send_tickets : Z; queued_responses : Z; queued_response_bytes : Z; stat_objects : ObjectStats;
  stat_transport : TransportStats;
}.

Definition stats : DM RuntimeStats :=
  t ← now;
  s ← gets id;
  let c := counts s in
  mret (mkRuntimeStats (runtime_state s) (Pending.table_len (pending s)) (count_completed c) (count_cancelled c)
    (count_timed_out c) (count_late_results c) (count_duplicate_requests c) (count_action_failures c)
    (count_local_typed_dispatches c) (count_local_action_serializations c)
    (Dedup.table_len (dedup s)) (Dedup.retained_bytes (dedup s)) (count_sent c) (count_received c)
    (Domain.stats (pools s)) (Objects.map_len (tickets s)) (len (responses s)) (response_bytes s)
    (Objects.stats entry_bytes t (objects s)) (transport_stats (net s))).

Definition retained (r : RuntimeStats) : bool :=
  let o := stat_objects r in
  negb ((pending_calls r =? 0) && (send_tickets r =? 0) && (dedup_entries r =? 0) && (queued_responses r =? 0)
        && (queued_response_bytes r =? 0) && bool_decide (live_objects o = 0%nat) && bool_decide (stat_leases o = 0%nat)
        && bool_decide (stat_roots o = 0%nat) && (stat_placement_tickets o =? 0) && (stat_transfers o =? 0)
        && bool_decide (stat_active_migrations o = 0%nat) && (prepared_migrations o =? 0)
        && bool_decide (forwarding_entries o = 0%nat) && (migration_snapshot_bytes o =? 0)
        && (Transport.retained_bytes (stat_transport r) =? 0)).

(** The first part, under the work gate: no call is accepted or waits any more. *)
Definition stop_calls : DM unit :=
  store_state Draining;;
  clear_leases;;
  gone ← on_pending drain;
  for_each (fun p : RequestId * PendingEntry =>
    complete_promise p.2 (Err RuntimeError_Shutdown);;
    raise_entry p.2;;
    send_cancel p.1 p.2) gone;;
  queue ← gets local_queue;
  modify (set_local_queue []);;
  for_each (fun request => raise_flag (local_cancel request)) queue.

Definition work_left (s : Runtime) : bool :=
  let o := Objects.stats entry_bytes 0 (objects s) in
  negb (Domain.idle (pools s)) || negb (bool_decide (queued_calls o = 0%nat))
  || negb (bool_decide (in_flight_calls o = 0%nat)) || negb (local_object_calls s =? 0).

(** [progress] while [more] holds of the state, for at most [fuel] rounds; [None]
    when the fuel is spent. *)
Fixpoint progress_while (fuel : nat) (more : Runtime -> bool) (reads_clock : bool) (deadline : Z) : DM (option unit) :=
  modify others;;
  mwhen reads_clock (now;; mret tt);;
  again ← gets more;
  if negb again then mret (Some tt) else
  match fuel with
  | O => mret None
  | S fuel =>
      progress (max_progress_events limits);;
      t ← now;
      if deadline <=? t then store_state Error.Failed;; raise RuntimeError_ShutdownTimeout
      else progress_while fuel more reads_clock deadline
  end.

Fixpoint last_completions (n : nat) : DM unit :=
  match n with
  | O => mret tt
  | S n =>
      found ← on_pools try_completion;
      match found with None => mret tt | Some completion => handle_completion completion;; last_completions n end
  end.

Definition shutdown (fuel : nat) : DM (option RuntimeStats) :=
  state ← gets runtime_state;
  if bool_decide (state = Stopped) then report ← stats; mret (Some report) else
  if negb (bool_decide (state = Running) || bool_decide (state = Error.Failed))
  then raise (RuntimeError_InvalidState Running state) else
  stop_calls;;
  t ← now;
  let deadline := t + shutdown_timeout limits in
  drained ← progress_while fuel work_left true deadline;
  match drained with
  | None => mret None
  | Some _ =>
      s ← gets id;
      last_completions (length (completions (pools s)));;
      drained ← progress_while fuel (fun s => negb (is_nil (responses s))) false deadline;
      match drained with
      | None => mret None
      | Some _ =>
          on_dedup Dedup.clear;;
          on_objects Objects.clear_all;;
          t ← now;
          events ← on_net (close_transport (saturating_sub deadline t));
          for_each (fun event =>
            match event with
            | LocalSendComplete ticket | SendFailed ticket _ =>
                modify (fun s => set_tickets (delete ticket (tickets s)) s)
            | _ => mret tt
            end) events;;
          store_state Stopped;;
          report ← stats;
          if retained report then raise RuntimeError_RetainedResources else mret (Some report)
      end
  end.

(** [Drop]. *)
Definition runtime_drop : DM unit :=
  state ← gets runtime_state;
  mwhen (negb (bool_decide (state = Stopped) || bool_decide (state = Error.Failed)))
    (store_state Draining;;
     clear_leases;;
     gone ← on_pending drain;
     for_each (fun p : RequestId * PendingEntry =>
       complete_promise p.2 (Err RuntimeError_Shutdown);; raise_entry p.2) gone).

End Driver.

(** ** Examples *)

(** A transport that takes a number of parcels, and hands out the events it was
    given; its tickets count the parcels. *)
Record ExNet : Type := mkExNet { inbox : list TransportEvent; outbox : list Parcel; accepts : nat }.
#[export] Instance ex_transport : TransportDriver ExNet := {|
  try_send p := fun n =>
    match accepts n with
    | O => (Err (Raise (TransportError_QueueFull (channel p) 0)), n)
    | S k => (Ok (len (outbox n) + 1), mkExNet (inbox n) (outbox n ++ [p]) k)
    end;
  poll_events max := fun n =>
    let got := take (Z.to_nat max) (inbox n) in
    (Ok (got, Transport.mkProgress (len got) (negb (is_nil got))),
     mkExNet (drop (Z.to_nat max) (inbox n)) (outbox n) (accepts n));
  close_transport _ := fun n => (Ok [], n);
  transport_stats n := TransportStats_default;
|}.

(** Locality 0 of run 1: the action [ex_action], the counter of the examples of
    [Migration], and its remote actions. *)
Definition ex_actions : ActionRegistry :=
  let echo {A} (_ : A) := RegisteredAction_new (fun s => Ok s) in
  (install ex_objects (mkServiceHandlers echo echo echo) ex_registry).2.
Definition ex_limits : RuntimeLimits := mkRuntimeLimits 4 2 2 2 8 4096 8 second second second.
Definition ex_cfg : Config := mkConfig 0 1 ex_limits ProtocolLimits_default ex_actions 4 second.
#[export] Instance ex_surroundings : Surroundings ExNet := {|
  cfg := ex_cfg;
  instants n := Z.of_nat n;
  instant_max := u64_max;
  key_order _ o := (map_to_list (entries o)).*1;
  debug_str := id;
  display _ := lit "error";
  display_wire _ := lit "wire";
  display_protocol _ := lit "protocol";
  entry_bytes := 40;
  others := id;
|}.
