(* ===== verification/DriverRuns.v ===== *)
(** * DriverRuns: what holds of a runtime after any calls

    A call is a method of the runtime or of one of its clients with any
    arguments, a step of a worker, anything the transport does, or a call of the
    object service by a handler.  The runtimes considered are those after any
    sequence of calls, whether they succeed or not. *)
From Stdlib Require Import Strings.Byte.
From S2P Require Import Prelude Text Protocol Transport Error RuntimeTypes RuntimeWire Dedup Action Pending Domain ObjectWire ObjectRegistry Objects Migration ObjectRuns ObjectWorld RuntimeState Driver.

(** ** Program logic

    [pwp m Q R s]: what [m] leaves satisfies [Q] if it returns and [R] if it
    fails; nothing is said of a panic. *)

Section Logic.
Context {S E : Type}.
Implicit Types (s : S) (I : S -> Prop).

Definition pwp {A} (m : M S E A) (Q : A -> S -> Prop) (R : E -> S -> Prop) (s : S) : Prop :=
  match m s with
  | (Ok a, s') => Q a s'
  | (Err (Raise e), s') => R e s'
  | (Err Panic, _) => True
  end.

Lemma pwp_bind {A B} (m : M S E A) (k : A -> M S E B) Q R s :
  pwp m (fun a => pwp (k a) Q R) R s -> pwp (m ≫= k) Q R s.
Proof. unfold pwp, mbind, M_bind. by destruct (m s) as [[a|[e|]] s']. Qed.

Lemma pwp_mono {A} (m : M S E A) (Q Q' : A -> S -> Prop) R R' s :
  pwp m Q R s -> (forall a s', Q a s' -> Q' a s') -> (forall e s', R e s' -> R' e s') -> pwp m Q' R' s.
Proof. unfold pwp. destruct (m s) as [[a|[e|]] s']; eauto. Qed.

Lemma pwp_gets {A} (f : S -> A) Q (R : E -> S -> Prop) s : Q (f s) s -> pwp (gets f) Q R s.
Proof. done. Qed.
Lemma pwp_modify (f : S -> S) (Q : unit -> S -> Prop) (R : E -> S -> Prop) s : Q tt (f s) -> pwp (modify f) Q R s.
Proof. done. Qed.

Lemma pwp_wp {A} (m : M S E A) Q R s : wp m Q R s -> pwp m Q R s.
Proof. unfold wp, pwp. by destruct (m s) as [[a|[e|]] s']. Qed.

Lemma pwp_assoc {A B C} (m : M S E A) (k : A -> M S E B) (k' : B -> M S E C) Q R s :
  pwp ((m ≫= k) ≫= k') Q R s -> pwp (m ≫= (fun a => k a ≫= k')) Q R s.
Proof. unfold pwp, mbind, M_bind. by destruct (m s) as [[a|[e|]] s']. Qed.

Lemma pwp_eq {A} (m : M S E A) Q R s a s' : m s = (Ok a, s') -> Q a s' -> pwp m Q R s.
Proof. unfold pwp. by intros ->. Qed.

Lemma pwp_and {A} (m : M S E A) Q Q' R R' s :
  pwp m Q R s -> pwp m Q' R' s -> pwp m (fun a s' => Q a s' /\ Q' a s') (fun e s' => R e s' /\ R' e s') s.
Proof. unfold pwp. by destruct (m s) as [[?|[?|]] ?]. Qed.

(** [m] keeps [I], whether it succeeds or not. *)
Definition upholds I {A} (m : M S E A) : Prop := forall s, I s -> pwp m (fun _ => I) (fun _ => I) s.

Lemma upholds_ret I {A} (a : A) : upholds I (mret a).
Proof. by intros s Hs. Qed.
Lemma upholds_gets I {A} (f : S -> A) : upholds I (gets f).
Proof. by intros s Hs. Qed.
Lemma upholds_raise I {A} (e : E) : upholds I (raise (A := A) e).
Proof. by intros s Hs. Qed.
Lemma upholds_panic I {A} : upholds I (panic (A := A)).
Proof. by intros s Hs. Qed.
Lemma upholds_lift I {A} (r : result E A) : upholds I (lift r).
Proof. intros s Hs. unfold pwp, lift. by destruct r. Qed.
Lemma upholds_lift_exn I {A} (r : result (exn E) A) : upholds I (lift_exn r).
Proof. intros s Hs. unfold pwp, lift_exn. by destruct r as [|[]]. Qed.
Lemma upholds_modify I (f : S -> S) : (forall s, I s -> I (f s)) -> upholds I (modify f).
Proof. intros Hf s Hs. by apply Hf. Qed.
Lemma upholds_bind I {A B} (m : M S E A) (k : A -> M S E B) :
  upholds I m -> (forall a, upholds I (k a)) -> upholds I (m ≫= k).
Proof. intros Hm Hk s Hs. eapply pwp_bind, pwp_mono; [by apply Hm| |done]. intros a s' Hs'. by apply Hk. Qed.
Lemma upholds_when I b (m : M S E unit) : upholds I m -> upholds I (mwhen b m).
Proof. intros Hm. by destruct b; [|apply upholds_ret]. Qed.
Lemma upholds_for_each I {A} (f : A -> M S E unit) l : (forall x, upholds I (f x)) -> upholds I (for_each f l).
Proof. intros Hf. induction l as [|x l IH]; [apply upholds_ret|]. by apply upholds_bind. Qed.
End Logic.

(** Decompose a computation; what is left are the operations themselves. *)
Ltac upholds_step :=
  match goal with
  | |- upholds _ (mbind _ _) => apply upholds_bind; [|intros ?]
  | |- upholds _ (mret _) => apply upholds_ret
  | |- upholds _ (gets _) => apply upholds_gets
  | |- upholds _ (raise _) => apply upholds_raise
  | |- upholds _ panic => apply upholds_panic
  | |- upholds _ (lift _) => apply upholds_lift
  | |- upholds _ (lift_exn _) => apply upholds_lift_exn
  | |- upholds _ (mwhen _ _) => apply upholds_when
  | |- upholds _ (for_each _ _) => apply upholds_for_each; intros ?
  | |- upholds _ (if ?b then _ else _) => destruct b
  | |- upholds _ (match ?x with _ => _ end) => destruct x
  | |- upholds _ (let _ := _ in _) => cbv zeta
  end.

Section Runs.
Context `{AnyTypes} {Net : Type} `{!TransportDriver Net} `{!Surroundings Net}.
Abbreviation Runtime := (RuntimeState.Runtime Net).
Abbreviation DM := (M Runtime RuntimeError).
Abbreviation limits := (conf_limits cfg).
Implicit Types (s : Runtime) (I : Runtime -> Prop).

Lemma upholds_outcome I {A} (m : DM A) : upholds I m -> upholds I (outcome m).
Proof.
  intros Hm s Hs. specialize (Hm s Hs). unfold pwp, outcome in *. by destruct (m s) as [[a|[e|]] s'].
Qed.
Lemma upholds_or_else I {A} (m : DM A) h : upholds I m -> (forall e, upholds I (h e)) -> upholds I (or_else m h).
Proof.
  intros Hm Hh. unfold or_else. apply upholds_bind; [by apply upholds_outcome|intros []].
  - apply upholds_ret.
  - apply upholds_bind; [done|intros; apply upholds_raise].
Qed.
Lemma upholds_ignore I {A} (m : DM A) : upholds I m -> upholds I (ignore m).
Proof. intros Hm. unfold ignore. apply upholds_bind; [by apply upholds_outcome|intros; apply upholds_ret]. Qed.

(** A component's method, when its postcondition on the part carries [I] over. *)
Lemma upholds_part I {P E A} (get : Runtime -> P) put (to_error : E -> RuntimeError) (m : M P E A) :
  (forall s, I s -> pwp m (fun _ p => I (put p s)) (fun _ p => I (put p s)) (get s)) ->
  upholds I (on_part get put to_error m).
Proof.
  intros Hm s Hs. specialize (Hm s Hs). unfold pwp, on_part in *. by destruct (m (get s)) as [[a|[e|]] p].
Qed.

(** ** Calls *)

Inductive driver_call : Type :=
| Do_progress (max_events : Z)
| Do_spawn (place : Place) (action_id : ActionId) (input : ActionValue) (options : SpawnOptions)
    (request : option RequestId)
| Do_cancel (request : RequestId)
| Do_poll (p : Z) (context : Z)
| Do_next_object
| Do_attach (o : ObjectId) (t : Z) (l : ObjectLocation)
| Do_clone_lease (a : Z)
| Do_drop_lease (a : Z)
| Do_control (o : ObjectId) (t : Z) (l : ObjectLocation) (locality : LocalityId) (raw_action : Z)
| Do_fail_migration
| Do_worker (i : nat) (waited ran : Z)
| Do_service (c : service_call)
| Do_transport (f : Net -> Net).

(** [worker_step] when the task can move, and a call of the object service. *)
Definition work (i : nat) (waited ran : Z) : DM unit :=
  modify (fun s => match worker_step i waited ran (pools s) with Some p => set_pools p s | None => s end).
Definition serve (c : service_call) : DM unit :=
  on_part objects set_objects (fun _ => RuntimeError_Shutdown) (perform c).

Definition act (c : driver_call) : DM unit :=
  match c with
  | Do_progress n => progress n;; mret tt
  | Do_spawn place action_id input options request => spawn_inner place action_id input options request;; mret tt
  | Do_cancel r => cancel r
  | Do_poll p context => on_pending (Pending.poll p context);; mret tt
  | Do_next_object => next_object;; mret tt
  | Do_attach o t l => attach_object o t l;; mret tt
  | Do_clone_lease a => clone_lease a
  | Do_drop_lease a => drop_lease a
  | Do_control o t l locality raw_action => object_control o t l locality raw_action
  | Do_fail_migration => fail_committed_migration
  | Do_worker i waited ran => work i waited ran
  | Do_service c => serve c
  | Do_transport f => modify (fun s => set_net (f (net s)) s)
  end.

(** The runtimes after some calls that succeed or fail; a call that panics
    unwinds the driver. *)
Inductive after_calls (s0 : Runtime) : Runtime -> Prop :=
| After_none : after_calls s0 s0
| After_call s c r s' : after_calls s0 s -> act c s = (r, s') -> r <> Err Panic -> after_calls s0 s'.

(** ** Queues, tables and tickets stay within their limits *)

Definition bytes_of (q : list QueuedResponse) : Z := foldr (fun r n => resp_bytes r + n) 0 q.

Definition bounded s : Prop :=
  response_bytes s = bytes_of (responses s) /\
  Forall (fun r => payload_bytes 0 (payload (resp_message r)) = Some (resp_bytes r)) (responses s) /\
  len (responses s) <= max_dedup_entries limits /\ response_bytes s <= max_dedup_bytes limits /\
  Objects.map_len (tickets s) <= ticket_limit Channel_Control /\
  len (local_queue s) <= max_pending_calls limits /\
  Pending.limit (pending s) = max_pending_calls limits /\
  Pending.table_len (pending s) <= max_pending_calls limits /\
  table_inv (dedup s) /\ Dedup.max_entries (dedup s) = max_dedup_entries limits /\
  Dedup.max_bytes (dedup s) = max_dedup_bytes limits.


(** Parts of the state that matter to [bounded]. *)
Definition kept s s' : Prop :=
  responses s' = responses s /\ response_bytes s' = response_bytes s /\ tickets s' = tickets s /\
  local_queue s' = local_queue s /\ Pending.limit (pending s') = Pending.limit (pending s) /\
  (Pending.table_len (pending s') <= Pending.table_len (pending s)) /\ dedup s' = dedup s.

Lemma bounded_kept s s' : kept s s' -> bounded s -> bounded s'.
Proof.
  intros (E1 & E2 & E3 & E4 & E5 & E6 & E7) Hb. unfold bounded in *.
  rewrite E1, E2, E3, E4, E5, E7. destruct_and!. split_and!; try done. lia.
Qed.

Lemma bounded_modify (f : Runtime -> Runtime) : (forall s, kept s (f s)) -> upholds bounded (modify f : DM unit).
Proof. intros Hf. apply upholds_modify. intros s. by apply bounded_kept. Qed.

(** The table of pending calls: a method that adds no entry. *)
Definition shrinks {A} (m : M Pending.State RuntimeError A) : Prop :=
  forall p, Pending.limit (m p).2 = Pending.limit p /\ Pending.table_len (m p).2 <= Pending.table_len p.

Lemma bounded_pending {A} (m : M Pending.State RuntimeError A) : shrinks m -> upholds bounded (on_pending m).
Proof.
  intros Hm. apply upholds_part. intros s Hs. destruct (Hm (pending s)) as [Hl Hn].
  unfold pwp. destruct (m (pending s)) as [[a|[e|]] p]; try done; cbn in Hl, Hn;
    (apply (bounded_kept s); [|done]; by unfold kept).
Qed.

Lemma table_len_delete r p : Pending.table_len (Pending.set_entries (delete r (Pending.entries p)) p) <= Pending.table_len p.
Proof.
  unfold Pending.table_len. cbn. destruct (Pending.entries p !! r) eqn:He.
  - rewrite (map_size_delete_Some r) by eauto. lia.
  - rewrite delete_id; [lia|done].
Qed.

Lemma shrinks_same (p p' : Pending.State) :
  Pending.entries p' = Pending.entries p -> Pending.limit p' = Pending.limit p ->
  Pending.limit p' = Pending.limit p /\ Pending.table_len p' <= Pending.table_len p.
Proof. unfold Pending.table_len. by intros -> ->. Qed.
Lemma remove_shrinks r : shrinks (Pending.remove r).
Proof. intros p. split; [done|]. cbn. apply table_len_delete. Qed.
Lemma take_checked_shrinks r source a : shrinks (Pending.take_checked r source a).
Proof.
  intros p. unfold take_checked. mrun. destruct (Pending.entries p !! r); [|by apply shrinks_same].
  destruct (negb _ || negb _); [by apply shrinks_same|]. apply remove_shrinks.
Qed.
Lemma promise_new_shrinks : shrinks Promise_new.
Proof. intros p. by apply shrinks_same. Qed.
Lemma pending_complete_shrinks a r : shrinks (Pending.complete a r).
Proof.
  intros p. unfold Pending.complete, deref. mrun. destruct (promises p !! a) as [v|]; mrun; [|by apply shrinks_same].
  destruct (promise_result v); mrun; [by apply shrinks_same|].
  destruct (promise_done v); mrun; [by apply shrinks_same|].
  destruct (promise_waker v); by apply shrinks_same.
Qed.
Lemma poll_shrinks a w : shrinks (Pending.poll a w).
Proof.
  intros p. unfold Pending.poll, deref. mrun. destruct (promises p !! a) as [v|]; mrun; [|by apply shrinks_same].
  destruct (promise_result v); mrun; by apply shrinks_same.
Qed.
Lemma drain_shrinks : shrinks Pending.drain.
Proof.
  intros p. split; [done|]. change (Z.of_nat (size (∅ : gmap RequestId PendingEntry)) <= Pending.table_len p).
  rewrite map_size_empty. unfold Pending.table_len. lia.
Qed.
Lemma shrinks_bind {A B} (m : M Pending.State RuntimeError A) (k : A -> M Pending.State RuntimeError B) :
  shrinks m -> (forall a, shrinks (k a)) -> shrinks (m ≫= k).
Proof.
  intros Hm Hk p. destruct (Hm p) as [Hl Hn]. unfold mbind, M_bind. destruct (m p) as [[a|e] p1]; [|done].
  cbn [snd] in Hl, Hn. destruct (Hk a p1) as [Hl1 Hn1]. split; [congruence|lia].
Qed.
Lemma shrinks_ret {A} (a : A) : shrinks (mret a).
Proof. intros p. by apply shrinks_same. Qed.
Lemma remove_all_shrinks l : shrinks (remove_all l).
Proof.
  induction l as [|r l IH]; [apply shrinks_ret|].
  apply shrinks_bind; [apply remove_shrinks|intros x]. apply shrinks_bind; [done|intros; apply shrinks_ret].
Qed.
Lemma expired_shrinks t : shrinks (Pending.expired t).
Proof.
  intros p. unfold expired. mrun. apply remove_all_shrinks.
Qed.


Lemma bounded_objects {A} (m : M ObjectService RuntimeError A) : upholds bounded (on_objects m).
Proof.
  apply upholds_part. intros s Hs. unfold pwp. by destruct (m (objects s)) as [[a|[e|]] p]; try apply (bounded_kept s).
Qed.
Lemma bounded_pools {A} (m : M DomainRegistry RuntimeError A) : upholds bounded (on_pools m).
Proof.
  apply upholds_part. intros s Hs. unfold pwp. by destruct (m (pools s)) as [[a|[e|]] p]; try apply (bounded_kept s).
Qed.
Lemma bounded_net {A} (m : M Net TransportError A) : upholds bounded (on_net m).
Proof.
  apply upholds_part. intros s Hs. unfold pwp. by destruct (m (net s)) as [[a|[e|]] p]; try apply (bounded_kept s).
Qed.

Lemma part_pwp {P E A} (get : Runtime -> P) put (to_error : E -> RuntimeError) (m : M P E A) s :
  pwp (on_part get put to_error m) (fun _ s' => exists p, s' = put p s) (fun _ s' => exists p, s' = put p s) s.
Proof. unfold pwp, on_part. destruct (m (get s)) as [[a|[e|]] p]; eauto. Qed.

Lemma map_len_insert `{Countable K} {A} (m : gmap K A) k x : Objects.map_len (<[k := x]> m) <= Objects.map_len m + 1.
Proof.
  unfold Objects.map_len. destruct (m !! k) eqn:Hk.
  - rewrite map_size_insert_Some by eauto. lia.
  - rewrite map_size_insert_None by done. lia.
Qed.
Lemma map_len_delete `{Countable K} {A} (m : gmap K A) k : Objects.map_len (delete k m) <= Objects.map_len m.
Proof.
  unfold Objects.map_len. destruct (m !! k) eqn:Hk.
  - rewrite (map_size_delete_Some k) by eauto. lia.
  - rewrite delete_id by done. lia.
Qed.

(** The limits are [usize]s. *)
Hypothesis limits_usize :
  0 <= max_pending_calls limits /\ 0 <= max_dedup_entries limits /\
  0 <= max_dedup_bytes limits <= usize_max /\ 0 <= max_action_queue_per_domain limits.

Lemma bounded_dedup {A} (m : M DedupTable RuntimeError A) o :
  (forall d, (m d).2 = step d o) -> upholds bounded (on_dedup m).
Proof.
  intros Hm s Hs. destruct Hs as (B1 & B2 & B3 & B4 & B5 & B6 & B7 & B8 & B9 & B10 & B11).
  destruct (step_inv (dedup s) o B9) as (Hi & (L1 & L2 & _) & _); [lia|]. rewrite <- Hm in Hi, L1, L2.
  unfold pwp, on_dedup, on_part. destruct (m (dedup s)) as [[a|[e|]] d]; cbn [snd] in *; try done;
    (unfold bounded; split_and!; try done; cbn; congruence).
Qed.

Lemma payload_bytes_shift p n t : payload_bytes t p = Some n -> t <= n.
Proof.
  revert t. induction p as [|x p IH]; intros t; cbn; [intros [= ->]; lia|].
  destruct (checked_add _ _ _) as [t'|] eqn:Ht; [|done]. apply checked_add_some in Ht as [-> _].
  intros Hp. apply IH in Hp. pose proof (len_nonneg x). lia.
Qed.

Lemma bytes_of_app q r : bytes_of (q ++ [r]) = bytes_of q + resp_bytes r.
Proof. unfold bytes_of. induction q as [|x q IH]; cbn [foldr app]; lia. Qed.

Lemma bounded_queue_response destination message trace cache :
  upholds bounded (queue_response destination message trace cache : DM unit).
Proof.
  intros s Hs. unfold queue_response, pwp. mrun.
  destruct (payload_bytes 0 (payload message)) as [n|] eqn:Hn; mrun; [|done].
  destruct (checked_add usize_max (response_bytes s) n) as [b|] eqn:Hb; mrun; [|done].
  apply checked_add_some in Hb as [-> _]. pose proof (payload_bytes_shift _ _ _ Hn).
  destruct (Z.leb_spec (max_dedup_entries limits) (len (responses s))); mrun; [done|].
  destruct (Z.ltb_spec (max_dedup_bytes limits) (response_bytes s + n)); mrun; [done|].
  destruct Hs as (B1 & B2 & B3 & B4 & B5). unfold bounded. cbn [responses response_bytes set_responses set_response_bytes].
  rewrite bytes_of_app, B1, len_app. cbn [resp_bytes]. change (len [_]) with 1.
  split_and!; try apply B5; try lia. apply Forall_app. split; [done|]. by apply Forall_singleton.
Qed.

Lemma ticket_limit_le c : 0 <= ticket_limit c <= ticket_limit Channel_Control.
Proof. unfold ticket_limit, saturating_add. zunfold. destruct c; lia. Qed.

Lemma bounded_next_message : upholds bounded (next_message : DM MessageId).
Proof.
  unfold next_message. repeat upholds_step. by apply bounded_modify.
Qed.

Lemma bounded_send destination message purpose trace :
  upholds bounded (send destination message purpose trace : DM SendTicket).
Proof.
  unfold send. apply upholds_bind; [apply bounded_next_message|intros id]. apply upholds_bind; [apply upholds_lift|intros _].
  intros s Hs. apply pwp_bind. change (pwp (gets tickets) ?Q ?R s) with (Q (tickets s) s). cbv beta.
  match goal with |- context [ticket_limit ?x] => set (c := x) in *; pose proof (ticket_limit_le c) end.
  destruct (Z.leb_spec (ticket_limit c) (Objects.map_len (tickets s))); [done|].
  apply pwp_bind. eapply pwp_mono; [apply part_pwp| |].
  - intros t s' [n ->]. destruct Hs as (B1 & B2 & B3 & B4 & B5 & B6 & B7 & B8 & B9 & B10 & B11). unfold pwp, count. mrun.
    unfold bounded. split_and!; try done.
    change (Objects.map_len (<[t := purpose]> (tickets s)) <= ticket_limit Channel_Control).
    pose proof (map_len_insert (tickets s) t purpose). lia.
  - intros e s' [n ->]. by apply (bounded_kept s).
Qed.

Lemma bounded_complete_op message t :
  upholds bounded (on_dedup (Dedup.complete message t)).
Proof. by apply (bounded_dedup _ (Op_complete message t)). Qed.

Lemma bounded_now : upholds bounded (Driver.now : DM Z).
Proof. unfold Driver.now. repeat upholds_step. by apply bounded_modify. Qed.

(** Taking the first response, and putting it back. *)
Definition popped (rest : list QueuedResponse) (r : QueuedResponse) s : Runtime :=
  set_response_bytes (saturating_sub (response_bytes s) (resp_bytes r)) (set_responses rest s).

Lemma bounded_popped r rest s : responses s = r :: rest -> bounded s -> bounded (popped rest r s).
Proof.
  intros Hq (B1 & B2 & B3 & B4 & B5). rewrite Hq in *. rewrite len_cons in B3. apply Forall_cons in B2 as [Hr B2].
  pose proof (payload_bytes_shift _ _ _ Hr). change (bytes_of (r :: rest)) with (resp_bytes r + bytes_of rest) in B1.
  assert (0 <= bytes_of rest).
  { clear B1 B3 Hq. induction B2 as [|x l Hx _ IH]; [done|]. apply payload_bytes_shift in Hx.
    change (0 <= resp_bytes x + bytes_of l). lia. }
  unfold bounded, popped, saturating_sub. cbn [responses response_bytes set_responses set_response_bytes].
  split_and!; try apply B5; try lia; done.
Qed.

(** What [send] leaves of the queue. *)
Lemma send_queue destination message purpose trace s :
  let same := fun s' => responses s' = responses s /\ response_bytes s' = response_bytes s in
  pwp (send destination message purpose trace) (fun _ => same) (fun _ => same) s.
Proof.
  intros same. assert (Hu : upholds same (send destination message purpose trace : DM SendTicket)); [|by apply Hu].
  unfold send, next_message, count. repeat upholds_step; try (by apply upholds_modify).
  apply upholds_part. intros s' Hs'. unfold pwp. by destruct (try_send _ (net s')) as [[?|[?|]] ?].
Qed.

Lemma pwp_outcome {A} (m : DM A) (Q : result RuntimeError A -> Runtime -> Prop) R s :
  pwp m (fun a => Q (Ok a)) (fun e => Q (Err e)) s -> pwp (outcome m) Q R s.
Proof. unfold pwp, outcome. by destruct (m s) as [[?|[?|]] ?]. Qed.

Lemma bounded_put_back r rest s s' :
  bounded s -> responses s = r :: rest -> bounded s' ->
  responses s' = rest -> response_bytes s' = saturating_sub (response_bytes s) (resp_bytes r) ->
  bounded (set_responses (r :: responses s')
    (set_response_bytes (saturating_add usize_max (response_bytes s') (resp_bytes r)) s')).
Proof.
  intros (A1 & A2 & A3 & A4 & _) Hq (B1 & B2 & B3 & B4 & B5) Hr Hb. rewrite Hq in *.
  assert (Hsum : saturating_add usize_max (response_bytes s') (resp_bytes r) = response_bytes s).
  { rewrite Hb. unfold saturating_add, saturating_sub. change (bytes_of (r :: rest)) with (resp_bytes r + bytes_of rest) in A1.
    rewrite B1, Hr in Hb. unfold saturating_sub in Hb. apply Forall_cons in A2 as [A2 _]. apply payload_bytes_shift in A2.
    rewrite Hr in B2. assert (0 <= bytes_of rest); [|lia].
    clear -B2. induction B2 as [|x l Hx _ IH]; [done|]. apply payload_bytes_shift in Hx.
    change (0 <= resp_bytes x + bytes_of l). lia. }
  rewrite Hsum, Hr. unfold bounded. cbn [responses response_bytes set_responses set_response_bytes].
  by split_and!; try apply B5.
Qed.

Lemma bounded_drain_responses n : upholds bounded (drain_responses n : DM nat).
Proof.
  induction n as [|n IH]; [apply upholds_ret|]. intros s Hs. cbn [drain_responses].
  apply pwp_bind, pwp_gets. destruct (responses s) as [|r rest] eqn:Hq; [done|].
  apply pwp_bind, pwp_modify, pwp_bind, pwp_modify. fold (popped rest r s).
  pose proof (bounded_popped _ _ _ Hq Hs) as Hp.
  apply pwp_bind, pwp_outcome. eapply pwp_mono; [apply pwp_and; [by apply bounded_send|apply send_queue]| |].
  - intros t s' [Hb _]. revert s' Hb. change (upholds bounded (mwhen (resp_cache r) (t ← Driver.now; on_dedup (Dedup.complete (resp_message r) t));; n ← drain_responses n; mret (S n) : DM nat)).
    repeat upholds_step; [apply bounded_now|apply bounded_complete_op|done].
  - intros e s' [Hb [Hr1 Hr2]]. destruct (must_wait e); [|done]. unfold pwp. mrun.
    exact (bounded_put_back r rest s s' Hs Hq Hb Hr1 Hr2).
Qed.

(** The other operations do nothing else. *)
Lemma bounded_local_send r : upholds bounded (local_send r : DM unit).
Proof.
  intros s Hs. unfold local_send. apply pwp_bind, pwp_gets.
  destruct (Z.leb_spec (max_pending_calls limits) (len (local_queue s))); [done|]. apply pwp_modify.
  destruct Hs as (B1 & B2 & B3 & B4 & B5 & B6 & B7). unfold bounded. split_and!; try done; try apply B7.
  cbn [local_queue set_local_queue]. rewrite len_app. change (len [r]) with 1. lia.
Qed.

Lemma bounded_insert r e : upholds bounded (on_pending (Pending.insert r e) : DM unit).
Proof.
  apply upholds_part. intros s Hs. unfold pwp, Pending.insert. mrun.
  destruct (Z.leb_spec (Pending.limit (pending s)) (Z.of_nat (size (Pending.entries (pending s))))); mrun; [by apply (bounded_kept s)|].
  destruct Hs as (B1 & B2 & B3 & B4 & B5 & B6 & B7 & B8 & B9). unfold bounded. split_and!; try done; try apply B9.
  change (Objects.map_len (<[r := e]> (Pending.entries (pending s))) <= max_pending_calls limits).
  pose proof (map_len_insert (Pending.entries (pending s)) r e). unfold Objects.map_len in *. lia.
Qed.

#[local] Hint Resolve bounded_objects bounded_pools bounded_net bounded_queue_response bounded_next_message
  bounded_send bounded_complete_op bounded_now bounded_drain_responses bounded_local_send bounded_insert : bounded.
#[local] Hint Resolve remove_shrinks take_checked_shrinks promise_new_shrinks pending_complete_shrinks poll_shrinks
  drain_shrinks expired_shrinks : bounded.
#[local] Hint Extern 1 (upholds bounded (on_pending _)) => apply bounded_pending : bounded.
#[local] Hint Extern 1 (upholds bounded (modify _)) => (by apply bounded_modify) : bounded.

Ltac keep_bounded :=
  repeat first
    [ solve [eauto with bounded] | upholds_step
    | apply upholds_outcome | apply upholds_or_else; [|intros ?] | apply upholds_ignore ].

Lemma bounded_count f : upholds bounded (count f : DM unit).
Proof. unfold count. keep_bounded. Qed.
Lemma bounded_raise_flag t : upholds bounded (raise_flag t : DM unit).
Proof. unfold raise_flag. keep_bounded. Qed.
#[local] Hint Resolve bounded_count bounded_raise_flag : bounded.

Lemma bounded_send_cancel r e : upholds bounded (send_cancel r e : DM unit).
Proof. unfold send_cancel. keep_bounded. Qed.
Lemma bounded_raise_entry e : upholds bounded (raise_entry e : DM unit).
Proof. unfold raise_entry. keep_bounded. Qed.
#[local] Hint Resolve bounded_send_cancel bounded_raise_entry : bounded.

Lemma bounded_cancel r : upholds bounded (Driver.cancel r : DM unit).
Proof. unfold Driver.cancel. keep_bounded. Qed.
Lemma bounded_next_request : upholds bounded (next_request : DM RequestId).
Proof. unfold next_request. keep_bounded. Qed.
Lemma bounded_ensure_running : upholds bounded (ensure_running : DM unit).
Proof. unfold ensure_running. keep_bounded. Qed.
#[local] Hint Resolve bounded_cancel bounded_next_request bounded_ensure_running : bounded.

Lemma bounded_spawn_inner place a input options r : upholds bounded (spawn_inner place a input options r : DM RemoteFuture).
Proof. unfold spawn_inner, new_client_flag. keep_bounded. Qed.
Lemma bounded_object_control o t l locality a : upholds bounded (object_control o t l locality a : DM unit).
Proof. unfold object_control. keep_bounded. Qed.
#[local] Hint Resolve bounded_spawn_inner bounded_object_control : bounded.

Lemma bounded_begin r a d t : upholds bounded (on_dedup (begin r a d t) : DM DedupDisposition).
Proof. by apply (bounded_dedup _ (Op_begin r a d t)). Qed.
Lemma bounded_release r a d : upholds bounded (on_dedup (release_redirect r a d) : DM unit).
Proof. by apply (bounded_dedup _ (Op_release_redirect r a d)). Qed.
Lemma bounded_dedup_cancel r a d t : upholds bounded (on_dedup (Dedup.cancel r a d t) : DM unit).
Proof. by apply (bounded_dedup _ (Op_cancel r a d t)). Qed.
Lemma bounded_dedup_expire t : upholds bounded (on_dedup (Dedup.expire t) : DM unit).
Proof. by apply (bounded_dedup _ (Op_expire t)). Qed.
Lemma bounded_drop_ticket t : upholds bounded (modify (fun s => set_tickets (delete t (tickets s)) s) : DM unit).
Proof.
  apply upholds_modify. intros s (B1 & B2 & B3 & B4 & B5 & B6). unfold bounded. split_and!; try done; try apply B6.
  pose proof (map_len_delete (tickets s) t). change (Objects.map_len (delete t (tickets s)) <= ticket_limit Channel_Control). lia.
Qed.
#[local] Hint Resolve bounded_begin bounded_release bounded_dedup_cancel bounded_dedup_expire bounded_drop_ticket : bounded.

(** Leases. *)
Lemma bounded_deactivate a : upholds bounded (deactivate a : DM unit).
Proof. unfold deactivate, with_lease, release_object. keep_bounded. Qed.
#[local] Hint Resolve bounded_deactivate : bounded.
Lemma bounded_attach o t l : upholds bounded (attach_object o t l : DM Z).
Proof. unfold attach_object, attach, clone_lease, with_lease. keep_bounded. Qed.
Lemma bounded_drop_lease a : upholds bounded (drop_lease a : DM unit).
Proof. unfold drop_lease, with_lease. keep_bounded. Qed.
Lemma bounded_due t : upholds bounded (due t : DM (list LocalLease)).
Proof. unfold due, with_lease. keep_bounded. Qed.
Lemma bounded_lease_renew l : upholds bounded (lease_renew l : DM unit).
Proof. unfold lease_renew, renew_object. keep_bounded. Qed.
#[local] Hint Resolve bounded_attach bounded_drop_lease bounded_due bounded_lease_renew : bounded.

(** Messages and completions. *)
Lemma bounded_complete_promise e r : upholds bounded (complete_promise e r : DM unit).
Proof. unfold complete_promise. keep_bounded. Qed.
#[local] Hint Resolve bounded_complete_promise : bounded.
Lemma bounded_complete_pending source m f : upholds bounded (complete_pending source m f : DM unit).
Proof. unfold complete_pending. keep_bounded. Qed.
Lemma bounded_expire_pending : upholds bounded (expire_pending : DM unit).
Proof. unfold expire_pending. keep_bounded. Qed.
Lemma bounded_fail e : upholds bounded (fail e : DM unit).
Proof. unfold fail, store_state. keep_bounded. Qed.
Lemma bounded_submit_admitted job : upholds bounded (submit_admitted job : DM unit).
Proof. unfold submit_admitted, roll_back. keep_bounded. Qed.
Lemma bounded_admit job : upholds bounded (admit_job job : DM (option ActionJob)).
Proof. unfold admit_job. keep_bounded. Qed.
#[local] Hint Resolve bounded_complete_pending bounded_expire_pending bounded_fail bounded_submit_admitted
  bounded_admit : bounded.
Lemma bounded_send_and_cache_moved d m o l t : upholds bounded (send_and_cache_moved d m o l t : DM unit).
Proof. unfold send_and_cache_moved. keep_bounded. Qed.
#[local] Hint Resolve bounded_send_and_cache_moved : bounded.
Lemma bounded_start_request source trace m token : upholds bounded (start_request source trace m token : DM unit).
Proof. unfold start_request, send_and_cache_failure. keep_bounded. Qed.
#[local] Hint Resolve bounded_start_request : bounded.
Lemma bounded_handle_request source trace m : upholds bounded (handle_request source trace m : DM unit).
Proof. unfold handle_request, send_failure. keep_bounded. Qed.
#[local] Hint Resolve bounded_handle_request : bounded.
Lemma bounded_handle_message source trace m : upholds bounded (handle_message source trace m : DM unit).
Proof. unfold handle_message. keep_bounded. Qed.
#[local] Hint Resolve bounded_handle_message : bounded.
Lemma bounded_handle_transport_event e : upholds bounded (handle_transport_event e : DM unit).
Proof. unfold handle_transport_event. keep_bounded. Qed.
Lemma bounded_dispatch_local r : upholds bounded (dispatch_local r : DM unit).
Proof. unfold dispatch_local. keep_bounded. Qed.
Lemma bounded_handle_completion c : upholds bounded (handle_completion c : DM unit).
Proof. unfold handle_completion. keep_bounded. Qed.
#[local] Hint Resolve bounded_handle_transport_event bounded_dispatch_local bounded_handle_completion : bounded.

(** The driver. *)
Lemma bounded_send_retirements l : upholds bounded (send_retirements l : DM unit).
Proof. induction l as [|r l IH]; cbn [send_retirements]; unfold send_retirement; keep_bounded. Qed.
Lemma bounded_handle_completions n : upholds bounded (handle_completions n : DM nat).
Proof. induction n as [|n IH]; cbn [handle_completions]; unfold or_fail; keep_bounded. Qed.
Lemma bounded_take_local rest s : is_Some (local_queue s !! 0%nat) -> rest = tail (local_queue s) -> bounded s ->
  bounded (set_local_queue rest s).
Proof.
  intros Hq -> (B1 & B2 & B3 & B4 & B5 & B6 & B7). unfold bounded. split_and!; try done; try apply B7.
  cbn [local_queue set_local_queue]. destruct (local_queue s) as [|x l]; [done|]. rewrite len_cons in B6. cbn [tail]. lia.
Qed.
Lemma bounded_dispatch_locals n : upholds bounded (dispatch_locals n : DM nat).
Proof.
  induction n as [|n IH]; cbn [dispatch_locals]; [apply upholds_ret|]. intros s Hs. apply pwp_bind, pwp_gets.
  destruct (local_queue s) as [|r rest] eqn:Hq; [done|]. apply pwp_bind, pwp_modify.
  assert (Hb : bounded (set_local_queue rest s)) by (apply bounded_take_local; [by rewrite Hq|by rewrite Hq|done]).
  revert Hb. generalize (set_local_queue rest s). clear s Hs Hq.
  change (upholds bounded (dispatch_local r;; m ← dispatch_locals n; mret (S m) : DM nat)). keep_bounded.
Qed.
#[local] Hint Resolve bounded_send_retirements bounded_handle_completions bounded_dispatch_locals : bounded.

Lemma bounded_progress n : upholds bounded (progress n : DM RuntimeProgress).
Proof. unfold progress, or_fail. keep_bounded. Qed.
#[local] Hint Resolve bounded_progress : bounded.

Lemma bounded_work i w r : upholds bounded (work i w r : DM unit).
Proof. apply bounded_modify. intros s. by destruct (worker_step i w r (pools s)). Qed.
Lemma bounded_serve c : upholds bounded (serve c : DM unit).
Proof.
  apply upholds_part. intros s Hs. unfold pwp. by destruct (perform c (objects s)) as [[a|[e|]] p]; try apply (bounded_kept s).
Qed.
#[local] Hint Resolve bounded_work bounded_serve : bounded.

Lemma bounded_act c : upholds bounded (act c).
Proof.
  destruct c; cbn [act]; unfold next_object, clone_lease, with_lease, fail_committed_migration, store_state; keep_bounded.
Qed.

Lemma bounded_new n d o : bounded (Runtime_new n d o).
Proof.
  pose proof limits_usize as Hl. pose proof (ticket_limit_le Channel_Control) as Ht.
  unfold bounded. split_and!; try done; try apply Hl; try apply Ht.
  apply table_new_inv. cbn. lia.
Qed.

Lemma bounded_after s0 s : bounded s0 -> after_calls s0 s -> bounded s.
Proof.
  intros H0. induction 1 as [|s c r s' _ IH Ha Hr]; [done|]. pose proof (bounded_act c s IH) as Hb.
  unfold pwp in Hb. rewrite Ha in Hb. by destruct r as [|[]].
Qed.

(** C9: A runtime stays within its limits whatever it is asked to do: after any
    calls of the driver and its clients with any arguments, any steps of workers,
    any calls of the object service and anything the transport and the peers do,
    the queue of responses holds at most [max_dedup_entries] responses, the bytes
    it accounts are exactly those of their payloads and at most [max_dedup_bytes],
    and the tables of tickets, of calls, of local requests and of requests are
    within the limits of theirs. *)
Theorem driver_within_limits n d o s :
  after_calls (Runtime_new n d o) s ->
  len (responses s) <= max_dedup_entries limits /\
  response_bytes s = bytes_of (responses s) /\ response_bytes s <= max_dedup_bytes limits /\
  Forall (fun r => payload_bytes 0 (payload (resp_message r)) = Some (resp_bytes r)) (responses s) /\
  Objects.map_len (tickets s) <= ticket_limit Channel_Control /\
  len (local_queue s) <= max_pending_calls limits /\
  Pending.table_len (pending s) <= max_pending_calls limits /\
  Dedup.table_len (dedup s) <= max_dedup_entries limits /\
  Dedup.retained_bytes (dedup s) <= max_dedup_bytes limits.
Proof.
  intros Hs. pose proof limits_usize as Hl.
  destruct (bounded_after _ _ (bounded_new n d o) Hs) as (B1 & B2 & B3 & B4 & B5 & B6 & B7 & B8 & [[D1 _ D3 _] _] & B10 & B11).
  rewrite B10 in D1. rewrite B11 in D3. split_and!; try done. lia.
Qed.

End Runs.

(** ** Examples *)

(** Calls in a row that succeed. *)
Fixpoint acts (calls : list (driver_call (Net := ExNet))) (s : RuntimeState.Runtime ExNet) :
    option (RuntimeState.Runtime ExNet) :=
  match calls with
  | [] => Some s
  | c :: calls => match act c s with (Ok _, s) => acts calls s | _ => None end
  end.

(** What is left by calls that succeed. *)
Definition acted (calls : list (driver_call (Net := ExNet))) (s : RuntimeState.Runtime ExNet) : RuntimeState.Runtime ExNet :=
  default s (acts calls s).
Lemma acts_some calls s : bool_decide (is_Some (acts calls s)) = true -> acts calls s = Some (acted calls s).
Proof. intros [y Hy]%bool_decide_eq_true. unfold acted. by rewrite Hy. Qed.

Lemma acts_after calls : forall s0 s s', after_calls s0 s -> acts calls s = Some s' -> after_calls s0 s'.
Proof.
  induction calls as [|c calls IH]; cbn [acts]; intros s0 s s' Hs Ha; [congruence|].
  destruct (act c s) as [[a|] s1] eqn:Hc; [|done].
  eapply IH; [|exact Ha]. by eapply After_call.
Qed.

(** A request of locality 1 for [ex_action] arrives, runs, and is answered. *)
Definition ex_ask (n : Z) : RuntimeMessage :=
  mkRuntimeMessage Msg_Request (mkRequestId 1 n) 41 0 1000 [to_le_bytes 8 5].
Definition ex_parcel (m : RuntimeMessage) : Parcel :=
  mkParcel 1 9 Channel_Action ParcelKind_Data 1 0 None (encode m).
Definition ex_runtime : RuntimeState.Runtime ExNet :=
  Runtime_new (mkExNet [Incoming (ex_parcel (ex_ask 1))] [] 3) ex_start (ex_service 0).
Definition ex_working : RuntimeState.Runtime ExNet :=
  acted (Do_progress 8 :: replicate 11 (Do_worker 0 0 0)) ex_runtime.

Example ex_answered :
  option_map (fun s => (map (fun p => (Protocol.destination p, RuntimeWire.decode p)) (outbox (net s)), responses s, tasks (pools s)))
    (acts [Do_progress 8] ex_working) =
  Some ([(1, Ok (mkRuntimeMessage Msg_Success (mkRequestId 1 1) 41 0 0 [[Byte.x61]]))], [], []).
Proof. vm_compute. reflexivity. Qed.

Lemma ex_working_reached : after_calls ex_runtime ex_working.
Proof.
  apply (acts_after (Do_progress 8 :: replicate 11 (Do_worker 0 0 0)) ex_runtime ex_runtime); [constructor|].
  apply acts_some. vm_compute. reflexivity.
Qed.

Lemma driver_within_limits_witness :
  len (local_queue ex_working) <= 4 /\ Dedup.table_len (dedup ex_working) <= 8.
Proof.
  assert (Hl : 0 <= 4 /\ 0 <= 8 /\ 0 <= 4096 <= usize_max /\ 0 <= 2) by (vm_compute; intuition discriminate).
  pose proof (driver_within_limits Hl _ _ _ _ ex_working_reached) as (_ & _ & _ & _ & _ & Hq & _ & Hd & _).
  split; [exact Hq|exact Hd].
Defined.
