(* ===== verification/DriverRequests.v ===== *)
(** * DriverRequests: what becomes of the requests a runtime accepts

    A request that the table of requests records as running is in exactly one
    place: in the mailbox of an object, with the workers of a domain, among the
    completions, or among the responses to be sent and recorded.  The invariant
    is an equation of multisets between the table and these places; it ties
    [Dedup], [Objects], [Domain] and the driver together. *)
From S2P Require Import Prelude Text Protocol Transport Error RuntimeTypes RuntimeWire Dedup Action Pending Domain ObjectWire ObjectRegistry Objects Migration ObjectRuns ObjectWorld RuntimeState Driver DriverRuns.

(** ** The mailboxes of a service *)

Section Mailboxes.
Context `{AnyTypes}.
Implicit Types (o : ObjectService).

Definition mails o : list ActionJob := map_to_list (Objects.entries o) ≫= fun p => queue (admission p.2).

Lemma bind_ext_in {A B} (f g : A -> list B) l : (forall x, x ∈ l -> f x = g x) -> l ≫= f = l ≫= g.
Proof.
  induction l as [|x l IH]; intros Hf; [done|]. rewrite !bind_cons, Hf by by left. f_equal. apply IH.
  intros y Hy. apply Hf. by right.
Qed.

(** A function that differs from another at one element of a list without
    repetition. *)
Lemma bind_at {A B} `{EqDecision A} (f g : A -> list B) l k d :
  NoDup l -> k ∈ l -> g k ≡ₚ d ++ f k -> (forall x, x <> k -> g x = f x) -> l ≫= g ≡ₚ d ++ (l ≫= f).
Proof.
  intros Hnd Hk Hgk Hne. destruct (list_elem_of_split _ _ Hk) as (l1 & l2 & ->).
  apply NoDup_app in Hnd as (H1 & H2 & H3). apply NoDup_cons in H3 as [H4 H3].
  rewrite !bind_app, !bind_cons, Hgk, (bind_ext_in g f l1), (bind_ext_in g f l2); [solve_Permutation|..].
  - intros x Hx. apply Hne. by intros ->.
  - intros x Hx. apply Hne. intros ->. apply (H2 k Hx). by left.
Qed.

Lemma mails_mailbox o (X : list ObjectId) :
  NoDup X -> (forall k, is_Some (Objects.entries o !! k) -> k ∈ X) -> mails o ≡ₚ X ≫= mailbox o.
Proof.
  unfold mails, mailbox. generalize (Objects.entries o) as m. clear o. intros m HX.
  induction m as [|k e m Hk IH] using map_ind; intros Hdom.
  - rewrite map_to_list_empty. clear. induction X as [|x X IH]; [done|]. by rewrite bind_cons, lookup_empty.
  - rewrite map_to_list_insert by done. rewrite bind_cons, IH.
    + symmetry. apply (bind_at _ _ X k (queue (admission e))); [done|..].
      * apply Hdom. rewrite lookup_insert_eq. eauto.
      * by rewrite lookup_insert_eq, Hk, app_nil_r.
      * intros x Hx. by rewrite lookup_insert_ne.
    + intros j Hj. apply Hdom. rewrite lookup_insert_ne; [done|]. intros ->. rewrite Hk in Hj. by destruct Hj.
Qed.

(** The keys of both services, without repetition. *)
Definition both o o' : list ObjectId := elements (dom (Objects.entries o) ∪ dom (Objects.entries o')).

Lemma mails_both o o' : mails o ≡ₚ both o o' ≫= mailbox o /\ mails o' ≡ₚ both o o' ≫= mailbox o'.
Proof.
  split; apply mails_mailbox; try apply NoDup_elements; intros k Hk%elem_of_dom; apply elem_of_elements; set_solver.
Qed.

Lemma mailbox_both o o' k j : j ∈ mailbox o k \/ j ∈ mailbox o' k -> k ∈ both o o'.
Proof.
  intros Hj. apply elem_of_elements, elem_of_union. unfold mailbox in Hj. rewrite !elem_of_dom.
  destruct (Objects.entries o !! k); [by left|]. right. destruct (Objects.entries o' !! k); [done|].
  by destruct Hj as [Hj%elem_of_nil|Hj%elem_of_nil].
Qed.

Lemma mails_same o o' : (forall k, mailbox o' k = mailbox o k) -> mails o' ≡ₚ mails o.
Proof. intros Heq. destruct (mails_both o o') as [-> ->]. by rewrite (bind_ext_in _ (mailbox o)). Qed.

(** The jobs leave their mailboxes. *)
Lemma mails_delivered o o' jobs :
  (forall k, mailbox o k = mail k jobs ++ mailbox o' k) -> Forall (fun j => exists k, mailbox_job k j) jobs ->
  mails o ≡ₚ jobs ++ mails o'.
Proof.
  intros Heq Hjobs. destruct (mails_both o o') as [-> ->]. pose proof (NoDup_elements (dom (Objects.entries o) ∪ dom (Objects.entries o'))) as Hnd.
  assert (Hin : Forall (fun j => exists k, mailbox_job k j /\ k ∈ both o o') jobs).
  { rewrite Forall_forall in Hjobs |- *. intros j Hj. destruct (Hjobs j Hj) as [k [r Hk]]. exists k. split; [by exists r|].
    apply (mailbox_both _ _ _ j). left. rewrite Heq. apply elem_of_app. left. apply list_elem_of_filter. split; [|done].
    unfold on_object. rewrite Hk. cbn. by rewrite bool_decide_eq_true_2. }
  fold (both o o') in Hnd. revert Hin Hnd. generalize (both o o'). intros X Hin Hnd.
  rewrite (bind_ext_in (mailbox o) (fun k => mail k jobs ++ mailbox o' k)) by done. clear Heq Hjobs.
  induction Hin as [|j jobs (k & [r Hk] & HkX) _ IH]; [done|].
  rewrite (bind_at (fun k => mail k jobs ++ mailbox o' k) _ X k [j]); [by rewrite IH|done|done|..].
  - unfold mail. rewrite filter_cons_True; [done|]. unfold on_object. rewrite Hk. cbn. by rewrite bool_decide_eq_true_2.
  - intros x Hx. unfold mail. rewrite filter_cons_False; [done|]. unfold on_object. rewrite Hk. cbn.
    by rewrite bool_decide_eq_false_2.
Qed.

(** A job joins a mailbox. *)
Lemma mails_queued o o' k j run :
  (forall i, mailbox o i = waiting run i) -> (forall i, mailbox o' i = waiting (queued_call k j run) i) ->
  mails o' ≡ₚ j :: mails o.
Proof.
  intros Ho Ho'. cbn [queued_call waiting] in Ho'. destruct (mails_both o o') as [-> ->].
  assert (Hk : mailbox o' k = mailbox o k ++ [j]) by (by rewrite Ho, Ho', decide_True).
  apply (bind_at (mailbox o) (mailbox o') _ k [j]).
  - apply NoDup_elements.
  - apply (mailbox_both _ _ _ j). right. rewrite Hk. apply elem_of_app. right. by left.
  - rewrite Hk. solve_Permutation.
  - intros x Hx. by rewrite Ho, Ho', decide_False by done.
Qed.
End Mailboxes.

(** ** Claims *)

(** The request, the action and the domain of something that will answer it. *)
Abbreviation Claim := (RequestId * ActionId * DomainId)%type.

(** The requests the table records as running. *)
Definition running_claim (p : RequestId * DedupState) : option Claim :=
  match p.2 with Dedup_Running a d _ => Some (p.1, a, d) | _ => None end.
Definition running_claims (d : DedupTable) : list Claim := omap running_claim (map_to_list (Dedup.entries d)).

Lemma running_claims_in d r a dm :
  (r, a, dm) ∈ running_claims d <-> exists t, Dedup.entries d !! r = Some (Dedup_Running a dm t).
Proof.
  unfold running_claims. rewrite list_elem_of_omap. split.
  - intros ([r' st] & Hin & Hc). apply elem_of_map_to_list in Hin. unfold running_claim in Hc. cbn in Hc.
    destruct st as [a' d' t| |]; [|done..]. injection Hc as -> -> ->. by exists t.
  - intros [t Ht]. exists (r, Dedup_Running a dm t). split; [by apply elem_of_map_to_list|done].
Qed.

Lemma running_claims_nodup d : NoDup (running_claims d).
Proof.
  unfold running_claims. pose proof (NoDup_fst_map_to_list (Dedup.entries d)) as Hnd. revert Hnd.
  induction (map_to_list (Dedup.entries d)) as [|[r st] l IH]; [constructor|].
  rewrite fmap_cons. intros [Hr Hl]%NoDup_cons. cbn. destruct st as [a dm t| |]; [|by apply IH..].
  cbn. apply NoDup_cons. split; [|by apply IH]. intros ([r' st] & Hin & Hc)%list_elem_of_omap. apply Hr.
  apply list_elem_of_fmap. exists (r', st). split; [|done]. unfold running_claim in Hc. cbn in Hc. by destruct st; simplify_eq.
Qed.

(** Tables with the same running entries. *)
Lemma running_claims_same d d' :
  (forall r a dm t, Dedup.entries d' !! r = Some (Dedup_Running a dm t) <-> Dedup.entries d !! r = Some (Dedup_Running a dm t)) ->
  running_claims d' ≡ₚ running_claims d.
Proof.
  intros Heq. apply NoDup_Permutation; [apply running_claims_nodup..|]. intros [[r a] dm].
  rewrite !running_claims_in. split; intros [t Ht]; exists t; by apply Heq.
Qed.

(** A request that starts to run, one that ends. *)
Lemma running_claims_begin d d' r a dm t :
  (forall r', r' <> r -> forall a dm t, Dedup.entries d' !! r' = Some (Dedup_Running a dm t) <->
     Dedup.entries d !! r' = Some (Dedup_Running a dm t)) ->
  (forall a dm t, Dedup.entries d !! r <> Some (Dedup_Running a dm t)) ->
  Dedup.entries d' !! r = Some (Dedup_Running a dm t) ->
  running_claims d' ≡ₚ (r, a, dm) :: running_claims d.
Proof.
  intros Heq Hno Hr. apply NoDup_Permutation; [apply running_claims_nodup| |].
  - apply NoDup_cons. split; [|apply running_claims_nodup]. intros [t' Ht']%running_claims_in. by apply Hno in Ht'.
  - intros [[r' a'] dm']. rewrite elem_of_cons, !running_claims_in. destruct (decide (r' = r)) as [->|Hne].
    + split; [|intros [[= -> ->]|[t' Ht']]; [eauto|by apply Hno in Ht']].
      intros [t' Ht']. left. congruence.
    + split; [intros [t' Ht']; right; exists t'; by apply Heq|].
      intros [[= -> _ _]|[t' Ht']]; [done|]. exists t'. by apply Heq.
Qed.

(** What the methods of the table do to its claims. *)
Section Table.
Implicit Types (d : DedupTable).

Lemma live_running_iff t st a dm n :
  live t st = Some (Dedup_Running a dm n) <-> st = Some (Dedup_Running a dm n).
Proof. apply live_running. Qed.

Lemma expire_claims t d : table_inv d -> running_claims (Dedup.expire t d).2 ≡ₚ running_claims d.
Proof.
  intros Hd. destruct (expire_table t d Hd) as (d1 & -> & _ & _ & _ & Hl). apply running_claims_same.
  intros r a dm n. by rewrite Hl, live_running.
Qed.

Lemma begin_claims r a dm t d :
  table_inv d ->
  match begin r a dm t d with
  | (Ok (Disp_New _), d') => running_claims d' ≡ₚ (r, a, dm) :: running_claims d
  | (_, d') => running_claims d' ≡ₚ running_claims d
  end.
Proof.
  intros Hd. destruct (begin_spec r a dm t d Hd) as (d1 & E & Hb). pose proof (expire_claims t d Hd) as Hc.
  destruct (expire_table t d Hd) as (d1' & E' & _ & _ & _ & Hl). rewrite E in E'. injection E' as <-.
  rewrite E in Hc. cbn [snd] in Hc. destruct (live t (Dedup.entries d !! r)) as [st|] eqn:Hlive.
  - destruct (same_target st a dm); rewrite Hb; [|done]. unfold disposition. destruct st as [| ? ? [[[] ?]|] | ]; done.
  - destruct (_ <=? _); [by rewrite Hb|]. destruct Hb as (d2 & -> & _ & _ & He & _). rewrite <- Hc.
    apply (running_claims_begin _ _ r a dm (next_token d)).
    + intros r' Hne a' dm' t'. by rewrite He, lookup_insert_ne.
    + intros a' dm' t' Hr. by rewrite Hl, Hlive in Hr.
    + rewrite He. apply lookup_insert_eq.
Qed.

Lemma release_claims r a dm d : table_inv d -> running_claims (release_redirect r a dm d).2 ≡ₚ running_claims d.
Proof.
  intros Hd. destruct (release_redirect_spec r a dm d Hd) as [[x ->]|(ret & ex & p & Hr & -> & _)]; [done|].
  apply running_claims_same. intros r' a' dm' t. cbn. rewrite lookup_delete_Some. split; [by intros [_ ?]|].
  intros Hr'. split; [|done]. intros <-. congruence.
Qed.

Lemma cancel_claims r a dm t d : table_inv d -> running_claims (Dedup.cancel r a dm t d).2 ≡ₚ running_claims d.
Proof.
  intros Hd. destruct (cancel_spec r a dm t d Hd) as (d1 & E & _ & Hc). pose proof (expire_claims t d Hd) as He.
  destruct (expire_table t d Hd) as (d1' & E' & _ & _ & _ & Hl). rewrite E in E', He. injection E' as <-.
  destruct (live t (Dedup.entries d !! r)) as [st|] eqn:Hlive.
  - destruct (same_target st a dm); [|by destruct Hc as [e ->]]. destruct st; by rewrite Hc.
  - destruct (Dedup.table_len d1 <? _); [|by rewrite Hc]. destruct Hc as [-> _]. cbn [snd]. rewrite <- He.
    apply running_claims_same. intros r' a' dm' t'. cbn. rewrite lookup_insert_Some.
    split; [|intros Hr'; right]. { intros [[_ ?]|[_ ?]]; done. }
    split; [|done]. intros <-. by rewrite Hl, Hlive in Hr'.
Qed.

(** The response to a running request is recorded. *)
Lemma complete_claims m t d n :
  table_inv d -> (request m, action m, domain m) ∈ running_claims d -> payload_bytes 0 (payload m) = Some n ->
  exists d', Dedup.complete m t d = (Ok tt, d') /\ running_claims d ≡ₚ (request m, action m, domain m) :: running_claims d'.
Proof.
  intros Hd [tok Hr]%running_claims_in Hn. pose proof (complete_spec m t d Hd) as Hc. rewrite Hr in Hc.
  cbn [finishable same_target stored fst snd andb] in Hc. unfold same_target in Hc. cbn [stored fst snd] in Hc.
  rewrite !Z.eqb_refl in Hc. cbn [andb] in Hc. rewrite Hn in Hc. destruct Hc as (d' & -> & _ & _ & _ & _ & _ & _ & _ & He).
  exists d'. split; [done|]. apply (running_claims_begin _ _ (request m) (action m) (domain m) tok); [| |done].
  - intros r' Hne a' dm' t'. rewrite He. by rewrite lookup_insert_ne.
  - intros a' dm' t'. rewrite He, lookup_insert_eq. by unfold completed_entry.
Qed.
End Table.

(** ** The places of a request *)

Section Requests.
Context `{AnyTypes} {Net : Type} `{!TransportDriver Net} `{!Surroundings Net}.
Abbreviation Runtime := (RuntimeState.Runtime Net).
Abbreviation DM := (M Runtime RuntimeError).
Abbreviation limits := (conf_limits cfg).
Implicit Types (s : Runtime) (X : list ObjectJob) (C : list Claim).

Definition job_claim (j : ActionJob) : option Claim :=
  if job_local j then None else Some (job_request j, job_action j, job_domain j).
Definition completion_claim (c : ActionCompletion) : option Claim :=
  if comp_local c then None else Some (comp_request c, comp_action c, comp_domain c).
Definition message_claim (m : RuntimeMessage) : Claim :=
  (RuntimeWire.request m, action m, RuntimeWire.domain m).
Definition response_claim (q : QueuedResponse) : option Claim :=
  if resp_cache q then Some (message_claim (resp_message q)) else None.

(** What will answer a request, and the objects in use. *)
Definition places s : list Claim :=
  omap job_claim (mails (objects s)) ++ omap job_claim (tasks (pools s)).*1 ++
  omap completion_claim (completions (pools s)) ++ omap response_claim (responses s).
Definition uses s : list ObjectJob :=
  metadata (tasks (pools s)).*1 ++ omap comp_object (completions (pools s)).

Definition opt {A} (x : option A) : list A := match x with Some a => [a] | None => [] end.

Lemma omap_cons_opt {A B} (f : A -> option B) x l : omap f (x :: l) = opt (f x) ++ omap f l.
Proof. cbn. by destruct (f x). Qed.

Definition table_ok (d : DedupTable) : Prop := table_inv d /\ 0 <= Dedup.max_bytes d.

(** The accounts while the driver holds the claims [C] and the uses [X]. *)
Definition Held X C s : Prop :=
  Inv (objects s) (mkLedger (X ++ uses s) (mailbox (objects s))) /\ table_ok (dedup s) /\
  places s ++ C ≡ₚ running_claims (dedup s) /\
  Forall (fun q => is_Some (payload_bytes 0 (payload (resp_message q)))) (responses s).

#[local] Instance Held_proper : Proper ((≡ₚ) ==> (≡ₚ) ==> (=) ==> iff) Held.
Proof.
  assert (Himp : forall X X' C C' s, X ≡ₚ X' -> C ≡ₚ C' -> Held X C s -> Held X' C' s).
  { intros X X' C C' s HX HC (HI & Ht & Hp & Hr). split_and!; [|done|by rewrite <- HC|done].
    eapply Inv_equiv; [|exact HI]. split; [|done]. cbn. by rewrite HX. }
  intros X X' HX C C' HC s ? <-. split; apply Himp; done.
Qed.

(** What the accounts depend on. *)
Definition frame s s' : Prop :=
  objects s' = objects s /\ dedup s' = dedup s /\ responses s' = responses s /\
  tasks (pools s') = tasks (pools s) /\ completions (pools s') = completions (pools s).

Lemma Held_frame X C s s' : frame s s' -> Held X C s -> Held X C s'.
Proof. intros (E1 & E2 & E3 & E4 & E5). unfold Held, places, uses. by rewrite E1, E2, E3, E4, E5. Qed.

Lemma held_modify X C (f : Runtime -> Runtime) : (forall s, frame s (f s)) -> upholds (Held X C) (modify f : DM unit).
Proof. intros Hf. apply upholds_modify. intros s. by apply Held_frame. Qed.

Lemma held_part X C {P E A} (get : Runtime -> P) put (to_error : E -> RuntimeError) (m : M P E A) :
  (forall p s, frame s (put p s)) -> upholds (Held X C) (on_part get put to_error m).
Proof.
  intros Hf. apply upholds_part. intros s Hs. unfold pwp. destruct (m (get s)) as [[?|[?|]] p]; try done;
    by apply (Held_frame _ _ s).
Qed.
Lemma held_pending X C {A} (m : M Pending.State RuntimeError A) : upholds (Held X C) (on_pending m).
Proof. by apply held_part. Qed.
Lemma held_net X C {A} (m : M Net TransportError A) : upholds (Held X C) (on_net m).
Proof. by apply held_part. Qed.

(** A method of the service that admits and completes nothing. *)
Lemma held_objects X C {A} (m : M ObjectService RuntimeError A) :
  (forall run o, Inv o run -> leaves run m o) -> upholds (Held X C) (on_objects m).
Proof.
  intros Hm. apply upholds_part. intros s (HI & Ht & Hp & Hr). specialize (Hm _ _ HI). unfold leaves in Hm.
  assert (Hheld : Held X C (set_objects (m (objects s)).2 s)).
  { unfold Held, uses, places. cbn [objects dedup responses pools set_objects]. split_and!; [|done| |done].
    - apply (Inv_running _ _ _ Hm). done.
    - unfold places in Hp. rewrite (mails_same (objects s)); [done|]. intros k. by rewrite (Inv_mailbox _ _ Hm). }
  unfold pwp. by destruct (m (objects s)) as [[?|[?|]] p].
Qed.

(** A method of the table that begins and ends no request. *)
Lemma held_dedup X C {A} (m : M DedupTable RuntimeError A) o :
  (forall d, (m d).2 = step d o) -> (forall d, table_inv d -> running_claims (m d).2 ≡ₚ running_claims d) ->
  upholds (Held X C) (on_dedup m).
Proof.
  intros Hstep Hm s (HI & [Ht Hb] & Hp & Hr). destruct (step_inv (dedup s) o Ht Hb) as (Ht' & (_ & Hl' & _) & _).
  rewrite <- Hstep in Ht', Hl'. specialize (Hm _ Ht). unfold pwp, on_dedup, on_part.
  destruct (m (dedup s)) as [[?|[?|]] d]; cbn [snd] in *; try done;
    (unfold Held, table_ok; split_and!; try done; [cbn; lia|by rewrite Hm]).
Qed.
Lemma held_release X C r a d : upholds (Held X C) (on_dedup (release_redirect r a d) : DM unit).
Proof. apply (held_dedup _ _ _ (Op_release_redirect r a d)); [done|]. apply release_claims. Qed.
Lemma held_dedup_cancel X C r a d t : upholds (Held X C) (on_dedup (Dedup.cancel r a d t) : DM unit).
Proof. apply (held_dedup _ _ _ (Op_cancel r a d t)); [done|]. apply cancel_claims. Qed.
Lemma held_dedup_expire X C t : upholds (Held X C) (on_dedup (Dedup.expire t) : DM unit).
Proof. apply (held_dedup _ _ _ (Op_expire t)); [done|]. apply expire_claims. Qed.

(** A new request is a claim of the driver. *)
Lemma held_begin X C r a dm t s :
  Held X C s ->
  pwp (on_dedup (begin r a dm t)) (fun x s' => Held X (match x with Disp_New _ => (r, a, dm) :: C | _ => C end) s')
    (fun _ => Held X C) s.
Proof.
  intros (HI & [Ht Hb] & Hp & Hr). destruct (step_inv (dedup s) (Op_begin r a dm t) Ht Hb) as (Ht' & (_ & Hl' & _) & _).
  pose proof (begin_claims r a dm t (dedup s) Ht) as Hc. cbn [step] in Ht', Hl'. unfold pwp, on_dedup, on_part.
  assert (Hmiddle : forall (x : Claim) (l : list Claim), places s ++ x :: l ≡ₚ x :: places s ++ l) by (intros; solve_Permutation).
  destruct (begin r a dm t (dedup s)) as [[x|[e|]] d]; cbn [snd] in *; [destruct x| |done];
    (unfold Held, table_ok; split_and!; try done; [cbn; lia|]);
    lazymatch goal with |- places _ ++ ?c ≡ₚ _ => change (places s ++ c ≡ₚ running_claims d) end; rewrite Hc, ?Hmiddle, Hp; done.
Qed.

(** A response that is to be recorded takes over the claim of its request. *)
Lemma held_queue_response X C destination message trace (cache : bool) s :
  let C' := if cache then message_claim message :: C else C in
  Held X C' s -> pwp (queue_response destination message trace cache) (fun _ => Held X C) (fun _ => Held X C') s.
Proof.
  intros C' Hs. unfold queue_response, pwp. mrun.
  destruct (payload_bytes 0 (payload message)) as [n|] eqn:Hn; mrun; [|done].
  destruct (checked_add usize_max (response_bytes s) n) as [b|] eqn:Hb; mrun; [|done].
  destruct (_ <=? _); mrun; [done|]. destruct (_ <? _); mrun; [done|].
  destruct Hs as (HI & Ht & Hp & Hr). unfold Held. split_and!; try done.
  - etransitivity; [|exact Hp]. unfold places, C'. cbn [objects pools responses set_responses set_response_bytes].
    rewrite omap_app. cbn [omap list_omap response_claim resp_cache resp_message].
    destruct cache; cbn; [solve_Permutation|by rewrite app_nil_r].
  - apply Forall_app. split; [done|]. apply Forall_singleton. cbn. by rewrite Hn.
Qed.

(** *** Admission, submission and completion *)

Lemma held_admit X C t job avail s :
  object_job job = None -> Held X (opt (job_claim job) ++ C) s ->
  pwp (on_objects (admit_request t (job_action job) job avail))
    (fun r s' => match r with
       | Some j => job_claim j = job_claim job /\ Held (opt (object_job j) ++ X) (opt (job_claim j) ++ C) s'
       | None => Held X C s'
       end)
    (fun _ => Held X (opt (job_claim job) ++ C)) s.
Proof.
  intros Hnone (HI & Ht & Hp & Hr). pose proof (admit_spec _ t (job_action job) job avail _ HI) as Had.
  unfold wp in Had. unfold pwp, on_objects, on_part.
  destruct (admit_request t (job_action job) job avail (objects s)) as [[[j|]|[e|]] o] eqn:E; [..|done].
  - cbn [admit_answer] in Had. destruct Had as [[-> HI']|(x & -> & HI' & _)].
    + split; [done|]. rewrite Hnone. unfold Held, uses, places. cbn [objects dedup responses pools set_objects].
      split_and!; [by apply (Inv_running _ _ _ HI')|apply Ht..| |done].
      rewrite (mails_same (objects s)); [done|]. intros k. by rewrite (Inv_mailbox _ _ HI').
    + split; [done|]. unfold Held, uses, places. cbn [objects dedup responses pools set_objects].
      split_and!; [by apply (Inv_running _ _ _ HI')|apply Ht..| |done].
      rewrite (mails_same (objects s)); [done|]. intros k. by rewrite (Inv_mailbox _ _ HI').
  - cbn [admit_answer] in Had. destruct Had as (k & r & HI'). set (j := with_object _ job) in *.
    unfold Held, uses, places. cbn [objects dedup responses pools set_objects].
    split_and!; [by apply (Inv_running _ _ _ HI')|apply Ht..| |done].
    rewrite (mails_queued (objects s) o k j (mkLedger (X ++ uses s) (mailbox (objects s))) (fun _ => eq_refl) (Inv_mailbox _ _ HI')), omap_cons_opt.
    change (job_claim j) with (job_claim job). rewrite <- Hp. unfold places. solve_Permutation.
  - unfold Held, uses, places. cbn [objects dedup responses pools set_objects].
    split_and!; [by apply (Inv_running _ _ _ Had)|apply Ht..| |done].
    rewrite (mails_same (objects s)); [done|]. intros k. by rewrite (Inv_mailbox _ _ Had).
Qed.

Lemma held_submit X C job s :
  Held (opt (object_job job) ++ X) (opt (job_claim job) ++ C) s ->
  pwp (on_pools (submit job)) (fun _ => Held X C) (fun _ => Held (opt (object_job job) ++ X) (opt (job_claim job) ++ C)) s.
Proof.
  intros Hs. unfold pwp, on_pools, on_part, submit. mrun. unfold id.
  destruct (domains (pools s) !! job_domain job) as [x|]; mrun; [|by apply (Held_frame _ _ s)].
  destruct (negb _); mrun; [by apply (Held_frame _ _ s)|]. destruct Hs as (HI & Ht & Hp & Hr).
  unfold Held, uses, places. cbn [objects dedup responses pools set_pools with_tasks with_counters with_domains tasks completions].
  rewrite fmap_app. unfold metadata in *. split_and!; [|apply Ht..| |done].
  - apply (Inv_running _ _ _ HI). unfold uses, metadata. cbn [fmap list_fmap fst]. rewrite omap_app, omap_cons_opt. cbn.
    solve_Permutation.
  - rewrite <- Hp. unfold places. cbn [fmap list_fmap fst]. rewrite omap_app, omap_cons_opt. cbn. solve_Permutation.
Qed.

Lemma held_complete X C x s :
  Held (x :: X) C s -> pwp (on_objects (Objects.complete x)) (fun jobs s' => jobs = [] /\ Held X C s') (fun _ _ => False) s.
Proof.
  intros (HI & Ht & Hp & Hr).
  pose proof (object_complete_spec (E := RuntimeError) (mkLedger (X ++ uses s) (mailbox (objects s))) x (objects s) HI) as Hc.
  unfold wp in Hc. unfold pwp, on_objects, on_part. destruct (Objects.complete x (objects s)) as [[l|[e|]] o]; try done.
  destruct Hc as [-> HI']. split; [done|]. unfold Held, uses, places. cbn [objects dedup responses pools set_objects].
  split_and!; [by apply (Inv_running _ _ _ HI')|apply Ht..| |done].
  rewrite (mails_same (objects s)); [done|]. intros k. by rewrite (Inv_mailbox _ _ HI').
Qed.

Lemma held_roll_back X C x s : Held (opt x ++ X) C s -> pwp (roll_back x) (fun _ => Held X C) (fun _ _ => False) s.
Proof.
  intros Hs. destruct x as [x|]; [|done]. apply pwp_bind. eapply pwp_mono; [exact (held_complete X C x s Hs)| |done].
  by intros l s' [_ Hs'].
Qed.

Lemma pwp_or_else {A} (m : DM A) h Q R s :
  pwp m Q (fun e => pwp (h e) (fun _ => R e) R) s -> pwp (or_else m h) Q R s.
Proof.
  intros Hm. unfold or_else. apply pwp_bind, pwp_outcome. eapply pwp_mono; [exact Hm|done|].
  intros e s' Hh. apply pwp_bind. exact Hh.
Qed.

Lemma held_submit_admitted X C job s :
  Held (opt (object_job job) ++ X) (opt (job_claim job) ++ C) s ->
  pwp (submit_admitted job) (fun _ => Held X C) (fun _ => Held X (opt (job_claim job) ++ C)) s.
Proof.
  intros Hs. apply pwp_or_else. eapply pwp_mono; [by apply held_submit|done|]. intros e s' Hs'.
  eapply pwp_mono; [exact (held_roll_back X _ (object_job job) s' Hs')|done|done].
Qed.

Lemma held_try_completion X C s :
  Held X C s ->
  pwp (on_pools try_completion)
    (fun r => match r with
       | Some c => Held (opt (comp_object c) ++ X) (opt (completion_claim c) ++ C)
       | None => Held X C
       end) (fun _ => Held X C) s.
Proof.
  intros (HI & Ht & Hp & Hr). unfold pwp, on_pools, on_part, try_completion. mrun. unfold id.
  destruct (completions (pools s)) as [|c l] eqn:Hc; mrun; [by apply (Held_frame _ _ s)|].
  assert (Hheld : forall p, tasks p = tasks (pools s) -> completions p = l ->
    Held (opt (comp_object c) ++ X) (opt (completion_claim c) ++ C) (set_pools p s)).
  { intros p Hp1 Hp2. unfold Held, uses, places. cbn [objects dedup responses pools set_pools]. rewrite Hp1, Hp2.
    split_and!; [|apply Ht..| |done].
    - apply (Inv_running _ _ _ HI). unfold uses. rewrite Hc, omap_cons_opt. cbn. solve_Permutation.
    - rewrite <- Hp. unfold places. rewrite Hc, omap_cons_opt. solve_Permutation. }
  destruct (domains (pools s) !! comp_domain c); mrun; by apply Hheld.
Qed.

Lemma held_retry X C max avail order s :
  Held X C s ->
  pwp (on_objects (retry_ready max avail order))
    (fun out => Held (metadata out ++ X) (omap job_claim out ++ C)) (fun _ _ => False) s.
Proof.
  intros (HI & Ht & Hp & Hr). pose proof (retry_entries_spec (E := RuntimeError) max avail order [] _ _ HI) as Hre.
  unfold wp in Hre. unfold pwp, on_objects, on_part, retry_ready.
  destruct (retry_entries max avail order [] (objects s)) as [[out|[e|]] o]; try done.
  destruct Hre as (jobs & run' & -> & [Hrun Hw] & Hjobs & HI'). cbn [app]. cbn [running waiting] in Hrun, Hw.
  unfold Held, uses, places. cbn [objects dedup responses pools set_objects]. split_and!; [|apply Ht..| |done].
  - apply (Inv_running _ _ _ HI'). rewrite Hrun. by rewrite app_assoc.
  - rewrite <- Hp. unfold places. rewrite (mails_delivered (objects s) o jobs); [rewrite omap_app; solve_Permutation| |done].
    intros k. rewrite Hw. by rewrite (Inv_mailbox _ _ HI').
Qed.

(** *** Operations that move no request *)

Lemma serves_leaves {E A} (m : M ObjectService E A) :
  (forall run o, Inv o run -> keeps run m o) -> forall run o, Inv o run -> leaves run m o.
Proof. intros Hm run o HI. by apply leaves_keeps, Hm. Qed.

#[local] Hint Resolve held_pending held_net held_release held_dedup_cancel held_dedup_expire : held.
#[local] Hint Extern 1 (upholds (Held _ _) (modify _)) => (by apply held_modify) : held.
#[local] Hint Extern 1 (upholds (Held _ _) (on_objects _)) => (apply held_objects, serves_leaves) : held.
#[local] Hint Resolve renew_keeps release_root_keeps ack_transfer_keeps release_keeps cache_location_keeps
  expire_keeps : held.

Ltac keep_held :=
  repeat first
    [ solve [eauto with held] | upholds_step
    | apply upholds_outcome | apply upholds_or_else; [|intros ?] | apply upholds_ignore ].

Lemma held_count X C f : upholds (Held X C) (count f : DM unit).
Proof. unfold count. keep_held. Qed.
Lemma held_now X C : upholds (Held X C) (Driver.now : DM Z).
Proof. unfold Driver.now. keep_held. Qed.
Lemma held_raise_flag X C t : upholds (Held X C) (raise_flag t : DM unit).
Proof. unfold raise_flag. keep_held. Qed.
Lemma held_next_message X C : upholds (Held X C) (next_message : DM MessageId).
Proof. unfold next_message. keep_held. Qed.
Lemma held_next_request X C : upholds (Held X C) (next_request : DM RequestId).
Proof. unfold next_request. keep_held. Qed.
#[local] Hint Resolve held_count held_now held_raise_flag held_next_message held_next_request : held.
Lemma held_send X C destination message purpose trace :
  upholds (Held X C) (send destination message purpose trace : DM SendTicket).
Proof. unfold send. keep_held. Qed.
#[local] Hint Resolve held_send : held.
Lemma held_send_cancel X C r e : upholds (Held X C) (send_cancel r e : DM unit).
Proof. unfold send_cancel. keep_held. Qed.
Lemma held_raise_entry X C e : upholds (Held X C) (raise_entry e : DM unit).
Proof. unfold raise_entry. keep_held. Qed.
Lemma held_complete_promise X C e r : upholds (Held X C) (complete_promise e r : DM unit).
Proof. unfold complete_promise. keep_held. Qed.
#[local] Hint Resolve held_send_cancel held_raise_entry held_complete_promise : held.
Lemma held_complete_pending X C source m f : upholds (Held X C) (complete_pending source m f : DM unit).
Proof. unfold complete_pending. keep_held. Qed.
Lemma held_expire_pending X C : upholds (Held X C) (expire_pending : DM unit).
Proof. unfold expire_pending. keep_held. Qed.
Lemma held_fail X C e : upholds (Held X C) (fail e : DM unit).
Proof. unfold fail, store_state. keep_held. Qed.
Lemma held_cancel X C r : upholds (Held X C) (Driver.cancel r : DM unit).
Proof. unfold Driver.cancel. keep_held. Qed.
Lemma held_spawn_inner X C place a input options r :
  upholds (Held X C) (spawn_inner place a input options r : DM RemoteFuture).
Proof. unfold spawn_inner, new_client_flag, ensure_running, local_send. keep_held. Qed.
Lemma held_object_control X C o t l locality a : upholds (Held X C) (object_control o t l locality a : DM unit).
Proof. unfold object_control. keep_held. Qed.
#[local] Hint Resolve held_complete_pending held_expire_pending held_fail held_cancel held_spawn_inner
  held_object_control : held.
Lemma held_deactivate X C a : upholds (Held X C) (deactivate a : DM unit).
Proof. unfold deactivate, with_lease, release_object. keep_held. Qed.
#[local] Hint Resolve held_deactivate : held.
Lemma held_attach X C o t l : upholds (Held X C) (attach_object o t l : DM Z).
Proof. unfold attach_object, attach, clone_lease, with_lease. keep_held. Qed.
Lemma held_drop_lease X C a : upholds (Held X C) (drop_lease a : DM unit).
Proof. unfold drop_lease, with_lease. keep_held. Qed.
Lemma held_due X C t : upholds (Held X C) (due t : DM (list LocalLease)).
Proof. unfold due, with_lease. keep_held. Qed.
Lemma held_lease_renew X C l : upholds (Held X C) (lease_renew l : DM unit).
Proof. unfold lease_renew, renew_object. keep_held. Qed.
#[local] Hint Resolve held_attach held_drop_lease held_due held_lease_renew : held.

(** *** Requests *)

(** From balanced accounts, [m] returns with balanced accounts or fails. *)
Definition balanced : Runtime -> Prop := Held [] [].
Definition returns {A} (m : DM A) : Prop := forall s, balanced s -> pwp m (fun _ => balanced) (fun _ _ => True) s.

Lemma returns_upholds {A} (m : DM A) : upholds balanced m -> returns m.
Proof. intros Hm s Hs. eapply pwp_mono; [by apply Hm|done|done]. Qed.
Lemma returns_bind {A B} (m : DM A) (k : A -> DM B) : returns m -> (forall a, returns (k a)) -> returns (m ≫= k).
Proof. intros Hm Hk s Hs. eapply pwp_bind, pwp_mono; [by apply Hm| |done]. intros a s' Hs'. by apply Hk. Qed.
Lemma returns_for_each {A} (f : A -> DM unit) l : (forall x, returns (f x)) -> returns (for_each f l).
Proof. intros Hf. induction l as [|x l IH]; [by apply returns_upholds, upholds_ret|]. by apply returns_bind. Qed.
Lemma returns_or_fail {A} (m : DM A) : returns m -> returns (or_fail m).
Proof.
  intros Hm s Hs. apply pwp_or_else. eapply pwp_mono; [by apply Hm|done|]. intros e s' _. unfold pwp.
  by destruct (fail e s') as [[?|[?|]] ?].
Qed.

Lemma pwp_true {A} (m : DM A) Q R s : pwp m Q R s -> pwp m Q (fun _ _ => True) s.
Proof. intros Hm. by eapply pwp_mono. Qed.

Lemma cached_failure X C destination m text trace s :
  Held X (message_claim m :: C) s ->
  pwp (send_and_cache_failure destination m text trace) (fun _ => Held X C) (fun _ _ => True) s.
Proof. intros Hs. eapply pwp_true. exact (held_queue_response X C destination (failure_to m text) trace true s Hs). Qed.

Lemma cached_moved X C destination m o l trace s :
  Held X (message_claim m :: C) s ->
  pwp (send_and_cache_moved destination m o l trace) (fun _ => Held X C) (fun _ _ => True) s.
Proof.
  intros Hs. unfold send_and_cache_moved. apply pwp_bind. cbn. apply pwp_bind. cbn. eapply pwp_true.
  exact (held_queue_response X C destination (mkRuntimeMessage Msg_Moved _ _ _ 0 _) trace true s Hs).
Qed.

Lemma held_driver_admit X C job s :
  object_job job = None -> Held X (opt (job_claim job) ++ C) s ->
  pwp (admit_job job)
    (fun r s' => match r with
       | Some j => job_claim j = job_claim job /\ Held (opt (object_job j) ++ X) (opt (job_claim j) ++ C) s'
       | None => Held X C s'
       end)
    (fun _ => Held X (opt (job_claim job) ++ C)) s.
Proof.
  intros Hnone Hs. unfold admit_job. apply pwp_bind. eapply pwp_mono; [by apply held_now| |done]. intros t s1 Hs1.
  apply pwp_bind, pwp_gets. by apply held_admit.
Qed.

Lemma started_request source trace m token s :
  Held [] [message_claim m] s ->
  pwp (start_request source trace m token) (fun _ => balanced) (fun _ _ => True) s.
Proof.
  intros Hs. unfold start_request. destruct (Action.get _ _) as [h|]; [|by apply cached_failure].
  apply pwp_bind. eapply pwp_mono; [by apply held_now| |done]. intros t s1 Hs1. cbv beta in Hs1.
  set (job := job_of source trace m h token t). apply pwp_bind, pwp_outcome.
  eapply pwp_mono; [exact (held_driver_admit [] [] job s1 eq_refl Hs1)| |].
  - intros [j|] s2 Hs2; [|done]. destruct Hs2 as [Hj Hs2]. apply pwp_bind, pwp_outcome.
    eapply pwp_mono; [exact (held_submit_admitted [] [] j s2 Hs2)|done|]. intros e s3 Hs3.
    rewrite Hj in Hs3. by apply cached_failure.
  - intros e s2 Hs2. pose proof (fun text => cached_failure [] [] source m text trace s2 Hs2) as Hf.
    destruct e; lazymatch goal with
      | |- pwp (send_and_cache_failure _ _ _ _) _ _ _ => apply Hf
      | |- _ => exact (cached_moved [] [] source m object location trace s2 Hs2)
      end.
Qed.

Lemma balanced_queue destination m trace : upholds balanced (queue_response destination m trace false : DM unit).
Proof. intros s Hs. exact (held_queue_response [] [] destination m trace false s Hs). Qed.

Lemma handled_request source trace m : returns (handle_request source trace m : DM unit).
Proof.
  unfold handle_request. apply returns_bind; [by apply returns_upholds, upholds_gets|intros st].
  destruct (negb _); [apply returns_upholds, balanced_queue|].
  apply returns_bind; [by apply returns_upholds, upholds_gets|intros current].
  apply returns_bind; [apply returns_upholds, upholds_when, held_release|intros _].
  apply returns_bind; [apply returns_upholds, held_now|intros t]. intros s Hs.
  apply pwp_bind, pwp_outcome. eapply pwp_mono; [exact (held_begin [] [] _ _ _ t s Hs)| |].
  - assert (Hdup : forall m', returns (count add_duplicate;; queue_response source m' trace false : DM unit)).
    { intros m'. apply returns_bind; [apply returns_upholds, held_count|intros _]. apply returns_upholds, balanced_queue. }
    intros [tok| |m'|m'|m'] s1 Hs1; cbv beta match in Hs1.
    + by apply started_request.
    + by apply (returns_upholds _ (held_count [] [] _)).
    + by apply Hdup.
    + by apply Hdup.
    + by apply Hdup.
  - intros e s1 Hs1. by apply (returns_upholds _ (balanced_queue _ _ _)).
Qed.

#[local] Hint Resolve held_pending held_net held_release held_dedup_cancel held_dedup_expire held_count held_now
  held_raise_flag held_next_message held_next_request held_send held_send_cancel held_raise_entry
  held_complete_promise held_complete_pending held_expire_pending held_fail held_cancel held_spawn_inner
  held_object_control held_deactivate held_attach held_drop_lease held_due held_lease_renew : held.
#[local] Hint Extern 1 (upholds (Held _ _) (modify _)) => (by apply held_modify) : held.

Lemma handled_message source trace m : returns (handle_message source trace m : DM unit).
Proof.
  unfold handle_message. destruct (msg_kind m); [apply handled_request|apply returns_upholds..]; unfold balanced; keep_held.
Qed.

Lemma handled_event e : returns (handle_transport_event e : DM unit).
Proof.
  unfold handle_transport_event. destruct e as [t|p|t e|peer e|]; try (apply returns_upholds; unfold balanced; keep_held; fail).
  apply returns_bind; [apply returns_upholds, held_count|intros _].
  apply returns_bind; [apply returns_upholds, upholds_lift|intros m]. apply handled_message.
Qed.

(** *** Local requests *)

Lemma dispatched_local r : upholds balanced (dispatch_local r : DM unit).
Proof.
  unfold dispatch_local. apply upholds_bind; [apply held_count|intros _]. apply upholds_bind; [|intros a; unfold balanced; keep_held].
  apply upholds_outcome. apply upholds_bind; [apply upholds_lift|intros h]. apply upholds_bind; [apply held_now|intros t].
  intros s Hs. apply pwp_bind.
  match goal with |- pwp (admit_job ?j) _ _ _ => eapply pwp_mono; [exact (held_driver_admit [] [] j s eq_refl Hs)| |done] end.
  intros [j|] s1 Hs1; [|done]. destruct Hs1 as [Hj Hs1].
  eapply pwp_mono; [exact (held_submit_admitted [] [] j s1 Hs1)|done|]. intros e s2 Hs2. rewrite Hj in Hs2. exact Hs2.
Qed.

(** *** Completions and responses *)

Lemma handled_completion c s :
  Held (opt (comp_object c)) (opt (completion_claim c)) s ->
  pwp (handle_completion c) (fun _ => balanced) (fun _ _ => True) s.
Proof.
  intros Hs. unfold handle_completion. apply pwp_bind.
  assert (Hobject : pwp (match comp_object c with
      | Some object => jobs ← on_objects (Objects.complete object); for_each submit_admitted jobs
      | None => mret tt
      end) (fun _ => Held [] (opt (completion_claim c))) (fun _ _ => True) s).
  { destruct (comp_object c) as [x|]; [|exact Hs]. apply pwp_bind.
    eapply pwp_mono; [exact (held_complete [] _ x s Hs)| |done]. by intros jobs s1 [-> Hs1]. }
  eapply pwp_mono; [exact Hobject| |done]. intros [] s1 Hs1. unfold completion_claim in Hs1.
  destruct (comp_local c).
  - cbn [opt] in Hs1. revert s1 Hs1. apply returns_upholds. unfold balanced. keep_held.
  - apply pwp_bind. eapply pwp_mono; [exact (upholds_when _ _ _ (held_count _ _ _) s1 Hs1)| |done]. intros [] s2 Hs2.
    apply pwp_bind. unfold pwp at 1, lift. destruct (answer_of c) as [answer|]; [|done].
    eapply pwp_true. exact (held_queue_response [] [] _ (mkRuntimeMessage _ _ _ _ 0 _) _ true s2 Hs2).
Qed.

Lemma handled_completions n : returns (handle_completions n : DM nat).
Proof.
  induction n as [|n IH]; cbn [handle_completions]; [by apply returns_upholds, upholds_ret|].
  intros s Hs. apply pwp_bind. eapply pwp_mono; [exact (held_try_completion [] [] s Hs)| |done].
  intros [c|] s1 Hs1; [|done]. rewrite !app_nil_r in Hs1. apply pwp_bind, pwp_or_else.
  eapply pwp_mono; [exact (handled_completion c s1 Hs1)| |].
  - intros [] s2 Hs2. revert s2 Hs2. apply returns_bind; [done|intros m]. by apply returns_upholds, upholds_ret.
  - intros e s2 _. unfold pwp. by destruct (fail e s2) as [[?|[?|]] ?].
Qed.

Lemma dispatched_locals n : returns (dispatch_locals n : DM nat).
Proof.
  induction n as [|n IH]; cbn [dispatch_locals]; [by apply returns_upholds, upholds_ret|].
  apply returns_bind; [by apply returns_upholds, upholds_gets|intros [|r rest]]; [by apply returns_upholds, upholds_ret|].
  apply returns_bind; [by apply returns_upholds, held_modify|intros _].
  apply returns_bind; [apply returns_upholds, dispatched_local|intros _].
  apply returns_bind; [done|intros m]. by apply returns_upholds, upholds_ret.
Qed.

(** The table records the response to a request that the driver claims. *)
Lemma held_record X C m t s :
  is_Some (payload_bytes 0 (payload m)) -> Held X (message_claim m :: C) s ->
  pwp (on_dedup (Dedup.complete m t)) (fun _ => Held X C) (fun _ _ => False) s.
Proof.
  intros [n Hn] (HI & [Ht Hb] & Hp & Hr).
  assert (Hin : message_claim m ∈ running_claims (dedup s)) by (rewrite <- Hp; set_solver).
  destruct (complete_claims m t (dedup s) n Ht Hin Hn) as (d & Hd & Hc).
  destruct (step_inv (dedup s) (Op_complete m t) Ht Hb) as (Ht' & (_ & Hl' & _) & _). cbn [step] in Ht', Hl'.
  unfold pwp, on_dedup, on_part. rewrite Hd in *. cbn [snd] in *. unfold Held, table_ok. split_and!; try done; [cbn; lia|].
  lazymatch goal with |- places _ ++ ?c ≡ₚ _ => change (places s ++ c ≡ₚ running_claims d) end.
  apply (Permutation_cons_inv (a := message_claim m)). rewrite <- Hc, <- Hp. solve_Permutation.
Qed.

(** Taking the first response. *)
Lemma held_pop X C r rest s n :
  responses s = r :: rest -> Held X C s ->
  Held X (opt (response_claim r) ++ C) (set_response_bytes n (set_responses rest s)) /\
  is_Some (payload_bytes 0 (payload (resp_message r))).
Proof.
  intros Hq (HI & Ht & Hp & Hr). rewrite Hq in Hr. apply Forall_cons in Hr as [Hr1 Hr]. split; [|done].
  unfold Held. split_and!; try done. rewrite <- Hp. unfold places. rewrite Hq, omap_cons_opt. cbn. solve_Permutation.
Qed.

Lemma held_put_back X C r s n :
  is_Some (payload_bytes 0 (payload (resp_message r))) -> Held X (opt (response_claim r) ++ C) s ->
  Held X C (set_responses (r :: responses s) (set_response_bytes n s)).
Proof.
  intros Hn (HI & Ht & Hp & Hr). unfold Held. split_and!; try done; [|by constructor].
  rewrite <- Hp. unfold places. cbn [responses set_responses]. rewrite omap_cons_opt. cbn. solve_Permutation.
Qed.

Lemma drained_responses n : returns (drain_responses n : DM nat).
Proof.
  induction n as [|n IH]; cbn [drain_responses]; [by apply returns_upholds, upholds_ret|].
  intros s Hs. apply pwp_bind, pwp_gets. destruct (responses s) as [|r rest] eqn:Hq; [done|].
  apply pwp_bind, pwp_modify, pwp_bind, pwp_modify.
  destruct (held_pop [] [] r rest s (saturating_sub (response_bytes (set_responses rest s)) (resp_bytes r)) Hq Hs) as [Hp Hn].
  rewrite app_nil_r in Hp. apply pwp_bind, pwp_outcome. eapply pwp_mono; [exact (held_send _ _ _ _ _ _ _ Hp)| |].
  - intros t s1 Hs1. apply pwp_bind.
    assert (Hrec : pwp (mwhen (resp_cache r) (t ← Driver.now; on_dedup (Dedup.complete (resp_message r) t)))
      (fun _ => balanced) (fun _ _ => True) s1).
    { unfold response_claim in Hs1. destruct (resp_cache r); [|done]. apply pwp_bind.
      eapply pwp_mono; [exact (held_now _ _ _ Hs1)| |done]. intros t' s2 Hs2. eapply pwp_true.
      exact (held_record [] [] _ _ _ Hn Hs2). }
    eapply pwp_mono; [exact Hrec| |done]. intros [] s2 Hs2. revert s2 Hs2.
    apply returns_bind; [done|intros m]. by apply returns_upholds, upholds_ret.
  - intros e s1 Hs1. destruct (must_wait e); [|done]. apply pwp_bind, pwp_modify, pwp_bind, pwp_modify.
    rewrite <- (app_nil_r (opt _)) in Hs1. exact (held_put_back [] [] r s1 _ Hn Hs1).
Qed.

(** *** The rounds of the driver *)

(** The retirements the driver took. *)
Definition retiring (l : list Retirement) s : Prop :=
  balanced s /\ Forall (retiring_ok (objects s)) l /\
  len l + len (retirements (objects s)) <= max_migrations (Objects.limits (objects s)).

Lemma retiring_frame l s s' : frame s s' -> retiring l s -> retiring l s'.
Proof. intros Hf (Hb & Hl). split; [by apply (Held_frame _ _ s)|]. destruct Hf as (-> & _). exact Hl. Qed.

Lemma retiring_sent l r : upholds (retiring l) (send_retirement r : DM unit).
Proof.
  assert (Hm : forall f : Runtime -> Runtime, (forall s, frame s (f s)) -> upholds (retiring l) (modify f : DM unit)).
  { intros f Hf. apply upholds_modify. intros s. by apply retiring_frame. }
  unfold send_retirement, next_request, send, next_message, count.
  repeat first [upholds_step | by apply Hm]. apply upholds_part. intros s Hs. unfold pwp.
  destruct (try_send _ (net s)) as [[?|[?|]] ?]; try done; by apply (retiring_frame l s).
Qed.

Lemma balanced_service s o :
  balanced s -> Inv o (mkLedger ([] ++ uses s) (mailbox (objects s))) -> balanced (set_objects o s).
Proof.
  intros (HI & Ht & Hp & Hr) HI'. unfold balanced, Held, uses, places. cbn [objects dedup responses pools set_objects].
  split_and!; [by apply (Inv_running _ _ _ HI')|apply Ht..| |done].
  rewrite (mails_same (objects s)); [done|]. intros k. by rewrite (Inv_mailbox _ _ HI').
Qed.

Lemma retired l : forall s, retiring l s -> pwp (send_retirements l : DM unit) (fun _ => balanced) (fun _ _ => True) s.
Proof.
  induction l as [|r l IH]; intros s Hs; [by destruct Hs|]. cbn [send_retirements].
  apply pwp_bind, pwp_outcome. eapply pwp_mono; [exact (retiring_sent _ _ s Hs)| |].
  - intros [] s1 (Hb & Hl & Hn). rewrite len_cons in Hn. pose proof (len_nonneg l).
    apply Forall_cons_1 in Hl as [Hr Hl]. apply pwp_bind. pose proof Hb as (HI & _).
    assert (Hf : on_objects (finish_retirement (ret_object r)) s1 = (Ok tt, set_objects (forgotten (ret_object r) (objects s1)) s1)) by done.
    unfold pwp at 1. rewrite Hf. apply IH. split_and!.
    + apply balanced_service; [done|]. apply Inv_forgotten; [done|]. intros e He. destruct (Hr e He) as (_ & Hi & Hz). done.
    + eapply Forall_impl; [exact Hl|]. intros x. apply retiring_forgotten.
    + cbn. lia.
  - intros e s1 (Hb & Hl & Hn). pose proof Hb as (HI & _).
    pose proof (ObjectRuns.send_retirements_keeps (E := RuntimeError) _ [r] [] _ HI) as Hk.
    apply Forall_cons_1 in Hl as [Hr _]. rewrite len_cons in Hn. pose proof (len_nonneg l).
    unfold pwp. change (on_objects (requeue_retirement r) s1) with (Ok (E := exn RuntimeError) tt, set_objects (set_retirements (r :: retirements (objects s1)) (objects s1)) s1).
    apply balanced_service; [done|]. apply Hk; [by constructor|]. change (len [r]) with 1. lia.
Qed.

Lemma taken_retirements n : forall s, balanced s ->
  pwp (on_objects (take_retirements n) : DM (list Retirement)) (fun l => retiring l) (fun _ _ => True) s.
Proof.
  intros s Hb. pose proof Hb as (HI & _).
  change (retiring (take n (retirements (objects s))) (set_objects (set_retirements (List.skipn n (retirements (objects s))) (objects s)) s)).
  pose proof HI as (Hlim & Hbox & Hent & Hrun & Hsize & Hroots & Htick & Hprep & Htr & Hact & Hret & Hle).
  assert (Hlen : len (take n (retirements (objects s))) + len (List.skipn n (retirements (objects s))) = len (retirements (objects s))).
  { rewrite <- len_app. f_equal. apply take_drop. }
  pose proof (len_nonneg (take n (retirements (objects s)))). split_and!.
  - apply balanced_service; [done|]. unfold Inv. split_and!; try done; cbn [set_retirements retirements Objects.limits];
      [by apply Forall_drop|lia].
  - by apply Forall_take.
  - cbn [objects set_objects set_retirements retirements Objects.limits]. lia.
Qed.

Lemma submitted_all X C l : forall s, Held (metadata l ++ X) (omap job_claim l ++ C) s ->
  pwp (for_each (fun job => on_pools (submit job)) l : DM unit) (fun _ => Held X C) (fun _ _ => True) s.
Proof.
  induction l as [|j l IH]; intros s Hs; [exact Hs|]. cbn [for_each]. apply pwp_bind. unfold metadata in Hs.
  rewrite !omap_cons_opt, <- !app_assoc in Hs. eapply pwp_mono; [exact (held_submit _ _ j s Hs)| |done].
  intros [] s1 Hs1. by apply IH.
Qed.

Lemma progressed_balanced n : returns (progress n : DM RuntimeProgress).
Proof.
  unfold progress. apply returns_bind; [by apply returns_upholds, upholds_gets|intros st].
  destruct (negb _); [by apply returns_upholds, upholds_raise|]. cbv zeta. set (limit := Z.to_nat _).
  case_bool_decide; [by apply returns_upholds, upholds_ret|].
  apply returns_bind; [apply returns_upholds, held_expire_pending|intros _].
  apply returns_bind; [apply returns_upholds, held_now|intros t0].
  apply returns_bind; [apply returns_upholds, held_dedup_expire|intros _].
  apply returns_bind; [apply returns_upholds, held_now|intros t].
  apply returns_bind; [apply returns_upholds, held_due|intros leases].
  apply returns_bind; [apply returns_upholds, upholds_for_each; intros; apply held_lease_renew|intros _].
  apply returns_bind; [by apply returns_upholds, upholds_gets|intros keys].
  apply returns_bind; [apply returns_upholds, held_objects, serves_leaves; intros; by apply expire_keeps|intros _].
  intros s Hs. apply pwp_bind. eapply pwp_mono; [by apply taken_retirements| |done]. intros l s1 Hs1.
  apply pwp_bind. eapply pwp_mono; [by apply retired| |done]. intros [] s2 Hs2. revert s2 Hs2. clear s Hs s1 l Hs1.
  apply returns_bind; [apply returns_or_fail, returns_upholds, held_net|intros [events transport]].
  apply returns_bind; [apply returns_for_each; intros e; apply returns_or_fail, handled_event|intros _].
  apply returns_bind; [apply handled_completions|intros n1].
  apply returns_bind.
  { destruct (_ <? _)%nat; [|by apply returns_upholds, upholds_ret].
    apply returns_bind; [by apply returns_upholds, upholds_gets|intros s']. intros s Hs.
    apply pwp_bind. eapply pwp_mono; [by apply held_retry| |done]. intros ready s1 Hs1.
    apply pwp_bind. eapply pwp_mono; [exact (submitted_all [] [] ready s1 Hs1)| |done]. done. }
  intros n2. apply returns_bind; [apply dispatched_locals|intros n3].
  destruct (_ <? _)%nat; [by intros s Hs|].
  apply returns_bind; [apply returns_or_fail, drained_responses|intros n4]. by apply returns_upholds, upholds_ret.
Qed.

(** *** Any calls *)

(** A worker moves a job to the completions. *)
Lemma omap_delete_at {A B} (f : A -> option B) (l : list A) i x :
  l !! i = Some x -> omap f l ≡ₚ opt (f x) ++ omap f (delete i l).
Proof. intros Hi. rewrite (delete_Permutation l i x Hi) at 1. by rewrite omap_cons_opt. Qed.

Lemma balanced_worked i w r : upholds balanced (work i w r : DM unit).
Proof.
  apply upholds_modify. intros s (HI & Ht & Hp & Hr). destruct (worker_step i w r (pools s)) as [p|] eqn:Hw; [|done].
  unfold worker_step in Hw. destruct (tasks (pools s) !! i) as [[job ph]|] eqn:Hi; [|done]. cbn [mbind option_bind] in Hw.
  destruct (domains (pools s) !! job_domain job) as [x|]; [|done]. cbn [mbind option_bind] in Hw.
  assert (Hplaces : forall {B} (f : ActionJob -> option B) (g : ActionCompletion -> option B),
      (forall b res, g (completion_of job b res) = f job) ->
      omap f (tasks p).*1 ++ omap g (completions p) ≡ₚ omap f (tasks (pools s)).*1 ++ omap g (completions (pools s))).
  { intros B f g Hfg. assert (Hi1 : (tasks (pools s)).*1 !! i = Some job) by (by rewrite list_lookup_fmap, Hi).
    assert (Hphase : forall ph' c, omap f (tasks (with_tasks (<[i := (job, ph')]> (tasks (pools s)))
        (with_counters (job_domain job) x c (pools s)))).*1 = omap f (tasks (pools s)).*1).
    { intros ph' c. cbn. rewrite list_fmap_insert. by rewrite list_insert_id. }
    destruct ph; try (destruct (_ && _); [done|]; destruct (exec_step _ _ _ _ _ _) as [ph' c];
      injection Hw as <-; rewrite Hphase; done).
    destruct (_ <? _); [|done]. injection Hw as <-. cbn [tasks completions with_tasks with_completions].
    rewrite omap_app, omap_cons_opt, Hfg. rewrite (omap_delete_at f _ i job Hi1), fmap_delete. cbn. solve_Permutation. }
  unfold balanced, Held, uses, places. cbn [objects dedup responses pools set_pools]. split_and!; [|apply Ht..| |done].
  - apply (Inv_running _ _ _ HI). cbn. symmetry. apply (Hplaces _ object_job comp_object). done.
  - rewrite <- Hp. unfold places. rewrite (app_assoc (omap job_claim (tasks p).*1)), (Hplaces _ job_claim completion_claim) by done.
    solve_Permutation.
Qed.

(** The runtimes after calls of which those of the driver succeed.  Objects are
    created and migrated as [allowed] says. *)
Definition succeeds (c : driver_call (Net := Net)) (r : result (exn RuntimeError) unit) s : Prop :=
  match c with
  | Do_progress _ => r = Ok tt
  | Do_service c => allowed c (objects s)
  | _ => r <> Err Panic
  end.

Inductive serving : Runtime -> Prop :=
| Serving_new n d run local l reg :
    limits_wf l -> tasks d = [] -> completions d = [] ->
    serving (Runtime_new n d (ObjectService_new run local l reg))
| Serving_step s c r s' : serving s -> act c s = (r, s') -> succeeds c r s -> serving s'.

Lemma balanced_new n d run local l reg :
  0 <= max_dedup_bytes limits -> limits_wf l -> tasks d = [] -> completions d = [] ->
  balanced (Runtime_new n d (ObjectService_new run local l reg)).
Proof.
  intros Hb Hl Ht Hc. unfold balanced, Held, uses, places, table_ok.
  cbn [objects dedup responses pools Runtime_new]. rewrite Ht, Hc. split_and!; try done; [|by apply table_new_inv].
  by apply (Inv_equiv _ (mkLedger [] (fun _ => []))), Inv_new.
Qed.

Lemma balanced_act c s r s' : balanced s -> act c s = (r, s') -> succeeds c r s -> balanced s'.
Proof.
  intros Hs Ha Hc.
  assert (Hu : upholds balanced (act c) -> r <> Err Panic -> balanced s').
  { intros Hu Hr. specialize (Hu s Hs). unfold pwp in Hu. rewrite Ha in Hu. by destruct r as [|[]]. }
  destruct c; cbn [act succeeds] in *;
    try (apply Hu; [|done]; unfold next_object, clone_lease, with_lease, fail_committed_migration, store_state, balanced;
         keep_held; fail).
  - pose proof (returns_bind (progress max_events) (fun _ => mret tt) (progressed_balanced _)
      (fun _ => returns_upholds _ (upholds_ret _ _)) s Hs) as Hp.
    unfold pwp in Hp. rewrite Ha, Hc in Hp. exact Hp.
  - apply Hu; [apply balanced_worked|]. injection Ha as <- _. done.
  - pose proof Hs as (HI & _). pose proof (perform_leaves _ c _ HI Hc) as Hl. unfold leaves in Hl.
    assert (Hs' : s' = set_objects (perform c (objects s)).2 s).
    { unfold serve, on_part in Ha. by destruct (perform c (objects s)) as [[?|[?|]] o]; injection Ha as _ <-. }
    rewrite Hs'. by apply balanced_service.
Qed.

Lemma balanced_serving s : 0 <= max_dedup_bytes limits -> serving s -> balanced s.
Proof. intros Hb. induction 1; [by apply balanced_new|by eapply balanced_act]. Qed.

(** The three kinds of use of an object. *)
Lemma uses_tallied run o e :
  admission_exact run o e -> in_flight e = length (filter (fun x => job_object x = o) (running run)).
Proof.
  intros (Hr & Hw & Hp & ->). rewrite <- Hr, <- Hw, <- Hp. unfold tally.
  induction (running run) as [|[o' r p] l IH]; [done|]. rewrite !filter_cons, is_read_job, is_write_job, is_placement_job.
  cbn [job_object]. destruct (decide (o' = o)) as [->|Hne].
  - rewrite bool_decide_eq_true_2 by done. destruct p, r; cbn [negb andb]; repeat case_decide; try done; cbn [length]; lia.
  - rewrite bool_decide_eq_false_2 by done. cbn [andb]. by repeat case_decide.
Qed.

End Requests.

(** ** Examples *)

Definition plain (c : driver_call (Net := ExNet)) : bool := match c with Do_service _ => false | _ => true end.

Lemma acts_serving calls : forall s s', serving s -> forallb plain calls = true -> acts calls s = Some s' -> serving s'.
Proof.
  induction calls as [|c calls IH]; cbn [acts forallb]; intros s s' Hs Hp Ha; [congruence|].
  apply andb_prop in Hp as [Hc Hp]. destruct (act c s) as [[[]|] s1] eqn:Hr; [|done].
  apply (IH s1 s'); [|done..]. apply (Serving_step s c (Ok tt)); [done..|]. by destruct c.
Qed.

Lemma ex_working_serving : serving ex_working.
Proof.
  apply (acts_serving (Do_progress 8 :: replicate 11 (Do_worker 0 0 0)) ex_runtime).
  - apply Serving_new; [|reflexivity..]. split; vm_compute; intuition discriminate.
  - reflexivity.
  - apply acts_some. vm_compute. reflexivity.
Qed.

