(* ===== verification/DriverCalls.v ===== *)
(** * DriverCalls: the runtime forgets no call of its clients

    The table of pending calls of [Pending] inside the driver: which parts of the
    driver leave it alone, what the others do to it, and that every call is
    answered: by its result, its deadline, a failure or the shutdown. *)
From S2P Require Import Prelude Text Protocol Transport Error RuntimeTypes RuntimeWire Dedup Action Pending Domain ObjectWire ObjectRegistry Objects Migration ObjectRuns ObjectWorld RuntimeState Driver DriverRuns.

Create HintDb quiet.
Create HintDb calls.

Section Calls.
Context `{AnyTypes} {Net : Type} `{!TransportDriver Net} `{!Surroundings Net}.
Abbreviation Runtime := (RuntimeState.Runtime Net).
Abbreviation DM := (M Runtime RuntimeError).
Abbreviation local_id := (conf_local cfg).
Abbreviation addresses l := (map (fun x => promise x.2) l).
Implicit Types (s : Runtime) (I : Runtime -> Prop) (G : gset Z) (T : list Z).

(** ** What leaves the calls alone *)

Definition quiet s s' : Prop :=
  pending s' = pending s /\ state_cell s' = state_cell s /\ request_seq s <= request_seq s'.

#[local] Instance quiet_preorder : PreOrder quiet.
Proof.
  split; [done|]. intros s1 s2 s3 (E1 & E2 & E3) (F1 & F2 & F3). split_and!; [congruence..|lia].
Qed.

Section Quiet.
Variable I : Runtime -> Prop.
Hypothesis I_quiet : forall s s', quiet s s' -> I s -> I s'.

Lemma quiet_modify (f : Runtime -> Runtime) : (forall s, quiet s (f s)) -> upholds I (modify f : DM unit).
Proof. intros Hf. apply upholds_modify. intros s. by apply I_quiet. Qed.
Lemma quiet_part {P E A} (get : Runtime -> P) put (to_error : E -> RuntimeError) (m : M P E A) :
  (forall p s, quiet s (put p s)) -> upholds I (on_part get put to_error m).
Proof.
  intros Hf. apply upholds_part. intros s Hs. unfold pwp. destruct (m (get s)) as [[?|[?|]] p]; try done;
    by apply (I_quiet s).
Qed.
Lemma quiet_net {A} (m : M Net TransportError A) : upholds I (on_net m).
Proof. by apply quiet_part. Qed.
Lemma quiet_pools {A} (m : M DomainRegistry RuntimeError A) : upholds I (on_pools m).
Proof. by apply quiet_part. Qed.
Lemma quiet_objects {A} (m : M ObjectService RuntimeError A) : upholds I (on_objects m).
Proof. by apply quiet_part. Qed.
Lemma quiet_dedup {A} (m : M DedupTable RuntimeError A) : upholds I (on_dedup m).
Proof.
  intros s Hs. unfold pwp, on_dedup, on_part. destruct (m (dedup s)) as [[?|[?|]] p]; try done; by apply (I_quiet s).
Qed.
#[local] Hint Resolve quiet_net quiet_pools quiet_objects quiet_dedup : quiet.
#[local] Hint Extern 1 (upholds _ (modify _)) => (by apply quiet_modify) : quiet.

Ltac keep_quiet :=
  repeat first
    [ solve [eauto with quiet] | upholds_step
    | apply upholds_outcome | apply upholds_or_else; [|intros ?] | apply upholds_ignore ].

Lemma quiet_count f : upholds I (count f : DM unit).
Proof. unfold count. keep_quiet. Qed.
Lemma quiet_now : upholds I (Driver.now : DM Z).
Proof. unfold Driver.now. keep_quiet. Qed.
Lemma quiet_raise_flag t : upholds I (raise_flag t : DM unit).
Proof. unfold raise_flag. keep_quiet. Qed.
Lemma quiet_raise_entry e : upholds I (raise_entry e : DM unit).
Proof. unfold raise_entry, raise_flag. keep_quiet. Qed.
Lemma quiet_next_message : upholds I (next_message : DM MessageId).
Proof. unfold next_message. keep_quiet. Qed.
Lemma quiet_next_request : upholds I (next_request : DM RequestId).
Proof.
  unfold next_request. intros s Hs. apply pwp_bind, pwp_gets, pwp_bind. unfold pwp at 1, lift, ok_or.
  destruct (next_value (request_seq s)) as [n|] eqn:Hn; [|done].
  assert (Hle : request_seq s <= n).
  { unfold next_value in Hn. destruct (checked_add u64_max (request_seq s) 1) as [k|] eqn:Hk; [|done].
    apply checked_add_some in Hk. cbn in Hn. destruct (k =? 0); [done|]. injection Hn as <-. lia. }
  apply pwp_bind, pwp_modify. apply upholds_lift. by apply (I_quiet s).
Qed.
#[local] Hint Resolve quiet_count quiet_now quiet_raise_flag quiet_raise_entry quiet_next_message quiet_next_request : quiet.
Lemma quiet_send destination message purpose trace : upholds I (send destination message purpose trace : DM SendTicket).
Proof. unfold send. keep_quiet. Qed.
#[local] Hint Resolve quiet_send : quiet.
Lemma quiet_send_cancel r e : upholds I (send_cancel r e : DM unit).
Proof. unfold send_cancel. keep_quiet. Qed.
Lemma quiet_object_control o t l locality a : upholds I (object_control o t l locality a : DM unit).
Proof. unfold object_control. keep_quiet. Qed.
#[local] Hint Resolve quiet_send_cancel quiet_object_control : quiet.
Lemma quiet_deactivate a : upholds I (deactivate a : DM unit).
Proof. unfold deactivate, with_lease, release_object. keep_quiet. Qed.
#[local] Hint Resolve quiet_deactivate : quiet.
Lemma quiet_attach o t l : upholds I (attach_object o t l : DM Z).
Proof. unfold attach_object, attach, clone_lease, with_lease. keep_quiet. Qed.
Lemma quiet_drop_lease a : upholds I (drop_lease a : DM unit).
Proof. unfold drop_lease, with_lease. keep_quiet. Qed.
Lemma quiet_due t : upholds I (due t : DM (list LocalLease)).
Proof. unfold due, with_lease. keep_quiet. Qed.
Lemma quiet_lease_renew l : upholds I (lease_renew l : DM unit).
Proof. unfold lease_renew, renew_object. keep_quiet. Qed.
Lemma quiet_clear_leases : upholds I (clear_leases : DM unit).
Proof. unfold clear_leases. keep_quiet. Qed.
#[local] Hint Resolve quiet_attach quiet_drop_lease quiet_due quiet_lease_renew : quiet.

Lemma quiet_local_send r : upholds I (local_send r : DM unit).
Proof. unfold local_send. keep_quiet. Qed.

(** Requests, their answers and the objects. *)
Lemma quiet_queue_response d m t c : upholds I (queue_response d m t c : DM unit).
Proof. unfold queue_response. keep_quiet. Qed.
Lemma quiet_drain_responses n : upholds I (drain_responses n : DM nat).
Proof. induction n as [|n IH]; cbn [drain_responses]; keep_quiet. Qed.
Lemma quiet_submit_admitted job : upholds I (submit_admitted job : DM unit).
Proof. unfold submit_admitted, roll_back. keep_quiet. Qed.
Lemma quiet_admit job : upholds I (admit_job job : DM (option ActionJob)).
Proof. unfold admit_job. keep_quiet. Qed.
#[local] Hint Resolve quiet_queue_response quiet_drain_responses quiet_submit_admitted quiet_admit : quiet.
Lemma quiet_start_request source trace m token : upholds I (start_request source trace m token : DM unit).
Proof. unfold start_request, send_and_cache_failure, send_and_cache_moved. keep_quiet. Qed.
#[local] Hint Resolve quiet_start_request : quiet.
Lemma quiet_handle_request source trace m : upholds I (handle_request source trace m : DM unit).
Proof. unfold handle_request, send_failure. keep_quiet. Qed.
Lemma quiet_send_retirements l : upholds I (send_retirements l : DM unit).
Proof. induction l as [|r l IH]; cbn [send_retirements]; unfold send_retirement; keep_quiet. Qed.
Lemma quiet_work i w r : upholds I (work i w r : DM unit).
Proof. apply quiet_modify. intros s. by destruct (worker_step i w r (pools s)). Qed.
Lemma quiet_serve c : upholds I (serve c : DM unit).
Proof. by apply quiet_part. Qed.
End Quiet.

(** ** The calls of a runtime

    [G]: promises whose future is gone; [T]: promises taken out of the table and
    about to be completed; [P] holds of the entries; when [b], a runtime that
    failed has none. *)
Record Tracked (b : bool) (P : RequestId -> PendingEntry -> Prop) G T s : Prop := {
  tr_inv : call_inv (pending s) G T;
  tr_fresh : forall r e, Pending.entries (pending s) !! r = Some e ->
    RequestId_origin r = local_id -> RequestId_sequence r < request_seq s;
  tr_all : forall r e, Pending.entries (pending s) !! r = Some e -> P r e;
  tr_failed : b = true -> runtime_state s = Error.Failed -> Pending.entries (pending s) = ∅;
}.

Lemma tracked_quiet b P G T s s' : quiet s s' -> Tracked b P G T s -> Tracked b P G T s'.
Proof.
  intros (E1 & E2 & E3) [H1 H2 H3 H4]. split; rewrite ?E1; try done.
  - intros r e Hr Ho. specialize (H2 r e Hr Ho). lia.
  - unfold runtime_state. by rewrite E2.
Qed.

(** Fewer entries, with other promises. *)
Lemma tracked_less b P G T s p G' T' :
  Tracked b P G T s -> call_inv p G' T' ->
  (forall r e, Pending.entries p !! r = Some e -> Pending.entries (pending s) !! r = Some e) ->
  Tracked b P G' T' (set_pending p s).
Proof.
  intros [H1 H2 H3 H4] Hp He. split; cbn [pending set_pending request_seq]; eauto.
  intros Hb Hf. apply map_empty. intros r. destruct (Pending.entries p !! r) as [e|] eqn:Hr; [|done].
  apply He in Hr. by rewrite (H4 Hb Hf), lookup_empty in Hr.
Qed.

Lemma on_pending_pwp {A} (m : M Pending.State RuntimeError A) (Q : A -> Runtime -> Prop) R s :
  pwp m (fun a p => Q a (set_pending p s)) (fun e p => R e (set_pending p s)) (pending s) ->
  pwp (on_pending m) Q R s.
Proof. unfold pwp, on_pending, on_part. by destruct (m (pending s)) as [[?|[?|]] ?]. Qed.

Definition never {E} (_ : E) s : Prop := False.

Abbreviation taken found := (match found with Some e => [promise e] | None => [] end).

Lemma tracked_remove b P G r s :
  Tracked b P G [] s ->
  pwp (on_pending (Pending.remove r))
    (fun found s' => found = Pending.entries (pending s) !! r /\ Tracked b P G (taken found) s' /\
       next_promise (pending s') = next_promise (pending s)) never s.
Proof.
  intros Ht. apply on_pending_pwp. destruct (remove_call r _ _ _ (tr_inv _ _ _ _ _ Ht)) as [Hr Hinv].
  eapply pwp_eq; [exact Hr|]. split_and!; [done| |done]. apply (tracked_less _ _ G []); [done|exact Hinv|].
  cbn. by intros q e [_ Hq]%lookup_delete_Some.
Qed.

Lemma tracked_take b P G r source a s :
  Tracked b P G [] s ->
  pwp (on_pending (take_checked r source a)) (fun found => Tracked b P G (taken found))
    (fun _ => Tracked b P G []) s.
Proof.
  intros Ht. assert (Hsame : Tracked b P G [] (set_pending (pending s) s)) by (revert Ht; by apply tracked_quiet).
  pose proof (tracked_remove b P G r s Ht) as Hr. unfold pwp, on_pending, on_part, take_checked in *. mrun.
  destruct (Pending.entries (pending s) !! r) as [e|] eqn:He; mrun; [|done].
  destruct (negb _ || negb _); mrun; [done|]. apply Hr.
Qed.

Lemma tracked_complete b P G T e o s :
  Tracked b P G (promise e :: T) s ->
  pwp (complete_promise e o) (fun _ s' => Tracked b P G T s' /\
    Pending.entries (pending s') = Pending.entries (pending s) /\
    promises (pending s') = <[promise e := mkPromise (Some o) None true]> (promises (pending s)) /\
    state_cell s' = state_cell s) never s.
Proof.
  intros Ht. apply on_pending_pwp.
  destruct (complete_call (promise e) o _ _ _ (tr_inv _ _ _ _ _ Ht)) as (p & Hc & Hinv & He & _ & Hp).
  eapply pwp_eq; [exact Hc|]. split_and!; try done. apply (tracked_less _ _ G (promise e :: T)); [done..|]. by rewrite He.
Qed.

(** An entry that is taken out is answered. *)
Lemma tracked_answer b P G found o s :
  Tracked b P G (taken found) s ->
  pwp (match found with Some e => complete_promise e o | None => mret tt end)
    (fun _ => Tracked b P G []) never s.
Proof.
  intros Ht. destruct found as [e|]; [|done]. eapply pwp_mono; [by apply (tracked_complete b P G [])|by intros _ ? []|done].
Qed.

(** Computations that leave the calls alone and do not fail. *)
Definition silent (m : DM unit) : Prop := forall s, pwp m (fun _ => quiet s) never s.

Lemma silent_ignore {A} (m : DM A) : (forall I, (forall s s', quiet s s' -> I s -> I s') -> upholds I m) -> silent (ignore m).
Proof.
  intros Hm s. assert (Hq : upholds (quiet s) m).
  { apply Hm. intros s1 s2 H12 H1. by etransitivity. }
  unfold ignore. apply pwp_bind, pwp_outcome. eapply pwp_mono; [by apply Hq|by intros|by intros].
Qed.
Lemma silent_when c m : silent m -> silent (mwhen c m).
Proof. intros Hm s. destruct c; [apply Hm|done]. Qed.
Lemma silent_bind m m' : silent m -> silent m' -> silent (m;; m').
Proof.
  intros Hm Hm' s. eapply pwp_bind, pwp_mono; [apply Hm| |done]. intros ? s1 H1.
  eapply pwp_mono; [apply Hm'| |done]. intros ? s2 H2. exact (transitivity H1 H2).
Qed.
Lemma silent_count f : silent (count f).
Proof. done. Qed.
Lemma silent_raise_entry e : silent (raise_entry e).
Proof. intros s. unfold raise_entry. by destruct (cancel_token e). Qed.
Lemma silent_send_cancel r e : silent (send_cancel r e).
Proof. apply silent_when, silent_ignore. intros I HI. by apply quiet_send. Qed.

Lemma tracked_settle b P G (o : RequestId * PendingEntry -> Outcome) rest l : forall s,
  (forall p, silent (rest p)) -> Tracked b P G (addresses l) s ->
  pwp (for_each (fun p => complete_promise p.2 (o p);; rest p) l)
    (fun _ s' => Tracked b P G [] s' /\ Pending.entries (pending s') = Pending.entries (pending s) /\
       state_cell s' = state_cell s /\
       (forall p, p ∈ l -> promises (pending s') !! promise p.2 = Some (mkPromise (Some (o p)) None true)) /\
       (forall q, q ∉ addresses l -> promises (pending s') !! q = promises (pending s) !! q)) never s.
Proof.
  induction l as [|p l IH]; intros s Hrest Ht.
  - unfold pwp. cbn. split_and!; try done. by intros ? ?%elem_of_nil.
  - assert (Hfresh : promise p.2 ∉ addresses l).
    { pose proof (ci_nodup _ _ _ (tr_inv _ _ _ _ _ Ht)) as Hnd. apply NoDup_app in Hnd as (_ & _ & Hnd).
      cbn in Hnd. by apply NoDup_cons in Hnd as [Hnd _]. }
    cbn [for_each]. apply pwp_bind, pwp_bind. eapply pwp_mono; [by apply (tracked_complete b P G (addresses l))| |done].
    intros ? s1 (Ht1 & He1 & Hp1 & Hc1). eapply pwp_mono; [apply Hrest| |done]. intros ? s2 Hq.
    pose proof Hq as (Ep & Ec & _). apply (tracked_quiet _ _ _ _ _ _ Hq) in Ht1.
    eapply pwp_mono; [by apply IH| |done]. intros ? s' (Ht' & He' & Hc' & Hdone & Hother).
    split_and!; [done|by rewrite He', Ep|by rewrite Hc', Ec| |].
    + intros x [->|Hx]%elem_of_cons; [|by apply Hdone]. by rewrite Hother, Ep, Hp1, lookup_insert_eq.
    + intros q Hq'. cbn in Hq'. rewrite Hother by set_solver. rewrite Ep, Hp1, lookup_insert_ne; [done|set_solver].
Qed.

(** ** Deadlines, failures and results *)

Lemma tracked_expire b P G s :
  Tracked b P G [] s ->
  pwp (expire_pending : DM unit)
    (fun _ => Tracked b (fun r e => P r e /\ instants (clock s) < Pending.expires_at e) G []) never s.
Proof.
  intros Ht. unfold expire_pending, Driver.now. repeat (apply pwp_bind, pwp_gets || apply pwp_bind, pwp_modify || apply pwp_bind).
  unfold pwp at 1. cbn [mret M_ret]. set (s1 := set_clock _ s).
  assert (Ht1 : Tracked b P G [] s1) by (revert Ht; by apply tracked_quiet).
  apply on_pending_pwp. destruct (expire_call (instants (clock s)) _ _ (tr_inv _ _ _ _ _ Ht1))
    as (l & p & Hl & Hinv & _ & _ & He & _).
  eapply pwp_eq; [exact Hl|].
  set (P' := fun r e => P r e /\ instants (clock s) < Pending.expires_at e).
  assert (Hall : Tracked b P' G (addresses l) (set_pending p s1)).
  { assert (Hin : forall r e, Pending.entries p !! r = Some e ->
      Pending.entries (pending s1) !! r = Some e /\ instants (clock s) < Pending.expires_at e).
    { intros r e Hr. rewrite He in Hr. destruct (Pending.entries (pending s1) !! r) as [e'|]; [|done].
      destruct (Pending.expires_at e' <=? instants (clock s)) eqn:Hx; [done|]. injection Hr as ->. zbool. split; [done|lia]. }
    destruct (tracked_less b P G [] s1 p G (addresses l) Ht1 Hinv) as [H1 H2 H3 H4]; [by intros r e []%Hin|].
    split; [done..| |done]. intros r e Hr. split; [by apply H3|]. by apply Hin in Hr as []. }
  eapply pwp_mono; [apply (tracked_settle b P' G (fun p => Err (RuntimeError_DeadlineExceeded p.1 (deadline p.2))))| |done].
  - intros x. repeat apply silent_bind; [apply silent_count|apply silent_raise_entry|apply silent_send_cancel].
  - exact Hall.
  - by intros ? s' [Ht' _].
Qed.

(** Every call is taken out, and answered with the outcome [o]. *)
Definition all_answered (o : Outcome) s s' : Prop :=
  Pending.entries (pending s') = ∅ /\
  forall r e, Pending.entries (pending s) !! r = Some e ->
    promises (pending s') !! promise e = Some (mkPromise (Some o) None true).

Lemma tracked_drain b P G o rest s :
  (forall p, silent (rest p)) -> Tracked b P G [] s ->
  pwp (l ← on_pending Pending.drain; for_each (fun p : RequestId * PendingEntry => complete_promise p.2 (Err o);; rest p) l)
    (fun _ s' => Tracked b P G [] s' /\ state_cell s' = state_cell s /\ all_answered (Err o) s s') never s.
Proof.
  intros Hrest Ht. apply pwp_bind, on_pending_pwp.
  destruct (drain_call _ _ (tr_inv _ _ _ _ _ Ht)) as (l & p & Hl & Hinv & _ & _ & He & Hin).
  eapply pwp_eq; [exact Hl|].
  assert (Ht1 : Tracked b P G (addresses l) (set_pending p s)).
  { apply (tracked_less b P G []); [done..|]. rewrite He. by intros ? ? ?%lookup_empty_Some. }
  eapply pwp_mono; [by apply (tracked_settle b P G (fun _ => Err o))| |done].
  intros ? s' (Ht' & He' & Hc & Hdone & _). split_and!; [done|done|]. split; [by rewrite He'|].
  intros r e Hr. by apply Hin, Hdone in Hr.
Qed.

Lemma tracked_fail b P G error s :
  Tracked b P G [] s ->
  pwp (fail error : DM unit)
    (fun _ s' => Tracked b P G [] s' /\ all_answered (Err error) s s' /\ runtime_state s' = Error.Failed) never s.
Proof.
  intros Ht. unfold fail, store_state. apply pwp_bind, pwp_modify. set (s1 := set_state_cell _ s).
  assert (Ht1 : Tracked false P G [] s1) by (by destruct Ht).
  eapply pwp_mono; [apply (tracked_drain false P G error (fun p => raise_entry p.2)); [by intros; apply silent_raise_entry|done]| |done].
  intros ? s' ([H1 H2 H3 _] & Hc & Ha). split; [|split; [done|unfold runtime_state; by rewrite Hc]].
  split; try done. intros _ _. apply Ha.
Qed.

(** The computations that keep the calls tracked. *)
Section Tracking.
Context (b : bool) (P : RequestId -> PendingEntry -> Prop) (G : gset Z).
Abbreviation I := (Tracked b P G []).

Lemma I_quiet s s' : quiet s s' -> I s -> I s'.
Proof. apply tracked_quiet. Qed.

Lemma never_upholds {A} (m : DM A) : (forall s, I s -> pwp m (fun _ => I) never s) -> upholds I m.
Proof. intros Hm s Hs. eapply pwp_mono; [by apply Hm|done|by intros ? ? []]. Qed.

Lemma calls_expire : upholds I (expire_pending : DM unit).
Proof.
  apply never_upholds. intros s Hs. eapply pwp_mono; [by apply tracked_expire| |done].
  intros ? s' []. split; try done. intros r e Hr. by apply tr_all0 in Hr as [].
Qed.
Lemma calls_fail e : upholds I (fail e : DM unit).
Proof. apply never_upholds. intros s Hs. eapply pwp_mono; [by apply tracked_fail|by intros ? ? []|done]. Qed.
Lemma calls_refuse r o :
  upholds I (found ← on_pending (Pending.remove r);
             match found with Some entry => complete_promise entry o | None => mret tt end : DM unit).
Proof.
  apply never_upholds. intros s Hs. eapply pwp_bind, pwp_mono; [by apply (tracked_remove b P G)| |done].
  intros found s' (_ & Ht & _). by apply tracked_answer.
Qed.

(** What is done with an entry that is found for a result. *)
Lemma calls_take r source a (k : PendingEntry -> DM unit) (k' : DM unit) :
  (forall e s, Tracked b P G [promise e] s -> pwp (k e) (fun _ => I) (fun _ => I) s) -> upholds I k' ->
  upholds I (found ← on_pending (take_checked r source a); match found with Some entry => k entry | None => k' end).
Proof.
  intros Hk Hk' s Hs. eapply pwp_bind, pwp_mono; [by apply (tracked_take b P G)| |done].
  intros [e|] s' Ht; [by apply Hk|by apply Hk'].
Qed.
Lemma calls_count f : upholds I (count f : DM unit).
Proof. apply quiet_count, I_quiet. Qed.
Lemma calls_completed e o f s :
  Tracked b P G [promise e] s ->
  pwp (complete_promise e o;; count f) (fun _ => I) (fun _ => I) s.
Proof.
  intros Ht. eapply pwp_bind, pwp_mono; [by apply (tracked_complete b P G [])| |by intros ? ? []].
  intros ? s' [Ht' _]. by apply calls_count.
Qed.

Lemma calls_complete_pending source m f : upholds I (complete_pending source m f : DM unit).
Proof.
  apply calls_take; [|apply calls_count]. intros e s Ht. apply pwp_bind. unfold pwp at 1, lift_exn.
  destruct (f m) as [p|[e'|]]; [by apply calls_completed..|done].
Qed.

#[local] Hint Resolve I_quiet quiet_net quiet_pools quiet_objects quiet_dedup quiet_count quiet_now quiet_due
  quiet_lease_renew quiet_send_retirements quiet_handle_request quiet_admit quiet_submit_admitted
  quiet_queue_response quiet_drain_responses quiet_next_request quiet_attach quiet_drop_lease quiet_object_control
  quiet_work quiet_serve calls_expire calls_fail calls_complete_pending : calls.
#[local] Hint Extern 1 (upholds _ (modify _)) => (apply quiet_modify; [apply I_quiet|done]) : calls.

Ltac keep_calls :=
  repeat first
    [ solve [eauto with calls] | apply calls_refuse | upholds_step
    | apply upholds_outcome | apply upholds_or_else; [|intros ?] | apply upholds_ignore ].

Lemma calls_handle_message source trace m : upholds I (handle_message source trace m : DM unit).
Proof. unfold handle_message. keep_calls. Qed.
#[local] Hint Resolve calls_handle_message : calls.
Lemma calls_handle_transport_event e : upholds I (handle_transport_event e : DM unit).
Proof. unfold handle_transport_event. keep_calls. Qed.
Lemma calls_dispatch_local r : upholds I (dispatch_local r : DM unit).
Proof. unfold dispatch_local. keep_calls. Qed.
Lemma calls_handle_completion c : upholds I (handle_completion c : DM unit).
Proof.
  unfold handle_completion. apply upholds_bind; [keep_calls|intros _]. destruct (comp_local c); [|keep_calls].
  apply calls_take; [|apply calls_count]. intros e s. apply calls_completed.
Qed.
#[local] Hint Resolve calls_handle_transport_event calls_dispatch_local calls_handle_completion : calls.
Lemma calls_handle_completions n : upholds I (handle_completions n : DM nat).
Proof. induction n as [|n IH]; cbn [handle_completions]; unfold or_fail; keep_calls. Qed.
Lemma calls_dispatch_locals n : upholds I (dispatch_locals n : DM nat).
Proof. induction n as [|n IH]; cbn [dispatch_locals]; keep_calls. Qed.
#[local] Hint Resolve calls_handle_completions calls_dispatch_locals : calls.

(** [progress] looks at the deadlines first. *)
Definition drives n s : Prop :=
  (runtime_state s = Running \/ runtime_state s = Draining) /\ 0 < Z.min n (max_progress_events (conf_limits cfg)).
Lemma calls_expired_progress n s :
  drives n s -> pwp (expire_pending : DM unit) (fun _ => I) never s ->
  pwp (progress n : DM RuntimeProgress) (fun _ => I) (fun _ => I) s.
Proof.
  intros [Hs Hn] He. unfold progress. apply pwp_bind, pwp_gets.
  rewrite (proj2 (orb_true_iff _ _)) by (destruct Hs as [-> | ->]; auto). cbn [negb].
  rewrite bool_decide_eq_false_2 by lia. apply pwp_bind. eapply pwp_mono; [exact He| |by intros ? ? []].
  intros ?. match goal with |- forall s', _ -> pwp ?m _ _ s' => change (upholds I m) end.
  unfold or_fail. keep_calls.
Qed.
Lemma calls_progress n : upholds I (progress n : DM RuntimeProgress).
Proof. unfold progress, or_fail. keep_calls. Qed.
End Tracking.

Lemma tracked_mono b P P' G T s :
  (forall r e, P r e -> P' r e) -> Tracked b P G T s -> Tracked b P' G T s.
Proof. intros HP []. split; eauto. Qed.

(** ** New and cancelled calls *)

Abbreviation any_entry := (fun (_ : RequestId) (_ : PendingEntry) => True).
Abbreviation Calls G := (Tracked false any_entry G []).

(** A request that may be used for a new call. *)
Definition unused (r : RequestId) s : Prop :=
  Pending.entries (pending s) !! r = None /\
  (RequestId_origin r = local_id -> RequestId_sequence r < request_seq s).

Lemma calls_next_request G s :
  Calls G s ->
  pwp (next_request : DM RequestId) (fun r s' => Calls G s' /\ pending s' = pending s /\ unused r s')
    (fun _ s' => Calls G s' /\ pending s' = pending s) s.
Proof.
  intros Ht. unfold next_request. apply pwp_bind, pwp_gets, pwp_bind. unfold pwp at 1, lift, ok_or.
  destruct (next_value (request_seq s)) as [n|] eqn:Hn; [|done].
  assert (Hle : request_seq s < n).
  { unfold next_value in Hn. destruct (checked_add u64_max (request_seq s) 1) as [k|] eqn:Hk; [|done].
    apply checked_add_some in Hk. cbn in Hn. destruct (k =? 0); [done|]. injection Hn as <-. lia. }
  apply pwp_bind, pwp_modify. set (s1 := set_request_seq n s).
  assert (Hs1 : Calls G s1) by (revert Ht; apply tracked_quiet; split_and!; [done..|cbn; lia]).
  unfold pwp, map_err, RequestId_new. destruct (request_seq s =? 0); [done|]. split_and!; [done..|]. split.
  - destruct (Pending.entries (pending s) !! mkRequestId local_id (request_seq s)) as [e|] eqn:He; [|done].
    pose proof (tr_fresh _ _ _ _ _ Ht _ _ He eq_refl) as Hlt. cbn in Hlt. lia.
  - intros _. exact Hle.
Qed.

Definition cancelled_call r s : gset Z :=
  match Pending.entries (pending s) !! r with Some e => {[promise e]} | None => ∅ end.

Lemma tracked_dropped b P G e s : Tracked b P G [promise e] s -> Tracked b P ({[promise e]} ∪ G) [] s.
Proof. intros []. split; try done. by apply drop_taken. Qed.

Lemma calls_cancel G r s :
  Calls G s -> pwp (Driver.cancel r : DM unit) (fun _ => Calls (cancelled_call r s ∪ G)) never s.
Proof.
  intros Ht. unfold Driver.cancel, cancelled_call. eapply pwp_bind, pwp_mono; [by apply (tracked_remove false any_entry G)| |done].
  intros found s1 (-> & Ht1 & _). destruct (Pending.entries (pending s) !! r) as [e|].
  - assert (Hq : silent (count add_cancelled;; raise_entry e;; send_cancel r e)).
    { repeat apply silent_bind; [apply silent_count|apply silent_raise_entry|apply silent_send_cancel]. }
    eapply pwp_mono; [apply Hq| |done]. intros ? s2 H12. by apply (tracked_quiet _ _ _ _ s1), tracked_dropped.
  - unfold pwp. cbn. by rewrite (left_id_L ∅ (∪)).
Qed.

(** A call with a promise of its own. *)
Definition after_promise G s s' : Prop :=
  Calls ({[next_promise (pending s)]} ∪ G) s' /\ next_promise (pending s') = next_promise (pending s) + 1.

Lemma calls_promise G s :
  Calls G s ->
  pwp (on_pending Promise_new)
    (fun p s' => p = next_promise (pending s) /\ after_promise G s s' /\ Pending.entries (pending s') = Pending.entries (pending s) /\
       promises (pending s') !! p = Some (mkPromise None None false) /\ p ∉ owners (pending s') /\
       request_seq s' = request_seq s) never s.
Proof.
  intros Ht. apply on_pending_pwp.
  destruct (new_call _ _ (tr_inv _ _ _ _ _ Ht)) as (p & Hn & Hinv & He & Hl & Hp & Hown).
  eapply pwp_eq; [exact Hn|]. unfold after_promise. cbn [pending set_pending request_seq].
  split_and!; [done| | |done|by rewrite Hp, lookup_insert_eq|by unfold owners; rewrite He|done].
  - apply (tracked_less false any_entry G []); [done..|]. by rewrite He.
  - by injection Hn as <-.
Qed.

Lemma calls_insert G r e s s0 :
  after_promise G s0 s -> promise e = next_promise (pending s0) -> promises (pending s) !! promise e = Some (mkPromise None None false) ->
  promise e ∉ owners (pending s) -> unused r s ->
  pwp (on_pending (Pending.insert r e))
    (fun _ s' => Calls G s' /\ Pending.entries (pending s') !! r = Some e /\ next_promise (pending s') = next_promise (pending s0) + 1)
    (fun _ => after_promise G s0) s.
Proof.
  intros [Ht Hnext] Hp Hv Hown [Hr Hseq]. apply on_pending_pwp. unfold Pending.insert, pwp. mrun. unfold id.
  destruct (Pending.limit (pending s) <=? _) eqn:Hfull; mrun.
  - split; [|done]. revert Ht. by apply tracked_quiet.
  - zbool. cbn [pending set_pending]. split_and!; [|apply lookup_insert_eq|done]. destruct Ht as [H1 H2 H3 H4]. split; try done.
    + rewrite <- Hp in H1. apply (insert_call r e (pending s) G (mkPromise None None false)); try done.
    + cbn [pending set_pending Pending.entries Pending.set_entries request_seq].
      intros q e' [[<- <-]|[Hne Hq]]%lookup_insert_Some; [done|]. by apply (H2 q e').
Qed.

(** The promise of a call that is refused. *)
Definition refused s s' : gset Z :=
  if next_promise (pending s) <? next_promise (pending s') then {[next_promise (pending s)]} else ∅.

Lemma refused_early G s s' : Calls G s' -> pending s' = pending s -> Calls (refused s s' ∪ G) s'.
Proof. unfold refused. intros Ht ->. by rewrite Z.ltb_irrefl, (left_id_L ∅ (∪)). Qed.
Lemma refused_late G s s' : after_promise G s s' -> Calls (refused s s' ∪ G) s'.
Proof. unfold refused. intros [Ht ->]. by rewrite (proj2 (Z.ltb_lt _ _)) by lia. Qed.

Lemma ensure_running_pwp s : pwp (ensure_running : DM unit) (fun _ s' => s' = s) (fun _ s' => s' = s) s.
Proof. unfold ensure_running. apply pwp_bind, pwp_gets. by destruct (runtime_state s). Qed.

Lemma after_promise_quiet G s0 s s' : quiet s s' -> after_promise G s0 s -> after_promise G s0 s'.
Proof. intros Hq [Ht Hn]. split; [by apply (tracked_quiet _ _ _ _ s)|]. destruct Hq as (E & _). by rewrite E. Qed.

(** The end of a call: what was inserted is sent, or taken out again. *)
Lemma calls_submit G r e (m : DM unit) s0 s :
  (forall I, (forall s s', quiet s s' -> I s -> I s') -> upholds I m) ->
  Calls G s -> Pending.entries (pending s) !! r = Some e -> promise e = next_promise (pending s0) ->
  next_promise (pending s) = next_promise (pending s0) + 1 ->
  pwp (or_else m (fun _ => on_pending (Pending.remove r);; mret tt))
    (fun _ s' => Calls G s' /\ Pending.entries (pending s') !! r = Some e) (fun _ => after_promise G s0) s.
Proof.
  intros Hm Ht Hr Hp Hn.
  assert (Hq : upholds (quiet s) m) by (apply Hm; intros s1 s2 H12 H1; by etransitivity).
  unfold or_else. apply pwp_bind, pwp_outcome. eapply pwp_mono; [by apply Hq|..]; cbn beta.
  - intros a s1 H1. unfold pwp. cbn. split; [by apply (tracked_quiet _ _ _ _ s)|]. destruct H1 as (-> & _). done.
  - intros e' s1 H1. apply pwp_bind. assert (Ht1 : Calls G s1) by (by apply (tracked_quiet _ _ _ _ s)).
    destruct H1 as (E1 & _). apply pwp_bind. eapply pwp_mono; [by apply (tracked_remove false any_entry G)| |by intros ? ? []].
    intros found s2 (Hf & Ht2 & Hn2). rewrite E1, Hr in Hf. subst found. unfold pwp. cbn. split.
    + rewrite <- Hp. by apply tracked_dropped.
    + by rewrite Hn2, E1.
Qed.

(** The call itself, once its request is chosen. *)
Lemma calls_insert_submit G r (entry : Z -> PendingEntry) (m : DM unit) s0 s p :
  (forall I, (forall s s', quiet s s' -> I s -> I s') -> upholds I m) -> (forall q, promise (entry q) = q) ->
  p = next_promise (pending s0) -> after_promise G s0 s -> promises (pending s) !! p = Some (mkPromise None None false) ->
  p ∉ owners (pending s) -> unused r s ->
  pwp (on_pending (Pending.insert r (entry p));; or_else m (fun _ => on_pending (Pending.remove r);; mret tt);;
       mret (RemoteFuture_new r p))
    (fun f s' => Calls G s' /\ Pending.entries (pending s') !! future_request f = Some (entry (future_promise f)))
    (fun _ => after_promise G s0) s.
Proof.
  intros Hm He -> Ha Hv Hown Hu. apply pwp_bind.
  eapply pwp_mono; [apply (calls_insert G r _ s s0); rewrite ?He; done| |done]. cbn beta.
  intros ? s1 (Ht1 & Hr1 & Hn1). apply pwp_bind.
  eapply pwp_mono; [by eapply calls_submit; rewrite ?He|..|done]. cbn beta.
  by intros ? s2 [Ht2 Hr2].
Qed.

Lemma calls_spawn G place a input options request s :
  Calls G s -> (forall r, request = Some r -> unused r s) ->
  pwp (spawn_inner place a input options request)
    (fun f s' => Calls G s' /\ exists e, Pending.entries (pending s') !! future_request f = Some e /\ promise e = future_promise f)
    (fun _ s' => Calls (refused s s' ∪ G) s') s.
Proof.
  intros Ht Hreq. assert (Hsame : Calls (refused s s ∪ G) s) by (by apply refused_early).
  unfold spawn_inner. apply pwp_bind. eapply pwp_mono; [apply ensure_running_pwp| |by intros ? ? ->]. intros ? ? ->.
  destruct (_ =? 0); [done|]. destruct (negb _); [done|]. destruct (negb (locality place =? local_id) && is_typed input); [done|].
  destruct (negb _); [done|].
  apply pwp_bind. eapply pwp_mono; [apply ensure_running_pwp| |by intros ? ? ->]. intros ? ? ->.
  apply pwp_bind. apply (pwp_mono _ (fun r s' => Calls G s' /\ pending s' = pending s /\ unused r s')
    _ (fun _ s' => Calls G s' /\ pending s' = pending s)); [|..].
  { destruct request as [r|]; [split_and!; auto|by apply calls_next_request]. }
  2: { intros e s1 []. by apply refused_early. }
  intros r s1 (Ht1 & E1 & Hu1). apply pwp_bind. eapply pwp_mono; [by apply (calls_promise G)| |by intros ? ? []]. cbn beta.
  intros p s2 (-> & Ha & He2 & Hv & Hown & Hseq). 
  assert (Hu2 : unused r s2) by (unfold unused; by rewrite He2, Hseq).
  assert (Hn : next_promise (pending s1) = next_promise (pending s)) by (by rewrite E1).
  assert (Ha' : after_promise G s s2) by (unfold after_promise in *; by rewrite <- Hn).
  apply pwp_bind. unfold Driver.now. apply pwp_bind, pwp_gets, pwp_bind, pwp_modify. unfold pwp at 1. cbn [mret M_ret].
  apply pwp_bind. unfold pwp at 1, lift, ok_or. destruct (checked_add _ _ _) as [expiry|];
    [|by apply refused_late, (after_promise_quiet _ _ s2)].
  apply pwp_bind. apply (pwp_mono _ (fun _ s' => quiet s2 s') _ never); [|..|done].
  { by destruct (locality place =? local_id). }
  intros token s3 H23. pose proof H23 as (E3 & _ & L3). eapply pwp_mono.
  - apply (calls_insert_submit G r (fun p => mkPendingEntry p _ _ _ _ _ _ _) _ s s3); [|done|by rewrite <- Hn| |by rewrite E3..|].
    + intros I HI. destruct token; [by apply quiet_local_send|]. destruct input; [|apply upholds_panic].
      apply upholds_bind; [by apply quiet_send|intros; apply upholds_ret].
    + by apply (after_promise_quiet _ _ s2).
    + destruct Hu2 as [U1 U2]. split; [by rewrite E3|]. intros Ho. specialize (U2 Ho). lia.
  - cbn beta. intros f s' [Ht' Hf]. eauto.
  - intros e s'. apply refused_late.
Qed.

Lemma calls_poll G p context s :
  Calls G s -> pwp (on_pending (Pending.poll p context)) (fun _ => Calls G) never s.
Proof.
  intros Ht. apply on_pending_pwp. destruct (promises (pending s) !! p) as [v|] eqn:Hv.
  - destruct (poll_handled p context _ _ (tr_inv _ _ _ _ _ Ht)) as (x & p' & Hh & _ & _ & Hinv); [by eexists|].
    unfold handle in Hh. pose proof (poll_eq p v context _ Hv) as Hp. rewrite (M_bind_step _ _ _ _ _ Hp) in Hh.
    injection Hh as <- <-. rewrite empty_union in Hinv. eapply pwp_eq; [exact Hp|].
    by apply (tracked_less false any_entry G []).
  - unfold Pending.poll, deref, pwp. mrun. by rewrite Hv.
Qed.

(** ** The runtimes considered

    The promises whose future is gone: those of calls that were cancelled and of
    calls that were refused. *)
Definition gone (c : driver_call (Net := Net)) (x : result (exn RuntimeError) unit) s s' : gset Z :=
  match c, x with
  | Do_cancel r, _ => cancelled_call r s
  | Do_spawn _ _ _ _ _, Err _ => refused s s'
  | _, _ => ∅
  end.

(** A request that is given for a new call is one of this runtime that is not
    pending any more. *)
Definition fair (c : driver_call (Net := Net)) s : Prop :=
  match c with Do_spawn _ _ _ _ (Some r) => unused r s | _ => True end.

Inductive calling : gset Z -> Runtime -> Prop :=
| Calling_new n d o : calling ∅ (Runtime_new n d o)
| Calling_step G s c x s' :
    calling G s -> fair c s -> act c s = (x, s') -> x <> Err Panic -> calling (gone c x s s' ∪ G) s'.

Lemma calls_new n d o : Calls ∅ (Runtime_new n d o).
Proof.
  split; [|intros r e Hr; by apply (lookup_empty_Some r e) in Hr..|done].
  exact (proj1 (pending_reachable_inv _ _ _ (Pending.R_new (max_pending_calls (conf_limits cfg))))).
Qed.

Lemma calls_act G c s x s' :
  Calls G s -> fair c s -> act c s = (x, s') -> x <> Err Panic -> Calls (gone c x s s' ∪ G) s'.
Proof.
  intros Ht Hf Ha Hx.
  assert (Hu : upholds (Calls G) (act c) -> gone c x s s' = ∅ -> Calls (gone c x s s' ∪ G) s').
  { intros Hu ->. rewrite (left_id_L ∅ (∪)). specialize (Hu s Ht). unfold pwp in Hu. rewrite Ha in Hu. by destruct x as [|[]]. }
  pose proof (I_quiet false any_entry G) as HI.
  destruct c; try (apply Hu; [|done]; cbn [act]).
  - apply upholds_bind; [apply calls_progress|intros; apply upholds_ret].
  - clear Hu. cbn [act] in Ha.
    pose proof (calls_spawn G place action_id input options request s Ht) as Hs.
    cbn [fair] in Hf. unfold pwp in Hs. unfold mbind, M_bind in Ha.
    destruct (spawn_inner place action_id input options request s) as [[f|[e|]] s1]; injection Ha as <- <-; cbn [gone].
    + rewrite (left_id_L ∅ (∪)). apply Hs. by intros r ->.
    + apply Hs. by intros r ->.
    + done.
  - clear Hu. cbn [act] in Ha. pose proof (calls_cancel G request s Ht) as Hs. unfold pwp in Hs. rewrite Ha in Hs.
    cbn [gone]. by destruct x as [|[]].
  - apply upholds_bind; [|intros; apply upholds_ret]. apply never_upholds. intros. by apply calls_poll.
  - apply upholds_bind; [|intros; apply upholds_ret]. unfold next_object. repeat upholds_step. by apply quiet_modify.
  - apply upholds_bind; [by apply quiet_attach|intros; apply upholds_ret].
  - unfold clone_lease, with_lease. by apply quiet_modify.
  - by apply quiet_drop_lease.
  - by apply quiet_object_control.
  - unfold fail_committed_migration, store_state. apply upholds_modify. intros s2 []. by split.
  - by apply quiet_work.
  - by apply quiet_serve.
  - by apply quiet_modify.
Qed.

Lemma calling_calls G s : calling G s -> Calls G s.
Proof. induction 1; [apply calls_new|by eapply calls_act]. Qed.

(** ** Shutdown *)

Lemma collect_calm o (s : ObjectService) :
  pwp (Objects.collect (E := RuntimeError) o) (fun _ _ => True) (fun _ _ => False) s.
Proof.
  unfold Objects.collect, forget, update_entry. apply pwp_bind, pwp_gets. destruct (Objects.entries s !! o) as [e|]; [|done].
  destruct (negb (idle_entry e)); [done|]. destruct (negb _); [by destruct (_ && _)|]. destruct (_ || _); [done|].
  destruct (lifecycle e); try done; unfold mwhen; repeat case_match; first [done|exact I].
Qed.
Lemma release_calm o l (s : ObjectService) :
  pwp (Objects.release (E := RuntimeError) o l) (fun _ _ => True) (fun _ _ => False) s.
Proof.
  unfold Objects.release, Objects.ack_transfer, update_entry. apply pwp_bind, pwp_gets. destruct (Objects.entries s !! o); [|done].
  apply pwp_bind, pwp_modify, pwp_bind, pwp_bind, pwp_gets. destruct (bool_decide _).
  - do 2 apply pwp_bind, pwp_modify. unfold pwp at 1. cbn [mret M_ret]. apply pwp_bind.
    eapply pwp_mono; [apply collect_calm|done|done].
  - unfold pwp at 1. cbn [mret M_ret]. apply pwp_bind. eapply pwp_mono; [apply collect_calm|done|done].
Qed.
Definition calm (m : DM unit) : Prop := forall s, pwp m (fun _ _ => True) never s.
Lemma calm_bind {A} (m : DM A) (k : A -> DM unit) :
  (forall s, pwp m (fun _ _ => True) never s) -> (forall a, calm (k a)) -> calm (m ≫= k).
Proof. intros Hm Hk s. eapply pwp_bind, pwp_mono; [apply Hm| |done]. intros a s' _. apply Hk. Qed.
Lemma calm_when c (m : DM unit) : calm m -> calm (mwhen c m).
Proof. intros Hm s. destruct c; [apply Hm|done]. Qed.
Lemma calm_for_each {A} (f : A -> DM unit) l : (forall x, calm (f x)) -> calm (for_each f l).
Proof. intros Hf. induction l as [|x l IH]; [by intros s|]. apply calm_bind; [apply Hf|by intros _]. Qed.
Lemma calm_ignore {A} (m : DM A) : calm (ignore m).
Proof. intros s. unfold ignore, mbind, M_bind, outcome, pwp. by destruct (m s) as [[?|[?|]] ?]. Qed.

Lemma calm_release o t l locality : calm (object_control o t l locality LEASE_RELEASE_ACTION_ID).
Proof.
  unfold object_control. destruct (_ =? local_id); [|apply calm_ignore].
  change (calm (on_objects (Objects.release o locality);; mret tt)).
  apply calm_bind; [|by intros ? s]. intros s. unfold on_objects, on_part, pwp. pose proof (release_calm o locality (objects s)) as Hr.
  unfold pwp in Hr. by destruct (Objects.release o locality (objects s)) as [[?|[?|]] ?].
Qed.
Lemma calm_deactivate a : calm (deactivate a).
Proof.
  unfold deactivate. apply calm_bind; [done|]. intros [l|]; [|by intros s]. apply calm_bind; [done|intros _].
  apply calm_when, calm_release.
Qed.
Lemma calm_clear_leases : calm clear_leases.
Proof.
  unfold clear_leases. apply calm_bind; [done|intros s]. apply calm_bind; [done|intros _].
  apply calm_for_each. intros p. apply calm_when, calm_deactivate.
Qed.

Lemma stop_calls_answers G s :
  Calls G s ->
  pwp (stop_calls : DM unit) (fun _ s' => all_answered (Err RuntimeError_Shutdown) s s' /\
    runtime_state s' = Draining /\ local_queue s' = []) never s.
Proof.
  intros Ht. unfold stop_calls, store_state. apply pwp_bind, pwp_modify. set (s1 := set_state_cell _ s).
  assert (Ht1 : Calls G s1) by (by destruct Ht).
  apply pwp_bind. eapply pwp_mono; [apply pwp_and; [apply calm_clear_leases|apply (quiet_clear_leases (quiet s1))]| |by intros ? ? []].
  { intros s2 s3 H23 H2. by etransitivity. }
  { done. }
  cbn beta. intros ? s2 [_ H12]. pose proof H12 as (E2 & C2 & _). apply (tracked_quiet _ _ _ _ _ _ H12) in Ht1.
  pose proof (tracked_drain false any_entry G RuntimeError_Shutdown
    (fun p => raise_entry p.2;; send_cancel p.1 p.2) s2) as Hd.
  assert (Hrest : forall p : RequestId * PendingEntry, silent (raise_entry p.2;; send_cancel p.1 p.2)).
  { intros p. apply silent_bind; [apply silent_raise_entry|apply silent_send_cancel]. }
  specialize (Hd Hrest Ht1). apply (pwp_assoc _ _ (fun _ => _)), pwp_bind. eapply pwp_mono; [exact Hd| |by intros ? ? []].
  cbn beta. intros ? s3 (_ & C3 & Ha). unfold all_answered in *. rewrite E2 in Ha.
  apply pwp_bind, pwp_gets, pwp_bind, pwp_modify. set (s4 := set_local_queue [] s3).
  assert (Hl : forall l s', pending s' = pending s4 -> state_cell s' = state_cell s4 -> local_queue s' = [] ->
    pwp (for_each (fun request => raise_flag (local_cancel request)) l : DM unit)
      (fun _ s' => pending s' = pending s4 /\ state_cell s' = state_cell s4 /\ local_queue s' = []) never s').
  { induction l as [|r l IH]; intros s' H1 H2 H3; [done|]. cbn [for_each]. apply pwp_bind, pwp_modify. by apply IH. }
  eapply pwp_mono; [by apply Hl| |done]. cbn beta. intros ? s5 (-> & C5 & Hq5).
  split; [exact Ha|]. split; [|done].
  unfold runtime_state. rewrite C5. unfold s4. cbn [state_cell set_local_queue]. by rewrite C3, C2.
Qed.

(** C7: The driver forgets no call.  After any calls of the clients, rounds of
    the driver, steps of workers, calls of the object service and events of the
    transport: a call that is not answered is in the table of pending calls,
    unless it was refused or its future was dropped; an entry of the table is
    unanswered and belongs to one request; a round of [progress] answers every
    call whose deadline has passed, and if the runtime fails in it no call is left
    pending; and shutting down answers every pending call with [Shutdown] before
    it waits for anything. *)
Theorem driver_answers_calls G s :
  calling G s ->
  (forall p v, promises (pending s) !! p = Some v -> promise_done v = false ->
     p ∈ G \/ exists r e, Pending.entries (pending s) !! r = Some e /\ promise e = p) /\
  (forall r e, Pending.entries (pending s) !! r = Some e ->
     (exists w, promises (pending s) !! promise e = Some (mkPromise None w false)) /\
     forall r' e', Pending.entries (pending s) !! r' = Some e' -> promise e' = promise e -> r' = r) /\
  (forall n x s', drives n s -> progress n s = (x, s') -> x <> Err Panic ->
     (forall r e, Pending.entries (pending s') !! r = Some e -> instants (clock s) < Pending.expires_at e) /\
     (runtime_state s' = Error.Failed -> Pending.entries (pending s') = ∅)) /\
  (forall x s', stop_calls s = (x, s') -> x <> Err Panic ->
     x = Ok tt /\ all_answered (Err RuntimeError_Shutdown) s s').
Proof.
  intros Hc%calling_calls. pose proof (tr_inv _ _ _ _ _ Hc) as Hinv. split_and!.
  - intros p v Hp Hd. destruct (ci_settled _ _ _ Hinv p v Hp Hd) as [?|Ho]; [by left|].
    rewrite app_nil_r in Ho. right. by apply owned_entry.
  - intros r e He. by apply (entry_waits _ _ r e Hinv).
  - intros n x s' Hn Hp Hx.
    assert (Ht : Tracked true any_entry G [] s).
    { destruct Hc. split; try done. intros _ Hf. by destruct Hn as [[Hn|Hn] _]; rewrite Hn in Hf. }
    assert (Hr : pwp (progress n : DM RuntimeProgress)
      (fun _ => Tracked true (fun _ e => instants (clock s) < Pending.expires_at e) G [])
      (fun _ => Tracked true (fun _ e => instants (clock s) < Pending.expires_at e) G []) s).
    { apply calls_expired_progress; [done|]. eapply pwp_mono; [by apply tracked_expire| |done].
      intros ? s1. apply tracked_mono. by intros r e []. }
    unfold pwp in Hr. rewrite Hp in Hr. destruct x as [|[]]; [..|done]; by destruct Hr; eauto.
  - intros x s' Hs Hx. pose proof (stop_calls_answers G s Hc) as Hr. unfold pwp in Hr. rewrite Hs in Hr.
    destruct x as [[]|[]]; [by destruct Hr|by destruct Hr|done].
Qed.
End Calls.

(** ** Examples *)

(** A call of locality 1 that may take three instants. *)
Definition ex_spawn : driver_call (Net := ExNet) :=
  Do_spawn (Place_new 1 0) 41 (Encoded [to_le_bytes 8 5]) (mkSpawnOptions 3 None) None.
Definition ex_called : RuntimeState.Runtime ExNet := acted [ex_spawn] ex_runtime.

Lemma ex_called_calling : calling ∅ ex_called.
Proof.
  assert (Ha : bool_decide (is_Some (acts [ex_spawn] ex_runtime)) = true) by (vm_compute; reflexivity).
  apply acts_some in Ha. fold ex_called in Ha. cbn [acts] in Ha.
  destruct (act ex_spawn ex_runtime) as [[[]|e] s] eqn:Hc; [|done]. injection Ha as <-.
  pose proof (Calling_step ∅ ex_runtime ex_spawn (Ok tt) s (Calling_new _ _ _)) as Hs.
  cbn [gone ex_spawn] in Hs. rewrite (left_id_L ∅ (∪)) in Hs. by apply Hs.
Qed.

Lemma ex_called_promise : promises (pending ex_called) !! 0 = Some (mkPromise None None false).
Proof. vm_compute. reflexivity. Qed.

Lemma driver_answers_calls_witness :
  (exists r e, Pending.entries (pending ex_called) !! r = Some e /\ promise e = 0) /\
  drives 8 ex_called /\
  promises (pending (stop_calls ex_called).2) !! 0 = Some (mkPromise (Some (Err RuntimeError_Shutdown)) None true).
Proof.
  destruct (driver_answers_calls ∅ ex_called ex_called_calling) as (Hopen & _ & _ & Hstop).
  assert (Hp : exists r e, Pending.entries (pending ex_called) !! r = Some e /\ promise e = 0).
  { destruct (Hopen 0 _ ex_called_promise eq_refl) as [Hin|Hin]; [by apply not_elem_of_empty in Hin|exact Hin]. }
  split; [exact Hp|]. split; [split; [left|]; vm_compute; reflexivity|].
  destruct Hp as (r & e & Hr & He). destruct (stop_calls ex_called) as [x s'] eqn:Hs.
  assert (Hx : (stop_calls ex_called).1 = Ok tt) by (vm_compute; reflexivity).
  rewrite Hs in Hx. cbn in Hx. destruct (Hstop x s' eq_refl) as (_ & _ & Ha); [rewrite Hx; discriminate|].
  rewrite <- He. exact (Ha r e Hr).
Defined.
