(* ===== verification/DriverFaults.v ===== *)
(** * DriverFaults: where the driver does not do what it means to

    Three ways in which one input of a peer, or one full queue, makes the runtime
    lose work or fail as a whole.  The other files of the driver show what holds
    around them: the accounts of [DriverRequests] are those of runtimes whose
    rounds succeed. *)
From Stdlib Require Import Strings.Byte.
From S2P Require Import Prelude Text Protocol Transport Error RuntimeTypes RuntimeWire Dedup Action Pending Domain ObjectWire ObjectRegistry Objects Migration ObjectRuns ObjectWorld RuntimeState Driver DriverRuns DriverRequests DriverCalls.

Section Faults.
Context `{AnyTypes} {Net : Type} `{!TransportDriver Net} `{!Surroundings Net}.
Abbreviation Runtime := (RuntimeState.Runtime Net).
Abbreviation DM := (M Runtime RuntimeError).
Implicit Types s : Runtime.

(** *** A repeated request *)

(** A request that was answered otherwise than with a redirect, or cancelled. *)
Definition answered (st : DedupState) : bool :=
  match st with
  | Dedup_Running _ _ _ | Dedup_Completed _ _ (Some (Msg_Moved, _)) _ _ => false
  | Dedup_Completed _ _ _ _ _ | Dedup_Cancelled _ _ _ => true
  end.

Definition redirect_error : RuntimeError := RuntimeError_Protocol (lit "redirect changed request action or domain").

Lemma release_answered r a d st (t : DedupTable) :
  Dedup.entries t !! r = Some st -> answered st = true ->
  release_redirect r a d t = (Err (Raise redirect_error), t).
Proof.
  intros Hr Ha. unfold release_redirect. mrun. unfold id. rewrite Hr.
  destruct st as [| |]; [done| |done]. destruct response as [[[] p]|]; done.
Qed.

Lemma handle_answered source trace m st s :
  runtime_state s = Running -> request_targets_current (action m) (payload m) (objects s) = true ->
  Dedup.entries (dedup s) !! RuntimeWire.request m = Some st -> answered st = true ->
  exists s', handle_request source trace m s = (Err (Raise redirect_error), s') /\ quiet s s'.
Proof.
  intros Hs Hc Hr Ha. unfold handle_request, mbind, M_bind, gets. rewrite Hs. rewrite bool_decide_eq_true_2 by done. cbn [negb]. rewrite Hc.
  cbn [mwhen]. unfold on_dedup, on_part. rewrite (release_answered _ _ _ st) by done.
  eexists. split; [reflexivity|]. done.
Qed.

(** A peer that repeats a request for a resident object, as it may after a lost
    answer, brings the whole runtime down: once the request has been answered (or
    cancelled), its second arrival ends the round with a protocol error, the state
    is [Failed], and every pending call of this locality gets that error, although
    phase 2 promises that a duplicate is answered from the table of requests. *)
Theorem object_duplicate_fails_runtime G s p m st x s' :
  calling G s -> runtime_state s = Running ->
  RuntimeWire.decode p = Ok m -> msg_kind m = Msg_Request ->
  request_targets_current (action m) (payload m) (objects s) = true ->
  Dedup.entries (dedup s) !! RuntimeWire.request m = Some st -> answered st = true ->
  or_fail (handle_transport_event (Incoming p)) s = (x, s') -> x <> Err Panic ->
  x = Err (Raise redirect_error) /\ runtime_state s' = Error.Failed /\
  all_answered (Err redirect_error) s s'.
Proof.
  intros Hc%calling_calls Hs Hd Hk Ht Hr Ha He Hx.
  assert (Hm : exists s1, handle_transport_event (Incoming p) s = (Err (Raise redirect_error), s1) /\ quiet s s1).
  { unfold handle_transport_event. unfold count, mbind, M_bind, modify, lift. rewrite Hd. cbn [map_err].
    unfold handle_message. rewrite Hk.
    edestruct (handle_answered (Protocol.source p) (Protocol.trace_id p) m st
      (set_counts (add_received (channel p) (counts s)) s)) as (s1 & -> & Hq); [done..|].
    exists s1. split; [done|]. done. }
  destruct Hm as (s1 & Hm & Hq). unfold or_fail, or_else, outcome, mbind, M_bind in He. rewrite Hm in He.
  pose proof (tracked_fail _ _ _ redirect_error s1 (tracked_quiet _ _ _ _ _ _ Hq Hc)) as Hf. unfold pwp in Hf.
  destruct (fail redirect_error s1) as [[[]|[]] s2]; [|done|by injection He as <- _].
  injection He as <- <-. destruct Hq as (E & _). unfold all_answered in *. rewrite E in Hf. by destruct Hf as (_ & ? & ?).
Qed.

(** *** Retirements *)

(** When one retirement cannot be sent, only that one is put back. *)
Theorem unsent_retirements_lost r rest e s s1 :
  send_retirement r s = (Err (Raise e), s1) ->
  exists s', send_retirements (r :: rest) s = (Ok tt, s') /\ retirements (objects s') = r :: retirements (objects s1).
Proof.
  intros Hr. cbn [send_retirements]. unfold outcome, mbind, M_bind. rewrite Hr.
  eexists. split; [reflexivity|]. done.
Qed.
End Faults.

(** ** Examples *)

(** A locality with one object and a domain with one worker and room for one job,
    and requests for the object from locality 2. *)
Definition ex_pool : DomainRegistry :=
  match DomainRegistry_new (fun _ => true) [mkDomainConfig 1 1 1] 4 with Ok s => s | Err _ => ex_start end.
Definition ex_host : RuntimeState.Runtime ExNet := Runtime_new (mkExNet [] [] 8) ex_pool (ex_service 0).
Definition ex_insert : driver_call (Net := ExNet) := Do_service (Call_insert (ex_envelope true) (ex_state 3) 0).
Definition ex_home : RuntimeState.Runtime ExNet := (act ex_insert ex_host).2.

Definition ex_message (n : Z) (action : ActionId) : RuntimeMessage :=
  mkRuntimeMessage Msg_Request (mkRequestId 2 n) action 1 1000
    (ObjectEnvelope_encode (ex_envelope false) [to_le_bytes 8 n]).
Definition ex_sent (n : Z) (action : ActionId) : Parcel :=
  mkParcel 1 n Channel_Action ParcelKind_Data 2 0 None (encode (ex_message n action)).
Definition arrives (p : Parcel) : driver_call (Net := ExNet) :=
  Do_transport (fun n => mkExNet (inbox n ++ [Incoming p]) (outbox n) (accepts n)).
Definition ex_served : list (driver_call (Net := ExNet)) := replicate 11 (Do_worker 0 0 0).

Lemma ex_home_serving : serving ex_home.
Proof.
  apply (Serving_step ex_host ex_insert (act ex_insert ex_host).1).
  - apply Serving_new; [|reflexivity..]. split; vm_compute; intuition discriminate.
  - unfold ex_home. by destruct (act ex_insert ex_host).
  - cbn. split; [by eexists|by apply Forall_nil].
Qed.

(** A write runs, two reads of the object wait behind it; the write is done. *)
Definition ex_ready : RuntimeState.Runtime ExNet :=
  acted ([arrives (ex_sent 1 102); Do_progress 8; arrives (ex_sent 2 101); arrives (ex_sent 3 101); Do_progress 8]
           ++ ex_served) ex_home.

(** Two jobs [retry_ready] hands out for the one free slot of a domain: the round
    ends with an error that does not fail the runtime, and the second job is
    nowhere, while its request stays recorded as running and its object keeps
    counting it. *)
Theorem ready_job_lost :
  exists s e, serving s /\ let s' := (progress 8 s).2 in
    (progress 8 s).1 = Err (Raise e) /\ runtime_state s' = Running /\
    (exists t, Dedup.entries (dedup s') !! mkRequestId 2 3 = Some (Dedup_Running 101 1 t)) /\
    (mkRequestId 2 3, 101, 1) ∉ places s' /\
    length (uses s') = 1%nat /\ in_flight <$> Objects.entries (objects s') !! ex_object = Some 2%nat.
Proof.
  exists ex_ready, (RuntimeError_ResourceExhausted ActionQueue 1). split.
  - apply (acts_serving ([arrives (ex_sent 1 102); Do_progress 8; arrives (ex_sent 2 101); arrives (ex_sent 3 101);
      Do_progress 8] ++ ex_served) ex_home); [apply ex_home_serving|reflexivity|].
    apply acts_some. vm_compute. reflexivity.
  - cbv zeta. split; [vm_compute; reflexivity|]. split; [vm_compute; reflexivity|].
    split; [exists 2; vm_compute; reflexivity|].
    split; [apply (bool_decide_eq_true_1 ((mkRequestId 2 3, 101, 1) ∉ places _)); vm_compute; reflexivity|].
    split; vm_compute; reflexivity.
Qed.

(** The answer to a write was sent; the request arrives once more. *)
Definition ex_replied : RuntimeState.Runtime ExNet :=
  acted ([arrives (ex_sent 1 102); Do_progress 8] ++ ex_served ++ [Do_progress 8]) ex_home.

Example ex_duplicate_fails :
  runtime_state ex_replied = Running /\
  let '(x, s') := act (Do_progress 8) (act (arrives (ex_sent 1 102)) ex_replied).2 in
  x = Err (Raise redirect_error) /\ runtime_state s' = Error.Failed.
Proof. vm_compute. done. Qed.
