(* ===== verification/Builder.v ===== *)
(** * Builder: what a runtime is started with

    Models [Runtime::builder] and [RuntimeBuilder] of
    [crates/hataori-runtime/src/runtime.rs].  The methods are computations on the
    builder; [start] answers what [Driver.Runtime_new] puts together.  The
    closures over the object service that [install] registers, the text of a
    protocol error and the start of a thread pool are arguments. *)
From Stdlib Require Import Strings.Byte.
From stdpp Require Import sorting.
From S2P Require Import Prelude Text Protocol Error RuntimeTypes Action Pending Domain ObjectWire ObjectRegistry Objects Migration RuntimeState.

Section Builder.
Context `{AnyTypes} (display_protocol : ProtocolError -> text).

Record RuntimeBuilder : Type := mkRuntimeBuilder {
  build_run : RunId;
  protocol_limits : ProtocolLimits;
  runtime_limits : RuntimeLimits;
  registry : ActionRegistry;
  object_registry : ObjectRegistry;
  build_objects : ObjectLimits;
  build_domains : list DomainConfig;
  sealed : bool;
}.

Definition set_registry (r : ActionRegistry) (b : RuntimeBuilder) : RuntimeBuilder :=
  mkRuntimeBuilder (build_run b) (protocol_limits b) (runtime_limits b) r (object_registry b) (build_objects b)
    (build_domains b) (sealed b).
Definition set_object_registry (r : ObjectRegistry) (b : RuntimeBuilder) : RuntimeBuilder :=
  mkRuntimeBuilder (build_run b) (protocol_limits b) (runtime_limits b) (registry b) r (build_objects b)
    (build_domains b) (sealed b).
Definition set_object_limits (l : ObjectLimits) (b : RuntimeBuilder) : RuntimeBuilder :=
  mkRuntimeBuilder (build_run b) (protocol_limits b) (runtime_limits b) (registry b) (object_registry b) l
    (build_domains b) (sealed b).
Definition set_domains (l : list DomainConfig) (b : RuntimeBuilder) : RuntimeBuilder :=
  mkRuntimeBuilder (build_run b) (protocol_limits b) (runtime_limits b) (registry b) (object_registry b)
    (build_objects b) l (sealed b).
Definition seal (b : RuntimeBuilder) : RuntimeBuilder :=
  mkRuntimeBuilder (build_run b) (protocol_limits b) (runtime_limits b) (registry b) (object_registry b)
    (build_objects b) (build_domains b) true.

Abbreviation BM := (M RuntimeBuilder RuntimeError).

(** A method of one of the two registries. *)
Definition on_registry {A} (m : M ActionRegistry RuntimeError A) : BM A := fun b =>
  let '(r, x) := m (registry b) in (r, set_registry x b).
Definition on_object_registry {A} (m : M ObjectRegistry RuntimeError A) : BM A := fun b =>
  let '(r, x) := m (object_registry b) in (r, set_object_registry x b).

Definition invalid_limits (e : ProtocolError) : RuntimeError :=
  RuntimeError_Protocol (lit "invalid protocol limits: " ++ display_protocol e).

(** ** [Runtime::builder] *)

Definition saturating_mul (m a b : Z) : Z := Z.min m (a * b).

Definition builder (run : RunId) (pl : ProtocolLimits) (rl : RuntimeLimits) : result RuntimeError RuntimeBuilder :=
  map_err invalid_limits (ProtocolLimits_validate pl);;
  largest_runtime_frame ← ok_or
    (bytes ← checked_add usize_max (max_payload_bytes pl) (saturating_mul usize_max (max_segments pl) 8);
     checked_add usize_max bytes 128)
    (RuntimeError_InvalidLimits "runtime frame capacity overflow");
  fail_if (max_inflight_bytes_per_peer pl <? control_reserved_bytes_per_peer pl)
    (RuntimeError_InvalidLimits "control reservation exceeds in-flight capacity");;
  let action_byte_limit := max_inflight_bytes_per_peer pl - control_reserved_bytes_per_peer pl in
  fail_if (action_byte_limit <? largest_runtime_frame)
    (RuntimeError_InvalidLimits "one maximum runtime parcel must fit the action byte reservation");;
  let d := ObjectLimits_default in
  let object_limits := mkObjectLimits (max_objects d) (max_mailbox_per_object d) (max_resolver_entries d)
    (max_local_leases d) (max_roots d) (max_placement_tickets d) (max_transfers d) (max_migrations d)
    (max_prepared_migrations d) (max_forwarders d) (max_redirects d)
    (Z.min (max_snapshot_bytes d) (saturating_sub (max_payload_bytes pl) MIGRATION_HEADER_BYTES))
    (Z.min (max_snapshot_segments d) (saturating_sub (max_segments pl) 1))
    (forwarding_ttl d) (lease_renew_interval d) (lease_ttl d) (lease_grace d) in
  object_limits ← ObjectLimits_validate object_limits;
  rl ← RuntimeLimits_validate rl;
  Ok (mkRuntimeBuilder run pl rl ActionRegistry_default ObjectRegistry_default object_limits [] false).

(** ** Registration *)

(** [if self.sealed { return Err(BuilderSealed) }]. *)
Definition unsealed : BM unit :=
  b ← gets sealed; if b : bool then raise RuntimeError_BuilderSealed else mret tt.

Definition object_limits (l : ObjectLimits) : BM unit :=
  unsealed;;
  l ← lift (ObjectLimits_validate l);
  pl ← gets protocol_limits;
  if (saturating_sub (max_payload_bytes pl) MIGRATION_HEADER_BYTES <? max_snapshot_bytes l)
     || (max_segments pl <=? max_snapshot_segments l)
  then raise (RuntimeError_InvalidLimits "migration snapshot exceeds protocol payload limits")
  else modify (set_object_limits l).

(** The action [id] is not registered yet. *)
Definition unregistered (id : ActionId) : BM unit :=
  r ← gets registry;
  if bool_decide (is_Some (Action.get r id)) then raise (RuntimeError_DuplicateAction id) else mret tt.

(** The four methods for a type differ in the last call only. *)
Definition register_object (T : DistributedObject) (m : M ObjectRegistry RuntimeError unit) : BM unit :=
  unsealed;;
  object_type ← lift (object_type_id (TYPE_ID T));
  create ← lift (create_action_id object_type);
  unregistered create;;
  on_object_registry m.
Definition register_object_exclusive (T : DistributedObject) : BM unit := register_object T (register_exclusive T).
Definition register_object_read_write (T : DistributedObject) : BM unit := register_object T (register_read_write T).
Definition register_mobile_object_exclusive (T : MobileObject) : BM unit :=
  register_object (mobile_object T) (register_mobile_exclusive T).
Definition register_mobile_object_read_write (T : MobileObject) : BM unit :=
  register_object (mobile_object T) (register_mobile_read_write T).

Definition action_id (raw : Z) : result RuntimeError ActionId :=
  map_err (fun _ => RuntimeError_InvalidActionId) (ActionId_new raw).

Definition register_object_read (T : DistributedObject) (A : ObjectReadAction T) : BM unit :=
  unsealed;;
  id ← lift (action_id (read_ID T A));
  unregistered id;;
  on_object_registry (register_read T A).
Definition register_object_write (T : DistributedObject) (A : ObjectWriteAction T) : BM unit :=
  unsealed;;
  id ← lift (action_id (write_ID T A));
  unregistered id;;
  on_object_registry (register_write T A).

Definition register (A : Action) (handler : sort_of (action_ty A) -> Handled (sort_of (Output A))) : BM unit :=
  unsealed;;
  id ← lift (action_id (ID A));
  placement ← lift (placement_action_id id);
  b ← gets (fun b => b);
  if reserves_action (object_registry b) id || reserves_action (object_registry b) placement
     || bool_decide (is_Some (Action.get (registry b) placement))
  then raise (RuntimeError_DuplicateAction id) else
  on_registry (Action.register A handler);;
  found ← gets (fun b => Action.get (registry b) id);
  match found with
  | Some handler => on_object_registry (register_placement A handler);; mret tt
  | None => panic
  end.

Definition domain (config : DomainConfig) : BM unit :=
  unsealed;;
  b ← gets (fun b => b);
  let l := runtime_limits b in
  if (config_workers config =? 0) || (max_workers_per_domain l <? config_workers config)
     || (config_queue_capacity config =? 0) || (max_action_queue_per_domain l <? config_queue_capacity config)
  then raise (RuntimeError_InvalidLimits "invalid domain configuration") else
  if max_domains l <=? len (build_domains b) then raise (RuntimeError_InvalidLimits "too many domains") else
  if existsb (fun c => config_id c =? config_id config) (build_domains b)
  then raise (RuntimeError_InvalidLimits "duplicate domain id")
  else modify (set_domains (build_domains b ++ [config])).

(** ** Handshake and start *)

Definition RUNTIME_VERSION : RuntimeVersion := mkRuntimeVersion 0 3 0.

Definition hello : BM Hello :=
  modify seal;;
  b ← gets (fun b => b);
  limits ← lift (map_err invalid_limits (ProtocolLimits_validate (protocol_limits b)));
  mret (mkHello (build_run b) RUNTIME_VERSION (fingerprint (registry b)) (ObjectRegistry_fingerprint (object_registry b))
          3 limits).

(** What [start] assembles: the constants of the runtime, its pools and its
    object service. *)
Record Started : Type := mkStarted {
  started_config : Config; started_domains : DomainRegistry; started_objects : ObjectService;
}.

(** Without a configured domain, the default one. *)
Definition start_configs (b : RuntimeBuilder) : list DomainConfig :=
  if bool_decide (build_domains b = [])
  then [mkDomainConfig (config_id DomainConfig_default) (config_workers DomainConfig_default)
          (max_action_queue_per_domain (runtime_limits b))]
  else build_domains b.

(** [locality] and [members] are those of the driver's transport. *)
Definition start (locality : LocalityId) (members : list LocalityId) (service : ServiceHandlers)
    (build : DomainConfig -> bool) (b : RuntimeBuilder) : result (exn RuntimeError) Started :=
  if negb (sealed b) then Err (Raise RuntimeError_HandshakeNotPrepared) else
  if negb (bool_decide (locality ∈ members)) then Err (Raise (RuntimeError_InvalidMembership locality)) else
  let objects := ObjectService_new (build_run b) locality (build_objects b) (object_registry b) in
  let '(installed, r) := install (object_registry b) service (registry b) in
  installed;;
  capacity ← ok_or (checked_add usize_max (max_pending_calls (runtime_limits b)) (max_dedup_entries (runtime_limits b)))
    (Raise (RuntimeError_InvalidLimits "completion capacity overflow"));
  pools ← map_err Raise (DomainRegistry_new build (start_configs b) capacity);
  Ok (mkStarted
        (mkConfig locality (build_run b) (runtime_limits b) (protocol_limits b) r (max_local_leases (build_objects b))
           (lease_renew_interval (build_objects b)))
        pools objects).
End Builder.

(** ** Installing *)

Section Install.
Context `{AnyTypes}.

Definition no_error {E S} (_ : E) (_ : S) : Prop := False.

(** [f x] adds the handler [h x] under [key x] when that is free. *)
Definition adds {A} (f : A -> M ActionRegistry RuntimeError unit) (key : A -> ActionId) (h : A -> RegisteredAction)
    (x : A) : Prop :=
  forall r, Action.get r (key x) = None ->
    wp (f x) (fun _ r' => Action.entries r' = <[key x := h x]> (Action.entries r)) no_error r.

Lemma insert_erased_adds id i o h r :
  i <> 0 -> o <> 0 -> Action.get r id = None ->
  wp (insert_erased id i o h) (fun _ r' => Action.entries r' = <[id := h]> (Action.entries r)) no_error r.
Proof.
  intros Hi Ho Hr. unfold insert_erased. rewrite (proj2 (Z.eqb_neq _ _) Hi), (proj2 (Z.eqb_neq _ _) Ho).
  cbn [orb]. apply wp_bind, wp_gets. unfold Action.get in Hr. by rewrite Hr.
Qed.

Lemma installed_all {A} (f : A -> M ActionRegistry RuntimeError unit) key h l : forall r,
  (forall x, x ∈ l -> adds f key h x) -> NoDup (key <$> l) -> (forall x, x ∈ l -> Action.get r (key x) = None) ->
  wp (for_each f l)
    (fun _ r' => (forall id, id ∉ key <$> l -> Action.get r' id = Action.get r id) /\
       (forall x, x ∈ l -> Action.get r' (key x) = Some (h x))) no_error r.
Proof.
  induction l as [|x l IH]; intros r Hf Hnd Hfree; cbn [for_each].
  - apply wp_ret. split; [done|]. by intros x ?%elem_of_nil.
  - cbn in Hnd. apply NoDup_cons in Hnd as [Hx Hnd].
    apply wp_bind. eapply wp_mono; [apply (Hf x); [by left|apply Hfree; by left]| |done].
    intros ? r1 E1. eapply wp_mono; [apply IH| |done]; try done.
    + intros y Hy. apply Hf. by right.
    + intros y Hy. unfold Action.get. rewrite E1, lookup_insert_ne; [apply Hfree; by right|].
      intros Heq. apply Hx. rewrite Heq. by apply list_elem_of_fmap_2.
    + cbn beta. intros ? r2 [H1 H2]. split.
      * intros id Hid. cbn in Hid. apply not_elem_of_cons in Hid as [Hne Hid].
        rewrite H1 by done. unfold Action.get. by rewrite E1, lookup_insert_ne.
      * intros y [->|Hy]%elem_of_cons; [|by apply H2]. rewrite H1 by done. unfold Action.get.
        by rewrite E1, lookup_insert_eq.
Qed.

Lemma btree_entries_keys {A} (m : gmap Z A) : (btree_entries m).*1 = btree_keys m.
Proof.
  unfold btree_entries. assert (Hin : forall k, k ∈ btree_keys m -> is_Some (m !! k)).
  { intros k Hk. unfold btree_keys in Hk. rewrite merge_sort_Permutation in Hk.
    by apply elem_of_elements, elem_of_dom in Hk. }
  induction (btree_keys m) as [|k l IH]; [done|]. cbn. destruct (Hin k) as [x Hx]; [by left|]. rewrite Hx. cbn.
  f_equal. apply IH. intros k' Hk'. apply Hin. by right.
Qed.
Lemma btree_keys_in {A} (m : gmap Z A) k : k ∈ btree_keys m <-> is_Some (m !! k).
Proof. unfold btree_keys. by rewrite merge_sort_Permutation, elem_of_elements, elem_of_dom. Qed.
Lemma btree_keys_nodup {A} (m : gmap Z A) : NoDup (btree_keys m).
Proof. unfold btree_keys. rewrite merge_sort_Permutation. apply NoDup_elements. Qed.
Lemma btree_entries_in {A} (m : gmap Z A) k x : (k, x) ∈ btree_entries m <-> m !! k = Some x.
Proof.
  unfold btree_entries. rewrite list_elem_of_bind. split.
  - intros (k' & Hkx & _). destruct (m !! k') eqn:Hk; [|by apply elem_of_nil in Hkx].
    apply list_elem_of_singleton in Hkx. by injection Hkx as -> ->.
  - intros Hk. exists k. rewrite Hk. split; [by left|]. apply btree_keys_in. by eexists.
Qed.

(** ** The registries of a builder *)

(** The identifiers [install] uses for the registered types, actions and
    placements are apart from each other, from those of the runtime and from the
    registered actions. *)
Definition created (r : ObjectRegistry) (id : ActionId) : Prop :=
  exists t x, types r !! t = Some x /\ create_action_id t = Ok id.

Record registries_wf (a : ActionRegistry) (r : ObjectRegistry) : Prop := {
  rw_reserved : forall id, id ∈ reserved_ids ->
    Action.get a id = None /\ actions r !! id = None /\ placements r !! id = None /\ ~ created r id;
  rw_registered : forall id h, Action.get a id = Some h ->
    actions r !! id = None /\ placements r !! id = None /\ ~ created r id;
  rw_placements : forall id x, placements r !! id = Some x ->
    actions r !! id = None /\ ~ created r id /\ placement_input x <> 0 /\ placement_output x <> 0;
  rw_actions : forall id x, actions r !! id = Some x -> ~ created r id /\ action_input x <> 0 /\ action_output x <> 0;
  rw_types : forall t x, types r !! t = Some x -> type_schema x <> 0 /\ exists id, create_action_id t = Ok id;
  rw_created : forall t t' x x' id, types r !! t = Some x -> types r !! t' = Some x' ->
    create_action_id t = Ok id -> create_action_id t' = Ok id -> t = t';
}.

Definition create_id (t : Z) : ActionId := match create_action_id t with Ok id => id | Err _ => 0 end.

(** What [install] leaves in the registry of actions. *)
Definition installed (service : ServiceHandlers) (a a' : ActionRegistry) (r : ObjectRegistry) : Prop :=
  (forall id h, Action.get a id = Some h -> Action.get a' id = Some h) /\
  (forall id, id ∈ reserved_ids -> Action.get a' id = Some (control_handler service id)) /\
  (forall t x, types r !! t = Some x ->
     exists id, create_action_id t = Ok id /\ Action.get a' id = Some (create_handler service t)) /\
  (forall id x, placements r !! id = Some x -> Action.get a' id = Some (colocated_handler (placement_handler x))) /\
  (forall id x, actions r !! id = Some x -> Action.get a' id = Some (action_handler service id)).

Lemma reserved_split : reserved_ids = lease_control_ids ++ migration_ids.
Proof. done. Qed.
Lemma reserved_nodup : NoDup reserved_ids.
Proof. apply (bool_decide_unpack (NoDup reserved_ids)). vm_compute. exact I. Qed.

Lemma create_id_created (r : ObjectRegistry) t x :
  types r !! t = Some x -> (exists id, create_action_id t = Ok id) -> created r (create_id t).
Proof. intros Ht [id Hid]. exists t, x. unfold create_id. by rewrite Hid. Qed.

Lemma fst_entries {A} (m : gmap Z A) k : k ∈ fst <$> btree_entries m <-> is_Some (m !! k).
Proof. by rewrite btree_entries_keys, btree_keys_in. Qed.

Abbreviation create_key := (fun p : Z * ObjectTypeRegistration => create_id p.1).

Lemma create_keys (r : ObjectRegistry) k :
  (forall t x, types r !! t = Some x -> exists id, create_action_id t = Ok id) ->
  k ∈ create_key <$> btree_entries (types r) -> created r k.
Proof.
  intros Hok ([t x] & -> & Hin)%list_elem_of_fmap. apply btree_entries_in in Hin.
  apply (create_id_created r t x Hin). eauto.
Qed.

Lemma create_keys_nodup a r : registries_wf a r -> NoDup (create_key <$> btree_entries (types r)).
Proof.
  intros Hwf. assert (Hl : forall l : list (Z * ObjectTypeRegistration), (forall p, p ∈ l -> types r !! p.1 = Some p.2) ->
    NoDup l.*1 -> NoDup (create_key <$> l)).
  { induction l as [|[t x] l IH]; intros Hin Hnd; cbn; [constructor|].
    cbn in Hnd. apply NoDup_cons in Hnd as [Ht Hnd]. constructor; [|apply IH; [|done]; intros p Hp; apply Hin; by right].
    intros ([t' x'] & Heq & Hp)%list_elem_of_fmap. cbn in Heq. apply Ht.
    assert (Hx : types r !! t = Some x) by (apply (Hin (t, x)); by left).
    assert (Hx' : types r !! t' = Some x') by (apply (Hin (t', x')); by right).
    destruct (rw_types _ _ Hwf t x Hx) as [_ [id Hid]]. destruct (rw_types _ _ Hwf t' x' Hx') as [_ [id' Hid']].
    unfold create_id in Heq. rewrite Hid, Hid' in Heq. subst id'.
    rewrite (rw_created _ _ Hwf t t' x x' id Hx Hx' Hid Hid'). by apply (list_elem_of_fmap_2 fst l (t', x')). }
  apply Hl; [by intros [t x] Hin%btree_entries_in|]. rewrite btree_entries_keys. apply btree_keys_nodup.
Qed.

(** Installing over well-formed registries succeeds. *)
Lemma install_installs service a r :
  registries_wf a r -> wp (install r service) (fun _ a' => installed service a a' r) no_error a.
Proof.
  intros Hwf. pose proof reserved_nodup as Hnd. rewrite reserved_split in Hnd.
  apply NoDup_app in Hnd as (N1 & N12 & N2).
  assert (Hres : forall id, id ∈ lease_control_ids \/ id ∈ migration_ids ->
    Action.get a id = None /\ actions r !! id = None /\ placements r !! id = None /\ ~ created r id).
  { intros id Hid. apply (rw_reserved _ _ Hwf). rewrite reserved_split. by apply elem_of_app. }
  assert (Hok : forall t x, types r !! t = Some x -> exists id, create_action_id t = Ok id)
    by (intros t x Ht; by apply (rw_types _ _ Hwf t x)).
  unfold install. apply wp_bind.
  eapply wp_mono; [apply (installed_all _ (fun id => id) (fun id => control_handler service id))| |done].
  { intros id _ a1. by apply insert_erased_adds. }
  { by rewrite list_fmap_id. }
  { intros id Hid. by apply Hres; left. }
  cbn beta. intros [] a1 [U1 H1]. rewrite list_fmap_id in U1. apply wp_bind.
  eapply wp_mono; [apply (installed_all _ (fun id => id) (fun id => control_handler service id))| |done].
  { intros id _ a2. by apply insert_erased_adds. }
  { by rewrite list_fmap_id. }
  { intros id Hid. rewrite U1; [by apply Hres; right|]. intros Hid1. by apply (N12 id). }
  cbn beta. intros [] a2 [U2 H2]. rewrite list_fmap_id in U2. apply wp_bind.
  assert (C12 : forall id, created r id -> id ∉ lease_control_ids /\ id ∉ migration_ids).
  { intros id Hc. split; intros Hid; by destruct (Hres id) as (_ & _ & _ & ?); auto. }
  eapply wp_mono; [apply (installed_all _ create_key (fun p => create_handler service p.1))| |done].
  { intros [t x] Hin a3 Ha3. apply btree_entries_in in Hin. destruct (rw_types _ _ Hwf t x Hin) as [Hs [id Hid]].
    unfold create_id in Ha3 |- *. cbn in *. rewrite Hid in Ha3 |- *. by apply insert_erased_adds. }
  { by apply (create_keys_nodup a). }
  { intros [t x] Hin. apply btree_entries_in in Hin. pose proof (create_id_created r t x Hin (Hok t x Hin)) as Hc.
    destruct (C12 _ Hc). cbn. rewrite U2, U1 by done. destruct (Action.get a (create_id t)) eqn:Hg; [|done].
    by destruct (rw_registered _ _ Hwf _ _ Hg) as (_ & _ & ?). }
  cbn beta. intros [] a3 [U3 H3]. apply wp_bind.
  assert (C3 : forall id, ~ created r id -> id ∉ create_key <$> btree_entries (types r))
    by (intros id Hc Hid; by apply Hc, create_keys).
  eapply wp_mono; [apply (installed_all _ fst (fun p => colocated_handler (placement_handler p.2)))| |done].
  { intros [id x] Hin a4. apply btree_entries_in in Hin. by apply insert_erased_adds; apply (rw_placements _ _ Hwf id x). }
  { rewrite btree_entries_keys. apply btree_keys_nodup. }
  { intros [id x] Hin. apply btree_entries_in in Hin. destruct (rw_placements _ _ Hwf id x Hin) as (_ & Hc & _). change (Action.get a3 id = None).
    rewrite U3, U2, U1; [|intros Hid; destruct (Hres id) as (_ & _ & Hp & _); [auto|congruence]..|by apply C3].
    destruct (Action.get a id) eqn:Hg; [|done]. destruct (rw_registered _ _ Hwf _ _ Hg) as (_ & Hp & _). congruence. }
  cbn beta. intros [] a4 [U4 H4].
  eapply wp_mono; [apply (installed_all _ fst (fun p => action_handler service p.1))| |done].
  { intros [id x] Hin a5. apply btree_entries_in in Hin. by apply insert_erased_adds; apply (rw_actions _ _ Hwf id x). }
  { rewrite btree_entries_keys. apply btree_keys_nodup. }
  { intros [id x] Hin. apply btree_entries_in in Hin. destruct (rw_actions _ _ Hwf id x Hin) as (Hc & _). change (Action.get a4 id = None).
    rewrite U4, U3, U2, U1; [|intros Hid; destruct (Hres id) as (_ & Hp & _ & _); [auto|congruence]..|by apply C3|].
    - destruct (Action.get a id) eqn:Hg; [|done]. destruct (rw_registered _ _ Hwf _ _ Hg) as (Hp & _). congruence.
    - intros [y Hy]%fst_entries. destruct (rw_placements _ _ Hwf id y Hy). congruence. }
  cbn beta. intros [] a5 [U5 H5]. unfold installed.
  assert (K4 : forall id, placements r !! id = None -> id ∉ fst <$> btree_entries (placements r))
    by (intros id Hid [y Hy]%fst_entries; congruence).
  assert (K5 : forall id, actions r !! id = None -> id ∉ fst <$> btree_entries (actions r))
    by (intros id Hid [y Hy]%fst_entries; congruence).
  split_and!.
  - intros id h Hg. destruct (rw_registered _ _ Hwf _ _ Hg) as (Ha & Hp & Hc).
    rewrite U5, U4, U3, U2, U1; auto; intros Hid; destruct (Hres id) as (Hn & _); auto; congruence.
  - intros id Hid. rewrite reserved_split in Hid. apply elem_of_app in Hid.
    destruct (Hres id Hid) as (_ & Ha & Hp & Hc). rewrite U5, U4, U3 by auto.
    destruct Hid as [Hid|Hid]; [|by apply H2]. rewrite U2; [by apply H1|]. intros Hid2. by apply (N12 id).
  - intros t x Ht. destruct (Hok t x Ht) as [id Hid]. exists id. split; [done|].
    assert (Hc : created r id) by (exists t, x; done).
    assert (Hkey : id = create_key (t, x)) by (unfold create_id; cbn; by rewrite Hid).
    rewrite U5, U4.
    + rewrite Hkey. by apply (H3 (t, x)), btree_entries_in.
    + apply K4. destruct (placements r !! id) as [y|] eqn:Hy; [|done]. by destruct (rw_placements _ _ Hwf id y Hy) as (_ & ? & _).
    + apply K5. destruct (actions r !! id) as [y|] eqn:Hy; [|done]. by destruct (rw_actions _ _ Hwf id y Hy) as (? & _).
  - intros id x Hx. rewrite U5; [by apply (H4 (id, x)), btree_entries_in|]. apply K5. by apply (rw_placements _ _ Hwf id x).
  - intros id x Hx. by apply (H5 (id, x)), btree_entries_in.
Qed.
End Install.

(** ** Any calls of a builder *)

Section Calls.
Context `{AnyTypes} (display_protocol : ProtocolError -> text).
Abbreviation BM := (M RuntimeBuilder RuntimeError).
Implicit Types (b : RuntimeBuilder) (r : ObjectRegistry).

Lemma reserves_false r id :
  reserves_action r id = false ->
  id ∉ reserved_ids /\ actions r !! id = None /\ placements r !! id = None /\ ~ created r id.
Proof.
  intros Hr. unfold reserves_action in Hr. apply orb_false_iff in Hr as [Hr H4]. apply orb_false_iff in Hr as [Hr H3].
  apply orb_false_iff in Hr as [H1 H2]. apply bool_decide_eq_false in H1, H2, H3.
  rewrite <- eq_None_not_Some in H2. rewrite <- eq_None_not_Some in H3. split_and!; try done.
  intros (t & x & Ht & Hc). apply not_true_iff_false in H4. apply H4, existsb_exists. exists t. split.
  - apply list_elem_of_In, btree_keys_in. by eexists.
  - unfold creates. rewrite Hc. apply Z.eqb_refl.
Qed.

Lemma registries_type a r t c x :
  registries_wf a r -> types r !! t = None -> create_action_id t = Ok c -> Action.get a c = None ->
  reserves_action r c = false -> type_schema x <> 0 ->
  registries_wf a (mkObjectRegistry (<[t := x]> (types r)) (actions r) (placements r)).
Proof.
  intros Hwf Ht Hc Ha Hr Hx. apply reserves_false in Hr as (R1 & R2 & R3 & R4).
  assert (Hcr : forall id, created (mkObjectRegistry (<[t := x]> (types r)) (actions r) (placements r)) id ->
    id = c \/ created r id).
  { intros id (t' & x' & Hl & Hid). cbn [types] in Hl. apply lookup_insert_Some in Hl as [[<- <-]|[_ Hl]]; [left; congruence|right; by exists t', x']. }
  destruct Hwf as [W1 W2 W3 W4 W5 W6]. split; cbn [types actions placements].
  - intros id Hid. destruct (W1 id Hid) as (? & ? & ? & ?). split_and!; try done. by intros [->|?]%Hcr.
  - intros id h Hg. destruct (W2 id h Hg) as (? & ? & ?). split_and!; try done. intros [->|?]%Hcr; [congruence|done].
  - intros id y Hy. destruct (W3 id y Hy) as (? & ? & ? & ?). split_and!; try done. intros [->|?]%Hcr; [congruence|done].
  - intros id y Hy. destruct (W4 id y Hy) as (? & ? & ?). split_and!; try done. intros [->|?]%Hcr; [congruence|done].
  - intros t' y [[<- <-]|[_ Hy]]%lookup_insert_Some; eauto.
  - intros t1 t2 y1 y2 id [[<- <-]|[N1 H1]]%lookup_insert_Some [[<- <-]|[N2 H2]]%lookup_insert_Some C1 C2; try done.
    + destruct R4. assert (id = c) as -> by congruence. by exists t2, y2.
    + destruct R4. assert (id = c) as -> by congruence. by exists t1, y1.
    + by apply (W6 t1 t2 y1 y2 id).
Qed.

Lemma registries_action a r id x :
  registries_wf a r -> Action.get a id = None -> reserves_action r id = false -> action_input x <> 0 -> action_output x <> 0 ->
  registries_wf a (mkObjectRegistry (types r) (<[id := x]> (actions r)) (placements r)).
Proof.
  intros [W1 W2 W3 W4 W5 W6] Ha Hr Hi Ho. apply reserves_false in Hr as (R1 & R2 & R3 & R4).
  assert (Hne : forall k, id <> k -> <[id := x]> (actions r) !! k = actions r !! k) by (intros; by apply lookup_insert_ne).
  split; cbn [types actions placements]; try done.
  - intros k Hk. destruct (W1 k Hk) as (? & ? & ? & ?). rewrite Hne; [done|]. by intros <-.
  - intros k h Hg. destruct (W2 k h Hg) as (? & ? & ?). rewrite Hne; [done|]. intros <-. congruence.
  - intros k y Hy. destruct (W3 k y Hy) as (? & ? & ? & ?). rewrite Hne; [done|]. intros <-. congruence.
  - intros k y [[<- <-]|[_ Hy]]%lookup_insert_Some; [done|]. by apply (W4 k y).
Qed.

Lemma registries_placement a r id p h i o x :
  registries_wf a r -> reserves_action r id = false -> reserves_action r p = false -> Action.get a p = None -> p <> id ->
  placement_input x <> 0 -> placement_output x <> 0 ->
  registries_wf (add_entry id h i o a) (mkObjectRegistry (types r) (actions r) (<[p := x]> (placements r))).
Proof.
  intros [W1 W2 W3 W4 W5 W6] Hr Hp Ha Hpi Hi Ho.
  apply reserves_false in Hr as (R1 & R2 & R3 & R4). apply reserves_false in Hp as (Q1 & Q2 & Q3 & Q4).
  assert (Hne : forall k, p <> k -> <[p := x]> (placements r) !! k = placements r !! k) by (intros; by apply lookup_insert_ne).
  assert (Hget : forall k, id <> k -> Action.get (add_entry id h i o a) k = Action.get a k)
    by (intros; by apply lookup_insert_ne).
  split; cbn [types actions placements]; try done.
  - intros k Hk. destruct (W1 k Hk) as (? & ? & ? & ?). rewrite Hne, Hget; [done|..]; by intros <-.
  - intros k g. destruct (decide (id = k)) as [<-|Hk]; [rewrite Hne by done; done|]. rewrite Hget by done. intros Hg.
    destruct (W2 k g Hg) as (? & ? & ?). rewrite Hne; [done|]. intros <-. congruence.
  - intros k y [[<- <-]|[_ Hy]]%lookup_insert_Some; [done|]. by apply (W3 k y).
Qed.

(** *** Methods *)

Inductive builder_call : Type :=
| Call_object_limits (l : ObjectLimits)
| Call_exclusive (T : DistributedObject)
| Call_read_write (T : DistributedObject)
| Call_mobile_exclusive (T : MobileObject)
| Call_mobile_read_write (T : MobileObject)
| Call_read (T : DistributedObject) (A : ObjectReadAction T)
| Call_write (T : DistributedObject) (A : ObjectWriteAction T)
| Call_register (A : Action) (handler : sort_of (action_ty A) -> Handled (sort_of (Output A)))
| Call_domain (config : DomainConfig)
| Call_hello.

Definition build_call (c : builder_call) : BM unit :=
  match c with
  | Call_object_limits l => object_limits l
  | Call_exclusive T => register_object_exclusive T
  | Call_read_write T => register_object_read_write T
  | Call_mobile_exclusive T => register_mobile_object_exclusive T
  | Call_mobile_read_write T => register_mobile_object_read_write T
  | Call_read T A => register_object_read T A
  | Call_write T A => register_object_write T A
  | Call_register A handler => register A handler
  | Call_domain config => domain config
  | Call_hello => hello display_protocol;; mret tt
  end.

(** The builders after some calls, accepted or refused. *)
Inductive built : RuntimeBuilder -> Prop :=
| Built_new run pl rl b : builder display_protocol run pl rl = Ok b -> built b
| Built_call b c : built b -> built (build_call c b).2.

(** What every builder keeps: the registries fit together, and the domains are
    apart and not empty. *)
Definition domains_wf (l : list DomainConfig) : Prop :=
  NoDup (config_id <$> l) /\ Forall (fun c => config_workers c <> 0) l.
Definition builder_wf b : Prop :=
  registries_wf (registry b) (object_registry b) /\ domains_wf (build_domains b) /\ limits_ok (protocol_limits b).
Definition keeps_wf (m : BM unit) : Prop :=
  forall b, builder_wf b -> sealed b = false -> wp m (fun _ => builder_wf) (fun _ b' => b' = b) b.

Lemma wp_on_registry {A} (m : M ActionRegistry RuntimeError A) Q R b :
  wp m (fun x a => Q x (set_registry a b)) (fun e a => R e (set_registry a b)) (registry b) -> wp (on_registry m) Q R b.
Proof. unfold wp, on_registry. by destruct (m (registry b)) as [[?|[?|]] ?]. Qed.
Lemma wp_on_object_registry {A} (m : M ObjectRegistry RuntimeError A) Q R b :
  wp m (fun x a => Q x (set_object_registry a b)) (fun e a => R e (set_object_registry a b)) (object_registry b) ->
  wp (on_object_registry m) Q R b.
Proof. unfold wp, on_object_registry. by destruct (m (object_registry b)) as [[?|[?|]] ?]. Qed.

Lemma keeps_unsealed (m : BM unit) :
  (forall b, builder_wf b -> wp m (fun _ => builder_wf) (fun _ b' => b' = b) b) -> keeps_wf (unsealed;; m).
Proof. intros Hm b Hb Hs. apply wp_bind. unfold unsealed. apply wp_bind, wp_gets. rewrite Hs. by apply Hm. Qed.

Lemma wp_unregistered id (Q : unit -> RuntimeBuilder -> Prop) R b :
  (Action.get (registry b) id = None -> Q tt b) -> (forall e, R e b) -> wp (unregistered id) Q R b.
Proof.
  intros Hq Hr. unfold unregistered. apply wp_bind, wp_gets. case_bool_decide as Hs; [apply wp_raise, Hr|].
  apply wp_ret, Hq. by apply eq_None_not_Some.
Qed.

(** A registration of a type, after the builder found [create] free. *)
Lemma register_type_wf T kind m decode wrap c a t r :
  registries_wf a r -> object_type_id (TYPE_ID T) = Ok t -> create_action_id t = Ok c -> Action.get a c = None ->
  wp (register_type T kind m decode wrap) (fun _ r' => registries_wf a r') (fun _ r' => r' = r) r.
Proof.
  intros Hwf Ht Hc Ha. unfold register_type. rewrite Ht. wp_steps; try done.
  case_bool_decide as Hd; wp_steps; try done. rewrite Hc. wp_steps; try done.
  apply (registries_type a r t c); try done; [by apply eq_None_not_Some|]. cbn. by apply Z.eqb_neq.
Qed.

Lemma register_mobile_wf T kind c a t r :
  registries_wf a r -> object_type_id (TYPE_ID (mobile_object T)) = Ok t -> create_action_id t = Ok c ->
  Action.get a c = None -> wp (register_mobile kind T) (fun _ r' => registries_wf a r') (fun _ r' => r' = r) r.
Proof.
  intros Hwf Ht Hc Ha. unfold register_mobile. wp_steps. destruct (validate_mobile T); [|done].
  by apply (register_type_wf _ _ _ _ _ c a t).
Qed.

Lemma insert_action_wf raw i o t acc h id a r :
  registries_wf a r -> action_id raw = Ok id -> Action.get a id = None ->
  wp (insert_action raw i o t acc h) (fun _ r' => registries_wf a r') (fun _ r' => r' = r) r.
Proof.
  intros Hwf Hid Ha. unfold insert_action. unfold action_id in Hid. rewrite Hid. wp_steps; [done|].
  apply orb_false_iff in Heqb as [Hz Hr]. apply orb_false_iff in Hz as [Hi Ho]. apply Z.eqb_neq in Hi, Ho.
  by apply registries_action.
Qed.

Lemma wf_objects b a : builder_wf b -> registries_wf (registry b) a -> builder_wf (set_object_registry a b).
Proof. by intros [_ ?] ?. Qed.
Lemma set_same b : set_object_registry (object_registry b) b = b.
Proof. by destruct b. Qed.
Lemma set_same_registry b : set_registry (registry b) b = b.
Proof. by destruct b. Qed.

(** A change of the registry of objects that keeps the registries together. *)
Lemma wf_on_objects (m : M ObjectRegistry RuntimeError unit) b :
  builder_wf b ->
  wp m (fun _ r' => registries_wf (registry b) r') (fun _ r' => r' = object_registry b) (object_registry b) ->
  wp (on_object_registry m) (fun _ => builder_wf) (fun _ b' => b' = b) b.
Proof.
  intros Hb Hm. apply wp_on_object_registry. eapply wp_mono; [exact Hm| |].
  - intros ? r Hr. by apply wf_objects.
  - intros ? r ->. apply set_same.
Qed.

Lemma keeps_register_object T m :
  (forall b t c, builder_wf b -> object_type_id (TYPE_ID T) = Ok t -> create_action_id t = Ok c ->
     Action.get (registry b) c = None ->
     wp m (fun _ r' => registries_wf (registry b) r') (fun _ r' => r' = object_registry b) (object_registry b)) ->
  keeps_wf (register_object T m).
Proof.
  intros Hm. apply keeps_unsealed. intros b Hb. wp_steps. destruct (object_type_id _) as [t|] eqn:Ht; [|done].
  wp_steps. destruct (create_action_id t) as [c|] eqn:Hc; [|done]. wp_steps. apply wp_unregistered; [|done].
  intros Hfree. apply wf_on_objects; [done|]. by apply (Hm b t c).
Qed.

Lemma keeps_register_action raw (m : M ObjectRegistry RuntimeError unit) :
  (forall b id, builder_wf b -> action_id raw = Ok id -> Action.get (registry b) id = None ->
     wp m (fun _ r' => registries_wf (registry b) r') (fun _ r' => r' = object_registry b) (object_registry b)) ->
  keeps_wf (unsealed;; id ← lift (action_id raw); unregistered id;; on_object_registry m).
Proof.
  intros Hm. apply keeps_unsealed. intros b Hb. wp_steps. destruct (action_id raw) as [id|] eqn:Hid; [|done].
  wp_steps. apply wp_unregistered; [|done]. intros Hfree. apply wf_on_objects; [done|]. by apply (Hm b id).
Qed.

Lemma keeps_read T A : keeps_wf (register_object_read T A).
Proof.
  apply keeps_register_action. intros b id [Hb _] Hid Ha. unfold register_read. wp_steps.
  destruct (require_type T ReadWrite (object_registry b)); [|done]. by apply (insert_action_wf _ _ _ _ _ _ id).
Qed.
Lemma keeps_write T A : keeps_wf (register_object_write T A).
Proof.
  apply keeps_register_action. intros b id [Hb _] Hid Ha. unfold register_write. wp_steps.
  destruct (object_type_id (TYPE_ID T)); [|done]. wp_steps; [done|]. by apply (insert_action_wf _ _ _ _ _ _ id).
Qed.

Lemma action_id_inv raw id : action_id raw = Ok id -> id = raw /\ id <> 0.
Proof.
  unfold action_id, ActionId_new, nonzero_u128_id. destruct (Z.eqb_spec raw 0); cbn; [done|]. by intros [= <-].
Qed.
Lemma placement_differs id p : placement_action_id id = Ok p -> p <> id.
Proof.
  unfold placement_action_id. intros Hp. apply action_id_inv in Hp as [-> _]. intros Heq.
  assert (Hx : Z.lxor id (Z.lxor id PLACEMENT_ACTION_MASK) = Z.lxor id id) by congruence.
  rewrite <- Z.lxor_assoc, Z.lxor_nilpotent, Z.lxor_0_l in Hx. by vm_compute in Hx.
Qed.

Lemma get_added id h i o a b : Action.get (registry (set_registry (add_entry id h i o a) b)) id = Some h.
Proof. apply lookup_insert_eq. Qed.

Lemma keeps_register A handler : keeps_wf (register A handler).
Proof.
  apply keeps_unsealed. intros b [Hwf Hdom]. wp_steps. destruct (action_id (ID A)) as [id|] eqn:Hid; [|done].
  wp_steps. destruct (placement_action_id id) as [p|] eqn:Hp; [|done]. wp_steps; [done|].
  apply orb_false_iff in Heqb0 as [Hr Hfree]. apply orb_false_iff in Hr as [Hr Hrp].
  apply bool_decide_eq_false in Hfree. apply eq_None_not_Some in Hfree.
  apply wp_on_registry. unfold Action.register. fold (action_id (ID A)). rewrite Hid.
  wp_steps; try by rewrite set_same_registry.
  apply orb_false_iff in Heqb0 as [Hi Ho]. rewrite get_added. wp_steps. apply wp_on_object_registry.
  cbn [object_registry set_registry]. unfold register_placement. fold (action_id (ID A)). rewrite Hid.
  wp_steps. rewrite Hp. wp_steps; [exfalso|].
  - rewrite Hrp, orb_false_r in Heqb0. rewrite Hi, Ho in Heqb0. done.
  - split; [|done]. cbn. apply registries_placement; cbn; try done; [by eapply placement_differs|by apply Z.eqb_neq..].
Qed.

Lemma keeps_domain config : keeps_wf (domain config).
Proof.
  apply keeps_unsealed. intros b (Hwf & [Hnd Hw] & Hpl). wp_steps. cbv zeta. wp_steps; try done. split_and!; try done. cbn.
  apply orb_false_iff in Heqb0 as [Hc _]. apply orb_false_iff in Hc as [Hc _]. apply orb_false_iff in Hc as [Hc _].
  apply Z.eqb_neq in Hc. split; [|apply Forall_app; by repeat constructor].
  rewrite fmap_app. apply NoDup_app. split_and!; [done| |by apply NoDup_singleton].
  intros d (x & -> & Hin)%list_elem_of_fmap Heq%list_elem_of_singleton.
  apply not_true_iff_false in Heqb2. apply Heqb2, existsb_exists. exists x.
  split; [by apply list_elem_of_In|]. by apply Z.eqb_eq.
Qed.


Lemma keeps_limits l : keeps_wf (object_limits l).
Proof. apply keeps_unsealed. intros b Hb. wp_steps. destruct (ObjectLimits_validate l); [|done]. by wp_steps. Qed.

Lemma keeps_type T kind m decode wrap : keeps_wf (register_object T (register_type T kind m decode wrap)).
Proof. apply keeps_register_object. intros b t c [Hb _] Ht Hc Ha. by apply (register_type_wf _ _ _ _ _ c _ t). Qed.
Lemma keeps_mobile T kind : keeps_wf (register_object (mobile_object T) (register_mobile kind T)).
Proof. apply keeps_register_object. intros b t c [Hb _] Ht Hc Ha. by apply (register_mobile_wf _ _ c _ t). Qed.

(** A sealed builder refuses every call but [hello], and is not changed. *)
Definition registers (c : builder_call) : bool := if c is Call_hello then false else true.

Lemma sealed_refuses c b :
  sealed b = true -> registers c = true -> build_call c b = (Err (Raise RuntimeError_BuilderSealed), b).
Proof.
  intros Hs Hc. assert (Hm : forall m : BM unit, (unsealed;; m) b = (Err (Raise RuntimeError_BuilderSealed), b)).
  { intros m. unfold unsealed, gets, mbind, M_bind. by rewrite Hs. }
  destruct c; try apply Hm. done.
Qed.

Lemma keeps_registers c : registers c = true -> keeps_wf (build_call c).
Proof.
  destruct c; intros Hc; try done; cbn [build_call].
  - apply keeps_limits.
  - apply keeps_type.
  - apply keeps_type.
  - apply keeps_mobile.
  - apply keeps_mobile.
  - apply keeps_read.
  - apply keeps_write.
  - apply keeps_register.
  - apply keeps_domain.
Qed.

Lemma hello_answers b :
  limits_ok (protocol_limits b) ->
  hello display_protocol b =
    (Ok (mkHello (build_run b) RUNTIME_VERSION (fingerprint (registry b))
           (ObjectRegistry_fingerprint (object_registry b)) 3 (protocol_limits b)), seal b).
Proof. intros Hl%limits_ok_validate. unfold hello, mbind, M_bind, modify, gets, lift. cbn. by rewrite Hl. Qed.

Lemma seal_sealed b : sealed b = true -> seal b = b.
Proof. destruct b. cbn. by intros ->. Qed.

Lemma keeps_call c b : builder_wf b -> builder_wf (build_call c b).2.
Proof.
  intros Hb. destruct (registers c) eqn:Hc.
  - destruct (sealed b) eqn:Hs; [by rewrite sealed_refuses|].
    assert (Hk := keeps_registers c Hc b Hb Hs). unfold wp in Hk.
    destruct (build_call c b) as [[?|[?|]] ?]; cbn in *; [done|by subst|done].
  - destruct c; try discriminate. cbn [build_call]. unfold mbind at 1, M_bind.
    rewrite hello_answers by apply Hb. exact Hb.
Qed.

Lemma built_wf b : built b -> builder_wf b.
Proof.
  induction 1 as [run pl rl b Hb|b c _ IH]; [|by apply keeps_call].
  unfold builder in Hb. cbv zeta in Hb. repeat bind_inv Hb. injection Hb as <-.
  unfold map_err in E. destruct (ProtocolLimits_validate pl) as [pl'|] eqn:Hv; [|done].
  apply limits_validate_inv in Hv as [_ Hv]. split_and!; cbn; [|split; cbn; by constructor|done].
  split; cbn; try done.
  - intros id _. unfold Action.get, created. cbn. rewrite !lookup_empty. split_and!; try done.
    by intros (t & x & Ht & _).
Qed.

(** ** Starting *)

(** The runtime a builder is started as: the queues of the configured domains
    hold their workers, their pools start and the completions of all calls fit. *)
Record startable (build : DomainConfig -> bool) b : Prop := {
  sb_capacity : max_pending_calls (runtime_limits b) + max_dedup_entries (runtime_limits b) <= usize_max;
  sb_queues : Forall (fun c => config_workers c <= config_queue_capacity c) (start_configs b);
  sb_pools : Forall (fun c => build c = true) (start_configs b);
}.

Definition executor (c : DomainConfig) : DomainExecutor :=
  mkDomainExecutor (config_workers c) DomainCounters_zero (config_queue_capacity c).

Lemma build_domains_ok build l : forall m,
  NoDup (config_id <$> l) -> (forall c, c ∈ l -> m !! config_id c = None) ->
  Forall (fun c => config_workers c <> 0) l -> Forall (fun c => config_workers c <= config_queue_capacity c) l ->
  Forall (fun c => build c = true) l ->
  exists m', Domain.build_domains build l m = Ok m' /\
    (forall d, d ∉ config_id <$> l -> m' !! d = m !! d) /\
    (forall c, c ∈ l -> m' !! config_id c = Some (executor c)).
Proof.
  induction l as [|c l IH]; intros m Hnd Hfree Hw Hq Hb; cbn [Domain.build_domains].
  - exists m. split_and!; [done..|]. by intros c ?%elem_of_nil.
  - cbn in Hnd. apply NoDup_cons in Hnd as [Hc Hnd]. apply Forall_cons in Hw as [Hw1 Hw], Hq as [Hq1 Hq], Hb as [Hb1 Hb].
    rewrite (proj2 (Z.eqb_neq _ _) Hw1), (proj2 (Z.ltb_ge _ _) Hq1), Hb1, (Hfree c) by (by left). cbn [orb negb fail_if].
    rewrite bool_decide_eq_false_2 by (by intros []). cbn [fail_if mbind result_bind].
    destruct (IH (<[config_id c := executor c]> m)) as (m' & Hm' & Hother & Hin); try done.
    { intros x Hx. rewrite lookup_insert_ne; [apply Hfree; by right|]. intros Heq. apply Hc. rewrite Heq.
      by apply list_elem_of_fmap_2. }
    exists m'. split_and!; [done|..].
    + intros d Hd. cbn in Hd. apply not_elem_of_cons in Hd as [Hne Hd]. rewrite Hother by done. by rewrite lookup_insert_ne.
    + intros x [->|Hx]%elem_of_cons; [|by apply Hin]. rewrite Hother by done. by rewrite lookup_insert_eq.
Qed.

Lemma start_configs_wf b : builder_wf b -> domains_wf (start_configs b).
Proof.
  intros (_ & Hd & _). unfold start_configs. case_bool_decide; [|done].
  split; cbn; [by apply NoDup_singleton|by repeat constructor].
Qed.

Lemma hello_calls cs b : sealed b = true -> limits_ok (protocol_limits b) ->
  foldl (fun b c => (build_call c b).2) b cs = b.
Proof.
  intros Hs Hl. induction cs as [|c cs IH]; [done|]. cbn [foldl].
  assert ((build_call c b).2 = b) as ->; [|done]. destruct (registers c) eqn:Hc; [by rewrite sealed_refuses|].
  destruct c; try discriminate. cbn [build_call]. unfold mbind, M_bind. rewrite hello_answers by done.
  by apply seal_sealed.
Qed.


(** what a locality told its peers is what it runs: once the handshake was
    prepared, every further call is refused or answers the same handshake, so
    that the fingerprints of the handshake are those of the registries the
    runtime is started with; without a handshake it does not start. *)
Theorem hello_pins cs locality members service build b h b1 :
  built b -> hello display_protocol b = (Ok h, b1) ->
  let b2 := foldl (fun b c => (build_call c b).2) b1 cs in
  hello display_protocol b2 = (Ok h, b2) /\
  (forall c, registers c = true -> build_call c b2 = (Err (Raise RuntimeError_BuilderSealed), b2)) /\
  action_registry_hash h = fingerprint (registry b2) /\
  object_registry_hash h = ObjectRegistry_fingerprint (object_registry b2) /\
  start locality members service build b2 = start locality members service build b1 /\
  (sealed b = false -> start locality members service build b = Err (Raise RuntimeError_HandshakeNotPrepared)).
Proof.
  intros Hb%built_wf Hh. rewrite hello_answers in Hh by apply Hb. injection Hh as <- <-. cbv zeta.
  rewrite (hello_calls cs (seal b)) by (done || apply Hb). split_and!; try done.
  - rewrite hello_answers by apply Hb. done.
  - intros c Hc. by apply sealed_refuses.
  - intros Hs. unfold start. by rewrite Hs.
Qed.
End Calls.

(** ** Examples *)

(** The counter of [Migration] and its actions, the action of [Action], which
    cannot be registered twice, and two workers. *)
Definition ex_calls : list builder_call :=
  [Call_mobile_read_write ex_mobile; Call_read ex_counter ex_get; Call_write ex_counter ex_add;
   Call_register ex_action ex_handler; Call_register ex_action ex_handler; Call_domain (mkDomainConfig 1 2 8)].
Definition ex_new : RuntimeBuilder :=
  mkRuntimeBuilder 1 ProtocolLimits_default RuntimeLimits_default ActionRegistry_default ObjectRegistry_default
    ObjectLimits_default [] false.
Definition ex_display_protocol (_ : ProtocolError) : text := lit "protocol".
Definition ex_builder : RuntimeBuilder :=
  foldl (fun b c => (build_call ex_display_protocol c b).2) ex_new ex_calls.
Definition ex_handlers : ServiceHandlers :=
  let echo {A} (_ : A) := RegisteredAction_new (fun s => Ok s) in mkServiceHandlers echo echo echo.

Example ex_refused :
  (foldl (fun '(l, b) c => let '(r, b) := build_call ex_display_protocol c b in (l ++ [is_ok r], b)) ([], ex_new) ex_calls).1
  = [true; true; true; true; false; true].
Proof. reflexivity. Qed.

Lemma ex_built : built ex_display_protocol ex_builder.
Proof.
  unfold ex_builder, ex_calls, foldl. repeat apply Built_call.
  apply (Built_new _ 1 ProtocolLimits_default RuntimeLimits_default). reflexivity.
Qed.

Lemma ex_domains : start_configs ex_builder = [mkDomainConfig 1 2 8].
Proof. vm_compute. reflexivity. Qed.
Lemma ex_capacity : runtime_limits ex_builder = RuntimeLimits_default.
Proof. vm_compute. reflexivity. Qed.
Lemma ex_startable : startable (fun _ => true) ex_builder.
Proof. split; rewrite ?ex_capacity, ?ex_domains; [vm_compute; discriminate|by repeat constructor..]. Qed.


Lemma hello_pins_witness :
  exists h, hello ex_display_protocol ex_builder = (Ok h, seal ex_builder) /\
    hello ex_display_protocol (foldl (fun b c => (build_call ex_display_protocol c b).2) (seal ex_builder) ex_calls) =
      (Ok h, foldl (fun b c => (build_call ex_display_protocol c b).2) (seal ex_builder) ex_calls).
Proof.
  destruct (built_wf _ _ ex_built) as (_ & _ & Hl). pose proof (hello_answers ex_display_protocol ex_builder Hl) as Hh.
  eexists. split; [exact Hh|].
  apply (hello_pins ex_display_protocol ex_calls 0 [0; 1] ex_handlers (fun _ => true) ex_builder _ _ ex_built Hh).
Defined.
