(* ===== verification/Client.v ===== *)
(** * Client: handles of objects and the futures of their calls

    Models the client's side of [crates/hataori-runtime/src/object.rs] (the
    handles, and the futures of calls, creations, upgrades and transfers), the
    methods of [RuntimeClient] of [runtime.rs] that make them, and
    [Runtime::block_on].  They are computations on the runtime of [Driver]; a
    future is a value that its poll replaces.  The client a handle holds is the
    runtime itself; a lease is its address.  Between two rounds of a loop the
    driver, workers and other clients may run: [others]. *)
From Stdlib Require Import Strings.Byte.
From S2P Require Import Prelude Text Protocol Transport Error RuntimeTypes RuntimeWire Dedup Action Pending Domain ObjectWire ObjectRegistry Objects Migration MigrationFuture RuntimeState Driver.

(** What the client asks of its surroundings: the downcasts of a boxed value to
    the types of the replies of the runtime, and the text with the [Debug] of a
    redirect that is refused. *)
Class ClientSide `{AnyTypes} := mkClientSide {
  any_bytes : any -> option bytes_value;
  any_unit : any -> option unit;
  any_packet : any -> option MigrationPacket;
  invalid_redirect : ObjectId -> Z -> ObjectId -> Z -> text;
}.

Section Client.
Context `{AnyTypes} {Net : Type} `{!TransportDriver Net} `{!Surroundings Net} `{!ClientSide}.

Abbreviation Runtime := (RuntimeState.Runtime Net).
Abbreviation DM := (M Runtime RuntimeError).
Abbreviation local_id := (conf_local cfg).
Abbreviation limits := (conf_limits cfg).

(** [Poll<Result<T, RuntimeError>>]: [None] is [Pending]. *)
Abbreviation Polling T := (option (result RuntimeError T)).

(** What an iteration of the loop of a poll comes to. *)
Inductive Iteration (T : Type) : Type := Answer (r : Polling T) | Again.
#[global] Arguments Answer {T}. #[global] Arguments Again {T}.

(** ** The future of a request *)

Definition remote_poll {T} `{WireValue T} (cast : any -> option T) (f : RemoteFuture) (context : Z) :
    DM (Polling T * RemoteFuture) :=
  '(r, f) ← on_pending (future_poll cast f context);
  match r with
  | None => mret (None, f)
  | Some (Ok v) => mret (Some (Ok v), f)
  | Some (Err (Raise e)) => mret (Some (Err e), f)
  | Some (Err Panic) => panic
  end.

Definition remote_drop (f : RemoteFuture) : DM unit :=
  cancelled ← on_pending (future_drop f);
  mwhen cancelled (cancel (future_request f)).

(** ** Handles *)

Record Remote : Type := mkRemote {
  remote_object : ObjectId; remote_type : Z; remote_location : ObjectLocation; remote_lease : Z;
}.

Definition remote_clone (r : Remote) : DM Remote := clone_lease (remote_lease r);; mret r.
(** [Drop], and [Remote::release]. *)
Definition remote_release (r : Remote) : DM unit := drop_lease (remote_lease r).

Definition observed_location (r : Remote) (s : Runtime) : ObjectLocation :=
  match resolve (remote_object r) (objects s) with Some l => l | None => remote_location r end.

Definition downgrade (r : Remote) : DM WeakRemote :=
  found ← gets (fun s => lease_store s !! remote_lease r);
  match found with
  | Some l => mret (mkWeakRemote (remote_object r) (remote_type r) (lease_location l))
  | None => panic
  end.

(** [RuntimeClient::attach_object]. *)
Definition attach_remote (object : ObjectId) (object_type : Z) (location : ObjectLocation) : DM Remote :=
  a ← attach_object object object_type location;
  mret (mkRemote object object_type location a).

Definition cache_object_location (object : ObjectId) (location : ObjectLocation) : DM unit :=
  on_objects (cache_location object location).
Definition clear_object_resolver : DM unit := on_objects clear_resolver.

(** ** Calls of objects *)

Definition envelope (object : ObjectId) (object_type : Z) (location : ObjectLocation) : ObjectEnvelope :=
  mkObjectEnvelope object object_type (ObjectLocation_epoch location) local_id (ObjectLocation_domain location) false.
Definition options_of (deadline : Z) : SpawnOptions := mkSpawnOptions deadline None.

Record RemoteCallSpec : Type := mkRemoteCallSpec {
  spec_object : ObjectId; spec_type : Z; spec_action : ActionId; spec_payload : Segments;
  spec_last_epoch : Z; spec_max_redirects : Z; spec_deadline : Z;
}.

Record RemoteObjectCall : Type := mkRemoteObjectCall {
  call_future : RemoteFuture; call_object : ObjectId; call_type : Z; call_action : ActionId;
  call_payload : Segments; call_request : RequestId; call_last_epoch : Z; call_redirects : Z;
  call_max_redirects : Z; call_deadline : Z;
}.

Definition RemoteObjectCall_new (f : RemoteFuture) (spec : RemoteCallSpec) : RemoteObjectCall :=
  mkRemoteObjectCall f (spec_object spec) (spec_type spec) (spec_action spec) (spec_payload spec) (future_request f)
    (spec_last_epoch spec) 0 (spec_max_redirects spec) (spec_deadline spec).

Definition set_call_future (f : RemoteFuture) (c : RemoteObjectCall) : RemoteObjectCall :=
  mkRemoteObjectCall f (call_object c) (call_type c) (call_action c) (call_payload c) (call_request c)
    (call_last_epoch c) (call_redirects c) (call_max_redirects c) (call_deadline c).
(** [redirects += 1; last_epoch = location.epoch()]. *)
Definition followed (l : ObjectLocation) (c : RemoteObjectCall) : RemoteObjectCall :=
  mkRemoteObjectCall (call_future c) (call_object c) (call_type c) (call_action c) (call_payload c) (call_request c)
    (ObjectLocation_epoch l) (call_redirects c + 1) (call_max_redirects c) (call_deadline c).

(** The request of [c] is sent again, to [l]. *)
Definition call_retry (l : ObjectLocation) (c : RemoteObjectCall) : DM RemoteFuture :=
  spawn_encoded_retry (Place_new (ObjectLocation_locality l) (ObjectLocation_domain l)) (call_action c)
    (ObjectEnvelope_encode (envelope (call_object c) (call_type c) l) (call_payload c))
    (options_of (call_deadline c)) (call_request c).

Section Typed.
Context {T : Type} `{WireValue T} (cast : any -> option T).

(** An iteration of [poll].  The future that a new one replaces has answered, so
    that dropping it does nothing. *)
Definition call_step (c : RemoteObjectCall) (context : Z) : DM (Iteration T * RemoteObjectCall) :=
  '(r, f) ← remote_poll cast (call_future c) context;
  let c := set_call_future f c in
  match r with
  | None => mret (Answer None, c)
  | Some (Err (RuntimeError_Moved object location)) =>
      if negb (bool_decide (object = call_object c)) || (ObjectLocation_epoch location <=? call_last_epoch c)
      then mret (Answer (Some (Err (RuntimeError_Protocol
                   (invalid_redirect (call_object c) (call_last_epoch c) object (ObjectLocation_epoch location))))), c)
      else if call_max_redirects c <=? call_redirects c
      then mret (Answer (Some (Err (RuntimeError_RedirectLimit (call_object c)))), c)
      else
        let c := followed location c in
        cache_object_location (call_object c) location;;
        r ← outcome (call_retry location c);
        match r with
        | Ok f => mret (Again, set_call_future f c)
        | Err e => mret (Answer (Some (Err e)), c)
        end
  | Some r => mret (Answer (Some r), c)
  end.

(** [None] when the fuel is spent. *)
Fixpoint call_loop (fuel : nat) (c : RemoteObjectCall) (context : Z) : DM (option (Polling T * RemoteObjectCall)) :=
  match fuel with
  | O => mret None
  | S fuel =>
      '(r, c) ← call_step c context;
      match r with
      | Answer r => mret (Some (r, c))
      | Again => modify others;; call_loop fuel c context
      end
  end.

(** Every further round follows a redirect. *)
Definition call_rounds (c : RemoteObjectCall) : nat := S (Z.to_nat (call_max_redirects c - call_redirects c)).
Definition call_poll (c : RemoteObjectCall) (context : Z) : DM (Polling T * RemoteObjectCall) :=
  r ← call_loop (call_rounds c) c context;
  match r with Some x => mret x | None => panic end.

Definition call_drop (c : RemoteObjectCall) : DM unit := remote_drop (call_future c).

(** *** Colocated calls hold a lease *)

Record ColocatedFuture : Type := mkColocatedFuture { colocated_inner : RemoteObjectCall; colocated_lease : Z }.

Definition colocated_poll (f : ColocatedFuture) (context : Z) : DM (Polling T * ColocatedFuture) :=
  '(r, c) ← call_poll (colocated_inner f) context;
  mret (r, mkColocatedFuture c (colocated_lease f)).
Definition colocated_drop (f : ColocatedFuture) : DM unit :=
  call_drop (colocated_inner f);; drop_lease (colocated_lease f).

(** *** Preferred placement *)

Inductive PlacementFallback : Type := Fallback_Any | Fallback_Place (p : Place) | Fallback_Reject.
Inductive PlacementState : Type := Preferred (f : ColocatedFuture) | Fallback (f : RemoteFuture) | Placed.

Record PlacementFuture : Type := mkPlacementFuture {
  placement_state : PlacementState; placement_fallback : PlacementFallback; placement_action : ActionId;
  placement_payload : option Segments; placement_options : SpawnOptions;
}.

Definition set_placement_payload (x : option Segments) (f : PlacementFuture) : PlacementFuture :=
  mkPlacementFuture (placement_state f) (placement_fallback f) (placement_action f) x (placement_options f).
(** [self.state = x] drops the future that was there. *)
Definition state_drop (x : PlacementState) : DM unit :=
  match x with Preferred f => colocated_drop f | Fallback f => remote_drop f | Placed => mret tt end.
Definition replace_state (x : PlacementState) (f : PlacementFuture) : DM PlacementFuture :=
  state_drop (placement_state f);;
  mret (mkPlacementFuture x (placement_fallback f) (placement_action f) (placement_payload f) (placement_options f)).
Definition keep_state (x : PlacementState) (f : PlacementFuture) : PlacementFuture :=
  mkPlacementFuture x (placement_fallback f) (placement_action f) (placement_payload f) (placement_options f).

Definition placement_saturated (e : RuntimeError) : bool :=
  match e with
  | RuntimeError_ResourceExhausted _ _ | RuntimeError_Placement _ _ => true
  | RuntimeError_RemoteAction _ message =>
      contains message (lit "ResourceExhausted") || contains message (lit "saturated") || contains message (lit "queue")
      || contains message (lit "MigrationInProgress") || contains message (lit "migration")
  | _ => false
  end.

(** Where the fallback goes; [None] when it is refused. *)
Definition fallback_place (x : PlacementFallback) : option Place :=
  match x with
  | Fallback_Any => Some (Place_new local_id 0)
  | Fallback_Place p => Some p
  | Fallback_Reject => None
  end.

Definition placement_step (f : PlacementFuture) (context : Z) : DM (Iteration T * PlacementFuture) :=
  match placement_state f with
  | Preferred future =>
      '(r, future) ← colocated_poll future context;
      let f := keep_state (Preferred future) f in
      match r with
      | None => mret (Answer None, f)
      | Some (Ok v) => f ← replace_state Placed f; mret (Answer (Some (Ok v)), f)
      | Some (Err error) =>
          if placement_saturated error then
            match fallback_place (placement_fallback f) with
            | None => f ← replace_state Placed f; mret (Answer (Some (Err error)), f)
            | Some place =>
                match placement_payload f with
                | None => panic
                | Some payload =>
                    let f := set_placement_payload None f in
                    r ← outcome (spawn_encoded place (placement_action f) payload (placement_options f));
                    match r with
                    | Ok future => f ← replace_state (Fallback future) f; mret (Again, f)
                    | Err error => f ← replace_state Placed f; mret (Answer (Some (Err error)), f)
                    end
                end
            end
          else f ← replace_state Placed f; mret (Answer (Some (Err error)), f)
      end
  | Fallback future =>
      '(r, future) ← remote_poll cast future context;
      let f := keep_state (Fallback future) f in
      match r with
      | None => mret (Answer None, f)
      | Some r => f ← replace_state Placed f; mret (Answer (Some r), f)
      end
  | Placed => mret (Answer (Some (Err (RuntimeError_Protocol (lit "placement future polled after completion")))), f)
  end.

(** The loop: the second iteration polls the fallback, and returns. *)
Definition placement_poll (f : PlacementFuture) (context : Z) : DM (Polling T * PlacementFuture) :=
  '(r, f) ← placement_step f context;
  match r with
  | Answer r => mret (r, f)
  | Again =>
      modify others;;
      '(r, f) ← placement_step f context;
      match r with Answer r => mret (r, f) | Again => panic end
  end.

Definition placement_drop (f : PlacementFuture) : DM unit := state_drop (placement_state f).

(** *** Calls of handles *)

Inductive ObjectCallFuture : Type :=
| Object_Local (r : Polling T)
| Object_Remote (c : RemoteObjectCall).

Definition object_poll (f : ObjectCallFuture) (context : Z) : DM (Polling T * ObjectCallFuture) :=
  match f with
  | Object_Local (Some r) => mret (Some r, Object_Local None)
  | Object_Local None =>
      mret (Some (Err (RuntimeError_Protocol (lit "object future polled after completion"))), Object_Local None)
  | Object_Remote c => '(r, c) ← call_poll c context; mret (r, Object_Remote c)
  end.
End Typed.
#[global] Arguments ObjectCallFuture : clear implicits.

(** ** Creation, upgrade and transfer *)

Record CreateFuture : Type := mkCreateFuture {
  create_inner : option RemoteFuture; create_ready : Polling Remote; create_object : ObjectId; create_type : Z;
}.

Definition create_poll (f : CreateFuture) (context : Z) : DM (Polling Remote * CreateFuture) :=
  match create_ready f with
  | Some result => mret (Some result, mkCreateFuture (create_inner f) None (create_object f) (create_type f))
  | None =>
      match create_inner f with
      | None => panic
      | Some inner =>
          '(r, inner) ← remote_poll any_bytes inner context;
          match r with
          | Some (Ok (Bytes bytes)) =>
              r ← outcome (location ← lift (decode_location display_protocol bytes);
                           attach_remote (create_object f) (create_type f) location);
              mret (Some r, mkCreateFuture None None (create_object f) (create_type f))
          | Some (Err error) => mret (Some (Err error), mkCreateFuture None None (create_object f) (create_type f))
          | None => mret (None, mkCreateFuture (Some inner) None (create_object f) (create_type f))
          end
      end
  end.

(** [Drop]: the request of a creation that has not answered is cancelled, and the
    handle of one that was not polled is released. *)
Definition create_drop (f : CreateFuture) : DM unit :=
  match create_inner f with Some inner => remote_drop inner | None => mret tt end;;
  match create_ready f with Some (Ok r) => remote_release r | _ => mret tt end.

Record ObjectRoot : Type := mkObjectRoot {
  root_object : ObjectId; root_type : Z; root_location : ObjectLocation; root_active : bool;
}.
Definition ObjectRoot_new (r : Remote) : ObjectRoot :=
  mkObjectRoot (remote_object r) (remote_type r) (remote_location r) true.
(** [release], and [Drop]. *)
Definition release_inner (x : ObjectRoot) : DM ObjectRoot :=
  if root_active x then
    client_release_root (root_object x) (root_type x) (root_location x);;
    mret (mkObjectRoot (root_object x) (root_type x) (root_location x) false)
  else mret x.

Definition rooted_poll (f : CreateFuture) (context : Z) : DM (Polling (Remote * ObjectRoot) * CreateFuture) :=
  '(r, f) ← create_poll f context;
  mret (match r with
        | Some (Ok remote) => Some (Ok (remote, ObjectRoot_new remote))
        | Some (Err error) => Some (Err error)
        | None => None
        end, f).

Record UpgradeFuture : Type := mkUpgradeFuture {
  upgrade_inner : RemoteFuture; upgrade_target : ObjectId; upgrade_type : Z; upgrade_location : ObjectLocation;
}.
Definition upgrade_poll (f : UpgradeFuture) (context : Z) : DM (Polling Remote * UpgradeFuture) :=
  '(r, inner) ← remote_poll any_unit (upgrade_inner f) context;
  let f := mkUpgradeFuture inner (upgrade_target f) (upgrade_type f) (upgrade_location f) in
  match r with
  | Some (Ok _) =>
      r ← outcome (attach_remote (upgrade_target f) (upgrade_type f) (upgrade_location f)); mret (Some r, f)
  | Some (Err error) => mret (Some (Err error), f)
  | None => mret (None, f)
  end.

Record LeaseTransfer : Type := mkLeaseTransfer {
  transfer_object : ObjectId; transfer_type : Z; transfer_location : ObjectLocation; transfer_destination : LocalityId;
  transfer_expires : Z; transfer_active : bool;
}.
(** [Drop], at the runtime the transfer comes from. *)
Definition transfer_drop (x : LeaseTransfer) : DM unit :=
  mwhen (transfer_active x)
    (release_for_locality (transfer_object x) (transfer_type x) (transfer_location x) (transfer_destination x)).

Record TransferFuture : Type := mkTransferFuture {
  transfer_inner : RemoteFuture; future_transfer : LeaseTransfer;
}.
Definition transfer_poll (f : TransferFuture) (context : Z) : DM (Polling LeaseTransfer * TransferFuture) :=
  '(r, inner) ← remote_poll any_unit (transfer_inner f) context;
  let f := mkTransferFuture inner (future_transfer f) in
  mret (match r with
        | Some (Ok _) => Some (Ok (future_transfer f))
        | Some (Err error) => Some (Err error)
        | None => None
        end, f).

(** ** Methods of the client *)

Definition create_at_inner (T : DistributedObject) (place : Place) (state : sort_of (object_ty T)) (root : bool) :
    DM CreateFuture :=
  object_type ← lift (object_type_id (TYPE_ID T));
  object ← next_object;
  if locality place =? local_id then
    t ← now;
    location ← on_objects (create_local T object object_type (RuntimeTypes.domain place) state local_id root t);
    remote ← outcome (attach_remote object object_type location);
    mret (mkCreateFuture None (Some remote) object object_type)
  else
    payload ← lift_handled (encode_failed "object encode failed: ") (@wire_encode _ (object_wire T) state);
    let payload := ObjectEnvelope_encode
      (mkObjectEnvelope object object_type 1 local_id (RuntimeTypes.domain place) root) payload in
    create ← lift (create_action_id object_type);
    future ← spawn_encoded place create payload default_options;
    mret (mkCreateFuture (Some future) None object object_type).

Definition create_at T place state := create_at_inner T place state false.
Definition create_rooted_at T place state := create_at_inner T place state true.

(** The count of local calls goes down again however [m] ends. *)
Definition counted_call {A} (m : DM A) : DM A := fun s =>
  let '(r, s) := m (set_local_object_calls (wrapping_add 64 (local_object_calls s) 1) s) in
  (r, set_local_object_calls (wrapping_sub 64 (local_object_calls s) 1) s).

(** [install] waits for a worker of the pool to have run [call]. *)
Definition run_local_object {A} (d : DomainId) (call : M ObjectService RuntimeError A) : DM A :=
  ensure_running;;
  counted_call
    (s ← gets id;
     lift (ok_or (domains (pools s) !! d) (RuntimeError_UnknownDomain d));;
     modify others;;
     on_objects call).

(** A request to the object of [r] at [location]. *)
Definition spawn_at (r : Remote) (location : ObjectLocation) (action : ActionId) (payload : Segments) : DM RemoteObjectCall :=
  future ← spawn_encoded (Place_new (ObjectLocation_locality location) (ObjectLocation_domain location)) action
    (ObjectEnvelope_encode (envelope (remote_object r) (remote_type r) location) payload) default_options;
  max ← gets (fun s => ObjectWire.max_redirects (Objects.limits (objects s)));
  mret (RemoteObjectCall_new future
    (mkRemoteCallSpec (remote_object r) (remote_type r) action payload (ObjectLocation_epoch location) max
       (default_deadline limits))).

Definition checked_action_id (raw : Z) : result RuntimeError ActionId :=
  map_err (fun _ => RuntimeError_InvalidActionId) (ActionId_new raw).

Definition call_object_encoded (r : Remote) (raw_action : Z) (payload : Segments) : DM RemoteObjectCall :=
  action ← lift (checked_action_id raw_action);
  location ← gets (observed_location r);
  spawn_at r location action payload.

Definition call_object_read (T : DistributedObject) (A : ObjectReadAction T) (r : Remote)
    (action : sort_of (read_ty T A)) : DM (ObjectCallFuture (sort_of (read_output T A))) :=
  location ← gets (observed_location r);
  resident ← gets (fun s => is_local_resident (remote_object r) location (objects s));
  if (ObjectLocation_locality location =? local_id) && resident then
    x ← outcome (run_local_object (ObjectLocation_domain location)
                   (call_read_local T A (remote_object r) (remote_type r) location action));
    mret (Object_Local (Some x))
  else
    payload ← lift_handled (encode_failed "object action encode failed: ") (@wire_encode _ (read_wire T A) action);
    c ← call_object_encoded r (read_ID T A) payload;
    mret (Object_Remote c).

Definition call_object_write (T : DistributedObject) (A : ObjectWriteAction T) (r : Remote)
    (action : sort_of (write_ty T A)) : DM (ObjectCallFuture (sort_of (write_output T A))) :=
  location ← gets (observed_location r);
  resident ← gets (fun s => is_local_resident (remote_object r) location (objects s));
  if (ObjectLocation_locality location =? local_id) && resident then
    x ← outcome (run_local_object (ObjectLocation_domain location)
                   (call_write_local T A (remote_object r) (remote_type r) location action));
    mret (Object_Local (Some x))
  else
    payload ← lift_handled (encode_failed "object action encode failed: ") (@wire_encode _ (write_wire T A) action);
    c ← call_object_encoded r (write_ID T A) payload;
    mret (Object_Remote c).

Definition spawn_colocated (A : Action) (r : Remote) (action : sort_of (action_ty A)) : DM ColocatedFuture :=
  location ← gets (observed_location r);
  action_id ← lift (checked_action_id (Action.ID A));
  payload ← lift_handled (encode_failed "action encode failed: ") (wire_encode action);
  placed ← lift (placement_action_id action_id);
  c ← spawn_at r location placed payload;
  clone_lease (remote_lease r);;
  mret (mkColocatedFuture c (remote_lease r)).

Definition spawn_preferred_colocated (A : Action) (r : Remote) (fallback : PlacementFallback)
    (action : sort_of (action_ty A)) : DM PlacementFuture :=
  location ← gets (observed_location r);
  action_id ← lift (checked_action_id (Action.ID A));
  payload ← lift_handled (encode_failed "action encode failed: ") (wire_encode action);
  placed ← lift (placement_action_id action_id);
  c ← spawn_at r location placed payload;
  clone_lease (remote_lease r);;
  mret (mkPlacementFuture (Preferred (mkColocatedFuture c (remote_lease r))) fallback action_id (Some payload)
          default_options).

(** The request for a lease of [locality]. *)
Definition acquire_request (object : ObjectId) (object_type : Z) (location : ObjectLocation) (lease : LocalityId)
    (transfer : bool) : DM RemoteFuture :=
  spawn_encoded (Place_new (ObjectLocation_locality location) (ObjectLocation_domain location)) LEASE_ACQUIRE_ACTION_ID
    (ObjectEnvelope_encode (mkObjectEnvelope object object_type (ObjectLocation_epoch location) lease
       (ObjectLocation_domain location) transfer) []) default_options.

Definition transfer_object_to (r : Remote) (destination : LocalityId) : DM TransferFuture :=
  let location := remote_location r in
  inner ← acquire_request (remote_object r) (remote_type r) location destination true;
  t ← now;
  ttl ← gets (fun s => lease_ttl (Objects.limits (objects s)));
  mret (mkTransferFuture inner
    (mkLeaseTransfer (remote_object r) (remote_type r) location destination (t + ttl) true)).

(** The answer, and the transfer that is dropped. *)
Definition import_transfer (x : LeaseTransfer) : DM (result RuntimeError Remote * LeaseTransfer) :=
  if negb (transfer_destination x =? local_id)
  then mret (Err (RuntimeError_InvalidMembership (transfer_destination x)), x) else
  t ← now;
  if transfer_expires x <=? t then mret (Err (RuntimeError_LeaseTransferExpired (transfer_object x)), x) else
  r ← outcome (attach_remote (transfer_object x) (transfer_type x) (transfer_location x));
  match r with
  | Err e => mret (Err e, x)
  | Ok remote =>
      object_control (transfer_object x) (transfer_type x) (transfer_location x) (transfer_destination x)
        TRANSFER_ACK_ACTION_ID;;
      mret (Ok remote, mkLeaseTransfer (transfer_object x) (transfer_type x) (transfer_location x)
                         (transfer_destination x) (transfer_expires x) false)
  end.

Definition upgrade_object (w : WeakRemote) : DM UpgradeFuture :=
  inner ← acquire_request (weak_object w) (weak_type w) (weak_location w) local_id false;
  mret (mkUpgradeFuture inner (weak_object w) (weak_type w) (weak_location w)).

(** ** Migration *)

Definition client_migration_step (place : Place) (action : Z) (p : MigrationPacket) : DM RemoteFuture :=
  action ← lift (checked_action_id action);
  payload ← lift (map_err (fun e => RuntimeError_ObjectAction (ActionError_message e)) (MigrationPacket_encode p));
  spawn_encoded place action payload default_options.

Definition migrate (r : Remote) (destination : Place) : DM (MigrationFuture (Fut := RemoteFuture)) :=
  ensure_running;;
  from ← gets (observed_location r);
  if (ObjectLocation_locality from =? locality destination)
     && (ObjectLocation_domain from =? RuntimeTypes.domain destination)
  then mret (MigrationFuture_ready (mkMigrationReport (remote_object r) from from 0) (remote_type r)) else
  metadata ← gets (fun s => migration_metadata (remote_type r) (objects s));
  '(mobility, version, schema) ← lift metadata;
  if bool_decide (mobility = Pinned) then raise (RuntimeError_PinnedObjectType (remote_type r)) else
  migration ← next_request;
  on_objects (begin_migration migration);;
  held ← gets (fun s => lease_store s !! remote_lease r);
  match held with
  | None => panic
  | Some lease =>
      let packet := mkMigrationPacket migration (remote_object r) (remote_type r)
        (ObjectLocation_locality (lease_location lease)) from destination version schema [] in
      future ← outcome (client_migration_step (Place_new (ObjectLocation_locality from) (ObjectLocation_domain from))
                          MIGRATION_FREEZE_ACTION_ID packet);
      match future with
      | Ok future =>
          object_limits ← gets (fun s => Objects.limits (objects s));
          clone_lease (remote_lease r);;
          mret (MigrationFuture_new object_limits packet (lease_location lease) future)
      | Err error => on_objects (finish_migration migration RolledBack 0);; raise error
      end
  end.

(** ** [block_on]

    [S] is the runtime, or what it is part of; [E] is the error of the future. *)

Section BlockOn.
Context {S F T E : Type} (on_runtime : forall A : Type, DM A -> M S RuntimeError A) (from_runtime : RuntimeError -> E).
Context (poll : F -> Z -> M S RuntimeError (option (result E T) * F)) (drop_future : F -> M S RuntimeError unit).

(** [None] when the fuel is spent.  Waiting lets the others run. *)
Fixpoint block_loop (fuel : nat) (f : F) (waker : Z) : M S RuntimeError (option (result E T) * F) :=
  match fuel with
  | O => mret (None, f)
  | Datatypes.S fuel =>
      '(r, f) ← poll f waker;
      match r with
      | Some output => mret (Some output, f)
      | None =>
          on_runtime _ (modify others);;
          rounds ← on_runtime _ (outcome (progress (max_progress_events limits)));
          match rounds with
          | Ok _ => block_loop fuel f waker
          | Err error => on_runtime _ (fail error);; mret (Some (Err (from_runtime error)), f)
          end
      end
  end.

Definition block_on (fuel : nat) (f : F) (waker : Z) : M S RuntimeError (option (result E T)) :=
  '(r, f) ← block_loop fuel f waker;
  drop_future f;;
  mret r.
End BlockOn.
End Client.
