(* ===== verification/Scope.v ===== *)
(** * Scope: structured remote work

    Models [crates/hataori-runtime/src/scope.rs].  A scope is the runtime it
    borrows with the set of the requests it tracks. *)
From S2P Require Import Prelude Text Protocol Transport Error RuntimeTypes RuntimeWire Dedup Action Pending Domain ObjectWire ObjectRegistry Objects Migration RuntimeState Driver Client.

Section Scope.
Context `{AnyTypes} {Net : Type} `{!TransportDriver Net} `{!Surroundings Net}.

Abbreviation Runtime := (RuntimeState.Runtime Net).
Abbreviation DM := (M Runtime RuntimeError).

(** [RuntimeScope], for the time of [scope]. *)
Definition RuntimeScope : Type := Runtime * gset RequestId.
Abbreviation SM := (M RuntimeScope RuntimeError).

Definition in_scope (A : Type) (m : DM A) : SM A := fun '(s, tracked) =>
  let '(r, s) := m s in (r, (s, tracked)).
Definition track (r : RequestId) : SM unit := modify (fun '(s, tracked) => (s, {[r]} ∪ tracked)).
Definition untrack (r : RequestId) : SM unit := modify (fun '(s, tracked) => (s, tracked ∖ {[r]})).

(** A [ScopedFuture] is the future of the request; the set is that of the scope. *)
Definition scope_spawn_on (A : Action) (place : Place) (action : sort_of (action_ty A)) : SM RemoteFuture :=
  future ← in_scope _ (spawn_on A place action);
  track (future_request future);;
  mret future.

Definition scoped_poll {T} `{WireValue T} (cast : any -> option T) (f : RemoteFuture) (context : Z) :
    SM (option (result RuntimeError T) * RemoteFuture) :=
  '(r, f) ← in_scope _ (remote_poll cast f context);
  match r with
  | Some r => untrack (future_request f);; mret (Some r, f)
  | None => mret (None, f)
  end.

Definition scoped_drop (f : RemoteFuture) : SM unit :=
  untrack (future_request f);;
  in_scope _ (remote_drop f).

Definition scope_block_on {T} `{WireValue T} (cast : any -> option T) (fuel : nat) (f : RemoteFuture) (waker : Z) :
    SM (option (result RuntimeError T)) :=
  block_on in_scope id (scoped_poll cast) scoped_drop fuel f waker.

(** What [function] comes to, and the requests that are still tracked. *)
Definition scope_body {R} (function : SM R) : DM (result RuntimeError R * gset RequestId) := fun s =>
  match function (s, ∅) with
  | (Ok a, (s, tracked)) => (Ok (Ok a, tracked), s)
  | (Err (Raise e), (s, tracked)) => (Ok (Err e, tracked), s)
  | (Err Panic, (s, _)) => (Err Panic, s)
  end.

Definition scope {R} (function : SM R) : DM R :=
  '(result, requests) ← scope_body function;
  for_each cancel (elements requests);;
  mwhen (is_ok result && negb (bool_decide (requests = ∅)))
    (progress (Z.of_nat (size requests));; mret tt);;
  lift result.
End Scope.
