(* ===== verification/ClientCalls.v ===== *)
(** * ClientCalls: what the futures of calls promise

    A call of an object follows the redirects of its object within its limits,
    and a preferred placement falls back at most once.  Between two polls, and
    between two rounds of one, the driver and others run: what is asked of them
    is that promises stay where they are. *)
From Stdlib Require Import Strings.Byte.
From S2P Require Import Prelude Text Protocol Transport Error RuntimeTypes RuntimeWire Dedup Action Pending Domain ObjectWire ObjectRegistry Objects Migration MigrationRuns RuntimeState Driver DriverRuns DriverCalls Builder Client.

Section Calls.
Context `{AnyTypes} {Net : Type} `{!TransportDriver Net} `{!Surroundings Net} `{!ClientSide}.
Abbreviation Runtime := (RuntimeState.Runtime Net).
Abbreviation DM := (M Runtime RuntimeError).
Implicit Types (s : Runtime) (c : RemoteObjectCall).

(** The transport refuses a parcel, but does not panic. *)
Definition calm_transport : Prop := forall p (n : Net), (try_send p n).1 <> Err Panic.

(** No promise goes away. *)
Definition keeps_promises s s' : Prop :=
  forall p, is_Some (promises (pending s) !! p) -> is_Some (promises (pending s') !! p).
#[local] Instance keeps_promises_preorder : PreOrder keeps_promises.
Proof. split; [by intros s p|]. intros s1 s2 s3 H1 H2 p Hp. by apply H2, H1. Qed.

(** A future that has not answered. *)
Definition live_future (f : RemoteFuture) s : Prop :=
  finished f = false /\ is_Some (promises (pending s) !! future_promise f).

Definition is_moved (e : RuntimeError) : bool := match e with RuntimeError_Moved _ _ => true | _ => false end.

Lemma future_kept f s s' : keeps_promises s s' -> live_future f s -> live_future f s'.
Proof. intros Hk [Hf Hp]. split; [done|by apply Hk]. Qed.

(** ** Requests *)

Lemma wp_outcome {A} (m : DM A) Q R s :
  wp m (fun a => Q (Ok a)) (fun e => Q (Err e)) s -> wp (outcome m) Q R s.
Proof. unfold wp, outcome. by destruct (m s) as [[a|[e|]] s']. Qed.

Lemma wp_or_else {A} (m : DM A) h Q R s :
  wp m Q (fun e s' => wp (h e) (fun _ => R e) R s') s -> wp (or_else m h) Q R s.
Proof.
  intros Hm. unfold or_else. apply wp_bind, wp_outcome. eapply wp_mono; [exact Hm|by intros|].
  intros e s' Hh. by apply wp_bind.
Qed.

Lemma wp_part {P E A} (get : Runtime -> P) put (to_error : E -> RuntimeError) (m : M P E A) Q R s :
  wp m (fun a p => Q a (put p s)) (fun e p => R (to_error e) (put p s)) (get s) -> wp (on_part get put to_error m) Q R s.
Proof. unfold wp, on_part. by destruct (m (get s)) as [[a|[e|]] p]. Qed.

(** What sends a request leaves the calls and the objects alone, and does not
    fail with a redirect. *)
Definition same s s' : Prop := pending s' = pending s /\ objects s' = objects s.
Definition sends s : RuntimeError -> Runtime -> Prop := fun e s' => is_moved e = false /\ same s s'.

Lemma wp_send destination message purpose trace s :
  calm_transport ->
  wp (send destination message purpose trace : DM SendTicket) (fun _ => same s) (sends s) s.
Proof.
  intros Hnet. unfold send, next_message, sends. wp_steps. unfold ok_or. destruct (next_value _); [|done]. wp_steps.
  unfold map_err, MessageId_new, nonzero_u128_id. 
  match goal with |- match (match ?x with _ => _ end) with _ => _ end => destruct x; [|done] end.
  wp_steps. match goal with |- match (match ?x with _ => _ end) with _ => _ end => destruct x; [|done] end.
  wp_steps; [done|]. unfold on_net. apply wp_part. unfold wp.
  match goal with |- context [try_send ?p ?n] => pose proof (Hnet p n) end.
  destruct (try_send _ _) as [[t|[e|]] n]; [|done..]. unfold count. by wp_steps.
Qed.

Lemma ensure_running_wp s : wp (ensure_running : DM unit) (fun _ s' => s' = s) (fun e s' => is_moved e = false /\ s' = s) s.
Proof. unfold ensure_running. wp_steps. by destruct (runtime_state s). Qed.

Lemma next_request_wp s :
  wp (next_request : DM RequestId) (fun _ => same s) (sends s) s.
Proof.
  unfold next_request, sends. wp_steps. unfold ok_or. destruct (next_value _); [|done]. wp_steps.
  unfold map_err, RequestId_new. by destruct (_ =? 0).
Qed.

(** A promise is allocated, and stays: the request of the future is the one
    given. *)
Lemma wp_spawn place a input options request s :
  calm_transport ->
  wp (spawn_inner place a input options request)
    (fun f s' => live_future f s' /\ keeps_promises s s' /\ (forall r, request = Some r -> future_request f = r) /\
       objects s' = objects s)
    (fun e s' => is_moved e = false /\ keeps_promises s s') s.
Proof.
  intros Hnet. unfold spawn_inner. apply wp_bind. eapply wp_mono; [apply ensure_running_wp| |by intros ? ? [? ->]]. intros ? ? ->.
  destruct (_ =? 0); [done|]. destruct (negb _); [done|].
  destruct (negb (locality place =? conf_local cfg) && is_typed input) eqn:Htyped; [done|]. destruct (negb (_ <=? _)); [done|].
  apply wp_bind. eapply wp_mono; [apply ensure_running_wp| |by intros ? ? [? ->]]. intros ? ? ->.
  apply wp_bind. apply (wp_mono _ (fun r s' => same s s' /\ forall r', request = Some r' -> r = r') _ (sends s)).
  { destruct request as [r|]; [apply wp_ret; split; [done|by intros r' [= ->]]|].
    eapply wp_mono; [apply next_request_wp|done|done]. }
  2: { intros e s1 (He & E1 & _). split; [done|]. intros p. by rewrite E1. }
  cbn beta. intros r s1 [[E1 O1] Hr]. apply wp_bind, wp_part. unfold Promise_new. wp_steps.
  set (p := next_promise (pending s1)). set (s2 := set_pending _ s1).
  assert (H12 : keeps_promises s1 s2).
  { intros q [v Hq]. unfold s2. cbn. destruct (decide (p = q)) as [<-|Hne]; [by rewrite lookup_insert_eq; eexists|].
    rewrite lookup_insert_ne by done. by eexists. }
  assert (H02 : keeps_promises s s2) by (etransitivity; [|exact H12]; intros q; by rewrite E1).
  assert (Hp : is_Some (promises (pending s2) !! p)) by (unfold s2; cbn; rewrite lookup_insert_eq; by eexists).
  assert (O2 : objects s2 = objects s) by exact O1.
  clearbody s2. unfold Driver.now. wp_steps. unfold ok_or. destruct (checked_add _ _ _) as [expiry|]; [|done].
  apply wp_bind. apply (wp_mono _ (fun token s' => same s2 s' /\ (token = None -> is_typed input = false)) _ never);
    [| |by intros ? ? []].
  { destruct (locality place =? conf_local cfg); [unfold new_client_flag; wp_steps; by split|].
    apply wp_ret. by cbn in Htyped. }
  cbn beta. intros token s3 [[E3 O3] Htoken].
  assert (Hend : forall s', promises (pending s') = promises (pending s3) ->
    keeps_promises s s' /\ is_Some (promises (pending s') !! p)).
  { intros s' E'. split; [|by rewrite E', E3]. etransitivity; [exact H02|]. intros q. by rewrite E', E3. }
  apply wp_bind, wp_part. unfold Pending.insert. wp_steps; [split; [done|by apply Hend]|]. wp_steps.
  set (s4 := set_pending _ s3). apply (wp_mono _ (fun _ => same s4) _
    (fun e s' => is_moved e = false /\ keeps_promises s s')); [|intros ? s5 [E5 O5]; apply wp_ret|done].
  - apply wp_or_else. apply (wp_mono _ (fun _ => same s4) _ (sends s4)); [|done|].
    + destruct token; [unfold local_send; by wp_steps|]. destruct input; [|by specialize (Htoken eq_refl)].
      apply wp_bind. eapply wp_mono; [by apply wp_send|done|done].
    + intros e s5 (He & E5 & _). apply wp_bind, wp_part. unfold Pending.remove. wp_steps. split; [done|]. apply Hend. cbn. by rewrite E5.
  - split_and!; [split; [done|]|..|done|by rewrite O5, <- O2, <- O3]; apply Hend; by rewrite E5.
Qed.

(** ** Polls *)

Section Typed.
Context {T : Type} `{WireValue T} (cast : any -> option T).
(** The codec of [T] reports errors. *)
Hypothesis decodes : forall segments, wire_decode (T := T) segments <> Err Panic.

Lemma wp_remote_poll f context s :
  live_future f s ->
  wp (remote_poll cast f context)
    (fun '(r, f') s' => keeps_promises s s' /\ future_request f' = future_request f /\
       match r with None => live_future f' s' | Some _ => finished f' = true end) (fun _ _ => False) s.
Proof.
  intros [Hf [v Hv]]. unfold remote_poll. apply wp_bind, wp_part. unfold future_poll. rewrite Hf. apply wp_bind.
  unfold wp at 1. rewrite (poll_eq (future_promise f) v context (pending s) Hv).
  match goal with |- context [set_promise ?p ?x ?q] => set (s1 := set_pending (set_promise p x q) s) end.
  assert (Hk : keeps_promises s s1).
  { intros p [x Hp]. unfold s1. cbn. destruct (decide (future_promise f = p)) as [<-|Hne];
      [by rewrite lookup_insert_eq; eexists|rewrite lookup_insert_ne by done; by eexists]. }
  destruct (promise_result v) as [o|].
  - assert (Hc : convert cast o <> Err Panic).
    { unfold convert. destruct o as [[l|x]|]; [|by destruct (cast x)|done].
      pose proof (decodes l). by destruct (wire_decode l) as [|[]]. }
    cbn. destruct (convert cast o) as [x|[e|]]; [|..|done]; by split_and!.
  - cbn. split_and!; try done. split; [done|]. apply Hk. by eexists.
Qed.

(** ** Redirects *)

(** [c'] is [c] after some redirects: each is to a newer epoch. *)
Record follows c c' : Prop := {
  fo_object : call_object c' = call_object c;
  fo_type : call_type c' = call_type c;
  fo_action : call_action c' = call_action c;
  fo_payload : call_payload c' = call_payload c;
  fo_request : call_request c' = call_request c;
  fo_deadline : call_deadline c' = call_deadline c;
  fo_max : call_max_redirects c' = call_max_redirects c;
  fo_more : call_redirects c <= call_redirects c' <= call_max_redirects c;
  fo_epoch : call_last_epoch c + (call_redirects c' - call_redirects c) <= call_last_epoch c';
}.
Lemma follows_trans c1 c2 c3 : follows c1 c2 -> follows c2 c3 -> follows c1 c3.
Proof. intros [] []. split; try congruence; lia. Qed.
Lemma follows_future c c' f : follows c c' -> follows c (set_call_future f c').
Proof. by intros []. Qed.

Definition call_live c s : Prop :=
  live_future (call_future c) s /\ future_request (call_future c) = call_request c /\
  call_redirects c <= call_max_redirects c.
(** What a poll answers is not a redirect, and a call that waits can be polled
    again. *)
Definition answer_ok (r : option (result RuntimeError T)) c s : Prop :=
  match r with
  | None => call_live c s
  | Some r => finished (call_future c) = true /\ match r with Ok _ => True | Err e => is_moved e = false end
  end.

Hypothesis calm : calm_transport.

Lemma wp_call_step c context s :
  call_live c s ->
  wp (call_step cast c context)
    (fun '(r, c') s' => keeps_promises s s' /\ follows c c' /\
       match r with
       | Again => call_live c' s' /\ call_redirects c < call_redirects c'
       | Answer r => answer_ok r c' s'
       end) (fun _ _ => False) s.
Proof.
  intros (Hlive & Hreq & Hmax). unfold call_step. apply wp_bind. eapply wp_mono; [by apply wp_remote_poll| |done].
  intros [r f] s1 (Hk & Hf & Hfin). set (c1 := set_call_future f c).
  assert (H01 : follows c c1) by (split; cbn; (done || lia)).
  destruct r as [[v|e]|].
  - apply wp_ret. by split_and!.
  - destruct (is_moved e) eqn:He; [|destruct e; try done; apply wp_ret; by split_and!].
    destruct e; try done. cbn [call_object call_last_epoch call_max_redirects call_redirects set_call_future c1].
    destruct (negb _ || _) eqn:Hbad; [apply wp_ret; by split_and!|].
    destruct (call_max_redirects c <=? call_redirects c) eqn:Hlimit; [apply wp_ret; by split_and!|].
    apply orb_false_iff in Hbad as [Ho Hep]. zbool. set (c2 := followed location c1).
    assert (H02 : follows c c2) by (split; cbn; (done || lia)).
    apply wp_bind. unfold cache_object_location, on_objects. apply wp_part.
    apply MigrationRuns.wp_cache. intros x. set (s2 := set_objects _ s1).
    apply wp_bind, wp_outcome. unfold call_retry, spawn_encoded_retry.
    eapply wp_mono; [by apply wp_spawn|..]; cbn beta.
    + intros f' s3 (Hf' & Hk' & Hr' & _). apply wp_ret. split_and!; [by etransitivity| |split_and!|].
      * by apply follows_future.
      * done.
      * by apply Hr'.
      * cbn. lia.
      * cbn. lia.
    + intros e s3 [He' Hk']. apply wp_ret. split_and!; [by etransitivity|done|done].
  - apply wp_ret. split_and!; [done|done|]. split_and!; [by destruct Hfin..|cbn; congruence|cbn; lia].
Qed.

Hypothesis others_keep : forall s, keeps_promises s (others s).

Lemma wp_call_loop fuel : forall c context s,
  call_live c s -> (call_rounds c <= fuel)%nat ->
  wp (call_loop cast fuel c context)
    (fun x s' => keeps_promises s s' /\ exists r c', x = Some (r, c') /\ follows c c' /\ answer_ok r c' s')
    (fun _ _ => False) s.
Proof.
  unfold call_rounds. induction fuel as [|fuel IH]; intros c context s Hlive Hfuel; [lia|]. cbn [call_loop].
  apply wp_bind. eapply wp_mono; [by apply wp_call_step| |done]. intros [[r|] c1] s1 (Hk & Hfo & Hr).
  - apply wp_ret. split; [done|]. by exists r, c1.
  - destruct Hr as [(Hl1 & Hq & Hm) Hlt]. apply wp_bind, wp_modify.
    assert (Hk' : keeps_promises s (others s1)) by (etransitivity; [exact Hk|apply others_keep]).
    eapply wp_mono; [apply (IH c1 context (others s1))| |done].
    + split; [by eapply future_kept; [apply others_keep|]|done].
    + destruct Hfo. rewrite fo_max0. lia.
    + intros x s2 [Hk2 (r & c2 & -> & Hf2 & Hr2)]. split; [by etransitivity|]. exists r, c2.
      split_and!; [done|by eapply follows_trans|done].
Qed.

Lemma wp_call_poll c context s :
  call_live c s ->
  wp (call_poll cast c context) (fun '(r, c') s' => keeps_promises s s' /\ follows c c' /\ answer_ok r c' s')
    (fun _ _ => False) s.
Proof.
  intros Hl. unfold call_poll. apply wp_bind. eapply wp_mono; [by apply wp_call_loop| |done].
  intros x s1 [Hk (r & c1 & -> & Hf & Hr)]. by apply wp_ret.
Qed.

(** The life of a call: between two polls that find it pending, anything happens
    that keeps the promises. *)
Inductive call_runs c s : RemoteObjectCall -> Runtime -> Prop :=
| Runs_start : call_runs c s c s
| Runs_others c1 s1 s2 : call_runs c s c1 s1 -> keeps_promises s1 s2 -> call_runs c s c1 s2
| Runs_poll c1 s1 context c2 s2 :
    call_runs c s c1 s1 -> call_poll cast c1 context s1 = (Ok (None, c2), s2) -> call_runs c s c2 s2.

Lemma call_runs_live c s c1 s1 : call_live c s -> call_runs c s c1 s1 -> follows c c1 /\ call_live c1 s1.
Proof.
  intros Hl. induction 1 as [|c1 s1 s2 _ [Hf (L1 & L2 & L3)] Hk|c1 s1 context c2 s2 _ [Hf Hl1] Hp].
  - pose proof Hl as (_ & _ & ?). split; [split; (done || lia)|done].
  - split; [done|]. split; [by eapply future_kept|done].
  - pose proof (wp_call_poll c1 context s1 Hl1) as Hw. unfold wp in Hw. rewrite Hp in Hw. destruct Hw as (_ & Hf2 & Hl2).
    split; [by eapply follows_trans|done].
Qed.

(** A call that the client makes is live. *)
Lemma wp_spawn_at (r : Remote) l action payload s :
  0 <= ObjectWire.max_redirects (Objects.limits (objects s)) ->
  wp (spawn_at r l action payload : DM RemoteObjectCall)
    (fun c s' => call_live c s' /\ keeps_promises s s' /\ call_redirects c = 0 /\ call_object c = remote_object r /\
       call_last_epoch c = ObjectLocation_epoch l) (fun e _ => is_moved e = false) s.
Proof.
  intros Hmax. unfold spawn_at, spawn_encoded. apply wp_bind.
  eapply wp_mono; [by apply wp_spawn| |by intros ? ? []]. cbn beta. intros f s1 (Hf & Hk & _ & Ho).
  apply wp_bind, wp_gets, wp_ret. split_and!; try done. split; [done|]. split; [done|]. cbn. by rewrite Ho.
Qed.

(** C11: a call of an object always comes to an end of its own.  The calls the
    client makes are live: they wait for their request and were not redirected.  However often it
    is polled, and whatever happens between two polls and between two rounds of
    one: a poll returns, without failing or panicking; it follows at most
    [max_redirects] redirects over the life of the call, each to a newer epoch of
    the object that is called, always for the same request; while it is pending
    it waits for that request and can be polled again; and no caller sees a
    redirect: what a call answers is a value or another error. *)
Theorem object_call_follows_redirects :
  (forall (r : Remote) l action payload s, 0 <= ObjectWire.max_redirects (Objects.limits (objects s)) ->
     wp (spawn_at r l action payload : DM RemoteObjectCall)
       (fun c s' => call_live c s' /\ keeps_promises s s' /\ call_redirects c = 0 /\ call_object c = remote_object r /\
          call_last_epoch c = ObjectLocation_epoch l) (fun e _ => is_moved e = false) s) /\
  forall c0 s0 c s context, call_live c0 s0 -> call_runs c0 s0 c s ->
  wp (call_poll cast c context)
    (fun '(r, c') s' =>
       call_redirects c' <= call_max_redirects c0 /\
       call_last_epoch c0 + (call_redirects c' - call_redirects c0) <= call_last_epoch c' /\
       call_object c' = call_object c0 /\ call_action c' = call_action c0 /\ call_payload c' = call_payload c0 /\
       call_request c' = call_request c0 /\
       match r with
       | None => live_future (call_future c') s' /\ future_request (call_future c') = call_request c0
       | Some (Err e) => forall o l, e <> RuntimeError_Moved o l
       | Some (Ok _) => True
       end) (fun _ _ => False) s.
Proof.
  split; [exact wp_spawn_at|]. intros c0 s0 c s context H0l Hruns. destruct (call_runs_live _ _ _ _ H0l Hruns) as [F1 Hl].
  eapply wp_mono; [by apply wp_call_poll| |done]. intros [r c'] s' (Hk & F2 & Hr).
  pose proof (follows_trans _ _ _ F1 F2) as [F3 F4 F5 F6 F7 F8 F9 F10 F11].
  split_and!; [lia|lia|done..|]. destruct r as [[v|e]|]; [done| |].
  - intros o l ->. by destruct Hr.
  - destruct Hr as (? & ? & ?). split; [done|congruence].
Qed.

(** ** Preferred placement *)

Lemma pwp_outcome' {A} (m : DM A) (Q : result RuntimeError A -> Runtime -> Prop) R s :
  pwp m (fun a => Q (Ok a)) (fun e => Q (Err e)) s -> pwp (outcome m) Q R s.
Proof. unfold pwp, outcome. by destruct (m s) as [[a|[e|]] s']. Qed.

(** The payload is there as long as the fallback was not tried. *)
Definition placing (f : PlacementFuture) s : Prop :=
  match placement_state f with
  | Preferred future => call_live (colocated_inner future) s /\ is_Some (placement_payload f)
  | Fallback future => live_future future s /\ placement_payload f = None
  | Placed => True
  end.
Definition is_preferred (f : PlacementFuture) : bool := if placement_state f is Preferred _ then true else false.
Definition is_fallback (f : PlacementFuture) : bool := if placement_state f is Fallback _ then true else false.
Definition is_placed (f : PlacementFuture) : bool := if placement_state f is Placed then true else false.

(** The future that answered. *)
Definition settled (x : PlacementState) : Prop :=
  match x with
  | Preferred future => finished (call_future (colocated_inner future)) = true
  | Fallback future => finished future = true
  | Placed => True
  end.

Lemma pwp_drop_finished f s :
  finished f = true -> pwp (remote_drop f : DM unit) (fun _ s' => pending s' = pending s) never s.
Proof.
  intros Hf. unfold remote_drop, on_pending, future_drop, mbind, M_bind, pwp, on_part. by rewrite Hf.
Qed.

(** Dropping it leaves the calls alone. *)
Lemma pwp_replace x f s :
  settled (placement_state f) ->
  pwp (replace_state x f : DM PlacementFuture)
    (fun f' s' => f' = keep_state x f /\ pending s' = pending s) never s.
Proof.
  intros Hf. unfold replace_state. apply pwp_bind.
  apply (pwp_mono _ (fun _ s' => pending s' = pending s) _ never); [|by intros ? s' E|done].
  destruct (placement_state f) as [future|future|]; [|by apply pwp_drop_finished|done]. cbn [state_drop settled] in *.
  unfold colocated_drop, call_drop. apply pwp_bind. eapply pwp_mono; [by apply pwp_drop_finished| |done].
  intros ? s1 E1. cbn beta. apply (pwp_mono _ (fun _ s' => pending s' = pending s1 /\ True) _ (fun _ s' => pending s' = pending s1 /\ False));
    [|by intros ? s' [-> _]|by intros ? ? [_ []]].
  apply pwp_and.
  - apply (quiet_drop_lease (fun s' => pending s' = pending s1)); [|done]. by intros ? ? (-> & _) ?.
  - unfold drop_lease, with_lease. apply pwp_bind, pwp_gets. destruct (lease_store s1 !! _); [|done].
    apply pwp_bind, pwp_modify. apply calm_when. apply calm_deactivate.
Qed.

Definition same_policy (f f' : PlacementFuture) : Prop :=
  placement_fallback f' = placement_fallback f /\ placement_action f' = placement_action f /\
  placement_options f' = placement_options f.

(** One iteration: the fallback is tried when the preferred place is saturated,
    once. *)
Definition step_ok f (r : Iteration T) f' s : Prop :=
  match r with
  | Again => is_preferred f = true /\ is_fallback f' = true /\ is_Some (fallback_place (placement_fallback f))
  | Answer None => is_placed f = false /\ is_preferred f' = is_preferred f /\ is_fallback f' = is_fallback f /\
      is_placed f' = false
  | Answer (Some r) => is_placed f' = true /\
      (is_preferred f = true -> is_Some (fallback_place (placement_fallback f)) ->
       placement_payload f' = None \/ forall e, r = Err e -> placement_saturated e = false)
  end.

Lemma pwp_placed x f (r : Iteration T) s Q :
  settled (placement_state f) ->
  (forall s', pending s' = pending s -> Q (r, keep_state x f) s') ->
  pwp (f ← replace_state x f; mret (r, f)) Q never s.
Proof.
  intros Hf HQ. apply pwp_bind. eapply pwp_mono; [by apply pwp_replace| |done]. intros f' s' [-> E]. by apply HQ.
Qed.

Lemma pwp_placement_step f context s :
  placing f s ->
  pwp (placement_step cast f context)
    (fun '(r, f') s' => keeps_promises s s' /\ same_policy f f' /\ (placement_payload f = None -> placement_payload f' = None) /\
       placing f' s' /\ step_ok f r f' s') never s.
Proof.
  intros Hf. unfold placement_step, placing in *. destruct (placement_state f) as [future|future|] eqn:Hstate.
  - destruct Hf as [Hlive [payload Hp]]. unfold colocated_poll. apply pwp_bind, pwp_bind, pwp_wp.
    eapply wp_mono; [by apply wp_call_poll| |done]. intros [r c] s1 (Hk & Hfo & Hr). apply pwp_wp, wp_ret.
    assert (Hk1 : forall s', pending s' = pending s1 -> keeps_promises s s') by (intros s' E q Hq; rewrite E; by apply Hk).
    destruct r as [[v|e]|].
    + apply pwp_placed; [apply Hr|]. intros s' E. split_and!; [by apply Hk1|done..|]. split; [done|]. intros _ _. by right.
    + destruct (placement_saturated e) eqn:Hsat.
      2: { apply pwp_placed; [apply Hr|]. intros s' E. split_and!; [by apply Hk1|done..|]. split; [done|].
           intros _ _. right. by intros ? [= <-]. }
      cbn [placement_fallback keep_state]. destruct (fallback_place (placement_fallback f)) as [place|] eqn:Hplace.
      2: { apply pwp_placed; [apply Hr|]. intros s' E. split_and!; [by apply Hk1|done..|]. split; [done|].
           rewrite Hplace. by intros _ []. }
      cbn [placement_payload keep_state]. rewrite Hp. apply pwp_bind, pwp_outcome', pwp_wp. unfold spawn_encoded.
      eapply wp_mono; [by apply wp_spawn|..]; cbn beta.
      * intros f' s2 (Hf' & Hk2 & _). apply pwp_placed; [apply Hr|]. intros s' E.
        assert (Hk' : keeps_promises s1 s') by (intros q Hq; rewrite E; by apply Hk2).
        split_and!; [by etransitivity|done..| |].
        -- split; [|done]. split; [apply Hf'|]. rewrite E. apply Hf'.
        -- unfold step_ok, is_preferred. rewrite Hstate, Hplace. by split_and!.
      * intros e' s2 [_ Hk2]. apply pwp_placed; [apply Hr|]. intros s' E.
        split_and!; [etransitivity; [exact Hk|intros q Hq; rewrite E; by apply Hk2]|done..|].
        split; [done|intros _ _; by left].
    + split_and!; [done..| |]; [split; [apply Hr|by eexists]|].
      unfold step_ok, is_placed, is_preferred, is_fallback. by rewrite Hstate.
  - destruct Hf as [Hlive Hp]. apply pwp_bind, pwp_wp. eapply wp_mono; [by apply wp_remote_poll| |done].
    intros [r f'] s1 (Hk & _ & Hr). destruct r as [r|].
    + apply pwp_placed; [done|]. intros s' E. split_and!; [intros q Hq; rewrite E; by apply Hk|done..|].
      split; [done|]. intros _ _. by left.
    + split_and!; [done..|by split|]. unfold step_ok, is_placed, is_preferred, is_fallback. by rewrite Hstate.
  - split_and!; [done..| |]; [unfold placing; by rewrite Hstate|]. unfold step_ok, is_placed, is_preferred. by rewrite Hstate.
Qed.

(** A poll, from its first iteration. *)
Definition poll_ok f (r : option (result RuntimeError T)) f' : Prop :=
  same_policy f f' /\
  (is_preferred f = false -> is_preferred f' = false) /\
  (is_fallback f' = true -> is_fallback f = true \/ is_preferred f = true /\ is_Some (fallback_place (placement_fallback f))) /\
  match r with
  | None => is_placed f' = false
  | Some r => is_placed f' = true /\
      (is_placed f = false -> forall e, r = Err e -> placement_saturated e = true ->
       fallback_place (placement_fallback f) = None \/ placement_payload f' = None)
  end.

Lemma kinds f : is_placed f = false -> is_preferred f = true \/ is_fallback f = true.
Proof. unfold is_placed, is_preferred, is_fallback. destruct (placement_state f); auto. Qed.
Lemma kind_preferred f : is_preferred f = true -> is_fallback f = false /\ is_placed f = false.
Proof. unfold is_placed, is_preferred, is_fallback. by destruct (placement_state f). Qed.
Lemma kind_fallback f : is_fallback f = true -> is_preferred f = false /\ is_placed f = false.
Proof. unfold is_placed, is_preferred, is_fallback. by destruct (placement_state f). Qed.
Lemma kind_placed f : is_placed f = true -> is_preferred f = false /\ is_fallback f = false.
Proof. unfold is_placed, is_preferred, is_fallback. by destruct (placement_state f). Qed.
Lemma fallback_spent f s : placing f s -> is_fallback f = true -> placement_payload f = None.
Proof. unfold placing, is_fallback. destruct (placement_state f); try done. by intros []. Qed.

(** An iteration that answers ends the poll. *)
Lemma answer_poll f r f' s s' :
  placing f s -> placing f' s' -> same_policy f f' -> step_ok f (Answer r) f' s' -> 
  (is_fallback f = true -> placement_payload f' = None) -> poll_ok f r f'.
Proof.
  intros Hf Hf' Hp Hstep Hspent. destruct r as [r|]; cbn in Hstep.
  - destruct Hstep as [Hplaced Hsat]. pose proof (kind_placed _ Hplaced) as [K1 K2]. split_and!; [done|done|congruence|done|].
    intros Hopen e -> He. destruct (fallback_place (placement_fallback f)) as [place|] eqn:Hplace; [right|by left].
    destruct (kinds f Hopen) as [Hk|Hk]; [|by apply Hspent]. destruct (Hsat Hk) as [Hn|Hn]; [by eexists|done|].
    by rewrite (Hn e eq_refl) in He.
  - destruct Hstep as (S1 & S2 & S3 & S4). split_and!; [done|congruence|rewrite S3; by left|done].
Qed.

Lemma pwp_placement_poll f context s :
  placing f s ->
  pwp (placement_poll cast f context) (fun '(r, f') s' => placing f' s' /\ poll_ok f r f') never s.
Proof.
  intros Hf. unfold placement_poll. apply pwp_bind. eapply pwp_mono; [by apply pwp_placement_step| |done].
  intros [[r|] f1] s1 (Hk & Hp & Hspent & Hf1 & Hstep).
  - split; [done|]. apply (answer_poll f r f1 s s1); try done. intros Hfb. apply Hspent. by eapply fallback_spent.
  - destruct Hstep as (Hpref & Hfall & Hplace). apply pwp_bind, pwp_modify.
    assert (Hf1' : placing f1 (others s1)).
    { unfold placing in *. unfold is_fallback in Hfall. destruct (placement_state f1) as [|future|]; try done.
      destruct Hf1. split; [|done]. by eapply future_kept; [apply others_keep|]. }
    apply pwp_bind. eapply pwp_mono; [by apply pwp_placement_step| |done].
    intros [[r|] f2] s2 (Hk2 & Hp2 & Hspent2 & Hf2 & Hstep2).
    + destruct (kind_fallback f1 Hfall) as [K1 K2]. pose proof (fallback_spent f1 s1 Hf1 Hfall) as Hnone.
      split; [done|]. assert (Hpol : same_policy f f2).
      { destruct Hp as (P1 & P2 & P3), Hp2 as (Q1 & Q2 & Q3). split_and!; congruence. }
      split_and!; [apply Hpol..| | |].
      * intros Hno. congruence.
      * intros _. by right.
      * destruct r as [r|]; cbn in Hstep2; [|by destruct Hstep2 as (_ & _ & _ & ?)]. destruct Hstep2 as [Hdone _].
        split; [done|]. intros _ e _ _. right. auto.
    + destruct Hstep2 as (Habs & _). destruct (kind_fallback f1 Hfall). congruence.
Qed.

Inductive placement_runs f s : PlacementFuture -> Runtime -> Prop :=
| Placing_start : placement_runs f s f s
| Placing_others f1 s1 s2 : placement_runs f s f1 s1 -> keeps_promises s1 s2 -> placement_runs f s f1 s2
| Placing_poll f1 s1 context f2 s2 :
    placement_runs f s f1 s1 -> placement_poll cast f1 context s1 = (Ok (None, f2), s2) -> placement_runs f s f2 s2.

Lemma placing_kept f s s' : keeps_promises s s' -> placing f s -> placing f s'.
Proof.
  intros Hk. unfold placing. destruct (placement_state f) as [future|future|]; [|intros [? ?]; split; [by eapply future_kept|done]|done].
  intros [(? & ? & ?) ?]. split; [split; [by eapply future_kept|done]|done].
Qed.

Definition running_kind f0 f : Prop :=
  same_policy f0 f /\ is_placed f = false /\
  (is_fallback f = true -> is_Some (fallback_place (placement_fallback f0))).

Lemma placement_runs_ok f s f1 s1 :
  placing f s -> is_preferred f = true -> placement_runs f s f1 s1 -> placing f1 s1 /\ running_kind f f1.
Proof.
  intros Hf Hp. induction 1 as [|f1 s1 s2 _ [Hf1 Hr] Hk|f1 s1 context f2 s2 _ [Hf1 (R1 & R2 & R3)] Hpoll].
  - destruct (kind_preferred f Hp) as [K1 K2]. split; [done|]. split_and!; try done. congruence.
  - split; [by eapply placing_kept|done].
  - pose proof (pwp_placement_poll f1 context s1 Hf1) as Hw. unfold pwp in Hw. rewrite Hpoll in Hw.
    destruct Hw as (Hf2 & Hpol & _ & Hfall & Hopen). split; [done|].
    destruct R1 as (P1 & P2 & P3), Hpol as (Q1 & Q2 & Q3). split; [split_and!; congruence|]. split; [done|].
    intros Hfb. destruct (Hfall Hfb) as [?|[_ Hplace]]; [by apply R3|]. by rewrite P1 in Hplace.
Qed.

(** a preferred placement is tried at the object first and falls back at most
    once.  However often it is polled, and whatever happens in between: while it
    is pending it waits for the object's locality, and still has its payload, or
    for the fallback, which has taken it, and only when the policy allows one; a
    poll that returns does not fail, never goes back to the object, and when it
    answers that the place was saturated then the policy is to reject or the
    fallback was tried; afterwards every poll says that it has answered. *)
Theorem preferred_placement_falls_back_once f0 s0 f s context :
  placing f0 s0 -> is_preferred f0 = true -> placement_runs f0 s0 f s ->
  (is_preferred f = true /\ is_Some (placement_payload f) \/
   is_fallback f = true /\ placement_payload f = None /\ placement_fallback f0 <> Fallback_Reject) /\
  pwp (placement_poll cast f context)
    (fun '(r, f') s' =>
       same_policy f0 f' /\ (is_preferred f = false -> is_preferred f' = false) /\
       match r with
       | None => is_placed f' = false
       | Some r =>
           (forall e, r = Err e -> placement_saturated e = true ->
              placement_fallback f0 = Fallback_Reject \/ placement_payload f' = None) /\
           forall context' s'', placement_poll cast f' context' s'' =
             (Ok (Some (Err (RuntimeError_Protocol (lit "placement future polled after completion"))), f'), s'')
       end) never s.
Proof.
  intros Hf0 Hp0 Hruns. destruct (placement_runs_ok _ _ _ _ Hf0 Hp0 Hruns) as [Hf (R1 & R2 & R3)].
  assert (Hreject : forall x : PlacementFallback, is_Some (fallback_place x) <-> x <> Fallback_Reject).
  { intros []; cbn; (split; [intros Hx; first [done|by destruct Hx]|intros Hx; first [by destruct Hx|by eexists]]). }
  split.
  - destruct (kinds f R2) as [Hk|Hk]; [left|right].
    + split; [done|]. unfold placing, is_preferred in *. destruct (placement_state f); [apply Hf|done..].
    + split_and!; [done|by eapply fallback_spent|]. apply Hreject. auto.
  - eapply pwp_mono; [by apply pwp_placement_poll| |done]. intros [r f'] s' (Hf' & Hpol & Hback & _ & Hr).
    destruct R1 as (P1 & P2 & P3), Hpol as (Q1 & Q2 & Q3). split; [split_and!; congruence|]. split; [done|].
    destruct r as [r|]; [|done]. destruct Hr as [Hplaced Hsat]. split.
    + intros e He Hs. destruct (Hsat R2 e He Hs) as [Hn|Hn]; [left|by right]. rewrite P1 in Hn.
      by destruct (placement_fallback f0).
    + intros context' s''. unfold placement_poll, placement_step, mbind, M_bind. unfold is_placed in Hplaced.
      by destruct (placement_state f').
Qed.
End Typed.
End Calls.

(** ** Examples *)

(** Locality 0, started with what [Builder.ex_builder] registers, holds a handle
    of a counter that locality 1 has. *)
Definition ex_client_cfg : Config :=
  match start 0 [0; 1] ex_handlers (fun _ => true) (seal ex_builder) with Ok st => started_config st | Err _ => ex_cfg end.
#[export] Instance ex_client : Surroundings ExNet := {|
  cfg := ex_client_cfg;
  instants n := Z.of_nat n;
  instant_max := u64_max;
  key_order _ o := (map_to_list (Objects.entries o)).*1;
  debug_str := id;
  display _ := lit "error";
  display_wire _ := lit "wire";
  display_protocol _ := lit "protocol";
  entry_bytes := 40;
  others := id;
|}.
#[export] Instance ex_side : ClientSide := {|
  any_bytes _ := None; any_unit _ := None; any_packet _ := None;
  invalid_redirect _ _ _ _ := lit "redirect";
|}.
Definition ex_there (epoch : Z) : ObjectLocation := mkObjectLocation 1 0 1 1 epoch.
Definition ex_idle : RuntimeState.Runtime ExNet := Runtime_new (mkExNet [] [] 8) ex_start (ex_service 0).
Definition ex_dial : M (RuntimeState.Runtime ExNet) RuntimeError (RemoteObjectCall * PlacementFuture) :=
  r ← attach_remote ex_object 7 (ex_there 1);
  c ← call_object_encoded r 102 [to_le_bytes 8 5];
  f ← spawn_preferred_colocated ex_action r Fallback_Any (U64 5);
  mret (c, f).

Definition ex_value {A} (d : A) (x : result (exn RuntimeError) A * RuntimeState.Runtime ExNet) : A :=
  match x.1 with Ok a => a | Err _ => d end.
Definition ex_no_call : RemoteObjectCall :=
  mkRemoteObjectCall (mkRemoteFuture (mkRequestId 0 0) 0 true) ex_object 0 0 [] (mkRequestId 0 0) 0 0 0 0.
Definition ex_no_placement : PlacementFuture := mkPlacementFuture Placed Fallback_Reject 0 None default_options.
Definition ex_call : RemoteObjectCall := (ex_value (ex_no_call, ex_no_placement) (ex_dial ex_idle)).1.
Definition ex_placement : PlacementFuture := (ex_value (ex_no_call, ex_no_placement) (ex_dial ex_idle)).2.
Definition ex_dialled : RuntimeState.Runtime ExNet := (ex_dial ex_idle).2.

(** The call is told to go to the next epoch, the placement that the queue is
    full. *)
Definition ex_moved : RuntimeMessage :=
  mkRuntimeMessage Msg_Moved (mkRequestId 0 1) 102 0 0
    [to_le_bytes 16 (ObjectId_run ex_object) ++ to_le_bytes 16 (ObjectId_unique ex_object);
     to_le_bytes 8 1 ++ to_le_bytes 4 0 ++ to_le_bytes 8 1 ++ to_le_bytes 4 1 ++ to_le_bytes 8 2].
Definition ex_full (action : ActionId) : RuntimeMessage :=
  mkRuntimeMessage Msg_Failure (mkRequestId 0 2) action 0 0 [lit "saturated"].

(** An answer of locality 1 arrives. *)
Definition ex_arrives (m : RuntimeMessage) : list (driver_call (Net := ExNet)) :=
  [Do_transport (fun n => mkExNet [Incoming (ex_parcel m)] (outbox n) (accepts n)); Do_progress 8].
Definition ex_redirected : RuntimeState.Runtime ExNet := acted (ex_arrives ex_moved) ex_dialled.
Definition ex_refused : RuntimeState.Runtime ExNet :=
  acted (ex_arrives (ex_full (Z.lxor 41 PLACEMENT_ACTION_MASK))) ex_dialled.

Lemma ex_calm : calm_transport (Net := ExNet).
Proof. intros p n. cbn. by destruct (accepts n). Qed.
Lemma ex_decodes segments : wire_decode (T := u64) segments <> Err Panic.
Proof.
  unfold wire_decode, wire_u64, one_segment. destruct segments as [|b [|b' l]]; [done|..].
  - change (negb (len [b] =? 1)) with false. cbn [last mbind result_bind]. by destruct (len b =? 8).
  - assert (len (b :: b' :: l) =? 1 = false) as -> by (unfold len; cbn [length]; apply Z.eqb_neq; lia). done.
Qed.

Lemma ex_others (s : RuntimeState.Runtime ExNet) : keeps_promises s (others s).
Proof. by intros p. Qed.
Definition ex_cast : any -> option u64 := downcast (true : @ty ex_types).

(** No promise goes away, as far as the addresses show. *)
Lemma keeps_by_keys (s s' : RuntimeState.Runtime ExNet) :
  bool_decide (dom (promises (pending s)) ⊆ dom (promises (pending s'))) = true -> keeps_promises s s'.
Proof. intros Hd%bool_decide_eq_true p Hp. by apply elem_of_dom, Hd, elem_of_dom. Qed.

Definition live_test (c : RemoteObjectCall) (s : RuntimeState.Runtime ExNet) : bool :=
  negb (finished (call_future c)) && bool_decide (is_Some (promises (pending s) !! future_promise (call_future c)))
  && bool_decide (future_request (call_future c) = call_request c) && (call_redirects c <=? call_max_redirects c).
Lemma live_by_test c s : live_test c s = true -> call_live c s.
Proof.
  unfold live_test. rewrite !andb_true_iff. intros [[[Hf Hp] Hr] Hm].
  apply negb_true_iff in Hf. apply bool_decide_eq_true in Hp, Hr. apply Z.leb_le in Hm. by repeat split.
Qed.

Definition placing_test (f : PlacementFuture) (s : RuntimeState.Runtime ExNet) : bool :=
  match placement_state f with
  | Preferred future => live_test (colocated_inner future) s && bool_decide (is_Some (placement_payload f))
  | _ => false
  end.
Lemma placing_by_test f s : placing_test f s = true -> placing f s /\ is_preferred f = true.
Proof.
  unfold placing_test, placing, is_preferred. destruct (placement_state f); try done.
  intros [Hl Hp]%andb_true_iff. apply bool_decide_eq_true in Hp. by split; [split; [apply live_by_test|]|].
Qed.

Lemma object_call_follows_redirects_witness :
  exists c s, call_poll (T := u64) ex_cast ex_call 0 ex_redirected = (Ok (None, c), s) /\
    call_redirects c = 1 /\ 2 <= call_last_epoch c /\ call_request c = mkRequestId 0 1.
Proof.
  assert (Hlive : call_live ex_call ex_dialled) by (apply live_by_test; vm_compute; reflexivity).
  assert (Hkeep : keeps_promises ex_dialled ex_redirected) by (apply keeps_by_keys; vm_compute; reflexivity).
  pose proof (proj2 (object_call_follows_redirects (T := u64) ex_cast ex_decodes ex_calm ex_others)
    ex_call ex_dialled ex_call ex_redirected 0 Hlive
    (Runs_others _ _ _ _ _ _ (Runs_start _ _ _) Hkeep)) as Hw.
  assert (Ht : match call_poll (T := u64) ex_cast ex_call 0 ex_redirected with
               | (Ok (None, c), _) => call_redirects c =? 1 | _ => false end = true) by (vm_compute; reflexivity).
  assert (He : call_last_epoch ex_call = 1) by (vm_compute; reflexivity).
  assert (Hz : call_redirects ex_call = 0) by (vm_compute; reflexivity).
  assert (Hq : call_request ex_call = mkRequestId 0 1) by (vm_compute; reflexivity).
  unfold wp in Hw. destruct (call_poll (T := u64) ex_cast ex_call 0 ex_redirected) as [[[[r|] c]|e] s]; [discriminate Ht| |discriminate Ht].
  apply Z.eqb_eq in Ht. destruct Hw as (_ & Hep & _ & _ & _ & Hreq & _).
  exists c, s. split; [reflexivity|]. split; [exact Ht|]. rewrite Hreq. split; [lia|exact Hq].
Defined.

Lemma preferred_placement_falls_back_once_witness :
  exists f s, placement_poll (T := u64) ex_cast ex_placement 0 ex_refused = (Ok (None, f), s) /\
    is_fallback f = true /\ placement_fallback f = Fallback_Any.
Proof.
  assert (Ht : placing_test ex_placement ex_dialled = true) by (vm_compute; reflexivity).
  apply placing_by_test in Ht as [Hplacing Hpref].
  assert (Hkeep : keeps_promises ex_dialled ex_refused) by (apply keeps_by_keys; vm_compute; reflexivity).
  assert (Hany : placement_fallback ex_placement = Fallback_Any) by (vm_compute; reflexivity).
  destruct (preferred_placement_falls_back_once (T := u64) ex_cast ex_decodes ex_calm ex_others
    ex_placement ex_dialled ex_placement ex_refused 0 Hplacing Hpref
    (Placing_others _ _ _ _ _ _ (Placing_start _ _ _) Hkeep)) as [_ Hw].
  assert (Ht : match placement_poll (T := u64) ex_cast ex_placement 0 ex_refused with
               | (Ok (None, f), _) => is_fallback f | _ => false end = true) by (vm_compute; reflexivity).
  unfold pwp in Hw. destruct (placement_poll (T := u64) ex_cast ex_placement 0 ex_refused) as [[[[r|] f]|e] s];
    [discriminate Ht| |discriminate Ht].
  exists f, s. split; [reflexivity|]. split; [exact Ht|]. destruct Hw as ((Hf & _) & _). by rewrite Hf.
Defined.
