(* ===== verification/ScopeRuns.v ===== *)
(** * ScopeRuns: a scope leaves no call behind

    A program in a scope is any sequence of spawns, polls, waits and drops of its
    futures, with whatever the others do in between. *)
From S2P Require Import Prelude Text Protocol Transport Error RuntimeTypes RuntimeWire Dedup Action Pending Domain ObjectWire ObjectRegistry Objects Migration RuntimeState Driver DriverRuns DriverCalls Client Scope.

Create HintDb rising.

Section Programs.
Context `{AnyTypes} {Net : Type} `{!TransportDriver Net} `{!Surroundings Net}.
Abbreviation Runtime := (RuntimeState.Runtime Net).
Abbreviation DM := (M Runtime RuntimeError).
Abbreviation SM := (M (RuntimeScope (Net := Net)) RuntimeError).
Abbreviation waiting s := (Pending.entries (pending s)).
Implicit Types (s : Runtime) (G : gset Z) (tracked : gset RequestId).

(** ** Programs

    The futures of the program by number; one that was given away is [None]. *)
Inductive scope_call : Type :=
| Sc_spawn (A : Action) (place : Place) (action : sort_of (action_ty A))
| Sc_poll (t : ty) (w : WireValue (sort_of t)) (i : nat) (context : Z)
| Sc_block_on (t : ty) (w : WireValue (sort_of t)) (i fuel : nat) (waker : Z)
| Sc_drop (i : nat)
| Sc_forget (i : nat)
| Sc_others.

Abbreviation Futures := (list (option RemoteFuture)).

(** [outcome] in a scope. *)
Definition scope_try {A} (m : SM A) : SM (result RuntimeError A) := fun st =>
  match m st with
  | (Ok a, st) => (Ok (Ok a), st)
  | (Err (Raise e), st) => (Ok (Err e), st)
  | (Err Panic, st) => (Err Panic, st)
  end.

Definition scope_step (c : scope_call) (fs : Futures) : SM Futures :=
  match c with
  | Sc_spawn A place action =>
      r ← scope_try (scope_spawn_on A place action);
      mret (match r with Ok f => fs ++ [Some f] | Err _ => fs end)
  | Sc_poll t w i context =>
      match fs !! i with
      | Some (Some f) => '(_, f) ← scoped_poll (downcast t) f context; mret (<[i := Some f]> fs)
      | _ => mret fs
      end
  | Sc_block_on t w i fuel waker =>
      match fs !! i with
      | Some (Some f) => scope_block_on (downcast t) fuel f waker;; mret (<[i := None]> fs)
      | _ => mret fs
      end
  | Sc_drop i =>
      match fs !! i with
      | Some (Some f) => scoped_drop f;; mret (<[i := None]> fs)
      | _ => mret fs
      end
  | Sc_forget i => mret (<[i := None]> fs)
  | Sc_others => in_scope _ (modify others);; mret fs
  end.

Fixpoint scope_run (cs : list scope_call) (fs : Futures) : SM Futures :=
  match cs with [] => mret fs | c :: cs => fs ← scope_step c fs; scope_run cs fs end.

(** The function given to [scope]: a program, and what it answers. *)
Definition scope_program {R} (cs : list scope_call) (answer : result RuntimeError R) : SM R :=
  scope_run cs [];; lift answer.

(** ** What [spawn_inner] does to the table *)

(** At most the entry of a new request is added. *)
Definition adds_one s (r : RequestId) s' : Prop :=
  (exists e, waiting s' = <[r := e]> (waiting s)) /\
  RequestId_origin r = conf_local cfg /\ request_seq s <= RequestId_sequence r < request_seq s'.
Definition adds_none s s' : Prop :=
  request_seq s <= request_seq s' /\ forall r e, waiting s' !! r = Some e -> waiting s !! r = Some e.

Lemma quiet_trans s1 s2 s3 : quiet s1 s2 -> quiet s2 s3 -> quiet s1 s3.
Proof. intros (E1 & E2 & E3) (F1 & F2 & F3). split_and!; [congruence..|lia]. Qed.
Lemma quiet_adds_none s s' : quiet s s' -> adds_none s s'.
Proof. intros (E1 & _ & Hle). split; [done|]. by rewrite E1. Qed.

Lemma pwp_ret {St Er A} (a : A) (Q : A -> St -> Prop) (R : Er -> St -> Prop) x : Q a x -> pwp (mret a) Q R x.
Proof. done. Qed.

Lemma pwp_next_request s :
  pwp (next_request : DM RequestId)
    (fun r s' => pending s' = pending s /\ RequestId_origin r = conf_local cfg /\
       request_seq s <= RequestId_sequence r < request_seq s')
    (fun _ s' => quiet s s') s.
Proof.
  unfold next_request. apply pwp_bind, pwp_gets, pwp_bind. unfold pwp at 1, lift, ok_or.
  destruct (next_value (request_seq s)) as [n|] eqn:Hn; [|done].
  assert (Hlt : request_seq s < n).
  { unfold next_value in Hn. destruct (checked_add u64_max (request_seq s) 1) as [k|] eqn:Hk; [|done].
    apply checked_add_some in Hk. cbn in Hn. destruct (k =? 0); [done|]. injection Hn as <-. lia. }
  apply pwp_bind, pwp_modify. unfold pwp, lift, map_err, RequestId_new. destruct (request_seq s =? 0).
  - split_and!; [done..|cbn; lia].
  - cbn. split_and!; [done..|lia].
Qed.

Lemma spawn_adds place a input options s :
  pwp (spawn_inner place a input options None)
    (fun f s' => adds_one s (future_request f) s' /\ finished f = false) (fun _ => adds_none s) s.
Proof.
  assert (Hsame : adds_none s s) by by apply quiet_adds_none.
  unfold spawn_inner. apply pwp_bind. eapply pwp_mono; [apply ensure_running_pwp| |by intros ? ? ->]. intros ? ? ->.
  destruct (_ =? 0); [done|]. destruct (negb _); [done|]. destruct (negb (locality place =? conf_local cfg) && is_typed input); [done|].
  destruct (negb _); [done|].
  apply pwp_bind. eapply pwp_mono; [apply ensure_running_pwp| |by intros ? ? ->]. intros ? ? ->.
  apply pwp_bind. eapply pwp_mono; [apply pwp_next_request| |intros ? ?; apply quiet_adds_none].
  intros r s1 (E1 & Ho & Hseq). apply pwp_bind, on_pending_pwp. unfold Promise_new.
  apply pwp_bind, pwp_gets, pwp_bind, pwp_modify, pwp_ret.
  match goal with |- pwp _ _ _ ?x => set (s2 := x) end.
  assert (E2 : waiting s2 = waiting s) by (unfold s2; cbn; by rewrite E1). assert (N2 : request_seq s2 = request_seq s1) by done.
  assert (Hend : forall s', quiet s2 s' -> adds_none s s').
  { intros s' (E' & _ & Hle). split; [lia|]. by rewrite E', E2. }
  clearbody s2. apply pwp_bind. unfold Driver.now. apply pwp_bind, pwp_gets, pwp_bind, pwp_modify, pwp_ret.
  apply pwp_bind. unfold pwp at 1, lift, ok_or. destruct (checked_add _ _ _) as [expiry|]; [|by apply Hend].
  apply pwp_bind. apply (pwp_mono _ (fun _ s' => quiet s2 s') _ never); [|..|by intros ? ? []].
  { by destruct (locality place =? conf_local cfg). }
  cbn beta. intros token s3 (E3 & C3 & L3). apply pwp_bind, on_pending_pwp. unfold Pending.insert.
  apply pwp_bind, pwp_gets. destruct (_ <=? _); [by apply Hend|]. apply pwp_modify.
  match goal with |- pwp _ _ _ ?x => set (s4 := x) end.
  assert (E4 : exists e, waiting s4 = <[r := e]> (waiting s)) by (eexists; unfold s4; cbn; by rewrite E3, E2).
  assert (N4 : request_seq s4 = request_seq s3) by done. clearbody s4.
  assert (Hsend : forall (m : DM unit), (forall I, (forall s s', quiet s s' -> I s -> I s') -> upholds I m) ->
    pwp (or_else m (fun _ => on_pending (Pending.remove r);; mret tt)) (fun _ => adds_one s r) (fun _ => adds_none s) s4).
  { intros m Hm. assert (Hq : upholds (quiet s4) m) by (apply Hm; intros x y Hxy Hx; by eapply quiet_trans).
    unfold or_else. apply pwp_bind, pwp_outcome. eapply pwp_mono; [by apply Hq|..]; cbn beta.
    - intros ? s5 (E5 & _ & L5). unfold pwp. cbn. split_and!; [by rewrite E5|done|lia..].
    - intros e s5 (E5 & _ & L5). apply pwp_bind, pwp_bind, on_pending_pwp. unfold Pending.remove.
      apply pwp_bind, pwp_gets, pwp_bind, pwp_modify. unfold pwp. cbn. split; [cbn; lia|]. cbn. rewrite E5.
      destruct E4 as [x ->]. intros q y [Hne Hq']%lookup_delete_Some. by rewrite lookup_insert_ne in Hq'. }
  apply pwp_bind. eapply pwp_mono; [apply Hsend| |done]; [|by intros ? s5 H5].
  intros I HI. destruct token; [by apply quiet_local_send|]. destruct input; [|apply upholds_panic].
  apply upholds_bind; [by apply quiet_send|intros; apply upholds_ret].
Qed.

(** ** The numbers of requests only grow *)

Section Rising.
Variable n : Z.
Abbreviation J := (fun s => n <= request_seq s).

Lemma J_quiet s s' : quiet s s' -> J s -> J s'.
Proof. intros (_ & _ & Hle) Hs. lia. Qed.
Lemma rising_modify (f : Runtime -> Runtime) : (forall s, request_seq (f s) = request_seq s) -> upholds J (modify f : DM unit).
Proof. intros Hf. apply upholds_modify. intros s. by rewrite Hf. Qed.
Lemma rising_pending {A} (m : M Pending.State RuntimeError A) : upholds J (on_pending m).
Proof. apply upholds_part. intros s Hs. unfold pwp. by destruct (m _) as [[?|[?|]] p]. Qed.

#[local] Hint Resolve J_quiet rising_pending quiet_net quiet_pools quiet_objects quiet_dedup quiet_count quiet_now quiet_due
  quiet_lease_renew quiet_send_retirements quiet_handle_request quiet_admit quiet_submit_admitted
  quiet_queue_response quiet_drain_responses quiet_raise_entry quiet_send_cancel : rising.
#[local] Hint Extern 1 (upholds _ (modify _)) => (by apply rising_modify) : rising.

Ltac keep_rising :=
  repeat first
    [ solve [eauto with rising] | upholds_step
    | apply upholds_outcome | apply upholds_or_else; [|intros ?] | apply upholds_ignore ].

Lemma rising_promise e o : upholds J (complete_promise e o : DM unit).
Proof. apply rising_pending. Qed.
#[local] Hint Resolve rising_promise : rising.
Lemma rising_expire : upholds J (expire_pending : DM unit).
Proof. unfold expire_pending. keep_rising. Qed.
Lemma rising_fail e : upholds J (fail e : DM unit).
Proof. unfold fail, store_state. keep_rising. Qed.
#[local] Hint Resolve rising_expire rising_fail : rising.
Lemma rising_complete source m f : upholds J (complete_pending source m f : DM unit).
Proof. unfold complete_pending. keep_rising. Qed.
#[local] Hint Resolve rising_complete : rising.
Lemma rising_message source trace m : upholds J (handle_message source trace m : DM unit).
Proof. unfold handle_message. keep_rising. Qed.
#[local] Hint Resolve rising_message : rising.
Lemma rising_event e : upholds J (handle_transport_event e : DM unit).
Proof. unfold handle_transport_event. keep_rising. Qed.
Lemma rising_local r : upholds J (dispatch_local r : DM unit).
Proof. unfold dispatch_local. keep_rising. Qed.
Lemma rising_completion c : upholds J (handle_completion c : DM unit).
Proof. unfold handle_completion. keep_rising. Qed.
#[local] Hint Resolve rising_event rising_local rising_completion : rising.
Lemma rising_completions k : upholds J (handle_completions k : DM nat).
Proof. induction k as [|k IH]; cbn [handle_completions]; unfold or_fail; keep_rising. Qed.
Lemma rising_locals k : upholds J (dispatch_locals k : DM nat).
Proof. induction k as [|k IH]; cbn [dispatch_locals]; keep_rising. Qed.
#[local] Hint Resolve rising_completions rising_locals : rising.
Lemma rising_progress k : upholds J (progress k : DM RuntimeProgress).
Proof. unfold progress, or_fail. keep_rising. Qed.
Lemma rising_cancel r : upholds J (Driver.cancel r : DM unit).
Proof. unfold Driver.cancel. keep_rising. Qed.
End Rising.

(** ** What a scope keeps *)

Section Keeps.
(** The table when the scope began, and the requests of others. *)
Context (s0 : Runtime) (foreign : RequestId -> Prop).

(** [spawned]: the promises of the requests of the scope.  They are tracked as
    long as they are in the table. *)
Record scoped (spawned : gmap RequestId Z) tracked s : Prop := {
  sc_calls : exists G, Tracked false (fun _ _ => True) G [] s;
  sc_entries : forall r e, waiting s !! r = Some e ->
    match spawned !! r with
    | None => waiting s0 !! r = Some e \/ foreign r
    | Some p => promise e = p /\ r ∈ tracked
    end;
  sc_own : forall r p, spawned !! r = Some p ->
    RequestId_origin r = conf_local cfg /\ RequestId_sequence r < request_seq s;
}.

(** The others answer calls, and make calls of their own under other requests. *)
Hypothesis others_fair : forall G s, Tracked false (fun _ _ => True) G [] s ->
  (exists G', Tracked false (fun _ _ => True) G' [] (others s)) /\ request_seq s <= request_seq (others s) /\
  forall r e, waiting (others s) !! r = Some e ->
    waiting s !! r = Some e \/
    foreign r /\ (RequestId_origin r = conf_local cfg -> request_seq s <= RequestId_sequence r).

Lemma scoped_less spawned tracked s s' G' :
  scoped spawned tracked s -> Tracked false (fun _ _ => True) G' [] s' -> adds_none s s' -> scoped spawned tracked s'.
Proof.
  intros [_ S2 S3] Hc [Hle Hless]. split; [by exists G'|intros r e Hr; by apply S2, Hless|].
  intros r p Hp. destruct (S3 r p Hp). split; [done|lia].
Qed.

Lemma scoped_others spawned tracked s : scoped spawned tracked s -> scoped spawned tracked (others s).
Proof.
  intros [[G S1] S2 S3]. destruct (others_fair G s S1) as ([G' H1'] & Hle & Hnew). split; [by exists G'| |].
  - intros r e Hr. destruct (Hnew r e Hr) as [Hold|[Hf Hseq]]; [by apply S2|].
    destruct (spawned !! r) as [p|] eqn:Hp; [|by right]. destruct (S3 r p Hp) as [Ho Hlt]. specialize (Hseq Ho). lia.
  - intros r p Hp. destruct (S3 r p Hp). split; [done|lia].
Qed.

(** What the driver does, it does to calls that are there. *)
Lemma scoped_upholds {A} (m : DM A) :
  (forall P G, upholds (Tracked false P G []) m) -> (forall n, upholds (fun s => n <= request_seq s) m) ->
  forall spawned tracked, upholds (scoped spawned tracked) m.
Proof.
  intros Hm Hn spawned tracked s [[G S1] S2 S3].
  set (P := fun r e => match spawned !! r with
    | None => waiting s0 !! r = Some e \/ foreign r | Some p => promise e = p /\ r ∈ tracked end).
  assert (Ht : Tracked false P G [] s) by (destruct S1; by split).
  assert (Hend : forall s', Tracked false P G [] s' /\ request_seq s <= request_seq s' -> scoped spawned tracked s').
  { intros s' [[T1 T2 T3 T4] Hle]. split; [exists G; by split|exact T3|]. intros r p Hp. destruct (S3 r p Hp).
    split; [done|lia]. }
  assert (Hle : request_seq s <= request_seq s) by lia.
  eapply pwp_mono; [apply pwp_and; [by apply Hm|exact (Hn (request_seq s) s Hle)]|..]; cbn beta; eauto.
Qed.

Lemma scoped_progress spawned tracked n : upholds (scoped spawned tracked) (progress n : DM RuntimeProgress).
Proof. apply scoped_upholds; [intros; apply calls_progress|intros; apply rising_progress]. Qed.
Lemma scoped_fail spawned tracked e : upholds (scoped spawned tracked) (fail e : DM unit).
Proof. apply scoped_upholds; [intros; apply calls_fail|intros; apply rising_fail]. Qed.

(** *** Spawning *)

Lemma scoped_spawn spawned tracked A place action s :
  scoped spawned tracked s ->
  pwp (spawn_on A place action)
    (fun f s' => spawned !! future_request f = None /\ finished f = false /\
       scoped (<[future_request f := future_promise f]> spawned) ({[future_request f]} ∪ tracked) s')
    (fun _ => scoped spawned tracked) s.
Proof.
  intros Hs. pose proof Hs as [[G S1] S2 S3].
  assert (Hinner : forall input a options, pwp (spawn_inner place a input options None)
    (fun f s' => spawned !! future_request f = None /\ finished f = false /\
       scoped (<[future_request f := future_promise f]> spawned) ({[future_request f]} ∪ tracked) s')
    (fun _ => scoped spawned tracked) s).
  { intros input a options.
    eapply pwp_mono; [apply pwp_and; [apply (calls_spawn G place a input options None s S1); done|apply spawn_adds]|..]; cbn beta.
    - intros f s' [[Hc (e & He & Hp)] [[(e' & Hadd) [Ho Hseq]] Hfin]].
      assert (Hfresh : spawned !! future_request f = None).
      { destruct (spawned !! future_request f) as [p|] eqn:Hf; [|done]. destruct (S3 _ _ Hf). lia. }
      split_and!; [done..|]. rewrite Hadd in He. rewrite lookup_insert_eq in He. injection He as ->.
      split; [by exists G| |].
      + intros r x Hr. rewrite Hadd in Hr. apply lookup_insert_Some in Hr as [[<- <-]|[Hne Hr]].
        * rewrite lookup_insert_eq. split; [done|]. apply elem_of_union. left. by apply elem_of_singleton.
        * rewrite lookup_insert_ne by done. specialize (S2 r x Hr). destruct (spawned !! r); [|done].
          destruct S2. split; [done|]. apply elem_of_union. by right.
      + intros r p [[<- _]|[_ Hr]]%lookup_insert_Some; [lia|]. destruct (S3 r p Hr). split; [done|lia].
    - intros e s' [Hc Hadd]. by apply (scoped_less _ _ s s' _ Hs Hc). }
  unfold spawn_on, spawn_on_with. apply pwp_bind. unfold pwp at 1, lift. destruct (map_err _ _) as [id|]; [|done].
  destruct (_ =? _); [apply Hinner|]. apply pwp_bind. unfold pwp at 1, lift_handled, lift_exn.
  destruct (wire_encode action) as [p|[e|]]; [apply Hinner|done..].
Qed.

(** *** Dropping and cancelling *)

Lemma scoped_cancel spawned tracked r s :
  scoped spawned tracked s ->
  pwp (Driver.cancel r : DM unit)
    (fun _ s' => scoped spawned tracked s' /\ waiting s' !! r = None /\
       forall q e, waiting s' !! q = Some e -> waiting s !! q = Some e) never s.
Proof.
  intros Hs. pose proof Hs as [[G S1] S2 S3].
  assert (Hadds : pwp (Driver.cancel r : DM unit) (fun _ s' => waiting s' = delete r (waiting s) /\ request_seq s <= request_seq s') never s).
  { unfold Driver.cancel. apply pwp_bind, on_pending_pwp. unfold Pending.remove.
    apply pwp_bind, pwp_gets, pwp_bind, pwp_modify, pwp_ret. set (s1 := set_pending _ s).
    assert (Hq : silent (match waiting s !! r with
      | Some entry => count add_cancelled;; raise_entry entry;; send_cancel r entry | None => mret tt end : DM unit)).
    { destruct (waiting s !! r); [|by intros ?]. repeat apply silent_bind; [apply silent_count|apply silent_raise_entry|apply silent_send_cancel]. }
    specialize (Hq s1). destruct (waiting s !! r); (eapply pwp_mono; [exact Hq| |done]); intros ? s2 (E & _ & Hle); by rewrite E. }
  eapply pwp_mono; [apply pwp_and; [by apply calls_cancel|exact Hadds]| |by intros ? ? []]. cbn beta.
  intros ? s' [Hc [Hw Hle]]. assert (Hless : forall q e, waiting s' !! q = Some e -> waiting s !! q = Some e).
  { intros q e. rewrite Hw. by intros [_ ?]%lookup_delete_Some. }
  split_and!; [by apply (scoped_less _ _ s s' _ Hs Hc)|by rewrite Hw, lookup_delete_eq|done].
Qed.

(** A request that is not in the table needs no tracking. *)
Lemma scoped_untrack spawned tracked r s :
  scoped spawned tracked s -> waiting s !! r = None -> scoped spawned (tracked ∖ {[r]}) s.
Proof.
  intros [S1 S2 S3] Hr. split; [done| |done]. intros q e Hq. specialize (S2 q e Hq). destruct (spawned !! q); [|done].
  destruct S2 as [Hp Ht]. split; [done|]. apply elem_of_difference. split; [done|].
  intros ->%elem_of_singleton. congruence.
Qed.

(** The future of a request of the scope: when it has answered, the request is
    not tracked any more. *)
Definition owned (spawned : gmap RequestId Z) tracked (f : RemoteFuture) : Prop :=
  spawned !! future_request f = Some (future_promise f) /\ (finished f = true -> future_request f ∉ tracked).

Lemma absent spawned tracked r p s :
  scoped spawned tracked s -> spawned !! r = Some p -> (forall w, promises (pending s) !! p <> Some (mkPromise None w false)) ->
  waiting s !! r = None.
Proof.
  intros [[G S1] S2 _] Hr Hp. destruct (waiting s !! r) as [e|] eqn:He; [|done].
  pose proof (S2 r e He) as Hs. rewrite Hr in Hs. destruct Hs as [Heq _].
  destruct (entry_waits _ _ r e (tr_inv _ _ _ _ _ S1) He) as [[w Hw] _]. rewrite Heq in Hw. by destruct (Hp w).
Qed.

Lemma scoped_remote_poll {T} `{WireValue T} (cast : any -> option T) spawned tracked f context s :
  scoped spawned tracked s -> owned spawned tracked f ->
  pwp (remote_poll cast f context)
    (fun '(r, f') s' => scoped spawned tracked s' /\ future_request f' = future_request f /\
       future_promise f' = future_promise f /\
       match r with Some _ => waiting s' !! future_request f = None | None => f' = f end) never s.
Proof.
  intros Hs [Hf _]. pose proof Hs as [[G S1] S2 S3]. unfold remote_poll. apply pwp_bind, on_pending_pwp. unfold future_poll.
  destruct (finished f); [done|]. apply pwp_bind. unfold pwp at 1.
  pose proof (calls_poll G (future_promise f) context s S1) as Hp. unfold pwp, on_pending, on_part in Hp.
  destruct (promises (pending s) !! future_promise f) as [v|] eqn:Hv.
  2: { unfold Pending.poll, mbind at 1, M_bind, deref at 1. unfold mbind, M_bind, gets. by rewrite Hv. }
  rewrite (poll_eq _ v context _ Hv) in Hp |- *.
  match type of Hp with Tracked _ _ _ _ ?x => set (s1 := x) in * end.
  assert (Hs1 : scoped spawned tracked s1) by (apply (scoped_less _ _ s s1 G Hs Hp); by split).
  destruct (promise_result v) as [o|] eqn:Ho; apply pwp_ret; [|by apply pwp_ret].
  assert (Hgone : waiting s1 !! future_request f = None).
  { apply (absent spawned tracked _ (future_promise f) s Hs Hf). intros w Hw. rewrite Hv in Hw. injection Hw as ->. by cbn in Ho. }
  destruct (convert cast o) as [x|[e|]]; by apply pwp_ret || done.
Qed.

Lemma scoped_remote_drop spawned tracked f s :
  scoped spawned tracked s -> owned spawned tracked f ->
  pwp (remote_drop f : DM unit) (fun _ s' => scoped spawned tracked s' /\ waiting s' !! future_request f = None) never s.
Proof.
  intros Hs [Hf Hfin]. pose proof Hs as [[G S1] S2 S3]. unfold remote_drop. apply pwp_bind, on_pending_pwp. unfold future_drop.
  assert (Hsame : scoped spawned tracked (set_pending (pending s) s)) by (by destruct s).
  destruct (finished f).
  - apply pwp_ret, pwp_ret. split; [done|]. cbn. destruct (waiting s !! future_request f) as [e|] eqn:He; [|done].
    pose proof (S2 _ e He) as Hs'. rewrite Hf in Hs'. destruct Hs'. by destruct Hfin.
  - apply pwp_bind. unfold Pending.done. apply pwp_bind. unfold pwp at 1.
    destruct (promises (pending s) !! future_promise f) as [v|] eqn:Hv.
    + rewrite (deref_eq _ _ _ Hv). apply pwp_ret, pwp_ret. destruct (promise_done v) eqn:Hd; cbn [negb mwhen].
      * apply pwp_ret. split; [done|]. cbn. apply (absent spawned tracked _ (future_promise f) s Hs Hf).
        intros w Hw. rewrite Hv in Hw. injection Hw as ->. by cbn in Hd.
      * eapply pwp_mono; [by apply scoped_cancel| |done]. by intros ? s' (? & ? & _).
    + unfold deref, mbind, M_bind, gets. by rewrite Hv.
Qed.

(** *** Programs *)

Lemma pwp_in_scope {A} (m : DM A) Q R s tracked :
  pwp m (fun a s' => Q a (s', tracked)) (fun e s' => R e (s', tracked)) s -> pwp (in_scope A m) Q R (s, tracked).
Proof. unfold pwp, in_scope. by destruct (m s) as [[?|[?|]] ?]. Qed.

Definition futures_ok (fs : Futures) (st : RuntimeScope) : Prop :=
  exists spawned, scoped spawned st.2 st.1 /\ forall i f, fs !! i = Some (Some f) -> owned spawned st.2 f.

Lemma owned_less spawned tracked tracked' f : tracked' ⊆ tracked -> owned spawned tracked f -> owned spawned tracked' f.
Proof. intros Hsub [? Hf]. split; [done|]. intros Hfin Hin%Hsub. by apply Hf. Qed.
Lemma untrack_less (tracked : gset RequestId) r : tracked ∖ {[r]} ⊆ tracked.
Proof. intros x Hx. by apply elem_of_difference in Hx as [? _]. Qed.

(** No error is reported to the program. *)
Definition unfailing (_ : RuntimeError) (_ : RuntimeScope (Net := Net)) : Prop := False.

(** What is left of the scope, with nothing new tracked. *)
Definition less spawned tracked (st : RuntimeScope) : Prop := scoped spawned st.2 st.1 /\ st.2 ⊆ tracked.
Definition less_with spawned tracked (f : RemoteFuture) (st : RuntimeScope) : Prop :=
  less spawned tracked st /\ owned spawned st.2 f.

Lemma scoped_poll_ok {T} `{WireValue T} (cast : any -> option T) spawned tracked f context s :
  scoped spawned tracked s -> owned spawned tracked f ->
  pwp (scoped_poll cast f context) (fun '(_, f') => less_with spawned tracked f') unfailing (s, tracked).
Proof.
  intros Hs Hf. unfold scoped_poll. apply pwp_bind, pwp_in_scope.
  eapply pwp_mono; [by apply scoped_remote_poll| |done]. intros [[r|] f'] s' (Hs' & Hreq & Hprom & Hr).
  - apply pwp_bind, pwp_modify, pwp_ret. rewrite Hreq. destruct Hf as [Hf _]. split; [split|split]; cbn.
    + by apply scoped_untrack.
    + apply untrack_less.
    + by rewrite Hreq, Hprom.
    + intros _ [_ Hin]%elem_of_difference. by apply Hin, elem_of_singleton.
  - apply pwp_ret. subst f'. by split.
Qed.

Lemma scoped_drop_ok spawned tracked f s :
  scoped spawned tracked s -> owned spawned tracked f ->
  pwp (scoped_drop f : SM unit) (fun _ => less spawned tracked) unfailing (s, tracked).
Proof.
  intros Hs Hf. unfold scoped_drop. apply pwp_bind, pwp_modify, pwp_in_scope.
  eapply pwp_mono; [by apply scoped_remote_drop| |done]. intros ? s' [Hs' Hr]. split; [by apply scoped_untrack|apply untrack_less].
Qed.

Lemma fail_never spawned tracked e s :
  scoped spawned tracked s -> pwp (fail e : DM unit) (fun _ => scoped spawned tracked) never s.
Proof.
  intros Hs. pose proof Hs as [[G S1] _ _].
  eapply pwp_mono; [apply pwp_and; [by apply (scoped_fail spawned tracked)|by apply (tracked_fail false (fun _ _ => True) G)]|..]; cbn beta.
  - by intros ? s' [].
  - by intros ? s' [_ []].
Qed.

Lemma block_loop_ok {T} `{WireValue T} (cast : any -> option T) spawned fuel : forall tracked f waker s,
  scoped spawned tracked s -> owned spawned tracked f ->
  pwp (block_loop in_scope id (scoped_poll cast) fuel f waker)
    (fun '(_, f') => less_with spawned tracked f') unfailing (s, tracked).
Proof.
  induction fuel as [|fuel IH]; intros tracked f waker s Hs Hf; cbn [block_loop].
  - apply pwp_ret. by split.
  - apply pwp_bind. eapply pwp_mono; [by apply scoped_poll_ok| |done]. intros [[r|] f1] [s1 tr1] [[Hs1 Hsub] Hf1];
      [by apply pwp_ret|]. cbn in Hs1, Hsub, Hf1.
    apply pwp_bind, pwp_in_scope, pwp_modify, pwp_bind, pwp_in_scope, pwp_outcome.
    eapply pwp_mono; [by apply (scoped_progress spawned tr1), scoped_others|..]; cbn beta.
    + intros p s2 Hs2. eapply pwp_mono; [by apply IH| |done]. intros [r f2] st [[H2 Hsub2] Hf2].
      split; [split; [done|by etransitivity]|done].
    + intros e s2 Hs2. apply pwp_bind, pwp_in_scope. eapply pwp_mono; [by apply fail_never| |done].
      intros ? s3 Hs3. apply pwp_ret. by split.
Qed.

Lemma futures_insert spawned tracked fs i st (x : option RemoteFuture) :
  (forall i f, fs !! i = Some (Some f) -> owned spawned tracked f) -> less spawned tracked st ->
  (forall f, x = Some f -> owned spawned st.2 f) -> futures_ok (<[i := x]> fs) st.
Proof.
  intros Hfs [Hs Hsub] Hx. exists spawned. split; [done|]. intros j f Hj.
  destruct (decide (i = j)) as [<-|Hne].
  - apply list_lookup_insert_Some in Hj as [(_ & -> & _)|[? _]]; [by apply Hx|done].
  - rewrite list_lookup_insert_ne in Hj by done. by eapply owned_less, Hfs.
Qed.

Lemma scope_step_ok c fs st :
  futures_ok fs st -> pwp (scope_step c fs) (fun fs' => futures_ok fs') unfailing st.
Proof.
  intros Hst. pose proof Hst as (spawned & Hs & Hfs). destruct st as [s tracked]; cbn in Hs, Hfs.
  assert (Hone : forall i (m : RemoteFuture -> SM Futures), (forall f, owned spawned tracked f -> fs !! i = Some (Some f) ->
    pwp (m f) (fun fs' => futures_ok fs') unfailing (s, tracked)) ->
    pwp (match fs !! i with Some (Some f) => m f | _ => mret fs end) (fun fs' => futures_ok fs') unfailing (s, tracked)).
  { intros i m Hm. destruct (fs !! i) as [[f|]|] eqn:Hi; [|by apply pwp_ret..]. apply Hm; [by eapply Hfs|done]. }
  destruct c as [A place action|t w i context|t w i fuel waker|i|i|]; cbn [scope_step].
  - apply pwp_bind. unfold scope_spawn_on.
    assert (Hsp := scoped_spawn spawned tracked A place action s Hs). unfold pwp in Hsp |- *.
    unfold scope_try, mbind, M_bind, in_scope, track, modify.
    destruct (spawn_on A place action s) as [[f|[e|]] s1]; [|by exists spawned|done].
    destruct Hsp as (Hfresh & Hfin & Hs1). cbn. exists (<[future_request f := future_promise f]> spawned).
    split; [done|]. cbn. intros i g Hi. apply lookup_app_Some in Hi as [Hi|[_ Hi]].
    + destruct (Hfs i g Hi) as [Hg Hgf]. split.
      * rewrite lookup_insert_ne; [done|]. intros Heq. congruence.
      * intros Hfg [Heq%elem_of_singleton|Hin]%elem_of_union; [congruence|by apply Hgf].
    + destruct (i - length fs)%nat; [|by destruct n]. injection Hi as <-. split; [by rewrite lookup_insert_eq|congruence].
  - apply Hone. intros f Hf Hi. apply pwp_bind. eapply pwp_mono; [by apply scoped_poll_ok| |done].
    intros [r f'] st' [Hl Hf']. apply pwp_ret. apply (futures_insert spawned tracked); try done. by intros ? [= <-].
  - apply Hone. intros f Hf Hi. apply pwp_bind. unfold scope_block_on, block_on. apply pwp_bind.
    eapply pwp_mono; [by apply block_loop_ok| |done]. intros [r f'] [s1 tr1] [[Hs1 Hsub] Hf']. cbn in *.
    apply pwp_bind. eapply pwp_mono; [by apply (scoped_drop_ok spawned tr1)| |done]. intros ? st2 [Hs2 Hsub2].
    apply pwp_ret, pwp_ret. apply (futures_insert spawned tracked); [done|split; [done|by etransitivity]|done].
  - apply Hone. intros f Hf Hi. apply pwp_bind. eapply pwp_mono; [by apply (scoped_drop_ok spawned tracked)| |done].
    intros ? st' Hl. apply pwp_ret. by apply (futures_insert spawned tracked).
  - apply pwp_ret. by apply (futures_insert spawned tracked).
  - apply pwp_bind, pwp_in_scope, pwp_modify, pwp_ret. exists spawned. split; [by apply scoped_others|done].
Qed.

Lemma scope_run_ok cs : forall fs st,
  futures_ok fs st -> pwp (scope_run cs fs) (fun fs' => futures_ok fs') unfailing st.
Proof.
  induction cs as [|c cs IH]; intros fs st Hst; cbn [scope_run]; [by apply pwp_ret|].
  apply pwp_bind. eapply pwp_mono; [by apply scope_step_ok| |done]. intros fs' st'. apply IH.
Qed.

(** *** The end of the scope *)

(** What the table holds after the scope. *)
Definition nothing_new s : Prop :=
  forall r e, waiting s !! r = Some e -> waiting s0 !! r = Some e \/ foreign r.

Lemma cancel_all spawned tracked l : forall s,
  scoped spawned tracked s ->
  pwp (for_each Driver.cancel l : DM unit)
    (fun _ s' => scoped spawned tracked s' /\ (forall q e, waiting s' !! q = Some e -> waiting s !! q = Some e) /\
       forall r, r ∈ l -> waiting s' !! r = None) never s.
Proof.
  induction l as [|r l IH]; intros s Hs; cbn [for_each].
  - apply pwp_ret. split_and!; try done. by intros r ?%elem_of_nil.
  - apply pwp_bind. eapply pwp_mono; [by apply scoped_cancel| |done]. intros ? s1 (Hs1 & Hr & Hless).
    eapply pwp_mono; [by apply IH| |done]. intros ? s2 (Hs2 & Hless2 & Hl). split_and!; [done|auto|].
    intros q [->|Hq]%elem_of_cons; [|by apply Hl].
    destruct (waiting s2 !! r) as [e|] eqn:He; [|done]. apply Hless2 in He. congruence.
Qed.

Lemma scoped_over spawned s : scoped spawned ∅ s -> nothing_new s.
Proof.
  intros [_ S2 _] r e Hr. specialize (S2 r e Hr). destruct (spawned !! r); [|done]. destruct S2 as [_ Hin].
  by apply not_elem_of_empty in Hin.
Qed.

Lemma scope_body_ok {R} cs (answer : result RuntimeError R) :
  (exists G, Tracked false (fun _ _ => True) G [] s0) ->
  pwp (scope_body (scope_program cs answer))
    (fun '(r, tracked) s => r = answer /\ exists spawned, scoped spawned tracked s) never s0.
Proof.
  intros Hc. assert (H0 : futures_ok [] (s0, ∅)).
  { exists ∅. split; [split; [done|..]|]; cbn.
    - intros r e Hr. rewrite lookup_empty. by left.
    - by intros r p ?%lookup_empty_Some.
    - done. }
  pose proof (scope_run_ok cs [] _ H0) as Hrun. unfold pwp, scope_body, scope_program, mbind, M_bind in *.
  destruct (scope_run cs [] (s0, ∅)) as [[fs|[e|]] [s tracked]]; [|done..].
  destruct Hrun as (spawned & Hs & _). unfold lift. destruct answer; (split; [done|by exists spawned]).
Qed.

Lemma scope_ok {R} cs (answer : result RuntimeError R) :
  (exists G, Tracked false (fun _ _ => True) G [] s0) ->
  pwp (scope (scope_program cs answer)) (fun a s => answer = Ok a /\ nothing_new s) (fun _ => nothing_new) s0.
Proof.
  intros Hc. unfold scope. apply pwp_bind. eapply pwp_mono; [by apply scope_body_ok| |by intros ? ? []].
  intros [r tracked] s [-> [spawned Hs]]. apply pwp_bind.
  eapply pwp_mono; [by apply cancel_all| |by intros ? ? []]. intros ? s1 (Hs1 & _ & Hgone).
  assert (H1 : scoped spawned ∅ s1).
  { destruct Hs1 as [S1 S2 S3]. split; [done| |done]. intros q e Hq. specialize (S2 q e Hq).
    destruct (spawned !! q); [|done]. destruct S2 as [_ Hin]. rewrite Hgone in Hq; [done|by apply elem_of_elements]. }
  apply pwp_bind. apply (pwp_mono _ (fun _ => scoped spawned ∅) _ (fun _ => scoped spawned ∅)).
  - destruct (_ && _); [|by apply pwp_ret]. apply pwp_bind. eapply pwp_mono; [by apply (scoped_progress spawned ∅)|done|done].
  - intros ? s2 Hs2. apply scoped_over in Hs2. unfold pwp, lift. by destruct answer.
  - intros e s2 Hs2. by eapply scoped_over.
Qed.
End Keeps.

End Programs.

(** ** Examples *)

(** A program that spawns two calls of locality 1, drops the future of one and
    forgets the other. *)
Definition ex_scope : list scope_call :=
  [Sc_spawn ex_action (Place_new 1 0) (U64 5); Sc_spawn ex_action (Place_new 1 0) (U64 6); Sc_poll true _ 0 7;
   Sc_drop 0; Sc_forget 1].

