(* ===== verification/ClientLeases.v ===== *)
(** * ClientLeases: the handles of an object share one lease

    What the handles of a locality, [Remote] and the futures that hold a lease,
    do to the leases of the runtime. *)
From S2P Require Import Prelude Text Protocol Transport Error RuntimeTypes RuntimeWire Dedup Action Pending Domain ObjectWire ObjectRegistry Objects Migration RuntimeState Driver DriverRuns DriverCalls Client.

Create HintDb leases.

Section Leases.
Context `{AnyTypes} {Net : Type} `{!TransportDriver Net} `{!Surroundings Net}.
Abbreviation Runtime := (RuntimeState.Runtime Net).
Abbreviation DM := (M Runtime RuntimeError).
Implicit Types (s : Runtime).

(** ** What leaves the leases alone *)

Definition same_leases s s' : Prop :=
  lease_store s' = lease_store s /\ lease_table s' = lease_table s /\ lease_seq s' = lease_seq s.

Section Same.
Variable I : Runtime -> Prop.
Hypothesis I_same : forall s s', same_leases s s' -> I s -> I s'.

Lemma same_modify (f : Runtime -> Runtime) : (forall s, same_leases s (f s)) -> upholds I (modify f : DM unit).
Proof. intros Hf. apply upholds_modify. intros s. by apply I_same. Qed.
Lemma same_part {P E A} (get : Runtime -> P) put (to_error : E -> RuntimeError) (m : M P E A) :
  (forall p s, same_leases s (put p s)) -> upholds I (on_part get put to_error m).
Proof.
  intros Hf. apply upholds_part. intros s Hs. unfold pwp. destruct (m (get s)) as [[?|[?|]] p]; try done;
    by apply (I_same s).
Qed.
Lemma same_pending {A} (m : M Pending.State RuntimeError A) : upholds I (on_pending m).
Proof. by apply same_part. Qed.
Lemma same_net {A} (m : M Net TransportError A) : upholds I (on_net m).
Proof. by apply same_part. Qed.
Lemma same_pools {A} (m : M DomainRegistry RuntimeError A) : upholds I (on_pools m).
Proof. by apply same_part. Qed.
Lemma same_objects {A} (m : M ObjectService RuntimeError A) : upholds I (on_objects m).
Proof. by apply same_part. Qed.
Lemma same_dedup {A} (m : M DedupTable RuntimeError A) : upholds I (on_dedup m).
Proof.
  intros s Hs. unfold pwp, on_dedup, on_part. destruct (m (dedup s)) as [[?|[?|]] p]; try done; by apply (I_same s).
Qed.
#[local] Hint Resolve same_pending same_net same_pools same_objects same_dedup : leases.
#[local] Hint Extern 1 (upholds _ (modify _)) => (by apply same_modify) : leases.

Ltac keep_leases :=
  repeat first
    [ solve [eauto with leases] | upholds_step
    | apply upholds_outcome | apply upholds_or_else; [|intros ?] | apply upholds_ignore ].

Lemma same_now : upholds I (Driver.now : DM Z).
Proof. unfold Driver.now. keep_leases. Qed.
Lemma same_count f : upholds I (count f : DM unit).
Proof. unfold count. keep_leases. Qed.
Lemma same_raise e : upholds I (raise_entry e : DM unit).
Proof. unfold raise_entry, raise_flag. keep_leases. Qed.
Lemma same_next_request : upholds I (next_request : DM RequestId).
Proof. unfold next_request. keep_leases. Qed.
#[local] Hint Resolve same_now same_count same_raise same_next_request : leases.
Lemma same_send destination message purpose trace : upholds I (send destination message purpose trace : DM SendTicket).
Proof. unfold send, next_message. keep_leases. Qed.
#[local] Hint Resolve same_send : leases.
Lemma same_send_cancel r e : upholds I (send_cancel r e : DM unit).
Proof. unfold send_cancel. keep_leases. Qed.
Lemma same_object_control o t l locality a : upholds I (object_control o t l locality a : DM unit).
Proof. unfold object_control. keep_leases. Qed.
Lemma same_promise e o : upholds I (complete_promise e o : DM unit).
Proof. apply same_pending. Qed.
Lemma same_queue_response d m t c : upholds I (queue_response d m t c : DM unit).
Proof. unfold queue_response. keep_leases. Qed.
Lemma same_drain n : upholds I (drain_responses n : DM nat).
Proof. induction n as [|n IH]; cbn [drain_responses]; keep_leases. Qed.
Lemma same_submit_admitted job : upholds I (submit_admitted job : DM unit).
Proof. unfold submit_admitted, roll_back. keep_leases. Qed.
Lemma same_admit job : upholds I (admit_job job : DM (option ActionJob)).
Proof. unfold admit_job. keep_leases. Qed.
#[local] Hint Resolve same_send_cancel same_object_control same_promise same_queue_response same_drain
  same_submit_admitted same_admit : leases.
Lemma same_start_request source trace m token : upholds I (start_request source trace m token : DM unit).
Proof. unfold start_request, send_and_cache_failure, send_and_cache_moved. keep_leases. Qed.
Lemma same_renew l : upholds I (lease_renew l : DM unit).
Proof. unfold lease_renew, renew_object. keep_leases. Qed.
Lemma same_retirements l : upholds I (send_retirements l : DM unit).
Proof. induction l as [|r l IH]; cbn [send_retirements]; unfold send_retirement; keep_leases. Qed.
Lemma same_expire : upholds I (expire_pending : DM unit).
Proof. unfold expire_pending. keep_leases. Qed.
Lemma same_fail e : upholds I (fail e : DM unit).
Proof. unfold fail, store_state. keep_leases. Qed.
Lemma same_complete source m f : upholds I (complete_pending source m f : DM unit).
Proof. unfold complete_pending. keep_leases. Qed.
#[local] Hint Resolve same_start_request same_renew same_retirements same_expire same_fail same_complete : leases.
Lemma same_message source trace m : upholds I (handle_message source trace m : DM unit).
Proof. unfold handle_message, handle_request, send_failure. keep_leases. Qed.
#[local] Hint Resolve same_message : leases.
Lemma same_event e : upholds I (handle_transport_event e : DM unit).
Proof. unfold handle_transport_event. keep_leases. Qed.
Lemma same_local r : upholds I (dispatch_local r : DM unit).
Proof. unfold dispatch_local. keep_leases. Qed.
Lemma same_completion c : upholds I (handle_completion c : DM unit).
Proof. unfold handle_completion. keep_leases. Qed.
#[local] Hint Resolve same_event same_local same_completion : leases.
Lemma same_completions k : upholds I (handle_completions k : DM nat).
Proof. induction k as [|k IH]; cbn [handle_completions]; unfold or_fail; keep_leases. Qed.
Lemma same_locals k : upholds I (dispatch_locals k : DM nat).
Proof. induction k as [|k IH]; cbn [dispatch_locals]; keep_leases. Qed.
#[local] Hint Resolve same_completions same_locals : leases.
Lemma same_cancel r : upholds I (Driver.cancel r : DM unit).
Proof. unfold Driver.cancel. keep_leases. Qed.
Lemma same_spawn place a input options r : upholds I (spawn_inner place a input options r : DM RemoteFuture).
Proof. unfold spawn_inner, ensure_running, new_client_flag, local_send. keep_leases. Qed.

(** A round of the driver only sets renewals. *)
Lemma same_progress n : (forall t, upholds I (due t : DM (list LocalLease))) -> upholds I (progress n : DM RuntimeProgress).
Proof. intros Hdue. unfold progress, or_fail. keep_leases. Qed.
End Same.

(** ** Handles

    [hs]: the leases of the handles there are, as often as there are handles. *)
Record leased (hs : list Z) s : Prop := {
  le_count : forall a l, lease_store s !! a = Some l -> strong l = count_occ Z.eq_dec hs a;
  le_held : forall a, a ∈ hs -> is_Some (lease_store s !! a);
  le_active : forall a l, lease_store s !! a = Some l -> lease_active l = bool_decide (strong l <> 0%nat);
  le_table : forall o a, lease_table s !! o = Some a -> exists l, lease_store s !! a = Some l /\ lease_object l = o;
  le_listed : forall a l, lease_store s !! a = Some l -> strong l <> 0%nat -> lease_table s !! lease_object l = Some a;
  le_below : forall a l, lease_store s !! a = Some l -> a < lease_seq s;
  le_limit : Objects.map_len (lease_table s) <= Z.max 0 (conf_lease_limit cfg);
}.

Lemma leased_same hs s s' : same_leases s s' -> leased hs s -> leased hs s'.
Proof. intros (E1 & E2 & E3) []. split; rewrite ?E1, ?E2, ?E3; done. Qed.
Lemma leased_perm hs hs' s : hs ≡ₚ hs' -> leased hs s -> leased hs' s.
Proof.
  intros Hp []. split; try done.
  - intros a l Hl. rewrite (le_count0 a l Hl). by apply Permutation_count_occ.
  - intros a Ha. apply le_held0. by rewrite Hp.
Qed.

Lemma upgrade_some a l s : upgrade a s = Some l <-> lease_store s !! a = Some l /\ strong l <> 0%nat.
Proof.
  unfold upgrade. destruct (lease_store s !! a) as [x|]; cbn [mbind option_bind]; [|by split; [|intros []]].
  split.
  - intros Hx. destruct (0 <? strong x)%nat eqn:E; [|done]. injection Hx as <-. apply Nat.ltb_lt in E. split; [done|lia].
  - intros [[= <-] Hs]. by rewrite (proj2 (Nat.ltb_lt _ _)) by lia.
Qed.
Lemma live_strong a s : is_live s a = true <-> exists l, lease_store s !! a = Some l /\ strong l <> 0%nat.
Proof.
  unfold is_live. rewrite bool_decide_eq_true. split.
  - intros [l Hl]. exists l. by apply upgrade_some.
  - intros (l & Hl). exists l. by apply upgrade_some.
Qed.

(** The entries of leases nobody holds are forgotten. *)
Definition live_table s : gmap ObjectId Z := filter (fun p : ObjectId * Z => is_live s p.2 = true) (lease_table s).
Lemma leased_live hs s : leased hs s -> leased hs (set_lease_table (live_table s) s).
Proof.
  intros []. split; cbn [lease_store lease_table lease_seq set_lease_table]; try done.
  - intros o a [Ho _]%map_lookup_filter_Some. by apply le_table0.
  - intros a l Hl Hs. apply map_lookup_filter_Some. split; [by apply le_listed0|]. apply live_strong. eauto.
  - etrans; [|done]. unfold Objects.map_len. apply inj_le, map_size_filter.
Qed.

(** A lease is changed without its object. *)
Lemma leased_alter hs hs' a f s :
  (forall l, lease_object (f l) = lease_object l) ->
  (forall l, lease_store s !! a = Some l -> strong (f l) = count_occ Z.eq_dec hs' a /\
     lease_active (f l) = bool_decide (strong (f l) <> 0%nat) /\ (strong (f l) <> 0%nat -> strong l <> 0%nat)) ->
  (forall b, b <> a -> count_occ Z.eq_dec hs' b = count_occ Z.eq_dec hs b) ->
  (forall b, b ∈ hs' -> b ∈ hs) ->
  leased hs s -> leased hs' (set_lease_store (alter f a (lease_store s)) s).
Proof.
  intros Hobj Ha Hother Hsub []. split; cbn [lease_store lease_table lease_seq set_lease_store].
  - intros b l [[-> (x & Hx & ->)]|[Hne Hl]]%lookup_alter_Some; [by apply Ha|]. rewrite Hother by done. by apply le_count0.
  - intros b Hb. destruct (decide (a = b)) as [->|Hne].
    + rewrite lookup_alter_eq. apply fmap_is_Some. by apply le_held0, Hsub.
    + rewrite lookup_alter_ne by done. by apply le_held0, Hsub.
  - intros b l [[-> (x & Hx & ->)]|[Hne Hl]]%lookup_alter_Some; [by apply Ha|]. by apply (le_active0 b).
  - intros o b Hb. destruct (le_table0 o b Hb) as (l & Hl & Ho). destruct (decide (a = b)) as [->|Hne].
    + exists (f l). rewrite lookup_alter_eq, Hl. by rewrite Hobj.
    + exists l. by rewrite lookup_alter_ne.
  - intros b l [[-> (x & Hx & ->)]|[Hne Hl]]%lookup_alter_Some Hs; [|by apply le_listed0].
    rewrite Hobj. apply le_listed0; [done|]. by apply (Ha x Hx).
  - intros b l [[-> (x & Hx & ->)]|[Hne Hl]]%lookup_alter_Some; eauto.
  - done.
Qed.

Lemma held_strong hs a s : leased hs s -> a ∈ hs -> exists l, lease_store s !! a = Some l /\ strong l = count_occ Z.eq_dec hs a /\ strong l <> 0%nat.
Proof.
  intros Hs Ha. destruct (le_held _ _ Hs a Ha) as [l Hl]. exists l. pose proof (le_count _ _ Hs a l Hl) as Hc.
  split_and!; [done..|]. rewrite Hc. apply list_elem_of_In, (count_occ_In Z.eq_dec) in Ha. lia.
Qed.
Lemma strong_held hs a l s : leased hs s -> lease_store s !! a = Some l -> strong l <> 0%nat -> a ∈ hs.
Proof.
  intros Hs Hl Hn. rewrite (le_count _ _ Hs a l Hl) in Hn. apply list_elem_of_In, (count_occ_In Z.eq_dec). lia.
Qed.

Lemma leased_clone hs a s : leased hs s -> a ∈ hs -> leased (a :: hs) (snd (clone_lease a s)).
Proof.
  intros Hs Ha. unfold clone_lease, with_lease, modify. cbn [snd].
  destruct (held_strong _ _ _ Hs Ha) as (x & Hx & _ & Hn).
  apply (leased_alter hs); [done| | |set_solver|done].
  - intros l Hl. simplify_eq. cbn [strong set_strong lease_active]. rewrite count_occ_cons_eq by done.
    rewrite <-(le_count _ _ Hs a x Hx), (le_active _ _ Hs a x Hx). split_and!; [done| |done].
    by rewrite !bool_decide_true.
  - intros b Hb. by rewrite count_occ_cons_neq.
Qed.

Lemma leased_new hs o t l r s :
  leased hs s -> lease_table s !! o = None -> Objects.map_len (lease_table s) < conf_lease_limit cfg ->
  leased (lease_seq s :: hs)
    (set_lease_table (<[o := lease_seq s]> (lease_table s))
      (set_lease_store (<[lease_seq s := mkLocalLease o t l true r 1]> (lease_store s)) (set_lease_seq (lease_seq s + 1) s))).
Proof.
  intros [] Hnone Hlen. set (a := lease_seq s). assert (Hfresh : lease_store s !! a = None).
  { destruct (lease_store s !! a) as [x|] eqn:E; [|done]. specialize (le_below0 _ _ E). lia. }
  assert (Hcount : count_occ Z.eq_dec hs a = 0%nat).
  { apply count_occ_not_In. intros Hin%list_elem_of_In%le_held0. destruct Hin. congruence. }
  split; cbn [lease_store lease_table lease_seq set_lease_table set_lease_store set_lease_seq].
  - intros b x [[<- <-]|[Hne Hx]]%lookup_insert_Some; [by rewrite count_occ_cons_eq, Hcount|].
    rewrite count_occ_cons_neq by done. by apply le_count0.
  - intros b [->|Hb]%elem_of_cons; [by rewrite lookup_insert_eq|]. apply lookup_insert_is_Some'. auto.
  - intros b x [[<- <-]|[Hne Hx]]%lookup_insert_Some; [done|by apply (le_active0 b)].
  - intros q b [[<- <-]|[Hne Hb]]%lookup_insert_Some.
    + eexists. by rewrite lookup_insert_eq.
    + destruct (le_table0 q b Hb) as (x & Hx & Hq). exists x. rewrite lookup_insert_ne; [done|]. intros <-. congruence.
  - intros b x [[<- <-]|[Hne Hx]]%lookup_insert_Some Hs; [by rewrite lookup_insert_eq|].
    rewrite lookup_insert_ne; [by apply le_listed0|]. intros Hq. specialize (le_listed0 _ _ Hx Hs). congruence.
  - intros b x [[<- <-]|[Hne Hx]]%lookup_insert_Some; [lia|]. specialize (le_below0 _ _ Hx). lia.
  - unfold Objects.map_len in *. rewrite (map_size_insert_None _ _ _ Hnone). lia.
Qed.

Lemma leased_attach hs o t l s :
  leased hs s -> pwp (attach o t l : DM Z) (fun a s' => leased (a :: hs) s') (fun _ s' => leased hs s') s.
Proof.
  intros Hs. unfold attach. apply pwp_bind, pwp_gets.
  destruct (a ← lease_table (id s) !! o; _ ← upgrade a (id s); Some a) as [a|] eqn:E; cbn [id] in E.
  - apply bind_Some in E as (b & Hb & (x & Hx & [= <-])%bind_Some). apply upgrade_some in Hx as [Hx Hn].
    apply pwp_bind. apply (leased_clone hs b); [done|]. by apply (strong_held hs b x s).
  - apply pwp_bind, pwp_modify. pose proof (leased_live hs s Hs) as Hlive. cbn [id].
    change (filter _ (lease_table s)) with (live_table s).
    destruct (conf_lease_limit cfg <=? Objects.map_len (live_table s)) eqn:El; [done|]. apply Z.leb_gt in El.
    unfold Driver.now. apply pwp_bind, pwp_bind, pwp_gets, pwp_bind, pwp_modify. do 3 (apply pwp_bind, pwp_modify).
    apply (leased_new hs o t l _ (set_clock _ (set_lease_table (live_table s) s))); [|  |exact El].
    { by apply (leased_same hs (set_lease_table (live_table s) s)). }
    change (live_table s !! o = None). apply map_lookup_filter_None. right. intros a Ha Hl.
    rewrite Ha in E. apply live_strong in Hl as (x & Hx). cbn [mbind option_bind] in E.
    apply upgrade_some in Hx. cbn [snd] in Hx. by rewrite Hx in E.
Qed.

Lemma leased_attach_object hs o t l s :
  leased hs s -> pwp (attach_object o t l : DM Z) (fun a s' => leased (a :: hs) s') (fun _ s' => leased hs s') s.
Proof.
  intros Hs. unfold attach_object.
  eapply pwp_bind, pwp_mono; [by apply (same_objects (leased hs) (leased_same hs))| |done]. intros ? s1 H1. by apply leased_attach.
Qed.

(** The lease of which a handle goes, once it is not the last or when it is. *)
Definition dropped_lease (a : Z) s : Runtime := set_lease_store (alter (fun l => set_strong (pred (strong l)) l) a (lease_store s)) s.
Definition ended_lease (a : Z) s : Runtime :=
  set_lease_store (alter (set_active false) a (lease_store (dropped_lease a s))) (dropped_lease a s).

Lemma drop_lease_eq hs a l s :
  leased hs s -> lease_store s !! a = Some l -> strong l <> 0%nat ->
  drop_lease a s = if bool_decide (strong l = 1%nat)
    then release_object (lease_object l) (lease_type l) (lease_location l) (ended_lease a s)
    else (Ok tt, dropped_lease a s).
Proof.
  intros Hs Hl Hn. unfold drop_lease, mbind, M_bind, gets. rewrite Hl. unfold with_lease, modify.
  destruct (bool_decide (strong l = 1%nat)); [|done]. unfold mwhen, deactivate, mbind, M_bind, gets.
  cbn [lease_store set_lease_store]. rewrite lookup_alter_eq, Hl. unfold with_lease, modify, mwhen.
  cbn [fmap option_fmap option_map set_strong lease_active lease_object lease_type lease_location].
  rewrite (le_active _ _ Hs a l Hl). by rewrite bool_decide_true.
Qed.

Lemma leased_dropped hs a l s :
  leased (a :: hs) s -> lease_store s !! a = Some l -> strong l <> 1%nat -> leased hs (dropped_lease a s).
Proof.
  intros Hs Hl Hn. pose proof (le_count _ _ Hs a l Hl) as Hc. rewrite count_occ_cons_eq in Hc by done.
  apply (leased_alter (a :: hs)); [done| | |set_solver|done].
  - intros x Hx. simplify_eq. cbn [strong set_strong lease_active]. rewrite (le_active _ _ Hs a l Hl), Hc.
    split_and!; [done| |lia]. rewrite Hc in Hn. rewrite !bool_decide_true; [done|cbn; lia|lia].
  - intros b Hb. by rewrite count_occ_cons_neq.
Qed.
Lemma leased_ended hs a l s :
  leased (a :: hs) s -> lease_store s !! a = Some l -> strong l = 1%nat -> leased hs (ended_lease a s).
Proof.
  intros Hs Hl Hn. pose proof (le_count _ _ Hs a l Hl) as Hc. rewrite count_occ_cons_eq in Hc by done.
  unfold ended_lease, dropped_lease. cbn [lease_store set_lease_store]. rewrite alter_alter_eq.
  match goal with |- leased _ (set_lease_store ?m _) => change (leased hs (set_lease_store m s)) end.
  apply (leased_alter (a :: hs)); [done| | |set_solver|done].
  - intros x Hx. simplify_eq. cbn [compose strong set_strong set_active lease_active].
    split_and!; [lia| |lia]. rewrite Hn. by rewrite bool_decide_false by (cbn; lia).
  - intros b Hb. by rewrite count_occ_cons_neq.
Qed.

Lemma leased_drop hs a s :
  leased (a :: hs) s -> pwp (drop_lease a : DM unit) (fun _ s' => leased hs s') (fun _ s' => leased hs s') s.
Proof.
  intros Hs. destruct (held_strong _ _ _ Hs ltac:(left)) as (l & Hl & _ & Hn).
  unfold pwp. rewrite (drop_lease_eq _ _ _ _ Hs Hl Hn). case_bool_decide as H1.
  - apply (same_object_control (leased hs) (leased_same hs) (lease_object l) (lease_type l) (lease_location l) _ LEASE_RELEASE_ACTION_ID).
    by apply (leased_ended hs a l).
  - by apply (leased_dropped hs a l).
Qed.

Lemma leased_renewal hs a t s : leased hs s -> leased hs (snd (with_lease a (set_renewal t) s)).
Proof.
  intros Hs. apply (leased_alter hs); [done| |done|done|done].
  intros l Hl. cbn [strong set_renewal lease_active]. split_and!; [by apply (le_count _ _ Hs)|by apply (le_active _ _ Hs a)|done].
Qed.
Lemma leased_due hs t : upholds (leased hs) (due t : DM (list LocalLease)).
Proof.
  unfold due. intros s Hs. apply pwp_bind, pwp_gets, pwp_bind, pwp_modify. apply pwp_bind.
  eapply pwp_mono; [apply upholds_for_each; [|by apply leased_live]|done|done].
  intros p s1 H1. by apply leased_renewal.
Qed.

(** ** Runs *)

Definition handle_call (c : driver_call (Net := Net)) : bool :=
  match c with Do_attach _ _ _ | Do_clone_lease _ | Do_drop_lease _ => true | _ => false end.

(** A handle is made by attaching an object or by cloning a handle, and
    dropped; [hs]: those there are.  Anything else may happen in between. *)
Inductive handling : list Z -> Runtime -> Prop :=
| Handling_new n d o : handling [] (Runtime_new n d o)
| Handling_attach hs s o t l a s' : handling hs s -> attach_object o t l s = (Ok a, s') -> handling (a :: hs) s'
| Handling_refused hs s o t l e s' : handling hs s -> attach_object o t l s = (Err (Raise e), s') -> handling hs s'
| Handling_clone hs s a x s' : handling hs s -> a ∈ hs -> clone_lease a s = (x, s') -> handling (a :: hs) s'
| Handling_drop hs hs' s a x s' :
    handling hs s -> hs ≡ₚ a :: hs' -> drop_lease a s = (x, s') -> x <> Err Panic -> handling hs' s'
| Handling_call hs s c x s' :
    handling hs s -> handle_call c = false -> act c s = (x, s') -> x <> Err Panic -> handling hs s'.

Lemma leased_act hs c : handle_call c = false -> upholds (leased hs) (act c).
Proof.
  pose proof (leased_same hs) as Hsame. destruct c; intros Hc; try done; cbn [act].
  - apply upholds_bind; [|intros; apply upholds_ret]. apply (same_progress _ Hsame). intros. apply leased_due.
  - apply upholds_bind; [|intros; apply upholds_ret]. by apply same_spawn.
  - by apply same_cancel.
  - apply upholds_bind; [|intros; apply upholds_ret]. by apply same_pending.
  - apply upholds_bind; [|intros; apply upholds_ret]. unfold next_object. repeat upholds_step. by apply same_modify.
  - by apply same_object_control.
  - unfold fail_committed_migration, store_state. by apply same_modify.
  - apply same_modify; [done|]. intros s. by destruct (worker_step _ _ _ _).
  - unfold serve. by apply same_part.
  - by apply same_modify.
Qed.

Lemma handling_leased hs s : handling hs s -> leased hs s.
Proof.
  induction 1 as [n d o|hs s o t l a s' _ IH Ha|hs s o t l e s' _ IH Ha|hs s a x s' _ IH Hin Ha
                 |hs hs' s a x s' _ IH Hp Ha Hx|hs s c x s' _ IH Hc Ha Hx].
  - split; try done; [set_solver|..]; cbn; try (intros a l Hl; by apply lookup_empty_Some in Hl).
    unfold Objects.map_len. rewrite map_size_empty. lia.
  - pose proof (leased_attach_object hs o t l s IH) as Hp. unfold pwp in Hp. by rewrite Ha in Hp.
  - pose proof (leased_attach_object hs o t l s IH) as Hp. unfold pwp in Hp. by rewrite Ha in Hp.
  - pose proof (leased_clone hs a s IH Hin) as Hp. by rewrite Ha in Hp.
  - pose proof (leased_drop hs' a s (leased_perm _ _ _ Hp IH)) as Hd. unfold pwp in Hd. rewrite Ha in Hd. by destruct x as [|[]].
  - pose proof (leased_act hs c Hc s IH) as Hp. unfold pwp in Hp. rewrite Ha in Hp. by destruct x as [|[]].
Qed.

(** ** What is due *)

Definition due_lease t s (p : ObjectId * Z) : option (Z * LocalLease) :=
  l ← upgrade p.2 s; if is_due t l then Some (p.2, l) else None.

Lemma due_returns t s : fst (due t s) = Ok (snd <$> omap (due_lease t s) (map_to_list (live_table s))).
Proof.
  unfold due, mbind, M_bind, gets, modify. cbn [id].
  change (filter _ (lease_table s)) with (live_table s).
  change (omap _ (map_to_list (live_table s))) with (omap (due_lease t s) (map_to_list (live_table s))).
  generalize (set_lease_table (live_table s) s).
  set (ready := omap (due_lease t s) (map_to_list (live_table s))). clearbody ready. intros s1.
  assert (Hall : forall s1, exists s2, for_each (fun p : Z * LocalLease => with_lease p.1 (set_renewal (t + conf_lease_interval cfg))) ready s1 = (Ok tt, s2)).
  { induction ready as [|p ready IH]; intros s2; [by eexists|]. cbn [for_each]. unfold mbind, M_bind. apply IH. }
  destruct (Hall s1) as [s2 Hs2]. unfold DM in *. by rewrite Hs2.
Qed.

Lemma due_elem hs t s l :
  leased hs s ->
  l ∈ (omap (due_lease t s) (map_to_list (live_table s))).*2 <->
  exists a, a ∈ hs /\ lease_store s !! a = Some l /\ next_renewal l <= t.
Proof.
  intros Hs. rewrite list_elem_of_fmap. split.
  - intros ([a x] & -> & ([o b] & Hin & Hb)%list_elem_of_omap). cbn [snd].
    apply bind_Some in Hb as (y & Hy & Hd). destruct (is_due t y) eqn:E; [|done]. injection Hd as <- <-.
    apply upgrade_some in Hy as [Hy Hn]. apply andb_true_iff in E as [_ E%Z.leb_le]. exists b. split_and!; [|done..].
    by apply (strong_held hs b y s).
  - intros (a & Ha & Hl & Ht). destruct (held_strong _ _ _ Hs Ha) as (x & Hx & _ & Hn). simplify_eq.
    exists (a, l). split; [done|]. apply list_elem_of_omap. exists (lease_object l, a). split.
    + apply elem_of_map_to_list, map_lookup_filter_Some. split; [by apply (le_listed _ _ Hs)|]. apply live_strong. eauto.
    + unfold due_lease. cbn [snd]. rewrite (proj2 (upgrade_some a l s)) by done. cbn [mbind option_bind].
      unfold is_due. rewrite (le_active _ _ Hs a l Hl), bool_decide_true by done. by rewrite (proj2 (Z.leb_le _ _) Ht).
Qed.

Lemma held_within_limit hs s : leased hs s -> len (remove_dups hs) <= Z.max 0 (conf_lease_limit cfg).
Proof.
  intros Hs. etrans; [|apply (le_limit _ _ Hs)]. unfold Objects.map_len, len. apply inj_le.
  rewrite <-length_map_to_list, <-(length_fmap snd). apply submseteq_length, NoDup_submseteq; [apply NoDup_remove_dups|].
  intros a Ha. apply (proj1 (elem_of_remove_dups _ _)) in Ha. destruct (held_strong _ _ _ Hs Ha) as (l & Hl & _ & Hn).
  apply list_elem_of_fmap. exists (lease_object l, a). split; [done|]. apply elem_of_map_to_list. by apply (le_listed _ _ Hs).
Qed.

Lemma attach_held hs a l t location s :
  leased hs s -> a ∈ hs -> lease_store s !! a = Some l ->
  attach (lease_object l) t location s = (Ok a, snd (clone_lease a s)).
Proof.
  intros Hs Ha Hl. destruct (held_strong _ _ _ Hs Ha) as (x & Hx & _ & Hn). simplify_eq.
  unfold attach, mbind, M_bind, gets. cbn [id]. rewrite (le_listed _ _ Hs a l Hl Hn). cbn [mbind option_bind].
  by rewrite (proj2 (upgrade_some a l s)) by done.
Qed.

(** C13: whatever handles are made, cloned and dropped between any other calls
    of the runtime, every handle holds an active lease that counts exactly its
    handles; all handles of an object share one lease, and attaching the object
    again shares it too; there are no more leases than the limit; the leases to
    renew at a time are exactly those with a handle whose renewal has come; and
    dropping a handle releases the object exactly when it was the last. *)
Theorem handles_share_leases hs s :
  handling hs s ->
  (forall a, a ∈ hs -> exists l, lease_store s !! a = Some l /\ lease_active l = true /\
     strong l = count_occ Z.eq_dec hs a) /\
  (forall a b la lb, a ∈ hs -> b ∈ hs -> lease_store s !! a = Some la -> lease_store s !! b = Some lb ->
     lease_object la = lease_object lb -> a = b) /\
  len (remove_dups hs) <= Z.max 0 (conf_lease_limit cfg) /\
  (forall a l t location, a ∈ hs -> lease_store s !! a = Some l ->
     attach (lease_object l) t location s = (Ok a, snd (clone_lease a s))) /\
  (forall t, exists ready, fst (due t s) = Ok ready /\
     forall l, l ∈ ready <-> exists a, a ∈ hs /\ lease_store s !! a = Some l /\ next_renewal l <= t) /\
  (forall a l, a ∈ hs -> lease_store s !! a = Some l ->
     drop_lease a s = if bool_decide (count_occ Z.eq_dec hs a = 1%nat)
       then release_object (lease_object l) (lease_type l) (lease_location l) (ended_lease a s)
       else (Ok tt, dropped_lease a s)).
Proof.
  intros Hs%handling_leased. split_and!.
  - intros a Ha. destruct (held_strong _ _ _ Hs Ha) as (l & Hl & Hc & Hn). exists l. split_and!; [done| |done].
    rewrite (le_active _ _ Hs a l Hl). by apply bool_decide_true.
  - intros a b la lb Ha Hb Hla Hlb Ho. destruct (held_strong _ _ _ Hs Ha) as (x & Hx & _ & Hn). simplify_eq.
    destruct (held_strong _ _ _ Hs Hb) as (y & Hy & _ & Hm). simplify_eq.
    pose proof (le_listed _ _ Hs a la Hla Hn) as Hta. pose proof (le_listed _ _ Hs b lb Hlb Hm) as Htb. congruence.
  - exact (held_within_limit hs s Hs).
  - intros a l t location. by apply (attach_held hs).
  - intros t. eexists. split; [apply due_returns|]. intros l. by apply due_elem.
  - intros a l Ha Hl. destruct (held_strong _ _ _ Hs Ha) as (x & Hx & Hc & Hn). simplify_eq.
    rewrite (drop_lease_eq _ _ _ _ Hs Hl Hn). by rewrite Hc.
Qed.
End Leases.

(** ** Examples *)

(** An object of locality 1 is attached twice. *)
Definition ex_home : ObjectLocation := mkObjectLocation 1 0 1 1 1.
Definition ex_once : RuntimeState.Runtime ExNet := (attach_object ex_object 7 ex_home ex_runtime).2.
Definition ex_twice : RuntimeState.Runtime ExNet := (attach_object ex_object 7 ex_home ex_once).2.

Lemma ex_twice_handling : handling [0; 0] ex_twice.
Proof.
  assert (E1 : fst (attach_object ex_object 7 ex_home ex_runtime) = Ok 0) by (vm_compute; reflexivity).
  assert (E2 : fst (attach_object ex_object 7 ex_home ex_once) = Ok 0) by (vm_compute; reflexivity).
  eapply (Handling_attach [0] ex_once ex_object 7 ex_home 0); [|rewrite (surjective_pairing (attach_object _ _ _ _)); by rewrite E2].
  eapply (Handling_attach [] ex_runtime ex_object 7 ex_home 0); [constructor|].
  rewrite (surjective_pairing (attach_object _ _ _ _)). by rewrite E1.
Qed.

Definition ex_lease : LocalLease := default (mkLocalLease ex_object 7 ex_home false 0 0) (lease_store ex_twice !! 0).
Lemma ex_lease_held : lease_store ex_twice !! 0 = Some ex_lease.
Proof. vm_compute. reflexivity. Qed.
Lemma ex_lease_strong : strong ex_lease = 2%nat.
Proof. vm_compute. reflexivity. Qed.

(** Dropping one of the two sends nothing. *)
Lemma handles_share_leases_witness : drop_lease 0 ex_twice = (Ok tt, dropped_lease 0 ex_twice).
Proof.
  destruct (handles_share_leases [0; 0] ex_twice ex_twice_handling) as (_ & _ & _ & _ & _ & Hdrop).
  rewrite (Hdrop 0 ex_lease (list_elem_of_here 0 [0]) ex_lease_held). reflexivity.
Defined.
