(* ===== verification/ClientFaults.v ===== *)
(** * ClientFaults: where clients do not do what they mean to

    Three cases in which the code departs from what the documents of its phases
    promise, each on a concrete runtime. *)
From Stdlib Require Import Strings.Byte.
From S2P Require Import Prelude Text Protocol Transport Error RuntimeTypes RuntimeWire Dedup Action Pending Domain ObjectWire ObjectRegistry Objects Migration ObjectRuns ObjectWorld RuntimeState Driver DriverRuns DriverRequests DriverCalls Client ClientCalls.

(** The configuration of [Driver]: four leases. *)
#[local] Existing Instance ex_surroundings.

(** *** Creation at the locality itself

    phase-c-objects.md: an unknown domain "is a typed error and leaves no
    object".  Neither the domain nor the state of the runtime is looked at. *)
Definition ex_alone : RuntimeState.Runtime ExNet := Runtime_new (mkExNet [] [] 8) ex_start (ex_service 0).
Definition ex_stopped : RuntimeState.Runtime ExNet := set_state_cell (state_code Stopped) ex_alone.
Definition ex_create (d : DomainId) (root : bool) : M (RuntimeState.Runtime ExNet) RuntimeError CreateFuture :=
  create_at_inner ex_counter (Place_new 0 d) (U64 5) root.

Definition created_object (x : result (exn RuntimeError) CreateFuture * RuntimeState.Runtime ExNet) : option ObjectEntry :=
  match x.1 with Ok f => entries (objects x.2) !! create_object f | Err _ => None end.

Lemma local_creation_unchecked :
  domains (pools ex_stopped) !! 77 = None /\ runtime_state ex_stopped = Stopped /\
  (e ← created_object (ex_create 77 false ex_stopped); Some (ObjectLocation_domain (location e))) = Some 77.
Proof. vm_compute. by split_and!. Qed.

(** *** A rooted creation without its root

    The object is created, with its root, before its handle is attached, and the
    [ObjectRoot] that would release the root is only made by a poll that has the
    handle.  A locality that holds as many leases as it may leaves the object
    behind, and so does one that drops the future before it polls it. *)
Definition ex_objects_held : RuntimeState.Runtime ExNet :=
  ((ex_create 0 false;; ex_create 0 false;; ex_create 0 false;; ex_create 0 false) ex_alone).2.

Definition rooted_alone (x : result (exn RuntimeError) CreateFuture * RuntimeState.Runtime ExNet) : bool :=
  match x.1 with
  | Ok f =>
      let s := (create_drop f x.2).2 in
      match entries (objects s) !! create_object f with
      | Some e => bool_decide (roots e = 1%nat) && bool_decide (lease_table s !! create_object f = None)
      | None => false
      end
  | Err _ => false
  end.
Definition attach_failed (x : result (exn RuntimeError) CreateFuture * RuntimeState.Runtime ExNet) : bool :=
  match x.1 with Ok f => match create_ready f with Some (Err _) => true | _ => false end | Err _ => false end.

Lemma rooted_creation_leaks :
  attach_failed (ex_create 0 true ex_objects_held) = true /\ rooted_alone (ex_create 0 true ex_objects_held) = true /\
  attach_failed (ex_create 0 true ex_alone) = false.
Proof. vm_compute. by split_and!. Qed.

(** The same, for a future that is dropped with the handle it holds: no lease is
    left for the object, only the root. *)
Definition ex_dropped : option ObjectEntry :=
  match ex_create 0 true ex_alone with
  | (Ok f, s) => entries (objects (create_drop f s).2) !! create_object f
  | _ => None
  end.
Lemma dropped_creation_leaks : option_map (fun e => (roots e, bool_decide (leases e = ∅))) ex_dropped = Some (1%nat, true).
Proof. vm_compute. done. Qed.

#[local] Existing Instance ex_client.

(** *** The deadline of a redirected call

    phase-d-migration.md: a redirect is retried "with the same RequestId and
    original deadline".  The retry of the call of [ClientCalls] is sent with a
    whole deadline again: its entry expires later than the call did. *)
Definition deadline_of (r : RequestId) (s : RuntimeState.Runtime ExNet) : option Z :=
  Pending.expires_at <$> Pending.entries (pending s) !! r.
Definition ex_retried : RuntimeState.Runtime ExNet := (call_poll (T := u64) ex_cast ex_call 0 ex_redirected).2.
Lemma redirect_restarts_deadline :
  match deadline_of (call_request ex_call) ex_dialled, deadline_of (call_request ex_call) ex_retried with
  | Some first, Some second => first <? second
  | _, _ => false
  end = true.
Proof. vm_compute. done. Qed.
